(* ===== verification/_CoqProject ===== *)
-Q . S2P
Prelude.v
Bytes.v
RustStd.v
Index.v
Record.v
Segment.v
Partition.v
PartitionSpec.v
GroupCommit.v
Recover.v
RecoverSpec.v
Topic.v
Retention.v
Compaction.v
RaftMessages.v
RaftLog.v
RaftStore.v
RaftState.v
RaftDurable.v
RaftSafety.v
RaftElection.v
RaftNet.v
RaftDriver.v
RaftLogs.v
RaftGhost.v
RaftGrow.v
RaftCore.v
RaftHandlers.v
RaftFollow.v
RaftEvents.v
RaftCrash.v
RaftRestart.v
RaftCluster.v
RaftRound.v
RaftAgreement.v
RaftCommand.v
RaftPartition.v
RaftPartitionSpec.v
RaftProposals.v
RaftTransfer.v
PartitionTransfer.v
Producers.v
Coord.v
Wire.v
Auth.v
Handle.v
Dataplane.v
DataplaneSpec.v
Registry.v
RegistrySpec.v
Delivery.v
Server.v
ServerSpec.v
Pipelined.v
Fsutil.v
Groups.v
GroupsSpec.v
Transport.v
TransportSpec.v
Schema.v
Backup.v
BackupSpec.v
Tiered.v
TieredSpec.v
Http.v
HttpSpec.v
EsClient.v
Config.v
RaftStatus.v
