(* ===== verification/Prelude.v ===== *)
(** * The es broker: a verification library

    The es broker is a log server: topics made of partitions, partitions made of
    append-only segment files, optional replication of a partition by Raft,
    retention and compaction of old segments, deduplication of retried producer
    requests, consumer groups, API keys, a schema registry, and two protocols (HTTP
    and a binary one) in front.  This library models the code that decides whether
    data is kept, found again, agreed on and given only to those who may have it,
    and proves the properties that make it correct.  Paths below are under
    src/crates/es-broker/src/ unless said otherwise.

    ** Parts and how they interact

    A produce request arrives on a connection that was identified at its handshake
    ([binary/server.rs], frames and messages in es-protocol/src/wire.rs) and is
    handed to the data plane ([dataplane.rs]), which checks the key's access and
    rate ([auth.rs]), routes the records to partitions ([topic.rs]), asks the
    producer's window which of them were written before ([producers.rs]) and
    appends the rest to the partitions ([partition_handle.rs]).  A partition
    ([partition.rs]) encodes records ([storage/record.rs]), writes them and sparse
    index entries to the active segment ([storage/segment.rs], [storage/index.rs]),
    publishes the new watermark and shares one fsync among waiting writers.  Reads
    walk the segments from the index.  Retention ([retention.rs]) and compaction
    ([compaction.rs]) replace sealed segments; opening a partition
    ([storage/recover.rs]) completes an interrupted compaction and cuts the torn
    tail of the active segment.  A replicated partition ([raft_partition.rs])
    proposes its batches to a Raft node: the pure state machine of [raft/state.rs]
    over the log of [raft/log.rs], whose loop [raft/node.rs] persists every recorded
    operation before a message leaves over an authenticated session
    ([raft/transport.rs]), and applies what commits to its partition.  [coord.rs]
    assigns partitions to the members of a consumer group, [groups.rs] keeps their
    offsets, [schema.rs] the registered schemas; all three and the key store write
    their files through [fsutil.rs].  es-tools dumps a data directory into an archive
    and restores it.

    ** Files

    Foundations
    - [Prelude], [Bytes], [RustStd]: outcomes ([Ok], [Err], [Panic]), list lemmas,
      machine integers as [Z] with their wrap-around and saturation written out,
      big-endian fields, readers, the CRC interface [Crc32], and the parts of the
      Rust library the code uses (binary search, sorting with deduplication,
      character tests).

    Storage
    - [Record], [Index], [Segment]: the files of a segment.  A file is its list of
      bytes.  [RecordCursor] is the record [cursor] and the recursion of
      [next_record] is bounded by its one refill; reading loops recurse on fuel that
      the file length bounds, and the theorems give results, not only partial
      correctness.
    - [Partition]: the state of a partition with its files ([Partition] and
      [SegmentAppender]) and every operation.  Failures of system calls are a
      schedule of outcomes passed to the operation.  [PartitionSpec]: the abstract
      log, the invariant [part_wf] and the refinement theorems.
    - [GroupCommit]: the interleavings of concurrent appends as a step relation.
    - [Recover], [RecoverSpec]: opening a directory, and what it recovers.
    - [Topic], [Retention], [Compaction]: the remaining storage decisions.
    - [Fsutil]: atomic replacement of a file, over a directory with power losses.
    - [Backup], [BackupSpec]: es-tools' dump.rs and restore.rs.
    - [Registry], [RegistrySpec]: the topics of a broker on disk (broker.rs, topic.rs)
      and the handlers of [http/topics.rs]; every operation is a list of directory
      operations that a crash may stop.
    - [Tiered], [TieredSpec]: the cold store ([tiered_storage.rs]) and the passes of
      retention and compaction over all topics.

    Replication
    - [RaftMessages], [RaftLog], [RaftStore]: wire format, log, stable storage.
    - [RaftState]: all of [raft/state.rs], and the events of the loop in
      [raft/node.rs] ([raft_event], [node_event]).
    - [RaftDurable], [RaftSafety]: what holds of one node, for every event.
    - [RaftElection], [RaftNet]: elections, with an adversarial network and crashes.
    - [RaftDriver], [RaftCluster]: the whole driver of a node, snapshots included, and
      a cluster of them; a crash stops a round before, between or inside its writes.
    - [RaftLogs], [RaftGhost], [RaftGrow]: whole logs, the history of a run, how it
      grows.  [RaftCore], [RaftHandlers], [RaftFollow], [RaftEvents]: every handler
      keeps a node in step with the history.  [RaftCrash], [RaftRestart]: so does a
      crash.  [RaftRound], [RaftAgreement]: the invariant of a cluster, and what
      follows from it.
    - [RaftCommand], [RaftPartition], [RaftPartitionSpec], [RaftProposals]: the
      entries of a replicated partition, the apply loop, the proposers with their
      waiters as a step relation.
    - [RaftTransfer], [PartitionTransfer]: the chunks that catch up a lagging
      follower; the class [SnapshotTransfer] is the node's view of the partition.
    - [Transport], [TransportSpec]: the authenticated session between nodes.

    Requests
    - [Producers]: sequence windows, journal and snapshot of the deduplication.
    - [Auth]: access rules, rate limits, the key store and its file.
    - [Handle]: the class of partitions as the data plane sees them and its laws.
    - [Dataplane], [DataplaneSpec], [Delivery]: produce and consume, composed from
      the parts above, and what they promise against the laws of [Handle].
    - [Wire]: the messages and frames of the binary protocol.
    - [Server], [ServerSpec]: the connection, from handshake to response, and the
      client.
    - [Pipelined]: the client that shares a connection among callers.
    - [EsClient]: the stand-alone blocking client (crates/es-client/src/lib.rs), a
      second implementation of the protocol's client half, against the broker.
    - [Coord], [Groups], [GroupsSpec]: rebalancing and committed offsets.
    - [Http], [HttpSpec]: the HTTP handlers over the state of a whole broker without
      Raft ([server]), one type of requests and their dispatch ([handle], [serve]),
      and what one tenant can do to another.
    - [Schema]: the schema registry.
    - [Config]: the settings of a process ([config.rs]), how main.rs fills them and the
      checks they pass; [RaftStatus]: what a member reports about its groups.

    ** What the theorems show

    - Storage: a record codec that round-trips, is canonical and never slices out of
      range; an index lookup equal to its specification; reads that skip nothing;
      appends, deletions and compactions that refine the abstract log on every
      error path; polling consumers that see every record once; recovery from a cut
      at any byte and from a crash at any step of a compaction; no acknowledgement
      before an fsync; files replaced as a whole or not at all; archives that give
      back what they cover and cannot write outside the layout of a data directory;
      topics created, reconfigured and deleted as a whole, wherever a crash falls;
      retention that deletes only what the cold store holds.
    - Raft: one leader per term over any run; state machine safety and leader
      completeness over any run, with snapshots, losses and crashes inside writes;
      restarts that always succeed; committed entries never change on a
      node and reach the application once and in order; the commit rule; the log
      append; stable storage equal to the runtime state after every event, through
      file writes, torn writes and restarts; replicas that apply the same entries
      hold the same records; offsets of a leader's proposals are disjoint and a
      proposer is answered for its own batch only; a snapshot transfer ends and
      catches the follower up; a session accepts only what the authenticated peer
      sealed for it, in order, and delivers it.
    - Requests: a produce appends exactly its new records and answers their offsets,
      a refused one leaves no trace; a retry is recognised; an acknowledged record
      is consumed; calls over the wire are the local ones; produces run in order
      of arrival; callers of a shared connection get their own answers; access is by rule, a revoked key is dead, also on connections that
      are already open; the byte rate of a key is bounded; groups belong to their
      owners and their offsets survive restarts; a rebalance is valid and balanced; a
      registered schema is permanent; every message and file format round-trips; a key
      without administration rights changes and sees only what its rules allow; a
      consumer that reads through its group and commits gets every record; the limits a
      process accepts fit the frames, and its cluster settings are a membership the
      Raft theorems apply to; a reported quorum is one.

    Several theorems and examples state limits of the code instead (a record larger
    than the scan window reads as truncated, a retention time of 2^63 ms wraps, an
    append that was waiting for the lock passes a fence, a batch proposed with a
    stale base is acknowledged and lost, a backup of a crashed compaction, and more):
    each stands next to the component it is about.

    ** Assumptions and bounds

    - Third-party code is a parameter of the definitions that use it: the CRC (class
      [Crc32], instantiated by the IEEE polynomial in the examples), SHA-256 and
      base64 ([Hashing]), gzip ([Gzip]), JSON parsing ([JsonText], [ManifestText]),
      the tar container ([Container]) and the iteration order of hash maps.  What a
      theorem needs of them is a law of the class or a hypothesis.
    - The theorems on reads and recovery assume that records fit the window used to
      read them (256 KiB, or the larger of it and the read limit), which the code
      needs; [next_record_window_limit] shows it.
    - Election safety, state machine safety and leader completeness are for a fixed
      membership, terms and indices below 2^64, and nodes with a chunked snapshot
      transfer, which raft_partition.rs always configures.  A store that fails stops
      the node, which is a crash of the model.  On the membership: the code applies membership changes
      of several nodes at once when they commit, which Raft does not make safe.
    - In [committed_entries_stable] a snapshot that ends inside the committed prefix
      must agree with it; the code does not check this and relies on the leader.
    - [raft_session_authentic] assumes that codes under the session key are made by
      the two ends only, the standard assumption on HMAC.
    - Recursion on fuel occurs where the code loops on a file or a socket; the fuel is
      a length of the input, and the theorems state the results it is enough for.

    ** Not modelled

    Sockets, TLS, timers and background tasks (when they fire is arbitrary), the
    parsing of HTTP requests and arguments, the rendering of responses and metrics, the
    es command line tool (it calls the HTTP API and prints), and the start-up order of
    tasks in lib.rs and broker.rs. *)

From Stdlib Require Export ZArith Lia.
From stdpp Require Export prelude list gmap strings sorting.

#[export] Set Default Goal Selector "!".

(** ** Outcomes

    Fallible code returns [Ok] or [Err]; [Panic] is a Rust panic (a slice or
    index out of range, an [unwrap] of [None]). *)

Inductive outcome (E A : Type) : Type :=
| Ok (a : A)
| Err (e : E)
| Panic.
Arguments Ok {E A} a.
Arguments Err {E A} e.
Arguments Panic {E A}.

#[global] Instance outcome_ret E : MRet (outcome E) := fun A a => Ok a.
#[global] Instance outcome_bind E : MBind (outcome E) := fun A B f m =>
  match m with Ok a => f a | Err e => Err e | Panic => Panic end.
#[global] Instance outcome_fmap E : FMap (outcome E) := fun A B f m =>
  match m with Ok a => Ok (f a) | Err e => Err e | Panic => Panic end.

(** [map_err] of the standard library. *)
Definition map_err {E F A} (f : E -> F) (m : outcome E A) : outcome F A :=
  match m with Ok a => Ok a | Err e => Err (f e) | Panic => Panic end.

(** [ok_or]: an option as an outcome. *)
Definition ok_or {E A} (e : E) (o : option A) : outcome E A :=
  match o with Some a => Ok a | None => Err e end.

Lemma bind_ok_inv {E A B} (m : outcome E A) (f : A -> outcome E B) b :
  m ≫= f = Ok b -> exists a, m = Ok a /\ f a = Ok b.
Proof. destruct m; cbn; [eauto|done..]. Qed.

(** ** Lengths as integers *)

Definition len {A} (l : list A) : Z := Z.of_nat (length l).
#[global] Arguments len {A} l : simpl never.

(** [&l[a..b]]: panics unless [a <= b <= l.len()]. *)
Definition slice {E A} (l : list A) (a b : Z) : outcome E (list A) :=
  if ((0 <=? a) && (a <=? b) && (b <=? len l))%Z
  then Ok (take (Z.to_nat (b - a)) (drop (Z.to_nat a) l))
  else Panic.

(** ** Tactics *)

(** Split the conjunctions in the context. *)
Ltac destr_conj :=
  repeat match goal with
         | H : _ /\ _ |- _ => destruct H
         | H : exists _, _ |- _ => destruct H
         end.

(** Turn boolean comparisons in the context and the goal into propositions. *)
Ltac boolp :=
  repeat match goal with
         | H : andb _ _ = true |- _ => apply andb_prop in H; destruct H
         | H : (_ <? _)%Z = true |- _ => apply Z.ltb_lt in H
         | H : (_ <? _)%Z = false |- _ => apply Z.ltb_ge in H
         | H : (_ <=? _)%Z = true |- _ => apply Z.leb_le in H
         | H : (_ <=? _)%Z = false |- _ => apply Z.leb_gt in H
         | H : (_ =? _)%Z = true |- _ => apply Z.eqb_eq in H
         | H : (_ =? _)%Z = false |- _ => apply Z.eqb_neq in H
         | H : negb _ = true |- _ => apply negb_true_iff in H
         | H : negb _ = false |- _ => apply negb_false_iff in H
         end.

(** Case analysis on the first boolean test of the goal. *)
Ltac case_if :=
  match goal with
  | |- context [if ?b then _ else _] =>
      lazymatch type of b with bool => destruct b eqn:?; boolp end
  end.

Ltac case_if_in H :=
  match type of H with
  | context [if ?b then _ else _] =>
      lazymatch type of b with bool => destruct b eqn:?; boolp end
  end.

(** ** Length rewriting *)

Create Rewrite HintDb len.

Section Len.
Context {A : Type}.
Implicit Types l k : list A.
Local Open Scope Z_scope.

Lemma len_nonneg l : 0 <= len l.
Proof. unfold len. lia. Qed.

Lemma len_nil : len (@nil A) = 0.
Proof. reflexivity. Qed.

Lemma len_cons x l : len (x :: l) = 1 + len l.
Proof. unfold len. cbn. lia. Qed.

Lemma len_app l k : len (l ++ k) = len l + len k.
Proof. unfold len. rewrite length_app. lia. Qed.

Lemma len_take n l : len (take n l) = Z.min (Z.of_nat n) (len l).
Proof. unfold len. rewrite length_take. lia. Qed.

Lemma len_drop n l : len (drop n l) = Z.max 0 (len l - Z.of_nat n).
Proof. unfold len. rewrite length_drop. lia. Qed.

Lemma len_zero l : len l = 0 <-> l = [].
Proof. unfold len. destruct l; cbn; split; intros; [done..|lia|done]. Qed.

Lemma len_pos l : l <> [] -> 0 < len l.
Proof. destruct l; [done|]. rewrite len_cons. pose proof (len_nonneg l). lia. Qed.

Lemma length_len l : length l = Z.to_nat (len l).
Proof. unfold len. lia. Qed.

Lemma len_replicate n (x : A) : len (replicate n x) = Z.of_nat n.
Proof. unfold len. by rewrite length_replicate. Qed.

#[global] Instance len_Permutation : Proper (Permutation ==> eq) (@len A).
Proof. intros l k H. unfold len. by rewrite H. Qed.

Lemma len_fmap {B} (f : A -> B) l : len (f <$> l) = len l.
Proof. unfold len. by rewrite length_fmap. Qed.
End Len.

#[export] Hint Rewrite @len_cons @len_app @len_take @len_drop @len_fmap
  @len_replicate : len.

(** Normalise lengths, add non-negativity facts and call [lia]. *)
Ltac len_facts :=
  repeat match goal with
         | |- context [len ?l] =>
             lazymatch goal with
             | _ : 0 <= len l |- _ => fail
             | _ : (0 <= len l)%Z |- _ => fail
             | _ => pose proof (len_nonneg l)
             end
         | _ : context [len ?l] |- _ =>
             lazymatch goal with
             | _ : (0 <= len l)%Z |- _ => fail
             | _ => pose proof (len_nonneg l)
             end
         end.
Ltac len_nils :=
  repeat match goal with
         | |- context [@len ?A []] => change (@len A []) with 0%Z
         | H : context [@len ?A []] |- _ => change (@len A []) with 0%Z in H
         end.
Ltac len_lia := autorewrite with len in *; len_nils; len_facts; lia.

(** ** Slices *)

Section Slice.
Context {E A : Type}.
Implicit Types l k m : list A.
Local Open Scope Z_scope.

Lemma slice_ok l a b :
  0 <= a -> a <= b -> b <= len l ->
  slice (E:=E) l a b = Ok (take (Z.to_nat (b - a)) (drop (Z.to_nat a) l)).
Proof.
  intros Ha Hb Hl. unfold slice.
  by rewrite (proj2 (Z.leb_le 0 a) Ha), (proj2 (Z.leb_le a b) Hb), (proj2 (Z.leb_le b _) Hl).
Qed.

(** The middle part of a three-part list. *)
Lemma slice_mid l k m a b :
  a = len l -> b = len l + len k -> slice (E:=E) (l ++ k ++ m) a b = Ok k.
Proof.
  intros -> ->. rewrite slice_ok by len_lia.
  replace (Z.to_nat (len l)) with (length l) by (unfold len; lia).
  rewrite drop_app_length.
  replace (Z.to_nat (len l + len k - len l)) with (length k) by (unfold len; lia).
  by rewrite take_app_length.
Qed.

Lemma slice_inv l a b r :
  slice (E:=E) l a b = Ok r ->
  exists u v, l = u ++ r ++ v /\ len u = a /\ len r = b - a.
Proof.
  unfold slice. intros H. case_if_in H; [|done]. simplify_eq.
  exists (take (Z.to_nat a) l), (drop (Z.to_nat (b - a)) (drop (Z.to_nat a) l)).
  rewrite take_drop, take_drop. repeat split; len_lia.
Qed.

Lemma slice_skip l k a b :
  len l <= a -> a <= b ->
  slice (E:=E) (l ++ k) a b = slice k (a - len l) (b - len l).
Proof.
  intros Ha Hb. unfold slice. autorewrite with len.
  destruct ((0 <=? a) && (a <=? b) && (b <=? len l + len k)) eqn:E1;
    destruct ((0 <=? a - len l) && (a - len l <=? b - len l) && (b - len l <=? len k)) eqn:E2;
    len_facts; [|lia..|done].
  f_equal. rewrite drop_app_ge by (unfold len in *; lia).
  f_equal; [|f_equal]; unfold len in *; lia.
Qed.

Lemma slice_here k m a b : a = 0 -> b = len k -> slice (E:=E) (k ++ m) a b = Ok k.
Proof. intros -> ->. apply (slice_mid [] k m); [done|len_lia]. Qed.

Lemma slice_full l a b : a = 0 -> b = len l -> slice (E:=E) l a b = Ok l.
Proof. intros -> ->. rewrite <- (app_nil_r l) at 1. by apply slice_here. Qed.

Lemma slice_eq l a b b' r :
  slice (E:=E) l a b = Ok r -> b' = b -> slice (E:=E) l a b' = Ok r.
Proof. by intros ? ->. Qed.

Lemma slice_len l a b r : slice (E:=E) l a b = Ok r -> len r = b - a.
Proof. intros Hs. by apply slice_inv in Hs as (? & ? & _ & _ & ?). Qed.

(** An in-bounds slice does not panic, and neither does what follows it. *)
Lemma slice_bind_np {B} l a b (k : list A -> outcome E B) :
  0 <= a -> a <= b -> b <= len l -> (forall r, len r = b - a -> k r <> Panic) ->
  slice l a b ≫= k <> Panic.
Proof.
  intros Ha Hb Hl Hk. rewrite slice_ok by done. apply Hk.
  apply (slice_len l a b). by apply slice_ok.
Qed.

(** Two adjacent slices make one. *)
Lemma slice_join l a b c r s :
  slice (E:=E) l a b = Ok r -> slice (E:=E) l b c = Ok s -> slice (E:=E) l a c = Ok (r ++ s).
Proof.
  unfold slice. intros H1 H2. case_if_in H1; [|done]. case_if_in H2; [|done]. simplify_eq.
  rewrite !(proj2 (Z.leb_le _ _)) by lia. cbn. f_equal.
  replace (Z.to_nat (c - a)) with (Z.to_nat (b - a) + Z.to_nat (c - b))%nat by lia.
  rewrite <- take_take_drop, drop_drop. do 3 f_equal. lia.
Qed.
End Slice.

(** Evaluate the next slice of a concatenation whose part lengths are known. *)
Ltac slice_at :=
  repeat (rewrite slice_skip by len_lia);
  first [rewrite slice_here by len_lia | rewrite slice_full by len_lia];
  cbn [mbind outcome_bind].

(** Decide the next boolean test of the goal by arithmetic on lengths. *)
Ltac bool_lia :=
  first [apply Z.ltb_lt | apply Z.ltb_ge | apply Z.leb_le | apply Z.leb_gt
        | apply Z.eqb_eq | apply Z.eqb_neq
        | apply negb_true_iff, Z.eqb_neq | apply negb_false_iff, Z.eqb_eq | idtac];
  len_lia.
Ltac if_true :=
  match goal with
  | |- context [if ?b then _ else _] =>
      let E := fresh in
      assert (b = true) as E by bool_lia; rewrite E; clear E; cbn [mbind outcome_bind]
  end.
Ltac if_false :=
  match goal with
  | |- context [if ?b then _ else _] =>
      let E := fresh in
      assert (b = false) as E by bool_lia; rewrite E; clear E; cbn [mbind outcome_bind]
  end.

(** ** Lists *)

Section ListFacts.
Context {A : Type}.
Implicit Types l k : list A.

Lemma last_snoc_inv l x : last l = Some x -> exists l', l = l' ++ [x].
Proof.
  destruct l as [|y l' _] using rev_ind; [done|].
  rewrite last_snoc. intros [= ->]. by exists l'.
Qed.

Lemma last_app_ne l k : k <> [] -> last (l ++ k) = last k.
Proof.
  destruct k as [|y k' _] using rev_ind; [done|]. intros _.
  by rewrite app_assoc, !last_snoc.
Qed.

Lemma drop_app_len l k n : n = length l -> drop n (l ++ k) = k.
Proof. intros ->. apply drop_app_length. Qed.

Lemma take_app_len l k n : n = length l -> take n (l ++ k) = l.
Proof. intros ->. apply take_app_length. Qed.

Lemma filter_all (P : A -> Prop) `{!forall x, Decision (P x)} l : Forall P l -> filter P l = l.
Proof.
  induction 1 as [|x l Hx Hl IH]; [done|]. by rewrite filter_cons, decide_True, IH.
Qed.

Lemma filter_none (P : A -> Prop) `{!forall x, Decision (P x)} l :
  Forall (fun x => ~ P x) l -> filter P l = [].
Proof.
  induction 1 as [|x l Hx Hl IH]; [done|]. by rewrite filter_cons, decide_False, IH.
Qed.

(** Distinct first components make a function. *)
Lemma nodup_fst_inj {B} (l : list (A * B)) (x : A) (a b : B) :
  NoDup l.*1 -> (x, a) ∈ l -> (x, b) ∈ l -> a = b.
Proof.
  induction l as [|[y c] l IH]; cbn; [intros _ Hn; by apply not_elem_of_nil in Hn|].
  rewrite NoDup_cons, !elem_of_cons. intros [Hk Hn] Ha Hb.
  assert (forall d, (y, d) ∈ l -> False) as Hf.
  { intros d Hd. apply Hk, list_elem_of_fmap. by exists (y, d). }
  destruct Ha as [Ha|Ha], Hb as [Hb|Hb]; simplify_eq; [done|by destruct (Hf b)|by destruct (Hf a)|by apply IH].
Qed.
End ListFacts.
