(* ===== verification/Bytes.v ===== *)
(** * Bytes and machine integers

    Bytes, fixed-width integer wrap-around, big-endian encoding as
    [to_be_bytes]/[from_be_bytes] do it, the bounds-checked byte reader shared
    by the decoders, and the checksum interface. *)

From Stdlib Require Export Strings.Byte.
From S2P Require Export Prelude.

#[local] Open Scope Z_scope.

(** ** Bytes *)

#[global] Instance byte_eq_dec : EqDecision byte := Byte.byte_eq_dec.
#[global] Instance byte_countable : Countable byte :=
  inj_countable Byte.to_N Byte.of_N Byte.of_to_N.

Definition Z_of_byte (b : byte) : Z := Z.of_N (Byte.to_N b).

(** [z as u8]. *)
Definition byte_of_Z (z : Z) : byte :=
  match Byte.of_N (Z.to_N (z mod 256)) with Some b => b | None => x00 end.

(** ** Fixed widths *)

Definition U32_MAX : Z := 2 ^ 32 - 1.
Definition U64_MAX : Z := 2 ^ 64 - 1.
Definition I64_MAX : Z := 2 ^ 63 - 1.
Definition I64_MIN : Z := - 2 ^ 63.

(** [z as u<w>] and [z as i<w>]. *)
Definition wrap_u (w z : Z) : Z := z mod 2 ^ w.
Definition wrap_i (w z : Z) : Z := (z + 2 ^ (w - 1)) mod 2 ^ w - 2 ^ (w - 1).

(** [u64::saturating_add] and [u64::saturating_sub]. *)
Definition sat_add_u64 (a b : Z) : Z := Z.min (a + b) U64_MAX.
Definition sat_sub_u64 (a b : Z) : Z := Z.max (a - b) 0.
(** [i64::saturating_add] and [i64::saturating_sub]. *)
Definition sat_add_i64 (a b : Z) : Z := Z.max I64_MIN (Z.min (a + b) I64_MAX).
Definition sat_sub_i64 (a b : Z) : Z := Z.max I64_MIN (Z.min (a - b) I64_MAX).

Definition is_u (w z : Z) : Prop := 0 <= z < 2 ^ w.
Definition is_i (w z : Z) : Prop := - 2 ^ (w - 1) <= z < 2 ^ (w - 1).

(** ** Big-endian integers *)

(** [z.to_be_bytes()] on [n] bytes. *)
Fixpoint to_be (n : nat) (z : Z) : list byte :=
  match n with
  | O => []
  | S n' => to_be n' (z / 256) ++ [byte_of_Z z]
  end.

(** [uN::from_be_bytes]. *)
Definition from_be (l : list byte) : Z :=
  fold_left (fun acc b => acc * 256 + Z_of_byte b) l 0.

(** [iN::from_be_bytes] on [w] bits. *)
Definition from_be_i (w : Z) (l : list byte) : Z := wrap_i w (from_be l).

#[global] Arguments to_be : simpl never.
#[global] Arguments from_be : simpl never.

(** ** The byte reader

    The decoders of the binary formats read through a cursor ([Reader],
    [WireReader], [Cur]): a slice and a position.  Here the cursor is the unread
    suffix: reading [n] bytes fails when fewer are left, and consumes them
    otherwise. *)

Definition reader (A : Type) : Type := list byte -> option (A * list byte).

Definition rd_bytes (n : Z) : reader (list byte) := fun l =>
  if (n <=? len l) then Some (take (Z.to_nat n) l, drop (Z.to_nat n) l) else None.

Definition rd_uint (n : nat) : reader Z := fun l =>
  match rd_bytes (Z.of_nat n) l with
  | Some (b, l') => Some (from_be b, l')
  | None => None
  end.

Definition rd_ret {A} (a : A) : reader A := fun l => Some (a, l).
Definition rd_fail {A} : reader A := fun _ => None.
Definition rd_bind {A B} (m : reader A) (k : A -> reader B) : reader B := fun l =>
  match m l with Some (a, l') => k a l' | None => None end.

#[global] Instance reader_ret : MRet reader := @rd_ret.
#[global] Instance reader_bind : MBind reader := fun A B k m => rd_bind m k.

(** [for _ in 0..n { out.push(item?) }]. *)
Fixpoint rd_repeat {A} (n : nat) (m : reader A) : reader (list A) :=
  match n with
  | O => rd_ret []
  | S n' => rd_bind m (fun a => rd_bind (rd_repeat n' m) (fun r => rd_ret (a :: r)))
  end.

(** ** CRC-32

    [crc32fast::hash] is a third-party function from bytes to [u32]. *)
Class Crc32 : Type := {
  crc32 : list byte -> Z;
  crc32_range : forall l, 0 <= crc32 l < 2 ^ 32
}.

(** ** Lemmas: bytes *)

Lemma Z_of_byte_range b : 0 <= Z_of_byte b < 256.
Proof.
  unfold Z_of_byte. pose proof (Byte.to_N_bounded b). lia.
Qed.

Lemma Z_of_byte_of_Z z : Z_of_byte (byte_of_Z z) = z mod 256.
Proof.
  unfold Z_of_byte, byte_of_Z. pose proof (Z.mod_pos_bound z 256 ltac:(lia)).
  destruct (Byte.of_N (Z.to_N (z mod 256))) as [b|] eqn:E.
  - apply Byte.to_of_N in E. rewrite E. lia.
  - apply Byte.of_N_None_iff in E. lia.
Qed.

Lemma byte_of_Z_of_byte b : byte_of_Z (Z_of_byte b) = b.
Proof.
  unfold byte_of_Z. rewrite Z.mod_small by apply Z_of_byte_range.
  unfold Z_of_byte. rewrite N2Z.id. by rewrite Byte.of_to_N.
Qed.

Lemma Z_of_byte_inj b c : Z_of_byte b = Z_of_byte c -> b = c.
Proof. intros H. by rewrite <- (byte_of_Z_of_byte b), H, byte_of_Z_of_byte. Qed.

(** ** Lemmas: big-endian *)

Lemma to_be_length n z : length (to_be n z) = n.
Proof.
  revert z. induction n as [|n IH]; intros z; unfold to_be; fold to_be; [done|].
  rewrite length_app, IH. cbn. lia.
Qed.

Lemma to_be_len n z : len (to_be n z) = Z.of_nat n.
Proof. unfold len. by rewrite to_be_length. Qed.

Lemma from_be_snoc l b : from_be (l ++ [b]) = from_be l * 256 + Z_of_byte b.
Proof. unfold from_be. by rewrite fold_left_app. Qed.

Lemma from_be_nil : from_be [] = 0.
Proof. reflexivity. Qed.

Lemma from_be_range l : 0 <= from_be l < 256 ^ len l.
Proof.
  induction l as [|b l IH] using rev_ind; [vm_compute; split; congruence|].
  rewrite from_be_snoc. pose proof (Z_of_byte_range b).
  replace (len (l ++ [b])) with (len l + 1) by len_lia.
  rewrite Z.pow_add_r, Z.pow_1_r by len_lia. nia.
Qed.

Lemma from_to_be n z : from_be (to_be n z) = z mod 256 ^ Z.of_nat n.
Proof.
  revert z. induction n as [|n IH]; intros z.
  - rewrite Z.mod_1_r. reflexivity.
  - unfold to_be. fold to_be. rewrite from_be_snoc, IH, Z_of_byte_of_Z.
    rewrite Nat2Z.inj_succ, Z.pow_succ_r by lia.
    rewrite Z.rem_mul_r by lia. lia.
Qed.

Lemma to_from_be l n : n = length l -> to_be n (from_be l) = l.
Proof.
  intros ->. induction l as [|b l IH] using rev_ind; [done|].
  rewrite length_app, Nat.add_comm. cbn [length Nat.add]. unfold to_be. fold to_be.
  pose proof (Z_of_byte_range b). rewrite from_be_snoc.
  rewrite Z.div_add_l by lia. rewrite (Z.div_small (Z_of_byte b)) by lia.
  rewrite Z.add_0_r, IH. f_equal. f_equal.
  unfold byte_of_Z at 1. rewrite Z.add_comm, Z.mod_add by lia.
  fold (byte_of_Z (Z_of_byte b)). apply byte_of_Z_of_byte.
Qed.

Lemma from_be_small n z : 0 <= z < 256 ^ Z.of_nat n -> from_be (to_be n z) = z.
Proof. intros H. rewrite from_to_be. by apply Z.mod_small. Qed.

Lemma from_be4 z : is_u 32 z -> from_be (to_be 4 z) = z.
Proof. intros H. apply from_be_small. exact H. Qed.

Lemma from_be8 z : is_u 64 z -> from_be (to_be 8 z) = z.
Proof. intros H. apply from_be_small. exact H. Qed.

Lemma from_be2 z : is_u 16 z -> from_be (to_be 2 z) = z.
Proof. intros H. apply from_be_small. exact H. Qed.

(** ** Lemmas: wrap-around *)

Lemma wrap_u_range w z : 0 < w -> is_u w (wrap_u w z).
Proof. intros. unfold is_u, wrap_u. apply Z.mod_pos_bound. lia. Qed.

Lemma wrap_u_small w z : is_u w z -> wrap_u w z = z.
Proof. unfold is_u, wrap_u. apply Z.mod_small. Qed.

Lemma wrap_i_range w z : 0 < w -> is_i w (wrap_i w z).
Proof.
  intros Hw. unfold is_i, wrap_i. pose proof (Z.mod_pos_bound (z + 2 ^ (w - 1)) (2 ^ w)).
  assert (2 ^ w = 2 * 2 ^ (w - 1)) as E.
  { rewrite <- Z.pow_succ_r by lia. f_equal. lia. }
  lia.
Qed.

Lemma wrap_i_small w z : 0 < w -> is_i w z -> wrap_i w z = z.
Proof.
  unfold is_i, wrap_i. intros Hw Hz.
  assert (2 ^ w = 2 * 2 ^ (w - 1)) as E.
  { rewrite <- Z.pow_succ_r by lia. f_equal. lia. }
  rewrite Z.mod_small by lia. lia.
Qed.

Lemma wrap_i_mod w z : 0 < w -> wrap_i w (z mod 2 ^ w) = wrap_i w z.
Proof. intros. unfold wrap_i. by rewrite Zplus_mod_idemp_l. Qed.

Lemma wrap_u_wrap_i w z : 0 < w -> wrap_u w (wrap_i w z) = wrap_u w z.
Proof.
  intros. unfold wrap_u, wrap_i. rewrite Zminus_mod_idemp_l. f_equal. lia.
Qed.

Lemma from_be_i_to_be n z w :
  w = 8 * Z.of_nat n -> (0 < n)%nat -> is_i w z -> from_be_i w (to_be n z) = z.
Proof.
  intros -> Hn Hz. unfold from_be_i. rewrite from_to_be.
  replace (256 ^ Z.of_nat n) with (2 ^ (8 * Z.of_nat n)) by (rewrite Z.pow_mul_r by lia; done).
  rewrite wrap_i_mod by lia. apply wrap_i_small; [lia|done].
Qed.

Lemma from_be_i4 z : is_i 32 z -> from_be_i 32 (to_be 4 z) = z.
Proof. intros. apply from_be_i_to_be; [done|lia|done]. Qed.

Lemma from_be_i8 z : is_i 64 z -> from_be_i 64 (to_be 8 z) = z.
Proof. intros. apply from_be_i_to_be; [done|lia|done]. Qed.

(** A signed field read back and written again gives the same bytes. *)
Lemma to_be_from_be_i n l w :
  w = 8 * Z.of_nat n -> (0 < n)%nat -> n = length l -> to_be n (from_be_i w l) = l.
Proof.
  intros -> Hn Hl. rewrite <- (to_from_be l n Hl) at 2.
  assert (forall m a b, a mod 256 ^ Z.of_nat m = b mod 256 ^ Z.of_nat m -> to_be m a = to_be m b) as Hcong.
  { intros m. induction m as [|m IH]; intros a b Hab; [done|].
    unfold to_be. fold to_be. rewrite Nat2Z.inj_succ, Z.pow_succ_r in Hab by lia.
    rewrite !Z.rem_mul_r in Hab by lia.
    pose proof (Z.mod_pos_bound a 256 ltac:(lia)). pose proof (Z.mod_pos_bound b 256 ltac:(lia)).
    assert (a mod 256 = b mod 256) as E1 by nia.
    f_equal.
    - apply IH. nia.
    - unfold byte_of_Z. by rewrite E1. }
  apply Hcong. unfold from_be_i.
  replace (256 ^ Z.of_nat n) with (2 ^ (8 * Z.of_nat n)) by (rewrite Z.pow_mul_r by lia; done).
  apply (wrap_u_wrap_i (8 * Z.of_nat n)). lia.
Qed.

#[export] Hint Rewrite to_be_len : len.

(** ** Lemmas: the reader *)

Create HintDb rd.

Lemma rd_bytes_app l k : rd_bytes (len l) (l ++ k) = Some (l, k).
Proof.
  unfold rd_bytes. rewrite (proj2 (Z.leb_le _ _)) by len_lia.
  unfold len. rewrite Nat2Z.id. by rewrite take_app_length, drop_app_length.
Qed.

Lemma rd_bytes_n n l k : n = len l -> rd_bytes n (l ++ k) = Some (l, k).
Proof. intros ->. apply rd_bytes_app. Qed.

Lemma rd_uint_app n z k :
  0 <= z < 256 ^ Z.of_nat n -> rd_uint n (to_be n z ++ k) = Some (z, k).
Proof.
  intros Hz. unfold rd_uint. rewrite (rd_bytes_n _ (to_be n z)) by len_lia.
  by rewrite from_be_small.
Qed.

Lemma rd_bind_some {A B} (m : reader A) (k : A -> reader B) l a l' :
  m l = Some (a, l') -> rd_bind m k l = k a l'.
Proof. intros H. unfold rd_bind. by rewrite H. Qed.

Lemma rd_mbind {A B} (m : reader A) (k : A -> reader B) l a l' :
  m l = Some (a, l') -> (a ← m; k a) l = k a l'.
Proof. apply rd_bind_some. Qed.

Lemma rd_uint8_app z k : is_u 64 z -> rd_uint 8 (to_be 8 z ++ k) = Some (z, k).
Proof. apply (rd_uint_app 8). Qed.
Lemma rd_uint4_app z k : is_u 32 z -> rd_uint 4 (to_be 4 z ++ k) = Some (z, k).
Proof. apply (rd_uint_app 4). Qed.
Lemma rd_uint2_app z k : is_u 16 z -> rd_uint 2 (to_be 2 z ++ k) = Some (z, k).
Proof. apply (rd_uint_app 2). Qed.
Lemma rd_uint1_app z k : is_u 8 z -> rd_uint 1 (to_be 1 z ++ k) = Some (z, k).
Proof. apply (rd_uint_app 1). Qed.

(** A signed field: what is read is the two's complement. *)
Lemma rd_int_app n z k :
  rd_uint n (to_be n z ++ k) = Some (z mod 256 ^ Z.of_nat n, k).
Proof. unfold rd_uint. rewrite (rd_bytes_n _ (to_be n z)) by len_lia. by rewrite from_to_be. Qed.

#[export] Hint Resolve rd_uint8_app rd_uint4_app rd_uint2_app rd_uint1_app rd_bytes_app : rd.

(** Read the next field of a concatenation with the lemmas of [rd]. *)
Ltac rd_step :=
  rewrite <- ?app_assoc;
  erewrite rd_mbind; [|solve [eauto with rd]]; cbv beta zeta.

(** A repeated reader reads back a repeated writer. *)
Lemma rd_repeat_app {A} (m : reader A) (w : A -> list byte) (xs : list A) k :
  (forall x k', x ∈ xs -> m (w x ++ k') = Some (x, k')) ->
  rd_repeat (length xs) m (concat (w <$> xs) ++ k) = Some (xs, k).
Proof.
  revert k. induction xs as [|x xs IH]; intros k Hm; [done|].
  cbn [length rd_repeat fmap list_fmap concat]. rewrite <- app_assoc.
  rewrite (rd_bind_some _ _ _ x (concat (w <$> xs) ++ k)) by (apply Hm; left).
  rewrite (rd_bind_some _ _ _ xs k).
  - done.
  - apply IH. intros. apply Hm. by right.
Qed.

(** A reader never invents input: what it leaves is a suffix of what it got. *)
Definition rd_suffix {A} (m : reader A) : Prop :=
  forall l a l', m l = Some (a, l') -> exists p, l = p ++ l'.

Lemma rd_bytes_suffix n : rd_suffix (rd_bytes n).
Proof.
  intros l a l' H. unfold rd_bytes in H. case_if_in H; simplify_eq.
  eexists. symmetry. apply take_drop.
Qed.

Lemma rd_bytes_inv n l a l' :
  0 <= n -> rd_bytes n l = Some (a, l') -> l = a ++ l' /\ len a = n.
Proof.
  intros Hn H. unfold rd_bytes in H. case_if_in H; simplify_eq.
  rewrite take_drop. split; [done|len_lia].
Qed.

Lemma rd_uint_inv n l z l' :
  rd_uint n l = Some (z, l') -> l = to_be n z ++ l' /\ 0 <= z < 256 ^ Z.of_nat n.
Proof.
  unfold rd_uint. intros H. destruct (rd_bytes _ l) as [[b k]|] eqn:E; simplify_eq.
  apply rd_bytes_inv in E as [-> Hl]; [|lia].
  rewrite to_from_be by (unfold len in Hl; lia).
  split; [done|]. rewrite <- Hl. apply from_be_range.
Qed.

(** ** A concrete CRC-32

    The reflected polynomial 0xEDB88320 with the usual initial value and final
    complement, used to instantiate the interface in closed examples. *)

Definition crc_step (c : Z) : Z :=
  if Z.odd c then Z.lxor (Z.shiftr c 1) 0xEDB88320 else Z.shiftr c 1.

Definition crc_byte (c : Z) (b : byte) : Z :=
  Nat.iter 8 crc_step (Z.lxor c (Z_of_byte b)).

Definition crc32_ieee (l : list byte) : Z :=
  wrap_u 32 (Z.lxor (fold_left crc_byte l U32_MAX) U32_MAX).

Lemma crc32_ieee_range l : 0 <= crc32_ieee l < 2 ^ 32.
Proof. apply (wrap_u_range 32). lia. Qed.

Definition crc32_ieee_class : Crc32 :=
  {| crc32 := crc32_ieee; crc32_range := crc32_ieee_range |}.

(** The check value of the CRC-32 catalogue: the digest of "123456789". *)
Example crc32_ieee_check :
  crc32_ieee [x31; x32; x33; x34; x35; x36; x37; x38; x39] = 0xCBF43926.
Proof. vm_compute. reflexivity. Qed.

(** ** Numbers as bytes: formats for examples *)

Definition pos_bytes (p : positive) : list byte := to_be (Pos.size_nat p) (Zpos p).
Definition bytes_pos (l : list byte) : positive := Z.to_pos (from_be l).

Lemma bytes_pos_bytes p : bytes_pos (pos_bytes p) = p.
Proof.
  unfold bytes_pos, pos_bytes. rewrite from_be_small; [done|]. split; [lia|].
  apply Z.lt_le_trans with (2 ^ Z.of_nat (Pos.size_nat p)).
  - clear. induction p as [p IH|p IH|]; cbn [Pos.size_nat]; [..|done]; rewrite Nat2Z.inj_succ, Z.pow_succ_r by lia; lia.
  - apply Z.pow_le_mono_l. lia.
Qed.
