(* ===== verification/RustStd.v ===== *)
(** * Pieces of the Rust standard library the broker relies on

    Binary search and [partition_point] on slices, [sort]/[dedup] on integers,
    as executable definitions with the contracts the callers use. *)

From S2P Require Export Bytes.

#[local] Open Scope Z_scope.

(** ** Binary search

    [slice::binary_search_by] halves the range [base .. base + size] while more
    than one element is left; [inl] is [Ok], [inr] is [Err] with the insertion
    point. *)

Section Search.
Context {A : Type}.
Implicit Types (f : A -> comparison) (l : list A).

Definition cmp_at f l (i : nat) : comparison :=
  match l !! i with Some x => f x | None => Gt end.

Fixpoint bsearch_loop (fuel : nat) f l (base size : nat) : nat :=
  match fuel with
  | O => base
  | S fuel' =>
    if (1 <? size)%nat then
      let half := (size / 2)%nat in
      let mid := (base + half)%nat in
      let base' := match cmp_at f l mid with Gt => base | _ => mid end in
      bsearch_loop fuel' f l base' (size - half)
    else base
  end.

Definition binary_search_by f l : nat + nat :=
  match l with
  | [] => inr 0%nat
  | _ =>
    let base := bsearch_loop (length l) f l 0 (length l) in
    match cmp_at f l base with
    | Eq => inl base
    | Lt => inr (base + 1)%nat
    | Gt => inr base
    end
  end.

(** [slice::partition_point]. *)
Definition partition_point (p : A -> bool) l : nat :=
  match binary_search_by (fun x => if p x then Lt else Gt) l with
  | inl i => i
  | inr i => i
  end.

(** The comparison grows along the list: smaller, then equal, then greater. *)
Definition cmp_sorted f l : Prop :=
  forall i j x y, (i < j)%nat -> l !! i = Some x -> l !! j = Some y ->
    (f x = Gt -> f y = Gt) /\ (f y = Lt -> f x = Lt).

Lemma bsearch_loop_inv fuel f l base size :
  cmp_sorted f l ->
  (1 <= size)%nat -> (base + size <= length l)%nat -> (size <= fuel)%nat ->
  (base = 0%nat \/ cmp_at f l base <> Gt) ->
  (forall j x, (base + size <= j)%nat -> l !! j = Some x -> f x = Gt) ->
  let b := bsearch_loop fuel f l base size in
  (b < length l)%nat /\ (b = 0%nat \/ cmp_at f l b <> Gt) /\
  (forall j x, (b + 1 <= j)%nat -> l !! j = Some x -> f x = Gt).
Proof.
  intros Hs. revert base size. induction fuel as [|fuel IH]; intros base size H1 H2 H3 H4 H5.
  - lia.
  - cbn [bsearch_loop]. destruct (1 <? size)%nat eqn:Es.
    + apply Nat.ltb_lt in Es. cbn zeta.
      assert (1 <= size / 2 < size /\ 2 * (size / 2) <= size)%nat as Hh.
      { pose proof (Nat.div_mod_eq size 2). pose proof (Nat.mod_upper_bound size 2). lia. }
      set (half := (size / 2)%nat) in *. clearbody half.
      destruct (cmp_at f l (base + half)) eqn:Ec.
      * apply IH; try lia; [right; congruence|]. intros j x Hj. apply H5. lia.
      * apply IH; try lia; [right; congruence|]. intros j x Hj. apply H5. lia.
      * apply IH; try lia; [done|]. intros j x Hj Hx.
        unfold cmp_at in Ec. destruct (l !! (base + half)%nat) as [y|] eqn:Ey.
        -- destruct (decide (j = base + half)%nat) as [->|]; [congruence|].
           apply (Hs (base + half)%nat j y x); [lia|done|done|done].
        -- apply lookup_ge_None in Ey. lia.
    + apply Nat.ltb_ge in Es. assert (size = 1%nat) as -> by lia.
      repeat split; [lia|done|done].
Qed.

(** The contract of [binary_search_by] on a sorted slice. *)
Lemma binary_search_by_spec f l :
  cmp_sorted f l ->
  match binary_search_by f l with
  | inl i => exists x, l !! i = Some x /\ f x = Eq
  | inr i => (i <= length l)%nat /\
      (forall j x, (j < i)%nat -> l !! j = Some x -> f x = Lt) /\
      (forall j x, (i <= j)%nat -> l !! j = Some x -> f x = Gt)
  end.
Proof.
  intros Hs. destruct l as [|a l'] eqn:El.
  { cbn. repeat split; [lia|lia|]. intros j x _ Hx. by rewrite lookup_nil in Hx. }
  rewrite <- El in *. assert (1 <= length l)%nat as Hn by (rewrite El; cbn; lia).
  assert (binary_search_by f l =
    let base := bsearch_loop (length l) f l 0 (length l) in
    match cmp_at f l base with Eq => inl base | Lt => inr (base + 1)%nat | Gt => inr base end)
    as -> by (by rewrite El). clear El. cbv zeta.
  destruct (bsearch_loop_inv (length l) f l 0 (length l)) as (Hb & Hb0 & Hgt); try done; try lia.
  { intros j x Hj Hx. apply lookup_lt_Some in Hx. lia. }
  set (b := bsearch_loop (length l) f l 0 (length l)) in *. clearbody b.
  destruct (lookup_lt_is_Some_2 l b Hb) as [y Hy].
  unfold cmp_at in *. rewrite Hy in *.
  destruct (f y) eqn:Ey.
  - by exists y.
  - split; [lia|]. split.
    + intros j x Hj Hx. destruct (decide (j = b)) as [->|]; [congruence|].
      by apply (Hs j b x y); [lia|..].
    + intros j x Hj. apply Hgt. lia.
  - destruct Hb0 as [->|]; [|done]. split; [lia|]. split; [lia|].
    intros j x Hj Hx. destruct (decide (j = 0)%nat) as [->|]; [congruence|].
    apply (Hgt j x); [lia|done].
Qed.

(** The contract of [partition_point]: the number of leading elements that
    satisfy the predicate. *)
Lemma partition_point_spec (p : A -> bool) (l k : list A) :
  Forall (fun x => p x = true) l -> Forall (fun x => p x = false) k ->
  partition_point p (l ++ k) = length l.
Proof.
  intros Hl Hk. unfold partition_point.
  rewrite Forall_lookup in Hl. rewrite Forall_lookup in Hk.
  assert (forall i x, (l ++ k) !! i = Some x ->
    (p x = true /\ (i < length l)%nat) \/ (p x = false /\ (length l <= i)%nat)) as Hc.
  { intros i x Hx. destruct (decide (i < length l)%nat).
    - rewrite lookup_app_l in Hx by done. left. split; [by eapply Hl|done].
    - rewrite lookup_app_r in Hx by lia. right. split; [by eapply Hk|lia]. }
  assert (cmp_sorted (fun x => if p x then Lt else Gt) (l ++ k)) as Hs.
  { intros i j x y Hij Hx Hy. destruct (Hc _ _ Hx) as [[-> ?]|[-> ?]];
      destruct (Hc _ _ Hy) as [[-> ?]|[-> ?]]; split; intros; try done; lia. }
  pose proof (binary_search_by_spec _ _ Hs) as Hb.
  destruct (binary_search_by _ (l ++ k)) as [i|i].
  - destruct Hb as (x & _ & Hx). by destruct (p x).
  - destruct Hb as (Hi & Hlt & Hgt).
    destruct (lt_eq_lt_dec i (length l)) as [[H|H]|H]; [|done|].
    + destruct (lookup_lt_is_Some_2 (l ++ k) i) as [x Hx]; [rewrite length_app; lia|].
      specialize (Hgt i x ltac:(lia) Hx). destruct (Hc _ _ Hx) as [[E ?]|[E ?]]; [|lia].
      by rewrite E in Hgt.
    + destruct (lookup_lt_is_Some_2 (l ++ k) (length l)) as [x Hx];
        [rewrite length_app in *; lia|].
      specialize (Hlt (length l) x H Hx). destruct (Hc _ _ Hx) as [[E ?]|[E ?]]; [lia|].
      by rewrite E in Hlt.
Qed.
End Search.

(** ** Sorting *)

(** [Vec::dedup]: drops an element equal to its predecessor. *)
Fixpoint dedup (l : list Z) : list Z :=
  match l with
  | [] => []
  | x :: l' =>
    match l' with
    | [] => [x]
    | y :: _ => if Z.eqb x y then dedup l' else x :: dedup l'
    end
  end.

Lemma dedup_elem l x : x ∈ dedup l <-> x ∈ l.
Proof.
  induction l as [|a [|b l] IH]; [done|done|]. cbn [dedup].
  destruct (Z.eqb_spec a b) as [->|Hne].
  - rewrite IH. rewrite !elem_of_cons. tauto.
  - rewrite !(elem_of_cons _ x a), IH. done.
Qed.

(** [sort_unstable] followed by [dedup]. *)
Definition sort_dedup (l : list Z) : list Z := dedup (merge_sort Z.le l).

Lemma sort_dedup_elem l x : x ∈ sort_dedup l <-> x ∈ l.
Proof. unfold sort_dedup. rewrite dedup_elem. by rewrite merge_sort_Permutation. Qed.

Lemma dedup_sorted l : Sorted Z.le l -> StronglySorted Z.lt (dedup l).
Proof.
  intros Hs. apply Sorted_StronglySorted in Hs; [|intros ???; lia].
  induction Hs as [|a l Hs IH Ha]; [constructor|]. cbn [dedup]. destruct l as [|b l]; [repeat constructor|].
  destruct (Z.eqb_spec a b) as [->|Hne]; [done|]. constructor; [done|].
  apply Forall_forall. intros x Hx. rewrite dedup_elem in Hx.
  assert (b <= x) as Hb.
  { apply elem_of_cons in Hx as [->|Hx]; [lia|]. inversion Hs as [|? ? _ Hf]; subst.
    rewrite Forall_forall in Hf. by apply Hf. }
  inversion Ha; subst. lia.
Qed.

Lemma sort_dedup_sorted l : StronglySorted Z.lt (sort_dedup l).
Proof. apply dedup_sorted, (Sorted_merge_sort _). Qed.

Lemma sort_dedup_nodup l : NoDup (sort_dedup l).
Proof.
  pose proof (sort_dedup_sorted l) as H. induction H as [|x k _ IH Hx]; constructor; [|done].
  intros Hin. rewrite Forall_forall in Hx. specialize (Hx x Hin). lia.
Qed.

(** ** Names

    [c.is_ascii_alphanumeric() || c == '_' || c == '-' || c == '.'], and the
    length limit the validators share; [len] counts bytes, and a byte of a
    non-ASCII character is not one of these. *)
Definition name_char (c : Ascii.ascii) : bool :=
  let n := Z.of_N (Ascii.N_of_ascii c) in
  ((48 <=? n) && (n <=? 57)) || ((65 <=? n) && (n <=? 90)) || ((97 <=? n) && (n <=? 122)) ||
  (n =? 95) || (n =? 45) || (n =? 46).

Definition valid_name (name : string) : bool :=
  (1 <=? Z.of_nat (String.length name)) && (Z.of_nat (String.length name) <=? 200) &&
  forallb name_char (String.list_ascii_of_string name).

(** [Ord for String]: lexicographic on bytes. *)
Definition string_le (a b : string) : Prop := String.leb a b = true.
#[global] Instance string_le_dec : RelDecision string_le.
Proof. intros a b. unfold string_le. apply _. Defined.

(** ** Strings

    A Rust [String] is its bytes, which are valid UTF-8; [String::from_utf8]
    checks them.  The ranges are those of the Unicode standard's table 3-7. *)

Definition in_range (lo hi : Z) (b : byte) : bool := ((lo <=? Z_of_byte b) && (Z_of_byte b <=? hi))%Z.
Definition cont : byte -> bool := in_range 0x80 0xBF.

Fixpoint utf8_valid (l : list byte) : bool :=
  match l with
  | [] => true
  | b0 :: l1 =>
    if in_range 0 0x7F b0 then utf8_valid l1
    else match l1 with
    | [] => false
    | b1 :: l2 =>
      if in_range 0xC2 0xDF b0 then cont b1 && utf8_valid l2
      else match l2 with
      | [] => false
      | b2 :: l3 =>
        if in_range 0xE0 0xEF b0 then
          (if in_range 0xE0 0xE0 b0 then in_range 0xA0 0xBF b1
           else if in_range 0xED 0xED b0 then in_range 0x80 0x9F b1 else cont b1) && cont b2 && utf8_valid l3
        else match l3 with
        | [] => false
        | b3 :: l4 =>
          in_range 0xF0 0xF4 b0 &&
          (if in_range 0xF0 0xF0 b0 then in_range 0x90 0xBF b1
           else if in_range 0xF4 0xF4 b0 then in_range 0x80 0x8F b1 else cont b1) &&
          cont b2 && cont b3 && utf8_valid l4
        end
      end
    end
  end.

(** [as_bytes], and a string from bytes that were checked. *)
Definition as_bytes (s : string) : list byte := String.list_byte_of_string s.
Definition of_bytes (l : list byte) : string := String.string_of_list_byte l.

#[global] Arguments as_bytes : simpl never.
#[global] Arguments of_bytes : simpl never.

Lemma of_as_bytes s : of_bytes (as_bytes s) = s.
Proof. apply String.string_of_list_byte_of_string. Qed.

Lemma as_of_bytes l : as_bytes (of_bytes l) = l.
Proof. apply String.list_byte_of_string_of_list_byte. Qed.

(** ASCII text is valid. *)
Lemma utf8_ascii l : Forall (fun b => in_range 0 0x7F b = true) l -> utf8_valid l = true.
Proof. induction 1 as [|b l Hb Hl IH]; [done|]. cbn [utf8_valid]. by rewrite Hb. Qed.

Example utf8_samples :
  utf8_valid [xc3; xa9] = true /\ utf8_valid [xe2; x82; xac] = true /\ utf8_valid [xf0; x9f; x98; x80] = true /\
  utf8_valid [xc0; x80] = false /\ utf8_valid [xed; xa0; x80] = false /\ utf8_valid [xff] = false.
Proof. repeat split. Qed.

(** [String::from_utf8_lossy]: every maximal prefix of an ill-formed sequence
    becomes one replacement character. *)
Definition REPLACEMENT : list byte := [xef; xbf; xbd].

Definition second_ok (b0 b1 : byte) : bool :=
  if in_range 0xE0 0xE0 b0 then in_range 0xA0 0xBF b1
  else if in_range 0xED 0xED b0 then in_range 0x80 0x9F b1
  else if in_range 0xF0 0xF0 b0 then in_range 0x90 0xBF b1
  else if in_range 0xF4 0xF4 b0 then in_range 0x80 0x8F b1 else cont b1.

Fixpoint lossy_bytes (l : list byte) : list byte :=
  match l with
  | [] => []
  | b0 :: l1 =>
    if in_range 0 0x7F b0 then b0 :: lossy_bytes l1
    else if negb (in_range 0xC2 0xF4 b0) then REPLACEMENT ++ lossy_bytes l1
    else match l1 with
    | [] => REPLACEMENT
    | b1 :: l2 =>
      if negb (second_ok b0 b1) then REPLACEMENT ++ lossy_bytes l1
      else if in_range 0xC2 0xDF b0 then b0 :: b1 :: lossy_bytes l2
      else match l2 with
      | [] => REPLACEMENT
      | b2 :: l3 =>
        if negb (cont b2) then REPLACEMENT ++ lossy_bytes l2
        else if in_range 0xE0 0xEF b0 then b0 :: b1 :: b2 :: lossy_bytes l3
        else match l3 with
        | [] => REPLACEMENT
        | b3 :: l4 =>
          if negb (cont b3) then REPLACEMENT ++ lossy_bytes l3 else b0 :: b1 :: b2 :: b3 :: lossy_bytes l4
        end
      end
    end
  end.
Definition from_utf8_lossy (l : list byte) : string := of_bytes (lossy_bytes l).

Example lossy_samples :
  lossy_bytes [x41; xff; x42] = [x41] ++ REPLACEMENT ++ [x42] /\
  lossy_bytes [xe2; x82] = REPLACEMENT /\ lossy_bytes [xe2; x82; x41] = REPLACEMENT ++ [x41] /\
  lossy_bytes [xed; xa0; x80] = REPLACEMENT ++ REPLACEMENT ++ REPLACEMENT.
Proof. repeat split. Qed.

(** Text that is valid is kept. *)
Lemma lossy_valid l : utf8_valid l = true -> lossy_bytes l = l.
Proof.
  remember (length l) as n eqn:En. revert l En. induction (lt_wf n) as [n _ IH]. intros l -> Hv.
  destruct l as [|b0 l1]; [done|]. cbn [utf8_valid lossy_bytes] in *.
  destruct (in_range 0 0x7F b0) eqn:E0; [f_equal; eapply IH; [|done|done]; cbn; lia|].
  destruct l1 as [|b1 l2]; [done|]. unfold second_ok, cont, in_range in *.
  repeat match type of Hv with
  | (if ?c then _ else _) = true => destruct c eqn:?
  | (match ?l with [] => _ | _ :: _ => _ end) = true => destruct l
  end; try done; repeat (apply andb_true_iff in Hv as [Hv ?]);
  repeat match goal with
  | |- context [if ?c then _ else _] => lazymatch c with context [if _ then _ else _] => fail | _ => destruct c eqn:? end
  end; try (exfalso; lia); repeat f_equal; (eapply IH; [|done|done]; cbn; lia).
Qed.
