(* ===== verification/Index.v ===== *)
(** * The sparse index (crates/es-broker/src/storage/index.rs)

    Entries pair an offset relative to the segment's base with the file position
    of a record; a lookup returns the last entry at or below its target. *)

From S2P Require Export RustStd.

#[local] Open Scope Z_scope.

Definition INDEX_ENTRY_LEN : Z := 16.
Definition INDEX_INTERVAL_BYTES : Z := 4096.

(** [SparseIndex]: its [entries], as (relative offset, file position). *)
Abbreviation sparse_index := (list (Z * Z)) (only parsing).

Definition index_push (entries : sparse_index) (relative_offset file_position : Z) : sparse_index :=
  entries ++ [(relative_offset, file_position)].

Definition index_last (entries : sparse_index) : option (Z * Z) := last entries.

(** [SparseIndex::floor]. *)
Definition index_floor (entries : sparse_index) (target : Z) : option (Z * Z) :=
  match entries with
  | [] => None
  | _ =>
    match binary_search_by (fun e => Z.compare e.1 target) entries with
    | inl i => entries !! i
    | inr O => None
    | inr (S i) => entries !! i
    end
  end.

(** [encode_index_entry] of segment.rs, also the body of [write_entry]. *)
Definition encode_index_entry (out : list byte) (relative_offset file_pos : Z) : list byte :=
  out ++ to_be 8 relative_offset ++ to_be 8 file_pos.

(** The bytes [write_all_to] writes. *)
Definition index_bytes (entries : sparse_index) : list byte :=
  foldl (fun buf e => encode_index_entry buf e.1 e.2) [] entries.

(** [as_chunks::<N>().0]: the [k] whole chunks of [n] bytes. *)
Fixpoint chunks (n k : nat) (l : list byte) : list (list byte) :=
  match k with
  | O => []
  | S k' => take n l :: chunks n k' (drop n l)
  end.

(** [load_from] on the bytes of the file; [Err] is the invalid-data error. *)
Definition index_load (buf : list byte) : outcome unit sparse_index :=
  if negb (len buf mod INDEX_ENTRY_LEN =? 0) then Err tt else
  Ok ((fun chunk => (from_be (take 8 chunk), from_be (drop 8 chunk))) <$>
      chunks 16 (Z.to_nat (len buf / INDEX_ENTRY_LEN)) buf).

(** ** Specification *)

(** Offsets and positions both grow strictly, as the comment on [SparseIndex]
    states for offsets. *)
Definition index_sorted (entries : sparse_index) : Prop :=
  StronglySorted (fun a b => a.1 < b.1 /\ a.2 < b.2) entries.

(** The last entry at or below the target, by a linear scan. *)
Definition index_floor_spec (entries : sparse_index) (target : Z) : option (Z * Z) :=
  last (filter (fun e => e.1 <= target) entries).

Definition entry_ok (e : Z * Z) : Prop := is_u 64 e.1 /\ is_u 64 e.2.

(** ** Lemmas *)

Lemma index_sorted_lookup entries i j e1 e2 :
  index_sorted entries -> (i < j)%nat -> entries !! i = Some e1 -> entries !! j = Some e2 ->
  e1.1 < e2.1 /\ e1.2 < e2.2.
Proof.
  intros Hs. revert i j. induction Hs as [|a l Hs IH Ha]; intros i j Hij Hi Hj; [done|].
  destruct j as [|j]; [lia|]. cbn in Hj. destruct i as [|i].
  - injection Hi as <-. rewrite Forall_lookup in Ha. by apply (Ha j).
  - apply (IH i j); [lia|done|done].
Qed.

Lemma index_cmp_sorted entries t :
  index_sorted entries -> cmp_sorted (fun e => Z.compare e.1 t) entries.
Proof.
  intros Hs i j x y Hij Hx Hy. destruct (index_sorted_lookup _ _ _ _ _ Hs Hij Hx Hy).
  rewrite !Z.compare_gt_iff, !Z.compare_lt_iff. lia.
Qed.

(** A prefix that satisfies the predicate and a suffix that does not. *)
Lemma filter_split {A} (P : A -> Prop) `{!forall x, Decision (P x)} (l k : list A) :
  Forall P l -> Forall (fun x => ~ P x) k -> filter P (l ++ k) = l.
Proof.
  intros Hl Hk. rewrite filter_app.
  assert (filter P l = l) as ->.
  { induction Hl; [done|]. rewrite filter_cons_True by done. by f_equal. }
  assert (filter P k = []) as ->; [|by rewrite app_nil_r].
  induction Hk; [done|]. by rewrite filter_cons_False.
Qed.

Lemma last_take_lookup {A} (l : list A) i : (i < length l)%nat -> last (take (S i) l) = l !! i.
Proof.
  intros Hi. destruct (lookup_lt_is_Some_2 l i Hi) as [x Hx].
  rewrite (take_S_r _ _ _ Hx), last_snoc. done.
Qed.

(** Cut a sorted index at a boundary of its keys. *)
Lemma index_filter_take entries t i :
  index_sorted entries ->
  (forall j e, (j < i)%nat -> entries !! j = Some e -> e.1 <= t) ->
  (forall j e, (i <= j)%nat -> entries !! j = Some e -> t < e.1) ->
  filter (fun e => e.1 <= t) entries = take i entries.
Proof.
  intros Hs Hlo Hhi. rewrite <- (take_drop i entries) at 1. apply filter_split.
  - apply Forall_lookup. intros j e He.
    pose proof (lookup_lt_Some _ _ _ He) as Hj. rewrite length_take in Hj.
    rewrite lookup_take_lt in He by lia. apply (Hlo j); [lia|done].
  - apply Forall_lookup. intros j e He. rewrite lookup_drop in He.
    specialize (Hhi (i + j)%nat e ltac:(lia) He). lia.
Qed.

Lemma index_floor_eq entries t :
  index_sorted entries -> index_floor entries t = index_floor_spec entries t.
Proof.
  intros Hs. unfold index_floor, index_floor_spec.
  destruct (decide (entries = [])) as [->|Hne]; [done|].
  assert (forall {B} (x y : B), match entries with [] => x | _ => y end = y) as ->
    by (by destruct entries).
  pose proof (binary_search_by_spec _ _ (index_cmp_sorted _ t Hs)) as Hb.
  destruct (binary_search_by _ entries) as [i|i].
  - destruct Hb as (e & He & Hc). apply Z.compare_eq_iff in Hc. rewrite He.
    rewrite (index_filter_take entries t (S i)); [|done|..].
    2:{ intros j e' Hj Hj'. destruct (decide (j = i)) as [->|]; [simplify_eq; lia|].
        destruct (index_sorted_lookup _ j i _ _ Hs ltac:(lia) Hj' He). lia. }
    2:{ intros j e' Hj Hj'. destruct (index_sorted_lookup _ i j _ _ Hs ltac:(lia) He Hj'). lia. }
    rewrite last_take_lookup by (by eapply lookup_lt_Some). done.
  - destruct Hb as (Hi & Hlt & Hgt). setoid_rewrite Z.compare_lt_iff in Hlt.
    setoid_rewrite Z.compare_gt_iff in Hgt.
    rewrite (index_filter_take entries t i); [|done|..].
    2:{ intros j e Hj He. specialize (Hlt j e Hj He). lia. }
    2:{ intros j e Hj He. specialize (Hgt j e Hj He). lia. }
    destruct i as [|i]; [done|]. by rewrite last_take_lookup by lia.
Qed.

Lemma index_bytes_concat entries :
  index_bytes entries = concat ((fun e => to_be 8 e.1 ++ to_be 8 e.2) <$> entries).
Proof.
  unfold index_bytes.
  assert (forall acc, foldl (fun buf e => encode_index_entry buf e.1 e.2) acc entries =
    acc ++ concat ((fun e => to_be 8 e.1 ++ to_be 8 e.2) <$> entries)) as E; [|by rewrite E].
  induction entries as [|e es IH]; intros acc; cbn; [by rewrite app_nil_r|].
  rewrite IH. unfold encode_index_entry. by rewrite <- !app_assoc.
Qed.

Lemma index_bytes_len entries : len (index_bytes entries) = INDEX_ENTRY_LEN * len entries.
Proof.
  rewrite index_bytes_concat. unfold INDEX_ENTRY_LEN.
  induction entries as [|e es IH]; cbn; [done|]. len_lia.
Qed.

Lemma index_bytes_app es fs : index_bytes (es ++ fs) = index_bytes es ++ index_bytes fs.
Proof. by rewrite !index_bytes_concat, fmap_app, concat_app. Qed.

Lemma chunks_concat (es : list (Z * Z)) :
  chunks 16 (length es) (concat ((fun e => to_be 8 e.1 ++ to_be 8 e.2) <$> es)) =
    (fun e => to_be 8 e.1 ++ to_be 8 e.2) <$> es.
Proof.
  induction es as [|e es IH]; [done|]. cbn [length chunks fmap list_fmap concat].
  rewrite take_app_len, drop_app_len by (rewrite length_app, !to_be_length; done).
  by rewrite IH.
Qed.

Lemma chunks_inv k (l : list byte) :
  len l = 16 * Z.of_nat k ->
  l = concat ((fun e => to_be 8 e.1 ++ to_be 8 e.2) <$>
        ((fun c => (from_be (take 8 c), from_be (drop 8 c))) <$> chunks 16 k l)).
Proof.
  revert l. induction k as [|k IH]; intros l Hl.
  { cbn. apply len_zero. lia. }
  cbn [chunks fmap list_fmap concat]. rewrite <- IH by len_lia. cbn [fst snd].
  rewrite !to_from_be by (rewrite length_len; len_lia). by rewrite !take_drop.
Qed.

(** An index file that loads is the encoding of its entries. *)
Lemma index_load_inv buf entries : index_load buf = Ok entries -> buf = index_bytes entries.
Proof.
  unfold index_load, INDEX_ENTRY_LEN. intros Hl. case_if_in Hl; [done|]. injection Hl as <-.
  rewrite index_bytes_concat. apply chunks_inv.
  pose proof (Z.div_mod (len buf) 16). len_facts. rewrite Z2Nat.id; [lia|]. apply Z.div_pos; lia.
Qed.

Lemma index_load_bytes entries :
  Forall entry_ok entries -> index_load (index_bytes entries) = Ok entries.
Proof.
  intros Hok. unfold index_load. rewrite index_bytes_len. unfold INDEX_ENTRY_LEN.
  rewrite (Z.mul_comm 16), Z.mod_mul, Z.div_mul by lia. cbn [negb Z.eqb].
  unfold len. rewrite Nat2Z.id, index_bytes_concat, chunks_concat. f_equal.
  rewrite <- list_fmap_compose. rewrite <- (list_fmap_id entries) at 2.
  apply list_fmap_ext. intros i e He. rewrite Forall_lookup in Hok.
  destruct (Hok i e He) as [H1 H2]. cbn.
  rewrite take_app_len, drop_app_len by (by rewrite to_be_length).
  rewrite !from_be8 by done. by destruct e.
Qed.

(** ** Properties *)

(** The binary-search lookup of the sparse index returns the last entry whose
    offset is at or below the target, and nothing when every entry is above it,
    for every index whose entries are in order. *)
Theorem index_floor_correct entries t :
  index_sorted entries -> index_floor entries t = index_floor_spec entries t.
Proof. apply index_floor_eq. Qed.

(** An index file written from entries loads back as the same entries, and a
    file whose size is not a whole number of entries is refused. *)
Theorem index_file_roundtrip entries :
  Forall entry_ok entries ->
  index_load (index_bytes entries) = Ok entries /\
  forall junk, 0 < len junk < INDEX_ENTRY_LEN ->
    index_load (index_bytes entries ++ junk) = Err tt.
Proof.
  intros Hok. split; [by apply index_load_bytes|]. intros junk Hj. unfold index_load.
  rewrite len_app, index_bytes_len. unfold INDEX_ENTRY_LEN in *.
  rewrite Z.add_comm, (Z.mul_comm 16), Z.mod_add by lia.
  rewrite Z.mod_small by lia. if_true. done.
Qed.

(** ** Witnesses *)

Lemma index_floor_correct_witness :
  index_floor [(0, 0); (10, 100); (20, 200)] 15 = Some (10, 100).
Proof.
  rewrite (index_floor_correct [(0, 0); (10, 100); (20, 200)] 15).
  - reflexivity.
  - repeat constructor.
Defined.

Lemma index_file_roundtrip_witness :
  index_load (index_bytes [(0, 0); (7, 4100)]) = Ok [(0, 0); (7, 4100)] /\
  index_load (index_bytes [(0, 0); (7, 4100)] ++ [x00]) = Err tt.
Proof.
  destruct (index_file_roundtrip [(0, 0); (7, 4100)]) as [H1 H2].
  - repeat constructor; discriminate.
  - split; [exact H1|]. apply H2. split; reflexivity.
Defined.
