(* ===== verification/Record.v ===== *)
(** * The on-disk record format (crates/es-broker/src/storage/record.rs)

    Encoding and decoding of one log record: length prefix, offset, timestamp,
    optional key, value and CRC trailer. *)

From S2P Require Export Bytes.

#[local] Open Scope Z_scope.

(** ** Data *)

Record record : Type := mkRecord {
  r_offset : Z;          (* u64 *)
  r_timestamp_ms : Z;    (* i64 *)
  r_key : option (list byte);
  r_value : list byte
}.

(** [RecordDecodeError], without the [Io] wrapper of operating-system errors. *)
Inductive decode_error : Type :=
| Eof
| Truncated (at_ : Z)
| CrcMismatch (at_ stored computed : Z)
| Invalid (at_ : Z) (reason : string).

Definition HEADER_LEN : Z := 8 + 8 + 4.
Definition VALUE_LEN_FIELD : Z := 4.
Definition CRC_LEN : Z := 4.
Definition RECORD_LEN_FIELD : Z := 4.
Definition MAX_RECORD_BODY_BYTES : Z := 256 * 1024 * 1024.

Section Codec.
Context `{Crc32}.

(** ** Encoding *)

(** [key.map(|k| k.len()).unwrap_or(0)]. *)
Definition key_bytes_len (key : option (list byte)) : Z :=
  match key with Some k => len k | None => 0 end.

(** Appends one record to [buf]; the result pairs the new buffer with the number
    of bytes written. *)
Definition encode_record (buf : list byte) (offset timestamp_ms : Z)
    (key : option (list byte)) (value : list byte) : list byte * Z :=
  let key_len_field := match key with Some k => wrap_i 32 (len k) | None => -1 end in
  let body_len := HEADER_LEN + key_bytes_len key + VALUE_LEN_FIELD + len value + CRC_LEN in
  let start := len buf in
  let buf := buf ++ to_be 4 (wrap_u 32 body_len) in
  let crc_start := len buf in
  let buf := buf ++ to_be 8 offset in
  let buf := buf ++ to_be 8 timestamp_ms in
  let buf := buf ++ to_be 4 key_len_field in
  let buf := match key with Some k => buf ++ k | None => buf end in
  let buf := buf ++ to_be 4 (wrap_u 32 (len value)) in
  let buf := buf ++ value in
  let crc := crc32 (drop (Z.to_nat crc_start) buf) in
  let buf := buf ++ to_be 4 crc in
  (buf, len buf - start).

Definition record_disk_size (key_len : option Z) (value_len : Z) : Z :=
  let body := HEADER_LEN + default 0 key_len + VALUE_LEN_FIELD + value_len + CRC_LEN in
  RECORD_LEN_FIELD + body.

(** ** Decoding *)

Definition check_body_len (raw at_ : Z) : outcome decode_error Z :=
  if raw <? HEADER_LEN + VALUE_LEN_FIELD + CRC_LEN
  then Err (Invalid at_ "body_len below minimum")
  else if MAX_RECORD_BODY_BYTES <? raw
  then Err (Invalid at_ "body_len exceeds maximum")
  else Ok raw.

Definition decode_body (body : list byte) (at_ : Z) : outcome decode_error record :=
  let p := 0 in
  b ← slice body p (p + 8);
  let offset := from_be b in
  let p := p + 8 in
  b ← slice body p (p + 8);
  let timestamp_ms := from_be_i 64 b in
  let p := p + 8 in
  b ← slice body p (p + 4);
  let key_len := from_be_i 32 b in
  let p := p + 4 in
  '(key_range, p) ←
    (if key_len <? 0 then
       if negb (key_len =? -1)
       then Err (Invalid at_ "key_len negative != -1")
       else Ok (None, p)
     else if len body <? p + key_len
     then Err (Truncated at_)
     else Ok (Some (p, p + key_len), p + key_len));
  if len body <? p + VALUE_LEN_FIELD then Err (Truncated at_) else
  b ← slice body p (p + 4);
  let value_len := from_be b in
  let p := p + 4 in
  if negb (p + value_len + CRC_LEN =? len body)
  then Err (Invalid at_ "value_len does not match remaining body") else
  let value_range := (p, p + value_len) in
  let p := p + value_len in
  b ← slice body p (p + 4);
  let stored_crc := from_be b in
  b ← slice body 0 p;
  let computed_crc := crc32 b in
  if negb (stored_crc =? computed_crc)
  then Err (CrcMismatch at_ stored_crc computed_crc) else
  key ← (match key_range with
         | None => Ok None
         | Some (a, z) => k ← slice body a z; Ok (Some k)
         end);
  value ← slice body value_range.1 value_range.2;
  Ok (mkRecord offset timestamp_ms key value).

Definition decode_record (buf : list byte) (at_ : Z) : outcome decode_error (record * Z) :=
  match buf with
  | [] => Err Eof
  | _ =>
    if len buf <? RECORD_LEN_FIELD then Err (Truncated at_) else
    b ← slice buf 0 4;
    body_len ← check_body_len (from_be b) at_;
    let total := RECORD_LEN_FIELD + body_len in
    if len buf <? total then Err (Truncated at_) else
    body ← slice buf RECORD_LEN_FIELD total;
    rec ← decode_body body at_;
    Ok (rec, total)
  end.

Definition peek_record_len (buf : list byte) (at_ : Z) : outcome decode_error (option Z) :=
  if len buf <? RECORD_LEN_FIELD then Ok None else
  b ← slice buf 0 4;
  body_len ← check_body_len (from_be b) at_;
  Ok (Some (RECORD_LEN_FIELD + body_len)).

(** [read_record] over a seekable reader holding [file] at position [pos]: the
    result and the position it leaves the reader at.  [read_exact] on a plain
    file consumes what is left when it runs out. *)
Definition read_record (file : list byte) (pos : Z) : outcome decode_error record * Z :=
  let rest := drop (Z.to_nat pos) file in
  if len rest <? RECORD_LEN_FIELD then (Err Eof, Z.max pos (len file)) else
  match check_body_len (from_be (take 4 rest)) pos with
  | Err e => (Err e, pos + RECORD_LEN_FIELD)
  | Panic => (Panic, pos)
  | Ok body_len =>
    let rest := drop 4 rest in
    if len rest <? body_len then (Err (Truncated pos), pos)
    else (decode_body (take (Z.to_nat body_len) rest) pos, pos + RECORD_LEN_FIELD + body_len)
  end.

(** ** Specification: the bytes of one record *)

Definition key_field (key : option (list byte)) : Z :=
  match key with Some k => len k | None => -1 end.

Definition record_payload (r : record) : list byte :=
  to_be 8 (r_offset r) ++ to_be 8 (r_timestamp_ms r) ++ to_be 4 (key_field (r_key r)) ++
  default [] (r_key r) ++ to_be 4 (len (r_value r)) ++ r_value r.

Definition record_size (r : record) : Z :=
  record_disk_size (len <$> r_key r) (len (r_value r)).

Definition record_bytes (r : record) : list byte :=
  to_be 4 (record_size r - RECORD_LEN_FIELD) ++
  record_payload r ++ to_be 4 (crc32 (record_payload r)).

(** A record the format can hold. *)
Definition record_ok (r : record) : Prop :=
  is_u 64 (r_offset r) /\ is_i 64 (r_timestamp_ms r) /\
  record_size r - RECORD_LEN_FIELD <= MAX_RECORD_BODY_BYTES.

(** ** Sizes *)

Lemma key_bytes_len_default key : key_bytes_len key = len (default [] key).
Proof. by destruct key. Qed.

Lemma key_bytes_len_nonneg key : 0 <= key_bytes_len key.
Proof. rewrite key_bytes_len_default. apply len_nonneg. Qed.

Lemma record_size_eq r :
  record_size r = 32 + len (default [] (r_key r)) + len (r_value r).
Proof.
  unfold record_size, record_disk_size, HEADER_LEN, VALUE_LEN_FIELD, CRC_LEN, RECORD_LEN_FIELD.
  destruct (r_key r); cbn; len_lia.
Qed.

Lemma record_payload_len r : len (record_payload r) = record_size r - 8.
Proof. rewrite record_size_eq. unfold record_payload. len_lia. Qed.

Lemma record_bytes_len r : len (record_bytes r) = record_size r.
Proof.
  unfold record_bytes. autorewrite with len. rewrite record_payload_len. lia.
Qed.

Lemma record_size_min r : 32 <= record_size r.
Proof. rewrite record_size_eq. len_lia. Qed.

Lemma record_bytes_ne r : record_bytes r <> [].
Proof.
  intros E. pose proof (record_bytes_len r) as Hl. rewrite E in Hl.
  pose proof (record_size_min r). len_lia.
Qed.

End Codec.

#[export] Hint Rewrite @record_bytes_len @record_payload_len : len.

Section Theorems.
Context `{Crc32}.

(** ** Encoding writes [record_bytes] *)

Lemma record_ok_lens r :
  record_ok r ->
  is_i 32 (key_field (r_key r)) /\ is_u 32 (len (r_value r)) /\
  is_u 32 (record_size r - RECORD_LEN_FIELD) /\ len (default [] (r_key r)) < 2 ^ 31.
Proof.
  intros (_ & _ & Hm). rewrite record_size_eq in Hm |- *.
  unfold MAX_RECORD_BODY_BYTES, RECORD_LEN_FIELD, is_i, is_u, key_field in *.
  destruct (r_key r); cbn in *; len_facts; lia.
Qed.

Lemma encode_record_bytes buf r :
  record_ok r ->
  encode_record buf (r_offset r) (r_timestamp_ms r) (r_key r) (r_value r) =
    (buf ++ record_bytes r, record_size r).
Proof.
  intros Hr. destruct (record_ok_lens r Hr) as (Hk & Hv & Hs & Hk').
  unfold encode_record.
  assert (HEADER_LEN + key_bytes_len (r_key r) + VALUE_LEN_FIELD + len (r_value r) + CRC_LEN
          = record_size r - RECORD_LEN_FIELD) as ->.
  { rewrite record_size_eq, key_bytes_len_default.
    unfold HEADER_LEN, VALUE_LEN_FIELD, CRC_LEN, RECORD_LEN_FIELD. lia. }
  rewrite (wrap_u_small 32 (record_size r - _)), (wrap_u_small 32 (len _)) by done.
  set (p := buf ++ to_be 4 (record_size r - RECORD_LEN_FIELD)).
  replace (match r_key r with Some k => wrap_i 32 (len k) | None => -1 end)
    with (key_field (r_key r)).
  2:{ unfold key_field in *. destruct (r_key r); [|done]. by rewrite wrap_i_small. }
  replace (match r_key r with Some k => _ | None => _ end)
    with ((((p ++ to_be 8 (r_offset r)) ++ to_be 8 (r_timestamp_ms r)) ++
            to_be 4 (key_field (r_key r))) ++ default [] (r_key r)).
  2:{ destruct (r_key r); [done|]. apply app_nil_r. }
  rewrite <- !(app_assoc p). fold (record_payload r).
  rewrite drop_app_len by (unfold len; lia).
  unfold p. rewrite <- !app_assoc. unfold record_bytes, record_payload.
  rewrite <- !app_assoc. f_equal. rewrite record_size_eq. len_lia.
Qed.

(** ** Decoding reads [record_bytes] back *)

(** [decode_body] on a body given by its fields. *)
Lemma decode_body_parts (o t kf vf v c : list byte) (key : option (list byte)) at_ :
  len o = 8 -> len t = 8 -> len kf = 4 -> len vf = 4 -> len c = 4 ->
  from_be_i 32 kf = key_field key -> from_be vf = len v ->
  from_be c = crc32 (o ++ t ++ kf ++ default [] key ++ vf ++ v) ->
  decode_body (o ++ t ++ kf ++ default [] key ++ vf ++ v ++ c) at_ =
    Ok (mkRecord (from_be o) (from_be_i 64 t) key v).
Proof.
  intros Ho Ht Hkf Hvf Hc Ek Ev Ec. unfold decode_body.
  slice_at. slice_at. slice_at. rewrite Ek.
  assert (slice (E:=decode_error) (o ++ t ++ kf ++ default [] key ++ vf ++ v ++ c) 0
            (len (o ++ t ++ kf ++ default [] key ++ vf ++ v)) =
          Ok (o ++ t ++ kf ++ default [] key ++ vf ++ v)) as Hpre.
  { rewrite !app_assoc. by apply slice_here. }
  unfold VALUE_LEN_FIELD, CRC_LEN.
  destruct key as [k|]; cbn [key_field default from_option id] in *.
  - if_false. if_false. if_false. slice_at. slice_at. rewrite Ev. if_false.
    rewrite (slice_eq _ _ _ _ _ Hpre) by len_lia. cbn [fst snd]. slice_at. slice_at.
    rewrite Ec, Z.eqb_refl. done.
  - cbn [app] in *. if_true. if_false. if_false. slice_at. rewrite Ev. if_false.
    rewrite (slice_eq _ _ _ _ _ Hpre) by len_lia. cbn [fst snd]. slice_at. slice_at.
    rewrite Ec, Z.eqb_refl. done.
Qed.

Lemma decode_body_bytes r at_ :
  record_ok r ->
  decode_body (record_payload r ++ to_be 4 (crc32 (record_payload r))) at_ = Ok r.
Proof.
  intros Hr. destruct (record_ok_lens r Hr) as (Hk & Hv & Hs & Hk').
  destruct Hr as (Ho & Ht & _).
  pose proof (crc32_range (record_payload r)) as Hc.
  unfold record_payload. rewrite <- !app_assoc.
  rewrite decode_body_parts by (rewrite ?from_be_i4, ?from_be4 by done; done || len_lia).
  rewrite from_be8, from_be_i8 by done. by destruct r.
Qed.

Lemma check_body_len_ok r at_ :
  record_ok r ->
  check_body_len (from_be (to_be 4 (record_size r - RECORD_LEN_FIELD))) at_ =
    Ok (record_size r - RECORD_LEN_FIELD).
Proof.
  intros Hr. rewrite from_be4 by (by apply record_ok_lens).
  destruct Hr as (_ & _ & Hm). pose proof (record_size_min r).
  unfold check_body_len, HEADER_LEN, VALUE_LEN_FIELD, CRC_LEN, RECORD_LEN_FIELD in *.
  if_false. if_false. done.
Qed.

(** The body of [decode_record] once the buffer is known not to be empty. *)
Lemma decode_record_ne buf at_ :
  buf <> [] ->
  decode_record buf at_ =
    if len buf <? RECORD_LEN_FIELD then Err (Truncated at_) else
    b ← slice buf 0 4;
    body_len ← check_body_len (from_be b) at_;
    let total := RECORD_LEN_FIELD + body_len in
    if len buf <? total then Err (Truncated at_) else
    body ← slice buf RECORD_LEN_FIELD total;
    rec ← decode_body body at_;
    Ok (rec, total).
Proof. by destruct buf. Qed.

(** The record at the front of a buffer is decoded, whatever follows it. *)
Lemma decode_record_app r rest at_ :
  record_ok r -> decode_record (record_bytes r ++ rest) at_ = Ok (r, record_size r).
Proof.
  intros Hr. pose proof (record_size_min r).
  rewrite decode_record_ne by (intros E; apply (f_equal len) in E; len_lia).
  pose proof (check_body_len_ok r at_ Hr) as Hcb.
  unfold record_bytes, RECORD_LEN_FIELD in *. rewrite <- !app_assoc. if_false.
  slice_at. rewrite Hcb. cbn [mbind outcome_bind]. if_false.
  rewrite (app_assoc (record_payload r)).
  rewrite (slice_mid (to_be 4 (record_size r - 4))
             (record_payload r ++ to_be 4 (crc32 (record_payload r))) rest) by len_lia.
  cbn [mbind outcome_bind]. rewrite decode_body_bytes by done. cbn. do 2 f_equal. lia.
Qed.

(** ** What a successful decode has seen *)

(** The key field and the key bytes found by [decode_body]. *)
Lemma decode_key_inv (body : list byte) kl kr p p0 (key : option (list byte)) (at_ : Z) :
  (if kl <? 0 then
     if negb (kl =? -1) then Err (Invalid at_ "key_len negative != -1") else Ok (None, p0)
   else if len body <? p0 + kl then Err (Truncated at_)
   else Ok (Some (p0, p0 + kl), p0 + kl)) = Ok (kr, p) ->
  match kr with
  | None => Ok None
  | Some (a, z) => k ← slice (E:=decode_error) body a z; Ok (Some k)
  end = Ok key ->
  0 <= p0 <= len body ->
  slice (E:=decode_error) body p0 p = Ok (default [] key) /\ kl = key_field key.
Proof.
  intros H1 H2 Hp0. repeat case_if_in H1; simplify_eq/=.
  - rewrite slice_ok by lia. by rewrite Z.sub_diag.
  - apply bind_ok_inv in H2 as (k & Hk & H2). simplify_eq/=.
    rewrite Hk. apply slice_len in Hk. split; [done|lia].
Qed.

Lemma decode_body_inv body at_ r :
  decode_body body at_ = Ok r ->
  body = record_payload r ++ to_be 4 (crc32 (record_payload r)) /\
  is_u 64 (r_offset r) /\ is_i 64 (r_timestamp_ms r).
Proof.
  unfold decode_body. intros Hd.
  apply bind_ok_inv in Hd as (o & S1 & Hd).
  apply bind_ok_inv in Hd as (t & S2 & Hd).
  apply bind_ok_inv in Hd as (kf & S3 & Hd).
  apply bind_ok_inv in Hd as ([kr p] & Hk & Hd).
  case_if_in Hd; [done|].
  apply bind_ok_inv in Hd as (vf & S4 & Hd).
  case_if_in Hd; [done|].
  apply bind_ok_inv in Hd as (c & S5 & Hd).
  apply bind_ok_inv in Hd as (pre & S6 & Hd).
  case_if_in Hd; [done|].
  apply bind_ok_inv in Hd as (key & Hkey & Hd).
  apply bind_ok_inv in Hd as (v & S7 & Hd). cbn in S7. injection Hd as <-. cbn.
  assert (0 + 8 + 8 + 4 <= len body) as Hlen.
  { apply slice_inv in S3 as (u & w & -> & ? & ?). len_lia. }
  destruct (decode_key_inv _ _ _ _ _ _ _ Hk Hkey) as [Hkb Hkf]; [lia|].
  pose proof (slice_join _ _ _ _ _ _ (slice_join _ _ _ _ _ _ (slice_join _ _ _ _ _ _
    (slice_join _ _ _ _ _ _ (slice_join _ _ _ _ _ _ S1 S2) S3) Hkb) S4) S7) as Hpre.
  pose proof (slice_join _ _ _ _ _ _ Hpre S5) as Hall.
  rewrite Hpre in S6. injection S6 as <-.
  rewrite slice_full in Hall by (unfold CRC_LEN in *; lia). injection Hall as ->.
  apply slice_len in S1, S2, S3, S4, S5, S7.
  unfold record_payload. cbn. rewrite <- Hkf.
  replace (len v) with (from_be vf) by lia.
  rewrite !to_from_be, !to_be_from_be_i by (unfold len in *; lia).
  rewrite <- !app_assoc. rewrite <- !app_assoc in Heqb1. rewrite <- Heqb1.
  rewrite to_from_be by (unfold len in *; lia).
  split; [done|split; [|by apply wrap_i_range]].
  pose proof (from_be_range o) as Ho. rewrite S1 in Ho. exact Ho.
Qed.

Lemma decode_record_inv buf at_ r n :
  decode_record buf at_ = Ok (r, n) ->
  record_ok r /\ n = record_size r /\ exists rest, buf = record_bytes r ++ rest.
Proof.
  destruct (decide (buf = [])) as [->|Hne]; [done|]. rewrite decode_record_ne by done. intros Hd.
  case_if_in Hd; [done|].
  apply bind_ok_inv in Hd as (lf & S1 & Hd).
  apply bind_ok_inv in Hd as (bl & Hc & Hd).
  cbv zeta in Hd. case_if_in Hd; [done|].
  apply bind_ok_inv in Hd as (body & S2 & Hd).
  apply bind_ok_inv in Hd as (r' & Hb & Hd). simplify_eq.
  apply decode_body_inv in Hb as (Eb & Ho & Ht).
  unfold check_body_len in Hc. repeat case_if_in Hc; simplify_eq.
  unfold RECORD_LEN_FIELD in *.
  pose proof (slice_join _ _ _ _ _ _ S1 S2) as Hj.
  apply slice_inv in Hj as (u & w & Ebuf & Hu & Hn).
  apply slice_len in S1, S2. apply len_zero in Hu as ->.
  assert (from_be lf = record_size r - 4) as Hl by len_lia.
  split; [|split; [lia|]].
  - repeat split; try done; try apply Ho; try apply Ht. unfold RECORD_LEN_FIELD. lia.
  - exists w. rewrite Ebuf. cbn. unfold record_bytes, RECORD_LEN_FIELD.
    rewrite <- Hl, to_from_be by (unfold len in *; lia). by rewrite <- !app_assoc.
Qed.

(** ** No panic on arbitrary bytes *)

Lemma decode_body_no_panic body at_ :
  HEADER_LEN + VALUE_LEN_FIELD + CRC_LEN <= len body -> decode_body body at_ <> Panic.
Proof.
  unfold HEADER_LEN, VALUE_LEN_FIELD, CRC_LEN. intros Hl. unfold decode_body.
  do 3 (apply slice_bind_np; [lia..|]; intros ? _).
  match goal with |- ?m ≫= _ <> _ =>
    assert (forall kr p, m = Ok (kr, p) -> 20 <= p <= len body /\
      forall a z, kr = Some (a, z) -> 0 <= a /\ a <= z /\ z <= p) as Hk;
    [|assert (m <> Panic) as Hm; [|destruct m as [[kr p]| |]; [|done|done]]] end.
  { intros kr p E. repeat case_if_in E; simplify_eq; split; try lia.
    - done.
    - intros a z [= <- <-]. lia. }
  { repeat case_if; done. }
  destruct (Hk kr p eq_refl) as [Hp Hkr]. clear Hk Hm. cbn [mbind outcome_bind].
  unfold VALUE_LEN_FIELD, CRC_LEN. case_if; [done|].
  apply slice_bind_np; [lia..|]. intros vf _. pose proof (from_be_range vf).
  case_if; [done|].
  do 2 (apply slice_bind_np; [lia..|]; intros ? _).
  case_if; [done|]. destruct kr as [[a z]|].
  - destruct (Hkr a z eq_refl) as (? & ? & ?). rewrite (slice_ok _ a z) by lia.
    apply slice_bind_np; [cbn; lia..|done].
  - apply slice_bind_np; [cbn; lia..|done].
Qed.

(** Every proper non-empty prefix of a record is reported as truncated. *)
Lemma decode_truncated r n at_ :
  record_ok r -> 0 < n < record_size r ->
  decode_record (take (Z.to_nat n) (record_bytes r)) at_ = Err (Truncated at_).
Proof.
  intros Hr Hn. rewrite decode_record_ne by (intros E; apply (f_equal len) in E; len_lia).
  unfold RECORD_LEN_FIELD. case_if; [done|].
  pose proof (check_body_len_ok r at_ Hr) as Hcb.
  autorewrite with len in *. unfold RECORD_LEN_FIELD in *.
  rewrite (slice_eq _ 0 4 _ (to_be 4 (record_size r - 4))) by
    (try done; rewrite slice_ok by len_lia; f_equal; unfold record_bytes, RECORD_LEN_FIELD;
     rewrite drop_0, take_take; rewrite take_app_le by (rewrite to_be_length; lia);
     rewrite take_ge by (rewrite to_be_length; lia); done).
  cbn [mbind outcome_bind]. rewrite Hcb. cbn [mbind outcome_bind]. if_true. done.
Qed.

(** ** Properties *)

(** Encoding a record appends its [record_size] bytes to the buffer, and
    decoding those bytes, whatever follows them and wherever they sit in the
    file, gives the same record back and the same length.  Offset, timestamp,
    null key, empty key and value all survive. *)
Theorem record_roundtrip buf r rest at_ :
  record_ok r ->
  exists bytes,
    encode_record buf (r_offset r) (r_timestamp_ms r) (r_key r) (r_value r) =
      (buf ++ bytes, len bytes) /\
    len bytes = record_disk_size (len <$> r_key r) (len (r_value r)) /\
    decode_record (bytes ++ rest) at_ = Ok (r, len bytes).
Proof.
  intros Hr. exists (record_bytes r).
  rewrite encode_record_bytes, decode_record_app by done.
  by rewrite record_bytes_len.
Qed.

(** Decoding is canonical.  A successful decode of any bytes means that the
    buffer starts with exactly the bytes [encode_record] writes for the returned
    record (in particular its CRC is the one computed over its fields) and that
    the reported length is that of those bytes. *)
Theorem decode_record_canonical buf at_ r n :
  decode_record buf at_ = Ok (r, n) ->
  n <= len buf /\
  encode_record [] (r_offset r) (r_timestamp_ms r) (r_key r) (r_value r) =
    (take (Z.to_nat n) buf, n).
Proof.
  intros Hd. apply decode_record_inv in Hd as (Hr & -> & rest & ->).
  rewrite encode_record_bytes by done. split; [len_lia|]. cbn. f_equal.
  rewrite take_app_len; [done|]. rewrite length_len. by rewrite record_bytes_len.
Qed.

(** No input makes the record decoder panic: every slice it takes of a
    buffer read off disk is in bounds, whatever the length fields claim. *)
Theorem decode_record_no_panic buf at_ : decode_record buf at_ <> Panic.
Proof.
  destruct (decide (buf = [])) as [->|Hne]; [done|]. rewrite decode_record_ne by done.
  unfold RECORD_LEN_FIELD. case_if; [done|]. rewrite slice_ok by lia. cbn [mbind outcome_bind].
  unfold check_body_len. repeat (case_if; [done|]). cbn [mbind outcome_bind].
  case_if; [done|].
  pose proof (from_be_range (take (Z.to_nat (4 - 0)) (drop (Z.to_nat 0) buf))) as Hv.
  set (bl := from_be _) in *. unfold HEADER_LEN, VALUE_LEN_FIELD, CRC_LEN in *.
  rewrite slice_ok by lia. cbn [mbind outcome_bind].
  destruct (decode_body _ at_) eqn:E; [done|done|].
  exfalso. revert E. apply decode_body_no_panic.
  unfold HEADER_LEN, VALUE_LEN_FIELD, CRC_LEN. len_lia.
Qed.

(** A record cut short is reported as [Truncated] at its own position, for
    every proper non-empty prefix of its bytes; it is never decoded as something
    else and never reported as corrupt. *)
Theorem decode_record_truncated r n at_ :
  record_ok r -> 0 < n < record_size r ->
  decode_record (take (Z.to_nat n) (record_bytes r)) at_ = Err (Truncated at_).
Proof. apply decode_truncated. Qed.

(** Reading through a seekable file agrees with decoding the bytes at the
    current position, with one exception: a file that ends inside the four-byte
    length prefix reads as a clean end of file ([Eof]), where decoding reports
    [Truncated]. *)
Theorem read_record_decode_record file pos :
  0 <= pos <= len file ->
  let rest := drop (Z.to_nat pos) file in
  (read_record file pos).1 =
    (if (0 <? len rest) && (len rest <? RECORD_LEN_FIELD)
     then Err Eof
     else fst <$> decode_record rest pos).
Proof.
  intros Hp rest. unfold read_record. fold rest.
  destruct (decide (rest = [])) as [->|Hne]; [done|]. rewrite decode_record_ne by done.
  rewrite (proj2 (Z.ltb_lt 0 (len rest))) by (by apply len_pos). cbn [andb].
  unfold RECORD_LEN_FIELD. case_if; [done|].
  rewrite slice_ok by lia. cbn [mbind outcome_bind]. rewrite drop_0.
  replace (Z.to_nat (4 - 0)) with 4%nat by lia.
  destruct (check_body_len _ pos) as [bl| |] eqn:Hc; try done. cbn [mbind outcome_bind].
  unfold check_body_len in Hc. repeat case_if_in Hc; simplify_eq.
  unfold HEADER_LEN, VALUE_LEN_FIELD, CRC_LEN in *.
  set (bl := from_be (take 4 rest)) in *.
  destruct (len (drop 4 rest) <? bl) eqn:E1; boolp.
  - if_true. done.
  - if_false. rewrite slice_ok by len_lia. cbn [mbind outcome_bind fst].
    replace (Z.to_nat (4 + bl - 4)) with (Z.to_nat bl) by lia.
    by destruct (decode_body _ pos).
Qed.
End Theorems.


(** ** Witnesses

    The properties at concrete records, under the CRC-32 of [crc32fast]. *)

Section Witnesses.
#[local] Existing Instance crc32_ieee_class.

Definition sample_record : record := mkRecord 7 (-1) (Some [x6b]) [x01; x02].

Lemma sample_record_ok : record_ok sample_record.
Proof. repeat split; vm_compute; congruence. Qed.

Lemma record_roundtrip_witness :
  exists bytes, encode_record [xff] 7 (-1) (Some [x6b]) [x01; x02] = ([xff] ++ bytes, len bytes) /\
    len bytes = 35 /\ decode_record (bytes ++ [xaa]) 100 = Ok (sample_record, len bytes).
Proof. exact (record_roundtrip [xff] sample_record [xaa] 100 sample_record_ok). Defined.

Lemma decode_record_canonical_witness :
  len (record_bytes sample_record) <= len (record_bytes sample_record ++ [xaa]).
Proof.
  apply (decode_record_canonical (record_bytes sample_record ++ [xaa]) 0 sample_record).
  vm_compute. reflexivity.
Defined.

Lemma decode_record_no_panic_witness :
  decode_record [x00; x00; x00; x1c; x00] 0 <> Panic /\
  decode_record [x00; x00; x00; x1c; x00] 0 = Err (Truncated 0).
Proof.
  split; [exact (decode_record_no_panic [x00; x00; x00; x1c; x00] 0)|vm_compute; reflexivity].
Defined.

Lemma decode_record_truncated_witness :
  decode_record (take 20 (record_bytes sample_record)) 9 = Err (Truncated 9).
Proof.
  apply (decode_record_truncated sample_record 20 9 sample_record_ok).
  split; vm_compute; reflexivity.
Defined.

Lemma read_record_decode_record_witness :
  (read_record [x00; x00; x01] 1).1 = Err Eof /\ decode_record [x00; x01] 1 = Err (Truncated 1).
Proof.
  split; [|vm_compute; reflexivity].
  apply (read_record_decode_record [x00; x00; x01] 1). split; vm_compute; congruence.
Defined.
End Witnesses.
