(* ===== verification/Segment.v ===== *)
(** * Segments (crates/es-broker/src/storage/segment.rs)

    The windowed record cursor, the bounded read of one segment, and the
    appender with its rollback of failed writes.

    A file is the list of its bytes.  A read handle sees the bytes of the file it
    was opened on; operating-system read errors are not modelled, write errors
    are (a failed [write_all] leaves an arbitrary prefix behind). *)

From S2P Require Export Record Index.

#[local] Open Scope Z_scope.

Definition READ_WINDOW_BYTES : Z := 256 * 1024.

(** [read_at]: a positional read that tolerates a short read at end of file. *)
Definition read_at (file : list byte) (n pos : Z) : list byte :=
  take (Z.to_nat n) (drop (Z.to_nat pos) file).

(** [usize::clamp]. *)
Definition clamp (x lo hi : Z) : Z := Z.max lo (Z.min x hi).

(** ** RecordCursor *)

Record cursor : Type := mkCursor {
  c_file : list byte;
  c_pos : Z;
  c_limit : Z;
  c_buf : list byte;
  c_buf_start : Z;
  c_window : Z
}.

Definition cursor_new (file : list byte) (start limit window : Z) : cursor :=
  mkCursor file start limit [] start (Z.max window 4096).

Definition buffered (c : cursor) : list byte :=
  let end_ := c_buf_start c + len (c_buf c) in
  if (c_pos c <? c_buf_start c) || (end_ <=? c_pos c) then []
  else drop (Z.to_nat (c_pos c - c_buf_start c)) (c_buf c).

Definition refill (c : cursor) (at_least : Z) : cursor :=
  let remaining := sat_sub_u64 (c_limit c) (c_pos c) in
  let want := Z.min (Z.max at_least (c_window c)) remaining in
  mkCursor (c_file c) (c_pos c) (c_limit c)
    (read_at (c_file c) want (c_pos c)) (c_pos c) (c_window c).

Definition set_pos (c : cursor) (pos : Z) : cursor :=
  mkCursor (c_file c) pos (c_limit c) (c_buf c) (c_buf_start c) (c_window c).

Section Cursor.
Context `{Crc32}.

(** The [loop] of [next_record]; it runs at most twice, since [refilled] is set
    on the only path that goes round again. *)
Fixpoint next_loop (fuel : nat) (refilled : bool) (c : cursor)
    : outcome decode_error (option record) * cursor :=
  match fuel with
  | O => (Panic, c)
  | S fuel' =>
    let retry :=
      match peek_record_len (buffered c) (c_pos c) with
      | Err e => (Err e, c)
      | Panic => (Panic, c)
      | Ok o =>
        let need := default 4 o in
        if c_limit c <? c_pos c + need then (Err (Truncated (c_pos c)), c)
        else next_loop fuel' true (refill c need)
      end in
    match decode_record (buffered c) (c_pos c) with
    | Ok (rec, n) => (Ok (Some rec), set_pos c (c_pos c + n))
    | Err (Truncated a) => if refilled then (Err (Truncated a), c) else retry
    | Err Eof => if refilled then (Err (Truncated (c_pos c)), c) else retry
    | Err e => (Err e, c)
    | Panic => (Panic, c)
    end
  end.

Definition next_record (c : cursor) : outcome decode_error (option record) * cursor :=
  if c_limit c <=? c_pos c then (Ok None, c) else next_loop 2 false c.

(** ** Segment *)

(** [Segment]: what the broker keeps in memory about one segment.  Its files
    are the directory's (see [seg_files]). *)
Record segment : Type := mkSegment {
  s_base_offset : Z;
  s_size_bytes : Z;
  s_index : list (Z * Z);
  s_min_timestamp_ms : Z;
  s_max_timestamp_ms : Z
}.

(** [Segment::open] on an existing log file. *)
Definition segment_open (base_offset size_bytes : Z) (index : list (Z * Z)) (min_ts max_ts : Z) : segment :=
  mkSegment base_offset size_bytes index min_ts max_ts.

Definition segment_open_empty (base_offset : Z) : segment :=
  segment_open base_offset 0 [] I64_MAX I64_MIN.

Definition observe_timestamp (s : segment) (ts : Z) : segment :=
  mkSegment (s_base_offset s) (s_size_bytes s) (s_index s)
    (Z.min (s_min_timestamp_ms s) ts) (Z.max (s_max_timestamp_ms s) ts).

(** The [loop] of [read_from].  [bytes] is the running total, [out] the records
    collected so far. *)
Fixpoint read_loop (fuel : nat) (c : cursor)
    (target_offset max_records max_bytes high_watermark : Z)
    (out : list record) (bytes : Z) : list record :=
  match fuel with
  | O => out
  | S fuel' =>
    match next_record c with
    | (Ok (Some r), c') =>
      if high_watermark <=? r_offset r then out else
      if r_offset r <? target_offset
      then read_loop fuel' c' target_offset max_records max_bytes high_watermark out bytes else
      let approx_bytes := record_disk_size (len <$> r_key r) (len (r_value r)) in
      if negb (len out =? 0) && (max_bytes <? bytes + approx_bytes) then out else
      let out := out ++ [r] in
      if max_records <=? len out then out else
      read_loop fuel' c' target_offset max_records max_bytes high_watermark out (bytes + approx_bytes)
    | (_, _) => out
    end
  end.

(** [usize::saturating_add]. *)
Definition read_window (max_bytes : Z) : Z :=
  clamp (sat_add_u64 max_bytes INDEX_INTERVAL_BYTES) (16 * 1024) (READ_WINDOW_BYTES * 16).

(** [Segment::read_from] on the segment's log file. *)
Definition read_from (file : list byte) (s : segment)
    (target_offset max_records max_bytes high_watermark : Z) : list record :=
  if (max_records =? 0) || (high_watermark <=? target_offset) then [] else
  let rel := sat_sub_u64 target_offset (s_base_offset s) in
  let start_pos := match index_floor (s_index s) rel with Some (_, pos) => pos | None => 0 end in
  let size := s_size_bytes s in
  if size <=? start_pos then [] else
  let c := cursor_new file start_pos size (read_window max_bytes) in
  read_loop (S (Z.to_nat (size - start_pos))) c target_offset max_records max_bytes high_watermark [] 0.
End Cursor.

(** ** SegmentAppender *)

(** The two files of a segment. *)
Record seg_files : Type := mkFiles { f_log : list byte; f_index : list byte }.

Record appender : Type := mkAppender {
  a_base_offset : Z;
  a_size_bytes : Z;
  a_index_len : Z;
  a_last_index_pos : option Z
}.

(** [File::set_len]: cut, or extend with zero bytes. *)
Definition set_len (l : list byte) (n : Z) : list byte :=
  take (Z.to_nat n) l ++ replicate (Z.to_nat n - length l) x00.

(** [SegmentAppender::create]: opens the files, creating them if needed. *)
Definition appender_create (fs : option seg_files) (base_offset : Z) : seg_files * appender :=
  let fs := default (mkFiles [] []) fs in
  (fs, mkAppender base_offset (len (f_log fs)) (len (f_index fs)) None).

(** [SegmentAppender::open_existing]. *)
Definition appender_open_existing (fs : seg_files) (base_offset truncate_log_to truncate_index_to : Z)
    (last_index_pos : option Z) : seg_files * appender :=
  let log := if negb (len (f_log fs) =? truncate_log_to)
             then set_len (f_log fs) truncate_log_to else f_log fs in
  let index := if negb (len (f_index fs) =? truncate_index_to)
               then set_len (f_index fs) truncate_index_to else f_index fs in
  (mkFiles log index, mkAppender base_offset truncate_log_to truncate_index_to last_index_pos).

Definition wants_index_entry (a : appender) (file_pos : Z) : bool :=
  match a_last_index_pos a with
  | None => true
  | Some p => p + INDEX_INTERVAL_BYTES <=? file_pos
  end.

Definition note_index_entry (a : appender) (file_pos : Z) : appender :=
  mkAppender (a_base_offset a) (a_size_bytes a) (a_index_len a) (Some file_pos).

(** What the operating system does to one [write_batch]: both writes succeed, or
    one of them fails after [k] bytes, and then the two [set_len] calls of the
    rollback succeed or not. *)
Inductive write_fault : Type :=
| NoFault
| LogFault (k : nat) (log_cut index_cut : bool)
| IndexFault (k : nat) (log_cut index_cut : bool).

(** [SegmentAppender::write_batch].  The last component is [None] for [Ok] and
    [Some rolled_back] for [Err]. *)
Definition write_batch (fs : seg_files) (a : appender) (log_bytes index_bytes : list byte)
    (fault : write_fault) : seg_files * appender * option bool :=
  let pre_log := a_size_bytes a in
  let pre_idx := a_index_len a in
  let rollback fs log_cut index_cut :=
    if (log_cut : bool) then
      let fs := mkFiles (set_len (f_log fs) pre_log) (f_index fs) in
      if (index_cut : bool)
      then (mkFiles (f_log fs) (set_len (f_index fs) pre_idx), a, Some true)
      else (fs, a, Some false)
    else (fs, a, Some false) in
  match fault with
  | LogFault k lc ic => rollback (mkFiles (f_log fs ++ take k log_bytes) (f_index fs)) lc ic
  | IndexFault k lc ic =>
      rollback (mkFiles (f_log fs ++ log_bytes) (f_index fs ++ take k index_bytes)) lc ic
  | NoFault =>
      (mkFiles (f_log fs ++ log_bytes) (f_index fs ++ index_bytes),
       mkAppender (a_base_offset a) (a_size_bytes a + len log_bytes)
         (a_index_len a + len index_bytes) (a_last_index_pos a),
       None)
  end.

(** ** Cursor invariant

    The buffer is the part of the file that starts at [c_buf_start], and nothing
    past the limit is buffered. *)
Definition cursor_ok (c : cursor) : Prop :=
  0 <= c_buf_start c <= c_pos c /\ c_pos c <= c_limit c <= len (c_file c) /\
  4096 <= c_window c /\ c_buf_start c + len (c_buf c) <= c_limit c /\
  c_buf c = read_at (c_file c) (len (c_buf c)) (c_buf_start c).

(** Two cursors over the same range. *)
Definition same_range (c c' : cursor) : Prop :=
  c_file c' = c_file c /\ c_limit c' = c_limit c /\ c_window c' = c_window c.

Section CursorFacts.
Context `{Crc32}.

Lemma read_at_len file n pos :
  0 <= n -> 0 <= pos -> pos + n <= len file -> len (read_at file n pos) = n.
Proof. intros. unfold read_at. len_lia. Qed.

Lemma cursor_new_ok file start limit window :
  0 <= start <= limit -> limit <= len file -> cursor_ok (cursor_new file start limit window).
Proof. intros. unfold cursor_ok, cursor_new. cbn. repeat split; len_lia || done. Qed.

(** What is buffered is a prefix of what the file holds at the position. *)
Lemma buffered_prefix c :
  cursor_ok c ->
  exists m, 0 <= m <= c_limit c - c_pos c /\ buffered c = read_at (c_file c) m (c_pos c).
Proof.
  intros (Hs & Hl & Hw & Hb & Eb). unfold buffered.
  destruct ((c_pos c <? c_buf_start c) || _) eqn:E.
  - exists 0. split; [lia|done].
  - apply orb_false_iff in E as [E1 E2]. boolp.
    exists (c_buf_start c + len (c_buf c) - c_pos c). split; [lia|].
    rewrite Eb at 1. unfold read_at.
    replace (Z.to_nat (len (c_buf c))) with
      (Z.to_nat (c_pos c - c_buf_start c) +
       Z.to_nat (c_buf_start c + len (c_buf c) - c_pos c))%nat by lia.
    rewrite <- take_drop_commute, drop_drop. do 2 f_equal. lia.
Qed.

Lemma refill_spec c need :
  cursor_ok c -> c_pos c < c_limit c ->
  cursor_ok (refill c need) /\ same_range c (refill c need) /\ c_pos (refill c need) = c_pos c /\
  buffered (refill c need) =
    read_at (c_file c) (Z.min (Z.max need (c_window c)) (c_limit c - c_pos c)) (c_pos c).
Proof.
  intros (Hs & Hl & Hw & Hb & Eb) Hp. unfold refill, sat_sub_u64.
  rewrite (Z.max_l (c_limit c - c_pos c) 0) by lia.
  set (want := Z.min _ _). assert (0 < want <= c_limit c - c_pos c) as Hwant by lia.
  clearbody want.
  assert (len (read_at (c_file c) want (c_pos c)) = want) as Hlen by (apply read_at_len; lia).
  split_and!; try done.
  - unfold cursor_ok; cbn; rewrite Hlen. repeat split; done || lia.
  - unfold buffered; cbn; rewrite Hlen.
    rewrite (proj2 (Z.ltb_ge _ _)), (proj2 (Z.leb_gt _ _)) by lia. cbn.
    by rewrite Z.sub_diag.
Qed.

(** Decoding a prefix of what follows the position. *)
Lemma decode_prefix r rest m at_ :
  record_ok r -> 0 <= m ->
  decode_record (take (Z.to_nat m) (record_bytes r ++ rest)) at_ =
    if m =? 0 then Err Eof
    else if m <? record_size r then Err (Truncated at_) else Ok (r, record_size r).
Proof.
  intros Hr Hm. case_if; [subst; done|]. case_if.
  - rewrite take_app_le by (rewrite length_len, record_bytes_len; lia).
    apply decode_truncated; [done|lia].
  - rewrite take_app_ge by (rewrite length_len, record_bytes_len; lia).
    by apply decode_record_app.
Qed.

Lemma peek_prefix r rest m at_ :
  record_ok r -> 0 <= m ->
  peek_record_len (take (Z.to_nat m) (record_bytes r ++ rest)) at_ =
    Ok (if m <? 4 then None else Some (record_size r)).
Proof.
  intros Hr Hm. pose proof (record_size_min r). unfold peek_record_len, RECORD_LEN_FIELD.
  destruct (m <? 4) eqn:E; boolp; [by if_true|]. if_false.
  pose proof (check_body_len_ok r at_ Hr) as Hcb. unfold RECORD_LEN_FIELD in Hcb.
  rewrite (slice_eq _ 0 4 _ (to_be 4 (record_size r - 4))); [|..|done].
  - cbn [mbind outcome_bind]. rewrite Hcb. cbn. do 2 f_equal. lia.
  - rewrite slice_ok by len_lia. f_equal. rewrite drop_0, take_take.
    unfold record_bytes, RECORD_LEN_FIELD. rewrite <- app_assoc.
    rewrite take_app_le by (rewrite to_be_length; lia).
    by rewrite take_ge by (rewrite to_be_length; lia).
Qed.

Lemma set_pos_ok c n :
  cursor_ok c -> 0 <= n -> c_pos c + n <= c_limit c ->
  cursor_ok (set_pos c (c_pos c + n)) /\ same_range c (set_pos c (c_pos c + n)).
Proof. intros (Hs & Hl & Hw & Hb & Eb) ? ?. unfold cursor_ok, same_range. cbn. repeat split; done || lia. Qed.

Lemma next_loop_S fuel refilled c :
  next_loop (S fuel) refilled c =
    let retry :=
      match peek_record_len (buffered c) (c_pos c) with
      | Err e => (Err e, c)
      | Panic => (Panic, c)
      | Ok o =>
        let need := default 4 o in
        if c_limit c <? c_pos c + need then (Err (Truncated (c_pos c)), c)
        else next_loop fuel true (refill c need)
      end in
    match decode_record (buffered c) (c_pos c) with
    | Ok (rec, n) => (Ok (Some rec), set_pos c (c_pos c + n))
    | Err (Truncated a) => if refilled then (Err (Truncated a), c) else retry
    | Err Eof => if refilled then (Err (Truncated (c_pos c)), c) else retry
    | Err e => (Err e, c)
    | Panic => (Panic, c)
    end.
Proof. reflexivity. Qed.

(** One iteration when the bytes at the position start with [m] bytes of a
    record: decoded, reported, or refilled and tried again. *)
Lemma next_loop_step fuel refilled c r rest m :
  record_ok r -> buffered c = take (Z.to_nat m) (record_bytes r ++ rest) -> 0 <= m ->
  next_loop (S fuel) refilled c =
    if record_size r <=? m then (Ok (Some r), set_pos c (c_pos c + record_size r))
    else if refilled then (Err (Truncated (c_pos c)), c)
    else let need := if m <? 4 then 4 else record_size r in
         if c_limit c <? c_pos c + need then (Err (Truncated (c_pos c)), c)
         else next_loop fuel true (refill c need).
Proof.
  intros Hr Hb Hm. pose proof (record_size_min r). rewrite next_loop_S. cbv zeta.
  rewrite Hb, decode_prefix, peek_prefix by done.
  destruct (m =? 0) eqn:E0; boolp.
  - subst m. rewrite (proj2 (Z.leb_gt _ 0)) by lia. by destruct refilled.
  - destruct (m <? record_size r) eqn:E1; boolp.
    + rewrite (proj2 (Z.leb_gt _ m)) by lia. destruct refilled; [done|].
      by destruct (m <? 4).
    + by rewrite (proj2 (Z.leb_le _ m)) by lia.
Qed.

Lemma read_at_rest file pos r rest m :
  drop (Z.to_nat pos) file = record_bytes r ++ rest ->
  read_at file m pos = take (Z.to_nat m) (record_bytes r ++ rest).
Proof. intros E. unfold read_at. by rewrite E. Qed.

(** The cursor reads the record at its position, whatever part of it is already
    buffered, as long as the record fits the window. *)
Lemma next_record_hit c r rest :
  cursor_ok c -> record_ok r ->
  drop (Z.to_nat (c_pos c)) (c_file c) = record_bytes r ++ rest ->
  c_pos c + record_size r <= c_limit c -> record_size r <= c_window c ->
  exists c', next_record c = (Ok (Some r), c') /\ cursor_ok c' /\ same_range c c' /\
    c_pos c' = c_pos c + record_size r.
Proof.
  intros Hc Hr Hd Hl Hw. pose proof (record_size_min r).
  unfold next_record. rewrite (proj2 (Z.leb_gt _ _)) by lia.
  destruct (buffered_prefix c Hc) as (m & Hm & Hb).
  rewrite (read_at_rest _ _ _ _ _ Hd) in Hb.
  rewrite (next_loop_step _ _ _ _ _ _ Hr Hb) by lia.
  destruct (record_size r <=? m) eqn:E; boolp.
  - destruct (set_pos_ok c (record_size r)) as [? ?]; [done|lia|done|]. eauto.
  - cbv zeta. set (need := if m <? 4 then 4 else record_size r).
    assert (4 <= need <= record_size r) as Hn by (subst need; case_if; lia). clearbody need.
    rewrite (proj2 (Z.ltb_ge _ _)) by lia.
    destruct (refill_spec c need Hc) as (Hc' & Hs' & Hp' & Hb'); [lia|].
    rewrite (read_at_rest _ _ _ _ _ Hd) in Hb'.
    set (c' := refill c need) in *. clearbody c'.
    rewrite (next_loop_step _ _ _ _ _ _ Hr Hb') by lia.
    rewrite (proj2 (Z.leb_le _ _)) by lia.
    destruct Hs' as (Ef & El & Ew).
    destruct (set_pos_ok c' (record_size r)) as [? (? & ? & ?)]; [done|lia|lia|].
    eexists. split; [done|]. split; [done|]. split; [|cbn; lia].
    repeat split; cbn; congruence.
Qed.

(** A record cut off by the limit is reported as truncated at its position. *)
Lemma next_record_torn c r rest n :
  cursor_ok c -> record_ok r ->
  drop (Z.to_nat (c_pos c)) (c_file c) = take (Z.to_nat n) (record_bytes r) ++ rest ->
  0 < n < record_size r -> c_limit c = c_pos c + n ->
  exists c', next_record c = (Err (Truncated (c_pos c)), c').
Proof.
  intros Hc Hr Hd Hn Hl. unfold next_record. rewrite (proj2 (Z.leb_gt _ _)) by lia.
  assert (forall m, 0 <= m <= n -> read_at (c_file c) m (c_pos c) =
            take (Z.to_nat m) (record_bytes r ++ [])) as Hra.
  { intros m Hm. unfold read_at. rewrite Hd, app_nil_r.
    rewrite take_app_le by (rewrite length_take, length_len, record_bytes_len; lia).
    rewrite take_take. f_equal. lia. }
  destruct (buffered_prefix c Hc) as (m & Hm & Hb). rewrite Hra in Hb by lia.
  rewrite (next_loop_step _ _ _ _ _ _ Hr Hb) by lia.
  rewrite (proj2 (Z.leb_gt (record_size r) m)) by lia. cbv zeta.
  assert (4 <= (if m <? 4 then 4 else record_size r)) by (pose proof (record_size_min r); case_if; lia).
  set (need := if m <? 4 then 4 else record_size r) in *. clearbody need.
  case_if; [eauto|].
  assert (4096 <= c_window c) by apply Hc.
  destruct (refill_spec c need Hc) as (Hc' & Hs' & Hp' & Hb'); [lia|].
  rewrite Hra in Hb' by lia. rewrite <- Hp'.
  rewrite (next_loop_step _ _ _ _ _ _ Hr Hb') by lia.
  rewrite (proj2 (Z.leb_gt _ _)) by lia. rewrite Hp'. eauto.
Qed.

(** A record larger than the window is reported as truncated even though it is
    complete, when fewer than four of its bytes are buffered. *)
Lemma next_record_oversized c r rest :
  cursor_ok c -> record_ok r ->
  drop (Z.to_nat (c_pos c)) (c_file c) = record_bytes r ++ rest ->
  c_pos c + record_size r <= c_limit c -> c_window c < record_size r ->
  len (buffered c) < 4 ->
  exists c', next_record c = (Err (Truncated (c_pos c)), c').
Proof.
  intros Hc Hr Hd Hl Hw Hbuf. pose proof (record_size_min r).
  unfold next_record. rewrite (proj2 (Z.leb_gt _ _)) by lia.
  destruct (buffered_prefix c Hc) as (m & Hm & Hb).
  rewrite (read_at_rest _ _ _ _ _ Hd) in Hb.
  assert (m < 4) as Hm4.
  { rewrite Hb in Hbuf. rewrite len_take, len_app, record_bytes_len in Hbuf. len_facts. lia. }
  rewrite (next_loop_step _ _ _ _ _ _ Hr Hb) by lia.
  rewrite (proj2 (Z.leb_gt _ _)) by lia. cbv zeta.
  rewrite (proj2 (Z.ltb_lt m 4)) by lia. rewrite (proj2 (Z.ltb_ge _ _)) by lia.
  destruct (refill_spec c 4 Hc) as (Hc' & Hs' & Hp' & Hb'); [lia|].
  assert (4096 <= c_window c) by apply Hc.
  rewrite (read_at_rest _ _ _ _ _ Hd) in Hb'. rewrite <- Hp'.
  rewrite (next_loop_step _ _ _ _ _ _ Hr Hb') by lia.
  rewrite (proj2 (Z.leb_gt _ _)) by lia. rewrite Hp'. eauto.
Qed.

Lemma next_record_end c : c_limit c <= c_pos c -> next_record c = (Ok None, c).
Proof. intros. unfold next_record. by rewrite (proj2 (Z.leb_le _ _)). Qed.
End CursorFacts.

(** ** Segment contents *)

Section Contents.
Context `{Crc32}.

(** The bytes, and the number of bytes, of a list of records on disk. *)
Definition recs_bytes (rs : list record) : list byte := concat (record_bytes <$> rs).
Definition recs_size (rs : list record) : Z := foldr (fun r n => record_size r + n) 0 rs.

(** Offsets grow strictly along a segment. *)
Definition offsets_sorted (rs : list record) : Prop :=
  StronglySorted (fun a b => r_offset a < r_offset b) rs.

(** Every index entry points at the start of the record it names. *)
Definition index_points (base : Z) (index : list (Z * Z)) (rs : list record) : Prop :=
  Forall (fun e => exists rs1 r rs2, rs = rs1 ++ r :: rs2 /\
            r_offset r = base + e.1 /\ recs_size rs1 = e.2) index.

(** The log file of a segment starts with the records [rs], and the in-memory
    state describes them. *)
Record seg_holds (file : list byte) (s : segment) (rs : list record) : Prop := {
  sh_file : exists tail, file = recs_bytes rs ++ tail;
  sh_size : s_size_bytes s = recs_size rs;
  sh_ok : Forall record_ok rs;
  sh_sorted : offsets_sorted rs;
  sh_base : Forall (fun r => s_base_offset s <= r_offset r) rs;
  sh_index : index_sorted (s_index s);
  sh_points : index_points (s_base_offset s) (s_index s) rs
}.

(** The records a reader may see: at or above the target, below the watermark. *)
Definition visible (target hwm : Z) (rs : list record) : list record :=
  filter (fun r => target <= r_offset r < hwm) rs.

(** What a bounded read returns of the [vis]ible records: a prefix, within both
    budgets except that the first record is always returned, and maximal. *)
Definition read_budget (max_records max_bytes : Z) (vis res : list record) : Prop :=
  exists rest, vis = res ++ rest /\
    len res <= max_records /\ (1 < len res -> recs_size res <= max_bytes) /\
    match rest with
    | [] => True
    | r :: _ => len res = max_records \/ (res <> [] /\ max_bytes < recs_size res + record_size r)
    end.

Lemma recs_bytes_cons r rs : recs_bytes (r :: rs) = record_bytes r ++ recs_bytes rs.
Proof. done. Qed.

Lemma recs_bytes_app rs rs' : recs_bytes (rs ++ rs') = recs_bytes rs ++ recs_bytes rs'.
Proof. unfold recs_bytes. by rewrite fmap_app, concat_app. Qed.

Lemma recs_size_cons r rs : recs_size (r :: rs) = record_size r + recs_size rs.
Proof. done. Qed.

Lemma recs_size_nil : recs_size [] = 0.
Proof. done. Qed.

Lemma recs_size_app rs rs' : recs_size (rs ++ rs') = recs_size rs + recs_size rs'.
Proof. unfold recs_size. induction rs as [|r rs IH]; cbn; [done|]. lia. Qed.

Lemma recs_bytes_len rs : len (recs_bytes rs) = recs_size rs.
Proof.
  induction rs as [|r rs IH]; [done|].
  rewrite recs_bytes_cons, len_app, record_bytes_len, IH. done.
Qed.

Lemma recs_size_nonneg rs : 0 <= recs_size rs.
Proof. rewrite <- recs_bytes_len. apply len_nonneg. Qed.

Lemma recs_size_len rs : 32 * len rs <= recs_size rs.
Proof.
  induction rs as [|r rs IH]; [done|]. rewrite len_cons. cbn.
  pose proof (record_size_min r). unfold recs_size in IH. lia.
Qed.

Lemma drop_recs rs1 rs2 tail :
  drop (Z.to_nat (recs_size rs1)) (recs_bytes (rs1 ++ rs2) ++ tail) = recs_bytes rs2 ++ tail.
Proof.
  rewrite recs_bytes_app, <- app_assoc. apply drop_app_len.
  by rewrite length_len, recs_bytes_len.
Qed.

Lemma offsets_sorted_app rs1 rs2 :
  offsets_sorted (rs1 ++ rs2) <->
  offsets_sorted rs1 /\ offsets_sorted rs2 /\
  forall a b, a ∈ rs1 -> b ∈ rs2 -> r_offset a < r_offset b.
Proof. unfold offsets_sorted. rewrite StronglySorted_app. tauto. Qed.

(** ** The read loop over the records it decodes *)

(** The body of [read_loop] on decoded records. *)
Fixpoint collect (rs : list record) (target max_records max_bytes hwm : Z)
    (out : list record) (bytes : Z) : list record :=
  match rs with
  | [] => out
  | r :: rs =>
    if hwm <=? r_offset r then out else
    if r_offset r <? target then collect rs target max_records max_bytes hwm out bytes else
    if negb (len out =? 0) && (max_bytes <? bytes + record_size r) then out else
    if max_records <=? len (out ++ [r]) then out ++ [r] else
    collect rs target max_records max_bytes hwm (out ++ [r]) (bytes + record_size r)
  end.

(** A cursor positioned in front of the records [rs] up to its limit. *)
Definition cursor_at (c : cursor) (rs : list record) : Prop :=
  cursor_ok c /\ (exists tail, drop (Z.to_nat (c_pos c)) (c_file c) = recs_bytes rs ++ tail) /\
  c_limit c = c_pos c + recs_size rs /\
  Forall record_ok rs /\ Forall (fun r => record_size r <= c_window c) rs.

Lemma cursor_at_cons c r rs :
  cursor_at c (r :: rs) -> exists c', next_record c = (Ok (Some r), c') /\ cursor_at c' rs.
Proof.
  intros (Hc & (tail & Ht) & Hl & Hok & Hw).
  apply Forall_cons in Hok as [Hr Hok]. apply Forall_cons in Hw as [Hwr Hw].
  rewrite recs_bytes_cons, <- app_assoc in Ht. cbn in Hl.
  pose proof (recs_size_nonneg rs) as Hn. unfold recs_size in Hn.
  destruct (next_record_hit c r _ Hc Hr Ht) as (c' & E & Hc' & (Ef & El & Ew) & Ep); [lia|done|].
  exists c'. split; [done|]. split; [done|]. rewrite Ef, El, Ew, Ep. split_and!; [|unfold recs_size; lia|done..].
  exists tail. assert (0 <= c_pos c) by (destruct Hc; lia). pose proof (record_size_min r).
  rewrite Z2Nat.inj_add, <- drop_drop, Ht by lia.
  apply drop_app_len. by rewrite length_len, record_bytes_len.
Qed.

Lemma cursor_at_nil c : cursor_at c [] -> next_record c = (Ok None, c).
Proof. intros (Hc & _ & Hl & _). apply next_record_end. cbn in Hl. lia. Qed.

Lemma read_loop_collect fuel rs c target mr mb hwm out bytes :
  cursor_at c rs -> (length rs < fuel)%nat ->
  read_loop fuel c target mr mb hwm out bytes = collect rs target mr mb hwm out bytes.
Proof.
  revert rs c out bytes. induction fuel as [|fuel IH]; intros rs c out bytes Hc Hf; [lia|].
  destruct rs as [|r rs]; cbn [read_loop].
  - by rewrite (cursor_at_nil _ Hc).
  - destruct (cursor_at_cons _ _ _ Hc) as (c' & -> & Hc'). cbn in Hf |- *.
    rewrite !(IH rs c') by (done || lia). done.
Qed.

Lemma visible_nil target hwm rs :
  Forall (fun r => hwm <= r_offset r \/ r_offset r < target) rs -> visible target hwm rs = [].
Proof.
  unfold visible. induction 1 as [|r rs Hr Hrs IH]; [done|].
  rewrite filter_cons_False by lia. done.
Qed.

Lemma visible_skip target hwm rs1 rs2 :
  Forall (fun r => hwm <= r_offset r \/ r_offset r < target) rs1 ->
  visible target hwm (rs1 ++ rs2) = visible target hwm rs2.
Proof. intros. unfold visible. rewrite filter_app. fold (visible target hwm rs1). by rewrite visible_nil. Qed.

Lemma collect_spec rs target mr mb hwm out :
  offsets_sorted rs -> len out < mr -> (1 < len out -> recs_size out <= mb) ->
  exists res rest, visible target hwm rs = res ++ rest /\
    collect rs target mr mb hwm out (recs_size out) = out ++ res /\
    len (out ++ res) <= mr /\ (1 < len (out ++ res) -> recs_size (out ++ res) <= mb) /\
    match rest with
    | [] => True
    | r :: _ => len (out ++ res) = mr \/
        (out ++ res <> [] /\ mb < recs_size (out ++ res) + record_size r)
    end.
Proof.
  intros Hs. revert out. induction Hs as [|r rs Hs IH Hr]; intros out Hlt Hb.
  { exists [], []. rewrite !app_nil_r. split_and!; done || lia. }
  cbn [collect]. case_if.
  { exists [], []. rewrite visible_nil, !app_nil_r; [split_and!; done || lia|].
    constructor; [lia|]. eapply Forall_impl; [exact Hr|]. cbn. lia. }
  case_if.
  { destruct (IH out Hlt Hb) as (res & rest & E & HH). exists res, rest. split; [|done].
    unfold visible. rewrite filter_cons_False by lia. done. }
  assert (visible target hwm (r :: rs) = r :: visible target hwm rs) as Ev.
  { unfold visible. by rewrite filter_cons_True by lia. }
  rewrite Ev. case_if.
  { exists [], (r :: visible target hwm rs). rewrite !app_nil_r. split_and!; [done|done|lia|done|].
    right. split; [|lia]. by intros ->. }
  assert (recs_size (out ++ [r]) = recs_size out + record_size r) as Hsz
    by (rewrite recs_size_app, recs_size_cons, recs_size_nil; lia).
  assert (1 < len (out ++ [r]) -> recs_size (out ++ [r]) <= mb) as Hb'.
  { intros Hl. apply andb_false_iff in Heqb1 as [E|E]; boolp; len_lia. }
  case_if.
  { exists [r], (visible target hwm rs). split_and!; [done|done|len_lia|done|].
    destruct (visible target hwm rs); [done|]. left. len_lia. }
  destruct (IH (out ++ [r])) as (res & rest & E & Ec & H1 & H2 & H3); [lia|done|].
  exists (r :: res), rest. rewrite E, <- Hsz, Ec. rewrite <- !app_assoc in *. done.
Qed.

(** The start position taken from the index skips no visible record. *)
Lemma read_start_split file s rs target hwm :
  seg_holds file s rs -> 0 <= target ->
  let start := match index_floor (s_index s) (sat_sub_u64 target (s_base_offset s)) with
               | Some (_, pos) => pos | None => 0 end in
  exists rs1 rs2, rs = rs1 ++ rs2 /\ recs_size rs1 = start /\
    visible target hwm rs = visible target hwm rs2.
Proof.
  intros Hh Ht. cbv zeta. rewrite (index_floor_eq _ _ (sh_index _ _ _ Hh)). unfold index_floor_spec.
  destruct (last (filter _ (s_index s))) as [[rel pos]|] eqn:E.
  2: { by exists [], rs. }
  apply last_Some_elem_of, list_elem_of_filter in E as [Hrel Hin]. cbn in Hrel.
  pose proof (sh_points _ _ _ Hh) as Hp. unfold index_points in Hp. rewrite Forall_forall in Hp.
  destruct (Hp _ Hin) as (rs1 & r & rs2 & -> & Ho & Hsz). cbn in Ho, Hsz.
  exists rs1, (r :: rs2). split_and!; [done|done|]. apply visible_skip.
  pose proof (sh_sorted _ _ _ Hh) as Hs. apply offsets_sorted_app in Hs as (_ & _ & Hlt).
  pose proof (sh_base _ _ _ Hh) as Hb. rewrite Forall_forall in Hb.
  apply Forall_forall. intros a Ha. right.
  assert (r_offset a < r_offset r) by (apply Hlt; [done|left]).
  assert (s_base_offset s <= r_offset a) by (apply Hb; set_solver).
  unfold sat_sub_u64 in Hrel. lia.
Qed.

(** A read of a well-formed segment is a bounded read of its visible records. *)
Lemma read_from_budget file s rs target mr mb hwm :
  seg_holds file s rs -> 0 <= target -> 0 <= mr ->
  Forall (fun r => record_size r <= read_window mb) rs ->
  read_budget mr mb (visible target hwm rs) (read_from file s target mr mb hwm).
Proof.
  intros Hh Ht Hmr Hw. unfold read_from. destruct (_ || _) eqn:E0.
  { exists (visible target hwm rs). split_and!; [done|done|done|].
    destruct (visible target hwm rs) as [|r rs'] eqn:Ev; [done|]. left. len_nils.
    assert (r ∈ visible target hwm rs) as Hin by (rewrite Ev; left).
    apply list_elem_of_filter in Hin as [Hin _]. apply orb_true_iff in E0 as [E0|E0]; boolp; lia. }
  apply orb_false_iff in E0 as [E1 E2]; boolp.
  destruct (read_start_split file s rs target hwm Hh Ht) as (rs1 & rs2 & -> & Hsz & ->).
  rewrite <- Hsz, (sh_size _ _ _ Hh), recs_size_app. pose proof (recs_size_len rs2).
  pose proof (recs_size_nonneg rs1). destruct (sh_file _ _ _ Hh) as [tail ->].
  case_if.
  { assert (rs2 = []) as -> by (apply len_zero; len_facts; lia).
    exists []. split_and!; done. }
  apply Forall_app in Hw as [_ Hw]. pose proof (sh_ok _ _ _ Hh) as Hok.
  apply Forall_app in Hok as [_ Hok].
  pose proof (sh_sorted _ _ _ Hh) as Hs. apply offsets_sorted_app in Hs as (_ & Hs & _).
  rewrite (read_loop_collect _ rs2).
  - destruct (collect_spec rs2 target mr mb hwm []) as (res & rest & E & Ec & HH); [done|..].
    { len_lia. } { done. }
    exists rest. rewrite recs_size_nil in Ec. rewrite Ec. cbn [app] in *. done.
  - split_and!; [|exists tail; apply drop_recs|cbn; lia|done|].
    + apply cursor_new_ok; [lia|]. rewrite len_app, recs_bytes_len, recs_size_app. len_lia.
    + eapply Forall_impl; [exact Hw|]. cbn. lia.
  - rewrite length_len. len_facts. lia.
Qed.

(** A non-empty budget returns the first visible record. *)
Lemma read_budget_progress mr mb vis res :
  read_budget mr mb vis res -> 0 < mr -> vis <> [] -> res <> [].
Proof.
  intros (rest & -> & _ & _ & Hr) Hmr Hne ->. destruct rest as [|r rest]; [done|].
  destruct Hr as [Hr|[? _]]; [len_lia|done].
Qed.

(** The bounds determine the result. *)
Lemma read_budget_unique mr mb vis res res' :
  read_budget mr mb vis res -> read_budget mr mb vis res' -> res = res'.
Proof.
  assert (forall a b k ra rb, a ++ ra = b ++ rb -> b = a ++ k ->
    len b <= mr -> (1 < len b -> recs_size b <= mb) ->
    match ra with [] => True | r :: _ => len a = mr \/ (a <> [] /\ mb < recs_size a + record_size r) end ->
    k = []) as Hx.
  { intros a b k ra rb Hab -> Hl Hz Hra. destruct k as [|x k]; [done|exfalso].
    rewrite <- app_assoc in Hab. apply app_inv_head in Hab. subst ra. cbn in Hra.
    rewrite recs_size_app, recs_size_cons in Hz. pose proof (recs_size_nonneg k).
    rewrite len_app, len_cons in Hl, Hz. len_facts. destruct Hra as [Hra|[Hne Hra]]; [lia|].
    apply len_pos in Hne. lia. }
  intros (ra & -> & Ha1 & Ha2 & Ha3) (rb & E & Hb1 & Hb2 & Hb3).
  destruct (app_eq_app _ _ _ _ E) as (k & [[-> ->]|[-> ->]]).
  - rewrite (Hx res' (res' ++ k) k (k ++ ra) ra); [by rewrite app_nil_r|by rewrite app_assoc|done..].
  - rewrite (Hx res (res ++ k) k (k ++ rb) rb); [by rewrite app_nil_r|by rewrite app_assoc|done..].
Qed.
End Contents.

(** ** Appender *)

Lemma set_len_app (l k : list byte) n : n = len l -> set_len (l ++ k) n = l.
Proof.
  intros ->. unfold set_len. rewrite take_app_len by (unfold len; lia).
  rewrite length_app. replace (Z.to_nat (len l) - (length l + length k))%nat with 0%nat by (unfold len; lia).
  by rewrite app_nil_r.
Qed.

Lemma set_len_id (l : list byte) n : n = len l -> set_len l n = l.
Proof. rewrite <- (app_nil_r l) at 2. apply set_len_app. Qed.

(** The appender's counters are the sizes of its files. *)
Definition appender_ok (fs : seg_files) (a : appender) : Prop :=
  a_size_bytes a = len (f_log fs) /\ a_index_len a = len (f_index fs).

Lemma write_batch_ok fs a lb ib fs' a' :
  appender_ok fs a -> write_batch fs a lb ib NoFault = (fs', a', None) ->
  appender_ok fs' a' /\ fs' = mkFiles (f_log fs ++ lb) (f_index fs ++ ib).
Proof. intros [H1 H2] [= <- <-]. split; [|done]. unfold appender_ok. cbn. len_lia. Qed.

Lemma write_batch_rolled_back fs a lb ib fault fs' a' :
  appender_ok fs a -> write_batch fs a lb ib fault = (fs', a', Some true) -> fs' = fs /\ a' = a.
Proof.
  intros [H1 H2]. unfold write_batch.
  destruct fs as [log idx], fault as [|k [] []|k [] []]; cbn in *; intros [= <- <-];
    by rewrite ?set_len_app, ?set_len_id by done.
Qed.

Section Claims.
Context `{Crc32}.

(** Reading a segment from its sparse index returns a prefix of exactly the
    records at or above the target and below the high watermark: no visible
    record is skipped, both limits are respected (the first record is always
    returned, whatever its size), and the read stops only when a limit is reached.
    The records must fit the read window. *)
Theorem read_from_correct file s rs target mr mb hwm :
  seg_holds file s rs -> 0 <= target -> 0 < mr ->
  Forall (fun r => record_size r <= read_window mb) rs ->
  let res := read_from file s target mr mb hwm in
  read_budget mr mb (visible target hwm rs) res /\
  (visible target hwm rs <> [] -> res <> []) /\
  (forall res', read_budget mr mb (visible target hwm rs) res' -> res' = res).
Proof.
  intros Hh Ht Hmr Hw. cbv zeta.
  pose proof (read_from_budget file s rs target mr mb hwm Hh Ht) as Hb.
  split_and!; [apply Hb; done || lia|..].
  - eapply read_budget_progress; [apply Hb; done || lia|done].
  - intros res' Hr. eapply read_budget_unique; [done|]. apply Hb; done || lia.
Qed.

(** A complete record that is larger than the cursor's window, met when
    fewer than four of its bytes are buffered (as on a fresh cursor), is reported
    as truncated at its own position, although all of its bytes are in the file
    and inside the limit. *)
Theorem next_record_window_limit pre r post window :
  record_ok r -> Z.max window 4096 < record_size r ->
  exists c', next_record
    (cursor_new (pre ++ record_bytes r ++ post) (len pre) (len pre + record_size r) window) =
    (Err (Truncated (len pre)), c').
Proof.
  intros Hr Hw. pose proof (record_size_min r).
  set (c := cursor_new _ _ _ _).
  destruct (next_record_oversized c r post) as [c' E]; [|done|..|by exists c'].
  - apply cursor_new_ok; [len_lia|]. rewrite !len_app, record_bytes_len. len_lia.
  - apply drop_app_len. subst c; cbn. unfold len; lia.
  - subst c; cbn. lia.
  - done.
  - subst c. unfold buffered, cursor_new. cbn. case_if; len_lia.
Qed.

(** A failed batch write whose rollback succeeds leaves both files and the
    appender exactly as they were; a successful one appends both byte strings and
    keeps the counters equal to the file sizes.  When the rollback fails too, what
    was there before is still a prefix of both files. *)
Theorem write_batch_atomic fs a lb ib fault fs' a' res :
  appender_ok fs a -> write_batch fs a lb ib fault = (fs', a', res) ->
  match res with
  | None => fs' = mkFiles (f_log fs ++ lb) (f_index fs ++ ib) /\ appender_ok fs' a'
  | Some true => fs' = fs /\ a' = a
  | Some false => a' = a /\ f_log fs `prefix_of` f_log fs' /\ f_index fs `prefix_of` f_index fs'
  end.
Proof.
  intros Ha Hw. destruct res as [[]|].
  - by eapply write_batch_rolled_back.
  - destruct fault as [|k [] []|k [] []]; cbn in Hw; simplify_eq; cbn;
      destruct Ha as [Ha _]; rewrite ?set_len_app by done; split_and!;
      eauto using prefix_app_r, prefix_app_l.
  - destruct fault as [|k [] []|k [] []]; cbn in Hw; simplify_eq.
    split; [done|]. apply (write_batch_ok fs a lb ib); done.
Qed.
End Claims.

(** ** Witnesses *)

Section Witnesses.
#[local] Existing Instance crc32_ieee_class.

Definition sample_records : list record :=
  [mkRecord 5 10 None [x01]; mkRecord 6 11 (Some [x6b]) [x02]; mkRecord 9 12 None []].
Definition sample_file : list byte := recs_bytes sample_records ++ [x00; x00].
Definition sample_segment : segment :=
  mkSegment 5 (recs_size sample_records) [(0, 0); (1, 33)] 10 12.

Lemma sample_holds : seg_holds sample_file sample_segment sample_records.
Proof.
  constructor.
  - by eexists.
  - reflexivity.
  - repeat constructor; vm_compute; congruence.
  - repeat constructor; vm_compute; congruence.
  - repeat constructor; vm_compute; congruence.
  - repeat constructor.
  - constructor; [|constructor; [|constructor]].
    + by exists [], (mkRecord 5 10 None [x01]), [mkRecord 6 11 (Some [x6b]) [x02]; mkRecord 9 12 None []].
    + by exists [mkRecord 5 10 None [x01]], (mkRecord 6 11 (Some [x6b]) [x02]), [mkRecord 9 12 None []].
Qed.

Lemma read_from_correct_witness :
  read_from sample_file sample_segment 6 10 1000 9 = [mkRecord 6 11 (Some [x6b]) [x02]] /\
  read_from sample_file sample_segment 6 10 1000 9 <> [].
Proof.
  split; [vm_compute; reflexivity|].
  apply (read_from_correct sample_file sample_segment sample_records 6 10 1000 9).
  - exact sample_holds.
  - lia.
  - lia.
  - repeat constructor; vm_compute; congruence.
  - vm_compute. congruence.
Defined.

Lemma next_record_window_limit_witness :
  let r := mkRecord 0 0 None (replicate 5000 x00) in
  exists c', next_record (cursor_new (record_bytes r) 0 (record_size r) 4096) = (Err (Truncated 0), c').
Proof.
  cbv zeta. set (r := mkRecord 0 0 None (replicate 5000 x00)).
  destruct (next_record_window_limit [] r [] 4096) as [c' E].
  - repeat split; vm_compute; congruence.
  - vm_compute. reflexivity.
  - exists c'. rewrite app_nil_r in E. exact E.
Defined.

Lemma write_batch_atomic_witness :
  write_batch (mkFiles [x01] []) (mkAppender 0 1 0 None) [x02; x03] [x04] (IndexFault 0 true true) =
    (mkFiles [x01] [], mkAppender 0 1 0 None, Some true) /\
  mkFiles [x01] [] = mkFiles [x01] [].
Proof.
  split; [reflexivity|].
  apply (write_batch_atomic (mkFiles [x01] []) (mkAppender 0 1 0 None) [x02; x03] [x04]
           (IndexFault 0 true true) (mkFiles [x01] []) (mkAppender 0 1 0 None) (Some true)).
  - split; reflexivity.
  - reflexivity.
Defined.
End Witnesses.
