(* ===== verification/Partition.v ===== *)
(** * Partitions (crates/es-broker/src/partition.rs)

    The per-partition log: appending with segment rolls and write failures, the
    group commit, reading across segments, dropping sealed segments, and the
    refinement of an append-only list of records.

    A partition's directory maps base offsets to segment files; an open handle is
    identified by the base offset of the file it was opened on.  The system calls
    of one operation take their outcome from a schedule ([faults]), so that every
    failure the code distinguishes can be exercised.  [Arc], [Mutex] and the
    atomics disappear: an operation that runs under the appender lock is one
    transition. *)

From S2P Require Export Segment RustStd.

#[local] Open Scope Z_scope.

(** ** Data *)

Record append_record : Type := mkAppend {
  ar_key : option (list byte);
  ar_value : list byte;
  ar_timestamp_ms : option Z;
  ar_offset : option Z
}.

Definition append_record_new (key : option (list byte)) (value : list byte) : append_record :=
  mkAppend key value None None.

Inductive durability : Type := Policy | Deferred.

(** [WriteMark]; the two handles are those of the segment at [wm_handle]. *)
Record write_mark : Type := mkMark { wm_seq : Z; wm_handle : Z }.

Record partition : Type := mkPartition {
  p_dir : gmap Z seg_files;
  p_segment_bytes : Z;
  p_next_offset : Z;
  p_start_offset : Z;
  p_segments : list segment;
  p_appender : appender;
  p_flush_every_records : Z;
  p_unsynced : Z;
  p_write_seq : Z;
  p_latest : write_mark;
  p_synced : Z;
  p_poisoned : bool;
  p_durable : gmap Z Z  (** log bytes per file that an fsync has covered *)
}.

Record pending_batch : Type := mkBatch {
  b_log : list byte;
  b_index : list byte;
  b_entries : list (Z * Z);
  b_last_index_pos : option Z;
  b_min_ts : Z;
  b_max_ts : Z;
  b_next : Z;
  b_count : Z
}.

Definition batch_default : pending_batch := mkBatch [] [] [] None I64_MAX I64_MIN 0 0.

Inductive append_error : Type := Fenced | AppendIo | SyncSealed | RollIo | FsyncIo.

(** What can go wrong in [roll]: the fsync of the sealed segment, the creation of
    the new files, or a step after they exist. *)
Inductive roll_fault : Type := RollSync | RollCreate | RollLate.

(** The outcomes of the system calls to come; an exhausted schedule succeeds. *)
Record faults : Type := mkFaults {
  ft_writes : list write_fault;
  ft_rolls : list (option roll_fault);
  ft_fsync : bool  (** whether the group-commit fsync succeeds *)
}.

Definition pop_write (ft : faults) : write_fault * faults :=
  match ft_writes ft with
  | [] => (NoFault, ft)
  | w :: ws => (w, mkFaults ws (ft_rolls ft) (ft_fsync ft))
  end.

Definition pop_roll (ft : faults) : option roll_fault * faults :=
  match ft_rolls ft with
  | [] => (None, ft)
  | r :: rs => (r, mkFaults (ft_writes ft) rs (ft_fsync ft))
  end.

Definition files_of (p : partition) (base : Z) : seg_files := default (mkFiles [] []) (p_dir p !! base).

(** [poison]. *)
Definition poison (p : partition) : partition :=
  mkPartition (p_dir p) (p_segment_bytes p) (p_next_offset p) (p_start_offset p) (p_segments p)
    (p_appender p) (p_flush_every_records p) (p_unsynced p) (p_write_seq p) (p_latest p)
    (p_synced p) true (p_durable p).

(** The directory and the writer of a partition replaced. *)
Definition with_files (p : partition) (dir : gmap Z seg_files) (app : appender) : partition :=
  mkPartition dir (p_segment_bytes p) (p_next_offset p) (p_start_offset p) (p_segments p)
    app (p_flush_every_records p) (p_unsynced p) (p_write_seq p) (p_latest p)
    (p_synced p) (p_poisoned p) (p_durable p).

(** [sync_data] on the log and the index of one segment. *)
Definition fsync (p : partition) (handle : Z) : partition :=
  mkPartition (p_dir p) (p_segment_bytes p) (p_next_offset p) (p_start_offset p) (p_segments p)
    (p_appender p) (p_flush_every_records p) (p_unsynced p) (p_write_seq p) (p_latest p)
    (p_synced p) (p_poisoned p) (<[handle := len (f_log (files_of p handle))]> (p_durable p)).

Definition set_unsynced (p : partition) (n : Z) : partition :=
  mkPartition (p_dir p) (p_segment_bytes p) (p_next_offset p) (p_start_offset p) (p_segments p)
    (p_appender p) (p_flush_every_records p) n (p_write_seq p) (p_latest p)
    (p_synced p) (p_poisoned p) (p_durable p).

Definition set_synced (p : partition) (n : Z) : partition :=
  mkPartition (p_dir p) (p_segment_bytes p) (p_next_offset p) (p_start_offset p) (p_segments p)
    (p_appender p) (p_flush_every_records p) (p_unsynced p) (p_write_seq p) (p_latest p)
    n (p_poisoned p) (p_durable p).

Definition set_next_offset (p : partition) (n : Z) : partition :=
  mkPartition (p_dir p) (p_segment_bytes p) n (p_start_offset p) (p_segments p)
    (p_appender p) (p_flush_every_records p) (p_unsynced p) (p_write_seq p) (p_latest p)
    (p_synced p) (p_poisoned p) (p_durable p).

Definition set_segments (p : partition) (segs : list segment) : partition :=
  mkPartition (p_dir p) (p_segment_bytes p) (p_next_offset p) (p_start_offset p) segs
    (p_appender p) (p_flush_every_records p) (p_unsynced p) (p_write_seq p) (p_latest p)
    (p_synced p) (p_poisoned p) (p_durable p).

(** ** Append *)

Section Append.
Context `{Crc32}.

(** What [commit_batch] does to the active segment. *)
Definition publish (s : segment) (size : Z) (b : pending_batch) : segment :=
  let s := mkSegment (s_base_offset s) size
             (foldl (fun idx e => index_push idx e.1 e.2) (s_index s) (b_entries b))
             (s_min_timestamp_ms s) (s_max_timestamp_ms s) in
  if negb (b_min_ts b =? I64_MAX)
  then observe_timestamp (observe_timestamp s (b_min_ts b)) (b_max_ts b)
  else s.

(** [segs.last()] updated in place. *)
Fixpoint update_last {A} (f : A -> A) (l : list A) : list A :=
  match l with
  | [] => []
  | [x] => [f x]
  | x :: l => x :: update_last f l
  end.

Definition commit_batch (p : partition) (b : pending_batch) (fault : write_fault)
    : outcome append_error pending_batch * partition :=
  if b_count b =? 0 then (Ok b, p) else
  let app := p_appender p in
  match write_batch (files_of p (a_base_offset app)) app (b_log b) (b_index b) fault with
  | (fs, app, Some rolled_back) =>
    let p := with_files p (<[a_base_offset app := fs]> (p_dir p)) app in
    (Err AppendIo, if rolled_back then p else poison p)
  | (fs, app, None) =>
    let app := match b_last_index_pos b with
               | Some pos => note_index_entry app pos
               | None => app
               end in
    let seq := p_write_seq p + 1 in
    (Ok batch_default,
     mkPartition (<[a_base_offset app := fs]> (p_dir p)) (p_segment_bytes p)
       (b_next b) (p_start_offset p)
       (update_last (fun s => publish s (a_size_bytes app) b) (p_segments p))
       app (p_flush_every_records p) (wrap_u 32 (p_unsynced p + b_count b)) seq
       (mkMark seq (a_base_offset app)) (p_synced p) (p_poisoned p) (p_durable p))
  end.

Definition roll (p : partition) (new_base : Z) (fault : option roll_fault)
    : outcome append_error unit * partition :=
  let app := p_appender p in
  match fault with
  | Some RollSync => (Err SyncSealed, poison p)
  | _ =>
    let p := fsync p (a_base_offset app) in
    match fault with
    | Some RollCreate => (Err RollIo, p)
    | _ =>
      let (fs, new_appender) := appender_create (p_dir p !! new_base) new_base in
      let p := with_files p (<[new_base := fs]> (p_dir p)) app in
      match fault with
      | Some RollLate => (Err RollIo, p)
      | _ =>
        let p := with_files p (p_dir p) new_appender in
        (Ok tt, set_segments p (p_segments p ++ [segment_open_empty new_base]))
      end
    end
  end.

(** One record put in the batch: the tail of the loop body of [append_batch]. *)
Definition batch_push (app : appender) (b : pending_batch) (offset ts : Z)
    (key : option (list byte)) (value : list byte) : pending_batch :=
  let file_pos := a_size_bytes app + len (b_log b) in
  let log := (encode_record (b_log b) offset ts key value).1 in
  let last_pos := match b_last_index_pos b with Some p => Some p | None => a_last_index_pos app end in
  let wants_entry := match last_pos with
                     | None => true
                     | Some p => p + INDEX_INTERVAL_BYTES <=? file_pos
                     end in
  let rel := offset - a_base_offset app in
  mkBatch log
    (if wants_entry then encode_index_entry (b_index b) rel file_pos else b_index b)
    (if wants_entry then b_entries b ++ [(rel, file_pos)] else b_entries b)
    (if wants_entry then Some file_pos else b_last_index_pos b)
    (Z.min (b_min_ts b) ts) (Z.max (b_max_ts b) ts) (offset + 1) (b_count b + 1).

(** The [for r in records] loop and the final [commit_batch].  Returns the
    offsets and whether anything was written. *)
Fixpoint append_loop (records : list append_record) (now : Z) (ft : faults) (p : partition)
    (b : pending_batch) (next : Z) (offsets : list Z) (fresh : bool)
    : outcome append_error (list Z * bool) * partition :=
  match records with
  | [] =>
    match commit_batch p b (pop_write ft).1 with
    | (Ok _, p) => (Ok (offsets, fresh), p)
    | (Err e, p) => (Err e, p)
    | (Panic, p) => (Panic, p)
    end
  | r :: records =>
    let put p b ft offset :=
      let ts := default now (ar_timestamp_ms r) in
      append_loop records now ft p (batch_push (p_appender p) b offset ts (ar_key r) (ar_value r))
        (offset + 1) (offsets ++ [offset]) true in
    let with_offset offset :=
      let need := record_disk_size (len <$> ar_key r) (len (ar_value r)) in
      let pending := a_size_bytes (p_appender p) + len (b_log b) in
      if (0 <? pending) && (p_segment_bytes p <? pending + need) then
        let (wf, ft) := pop_write ft in
        match commit_batch p b wf with
        | (Ok b, p) =>
          let (rf, ft) := pop_roll ft in
          match roll p offset rf with
          | (Ok _, p) => put p b ft offset
          | (Err e, p) => (Err e, p)
          | (Panic, p) => (Panic, p)
          end
        | (Err e, p) => (Err e, p)
        | (Panic, p) => (Panic, p)
        end
      else put p b ft offset in
    match ar_offset r with
    | Some o =>
      if o <? next then append_loop records now ft p b next (offsets ++ [o]) fresh
      else with_offset o
    | None => with_offset next
    end
  end.

(** The part of [append_batch] that runs under the appender lock; [latest] is
    read before the lock is released. *)
Definition append_locked (p : partition) (records : list append_record) (now : Z) (ft : faults)
    : outcome append_error (list Z * bool * write_mark) * partition :=
  match append_loop records now ft p batch_default (p_next_offset p) [] false with
  | (Ok (offsets, wrote), p) => (Ok (offsets, wrote, p_latest p), p)
  | (Err e, p) => (Err e, p)
  | (Panic, p) => (Panic, p)
  end.

(** [sync_upto]; handles are compared by identity. *)
Definition sync_upto (p : partition) (seq handle : Z) (ok : bool) : outcome append_error unit * partition :=
  if seq <=? p_synced p then (Ok tt, p) else
  let mark := p_latest p in
  let (target, handle) :=
    if wm_handle mark =? handle then (wm_seq mark, wm_handle mark) else (seq, handle) in
  let p := set_unsynced p 0 in
  if ok then
    let p := fsync p handle in
    (Ok tt, set_synced p (Z.max (p_synced p) target))
  else (Err FsyncIo, poison p).

Definition append_batch (p : partition) (records : list append_record) (dur : durability)
    (now : Z) (ft : faults) : outcome append_error (list Z) * partition :=
  if p_poisoned p then (Err Fenced, p) else
  match append_locked p records now ft with
  | (Ok (offsets, wrote, mark), p) =>
    match dur, wrote with
    | Policy, true =>
      let threshold := Z.max (p_flush_every_records p) 1 in
      if (threshold =? 1) || (threshold <=? p_unsynced p) then
        match sync_upto p (wm_seq mark) (wm_handle mark) (ft_fsync ft) with
        | (Ok _, p) => (Ok offsets, p)
        | (Err e, p) => (Err e, p)
        | (Panic, p) => (Panic, p)
        end
      else (Ok offsets, p)
    | _, _ => (Ok offsets, p)
    end
  | (Err e, p) => (Err e, p)
  | (Panic, p) => (Panic, p)
  end.

Definition sync_all (p : partition) (ok : bool) : outcome append_error unit * partition :=
  let mark := p_latest p in
  sync_upto p (Z.max (wm_seq mark) 1) (wm_handle mark) ok.

Definition sync_pending (p : partition) (ok : bool) : outcome append_error unit * partition :=
  if p_unsynced p =? 0 then (Ok tt, p) else sync_all p ok.

Definition advance_to (p : partition) (offset : Z) : partition :=
  set_next_offset p (Z.max (p_next_offset p) offset).

(** ** Read *)

Definition segment_index_for (segs : list segment) (target_offset : Z) : nat :=
  Nat.pred (partition_point (fun s => s_base_offset s <=? target_offset) segs).

(** The [while] loop of [read_records_raw] over the segments from [idx] on. *)
Fixpoint read_walk (p : partition) (segs : list segment) (target max_records max_bytes hwm : Z)
    (effective_next : Z) : list record * Z :=
  match segs with
  | [] => ([], effective_next)
  | s :: rest =>
    match read_from (f_log (files_of p (s_base_offset s))) s target max_records max_bytes hwm with
    | [] =>
      read_walk p rest target max_records max_bytes hwm
        (match rest with
         | next_seg :: _ => Z.max (s_base_offset next_seg) effective_next
         | [] => Z.max effective_next hwm
         end)
    | records => (records, effective_next)
    end
  end.

Definition read_records_raw (p : partition) (target_offset max_records max_bytes : Z)
    : list record * Z * Z :=
  let hwm := p_next_offset p in
  if (hwm <=? target_offset) || (max_records =? 0) then ([], target_offset, hwm) else
  let target_offset := Z.max target_offset (p_start_offset p) in
  let segs := p_segments p in
  let idx := segment_index_for segs target_offset in
  let (out, effective_next) :=
    read_walk p (drop idx segs) target_offset max_records max_bytes hwm target_offset in
  let next_offset := match last out with Some r => r_offset r + 1 | None => effective_next end in
  (out, next_offset, hwm).

(** ** Retention *)

(** [unlink_plan]: the new partition and the base offsets of the dropped segments. *)
Definition unlink_plan (p : partition) (victim_bases : list Z) : list Z * partition :=
  let cur := p_segments p in
  if len cur <=? 1 then ([], p) else
  match last cur with
  | None => ([], p)
  | Some active =>
    let active_base := s_base_offset active in
    let victims := filter (fun b => b < active_base) victim_bases in
    match victims with
    | [] => ([], p)
    | _ =>
      let dropped := filter (fun s => s_base_offset s ∈ victims) cur in
      let new_vec := filter (fun s => s_base_offset s ∉ victims) cur in
      let new_start := match new_vec with s :: _ => s_base_offset s | [] => active_base end in
      (s_base_offset <$> dropped,
       mkPartition (p_dir p) (p_segment_bytes p) (p_next_offset p) new_start new_vec
         (p_appender p) (p_flush_every_records p) (p_unsynced p) (p_write_seq p) (p_latest p)
         (p_synced p) (p_poisoned p) (p_durable p))
    end
  end.

(** The unlinking that [drop_sealed_segments] does after the grace period. *)
Definition unlink_files (p : partition) (bases : list Z) : Z * partition :=
  (foldr (fun b n => len (f_log (files_of p b)) + n) 0 bases,
   with_files p (foldr delete (p_dir p) bases) (p_appender p)).

(** [drop_sealed_segments]; [cancelled] is a shutdown during the grace period. *)
Definition drop_sealed_segments (p : partition) (victim_bases : list Z) (cancelled : bool)
    : Z * partition :=
  let (paths, p) := unlink_plan p victim_bases in
  match paths with
  | [] => (0, p)
  | _ => if cancelled then (0, p) else unlink_files p paths
  end.

Definition total_size_bytes (p : partition) : Z :=
  foldr (fun s n => s_size_bytes s + n) 0 (p_segments p).
End Append.
