(* ===== verification/PartitionSpec.v ===== *)
(** * What a partition promises

    The invariant of a partition, the append-only list of records it implements,
    and the theorems that relate [Partition] to it. *)

From S2P Require Export Partition.

#[local] Open Scope Z_scope.

Section Invariant.
Context `{Crc32}.

(** ** The abstract log *)

(** The offset one record of a batch gets: [inl] is an offset that is already
    applied. *)
Definition assign_one (next : Z) (r : append_record) : Z + Z :=
  match ar_offset r with
  | Some o => if o <? next then inl o else inr o
  | None => inr next
  end.

(** What appending a batch to an append-only list does: the offset reported for
    each record, the records added, the next offset. *)
Fixpoint assign (now next : Z) (rs : list append_record) : list Z * list record * Z :=
  match rs with
  | [] => ([], [], next)
  | r :: rs =>
    match assign_one next r with
    | inl o => let '(os, news, n) := assign now next rs in (o :: os, news, n)
    | inr o =>
      let '(os, news, n) := assign now (o + 1) rs in
      (o :: os, mkRecord o (default now (ar_timestamp_ms r)) (ar_key r) (ar_value r) :: news, n)
    end
  end.

(** The next offset after the records [rs]. *)
Definition next_after (n : Z) (rs : list record) : Z :=
  match last rs with Some r => r_offset r + 1 | None => n end.

(** ** The invariant *)

(** The timestamp range of a segment covers its records; [i64::MAX] is the
    marker of an empty batch and is not tracked. *)
Definition seg_ts (s : segment) (rs : list record) : Prop :=
  Forall (fun r => r_timestamp_ms r < I64_MAX ->
            s_min_timestamp_ms s <= r_timestamp_ms r <= s_max_timestamp_ms s) rs.

Definition seg_wf (dir : gmap Z seg_files) (g : segment * list record) : Prop :=
  exists fs, dir !! s_base_offset g.1 = Some fs /\ seg_holds (f_log fs) g.1 g.2 /\
    seg_ts g.1 g.2 /\ 0 <= s_base_offset g.1.

(** Segments follow each other: every record of the first lies below the base of
    the second. *)
Definition seg_before (a b : segment * list record) : Prop :=
  s_base_offset a.1 < s_base_offset b.1 /\ Forall (fun r => r_offset r < s_base_offset b.1) a.2.

(** The appender writes the active segment, and unless the partition is fenced
    its files hold exactly what the segment says. *)
Record active_wf (p : partition) (s : segment) : Prop := {
  aw_base : a_base_offset (p_appender p) = s_base_offset s;
  aw_size : a_size_bytes (p_appender p) = s_size_bytes s;
  aw_last : a_last_index_pos (p_appender p) = snd <$> last (s_index s);
  aw_files : p_poisoned p = false ->
    appender_ok (files_of p (s_base_offset s)) (p_appender p) /\
    f_index (files_of p (s_base_offset s)) = index_bytes (s_index s)
}.

(** A partition whose sealed segments are [init] and whose active segment [s]
    holds [rs]. *)
Record part_wf (p : partition) (init : list (segment * list record)) (s : segment)
    (rs : list record) : Prop := {
  pw_segs : p_segments p = init.*1 ++ [s];
  pw_holds : Forall (seg_wf (p_dir p)) (init ++ [(s, rs)]);
  pw_chain : StronglySorted seg_before (init ++ [(s, rs)]);
  pw_active : active_wf p s;
  pw_next : Forall (fun r => r_offset r < p_next_offset p) rs;
  pw_nonneg : 0 <= p_next_offset p;
  pw_start : s_base_offset <$> head (init.*1 ++ [s]) = Some (p_start_offset p);
  pw_spare : forall b fs, p_dir p !! b = Some fs -> s_base_offset s < b -> fs = mkFiles [] []
}.

(** The records of a partition, oldest first. *)
Definition log_of (init : list (segment * list record)) (rs : list record) : list record :=
  concat init.*2 ++ rs.

(** The pending batch holds [pend], to be written after the records [rs] of the
    active segment [s]; [next] is the next offset to assign. *)
Record batch_wf (s : segment) (rs pend : list record) (b : pending_batch) (next : Z) : Prop := {
  bw_log : b_log b = recs_bytes pend;
  bw_index : b_index b = index_bytes (b_entries b);
  bw_sorted : index_sorted (s_index s ++ b_entries b);
  bw_points : index_points (s_base_offset s) (s_index s ++ b_entries b) (rs ++ pend);
  bw_last : b_last_index_pos b = snd <$> last (b_entries b);
  bw_ok : Forall record_ok pend;
  bw_offsets : offsets_sorted (rs ++ pend);
  bw_base : Forall (fun r => s_base_offset s <= r_offset r) pend;
  bw_below : Forall (fun r => r_offset r < next) (rs ++ pend);
  bw_ts : Forall (fun r => b_min_ts b <= r_timestamp_ms r <= b_max_ts b) pend;
  bw_count : b_count b = len pend;
  bw_next : b_next b = next_after 0 pend;
  bw_nil : pend = [] -> b = batch_default
}.

(** ** Lemmas on lists of records *)

Lemma StronglySorted_snoc {A} (R : A -> A -> Prop) l x :
  StronglySorted R (l ++ [x]) <-> StronglySorted R l /\ Forall (fun y => R y x) l.
Proof.
  rewrite StronglySorted_app, Forall_forall. split.
  - intros (H1 & H2 & _). split; [done|]. intros y Hy. apply H1; [done|set_solver].
  - intros [H1 H2]. split_and!; [|done|repeat constructor]. intros y z Hy Hz.
    apply list_elem_of_singleton in Hz as ->. by apply H2.
Qed.

Lemma next_after_app n rs rs' : next_after n (rs ++ rs') = next_after (next_after n rs) rs'.
Proof.
  unfold next_after. destruct rs' as [|r rs' _] using rev_ind; [by rewrite app_nil_r|].
  by rewrite app_assoc, !last_snoc.
Qed.

Lemma next_after_ne n rs rs' : rs' <> [] -> next_after n (rs ++ rs') = next_after n rs'.
Proof. intros. unfold next_after. by rewrite last_app_ne. Qed.

Lemma next_after_above n rs :
  offsets_sorted rs -> Forall (fun r => r_offset r < next_after n rs) rs.
Proof.
  destruct rs as [|x rs _] using rev_ind; [done|]. unfold offsets_sorted.
  rewrite StronglySorted_snoc. intros [_ Hx]. unfold next_after. rewrite last_snoc.
  apply Forall_app. split; [|constructor; [lia|done]].
  eapply Forall_impl; [exact Hx|]. cbn. lia.
Qed.

Lemma next_after_nonneg n rs : 0 <= n -> Forall (fun r => 0 <= r_offset r) rs -> 0 <= next_after n rs.
Proof.
  intros Hn Hr. unfold next_after. destruct (last rs) as [r|] eqn:E; [|done].
  rewrite Forall_forall in Hr. apply last_Some_elem_of in E. specialize (Hr r E). lia.
Qed.

Lemma index_points_app_r base idx rs rs' :
  index_points base idx rs -> index_points base idx (rs ++ rs').
Proof.
  intros Hp. eapply Forall_impl; [exact Hp|]. cbn. intros e (rs1 & r & rs2 & -> & ? & ?).
  exists rs1, r, (rs2 ++ rs'). by rewrite <- app_assoc.
Qed.

Lemma index_points_pos base idx rs e :
  index_points base idx rs -> e ∈ idx ->
  e.2 < recs_size rs /\ exists r, r ∈ rs /\ r_offset r = base + e.1.
Proof.
  unfold index_points. rewrite Forall_forall. intros Hp He.
  destruct (Hp e He) as (rs1 & r & rs2 & -> & Ho & Hz). split; [|exists r; split; [set_solver|done]].
  rewrite recs_size_app, recs_size_cons. pose proof (record_size_min r).
  pose proof (recs_size_nonneg rs2). lia.
Qed.

Lemma update_last_snoc {A} (f : A -> A) l x : update_last f (l ++ [x]) = l ++ [f x].
Proof. induction l as [|y [|z l] IH]; [done|done|]. cbn in *. by rewrite IH. Qed.

Lemma index_push_all idx es : foldl (fun idx e => index_push idx e.1 e.2) idx es = idx ++ es.
Proof.
  revert idx. induction es as [|[a b] es IH]; intros idx; cbn; [by rewrite app_nil_r|].
  rewrite IH. unfold index_push. by rewrite <- app_assoc.
Qed.

(** ** The batch *)

Lemma batch_default_wf file s rs next :
  seg_holds file s rs -> Forall (fun r => r_offset r < next) rs ->
  batch_wf s rs [] batch_default next.
Proof.
  intros [] Hn. constructor; rewrite ?app_nil_r; try done; constructor.
Qed.

Lemma batch_push_wf s rs pend b next app r :
  batch_wf s rs pend b next ->
  a_base_offset app = s_base_offset s -> a_size_bytes app = recs_size rs ->
  a_last_index_pos app = snd <$> last (s_index s) ->
  record_ok r -> s_base_offset s <= next <= r_offset r ->
  batch_wf s rs (pend ++ [r])
    (batch_push app b (r_offset r) (r_timestamp_ms r) (r_key r) (r_value r)) (r_offset r + 1).
Proof.
  intros [] Eb Ez El Hr Hn.
  assert (offsets_sorted (rs ++ pend ++ [r])) as Hsort.
  { rewrite app_assoc. apply StronglySorted_snoc. split; [done|].
    eapply Forall_impl; [exact bw_below0|]. cbn. lia. }
  assert (recs_size rs + len (b_log b) = recs_size (rs ++ pend)) as Epos
    by (rewrite bw_log0, recs_bytes_len, recs_size_app; done).
  set (full := s_index s ++ b_entries b) in *.
  assert (index_sorted (full ++ [(r_offset r - s_base_offset s, recs_size (rs ++ pend))])) as Hidx.
  { apply StronglySorted_snoc. split; [done|]. apply Forall_forall. intros e He.
    destruct (index_points_pos _ _ _ _ bw_points0 He) as (Hp & r' & Hin & Ho). cbn.
    rewrite Forall_forall in bw_below0. specialize (bw_below0 r' Hin). lia. }
  unfold batch_push. rewrite encode_record_bytes by done. rewrite Eb, Ez, Epos. cbn [fst].
  set (w := match _ with None => true | Some p => _ end). clearbody w.
  constructor; cbn.
  - by rewrite bw_log0, recs_bytes_app; cbn; rewrite app_nil_r.
  - destruct w; [|done]. unfold encode_index_entry. rewrite bw_index0, index_bytes_app. f_equal.
  - destruct w; [|done]. rewrite app_assoc. done.
  - rewrite app_assoc. destruct w; [|by apply index_points_app_r].
    rewrite app_assoc. apply Forall_app. split; [by apply index_points_app_r|].
    constructor; [|constructor]. exists (rs ++ pend), r, []. cbn. split_and!; [done|lia|done].
  - destruct w; [|done]. by rewrite last_snoc.
  - apply Forall_app. auto.
  - done.
  - apply Forall_app. split; [done|]. constructor; [lia|done].
  - rewrite app_assoc. apply Forall_app. split; [|constructor; [lia|done]].
    eapply Forall_impl; [exact bw_below0|]. cbn. lia.
  - apply Forall_app. split; [|constructor; [lia|done]].
    eapply Forall_impl; [exact bw_ts0|]. cbn. lia.
  - len_lia.
  - unfold next_after. by rewrite last_snoc.
  - intros E. by destruct pend.
Qed.

(** Publishing the batch turns the records of the segment into [rs ++ pend]. *)
Lemma publish_holds file s rs pend b next tail :
  seg_holds file s rs -> seg_ts s rs -> batch_wf s rs pend b next ->
  let s' := publish s (recs_size (rs ++ pend)) b in
  seg_holds (recs_bytes (rs ++ pend) ++ tail) s' (rs ++ pend) /\ seg_ts s' (rs ++ pend) /\
  s_base_offset s' = s_base_offset s /\ s_size_bytes s' = recs_size (rs ++ pend) /\
  s_index s' = s_index s ++ b_entries b.
Proof.
  intros [] Ht []. cbv zeta.
  set (s' := publish s (recs_size (rs ++ pend)) b).
  assert (s_base_offset s' = s_base_offset s /\ s_size_bytes s' = recs_size (rs ++ pend) /\
    s_index s' = s_index s ++ b_entries b) as (E1 & E2 & E3).
  { subst s'. unfold publish. rewrite index_push_all. by case_if. }
  split_and!; [|..|done|done|done].
  - constructor; rewrite ?E1, ?E2, ?E3; try done; [by exists tail|..]; by apply Forall_app.
  - apply Forall_app. split.
    + eapply Forall_impl; [exact Ht|]. cbn. intros r Hr Hlt. specialize (Hr Hlt).
      subst s'. unfold publish. case_if; cbn; lia.
    + eapply Forall_impl; [exact bw_ts0|]. cbn. intros r Hr Hlt.
      subst s'. unfold publish. case_if; cbn; [lia|]. rewrite Heqb0 in Hr. lia.
Qed.

(** ** Committing and rolling *)

Lemma part_wf_active p init s rs :
  part_wf p init s rs -> exists fs, p_dir p !! s_base_offset s = Some fs /\
    files_of p (s_base_offset s) = fs /\ seg_holds (f_log fs) s rs /\ seg_ts s rs /\
    0 <= s_base_offset s.
Proof.
  intros Hw. pose proof (pw_holds _ _ _ _ Hw) as Hh. apply Forall_app in Hh as [_ Hh].
  apply Forall_cons in Hh as [(fs & E & ?) _]. cbn in *. exists fs. split; [done|].
  split; [|done]. unfold files_of. by rewrite E.
Qed.

(** Segments other than the one at [b] do not see a write to its files. *)
Lemma seg_wf_insert dir init s rs b fs :
  StronglySorted seg_before (init ++ [(s, rs)]) -> s_base_offset s <= b ->
  Forall (seg_wf dir) init -> Forall (seg_wf (<[b := fs]> dir)) init.
Proof.
  rewrite StronglySorted_snoc. intros [_ Hb] Hle Hi. rewrite Forall_forall in *.
  intros g Hg. destruct (Hi g Hg) as (fs' & E & HH). exists fs'. split; [|done].
  rewrite lookup_insert_ne; [done|]. destruct (Hb g Hg). cbn in *. lia.
Qed.

Lemma seg_before_same_base init s rs s' rs' :
  s_base_offset s' = s_base_offset s ->
  StronglySorted seg_before (init ++ [(s, rs)]) -> StronglySorted seg_before (init ++ [(s', rs')]).
Proof.
  intros E. rewrite !StronglySorted_snoc. unfold seg_before. cbn. by rewrite E.
Qed.

Lemma head_same_base (init : list (segment * list record)) s s' :
  s_base_offset s' = s_base_offset s ->
  s_base_offset <$> head (init.*1 ++ [s']) = s_base_offset <$> head (init.*1 ++ [s]).
Proof. destruct init; cbn; [by intros ->|done]. Qed.

(** A failed write leaves the segment readable: what was published is still a
    prefix of the log file. *)
Lemma part_wf_failed_write p init s rs fs fs' :
  part_wf p init s rs -> p_dir p !! s_base_offset s = Some fs ->
  f_log fs `prefix_of` f_log fs' -> (p_poisoned p = false -> fs' = fs) ->
  part_wf (with_files p (<[s_base_offset s := fs']> (p_dir p)) (p_appender p)) init s rs.
Proof.
  intros Hw Hf [tail Ht] Hp. destruct (part_wf_active _ _ _ _ Hw) as (fs0 & E0 & Ef & Hh & Hts & Hb).
  rewrite E0 in Hf. injection Hf as ->. destruct Hw as [? Hholds ? [] ? ? ? Hspare].
  constructor; cbn; try done.
  - apply Forall_app in Hholds as [Hi _]. apply Forall_app. split; [by eapply seg_wf_insert|].
    constructor; [|done]. exists fs'. cbn. rewrite lookup_insert_eq. split_and!; try done.
    destruct Hh as [[t Et]]. constructor; try done. exists (t ++ tail). by rewrite Ht, Et, app_assoc.
  - constructor; try done. intros Hnp. cbn in Hnp. specialize (Hp Hnp). subst fs'.
    unfold files_of. cbn. rewrite lookup_insert_eq. cbn.
    destruct (aw_files0 Hnp) as [H1 H2]. rewrite Ef in H1, H2. done.
  - intros b fs'' Hb' Hlt. rewrite lookup_insert_ne in Hb' by lia. by eapply Hspare.
Qed.

(** The invariant does not depend on the durability bookkeeping. *)
Lemma part_wf_ext p p' init s rs :
  part_wf p init s rs ->
  p_dir p' = p_dir p -> p_next_offset p' = p_next_offset p -> p_start_offset p' = p_start_offset p ->
  p_segments p' = p_segments p -> p_appender p' = p_appender p ->
  (p_poisoned p' = false -> p_poisoned p = false) -> part_wf p' init s rs.
Proof.
  intros [? ? ? [] ? ? ? ?] E1 E2 E3 E4 E5 E6.
  constructor; rewrite ?E1, ?E2, ?E3, ?E4; try done.
  constructor; rewrite ?E5; try done. unfold files_of. rewrite E1. auto.
Qed.

Lemma part_wf_poison p init s rs : part_wf p init s rs -> part_wf (poison p) init s rs.
Proof. intros. by eapply part_wf_ext. Qed.

Lemma part_wf_log_files p init s rs :
  part_wf p init s rs -> p_poisoned p = false ->
  let fs := files_of p (s_base_offset s) in
  f_log fs = recs_bytes rs /\ f_index fs = index_bytes (s_index s) /\
  a_size_bytes (p_appender p) = recs_size rs /\ appender_ok fs (p_appender p).
Proof.
  intros Hw Hp. cbv zeta. destruct (part_wf_active _ _ _ _ Hw) as (fs & E0 & Ef & Hh & _).
  destruct (pw_active _ _ _ _ Hw). destruct (aw_files0 Hp) as [[H1 H2] H3]. rewrite Ef in *.
  destruct (sh_file _ _ _ Hh) as [tail Et]. rewrite aw_size0, (sh_size _ _ _ Hh) in *.
  split_and!; [|done|done|split; [lia|done]].
  assert (tail = []) as ->; [|by rewrite app_nil_r in Et].
  apply len_zero. rewrite Et, len_app, recs_bytes_len in H1. lia.
Qed.

Lemma write_batch_fault fs a lb ib fault fs' a' rb :
  appender_ok fs a -> write_batch fs a lb ib fault = (fs', a', Some rb) ->
  a' = a /\ f_log fs `prefix_of` f_log fs' /\ (rb = true -> fs' = fs).
Proof.
  destruct fs as [log idx]. intros [H1 H2] Hw. cbn in H1, H2.
  destruct fault as [|k [] []|k [] []]; cbn in Hw; simplify_eq; cbn;
    rewrite ?set_len_app, ?set_len_id by done; split_and!; try done; by apply prefix_app_r.
Qed.

(** The appender after a successful commit. *)
Lemma committed_appender p init s rs pend b next app1 :
  part_wf p init s rs -> batch_wf s rs pend b next ->
  a_base_offset app1 = s_base_offset s -> a_size_bytes app1 = recs_size (rs ++ pend) ->
  a_last_index_pos app1 = a_last_index_pos (p_appender p) ->
  let app2 := match b_last_index_pos b with Some pos => note_index_entry app1 pos | None => app1 end in
  a_base_offset app2 = s_base_offset s /\ a_size_bytes app2 = recs_size (rs ++ pend) /\
  a_index_len app2 = a_index_len app1 /\ a_last_index_pos app2 = snd <$> last (s_index s ++ b_entries b).
Proof.
  intros Hw Hbw Hb Hs Hl1. pose proof (bw_last _ _ _ _ _ Hbw) as Hl. pose proof (pw_active _ _ _ _ Hw) as [].
  destruct (b_last_index_pos b) eqn:El; cbn; split_and!; try done.
  - rewrite last_app_ne; [done|]. intros E. by rewrite E in Hl.
  - assert (b_entries b = []) as ->; [|rewrite app_nil_r; congruence].
    destruct (b_entries b) as [|? l _] using rev_ind; [done|]. by rewrite last_snoc in Hl.
Qed.

(** [commit_batch] publishes the whole batch or nothing of it. *)
Lemma commit_batch_spec p init s rs pend b next fault res p' :
  part_wf p init s rs -> p_poisoned p = false -> batch_wf s rs pend b next ->
  commit_batch p b fault = (res, p') ->
  p_segment_bytes p' = p_segment_bytes p /\
  ((res = Ok batch_default /\ p_poisoned p' = false /\
    p_next_offset p' = next_after (p_next_offset p) pend /\
    exists s', s_base_offset s' = s_base_offset s /\ part_wf p' init s' (rs ++ pend)) \/
   (res = Err AppendIo /\ p_next_offset p' = p_next_offset p /\ part_wf p' init s rs)).
Proof.
  intros Hw Hp Hbw Hc. unfold commit_batch in Hc. rewrite (bw_count _ _ _ _ _ Hbw) in Hc.
  destruct (len pend =? 0) eqn:Ez; boolp.
  { apply len_zero in Ez. subst pend. injection Hc as <- <-. split; [done|]. left.
    rewrite (bw_nil _ _ _ _ _ Hbw eq_refl), app_nil_r. eauto 10. }
  destruct (part_wf_log_files _ _ _ _ Hw Hp) as (Hlog & Hidx & Hsz & Hao).
  destruct (part_wf_active _ _ _ _ Hw) as (fs & E0 & Ef & Hh & Hts & Hb0).
  rewrite (aw_base _ _ (pw_active _ _ _ _ Hw)) in Hc.
  destruct (write_batch _ _ _ _ fault) as [[fs' a'] [rb|]] eqn:Ewb.
  - destruct (write_batch_fault _ _ _ _ _ _ _ _ Hao Ewb) as (-> & Hpre & Hrb).
    rewrite (aw_base _ _ (pw_active _ _ _ _ Hw)) in Hc. rewrite Ef in *.
    injection Hc as <- <-. split; [by destruct rb|]. right. split; [done|]. split; [by destruct rb|].
    destruct rb.
    + apply (part_wf_failed_write p _ _ _ fs); auto.
    + pose proof (part_wf_failed_write (poison p) init s rs fs fs' (part_wf_poison _ _ _ _ Hw) E0 Hpre) as Hx.
      apply Hx. done.
  - assert (fault = NoFault) as -> by (destruct fault as [|k [] []|k [] []]; cbn in Ewb; by simplify_eq).
    destruct (write_batch_ok _ _ _ _ _ _ Hao Ewb) as [Hao' ->]. cbn in Ewb. injection Ewb as <-.
    set (app1 := mkAppender _ _ _ _) in *.
    set (app2 := match b_last_index_pos b with Some _ => _ | None => _ end) in Hc.
    assert (a_size_bytes app1 = recs_size (rs ++ pend)) as E1.
    { subst app1. cbn. by rewrite Hsz, (bw_log _ _ _ _ _ Hbw), recs_bytes_len, recs_size_app. }
    destruct (committed_appender p init s rs pend b next app1 Hw Hbw
      (aw_base _ _ (pw_active _ _ _ _ Hw)) E1 eq_refl) as (Ea & Eb & Ec & Ed).
    fold app2 in Ea, Eb, Ec, Ed.
    rewrite Ea, Eb in Hc. injection Hc as <- <-.
    destruct (publish_holds (f_log fs) s rs pend b next [] Hh Hts Hbw) as (Hh' & Hts' & F1 & F2 & F3).
    rewrite app_nil_r in Hh'. split; [done|]. left. split; [done|]. split; [done|]. cbn.
    split. { rewrite (bw_next _ _ _ _ _ Hbw). unfold next_after. destruct pend using rev_ind; [done|].
             by rewrite last_snoc. }
    exists (publish s (recs_size (rs ++ pend)) b). split; [done|].
    rewrite Hlog, Hidx, (bw_log _ _ _ _ _ Hbw), (bw_index _ _ _ _ _ Hbw), <- recs_bytes_app, <- index_bytes_app.
    destruct Hw as [Hsegs Hholds ? ? ? ? ? Hspare].
    constructor; cbn.
    + by rewrite Hsegs, update_last_snoc.
    + apply Forall_app in Hholds as [Hi _]. apply Forall_app. split; [by eapply seg_wf_insert|].
      constructor; [|done]. eexists. cbn. rewrite F1, lookup_insert_eq. split_and!; done.
    + by eapply seg_before_same_base.
    + constructor; cbn; rewrite ?F1, ?F2, ?F3; try done. intros _.
      unfold files_of; cbn; rewrite lookup_insert_eq; cbn. split; [|done].
      split; cbn; rewrite ?Eb, ?recs_bytes_len, ?Ec; [done|].
      subst app1. cbn. destruct Hao as [_ Hao]. rewrite Hao, Hidx, (bw_index _ _ _ _ _ Hbw), index_bytes_app.
      len_lia.
    + rewrite (bw_next _ _ _ _ _ Hbw), <- (next_after_ne 0 rs) by (by intros ->).
      apply next_after_above, (bw_offsets _ _ _ _ _ Hbw).
    + rewrite (bw_next _ _ _ _ _ Hbw). apply next_after_nonneg; [lia|].
      eapply Forall_impl; [exact (bw_base _ _ _ _ _ Hbw)|]. cbn. lia.
    + by rewrite <- pw_start0; apply head_same_base.
    + intros b' fs'' Hb' Hlt. rewrite F1 in Hlt. rewrite lookup_insert_ne in Hb' by lia. by eapply Hspare.
Qed.

(** The log grows along the offsets. *)
Lemma log_sorted init s rs dir :
  Forall (seg_wf dir) (init ++ [(s, rs)]) -> StronglySorted seg_before (init ++ [(s, rs)]) ->
  offsets_sorted (log_of init rs) /\
  Forall (fun r => r_offset r < s_base_offset s) (concat init.*2).
Proof.
  rewrite Forall_app, StronglySorted_snoc. intros [Hi Hs] [Hc Hb].
  apply Forall_cons in Hs as [(fs & _ & Hh & _) _]. cbn in Hh.
  assert (Forall (fun r => r_offset r < s_base_offset s) (concat init.*2)) as Hlt.
  { clear -Hb. induction Hb as [|g init [_ Hg] Hb IH]; cbn; [done|]. apply Forall_app. auto. }
  split; [|done]. unfold log_of. apply offsets_sorted_app. split_and!.
  - clear -Hi Hc. induction Hc as [|g init Hc IH Hg]; cbn; [constructor|].
    apply Forall_cons in Hi as [(fs & _ & Hh & _) Hi]. apply offsets_sorted_app.
    split_and!; [apply Hh|by apply IH|]. intros a b Ha Hb.
    apply list_elem_of_In, in_concat in Hb as (l & Hl & Hb).
    apply list_elem_of_In, list_elem_of_fmap in Hl as (g' & -> & Hg').
    apply list_elem_of_In in Hb. rewrite Forall_forall in Hg, Hi.
    destruct (Hg g' Hg') as [_ Hlt]. rewrite Forall_forall in Hlt. specialize (Hlt a Ha). cbn in Hlt.
    destruct (Hi g' Hg') as (? & _ & Hh' & _). pose proof (sh_base _ _ _ Hh') as Hbase.
    rewrite Forall_forall in Hbase. specialize (Hbase b Hb). cbn in Hbase. lia.
  - apply Hh.
  - intros a b Ha Hb'. rewrite Forall_forall in Hlt. specialize (Hlt a Ha).
    pose proof (sh_base _ _ _ Hh) as Hbase. rewrite Forall_forall in Hbase.
    specialize (Hbase b Hb'). cbn in *. lia.
Qed.

Lemma part_wf_fsync p init s rs h : part_wf p init s rs -> part_wf (fsync p h) init s rs.
Proof. intros. by eapply part_wf_ext. Qed.

(** Creating the empty files of a segment to come disturbs nothing. *)
Lemma part_wf_create p init s rs b :
  part_wf p init s rs -> s_base_offset s < b ->
  part_wf (with_files p (<[b := mkFiles [] []]> (p_dir p)) (p_appender p)) init s rs.
Proof.
  intros [Hsegs Hholds Hchain [] ? ? ? Hspare] Hlt. constructor; cbn; try done.
  - assert (Forall (fun g => s_base_offset g.1 < b) (init ++ [(s, rs)])) as Hbb.
    { apply Forall_app. split; [|by constructor]. apply StronglySorted_snoc in Hchain as [_ Hc].
      eapply Forall_impl; [exact Hc|]. intros g []. cbn in *. lia. }
    rewrite Forall_forall in *. intros g Hg. destruct (Hholds g Hg) as (fs & E & HH).
    exists fs. split; [|done]. rewrite lookup_insert_ne; [done|]. specialize (Hbb g Hg). cbn in Hbb. lia.
  - constructor; try done. intros Hp. unfold files_of. cbn. rewrite lookup_insert_ne by lia.
    by apply aw_files0.
  - intros b' fs Hb' Hlt'. destruct (decide (b' = b)) as [->|].
    + rewrite lookup_insert_eq in Hb'. by injection Hb'.
    + rewrite lookup_insert_ne in Hb' by done. by eapply Hspare.
Qed.

(** [roll] seals the active segment and opens an empty one; when it fails the
    partition is as it was, possibly fenced. *)
Lemma roll_spec p init s rs new_base fault res p' :
  part_wf p init s rs -> p_poisoned p = false -> rs <> [] ->
  Forall (fun r => r_offset r < new_base) rs ->
  roll p new_base fault = (res, p') ->
  p_segment_bytes p' = p_segment_bytes p /\ p_next_offset p' = p_next_offset p /\
  ((res = Ok tt /\ p_poisoned p' = false /\
    part_wf p' (init ++ [(s, rs)]) (segment_open_empty new_base) []) \/
   ((res = Err SyncSealed \/ res = Err RollIo) /\ part_wf p' init s rs)).
Proof.
  intros Hw Hp Hne Hlt Hr. unfold roll in Hr.
  destruct (part_wf_active _ _ _ _ Hw) as (fs & E0 & Ef & Hh & Hts & Hb0).
  assert (s_base_offset s < new_base) as Hbase.
  { destruct rs as [|r rs]; [done|]. apply Forall_cons in Hlt as [Hlt _].
    pose proof (sh_base _ _ _ Hh) as Hb. apply Forall_cons in Hb as [Hb _]. lia. }
  pose proof (part_wf_fsync _ _ _ _ (a_base_offset (p_appender p)) Hw) as Hf.
  set (pf := fsync p _) in *.
  assert (default (mkFiles [] []) (p_dir pf !! new_base) = mkFiles [] []) as Ed.
  { destruct (p_dir pf !! new_base) as [fs'|] eqn:E; [|done].
    by eapply (pw_spare _ _ _ _ Hf). }
  unfold appender_create in Hr. rewrite Ed in Hr.
  pose proof (part_wf_create _ _ _ _ _ Hf Hbase) as Hcr.
  destruct fault as [[]|]; injection Hr as <- <-.
  - split_and!; [done..|]. right. split; [by left|]. by apply part_wf_poison.
  - split_and!; [done..|]. right. split; [by right|done].
  - split_and!; [done..|]. right. split; [by right|done].
  - split_and!; [done..|]. left. split_and!; [done..|].
    destruct Hcr as [Hsegs Hholds Hchain _ ? ? ? Hspare].
    constructor; cbn in *.
    + rewrite Hsegs, fmap_app. done.
    + apply Forall_app. split; [done|]. constructor; [|done]. exists (mkFiles [] []).
      split; [apply lookup_insert_eq|]. split_and!; [|constructor|cbn; lia].
      constructor; cbn; try done; try constructor. by exists [].
    + apply StronglySorted_snoc. split; [done|]. apply StronglySorted_snoc in Hchain as [_ Hc].
      apply Forall_app. split.
      * eapply Forall_impl; [exact Hc|]. intros g [H1 H2]. cbn in *. split; cbn; [lia|].
        eapply Forall_impl; [exact H2|]. cbn. lia.
      * constructor; [|done]. split; cbn; done.
    + constructor; cbn; try done. intros _. unfold files_of. cbn. rewrite lookup_insert_eq. done.
    + constructor.
    + done.
    + rewrite fmap_app. rewrite <- pw_start0. by destruct init.
    + intros b' fs' Hb' Hlt'. rewrite lookup_insert_ne in Hb' by (cbn in *; lia).
      eapply (Hspare b'); [|cbn in *; lia]. rewrite lookup_insert_ne by (cbn in *; lia). done.
Qed.

(** ** Append refines the abstract log *)

(** What the rest of a batch must achieve, from a partition with the log
    [log] and the records [pend] pending; [F] says that the batch names no
    explicit offset. *)
Definition append_result (F : Prop) (p : partition) (log pend : list record) (recs : list append_record)
    (now next : Z) (offsets : list Z) (fresh : bool)
    (out : outcome append_error (list Z * bool) * partition) : Prop :=
  let '(os, news, _) := assign now next recs in
  let p' := out.2 in
  p_segment_bytes p' = p_segment_bytes p /\
  match out.1 with
  | Ok (offs, wrote) =>
    offs = offsets ++ os /\ wrote = (fresh || negb (len news =? 0)) /\ p_poisoned p' = false /\
    p_next_offset p' = next_after (p_next_offset p) (pend ++ news) /\
    exists init s rs, part_wf p' init s rs /\ log_of init rs = log ++ pend ++ news /\
      s_base_offset s <= p_next_offset p'
  | Err _ =>
    exists k init s rs, part_wf p' init s rs /\ log_of init rs = log ++ take k (pend ++ news) /\
      p_next_offset p' = next_after (p_next_offset p) (take k (pend ++ news)) /\
      (F -> s_base_offset s <= p_next_offset p')
  | Panic => False
  end.

(** The loop invariant. *)
Record loop_wf (p : partition) (init : list (segment * list record)) (s : segment)
    (rs pend : list record) (b : pending_batch) (next : Z) : Prop := {
  lw_part : part_wf p init s rs;
  lw_live : p_poisoned p = false;
  lw_batch : batch_wf s rs pend b next;
  lw_base : s_base_offset s <= next;
  lw_next : next = next_after (p_next_offset p) pend
}.

(** One record pushed on the batch. *)
Lemma loop_wf_push p init s rs pend b next r :
  part_wf p init s rs -> p_poisoned p = false -> batch_wf s rs pend b next ->
  record_ok r -> s_base_offset s <= next <= r_offset r ->
  loop_wf p init s rs (pend ++ [r])
    (batch_push (p_appender p) b (r_offset r) (r_timestamp_ms r) (r_key r) (r_value r))
    (r_offset r + 1).
Proof.
  intros Hw Hp Hb Hr Hn. destruct (part_wf_log_files _ _ _ _ Hw Hp) as (_ & _ & Hsz & _).
  constructor; [done|done|..|lia|].
  - pose proof (pw_active _ _ _ _ Hw) as []. by eapply batch_push_wf.
  - unfold next_after. by rewrite last_snoc.
Qed.

(** A commit followed by a roll, as the loop does when the segment is full. *)
Lemma commit_roll_spec p init s rs pend b next wf rf offset :
  loop_wf p init s rs pend b next -> rs ++ pend <> [] -> next <= offset ->
  match commit_batch p b wf with
  | (Ok b', p1) =>
    p_segment_bytes p1 = p_segment_bytes p /\ b' = batch_default /\
    match roll p1 offset rf with
    | (Ok _, p2) =>
      p_segment_bytes p2 = p_segment_bytes p /\
      exists init' s', part_wf p2 init' s' [] /\ p_poisoned p2 = false /\
        batch_wf s' [] [] batch_default offset /\ s_base_offset s' = offset /\
        log_of init' [] = log_of init rs ++ pend /\
        p_next_offset p2 = next
    | (Err _, p2) =>
      p_segment_bytes p2 = p_segment_bytes p /\
      exists s', part_wf p2 init s' (rs ++ pend) /\ s_base_offset s' = s_base_offset s /\
        p_next_offset p2 = next
    | (Panic, _) => False
    end
  | (Err _, p1) =>
    p_segment_bytes p1 = p_segment_bytes p /\ part_wf p1 init s rs /\
    p_next_offset p1 = p_next_offset p
  | (Panic, _) => False
  end.
Proof.
  intros [Hw Hp Hb Hbase Hnext] Hne Hoff.
  destruct (commit_batch p b wf) as [res p1] eqn:Ec.
  destruct (commit_batch_spec _ _ _ _ _ _ _ _ _ _ Hw Hp Hb Ec)
    as (Hsb & [(-> & Hp1 & Hn1 & s' & Es' & Hw1)|(-> & Hn1 & Hw1)]); [|done].
  split_and!; [done|done|].
  destruct (roll p1 offset rf) as [res p2] eqn:Er.
  assert (Forall (fun r => r_offset r < offset) (rs ++ pend)) as Hlt.
  { eapply Forall_impl; [exact (bw_below _ _ _ _ _ Hb)|]. cbn. lia. }
  destruct (roll_spec _ _ _ _ _ _ _ _ Hw1 Hp1 Hne Hlt Er)
    as (Hsb2 & Hn2 & [(-> & Hp2 & Hw2)|([-> | ->] & Hw2)]).
  2, 3: split; [congruence|]; exists s'; split_and!; [done|done|congruence].
  split; [congruence|]. exists (init ++ [(s', rs ++ pend)]), (segment_open_empty offset).
  split_and!; [done|done| |done| |congruence].
  - destruct (part_wf_active _ _ _ _ Hw2) as (fs & _ & _ & Hh & _). eapply batch_default_wf; [done|constructor].
  - unfold log_of. rewrite fmap_app, concat_app. cbn. by rewrite !app_nil_r, app_assoc.
Qed.

(** The result of the rest of the loop, seen from before one record was pushed:
    the records [pre] were committed in between. *)
Lemma append_result_cons F p p1 log log1 pre pend1 r recs now next o offsets fresh out :
  assign_one next r = inr o ->
  p_segment_bytes p1 = p_segment_bytes p ->
  log1 = log ++ pre -> p_next_offset p1 = next_after (p_next_offset p) pre ->
  append_result F p1 log1
    (pend1 ++ [mkRecord o (default now (ar_timestamp_ms r)) (ar_key r) (ar_value r)])
    recs now (o + 1) (offsets ++ [o]) true out ->
  append_result F p log (pre ++ pend1) (r :: recs) now next offsets fresh out.
Proof.
  intros Ho Hsb -> Hn. unfold append_result. cbn [assign]. rewrite Ho.
  destruct (assign now (o + 1) recs) as [[os news] n]. set (rec := mkRecord _ _ _ _).
  intros [Hsb' HH]. split; [congruence|].
  destruct out as [[[offs wrote]|e|] p']; cbn [fst snd] in *; [|..|done].
  - destruct HH as (-> & -> & Hp & Hn' & init & s & rs & Hw & Hlog & Hb).
    rewrite orb_true_l. replace (negb (len (rec :: news) =? 0)) with true by (symmetry; bool_lia).
    rewrite orb_true_r, <- app_assoc. split_and!; [done..| |].
    + rewrite Hn', Hn, <- next_after_app. f_equal. by rewrite <- !app_assoc.
    + exists init, s, rs. split_and!; [done| |done]. rewrite Hlog, <- !app_assoc. done.
  - destruct HH as (k & init & s & rs & Hw & Hlog & Hn' & Hb).
    exists (length pre + k)%nat, init, s, rs.
    assert (take (length pre + k) ((pre ++ pend1) ++ rec :: news) =
      pre ++ take k ((pend1 ++ [rec]) ++ news)) as ->.
    { rewrite <- !app_assoc. by rewrite take_app_add. }
    split_and!; [done|by rewrite Hlog, <- app_assoc| |done].
    by rewrite Hn', Hn, <- next_after_app.
Qed.

(** A batch that stops early has published a prefix of it. *)
Lemma append_result_err (F : Prop) p log pend recs now next offsets fresh e p' k init s rs :
  p_segment_bytes p' = p_segment_bytes p ->
  part_wf p' init s rs -> log_of init rs = log ++ take k pend -> (k <= length pend)%nat ->
  p_next_offset p' = next_after (p_next_offset p) (take k pend) ->
  (F -> s_base_offset s <= p_next_offset p') ->
  append_result F p log pend recs now next offsets fresh (Err e, p').
Proof.
  intros Hsb Hw Hlog Hk Hn Hb. unfold append_result.
  destruct (assign now next recs) as [[os news] n]. cbn. split; [done|].
  exists k, init, s, rs. rewrite take_app_le by done. done.
Qed.

(** One iteration of the loop. *)
Lemma append_loop_cons r recs now ft p b next offsets fresh :
  append_loop (r :: recs) now ft p b next offsets fresh =
  match assign_one next r with
  | inl o => append_loop recs now ft p b next (offsets ++ [o]) fresh
  | inr o =>
    let put p b ft :=
      append_loop recs now ft p
        (batch_push (p_appender p) b o (default now (ar_timestamp_ms r)) (ar_key r) (ar_value r))
        (o + 1) (offsets ++ [o]) true in
    let pending := a_size_bytes (p_appender p) + len (b_log b) in
    if (0 <? pending) &&
       (p_segment_bytes p <? pending + record_disk_size (len <$> ar_key r) (len (ar_value r)))
    then
      match commit_batch p b (pop_write ft).1 with
      | (Ok b, p) =>
        match roll p o (pop_roll (pop_write ft).2).1 with
        | (Ok _, p) => put p b (pop_roll (pop_write ft).2).2
        | (Err e, p) => (Err e, p)
        | (Panic, p) => (Panic, p)
        end
      | (Err e, p) => (Err e, p)
      | (Panic, p) => (Panic, p)
      end
    else put p b ft
  end.
Proof.
  cbn [append_loop]. unfold assign_one. cbv zeta.
  destruct (pop_write ft) as [wf ft1]. cbn [fst snd]. destruct (pop_roll ft1) as [rf ft2].
  destruct (ar_offset r) as [o|]; [destruct (o <? next); [done|]|]; done.
Qed.

(** The end of the loop: the last commit. *)
Lemma append_loop_nil (F : Prop) now ft p b next offsets fresh init s rs pend :
  loop_wf p init s rs pend b next -> (F -> s_base_offset s <= p_next_offset p) ->
  append_result F p (log_of init rs) pend [] now next offsets fresh (append_loop [] now ft p b next offsets fresh).
Proof.
  intros [Hw Hp Hb Hbase Hnext] Hnone. cbn [append_loop]. destruct (commit_batch p b _) as [res p'] eqn:Ec.
  destruct (commit_batch_spec _ _ _ _ _ _ _ _ _ _ Hw Hp Hb Ec)
    as (Hsb & [(-> & Hp' & Hn & s' & Es' & Hw')|(-> & Hn & Hw')]).
  - unfold append_result. cbn. rewrite !app_nil_r, orb_false_r. split_and!; [done..|].
    exists init, s', (rs ++ pend). unfold log_of. rewrite app_assoc.
    split_and!; [done|done|]. rewrite Hn, <- Hnext. lia.
  - eapply (append_result_err _ _ _ _ _ _ _ _ _ _ _ 0 init s rs); cbn; [done..|by rewrite app_nil_r|lia|done|].
    rewrite Hn. done.
Qed.

(** A record below the end is only reported. *)
Lemma append_result_skip (F : Prop) p log pend r recs now next offsets fresh o res :
  assign_one next r = inl o ->
  append_result F p log pend recs now next (offsets ++ [o]) fresh res ->
  append_result F p log pend (r :: recs) now next offsets fresh res.
Proof.
  intros Ho Hrest. unfold append_result in *. cbn [assign]. rewrite Ho.
  destruct (assign now next recs) as [[os news] n]. by rewrite <- app_assoc in Hrest.
Qed.

Lemma assign_one_new (F : Prop) next r o :
  assign_one next r = inr o -> (F -> ar_offset r = None) -> next <= o /\ (F -> o = next).
Proof.
  unfold assign_one. intros Ho HF. destruct (ar_offset r) eqn:Eo; [case_if_in Ho|]; simplify_eq; split; try lia.
  intros f. specialize (HF f). congruence.
Qed.

(** A segment is rolled only when it holds or is about to hold a record. *)
Lemma pending_not_empty p init s rs pend b next :
  loop_wf p init s rs pend b next -> 0 < a_size_bytes (p_appender p) + len (b_log b) -> rs ++ pend <> [].
Proof.
  intros [Hw Hp Hb _ _] Hlt E. apply app_nil in E as [-> ->].
  destruct (part_wf_log_files _ _ _ _ Hw Hp) as (_ & _ & Hsz & _). by rewrite (bw_log _ _ _ _ _ Hb), Hsz in Hlt.
Qed.

Lemma append_loop_spec (F : Prop) recs now ft p b next offsets fresh init s rs pend :
  loop_wf p init s rs pend b next ->
  (F -> Forall (fun r => ar_offset r = None) recs) -> (F -> s_base_offset s <= p_next_offset p) ->
  Forall record_ok (assign now next recs).1.2 ->
  append_result F p (log_of init rs) pend recs now next offsets fresh
    (append_loop recs now ft p b next offsets fresh).
Proof.
  revert ft p b next offsets fresh init s rs pend.
  induction recs as [|r recs IH]; intros ft p b next offsets fresh init s rs pend Hl HF Hnone Hok;
    pose proof Hl as [Hw Hp Hb Hbase Hnext].
  { by apply (append_loop_nil F now ft p b next offsets fresh init s rs pend). }
  assert (F -> Forall (fun r => ar_offset r = None) recs) as HF'.
  { intros f. specialize (HF f). by apply Forall_cons in HF as [_ HF]. }
  cbn [assign] in Hok. rewrite append_loop_cons.
  (* a record that is pushed, after [pre] was committed *)
  assert (forall o ft1 p1 init1 s1 rs1 pre pend1 b1 n1,
    assign_one next r = inr o -> pend = pre ++ pend1 ->
    part_wf p1 init1 s1 rs1 -> p_poisoned p1 = false -> batch_wf s1 rs1 pend1 b1 n1 ->
    s_base_offset s1 <= n1 <= o -> p_segment_bytes p1 = p_segment_bytes p ->
    (F -> s_base_offset s1 <= p_next_offset p1) ->
    log_of init1 rs1 = log_of init rs ++ pre -> p_next_offset p1 = next_after (p_next_offset p) pre ->
    append_result F p (log_of init rs) pend (r :: recs) now next offsets fresh
      (append_loop recs now ft1 p1
        (batch_push (p_appender p1) b1 o (default now (ar_timestamp_ms r)) (ar_key r) (ar_value r))
        (o + 1) (offsets ++ [o]) true)) as Hput.
  { intros o ft1 p1 init1 s1 rs1 pre pend1 b1 n1 Ho -> Hw1 Hp1 Hb1 Hn1 Hsb1 Hnone1 Hlog1 Hnx1.
    eapply append_result_cons; [done|done|exact Hlog1|done|]. rewrite Ho in Hok.
    destruct (assign now (o + 1) recs) as [[os news] n] eqn:Ea. cbn in Hok.
    apply Forall_cons in Hok as [Hr Hok].
    eapply IH; [|done|done|by rewrite Ea].
    by apply (loop_wf_push p1 init1 s1 rs1 pend1 b1 n1
                (mkRecord o (default now (ar_timestamp_ms r)) (ar_key r) (ar_value r))). }
  destruct (assign_one next r) as [o|o] eqn:Ho.
  { apply (append_result_skip _ _ _ _ _ _ _ _ _ _ o); [done|]. eapply IH; try done.
    by destruct (assign now next recs) as [[os news] n]. }
  destruct (assign_one_new F next r o) as [Hle HFo]; [done|intros f; by apply (Forall_inv (HF f))|].
  cbv zeta. destruct (_ && _) eqn:Efull.
  2: { eapply (Hput o ft p init s rs [] pend b next); try done. by rewrite app_nil_r. }
  assert (rs ++ pend <> []) as Hne.
  { apply (pending_not_empty p init s rs pend b next); [done|]. by apply andb_prop in Efull as [? _]; boolp. }
  set (wf := (pop_write ft).1). set (rf := (pop_roll (pop_write ft).2).1).
  pose proof (commit_roll_spec p init s rs pend b next wf rf o Hl Hne Hle) as Hcr.
  destruct (commit_batch p b wf) as [[b1|e|] p1]; [|..|done].
  - destruct Hcr as (Hsb1 & -> & Hcr). destruct (roll p1 o rf) as [[[]|e|] p2]; [|..|done].
    + destruct Hcr as (Hsb2 & init2 & s2 & Hw2 & Hp2 & Hb2 & Es2 & Hlog2 & Hn2).
      eapply (Hput o _ p2 init2 s2 [] pend [] batch_default o); try done.
      * by rewrite app_nil_r.
      * lia.
      * intros f. rewrite Es2, Hn2. specialize (HFo f). lia.
      * by rewrite Hn2.
    + destruct Hcr as (Hsb2 & s2 & Hw2 & Es2 & Hn2).
      eapply (append_result_err _ _ _ _ _ _ _ _ _ _ _ (length pend) init s2 (rs ++ pend)); try done.
      * unfold log_of. by rewrite firstn_all, app_assoc.
      * by rewrite firstn_all, Hn2.
      * intros f. rewrite Es2, Hn2. lia.
  - destruct Hcr as (Hsb1 & Hw1 & Hn1).
    eapply (append_result_err _ _ _ _ _ _ _ _ _ _ _ 0 init s rs); try done.
    + cbn. by rewrite app_nil_r.
    + lia.
    + rewrite Hn1. done.
Qed.

(** [sync_upto] touches durability only. *)
Lemma sync_upto_wf p init s rs seq h ok :
  part_wf p init s rs ->
  let out := sync_upto p seq h ok in
  part_wf out.2 init s rs /\ p_next_offset out.2 = p_next_offset p /\
  (out.1 = Ok tt /\ p_poisoned out.2 = p_poisoned p \/ out.1 = Err FsyncIo).
Proof.
  intros Hw. cbv zeta. unfold sync_upto. case_if; [cbn; auto|].
  destruct (if wm_handle (p_latest p) =? h then _ else _) as [t h'].
  case_if; cbn [fst snd]; (split; [by eapply part_wf_ext|auto]).
Qed.

Lemma assign_next now next recs :
  (assign now next recs).2 = next_after next (assign now next recs).1.2.
Proof.
  revert next. induction recs as [|r recs IH]; intros next; [done|]. cbn.
  destruct (assign_one next r) as [o|o].
  - specialize (IH next). destruct (assign now next recs) as [[os news] n]. done.
  - specialize (IH (o + 1)). destruct (assign now (o + 1) recs) as [[os news] n]. cbn in *.
    rewrite IH. symmetry. apply (next_after_app next [mkRecord o _ _ _] news).
Qed.

Lemma append_batch_result p init s rs recs dur now ft :
  part_wf p init s rs -> s_base_offset s <= p_next_offset p ->
  Forall record_ok (assign now (p_next_offset p) recs).1.2 ->
  let '(os, news, n) := assign now (p_next_offset p) recs in
  match append_batch p recs dur now ft with
  | (Ok offs, p') =>
    offs = os /\ p_poisoned p = false /\ p_poisoned p' = false /\ p_next_offset p' = n /\
    exists init' s' rs', part_wf p' init' s' rs' /\ s_base_offset s' <= p_next_offset p' /\
      log_of init' rs' = log_of init rs ++ news
  | (Err e, p') =>
    exists k init' s' rs', part_wf p' init' s' rs' /\
      log_of init' rs' = log_of init rs ++ take k news /\
      p_next_offset p' = next_after (p_next_offset p) (take k news) /\
      (Forall (fun r => ar_offset r = None) recs -> s_base_offset s' <= p_next_offset p') /\
      (p_poisoned p = true -> e = Fenced /\ p' = p)
  | (Panic, _) => False
  end.
Proof.
  intros Hw Hb Hok. pose proof (assign_next now (p_next_offset p) recs) as Hnx.
  unfold append_batch. destruct (p_poisoned p) eqn:Hp.
  { destruct (assign _ _ _) as [[os news] n]. exists 0%nat, init, s, rs. cbn. by rewrite app_nil_r. }
  destruct (part_wf_active _ _ _ _ Hw) as (fs & _ & _ & Hh & _).
  pose proof (append_loop_spec (Forall (fun r => ar_offset r = None) recs) recs now ft p
    batch_default (p_next_offset p) [] false init s rs []) as Hr.
  unfold append_locked.
  assert (loop_wf p init s rs [] batch_default (p_next_offset p)) as Hl.
  { constructor; try done. eapply batch_default_wf; [done|]. apply Hw. }
  specialize (Hr Hl (fun x => x) (fun _ => Hb) Hok). unfold append_result in Hr.
  destruct (assign _ _ _) as [[os news] n]. cbn [app fst snd] in Hnx, Hr.
  destruct (append_loop _ _ _ _ _ _ _ _) as [[[offs wrote]|e|] p1]; cbn [fst snd] in Hr; [|..|by destruct Hr].
  - destruct Hr as (_ & -> & -> & Hp1 & Hn1 & init1 & s1 & rs1 & Hw1 & Hlog & Hb1).
    rewrite <- Hnx in Hn1.
    pose proof (sync_upto_wf p1 init1 s1 rs1 (wm_seq (p_latest p1)) (wm_handle (p_latest p1)) (ft_fsync ft) Hw1) as Hsy.
    destruct (sync_upto p1 _ _ _) as [o p2]. cbn [fst snd] in Hsy. destruct Hsy as (Hw2 & Hn2 & Ho).
    destruct dur, (false || negb (len news =? 0)); cbn [fst snd]; try (split_and!; eauto 10; done).
    case_if; [|split_and!; eauto 10; done].
    destruct Ho as [[-> Ho]| ->].
    + split_and!; [done|done|congruence|congruence|]. exists init1, s1, rs1. rewrite Hn2. done.
    + exists (length news), init1, s1, rs1. rewrite firstn_all, Hn2, Hn1. split_and!; try done. lia.
  - destruct Hr as (_ & k & init1 & s1 & rs1 & Hw1 & Hlog & Hn1 & Hb1).
    exists k, init1, s1, rs1. done.
Qed.
End Invariant.

(** ** Reading *)

Section Reading.
Context `{Crc32}.

Lemma visible_app t h l k : visible t h (l ++ k) = visible t h l ++ visible t h k.
Proof. apply filter_app. Qed.

(** In a sorted log, a non-empty prefix of what is visible is everything visible
    up to its last record. *)
Lemma visible_prefix t h log out r :
  offsets_sorted log -> out `prefix_of` visible t h log -> last out = Some r ->
  visible t (r_offset r + 1) log = out /\ t <= r_offset r < h.
Proof.
  intros Hs [rest Hv] Hl. apply last_snoc_inv in Hl as [out' ->].
  assert (offsets_sorted (visible t h log)) as Hsv.
  { clear -Hs. induction Hs as [|x l Hs IH Hx]; [constructor|]. unfold visible. rewrite filter_cons.
    destruct (decide _); [|done]. constructor; [done|]. rewrite Forall_forall in *.
    intros y Hy. apply list_elem_of_filter in Hy as [_ Hy]. auto. }
  assert (forall x, x ∈ visible t h log -> t <= r_offset x < h) as Hin.
  { intros x Hx. by apply list_elem_of_filter in Hx as [? _]. }
  assert (t <= r_offset r < h) as Hr by (apply Hin; rewrite Hv, !elem_of_app; left; right; left).
  split; [|done].
  assert (visible t (r_offset r + 1) log = visible t (r_offset r + 1) (visible t h log)) as ->.
  { unfold visible. rewrite list_filter_filter. apply list_filter_iff. intros x. lia. }
  rewrite Hv in *. unfold visible at 1. apply filter_split.
  - apply Forall_forall. intros x Hx. assert (t <= r_offset x < h) by (apply Hin, elem_of_app; by left).
    apply offsets_sorted_app in Hsv as (Hs1 & _). apply StronglySorted_snoc in Hs1 as [_ Hs1].
    rewrite Forall_forall in Hs1. apply elem_of_app in Hx as [Hx|Hx]; [specialize (Hs1 x Hx); cbn in Hs1; lia|].
    apply list_elem_of_singleton in Hx as ->. lia.
  - apply Forall_forall. intros x Hx. apply offsets_sorted_app in Hsv as (_ & _ & Hlt).
    specialize (Hlt r x). rewrite elem_of_app in Hlt. specialize (Hlt (or_intror (list_elem_of_here _ _)) Hx). lia.
Qed.

(** The walk over the segments finds the first ones with a visible record. *)
Lemma read_walk_spec p gs t mr mb hwm en :
  Forall (seg_wf (p_dir p)) gs -> 0 <= t -> 0 < mr ->
  Forall (fun g => Forall (fun r => record_size r <= read_window mb) g.2) gs ->
  Forall (fun g => s_base_offset g.1 <= hwm) gs -> en <= hwm -> gs <> [] ->
  let '(out, en') := read_walk p gs.*1 t mr mb hwm en in
  out `prefix_of` visible t hwm (concat gs.*2) /\
  len out <= mr /\ (1 < len out -> recs_size out <= mb) /\
  (out = [] -> visible t hwm (concat gs.*2) = [] /\ en' = hwm).
Proof.
  intros Hwf Ht Hmr Hwin Hbase. revert en. induction gs as [|[s rs] gs IH]; [done|].
  intros en Hen _. apply Forall_cons in Hwf as [(fs & Hf & Hh & _) Hwf].
  apply Forall_cons in Hwin as [Hw Hwin]. apply Forall_cons in Hbase as [Hb Hbase].
  cbn in Hf, Hh, Hw, Hb. cbn [fmap list_fmap fst snd read_walk concat].
  assert (files_of p (s_base_offset s) = fs) as -> by (unfold files_of; by rewrite Hf).
  pose proof (read_from_budget (f_log fs) s rs t mr mb hwm Hh Ht ltac:(lia) Hw) as Hbud.
  rewrite visible_app. destruct (read_from _ _ _ _ _ _) as [|r out] eqn:Er.
  - assert (visible t hwm rs = []) as ->.
    { destruct (visible t hwm rs) as [|x l] eqn:E; [done|]. exfalso.
      by apply (read_budget_progress _ _ _ _ Hbud Hmr). }
    destruct gs as [|[s' rs'] gs].
    + cbn. split_and!; [done|len_lia|len_lia|]. intros _. split; [done|lia].
    + specialize (IH Hwf Hwin Hbase). cbn [fmap list_fmap fst] in IH |- *. apply IH; [|done].
      apply Forall_cons in Hbase as [Hb' _]. cbn in Hb'. lia.
  - destruct Hbud as (rest & Hv & Hl & Hz & _). split_and!; [|done|done|done].
    rewrite Hv. rewrite <- app_assoc. by apply prefix_app_r.
Qed.

Lemma base_split gs t :
  StronglySorted seg_before gs -> exists a b : list (segment * list record), gs = a ++ b /\
    Forall (fun g => s_base_offset g.1 <= t) a /\ Forall (fun g => t < s_base_offset g.1) b.
Proof.
  induction 1 as [|g gs Hs IH Hg]; [by exists [], []|].
  destruct (decide (s_base_offset g.1 <= t)) as [Hle|Hgt].
  - destruct IH as (a & b & -> & Ha & Hb). exists (g :: a), b. split_and!; [done|by constructor|done].
  - exists [], (g :: gs). split_and!; [done|done|]. constructor; [lia|].
    eapply Forall_impl; [exact Hg|]. intros x [Hx _]. lia.
Qed.

(** Segments in front of the chosen one hold nothing at or above the target. *)
Lemma segment_index_split gs t start :
  StronglySorted seg_before gs -> s_base_offset <$> head gs.*1 = Some start -> start <= t ->
  exists pre suf, gs = pre ++ suf /\ suf <> [] /\
    drop (segment_index_for gs.*1 t) gs.*1 = suf.*1 /\
    Forall (fun r => r_offset r < t) (concat pre.*2).
Proof.
  intros Hs Hst Hle. destruct (base_split gs t Hs) as (a & b & -> & Ha & Hb).
  destruct a as [|g a _] using rev_ind.
  { destruct b as [|g b]; [done|]. cbn in Hst. injection Hst as <-.
    apply Forall_cons in Hb as [Hb _]. lia. }
  exists a, ([g] ++ b). rewrite <- app_assoc in Hs |- *. split_and!; [done|done| |].
  - unfold segment_index_for. rewrite !fmap_app, app_assoc. rewrite (partition_point_spec _ (a.*1 ++ [g].*1) b.*1).
    + rewrite <- app_assoc. apply drop_app_len. rewrite length_app. cbn. lia.
    + rewrite <- fmap_app. apply Forall_fmap. eapply Forall_impl; [exact Ha|]. cbn. intros. by apply Z.leb_le.
    + apply Forall_fmap. eapply Forall_impl; [exact Hb|]. cbn. intros. by apply Z.leb_gt.
  - apply Forall_app in Ha as [_ Hg]. apply Forall_cons in Hg as [Hg _].
    apply StronglySorted_app in Hs as (Hag & _ & _). clear -Hag Hg.
    assert (Forall (fun x => seg_before x g) a) as Hag'.
    { apply Forall_forall. intros x Hx. apply Hag; [done|set_solver]. }
    clear Hag. induction Hag' as [|x a [_ Hx] Ha IH]; cbn; [done|]. apply Forall_app. split; [|done].
    eapply Forall_impl; [exact Hx|]. cbn. lia.
Qed.

Lemma part_bases_le p init s rs :
  part_wf p init s rs -> s_base_offset s <= p_next_offset p ->
  Forall (fun g => s_base_offset g.1 <= p_next_offset p) (init ++ [(s, rs)]).
Proof.
  intros Hw Hb. pose proof (pw_chain _ _ _ _ Hw) as Hc. apply StronglySorted_snoc in Hc as [_ Hc].
  apply Forall_app. split; [|by constructor]. eapply Forall_impl; [exact Hc|]. intros g [Hg _]. cbn in *. lia.
Qed.

(** Every record is below the high watermark. *)
Lemma log_below p init s rs :
  part_wf p init s rs -> s_base_offset s <= p_next_offset p ->
  Forall (fun r => r_offset r < p_next_offset p) (log_of init rs).
Proof.
  intros Hw Hb. destruct (log_sorted init s rs (p_dir p)) as [_ Hlt]; [apply Hw..|].
  apply Forall_app. split; [|apply Hw]. eapply Forall_impl; [exact Hlt|]. cbn. lia.
Qed.

Lemma read_records_spec p init s rs target mr mb :
  part_wf p init s rs -> s_base_offset s <= p_next_offset p -> 0 <= target < p_next_offset p -> 0 < mr ->
  Forall (fun r => record_size r <= read_window mb) (log_of init rs) ->
  let '(out, next, hwm) := read_records_raw p target mr mb in
  hwm = p_next_offset p /\ target < next <= hwm /\
  visible (Z.max target (p_start_offset p)) next (log_of init rs) = out /\
  len out <= mr /\ (1 < len out -> recs_size out <= mb) /\
  next = match last out with Some r => r_offset r + 1 | None => p_next_offset p end.
Proof.
  intros Hw Hbn Ht Hmr Hwin. unfold read_records_raw.
  destruct (_ || _) eqn:E0. { apply orb_true_iff in E0 as [E0|E0]; boolp; lia. } clear E0.
  set (t := Z.max target (p_start_offset p)). set (hwm := p_next_offset p).
  assert (log_of init rs = concat (init ++ [(s, rs)]).*2) as Elog.
  { unfold log_of. rewrite fmap_app, concat_app. cbn. by rewrite app_nil_r. }
  assert ((init ++ [(s, rs)]).*1 = p_segments p) as Esegs by (rewrite fmap_app; symmetry; apply Hw).
  pose proof (pw_start _ _ _ _ Hw) as Hst. rewrite <- (pw_segs _ _ _ _ Hw), <- Esegs in Hst.
  pose proof (part_bases_le _ _ _ _ Hw Hbn) as Hbases. fold hwm in Hbases.
  assert (p_start_offset p <= hwm) as Hstart.
  { destruct (init ++ [(s, rs)]) as [|g gs]; [done|]. cbn in Hst. injection Hst as <-.
    by apply Forall_cons in Hbases as [? _]. }
  destruct (segment_index_split _ t _ (pw_chain _ _ _ _ Hw) Hst) as (pre & suf & Eps & Hne & Hdrop & Hpre); [lia|].
  rewrite <- Esegs, Hdrop. pose proof (pw_holds _ _ _ _ Hw) as Hholds. rewrite Eps in Hholds, Hbases, Elog.
  apply Forall_app in Hholds as [_ Hholds]. apply Forall_app in Hbases as [_ Hbases].
  rewrite fmap_app, concat_app in Elog.
  pose proof (read_walk_spec p suf t mr mb hwm t Hholds) as Hrw.
  destruct (read_walk p suf.*1 t mr mb hwm t) as [out en'].
  destruct Hrw as (Hp & Hl & Hz & Hnil); [lia|lia| |done|lia|done|].
  { rewrite Elog in Hwin. apply Forall_app in Hwin as [_ Hwin]. clear -Hwin.
    induction suf as [|g suf IH]; [done|]. cbn in Hwin. apply Forall_app in Hwin as [? ?]. constructor; auto. }
  assert (visible t hwm (concat suf.*2) = visible t hwm (log_of init rs)) as Ev.
  { rewrite Elog. symmetry. apply visible_skip. eapply Forall_impl; [exact Hpre|]. cbn. lia. }
  rewrite Ev in Hp, Hnil. destruct (log_sorted init s rs (p_dir p)) as [Hsort _]; [apply Hw..|].
  destruct (last out) as [r|] eqn:El.
  - destruct (visible_prefix _ _ _ _ _ Hsort Hp El) as [Hvis Hr]. split_and!; [done|lia|lia|done|done|done|done].
  - apply last_None in El. destruct (Hnil El) as [Hv ->]. subst out. split_and!; [done|lia|lia|done|done|done|done].
Qed.
End Reading.

(** ** Retention and gaps *)

Section Retention.
Context `{Crc32}.

Lemma StronglySorted_filter {A} (R : A -> A -> Prop) (P : A -> Prop) `{!forall x, Decision (P x)} l :
  StronglySorted R l -> StronglySorted R (filter P l).
Proof.
  induction 1 as [|x l Hs IH Hx]; [constructor|]. rewrite filter_cons. destruct (decide (P x)); [|done].
  constructor; [done|]. rewrite Forall_forall in *. intros y Hy.
  apply list_elem_of_filter in Hy as [_ Hy]. auto.
Qed.

Lemma Forall_filter_l {A} (Q : A -> Prop) (P : A -> Prop) `{!forall x, Decision (P x)} l :
  Forall Q l -> Forall Q (filter P l).
Proof. rewrite !Forall_forall. intros HQ x Hx. apply list_elem_of_filter in Hx as [_ Hx]. auto. Qed.

Lemma filter_fst (P : segment -> Prop) `{!forall x, Decision (P x)} (gs : list (segment * list record)) :
  filter P gs.*1 = (filter (fun g => P g.1) gs).*1.
Proof.
  induction gs as [|g gs IH]; [done|]. cbn [fmap list_fmap]. rewrite !filter_cons. cbn.
  destruct (decide (P g.1)); cbn; by rewrite IH.
Qed.

(** The base offsets of the sealed segments are below the active one's. *)
Lemma sealed_below init s rs :
  StronglySorted seg_before (init ++ [(s, rs)]) -> Forall (fun g => s_base_offset g.1 < s_base_offset s) init.
Proof.
  intros Hc. apply StronglySorted_snoc in Hc as [_ Hc]. eapply Forall_impl; [exact Hc|]. by intros g [? _].
Qed.

(** The first base offset of a suffix is not below the first of the whole. *)
Lemma head_base_mono init s rs (P : segment * list record -> Prop) `{!forall x, Decision (P x)} a b :
  StronglySorted seg_before (init ++ [(s, rs)]) ->
  s_base_offset <$> head (init.*1 ++ [s]) = Some a ->
  s_base_offset <$> head ((filter P init).*1 ++ [s]) = Some b -> a <= b.
Proof.
  intros Hc Ha Hb. destruct init as [|g init]; cbn in Ha; [injection Ha as <-; cbn in Hb; simplify_eq; done|].
  injection Ha as <-.
  assert (Forall (fun g' => s_base_offset g.1 <= s_base_offset g'.1) ((g :: init) ++ [(s, rs)])) as Hall.
  { cbn in Hc. inversion Hc as [|? ? _ Hg]. constructor; [lia|]. eapply Forall_impl; [exact Hg|]. intros x [? _]. lia. }
  apply Forall_app in Hall as [Hi Hs]. apply Forall_cons in Hs as [Hs _].
  apply (Forall_filter_l _ P) in Hi. destruct (filter P (g :: init)) as [|g' l]; cbn in Hb; simplify_eq; [done|].
  by apply Forall_cons in Hi as [? _].
Qed.

Lemma unlink_plan_spec p init s rs victims :
  part_wf p init s rs ->
  let '(dropped, p') := unlink_plan p victims in
  let kept := filter (fun g => s_base_offset g.1 ∉ victims) init in
  part_wf p' kept s rs /\
  p_next_offset p' = p_next_offset p /\ p_start_offset p <= p_start_offset p' /\
  dropped = (fun g => s_base_offset g.1) <$> filter (fun g => s_base_offset g.1 ∈ victims) init.
Proof.
  intros Hw. unfold unlink_plan. rewrite (pw_segs _ _ _ _ Hw), last_snoc.
  pose proof (sealed_below _ _ _ (pw_chain _ _ _ _ Hw)) as Hlt.
  set (vs := filter (fun b => b < s_base_offset s) victims).
  assert (forall g, g ∈ init -> (s_base_offset g.1 ∈ vs <-> s_base_offset g.1 ∈ victims)) as Hvs.
  { intros g Hg. rewrite Forall_forall in Hlt. specialize (Hlt g Hg). subst vs.
    rewrite list_elem_of_filter. tauto. }
  assert (forall (P Q : segment * list record -> Prop) `{!forall x, Decision (P x), !forall x, Decision (Q x)},
    (forall g, g ∈ init -> (P g <-> Q g)) -> filter P init = filter Q init) as Hext.
  { clear. intros P Q ? ? HPQ. induction init as [|g init IH]; [done|]. rewrite !filter_cons.
    rewrite IH by (intros; apply HPQ; by right). pose proof (HPQ g ltac:(left)).
    destruct (decide (P g)), (decide (Q g)); tauto. }
  assert (vs = [] \/ init = [] -> filter (fun g => s_base_offset g.1 ∉ victims) init = init /\
          filter (fun g => s_base_offset g.1 ∈ victims) init = []) as Hnone.
  { intros [E| ->]; [|done]. split.
    - rewrite <- (app_nil_r init) at 1. apply filter_split; [|done]. apply Forall_forall.
      intros g Hg. rewrite <- Hvs, E by done. set_solver.
    - rewrite <- (app_nil_l init). apply (filter_split _ [] init); [done|]. apply Forall_forall.
      intros g Hg. rewrite <- Hvs, E by done. set_solver. }
  destruct (len _ <=? 1) eqn:E1; boolp.
  { destruct init; [|exfalso; cbn in E1; len_lia]. done. }
  destruct vs as [|v vs'] eqn:Evs; [destruct (Hnone (or_introl eq_refl)) as [-> ->]; done|].
  clear Hnone. rewrite <- Evs in *. clear Evs v vs'.
  rewrite !filter_app, !filter_fst.
  assert (s_base_offset s ∉ vs) as Hs. { subst vs. rewrite list_elem_of_filter. lia. }
  rewrite (filter_cons_True _ s []), (filter_cons_False _ s []) by tauto. cbn [filter list_filter].
  rewrite app_nil_r.
  rewrite (Hext (fun g => s_base_offset g.1 ∉ vs) (fun g => s_base_offset g.1 ∉ victims) _ _)
    by (intros; by rewrite Hvs).
  rewrite (Hext (fun g => s_base_offset g.1 ∈ vs) (fun g => s_base_offset g.1 ∈ victims) _ _) by done.
  set (kept := filter _ init).
  assert (match kept.*1 ++ [s] with [] => s_base_offset s | s0 :: _ => s_base_offset s0 end =
          default 0 (s_base_offset <$> head (kept.*1 ++ [s]))) as Est by (by destruct kept).
  rewrite Est. assert (exists st, s_base_offset <$> head (kept.*1 ++ [s]) = Some st) as [st Hst]
    by (destruct kept; cbn; eauto). rewrite Hst. cbn [default from_option id].
  split_and!; [|done|exact (head_base_mono _ _ _ _ _ _ (pw_chain _ _ _ _ Hw) (pw_start _ _ _ _ Hw) Hst)|].
  - destruct Hw as [? Hholds Hchain [] ? ? ? Hspare]. constructor; cbn; try done.
    + apply Forall_app in Hholds as [? ?]. apply Forall_app. split; [by apply Forall_filter_l|done].
    + apply StronglySorted_snoc in Hchain as [? ?]. apply StronglySorted_snoc.
      split; [by apply StronglySorted_filter|by apply Forall_filter_l].
  - by rewrite <- list_fmap_compose.
Qed.

(** Removing the files of segments that are in no snapshot changes nothing. *)
Lemma part_wf_unlink p init s rs b :
  part_wf p init s rs -> Forall (fun g => s_base_offset g.1 <> b) (init ++ [(s, rs)]) ->
  part_wf (with_files p (delete b (p_dir p)) (p_appender p)) init s rs.
Proof.
  intros [? Hholds Hchain [] ? ? ? Hspare] Hne. constructor; cbn; try done.
  - rewrite Forall_forall in *. intros g Hg. destruct (Hholds g Hg) as (fs & E & HH). exists fs.
    split; [|done]. rewrite lookup_delete_ne; [done|]. specialize (Hne g Hg). done.
  - apply Forall_app in Hne as [_ Hne]. apply Forall_cons in Hne as [Hne _]. cbn in Hne.
    constructor; try done. intros Hp. unfold files_of. cbn. rewrite lookup_delete_ne by done. auto.
  - intros b' fs Hb' Hlt. apply lookup_delete_Some in Hb' as [_ Hb']. by eapply Hspare.
Qed.

Lemma part_wf_unlink_files p init s rs bases :
  part_wf p init s rs ->
  Forall (fun b => Forall (fun g => s_base_offset g.1 <> b) (init ++ [(s, rs)])) bases ->
  part_wf (unlink_files p bases).2 init s rs.
Proof.
  intros Hw Hb. unfold unlink_files. cbn [snd]. induction Hb as [|b bases Hb Hbs IH]; cbn [foldr].
  - by eapply part_wf_ext.
  - eapply part_wf_ext; [exact (part_wf_unlink _ _ _ _ b IH Hb)|done..].
Qed.

Lemma drop_sealed_spec p init s rs victims cancelled :
  part_wf p init s rs ->
  let p' := (drop_sealed_segments p victims cancelled).2 in
  part_wf p' (filter (fun g => s_base_offset g.1 ∉ victims) init) s rs /\
  p_next_offset p' = p_next_offset p /\ p_start_offset p <= p_start_offset p'.
Proof.
  intros Hw. cbv zeta. unfold drop_sealed_segments.
  pose proof (unlink_plan_spec p init s rs victims Hw) as Hu.
  destruct (unlink_plan p victims) as [dropped p1]. destruct Hu as (Hw1 & Hn & Hst & Hd).
  destruct dropped as [|b bs] eqn:Ed; [done|]. destruct cancelled; [done|].
  split_and!; [|done|done]. apply part_wf_unlink_files; [done|]. rewrite Hd.
  apply Forall_fmap, Forall_forall. intros g Hg. cbn. apply list_elem_of_filter in Hg as [Hv Hg].
  pose proof (sealed_below _ _ _ (pw_chain _ _ _ _ Hw)) as Hlt. rewrite Forall_forall in Hlt.
  specialize (Hlt g Hg). apply Forall_app. split; [|constructor; [cbn; lia|done]].
  apply Forall_forall. intros g' Hg' E. apply list_elem_of_filter in Hg' as [Hv' _]. by rewrite E in Hv'.
Qed.

Lemma advance_to_spec p init s rs offset :
  part_wf p init s rs -> part_wf (advance_to p offset) init s rs /\
  p_next_offset (advance_to p offset) = Z.max (p_next_offset p) offset.
Proof.
  intros [? ? ? [] Hn ? ? ?]. split; [|done]. constructor; cbn; try done.
  - eapply Forall_impl; [exact Hn|]. cbn. lia.
  - lia.
Qed.
End Retention.

(** ** Replay and polling *)

Section Replay.
Context `{Crc32}.

(** The explicit offsets of a replicated batch. *)
Definition explicit_offsets (recs : list append_record) : option (list Z) := mapM ar_offset recs.

Lemma assign_explicit now next recs os :
  explicit_offsets recs = Some os ->
  (assign now next recs).1.1 = os /\ next <= (assign now next recs).2 /\
  Forall (fun o => o < (assign now next recs).2) os.
Proof.
  unfold explicit_offsets. revert next os. induction recs as [|r recs IH]; intros next os; cbn.
  { intros [= <-]. split_and!; [done|lia|done]. }
  unfold assign_one. destruct (ar_offset r) as [o|]; [cbn|done].
  destruct (mapM ar_offset recs) as [os'|] eqn:Em; [cbn; intros [= <-]|done].
  destruct (o <? next) eqn:Elt; boolp.
  - specialize (IH next os' eq_refl). destruct (assign now next recs) as [[a b] n]. cbn in *.
    destruct IH as (-> & Hn & Ho). split_and!; [done|done|]. constructor; [lia|done].
  - specialize (IH (o + 1) os' eq_refl). destruct (assign now (o + 1) recs) as [[a b] n]. cbn in *.
    destruct IH as (-> & Hn & Ho). split_and!; [done|lia|]. constructor; [lia|done].
Qed.

Lemma append_loop_applied recs os now ft p next offsets fresh :
  explicit_offsets recs = Some os -> Forall (fun o => o < next) os ->
  append_loop recs now ft p batch_default next offsets fresh = (Ok (offsets ++ os, fresh), p).
Proof.
  unfold explicit_offsets. revert os offsets. induction recs as [|r recs IH]; intros os offsets.
  { intros [= <-] _. cbn. by rewrite app_nil_r. }
  cbn. destruct (ar_offset r) as [o|] eqn:Eo; [cbn|done].
  destruct (mapM ar_offset recs) as [os'|] eqn:Em; [cbn; intros [= <-] Hf|done].
  apply Forall_cons in Hf as [Ho Hf]. rewrite (proj2 (Z.ltb_lt _ _)) by done.
  rewrite (IH os') by done. by rewrite <- app_assoc.
Qed.

(** A consumer that polls from [off] until it reaches the watermark. *)
Fixpoint poll (fuel : nat) (p : partition) (off mr mb : Z) : list record :=
  match fuel with
  | O => []
  | S fuel =>
    if p_next_offset p <=? off then [] else
    let '(out, next, _) := read_records_raw p off mr mb in
    out ++ poll fuel p next mr mb
  end.

Lemma visible_concat t m h log :
  offsets_sorted log -> t <= m <= h -> visible t m log ++ visible m h log = visible t h log.
Proof.
  intros Hs Hm. unfold visible. induction Hs as [|x log Hs IH Hx]; [done|].
  rewrite !(filter_cons _ x log).
  destruct (decide (t <= r_offset x < m)), (decide (m <= r_offset x < h)),
    (decide (t <= r_offset x < h)); try lia; try done; [cbn; by rewrite IH|].
  assert (filter (fun r => t <= r_offset r < m) log = []) as E.
  { apply visible_nil. eapply Forall_impl; [exact Hx|]. cbn. lia. }
  rewrite E in *. cbn in *. by rewrite IH.
Qed.

(** The part of the log below the start offset is empty. *)
Lemma visible_start p init s rs t h :
  part_wf p init s rs -> visible (Z.max t (p_start_offset p)) h (log_of init rs) = visible t h (log_of init rs).
Proof.
  intros Hw. unfold visible.
  assert (Forall (fun r => p_start_offset p <= r_offset r) (log_of init rs)) as Hst.
  { pose proof (pw_start _ _ _ _ Hw) as Hst. pose proof (pw_holds _ _ _ _ Hw) as Hh.
    pose proof (pw_chain _ _ _ _ Hw) as Hc.
    assert (log_of init rs = concat (init ++ [(s, rs)]).*2) as ->.
    { unfold log_of. rewrite fmap_app, concat_app. cbn. by rewrite app_nil_r. }
    assert (init.*1 ++ [s] = (init ++ [(s, rs)]).*1) as E by (by rewrite fmap_app).
    rewrite E in Hst. clear E. destruct (init ++ [(s, rs)]) as [|g gs]; [done|]. cbn in Hst. injection Hst as <-.
    assert (Forall (fun g' => s_base_offset g.1 <= s_base_offset g'.1) (g :: gs)) as Hb.
    { inversion Hc as [|? ? _ Hg]. constructor; [lia|]. eapply Forall_impl; [exact Hg|]. intros x [? _]. lia. }
    clear Hc. revert Hb. generalize (s_base_offset g.1) as b. intros b Hb.
    induction Hh as [|x l (fs & _ & Hx & _) Hl IH]; [constructor|]. apply Forall_cons in Hb as [Hb0 Hb].
    cbn. apply Forall_app. split; [|by apply IH]. eapply Forall_impl; [exact (sh_base _ _ _ Hx)|]. cbn. lia. }
  rewrite Forall_forall in Hst. induction (log_of init rs) as [|x l IH]; [done|].
  rewrite !filter_cons. rewrite IH by (intros; apply Hst; by right).
  specialize (Hst x ltac:(left)). destruct (decide _), (decide _); [done|lia|lia|done].
Qed.

Lemma poll_spec fuel p init s rs off mr mb :
  part_wf p init s rs -> s_base_offset s <= p_next_offset p -> 0 <= off -> 0 < mr ->
  Forall (fun r => record_size r <= read_window mb) (log_of init rs) ->
  (Z.to_nat (p_next_offset p - off) <= fuel)%nat ->
  poll fuel p off mr mb = visible off (p_next_offset p) (log_of init rs).
Proof.
  intros Hw Hb. revert off. induction fuel as [|fuel IH]; intros off Hoff Hmr Hwin Hf.
  { cbn. symmetry. apply visible_nil, Forall_forall. intros. lia. }
  cbn [poll]. case_if. { symmetry. apply visible_nil, Forall_forall. intros. lia. }
  pose proof (read_records_spec p init s rs off mr mb Hw Hb ltac:(lia) Hmr Hwin) as Hr.
  destruct (read_records_raw p off mr mb) as [[out next] hwm]. destruct Hr as (-> & Hn & Hv & _).
  rewrite (visible_start _ _ _ _ _ _ Hw) in Hv. subst out. rewrite (IH next) by (done || lia).
  apply visible_concat; [|lia]. by destruct (log_sorted init s rs (p_dir p)) as [? _]; [apply Hw..|].
Qed.

Lemma visible_to_end p init s rs off :
  part_wf p init s rs -> s_base_offset s <= p_next_offset p ->
  visible off (p_next_offset p) (log_of init rs) = filter (fun r => off <= r_offset r) (log_of init rs).
Proof.
  intros Hw Hb. unfold visible. pose proof (log_below _ _ _ _ Hw Hb) as Hlt.
  induction Hlt as [|x l Hx Hl IH]; [done|]. rewrite !filter_cons, IH. destruct (decide _), (decide _); [done|lia|lia|done].
Qed.
End Replay.

(** ** Properties *)

Section PartitionClaims.
Context `{Crc32}.

(** C4: appending to a partition appends to its log.  On success the batch gets
    the offsets of the abstract log (the next free one, or the leader's, an offset
    below the end counting as applied) and exactly the new records are added, in
    order, whatever segment rolls happened.  On any failure (a failed write, a
    failed rollback, a failed roll, a failed fsync) a prefix of the new records has
    been published, the watermark is the one of that prefix, every earlier record
    is intact, and the partition still satisfies its invariant; a fenced partition
    is untouched.  The code never panics here. *)
Theorem append_batch_refines_log p init s rs recs dur now ft :
  part_wf p init s rs -> s_base_offset s <= p_next_offset p ->
  Forall record_ok (assign now (p_next_offset p) recs).1.2 ->
  let '(os, news, n) := assign now (p_next_offset p) recs in
  match append_batch p recs dur now ft with
  | (Ok offs, p') =>
    offs = os /\ p_poisoned p = false /\ p_poisoned p' = false /\ p_next_offset p' = n /\
    exists init' s' rs', part_wf p' init' s' rs' /\ s_base_offset s' <= p_next_offset p' /\
      log_of init' rs' = log_of init rs ++ news
  | (Err e, p') =>
    exists k init' s' rs', part_wf p' init' s' rs' /\
      log_of init' rs' = log_of init rs ++ take k news /\
      p_next_offset p' = next_after (p_next_offset p) (take k news) /\
      (Forall (fun r => ar_offset r = None) recs -> s_base_offset s' <= p_next_offset p') /\
      (p_poisoned p = true -> e = Fenced /\ p' = p)
  | (Panic, _) => False
  end.
Proof. apply append_batch_result. Qed.

(** Re-applying a replicated batch (every record carries the leader's
    offset) after it was applied is a no-op: the same offsets are reported and the
    partition, its files included, does not change. *)
Theorem append_replay_idempotent p init s rs recs os dur now ft p' offs dur' now' ft' :
  part_wf p init s rs -> s_base_offset s <= p_next_offset p ->
  Forall record_ok (assign now (p_next_offset p) recs).1.2 ->
  explicit_offsets recs = Some os -> append_batch p recs dur now ft = (Ok offs, p') ->
  offs = os /\ append_batch p' recs dur' now' ft' = (Ok offs, p').
Proof.
  intros Hw Hb Hok He Ha. pose proof (append_batch_result p init s rs recs dur now ft Hw Hb Hok) as Hr.
  destruct (assign_explicit now (p_next_offset p) recs os He) as (E1 & _ & Hlt).
  destruct (assign now (p_next_offset p) recs) as [[os' news] n]. rewrite Ha in Hr. cbn in *. subst os'.
  destruct Hr as (-> & _ & Hp & Hn & _). split; [done|].
  unfold append_batch, append_locked. rewrite Hp, (append_loop_applied recs os) by (done || by rewrite Hn).
  cbn. by destruct dur'.
Qed.

(** C8: a read returns exactly the records from the requested offset (clamped to
    the start of the log) up to the next offset it reports: nothing in between is
    skipped, across segment boundaries, compacted gaps and the sparse index.  It
    makes progress below the watermark, never reports an offset past it, and
    respects both limits (one record is always returned). *)
Theorem read_records_exact p init s rs target mr mb :
  part_wf p init s rs -> s_base_offset s <= p_next_offset p -> 0 <= target < p_next_offset p -> 0 < mr ->
  Forall (fun r => record_size r <= read_window mb) (log_of init rs) ->
  let '(out, next, hwm) := read_records_raw p target mr mb in
  hwm = p_next_offset p /\ target < next <= hwm /\
  visible (Z.max target (p_start_offset p)) next (log_of init rs) = out /\
  len out <= mr /\ (1 < len out -> recs_size out <= mb).
Proof.
  intros Hw Hb Ht Hmr Hwin. pose proof (read_records_spec p init s rs target mr mb Hw Hb Ht Hmr Hwin) as Hr.
  destruct (read_records_raw p target mr mb) as [[out next] hwm]. by destruct Hr as (? & ? & ? & ? & ? & _).
Qed.

(** A consumer that keeps polling from the offset the last read returned
    receives every record at or above its starting offset exactly once, in order,
    and reaches the watermark in at most as many polls as there are offsets. *)
Theorem polling_reads_everything p init s rs off mr mb :
  part_wf p init s rs -> s_base_offset s <= p_next_offset p -> 0 <= off -> 0 < mr ->
  Forall (fun r => record_size r <= read_window mb) (log_of init rs) ->
  poll (Z.to_nat (p_next_offset p - off)) p off mr mb =
    filter (fun r => off <= r_offset r) (log_of init rs).
Proof.
  intros Hw Hb Hoff Hmr Hwin. rewrite (poll_spec _ p init s rs) by done. by eapply visible_to_end.
Qed.

(** Retention drops whole sealed segments, never the active one, and nothing
    else: the surviving log is the concatenation of the segments that were not
    named, the watermark stays, the start offset moves forward to the first
    surviving segment, and the invariant holds after the files are gone. *)
Theorem drop_sealed_segments_safe p init s rs victims cancelled :
  part_wf p init s rs ->
  let p' := (drop_sealed_segments p victims cancelled).2 in
  part_wf p' (filter (fun g => s_base_offset g.1 ∉ victims) init) s rs /\
  p_next_offset p' = p_next_offset p /\ p_start_offset p <= p_start_offset p'.
Proof. apply drop_sealed_spec. Qed.
End PartitionClaims.

(** ** Witnesses *)

Section PartitionWitnesses.
#[local] Existing Instance crc32_ieee_class.

(** A new partition with tiny segments. *)
Definition fresh_partition (segment_bytes : Z) : partition :=
  mkPartition {[ 0 := mkFiles [] [] ]} segment_bytes 0 0 [segment_open_empty 0]
    (mkAppender 0 0 0 None) 1 0 0 (mkMark 0 0) 0 false ∅.

Lemma fresh_partition_wf n : part_wf (fresh_partition n) [] (segment_open_empty 0) [].
Proof.
  constructor; cbn; try done.
  - constructor; [|done]. exists (mkFiles [] []). cbn. split; [by rewrite lookup_singleton_eq|].
    split_and!; [|constructor|done]. constructor; try done; try constructor. by exists [].
  - repeat constructor.
  - intros b fs Hb Hlt. rewrite lookup_singleton_ne in Hb by lia. done.
Qed.

Definition sample_batch : list append_record :=
  [mkAppend None [x01; x02] (Some 5) (Some 0); mkAppend (Some [x6b]) [x03] (Some 6) (Some 1);
   mkAppend None [] (Some 7) (Some 4)].

Definition no_faults : faults := mkFaults [] [] true.

Lemma sample_batch_ok : Forall record_ok (assign 0 0 sample_batch).1.2.
Proof. repeat constructor; vm_compute; congruence. Qed.

Lemma append_batch_refines_log_witness :
  (append_batch (fresh_partition 60) sample_batch Policy 0 no_faults).1 = Ok [0; 1; 4] /\
  len (p_segments (append_batch (fresh_partition 60) sample_batch Policy 0 no_faults).2) = 3 /\
  (append_batch (fresh_partition 60) sample_batch Policy 0
     (mkFaults [NoFault; LogFault 3 true true] [] true)).1 = Err AppendIo /\
  let '(os, news, n) := assign 0 0 sample_batch in
  match append_batch (fresh_partition 60) sample_batch Policy 0 no_faults with
  | (Ok offs, p') =>
    offs = os /\ p_poisoned (fresh_partition 60) = false /\ p_poisoned p' = false /\ p_next_offset p' = n /\
    exists init' s' rs', part_wf p' init' s' rs' /\ s_base_offset s' <= p_next_offset p' /\
      log_of init' rs' = log_of [] [] ++ news
  | (Err e, p') =>
    exists k init' s' rs', part_wf p' init' s' rs' /\
      log_of init' rs' = log_of [] [] ++ take k news /\
      p_next_offset p' = next_after 0 (take k news) /\
      (Forall (fun r => ar_offset r = None) sample_batch -> s_base_offset s' <= p_next_offset p') /\
      (p_poisoned (fresh_partition 60) = true -> e = Fenced /\ p' = fresh_partition 60)
  | (Panic, _) => False
  end.
Proof.
  split; [vm_compute; reflexivity|]. split; [vm_compute; reflexivity|]. split; [vm_compute; reflexivity|].
  exact (append_batch_refines_log (fresh_partition 60) [] (segment_open_empty 0) [] sample_batch Policy 0
    no_faults (fresh_partition_wf 60) (Z.le_refl 0) sample_batch_ok).
Defined.

Definition sample_partition : partition :=
  (append_batch (fresh_partition 60) sample_batch Policy 0 no_faults).2.

Lemma sample_partition_ok :
  append_batch (fresh_partition 60) sample_batch Policy 0 no_faults = (Ok [0; 1; 4], sample_partition).
Proof.
  unfold sample_partition.
  assert ((append_batch (fresh_partition 60) sample_batch Policy 0 no_faults).1 = Ok [0; 1; 4]) as E
    by (vm_compute; reflexivity).
  destruct (append_batch _ _ _ _ _) as [o p]. cbn in *. by rewrite E.
Qed.

Lemma append_replay_idempotent_witness :
  append_batch sample_partition sample_batch Deferred 9 no_faults = (Ok [0; 1; 4], sample_partition).
Proof.
  apply (append_replay_idempotent (fresh_partition 60) [] (segment_open_empty 0) [] sample_batch
           [0; 1; 4] Policy 0 no_faults).
  - apply fresh_partition_wf.
  - apply Z.le_refl.
  - exact sample_batch_ok.
  - reflexivity.
  - exact sample_partition_ok.
Defined.

Lemma sample_partition_wf :
  exists init s rs, part_wf sample_partition init s rs /\ s_base_offset s <= p_next_offset sample_partition /\
    log_of init rs = (assign 0 0 sample_batch).1.2.
Proof.
  pose proof (append_batch_result (fresh_partition 60) [] (segment_open_empty 0) [] sample_batch Policy 0
    no_faults (fresh_partition_wf 60) (Z.le_refl 0) sample_batch_ok) as Hr.
  change (p_next_offset (fresh_partition 60)) with 0 in Hr.
  destruct (assign 0 0 sample_batch) as [[os news] n]. rewrite sample_partition_ok in Hr.
  by destruct Hr as (_ & _ & _ & _ & Hr).
Qed.

Lemma sample_window mb :
  0 <= mb -> Forall (fun r => record_size r <= read_window mb) (assign 0 0 sample_batch).1.2.
Proof.
  intros. assert (16384 <= read_window mb) by (unfold read_window, clamp; lia).
  repeat constructor; (etransitivity; [|eassumption]); vm_compute; congruence.
Qed.

Lemma read_records_exact_witness :
  (read_records_raw sample_partition 2 10 1000).1.1 = [mkRecord 4 7 None []] /\
  exists next, 2 < next <= 5.
Proof.
  split; [vm_compute; reflexivity|].
  destruct sample_partition_wf as (init & s & rs & Hw & Hb & Hl).
  pose proof (read_records_exact sample_partition init s rs 2 10 1000 Hw Hb) as Hr.
  destruct (read_records_raw sample_partition 2 10 1000) as [[out next] hwm].
  exists next. assert (p_next_offset sample_partition = 5) as E by (vm_compute; reflexivity).
  destruct Hr as (-> & Hr & _).
  - rewrite E. lia.
  - lia.
  - rewrite Hl. apply sample_window. lia.
  - rewrite E in Hr. exact Hr.
Defined.

Lemma polling_reads_everything_witness :
  r_offset <$> poll 5 sample_partition 0 1 1000 = [0; 1; 4].
Proof.
  destruct sample_partition_wf as (init & s & rs & Hw & Hb & Hl).
  pose proof (polling_reads_everything sample_partition init s rs 0 1 1000 Hw Hb (Z.le_refl 0)) as Hr.
  assert (Z.to_nat (p_next_offset sample_partition - 0) = 5%nat) as E by (vm_compute; reflexivity).
  rewrite E in Hr. rewrite Hr.
  - rewrite Hl. vm_compute. reflexivity.
  - lia.
  - rewrite Hl. apply sample_window. lia.
Defined.

Lemma drop_sealed_segments_safe_witness :
  p_start_offset (drop_sealed_segments sample_partition [0; 4] false).2 = 1 /\
  p_next_offset (drop_sealed_segments sample_partition [0; 4] false).2 = p_next_offset sample_partition.
Proof.
  split; [vm_compute; reflexivity|].
  destruct sample_partition_wf as (init & s & rs & Hw & Hb & Hl).
  exact (proj1 (proj2 (drop_sealed_segments_safe sample_partition init s rs [0; 4] false Hw))).
Defined.
End PartitionWitnesses.
