(* ===== verification/GroupCommit.v ===== *)
(** * Group commit (crates/es-broker/src/partition.rs, [append_batch] and [sync_upto])

    Appends run under the appender lock, the fsync that makes them durable does
    not: between the two, other threads append, roll the segment, or run their own
    fsync.  The interleavings are a step relation over one partition and the
    program counters of its writers; the theorem is that an acknowledged append is
    on disk.  An fsync makes durable what the file held when it started. *)

From S2P Require Export PartitionSpec.

#[local] Open Scope Z_scope.

Section GroupCommit.
Context `{Crc32}.

(** ** The interleaved program *)

(** The (file, size) pairs a partition has published. *)
Definition extents (p : partition) : list (Z * Z) :=
  (fun s => (s_base_offset s, s_size_bytes s)) <$> p_segments p.

(** Where a writer is between the end of its append and its acknowledgement, with
    its mark and what was published when it released the appender lock. *)
Inductive pc : Type :=
| Idle
| Appended (m : write_mark) (ext : list (Z * Z))
| Checked (m : write_mark) (ext : list (Z * Z))
| Loaded (m : write_mark) (ext : list (Z * Z)) (target handle : Z)
| Zeroed (m : write_mark) (ext : list (Z * Z)) (target handle : Z)
| Fsynced (m : write_mark) (ext : list (Z * Z)) (target : Z)
| Acked (m : write_mark) (ext : list (Z * Z))
| Failed.

Record gc_state : Type := mkGc {
  g_p : partition;
  g_pcs : nat -> pc;
  g_lock : option nat  (** the holder of the [synced] mutex *)
}.

Definition set_pc (f : nat -> pc) (t : nat) (c : pc) : nat -> pc :=
  fun t' => if decide (t' = t) then c else f t'.

(** The handles [sync_upto] fsyncs and the sequence they cover. *)
Definition sync_target (p : partition) (m : write_mark) : Z * Z :=
  if wm_handle (p_latest p) =? wm_handle m
  then (wm_seq (p_latest p), wm_handle (p_latest p)) else (wm_seq m, wm_handle m).

(** One step of one writer with [flush_every_records] = 1. *)
Inductive gc_step : gc_state -> gc_state -> Prop :=
| st_append p f l t recs now ft offs wrote m p' :
    f t = Idle -> append_locked p recs now ft = (Ok (offs, wrote, m), p') ->
    gc_step (mkGc p f l) (mkGc p' (set_pc f t (if wrote : bool then Appended m (extents p') else Idle)) l)
| st_append_err p f l t recs now ft e p' :
    f t = Idle -> append_locked p recs now ft = (Err e, p') ->
    gc_step (mkGc p f l) (mkGc p' (set_pc f t Failed) l)
| st_covered p f t m ext :
    f t = Appended m ext -> wm_seq m <= p_synced p ->
    gc_step (mkGc p f None) (mkGc p (set_pc f t (Acked m ext)) None)
| st_check p f t m ext :
    f t = Appended m ext -> p_synced p < wm_seq m ->
    gc_step (mkGc p f None) (mkGc p (set_pc f t (Checked m ext)) (Some t))
| st_load p f l t m ext target handle :
    f t = Checked m ext -> sync_target p m = (target, handle) ->
    gc_step (mkGc p f l) (mkGc p (set_pc f t (Loaded m ext target handle)) l)
| st_zero p f l t m ext target handle :
    f t = Loaded m ext target handle ->
    gc_step (mkGc p f l) (mkGc (set_unsynced p 0) (set_pc f t (Zeroed m ext target handle)) l)
| st_fsync p f l t m ext target handle :
    f t = Zeroed m ext target handle ->
    gc_step (mkGc p f l) (mkGc (fsync p handle) (set_pc f t (Fsynced m ext target)) l)
| st_fsync_err p f l t m ext target handle :
    f t = Zeroed m ext target handle ->
    gc_step (mkGc p f l) (mkGc (poison p) (set_pc f t Failed) None)
| st_finish p f l t m ext target :
    f t = Fsynced m ext target ->
    gc_step (mkGc p f l)
      (mkGc (set_synced p (Z.max (p_synced p) target)) (set_pc f t (Acked m ext)) None).

(** ** Invariant *)

(** The bytes of an extent are on disk. *)
Definition covered (p : partition) (w : Z * Z) : Prop := w.2 <= default 0 (p_durable p !! w.1).

(** The bytes of an extent are in the file and below what the writer may cut. *)
Definition stable (p : partition) (w : Z * Z) : Prop :=
  w.2 <= len (f_log (files_of p w.1)) /\
  (w.1 = a_base_offset (p_appender p) -> w.2 <= a_size_bytes (p_appender p)).

(** What was published at one write: the sealed part is on disk, the last
    extent belongs to [handle], and is on disk when [sealed]. *)
Definition snap_ok (p : partition) (snap : list (Z * Z)) (handle : Z) : Prop :=
  Forall (stable p) snap /\ exists init z, snap = init ++ [(handle, z)] /\ Forall (covered p) init.

(** [hist] records, for every write sequence number, what was published then. *)
Record sync_inv (p : partition) (hist : list (list (Z * Z) * Z)) : Prop := {
  si_seq : p_write_seq p = len hist;
  si_latest : wm_seq (p_latest p) = len hist /\
    (forall w, last hist = Some w -> wm_handle (p_latest p) = w.2);
  si_size : 0 <= a_size_bytes (p_appender p) <= len (f_log (files_of p (a_base_offset (p_appender p))));
  si_cur : snap_ok p (extents p) (a_base_offset (p_appender p));
  si_snaps : Forall (fun w => snap_ok p w.1 w.2) hist;
  si_sealed : Forall (fun w => w.2 <> a_base_offset (p_appender p) -> Forall (covered p) w.1) hist;
  si_order : forall i j wi wj, (i < j)%nat -> hist !! i = Some wi -> hist !! j = Some wj ->
    wi.2 <> wj.2 -> Forall (covered p) wi.1;
  si_synced : forall i w, hist !! i = Some w -> Z.of_nat i < p_synced p -> Forall (covered p) w.1;
  si_synced_le : p_synced p <= len hist
}.

(** The partition after some operation keeps what was stable and covered. *)
Definition keeps (p p' : partition) : Prop :=
  (forall w, stable p w -> stable p' w) /\ (forall w, stable p w -> covered p w -> covered p' w).

Lemma keeps_snap p p' snap h : keeps p p' -> snap_ok p snap h -> snap_ok p' snap h.
Proof.
  intros [Hs Hc] (Hst & init & z & -> & Hi). split; [by eapply Forall_impl|].
  exists init, z. split; [done|]. apply Forall_app in Hst as [Hst _]. rewrite Forall_forall in *. auto.
Qed.

Lemma keeps_trans p q r : keeps p q -> keeps q r -> keeps p r.
Proof. intros [? ?] [? ?]. split; auto. Qed.

Lemma keeps_covered p p' snap : keeps p p' -> Forall (stable p) snap -> Forall (covered p) snap -> Forall (covered p') snap.
Proof. intros [Hs Hc]. rewrite !Forall_forall. auto. Qed.

Lemma fsync_keeps p h : keeps p (fsync p h).
Proof.
  split; [done|]. intros [b z] [Hs _] Hc. unfold covered in *. cbn in *.
  destruct (decide (b = h)) as [->|Hne]; [by rewrite lookup_insert_eq|by rewrite lookup_insert_ne].
Qed.

(** After an fsync of [h], every stable extent of [h] is covered. *)
Lemma fsync_covers p h w : stable p w -> w.1 = h -> covered (fsync p h) w.
Proof. intros [Hs _] <-. unfold covered. cbn. by rewrite lookup_insert_eq. Qed.

Lemma fsync_snap p snap h : snap_ok p snap h -> Forall (covered (fsync p h)) snap.
Proof.
  intros (Hst & init & z & -> & Hi). apply Forall_app in Hst as [Hst1 Hst2].
  apply Forall_app. split; [by eapply keeps_covered; [apply fsync_keeps|..]|].
  apply Forall_cons in Hst2 as [Hst2 _]. constructor; [|done]. by apply fsync_covers.
Qed.

(** The invariant follows an operation that leaves the writer and the counters
    alone. *)
Lemma sync_inv_keeps p p' hist :
  sync_inv p hist -> keeps p p' -> p_write_seq p' = p_write_seq p -> p_latest p' = p_latest p ->
  p_synced p' = p_synced p -> p_segments p' = p_segments p -> p_appender p' = p_appender p ->
  0 <= a_size_bytes (p_appender p) <= len (f_log (files_of p' (a_base_offset (p_appender p)))) ->
  sync_inv p' hist.
Proof.
  intros [] Hk E1 E2 E3 E4 E5 E6.
  assert (forall i w, hist !! i = Some w -> Forall (stable p) w.1) as Hst.
  { intros i w Hi. rewrite Forall_forall in si_snaps0. apply (si_snaps0 w).
    by apply list_elem_of_lookup_2 in Hi. }
  constructor; rewrite ?E1, ?E2, ?E3, ?E5; try done.
  - unfold extents. rewrite E4. by eapply keeps_snap.
  - eapply Forall_impl; [exact si_snaps0|]. intros w. by apply keeps_snap.
  - rewrite Forall_lookup in *. intros i w Hi Hne. eapply keeps_covered; [done|by eapply Hst|by eapply si_sealed0].
  - intros i j wi wj Hij Hi Hj Hne. eapply keeps_covered; [done|by eapply Hst|by eapply si_order0].
  - intros i w Hi Hlt. eapply keeps_covered; [done|by eapply Hst|by eapply si_synced0].
Qed.

(** ** Commits and rolls *)

Lemma write_batch_fault_len fs a lb ib fault fs' a' rb :
  0 <= a_size_bytes a <= len (f_log fs) -> write_batch fs a lb ib fault = (fs', a', Some rb) ->
  a' = a /\ a_size_bytes a <= len (f_log fs').
Proof.
  intros Hs Hw. destruct fault as [|k [] []|k [] []]; cbn in Hw; simplify_eq; cbn; unfold set_len;
    (split; [done|]); autorewrite with len; len_facts; lia.
Qed.

(** The files of the active segment grow or are cut back to the writer's size. *)
Lemma active_files_keep p fs' app' :
  a_base_offset app' = a_base_offset (p_appender p) ->
  a_size_bytes (p_appender p) <= a_size_bytes app' -> a_size_bytes (p_appender p) <= len (f_log fs') ->
  forall p', p_dir p' = <[a_base_offset (p_appender p) := fs']> (p_dir p) -> p_appender p' = app' ->
  p_durable p' = p_durable p -> keeps p p'.
Proof.
  intros Eb Hs Hl p' Ed Ea Eu. split.
  - intros [b z] [H1 H2]. unfold stable, files_of in *. rewrite Ed, Ea, Eb. cbn in *.
    destruct (decide (b = a_base_offset (p_appender p))) as [->|Hne].
    + rewrite lookup_insert_eq. cbn. specialize (H2 eq_refl). lia.
    + by rewrite lookup_insert_ne.
  - intros w _. unfold covered. by rewrite Eu.
Qed.

Lemma extents_update p z f :
  snap_ok p (extents p) (a_base_offset (p_appender p)) ->
  (forall s, s_base_offset (f s) = s_base_offset s /\ s_size_bytes (f s) = z) ->
  exists init, Forall (covered p) init /\ Forall (stable p) init /\
    ((fun s => (s_base_offset s, s_size_bytes s)) <$> update_last f (p_segments p)) =
      init ++ [(a_base_offset (p_appender p), z)].
Proof.
  intros (Hst & init & z0 & E & Hc) Hf. unfold extents in E, Hst.
  destruct (p_segments p) as [|s l _] using rev_ind; [by destruct init|].
  rewrite fmap_app in E. apply app_inj_tail in E as [E1 E2].
  exists init. split; [done|]. rewrite fmap_app in Hst.
  apply Forall_app in Hst as [Hst _]. rewrite E1 in Hst. split; [done|].
  rewrite update_last_snoc, fmap_app, E1. cbn. destruct (Hf s) as [-> ->]. by injection E2 as ->.
Qed.

Lemma publish_fields s z b :
  s_base_offset (publish s z b) = s_base_offset s /\ s_size_bytes (publish s z b) = z.
Proof. unfold publish. by case_if. Qed.

(** A write published at the next sequence number extends the history. *)
Lemma sync_inv_push p p' hist :
  let base := a_base_offset (p_appender p) in
  sync_inv p hist -> keeps p p' -> p_write_seq p' = p_write_seq p + 1 ->
  p_latest p' = mkMark (p_write_seq p + 1) base -> p_synced p' = p_synced p ->
  a_base_offset (p_appender p') = base ->
  0 <= a_size_bytes (p_appender p') <= len (f_log (files_of p' (a_base_offset (p_appender p')))) ->
  snap_ok p' (extents p') base -> sync_inv p' (hist ++ [(extents p', base)]).
Proof.
  intros base [H1 [H2 H2'] _ _ H4 H5 H6 H7 H8] Hk Eseq Elat Esyn Eb Hsz Hcur.
  assert (forall i w, hist !! i = Some w -> Forall (stable p) w.1) as Hsts.
  { intros i w Hi. rewrite Forall_lookup in H4. by eapply H4. }
  rewrite Forall_lookup in H5. constructor; rewrite ?Eseq, ?Elat, ?Esyn, ?Eb in *; try done.
  - rewrite H1. len_lia.
  - cbn. split; [rewrite H1; len_lia|]. intros w. rewrite last_snoc. by intros [= <-].
  - apply Forall_app. split; [|by constructor]. eapply Forall_impl; [exact H4|]. intros w. by apply keeps_snap.
  - apply Forall_app. split; [|by constructor]. apply Forall_lookup. intros i w Hw Hne.
    eapply keeps_covered; [exact Hk|by eapply Hsts|by eapply H5].
  - intros i j wi wj Hij Hwi Hwj Hne. rewrite lookup_app_l in Hwi
      by (apply lookup_lt_Some in Hwj; rewrite length_app in Hwj; cbn in Hwj; lia).
    eapply keeps_covered; [exact Hk|by eapply Hsts|].
    destruct (decide (j < length hist)%nat) as [Hlt|Hge].
    + rewrite lookup_app_l in Hwj by done. by apply (H6 i j wi wj).
    + rewrite lookup_app_r in Hwj by lia. apply list_lookup_singleton_Some in Hwj as [_ <-]. by eapply H5.
  - intros i w Hw Hlt. rewrite lookup_app_l in Hw by (unfold len in H8; lia).
    eapply keeps_covered; [exact Hk|by eapply Hsts|by eapply H7].
  - len_lia.
Qed.

Lemma commit_sync p b f hist res p' :
  sync_inv p hist -> commit_batch p b f = (res, p') ->
  keeps p p' /\
  (sync_inv p' hist \/ sync_inv p' (hist ++ [(extents p', a_base_offset (p_appender p'))])) /\
  (forall b', res = Ok b' -> b_count b <> 0 ->
    sync_inv p' (hist ++ [(extents p', a_base_offset (p_appender p'))])).
Proof.
  intros Hi Hc. unfold commit_batch in Hc. destruct (b_count b =? 0) eqn:E0; boolp.
  { injection Hc as <- <-. split; [done|]. split; [by left|done]. }
  set (base := a_base_offset (p_appender p)) in *.
  destruct (write_batch _ _ _ _ f) as [[fs' a'] [rb|]] eqn:Ew.
  - destruct (write_batch_fault_len _ _ _ _ _ _ _ _ (si_size _ _ Hi) Ew) as [-> Hl].
    injection Hc as <- <-. split; [eapply active_files_keep; destruct rb; done|]. split; [left|done].
    assert (forall q, p_dir q = <[base := fs']> (p_dir p) -> p_appender q = p_appender p ->
      p_durable q = p_durable p -> p_write_seq q = p_write_seq p -> p_latest q = p_latest p ->
      p_synced q = p_synced p -> p_segments q = p_segments p -> sync_inv q hist) as Hq.
    { intros q E1 E2 E3 E4 E5 E6 E7. apply (sync_inv_keeps p); try done.
      - by eapply active_files_keep.
      - unfold files_of. rewrite E1, lookup_insert_eq. cbn. pose proof (si_size _ _ Hi). lia. }
    destruct rb; by apply Hq.
  - assert (fs' = mkFiles (f_log (files_of p base) ++ b_log b) (f_index (files_of p base) ++ b_index b) /\
      a_base_offset a' = base /\ a_size_bytes a' = a_size_bytes (p_appender p) + len (b_log b))
      as (-> & Eb & Es).
    { destruct f as [|k [] []|k [] []]; cbn in Ew; by simplify_eq. }
    set (app' := match b_last_index_pos b with Some pos => note_index_entry a' pos | None => a' end) in Hc.
    assert (a_base_offset app' = base /\ a_size_bytes app' = a_size_bytes (p_appender p) + len (b_log b))
      as [Eb' Es'] by (subst app'; by destruct (b_last_index_pos b)).
    clearbody app'.
    injection Hc as <- <-. cbn [p_appender]. rewrite Eb'.
    match goal with |- context [sync_inv ?q] => set (p' := q) end.
    assert (keeps p p') as Hk.
    { eapply (active_files_keep p _ app'); [done| | |done..].
      - rewrite Es'. len_facts. lia.
      - cbn. pose proof (si_size _ _ Hi). subst base. len_lia. }
    assert (sync_inv p' (hist ++ [(extents p', base)])) as Hgoal; [|split; [done|]; by split; [right|]].
    pose proof (si_size _ _ Hi) as Hsz.
    destruct (extents_update p (a_size_bytes app') (fun s => publish s (a_size_bytes app') b) (si_cur _ _ Hi)
      (fun s => publish_fields s _ b)) as (init & Hcov & Hst & Eext).
    assert (snap_ok p' (extents p') base) as Hcur.
    { unfold extents. subst p'. cbn [p_segments]. rewrite Eext. split.
      - apply Forall_app. split; [eapply Forall_impl; [exact Hst|apply Hk]|].
        constructor; [|done]. unfold stable. unfold files_of at 1. cbn. rewrite lookup_insert_eq. cbn.
        rewrite Es'. subst base. split; len_lia.
      - exists init, (a_size_bytes app'). split; [done|]. eapply keeps_covered; [exact Hk|done|done]. }
    apply (sync_inv_push p); try done. subst p'. cbn [p_appender]. rewrite Eb'. unfold files_of at 1. cbn.
    rewrite lookup_insert_eq. cbn. rewrite Es'. subst base. len_lia.
Qed.

Lemma roll_sync p nb f hist :
  sync_inv p hist -> keeps p (roll p nb f).2 /\ sync_inv (roll p nb f).2 hist.
Proof.
  intros Hi. unfold roll. set (base := a_base_offset (p_appender p)).
  assert (forall q, p_dir q = p_dir p -> p_appender q = p_appender p -> p_durable q = p_durable p ->
    p_write_seq q = p_write_seq p -> p_latest q = p_latest p -> p_synced q = p_synced p ->
    p_segments q = p_segments p -> sync_inv q hist) as Hq.
  { intros q E1 E2 E3 E4 E5 E6 E7. apply (sync_inv_keeps p); try done.
    - split; intros w; unfold stable, covered, files_of; by rewrite ?E1, ?E2, ?E3.
    - unfold files_of. rewrite E1. apply Hi. }
  assert (sync_inv (fsync p base) hist) as Hf.
  { apply (sync_inv_keeps p); try done; [apply fsync_keeps|apply Hi]. }
  destruct (appender_create (p_dir (fsync p base) !! nb) nb) as [fs na] eqn:Ec.
  unfold appender_create in Ec. injection Ec as <- <-.
  change (p_dir (fsync p base) !! nb) with (p_dir p !! nb).
  set (fs := default (mkFiles [] []) (p_dir p !! nb)).
  assert (forall b, default (mkFiles [] []) (<[nb := fs]> (p_dir p) !! b) = files_of p b) as Efs.
  { intros b. destruct (decide (b = nb)) as [->|]; [by rewrite lookup_insert_eq|by rewrite lookup_insert_ne]. }
  destruct f as [[]|]; cbn [snd].
  - split; [done|]. by apply Hq.
  - split; [apply fsync_keeps|exact Hf].
  - assert (keeps p (with_files (fsync p base) (<[nb := fs]> (p_dir (fsync p base))) (p_appender p))) as Hk.
    { split; [|apply fsync_keeps]. intros w. unfold stable. unfold files_of at 2.
      cbn [p_dir with_files fsync]. by rewrite Efs. }
    split; [exact Hk|]. apply (sync_inv_keeps (fsync p base)); try done.
    + split; [|done]. intros w. unfold stable. unfold files_of at 2. cbn [p_dir with_files]. by rewrite Efs.
    + unfold files_of. cbn [p_dir with_files p_appender fsync]. rewrite Efs. apply Hi.
  - pose proof (fsync_snap p (extents p) base (si_cur _ _ Hi)) as Hall.
    match goal with |- keeps _ ?q /\ _ => set (p' := q) end.
    assert (keeps (fsync p base) p') as Hk.
    { split; [|done]. intros [b z] [Hw _]. unfold stable, files_of in *. subst p'. cbn in *. rewrite Efs.
      split; [done|]. intros ->. done. }
    assert (forall w, w ∈ hist -> Forall (covered p') w.1) as Hcov.
    { intros w Hw. destruct Hf as [_ _ _ _ H4 H5 _ _ _]. rewrite Forall_forall in H4, H5.
      eapply keeps_covered; [exact Hk|apply (H4 w Hw)|].
      destruct (decide (w.2 = base)) as [E|Hne]; [|by apply H5].
      pose proof (si_snaps _ _ Hi) as H4'. rewrite Forall_forall in H4'. specialize (H4' w Hw).
      rewrite E in H4'. by apply fsync_snap. }
    split. { split; [intros w Hw; by apply Hk|]. intros w Hw Hc. apply Hk; [done|]. by apply fsync_keeps. }
    destruct Hi as [H1 H2 Hsz Hcur H4 H5 H6 H7 H8]. constructor; try done.
    + subst p'. cbn. unfold files_of. cbn. rewrite Efs. subst fs. unfold files_of. len_facts. lia.
    + unfold extents. subst p'. cbn [p_segments set_segments with_files p_appender a_base_offset].
      rewrite fmap_app. cbn. split.
      * apply Forall_app. split; [|constructor; [|done]].
        -- destruct Hcur as [Hcur _]. eapply Forall_impl; [exact Hcur|]. intros w Hw. apply Hk. exact Hw.
        -- unfold stable. cbn. split; intros; len_facts; lia.
      * exists (extents p), 0. split; [done|]. eapply keeps_covered; [exact Hk| |exact Hall]. apply Hcur.
    + destruct Hf as [_ _ _ _ H4f _ _ _ _]. eapply Forall_impl; [exact H4f|]. intros w. by apply keeps_snap.
    + apply Forall_forall. auto.
    + intros i j wi wj _ Hwi _ _. apply Hcov. by eapply list_elem_of_lookup_2.
    + intros i w Hw _. apply Hcov. by eapply list_elem_of_lookup_2.
Qed.

(** ** Appends *)

(** What commits and rolls preserve, an append preserves; and an append that
    wrote something ended with a commit. *)
Lemma append_loop_inv (P : partition -> Prop) recs now ft p b next offsets fresh :
  (forall p b f, P p -> P (commit_batch p b f).2) -> (forall p nb f, P p -> P (roll p nb f).2) ->
  P p -> 0 <= b_count b -> (fresh = true -> 0 < b_count b) ->
  let out := append_loop recs now ft p b next offsets fresh in
  P out.2 /\
  (forall offs, out.1 = Ok (offs, true) ->
    exists p1 b1 f1 b2, P p1 /\ 0 < b_count b1 /\ commit_batch p1 b1 f1 = (Ok b2, out.2)).
Proof.
  intros Hc Hr. revert ft p b next offsets fresh.
  induction recs as [|r recs IH]; intros ft p b next offsets fresh HP Hb Hf; cbv zeta.
  { cbn [append_loop]. pose proof (Hc p b (pop_write ft).1 HP) as HP'.
    destruct (commit_batch p b _) as [[b2|e|] p'] eqn:Ec; cbn in *; (split; [done|]); try done.
    intros offs [= _ ->]. exists p, b, (pop_write ft).1, b2. auto. }
  rewrite append_loop_cons. destruct (assign_one next r) as [o|o]; [by apply IH|]. cbv zeta.
  assert (forall p b ft, P p -> 0 <= b_count b ->
    let out := append_loop recs now ft p
      (batch_push (p_appender p) b o (default now (ar_timestamp_ms r)) (ar_key r) (ar_value r))
      (o + 1) (offsets ++ [o]) true in
    P out.2 /\ (forall offs, out.1 = Ok (offs, true) ->
      exists p1 b1 f1 b2, P p1 /\ 0 < b_count b1 /\ commit_batch p1 b1 f1 = (Ok b2, out.2))) as Hput.
  { intros p1 b1 ft1 HP1 Hb1. apply IH; [done|..]; unfold batch_push; cbn; lia. }
  case_if; [|by apply Hput].
  pose proof (Hc p b (pop_write ft).1 HP) as HP'.
  destruct (commit_batch p b _) as [[b2|e|] p'] eqn:Ec; cbn [fst snd] in *; [|by split..].
  pose proof (Hr p' o (pop_roll (pop_write ft).2).1 HP') as HP''.
  destruct (roll p' o _) as [[[]|e|] p''] eqn:Er; cbn [fst snd] in *; [|by split..].
  apply Hput; [done|]. unfold commit_batch in Ec. case_if_in Ec; [by injection Ec as <- _|].
  destruct (write_batch _ _ _ _ _) as [[? ?] [[]|]]; by simplify_eq.
Qed.

(** An append extends the history; one that wrote is its last entry. *)
Lemma append_sync p hist recs now ft :
  sync_inv p hist ->
  let out := append_locked p recs now ft in
  exists hist', hist `prefix_of` hist' /\ keeps p out.2 /\ sync_inv out.2 hist' /\
    forall offs m, out.1 = Ok (offs, true, m) ->
      wm_seq m = len hist' /\ last hist' = Some (extents out.2, wm_handle m).
Proof.
  intros Hi. cbv zeta. unfold append_locked.
  set (P := fun q => exists h, hist `prefix_of` h /\ keeps p q /\ sync_inv q h).
  assert (forall p b f, P p -> P (commit_batch p b f).2) as Hc.
  { intros q b f (h & Hp & Hk & Hq). destruct (commit_batch q b f) as [res q'] eqn:Ec.
    destruct (commit_sync _ _ _ _ _ _ Hq Ec) as (Hk' & [Hs|Hs] & _); eexists; (split_and!; [|by eapply keeps_trans|exact Hs]);
      [done|by apply prefix_app_r]. }
  assert (forall p nb f, P p -> P (roll p nb f).2) as Hr.
  { intros q nb f (h & Hp & Hk & Hq). exists h. destruct (roll_sync q nb f h Hq).
    split_and!; [done|by eapply keeps_trans|done]. }
  pose proof (append_loop_inv P recs now ft p batch_default (p_next_offset p) [] false Hc Hr) as Hl.
  cbv zeta in Hl. destruct Hl as [HP Hlast]; [exists hist; split_and!; done|done|done|].
  destruct (append_loop _ _ _ _ _ _ _ _) as [[[offs wrote]|e|] p']; cbn [fst snd] in *.
  2, 3: destruct HP as (h & ? & ? & ?); exists h; split_and!; done.
  destruct wrote; [|destruct HP as (h & ? & ? & ?); exists h; split_and!; done].
  destruct (Hlast offs eq_refl) as (p1 & b1 & f1 & b2 & (h & Hp & Hk & Hs) & Hb1 & Ec).
  destruct (commit_sync _ _ _ _ _ _ Hs Ec) as (Hk' & _ & Hx). specialize (Hx b2 eq_refl ltac:(lia)).
  eexists. split_and!; [by apply prefix_app_r|by eapply keeps_trans|exact Hx|].
  intros offs' m [= _ <-]. destruct (si_latest _ _ Hx) as [E1 E2].
  split; [done|]. rewrite last_snoc in E2 |- *. by rewrite (E2 _ eq_refl).
Qed.

(** ** Writers *)

(** A mark is the sequence number of the write it was taken after. *)
Definition mark_ok (hist : list (list (Z * Z) * Z)) (m : write_mark) (ext : list (Z * Z)) : Prop :=
  1 <= wm_seq m /\ hist !! Z.to_nat (wm_seq m - 1) = Some (ext, wm_handle m).

(** An fsync of [handle] covers the writes up to [target]. *)
Definition target_ok (hist : list (list (Z * Z) * Z)) (m : write_mark) (target handle : Z) : Prop :=
  wm_seq m <= target <= len hist /\ exists ext, mark_ok hist (mkMark target handle) ext.

(** Every write up to [n] is on disk. *)
Definition durable_upto (p : partition) (hist : list (list (Z * Z) * Z)) (n : Z) : Prop :=
  forall i w, hist !! i = Some w -> Z.of_nat i < n -> Forall (covered p) w.1.

Definition pc_ok (p : partition) (hist : list (list (Z * Z) * Z)) (c : pc) : Prop :=
  match c with
  | Idle | Failed => True
  | Appended m ext | Checked m ext => mark_ok hist m ext
  | Loaded m ext target handle | Zeroed m ext target handle =>
      mark_ok hist m ext /\ target_ok hist m target handle
  | Fsynced m ext target =>
      mark_ok hist m ext /\ wm_seq m <= target <= len hist /\ durable_upto p hist target
  | Acked m ext => Forall (stable p) ext /\ Forall (covered p) ext
  end.

Definition gc_inv (g : gc_state) : Prop :=
  exists hist, sync_inv (g_p g) hist /\ forall t, pc_ok (g_p g) hist (g_pcs g t).

Lemma mark_ok_mono hist hist' m ext : hist `prefix_of` hist' -> mark_ok hist m ext -> mark_ok hist' m ext.
Proof. intros Hp [? ?]. split; [done|]. by eapply prefix_lookup_Some. Qed.

Lemma mark_ok_le hist m ext : mark_ok hist m ext -> 1 <= wm_seq m <= len hist.
Proof. intros [? Hl]. apply lookup_lt_Some in Hl. unfold len. lia. Qed.

Lemma prefix_len {A} (l k : list A) : l `prefix_of` k -> len l <= len k.
Proof. intros [m ->]. len_lia. Qed.

(** What a writer knows survives the other writers' steps. *)
Lemma pc_ok_mono p p' hist hist' c :
  sync_inv p hist -> hist `prefix_of` hist' -> keeps p p' -> pc_ok p hist c -> pc_ok p' hist' c.
Proof.
  intros Hi Hp Hk. pose proof (prefix_len _ _ Hp).
  destruct c as [|m ext|m ext|m ext tg h|m ext tg h|m ext tg|m ext|]; cbn; try done.
  1, 2: by apply mark_ok_mono.
  1, 2: intros (? & ? & e & ?); split; [by eapply mark_ok_mono|]; split; [lia|]; exists e; by eapply mark_ok_mono.
  - intros (? & ? & Hd). split; [by eapply mark_ok_mono|]. split; [lia|]. intros i w Hi' Hlt.
    assert (i < length hist)%nat as Hlti by (unfold len in *; lia).
    destruct (lookup_lt_is_Some_2 _ _ Hlti) as [w' Hw']. rewrite (prefix_lookup_Some _ _ _ _ Hw' Hp) in Hi'.
    injection Hi' as <-. eapply keeps_covered; [done| |by eapply Hd].
    pose proof (si_snaps _ _ Hi) as Hsn. rewrite Forall_lookup in Hsn. by eapply Hsn.
  - intros [Hs Hc]. split; [eapply Forall_impl; [exact Hs|apply Hk]|by eapply keeps_covered].
Qed.

(** Fsyncing the handle of a write makes every write up to it durable. *)
Lemma fsync_durable p hist target handle ext :
  sync_inv p hist -> mark_ok hist (mkMark target handle) ext ->
  durable_upto (fsync p handle) hist target.
Proof.
  intros Hi [H1 Hm] i w Hw Hlt. cbn in H1, Hm.
  pose proof (si_snaps _ _ Hi) as Hsn. rewrite Forall_lookup in Hsn.
  destruct (decide (w.2 = handle)) as [<-|Hne]; [by eapply fsync_snap, Hsn|].
  eapply keeps_covered; [apply fsync_keeps|by eapply Hsn|].
  destruct (decide (i = Z.to_nat (target - 1))) as [->|Hne'].
  { rewrite Hm in Hw. by injection Hw as <-. }
  by apply (si_order _ _ Hi i (Z.to_nat (target - 1)) w (ext, handle)); [lia|..].
Qed.

Lemma pc_ok_set p hist f t c :
  (forall t', pc_ok p hist (f t')) -> pc_ok p hist c -> forall t', pc_ok p hist (set_pc f t c t').
Proof. intros Hf Hc t'. unfold set_pc. by destruct (decide _). Qed.

Lemma mark_covered p hist m ext :
  sync_inv p hist -> mark_ok hist m ext -> wm_seq m <= p_synced p ->
  Forall (stable p) ext /\ Forall (covered p) ext.
Proof.
  intros Hi [H1 Hm] Hle. split.
  - pose proof (si_snaps _ _ Hi) as Hsn. rewrite Forall_lookup in Hsn. by apply (Hsn _ _ Hm).
  - apply (si_synced _ _ Hi _ _ Hm). lia.
Qed.

Lemma sync_inv_set_synced p hist n :
  sync_inv p hist -> n <= len hist -> durable_upto p hist n ->
  sync_inv (set_synced p (Z.max (p_synced p) n)) hist.
Proof.
  intros [H1 H2 Hsz Hcur H4 H5 H6 H7 H8] Hn Hd. constructor; try done.
  - intros i w Hi Hlt. cbn in Hlt. destruct (decide (Z.of_nat i < n)); [by apply (Hd i)|].
    apply (H7 i w Hi). lia.
  - cbn. lia.
Qed.

Lemma sync_target_ok p hist m ext target handle :
  sync_inv p hist -> mark_ok hist m ext -> sync_target p m = (target, handle) ->
  target_ok hist m target handle.
Proof.
  intros Hi Hm Ht. pose proof (mark_ok_le _ _ _ Hm). destruct (si_latest _ _ Hi) as [E1 E2].
  unfold sync_target in Ht. destruct (_ =? _) eqn:E; boolp; injection Ht as <- <-; (split; [lia|]).
  - destruct (last hist) as [w|] eqn:El; [|apply last_None in El; subst hist; len_lia].
    exists w.1. split; cbn; [lia|]. rewrite (E2 w eq_refl), E1. rewrite <- surjective_pairing.
    rewrite <- El, last_lookup. f_equal. unfold len. lia.
  - exists ext. by destruct m.
Qed.

Lemma gc_step_inv g g' : gc_step g g' -> gc_inv g -> gc_inv g'.
Proof.
  intros Hst [hist [Hi Hf]]. unfold gc_inv.
  destruct Hst as [p f l t recs now ft offs wrote m p' Ht Ha|p f l t recs now ft e p' Ht Ha
    |p f t m ext Ht Hle|p f t m ext Ht Hlt|p f l t m ext tg h Ht Hsy|p f l t m ext tg h Ht
    |p f l t m ext tg h Ht|p f l t m ext tg h Ht|p f l t m ext tg Ht]; cbn [g_p g_pcs] in *.
  1, 2: destruct (append_sync p hist recs now ft Hi) as (hist' & Hp & Hk & Hi' & Hm);
    rewrite Ha in Hk, Hi', Hm; cbn [fst snd] in *; exists hist'; (split; [done|]);
    apply pc_ok_set; [intros t'; by apply (pc_ok_mono p p' hist hist')|try done].
  { destruct wrote; [|done]. destruct (Hm offs m eq_refl) as [E1 E2]. cbn.
    rewrite last_lookup in E2. pose proof (lookup_lt_Some _ _ _ E2).
    split; [unfold len in E1; lia|]. rewrite <- E2, E1. f_equal. unfold len. lia. }
  all: exists hist; specialize (Hf t) as Hft; rewrite Ht in Hft; cbn in Hft.
  - split; [done|]. apply pc_ok_set; [done|]. by eapply mark_covered.
  - split; [done|]. by apply pc_ok_set.
  - split; [done|]. apply pc_ok_set; [done|]. cbn. split; [done|]. by eapply sync_target_ok.
  - split; [|by apply pc_ok_set].
    by apply (sync_inv_keeps p); [..|apply Hi].
  - destruct Hft as (Hm & Htg & e & He). split.
    + apply (sync_inv_keeps p); try done; [apply fsync_keeps|apply Hi].
    + apply pc_ok_set; [intros t'; by eapply (pc_ok_mono p); [..|apply fsync_keeps|]|].
      cbn. split_and!; [done|lia|lia|]. by eapply fsync_durable.
  - split; [by apply (sync_inv_keeps p); [..|apply Hi]|]. by apply pc_ok_set.
  - destruct Hft as (Hm & Htg & Hd).
    assert (sync_inv (set_synced p (Z.max (p_synced p) tg)) hist) as Hi'
      by (apply sync_inv_set_synced; [done|lia|done]).
    split; [done|]. apply pc_ok_set; [done|]. eapply mark_covered; [done|done|]. cbn. lia.
Qed.

(** The state in which no writer is active. *)
Definition gc_init (p : partition) : gc_state := mkGc p (fun _ => Idle) None.

Lemma gc_reach_inv p g hist : sync_inv p hist -> rtc gc_step (gc_init p) g -> gc_inv g.
Proof.
  intros Hi Hr. assert (gc_inv (gc_init p)) as H0 by (exists hist; split; done).
  revert H0. induction Hr as [|x y z Hs Hr IH]; [done|]. intros Hx. apply IH. by eapply gc_step_inv.
Qed.

(** A run of [sync_upto] on its own is a sequence of these steps. *)
Lemma sync_upto_steps p f t m ext p' :
  f t = Appended m ext -> sync_upto p (wm_seq m) (wm_handle m) true = (Ok tt, p') ->
  exists f', rtc gc_step (mkGc p f None) (mkGc p' f' None) /\ f' t = Acked m ext.
Proof.
  intros Ht Hs. unfold sync_upto in Hs. case_if_in Hs.
  { injection Hs as <-. exists (set_pc f t (Acked m ext)). split; [|unfold set_pc; by rewrite decide_True].
    apply rtc_once. by apply st_covered. }
  destruct (sync_target p m) as [tg h] eqn:Etg. unfold sync_target in Etg. rewrite Etg in Hs.
  injection Hs as <-. set (s1 := set_pc f t (Checked m ext)). set (s2 := set_pc s1 t (Loaded m ext tg h)).
  set (s3 := set_pc s2 t (Zeroed m ext tg h)). set (s4 := set_pc s3 t (Fsynced m ext tg)).
  assert (forall c g, set_pc g t c t = c) as Hset by (intros; unfold set_pc; by rewrite decide_True).
  exists (set_pc s4 t (Acked m ext)). split; [|apply Hset].
  eapply rtc_l; [by eapply st_check|]. eapply rtc_l; [eapply st_load; [apply Hset|exact Etg]|].
  eapply rtc_l; [by eapply st_zero, Hset|]. eapply rtc_l; [by eapply st_fsync, Hset|].
  apply rtc_once. by apply (st_finish (fsync (set_unsynced p 0) h) s4 (Some t) t m ext tg), Hset.
Qed.

(** ** Properties *)

(** C11: group commit acknowledges nothing that is not durable.  In every
    interleaving of any number of writers (appends with rolls and failures, checks
    of the synced sequence, fsyncs of a handle loaded before other writers wrote or
    rolled), once a writer that syncs every append is acknowledged, every byte that
    was published when it released the appender lock, in the active and in the
    sealed segments, has been covered by an fsync. *)
Theorem group_commit_durable p g t m ext :
  sync_inv p [] -> rtc gc_step (gc_init p) g -> g_pcs g t = Acked m ext ->
  Forall (fun w => w.2 <= default 0 (p_durable (g_p g) !! w.1)) ext.
Proof.
  intros Hi Hr Ht. destruct (gc_reach_inv p g [] Hi Hr) as (hist & _ & Hf).
  specialize (Hf t). rewrite Ht in Hf. apply Hf.
Qed.
End GroupCommit.

(** ** Witnesses *)

Section GroupCommitWitnesses.
#[local] Existing Instance crc32_ieee_class.

Lemma fresh_sync_inv n : sync_inv (fresh_partition n) [].
Proof.
  constructor; try done. split; [|exists [], 0; done].
  constructor; [|done]. split; cbn; len_facts; lia.
Qed.

(** Two writers: both append, the first one's fsync covers the second. *)
Definition two_writers : gc_state :=
  let p1 := (append_locked (fresh_partition 1000) [append_record_new None [x01]] 0 no_faults).2 in
  let p2 := (append_locked p1 [append_record_new None [x02]] 0 no_faults).2 in
  let p3 := fsync (set_unsynced p2 0) 0 in
  let m1 := mkMark 1 0 in let m2 := mkMark 2 0 in
  mkGc (set_synced p3 2)
    (set_pc (set_pc (set_pc (set_pc (set_pc (set_pc (set_pc (set_pc (fun _ => Idle)
      0 (Appended m1 (extents p1))) 1 (Appended m2 (extents p2))) 0 (Checked m1 (extents p1)))
      0 (Loaded m1 (extents p1) 2 0)) 0 (Zeroed m1 (extents p1) 2 0)) 0 (Fsynced m1 (extents p1) 2))
      0 (Acked m1 (extents p1))) 1 (Acked m2 (extents p2))) None.

Lemma pair_fst_eq {A B} (x : A * B) a : x.1 = a -> x = (a, x.2).
Proof. by intros <-; destruct x. Qed.

Lemma two_writers_reachable : rtc gc_step (gc_init (fresh_partition 1000)) two_writers.
Proof.
  unfold two_writers. cbv zeta.
  set (p1 := (append_locked (fresh_partition 1000) [append_record_new None [x01]] 0 no_faults).2).
  set (p2 := (append_locked p1 [append_record_new None [x02]] 0 no_faults).2).
  assert (append_locked (fresh_partition 1000) [append_record_new None [x01]] 0 no_faults =
    (Ok ([0], true, mkMark 1 0), p1)) as E1.
  { apply pair_fst_eq. vm_compute. reflexivity. }
  assert (append_locked p1 [append_record_new None [x02]] 0 no_faults = (Ok ([1], true, mkMark 2 0), p2)) as E2.
  { apply pair_fst_eq. vm_compute. reflexivity. }
  assert (p_synced p2 = 0 /\ sync_target p2 (mkMark 1 0) = (2, 0)) as [E3 E4] by (split; vm_compute; reflexivity).
  clearbody p2. clearbody p1.
  eapply rtc_l; [by eapply (st_append _ _ _ 0%nat), E1|].
  eapply rtc_l; [by eapply (st_append _ _ _ 1%nat), E2|].
  eapply rtc_l; [eapply (st_check _ _ 0%nat (mkMark 1 0) (extents p1)); [done|cbn; lia]|].
  eapply rtc_l; [by eapply (st_load _ _ _ 0%nat (mkMark 1 0) (extents p1)), E4|].
  eapply rtc_l; [by eapply (st_zero _ _ _ 0%nat)|].
  eapply rtc_l; [by eapply (st_fsync _ _ _ 0%nat)|].
  eapply rtc_l; [by eapply (st_finish _ _ _ 0%nat)|].
  cbn [p_synced fsync set_unsynced]. rewrite E3.
  apply rtc_once. by apply (st_covered _ _ 1%nat (mkMark 2 0) (extents p2)).
Qed.

Lemma group_commit_durable_witness :
  Forall (fun w => w.2 <= default 0 (p_durable (g_p two_writers) !! w.1)) [(0, 66)].
Proof.
  apply (group_commit_durable (fresh_partition 1000) two_writers 1 (mkMark 2 0) [(0, 66)]).
  - apply fresh_sync_inv.
  - exact two_writers_reachable.
  - vm_compute. reflexivity.
Defined.

(** The fence is checked before the appender lock is taken.  A writer that passes
    the check and then waits for the lock while another writer's failed write
    (whose rollback failed too) fences the partition still appends, after the torn
    bytes: its append succeeds, and a read returns no record and the offset after
    it. *)
Theorem append_past_fence_is_lost :
  let p1 := (append_locked (fresh_partition 1000) [append_record_new None [x01; x02; x03]] 0
               (mkFaults [LogFault 5 false true] [] true)).2 in
  let out := append_locked p1 [append_record_new None [x04]] 0 no_faults in
  p_poisoned p1 = true /\ out.1 = Ok ([0], true, mkMark 1 0) /\
  read_records_raw out.2 0 10 1000 = ([], 1, 1).
Proof. split_and!; vm_compute; reflexivity. Qed.
End GroupCommitWitnesses.
