(* ===== verification/Recover.v ===== *)
(** * Recovery (crates/es-broker/src/storage/recover.rs)

    What a partition directory becomes when it is opened again: interrupted
    compactions finished or swept, sealed segments recovered from their index when
    it can be trusted and by a full scan otherwise, the torn tail of the active
    segment cut off.

    The directory maps base offsets to the contents of the [.log] and [.index]
    files; the correspondence between a base offset and its twenty-digit file name
    is not modelled.  System calls succeed here. *)

From S2P Require Export PartitionSpec.

#[local] Open Scope Z_scope.

(** ** The directory *)

Record compaction_marker : Type := mkMarker { cm_base : Z; cm_victims : list Z }.

Record disk : Type := mkDisk {
  d_logs : gmap Z (list byte);
  d_indexes : gmap Z (list byte);
  d_tmp_logs : gmap Z (list byte);
  d_tmp_indexes : gmap Z (list byte);
  d_marker : option (option compaction_marker)  (** [Some None]: present, not parseable *)
}.

(** [rename]: a temporary file, if there, takes the place of the original. *)
Definition rename_over (tmp dst : gmap Z (list byte)) (base : Z) : gmap Z (list byte) :=
  match tmp !! base with Some f => <[base := f]> dst | None => dst end.

Definition finish_compaction (d : disk) : disk :=
  match d_marker d with
  | None => d
  | Some None => mkDisk (d_logs d) (d_indexes d) (d_tmp_logs d) (d_tmp_indexes d) None
  | Some (Some m) =>
    let logs := rename_over (d_tmp_logs d) (d_logs d) (cm_base m) in
    let indexes := rename_over (d_tmp_indexes d) (d_indexes d) (cm_base m) in
    mkDisk (foldl (fun l v => delete v l) logs (cm_victims m))
      (foldl (fun l v => delete v l) indexes (cm_victims m))
      (delete (cm_base m) (d_tmp_logs d)) (delete (cm_base m) (d_tmp_indexes d)) None
  end.

Definition sweep_compaction_tmp (d : disk) : disk :=
  mkDisk (d_logs d) (d_indexes d) ∅ ∅ (d_marker d).

Definition collect_segment_base_offsets (d : disk) : list Z := elements (dom (d_logs d)).

(** ** Scanning *)

Record segment_scan : Type := mkScan {
  sc_entries : list (Z * Z);
  sc_next_offset : Z;
  sc_valid_bytes : Z;
  sc_damaged : bool;
  sc_index_trusted : bool;
  sc_min_ts : Z;
  sc_max_ts : Z
}.

Section Scan.
Context `{Crc32}.

Definition thin_index (entries : list (Z * Z)) : list (Z * Z) :=
  foldl (fun out e =>
    match last out with
    | Some (_, p) => if e.2 <? p + INDEX_INTERVAL_BYTES then out else out ++ [e]
    | None => out ++ [e]
    end) [] entries.

(** The [loop] of [scan_full]. *)
Fixpoint scan_loop (fuel : nat) (base : Z) (c : cursor) (acc : segment_scan)
    (last_index_pos : option Z) : segment_scan :=
  match fuel with
  | O => acc
  | S fuel =>
    let pos_before := c_pos c in
    match next_record c with
    | (Ok (Some r), c) =>
      let wants := match last_index_pos with
                   | None => true
                   | Some p => p + INDEX_INTERVAL_BYTES <=? pos_before
                   end in
      scan_loop fuel base c
        (mkScan
           (if wants then sc_entries acc ++ [(sat_sub_u64 (r_offset r) base, pos_before)]
            else sc_entries acc)
           (r_offset r + 1) (c_pos c) (sc_damaged acc) false
           (Z.min (sc_min_ts acc) (r_timestamp_ms r)) (Z.max (sc_max_ts acc) (r_timestamp_ms r)))
        (if wants then Some pos_before else last_index_pos)
    | (Ok None, _) => acc
    | (_, _) =>
      mkScan (sc_entries acc) (sc_next_offset acc) (sc_valid_bytes acc) true (sc_index_trusted acc)
        (sc_min_ts acc) (sc_max_ts acc)
    end
  end.

Definition scan_empty (base : Z) (trusted : bool) : segment_scan :=
  mkScan [] base 0 false trusted I64_MAX I64_MIN.

Definition scan_full (log : list byte) (base : Z) : segment_scan :=
  let scan := scan_loop (S (length log)) base (cursor_new log 0 (len log) READ_WINDOW_BYTES)
                (scan_empty base false) None in
  mkScan (sc_entries scan) (sc_next_offset scan) (sc_valid_bytes scan)
    (sc_damaged scan || negb (sc_valid_bytes scan =? len log)) (sc_index_trusted scan)
    (sc_min_ts scan) (sc_max_ts scan).

(** The check on neighbouring index entries. *)
Fixpoint windows_ok (entries : list (Z * Z)) : bool :=
  match entries with
  | a :: ((b :: _) as rest) => negb ((b.1 <=? a.1) || (b.2 <=? a.2)) && windows_ok rest
  | _ => true
  end.

(** The tail walk of [scan_sealed_trusted]: the last record and the final
    position, or [None]. *)
Fixpoint tail_loop (fuel : nat) (base last_rel : Z) (c : cursor) (last : option record)
    (first_in_tail : bool) : option (option record * Z) :=
  match fuel with
  | O => None
  | S fuel =>
    match next_record c with
    | (Ok (Some r), c) =>
      if first_in_tail && ((r_offset r <? base) || negb (r_offset r - base =? last_rel)) then None
      else tail_loop fuel base last_rel c (Some r) false
    | (Ok None, c) => Some (last, c_pos c)
    | (_, _) => None
    end
  end.

Definition scan_sealed_trusted (log : list byte) (index : option (list byte)) (base : Z)
    : option segment_scan :=
  let size := len log in
  idx ← index;
  match index_load idx with
  | Ok entries =>
    if size =? 0 then
      match entries with [] => Some (scan_empty base true) | _ => None end
    else
    '(first_rel, first_pos) ← head entries;
    if negb (first_pos =? 0) then None else
    if negb (windows_ok entries) then None else
    '(last_rel, last_pos) ← last entries;
    if size <=? last_pos then None else
    match next_record (cursor_new log 0 size 4096) with
    | (Ok (Some first), _) =>
      if (r_offset first <? base) || negb (r_offset first - base =? first_rel) then None else
      '(last, pos) ← tail_loop (S (length log)) base last_rel
                       (cursor_new log last_pos size READ_WINDOW_BYTES) None true;
      last ← last;
      if negb (pos =? size) then None else
      Some (mkScan (thin_index entries) (r_offset last + 1) size false true
              (Z.min (r_timestamp_ms first) (r_timestamp_ms last))
              (Z.max (r_timestamp_ms first) (r_timestamp_ms last)))
    | _ => None
    end
  | _ => None
  end.

(** ** Opening *)

(** One segment recovered: its new files, its in-memory state and its next offset. *)
Definition recover_segment (log : list byte) (index : option (list byte)) (base : Z)
    (is_active : bool) : seg_files * segment * Z :=
  let trusted := if is_active then None else scan_sealed_trusted log index base in
  let scan := match trusted with Some s => s | None => scan_full log base end in
  let log := if sc_damaged scan && is_active then set_len log (sc_valid_bytes scan) else log in
  let index :=
    if sc_index_trusted scan then index
    else
      match index ≫= (fun b => match index_load b with Ok es => Some es | _ => None end) with
      | Some es => if decide (es = sc_entries scan) then index else Some (index_bytes (sc_entries scan))
      | None => Some (index_bytes (sc_entries scan))
      end in
  (mkFiles log (default [] index),
   segment_open base (sc_valid_bytes scan) (sc_entries scan) (sc_min_ts scan) (sc_max_ts scan),
   sc_next_offset scan).

(** The [for] loop over the sorted base offsets. *)
Fixpoint recover_loop (d : disk) (bases : list Z) (dir : gmap Z seg_files) (segs : list segment)
    (next_offset : Z) : gmap Z seg_files * list segment * Z :=
  match bases with
  | [] => (dir, segs, next_offset)
  | base :: rest =>
    let is_active := match rest with [] => true | _ => false end in
    let '(fs, seg, next) :=
      recover_segment (default [] (d_logs d !! base)) (d_indexes d !! base) base is_active in
    recover_loop d rest (<[base := fs]> dir) (segs ++ [seg]) (Z.max next_offset next)
  end.

(** [recover_partition]: the directory, the segments, the next offset and the
    appender. *)
Definition recover_partition (d : disk) : gmap Z seg_files * list segment * Z * appender :=
  let d := sweep_compaction_tmp (finish_compaction d) in
  let base_offsets := merge_sort Z.le (collect_segment_base_offsets d) in
  match base_offsets with
  | [] =>
    let (fs, app) := appender_create None 0 in
    ({[ 0 := fs ]}, [segment_open_empty 0], 0, app)
  | first :: _ =>
    let '(dir, segments, next_offset) := recover_loop d base_offsets ∅ [] first in
    match last segments with
    | Some active =>
      let base := s_base_offset active in
      let (fs, app) :=
        appender_open_existing (default (mkFiles [] []) (dir !! base)) base (s_size_bytes active)
          (INDEX_ENTRY_LEN * len (s_index active)) (snd <$> last (s_index active)) in
      (<[base := fs]> dir, segments, next_offset, app)
    | None => (dir, segments, next_offset, mkAppender first 0 0 None)
    end
  end.

(** [Partition::open]. *)
Definition partition_open (d : disk) (segment_bytes flush_every_records : Z) : partition :=
  let '(dir, segments, next_offset, app) := recover_partition d in
  mkPartition dir segment_bytes next_offset
    (match head segments with Some s => s_base_offset s | None => 0 end)
    segments app (Z.max flush_every_records 1) 0 0 (mkMark 0 (a_base_offset app)) 0 false ∅.
End Scan.
