(* ===== verification/RecoverSpec.v ===== *)
(** * What recovery promises

    A scan of a log file cut at any byte finds exactly the records that fit, the
    index shortcut for sealed segments agrees with the full scan, and opening the
    files of a partition again, after a crash that lost the tail of the active
    segment, gives back a partition with the same log up to that tail. *)

From S2P Require Export Recover.

#[local] Open Scope Z_scope.

Section ScanSpec.
Context `{Crc32}.

(** The records that fit in the first [n] bytes. *)
Fixpoint fit (n : Z) (rs : list record) : list record :=
  match rs with
  | [] => []
  | r :: rs => if record_size r <=? n then r :: fit (n - record_size r) rs else []
  end.

(** The bytes of a record whose write was cut short, or none. *)
Definition torn (tail : list byte) : Prop :=
  tail = [] \/ exists r n, record_ok r /\ 0 < n < record_size r /\ tail = take (Z.to_nat n) (record_bytes r).

(** A cursor in front of the records [rs] and a torn [tail]. *)
Definition cursor_over (c : cursor) (rs : list record) (tail : list byte) : Prop :=
  cursor_ok c /\ drop (Z.to_nat (c_pos c)) (c_file c) = recs_bytes rs ++ tail /\
  c_limit c = c_pos c + recs_size rs + len tail /\
  Forall record_ok rs /\ Forall (fun r => record_size r <= c_window c) rs.

Lemma cursor_over_cons c r rs tail :
  cursor_over c (r :: rs) tail ->
  exists c', next_record c = (Ok (Some r), c') /\ cursor_over c' rs tail /\
    c_pos c' = c_pos c + record_size r /\ c_window c' = c_window c.
Proof.
  intros (Hc & Ht & Hl & Hok & Hw).
  apply Forall_cons in Hok as [Hr Hok]. apply Forall_cons in Hw as [Hwr Hw].
  rewrite recs_bytes_cons, <- app_assoc in Ht. rewrite recs_size_cons in Hl.
  pose proof (recs_size_nonneg rs).
  destruct (next_record_hit c r _ Hc Hr Ht) as (c' & E & Hc' & (Ef & El & Ew) & Ep); [len_facts; lia|done|].
  exists c'. split; [done|]. split; [|done]. split; [done|]. rewrite Ef, El, Ew, Ep.
  split_and!; [|lia|done..].
  assert (0 <= c_pos c) by (destruct Hc; lia). pose proof (record_size_min r).
  rewrite Z2Nat.inj_add, <- drop_drop, Ht by lia.
  apply drop_app_len. by rewrite length_len, record_bytes_len.
Qed.

Lemma cursor_over_end c tail :
  cursor_over c [] tail -> torn tail ->
  match tail with
  | [] => next_record c = (Ok None, c)
  | _ => exists c', next_record c = (Err (Truncated (c_pos c)), c')
  end.
Proof.
  intros (Hc & Ht & Hl & _) [-> | (r & n & Hr & Hn & ->)].
  - apply next_record_end. rewrite recs_size_nil in Hl. len_lia.
  - assert (take (Z.to_nat n) (record_bytes r) <> []) as Hne.
    { intros E. apply (f_equal len) in E. rewrite len_take, record_bytes_len in E. len_nils. lia. }
    rewrite recs_size_nil, len_take, record_bytes_len in Hl.
    destruct (next_record_torn c r [] n Hc Hr) as [c' E]; [by rewrite app_nil_r|done|lia|].
    destruct (take (Z.to_nat n) (record_bytes r)) eqn:Et; [done|]. by exists c'.
Qed.

(** What a scan knows after the records [pre]. *)
Record scan_inv (base : Z) (pre : list record) (acc : segment_scan) (lip : option Z) : Prop := {
  sv_sorted : index_sorted (sc_entries acc);
  sv_points : index_points base (sc_entries acc) pre;
  sv_last : lip = snd <$> last (sc_entries acc);
  sv_next : sc_next_offset acc = next_after base pre;
  sv_valid : sc_valid_bytes acc = recs_size pre;
  sv_trusted : sc_index_trusted acc = false;
  sv_ts : Forall (fun r => sc_min_ts acc <= r_timestamp_ms r <= sc_max_ts acc) pre
}.

Lemma index_snoc base idx pre r :
  index_sorted idx -> index_points base idx pre -> offsets_sorted (pre ++ [r]) ->
  index_sorted (idx ++ [(r_offset r - base, recs_size pre)]) /\
  index_points base (idx ++ [(r_offset r - base, recs_size pre)]) (pre ++ [r]).
Proof.
  intros Hs Hp Ho. apply StronglySorted_snoc in Ho as [_ Ho]. split.
  - apply StronglySorted_snoc. split; [done|]. apply Forall_forall. intros e He.
    destruct (index_points_pos _ _ _ _ Hp He) as (Hlt & r' & Hin & Eo).
    rewrite Forall_forall in Ho. specialize (Ho r' Hin). cbn in *. lia.
  - apply Forall_app. split; [by apply index_points_app_r|].
    constructor; [|done]. exists pre, r, []. cbn. split_and!; [done|lia|done].
Qed.

Lemma scan_loop_spec fuel base rs tail c acc lip pre :
  cursor_over c rs tail -> torn tail -> scan_inv base pre acc lip -> sc_damaged acc = false ->
  offsets_sorted (pre ++ rs) -> Forall (fun r => base <= r_offset r) rs ->
  c_pos c = recs_size pre -> (length rs < fuel)%nat ->
  let sc := scan_loop fuel base c acc lip in
  (exists lip', scan_inv base (pre ++ rs) sc lip') /\ sc_damaged sc = negb (len tail =? 0).
Proof.
  revert rs c acc lip pre. induction fuel as [|fuel IH]; intros rs c acc lip pre Hc Ht Hi Hd Ho Hb Hp Hf; [lia|].
  cbn [scan_loop]. destruct rs as [|r rs].
  - pose proof (cursor_over_end _ _ Hc Ht) as He. rewrite app_nil_r. destruct tail as [|x tail].
    + rewrite He. cbn. eauto.
    + destruct He as [c' ->]. cbn zeta. split; [|cbn; symmetry; bool_lia].
      exists lip. destruct Hi. constructor; done.
  - destruct (cursor_over_cons _ _ _ _ Hc) as (c' & -> & Hc' & Ep & _).
    apply Forall_cons in Hb as [Hbr Hb].
    assert (offsets_sorted (pre ++ [r])) as Ho'.
    { change (r :: rs) with ([r] ++ rs) in Ho. rewrite app_assoc in Ho. by apply offsets_sorted_app in Ho as (? & _). }
    assert (recs_size (pre ++ [r]) = recs_size pre + record_size r) as Es
      by (rewrite recs_size_app, recs_size_cons, recs_size_nil; lia).
    change (r :: rs) with ([r] ++ rs). rewrite app_assoc. apply IH; try done.
    + assert (sat_sub_u64 (r_offset r) base = r_offset r - base) as -> by (unfold sat_sub_u64; lia).
      rewrite Hp. destruct Hi as [H1 H2 H3 H4 H5 H6 H7].
      destruct (index_snoc base (sc_entries acc) pre r H1 H2 Ho') as [Hs' Hp'].
      set (w := match lip with None => true | Some p => _ end). clearbody w.
      constructor; cbn.
      * by destruct w.
      * destruct w; [done|by apply index_points_app_r].
      * destruct w; [by rewrite last_snoc|done].
      * unfold next_after. by rewrite last_snoc.
      * lia.
      * done.
      * apply Forall_app. split; [|constructor; [lia|done]]. eapply Forall_impl; [exact H7|]. cbn. lia.
    + by rewrite <- app_assoc.
    + lia.
    + cbn in Hf. lia.
Qed.

Lemma scan_full_spec log rs tail base :
  log = recs_bytes rs ++ tail -> torn tail -> Forall record_ok rs -> offsets_sorted rs ->
  Forall (fun r => base <= r_offset r) rs -> Forall (fun r => record_size r <= READ_WINDOW_BYTES) rs ->
  let sc := scan_full log base in
  (exists lip, scan_inv base rs sc lip) /\ sc_damaged sc = negb (len tail =? 0).
Proof.
  intros -> Ht Hok Ho Hb Hw. cbv zeta. unfold scan_full.
  set (scan := scan_loop _ _ _ _ _).
  cut ((exists lip, scan_inv base rs scan lip) /\ sc_damaged scan = negb (len tail =? 0)).
  { intros [[lip []] Hd]. split; [exists lip; by constructor|]. cbn [sc_damaged].
    rewrite Hd, len_app, recs_bytes_len. pose proof (len_nonneg tail).
    destruct (Z.eqb_spec (len tail) 0); cbn [negb orb]; [|done]. apply negb_false_iff, Z.eqb_eq. lia. }
  apply (scan_loop_spec _ _ rs tail _ _ None []); try done.
  - split_and!; cbn.
    + apply cursor_new_ok; len_lia.
    + done.
    + rewrite len_app, recs_bytes_len. done.
    + done.
    + eapply Forall_impl; [exact Hw|]. cbn. unfold READ_WINDOW_BYTES. lia.
  - constructor; try done; constructor.
  - pose proof (recs_size_len rs) as Hl. rewrite <- recs_bytes_len in Hl. rewrite length_app. unfold len in Hl. lia.
Qed.

(** A cut of the encoded records is the records that fit and a torn rest. *)
Lemma cut_recs n rs :
  Forall record_ok rs -> 0 <= n <= recs_size rs ->
  exists tail, take (Z.to_nat n) (recs_bytes rs) = recs_bytes (fit n rs) ++ tail /\ torn tail /\
    len tail = n - recs_size (fit n rs).
Proof.
  intros Hok. revert n. induction Hok as [|r rs Hr Hok IH]; intros n Hn.
  { exists []. cbn in Hn |- *. rewrite take_nil. split_and!; [done|by left|len_lia]. }
  rewrite recs_size_cons in Hn. cbn [fit]. rewrite recs_bytes_cons. pose proof (record_size_min r). case_if.
  - destruct (IH (n - record_size r)) as (tail & E & Ht & Hl); [lia|]. exists tail.
    rewrite recs_bytes_cons, recs_size_cons, <- app_assoc, <- E. split_and!; [|done|lia].
    rewrite take_app_ge by (rewrite length_len, record_bytes_len; lia). do 2 f_equal.
    rewrite length_len, record_bytes_len. lia.
  - exists (take (Z.to_nat n) (record_bytes r)). rewrite recs_size_nil.
    rewrite take_app_le by (rewrite length_len, record_bytes_len; lia).
    split_and!; [done| |rewrite len_take, record_bytes_len; lia].
    destruct (decide (n = 0)) as [->|]; [by left|]. right. exists r, n. split_and!; [done|lia|lia|done].
Qed.

Lemma fit_prefix n rs : fit n rs `prefix_of` rs.
Proof.
  revert n. induction rs as [|r rs IH]; intros n; [done|]. cbn. case_if; [by apply prefix_cons|apply prefix_nil].
Qed.

Lemma fit_all n rs : recs_size rs <= n -> fit n rs = rs.
Proof.
  revert n. induction rs as [|r rs IH]; intros n Hn; [done|]. rewrite recs_size_cons in Hn. cbn.
  pose proof (recs_size_nonneg rs). case_if; [|lia]. f_equal. apply IH. lia.
Qed.

(** Records that lie wholly below [n] are kept. *)
Lemma fit_keeps n rs1 rs2 : recs_size rs1 <= n -> rs1 `prefix_of` fit n (rs1 ++ rs2).
Proof.
  revert n. induction rs1 as [|r rs1 IH]; intros n Hn; [apply prefix_nil|]. rewrite recs_size_cons in Hn. cbn.
  pose proof (recs_size_nonneg rs1). case_if; [|lia]. apply prefix_cons, IH. lia.
Qed.

(** ** The index shortcut *)

Lemma thin_index_inv (P : Z * Z -> Prop) entries :
  index_sorted entries -> Forall P entries ->
  index_sorted (thin_index entries) /\ Forall P (thin_index entries).
Proof.
  unfold thin_index. set (f := fun (out : list (Z * Z)) (e : Z * Z) => match last out with Some _ => _ | None => _ end).
  assert (forall out, index_sorted (out ++ entries) -> Forall P (out ++ entries) ->
    index_sorted (foldl f out entries) /\ Forall P (foldl f out entries)) as Hgen; [|apply (Hgen [])].
  induction entries as [|e es IH]; intros out Hs Hp; cbn [foldl]; [by rewrite app_nil_r in *|].
  assert (index_sorted (out ++ es) /\ Forall P (out ++ es)) as [Hs' Hp'].
  { apply StronglySorted_app in Hs as (H1 & H2 & H3). inversion H3 as [|? ? H4 _]; subst.
    apply Forall_app in Hp as [P1 P2]. apply Forall_cons in P2 as [_ P2].
    split; [|by apply Forall_app]. apply StronglySorted_app. split_and!; [|done|done].
    intros a b Ha Hb. apply H1; [done|by right]. }
  assert (index_sorted ((out ++ [e]) ++ es) /\ Forall P ((out ++ [e]) ++ es)) as [Hs'' Hp'']
    by (by rewrite <- app_assoc).
  subst f. cbv beta. destruct (last out) as [[? p]|]; [case_if|]; by apply IH.
Qed.

Lemma tail_loop_spec fuel base lr rs c lst first l pos :
  cursor_over c rs [] -> tail_loop fuel base lr c lst first = Some (l, pos) ->
  l = (match last rs with Some r => Some r | None => lst end) /\ pos = c_pos c + recs_size rs.
Proof.
  revert rs c lst first. induction fuel as [|fuel IH]; intros rs c lst first Hc Ht; [done|].
  cbn [tail_loop] in Ht. destruct rs as [|r rs].
  - rewrite (cursor_over_end c [] Hc (or_introl eq_refl)) in Ht. injection Ht as <- <-.
    split; [done|]. rewrite recs_size_nil. lia.
  - destruct (cursor_over_cons _ _ _ _ Hc) as (c' & E & Hc' & Ep & _). rewrite E in Ht. case_if_in Ht; [done|].
    destruct (IH _ _ _ _ Hc' Ht) as [-> ->]. rewrite recs_size_cons. split; [|lia].
    by destruct rs as [|r' rs _] using rev_ind; [|rewrite last_cons, !last_snoc].
Qed.

(** Timestamps do not go back within a segment. *)
Definition ts_sorted (rs : list record) : Prop :=
  StronglySorted (fun a b => r_timestamp_ms a <= r_timestamp_ms b) rs.

Lemma ts_sorted_bounds rs f l :
  ts_sorted rs -> head rs = Some f -> last rs = Some l ->
  Forall (fun r => Z.min (r_timestamp_ms f) (r_timestamp_ms l) <= r_timestamp_ms r <=
                   Z.max (r_timestamp_ms f) (r_timestamp_ms l)) rs.
Proof.
  intros Hs Hh Hl. assert (Forall (fun r => r_timestamp_ms f <= r_timestamp_ms r) rs) as H1.
  { destruct rs as [|x rs]; [done|]. injection Hh as ->. inversion Hs as [|? ? _ Hx]; subst. by constructor. }
  assert (Forall (fun r => r_timestamp_ms r <= r_timestamp_ms l) rs) as H2.
  { apply last_snoc_inv in Hl as [rs' ->]. apply StronglySorted_snoc in Hs as [_ Hs].
    apply Forall_app. split; [done|by constructor]. }
  rewrite Forall_forall in *. intros x Hx. specialize (H1 x Hx). specialize (H2 x Hx). cbn in *. lia.
Qed.

(** A segment file with its records and its index file. *)
Record sealed_files (base : Z) (rs : list record) (log index : list byte) (idx : list (Z * Z)) : Prop := {
  sf_log : log = recs_bytes rs;
  sf_ok : Forall record_ok rs;
  sf_offsets : offsets_sorted rs;
  sf_base : Forall (fun r => base <= r_offset r) rs;
  sf_window : Forall (fun r => record_size r <= READ_WINDOW_BYTES) rs;
  sf_index : index = index_bytes idx;
  sf_entries : Forall entry_ok idx;
  sf_sorted : index_sorted idx;
  sf_points : index_points base idx rs
}.

(** The first record a cursor yields is the first record of the file. *)
Lemma first_record rs w c' first :
  Forall record_ok rs ->
  next_record (cursor_new (recs_bytes rs) 0 (len (recs_bytes rs)) w) = (Ok (Some first), c') ->
  head rs = Some first.
Proof.
  intros Hok Hn. destruct rs as [|r rs].
  { by rewrite next_record_end in Hn by done. }
  apply Forall_cons in Hok as [Hr Hok]. rewrite recs_bytes_cons in Hn. pose proof (record_size_min r).
  set (c := cursor_new _ _ _ _) in Hn.
  assert (cursor_ok c) as Hc by (apply cursor_new_ok; len_lia).
  assert (c_pos c + record_size r <= c_limit c) as Hl
    by (subst c; cbn [c_pos c_limit cursor_new]; rewrite len_app, record_bytes_len; len_facts; lia).
  destruct (decide (record_size r <= c_window c)) as [Hw|Hw].
  - destruct (next_record_hit c r (recs_bytes rs) Hc Hr) as (c2 & E & _); [done|done|done|].
    rewrite E in Hn. by injection Hn as ->.
  - destruct (next_record_oversized c r (recs_bytes rs) Hc Hr) as (c2 & E); [done|done|lia| |].
    + subst c. unfold buffered, cursor_new. cbn. case_if; len_lia.
    + by rewrite E in Hn.
Qed.

Lemma scan_trusted_spec base rs log index idx sc :
  sealed_files base rs log index idx -> scan_sealed_trusted log (Some index) base = Some sc ->
  index_sorted (sc_entries sc) /\ index_points base (sc_entries sc) rs /\
  sc_next_offset sc = next_after base rs /\ sc_valid_bytes sc = recs_size rs /\
  sc_damaged sc = false /\ sc_index_trusted sc = true /\
  (ts_sorted rs -> Forall (fun r => sc_min_ts sc <= r_timestamp_ms r <= sc_max_ts sc) rs).
Proof.
  intros [-> Hok Ho Hb Hw -> He Hs Hp] Hsc. unfold scan_sealed_trusted in Hsc. cbn [mbind option_bind] in Hsc.
  rewrite index_load_bytes in Hsc by done. destruct (len (recs_bytes rs) =? 0) eqn:E0; boolp.
  { assert (rs = []) as ->.
    { apply len_zero. pose proof (recs_size_len rs) as Hl. rewrite <- recs_bytes_len in Hl. len_facts. lia. }
    destruct idx; [|done]. injection Hsc as <-. split_and!; try done; constructor. }
  destruct idx as [|[fr fp] idx'] eqn:Ei; [done|]. cbn [head mbind option_bind] in Hsc. rewrite <- Ei in *.
  destruct (negb (fp =? 0)); [done|]. destruct (negb (windows_ok idx)); [done|].
  destruct (last idx) as [[lr lp]|] eqn:El; [cbn [mbind option_bind] in Hsc|done].
  case_if_in Hsc; [done|].
  destruct (next_record (cursor_new (recs_bytes rs) 0 (len (recs_bytes rs)) 4096)) as [[[first|]| |] c0] eqn:En; try done.
  apply first_record in En; [|done]. case_if_in Hsc; [done|].
  destruct (tail_loop _ _ _ _ _ _) as [[l pos]|] eqn:Et; [cbn [mbind option_bind] in Hsc|done].
  assert (exists rs1 r rs2, rs = rs1 ++ r :: rs2 /\ recs_size rs1 = lp) as (rs1 & r & rs2 & Ers & Elp).
  { unfold index_points in Hp. rewrite Forall_forall in Hp.
    destruct (Hp (lr, lp)) as (rs1 & r & rs2 & ? & _ & ?); [by apply last_Some_elem_of|]. by exists rs1, r, rs2. }
  apply (tail_loop_spec _ _ _ (r :: rs2)) in Et as [-> ->].
  2: { split_and!; cbn [c_pos c_file c_limit c_window cursor_new].
       - apply cursor_new_ok; [|lia]. rewrite <- Elp. pose proof (recs_size_nonneg rs1). lia.
       - rewrite <- Elp, Ers. rewrite <- (app_nil_r (recs_bytes (rs1 ++ r :: rs2))). apply drop_recs.
       - rewrite Ers, recs_bytes_app, len_app, !recs_bytes_len. len_nils. lia.
       - rewrite Ers in Hok. by apply Forall_app in Hok as [_ ?].
       - rewrite Ers in Hw. apply Forall_app in Hw as [_ Hw]. eapply Forall_impl; [exact Hw|]. cbn.
         unfold READ_WINDOW_BYTES. lia. }
  assert (exists lst, last (r :: rs2) = Some lst) as [lst Hlst].
  { destruct (last (r :: rs2)) eqn:E; [eauto|]. by apply last_None in E. }
  rewrite Hlst in Hsc. cbn [mbind option_bind] in Hsc. case_if_in Hsc; [done|]. injection Hsc as <-. cbn.
  assert (last rs = Some lst) as Hlast by (rewrite Ers, last_app_ne; done).
  destruct (thin_index_inv _ idx Hs Hp) as [Hs' Hp'].
  split_and!; try done.
  - unfold next_after. by rewrite Hlast.
  - apply recs_bytes_len.
  - intros Hts. by apply ts_sorted_bounds.
Qed.

(** ** One segment *)

Lemma recover_sealed base rs index fs seg next :
  Forall record_ok rs -> offsets_sorted rs -> Forall (fun r => base <= r_offset r) rs ->
  Forall (fun r => record_size r <= READ_WINDOW_BYTES) rs -> ts_sorted rs -> 0 <= base ->
  (forall ix, index = Some ix -> exists idx, sealed_files base rs (recs_bytes rs) ix idx) ->
  recover_segment (recs_bytes rs) index base false = (fs, seg, next) ->
  f_log fs = recs_bytes rs /\ s_base_offset seg = base /\ seg_holds (recs_bytes rs) seg rs /\
  seg_ts seg rs /\ next = next_after base rs.
Proof.
  intros Hok Ho Hb Hw Hts H0 Hix Hr. unfold recover_segment in Hr.
  destruct (match scan_sealed_trusted _ _ _ with Some _ => _ | None => _ end) as [es nx vb dm tr mn mx] eqn:Esc.
  assert (index_sorted es /\ index_points base es rs /\ nx = next_after base rs /\ vb = recs_size rs /\
    dm = false /\ Forall (fun r => mn <= r_timestamp_ms r <= mx) rs) as (H1 & H2 & -> & -> & -> & H6).
  { destruct (scan_sealed_trusted _ _ _) as [sc|] eqn:Et.
    - destruct index as [ix|]; [|done]. destruct (Hix ix eq_refl) as [idx Hsf].
      destruct (scan_trusted_spec _ _ _ _ _ _ Hsf Et) as (E1 & E2 & E3 & E4 & E5 & _ & E7).
      subst sc. cbn in *. specialize (E7 Hts). done.
    - destruct (scan_full_spec (recs_bytes rs) rs [] base) as [[lip []] E2]; rewrite ?app_nil_r; try done; [by left|].
      rewrite Esc in *. cbn in *. split_and!; done. }
  cbn in Hr. injection Hr as <- <- <-. split_and!; try done.
  - constructor; try done. exists []. by rewrite app_nil_r.
  - eapply Forall_impl; [exact H6|]. done.
Qed.

(** The active segment is cut to its whole records and its index rebuilt. *)
Lemma recover_active base rs n index fs seg next :
  Forall record_ok rs -> offsets_sorted rs -> Forall (fun r => base <= r_offset r) rs ->
  Forall (fun r => record_size r <= READ_WINDOW_BYTES) rs -> 0 <= n <= recs_size rs ->
  recover_segment (take (Z.to_nat n) (recs_bytes rs)) index base true = (fs, seg, next) ->
  let kept := fit n rs in
  f_log fs = recs_bytes kept /\ f_index fs = index_bytes (s_index seg) /\
  s_base_offset seg = base /\ seg_holds (recs_bytes kept) seg kept /\
  seg_ts seg kept /\ next = next_after base kept.
Proof.
  intros Hok Ho Hb Hw Hn Hr. cbv zeta. destruct (cut_recs n rs Hok Hn) as (tail & Ecut & Ht & Hlt).
  destruct (fit_prefix n rs) as [rest Erest].
  set (kept := fit n rs) in *.
  assert (Forall record_ok kept /\ offsets_sorted kept /\ Forall (fun r => base <= r_offset r) kept /\
    Forall (fun r => record_size r <= READ_WINDOW_BYTES) kept) as (Hok' & Ho' & Hb' & Hw').
  { rewrite Erest in Hok, Ho, Hb, Hw. apply Forall_app in Hok as [? _]. apply offsets_sorted_app in Ho as (? & _).
    apply Forall_app in Hb as [? _]. apply Forall_app in Hw as [? _]. done. }
  destruct (scan_full_spec _ kept tail base Ecut Ht Hok' Ho' Hb' Hw') as [[lip Hsc] Hd].
  unfold recover_segment in Hr. set (sc := scan_full _ base) in *. clearbody sc.
  destruct Hsc as [H1 H2 H3 H4 H5 H6 H7]. rewrite H6 in Hr. injection Hr as <- <- <-. cbn.
  split_and!; try done.
  - rewrite Hd, H5, Ecut. destruct (len tail =? 0) eqn:Et; boolp; cbn.
    + apply len_zero in Et as ->. by rewrite app_nil_r.
    + apply set_len_app. by rewrite recs_bytes_len.
  - destruct index as [ix|]; cbn; [|done]. destruct (index_load ix) as [es| |] eqn:El; cbn; try done.
    destruct (decide (es = sc_entries sc)) as [->|]; cbn; [|done]. by apply index_load_inv.
  - constructor; try done. exists []. by rewrite app_nil_r.
  - eapply Forall_impl; [exact H7|]. done.
Qed.
End ScanSpec.

(** ** The whole directory *)

Section OpenSpec.
Context `{Crc32}.

(** A directory as a crash may leave it: the sealed segments [gs] (base offset
    and records) whole, with an index that is either missing or the one written
    for them, and the log of the active segment [(b, rs)] cut after [n] bytes, its
    index in any state. *)
Record disk_holds (d : disk) (gs : list (Z * list record)) (b : Z) (rs : list record) (n : Z) : Prop := {
  dh_marker : d_marker d = None;
  dh_keys : dom (d_logs d) ≡ list_to_set (gs.*1 ++ [b]);
  dh_nonneg : Forall (fun base => 0 <= base) (gs.*1 ++ [b]);
  dh_chain : StronglySorted (fun x y : Z * list record =>
               x.1 < y.1 /\ Forall (fun r => r_offset r < y.1) x.2) (gs ++ [(b, rs)]);
  dh_records : Forall (fun g : Z * list record =>
      Forall record_ok g.2 /\ offsets_sorted g.2 /\ Forall (fun r => g.1 <= r_offset r) g.2 /\
      Forall (fun r => record_size r <= READ_WINDOW_BYTES) g.2) (gs ++ [(b, rs)]);
  dh_sealed : Forall (fun g : Z * list record =>
      d_logs d !! g.1 = Some (recs_bytes g.2) /\ ts_sorted g.2 /\
      forall ix, d_indexes d !! g.1 = Some ix ->
        exists idx, sealed_files g.1 g.2 (recs_bytes g.2) ix idx) gs;
  dh_active : d_logs d !! b = Some (take (Z.to_nat n) (recs_bytes rs));
  dh_cut : 0 <= n <= recs_size rs
}.

Lemma recover_loop_sealed d gs rest dir segs nxt bound :
  Forall (fun base => 0 <= base) gs.*1 -> NoDup gs.*1 -> rest <> [] ->
  Forall (fun g : Z * list record =>
      Forall record_ok g.2 /\ offsets_sorted g.2 /\ Forall (fun r => g.1 <= r_offset r) g.2 /\
      Forall (fun r => record_size r <= READ_WINDOW_BYTES) g.2) gs ->
  Forall (fun g : Z * list record =>
      d_logs d !! g.1 = Some (recs_bytes g.2) /\ ts_sorted g.2 /\
      forall ix, d_indexes d !! g.1 = Some ix ->
        exists idx, sealed_files g.1 g.2 (recs_bytes g.2) ix idx) gs ->
  Forall (fun g : Z * list record => g.1 <= bound /\ Forall (fun r => r_offset r < bound) g.2) gs ->
  nxt <= bound ->
  exists dir' init nxt',
    recover_loop d (gs.*1 ++ rest) dir segs nxt = recover_loop d rest dir' (segs ++ init.*1) nxt' /\
    Forall2 (fun (g : Z * list record) x =>
      s_base_offset x.1 = g.1 /\ x.2 = g.2 /\ seg_wf dir' x) gs init /\
    (forall k, k ∉ gs.*1 -> dir' !! k = dir !! k) /\ nxt' <= bound.
Proof.
  intros Hnn Hnd Hrest Hrec Hseal. revert dir segs nxt.
  induction gs as [|[base rs] gs IH]; intros dir segs nxt Hbd Hn.
  { exists dir, [], nxt. cbn. rewrite app_nil_r. split_and!; try done; constructor. }
  cbn in Hnn, Hnd. apply Forall_cons in Hnn as [H0 Hnn]. apply NoDup_cons in Hnd as [Hni Hnd].
  apply Forall_cons in Hrec as [(Hok & Ho & Hb & Hw) Hrec]. apply Forall_cons in Hseal as [(Hl & Hts & Hix) Hseal].
  apply Forall_cons in Hbd as [[Hb1 Hb2] Hbd]. cbn [fst snd] in *. cbn [fmap list_fmap app recover_loop fst snd].
  assert (match gs.*1 ++ rest with [] => true | _ => false end = false) as -> by (by destruct gs, rest).
  rewrite Hl. cbn [default from_option id].
  destruct (recover_segment (recs_bytes rs) (d_indexes d !! base) base false) as [[fs seg] next] eqn:Er.
  destruct (recover_sealed _ _ _ _ _ _ Hok Ho Hb Hw Hts H0 Hix Er) as (Hfl & Esb & Hh & Hst & ->).
  destruct (IH Hnn Hnd Hrec Hseal (<[base := fs]> dir) (segs ++ [seg]) (Z.max nxt (next_after base rs)) Hbd)
    as (dir' & init & nxt' & -> & Hf2 & Hdir & Hn').
  { apply Z.max_lub; [done|]. unfold next_after. destruct (last rs) as [r|] eqn:E; [|done].
    apply last_Some_elem_of in E. rewrite Forall_forall in Hb2. specialize (Hb2 r E). lia. }
  exists dir', ((seg, rs) :: init), nxt'. cbn. rewrite <- app_assoc. split_and!; [done| | |done].
  - constructor; [|done]. cbn. split_and!; [done|done|]. exists fs. cbn. rewrite Esb, Hdir by done.
    rewrite lookup_insert_eq, Hfl. done.
  - intros k Hk. apply not_elem_of_cons in Hk as [Hk1 Hk2]. rewrite Hdir by done. by rewrite lookup_insert_ne.
Qed.

Lemma sorted_keys l : StronglySorted Z.lt l -> NoDup l /\ Sorted Z.le l.
Proof.
  induction 1 as [|x l Hs [IH1 IH2] Hx]; [split; constructor|]. split.
  - constructor; [|done]. intros Hin. rewrite Forall_forall in Hx. specialize (Hx x Hin). lia.
  - constructor; [done|]. inversion Hx; constructor. lia.
Qed.

(** Sorting the base offsets found in the directory gives them in order. *)
Lemma recovered_bases d l :
  dom (d_logs d) ≡ list_to_set l -> StronglySorted Z.lt l ->
  merge_sort Z.le (collect_segment_base_offsets d) = l.
Proof.
  intros Hd Hs. destruct (sorted_keys l Hs) as [Hnd Hsort].
  unfold collect_segment_base_offsets.
  apply (Sorted_unique Z.le); [apply (Sorted_merge_sort _)|done|].
  rewrite merge_sort_Permutation. apply NoDup_Permutation; [apply NoDup_elements|done|].
  intros x. rewrite elem_of_elements, Hd. apply elem_of_list_to_set.
Qed.

Lemma Forall2_fmap_eq (gs : list (Z * list record)) (init : list (segment * list record)) dir :
  Forall2 (fun g x => s_base_offset x.1 = g.1 /\ x.2 = g.2 /\ seg_wf dir x) gs init ->
  s_base_offset <$> init.*1 = gs.*1 /\ init.*2 = gs.*2 /\ Forall (seg_wf dir) init.
Proof.
  induction 1 as [|g x gs init (E1 & E2 & Hw) Hf (I1 & I2 & I3)]; [done|]. cbn.
  rewrite I1, I2, E1, E2. split_and!; [done|done|by constructor].
Qed.

(** The order of the segments on disk is the order of the recovered ones. *)
Lemma chain_transfer gs b rs kept init s dir :
  StronglySorted (fun x y : Z * list record => x.1 < y.1 /\ Forall (fun r => r_offset r < y.1) x.2) (gs ++ [(b, rs)]) ->
  Forall2 (fun (g : Z * list record) x => s_base_offset x.1 = g.1 /\ x.2 = g.2 /\ seg_wf dir x) gs init ->
  s_base_offset s = b -> StronglySorted seg_before (init ++ [(s, kept)]).
Proof.
  rewrite !StronglySorted_snoc. intros [Hs Hb] Hf Hsb. split.
  - clear Hb. induction Hf as [|g x gs init (E1 & E2 & _) Hf IH]; [constructor|].
    inversion Hs as [|? ? Hs' Hg]; subst. constructor; [by apply IH|].
    clear -Hf Hg E1 E2. induction Hf as [|g' y gs init (E3 & E4 & _) Hf IH]; [constructor|].
    apply Forall_cons in Hg as [[Hg1 Hg2] Hg]. constructor; [|by apply IH].
    split; rewrite ?E1, ?E2, ?E3; done.
  - clear Hs. induction Hf as [|g x gs init (E1 & E2 & _) Hf IH]; [constructor|].
    apply Forall_cons in Hb as [[Hb1 Hb2] Hb]. constructor; [|by apply IH]. split; cbn in *; rewrite ?E1, ?E2, ?Hsb; done.
Qed.

Lemma sh_base' file s rs b :
  seg_holds file s rs -> s_base_offset s = b -> Forall (fun r => b <= r_offset r) rs.
Proof. intros Hh <-. apply Hh. Qed.

Lemma fit_next b n rs : Forall (fun r => b <= r_offset r) (fit n rs) -> b <= next_after b (fit n rs).
Proof.
  intros Hb. unfold next_after. destruct (last (fit n rs)) as [r|] eqn:E; [|lia].
  apply last_Some_elem_of in E. rewrite Forall_forall in Hb. specialize (Hb r E). lia.
Qed.

Lemma chain_keys (gs : list (Z * list record)) b rs :
  StronglySorted (fun x y : Z * list record => x.1 < y.1 /\ Forall (fun r => r_offset r < y.1) x.2) (gs ++ [(b, rs)]) ->
  StronglySorted Z.lt (gs.*1 ++ [b]) /\
  Forall (fun g : Z * list record => g.1 < b /\ Forall (fun r => r_offset r < b) g.2) gs.
Proof.
  rewrite !StronglySorted_snoc. intros [Hs Hb]. split_and!; [| |exact Hb].
  - clear Hb. induction Hs as [|g gs Hs IH Hg]; cbn; constructor; [done|].
    apply Forall_fmap. eapply Forall_impl; [exact Hg|]. by intros ? [? _].
  - apply Forall_fmap. eapply Forall_impl; [exact Hb|]. by intros ? [? _].
Qed.

Lemma partition_open_spec d gs b rs n sb fl :
  disk_holds d gs b rs n ->
  let p := partition_open d sb fl in
  exists init s, part_wf p init s (fit n rs) /\ init.*2 = gs.*2 /\ s_base_offset s = b /\
    p_next_offset p = next_after b (fit n rs) /\ p_poisoned p = false /\ s_base_offset s <= p_next_offset p.
Proof.
  intros [Hm Hk Hnn Hch Hrec Hseal Hact Hcut]. cbv zeta. unfold partition_open, recover_partition.
  unfold finish_compaction. rewrite Hm.
  destruct (chain_keys _ _ _ Hch) as [Hkeys Hbd].
  rewrite (recovered_bases (sweep_compaction_tmp d) (gs.*1 ++ [b])) by done.
  apply Forall_app in Hnn as [Hnn Hb0]. apply Forall_cons in Hb0 as [Hb0 _].
  apply Forall_app in Hrec as [Hrec Hra]. apply Forall_cons in Hra as [(Hok & Ho & Hb & Hw) _]. cbn [fst snd] in *.
  assert (forall {B} (x : B) f, match gs.*1 ++ [b] with [] => x | first :: _ => f first end =
    f (hd b gs.*1)) as Ematch by (intros; by destruct gs).
  rewrite Ematch. clear Ematch.
  assert (hd b gs.*1 <= b) as Hfirst.
  { destruct gs as [|g gs]; cbn; [lia|]. apply Forall_cons in Hbd as [[? _] _]. lia. }
  destruct (sorted_keys _ Hkeys) as [Hnd _]. apply NoDup_app in Hnd as (Hnd & Hnb & _).
  destruct (recover_loop_sealed (sweep_compaction_tmp d) gs [b] ∅ [] (hd b gs.*1) b) as (dir & init & nxt & -> & Hf2 & Hdir & Hn');
    try done.
  { eapply Forall_impl; [exact Hbd|]. cbn. intros g [? ?]. split; [lia|done]. }
  cbn [recover_loop app d_logs d_indexes sweep_compaction_tmp]. rewrite Hact. cbn [default from_option id].
  destruct (recover_segment _ _ b true) as [[fs seg] next] eqn:Er.
  destruct (recover_active _ _ _ _ _ _ _ Hok Ho Hb Hw Hcut Er) as (Hfl & Hfi & Esb & Hh & Hts & ->).
  set (kept := fit n rs) in *. rewrite last_snoc, Esb, lookup_insert_eq. cbn [default from_option id].
  rewrite (sh_size _ _ _ Hh). unfold appender_open_existing.
  rewrite (proj2 (Z.eqb_eq (len (f_log fs)) (recs_size kept))) by (by rewrite Hfl, recs_bytes_len).
  rewrite (proj2 (Z.eqb_eq (len (f_index fs)) _)) by (by rewrite Hfi, index_bytes_len). cbn [negb].
  replace (mkFiles (f_log fs) (f_index fs)) with fs by (by destruct fs). rewrite insert_insert_eq.
  destruct (Forall2_fmap_eq _ _ _ Hf2) as (I1 & I2 & I3).
  pose proof (fit_next b n rs) as Hnx. fold kept in Hnx. specialize (Hnx (sh_base' _ seg kept b Hh Esb)).
  exists init, seg. split; [|cbn; split_and!; [done|done|lia|done|lia]].
  constructor; cbn [p_segments p_dir p_next_offset p_start_offset p_appender p_poisoned].
  - done.
  - apply Forall_app. split.
    + rewrite Forall_forall in I3 |- *. intros x Hx. destruct (I3 x Hx) as (fs' & E & HH). exists fs'. split; [|done].
      rewrite lookup_insert_ne; [done|]. intros Eb. apply (Hnb b); [|by left].
      rewrite <- I1, Eb. apply list_elem_of_fmap_2, list_elem_of_fmap_2, Hx.
    + constructor; [|done]. exists fs. cbn. rewrite Esb, lookup_insert_eq, Hfl. done.
  - by eapply chain_transfer.
  - constructor; cbn; [done|by rewrite (sh_size _ _ _ Hh)|done|]. intros _.
    unfold files_of. cbn. rewrite Esb, lookup_insert_eq. cbn.
    split; [|done]. split; cbn; [by rewrite Hfl, recs_bytes_len|by rewrite Hfi, index_bytes_len].
  - apply Forall_impl with (P := fun r => r_offset r < next_after b kept).
    + apply next_after_above. apply Hh.
    + cbn. lia.
  - lia.
  - destruct init as [|x init]; done.
  - intros k fs' Hk' Hlt. rewrite Esb in Hlt. rewrite lookup_insert_ne in Hk' by lia. rewrite Hdir in Hk'; [done|].
    intros Hin. apply list_elem_of_fmap in Hin as (g & -> & Hg). rewrite Forall_forall in Hbd.
    destruct (Hbd g Hg). lia.
Qed.
End OpenSpec.

(** ** Properties *)

Section RecoverClaims.
Context `{Crc32}.

(** A log file cut at an arbitrary byte [n] (a crash in the middle of a
    write) scans to exactly the records that lie wholly below the cut: the valid
    length ends after the last of them, the next offset follows it, the rebuilt
    sparse index is sorted and points at record starts, the timestamp range covers
    them, and the scan reports damage exactly when something was cut off.  Records
    must fit the 256 KiB scan window. *)
Theorem scan_full_after_cut rs base n :
  Forall record_ok rs -> offsets_sorted rs -> Forall (fun r => base <= r_offset r) rs ->
  Forall (fun r => record_size r <= READ_WINDOW_BYTES) rs -> 0 <= n <= recs_size rs ->
  let sc := scan_full (take (Z.to_nat n) (recs_bytes rs)) base in
  let kept := fit n rs in
  sc_valid_bytes sc = recs_size kept /\ sc_next_offset sc = next_after base kept /\
  sc_damaged sc = (recs_size kept <? n) /\
  index_sorted (sc_entries sc) /\ index_points base (sc_entries sc) kept /\
  Forall (fun r => sc_min_ts sc <= r_timestamp_ms r <= sc_max_ts sc) kept.
Proof.
  intros Hok Ho Hb Hw Hn. cbv zeta. destruct (cut_recs n rs Hok Hn) as (tail & E & Ht & Hl).
  destruct (fit_prefix n rs) as [rest Er]. rewrite Er in Hok, Ho, Hb, Hw.
  apply Forall_app in Hok as [Hok _]. apply offsets_sorted_app in Ho as (Ho & _).
  apply Forall_app in Hb as [Hb _]. apply Forall_app in Hw as [Hw _].
  destruct (scan_full_spec _ (fit n rs) tail base E Ht Hok Ho Hb Hw) as [[lip []] Hd].
  split_and!; try done. rewrite Hd. len_facts.
  destruct (len tail =? 0) eqn:E0, (recs_size (fit n rs) <? n) eqn:E1; boolp; cbn; done || lia.
Qed.

(** The shortcut for sealed segments is sound.  When the scan of a whole
    sealed segment accepts the segment's index, it reports the same valid length,
    next offset and absence of damage as the full scan, and the (thinned) index it
    returns is sorted and points at record starts. *)
Theorem scan_trusted_agrees_with_full base rs log index idx sc :
  sealed_files base rs log index idx -> scan_sealed_trusted log (Some index) base = Some sc ->
  let full := scan_full log base in
  sc_valid_bytes sc = sc_valid_bytes full /\ sc_next_offset sc = sc_next_offset full /\
  sc_damaged sc = false /\ sc_damaged full = false /\
  index_sorted (sc_entries sc) /\ index_points base (sc_entries sc) rs.
Proof.
  intros Hs Ht. cbv zeta. destruct (scan_trusted_spec _ _ _ _ _ _ Hs Ht) as (E1 & E2 & E3 & E4 & E5 & _ & _).
  pose proof Hs as [Hl Hok Ho Hb Hw _ _ _ _].
  destruct (scan_full_spec log rs [] base) as [[lip []] Hd]; rewrite ?app_nil_r; try done; [by left|].
  rewrite E3, E4, sv_next0, sv_valid0, Hd. done.
Qed.

(** C5: opening a partition after a crash recovers its log.  From a directory
    whose sealed segments are whole and whose active log was cut at any byte [n]
    (its index in any state), [Partition::open] builds a partition that satisfies
    the invariant, holds every sealed record and exactly the active records that
    lie below the cut, and continues at the offset after them; in particular every
    record an fsync had covered ([recs_size pre <= n]) survives. *)
Theorem partition_open_recovers_log d gs b rs n sb fl :
  disk_holds d gs b rs n ->
  let p := partition_open d sb fl in
  exists init s, part_wf p init s (fit n rs) /\ s_base_offset s <= p_next_offset p /\
    log_of init (fit n rs) = concat gs.*2 ++ fit n rs /\
    p_next_offset p = next_after b (fit n rs) /\ p_poisoned p = false /\
    forall pre post, rs = pre ++ post -> recs_size pre <= n -> pre `prefix_of` fit n rs.
Proof.
  intros Hd. cbv zeta. destruct (partition_open_spec d gs b rs n sb fl Hd) as (init & s & Hw & E2 & Eb & Hn & Hp & Hle).
  exists init, s. split_and!; try done.
  - unfold log_of. by rewrite E2.
  - intros pre post -> Hsz. by apply fit_keeps.
Qed.
End RecoverClaims.

(** ** Witnesses *)

Section RecoverWitnesses.
#[local] Existing Instance crc32_ieee_class.

Lemma sample_records_facts :
  Forall record_ok sample_records /\ offsets_sorted sample_records /\
  Forall (fun r => 5 <= r_offset r) sample_records /\
  Forall (fun r => record_size r <= READ_WINDOW_BYTES) sample_records.
Proof. split_and!; repeat constructor; vm_compute; congruence. Qed.

Lemma scan_full_after_cut_witness :
  sc_valid_bytes (scan_full (take (Z.to_nat 70) (recs_bytes sample_records)) 5) = recs_size (fit 70 sample_records) /\
  r_offset <$> fit 70 sample_records = [5; 6].
Proof.
  split; [|vm_compute; reflexivity]. destruct sample_records_facts as (H1 & H2 & H3 & H4).
  assert (0 <= 70 <= recs_size sample_records) as Hn by (split; vm_compute; congruence).
  exact (proj1 (scan_full_after_cut sample_records 5 70 H1 H2 H3 H4 Hn)).
Defined.

Definition sample_index : list (Z * Z) := [(0, 0); (1, 33)].

Lemma sample_sealed_files :
  sealed_files 5 sample_records (recs_bytes sample_records) (index_bytes sample_index) sample_index.
Proof.
  destruct sample_records_facts as (H1 & H2 & H3 & H4). constructor; try done.
  - repeat constructor; vm_compute; congruence.
  - repeat constructor.
  - constructor; [|constructor; [|constructor]].
    + by exists [], (mkRecord 5 10 None [x01]), [mkRecord 6 11 (Some [x6b]) [x02]; mkRecord 9 12 None []].
    + by exists [mkRecord 5 10 None [x01]], (mkRecord 6 11 (Some [x6b]) [x02]), [mkRecord 9 12 None []].
Qed.

Lemma scan_trusted_agrees_with_full_witness :
  exists sc, scan_sealed_trusted (recs_bytes sample_records) (Some (index_bytes sample_index)) 5 = Some sc /\
    sc_next_offset sc = sc_next_offset (scan_full (recs_bytes sample_records) 5) /\ sc_next_offset sc = 10.
Proof.
  destruct (scan_sealed_trusted (recs_bytes sample_records) (Some (index_bytes sample_index)) 5) as [sc|] eqn:E;
    [|exfalso; vm_compute in E; discriminate].
  exists sc. split; [reflexivity|].
  split; [|vm_compute in E; injection E as <-; reflexivity].
  exact (proj1 (proj2 (scan_trusted_agrees_with_full _ _ _ _ _ _ sample_sealed_files E))).
Defined.

Definition sample_disk : disk :=
  mkDisk {[ 5 := recs_bytes sample_records; 12 := take 40 (recs_bytes [mkRecord 12 13 None []; mkRecord 13 14 None []]) ]}
    {[ 5 := index_bytes sample_index ]} ∅ ∅ None.

Lemma sample_disk_holds :
  disk_holds sample_disk [(5, sample_records)] 12 [mkRecord 12 13 None []; mkRecord 13 14 None []] 40.
Proof.
  constructor.
  - reflexivity.
  - unfold sample_disk. cbn [d_logs]. rewrite dom_insert, dom_singleton. set_solver.
  - cbn. by repeat (apply Forall_cons; split; [lia|]).
  - repeat constructor.
  - repeat constructor; vm_compute; congruence.
  - constructor; [|done]. split_and!; [reflexivity|repeat constructor; vm_compute; congruence|].
    intros ix [= <-]. exists sample_index. exact sample_sealed_files.
  - reflexivity.
  - split; vm_compute; congruence.
Qed.

Lemma partition_open_recovers_log_witness :
  p_next_offset (partition_open sample_disk 100 1) = 13 /\
  exists init s, part_wf (partition_open sample_disk 100 1) init s [mkRecord 12 13 None []].
Proof.
  split; [vm_compute; reflexivity|].
  destruct (partition_open_recovers_log _ _ _ _ _ 100 1 sample_disk_holds) as (init & s & Hw & _).
  exists init, s. exact Hw.
Defined.
End RecoverWitnesses.
