(* ===== verification/Topic.v ===== *)
(** * Topics (crates/es-broker/src/topic.rs)

    Topic configuration (defaults, patches, persisted form), topic names, and the
    routing of a record to a partition. *)

From Stdlib Require Import Ascii String.
From S2P Require Export Bytes.

#[local] Open Scope Z_scope.

Definition MAX_PARTITIONS : Z := 10000.

(** ** Cleanup policy *)

Inductive cleanup_policy : Type := Delete | Compact | CompactDelete.
#[global] Instance cleanup_policy_eq_dec : EqDecision cleanup_policy.
Proof. solve_decision. Defined.

Definition includes_delete (p : cleanup_policy) : bool :=
  match p with Delete | CompactDelete => true | Compact => false end.
Definition includes_compact (p : cleanup_policy) : bool :=
  match p with Compact | CompactDelete => true | Delete => false end.

Definition from_str_opt (s : string) : option cleanup_policy :=
  if String.eqb s "delete" then Some Delete
  else if String.eqb s "compact" then Some Compact
  else if String.eqb s "compact,delete" then Some CompactDelete
  else None.

Definition as_str (p : cleanup_policy) : string :=
  match p with
  | Delete => "delete"
  | Compact => "compact"
  | CompactDelete => "compact,delete"
  end.

(** ** Configuration *)

Record topic_config : Type := mkTopicConfig {
  tc_retention_ms : option Z;
  tc_retention_bytes : option Z;
  tc_cleanup_policy : cleanup_policy;
  tc_segment_bytes : Z;
  tc_tombstone_retention_ms : Z
}.

(** [TopicConfigPatch] of es-protocol; the policy DTO has the same constructors. *)
Record topic_patch : Type := mkPatch {
  tp_retention_ms : option Z;
  tp_retention_bytes : option Z;
  tp_cleanup_policy : option cleanup_policy;
  tp_segment_bytes : option Z;
  tp_tombstone_retention_ms : option Z
}.

(** [PersistedTopicConfig], without its raft field. *)
Record persisted_config : Type := mkPersisted {
  pc_retention_ms : option Z;
  pc_retention_bytes : option Z;
  pc_cleanup_policy : option string;
  pc_segment_bytes : option Z;
  pc_tombstone_retention_ms : option Z
}.

(** The defaults of the broker's [Config]. *)
Record broker_defaults : Type := mkDefaults {
  bd_retention_ms : option Z;
  bd_retention_bytes : option Z;
  bd_cleanup_policy : cleanup_policy;
  bd_segment_bytes : Z;
  bd_tombstone_retention_ms : Z
}.

Definition or_else {A} (a b : option A) : option A := match a with Some _ => a | None => b end.

Definition from_patch (p : topic_patch) : persisted_config :=
  mkPersisted (tp_retention_ms p) (tp_retention_bytes p) (as_str <$> tp_cleanup_policy p)
    (tp_segment_bytes p) (tp_tombstone_retention_ms p).

Definition merge_patch (c : persisted_config) (p : topic_patch) : persisted_config :=
  mkPersisted
    (match tp_retention_ms p with Some v => Some v | None => pc_retention_ms c end)
    (match tp_retention_bytes p with Some v => Some v | None => pc_retention_bytes c end)
    (match tp_cleanup_policy p with Some v => Some (as_str v) | None => pc_cleanup_policy c end)
    (match tp_segment_bytes p with Some v => Some v | None => pc_segment_bytes c end)
    (match tp_tombstone_retention_ms p with Some v => Some v | None => pc_tombstone_retention_ms c end).

Definition resolve (c : persisted_config) (broker : broker_defaults) : outcome string topic_config :=
  cleanup ← match pc_cleanup_policy c with
            | None => Ok (bd_cleanup_policy broker)
            | Some s => ok_or ("unknown cleanup_policy '" +:+ s +:+ "'") (from_str_opt s)
            end;
  Ok (mkTopicConfig (or_else (pc_retention_ms c) (bd_retention_ms broker))
        (or_else (pc_retention_bytes c) (bd_retention_bytes broker)) cleanup
        (default (bd_segment_bytes broker) (pc_segment_bytes c))
        (default (bd_tombstone_retention_ms broker) (pc_tombstone_retention_ms c))).

Definition validate_patch (p : topic_patch) : outcome string unit :=
  match tp_segment_bytes p with
  | Some sb =>
    if negb ((128 <=? sb) && (sb <=? Z.shiftl 1 40))
    then Err "segment_bytes must be between 128 bytes and 1 TiB" else Ok tt
  | None => Ok tt
  end.

(** [Topic::update_config]: the persisted and the published configuration. *)
Definition update_config (c : persisted_config) (patch : topic_patch) (broker : broker_defaults)
    : outcome string (persisted_config * topic_config) :=
  _ ← validate_patch patch;
  let new_persisted := merge_patch c patch in
  resolved ← resolve new_persisted broker;
  Ok (new_persisted, resolved).

(** ** Names *)

Definition is_ascii_alphanumeric (c : Ascii.ascii) : bool :=
  let n := Z.of_N (Ascii.N_of_ascii c) in
  ((48 <=? n) && (n <=? 57)) || ((65 <=? n) && (n <=? 90)) || ((97 <=? n) && (n <=? 122)).

Definition topic_char (c : Ascii.ascii) : bool :=
  is_ascii_alphanumeric c || Ascii.eqb c "_"%char || Ascii.eqb c "-"%char || Ascii.eqb c "."%char.

Definition validate_topic_name (name : string) : outcome string unit :=
  if (Z.of_nat (String.length name) =? 0) || (200 <? Z.of_nat (String.length name))
  then Err "topic name length must be 1..=200"
  else if negb (forallb topic_char (String.list_ascii_of_string name))
  then Err "topic name may only contain ASCII alphanumerics, '_', '-', '.'"
  else if String.eqb name "." || String.eqb name ".."
  then Err ("topic name '" +:+ name +:+ "' is reserved")
  else Ok tt.

(** The checks of [Topic::create] before anything is written. *)
Definition create_checks (name : string) (partitions : Z) (patch : option topic_patch) : outcome string unit :=
  if partitions =? 0 then Err "topic must have at least 1 partition" else
  if MAX_PARTITIONS <? partitions then Err "a topic may have at most 10000 partitions" else
  _ ← validate_topic_name name;
  match patch with Some p => validate_patch p | None => Ok tt end.

(** ** Routing *)

Definition fnv1a64 (bytes : list byte) : Z :=
  foldl (fun h b => wrap_u 64 (Z.lxor h (Z_of_byte b) * 0x100000001b3)) 0xcbf29ce484222325 bytes.

(** [Topic::route] on [n] partitions: the partition and the new round-robin
    counter. *)
Definition route (n rr_counter : Z) (key : option (list byte)) (hint : option Z)
    : outcome string Z * Z :=
  match hint with
  | Some h => (if n <=? h then Err "partition out of range" else Ok h, rr_counter)
  | None =>
    match key with
    | Some k => (Ok (fnv1a64 k mod n), rr_counter)
    | None => (Ok (rr_counter mod n), wrap_u 64 (rr_counter + 1))
    end
  end.

(** [k] keyless records routed one after the other. *)
Fixpoint route_many (k : nat) (n rr_counter : Z) : list (outcome string Z) :=
  match k with
  | O => []
  | S k => let (p, c) := route n rr_counter None None in p :: route_many k n c
  end.

(** ** Lemmas *)

Lemma from_str_as_str p : from_str_opt (as_str p) = Some p.
Proof. by destruct p. Qed.

Lemma as_str_from_str s p : from_str_opt s = Some p -> as_str p = s.
Proof.
  unfold from_str_opt. destruct (String.eqb_spec s "delete"); [by intros [= <-]|].
  destruct (String.eqb_spec s "compact"); [by intros [= <-]|].
  destruct (String.eqb_spec s "compact,delete"); [by intros [= <-]|done].
Qed.

(** A persisted policy that [resolve] accepts. *)
Definition persisted_ok (c : persisted_config) : Prop :=
  match pc_cleanup_policy c with Some s => is_Some (from_str_opt s) | None => True end.

Lemma merge_patch_ok c p : persisted_ok c -> persisted_ok (merge_patch c p).
Proof.
  unfold persisted_ok. cbn. destruct (tp_cleanup_policy p) as [q|]; [|done]. intros _.
  rewrite from_str_as_str. by eexists.
Qed.

Lemma route_many_spec k n c :
  0 < n -> 0 <= c -> c + Z.of_nat k < 2 ^ 64 ->
  route_many k n c = (fun i => Ok ((c + Z.of_nat i) mod n)) <$> seq 0 k.
Proof.
  intros Hn. revert c. induction k as [|k IH]; intros c Hc Hk; [done|].
  cbn [route_many route seq fmap list_fmap]. rewrite Z.add_0_r. f_equal.
  unfold wrap_u. rewrite Z.mod_small by lia. rewrite IH by lia.
  rewrite <- fmap_S_seq, <- list_fmap_compose. apply list_fmap_ext. intros i x _. cbn. do 2 f_equal. lia.
Qed.

(** ** Properties *)

(** Routing stays inside the topic.  A record with a partition hint goes to
    that partition or is refused; otherwise it always gets an existing partition,
    and records with the same key always get the same one, whatever was routed in
    between. *)
Theorem route_in_range n c key hint p c' :
  0 < n -> 0 <= c < 2 ^ 64 -> (forall h, hint = Some h -> 0 <= h) ->
  route n c key hint = (Ok p, c') ->
  0 <= p < n /\ 0 <= c' < 2 ^ 64 /\
  (forall h, hint = Some h -> p = h) /\
  (hint = None -> forall k c2, key = Some k -> (route n c2 (Some k) None).1 = Ok p).
Proof.
  intros Hn Hc Hh. unfold route. destruct hint as [h|].
  { case_if; intros [= <- <-]. specialize (Hh h eq_refl).
    split_and!; [lia|lia|lia|lia| |done]. by intros ? [= ->]. }
  destruct key as [k|]; intros [= <- <-].
  - pose proof (Z.mod_pos_bound (fnv1a64 k) n Hn). split_and!; [lia|lia|lia|lia|done|].
    by intros _ ? ? [= ->].
  - pose proof (Z.mod_pos_bound c n Hn). pose proof (Z.mod_pos_bound (c + 1) (2 ^ 64)).
    unfold wrap_u. split_and!; [lia|lia|lia|lia|done|done].
Qed.

(** Keyless records are spread evenly.  Any [n] consecutive keyless records
    routed on a topic of [n] partitions hit every partition exactly once (the
    counter not wrapping in between). *)
Theorem round_robin_fair n c :
  0 < n -> 0 <= c -> c + n < 2 ^ 64 ->
  Permutation (route_many (Z.to_nat n) n c) ((fun i => Ok (Z.of_nat i)) <$> seq 0 (Z.to_nat n)).
Proof.
  intros Hn Hc Hb. rewrite route_many_spec by lia.
  assert (Permutation ((fun i => (c + Z.of_nat i) mod n) <$> seq 0 (Z.to_nat n))
            (Z.of_nat <$> seq 0 (Z.to_nat n))) as Hp.
  { apply submseteq_length_Permutation; [|by rewrite !length_fmap]. apply NoDup_submseteq.
    - apply NoDup_fmap_2_strong; [|apply NoDup_seq]. intros i j Hi Hj E.
      apply elem_of_seq in Hi. apply elem_of_seq in Hj.
      apply Z.cong_iff_ex in E as [q Hq]. assert (q = 0) as -> by nia. lia.
    - intros x Hx. apply list_elem_of_fmap in Hx as (i & -> & _). apply list_elem_of_fmap.
      pose proof (Z.mod_pos_bound (c + Z.of_nat i) n Hn).
      exists (Z.to_nat ((c + Z.of_nat i) mod n)). split; [lia|]. apply elem_of_seq. lia. }
  apply (fmap_Permutation (fun z => @Ok string Z z)) in Hp. by rewrite <- !list_fmap_compose in Hp.
Qed.

(** Updating a configuration changes exactly the patched fields.  From a
    configuration that resolves, a valid patch is accepted; every patched field has
    the patched value, every other field keeps the value it resolved to before;
    applying the same patch again changes nothing; an invalid segment size leaves
    everything as it was. *)
Theorem update_config_patches_fields c p broker old :
  resolve c broker = Ok old ->
  match update_config c p broker with
  | Ok (c', new) =>
    tc_retention_ms new = or_else (tp_retention_ms p) (tc_retention_ms old) /\
    tc_retention_bytes new = or_else (tp_retention_bytes p) (tc_retention_bytes old) /\
    tc_cleanup_policy new = default (tc_cleanup_policy old) (tp_cleanup_policy p) /\
    tc_segment_bytes new = default (tc_segment_bytes old) (tp_segment_bytes p) /\
    tc_tombstone_retention_ms new = default (tc_tombstone_retention_ms old) (tp_tombstone_retention_ms p) /\
    resolve c' broker = Ok new /\ update_config c' p broker = Ok (c', new)
  | Err _ => exists sb, tp_segment_bytes p = Some sb /\ ~ (128 <= sb <= 2 ^ 40)
  | Panic => False
  end.
Proof.
  intros Ho. unfold update_config.
  assert (validate_patch p = Ok tt \/ exists e sb, validate_patch p = Err e /\
    tp_segment_bytes p = Some sb /\ ~ (128 <= sb <= 2 ^ 40)) as [Hv|(e & sb & Hv & Hs & Hn)].
  { unfold validate_patch. destruct (tp_segment_bytes p) as [sb|]; [|by left].
    change (Z.shiftl 1 40) with (2 ^ 40). destruct ((128 <=? sb) && (sb <=? 2 ^ 40)) eqn:E; cbn; [by left|].
    right. eexists _, sb. split_and!; [done|done|]. apply andb_false_iff in E as [E|E]; boolp; lia. }
  2: { rewrite Hv. cbn. eauto. }
  rewrite Hv. cbn [mbind outcome_bind].
  destruct c as [c1 c2 c3 c4 c5], p as [p1 p2 p3 p4 p5]. unfold resolve, merge_patch in *. cbn in *.
  destruct p3 as [q|]; cbn in *.
  - rewrite from_str_as_str. cbn. rewrite from_str_as_str. cbn.
    destruct c3 as [s|]; cbn in *; [destruct (from_str_opt s); cbn in *; [|done]|]; injection Ho as <-; cbn;
      destruct p1, p2, p4, p5, c1, c2, c4, c5; split_and!; reflexivity.
  - destruct c3 as [s|]; cbn in *; [destruct (from_str_opt s) eqn:Es; cbn in *; [|done]|]; injection Ho as <-; cbn;
      rewrite ?Es; destruct p1, p2, p4, p5, c1, c2, c4, c5; split_and!; reflexivity.
Qed.

(** An accepted topic name is a plain file name: between 1 and 200 ASCII
    letters, digits, [_], [-] and [.], not [.] or [..], so joining it to the data
    directory cannot leave that directory, and it never starts with the [~] of the
    staging directories. *)
Theorem topic_name_safe name :
  validate_topic_name name = Ok tt ->
  (1 <= String.length name <= 200)%nat /\ name <> "." /\ name <> ".." /\
  Forall (fun c => c <> "/"%char /\ c <> "~"%char /\ c <> Ascii.zero) (String.list_ascii_of_string name).
Proof.
  unfold validate_topic_name. intros Hv. case_if_in Hv; [done|]. apply orb_false_iff in Heqb as [H1 H2]. boolp.
  case_if_in Hv; [done|]. case_if_in Hv; [done|]. apply orb_false_iff in Heqb0 as [H3 H4].
  apply String.eqb_neq in H3, H4. split_and!; [lia|lia|done|done|].
  apply Forall_forall. intros c Hc. rewrite List.forallb_forall in Heqb.
  apply list_elem_of_In in Hc. specialize (Heqb c Hc). split_and!; intros ->; discriminate.
Qed.

(** ** Witnesses *)

Lemma route_in_range_witness : 0 <= fnv1a64 [x61] mod 5 < 5.
Proof.
  apply (route_in_range 5 7 (Some [x61]) None (fnv1a64 [x61] mod 5) 7); [lia|lia|done|reflexivity].
Defined.

Lemma round_robin_fair_witness :
  Permutation (route_many 3 3 10) ((fun i => Ok (Z.of_nat i)) <$> seq 0 3).
Proof. apply (round_robin_fair 3 10); lia. Defined.

Lemma update_config_patches_fields_witness :
  let broker := mkDefaults (Some 1000) None Delete 4096 60 in
  let c := mkPersisted None None (Some "compact") None None in
  exists c' new,
    update_config c (mkPatch None (Some 5) None (Some 256) None) broker = Ok (c', new) /\
    tc_cleanup_policy new = Compact /\ tc_segment_bytes new = 256.
Proof.
  intros broker c.
  pose proof (update_config_patches_fields c (mkPatch None (Some 5) None (Some 256) None) broker
    (mkTopicConfig (Some 1000) None Compact 4096 60) eq_refl) as Hu.
  destruct (update_config _ _ _) as [[c' new]| |] eqn:E; [|discriminate E..].
  exists c', new. split; [reflexivity|]. split; apply Hu.
Defined.

Lemma topic_name_safe_witness : ("events.v1" <> "." /\ validate_topic_name "../etc" <> Ok tt)%string.
Proof. split; [apply (topic_name_safe "events.v1"); reflexivity|discriminate]. Defined.
