(* ===== verification/Retention.v ===== *)
(** * Retention (crates/es-broker/src/retention.rs)

    The choice of sealed segments to delete, by age and by size, and a retention
    pass over one partition.  The cold store is a parameter of the pass. *)

From S2P Require Export Topic PartitionSpec.

#[local] Open Scope Z_scope.

Section Retention.
Context `{Crc32}.

(** The time-based victims. *)
Definition time_victims (sealed : list segment) (cutoff : Z) : list Z :=
  s_base_offset <$> filter (fun s => s_max_timestamp_ms s <> I64_MIN /\ s_max_timestamp_ms s < cutoff) sealed.

(** The size-based loop, oldest segment first. *)
Fixpoint size_victims (sealed : list segment) (victims : list Z) (over : Z) : list Z :=
  match sealed with
  | [] => victims
  | s :: rest =>
    if decide (s_base_offset s ∈ victims)
    then size_victims rest victims (sat_sub_u64 over (s_size_bytes s))
    else if over =? 0 then victims
    else size_victims rest (victims ++ [s_base_offset s]) (sat_sub_u64 over (s_size_bytes s))
  end.

Definition total_size (segs : list segment) : Z := foldr (fun s n => s_size_bytes s + n) 0 segs.

Definition plan_victims (snapshot : list segment) (config : topic_config) (now : Z) : list Z :=
  if len snapshot <=? 1 then [] else
  match last snapshot with
  | None => []
  | Some active =>
    let active_base := s_base_offset active in
    let sealed := filter (fun s => s_base_offset s < active_base) snapshot in
    match sealed with
    | [] => []
    | _ =>
      let victims :=
        match tc_retention_ms config with
        | Some retention_ms => time_victims sealed (sat_sub_i64 now (wrap_i 64 retention_ms))
        | None => []
        end in
      let victims :=
        match tc_retention_bytes config with
        | Some retention_bytes =>
          let total := total_size snapshot in
          if retention_bytes <? total then size_victims sealed victims (total - retention_bytes)
          else victims
        | None => victims
        end in
      sort_dedup victims
    end
  end.

(** What [run_pass] does to one partition.  [offload] is [offload_victims]: of the
    victims, those that may be deleted, and the cold store afterwards. *)
Definition retention_pass {S} (offload : S -> list Z -> list Z * S) (store : S) (p : partition)
    (config : topic_config) (now : Z) (cancelled : bool) : Z * partition * S :=
  if negb (includes_delete (tc_cleanup_policy config)) then (0, p, store) else
  match tc_retention_ms config, tc_retention_bytes config with
  | None, None => (0, p, store)
  | _, _ =>
    match plan_victims (p_segments p) config now with
    | [] => (0, p, store)
    | victims =>
      let (deletable, store) := offload store victims in
      match deletable with
      | [] => (0, p, store)
      | _ => (drop_sealed_segments p deletable cancelled, store)
      end
    end
  end.

(** ** Lemmas *)

Lemma sealed_filter init s :
  Forall (fun g : segment => s_base_offset g < s_base_offset s) init ->
  filter (fun g => s_base_offset g < s_base_offset s) (init ++ [s]) = init.
Proof. intros Hlt. apply filter_split; [done|]. constructor; [lia|done]. Qed.

Lemma plan_victims_nodup segs config now : NoDup (plan_victims segs config now).
Proof.
  unfold plan_victims. destruct (_ <=? 1); [constructor|]. destruct (last _); [|constructor].
  destruct (filter _ _); [constructor|apply sort_dedup_nodup].
Qed.

(** A pass does nothing, or offloads its victims and drops those it may. *)
Lemma retention_pass_cases {S} (offload : S -> list Z -> list Z * S) store p config now cancelled :
  retention_pass offload store p config now cancelled = (0, p, store) \/
  let (deletable, store') := offload store (plan_victims (p_segments p) config now) in
  retention_pass offload store p config now cancelled = (0, p, store') \/
  retention_pass offload store p config now cancelled = (drop_sealed_segments p deletable cancelled, store').
Proof.
  unfold retention_pass. destruct (negb _); [by left|].
  destruct (plan_victims _ _ _) as [|v vs].
  { left. by destruct (tc_retention_ms config), (tc_retention_bytes config). }
  destruct (tc_retention_ms config), (tc_retention_bytes config); [right..|by left];
    destruct (offload store (v :: vs)) as [[|d ds] st]; auto.
Qed.

(** The plan on a well-formed snapshot. *)
Lemma plan_victims_eq init s config now :
  Forall (fun g => s_base_offset g < s_base_offset s) init ->
  forall b, b ∈ plan_victims (init ++ [s]) config now <->
    b ∈ (let tv := match tc_retention_ms config with
                   | Some ms => time_victims init (sat_sub_i64 now (wrap_i 64 ms)) | None => [] end in
         match tc_retention_bytes config with
         | Some rb => if rb <? total_size (init ++ [s])
                      then size_victims init tv (total_size (init ++ [s]) - rb) else tv
         | None => tv
         end).
Proof.
  intros Hlt b. unfold plan_victims. rewrite last_snoc, sealed_filter by done.
  destruct init as [|g init].
  { rewrite (proj2 (Z.leb_le _ _)) by (rewrite len_app; len_nils; unfold len; cbn; lia).
    cbn. destruct (tc_retention_ms config), (tc_retention_bytes config); cbn; try done; by case_if. }
  rewrite (proj2 (Z.leb_gt _ _)) by (rewrite len_app, len_cons; unfold len; cbn; lia).
  apply sort_dedup_elem.
Qed.

(** The size loop adds segments of the list only, keeps the earlier victims. *)
Lemma size_victims_elem sealed victims over b :
  b ∈ size_victims sealed victims over -> b ∈ victims \/ b ∈ s_base_offset <$> sealed.
Proof.
  revert victims over. induction sealed as [|s rest IH]; intros victims over; cbn; [by left|].
  destruct (decide _); [intros Hb; destruct (IH _ _ Hb); [by left|right; by right]|].
  case_if; [by left|]. intros Hb. destruct (IH _ _ Hb) as [Hv|Hv]; [|right; by right].
  apply elem_of_app in Hv as [Hv|Hv]; [by left|]. apply list_elem_of_singleton in Hv as ->. right. left.
Qed.

Lemma size_victims_keep sealed victims over b : b ∈ victims -> b ∈ size_victims sealed victims over.
Proof.
  revert victims over. induction sealed as [|s rest IH]; intros victims over Hb; cbn; [done|].
  destruct (decide _); [by apply IH|]. case_if; [done|]. apply IH. apply elem_of_app. by left.
Qed.

(** The bytes of the segments that are not victims. *)
Definition kept_size (sealed : list segment) (victims : list Z) : Z :=
  total_size (filter (fun s => s_base_offset s ∉ victims) sealed).

Lemma total_size_cons s l : total_size (s :: l) = s_size_bytes s + total_size l.
Proof. done. Qed.

Lemma total_size_app l k : total_size (l ++ k) = total_size l + total_size k.
Proof. unfold total_size. induction l as [|s l IH]; cbn; [done|]. lia. Qed.

Lemma total_size_filter (P : segment -> Prop) `{!forall x, Decision (P x)} l :
  Forall (fun s => 0 <= s_size_bytes s) l -> 0 <= total_size (filter P l) <= total_size l.
Proof.
  induction 1 as [|s l Hs Hl IH]; [done|].
  rewrite filter_cons. destruct (decide (P s)); rewrite !total_size_cons; lia.
Qed.

(** The loop deletes at least [over] bytes, or everything. *)
Lemma size_victims_enough sealed victims over :
  NoDup (s_base_offset <$> sealed) -> Forall (fun s => 0 <= s_size_bytes s) sealed -> 0 <= over ->
  kept_size sealed (size_victims sealed victims over) <= Z.max 0 (total_size sealed - over) \/
  kept_size sealed (size_victims sealed victims over) = 0.
Proof.
  intros Hnd Hpos. revert victims over. induction sealed as [|s rest IH]; intros victims over Hover; [by right|].
  cbn in Hnd. apply NoDup_cons in Hnd as [Hni Hnd]. apply Forall_cons in Hpos as [Hs Hpos].
  cbn [size_victims]. unfold kept_size. rewrite filter_cons.
  assert (forall vs o, 0 <= o -> (exists v, o = sat_sub_u64 v (s_size_bytes s) /\ over <= v) ->
    s_base_offset s ∈ vs ->
    total_size (if decide (s_base_offset s ∉ size_victims rest vs o)
                then s :: filter (fun s => s_base_offset s ∉ size_victims rest vs o) rest
                else filter (fun s => s_base_offset s ∉ size_victims rest vs o) rest) <=
      Z.max 0 (total_size (s :: rest) - over) \/
    total_size (if decide (s_base_offset s ∉ size_victims rest vs o)
                then s :: filter (fun s => s_base_offset s ∉ size_victims rest vs o) rest
                else filter (fun s => s_base_offset s ∉ size_victims rest vs o) rest) = 0) as Hgen.
  { intros vs o Ho (v & Eo & Hv) Hin. rewrite decide_False by (intros Hx; by apply Hx, size_victims_keep).
    destruct (IH Hnd Hpos vs o Ho) as [Hk|Hk]; [left|by right].
    unfold kept_size in Hk. rewrite total_size_cons. unfold sat_sub_u64 in Eo. lia. }
  destruct (decide (s_base_offset s ∈ victims)) as [Hv|Hv].
  - apply Hgen; [unfold sat_sub_u64; lia|exists over; lia|done].
  - case_if.
    + left. subst over. rewrite decide_True by done.
      pose proof (total_size_filter (fun s => s_base_offset s ∉ victims) rest Hpos).
      rewrite !total_size_cons. lia.
    + apply Hgen; [unfold sat_sub_u64; lia|exists over; lia|]. apply elem_of_app. right. left.
Qed.
End Retention.

(** ** Properties *)

Section RetentionClaims.
Context `{Crc32}.

Lemma segs_bases_lt init s rs p :
  part_wf p init s rs -> Forall (fun g => s_base_offset g < s_base_offset s) init.*1.
Proof. intros Hw. apply Forall_fmap. apply (sealed_below init s rs), Hw. Qed.

Lemma seg_sizes_nonneg dir (gs : list (segment * list record)) :
  Forall (seg_wf dir) gs -> Forall (fun s => 0 <= s_size_bytes s) gs.*1.
Proof.
  intros Hw. apply Forall_fmap. eapply Forall_impl; [exact Hw|]. intros g (fs & _ & Hh & _). cbn.
  rewrite (sh_size _ _ _ Hh). apply recs_size_nonneg.
Qed.

Lemma chain_bases_nodup gs : StronglySorted seg_before gs -> NoDup (s_base_offset <$> gs.*1).
Proof.
  induction 1 as [|g gs Hs IH Hg]; cbn; constructor; [|done].
  intros Hin. apply list_elem_of_fmap in Hin as (x & E & Hx). apply list_elem_of_fmap in Hx as (y & -> & Hy).
  rewrite Forall_forall in Hg. destruct (Hg y Hy). cbn in *. lia.
Qed.

(** Age-based retention deletes old segments only.  With a retention time
    below 2^63 ms and no size limit, a segment is chosen exactly when it is sealed
    and its newest timestamp is older than the cutoff; every record of a chosen
    segment (timestamped below [i64::MAX]) is older than the cutoff, and the active
    segment is never chosen. *)
Theorem retention_time_correct p init s rs config ms now b :
  part_wf p init s rs -> tc_retention_ms config = Some ms -> tc_retention_bytes config = None ->
  0 <= ms < 2 ^ 63 -> 0 <= now <= I64_MAX ->
  (b ∈ plan_victims (p_segments p) config now <->
   exists g, g ∈ init /\ s_base_offset g.1 = b /\ s_max_timestamp_ms g.1 <> I64_MIN /\
     s_max_timestamp_ms g.1 < now - ms) /\
  (b ∈ plan_victims (p_segments p) config now ->
   b <> s_base_offset s /\
   forall g r, g ∈ init -> s_base_offset g.1 = b -> r ∈ g.2 -> r_timestamp_ms r < I64_MAX ->
     r_timestamp_ms r < now - ms).
Proof.
  intros Hw Ems Erb Hms Hnow. rewrite (pw_segs _ _ _ _ Hw).
  pose proof (segs_bases_lt _ _ _ _ Hw) as Hlt.
  assert (sat_sub_i64 now (wrap_i 64 ms) = now - ms) as Ecut.
  { unfold sat_sub_i64, wrap_i. change (64 - 1) with 63.
    rewrite (Z.mod_small (ms + 2 ^ 63)) by lia. unfold I64_MAX, I64_MIN in *. lia. }
  assert (b ∈ plan_victims (init.*1 ++ [s]) config now <->
    exists g, g ∈ init /\ s_base_offset g.1 = b /\ s_max_timestamp_ms g.1 <> I64_MIN /\
      s_max_timestamp_ms g.1 < now - ms) as Hiff.
  { rewrite plan_victims_eq by done. rewrite Ems, Erb, Ecut. cbv zeta. unfold time_victims.
    rewrite list_elem_of_fmap. split.
    - intros (x & -> & Hx). apply list_elem_of_filter in Hx as [Hx Hin].
      apply list_elem_of_fmap in Hin as (g & -> & Hg). exists g. tauto.
    - intros (g & Hg & <- & H1 & H2). exists g.1. split; [done|]. apply list_elem_of_filter.
      split; [done|]. by apply list_elem_of_fmap_2. }
  split; [done|]. intros Hv. apply Hiff in Hv as (g & Hg & <- & H1 & H2).
  apply Forall_fmap in Hlt. rewrite Forall_forall in Hlt. pose proof (Hlt g Hg) as Hg'. cbn in Hg'. split; [lia|].
  intros g' r Hg2 Eb Hr Hts. pose proof (chain_bases_nodup _ (pw_chain _ _ _ _ Hw)) as Hnd.
  assert (g' = g) as ->.
  { apply list_elem_of_lookup in Hg as [i Hi]. apply list_elem_of_lookup in Hg2 as [j Hj].
    assert (i = j) as ->; [|congruence]. rewrite !fmap_app in Hnd. apply NoDup_app in Hnd as (Hnd & _ & _).
    eapply NoDup_lookup; [exact Hnd| |]; rewrite !list_lookup_fmap; [rewrite Hi|rewrite Hj]; cbn; [done|by rewrite Eb]. }
  pose proof (pw_holds _ _ _ _ Hw) as Hh. apply Forall_app in Hh as [Hh _]. rewrite Forall_forall in Hh.
  destruct (Hh g Hg) as (fs & _ & _ & Hst & _). unfold seg_ts in Hst. rewrite Forall_forall in Hst.
  specialize (Hst r Hr Hts). lia.
Qed.

(** Size-based retention meets its budget.  With only a size limit, after
    the chosen segments are dropped either the partition holds at most
    [retention_bytes], or the active segment is all that is left, and nothing is
    chosen while the partition is within the budget. *)
Theorem retention_size_correct p init s rs config rb now :
  part_wf p init s rs -> tc_retention_bytes config = Some rb -> 0 <= rb ->
  let victims := plan_victims (p_segments p) config now in
  let left_ := filter (fun g => s_base_offset g ∉ victims) (p_segments p) in
  (total_size left_ <= rb \/ total_size left_ = s_size_bytes s) /\
  (total_size (p_segments p) <= rb -> tc_retention_ms config = None -> victims = []).
Proof.
  intros Hw Erb Hrb. cbv zeta. rewrite (pw_segs _ _ _ _ Hw).
  pose proof (segs_bases_lt _ _ _ _ Hw) as Hlt.
  pose proof (seg_sizes_nonneg _ _ (pw_holds _ _ _ _ Hw)) as Hpos. rewrite fmap_app in Hpos.
  pose proof (chain_bases_nodup _ (pw_chain _ _ _ _ Hw)) as Hnd. rewrite !fmap_app in Hnd.
  apply NoDup_app in Hnd as (Hnd & _ & _). apply Forall_app in Hpos as [Hpos Hs].
  apply Forall_cons in Hs as [Hs _]. cbn in Hs.
  pose proof (plan_victims_eq init.*1 s config now Hlt) as Hv. rewrite Erb in Hv. cbv zeta in Hv.
  set (tv := match tc_retention_ms config with Some ms => _ | None => _ end) in Hv.
  set (vs := plan_victims _ _ _) in *.
  split.
  - rewrite filter_app, total_size_app, filter_cons, filter_nil.
    destruct (rb <? total_size (init.*1 ++ [s])) eqn:E; boolp.
    + assert (s_base_offset s ∉ vs) as Hns.
      { rewrite Hv. intros Hin. apply size_victims_elem in Hin as [Hin|Hin].
        - subst tv. destruct (tc_retention_ms config); [|by apply not_elem_of_nil in Hin].
          unfold time_victims in Hin. apply list_elem_of_fmap in Hin as (x & Ex & Hx).
          apply list_elem_of_filter in Hx as [_ Hx]. rewrite Forall_forall in Hlt. specialize (Hlt x Hx). lia.
        - apply list_elem_of_fmap in Hin as (x & Ex & Hx). rewrite Forall_forall in Hlt. specialize (Hlt x Hx). lia. }
      rewrite decide_True by done. rewrite total_size_cons.
      assert (filter (fun g => s_base_offset g ∉ vs) init.*1 =
        filter (fun g => s_base_offset g ∉ size_victims init.*1 tv (total_size (init.*1 ++ [s]) - rb)) init.*1) as ->.
      { apply list_filter_iff. intros x. by rewrite Hv. }
      rewrite total_size_app, total_size_cons in E. change (total_size []) with 0 in *.
      pose proof (total_size_filter (fun g => s_base_offset g ∉
        size_victims init.*1 tv (total_size (init.*1 ++ [s]) - rb)) init.*1 Hpos) as Hk0.
      assert (0 <= total_size (init.*1 ++ [s]) - rb) as Hov
        by (rewrite total_size_app, total_size_cons; change (total_size []) with 0; lia).
      destruct (size_victims_enough init.*1 tv (total_size (init.*1 ++ [s]) - rb) Hnd Hpos Hov) as [Hk|Hk];
        unfold kept_size in Hk; rewrite total_size_app, total_size_cons in *; change (total_size []) with 0 in *; lia.
    + left. rewrite total_size_app, total_size_cons in E. change (total_size []) with 0 in *.
      pose proof (total_size_filter (fun g => s_base_offset g ∉ vs) init.*1 Hpos).
      destruct (decide _); rewrite ?total_size_cons; change (total_size []) with 0; lia.
  - intros Htot Ems. subst tv. rewrite Ems in Hv. rewrite (proj2 (Z.ltb_ge _ _)) in Hv by done.
    destruct vs as [|v vs']; [done|]. exfalso. apply (not_elem_of_nil v). apply Hv. left.
Qed.

(** A retention time of 2^63 ms or more deletes everything that is sealed.
    The value is reinterpreted as a negative [i64], the cutoff lands in the future,
    and every sealed segment with a timestamp up to now is chosen. *)
Theorem retention_ms_wraps p init s rs config ms now g :
  part_wf p init s rs -> tc_retention_ms config = Some ms -> tc_retention_bytes config = None ->
  2 ^ 63 <= ms < 2 ^ 64 -> 0 <= now < I64_MAX -> g ∈ init ->
  I64_MIN < s_max_timestamp_ms g.1 <= now ->
  s_base_offset g.1 ∈ plan_victims (p_segments p) config now.
Proof.
  intros Hw Ems Erb Hms Hnow Hg Hts. rewrite (pw_segs _ _ _ _ Hw).
  rewrite plan_victims_eq by (by eapply segs_bases_lt). rewrite Ems, Erb. cbv zeta. unfold time_victims.
  apply list_elem_of_fmap. exists g.1. split; [done|]. apply list_elem_of_filter.
  split; [|by apply list_elem_of_fmap_2]. split; [lia|].
  assert (now < sat_sub_i64 now (wrap_i 64 ms)); [|lia].
  unfold sat_sub_i64, wrap_i. change (64 - 1) with 63.
  replace (ms + 2 ^ 63) with (ms - 2 ^ 63 + 1 * 2 ^ 64) by lia. rewrite Z.mod_add by lia.
  rewrite Z.mod_small by lia. unfold I64_MAX, I64_MIN in *. lia.
Qed.
End RetentionClaims.

(** ** Witnesses *)

Section RetentionWitnesses.
#[local] Existing Instance crc32_ieee_class.

Definition sample_config (ms rb : option Z) : topic_config := mkTopicConfig ms rb Topic.Delete 60 0.

Lemma retention_time_correct_witness :
  1 ∈ plan_victims (p_segments sample_partition) (sample_config (Some 93) None) 100 /\ 1 <> 4.
Proof.
  assert (1 ∈ plan_victims (p_segments sample_partition) (sample_config (Some 93) None) 100) as Hin
    by (vm_compute; right; left).
  split; [exact Hin|]. destruct sample_partition_wf as (init & s & rs & Hw & Hb & Hl).
  assert (s_base_offset s = 4) as <-.
  { pose proof (pw_segs _ _ _ _ Hw) as Hs. apply (f_equal last) in Hs. rewrite last_snoc in Hs.
    apply (f_equal (fmap s_base_offset)) in Hs. vm_compute in Hs. by injection Hs. }
  apply (retention_time_correct sample_partition init s rs (sample_config (Some 93) None) 93 100 1 Hw eq_refl eq_refl
    ltac:(lia) ltac:(unfold I64_MAX; lia)). exact Hin.
Defined.

Lemma retention_size_correct_witness :
  exists n, total_size (filter (fun g => s_base_offset g ∉ plan_victims (p_segments sample_partition)
    (sample_config None (Some 70)) 100) (p_segments sample_partition)) = n /\ n <= 70.
Proof.
  destruct sample_partition_wf as (init & s & rs & Hw & Hb & Hl).
  destruct (retention_size_correct sample_partition init s rs (sample_config None (Some 70)) 70 100 Hw eq_refl ltac:(lia)) as [Hx _].
  eexists. split; [reflexivity|]. destruct Hx as [Hx|Hx]; [exact Hx|].
  vm_compute. congruence.
Defined.

Lemma retention_ms_wraps_witness :
  0 ∈ plan_victims (p_segments sample_partition) (sample_config (Some (2 ^ 64 - 1)) None) 100.
Proof.
  destruct sample_partition_wf as (init & s & rs & Hw & Hb & Hl).
  pose proof (pw_segs _ _ _ _ Hw) as Hs. destruct init as [|g init]; [vm_compute in Hs; discriminate|].
  assert (s_base_offset g.1 = 0 /\ s_max_timestamp_ms g.1 = 5) as [E1 E2].
  { cbn in Hs. assert (head (p_segments sample_partition) = Some g.1) as Hh by (by rewrite Hs).
    assert (head (p_segments sample_partition) = Some (mkSegment 0 34 [(0, 0)] 5 5)) as Hv by (vm_compute; reflexivity).
    rewrite Hv in Hh. injection Hh as Hh. rewrite <- Hh. split; reflexivity. }
  rewrite <- E1 at 1.
  apply (retention_ms_wraps sample_partition (g :: init) s rs (sample_config (Some (2 ^ 64 - 1)) None) (2 ^ 64 - 1) 100 g Hw
    eq_refl eq_refl).
  - lia.
  - unfold I64_MAX. lia.
  - left.
  - rewrite E2. unfold I64_MIN. lia.
Defined.
End RetentionWitnesses.
