(* ===== verification/Compaction.v ===== *)
(** * Compaction (crates/es-broker/src/compaction.rs)

    Key-based compaction of the sealed segments: the newest offset per key, the
    copy of the survivors, the swap under the appender lock, and the sequence of
    directory changes that a crash can interrupt. *)

From S2P Require Export Topic RecoverSpec.

#[local] Open Scope Z_scope.

#[global] Instance segment_eq_dec : EqDecision segment.
Proof. solve_decision. Defined.

Section Compact.
Context `{Crc32}.

(** [for_each_record]: every record of a segment, or an error. *)
Fixpoint records_loop (fuel : nat) (c : cursor) (out : list record) : outcome decode_error (list record) :=
  match fuel with
  | O => Panic
  | S fuel =>
    match next_record c with
    | (Ok (Some r), c) => records_loop fuel c (out ++ [r])
    | (Ok None, _) => Ok out
    | (Err Eof, _) => Ok out
    | (Err e, _) => Err e
    | (Panic, _) => Panic
    end
  end.

Definition segment_records (file : list byte) (s : segment) : outcome decode_error (list record) :=
  records_loop (S (length file)) (cursor_new file 0 (s_size_bytes s) READ_WINDOW_BYTES) [].

(** The records of all the sealed segments, in order. *)
Fixpoint sealed_records (p : partition) (sealed : list segment) : outcome decode_error (list record) :=
  match sealed with
  | [] => Ok []
  | s :: rest =>
    rs ← segment_records (f_log (files_of p (s_base_offset s))) s;
    rss ← sealed_records p rest;
    Ok (rs ++ rss)
  end.

(** [Latest]: the offset of the newest record of a key, and whether it is a
    tombstone to drop. *)
Record latest : Type := mkLatest { l_offset : Z; l_drop : bool }.

(** Pass 1 on one record. *)
Definition note_latest (cutoff : Z) (m : gmap (list byte) latest) (r : record) : gmap (list byte) latest :=
  match r_key r with
  | None => m
  | Some k =>
    let drop_ := (len (r_value r) =? 0) && (r_timestamp_ms r <? cutoff) in
    match m !! k with
    | Some l => if r_offset r <? l_offset l then m else <[k := mkLatest (r_offset r) drop_]> m
    | None => <[k := mkLatest (r_offset r) drop_]> m
    end
  end.

Definition latest_map (cutoff : Z) (rs : list record) : gmap (list byte) latest :=
  foldl (note_latest cutoff) ∅ rs.

(** The number of records pass 1 expects to keep. *)
Definition kept_count (m : gmap (list byte) latest) (rs : list record) : Z :=
  len (filter (fun r => r_key r = None) rs) +
  len (filter (fun kl : list byte * latest => l_drop kl.2 = false) (map_to_list m)).

Definition keep_record (m : gmap (list byte) latest) (r : record) : bool :=
  match r_key r with
  | None => true
  | Some k => match m !! k with
              | Some l => (l_offset l =? r_offset r) && negb (l_drop l)
              | None => false
              end
  end.

(** The output of [write_survivors]. *)
Record survivors : Type := mkSurvivors {
  v_log : list byte;
  v_entries : list (Z * Z);
  v_last_indexed : option Z;
  v_min_ts : Z;
  v_max_ts : Z
}.

Definition survivors_empty : survivors := mkSurvivors [] [] None I64_MAX I64_MIN.

Definition write_one (m : gmap (list byte) latest) (base_offset : Z) (v : survivors) (r : record)
    : outcome string survivors :=
  if negb (keep_record m r) then Ok v else
  if r_offset r <? base_offset then Err "compaction emit has offset below base_offset" else
  let file_pos := len (v_log v) in
  let log := (encode_record (v_log v) (r_offset r) (r_timestamp_ms r) (r_key r) (r_value r)).1 in
  let indexed := match v_last_indexed v with
                 | None => true
                 | Some p => p + INDEX_INTERVAL_BYTES <=? file_pos
                 end in
  Ok (mkSurvivors log
        (if indexed then v_entries v ++ [(r_offset r - base_offset, file_pos)] else v_entries v)
        (if indexed then Some file_pos else v_last_indexed v)
        (Z.min (v_min_ts v) (r_timestamp_ms r)) (Z.max (v_max_ts v) (r_timestamp_ms r))).

Definition write_survivors (m : gmap (list byte) latest) (base_offset : Z) (rs : list record)
    : outcome string survivors :=
  foldl (fun acc r => v ← acc; write_one m base_offset v r) (Ok survivors_empty) rs.

(** What the two passes decide: nothing to do, an error, or the output. *)
Inductive compact_plan : Type :=
| Nothing
| Unreadable
| Plan (lowest_base : Z) (victims : list Z) (out : survivors).

Definition plan_compaction (p : partition) (config : topic_config) (now : Z) : compact_plan :=
  let snapshot := p_segments p in
  if len snapshot <? 2 then Nothing else
  match last snapshot with
  | None => Nothing
  | Some active =>
    let sealed := filter (fun s => s_base_offset s < s_base_offset active) snapshot in
    match sealed with
    | [] => Nothing
    | s0 :: _ =>
      let lowest_base := s_base_offset s0 in
      let cutoff := sat_sub_i64 now (wrap_i 64 (tc_tombstone_retention_ms config)) in
      match sealed_records p sealed with
      | Ok rs =>
        let m := latest_map cutoff rs in
        if len rs - kept_count m rs =? 0 then Nothing else
        match write_survivors m lowest_base rs with
        | Ok out => Plan lowest_base (filter (fun b => b <> lowest_base) (s_base_offset <$> sealed)) out
        | _ => Unreadable
        end
      | _ => Unreadable
      end
    end
  end.

(** The swap under the appender lock: [p0] is the partition the plan was made
    from, [p] the partition at the swap. *)
Definition swap_compacted (p0 p : partition) (lowest_base : Z) (victims : list Z) (out : survivors)
    : option partition :=
  match last (p_segments p0), last (p_segments p) with
  | Some active0, Some active =>
    let sealed0 := filter (fun s => s_base_offset s < s_base_offset active0) (p_segments p0) in
    let sealed := filter (fun s => s_base_offset s < s_base_offset active) (p_segments p) in
    if (s_base_offset active =? s_base_offset active0) && bool_decide (sealed = sealed0) then
      let files := mkFiles (v_log out) (index_bytes (v_entries out)) in
      let dir := foldl (fun d v => delete v d) (<[lowest_base := files]> (p_dir p)) victims in
      let new_seg := segment_open lowest_base (len (v_log out)) (v_entries out) (v_min_ts out) (v_max_ts out) in
      Some (set_segments (with_files p dir (p_appender p)) [new_seg; active])
    else None
  | _, _ => None
  end.

(** [compact_partition] with no change in between. *)
Definition compact_partition (p : partition) (config : topic_config) (now : Z) : partition :=
  match plan_compaction p config now with
  | Plan lowest victims out => default p (swap_compacted p p lowest victims out)
  | _ => p
  end.
End Compact.

(** ** The swap on disk *)

(** The directory changes of one compaction, in order. *)
Inductive disk_op : Type :=
| WriteTmpLog (base : Z) (bytes : list byte)
| WriteTmpIndex (base : Z) (bytes : list byte)
| WriteMarker (m : compaction_marker)
| RenameLog (base : Z)
| RenameIndex (base : Z)
| RemoveLog (base : Z)
| RemoveIndex (base : Z)
| RemoveMarker.

Definition disk_apply (d : disk) (op : disk_op) : disk :=
  match op with
  | WriteTmpLog b l => mkDisk (d_logs d) (d_indexes d) (<[b := l]> (d_tmp_logs d)) (d_tmp_indexes d) (d_marker d)
  | WriteTmpIndex b l => mkDisk (d_logs d) (d_indexes d) (d_tmp_logs d) (<[b := l]> (d_tmp_indexes d)) (d_marker d)
  | WriteMarker m => mkDisk (d_logs d) (d_indexes d) (d_tmp_logs d) (d_tmp_indexes d) (Some (Some m))
  | RenameLog b => mkDisk (rename_over (d_tmp_logs d) (d_logs d) b) (d_indexes d) (delete b (d_tmp_logs d)) (d_tmp_indexes d) (d_marker d)
  | RenameIndex b => mkDisk (d_logs d) (rename_over (d_tmp_indexes d) (d_indexes d) b) (d_tmp_logs d) (delete b (d_tmp_indexes d)) (d_marker d)
  | RemoveLog b => mkDisk (delete b (d_logs d)) (d_indexes d) (d_tmp_logs d) (d_tmp_indexes d) (d_marker d)
  | RemoveIndex b => mkDisk (d_logs d) (delete b (d_indexes d)) (d_tmp_logs d) (d_tmp_indexes d) (d_marker d)
  | RemoveMarker => mkDisk (d_logs d) (d_indexes d) (d_tmp_logs d) (d_tmp_indexes d) None
  end.

Definition disk_run (d : disk) (ops : list disk_op) : disk := foldl disk_apply d ops.

(** The directory changes [compact_partition] makes. *)
Definition compaction_ops (base : Z) (victims : list Z) (log index : list byte) : list disk_op :=
  [WriteTmpLog base log; WriteTmpIndex base index; WriteMarker (mkMarker base victims);
   RenameLog base; RenameIndex base] ++
  (v ← victims; [RemoveLog v; RemoveIndex v]) ++ [RemoveMarker].

(** ** Specification *)

Section CompactSpec.
Context `{Crc32}.

(** The newest record of a key. *)
Definition last_of_key (k : list byte) (rs : list record) : option record :=
  last (filter (fun r => r_key r = Some k) rs).

(** A tombstone old enough to be dropped. *)
Definition droppable (cutoff : Z) (r : record) : bool :=
  (len (r_value r) =? 0) && (r_timestamp_ms r <? cutoff).

(** What compaction keeps: every record without a key, and the newest record of
    each key unless it is an old tombstone. *)
Definition survives (cutoff : Z) (rs : list record) (r : record) : Prop :=
  match r_key r with
  | None => True
  | Some k => last_of_key k rs = Some r /\ droppable cutoff r = false
  end.

Lemma records_loop_spec fuel c rs out :
  cursor_at c rs -> (length rs < fuel)%nat -> records_loop fuel c out = Ok (out ++ rs).
Proof.
  revert rs c out. induction fuel as [|fuel IH]; intros rs c out Hc Hf; [lia|]. cbn [records_loop].
  destruct rs as [|r rs].
  - rewrite (cursor_at_nil _ Hc). by rewrite app_nil_r.
  - destruct (cursor_at_cons _ _ _ Hc) as (c' & -> & Hc'). cbn in Hf. rewrite (IH rs) by (done || lia).
    by rewrite <- app_assoc.
Qed.

Lemma segment_records_spec file s rs :
  seg_holds file s rs -> Forall (fun r => record_size r <= READ_WINDOW_BYTES) rs ->
  segment_records file s = Ok rs.
Proof.
  intros Hh Hw. unfold segment_records. destruct (sh_file _ _ _ Hh) as [tail ->]. rewrite (sh_size _ _ _ Hh).
  rewrite (records_loop_spec _ _ rs); [done| |].
  - split_and!; cbn [c_pos c_file c_limit c_window cursor_new].
    + apply cursor_new_ok; [split; [lia|apply recs_size_nonneg]|]. rewrite len_app, recs_bytes_len. len_lia.
    + by exists tail.
    + lia.
    + apply Hh.
    + eapply Forall_impl; [exact Hw|]. cbn. unfold READ_WINDOW_BYTES. lia.
  - pose proof (recs_size_len rs) as Hl. rewrite <- recs_bytes_len in Hl. rewrite length_app. unfold len in Hl. lia.
Qed.

Lemma sealed_records_spec p (init : list (segment * list record)) :
  Forall (seg_wf (p_dir p)) init ->
  Forall (fun r => record_size r <= READ_WINDOW_BYTES) (concat init.*2) ->
  sealed_records p init.*1 = Ok (concat init.*2).
Proof.
  induction 1 as [|[s rs] init (fs & Hf & Hh & _) Hi IH]; intros Hw; [done|].
  cbn [fmap list_fmap concat fst snd sealed_records] in *. apply Forall_app in Hw as [Hw1 Hw2].
  assert (files_of p (s_base_offset s) = fs) as -> by (unfold files_of; by rewrite Hf).
  rewrite (segment_records_spec _ _ rs Hh Hw1), IH by done. done.
Qed.

Lemma last_of_key_snoc k rs r :
  last_of_key k (rs ++ [r]) = if decide (r_key r = Some k) then Some r else last_of_key k rs.
Proof.
  unfold last_of_key. rewrite filter_app, filter_cons, filter_nil.
  destruct (decide (r_key r = Some k)); [by rewrite last_snoc|by rewrite app_nil_r].
Qed.

Lemma last_of_key_elem k rs r : last_of_key k rs = Some r -> r ∈ rs /\ r_key r = Some k.
Proof. intros Hl. apply last_Some_elem_of, list_elem_of_filter in Hl. tauto. Qed.

(** Pass 1 finds the newest record of every key. *)
Lemma latest_map_spec cutoff rs k :
  offsets_sorted rs ->
  latest_map cutoff rs !! k = (fun r => mkLatest (r_offset r) (droppable cutoff r)) <$> last_of_key k rs.
Proof.
  unfold latest_map. revert k. induction rs as [|r rs IH] using rev_ind; intros k Hs; [done|].
  apply StronglySorted_snoc in Hs as [Hs Hlt]. rewrite foldl_snoc, last_of_key_snoc.
  set (m := foldl (note_latest cutoff) ∅ rs) in *. unfold note_latest. fold (droppable cutoff r).
  destruct (r_key r) as [k'|] eqn:Ek; [|rewrite decide_False by done; by apply IH].
  assert (match m !! k' with
          | Some l => if r_offset r <? l_offset l then m else <[k' := mkLatest (r_offset r) (droppable cutoff r)]> m
          | None => <[k' := mkLatest (r_offset r) (droppable cutoff r)]> m
          end = <[k' := mkLatest (r_offset r) (droppable cutoff r)]> m) as ->.
  { rewrite IH by done. destruct (last_of_key k' rs) as [r'|] eqn:El; [|done]. cbn.
    apply last_of_key_elem in El as [El _]. rewrite Forall_forall in Hlt. specialize (Hlt r' El).
    by rewrite (proj2 (Z.ltb_ge _ _)) by lia. }
  destruct (decide (Some k' = Some k)) as [[= ->]|Hne].
  - by rewrite lookup_insert_eq.
  - rewrite lookup_insert_ne by congruence. by apply IH.
Qed.

Lemma offsets_inj rs a b :
  offsets_sorted rs -> a ∈ rs -> b ∈ rs -> r_offset a = r_offset b -> a = b.
Proof.
  intros Hs. induction Hs as [|x rs Hs IH Hx]; intros Ha Hb E; [by apply not_elem_of_nil in Ha|].
  rewrite Forall_forall in Hx. rewrite !elem_of_cons in Ha, Hb. destruct Ha as [->|Ha], Hb as [->|Hb].
  - done.
  - specialize (Hx b Hb). cbn in Hx. lia.
  - specialize (Hx a Ha). cbn in Hx. lia.
  - by apply IH.
Qed.

Lemma keep_record_spec cutoff rs r :
  offsets_sorted rs -> r ∈ rs ->
  keep_record (latest_map cutoff rs) r = true <-> survives cutoff rs r.
Proof.
  intros Hs Hr. unfold keep_record, survives. destruct (r_key r) as [k|] eqn:Ek; [|done].
  rewrite latest_map_spec by done. destruct (last_of_key k rs) as [r'|] eqn:El; cbn.
  - rewrite andb_true_iff, negb_true_iff, Z.eqb_eq. split.
    + intros [Eo Hd]. apply last_of_key_elem in El as [Hin _].
      rewrite (offsets_inj rs r' r Hs Hin Hr Eo) in *. done.
    + intros [[= ->] Hd]. done.
  - split; [done|]. by intros [? _].
Qed.

(** What pass 2 has written after the records [pre]. *)
Record survivors_wf (base : Z) (v : survivors) (kept : list record) : Prop := {
  vw_log : v_log v = recs_bytes kept;
  vw_sorted : index_sorted (v_entries v);
  vw_points : index_points base (v_entries v) kept;
  vw_ts : Forall (fun r => v_min_ts v <= r_timestamp_ms r <= v_max_ts v) kept
}.

Lemma write_survivors_spec m base rs :
  Forall record_ok rs -> offsets_sorted rs -> Forall (fun r => base <= r_offset r) rs ->
  exists v, write_survivors m base rs = Ok v /\
    survivors_wf base v (filter (fun r => keep_record m r = true) rs).
Proof.
  unfold write_survivors. induction rs as [|r rs IH] using rev_ind; intros Hok Hs Hb.
  { exists survivors_empty. split; [done|]. constructor; try done; constructor. }
  apply Forall_app in Hok as [Hok Hr]. apply Forall_cons in Hr as [Hr _].
  apply Forall_app in Hb as [Hb Hbr]. apply Forall_cons in Hbr as [Hbr _].
  pose proof Hs as Hs0. apply StronglySorted_snoc in Hs as [Hs Hlt].
  destruct (IH Hok Hs Hb) as (v & E & [H1 H2 H3 H4]). rewrite foldl_snoc, E. cbn [mbind outcome_bind].
  rewrite filter_app, filter_cons, filter_nil. unfold write_one.
  set (kept := filter (fun r => keep_record m r = true) rs) in *.
  destruct (keep_record m r) eqn:Ek; cbn [negb].
  2: { rewrite decide_False by done. rewrite app_nil_r. by exists v. }
  rewrite decide_True by done. rewrite (proj2 (Z.ltb_ge _ _)) by lia. rewrite encode_record_bytes by done. cbn [fst].
  assert (offsets_sorted (kept ++ [r])) as Hs'.
  { apply StronglySorted_snoc. split; [by apply StronglySorted_filter|by apply Forall_filter_l]. }
  destruct (index_snoc base (v_entries v) kept r H2 H3 Hs') as [Hi1 Hi2].
  assert (len (v_log v) = recs_size kept) as Hl by (by rewrite H1, recs_bytes_len). rewrite Hl.
  set (w := match v_last_indexed v with None => true | Some p => _ end). clearbody w.
  eexists. split; [done|]. constructor; cbn.
  - rewrite H1, recs_bytes_app. cbn. by rewrite app_nil_r.
  - by destruct w.
  - destruct w; [done|by apply index_points_app_r].
  - apply Forall_app. split; [|constructor; [lia|done]]. eapply Forall_impl; [exact H4|]. cbn. lia.
Qed.

(** Deleting the victims leaves the other files alone. *)
Lemma delete_all_lookup (d : gmap Z seg_files) victims b :
  b ∉ victims -> foldl (fun d v => delete v d) d victims !! b = d !! b.
Proof.
  revert d. induction victims as [|v vs IH]; intros d Hb; [done|]. cbn.
  apply not_elem_of_cons in Hb as [Hb1 Hb2]. rewrite IH by done. by rewrite lookup_delete_ne.
Qed.

Lemma delete_all_Some (d : gmap Z seg_files) victims b fs :
  foldl (fun d v => delete v d) d victims !! b = Some fs -> d !! b = Some fs.
Proof.
  revert d. induction victims as [|v vs IH]; intros d Hb; [done|]. cbn in Hb.
  apply IH in Hb. by apply lookup_delete_Some in Hb as [_ Hb].
Qed.

(** Replacing the sealed segments by one that holds [kept]. *)
Lemma swap_wf p g0 init s rs kept out :
  part_wf p (g0 :: init) s rs -> survivors_wf (s_base_offset g0.1) out kept ->
  Forall record_ok kept -> offsets_sorted kept -> kept ⊆ concat (g0 :: init).*2 ->
  let base := s_base_offset g0.1 in
  let victims := filter (fun b => b <> base) (s_base_offset <$> (g0 :: init).*1) in
  exists p' seg, swap_compacted p p base victims out = Some p' /\
    part_wf p' [(seg, kept)] s rs /\ p_next_offset p' = p_next_offset p /\
    p_start_offset p' = p_start_offset p.
Proof.
  intros Hw [V1 V2 V3 V4] Hok Hs Hsub. cbv zeta. unfold swap_compacted.
  rewrite (pw_segs _ _ _ _ Hw), !last_snoc.
  rewrite Z.eqb_refl, bool_decide_eq_true_2 by done. cbn [andb].
  eexists _, _. split; [done|].
  set (base := s_base_offset g0.1). set (victims := filter (fun b => b <> base) (s_base_offset <$> (g0 :: init).*1)).
  pose proof (sealed_below _ _ _ (pw_chain _ _ _ _ Hw)) as Hlt.
  assert (base < s_base_offset s) as Hbs by (by apply Forall_cons in Hlt as [? _]).
  assert (s_base_offset s ∉ victims) as Hsv.
  { subst victims. intros Hin. apply list_elem_of_filter in Hin as [_ Hin].
    apply list_elem_of_fmap in Hin as (x & E & Hx). apply list_elem_of_fmap in Hx as (g & -> & Hg).
    rewrite Forall_forall in Hlt. specialize (Hlt g Hg). lia. }
  assert (base ∉ victims) as Hbv by (subst victims; rewrite list_elem_of_filter; tauto).
  assert (Forall (fun r => base <= r_offset r /\ r_offset r < s_base_offset s) kept) as Hrange.
  { destruct (log_sorted _ _ _ (p_dir p) (pw_holds _ _ _ _ Hw) (pw_chain _ _ _ _ Hw)) as [_ Hup].
    assert (Forall (fun r => base <= r_offset r) (concat (g0 :: init).*2)) as Hlow.
    { pose proof (pw_holds _ _ _ _ Hw) as Hh. apply Forall_app in Hh as [Hh _].
      pose proof (pw_chain _ _ _ _ Hw) as Hc. apply StronglySorted_snoc in Hc as [Hc _].
      assert (Forall (fun g => base <= s_base_offset g.1) (g0 :: init)) as Hbb.
      { inversion Hc as [|? ? _ Hg]; subst. constructor; [subst base; lia|]. eapply Forall_impl; [exact Hg|]. intros g [? _]. subst base. lia. }
      clear -Hh Hbb. induction Hh as [|g gs (fs & _ & Hg & _) Hh IH]; [constructor|].
      apply Forall_cons in Hbb as [Hb0 Hbb]. cbn. apply Forall_app. split; [|by apply IH].
      eapply Forall_impl; [exact (sh_base _ _ _ Hg)|]. cbn. lia. }
    apply Forall_forall. intros r Hr. rewrite Forall_forall in Hup, Hlow. split; [by apply Hlow, Hsub|by apply Hup, Hsub]. }
  pose proof (pw_holds _ _ _ _ Hw) as Hholds. apply Forall_app in Hholds as [Hi Ha].
  apply Forall_cons in Ha as [(fs & Ef & Hh) _]. apply Forall_cons in Hi as [(fs0 & _ & _ & _ & Hb0) _].
  pose proof Hw as [_ _ Hchain [Ab As Al Af] Hnext Hnn Hst Hspare].
  split_and!; [|done|done]. constructor; cbn; try done.
  - constructor; [|constructor; [|done]].
    + eexists. cbn. split; [by rewrite delete_all_lookup, lookup_insert_eq|]. cbn.
      split_and!; [|eapply Forall_impl; [exact V4|]; done|done].
      constructor; cbn; try done.
      * exists []. by rewrite app_nil_r.
      * by rewrite V1, recs_bytes_len.
      * eapply Forall_impl; [exact Hrange|]. cbn. tauto.
    + exists fs. cbn in *. rewrite delete_all_lookup by done. rewrite lookup_insert_ne by lia. done.
  - repeat constructor; cbn; [done|]. eapply Forall_impl; [exact Hrange|]. cbn. tauto.
  - constructor; cbn; try done. intros Hp. unfold files_of. cbn. rewrite delete_all_lookup by done.
    rewrite lookup_insert_ne by lia. by apply Af.
  - intros b fs' Hb Hlt'. apply delete_all_Some in Hb. rewrite lookup_insert_ne in Hb by lia. by eapply Hspare.
Qed.
End CompactSpec.

(** ** The latest values *)

#[global] Instance record_eq_dec : EqDecision record.
Proof. solve_decision. Defined.

#[global] Instance survives_dec `{Crc32} cutoff rs r : Decision (survives cutoff rs r).
Proof. unfold survives. destruct (r_key r); apply _. Defined.

Section Latest.
Context `{Crc32}.

Lemma last_of_key_app k a b :
  last_of_key k (a ++ b) = match last_of_key k b with Some r => Some r | None => last_of_key k a end.
Proof.
  unfold last_of_key. rewrite filter_app.
  destruct (filter _ b) as [|x l _] using rev_ind; [by rewrite app_nil_r|].
  by rewrite app_assoc, !last_snoc.
Qed.

(** A list whose only element is [x]. *)
Lemma last_all_eq {A} (l : list A) x : x ∈ l -> (forall y, y ∈ l -> y = x) -> last l = Some x.
Proof.
  intros Hx Hall. destruct (last l) as [y|] eqn:E.
  - f_equal. apply Hall. by apply last_Some_elem_of.
  - apply last_None in E. subst. by apply not_elem_of_nil in Hx.
Qed.

Lemma last_of_key_survivors cutoff rs k :
  last_of_key k (filter (survives cutoff rs) rs) =
    match last_of_key k rs with
    | Some r => if droppable cutoff r then None else Some r
    | None => None
    end.
Proof.
  unfold last_of_key at 1.
  assert (forall y, y ∈ filter (fun r => r_key r = Some k) (filter (survives cutoff rs) rs) ->
    last_of_key k rs = Some y /\ droppable cutoff y = false) as Hall.
  { intros y Hy. apply list_elem_of_filter in Hy as [Hk Hy]. apply list_elem_of_filter in Hy as [Hs _].
    unfold survives in Hs. by rewrite Hk in Hs. }
  destruct (last_of_key k rs) as [r|] eqn:El; [destruct (droppable cutoff r) eqn:Ed|].
  - apply last_None. destruct (filter _ _) as [|y l]; [done|]. destruct (Hall y ltac:(left)) as [[= ->] ?]. congruence.
  - apply last_all_eq; [|intros y Hy; destruct (Hall y Hy); congruence].
    destruct (last_of_key_elem _ _ _ El) as [Hin Hk]. apply list_elem_of_filter. split; [done|].
    apply list_elem_of_filter. split; [|done]. unfold survives. by rewrite Hk.
  - apply last_None. destruct (filter _ _) as [|y l]; [done|]. by destruct (Hall y ltac:(left)).
Qed.

Lemma compact_partition_spec p init s rs config now :
  part_wf p init s rs ->
  Forall (fun r => record_size r <= READ_WINDOW_BYTES) (concat init.*2) ->
  let p' := compact_partition p config now in
  let cutoff := sat_sub_i64 now (wrap_i 64 (tc_tombstone_retention_ms config)) in
  p' = p \/ exists seg, part_wf p' [(seg, filter (survives cutoff (concat init.*2)) (concat init.*2))] s rs /\
    p_next_offset p' = p_next_offset p /\ p_start_offset p' = p_start_offset p.
Proof.
  intros Hw Hwin. cbv zeta. unfold compact_partition, plan_compaction. rewrite (pw_segs _ _ _ _ Hw), last_snoc.
  case_if; [by left|].
  pose proof (sealed_below _ _ _ (pw_chain _ _ _ _ Hw)) as Hlt.
  assert (filter (fun s0 => s_base_offset s0 < s_base_offset s) (init.*1 ++ [s]) = init.*1) as ->.
  { apply filter_split; [by apply Forall_fmap|]. constructor; [lia|done]. }
  destruct init as [|g0 init]; [by left|]. cbn [fmap list_fmap].
  change (g0.1 :: (fst <$> init)) with ((g0 :: init).*1).
  pose proof (pw_holds _ _ _ _ Hw) as Hh. apply Forall_app in Hh as [Hh _].
  rewrite (sealed_records_spec p (g0 :: init) Hh Hwin).
  destruct (log_sorted _ _ _ (p_dir p) (pw_holds _ _ _ _ Hw) (pw_chain _ _ _ _ Hw)) as [Hsort _].
  apply offsets_sorted_app in Hsort as (Hsort & _).
  set (sealed := concat (g0 :: init).*2) in *.
  set (cutoff := sat_sub_i64 now _). set (m := latest_map cutoff sealed).
  case_if; [by left|]. right.
  assert (Forall record_ok sealed /\ Forall (fun r => s_base_offset g0.1 <= r_offset r) sealed) as [Hok Hbase].
  { pose proof (pw_chain _ _ _ _ Hw) as Hc. apply StronglySorted_snoc in Hc as [Hc _].
    assert (Forall (fun g => s_base_offset g0.1 <= s_base_offset g.1) (g0 :: init)) as Hbb.
    { inversion Hc as [|? ? _ Hg]; subst. constructor; [lia|]. eapply Forall_impl; [exact Hg|]. intros g [? _]. lia. }
    subst sealed. clear -Hh Hbb. revert Hbb. generalize (s_base_offset g0.1) as b. intros b Hbb.
    induction Hh as [|g gs (fs & _ & Hg & _) Hh IH]; [done|]. apply Forall_cons in Hbb as [Hb0 Hbb].
    destruct (IH Hbb). cbn. split; apply Forall_app; (split; [|done]); [apply Hg|].
    eapply Forall_impl; [exact (sh_base _ _ _ Hg)|]. cbn. lia. }
  destruct (write_survivors_spec m (s_base_offset g0.1) sealed Hok Hsort Hbase) as (v & -> & Hv).
  set (kept := filter (fun r => keep_record m r = true) sealed) in Hv.
  assert (kept = filter (survives cutoff sealed) sealed) as Ek.
  { subst kept m. clear -Hsort.
    assert (forall l, l ⊆ sealed -> filter (fun r => keep_record (latest_map cutoff sealed) r = true) l =
      filter (survives cutoff sealed) l) as Hl; [|by apply Hl].
    induction l as [|x l IH]; intros Hsub; [done|]. rewrite !filter_cons, IH by (intros y Hy; apply Hsub; by right).
    pose proof (keep_record_spec cutoff sealed x Hsort (Hsub x ltac:(left))).
    destruct (decide _), (decide _); tauto. }
  destruct (swap_wf p g0 init s rs kept v Hw Hv) as (p' & seg & Esw & Hw' & Hn & Hst).
  - by apply Forall_filter_l.
  - by apply StronglySorted_filter.
  - intros x Hx. by apply list_elem_of_filter in Hx as [_ Hx].
  - replace (swap_compacted _ _ _ _ _) with (Some p') by (symmetry; exact Esw).
    cbn [default from_option id]. exists seg. rewrite Ek in Hw'. exact (conj Hw' (conj Hn Hst)).
Qed.
End Latest.

(** ** Crashes during the swap *)

Section Crash.

Lemma delete_fold_lookup {A} (d : gmap Z A) vs b :
  foldl (fun d v => delete v d) d vs !! b = if decide (b ∈ vs) then None else d !! b.
Proof.
  revert d. induction vs as [|v vs IH]; intros d; [by rewrite decide_False by apply not_elem_of_nil|]. cbn.
  rewrite IH. destruct (decide (b ∈ vs)) as [Hb|Hb].
  - by rewrite decide_True by (by right).
  - destruct (decide (b = v)) as [->|Hne].
    + rewrite decide_True by left. by rewrite lookup_delete_eq.
    + rewrite decide_False by (rewrite elem_of_cons; tauto). by rewrite lookup_delete_ne.
Qed.

(** A directory in the middle of the removal of the victims. *)
Definition removing (m : compaction_marker) (logs indexes : gmap Z (list byte)) (d : disk) : Prop :=
  d_marker d = Some (Some m) /\ d_tmp_logs d !! cm_base m = None /\ d_tmp_indexes d !! cm_base m = None /\
  (forall b, b ∉ cm_victims m -> d_logs d !! b = logs !! b /\ d_indexes d !! b = indexes !! b).

Lemma removing_finish m logs indexes d :
  removing m logs indexes d ->
  d_logs (finish_compaction d) = foldl (fun d v => delete v d) logs (cm_victims m) /\
  d_indexes (finish_compaction d) = foldl (fun d v => delete v d) indexes (cm_victims m).
Proof.
  intros (Hm & Ht1 & Ht2 & Hl). unfold finish_compaction, rename_over. rewrite Hm, Ht1, Ht2. cbn.
  split; apply map_eq; intros b; rewrite !delete_fold_lookup; destruct (decide _) as [|Hb]; try done; by apply Hl.
Qed.

Lemma removing_step m logs indexes d v :
  v ∈ cm_victims m -> removing m logs indexes d ->
  removing m logs indexes (disk_apply d (RemoveLog v)) /\ removing m logs indexes (disk_apply d (RemoveIndex v)).
Proof.
  intros Hv (Hm & Ht1 & Ht2 & Hl). split; (split_and!; cbn; [done..|]); intros b Hb; specialize (Hl b Hb);
    rewrite lookup_delete_ne by (by intros ->); done.
Qed.

Lemma removing_run m logs indexes d vs k :
  vs ⊆ cm_victims m -> removing m logs indexes d ->
  removing m logs indexes (disk_run d (take k (v ← vs; [RemoveLog v; RemoveIndex v]))).
Proof.
  revert d k. induction vs as [|v vs IH]; intros d k Hsub Hr; [by destruct k|].
  assert (v ∈ cm_victims m) as Hv by (apply Hsub; left).
  destruct (removing_step _ _ _ _ _ Hv Hr) as [Hr1 _].
  destruct (removing_step _ _ _ _ _ Hv Hr1) as [_ Hr2].
  destruct k as [|[|k]]; [done|exact Hr1|].
  change (removing m logs indexes (disk_run (disk_apply (disk_apply d (RemoveLog v)) (RemoveIndex v))
    (take k (v ← vs; [RemoveLog v; RemoveIndex v])))).
  apply IH; [|done]. intros x Hx. apply Hsub. by right.
Qed.

Lemma remove_all_run d vs :
  d_logs (disk_run d (v ← vs; [RemoveLog v; RemoveIndex v])) = foldl (fun d v => delete v d) (d_logs d) vs /\
  d_indexes (disk_run d (v ← vs; [RemoveLog v; RemoveIndex v])) = foldl (fun d v => delete v d) (d_indexes d) vs.
Proof.
  revert d. induction vs as [|v vs IH]; intros d; [done|].
  change (disk_run d (v ← v :: vs; [RemoveLog v; RemoveIndex v])) with
    (disk_run (disk_apply (disk_apply d (RemoveLog v)) (RemoveIndex v)) (v ← vs; [RemoveLog v; RemoveIndex v])).
  destruct (IH (disk_apply (disk_apply d (RemoveLog v)) (RemoveIndex v))) as [-> ->]. done.
Qed.
End Crash.

(** ** Properties *)

Section CompactionClaims.
Context `{Crc32}.

(** C22: compaction preserves the latest value of every key.  Either nothing
    changes, or the sealed segments are replaced by one segment that holds exactly
    the surviving records, in order, and the invariant, the watermark and the start
    offset are kept; every record without a key survives, and the newest record of
    each key in the whole log is the same as before, except that a key whose newest
    record is a sealed tombstone older than the retention time has none. *)
Theorem compaction_preserves_latest p init s rs config now :
  part_wf p init s rs ->
  Forall (fun r => record_size r <= READ_WINDOW_BYTES) (concat init.*2) ->
  let p' := compact_partition p config now in
  let cutoff := sat_sub_i64 now (wrap_i 64 (tc_tombstone_retention_ms config)) in
  p' = p \/
  exists init', part_wf p' init' s rs /\
    p_next_offset p' = p_next_offset p /\ p_start_offset p' = p_start_offset p /\
    concat init'.*2 = filter (survives cutoff (concat init.*2)) (concat init.*2) /\
    filter (fun r => r_key r = None) (log_of init' rs) = filter (fun r => r_key r = None) (log_of init rs) /\
    forall k, last_of_key k (log_of init' rs) =
      match last_of_key k rs with
      | Some r => Some r
      | None => match last_of_key k (concat init.*2) with
                | Some r => if droppable cutoff r then None else Some r
                | None => None
                end
      end.
Proof.
  intros Hw Hwin. cbv zeta.
  destruct (compact_partition_spec p init s rs config now Hw Hwin) as [E|(seg & Hw' & Hn & Hst)]; [by left|right].
  eexists. split; [exact Hw'|]. cbn [fmap list_fmap concat snd]. rewrite app_nil_r. split_and!; [done|done|done| |].
  - unfold log_of. cbn [fmap list_fmap concat snd]. rewrite app_nil_r, !filter_app. f_equal.
    rewrite list_filter_filter. apply list_filter_iff. intros r. unfold survives. split; [by intros [? _]|].
    intros Hr. by rewrite Hr.
  - intros k. unfold log_of. cbn [fmap list_fmap concat snd]. rewrite app_nil_r, last_of_key_app.
    by rewrite last_of_key_survivors.
Qed.

(** C12: the swap is atomic under crashes.  Stop the sequence of directory changes
    after any number of steps and run recovery's clean-up: before the marker is
    written every segment file is as it was; from the marker on the directory is
    the compacted one, with the output in place of the lowest segment, every victim
    gone and the other segments untouched.  There is no state in which both the
    output and the originals remain. *)
Theorem compaction_crash_atomic d base victims log index k :
  d_marker d = None -> base ∉ victims ->
  let d' := sweep_compaction_tmp (finish_compaction (disk_run d (take k (compaction_ops base victims log index)))) in
  if decide (k <= 2)%nat
  then d_logs d' = d_logs d /\ d_indexes d' = d_indexes d
  else d_logs d' = foldl (fun d v => delete v d) (<[base := log]> (d_logs d)) victims /\
       d_indexes d' = foldl (fun d v => delete v d) (<[base := index]> (d_indexes d)) victims.
Proof.
  intros Hm Hb. cbv zeta. unfold sweep_compaction_tmp. cbn [d_logs d_indexes].
  destruct (decide (k <= 2)%nat) as [Hk2|Hk2].
  { assert (d_marker (disk_run d (take k (compaction_ops base victims log index))) = None /\
      d_logs (disk_run d (take k (compaction_ops base victims log index))) = d_logs d /\
      d_indexes (disk_run d (take k (compaction_ops base victims log index))) = d_indexes d) as (E1 & E2 & E3)
      by (destruct k as [|[|[|k]]]; [done..|lia]).
    unfold finish_compaction. by rewrite E1. }
  destruct k as [|[|[|k]]]; [lia..|].
  unfold compaction_ops. cbn [app take disk_run foldl disk_apply].
  destruct k as [|[|k]].
  - unfold finish_compaction, rename_over. cbn. by rewrite !lookup_insert_eq.
  - unfold finish_compaction, rename_over. cbn. rewrite !lookup_insert_eq, !lookup_delete_eq.
    unfold rename_over. by rewrite lookup_insert_eq.
  - cbn [take foldl disk_apply d_logs d_indexes d_tmp_logs d_tmp_indexes d_marker].
    set (d5 := mkDisk _ _ _ _ _).
    assert (removing (mkMarker base victims) (<[base := log]> (d_logs d)) (<[base := index]> (d_indexes d)) d5) as Hr.
    { subst d5. unfold removing, rename_over. cbn. rewrite !lookup_insert_eq, !lookup_delete_eq. done. }
    clearbody d5. set (ops := v ← victims; [RemoveLog v; RemoveIndex v]).
    fold (disk_run d5 (take k (ops ++ [RemoveMarker]))).
    destruct (decide (k <= length ops)%nat) as [Hk|Hk].
    + rewrite take_app_le by done. by apply (removing_finish (mkMarker base victims)), removing_run.
    + rewrite take_ge by (rewrite length_app; cbn; lia). unfold disk_run. rewrite foldl_app. cbn [foldl].
      fold (disk_run d5 ops). unfold finish_compaction at 1 2.
      cbn [disk_apply d_marker d_logs d_indexes].
      destruct (remove_all_run d5 victims) as [E1 E2]. fold ops in E1, E2. rewrite E1, E2. destruct Hr as (_ & _ & _ & Hl). cbn in Hl.
      split; apply map_eq; intros b; rewrite !delete_fold_lookup; destruct (decide _) as [Hv|Hv];
        done || by apply Hl.
Qed.
End CompactionClaims.

(** ** Witnesses *)

Section CompactionWitnesses.
#[local] Existing Instance crc32_ieee_class.

(** Five records of two keys over several segments; the key [a] was deleted. *)
Definition keyed_batch : list append_record :=
  [mkAppend (Some [x61]) [x01] (Some 5) None; mkAppend (Some [x62]) [x02] (Some 6) None;
   mkAppend (Some [x61]) [] (Some 7) None; mkAppend None [x03] (Some 8) None;
   mkAppend (Some [x62]) [x04] (Some 9) None].

Definition keyed_partition : partition :=
  (append_batch (fresh_partition 40) keyed_batch Policy 0 no_faults).2.

Lemma keyed_partition_wf :
  exists init s rs, part_wf keyed_partition init s rs /\ log_of init rs = (assign 0 0 keyed_batch).1.2.
Proof.
  assert (Forall record_ok (assign 0 0 keyed_batch).1.2) as Hok by (repeat constructor; vm_compute; congruence).
  pose proof (append_batch_result (fresh_partition 40) [] (segment_open_empty 0) [] keyed_batch Policy 0
    no_faults (fresh_partition_wf 40) (Z.le_refl 0) Hok) as Hr.
  change (p_next_offset (fresh_partition 40)) with 0 in Hr.
  assert ((append_batch (fresh_partition 40) keyed_batch Policy 0 no_faults).1 = Ok [0; 1; 2; 3; 4]) as E
    by (vm_compute; reflexivity).
  unfold keyed_partition. destruct (assign 0 0 keyed_batch) as [[os news] n].
  destruct (append_batch _ _ _ _ _) as [o p]. cbn [fst snd] in *. subst o.
  destruct Hr as (_ & _ & _ & _ & init & s & rs & Hw & _ & Hl). by exists init, s, rs.
Qed.

Lemma compaction_preserves_latest_witness :
  p_start_offset (compact_partition keyed_partition (mkTopicConfig None None Compact 40 10) 100) = 0 /\
  r_offset <$> (read_records_raw (compact_partition keyed_partition (mkTopicConfig None None Compact 40 10) 100) 0 10 1000).1.1
    = [1; 3].
Proof.
  split; [|vm_compute; reflexivity].
  destruct keyed_partition_wf as (init & s & rs & Hw & Hl).
  destruct (compaction_preserves_latest keyed_partition init s rs (mkTopicConfig None None Compact 40 10) 100 Hw)
    as [E|(init' & _ & _ & Hst & _)].
  - assert (Forall (fun r => record_size r <= READ_WINDOW_BYTES) (log_of init rs)) as Hwin
      by (rewrite Hl; repeat constructor; vm_compute; congruence).
    by apply Forall_app in Hwin as [? _].
  - rewrite E. vm_compute. reflexivity.
  - rewrite Hst. vm_compute. reflexivity.
Defined.

Lemma compaction_crash_atomic_witness :
  let d := mkDisk {[ 0 := [x01]; 5 := [x02] ]} {[ 0 := [] ]} ∅ ∅ None in
  let d' := sweep_compaction_tmp (finish_compaction (disk_run d (take 6 (compaction_ops 0 [5] [x09] [x0a])))) in
  d_logs d' = {[ 0 := [x09] ]}.
Proof.
  intros d d'. assert (0 ∉ [5]) as Hn by (rewrite list_elem_of_singleton; lia).
  pose proof (compaction_crash_atomic d 0 [5] [x09] [x0a] 6 eq_refl Hn) as Hc. cbv zeta in Hc.
  rewrite decide_False in Hc by lia. destruct Hc as [Hc _]. subst d'. rewrite Hc. vm_compute. reflexivity.
Defined.
End CompactionWitnesses.
