(* ===== verification/RaftMessages.v ===== *)
(** * Raft messages (crates/es-broker/src/raft/messages.rs)

    The six RPC messages and their wire format. *)

From S2P Require Export Bytes.

#[local] Open Scope Z_scope.

Definition TAG_REQUEST_VOTE : Z := 0x01.
Definition TAG_REQUEST_VOTE_RESP : Z := 0x02.
Definition TAG_APPEND_ENTRIES : Z := 0x03.
Definition TAG_APPEND_ENTRIES_RESP : Z := 0x04.
Definition TAG_INSTALL_SNAPSHOT : Z := 0x05.
Definition TAG_INSTALL_SNAPSHOT_RESP : Z := 0x06.
Definition PROBE_OFFSET : Z := U64_MAX.

Record log_entry : Type := mkEntry { e_term : Z; e_index : Z; e_payload : list byte }.

Record request_vote : Type := mkRV {
  rv_term : Z; rv_candidate_id : Z; rv_last_log_index : Z; rv_last_log_term : Z }.
Record request_vote_resp : Type := mkRVR {
  rvr_term : Z; rvr_vote_granted : bool; rvr_voter_id : Z }.
Record append_entries : Type := mkAE {
  ae_term : Z; ae_leader_id : Z; ae_prev_log_index : Z; ae_prev_log_term : Z;
  ae_entries : list log_entry; ae_leader_commit : Z }.
Record append_entries_resp : Type := mkAER {
  aer_term : Z; aer_success : bool; aer_responder_id : Z; aer_match_index : Z }.
Record install_snapshot : Type := mkIS {
  is_term : Z; is_leader_id : Z; is_last_index : Z; is_last_term : Z;
  is_offset : Z; is_done : bool; is_data : list byte }.
Record install_snapshot_resp : Type := mkISR {
  isr_term : Z; isr_success : bool; isr_responder_id : Z; isr_next_offset : Z;
  isr_installed_index : Z }.

Inductive message : Type :=
| RequestVote (m : request_vote)
| RequestVoteResp (m : request_vote_resp)
| AppendEntries (m : append_entries)
| AppendEntriesResp (m : append_entries_resp)
| InstallSnapshot (m : install_snapshot)
| InstallSnapshotResp (m : install_snapshot_resp).

#[global] Instance log_entry_eq_dec : EqDecision log_entry.
Proof. solve_decision. Defined.

Definition is_probe (m : install_snapshot) : bool :=
  (is_offset m =? PROBE_OFFSET) && (len (is_data m) =? 0) && negb (is_done m).

(** [Message::term]. *)
Definition msg_term (m : message) : Z :=
  match m with
  | RequestVote m => rv_term m
  | RequestVoteResp m => rvr_term m
  | AppendEntries m => ae_term m
  | AppendEntriesResp m => aer_term m
  | InstallSnapshot m => is_term m
  | InstallSnapshotResp m => isr_term m
  end.

(** [Message::sender]. *)
Definition msg_sender (m : message) : Z :=
  match m with
  | RequestVote m => rv_candidate_id m
  | RequestVoteResp m => rvr_voter_id m
  | AppendEntries m => ae_leader_id m
  | AppendEntriesResp m => aer_responder_id m
  | InstallSnapshot m => is_leader_id m
  | InstallSnapshotResp m => isr_responder_id m
  end.

(** ** Encoding *)

Definition enc_bool (b : bool) : list byte := to_be 1 (if b then 1 else 0).

Definition enc_log_entry (e : log_entry) : list byte :=
  to_be 8 (e_term e) ++ to_be 8 (e_index e) ++ to_be 4 (len (e_payload e)) ++ e_payload e.

Definition encode_message (m : message) : list byte :=
  match m with
  | RequestVote m =>
    to_be 1 TAG_REQUEST_VOTE ++ to_be 8 (rv_term m) ++ to_be 4 (rv_candidate_id m) ++
    to_be 8 (rv_last_log_index m) ++ to_be 8 (rv_last_log_term m)
  | RequestVoteResp m =>
    to_be 1 TAG_REQUEST_VOTE_RESP ++ to_be 8 (rvr_term m) ++ enc_bool (rvr_vote_granted m) ++
    to_be 4 (rvr_voter_id m)
  | AppendEntries m =>
    to_be 1 TAG_APPEND_ENTRIES ++ to_be 8 (ae_term m) ++ to_be 4 (ae_leader_id m) ++
    to_be 8 (ae_prev_log_index m) ++ to_be 8 (ae_prev_log_term m) ++
    to_be 4 (len (ae_entries m)) ++ concat (enc_log_entry <$> ae_entries m) ++
    to_be 8 (ae_leader_commit m)
  | AppendEntriesResp m =>
    to_be 1 TAG_APPEND_ENTRIES_RESP ++ to_be 8 (aer_term m) ++ enc_bool (aer_success m) ++
    to_be 4 (aer_responder_id m) ++ to_be 8 (aer_match_index m)
  | InstallSnapshot m =>
    to_be 1 TAG_INSTALL_SNAPSHOT ++ to_be 8 (is_term m) ++ to_be 4 (is_leader_id m) ++
    to_be 8 (is_last_index m) ++ to_be 8 (is_last_term m) ++ to_be 8 (is_offset m) ++
    enc_bool (is_done m) ++ to_be 4 (len (is_data m)) ++ is_data m
  | InstallSnapshotResp m =>
    to_be 1 TAG_INSTALL_SNAPSHOT_RESP ++ to_be 8 (isr_term m) ++ enc_bool (isr_success m) ++
    to_be 4 (isr_responder_id m) ++ to_be 8 (isr_next_offset m) ++ to_be 8 (isr_installed_index m)
  end.

(** ** Decoding *)

Definition rd_bool : reader bool := rd_bind (rd_uint 1) (fun b => rd_ret (negb (b =? 0))).

Definition rd_log_entry : reader log_entry :=
  term ← rd_uint 8; index ← rd_uint 8; n ← rd_uint 4; payload ← rd_bytes n;
  rd_ret (mkEntry term index payload).

Definition rd_message : reader message :=
  tag ← rd_uint 1;
  if tag =? TAG_REQUEST_VOTE then
    term ← rd_uint 8; candidate_id ← rd_uint 4; last_log_index ← rd_uint 8; last_log_term ← rd_uint 8;
    rd_ret (RequestVote (mkRV term candidate_id last_log_index last_log_term))
  else if tag =? TAG_REQUEST_VOTE_RESP then
    term ← rd_uint 8; vote_granted ← rd_bool; voter_id ← rd_uint 4;
    rd_ret (RequestVoteResp (mkRVR term vote_granted voter_id))
  else if tag =? TAG_APPEND_ENTRIES then
    term ← rd_uint 8; leader_id ← rd_uint 4; prev_log_index ← rd_uint 8; prev_log_term ← rd_uint 8;
    n ← rd_uint 4; entries ← rd_repeat (Z.to_nat n) rd_log_entry; leader_commit ← rd_uint 8;
    rd_ret (AppendEntries (mkAE term leader_id prev_log_index prev_log_term entries leader_commit))
  else if tag =? TAG_APPEND_ENTRIES_RESP then
    term ← rd_uint 8; success ← rd_bool; responder_id ← rd_uint 4; match_index ← rd_uint 8;
    rd_ret (AppendEntriesResp (mkAER term success responder_id match_index))
  else if tag =? TAG_INSTALL_SNAPSHOT then
    term ← rd_uint 8; leader_id ← rd_uint 4; last_index ← rd_uint 8; last_term ← rd_uint 8;
    offset ← rd_uint 8; done ← rd_bool; data_len ← rd_uint 4; data ← rd_bytes data_len;
    rd_ret (InstallSnapshot (mkIS term leader_id last_index last_term offset done data))
  else if tag =? TAG_INSTALL_SNAPSHOT_RESP then
    term ← rd_uint 8; success ← rd_bool; responder_id ← rd_uint 4; next_offset ← rd_uint 8;
    installed_index ← rd_uint 8;
    rd_ret (InstallSnapshotResp (mkISR term success responder_id next_offset installed_index))
  else rd_fail.

(** [Message::decode]: bytes after the message are ignored. *)
Definition decode_message (bytes : list byte) : option message :=
  match bytes with
  | [] => None
  | _ => fst <$> rd_message bytes
  end.

(** ** Well-formed messages *)

Definition entry_wf (e : log_entry) : Prop :=
  is_u 64 (e_term e) /\ is_u 64 (e_index e) /\ is_u 32 (len (e_payload e)).

Definition message_wf (m : message) : Prop :=
  match m with
  | RequestVote m =>
    is_u 64 (rv_term m) /\ is_u 32 (rv_candidate_id m) /\ is_u 64 (rv_last_log_index m) /\
    is_u 64 (rv_last_log_term m)
  | RequestVoteResp m => is_u 64 (rvr_term m) /\ is_u 32 (rvr_voter_id m)
  | AppendEntries m =>
    is_u 64 (ae_term m) /\ is_u 32 (ae_leader_id m) /\ is_u 64 (ae_prev_log_index m) /\
    is_u 64 (ae_prev_log_term m) /\ is_u 32 (len (ae_entries m)) /\ Forall entry_wf (ae_entries m) /\
    is_u 64 (ae_leader_commit m)
  | AppendEntriesResp m =>
    is_u 64 (aer_term m) /\ is_u 32 (aer_responder_id m) /\ is_u 64 (aer_match_index m)
  | InstallSnapshot m =>
    is_u 64 (is_term m) /\ is_u 32 (is_leader_id m) /\ is_u 64 (is_last_index m) /\
    is_u 64 (is_last_term m) /\ is_u 64 (is_offset m) /\ is_u 32 (len (is_data m))
  | InstallSnapshotResp m =>
    is_u 64 (isr_term m) /\ is_u 32 (isr_responder_id m) /\ is_u 64 (isr_next_offset m) /\
    is_u 64 (isr_installed_index m)
  end.

(** ** Lemmas *)

Lemma rd_u64 z k : is_u 64 z -> rd_uint 8 (to_be 8 z ++ k) = Some (z, k).
Proof. intros Hz. apply rd_uint_app. exact Hz. Qed.

Lemma rd_u32 z k : is_u 32 z -> rd_uint 4 (to_be 4 z ++ k) = Some (z, k).
Proof. intros Hz. apply rd_uint_app. exact Hz. Qed.

Lemma rd_u8 z k : is_u 8 z -> rd_uint 1 (to_be 1 z ++ k) = Some (z, k).
Proof. intros Hz. apply rd_uint_app. exact Hz. Qed.

Lemma rd_bool_app b k : rd_bool (enc_bool b ++ k) = Some (b, k).
Proof.
  unfold rd_bool, enc_bool, rd_bind. rewrite rd_u8 by (by destruct b). by destruct b.
Qed.

(** Read the next field of a concatenation of encoded fields. *)
Ltac rd_field :=
  rewrite <- ?app_assoc;
  first
    [ erewrite (rd_bind_some (rd_uint 8)) by (apply rd_u64; done)
    | erewrite (rd_bind_some (rd_uint 4)) by (apply rd_u32; done)
    | erewrite (rd_bind_some (rd_uint 1)) by (apply rd_u8; done)
    | erewrite (rd_bind_some rd_bool) by (apply rd_bool_app)
    | erewrite (rd_bind_some (rd_bytes _)) by (apply rd_bytes_app) ].

Lemma rd_log_entry_app e k : entry_wf e -> rd_log_entry (enc_log_entry e ++ k) = Some (e, k).
Proof.
  intros (H1 & H2 & H3). unfold rd_log_entry, enc_log_entry, mbind, reader_bind.
  do 4 rd_field. by destruct e.
Qed.

Lemma last_field n z : 0 <= z < 256 ^ Z.of_nat n -> rd_uint n (to_be n z) = Some (z, []).
Proof. intros Hz. rewrite <- (app_nil_r (to_be n z)). by apply rd_uint_app. Qed.

Lemma rd_message_app m k : message_wf m -> rd_message (encode_message m ++ k) = Some (m, k).
Proof.
  unfold rd_message, mbind, reader_bind.
  destruct m as [m|m|m|m|m|m]; cbn [message_wf encode_message]; intros Hm; destr_conj;
    rewrite <- !app_assoc; (erewrite (rd_bind_some (rd_uint 1)) by (apply rd_u8; done));
    cbn [Z.eqb TAG_REQUEST_VOTE TAG_REQUEST_VOTE_RESP TAG_APPEND_ENTRIES TAG_APPEND_ENTRIES_RESP
         TAG_INSTALL_SNAPSHOT TAG_INSTALL_SNAPSHOT_RESP Pos.eqb].
  - do 4 rd_field. by destruct m.
  - do 3 rd_field. by destruct m.
  - do 5 rd_field. replace (Z.to_nat (len (ae_entries m))) with (length (ae_entries m)) by (unfold len; lia).
    erewrite (rd_bind_some (rd_repeat _ _)).
    2: { apply rd_repeat_app. intros e k' He. apply rd_log_entry_app.
         match goal with H : Forall entry_wf _ |- _ => rewrite Forall_forall in H; by apply H end. }
    rd_field. by destruct m.
  - do 4 rd_field. by destruct m.
  - do 8 rd_field. by destruct m.
  - do 5 rd_field. by destruct m.
Qed.

(** ** Properties *)

(** Every Raft message survives the wire.  Decoding the encoding of a message
    whose fields fit their widths gives the message back, for all six kinds, with
    or without trailing bytes; in particular no two messages have the same
    encoding. *)
Theorem raft_message_roundtrip m junk :
  message_wf m -> decode_message (encode_message m ++ junk) = Some m.
Proof.
  intros Hm. unfold decode_message.
  assert (encode_message m ++ junk <> []) as Hne by (intros E; apply app_nil in E as [E _]; by destruct m).
  destruct (encode_message m ++ junk) eqn:E; [done|]. rewrite <- E. by rewrite rd_message_app.
Qed.

Lemma raft_message_roundtrip_witness :
  let m := AppendEntries (mkAE 3 1 5 2 [mkEntry 3 6 [xab; xcd]; mkEntry 3 7 []] 5) in
  decode_message (encode_message m ++ [x00]) = Some m.
Proof.
  intros m. apply (raft_message_roundtrip m [x00]). cbn. unfold is_u. split_and!; try lia.
  - unfold len. cbn. lia.
  - unfold len. cbn. lia.
  - repeat constructor; vm_compute; congruence.
Defined.
