(* ===== verification/RaftLog.v ===== *)
(** * Raft log and store (crates/es-broker/src/raft/log.rs)

    The in-memory log with its compacted prefix, the persistence operations the
    state machine records, the reference store ([MemStore]) and the durable one
    ([FileStore]) with its append-only file format. *)

From S2P Require Export RustStd RaftMessages.

#[local] Open Scope Z_scope.

(** ** The in-memory log *)

Record raft_log : Type := mkLog {
  rl_entries : list log_entry; rl_base_index : Z; rl_base_term : Z }.

Definition empty_log : raft_log := mkLog [] 0 0.

Definition last_index (l : raft_log) : Z :=
  match last (rl_entries l) with Some e => e_index e | None => rl_base_index l end.

Definition last_term (l : raft_log) : Z :=
  match last (rl_entries l) with Some e => e_term e | None => rl_base_term l end.

(** [Log::get]. *)
Definition log_get (l : raft_log) (index : Z) : option log_entry :=
  first ← head (rl_entries l);
  if index <? e_index first then None
  else rl_entries l !! Z.to_nat (index - e_index first).

Definition term_at (l : raft_log) (index : Z) : option Z :=
  if index =? 0 then Some 0
  else if index =? rl_base_index l then Some (rl_base_term l)
  else if index <? rl_base_index l then None
  else e ← log_get l index; Some (e_term e).

(** [Log::slice]; [log_slice_in_bounds] shows that the slice is in range. *)
Definition log_slice (l : raft_log) (start end_exclusive : Z) : list log_entry :=
  match rl_entries l with
  | [] => []
  | first :: _ =>
    if (start =? 0) || (end_exclusive <=? start) then []
    else
      let start := Z.max start (e_index first) in
      let end_ := Z.min end_exclusive (last_index l + 1) in
      if end_ <=? start then []
      else
        let s := start - e_index first in
        let e := end_ - e_index first in
        take (Z.to_nat (e - s)) (drop (Z.to_nat s) (rl_entries l))
  end.

Fixpoint take_bounded (es : list log_entry) (max_entries max_bytes : Z) (n bytes : Z)
  : list log_entry :=
  match es with
  | [] => []
  | e :: es' =>
    if negb (n =? 0) && ((max_entries <=? n) || (max_bytes <? bytes + len (e_payload e))) then []
    else e :: take_bounded es' max_entries max_bytes (n + 1) (bytes + len (e_payload e))
  end.

Definition slice_bounded (l : raft_log) (start max_entries max_bytes : Z) : list log_entry :=
  match rl_entries l with
  | [] => []
  | first :: _ =>
    if start =? 0 then []
    else
      let start := Z.max start (e_index first) in
      if last_index l <? start then []
      else take_bounded (drop (Z.to_nat (start - e_index first)) (rl_entries l)) max_entries max_bytes 0 0
  end.

(** Renumber entries from [next] on. *)
Fixpoint assign_indices (next : Z) (es : list log_entry) : list log_entry :=
  match es with
  | [] => []
  | e :: es' => mkEntry (e_term e) next (e_payload e) :: assign_indices (next + 1) es'
  end.

Definition set_entries (l : raft_log) (es : list log_entry) : raft_log :=
  mkLog es (rl_base_index l) (rl_base_term l).

Definition append_assign_indices (l : raft_log) (es : list log_entry) : raft_log :=
  set_entries l (rl_entries l ++ assign_indices (last_index l + 1) es).

Definition truncate_from (l : raft_log) (cut_index : Z) : raft_log :=
  if cut_index <=? rl_base_index l then set_entries l []
  else
    match rl_entries l with
    | [] => l
    | first :: _ =>
      if cut_index <=? e_index first then set_entries l []
      else set_entries l (take (Z.to_nat (cut_index - e_index first)) (rl_entries l))
    end.

(** The loop of [Log::append_at] over the received entries: the log, truncated
    at the first conflict, and the entries left to append.  [None] is the
    refusal to truncate a committed entry. *)
Fixpoint append_at_loop (l : raft_log) (idx : Z) (new_entries : list log_entry) (committed : Z)
  : option (raft_log * list log_entry) :=
  match new_entries with
  | [] => Some (l, [])
  | e :: rest =>
    if idx <=? rl_base_index l then append_at_loop l (idx + 1) rest committed
    else
      match term_at l idx with
      | Some t =>
        if t =? e_term e then append_at_loop l (idx + 1) rest committed
        else if idx <=? committed then None
        else Some (truncate_from l idx, new_entries)
      | None => Some (l, new_entries)
      end
  end.

(** [Log::append_at]: [None] is [Err(())], with the log unchanged; otherwise the
    new log and the first index that changed. *)
Definition append_at (l : raft_log) (start_index : Z) (new_entries : list log_entry) (committed : Z)
  : option (raft_log * option Z) :=
  r ← append_at_loop l start_index new_entries committed;
  match r with
  | (l', []) => Some (l', None)
  | (l', to_append) =>
    let first_changed := last_index l' + 1 in
    Some (set_entries l' (rl_entries l' ++ assign_indices first_changed to_append), Some first_changed)
  end.

Definition compact_through (l : raft_log) (cut_index cut_term : Z) : raft_log :=
  if cut_index <=? rl_base_index l then l
  else
    let drop_count :=
      match rl_entries l with
      | first :: _ => Z.min (sat_sub_u64 (sat_add_u64 cut_index 1) (e_index first)) (len (rl_entries l))
      | [] => 0
      end in
    mkLog (drop (Z.to_nat drop_count) (rl_entries l)) cut_index cut_term.

(** [Log::install_snapshot]: the new log and whether the suffix was kept. *)
Definition log_install_snapshot (l : raft_log) (last_index last_term : Z) : raft_log * bool :=
  let keep := bool_decide (term_at l last_index = Some last_term) && (rl_base_index l <=? last_index) in
  if keep then (compact_through l last_index last_term, true)
  else (mkLog [] last_index last_term, false).

(** ** Persistence operations and the reference store *)

Inductive persist_op : Type :=
| HardState (term : Z) (voted_for : option Z)
| Append (es : list log_entry)
| TruncateFrom (from : Z)
| CompactThrough (through : Z).

Record persisted_raft : Type := mkPersisted {
  pr_current_term : Z; pr_voted_for : option Z; pr_log : list log_entry }.

Record persisted_snapshot : Type := mkSnapshot {
  ps_last_index : Z; ps_last_term : Z; ps_data : list byte }.

Definition from_runtime (current_term : Z) (voted_for : option Z) (l : raft_log) : persisted_raft :=
  mkPersisted current_term voted_for (rl_entries l).

Definition into_log (p : persisted_raft) : raft_log := mkLog (pr_log p) 0 0.

(** One operation of [MemStore::persist]. *)
Definition mem_persist_op (s : persisted_raft) (op : persist_op) : persisted_raft :=
  match op with
  | HardState term voted_for => mkPersisted term voted_for (pr_log s)
  | Append es => mkPersisted (pr_current_term s) (pr_voted_for s) (pr_log s ++ es)
  | TruncateFrom from =>
    mkPersisted (pr_current_term s) (pr_voted_for s) (filter (fun e => e_index e < from) (pr_log s))
  | CompactThrough t =>
    mkPersisted (pr_current_term s) (pr_voted_for s) (filter (fun e => e_index e > t) (pr_log s))
  end.

Definition mem_persist (s : persisted_raft) (ops : list persist_op) : persisted_raft :=
  fold_left mem_persist_op ops s.

(** [RaftStore::save_all]. *)
Definition save_all_ops (p : persisted_raft) : list persist_op :=
  [HardState (pr_current_term p) (pr_voted_for p); TruncateFrom 0; Append (pr_log p)].

(** ** Well-formed logs *)

(** Consecutive indices, the first one after [b]. *)
Fixpoint contiguous (b : Z) (es : list log_entry) : Prop :=
  match es with
  | [] => True
  | e :: es' => e_index e = b + 1 /\ contiguous (b + 1) es'
  end.

Definition log_wf (l : raft_log) : Prop :=
  0 <= rl_base_index l /\ contiguous (rl_base_index l) (rl_entries l).

Lemma contiguous_app b es fs :
  contiguous b (es ++ fs) <-> contiguous b es /\ contiguous (b + len es) fs.
Proof.
  revert b. induction es as [|e es IH]; intros b; cbn.
  - replace (b + len []) with b by len_lia. tauto.
  - rewrite IH. replace (b + 1 + len es) with (b + len (e :: es)) by len_lia. tauto.
Qed.

Lemma contiguous_take b es n : contiguous b es -> contiguous b (take n es).
Proof. rewrite <- (take_drop n es) at 1. rewrite contiguous_app. tauto. Qed.

Lemma contiguous_drop b es n c :
  contiguous b es -> c = b + Z.of_nat (Nat.min n (length es)) -> contiguous c (drop n es).
Proof.
  rewrite <- (take_drop n es) at 1. rewrite contiguous_app. intros [_ H] ->.
  unfold len in H. by rewrite length_take in H.
Qed.

Lemma contiguous_lookup b es i e :
  contiguous b es -> es !! i = Some e -> e_index e = b + 1 + Z.of_nat i.
Proof.
  revert b i. induction es as [|e' es IH]; intros b [|i]; cbn; [done..| |].
  - intros [H _] [= <-]. lia.
  - intros [_ H] Hi. rewrite (IH _ _ H Hi). lia.
Qed.

Lemma contiguous_last b es e : contiguous b es -> last es = Some e -> e_index e = b + len es.
Proof.
  intros Hc Hl. rewrite last_lookup in Hl. rewrite (contiguous_lookup _ _ _ _ Hc Hl).
  apply lookup_lt_Some in Hl. unfold len. lia.
Qed.

(** Selecting the entries above an index drops a prefix. *)
Lemma contiguous_filter_gt b es t :
  contiguous b es -> filter (fun e => e_index e > t) es = drop (Z.to_nat (t - b)) es.
Proof.
  revert b. induction es as [|e es IH]; intros b; cbn [contiguous].
  { by rewrite drop_nil. }
  intros [He Hc]. destruct (decide (e_index e > t)).
  - rewrite filter_cons_True, (IH _ Hc) by done.
    replace (Z.to_nat (t - (b + 1))) with 0%nat by lia. by replace (Z.to_nat (t - b)) with 0%nat by lia.
  - rewrite filter_cons_False, (IH _ Hc) by done.
    by replace (Z.to_nat (t - b)) with (S (Z.to_nat (t - (b + 1)))) by lia.
Qed.

(** Selecting the entries below an index keeps a prefix. *)
Lemma contiguous_filter_lt b es f :
  contiguous b es -> filter (fun e => e_index e < f) es = take (Z.to_nat (f - b - 1)) es.
Proof.
  revert b. induction es as [|e es IH]; intros b; cbn [contiguous].
  { by rewrite take_nil. }
  intros [He Hc]. destruct (decide (e_index e < f)).
  - rewrite filter_cons_True, (IH _ Hc) by done.
    by replace (Z.to_nat (f - b - 1)) with (S (Z.to_nat (f - (b + 1) - 1))) by lia.
  - rewrite filter_cons_False, (IH _ Hc) by done.
    replace (Z.to_nat (f - (b + 1) - 1)) with 0%nat by lia. by replace (Z.to_nat (f - b - 1)) with 0%nat by lia.
Qed.

Lemma assign_indices_contiguous next es : contiguous (next - 1) (assign_indices next es).
Proof.
  revert next. induction es as [|e es IH]; intros next; cbn; [done|]. split; [lia|].
  replace (next - 1 + 1) with (next + 1 - 1) by lia. apply IH.
Qed.

Lemma assign_indices_lookup next es i :
  assign_indices next es !! i = (fun e => mkEntry (e_term e) (next + Z.of_nat i) (e_payload e)) <$> es !! i.
Proof.
  revert next i. induction es as [|e es IH]; intros next [|i]; cbn; [done..| |].
  - do 2 f_equal. lia.
  - rewrite IH. destruct (es !! i); cbn; [|done]. do 2 f_equal. lia.
Qed.

Lemma assign_indices_length next es : length (assign_indices next es) = length es.
Proof. revert next. induction es as [|e es IH]; intros; cbn; [done|]. by rewrite IH. Qed.

(** Entries that already carry the right indices are left alone. *)
Lemma assign_indices_id next es : contiguous (next - 1) es -> assign_indices next es = es.
Proof.
  revert next. induction es as [|e es IH]; intros next; cbn; [done|]. intros [He Hc]. f_equal.
  - destruct e; cbn in *. f_equal. lia.
  - apply IH. by replace (next + 1 - 1) with (next - 1 + 1) by lia.
Qed.

Section LogFacts.
Context (l : raft_log) (Hwf : log_wf l).

Lemma last_index_eq : last_index l = rl_base_index l + len (rl_entries l).
Proof using Hwf.
  unfold last_index. destruct (last (rl_entries l)) as [e|] eqn:E.
  - apply (contiguous_last _ _ _ (proj2 Hwf) E).
  - apply last_None in E. rewrite E. len_lia.
Qed.

Lemma last_index_ge : 0 <= rl_base_index l <= last_index l.
Proof using Hwf. rewrite last_index_eq. destruct Hwf. len_lia. Qed.

Lemma log_get_eq i :
  log_get l i = if rl_base_index l <? i then rl_entries l !! Z.to_nat (i - rl_base_index l - 1) else None.
Proof using Hwf.
  unfold log_get. destruct Hwf as [_ Hc]. destruct (rl_entries l) as [|e es] eqn:E.
  - cbn. case_if; done.
  - cbn [head mbind option_bind] in *. destruct Hc as [He _].
    destruct (i <? e_index e) eqn:E1; destruct (rl_base_index l <? i) eqn:E2; boolp; try lia; [done|].
    do 2 f_equal. lia.
Qed.

Lemma log_get_index i e : log_get l i = Some e -> e_index e = i /\ rl_base_index l < i <= last_index l.
Proof using Hwf.
  rewrite log_get_eq, last_index_eq. intros H. case_if_in H; [|done].
  pose proof (contiguous_lookup _ _ _ _ (proj2 Hwf) H). apply lookup_lt_Some in H. unfold len. lia.
Qed.

Lemma log_get_is_Some i : rl_base_index l < i <= last_index l -> is_Some (log_get l i).
Proof using Hwf.
  intros Hi. rewrite log_get_eq. rewrite last_index_eq in Hi.
  rewrite (proj2 (Z.ltb_lt _ _)) by lia. apply lookup_lt_is_Some_2. unfold len in Hi. lia.
Qed.

(** Above the base, the term of an index is that of its entry. *)
Lemma term_at_above i : rl_base_index l < i -> term_at l i = e_term <$> log_get l i.
Proof using Hwf.
  intros Hi. pose proof last_index_ge. unfold term_at.
  rewrite !(proj2 (Z.eqb_neq _ _)), (proj2 (Z.ltb_ge _ _)) by lia. by destruct (log_get l i).
Qed.

Lemma term_at_Some_le i t : term_at l i = Some t -> i <= last_index l.
Proof using Hwf.
  pose proof last_index_ge. unfold term_at. intros Ht.
  repeat case_if_in Ht; try lia; try done.
  destruct (log_get l i) as [e|] eqn:E; [|done]. apply log_get_index in E. lia.
Qed.

Lemma truncate_from_eq c : truncate_from l c = set_entries l (take (Z.to_nat (c - rl_base_index l - 1)) (rl_entries l)).
Proof using Hwf.
  unfold truncate_from. destruct Hwf as [_ Hc]. case_if.
  { by replace (Z.to_nat (c - rl_base_index l - 1)) with 0%nat by lia. }
  destruct (rl_entries l) as [|e es] eqn:E.
  { rewrite take_nil. destruct l; cbn in *. by rewrite E. }
  cbn [contiguous] in Hc. case_if.
  - by replace (Z.to_nat (c - rl_base_index l - 1)) with 0%nat by lia.
  - rewrite <- E. do 2 f_equal. lia.
Qed.

Lemma compact_through_eq c t :
  last_index l < U64_MAX -> rl_base_index l < c ->
  compact_through l c t = mkLog (drop (Z.to_nat (c - rl_base_index l)) (rl_entries l)) c t.
Proof using Hwf.
  intros Hb Hlt. rewrite last_index_eq in Hb. unfold compact_through.
  rewrite (proj2 (Z.leb_gt _ _)) by lia. f_equal. destruct Hwf as [H0 Hc].
  destruct (rl_entries l) as [|e es] eqn:E; [by rewrite !drop_nil|].
  destruct Hc as [He _]. unfold sat_sub_u64, sat_add_u64. rewrite He.
  destruct (Z.le_gt_cases (c - rl_base_index l) (len (e :: es))) as [Hle|Hgt].
  - f_equal. unfold U64_MAX in *. lia.
  - rewrite !drop_ge; [done|unfold len in *; lia|unfold len, U64_MAX in *; lia].
Qed.

Lemma set_entries_wf es : contiguous (rl_base_index l) es -> log_wf (set_entries l es).
Proof using Hwf. split; [apply Hwf|done]. Qed.

(** The slice [Log::slice] takes is in range. *)
Lemma log_slice_in_bounds start end_exclusive first :
  head (rl_entries l) = Some first -> 0 <= start ->
  let s := Z.max start (e_index first) in
  let e := Z.min end_exclusive (last_index l + 1) in
  s < e -> 0 <= s - e_index first <= e - e_index first /\ e - e_index first <= len (rl_entries l).
Proof using Hwf.
  intros Hf Hs s e Hlt. pose proof last_index_eq as Hl. destruct Hwf as [_ Hc]. subst s e.
  destruct (rl_entries l) as [|x es] eqn:E; [done|]. cbn in Hf. simplify_eq. destruct Hc as [Hx _]. lia.
Qed.

(** A slice to the end of the log is the suffix of the entries. *)
Lemma log_slice_suffix start end_exclusive :
  rl_base_index l < start -> last_index l < end_exclusive ->
  log_slice l start end_exclusive = drop (Z.to_nat (start - rl_base_index l - 1)) (rl_entries l).
Proof using Hwf.
  intros Hs He. pose proof last_index_eq as Hl. pose proof last_index_ge. unfold log_slice.
  destruct Hwf as [_ Hc]. destruct (rl_entries l) as [|x es] eqn:E; [by rewrite drop_nil|].
  destruct Hc as [Hx _]. rewrite <- E in *.
  destruct (start <=? last_index l) eqn:E1; boolp.
  - rewrite (proj2 (Z.eqb_neq _ _)), (proj2 (Z.leb_gt end_exclusive _)) by lia. cbn [orb].
    rewrite (proj2 (Z.leb_gt _ _)) by lia.
    replace (Z.to_nat (Z.max start (e_index x) - e_index x)) with (Z.to_nat (start - rl_base_index l - 1)) by lia.
    apply take_ge. rewrite length_drop. unfold len in Hl. lia.
  - rewrite (proj2 (Z.leb_le (Z.min _ _) _)) by lia.
    rewrite drop_ge by (unfold len in Hl; lia). by destruct (_ || _).
Qed.
End LogFacts.

Lemma log_get_app l es es' i :
  log_wf l -> rl_entries l = es -> i <= rl_base_index l + len es ->
  forall l', log_wf l' -> rl_base_index l' = rl_base_index l -> rl_entries l' = es ++ es' ->
  log_get l' i = log_get l i.
Proof.
  intros Hwf <- Hi l' Hwf' Hb He. rewrite !log_get_eq, Hb, He by done.
  case_if; [|done]. apply lookup_app_l. unfold len in Hi. lia.
Qed.

(** ** Appending what a leader sent *)

Lemma take_all_entries l c :
  log_wf l -> last_index l < c ->
  set_entries l (take (Z.to_nat (c - rl_base_index l - 1)) (rl_entries l)) = l.
Proof.
  intros Hwf Hc. rewrite (last_index_eq l Hwf) in Hc.
  rewrite take_ge by (unfold len in Hc; lia). by destruct l.
Qed.

(** The loop skips a prefix of the received entries the log already has; what is
    left starts at [c], where the log is cut, and only an uncommitted conflict
    cuts it. *)
Lemma append_at_loop_Some l idx new committed l' rest :
  log_wf l -> 0 < idx <= last_index l + 1 ->
  append_at_loop l idx new committed = Some (l', rest) ->
  exists skipped, new = skipped ++ rest /\
    (forall i e, skipped !! i = Some e ->
       idx + Z.of_nat i <= rl_base_index l \/ term_at l (idx + Z.of_nat i) = Some (e_term e)) /\
    let c := idx + len skipped in
    match rest with
    | [] => l' = l
    | e :: _ =>
      l' = set_entries l (take (Z.to_nat (c - rl_base_index l - 1)) (rl_entries l)) /\
      rl_base_index l < c <= last_index l + 1 /\
      (c <= last_index l -> committed < c /\ term_at l c <> Some (e_term e))
    end.
Proof.
  intros Hwf. pose proof (last_index_ge l Hwf) as Hge.
  revert idx. induction new as [|e new IH]; intros idx Hidx; cbn [append_at_loop].
  { intros [= <- <-]. exists []. split; [done|]. split; [by intros [|]|done]. }
  assert (idx + 1 <= last_index l + 1 -> (idx <= rl_base_index l \/ term_at l idx = Some (e_term e)) ->
    append_at_loop l (idx + 1) new committed = Some (l', rest) -> exists skipped,
      e :: new = skipped ++ rest /\
      (forall i e', skipped !! i = Some e' ->
         idx + Z.of_nat i <= rl_base_index l \/ term_at l (idx + Z.of_nat i) = Some (e_term e')) /\
      let c := idx + len skipped in
      match rest with
      | [] => l' = l
      | e' :: _ =>
        l' = set_entries l (take (Z.to_nat (c - rl_base_index l - 1)) (rl_entries l)) /\
        rl_base_index l < c <= last_index l + 1 /\
        (c <= last_index l -> committed < c /\ term_at l c <> Some (e_term e'))
      end) as Hskip.
  { intros Hle Hm Hr. destruct (IH (idx + 1) ltac:(lia) Hr) as (sk & -> & Hsk & Hc).
    exists (e :: sk). split; [done|]. split.
    - intros [|i] e'; cbn [lookup list_lookup].
      + intros [= <-]. by replace (idx + Z.of_nat 0) with idx by lia.
      + intros Hi. replace (idx + Z.of_nat (S i)) with (idx + 1 + Z.of_nat i) by lia. by apply Hsk.
    - by replace (idx + len (e :: sk)) with (idx + 1 + len sk) by len_lia. }
  case_if; [intros Hr; apply Hskip; [lia|by left|done]|].
  destruct (term_at l idx) as [t|] eqn:Et.
  - pose proof (term_at_Some_le l Hwf _ _ Et).
    case_if; [subst; intros Hr; apply Hskip; [lia|by right|done]|].
    case_if; [done|]. intros [= <- <-]. exists []. split; [done|]. split; [by intros [|]|].
    cbn zeta. replace (idx + len []) with idx by len_lia.
    rewrite truncate_from_eq by done. split_and!; [done|lia|lia|]. intros _. split; [lia|].
    rewrite Et. congruence.
  - intros [= <- <-]. assert (idx = last_index l + 1) as ->.
    { destruct (decide (idx = last_index l + 1)) as [|Hne]; [done|].
      destruct (log_get_is_Some l Hwf idx) as [x Hx]; [lia|].
      rewrite term_at_above, Hx in Et by (done || lia). done. }
    exists []. split; [done|]. split; [by intros [|]|]. cbn zeta.
    replace (last_index l + 1 + len []) with (last_index l + 1) by len_lia.
    rewrite take_all_entries by (done || lia). split_and!; [done|lia|lia|lia].
Qed.

Lemma append_at_loop_None l idx new committed :
  append_at_loop l idx new committed = None ->
  exists i e, new !! i = Some e /\ rl_base_index l < idx + Z.of_nat i <= committed /\
    term_at l (idx + Z.of_nat i) <> None /\ term_at l (idx + Z.of_nat i) <> Some (e_term e).
Proof.
  revert idx. induction new as [|e new IH]; intros idx; cbn [append_at_loop]; [done|].
  assert (append_at_loop l (idx + 1) new committed = None -> exists i e', (e :: new) !! i = Some e' /\
    rl_base_index l < idx + Z.of_nat i <= committed /\
    term_at l (idx + Z.of_nat i) <> None /\ term_at l (idx + Z.of_nat i) <> Some (e_term e')) as Hskip.
  { intros Hr. destruct (IH _ Hr) as (i & e' & Hi & Hb & Ht). exists (S i), e'.
    replace (idx + Z.of_nat (S i)) with (idx + 1 + Z.of_nat i) by lia. done. }
  case_if; [done|]. destruct (term_at l idx) as [t|] eqn:Et; [|done].
  case_if; [done|]. case_if; [|done]. intros _. exists 0%nat, e.
  replace (idx + Z.of_nat 0) with idx by lia. rewrite Et. split_and!; [done|lia|lia|done|congruence].
Qed.

(** [append_at] on a well-formed log, in terms of the entries. *)
Lemma append_at_Some l start new committed l' fc :
  log_wf l -> 0 < start <= last_index l + 1 ->
  append_at l start new committed = Some (l', fc) ->
  log_wf l' /\ rl_base_index l' = rl_base_index l /\ rl_base_term l' = rl_base_term l /\
  match fc with
  | None => l' = l /\ forall i e, new !! i = Some e -> rl_base_index l < start + Z.of_nat i ->
      term_at l (start + Z.of_nat i) = Some (e_term e)
  | Some c =>
    start <= c /\ rl_base_index l < c <= last_index l + 1 /\
    rl_entries l' = take (Z.to_nat (c - rl_base_index l - 1)) (rl_entries l) ++
                    assign_indices c (drop (Z.to_nat (c - start)) new) /\
    (Z.to_nat (c - start) < length new)%nat /\
    (forall i e, new !! i = Some e -> rl_base_index l < start + Z.of_nat i < c ->
      term_at l (start + Z.of_nat i) = Some (e_term e)) /\
    (c <= last_index l -> committed < c /\ forall e, new !! Z.to_nat (c - start) = Some e ->
      term_at l c <> Some (e_term e))
  end.
Proof.
  intros Hwf Hst. unfold append_at. destruct (append_at_loop _ _ _ _) as [[l0 rest]|] eqn:E; [|done].
  cbn [mbind option_bind]. pose proof (last_index_eq l Hwf) as Hli.
  apply append_at_loop_Some in E as (sk & -> & Hsk & Hc); [|done..]. destruct rest as [|e rest].
  { intros [= <- <-]. cbn zeta in Hc. subst l0. split_and!; [apply Hwf..|done|done|done|]. intros i e Hi Hb. rewrite app_nil_r in Hi.
    destruct (Hsk _ _ Hi); [lia|done]. }
  cbn zeta in Hc. set (c := start + len sk) in *. destruct Hc as (-> & Hb & Hcut).
  set (pre := take (Z.to_nat (c - rl_base_index l - 1)) (rl_entries l)).
  assert (log_wf (set_entries l pre)) as Hpre by (apply set_entries_wf; [done|]; apply contiguous_take, Hwf).
  assert (last_index (set_entries l pre) + 1 = c) as Hlast.
  { rewrite (last_index_eq _ Hpre). cbn [set_entries rl_base_index rl_entries]. unfold pre. len_lia. }
  rewrite Hlast. intros [= <- <-]. cbn [set_entries rl_base_index rl_entries rl_base_term].
  assert (Z.to_nat (c - start) = length sk) as Hn by (unfold c, len; lia).
  assert (len pre = c - rl_base_index l - 1) as Hlp by (unfold pre; len_lia).
  split_and!; [|done|done|subst c; len_lia|lia|lia| | |..].
  - split; [apply Hwf|]. cbn. apply contiguous_app. split; [apply Hpre|].
    replace (rl_base_index l + len pre) with (c - 1) by lia. apply (assign_indices_contiguous c (e :: rest)).
  - by rewrite Hn, drop_app_length.
  - rewrite Hn, length_app. cbn. lia.
  - intros i e' Hi Hib. rewrite lookup_app_l in Hi by (unfold c, len in Hib; lia).
    destruct (Hsk _ _ Hi); [lia|done].
  - intros Hle. split; [by apply Hcut|]. intros e' He'. rewrite Hn, lookup_app_r in He' by lia.
    replace (length sk - length sk)%nat with 0%nat in He' by lia. simplify_eq/=. by apply Hcut.
Qed.

(** Entries below the first changed index are untouched. *)
Lemma append_at_get_below l start new committed l' fc i :
  log_wf l -> 0 < start <= last_index l + 1 ->
  append_at l start new committed = Some (l', fc) ->
  (forall c, fc = Some c -> i < c) -> log_get l' i = log_get l i.
Proof.
  intros Hwf Hst Ha Hi. apply append_at_Some in Ha as (Hwf' & Hb & _ & Hfc); [|done..].
  destruct fc as [c|]; [|by destruct Hfc as [-> _]]. specialize (Hi c eq_refl).
  destruct Hfc as (_ & Hc & He & _). rewrite !log_get_eq, Hb, He by done. case_if; [|done].
  rewrite (last_index_eq l Hwf) in Hc. unfold len in Hc.
  rewrite lookup_app_l by (rewrite length_take; lia). rewrite lookup_take. case_decide; [done|lia].
Qed.

(** After the append the log holds the received terms. *)
Lemma append_at_terms l start new committed l' fc i e :
  log_wf l -> 0 < start <= last_index l + 1 ->
  append_at l start new committed = Some (l', fc) ->
  new !! i = Some e -> rl_base_index l < start + Z.of_nat i ->
  term_at l' (start + Z.of_nat i) = Some (e_term e).
Proof.
  intros Hwf Hst Ha Hi Hb. pose proof Ha as Ha'.
  apply append_at_Some in Ha' as (Hwf' & Hb' & _ & Hfc); [|done..].
  destruct fc as [c|]; [|by destruct Hfc as [-> Hfc]; apply Hfc].
  destruct Hfc as (Hsc & Hc & He & Hn & Hlt & _).
  destruct (decide (start + Z.of_nat i < c)) as [Hic|Hic].
  - specialize (Hlt _ _ Hi ltac:(lia)). rewrite term_at_above in Hlt |- * by (done || lia).
    rewrite <- Hlt. f_equal. eapply append_at_get_below; [done..|]. intros ? [= <-]. lia.
  - rewrite term_at_above, log_get_eq, Hb', He by (done || lia).
    rewrite (proj2 (Z.ltb_lt _ _)) by lia.
    rewrite (last_index_eq l Hwf) in Hc. unfold len in Hc.
    rewrite lookup_app_r, assign_indices_lookup, lookup_drop by (rewrite length_take; lia).
    rewrite length_take.
    replace (Z.to_nat (c - start) + _)%nat with i by lia. by rewrite Hi.
Qed.

(** ** Properties of the log *)

(** A follower's log after [Log::append_at].  On a log with consecutive
    indices, given entries that start no later than one past its end, a refusal
    happens only when an entry conflicts with one at or below the commit index.
    Otherwise the log keeps consecutive indices and its compacted base, every
    committed entry is untouched, every received index now holds the received
    term, and the log is cut only at the first conflicting index: an append of
    entries the log already has changes nothing. *)
Theorem append_at_correct l start new committed :
  log_wf l -> 0 < start <= last_index l + 1 -> committed <= last_index l ->
  match append_at l start new committed with
  | None => exists i e, new !! i = Some e /\ rl_base_index l < start + Z.of_nat i <= committed /\
      term_at l (start + Z.of_nat i) <> Some (e_term e)
  | Some (l', fc) =>
    log_wf l' /\ rl_base_index l' = rl_base_index l /\
    (forall i, i <= committed -> log_get l' i = log_get l i) /\
    (forall i e, new !! i = Some e -> rl_base_index l < start + Z.of_nat i ->
       term_at l' (start + Z.of_nat i) = Some (e_term e)) /\
    match fc with
    | None => l' = l
    | Some c =>
      committed < c <= last_index l + 1 /\
      rl_entries l' = take (Z.to_nat (c - rl_base_index l - 1)) (rl_entries l) ++
                      assign_indices c (drop (Z.to_nat (c - start)) new) /\
      (c <= last_index l -> forall e, new !! Z.to_nat (c - start) = Some e -> term_at l c <> Some (e_term e))
    end
  end.
Proof.
  intros Hwf Hst Hcom. destruct (append_at l start new committed) as [[l' fc]|] eqn:Ha.
  - pose proof Ha as Ha'. apply append_at_Some in Ha' as (Hwf' & Hb & _ & Hfc); [|done..].
    split_and!; [apply Hwf'..|done| | |].
    + intros i Hi. eapply append_at_get_below; [done..|]. intros c ->.
      destruct Hfc as (_ & Hc & _ & _ & _ & Hcut).
      destruct (decide (c <= last_index l)) as [Hle|]; [destruct (Hcut Hle)|]; lia.
    + intros i e. by apply (append_at_terms l start new committed l' fc).
    + destruct fc as [c|]; [|by destruct Hfc].
      destruct Hfc as (_ & Hc & He & _ & _ & Hcut). split_and!; [|lia|done|by intros Hle; apply Hcut].
      destruct (decide (c <= last_index l)) as [Hle|]; [destruct (Hcut Hle)|]; lia.
  - unfold append_at in Ha. destruct (append_at_loop _ _ _ _) as [[l0 rest]|] eqn:E.
    { cbn in Ha. by destruct rest. }
    apply append_at_loop_None in E as (i & e & ? & ? & ? & ?). eauto.
Qed.

Definition sample_log : raft_log :=
  mkLog [mkEntry 1 3 [x61]; mkEntry 1 4 [x62]; mkEntry 2 5 [x63]] 2 1.

Lemma sample_log_wf : log_wf sample_log.
Proof. split; cbn; lia. Qed.

Lemma append_at_correct_witness :
  append_at sample_log 4 [mkEntry 1 4 [x62]; mkEntry 3 5 [x64]] 4 =
    Some (mkLog [mkEntry 1 3 [x61]; mkEntry 1 4 [x62]; mkEntry 3 5 [x64]] 2 1, Some 5) /\
  log_wf (mkLog [mkEntry 1 3 [x61]; mkEntry 1 4 [x62]; mkEntry 3 5 [x64]] 2 1).
Proof.
  split; [vm_compute; reflexivity|].
  pose proof (append_at_correct sample_log 4 [mkEntry 1 4 [x62]; mkEntry 3 5 [x64]] 4) as H.
  destruct H as (H & _); [apply sample_log_wf|vm_compute; split; congruence|vm_compute; congruence|].
  exact H.
Defined.
