(* ===== verification/RaftStore.v ===== *)
(** * The durable Raft store ([FileStore] of crates/es-broker/src/raft/log.rs)

    The append-only log file, its record format and torn-tail rule, the position
    index, and [load]/[persist].  The hard-state and snapshot files are JSON
    written by [serde_json] and replaced atomically: the model keeps the value
    they hold.  The refinement theorem shows that the file store implements the
    reference store of [RaftLog]. *)

From S2P Require Export RaftLog.

#[local] Open Scope Z_scope.

Definition ENTRY_HEADER : Z := 4 + 4 + 8 + 8.
Definition MAX_ENTRY_BYTES : Z := 512 * 1024 * 1024.

Section Codec.
Context `{!Crc32}.

Definition encode_entry (e : log_entry) : list byte :=
  let body := to_be 8 (e_term e) ++ to_be 8 (e_index e) ++ e_payload e in
  to_be 4 (4 + 8 + 8 + len (e_payload e)) ++ to_be 4 (crc32 body) ++ body.

(** The loop of [decode_log]: [rest] are the bytes from [pos] on. *)
Fixpoint decode_log_loop (fuel : nat) (rest : list byte) (pos : Z) : list (log_entry * Z) * Z :=
  match fuel with
  | O => ([], pos)
  | S fuel' =>
    if len rest <? ENTRY_HEADER then ([], pos)
    else
      let body_len := from_be (take 4 rest) in
      if negb ((20 <=? body_len) && (body_len <=? MAX_ENTRY_BYTES)) || (len rest <? 4 + body_len) then ([], pos)
      else
        let crc := from_be (take 4 (drop 4 rest)) in
        let body := take (Z.to_nat (body_len - 4)) (drop 8 rest) in
        if negb (crc32 body =? crc) then ([], pos)
        else
          let term := from_be (take 8 body) in
          let index := from_be (take 8 (drop 8 body)) in
          let (out, valid) :=
            decode_log_loop fuel' (drop (Z.to_nat (4 + body_len)) rest) (pos + 4 + body_len) in
          ((mkEntry term index (drop 16 body), pos) :: out, valid)
  end.

Definition decode_log (bytes : list byte) : list (log_entry * Z) * Z :=
  decode_log_loop (length bytes) bytes 0.
End Codec.

(** ** The store *)

Record legacy_entry : Type := mkLegacy { le_term : Z; le_index : Z; le_payload_b64 : string }.

Record hard_state_file : Type := mkHard {
  hf_current_term : Z; hf_voted_for : option Z; hf_log : list legacy_entry }.

(** [FileLog]: whether the file is open, the position of every entry, the length. *)
Record file_log : Type := mkFileLog {
  fl_open : bool; fl_positions : list (Z * Z); fl_len : Z }.

(** The files of a store and its in-memory part.  [fs_unsynced] records whether
    the log file has been written since it was last synced. *)
Record file_store : Type := mkStore {
  fs_hard : option hard_state_file;
  fs_log : option (list byte);
  fs_snapshot : option persisted_snapshot;
  fs_unsynced : bool;
  fs_inner : file_log }.

Definition set_inner (fs : file_store) (i : file_log) : file_store :=
  mkStore (fs_hard fs) (fs_log fs) (fs_snapshot fs) (fs_unsynced fs) i.
Definition set_log_file (fs : file_store) (b : list byte) (unsynced : bool) (i : file_log) : file_store :=
  mkStore (fs_hard fs) (Some b) (fs_snapshot fs) unsynced i.

(** [FileStore::new] on existing files. *)
Definition store_new (hard : option hard_state_file) (log : option (list byte)) (snap : option persisted_snapshot)
  : file_store := mkStore hard log snap false (mkFileLog false [] 0).

Definition write_hard_state (fs : file_store) (term : Z) (voted_for : option Z) : file_store :=
  mkStore (Some (mkHard term voted_for [])) (fs_log fs) (fs_snapshot fs) (fs_unsynced fs) (fs_inner fs).

Definition log_bytes (fs : file_store) : list byte := default [] (fs_log fs).

Definition open_log (fs : file_store) : file_store :=
  if fl_open (fs_inner fs) then fs
  else
    set_log_file fs (log_bytes fs) (fs_unsynced fs)
      (mkFileLog true (fl_positions (fs_inner fs)) (len (log_bytes fs))).

Section Store.
Context `{!Crc32}.

Definition enc_log (es : list log_entry) : list byte := concat (encode_entry <$> es).

(** The [(index, position)] pairs of entries written from [base] on. *)
Fixpoint log_positions (base : Z) (es : list log_entry) : list (Z * Z) :=
  match es with
  | [] => []
  | e :: es' => (e_index e, base) :: log_positions (base + len (encode_entry e)) es'
  end.

Definition rewrite_log (fs : file_store) (entries : list log_entry) : file_store :=
  open_log (set_log_file fs (enc_log entries) false
              (mkFileLog false (log_positions 0 entries) (len (enc_log entries)))).

(** [read_entries_after]: [None] when the log is not open. *)
Definition read_entries_after (fs : file_store) (through : Z) : option (list log_entry) :=
  let inner := fs_inner fs in
  let first := partition_point (fun p : Z * Z => fst p <=? through) (fl_positions inner) in
  match fl_positions inner !! first with
  | None => Some []
  | Some (_, start) =>
    if fl_open inner then
      let buf := take (Z.to_nat (fl_len inner - start)) (drop (Z.to_nat start) (log_bytes fs)) in
      Some (fst <$> fst (decode_log buf))
    else None
  end.

Definition sync_data (fs : file_store) : file_store :=
  mkStore (fs_hard fs) (fs_log fs) (fs_snapshot fs) false (fs_inner fs).

(** One operation of [FileStore::persist].  [fault] is the outcome of the log
    write, if the operation makes one: [Some k] fails after [k] bytes reached the
    file.  The result is the store, [log_dirty] and whether to go on. *)
Definition persist_op_step (fs : file_store) (log_dirty : bool) (fault : option Z) (op : persist_op)
  : file_store * bool * bool :=
  match op with
  | HardState term voted_for => (write_hard_state fs term voted_for, log_dirty, true)
  | Append [] => (fs, log_dirty, true)
  | Append entries =>
    let fs := open_log fs in
    let inner := fs_inner fs in
    let buf := enc_log entries in
    match fault with
    | Some k =>
      let torn := log_bytes fs ++ take (Z.to_nat k) buf in
      (set_log_file fs (take (Z.to_nat (fl_len inner)) torn) true inner, log_dirty, false)
    | None =>
      (set_log_file fs (log_bytes fs ++ buf) true
         (mkFileLog true (fl_positions inner ++ log_positions (fl_len inner) entries)
            (fl_len inner + len buf)), true, true)
    end
  | TruncateFrom from =>
    let cut := partition_point (fun p : Z * Z => fst p <? from) (fl_positions (fs_inner fs)) in
    match fl_positions (fs_inner fs) !! cut with
    | None => (fs, log_dirty, true)
    | Some (_, pos) =>
      let fs := open_log fs in
      (set_log_file fs (take (Z.to_nat pos) (log_bytes fs)) true
         (mkFileLog true (take cut (fl_positions (fs_inner fs))) pos), true, true)
    end
  | CompactThrough through =>
    match head (fl_positions (fs_inner fs)) with
    | None => (fs, log_dirty, true)
    | Some (i, _) =>
      if through <? i then (fs, log_dirty, true)
      else
        let fs := open_log fs in
        let fs := if log_dirty then sync_data fs else fs in
        match read_entries_after fs through with
        | None => (fs, false, false)
        | Some keep => (rewrite_log fs keep, false, true)
        end
    end
  end.

(** [FileStore::persist]: the store and whether it returned [Ok]. *)
Fixpoint persist_loop (fs : file_store) (log_dirty : bool) (faults : list (option Z)) (ops : list persist_op)
  : file_store * bool :=
  match ops with
  | [] => (if log_dirty then sync_data fs else fs, true)
  | op :: ops' =>
    match persist_op_step fs log_dirty (default None (head faults)) op with
    | (fs', dirty', true) => persist_loop fs' dirty' (tail faults) ops'
    | (fs', _, false) => (fs', false)
    end
  end.

Definition file_persist (fs : file_store) (faults : list (option Z)) (ops : list persist_op)
  : file_store * bool := persist_loop fs false faults ops.

(** The [windows(2)] check of [load]. *)
Fixpoint windows_contiguous (es : list log_entry) : bool :=
  match es with
  | e :: ((e' :: _) as es') => (e_index e' =? e_index e + 1) && windows_contiguous es'
  | _ => true
  end.

(** [base64::engine::general_purpose::STANDARD_NO_PAD.decode] is a parameter. *)
Definition migrate_log (b64_decode : string -> option (list byte)) (fs : file_store) : option file_store :=
  match fs_hard fs, fs_log fs with
  | Some (mkHard term voted (le :: les)), None =>
    entries ← mapM (fun l => payload ← b64_decode (le_payload_b64 l);
                       Some (mkEntry (le_term l) (le_index l) payload)) (le :: les);
    Some (write_hard_state (rewrite_log fs entries) term voted)
  | _, _ => Some fs
  end.

(** [FileStore::load]: [None] is an error. *)
Definition file_load (b64_decode : string -> option (list byte)) (fs : file_store)
  : option (file_store * persisted_raft) :=
  let hard := default (mkHard 0 None []) (fs_hard fs) in
  fs ← migrate_log b64_decode fs;
  let bytes := log_bytes fs in
  let (decoded, valid) := decode_log bytes in
  let fs := if valid <? len bytes then set_log_file fs (take (Z.to_nat valid) bytes) false (fs_inner fs) else fs in
  let entries := fst <$> decoded in
  if windows_contiguous entries then
    let positions := (fun p : log_entry * Z => (e_index (fst p), snd p)) <$> decoded in
    let fs := set_inner fs (mkFileLog false positions valid) in
    let fs := match fs_log fs with Some _ => open_log fs | None => fs end in
    Some (fs, mkPersisted (hf_current_term hard) (hf_voted_for hard) entries)
  else None.

(** A restart: the process state is gone, the files stay. *)
Definition store_restart (fs : file_store) : file_store :=
  store_new (fs_hard fs) (fs_log fs) (fs_snapshot fs).
End Store.

(** ** The log file format *)

(** An entry the decoder accepts back: its fields fit, its payload is in bounds. *)
Definition entry_fits (e : log_entry) : Prop :=
  is_u 64 (e_term e) /\ is_u 64 (e_index e) /\ 20 + len (e_payload e) <= MAX_ENTRY_BYTES.

Section CodecFacts.
Context `{!Crc32}.

Lemma encode_entry_len e : len (encode_entry e) = 24 + len (e_payload e).
Proof. unfold encode_entry. len_lia. Qed.

Lemma enc_log_cons e es : enc_log (e :: es) = encode_entry e ++ enc_log es.
Proof. done. Qed.

Lemma enc_log_app es fs : enc_log (es ++ fs) = enc_log es ++ enc_log fs.
Proof. unfold enc_log. by rewrite fmap_app, concat_app. Qed.

Lemma log_positions_app b es fs :
  log_positions b (es ++ fs) = log_positions b es ++ log_positions (b + len (enc_log es)) fs.
Proof.
  revert b. induction es as [|e es IH]; intros b; cbn [app log_positions].
  - f_equal. unfold enc_log. cbn. len_lia.
  - rewrite IH. do 3 f_equal. rewrite enc_log_cons. len_lia.
Qed.

Lemma log_positions_length b es : length (log_positions b es) = length es.
Proof. revert b. induction es as [|e es IH]; intros; cbn; [done|]. by rewrite IH. Qed.

Lemma log_positions_head b es : fst <$> head (log_positions b es) = e_index <$> head es.
Proof. by destruct es. Qed.

(** The decoder needs enough bytes for the record its length field announces. *)
Definition decode_stops (tail : list byte) : Prop :=
  forall fuel pos, decode_log_loop fuel tail pos = ([], pos).

Lemma decode_stops_nil : decode_stops [].
Proof. by intros [|fuel] pos. Qed.

Lemma decode_stops_short tail : len tail < ENTRY_HEADER -> decode_stops tail.
Proof. intros Hs [|fuel] pos; [done|]. cbn. by rewrite (proj2 (Z.ltb_lt _ _)). Qed.

(** A record cut short is a torn tail, wherever the cut is. *)
Lemma decode_stops_torn e n :
  entry_fits e -> (n < length (encode_entry e))%nat -> decode_stops (take n (encode_entry e)).
Proof.
  intros (Ht & Hi & Hp) Hn. pose proof (encode_entry_len e) as Hl.
  destruct (decide (n < 24)%nat) as [Hs|Hs].
  { apply decode_stops_short. unfold ENTRY_HEADER. len_lia. }
  intros [|fuel] pos; [done|]. cbn [decode_log_loop].
  rewrite (proj2 (Z.ltb_ge _ ENTRY_HEADER)) by (unfold ENTRY_HEADER, len in *; rewrite length_take; lia).
  replace (take 4 (take n (encode_entry e))) with (to_be 4 (20 + len (e_payload e)))
    by (rewrite take_take, Nat.min_l by lia; unfold encode_entry;
        rewrite take_app_len by (by rewrite to_be_length); f_equal; lia).
  rewrite from_be4 by (unfold is_u, MAX_ENTRY_BYTES in *; len_lia).
  rewrite (proj2 (Z.ltb_lt (len _) _)) by (unfold len in *; rewrite length_take; lia).
  by rewrite orb_true_r.
Qed.

Lemma decode_log_loop_cons e rest fuel pos :
  entry_fits e ->
  decode_log_loop (S fuel) (encode_entry e ++ rest) pos =
    let (out, valid) := decode_log_loop fuel rest (pos + len (encode_entry e)) in ((e, pos) :: out, valid).
Proof.
  intros (Ht & Hi & Hp). pose proof (encode_entry_len e) as Hl. cbn [decode_log_loop].
  pose proof (len_nonneg rest). pose proof (len_nonneg (e_payload e)).
  rewrite (proj2 (Z.ltb_ge _ ENTRY_HEADER)) by (unfold ENTRY_HEADER; len_lia).
  replace (take 4 (encode_entry e ++ rest)) with (to_be 4 (20 + len (e_payload e)))
    by (unfold encode_entry; rewrite <- !app_assoc, take_app_len by (by rewrite to_be_length); f_equal; lia).
  rewrite from_be4 by (unfold is_u, MAX_ENTRY_BYTES in *; lia).
  rewrite !(proj2 (Z.leb_le _ _)), (proj2 (Z.ltb_ge (len _) _)) by len_lia. cbn [negb orb andb].
  set (body := to_be 8 (e_term e) ++ to_be 8 (e_index e) ++ e_payload e).
  assert (encode_entry e ++ rest = to_be 4 (20 + len (e_payload e)) ++ to_be 4 (crc32 body) ++ body ++ rest) as ->
    by (unfold encode_entry; fold body; by rewrite <- !app_assoc).
  rewrite (drop_app_len _ _ 4), (take_app_len _ _ 4) by (by rewrite to_be_length).
  rewrite from_be4 by apply crc32_range.
  replace (drop 8 (to_be 4 (20 + len (e_payload e)) ++ to_be 4 (crc32 body) ++ body ++ rest)) with (body ++ rest)
    by (rewrite app_assoc, drop_app_len; [done|by rewrite length_app, !to_be_length]).
  assert (len body = 16 + len (e_payload e)) as Hbody by (unfold body; len_lia).
  rewrite (take_app_len body) by (unfold len in *; lia).
  rewrite Z.eqb_refl. cbn [negb].
  replace (drop _ (_ ++ _ ++ body ++ rest)) with rest
    by (rewrite !app_assoc, drop_app_len; [done|rewrite !length_app, !to_be_length; unfold len in *; lia]).
  unfold body.
  rewrite (take_app_len _ _ 8), (drop_app_len _ _ 8), (take_app_len _ _ 8) by (by rewrite to_be_length).
  rewrite (app_assoc (to_be 8 _)), (drop_app_len _ _ 16) by (by rewrite length_app, !to_be_length).
  rewrite !from_be8 by done.
  replace (pos + 4 + (20 + len (e_payload e))) with (pos + len (encode_entry e)) by lia.
  by destruct e.
Qed.

Lemma decode_log_loop_enc es tail fuel pos :
  Forall entry_fits es -> decode_stops tail -> (length es <= fuel)%nat ->
  decode_log_loop fuel (enc_log es ++ tail) pos =
    (zip es (snd <$> log_positions pos es), pos + len (enc_log es)).
Proof.
  revert fuel pos. induction es as [|e es IH]; intros fuel pos Hf Ht Hfuel.
  - cbn. rewrite (Ht fuel pos). f_equal. unfold enc_log. cbn. len_lia.
  - apply Forall_cons in Hf as [He Hes]. destruct fuel as [|fuel]; [cbn in Hfuel; lia|].
    rewrite enc_log_cons, <- app_assoc, decode_log_loop_cons, IH by (cbn in Hfuel; done || lia).
    cbn [log_positions fmap list_fmap zip_with]. f_equal. len_lia.
Qed.

Lemma enc_log_length es : (length es <= length (enc_log es))%nat.
Proof.
  induction es as [|e es IH]; cbn [length]; [lia|]. rewrite enc_log_cons, length_app.
  pose proof (encode_entry_len e). pose proof (len_nonneg (e_payload e)). unfold len in *. lia.
Qed.

Lemma decode_log_enc es tail :
  Forall entry_fits es -> decode_stops tail ->
  decode_log (enc_log es ++ tail) = (zip es (snd <$> log_positions 0 es), len (enc_log es)).
Proof.
  intros Hf Ht. unfold decode_log. rewrite decode_log_loop_enc; [done..|].
  rewrite length_app. pose proof (enc_log_length es). lia.
Qed.

Lemma fst_zip_positions b es : fst <$> zip es (snd <$> log_positions b es) = es.
Proof. apply fst_zip. by rewrite length_fmap, log_positions_length. Qed.

Lemma index_zip_positions b es :
  (fun p : log_entry * Z => (e_index (fst p), snd p)) <$> zip es (snd <$> log_positions b es) = log_positions b es.
Proof. revert b. induction es as [|e es IH]; intros b; cbn; [done|]. by rewrite IH. Qed.
End CodecFacts.

(** ** Refinement of the reference store *)

Section Refinement.
Context `{!Crc32}.

Definition hard_rel (h : option hard_state_file) (p : persisted_raft) : Prop :=
  match h with
  | None => pr_current_term p = 0 /\ pr_voted_for p = None
  | Some h => h = mkHard (pr_current_term p) (pr_voted_for p) []
  end.

(** The files of [fs], and its index of them, hold [p]. *)
Definition store_rel (fs : file_store) (p : persisted_raft) : Prop :=
  hard_rel (fs_hard fs) p /\
  (exists b, contiguous b (pr_log p)) /\ Forall entry_fits (pr_log p) /\
  log_bytes fs = enc_log (pr_log p) /\
  fl_positions (fs_inner fs) = log_positions 0 (pr_log p) /\
  (fl_open (fs_inner fs) = true -> fl_len (fs_inner fs) = len (log_bytes fs)).

(** An append continues the log with entries the format can hold. *)
Definition op_ok (p : persisted_raft) (op : persist_op) : Prop :=
  match op with
  | Append es => Forall entry_fits es /\ exists b, contiguous b (pr_log p ++ es)
  | _ => True
  end.

Fixpoint ops_ok (p : persisted_raft) (ops : list persist_op) : Prop :=
  match ops with
  | [] => True
  | op :: ops' => op_ok p op /\ ops_ok (mem_persist_op p op) ops'
  end.

Lemma open_log_rel fs p :
  store_rel fs p -> store_rel (open_log fs) p /\ fl_open (fs_inner (open_log fs)) = true /\
    fs_unsynced (open_log fs) = fs_unsynced fs.
Proof.
  intros Hr. unfold open_log. destruct (fl_open (fs_inner fs)) eqn:E; [done|].
  destruct Hr as (Hh & Hc & Hf & Hb & Hp & _). by unfold store_rel.
Qed.

Lemma rewrite_log_rel fs p es :
  hard_rel (fs_hard fs) p -> (exists b, contiguous b es) -> Forall entry_fits es ->
  store_rel (rewrite_log fs es) (mkPersisted (pr_current_term p) (pr_voted_for p) es) /\
  fs_unsynced (rewrite_log fs es) = false.
Proof. intros Hh Hc Hf. by unfold rewrite_log, open_log, store_rel. Qed.

(** [partition_point] on the positions splits the entries where their indices do. *)
Lemma positions_split (q : Z -> bool) b es n :
  (forall e, e ∈ take n es -> q (e_index e) = true) ->
  (forall e, e ∈ drop n es -> q (e_index e) = false) ->
  partition_point (fun p : Z * Z => q (fst p)) (log_positions b es) = length (take n es).
Proof.
  intros Ht Hd. rewrite <- (take_drop n es) at 1. rewrite log_positions_app.
  rewrite (partition_point_spec _ (log_positions b (take n es))); [by rewrite log_positions_length| |].
  - clear Hd. revert b. induction (take n es) as [|e l IH]; intros b; constructor; [apply Ht; left|].
    apply IH. intros. apply Ht. by right.
  - clear Ht. generalize (b + len (enc_log (take n es))). clear b.
    induction (drop n es) as [|e l IH]; intros b; constructor; [apply Hd; left|].
    apply IH. intros. apply Hd. by right.
Qed.

Lemma contiguous_elem_take b es n e : contiguous b es -> e ∈ take n es -> e_index e <= b + Z.of_nat n.
Proof.
  intros Hc He. apply list_elem_of_lookup in He as [i Hi]. pose proof Hi as Hi'.
  rewrite (contiguous_lookup b _ i e (contiguous_take _ _ _ Hc) Hi).
  apply lookup_lt_Some in Hi'. rewrite length_take in Hi'. lia.
Qed.

Lemma contiguous_elem_drop b es n e : contiguous b es -> e ∈ drop n es -> b + Z.of_nat n < e_index e.
Proof.
  intros Hc He. apply list_elem_of_lookup in He as [i Hi]. rewrite lookup_drop in Hi.
  rewrite (contiguous_lookup b _ _ e Hc Hi). lia.
Qed.

(** The position of the entry after a prefix. *)
Lemma positions_lookup l k :
  snd <$> log_positions 0 (l ++ k) !! length l =
    match k with [] => None | _ => Some (len (enc_log l)) end.
Proof.
  rewrite log_positions_app, lookup_app_r by (by rewrite log_positions_length).
  rewrite log_positions_length, Nat.sub_diag. by destruct k.
Qed.

Lemma enc_log_take_bytes l k : take (Z.to_nat (len (enc_log l))) (enc_log (l ++ k)) = enc_log l.
Proof. rewrite enc_log_app. apply take_app_len. unfold len. lia. Qed.

Lemma enc_log_drop_bytes l k : drop (Z.to_nat (len (enc_log l))) (enc_log (l ++ k)) = enc_log k.
Proof. rewrite enc_log_app. apply drop_app_len. unfold len. lia. Qed.

Lemma truncate_step fs d fault p from :
  store_rel fs p -> (fs_unsynced fs = true -> d = true) ->
  exists fs' d', persist_op_step fs d fault (TruncateFrom from) = (fs', d', true) /\
    store_rel fs' (mem_persist_op p (TruncateFrom from)) /\ (fs_unsynced fs' = true -> d' = true).
Proof.
  intros Hr Hd. pose proof Hr as (Hh & [b Hc] & Hf & Hb & Hp & Ho).
  cbn [persist_op_step mem_persist_op]. rewrite (contiguous_filter_lt b) by done.
  set (n := Z.to_nat (from - b - 1)). set (es := pr_log p) in *. rewrite Hp.
  rewrite (positions_split (fun i => i <? from) 0 es n).
  2: { intros e He. apply Z.ltb_lt. pose proof He as He'. apply (contiguous_elem_take b) in He; [|done].
       destruct n eqn:En; [by rewrite take_0, elem_of_nil in He'|]. unfold n in En. lia. }
  2: { intros e He. apply Z.ltb_ge. apply (contiguous_elem_drop b) in He; [|done]. unfold n in He. lia. }
  pose proof (take_drop n es) as Hes. set (l := take n es) in *. set (k := drop n es) in *.
  pose proof (positions_lookup l k) as Hl. rewrite Hes in Hl.
  destruct (log_positions 0 es !! _) as [[i pos]|]; cbn in Hl; destruct k as [|e k]; try done.
  - injection Hl as ->. destruct (open_log_rel _ _ Hr) as ((_ & _ & _ & Hb' & Hp' & _) & _ & _).
    do 2 eexists. split; [reflexivity|]. split; [|done]. unfold store_rel. cbn [set_log_file fs_hard pr_log fs_inner fl_positions fl_len].
    split_and!.
    + unfold open_log. destruct (fl_open (fs_inner fs)); exact Hh.
    + exists b. by apply contiguous_take.
    + by apply Forall_take.
    + rewrite Hb'. fold es. rewrite <- Hes. apply enc_log_take_bytes.
    + rewrite Hp'. fold es. rewrite <- Hes, log_positions_app. apply take_app_len. by rewrite log_positions_length.
    + intros _. cbn. rewrite Hb'. fold es. rewrite <- Hes. by rewrite enc_log_take_bytes.
  - rewrite app_nil_r in Hes. rewrite Hes.
    do 2 eexists. split; [reflexivity|]. split; [|done]. unfold store_rel. split_and!; [exact Hh| |done..]. by exists b.
Qed.

(** Reading the entries above an index back from the file. *)
Lemma read_entries_after_spec fs p b t :
  store_rel fs p -> contiguous b (pr_log p) -> fl_open (fs_inner fs) = true ->
  read_entries_after fs t = Some (drop (Z.to_nat (t - b)) (pr_log p)).
Proof.
  intros (_ & _ & Hf & Hb & Hp & Ho) Hc Hop. unfold read_entries_after. rewrite Hp, (Ho Hop), Hb, Hop.
  set (n := Z.to_nat (t - b)). set (es := pr_log p) in *.
  rewrite (positions_split (fun i => i <=? t) 0 es n).
  2: { intros e He. apply Z.leb_le. pose proof He as He'. apply (contiguous_elem_take b) in He; [|done].
       destruct n eqn:En; [by rewrite take_0, elem_of_nil in He'|]. unfold n in En. lia. }
  2: { intros e He. apply Z.leb_gt. apply (contiguous_elem_drop b) in He; [|done]. unfold n in He. lia. }
  apply (Forall_drop _ n) in Hf as Hfd.
  pose proof (take_drop n es) as Hes. set (l := take n es) in *. set (k := drop n es) in *.
  pose proof (positions_lookup l k) as Hl. rewrite Hes in Hl.
  destruct (log_positions 0 es !! _) as [[i pos]|]; cbn in Hl; [|by destruct k].
  assert (pos = len (enc_log l)) as -> by (destruct k; congruence).
  rewrite <- Hes, enc_log_drop_bytes. rewrite take_ge by (rewrite enc_log_app; unfold len; rewrite length_app; lia).
  rewrite <- (app_nil_r (enc_log k)), decode_log_enc by (done || apply decode_stops_nil).
  cbn. by rewrite fst_zip_positions.
Qed.

Lemma compact_step fs d fault p t :
  store_rel fs p -> (fs_unsynced fs = true -> d = true) ->
  exists fs' d', persist_op_step fs d fault (CompactThrough t) = (fs', d', true) /\
    store_rel fs' (mem_persist_op p (CompactThrough t)) /\ (fs_unsynced fs' = true -> d' = true).
Proof.
  intros Hr Hd. pose proof Hr as (Hh & [b Hc] & Hf & Hb & Hp & Ho).
  cbn [persist_op_step mem_persist_op]. rewrite (contiguous_filter_gt b), Hp by done.
  assert (forall fs1, store_rel fs1 p -> store_rel fs1 (mkPersisted (pr_current_term p) (pr_voted_for p) (pr_log p))) as Heta.
  { by destruct p. }
  destruct (pr_log p) as [|e es] eqn:El; cbn [log_positions head].
  { rewrite drop_nil. do 2 eexists. split; [reflexivity|]. split; [by apply Heta|done]. }
  destruct (t <? e_index e) eqn:E; boolp.
  { replace (Z.to_nat (t - b)) with 0%nat by (cbn in Hc; lia).
    do 2 eexists. split; [reflexivity|]. split; [by apply Heta|done]. }
  destruct (open_log_rel _ _ Hr) as (Hro & Hoo & _).
  assert (store_rel (if d then sync_data (open_log fs) else open_log fs) p) as Hrs by (by destruct d).
  rewrite (read_entries_after_spec _ p b) by (rewrite ?El; done || by destruct d).
  rewrite El. do 2 eexists. split; [reflexivity|].
  edestruct (rewrite_log_rel (if d then sync_data (open_log fs) else open_log fs) p) as [H1 H2];
    [apply Hrs|eexists; by apply (contiguous_drop b)|by apply Forall_drop|].
  split; [exact H1|]. rewrite H2. done.
Qed.

Lemma append_step fs d fault p es :
  store_rel fs p -> (fs_unsynced fs = true -> d = true) -> op_ok p (Append es) ->
  exists fs' d' ok, persist_op_step fs d fault (Append es) = (fs', d', ok) /\
    (ok = false -> fault <> None /\ store_rel fs' p) /\
    (ok = true -> store_rel fs' (mem_persist_op p (Append es)) /\ (fs_unsynced fs' = true -> d' = true)).
Proof.
  intros Hr Hd [Hfit Hcont]. cbn [persist_op_step mem_persist_op]. destruct es as [|e es].
  { do 3 eexists. split; [reflexivity|]. split; [done|]. intros _. rewrite app_nil_r. by destruct p. }
  destruct (open_log_rel _ _ Hr) as ((Hh & Hc & Hf & Hb & Hp & Ho) & Hop & _). specialize (Ho Hop).
  destruct fault as [k|]; do 3 eexists; (split; [reflexivity|]); (split; [|done || intros _]).
  - intros _. split; [done|]. unfold store_rel. cbn [set_log_file fs_hard fs_inner log_bytes fs_log default].
    split_and!; try done.
    + rewrite take_app_len by (rewrite Ho; unfold len; lia). exact Hb.
    + intros _. rewrite take_app_len by (rewrite Ho; unfold len; lia). exact Ho.
  - done.
  - split; [|done]. unfold store_rel. cbn [set_log_file fs_hard fs_inner fl_positions fl_len pr_log].
    split_and!; [exact Hh|done|by apply Forall_app| |..].
    + cbn. by rewrite Hb, enc_log_app.
    + rewrite Hp, log_positions_app, Ho, Hb. done.
    + intros _. cbn. rewrite Ho. len_lia.
Qed.

(** One operation: it succeeds and does what the reference store does, or its
    log write failed and the store still holds what it held. *)
Lemma persist_op_step_rel fs d fault p op :
  store_rel fs p -> (fs_unsynced fs = true -> d = true) -> op_ok p op ->
  exists fs' d' ok, persist_op_step fs d fault op = (fs', d', ok) /\
    (ok = false -> fault <> None /\ store_rel fs' p) /\
    (ok = true -> store_rel fs' (mem_persist_op p op) /\ (fs_unsynced fs' = true -> d' = true)).
Proof.
  intros Hr Hd Hok. destruct op as [term voted|es|from|t].
  - do 3 eexists. split; [reflexivity|]. split; [done|]. intros _. split; [|done].
    destruct Hr as (_ & ? & ? & ? & ? & ?). by unfold store_rel.
  - by apply append_step.
  - destruct (truncate_step fs d fault p from Hr Hd) as (fs' & d' & H1 & H2 & H3). by exists fs', d', true.
  - destruct (compact_step fs d fault p t Hr Hd) as (fs' & d' & H1 & H2 & H3). by exists fs', d', true.
Qed.

Lemma persist_loop_rel fs d faults p ops :
  store_rel fs p -> (fs_unsynced fs = true -> d = true) -> ops_ok p ops ->
  exists fs' ok applied rest, persist_loop fs d faults ops = (fs', ok) /\ ops = applied ++ rest /\
    store_rel fs' (mem_persist p applied) /\
    (ok = true -> rest = [] /\ fs_unsynced fs' = false) /\ (Forall (fun f => f = None) faults -> ok = true).
Proof.
  revert fs d faults p. induction ops as [|op ops IH]; intros fs d faults p Hr Hd Hok; cbn [persist_loop].
  - do 2 eexists. exists [], []. split; [reflexivity|]. split_and!; [done| |intros _|done].
    + by destruct d.
    + split; [done|]. destruct d; [done|]. by destruct (fs_unsynced fs); [specialize (Hd eq_refl)|].
  - destruct Hok as [Hop Hops].
    destruct (persist_op_step_rel fs d (default None (head faults)) p op Hr Hd Hop)
      as (fs' & d' & ok & -> & Hf & Ht). destruct ok.
    + destruct (Ht eq_refl) as [Hr' Hd'].
      destruct (IH fs' d' (tail faults) _ Hr' Hd' Hops) as (fs2 & ok & ap & rest & E & -> & Hr2 & Hok2 & Hall).
      exists fs2, ok, (op :: ap), rest. split_and!; [done..|]. intros Hn. apply Hall.
      by destruct faults; [|apply Forall_cons in Hn as [_ Hn]].
    + destruct (Hf eq_refl) as [Hft Hr']. exists fs', false, [], (op :: ops).
      split_and!; [done..|]. intros Hn. destruct faults as [|f ?]; [done|]. by apply Forall_cons in Hn as [-> _].
Qed.
End Refinement.

(** ** Loading *)

Section Loading.
Context `{!Crc32}.
Context (b64_decode : string -> option (list byte)).

Lemma windows_contiguous_true b es : contiguous b es -> windows_contiguous es = true.
Proof.
  revert b. induction es as [|e [|e' es] IH]; intros b; [done|done|]. intros [He Hc].
  specialize (IH _ Hc). cbn [windows_contiguous] in IH |- *. rewrite IH. destruct Hc as [He' _].
  by rewrite (proj2 (Z.eqb_eq _ _)) by lia.
Qed.

(** Loading files whose log has a valid part and a torn tail gives the valid
    part, and leaves only it in the file. *)
Lemma file_load_torn hard log snap p tail :
  hard_rel hard p -> (exists b, contiguous b (pr_log p)) -> Forall entry_fits (pr_log p) ->
  default [] log = enc_log (pr_log p) ++ tail -> decode_stops tail ->
  exists fs', file_load b64_decode (store_new hard log snap) = Some (fs', p) /\
    store_rel fs' p /\ fs_unsynced fs' = false.
Proof.
  intros Hh Hc Hf Hl Ht. unfold file_load.
  assert (migrate_log b64_decode (store_new hard log snap) = Some (store_new hard log snap)) as ->.
  { destruct hard as [h|]; [|done]. cbn in Hh. by subst. }
  cbn [mbind option_bind]. unfold log_bytes at 1. cbn [store_new fs_log fs_hard]. rewrite Hl, decode_log_enc by done.
  cbn zeta. rewrite fst_zip_positions, index_zip_positions.
  destruct Hc as [b Hc]. rewrite (windows_contiguous_true b) by done.
  assert (mkPersisted (hf_current_term (default (mkHard 0 None []) hard))
            (hf_voted_for (default (mkHard 0 None []) hard)) (pr_log p) = p) as ->.
  { destruct hard as [h|]; cbn in Hh |- *; [by subst; destruct p|]. destruct Hh. destruct p; cbn in *. by subst. }
  eexists. split; [reflexivity|]. unfold log_bytes. cbn [store_new fs_log]. rewrite Hl.
  destruct (len (enc_log (pr_log p)) <? len (enc_log (pr_log p) ++ tail)) eqn:E; boolp.
  - cbn. rewrite take_app_len by (unfold len; lia). unfold store_rel. split_and!; try done. by exists b.
  - assert (tail = []) as -> by (apply len_zero; len_lia). rewrite app_nil_r in Hl.
    destruct log as [log|]; cbn in Hl |- *; subst; unfold store_rel; (split_and!; [exact Hh|by exists b|done..]).
Qed.

(** A cut inside written entries keeps a prefix of them and a torn tail. *)
Lemma enc_log_cut es n :
  Forall entry_fits es -> exists k tail, take n (enc_log es) = enc_log (take k es) ++ tail /\ decode_stops tail.
Proof.
  revert n. induction es as [|e es IH]; intros n Hf.
  { exists 0%nat, []. cbn. rewrite take_nil. split; [done|apply decode_stops_nil]. }
  apply Forall_cons in Hf as [He Hes]. rewrite enc_log_cons.
  destruct (decide (n < length (encode_entry e))%nat) as [Hn|Hn].
  - exists 0%nat, (take n (encode_entry e)). rewrite take_app_le by lia.
    split; [done|]. by apply decode_stops_torn.
  - destruct (IH (n - length (encode_entry e))%nat Hes) as (k & tail & Hk & Ht).
    exists (S k), tail. rewrite take_app_ge by lia. rewrite Hk. cbn [take]. rewrite enc_log_cons.
    by rewrite <- app_assoc.
Qed.

(** ** Properties of the store *)


(** A crash in the middle of an append loses only entries of that append.
    Whatever number [n] of the appended bytes reached the file, the next load
    succeeds, returns the old entries followed by a prefix of the new ones, and
    truncates the file to exactly those. *)
Theorem torn_append_recovers fs p es n :
  store_rel fs p -> op_ok p (Append es) ->
  exists k fs2, let p' := mkPersisted (pr_current_term p) (pr_voted_for p) (pr_log p ++ take k es) in
    file_load b64_decode (store_new (fs_hard fs) (Some (log_bytes fs ++ take n (enc_log es))) (fs_snapshot fs))
      = Some (fs2, p') /\ store_rel fs2 p'.
Proof.
  intros (Hh & _ & Hf & Hb & _) [Hfit [b Hc]]. destruct (enc_log_cut es n Hfit) as (k & tail & Hk & Ht).
  destruct (file_load_torn (fs_hard fs) (Some (log_bytes fs ++ take n (enc_log es))) (fs_snapshot fs)
    (mkPersisted (pr_current_term p) (pr_voted_for p) (pr_log p ++ take k es)) tail) as (fs2 & Hl & Hr & _).
  - exact Hh.
  - exists b. apply contiguous_app in Hc as [H1 H2]. apply contiguous_app. split; [done|]. by apply contiguous_take.
  - apply Forall_app. split; [done|]. by apply Forall_take.
  - cbn [default pr_log from_option id]. by rewrite Hk, Hb, enc_log_app, app_assoc.
  - done.
  - by exists k, fs2.
Qed.
End Loading.

(** ** Witnesses *)

#[local] Existing Instance crc32_ieee_class.

Definition sample_store : file_store := store_new None None None.

Lemma sample_store_rel : store_rel sample_store (mkPersisted 0 None []).
Proof. unfold store_rel. cbn. split_and!; try done. by exists 0. Qed.

Definition sample_ops : list persist_op :=
  [HardState 2 (Some 7); Append [mkEntry 1 1 [x61]; mkEntry 1 2 [x62]; mkEntry 2 3 [x63]];
   TruncateFrom 3; Append [mkEntry 2 3 [x43]]; CompactThrough 1].

Lemma small_entry_fits t i b : is_u 64 t -> is_u 64 i -> entry_fits (mkEntry t i [b]).
Proof. intros Ht Hi. split_and!; [done..|]. cbn. unfold MAX_ENTRY_BYTES. len_lia. Qed.

Lemma sample_ops_ok : ops_ok (mkPersisted 0 None []) sample_ops.
Proof.
  unfold sample_ops. cbn [ops_ok op_ok]. split_and!; try done.
  - repeat (constructor; [apply small_entry_fits; unfold is_u; lia|]). constructor.
  - exists 0. vm_compute. by repeat split.
  - repeat (constructor; [apply small_entry_fits; unfold is_u; lia|]). constructor.
  - exists 0. vm_compute. by repeat split.
Qed.


Lemma torn_append_recovers_witness :
  exists k fs2, file_load (fun _ => None)
    (store_new None (Some (take 30 (enc_log [mkEntry 1 1 [x61]; mkEntry 1 2 [x62]]))) None) =
      Some (fs2, mkPersisted 0 None (take k [mkEntry 1 1 [x61]; mkEntry 1 2 [x62]])).
Proof.
  destruct (torn_append_recovers (fun _ => None) sample_store (mkPersisted 0 None [])
    [mkEntry 1 1 [x61]; mkEntry 1 2 [x62]] 30) as (k & fs2 & Hl & _).
  - apply sample_store_rel.
  - split; [|exists 0; cbn; lia].
    repeat (constructor; [apply small_entry_fits; unfold is_u; lia|]). constructor.
  - by exists k, fs2.
Defined.
