(* ===== verification/RaftState.v ===== *)
(** * The Raft state machine (crates/es-broker/src/raft/state.rs)

    The pure state machine: one definition per handler, each returning the new
    state and the actions for the driver.  The [BTreeMap]s are finite maps, the
    vote [HashSet] a finite set; only lookups depend on them. *)

From S2P Require Export RaftLog.

#[local] Open Scope Z_scope.

Definition MAX_APPEND_ENTRIES : Z := 1024.
Definition MAX_APPEND_BYTES : Z := 4 * 1024 * 1024.
Definition MAX_TERM_JUMP : Z := Z.shiftl 1 20.

Inductive role : Type := Follower | Candidate | Leader.

#[global] Instance role_eq_dec : EqDecision role.
Proof. solve_decision. Defined.

Inductive action : Type :=
| SendTo (peer : Z) (m : message)
| Broadcast (m : message)
| ResetElectionTimer
| Apply (e : log_entry)
| SendSnapshot (peer : Z).

Definition is_reset (a : action) : bool :=
  match a with ResetElectionTimer => true | _ => false end.

Record raft_state : Type := mkRaft {
  rs_me : Z;
  rs_peers : list Z;
  rs_role : role;
  rs_current_term : Z;
  rs_voted_for : option Z;
  rs_leader_hint : option Z;
  rs_log : raft_log;
  rs_commit_index : Z;
  rs_last_applied : Z;
  rs_match_index : gmap Z Z;
  rs_next_index : gmap Z Z;
  rs_snapshot_cursor : gmap Z Z;
  rs_noop_on_elect : bool;
  rs_votes_received : gset Z;
  rs_pending : list persist_op }.

(** ** Field updates *)

Definition set_peers s x := mkRaft (rs_me s) x (rs_role s) (rs_current_term s) (rs_voted_for s)
  (rs_leader_hint s) (rs_log s) (rs_commit_index s) (rs_last_applied s) (rs_match_index s) (rs_next_index s)
  (rs_snapshot_cursor s) (rs_noop_on_elect s) (rs_votes_received s) (rs_pending s).
Definition set_role s x := mkRaft (rs_me s) (rs_peers s) x (rs_current_term s) (rs_voted_for s)
  (rs_leader_hint s) (rs_log s) (rs_commit_index s) (rs_last_applied s) (rs_match_index s) (rs_next_index s)
  (rs_snapshot_cursor s) (rs_noop_on_elect s) (rs_votes_received s) (rs_pending s).
(** The term and the vote. *)
Definition set_hard s t v := mkRaft (rs_me s) (rs_peers s) (rs_role s) t v
  (rs_leader_hint s) (rs_log s) (rs_commit_index s) (rs_last_applied s) (rs_match_index s) (rs_next_index s)
  (rs_snapshot_cursor s) (rs_noop_on_elect s) (rs_votes_received s) (rs_pending s).
Definition set_hint s x := mkRaft (rs_me s) (rs_peers s) (rs_role s) (rs_current_term s) (rs_voted_for s)
  x (rs_log s) (rs_commit_index s) (rs_last_applied s) (rs_match_index s) (rs_next_index s)
  (rs_snapshot_cursor s) (rs_noop_on_elect s) (rs_votes_received s) (rs_pending s).
Definition set_log s x := mkRaft (rs_me s) (rs_peers s) (rs_role s) (rs_current_term s) (rs_voted_for s)
  (rs_leader_hint s) x (rs_commit_index s) (rs_last_applied s) (rs_match_index s) (rs_next_index s)
  (rs_snapshot_cursor s) (rs_noop_on_elect s) (rs_votes_received s) (rs_pending s).
Definition set_commit s x := mkRaft (rs_me s) (rs_peers s) (rs_role s) (rs_current_term s) (rs_voted_for s)
  (rs_leader_hint s) (rs_log s) x (rs_last_applied s) (rs_match_index s) (rs_next_index s)
  (rs_snapshot_cursor s) (rs_noop_on_elect s) (rs_votes_received s) (rs_pending s).
Definition set_applied s x := mkRaft (rs_me s) (rs_peers s) (rs_role s) (rs_current_term s) (rs_voted_for s)
  (rs_leader_hint s) (rs_log s) (rs_commit_index s) x (rs_match_index s) (rs_next_index s)
  (rs_snapshot_cursor s) (rs_noop_on_elect s) (rs_votes_received s) (rs_pending s).
(** The leader's three maps. *)
Definition set_progress s m n c := mkRaft (rs_me s) (rs_peers s) (rs_role s) (rs_current_term s) (rs_voted_for s)
  (rs_leader_hint s) (rs_log s) (rs_commit_index s) (rs_last_applied s) m n
  c (rs_noop_on_elect s) (rs_votes_received s) (rs_pending s).
Definition set_votes s x := mkRaft (rs_me s) (rs_peers s) (rs_role s) (rs_current_term s) (rs_voted_for s)
  (rs_leader_hint s) (rs_log s) (rs_commit_index s) (rs_last_applied s) (rs_match_index s) (rs_next_index s)
  (rs_snapshot_cursor s) (rs_noop_on_elect s) x (rs_pending s).
Definition set_pending s x := mkRaft (rs_me s) (rs_peers s) (rs_role s) (rs_current_term s) (rs_voted_for s)
  (rs_leader_hint s) (rs_log s) (rs_commit_index s) (rs_last_applied s) (rs_match_index s) (rs_next_index s)
  (rs_snapshot_cursor s) (rs_noop_on_elect s) (rs_votes_received s) x.

Definition set_match s (p x : Z) := set_progress s (<[p := x]> (rs_match_index s)) (rs_next_index s) (rs_snapshot_cursor s).
Definition set_next s (p x : Z) := set_progress s (rs_match_index s) (<[p := x]> (rs_next_index s)) (rs_snapshot_cursor s).
Definition set_cursor s (p x : Z) := set_progress s (rs_match_index s) (rs_next_index s) (<[p := x]> (rs_snapshot_cursor s)).
Definition push_pending s (op : persist_op) := set_pending s (rs_pending s ++ [op]).

Definition get_or (m : gmap Z Z) (k d : Z) : Z := default d (m !! k).

(** ** Configuration entries *)

Definition CONFIG_MAGIC : list byte := [xee; xee; xee; xee].

Definition encode_config_change (add remove : list Z) : list byte :=
  CONFIG_MAGIC ++ to_be 4 (len add) ++ concat (to_be 4 <$> add) ++
  to_be 4 (len remove) ++ concat (to_be 4 <$> remove).

Definition rd_ids : reader (list Z) := n ← rd_uint 4; rd_repeat (Z.to_nat n) (rd_uint 4).

Definition decode_config_change (payload : list byte) : option (list Z * list Z) :=
  if (len payload <? 8) || negb (bool_decide (take 4 payload = CONFIG_MAGIC)) then None
  else
    match rd_ids (drop 4 payload) with
    | Some (add, rest) =>
      match rd_ids rest with Some (remove, _) => Some (add, remove) | None => None end
    | None => None
    end.

Definition is_config_entry (payload : list byte) : bool :=
  (4 <=? len payload) && bool_decide (take 4 payload = CONFIG_MAGIC).

(** ** Construction and persistence *)

(** [RaftState::new], with [noop_on_elect] as the driver sets it. *)
Definition raft_new (me : Z) (peers : list Z) (noop : bool) : raft_state :=
  mkRaft me peers Follower 0 None None empty_log 0 0 ∅ ∅ ∅ noop ∅ [].

(** [RaftState::restore]: [None] when entries are missing between the snapshot
    and the log. *)
Definition restore (s : raft_state) (persisted : persisted_raft) (snapshot : option persisted_snapshot)
  : option raft_state :=
  let s := set_hard s (pr_current_term persisted) (pr_voted_for persisted) in
  let s := set_log s (into_log persisted) in
  let s :=
    match snapshot with
    | None => s
    | Some snap =>
      let li := ps_last_index snap in
      let s :=
        match head (rl_entries (rs_log s)) with
        | Some e => if e_index e <=? li then push_pending s (CompactThrough li) else s
        | None => s
        end in
      let l := compact_through (rs_log s) li (ps_last_term snap) in
      let s := set_log s (mkLog (rl_entries l) li (ps_last_term snap)) in
      let s := if rs_commit_index s <? li then set_commit s li else s in
      if rs_last_applied s <? li then set_applied s li else s
    end in
  match head (rl_entries (rs_log s)) with
  | Some first => if e_index first =? rl_base_index (rs_log s) + 1 then Some s else None
  | None => Some s
  end.

Definition snapshot_persistent (s : raft_state) : persisted_raft :=
  from_runtime (rs_current_term s) (rs_voted_for s) (rs_log s).

Definition take_snapshot (s : raft_state) (data : list byte) (through : option Z)
  : option (raft_state * persisted_snapshot) :=
  let through := Z.min (default (rs_last_applied s) through) (rs_last_applied s) in
  if (through =? 0) || (through <=? rl_base_index (rs_log s)) then None
  else
    term ← term_at (rs_log s) through;
    let s := set_log s (compact_through (rs_log s) through term) in
    Some (push_pending s (CompactThrough through), mkSnapshot through term data).

(** [RaftState::take_persist_ops]. *)
Definition take_persist_ops (s : raft_state) : raft_state * list persist_op :=
  (set_pending s [], rs_pending s).

Definition is_hard_state (op : persist_op) : bool :=
  match op with HardState _ _ => true | _ => false end.

Definition persist_hard_state (s : raft_state) : raft_state :=
  set_pending s (filter (fun op => is_hard_state op = false) (rs_pending s) ++
                 [HardState (rs_current_term s) (rs_voted_for s)]).

(** [(peers.len()).div_ceil(2) + 1]. *)
Definition quorum (s : raft_state) : Z := (len (rs_peers s) + 1) / 2 + 1.

Definition is_member (s : raft_state) (id : Z) : bool := bool_decide (id ∈ rs_peers s).

(** ** Internals *)

Definition append_local (s : raft_state) (payload : list byte) : raft_state * Z :=
  let next_idx := last_index (rs_log s) + 1 in
  let entry := mkEntry (rs_current_term s) next_idx payload in
  let s := push_pending s (Append [entry]) in
  (set_log s (set_entries (rs_log s) (rl_entries (rs_log s) ++ [entry])), next_idx).

Definition build_append_for (s : raft_state) (peer : Z) : message :=
  let next := get_or (rs_next_index s) peer 1 in
  let prev_log_index := sat_sub_u64 next 1 in
  AppendEntries (mkAE (rs_current_term s) (rs_me s) prev_log_index
    (default 0 (term_at (rs_log s) prev_log_index))
    (slice_bounded (rs_log s) next MAX_APPEND_ENTRIES MAX_APPEND_BYTES) (rs_commit_index s)).

Definition replicate_to (s : raft_state) (peer : Z) : action :=
  if get_or (rs_next_index s) peer 1 <=? rl_base_index (rs_log s) then SendSnapshot peer
  else SendTo peer (build_append_for s peer).

(** The replicated indices of the members, ascending, and the one at position
    [n - quorum]. *)
Definition member_indices (s : raft_state) : list Z :=
  ((fun p => get_or (rs_match_index s) p 0) <$> rs_peers s) ++ [last_index (rs_log s)].

Definition majority_index (s : raft_state) : Z :=
  let indices := merge_sort Z.le (member_indices s) in
  default 0 (indices !! Z.to_nat (len indices - quorum s)).

Definition recompute_commit_index (s : raft_state) : raft_state :=
  let candidate := majority_index s in
  if rs_commit_index s <? candidate then
    if bool_decide (term_at (rs_log s) candidate = Some (rs_current_term s)) then set_commit s candidate else s
  else s.

Definition become_leader (s : raft_state) : raft_state :=
  let s := set_role s Leader in
  let s := set_hint s (Some (rs_me s)) in
  let s := if rs_noop_on_elect s then fst (append_local s []) else s in
  let last := last_index (rs_log s) in
  let s := set_progress s (list_to_map ((fun p => (p, 0)) <$> rs_peers s))
             (list_to_map ((fun p => (p, last + 1)) <$> rs_peers s)) ∅ in
  recompute_commit_index (set_votes s ∅).

Definition remove_peer (s : raft_state) (id : Z) : raft_state :=
  set_progress (set_peers s (filter (fun p => p <> id) (rs_peers s)))
    (delete id (rs_match_index s)) (delete id (rs_next_index s)) (delete id (rs_snapshot_cursor s)).

Definition add_peer (s : raft_state) (id : Z) : raft_state :=
  if negb (bool_decide (id ∈ rs_peers s)) && negb (id =? rs_me s) then
    set_match (set_next (set_peers s (rs_peers s ++ [id])) id 1) id 0
  else s.

Definition apply_config_change (s : raft_state) (add remove : list Z) : raft_state :=
  let s := fold_left remove_peer remove s in
  let s := fold_left add_peer add s in
  set_peers s (merge_sort Z.le (rs_peers s)).

(** The loop of [drain_apply_actions]; [commit - last_applied] rounds. *)
Fixpoint drain_loop (fuel : nat) (s : raft_state) : raft_state * list action :=
  match fuel with
  | O => (s, [])
  | S fuel' =>
    if rs_last_applied s <? rs_commit_index s then
      let s := set_applied s (rs_last_applied s + 1) in
      match log_get (rs_log s) (rs_last_applied s) with
      | None => drain_loop fuel' s
      | Some e =>
        if len (e_payload e) =? 0 then drain_loop fuel' s
        else
          match decode_config_change (e_payload e) with
          | Some (add, remove) => drain_loop fuel' (apply_config_change s add remove)
          | None => let (s', out) := drain_loop fuel' s in (s', Apply e :: out)
          end
      end
    else (s, [])
  end.

Definition drain_apply_actions (s : raft_state) : raft_state * list action :=
  drain_loop (Z.to_nat (rs_commit_index s - rs_last_applied s)) s.

Definition step_down_to (s : raft_state) (term : Z) : raft_state :=
  let grew := rs_current_term s <? term in
  let changed := grew || bool_decide (is_Some (rs_voted_for s)) in
  let s := set_hard s (if grew then term else rs_current_term s) None in
  let s := if changed then persist_hard_state s else s in
  let s := set_role s Follower in
  let s := set_votes s ∅ in
  let s := set_hint s None in
  set_progress s ∅ ∅ ∅.

(** ** Events *)

Definition on_heartbeat_tick (s : raft_state) : list action :=
  if bool_decide (rs_role s = Leader) then replicate_to s <$> rs_peers s else [].

Definition start_election (s : raft_state) : raft_state * list action :=
  let s := set_hard s (sat_add_u64 (rs_current_term s) 1) (Some (rs_me s)) in
  let s := set_role s Candidate in
  let s := persist_hard_state s in
  let s := set_votes s {[ rs_me s ]} in
  let s := set_hint s None in
  let rv := mkRV (rs_current_term s) (rs_me s) (last_index (rs_log s)) (last_term (rs_log s)) in
  match rs_peers s with
  | [] =>
    let s := become_leader s in
    let out := on_heartbeat_tick s in
    let (s, applies) := drain_apply_actions s in
    (s, out ++ applies)
  | _ => (s, [ResetElectionTimer; Broadcast (RequestVote rv)])
  end.

Definition on_election_timeout (s : raft_state) : raft_state * list action :=
  if bool_decide (rs_role s = Leader) then (s, []) else start_election s.

Definition handle_request_vote (s : raft_state) (rv : request_vote) : raft_state * list action :=
  let up_to_date :=
    (last_term (rs_log s) <? rv_last_log_term rv) ||
    ((rv_last_log_term rv =? last_term (rs_log s)) && (last_index (rs_log s) <=? rv_last_log_index rv)) in
  let can_vote :=
    bool_decide (rs_voted_for s = None) || bool_decide (rs_voted_for s = Some (rv_candidate_id rv)) in
  let grant := (rs_current_term s <=? rv_term rv) && (up_to_date && can_vote) in
  let s :=
    if grant && negb (bool_decide (rs_voted_for s = Some (rv_candidate_id rv))) then
      persist_hard_state (set_hard s (rs_current_term s) (Some (rv_candidate_id rv)))
    else s in
  let resp := RequestVoteResp (mkRVR (rs_current_term s) grant (rs_me s)) in
  (s, SendTo (rv_candidate_id rv) resp :: if grant then [ResetElectionTimer] else []).

Definition handle_request_vote_resp (s : raft_state) (rvr : request_vote_resp) : raft_state * list action :=
  if negb (bool_decide (rs_role s = Candidate)) || negb (rvr_term rvr =? rs_current_term s) then (s, [])
  else if rvr_vote_granted rvr then
    let s := set_votes s ({[ rvr_voter_id rvr ]} ∪ rs_votes_received s) in
    if quorum s <=? Z.of_nat (size (rs_votes_received s)) then
      let s := become_leader s in (s, on_heartbeat_tick s)
    else (s, [])
  else (s, []).

(** The log-consistency check of [handle_append_entries]. *)
Definition ae_consistent (l : raft_log) (ae : append_entries) : bool :=
  if ae_prev_log_index ae =? 0 then true
  else if ae_prev_log_index ae <? rl_base_index l then true
  else match term_at l (ae_prev_log_index ae) with Some t => t =? ae_prev_log_term ae | None => false end.

(** Appending the entries of a consistent request, with the persistence work it
    records; [None] is a refusal. *)
Definition ae_append (s : raft_state) (ae : append_entries) : option raft_state :=
  match ae_entries ae with
  | [] => Some s
  | es =>
    let start := sat_add_u64 (ae_prev_log_index ae) 1 in
    match append_at (rs_log s) start es (rs_commit_index s) with
    | Some (l, Some first_changed) =>
      let s := set_log s l in
      let s := push_pending s (TruncateFrom first_changed) in
      Some (push_pending s (Append (log_slice l first_changed U64_MAX)))
    | Some (l, None) => Some (set_log s l)
    | None => None
    end
  end.

Definition ae_commit (s : raft_state) (ae : append_entries) : raft_state :=
  let last_new := sat_add_u64 (ae_prev_log_index ae) (len (ae_entries ae)) in
  if rs_commit_index s <? ae_leader_commit ae then
    set_commit s (Z.max (Z.min (ae_leader_commit ae) last_new) (rs_commit_index s))
  else s.

Definition handle_append_entries (s : raft_state) (ae : append_entries) : raft_state * list action :=
  if rs_current_term s <=? ae_term ae then
    let s :=
      if rs_current_term s <? ae_term ae then persist_hard_state (set_hard s (ae_term ae) None) else s in
    let s := set_hint (set_role s Follower) (Some (ae_leader_id ae)) in
    let applied := if ae_consistent (rs_log s) ae then ae_append s ae else None in
    let '(s, success, match_index) :=
      match applied with
      | Some s => (ae_commit s ae, true, sat_add_u64 (ae_prev_log_index ae) (len (ae_entries ae)))
      | None => (s, false, last_index (rs_log s))
      end in
    (s, [SendTo (ae_leader_id ae)
           (AppendEntriesResp (mkAER (rs_current_term s) success (rs_me s) match_index));
         ResetElectionTimer])
  else
    (s, [SendTo (ae_leader_id ae) (AppendEntriesResp (mkAER (rs_current_term s) false (rs_me s) 0))]).

Definition handle_append_entries_resp (s : raft_state) (aer : append_entries_resp) : raft_state * list action :=
  if negb (bool_decide (rs_role s = Leader)) || negb (aer_term aer =? rs_current_term s) then (s, [])
  else
    let peer := aer_responder_id aer in
    if aer_success aer then
      let mi := Z.min (aer_match_index aer) (last_index (rs_log s)) in
      let cur := get_or (rs_match_index s) peer 0 in
      let s := if cur <? mi then set_match s peer mi else s in
      let mi := Z.max mi cur in
      let s := set_next s peer (sat_add_u64 mi 1) in
      let s := recompute_commit_index s in
      (s, if mi <? last_index (rs_log s) then [replicate_to s peer] else [])
    else
      let cur := get_or (rs_next_index s) peer 1 in
      let hinted := sat_add_u64 (aer_match_index aer) 1 in
      let next := Z.max (Z.min (sat_sub_u64 cur 1) hinted) 1 in
      let s := set_next s peer next in
      (s, [replicate_to s peer]).

(** The part of [handle_install_snapshot] for the last chunk. *)
Definition install_done (s : raft_state) (m : install_snapshot) : raft_state :=
  let s :=
    if rl_base_index (rs_log s) <? is_last_index m then
      let (l, kept) := log_install_snapshot (rs_log s) (is_last_index m) (is_last_term m) in
      push_pending (set_log s l) (if kept then CompactThrough (is_last_index m) else TruncateFrom 0)
    else s in
  let s := if rs_commit_index s <? is_last_index m then set_commit s (is_last_index m) else s in
  if rs_last_applied s <? is_last_index m then set_applied s (is_last_index m) else s.

Definition handle_install_snapshot (s : raft_state) (m : install_snapshot) (progress : Z)
  : raft_state * list action :=
  if is_term m <? rs_current_term s then
    (s, [SendTo (is_leader_id m)
           (InstallSnapshotResp (mkISR (rs_current_term s) false (rs_me s) progress 0))])
  else
    let s := set_hint (set_role s Follower) (Some (is_leader_id m)) in
    let s :=
      if rs_current_term s <? is_term m then persist_hard_state (set_hard s (is_term m) None) else s in
    let s := if is_done m then install_done s m else s in
    let installed_index := if is_done m then Z.max (is_last_index m) (rl_base_index (rs_log s)) else 0 in
    (s, [SendTo (is_leader_id m)
           (InstallSnapshotResp (mkISR (rs_current_term s) true (rs_me s) progress installed_index));
         ResetElectionTimer]).

Definition handle_install_snapshot_resp (s : raft_state) (isr : install_snapshot_resp)
  : raft_state * list action :=
  if negb (bool_decide (rs_role s = Leader)) || negb (isr_term isr =? rs_current_term s) then (s, [])
  else
    let peer := isr_responder_id isr in
    if negb (isr_success isr) then (s, [])
    else if 0 <? isr_installed_index isr then
      let installed := Z.min (isr_installed_index isr) (last_index (rs_log s)) in
      let cur := get_or (rs_match_index s) peer 0 in
      let mi := Z.max cur installed in
      let s := set_next (set_match s peer mi) peer (mi + 1) in
      let s := set_progress s (rs_match_index s) (rs_next_index s) (delete peer (rs_snapshot_cursor s)) in
      let s := recompute_commit_index s in
      (s, if (mi <? last_index (rs_log s)) || (mi <? rl_base_index (rs_log s)) then [replicate_to s peer] else [])
    else (set_cursor s peer (isr_next_offset isr), [SendSnapshot peer]).

Definition handle_message (s : raft_state) (m : message) (progress : Z) : raft_state * list action :=
  match m with
  | RequestVote rv => handle_request_vote s rv
  | RequestVoteResp rvr => handle_request_vote_resp s rvr
  | AppendEntries ae => handle_append_entries s ae
  | AppendEntriesResp aer => handle_append_entries_resp s aer
  | InstallSnapshot is_ => handle_install_snapshot s is_ progress
  | InstallSnapshotResp isr => handle_install_snapshot_resp s isr
  end.

Definition on_message_with_progress (s : raft_state) (m : message) (progress : Z) : raft_state * list action :=
  if negb (is_member s (msg_sender m)) then (s, [])
  else if (sat_add_u64 (rs_current_term s) MAX_TERM_JUMP <? msg_term m) || (msg_term m =? U64_MAX) then (s, [])
  else
    let stepped_down := rs_current_term s <? msg_term m in
    let s := if stepped_down then step_down_to s (msg_term m) else s in
    let (s, actions) := handle_message s m progress in
    let actions :=
      if stepped_down && negb (existsb is_reset actions) then ResetElectionTimer :: actions else actions in
    let (s, applies) := drain_apply_actions s in
    (s, actions ++ applies).

Definition on_message (s : raft_state) (m : message) : raft_state * list action :=
  on_message_with_progress s m 0.

Inductive propose_outcome : Type := Accepted (index : Z) | NotLeader (hint : option Z).

Definition try_propose (s : raft_state) (payload : list byte) : raft_state * propose_outcome * list action :=
  if negb (bool_decide (rs_role s = Leader)) then (s, NotLeader (rs_leader_hint s), [])
  else
    let (s, next_idx) := append_local s payload in
    let s := recompute_commit_index s in
    let (s, actions) := drain_apply_actions s in
    (s, Accepted next_idx, actions).

Definition try_change_membership (s : raft_state) (add remove : list Z)
  : raft_state * propose_outcome * list action :=
  if negb (bool_decide (rs_role s = Leader)) then (s, NotLeader (rs_leader_hint s), [])
  else try_propose s (encode_config_change add remove).

(** ** Driver events

    One round of the node loop of raft/node.rs: which handler an event runs and
    which actions come out of it, before [apply_and_persist]. *)

Inductive raft_event : Type :=
| EvMessage (m : message) (progress : Z)
| EvPropose (payload : list byte)
| EvSnapshot (data : list byte) (through : option Z)
| EvElectionTimeout
| EvHeartbeat.

Definition node_event (s : raft_state) (ev : raft_event) : raft_state * list action :=
  match ev with
  | EvMessage m progress => on_message_with_progress s m progress
  | EvPropose payload =>
    match try_propose s payload with
    | (s', Accepted _, actions) => (s', actions ++ on_heartbeat_tick s')
    | (s', NotLeader _, actions) => (s', actions)
    end
  | EvSnapshot data through =>
    match take_snapshot s data through with
    | Some (s', _) => (s', [])
    | None => (s, [])
    end
  | EvElectionTimeout => on_election_timeout s
  | EvHeartbeat => (s, on_heartbeat_tick s)
  end.
