(* ===== verification/RaftDurable.v ===== *)
(** * Durability of the Raft state machine

    Every handler records, in order, the persistence operations that bring the
    store from what it holds to the state the handler leaves: after the driver has
    persisted them, the store holds exactly the runtime state. *)

From S2P Require Export RaftState RaftStore.

#[local] Open Scope Z_scope.

(** ** Replaying operations *)

(** The effect of an operation on the stored entries. *)
Definition op_log (es : list log_entry) (op : persist_op) : list log_entry :=
  match op with
  | HardState _ _ => es
  | Append fs => es ++ fs
  | TruncateFrom from => filter (fun e => e_index e < from) es
  | CompactThrough t => filter (fun e => e_index e > t) es
  end.

Definition replay (es : list log_entry) (ops : list persist_op) : list log_entry := fold_left op_log ops es.

(** Appends continue the stored entries. *)
Fixpoint appends_ok (es : list log_entry) (ops : list persist_op) : Prop :=
  match ops with
  | [] => True
  | op :: ops' =>
    match op with Append fs => exists b, contiguous b (es ++ fs) | _ => True end /\
    appends_ok (op_log es op) ops'
  end.

Lemma replay_mem_persist p ops : pr_log (mem_persist p ops) = replay (pr_log p) ops.
Proof.
  revert p. induction ops as [|op ops IH]; intros p; [done|].
  unfold mem_persist, replay in *. cbn [fold_left]. rewrite IH. by destruct op.
Qed.

Lemma replay_app es ops ops' : replay es (ops ++ ops') = replay (replay es ops) ops'.
Proof. unfold replay. by rewrite fold_left_app. Qed.

Lemma appends_ok_app es ops ops' :
  appends_ok es (ops ++ ops') <-> appends_ok es ops /\ appends_ok (replay es ops) ops'.
Proof.
  revert es. induction ops as [|op ops IH]; intros es; cbn [app appends_ok]; [tauto|].
  rewrite IH. unfold replay. cbn [fold_left]. tauto.
Qed.

Abbreviation drop_hard := (filter (fun op => is_hard_state op = false)).

Lemma replay_drop_hard es ops : replay es (drop_hard ops) = replay es ops.
Proof.
  revert es. induction ops as [|op ops IH]; intros es; [done|].
  destruct op; cbn [is_hard_state];
    first [rewrite filter_cons_False by done | rewrite filter_cons_True by done];
    unfold replay in *; cbn [fold_left]; by rewrite IH.
Qed.

Lemma appends_ok_drop_hard es ops : appends_ok es ops -> appends_ok es (drop_hard ops).
Proof.
  revert es. induction ops as [|op ops IH]; intros es; [done|]. cbn [appends_ok]. intros [H1 H2].
  destruct op; first [rewrite filter_cons_False by done | rewrite filter_cons_True by done];
    cbn [appends_ok]; auto.
Qed.

(** [mem_persist] leaves the hard state of the last [HardState]. *)
Definition op_hard (h : Z * option Z) (op : persist_op) : Z * option Z :=
  match op with HardState t v => (t, v) | _ => h end.

Lemma hard_mem_persist p ops :
  (pr_current_term (mem_persist p ops), pr_voted_for (mem_persist p ops)) =
    fold_left op_hard ops (pr_current_term p, pr_voted_for p).
Proof.
  revert p. induction ops as [|op ops IH]; intros p; [done|].
  unfold mem_persist in *. cbn [fold_left]. rewrite IH. by destruct op.
Qed.

(** ** The durability relation *)

(** Every hard state in [ops] is [(t, v)]. *)
Definition hards_are (t : Z) (v : option Z) (ops : list persist_op) : Prop :=
  forall t' v', HardState t' v' ∈ ops -> t' = t /\ v' = v.

Definition has_hard (ops : list persist_op) : Prop := exists t v, HardState t v ∈ ops.

(** A store holding [p] becomes the state with log [l], term [t] and vote [v] by
    the operations [ops]. *)
Record durable_at (p : persisted_raft) (ops : list persist_op) (l : raft_log) (t : Z) (v : option Z) : Prop := {
  da_log : replay (pr_log p) ops = rl_entries l;
  da_appends : appends_ok (pr_log p) ops;
  da_hards : hards_are t v ops;
  da_hard : has_hard ops \/ (pr_current_term p = t /\ pr_voted_for p = v) }.

Definition durable (p : persisted_raft) (s : raft_state) : Prop :=
  durable_at p (rs_pending s) (rs_log s) (rs_current_term s) (rs_voted_for s).

Lemma hards_fold t v ops h : hards_are t v ops -> (has_hard ops \/ h = (t, v)) -> fold_left op_hard ops h = (t, v).
Proof.
  revert h. induction ops as [|op ops IH]; intros h Ha Hh; cbn [fold_left].
  - destruct Hh as [(? & ? & H)|]; [by apply elem_of_nil in H|done].
  - assert (hards_are t v ops) as Ha' by (intros ? ? H; apply Ha; by right).
    apply IH; [done|]. destruct op as [t' v'| | |]; cbn [op_hard].
    + right. destruct (Ha t' v' ltac:(left)) as [-> ->]. done.
    + destruct Hh as [(t' & v' & H)|]; [|by right]. apply elem_of_cons in H as [H|H]; [done|left; by exists t', v'].
    + destruct Hh as [(t' & v' & H)|]; [|by right]. apply elem_of_cons in H as [H|H]; [done|left; by exists t', v'].
    + destruct Hh as [(t' & v' & H)|]; [|by right]. apply elem_of_cons in H as [H|H]; [done|left; by exists t', v'].
Qed.

(** Once the operations are persisted, the store holds the runtime state. *)
Lemma durable_persisted p s : durable p s -> mem_persist p (rs_pending s) = snapshot_persistent s.
Proof.
  intros [Hl _ Ha Hh]. pose proof (replay_mem_persist p (rs_pending s)) as Hr. rewrite Hl in Hr.
  pose proof (hard_mem_persist p (rs_pending s)) as Hm.
  rewrite (hards_fold _ _ _ _ Ha) in Hm by (destruct Hh as [|[-> ->]]; auto).
  unfold snapshot_persistent, from_runtime. destruct (mem_persist p (rs_pending s)). cbn in *. by simplify_eq.
Qed.

(** A store that holds the runtime state, with nothing recorded since. *)
Lemma durable_saved s : durable (snapshot_persistent s) (set_pending s []).
Proof. split; [done|done| |by right]. intros ? ? H. by apply elem_of_nil in H. Qed.

Section Durable.
Context (p : persisted_raft).
Implicit Types (ops : list persist_op) (l : raft_log).

Lemma durable_at_hard ops l t v t' v' :
  durable_at p ops l t v -> durable_at p (drop_hard ops ++ [HardState t' v']) l t' v'.
Proof.
  intros [Hl Ho Ha Hh]. split.
  - by rewrite replay_app, replay_drop_hard.
  - apply appends_ok_app. split; [by apply appends_ok_drop_hard|done].
  - intros t2 v2 H. rewrite elem_of_app, list_elem_of_filter in H.
    destruct H as [[H _]|H]; [done|]. apply list_elem_of_singleton in H. by simplify_eq.
  - left. exists t', v'. apply elem_of_app. right. by left.
Qed.

(** Adding operations on the log. *)
Lemma durable_at_log ops ops' l l' t v :
  durable_at p ops l t v -> Forall (fun op => is_hard_state op = false) ops' ->
  appends_ok (rl_entries l) ops' -> replay (rl_entries l) ops' = rl_entries l' ->
  durable_at p (ops ++ ops') l' t v.
Proof.
  intros [Hl Ho Ha Hh] Hn Hap Hr. rewrite Forall_forall in Hn. split.
  - by rewrite replay_app, Hl.
  - apply appends_ok_app. by rewrite Hl.
  - intros t2 v2 H. apply elem_of_app in H as [H|H]; [by apply Ha|]. by apply Hn in H.
  - destruct Hh as [(t2 & v2 & H)|]; [|by right]. left. exists t2, v2. apply elem_of_app. by left.
Qed.

Lemma durable_at_append ops l t v e :
  log_wf l -> e_index e = last_index l + 1 -> durable_at p ops l t v ->
  durable_at p (ops ++ [Append [e]]) (set_entries l (rl_entries l ++ [e])) t v.
Proof.
  intros Hwf He Hd. eapply durable_at_log; [done|by repeat constructor| |done].
  split; [|done]. exists (rl_base_index l). apply contiguous_app. split; [apply Hwf|].
  rewrite (last_index_eq l Hwf) in He. split; [lia|done].
Qed.

Lemma durable_at_append_at ops l t v start new committed l' c :
  log_wf l -> 0 < start <= last_index l + 1 -> last_index l' < U64_MAX ->
  append_at l start new committed = Some (l', Some c) -> durable_at p ops l t v ->
  durable_at p (ops ++ [TruncateFrom c; Append (log_slice l' c U64_MAX)]) l' t v.
Proof.
  intros Hwf Hst Hb Ha Hd. apply append_at_Some in Ha as (Hwf' & Hbi & _ & Hc & Hcb & He & _); [|done..].
  assert (log_slice l' c U64_MAX = assign_indices c (drop (Z.to_nat (c - start)) new)) as Hs.
  { rewrite log_slice_suffix by (done || lia). rewrite He, Hbi. apply drop_app_len.
    rewrite (last_index_eq l Hwf) in Hcb. rewrite length_take. unfold len in Hcb. lia. }
  eapply durable_at_log; [done|by repeat constructor|..]; unfold replay; cbn [appends_ok fold_left op_log];
    rewrite (contiguous_filter_lt (rl_base_index l)) by apply Hwf; rewrite Hs, <- He; [|done].
  split_and!; [done| |done]. exists (rl_base_index l'). apply Hwf'.
Qed.

Lemma durable_at_compact ops l t v c ct :
  log_wf l -> last_index l < U64_MAX -> rl_base_index l < c -> durable_at p ops l t v ->
  durable_at p (ops ++ [CompactThrough c]) (compact_through l c ct) t v.
Proof.
  intros Hwf Hb Hc Hd. eapply durable_at_log; [done|by repeat constructor|done|].
  rewrite compact_through_eq by done. unfold replay. cbn [fold_left op_log rl_entries].
  apply contiguous_filter_gt, Hwf.
Qed.

Lemma durable_at_clear ops l t v i it :
  log_wf l -> durable_at p ops l t v -> durable_at p (ops ++ [TruncateFrom 0]) (mkLog [] i it) t v.
Proof.
  intros Hwf Hd. eapply durable_at_log; [done|by repeat constructor|done|].
  unfold replay. cbn [fold_left op_log rl_entries].
  rewrite (contiguous_filter_lt (rl_base_index l)) by apply Hwf.
  pose proof (last_index_ge l Hwf). by replace (Z.to_nat (0 - rl_base_index l - 1)) with 0%nat by lia.
Qed.

Lemma durable_at_same ops l l' t v :
  rl_entries l' = rl_entries l -> durable_at p ops l t v -> durable_at p ops l' t v.
Proof. intros He [Hl Ho Ha Hh]. split; [by rewrite He|done..]. Qed.
End Durable.

(** ** Frames *)

(** The part of the state the store has a copy of. *)
Definition core (s : raft_state) : raft_log * list persist_op * Z * option Z :=
  (rs_log s, rs_pending s, rs_current_term s, rs_voted_for s).

Definition raft_inv (p : persisted_raft) (s : raft_state) : Prop := log_wf (rs_log s) /\ durable p s.

Lemma raft_inv_core p s s' : core s' = core s -> raft_inv p s -> raft_inv p s'.
Proof. unfold core, raft_inv, durable. by intros [= -> -> -> ->]. Qed.

Lemma core_recompute s : core (recompute_commit_index s) = core s.
Proof. unfold recompute_commit_index. by repeat case_match. Qed.

Lemma core_remove_peers ids s : core (fold_left remove_peer ids s) = core s.
Proof. revert s. induction ids as [|i ids IH]; intros s; cbn; [done|]. by rewrite IH. Qed.

Lemma core_add_peers ids s : core (fold_left add_peer ids s) = core s.
Proof.
  revert s. induction ids as [|i ids IH]; intros s; cbn; [done|]. rewrite IH. unfold add_peer. by case_match.
Qed.

Lemma core_apply_config s add remove : core (apply_config_change s add remove) = core s.
Proof.
  unfold apply_config_change. change (core (set_peers ?s _)) with (core s).
  by rewrite core_add_peers, core_remove_peers.
Qed.

Lemma core_drain_loop fuel s : core (fst (drain_loop fuel s)) = core s.
Proof.
  revert s. induction fuel as [|fuel IH]; intros s; cbn; [done|].
  case_if; [|done]. destruct (log_get _ _) as [e|]; [|by rewrite IH]. case_if; [by rewrite IH|].
  destruct (decode_config_change _) as [[add remove]|]; [by rewrite IH, core_apply_config|].
  specialize (IH (set_applied s (rs_last_applied s + 1))). by destruct (drain_loop _ _).
Qed.

Lemma core_drain s : core (fst (drain_apply_actions s)) = core s.
Proof. apply core_drain_loop. Qed.

(** ** Handlers *)

(** The log an event can add to the one of [s] stays within the index width. *)
Definition event_len (ev : raft_event) : Z :=
  match ev with EvMessage (AppendEntries ae) _ => len (ae_entries ae) | _ => 1 end.

Definition event_fits (s : raft_state) (ev : raft_event) : Prop :=
  last_index (rs_log s) + 1 + event_len ev < U64_MAX /\
  match ev with EvMessage m _ => message_wf m | _ => True end.

Section Handlers.
Context (p : persisted_raft).

Lemma set_hard_inv s t v : raft_inv p s -> raft_inv p (persist_hard_state (set_hard s t v)).
Proof. intros [Hwf Hd]. split; [done|]. exact (durable_at_hard _ _ _ _ _ _ _ Hd). Qed.

Lemma step_down_inv s t : raft_inv p s -> raft_inv p (step_down_to s t).
Proof.
  intros Hi. unfold step_down_to. cbn zeta.
  destruct (_ || _) eqn:E.
  - apply (raft_inv_core p (persist_hard_state (set_hard s (if rs_current_term s <? t then t else rs_current_term s) None)));
      [done|]. by apply set_hard_inv.
  - apply orb_false_iff in E as [E1 E2]. rewrite E1. apply (raft_inv_core p s); [|done].
    unfold core. cbn. apply bool_decide_eq_false in E2. destruct (rs_voted_for s); [|done]. by destruct E2.
Qed.

Lemma append_local_inv s payload : raft_inv p s -> raft_inv p (fst (append_local s payload)).
Proof.
  intros [Hwf Hd]. split; cbn.
  - apply set_entries_wf; [done|]. apply contiguous_app. split; [apply Hwf|].
    rewrite (last_index_eq _ Hwf). split; cbn; [lia|done].
  - by apply durable_at_append.
Qed.

Lemma become_leader_inv s : raft_inv p s -> raft_inv p (become_leader s).
Proof.
  intros Hi. unfold become_leader. cbn zeta. eapply raft_inv_core; [apply core_recompute|].
  destruct (rs_noop_on_elect _).
  - eapply raft_inv_core; [|apply (append_local_inv (set_hint (set_role s Leader) (Some (rs_me s))) [])]; [done|].
    by eapply raft_inv_core.
  - by eapply raft_inv_core.
Qed.

Lemma ae_consistent_start l ae :
  log_wf l -> 0 <= ae_prev_log_index ae -> ae_consistent l ae = true -> ae_prev_log_index ae <= last_index l.
Proof.
  intros Hwf H0 Hc. pose proof (last_index_ge l Hwf). unfold ae_consistent in Hc.
  repeat case_if_in Hc; try lia. destruct (term_at l _) eqn:Et; [|done]. by apply term_at_Some_le in Et.
Qed.

Lemma append_at_last l start new committed l' fc :
  log_wf l -> 0 < start <= last_index l + 1 -> append_at l start new committed = Some (l', fc) ->
  last_index l' <= last_index l + len new.
Proof.
  intros Hwf Hst Ha. apply append_at_Some in Ha as (Hwf' & Hb & _ & Hfc); [|done..].
  destruct fc as [c|]; [|destruct Hfc as [-> _]; len_lia]. destruct Hfc as (Hc & Hcb & He & _).
  rewrite (last_index_eq l' Hwf'), (last_index_eq l Hwf), He, Hb.
  rewrite (last_index_eq l Hwf) in Hcb. unfold len in *.
  rewrite length_app, assign_indices_length, length_take, length_drop. lia.
Qed.

Lemma ae_append_inv s ae s' :
  raft_inv p s -> 0 <= ae_prev_log_index ae -> last_index (rs_log s) + 1 + len (ae_entries ae) < U64_MAX ->
  ae_consistent (rs_log s) ae = true -> ae_append s ae = Some s' -> raft_inv p s'.
Proof.
  intros [Hwf Hd] H0 Hfit Hc Ha. unfold ae_append in Ha. pose proof (ae_consistent_start _ _ Hwf H0 Hc) as Hp.
  destruct (ae_entries ae) as [|e es] eqn:Ee; [by simplify_eq|]. rewrite <- Ee in *.
  assert (0 < sat_add_u64 (ae_prev_log_index ae) 1 <= last_index (rs_log s) + 1) as Hst
    by (unfold sat_add_u64, U64_MAX in *; lia).
  destruct (append_at _ _ _ _) as [[l [c|]]|] eqn:E; [..|done]; simplify_eq.
  - pose proof (append_at_last _ _ _ _ _ _ Hwf Hst E) as Hl.
    assert (last_index l < U64_MAX) as Hlt by lia.
    pose proof (durable_at_append_at p _ _ _ _ _ _ _ _ _ Hwf Hst Hlt E Hd) as Hd'.
    split; [by apply append_at_Some in E as (? & _)|].
    unfold durable. cbn. by rewrite <- app_assoc.
  - apply append_at_Some in E as (_ & _ & _ & -> & _); [|done..]. by split.
Qed.

Lemma core_ae_commit s ae : core (ae_commit s ae) = core s.
Proof. unfold ae_commit. by case_match. Qed.

Lemma handle_append_entries_inv s ae :
  raft_inv p s -> 0 <= ae_prev_log_index ae -> last_index (rs_log s) + 1 + len (ae_entries ae) < U64_MAX ->
  raft_inv p (fst (handle_append_entries s ae)).
Proof.
  intros Hi H0 Hfit. unfold handle_append_entries. case_if; [|done]. cbn zeta.
  set (s1 := if _ <? _ then _ else s). assert (raft_inv p s1 /\ rs_log s1 = rs_log s) as [Hi1 Hl1].
  { unfold s1. case_if; [|done]. split; [by apply set_hard_inv|done]. }
  clearbody s1. set (s2 := set_hint (set_role s1 Follower) (Some (ae_leader_id ae))).
  assert (raft_inv p s2 /\ rs_log s2 = rs_log s) as [Hi2 Hl2] by done. clearbody s2.
  destruct (ae_consistent (rs_log s2) ae) eqn:Ec; [|done].
  destruct (ae_append s2 ae) as [s3|] eqn:Ea; [|done]. cbn [fst].
  eapply raft_inv_core; [apply core_ae_commit|]. eapply ae_append_inv; [apply Hi2|done| |done..]. by rewrite Hl2.
Qed.

Lemma install_done_inv s m :
  raft_inv p s -> last_index (rs_log s) < U64_MAX -> raft_inv p (install_done s m).
Proof.
  intros [Hwf Hd] Hfit. unfold install_done. cbn zeta.
  set (s1 := if rl_base_index (rs_log s) <? is_last_index m then _ else s). assert (raft_inv p s1) as Hi1.
  { unfold s1. case_if; [|done]. unfold log_install_snapshot. pose proof (last_index_ge _ Hwf).
    destruct (_ && _) eqn:E.
    - split; [|by apply durable_at_compact]. cbn. rewrite compact_through_eq by done. split; cbn; [lia|].
      apply andb_prop in E as [E _]. apply bool_decide_eq_true in E. apply term_at_Some_le in E; [|done].
      apply (contiguous_drop (rl_base_index (rs_log s))); [apply Hwf|].
      rewrite (last_index_eq _ Hwf) in E. unfold len in E. lia.
    - split; [split; cbn; [lia|done]|]. by eapply durable_at_clear. }
  clearbody s1. repeat case_match; done.
Qed.

Lemma handle_install_inv s m progress :
  raft_inv p s -> last_index (rs_log s) < U64_MAX -> raft_inv p (fst (handle_install_snapshot s m progress)).
Proof.
  intros Hi Hfit. unfold handle_install_snapshot. case_if; [done|]. cbn zeta. cbn [fst].
  set (s2 := set_hint (set_role s Follower) (Some (is_leader_id m))).
  assert (raft_inv p s2 /\ rs_log s2 = rs_log s) as [Hi2 Hl2] by done. clearbody s2.
  set (s3 := if rs_current_term s2 <? is_term m then _ else s2).
  assert (raft_inv p s3 /\ rs_log s3 = rs_log s) as [Hi3 Hl3].
  { unfold s3. case_if; [|done]. split; [by apply set_hard_inv|done]. }
  clearbody s3. case_match; [|done]. apply install_done_inv; [done|]. by rewrite Hl3.
Qed.

Lemma handle_message_inv s m progress :
  raft_inv p s -> event_fits s (EvMessage m progress) -> raft_inv p (fst (handle_message s m progress)).
Proof.
  intros Hi [Hfit Hm]. destruct m as [rv|rvr|ae|aer|is_|isr]; cbn [handle_message] in *; cbn [event_len] in Hfit.
  - unfold handle_request_vote. cbn [fst]. cbn zeta. case_match; [by apply set_hard_inv|done].
  - unfold handle_request_vote_resp. repeat case_match; try done. cbn zeta. cbn [fst]. by apply become_leader_inv.
  - apply handle_append_entries_inv; [done|cbn in Hm; unfold is_u in Hm; lia|done].
  - unfold handle_append_entries_resp. repeat case_match; try done; cbn zeta; cbn [fst];
      (eapply raft_inv_core; [apply core_recompute|]); done.
  - apply handle_install_inv; [done|lia].
  - unfold handle_install_snapshot_resp. repeat case_match; try done; cbn zeta; cbn [fst];
      (eapply raft_inv_core; [apply core_recompute|]); done.
Qed.

Lemma on_message_inv s m progress :
  raft_inv p s -> event_fits s (EvMessage m progress) -> raft_inv p (fst (on_message_with_progress s m progress)).
Proof.
  intros Hi Hfit. unfold on_message_with_progress. repeat (case_if; [done|]). cbn zeta.
  set (s1 := if rs_current_term s <? msg_term m then _ else s).
  assert (raft_inv p s1 /\ rs_log s1 = rs_log s) as [Hi1 Hl1].
  { unfold s1. case_if; [|done]. split; [by apply step_down_inv|]. unfold step_down_to. cbn. by case_match. }
  clearbody s1. pose proof (handle_message_inv s1 m progress Hi1) as Hh.
  destruct (handle_message s1 m progress) as [s2 acts]. cbn [fst] in Hh.
  pose proof (core_drain s2) as Hcd. destruct (drain_apply_actions s2) as [s3 applies]. cbn [fst] in Hcd |- *.
  eapply raft_inv_core; [exact Hcd|]. apply Hh. unfold event_fits in *. by rewrite Hl1.
Qed.

Lemma timeout_inv s : raft_inv p s -> raft_inv p (fst (on_election_timeout s)).
Proof.
  intros Hi. unfold on_election_timeout. case_match; [done|]. unfold start_election. cbn zeta.
  match goal with |- context [rs_peers ?x] => set (s1 := x) end.
  assert (raft_inv p s1) as Hi1.
  { subst s1. eapply raft_inv_core; [|apply (set_hard_inv s (sat_add_u64 (rs_current_term s) 1) (Some (rs_me s)) Hi)]. done. }
  clearbody s1. destruct (rs_peers s1); [|done]. pose proof (core_drain (become_leader s1)) as Hcd.
  destruct (drain_apply_actions _). cbn [fst] in *. eapply raft_inv_core; [exact Hcd|]. by apply become_leader_inv.
Qed.

Lemma propose_inv s payload : raft_inv p s -> raft_inv p (fst (fst (try_propose s payload))).
Proof.
  intros Hi. unfold try_propose. case_match; [done|].
  pose proof (append_local_inv s payload Hi) as Ha. destruct (append_local s payload) as [s1 i]. cbn [fst] in Ha.
  pose proof (core_drain (recompute_commit_index s1)) as Hcd. destruct (drain_apply_actions _). cbn [fst] in *.
  eapply raft_inv_core; [exact Hcd|]. eapply raft_inv_core; [apply core_recompute|done].
Qed.

Lemma take_snapshot_inv s data through s' snap :
  raft_inv p s -> last_index (rs_log s) < U64_MAX -> take_snapshot s data through = Some (s', snap) -> raft_inv p s'.
Proof.
  intros [Hwf Hd] Hfit. unfold take_snapshot. cbn zeta. set (t := Z.min _ _).
  destruct (_ || _) eqn:E; [done|]. apply orb_false_iff in E as [_ E]. boolp.
  destruct (term_at (rs_log s) t) as [term|] eqn:Et; [|done]. cbn. intros [= <- _].
  apply term_at_Some_le in Et; [|done]. rewrite (last_index_eq _ Hwf) in Et. unfold len in Et.
  split; [|by apply durable_at_compact]. cbn. rewrite compact_through_eq by done.
  split; cbn; [destruct Hwf; lia|]. apply (contiguous_drop (rl_base_index (rs_log s))); [apply Hwf|lia].
Qed.

Lemma node_event_inv s ev : raft_inv p s -> event_fits s ev -> raft_inv p (fst (node_event s ev)).
Proof.
  intros Hi Hfit. destruct ev as [m progress|payload|data through| |]; cbn [node_event].
  - by apply on_message_inv.
  - pose proof (propose_inv s payload Hi) as Hp. destruct (try_propose s payload) as [[s' [i|h]] acts]; done.
  - destruct (take_snapshot s data through) as [[s' snap]|] eqn:E; [|done]. destruct Hfit as [Hfit _].
    cbn in Hfit. eapply take_snapshot_inv; [done| |done]. lia.
  - by apply timeout_inv.
  - done.
Qed.
End Handlers.

(** ** Properties *)

Definition op_fits (op : persist_op) : Prop :=
  match op with Append es => Forall entry_fits es | _ => True end.

Lemma ops_ok_of_appends p ops : appends_ok (pr_log p) ops -> Forall op_fits ops -> ops_ok p ops.
Proof.
  revert p. induction ops as [|op ops IH]; intros p; [done|]. cbn [appends_ok ops_ok]. intros [H1 H2] Hf.
  apply Forall_cons in Hf as [Hf Hfs]. split; [by destruct op|]. apply IH; [|done]. by destruct op.
Qed.

(** A snapshot request with nothing to snapshot: answered without touching the
    store. *)
Definition snapshot_refused (s : raft_state) (ev : raft_event) : bool :=
  match ev with
  | EvSnapshot data through => match take_snapshot s data through with Some _ => false | None => true end
  | _ => false
  end.

(** What the driver does for an event: the handler, then [apply_and_persist] takes
    the recorded operations and persists them before any action is carried out. *)
Definition node_round (s : raft_state) (ev : raft_event) : raft_state * list persist_op * list action :=
  if snapshot_refused s ev then (s, [], [])
  else
    let (s', actions) := node_event s ev in
    let (s'', ops) := take_persist_ops s' in
    (s'', ops, actions).

Section Round.
Context `{!Crc32} (b64_decode : string -> option (list byte)).

(** C9: persist-before-send loses nothing.  If the store holds a state [p] from
    which the recorded operations reach the runtime state, then after any event
    the operations the driver hands to the store bring it to exactly the new
    runtime term, vote and log, whatever handler ran; the file store accepts them
    (their entries being within the record limit) and a restart reads back
    exactly that state.  Only a refused snapshot request persists nothing, and it
    changes nothing. *)
Theorem node_round_durable p s ev fs :
  log_wf (rs_log s) -> durable p s -> event_fits s ev -> store_rel fs p -> fs_unsynced fs = false ->
  match node_round s ev with
  | (s', ops, _) =>
    log_wf (rs_log s') /\
    (if snapshot_refused s ev then s' = s /\ ops = []
     else mem_persist p ops = snapshot_persistent s' /\ durable (snapshot_persistent s') s' /\
       (Forall op_fits ops ->
        exists fs' fs2, file_persist fs [] ops = (fs', true) /\ fs_unsynced fs' = false /\
          store_rel fs' (snapshot_persistent s') /\
          file_load b64_decode (store_restart fs') = Some (fs2, snapshot_persistent s')))
  end.
Proof.
  intros Hwf Hd Hfit Hr Hu. unfold node_round. destruct (snapshot_refused s ev) eqn:Eref; [done|].
  destruct (node_event_inv p s ev (conj Hwf Hd) Hfit) as [Hwf' Hd'].
  destruct (node_event s ev) as [s' actions]. cbn [fst take_persist_ops] in *.
  pose proof (durable_persisted p s' Hd') as Hp.
  change (snapshot_persistent (set_pending s' [])) with (snapshot_persistent s').
  split; [done|]. split; [done|]. split; [apply durable_saved|].
  intros Hf. assert (ops_ok p (rs_pending s')) as Hok by (apply ops_ok_of_appends; [apply Hd'|done]).
  destruct (persist_loop_rel fs false [] p (rs_pending s') Hr) as
    (fs' & ok & ap & rest & E & Hap & Hr' & Ht & Hall); [congruence|done|].
  specialize (Hall (List.Forall_nil _)). subst ok. destruct (Ht eq_refl) as [-> Hu']. rewrite app_nil_r in Hap.
  subst ap. rewrite Hp in Hr'. pose proof Hr' as (Hh & Hc & Hfe & Hb & _).
  destruct (file_load_torn b64_decode (fs_hard fs') (fs_log fs') (fs_snapshot fs') (snapshot_persistent s') [])
    as (fs2 & Hl & _); [done..|by rewrite app_nil_r|apply decode_stops_nil|].
  by exists fs', fs2.
Qed.
End Round.

(** The stored snapshot covers exactly what the log has compacted away. *)
Definition snapshot_ends_at (l : raft_log) (snap : option persisted_snapshot) : Prop :=
  match snap with
  | Some sn => ps_last_index sn = rl_base_index l /\ ps_last_term sn = rl_base_term l
  | None => rl_base_index l = 0 /\ rl_base_term l = 0
  end.

(** A restart resumes where the node stopped.  Restoring a fresh node from the
    stored state and from the snapshot that ends at the log's base gives back the
    same term, vote and log, as a follower, with the snapshot's prefix counted as
    committed and applied. *)
Theorem restart_resumes s snap :
  log_wf (rs_log s) -> last_index (rs_log s) < U64_MAX ->
  snapshot_ends_at (rs_log s) snap ->
  exists s', restore (raft_new (rs_me s) (rs_peers s) (rs_noop_on_elect s)) (snapshot_persistent s) snap = Some s' /\
    rs_log s' = rs_log s /\ rs_current_term s' = rs_current_term s /\ rs_voted_for s' = rs_voted_for s /\
    rs_role s' = Follower /\ rs_commit_index s' = rl_base_index (rs_log s) /\
    rs_last_applied s' = rl_base_index (rs_log s) /\ rs_pending s' = [].
Proof.
  intros Hwf Hlt Hs. pose proof (last_index_ge _ Hwf) as Hge. pose proof (last_index_eq _ Hwf) as Hle.
  destruct Hwf as [_ Hc]. unfold restore. cbn [raft_new].
  destruct snap as [[li lt data]|]; cbn [snapshot_ends_at ps_last_index ps_last_term] in Hs.
  - destruct Hs as [-> ->].
    assert (rl_entries (compact_through (into_log (snapshot_persistent s)) (rl_base_index (rs_log s))
              (rl_base_term (rs_log s))) = rl_entries (rs_log s)) as Hent.
    { unfold compact_through. cbn. case_if; [done|]. cbn [rl_entries].
      destruct (rl_entries (rs_log s)) as [|e es] eqn:E; [done|]. destruct Hc as [He _].
      unfold sat_sub_u64, sat_add_u64. rewrite He. rewrite Z.min_l by (unfold U64_MAX in *; lia).
      by replace (Z.to_nat _) with 0%nat by len_lia. }
    destruct (rl_entries (rs_log s)) as [|e es] eqn:E.
    + cbn. rewrite E. cbn. cbn in Hent. rewrite Hent.
      repeat case_if; cbn in *; try lia; (eexists; split; [reflexivity|]);
        destruct (rs_log s) as [es0 bi bt]; cbn in *; subst; split_and!; try done; lia.
    + destruct Hc as [He _]. cbn. rewrite E. cbn. rewrite (proj2 (Z.leb_gt _ _)) by lia.
      cbn. cbn in Hent. rewrite Hent.
      repeat case_if; cbn in *; try lia; rewrite (proj2 (Z.eqb_eq _ _)) by lia; (eexists; split; [reflexivity|]);
        destruct (rs_log s) as [es0 bi bt]; cbn in *; subst; split_and!; try done; lia.
  - destruct Hs as [Hb0 Ht0]. assert (rs_log s = mkLog (rl_entries (rs_log s)) 0 0) as El.
    { destruct (rs_log s). cbn in *. by subst. }
    cbn. destruct (rl_entries (rs_log s)) as [|e es] eqn:E.
    + eexists. split; [reflexivity|]. unfold into_log. cbn. rewrite El. split_and!; done.
    + destruct Hc as [He _]. cbn. rewrite (proj2 (Z.eqb_eq _ _)) by lia.
      eexists. split; [reflexivity|]. unfold into_log. cbn. rewrite El. split_and!; done.
Qed.

(** ** Witnesses *)

#[local] Existing Instance crc32_ieee_class.

Definition sample_leader : raft_state :=
  fst (on_message (fst (on_election_timeout (raft_new 1 [2; 3] true))) (RequestVoteResp (mkRVR 1 true 2))).

Example sample_leader_leads : rs_role sample_leader = Leader /\ last_index (rs_log sample_leader) = 1.
Proof. vm_compute. done. Qed.

(** The leader after its operations were persisted. *)
Definition saved_leader : raft_state := set_pending sample_leader [].

Lemma saved_leader_wf : log_wf (rs_log saved_leader).
Proof. split; vm_compute; [congruence|done]. Qed.

Lemma saved_leader_fits ev : event_len ev = 1 -> match ev with EvMessage m _ => message_wf m | _ => True end ->
  event_fits saved_leader ev.
Proof. intros He Hm. split; [rewrite He; vm_compute; reflexivity|done]. Qed.

Definition leader_store : file_store :=
  fst (file_persist sample_store [] (rs_pending sample_leader)).

Lemma leader_store_rel : store_rel leader_store (snapshot_persistent saved_leader).
Proof.
  unfold store_rel. split_and!; [vm_compute; done|exists 0; vm_compute; done| |vm_compute; done..].
  vm_compute snapshot_persistent. constructor; [|constructor].
  unfold entry_fits, is_u. split_and!; cbn; try (vm_compute; done). 
Qed.

Lemma node_round_durable_witness :
  match node_round saved_leader (EvPropose [x61]) with
  | (s', ops, _) => ops = [Append [mkEntry 1 2 [x61]]] /\
      mem_persist (snapshot_persistent saved_leader) ops = snapshot_persistent s'
  end.
Proof.
  pose proof (node_round_durable (fun _ => None) (snapshot_persistent saved_leader) saved_leader
    (EvPropose [x61]) leader_store saved_leader_wf (durable_saved sample_leader)
    (saved_leader_fits (EvPropose [x61]) eq_refl I) leader_store_rel) as H.
  assert (fs_unsynced leader_store = false) as Hu by (vm_compute; reflexivity).
  specialize (H Hu). destruct (node_round saved_leader (EvPropose [x61])) as [[s' ops] acts] eqn:E.
  destruct H as [_ H]. cbn [snapshot_refused] in H. split; [|exact (proj1 H)].
  clear H. vm_compute in E. by simplify_eq.
Defined.

Lemma restart_resumes_witness :
  exists s', restore (raft_new 1 [2; 3] true) (snapshot_persistent saved_leader) None = Some s' /\
    rs_log s' = rs_log saved_leader /\ rs_current_term s' = 1 /\ rs_voted_for s' = Some 1.
Proof.
  destruct (restart_resumes saved_leader None) as (s' & H1 & H2 & H3 & H4 & _);
    [apply saved_leader_wf|vm_compute; reflexivity|vm_compute; split; reflexivity|].
  exists s'. split; [exact H1|]. split; [exact H2|]. rewrite H3, H4. vm_compute. split; reflexivity.
Defined.
