(* ===== verification/RaftSafety.v ===== *)
(** * Commitment in the Raft state machine

    Local safety of one node: the commit index never goes back and the entries
    below it never change, a leader commits exactly by the majority rule of
    section 5.4.2 of the Raft paper, and committed entries are handed to the
    application once and in order. *)

From S2P Require Export RaftDurable.

#[local] Open Scope Z_scope.

(** ** Well-formed states and stability *)

Definition raft_wf (s : raft_state) : Prop :=
  log_wf (rs_log s) /\
  rl_base_index (rs_log s) <= rs_last_applied s <= rs_commit_index s /\
  rs_commit_index s <= last_index (rs_log s).

(** The committed prefix of [s], as far as it is still in memory, is in [s']. *)
Record stable (s s' : raft_state) : Prop := {
  st_base : rl_base_index (rs_log s) <= rl_base_index (rs_log s');
  st_commit : rs_commit_index s <= rs_commit_index s';
  st_entries : forall i, rl_base_index (rs_log s') < i <= rs_commit_index s ->
    log_get (rs_log s') i = log_get (rs_log s) i }.

#[global] Instance stable_preorder : PreOrder stable.
Proof.
  split; [by split|]. intros s1 s2 s3 [A1 A2 A3] [B1 B2 B3]. split; [lia|lia|].
  intros i Hi. rewrite B3 by lia. apply A3. lia.
Qed.

(** Good steps: well-formed, and stable on what was committed. *)
Definition good (s s' : raft_state) : Prop := raft_wf s' /\ stable s s'.

Lemma good_refl s : raft_wf s -> good s s.
Proof. by split. Qed.

Lemma good_trans s1 s2 s3 : good s1 s2 -> (raft_wf s2 -> good s2 s3) -> good s1 s3.
Proof. intros [H1 H2] H3. destruct (H3 H1) as [H4 H5]. split; [done|by transitivity s2]. Qed.

(** A step that leaves the log and only moves the commit and applied indices up,
    within the log. *)
Lemma good_same_log s s' :
  raft_wf s -> rs_log s' = rs_log s ->
  rs_commit_index s <= rs_commit_index s' <= last_index (rs_log s) ->
  rs_last_applied s <= rs_last_applied s' <= rs_commit_index s' -> good s s'.
Proof.
  intros (Hwf & Ha & Hc) El H1 H2. split; [|split; rewrite ?El; [lia|lia|done]].
  unfold raft_wf. rewrite El. split_and!; [apply Hwf..|lia|lia|lia].
Qed.

(** Same log, same indices. *)
Definition indices_of (s : raft_state) : raft_log * Z * Z := (rs_log s, rs_commit_index s, rs_last_applied s).

Lemma good_same s s' : raft_wf s -> indices_of s' = indices_of s -> good s s'.
Proof.
  intros Hw [= H1 H2 H3]. pose proof Hw as (_ & ? & ?). apply good_same_log; [done..|lia|lia].
Qed.

Lemma recompute_good s : raft_wf s -> good s (recompute_commit_index s).
Proof.
  intros Hw. unfold recompute_commit_index. case_if; [|by apply good_refl].
  case_match eqn:E; [|by apply good_refl]. apply bool_decide_eq_true in E.
  pose proof Hw as (Hwf & Ha & Hc). apply term_at_Some_le in E; [|done].
  apply good_same_log; cbn; [done|done|lia|lia].
Qed.

Lemma indices_apply_config s add remove : indices_of (apply_config_change s add remove) = indices_of s.
Proof.
  unfold apply_config_change. change (indices_of (set_peers ?s _)) with (indices_of s).
  assert (forall ids s, indices_of (fold_left add_peer ids s) = indices_of s) as ->.
  { intros ids. induction ids as [|i ids IH]; intros s0; cbn; [done|]. rewrite IH. unfold add_peer. by case_match. }
  revert s. induction remove as [|i ids IH]; intros s; cbn; [done|]. by rewrite IH.
Qed.

(** The entries with indices above [a], up to [b]. *)
Definition log_range (l : raft_log) (a b : Z) : list log_entry :=
  take (Z.to_nat (b - a)) (drop (Z.to_nat (a - rl_base_index l)) (rl_entries l)).

(** What the state machine is given: not no-ops, not configuration changes. *)
Definition deliverable (e : log_entry) : bool :=
  negb (len (e_payload e) =? 0) && bool_decide (decode_config_change (e_payload e) = None).

Definition applies (acts : list action) : list log_entry :=
  omap (fun a => match a with Apply e => Some e | _ => None end) acts.

Lemma log_range_cons l a b e :
  log_wf l -> rl_base_index l <= a < b -> log_get l (a + 1) = Some e ->
  log_range l a b = e :: log_range l (a + 1) b.
Proof.
  intros Hwf Hab He. rewrite log_get_eq in He by done. rewrite (proj2 (Z.ltb_lt _ _)) in He by lia.
  unfold log_range. replace (Z.to_nat (a + 1 - rl_base_index l - 1)) with (Z.to_nat (a - rl_base_index l)) in He by lia.
  rewrite (drop_S _ e) by done.
  replace (Z.to_nat (b - a)) with (S (Z.to_nat (b - (a + 1)))) by lia.
  cbn [take]. do 3 f_equal. lia.
Qed.

(** The apply loop: it reaches the commit index and emits the deliverable
    committed entries in order. *)
Lemma drain_loop_spec n s :
  raft_wf s -> n = Z.to_nat (rs_commit_index s - rs_last_applied s) ->
  rs_log (fst (drain_loop n s)) = rs_log s /\
  rs_commit_index (fst (drain_loop n s)) = rs_commit_index s /\
  rs_last_applied (fst (drain_loop n s)) = rs_commit_index s /\
  snd (drain_loop n s) =
    Apply <$> filter (fun e => deliverable e = true) (log_range (rs_log s) (rs_last_applied s) (rs_commit_index s)).
Proof.
  revert s. induction n as [|n IH]; intros s Hw Hn; pose proof Hw as (Hwf & Ha & Hc).
  { cbn. unfold log_range. replace (Z.to_nat _) with 0%nat at 1 by lia. split_and!; [done..|lia|done]. }
  cbn [drain_loop]. rewrite (proj2 (Z.ltb_lt _ _)) by lia. cbn [set_applied rs_log rs_last_applied].
  destruct (log_get_is_Some (rs_log s) Hwf (rs_last_applied s + 1)) as [e He]; [lia|]. rewrite He.
  rewrite (log_range_cons _ _ (rs_commit_index s) e Hwf) by (done || lia).
  assert (forall s1, indices_of s1 = (rs_log s, rs_commit_index s, rs_last_applied s + 1) ->
    rs_log (fst (drain_loop n s1)) = rs_log s /\
    rs_commit_index (fst (drain_loop n s1)) = rs_commit_index s /\
    rs_last_applied (fst (drain_loop n s1)) = rs_commit_index s /\
    snd (drain_loop n s1) = Apply <$> filter (fun e => deliverable e = true)
      (log_range (rs_log s) (rs_last_applied s + 1) (rs_commit_index s))) as IH'.
  { intros s1 [= E1 E2 E3]. rewrite <- E1, <- E2, <- E3. apply IH; [|lia].
    unfold raft_wf. rewrite E1, E2, E3. split_and!; [apply Hwf..|lia|lia|lia]. }
  destruct (len (e_payload e) =? 0) eqn:E0.
  { rewrite filter_cons_False by (unfold deliverable; by rewrite E0). by apply IH'. }
  destruct (decode_config_change (e_payload e)) as [[add remove]|] eqn:Ed.
  { rewrite filter_cons_False by (unfold deliverable; rewrite Ed; by rewrite andb_false_r).
    apply IH'. by rewrite indices_apply_config. }
  rewrite filter_cons_True by (unfold deliverable; rewrite E0, Ed; done).
  specialize (IH' (set_applied s (rs_last_applied s + 1)) eq_refl). unfold set_applied in *.
  destruct (drain_loop n _) as [s' out]. cbn [fst snd] in *. destruct IH' as (? & ? & ? & ->). done.
Qed.

Lemma drain_good s : raft_wf s -> good s (fst (drain_apply_actions s)).
Proof.
  intros Hw. destruct (drain_loop_spec _ s Hw eq_refl) as (H1 & H2 & H3 & _).
  pose proof Hw as (_ & ? & ?). unfold drain_apply_actions. apply good_same_log; [done..|lia|lia].
Qed.

(** ** Handlers *)

(** A snapshot that ends inside the committed prefix carries the term this node
    committed there. *)
Definition snapshot_agrees (s : raft_state) (ev : raft_event) : Prop :=
  match ev with
  | EvMessage (InstallSnapshot m) _ =>
    rl_base_index (rs_log s) < is_last_index m <= rs_commit_index s ->
    term_at (rs_log s) (is_last_index m) = Some (is_last_term m)
  | _ => True
  end.

Lemma append_local_good s payload : raft_wf s -> good s (fst (append_local s payload)).
Proof.
  intros (Hwf & Ha & Hc). set (e := mkEntry (rs_current_term s) (last_index (rs_log s) + 1) payload).
  assert (log_wf (set_entries (rs_log s) (rl_entries (rs_log s) ++ [e]))) as Hwf'.
  { apply set_entries_wf; [done|]. apply contiguous_app. split; [apply Hwf|].
    rewrite <- (last_index_eq _ Hwf). by split. }
  split; [split_and!; cbn; [apply Hwf'..|lia|lia|]|split; cbn; [lia|lia|]].
  - change (rs_commit_index s <= last_index (set_entries (rs_log s) (rl_entries (rs_log s) ++ [e]))).
    rewrite (last_index_eq _ Hwf'). rewrite (last_index_eq _ Hwf) in Hc. cbn. len_lia.
  - intros i Hi. eapply log_get_app; [done|reflexivity| |done..].
    rewrite (last_index_eq _ Hwf) in Hc. lia.
Qed.

Lemma become_leader_good s : raft_wf s -> good s (become_leader s).
Proof.
  intros Hw. unfold become_leader. cbn zeta. set (s1 := if rs_noop_on_elect _ then _ else _).
  assert (good s s1) as Hg.
  { unfold s1. case_match; [|by apply good_same].
    apply (good_trans _ (set_hint (set_role s Leader) (Some (rs_me s)))); [by apply good_same|].
    apply append_local_good. }
  clearbody s1. eapply good_trans; [exact Hg|]. intros Hw1.
  match goal with |- good _ (recompute_commit_index ?x) => apply (good_trans _ x) end; [by apply good_same|].
  apply recompute_good.
Qed.

(** The indices an accepted request covers are in the log. *)
Lemma append_at_covers l start new committed l' fc :
  log_wf l -> 0 < start <= last_index l + 1 -> append_at l start new committed = Some (l', fc) ->
  start + len new - 1 <= last_index l'.
Proof.
  intros Hwf Hst Ha. destruct (decide (start + len new - 1 <= rl_base_index l)) as [Hb|Hb].
  - apply append_at_Some in Ha as (Hwf' & Hbi & _); [|done..].
    pose proof (last_index_ge l' Hwf'). lia.
  - destruct (last new) as [e|] eqn:El.
    + rewrite last_lookup in El. pose proof El as Hlt. apply lookup_lt_Some in Hlt.
      pose proof (append_at_terms l start new committed l' fc _ e Hwf Hst Ha El) as Ht.
      apply append_at_Some in Ha as (Hwf' & _); [|done..]. unfold len in *.
      specialize (Ht ltac:(lia)). apply term_at_Some_le in Ht; [|done]. lia.
    + apply last_None in El. subst new. cbn in Ha. simplify_eq. len_lia.
Qed.

Lemma ae_append_good s ae s' :
  raft_wf s -> 0 <= ae_prev_log_index ae -> last_index (rs_log s) + 1 + len (ae_entries ae) < U64_MAX ->
  ae_consistent (rs_log s) ae = true -> ae_append s ae = Some s' ->
  good s s' /\ ae_prev_log_index ae + len (ae_entries ae) <= last_index (rs_log s').
Proof.
  intros Hw H0 Hfit Hc Ha. pose proof Hw as (Hwf & Hap & Hci). unfold ae_append in Ha.
  pose proof (ae_consistent_start _ _ Hwf H0 Hc) as Hp. destruct (ae_entries ae) as [|e es] eqn:Ee.
  { simplify_eq. split; [by apply good_refl|len_lia]. }
  rewrite <- Ee in *.
  assert (sat_add_u64 (ae_prev_log_index ae) 1 = ae_prev_log_index ae + 1) as Hs
    by (unfold sat_add_u64, U64_MAX in *; len_lia).
  rewrite Hs in Ha. assert (0 < ae_prev_log_index ae + 1 <= last_index (rs_log s) + 1) as Hst by lia.
  destruct (append_at _ _ _ _) as [[l fc]|] eqn:E; [|done].
  assert (indices_of s' = (l, rs_commit_index s, rs_last_applied s)) as Hi by (destruct fc; by simplify_eq).
  injection Hi as E1 E2 E3. pose proof (append_at_covers _ _ _ _ _ _ Hwf Hst E) as Hcov.
  assert (forall i, i <= rs_commit_index s -> log_get l i = log_get (rs_log s) i) as Hget.
  { intros i Hi. eapply append_at_get_below; [done|done|exact E|]. intros c ->.
    apply append_at_Some in E as (_ & _ & _ & _ & Hcb & _ & _ & _ & Hcut); [|done..].
    destruct (decide (c <= last_index (rs_log s))) as [Hle|]; [destruct (Hcut Hle)|]; lia. }
  apply append_at_Some in E as (Hwf' & Hbi & _ & Hfc); [|done..].
  assert (rs_commit_index s <= last_index l) as Hcl.
  { destruct (decide (rs_commit_index s = rl_base_index (rs_log s))) as [Heq|].
    - pose proof (last_index_ge l Hwf'). lia.
    - destruct (log_get_is_Some _ Hwf (rs_commit_index s)) as [x Hx]; [lia|].
      rewrite <- Hget in Hx by lia. apply log_get_index in Hx; [lia|done]. }
  split; [|rewrite E1; lia]. split.
  - unfold raft_wf. rewrite E1, E2, E3, Hbi. split_and!; [apply Hwf'..|lia|lia|lia].
  - split; rewrite ?E1, ?E2, ?Hbi; [lia|lia|]. intros i Hi. apply Hget. lia.
Qed.

Lemma handle_append_entries_good s ae :
  raft_wf s -> 0 <= ae_prev_log_index ae -> last_index (rs_log s) + 1 + len (ae_entries ae) < U64_MAX ->
  good s (fst (handle_append_entries s ae)).
Proof.
  intros Hw H0 Hfit. unfold handle_append_entries. case_if; [|by apply good_refl]. cbn zeta.
  set (s1 := if _ <? _ then _ else s). assert (indices_of s1 = indices_of s) as Hi1 by (unfold s1; by case_if).
  clearbody s1. set (s2 := set_hint (set_role s1 Follower) (Some (ae_leader_id ae))).
  assert (indices_of s2 = indices_of s) as Hi2 by done. clearbody s2. clear Hi1 s1.
  pose proof (good_same s s2 Hw Hi2) as Hg. assert (rs_log s2 = rs_log s) as El by (by injection Hi2).
  destruct (ae_consistent (rs_log s2) ae) eqn:Ec; [|done].
  destruct (ae_append s2 ae) as [s3|] eqn:Ea; [|done]. cbn [fst].
  destruct (ae_append_good s2 ae s3 (proj1 Hg) H0) as [Hg3 Hcov]; [by rewrite El|done..|].
  eapply good_trans; [exact Hg|]. intros _. eapply good_trans; [exact Hg3|]. intros Hw3.
  unfold ae_commit. cbn zeta. case_if; [|by apply good_refl].
  pose proof Hw3 as (_ & ? & ?). apply good_same_log; cbn; [done|done| |lia].
  unfold sat_add_u64. lia.
Qed.

Lemma install_done_good s m :
  raft_wf s -> last_index (rs_log s) < U64_MAX -> snapshot_agrees s (EvMessage (InstallSnapshot m) 0) ->
  good s (install_done s m).
Proof.
  intros (Hwf & Ha & Hc) Hfit Hag. unfold install_done. cbn zeta.
  set (s1 := if rl_base_index (rs_log s) <? is_last_index m then _ else s).
  assert (log_wf (rs_log s1) /\ rs_commit_index s1 = rs_commit_index s /\ rs_last_applied s1 = rs_last_applied s /\
    rl_base_index (rs_log s1) = Z.max (rl_base_index (rs_log s)) (is_last_index m) /\
    rs_commit_index s <= Z.max (last_index (rs_log s1)) (is_last_index m) /\
    (forall i, rl_base_index (rs_log s1) < i <= rs_commit_index s -> log_get (rs_log s1) i = log_get (rs_log s) i) /\
    (is_last_index m <= rs_commit_index s -> rs_commit_index s <= last_index (rs_log s1)))
    as (Hwf1 & E2 & E3 & Eb & Hm & Hget & Hcl).
  { unfold s1. case_if; [|split_and!; [apply Hwf..|done|done|lia|lia|done|lia]].
    pose proof (last_index_ge _ Hwf). unfold log_install_snapshot. cbn in Hag.
    destruct (_ && _) eqn:E; cbn [push_pending set_pending set_log rs_log rs_commit_index rs_last_applied].
    - apply andb_prop in E as [E _]. apply bool_decide_eq_true in E. apply term_at_Some_le in E; [|done].
      rewrite compact_through_eq by done.
      set (l1 := mkLog _ _ _). assert (log_wf l1) as Hwf1.
      { split; cbn; [lia|]. apply (contiguous_drop (rl_base_index (rs_log s))); [apply Hwf|].
        rewrite (last_index_eq _ Hwf) in E. unfold len in E. lia. }
      assert (last_index l1 = last_index (rs_log s)) as Hl1.
      { rewrite (last_index_eq _ Hwf1), (last_index_eq _ Hwf). rewrite (last_index_eq _ Hwf) in E.
        unfold l1. cbn. len_lia. }
      split_and!; [apply Hwf1..|done|done|cbn; lia|lia| |lia].
      intros i Hi. rewrite !log_get_eq by done. unfold l1 in *. cbn [rl_base_index rl_entries] in *.
      rewrite !(proj2 (Z.ltb_lt _ _)) by lia. rewrite lookup_drop. f_equal. lia.
    - assert (rs_commit_index s < is_last_index m) as Hgt.
      { destruct (Z.lt_ge_cases (rs_commit_index s) (is_last_index m)); [done|].
        rewrite Hag in E by lia. rewrite bool_decide_true in E by done. cbn in E. boolp. lia. }
      assert (log_wf (mkLog [] (is_last_index m) (is_last_term m))) as Hwf1 by (split; cbn; [lia|done]).
      split_and!; [apply Hwf1..|done|done|cbn; lia|lia| |lia]. cbn. intros i Hi. lia. }
  clearbody s1. pose proof (last_index_ge _ Hwf1) as Hge1.
  set (s2 := if rs_commit_index s1 <? is_last_index m then _ else s1).
  assert (rs_log s2 = rs_log s1 /\ rs_last_applied s2 = rs_last_applied s1 /\
    rs_commit_index s2 = Z.max (rs_commit_index s1) (is_last_index m)) as (F1 & F2 & F3).
  { unfold s2. case_if; cbn; split_and!; (done || lia). }
  clearbody s2. set (s3 := if rs_last_applied s2 <? is_last_index m then _ else s2).
  assert (rs_log s3 = rs_log s1 /\ rs_commit_index s3 = rs_commit_index s2 /\
    rs_last_applied s3 = Z.max (rs_last_applied s2) (is_last_index m)) as (G1 & G2 & G3).
  { unfold s3. case_if; cbn; split_and!; (done || lia). }
  clearbody s3. split.
  - unfold raft_wf. rewrite G1, G2, G3, F2, F3, E2, E3. split_and!; [apply Hwf1..|lia|lia|].
    destruct (Z.lt_ge_cases (rs_commit_index s) (is_last_index m)); [|specialize (Hcl ltac:(lia))]; lia.
  - split; rewrite ?G1, ?G2, ?F3, ?E2; [lia|lia|exact Hget].
Qed.

Lemma handle_install_good s m progress progress' :
  raft_wf s -> last_index (rs_log s) < U64_MAX -> snapshot_agrees s (EvMessage (InstallSnapshot m) progress') ->
  good s (fst (handle_install_snapshot s m progress)).
Proof.
  intros Hw Hfit Hag. unfold handle_install_snapshot. case_if; [by apply good_refl|]. cbn zeta. cbn [fst].
  set (s2 := set_hint (set_role s Follower) (Some (is_leader_id m))).
  set (s3 := if rs_current_term s2 <? is_term m then _ else s2).
  assert (indices_of s3 = indices_of s) as Hi by (unfold s3; by case_if).
  clearbody s3. pose proof (good_same s s3 Hw Hi) as Hg. injection Hi as E1 E2 E3.
  destruct (is_done m); [|done]. eapply good_trans; [exact Hg|]. intros Hw3.
  apply install_done_good; [done|by rewrite E1|]. cbn in Hag |- *. by rewrite E1, E2.
Qed.

Lemma handle_message_good s m progress :
  raft_wf s -> event_fits s (EvMessage m progress) -> snapshot_agrees s (EvMessage m progress) ->
  good s (fst (handle_message s m progress)).
Proof.
  intros Hw [Hfit Hm] Hag. destruct m as [rv|rvr|ae|aer|is_|isr]; cbn [handle_message] in *; cbn [event_len] in Hfit.
  - unfold handle_request_vote. cbn [fst]. cbn zeta. case_match; by apply good_same.
  - unfold handle_request_vote_resp. repeat case_match; cbn zeta; cbn [fst]; try (by apply good_same).
    eapply good_trans; [|apply become_leader_good]. by apply good_same.
  - apply handle_append_entries_good; [done|cbn in Hm; unfold is_u in Hm; lia|done].
  - unfold handle_append_entries_resp. repeat case_match; cbn zeta; cbn [fst]; try (by apply good_same);
      (eapply good_trans; [|apply recompute_good]); by apply good_same.
  - eapply handle_install_good; [done|lia|exact Hag].
  - unfold handle_install_snapshot_resp. repeat case_match; cbn zeta; cbn [fst]; try (by apply good_same);
      (eapply good_trans; [|apply recompute_good]); by apply good_same.
Qed.

Lemma indices_step_down s t : indices_of (step_down_to s t) = indices_of s.
Proof. unfold step_down_to. cbn zeta. by case_match. Qed.

Lemma on_message_good s m progress :
  raft_wf s -> event_fits s (EvMessage m progress) -> snapshot_agrees s (EvMessage m progress) ->
  good s (fst (on_message_with_progress s m progress)).
Proof.
  intros Hw Hfit Hag. unfold on_message_with_progress. repeat (case_if; [by apply good_refl|]). cbn zeta.
  set (s1 := if rs_current_term s <? msg_term m then _ else s).
  assert (indices_of s1 = indices_of s) as Hi by (unfold s1; case_if; [apply indices_step_down|done]).
  clearbody s1. pose proof (good_same s s1 Hw Hi) as Hg. injection Hi as E1 E2 E3.
  pose proof (handle_message_good s1 m progress (proj1 Hg)) as Hh.
  destruct (handle_message s1 m progress) as [s2 acts]. cbn [fst] in Hh.
  pose proof (drain_good s2) as Hd. destruct (drain_apply_actions s2) as [s3 ap]. cbn [fst] in Hd |- *.
  eapply good_trans; [exact Hg|]. intros _. eapply good_trans; [|exact Hd]. apply Hh.
  - unfold event_fits in *. by rewrite E1.
  - destruct m; try done. cbn in *. by rewrite E1, E2.
Qed.

Lemma timeout_good s : raft_wf s -> good s (fst (on_election_timeout s)).
Proof.
  intros Hw. unfold on_election_timeout. case_match; [by apply good_refl|]. unfold start_election. cbn zeta.
  match goal with |- context [rs_peers ?x] => set (s1 := x) end.
  assert (good s s1) as Hg by (by apply good_same). clearbody s1. destruct (rs_peers s1); [|done].
  pose proof (drain_good (become_leader s1)) as Hd.
  destruct (drain_apply_actions _). cbn [fst] in *. eapply good_trans; [exact Hg|]. intros Hw1.
  eapply good_trans; [|exact Hd]. by apply become_leader_good.
Qed.

Lemma propose_good s payload : raft_wf s -> good s (fst (fst (try_propose s payload))).
Proof.
  intros Hw. unfold try_propose. case_match; [by apply good_refl|].
  pose proof (append_local_good s payload Hw) as Ha. destruct (append_local s payload) as [s1 i]. cbn [fst] in Ha.
  pose proof (drain_good (recompute_commit_index s1)) as Hd. destruct (drain_apply_actions _). cbn [fst] in *.
  eapply good_trans; [exact Ha|]. intros Hw1. eapply good_trans; [|exact Hd]. by apply recompute_good.
Qed.

Lemma take_snapshot_good s data through s' snap :
  raft_wf s -> last_index (rs_log s) < U64_MAX -> take_snapshot s data through = Some (s', snap) -> good s s'.
Proof.
  intros (Hwf & Ha & Hc) Hfit. unfold take_snapshot. cbn zeta. set (t := Z.min _ _).
  destruct (_ || _) eqn:E; [done|]. apply orb_false_iff in E as [_ E]. boolp.
  destruct (term_at (rs_log s) t) as [term|] eqn:Et; [|done]. cbn. intros [= <- _].
  apply term_at_Some_le in Et; [|done]. assert (t <= rs_last_applied s) as Hta by (unfold t; lia). clearbody t.
  pose proof (last_index_eq _ Hwf) as Hl. unfold len in Hl.
  assert (log_wf (mkLog (drop (Z.to_nat (t - rl_base_index (rs_log s))) (rl_entries (rs_log s))) t term)) as Hwf'.
  { split; cbn; [destruct Hwf; lia|]. apply (contiguous_drop (rl_base_index (rs_log s))); [apply Hwf|lia]. }
  rewrite compact_through_eq by done. split; [|split; cbn].
  - unfold raft_wf. cbn [push_pending set_pending set_log rs_log rs_commit_index rs_last_applied].
    split_and!; [apply Hwf'..|cbn; lia|cbn; lia|].
    rewrite (last_index_eq _ Hwf'). cbn. unfold len. rewrite length_drop. lia.
  - lia.
  - lia.
  - intros i Hi. rewrite !log_get_eq by done. cbn. rewrite !(proj2 (Z.ltb_lt _ _)) by lia.
    rewrite lookup_drop. f_equal. lia.
Qed.

Lemma node_event_good s ev :
  raft_wf s -> event_fits s ev -> snapshot_agrees s ev -> good s (fst (node_event s ev)).
Proof.
  intros Hw Hfit Hag. destruct ev as [m progress|payload|data through| |]; cbn [node_event].
  - by apply on_message_good.
  - pose proof (propose_good s payload Hw) as Hp. by destruct (try_propose s payload) as [[s' [i|h]] acts].
  - destruct (take_snapshot s data through) as [[s' snap]|] eqn:E; [|by apply good_refl].
    destruct Hfit as [Hfit _]. cbn in Hfit. eapply take_snapshot_good; [done| |done]. lia.
  - by apply timeout_good.
  - by apply good_refl.
Qed.

(** ** The majority rule *)

(** How many members hold the log through [c], as far as the leader knows. *)
Definition replicated_on (s : raft_state) (c : Z) : Z :=
  len (filter (fun x => c <= x) (member_indices s)).

(** The element at position [n - q] of an ascending list of [n]: at least [q]
    elements are no smaller, and fewer than [q] exceed any larger bound. *)
Lemma sorted_position l (q : nat) x :
  StronglySorted Z.le l -> (1 <= q <= length l)%nat -> l !! (length l - q)%nat = Some x ->
  (q <= length (filter (fun y => (x <= y)%Z) l))%nat /\
  (forall c, x < c -> (length (filter (fun y => (c <= y)%Z) l) < q)%nat).
Proof.
  intros Hs Hq Hx. set (k := (length l - q)%nat) in *. pose proof (take_drop_middle l k x Hx) as Hl.
  assert (length (take k l) = k) as Htk by (rewrite length_take; lia).
  assert (length (drop (S k) l) = q - 1)%nat as Hdk by (rewrite length_drop; lia).
  set (a := take k l) in *. set (b := drop (S k) l) in *. clearbody a b. rewrite <- Hl in Hs |- *.
  apply StronglySorted_app in Hs as (Hab & _ & Hb). apply StronglySorted_cons in Hb as [Hb _].
  rewrite Forall_forall in Hb. split.
  - rewrite filter_app, filter_cons_True, length_app by lia. cbn.
    rewrite (filter_all _ b) by (rewrite Forall_forall; exact Hb). lia.
  - intros c Hc. rewrite filter_app, filter_cons_False by lia.
    rewrite (filter_none _ a); [cbn; pose proof (length_filter (fun y => (c <= y)%Z) b); lia|].
    rewrite Forall_forall. intros y Hy Hcy. specialize (Hab y x Hy ltac:(left)). lia.
Qed.

Lemma quorum_bounds s : 1 <= quorum s <= len (member_indices s).
Proof.
  unfold quorum, member_indices. rewrite len_app, len_fmap. change (len [last_index (rs_log s)]) with 1.
  pose proof (len_nonneg (rs_peers s)). pose proof (Z.div_mod (len (rs_peers s) + 1) 2).
  pose proof (Z.mod_pos_bound (len (rs_peers s) + 1) 2). lia.
Qed.

Lemma majority_index_spec s :
  quorum s <= replicated_on s (majority_index s) /\
  (forall c, majority_index s < c -> replicated_on s c < quorum s).
Proof.
  unfold majority_index, replicated_on. pose proof (quorum_bounds s) as Hq.
  pose proof (merge_sort_Permutation Z.le (member_indices s)) as Hp.
  pose proof (StronglySorted_merge_sort Z.le (member_indices s)) as Hs.
  set (l := merge_sort Z.le (member_indices s)) in *. clearbody l.
  assert (length l = length (member_indices s)) as Hlen by (by rewrite Hp).
  unfold len in *. assert (Z.to_nat (Z.of_nat (length l) - quorum s) = length l - Z.to_nat (quorum s))%nat as -> by lia.
  destruct (lookup_lt_is_Some_2 l (length l - Z.to_nat (quorum s))) as [x Hx]; [lia|]. rewrite Hx. cbn.
  destruct (sorted_position l (Z.to_nat (quorum s)) x Hs ltac:(lia) Hx) as [H1 H2]. split.
  - rewrite <- Hp. lia.
  - intros c Hc. rewrite <- Hp. specialize (H2 c Hc). lia.
Qed.

(** ** Applications *)

Lemma applies_app a b : applies (a ++ b) = applies a ++ applies b.
Proof. apply omap_app. Qed.

Lemma applies_Apply es : applies (Apply <$> es) = es.
Proof. induction es as [|e es IH]; [done|]. change (e :: applies (Apply <$> es) = e :: es). by rewrite IH. Qed.

Lemma applies_heartbeat s : applies (on_heartbeat_tick s) = [].
Proof.
  unfold on_heartbeat_tick. case_match; [|done]. generalize (rs_peers s) as ps.
  induction ps as [|q ps IH]; [done|].
  change (applies ([replicate_to s q] ++ (replicate_to s <$> ps)) = []). rewrite applies_app, IH.
  unfold replicate_to. by case_match.
Qed.

Lemma applies_replicate s q : applies [replicate_to s q] = [].
Proof. unfold replicate_to. by case_match. Qed.

Lemma applies_handle s m progress : applies (snd (handle_message s m progress)) = [].
Proof.
  destruct m; cbn [handle_message].
  - unfold handle_request_vote. cbn. by case_match.
  - unfold handle_request_vote_resp. repeat case_match; try done. apply applies_heartbeat.
  - unfold handle_append_entries. repeat case_match; done.
  - unfold handle_append_entries_resp. repeat case_match; try done; apply applies_replicate.
  - unfold handle_install_snapshot. repeat case_match; done.
  - unfold handle_install_snapshot_resp. repeat case_match; try done; apply applies_replicate.
Qed.

Lemma applied_recompute s : rs_last_applied (recompute_commit_index s) = rs_last_applied s.
Proof. unfold recompute_commit_index. by repeat case_match. Qed.

Lemma applied_become_leader s : rs_last_applied (become_leader s) = rs_last_applied s.
Proof. unfold become_leader. cbn zeta. rewrite applied_recompute. cbn. by case_match. Qed.

Definition is_install (ev : raft_event) : bool :=
  match ev with EvMessage (InstallSnapshot _) _ => true | _ => false end.

Lemma applied_handle s m progress :
  is_install (EvMessage m progress) = false ->
  rs_last_applied (fst (handle_message s m progress)) = rs_last_applied s.
Proof.
  destruct m; intros Hi; cbn [handle_message]; [..|done|].
  - unfold handle_request_vote. cbn. by case_match.
  - unfold handle_request_vote_resp. repeat case_match; try done. cbn zeta. cbn [fst].
    by rewrite applied_become_leader.
  - unfold handle_append_entries, ae_append, ae_commit. repeat case_match; by simplify_eq.
  - unfold handle_append_entries_resp. repeat case_match; try done; cbn [fst]; cbn zeta; by rewrite applied_recompute.
  - unfold handle_install_snapshot_resp. repeat case_match; try done; cbn [fst]; cbn zeta; by rewrite applied_recompute.
Qed.

(** What an event hands to the application, relative to where it starts. *)
Definition hands_over (s s' : raft_state) (a : Z) (acts : list action) : Prop :=
  rs_last_applied s <= a <= rs_last_applied s' /\ rs_last_applied s' <= rs_commit_index s' /\
  applies acts = filter (fun e => deliverable e = true) (log_range (rs_log s') a (rs_last_applied s')).

Lemma hands_over_drain s s1 acts :
  raft_wf s1 -> rs_last_applied s <= rs_last_applied s1 -> applies acts = [] ->
  hands_over s (fst (drain_apply_actions s1)) (rs_last_applied s1) (acts ++ snd (drain_apply_actions s1)).
Proof.
  intros Hw Ha Hn. destruct (drain_loop_spec _ s1 Hw eq_refl) as (H1 & H2 & H3 & H4).
  pose proof Hw as (_ & ? & ?). unfold hands_over, drain_apply_actions in *.
  rewrite applies_app, Hn, H1, H2, H3, H4, applies_Apply. split_and!; [lia..|done].
Qed.

Lemma hands_over_nothing s : raft_wf s -> hands_over s s (rs_last_applied s) [].
Proof.
  intros (_ & ? & ?). unfold hands_over, log_range. rewrite Z.sub_diag. cbn. split_and!; [lia..|done].
Qed.

Lemma hands_over_message s m progress :
  raft_wf s -> event_fits s (EvMessage m progress) -> snapshot_agrees s (EvMessage m progress) ->
  exists a, (is_install (EvMessage m progress) = false -> a = rs_last_applied s) /\
    let r := on_message_with_progress s m progress in hands_over s (fst r) a (snd r).
Proof.
  intros Hw Hfit Hag. unfold on_message_with_progress.
  repeat (case_if; [exists (rs_last_applied s); split; [done|by apply hands_over_nothing]|]). cbn zeta.
  set (s1 := if rs_current_term s <? msg_term m then _ else s).
  assert (indices_of s1 = indices_of s) as Hi by (unfold s1; case_if; [apply indices_step_down|done]).
  clearbody s1. destruct (good_same s s1 Hw Hi) as [Hw1 _]. injection Hi as E1 E2 E3.
  assert (good s1 (fst (handle_message s1 m progress))) as [Hw2 Hst2].
  { apply handle_message_good; [done|unfold event_fits in *; by rewrite E1|]. destruct m; try done. cbn in *. by rewrite E1, E2. }
  pose proof (applies_handle s1 m progress) as Hap. pose proof (applied_handle s1 m progress) as Hla.
  assert (rs_last_applied s1 <= rs_last_applied (fst (handle_message s1 m progress))) as Hle.
  { destruct (is_install (EvMessage m progress)) eqn:Em; [|rewrite Hla by done; lia].
    destruct m as [| | | |is_|]; try done. cbn [handle_message]. unfold handle_install_snapshot, install_done.
    repeat case_match; cbn in *; boolp; lia. }
  destruct (handle_message s1 m progress) as [s2 acts]. cbn [fst snd] in *. exists (rs_last_applied s2).
  split; [intros Hn; by rewrite Hla|].
  set (acts' := if _ && _ then _ else acts). assert (applies acts' = []) as Hap' by (unfold acts'; by case_match).
  pose proof (hands_over_drain s s2 acts' Hw2 ltac:(lia) Hap') as Hh. by destruct (drain_apply_actions s2).
Qed.

Lemma hands_over_propose s payload :
  raft_wf s ->
  let r := node_event s (EvPropose payload) in hands_over s (fst r) (rs_last_applied s) (snd r).
Proof.
  intros Hw. cbn [node_event]. unfold try_propose.
  destruct (negb _); [by apply hands_over_nothing|].
  destruct (append_local_good s payload Hw) as [Hw1 _].
  assert (rs_last_applied (fst (append_local s payload)) = rs_last_applied s) as E1 by done.
  destruct (append_local s payload) as [s1 i]. cbn [fst] in *.
  destruct (recompute_good s1 Hw1) as [Hw2 _]. pose proof (applied_recompute s1) as E2.
  pose proof (hands_over_drain s (recompute_commit_index s1) [] Hw2 ltac:(lia) eq_refl) as Hh.
  destruct (drain_apply_actions _) as [s3 ap]. cbn [fst snd app] in *. destruct Hh as (? & ? & Hh).
  split_and!; [lia..|]. by rewrite applies_app, applies_heartbeat, app_nil_r, Hh, E2, E1.
Qed.

Lemma hands_over_timeout s :
  raft_wf s ->
  let r := node_event s EvElectionTimeout in hands_over s (fst r) (rs_last_applied s) (snd r).
Proof.
  intros Hw. cbn [node_event]. unfold on_election_timeout. case_match; [by apply hands_over_nothing|].
  unfold start_election. cbn zeta. match goal with |- context [rs_peers ?x] => set (s1 := x) end.
  destruct (good_same s s1 Hw eq_refl) as [Hw1 _]. assert (indices_of s1 = indices_of s) as Hi by done.
  clearbody s1. injection Hi as E1 E2 E3. destruct (rs_peers s1).
  - destruct (become_leader_good s1 Hw1) as [Hw2 _]. pose proof (applied_become_leader s1) as E4.
    pose proof (hands_over_drain s (become_leader s1) _ Hw2 ltac:(lia) (applies_heartbeat (become_leader s1))) as Hh.
    rewrite E4, E3 in Hh. by destruct (drain_apply_actions _).
  - destruct (hands_over_nothing s Hw) as (? & ? & Hh). unfold hands_over. cbn [fst snd].
    rewrite E1, E2, E3. split_and!; [lia..|]. exact Hh.
Qed.

(** ** Properties *)

(** Committed entries are permanent on a node.  For every event a node can
    process (any message from a member, a proposal, a snapshot, a timeout), the
    commit index never goes back and every committed entry still in memory is
    unchanged, the applied index stays between the snapshot base and the commit
    index, and the commit index within the log.  The only assumption on messages
    is that a snapshot ending inside the committed prefix carries the committed
    term there, which is what an elected leader's snapshot does. *)
Theorem committed_entries_stable s ev :
  raft_wf s -> event_fits s ev -> snapshot_agrees s ev ->
  let s' := fst (node_event s ev) in
  raft_wf s' /\ rs_commit_index s <= rs_commit_index s' /\
  rl_base_index (rs_log s) <= rl_base_index (rs_log s') /\
  forall i, rl_base_index (rs_log s') < i <= rs_commit_index s -> log_get (rs_log s') i = log_get (rs_log s) i.
Proof. intros Hw Hf Ha s'. destruct (node_event_good s ev Hw Hf Ha) as [H1 [H2 H3 H4]]. done. Qed.

(** The leader's commit rule.  [recompute_commit_index] either leaves the
    commit index alone or moves it up to the largest index that a majority of the
    members (peers and the leader itself) hold, whose entry is from the current
    term; and when that largest majority index is ahead of the commit index and
    from the current term, it is committed. *)
Theorem leader_commit_rule s :
  let s' := recompute_commit_index s in
  let c := rs_commit_index s' in
  (c = rs_commit_index s \/
   rs_commit_index s < c /\ quorum s <= replicated_on s c /\
   term_at (rs_log s) c = Some (rs_current_term s) /\
   forall c', c < c' -> replicated_on s c' < quorum s) /\
  (forall c', rs_commit_index s < c' -> quorum s <= replicated_on s c' ->
     term_at (rs_log s) (majority_index s) = Some (rs_current_term s) -> c' <= c).
Proof.
  destruct (majority_index_spec s) as [H1 H2]. unfold recompute_commit_index. cbn zeta.
  assert (forall c', quorum s <= replicated_on s c' -> c' <= majority_index s) as Hmax.
  { intros c' Hc'. destruct (Z.le_gt_cases c' (majority_index s)) as [|Hgt]; [done|].
    specialize (H2 c' Hgt). lia. }
  case_if.
  - case_match eqn:E; cbn.
    + apply bool_decide_eq_true in E. split; [right; split_and!; [done..|exact H2]|]. intros c' _ Hc' _. by apply Hmax.
    + apply bool_decide_eq_false in E. split; [by left|]. by intros c' _ _ Ht.
  - split; [by left|]. intros c' Hc Hc' _. specialize (Hmax c' Hc'). lia.
Qed.

(** Committed entries reach the application once and in order.  What an event
    hands to the state machine is exactly the committed entries between the
    applied index before the event and the one after it, in log order, less the
    election no-ops and the configuration changes, which are not for the
    application.  The next event starts where this one stopped, so no entry is
    handed over twice and none is skipped; only an installed snapshot moves the
    starting point, to the snapshot's end. *)
Theorem committed_applied_in_order s ev :
  raft_wf s -> event_fits s ev -> snapshot_agrees s ev ->
  let s' := fst (node_event s ev) in
  exists a, rs_last_applied s <= a <= rs_last_applied s' /\ rs_last_applied s' <= rs_commit_index s' /\
    (is_install ev = false -> a = rs_last_applied s) /\
    applies (snd (node_event s ev)) =
      filter (fun e => deliverable e = true) (log_range (rs_log s') a (rs_last_applied s')).
Proof.
  intros Hw Hf Ha s'. subst s'.
  assert (exists a, (is_install ev = false -> a = rs_last_applied s) /\
    hands_over s (fst (node_event s ev)) a (snd (node_event s ev))) as (a & H1 & H2 & H3 & H4).
  { destruct ev as [m progress|payload|data through| |].
    - destruct (hands_over_message s m progress Hw Hf Ha) as (a & H1 & H2). by exists a.
    - exists (rs_last_applied s). split; [done|]. by apply hands_over_propose.
    - exists (rs_last_applied s). split; [done|]. cbn [node_event]. unfold take_snapshot.
      destruct (hands_over_nothing s Hw) as (? & ? & ?).
      destruct (_ || _); [done|]. destruct (term_at _ _); [|done]. cbn [mbind option_bind fst snd]. unfold hands_over.
      cbn [push_pending set_pending set_log rs_log rs_last_applied rs_commit_index].
      split_and!; [lia..|]. unfold log_range. by rewrite Z.sub_diag.
    - exists (rs_last_applied s). split; [done|]. by apply hands_over_timeout.
    - exists (rs_last_applied s). split; [done|]. destruct (hands_over_nothing s Hw) as (? & ? & ?).
      unfold hands_over. cbn [node_event fst snd]. split_and!; [lia..|]. by rewrite applies_heartbeat. }
  by exists a.
Qed.

(** ** Witnesses *)

Lemma saved_leader_raft_wf : raft_wf saved_leader.
Proof. unfold raft_wf. split; [apply saved_leader_wf|]. vm_compute. split_and!; congruence. Qed.

(** The acknowledgement of entry 1 by peer 2. *)
Definition sample_ack : raft_event := EvMessage (AppendEntriesResp (mkAER 1 true 2 1)) 0.

Lemma sample_ack_fits : event_fits saved_leader sample_ack.
Proof. apply saved_leader_fits; [done|]. cbn. unfold is_u. lia. Qed.

Lemma committed_entries_stable_witness :
  raft_wf (fst (node_event saved_leader sample_ack)) /\
  rs_commit_index (fst (node_event saved_leader sample_ack)) = 1.
Proof.
  split; [|vm_compute; reflexivity].
  exact (proj1 (committed_entries_stable saved_leader sample_ack saved_leader_raft_wf sample_ack_fits I)).
Defined.

Lemma committed_applied_in_order_witness :
  exists a, 0 <= a /\ applies (snd (node_event saved_leader sample_ack)) =
    filter (fun e => deliverable e = true)
      (log_range (rs_log (fst (node_event saved_leader sample_ack))) a
         (rs_last_applied (fst (node_event saved_leader sample_ack)))).
Proof.
  destruct (committed_applied_in_order saved_leader sample_ack saved_leader_raft_wf sample_ack_fits I)
    as (a & H1 & _ & _ & H2).
  exists a. split; [|exact H2]. assert (rs_last_applied saved_leader = 0) as E by (vm_compute; reflexivity).
  rewrite E in H1. exact (proj1 H1).
Defined.
