(* ===== verification/RaftElection.v ===== *)
(** * Elections: what one event can do to a node's term, vote and role

    Terms only grow, a vote cast in a term is kept, a granted vote is sent only
    when it is recorded, and a node becomes leader only with a majority of votes
    counted in its own term. *)

From S2P Require Export RaftDurable.

#[local] Open Scope Z_scope.

(** The fields elections depend on. *)
Definition elect_of (s : raft_state) : Z * Z * option Z * role * gset Z :=
  (rs_me s, rs_current_term s, rs_voted_for s, rs_role s, rs_votes_received s).

(** ** Frames *)

Lemma elect_recompute s : elect_of (recompute_commit_index s) = elect_of s.
Proof. unfold recompute_commit_index. by repeat case_match. Qed.

Lemma elect_apply_config s add remove : elect_of (apply_config_change s add remove) = elect_of s.
Proof.
  unfold apply_config_change. change (elect_of (set_peers ?s _)) with (elect_of s).
  assert (forall ids s, elect_of (fold_left add_peer ids s) = elect_of s) as ->.
  { intros ids. induction ids as [|i ids IH]; intros s0; cbn; [done|]. rewrite IH. unfold add_peer. by case_match. }
  revert s. induction remove as [|i ids IH]; intros s; cbn; [done|]. by rewrite IH.
Qed.

Lemma elect_drain_loop fuel s : elect_of (fst (drain_loop fuel s)) = elect_of s.
Proof.
  revert s. induction fuel as [|fuel IH]; intros s; cbn; [done|].
  case_if; [|done]. destruct (log_get _ _) as [e|]; [|by rewrite IH]. case_if; [by rewrite IH|].
  destruct (decode_config_change _) as [[add remove]|]; [by rewrite IH, elect_apply_config|].
  specialize (IH (set_applied s (rs_last_applied s + 1))). by destruct (drain_loop _ _).
Qed.

Definition sends (acts : list action) : list (Z * message) :=
  omap (fun a => match a with SendTo p m => Some (p, m) | _ => None end) acts.

Definition broadcasts (acts : list action) : list message :=
  omap (fun a => match a with Broadcast m => Some m | _ => None end) acts.

Lemma sends_elem acts p m : (p, m) ∈ sends acts <-> SendTo p m ∈ acts.
Proof.
  unfold sends. rewrite list_elem_of_omap. split.
  - intros (a & Ha & E). destruct a; by simplify_eq.
  - intros H. by exists (SendTo p m).
Qed.

Lemma broadcasts_elem acts m : m ∈ broadcasts acts <-> Broadcast m ∈ acts.
Proof.
  unfold broadcasts. rewrite list_elem_of_omap. split.
  - intros (a & Ha & E). destruct a; by simplify_eq.
  - intros H. by exists (Broadcast m).
Qed.

(** Actions that carry no vote and no broadcast. *)
Definition quiet (a : action) : bool :=
  match a with SendTo _ (RequestVoteResp _) | Broadcast _ => false | _ => true end.

Lemma drain_quiet fuel s : forallb quiet (snd (drain_loop fuel s)) = true.
Proof.
  revert s. induction fuel as [|fuel IH]; intros s; cbn; [done|].
  case_if; [|done]. destruct (log_get _ _) as [e|]; [|done]. case_if; [done|].
  destruct (decode_config_change _) as [[add remove]|]; [done|].
  specialize (IH (set_applied s (rs_last_applied s + 1))). by destruct (drain_loop _ _).
Qed.

Lemma replicate_quiet s p : quiet (replicate_to s p) = true.
Proof. unfold replicate_to. by case_match. Qed.

Lemma heartbeat_quiet s : forallb quiet (on_heartbeat_tick s) = true.
Proof.
  unfold on_heartbeat_tick. case_match; [|done]. generalize (rs_peers s) as ps.
  induction ps as [|p ps IH]; cbn; [done|]. by rewrite replicate_quiet.
Qed.

(** ** The election step *)

(** The vote an event adds. *)
Definition gained (s : raft_state) (ev : raft_event) : gset Z :=
  match ev with
  | EvMessage (RequestVoteResp r) _ =>
    if rvr_vote_granted r && (rvr_term r =? rs_current_term s) && is_member s (rvr_voter_id r)
    then {[ rvr_voter_id r ]} else ∅
  | _ => ∅
  end.

Record elect_step (s : raft_state) (ev : raft_event) (s' : raft_state) (acts : list action) : Prop := {
  es_me : rs_me s' = rs_me s;
  es_term : rs_current_term s <= rs_current_term s';
  es_vote : forall c, rs_current_term s' = rs_current_term s -> rs_voted_for s = Some c -> rs_voted_for s' = Some c;
  es_resp : forall c r, SendTo c (RequestVoteResp r) ∈ acts -> rvr_vote_granted r = true ->
    rvr_term r = rs_current_term s' /\ rvr_voter_id r = rs_me s /\ rs_voted_for s' = Some c;
  es_bcast : forall m, Broadcast m ∈ acts -> exists rv, m = RequestVote rv;
  es_cand : rs_role s' = Candidate ->
    (rs_role s = Candidate /\ rs_current_term s' = rs_current_term s /\
     rs_votes_received s' ⊆ rs_votes_received s ∪ gained s ev) \/
    (rs_votes_received s' = {[ rs_me s ]} /\ rs_voted_for s' = Some (rs_me s));
  es_lead : rs_role s' = Leader ->
    (rs_role s = Leader /\ rs_current_term s' = rs_current_term s) \/
    (rs_role s = Candidate /\ rs_current_term s' = rs_current_term s /\
     quorum s <= Z.of_nat (size (rs_votes_received s ∪ gained s ev))) \/
    (rs_peers s = [] /\ rs_voted_for s' = Some (rs_me s)) }.

(** Nothing about the election changes, and no vote is sent. *)
Lemma elect_step_same s ev s' acts :
  elect_of s' = elect_of s -> forallb quiet acts = true -> elect_step s ev s' acts.
Proof.
  intros [= E1 E2 E3 E4 E5] Hq. rewrite forallb_forall in Hq.
  assert (forall a, a ∈ acts -> quiet a = true) as Hq' by (intros a Ha; apply Hq; by apply list_elem_of_In).
  split; rewrite ?E1, ?E2, ?E3, ?E4, ?E5.
  - done.
  - lia.
  - done.
  - intros c r H. by apply Hq' in H.
  - intros m H. by apply Hq' in H.
  - intros H. left. split_and!; [done..|set_solver].
  - intros H. by left.
Qed.

(** Becoming a follower in the same or a later term, voting for nobody. *)
Lemma elect_step_follower s ev s' acts :
  rs_me s' = rs_me s -> rs_role s' = Follower -> forallb quiet acts = true ->
  (rs_current_term s' = rs_current_term s /\ rs_voted_for s' = rs_voted_for s \/
   rs_current_term s < rs_current_term s') -> elect_step s ev s' acts.
Proof.
  intros E1 E4 Hq Ht. rewrite forallb_forall in Hq.
  assert (forall a, a ∈ acts -> quiet a = true) as Hq' by (intros a Ha; apply Hq; by apply list_elem_of_In).
  split; rewrite ?E4.
  - done.
  - lia.
  - intros c Hc Hv. destruct Ht as [[_ ->]|]; [done|lia].
  - intros c r H. by apply Hq' in H.
  - intros m H. by apply Hq' in H.
  - done.
  - done.
Qed.

(** Quiet actions after a step, and changes that are not about elections, do not
    matter. *)
Lemma elect_step_extend s ev s1 acts s2 acts2 :
  elect_step s ev s1 acts -> elect_of s2 = elect_of s1 ->
  (forall a, a ∈ acts2 -> a ∈ acts \/ quiet a = true) -> elect_step s ev s2 acts2.
Proof.
  intros [A1 A2 A3 A4 A5 A6 A7] [= E1 E2 E3 E4 E5] Hq.
  split; rewrite ?E1, ?E2, ?E3, ?E4, ?E5; try done.
  - intros c r H. apply Hq in H as [H|H]; [by apply A4|done].
  - intros m H. apply Hq in H as [H|H]; [by apply A5|done].
Qed.

(** ** Handlers on a message whose term is not ahead *)

Lemma elect_become_leader s :
  let s' := become_leader s in
  rs_me s' = rs_me s /\ rs_current_term s' = rs_current_term s /\ rs_voted_for s' = rs_voted_for s /\
  rs_role s' = Leader.
Proof.
  cbn zeta. unfold become_leader. cbn zeta.
  match goal with |- context [recompute_commit_index ?x] => pose proof (elect_recompute x) as H; set (s1 := x) in * end.
  injection H as -> -> -> -> _. unfold s1. cbn. by case_match.
Qed.

Lemma elect_ae_append s ae s' : ae_append s ae = Some s' -> elect_of s' = elect_of s.
Proof. unfold ae_append. intros H. repeat case_match; by simplify_eq. Qed.

Lemma elect_ae_commit s ae : elect_of (ae_commit s ae) = elect_of s.
Proof. unfold ae_commit. by case_match. Qed.

Lemma elect_install_done s m : elect_of (install_done s m) = elect_of s.
Proof. unfold install_done. by repeat case_match. Qed.

Lemma request_vote_elect s ev rv :
  rv_term rv <= rs_current_term s ->
  let r := handle_request_vote s rv in elect_step s ev (fst r) (snd r).
Proof.
  intros Ht. unfold handle_request_vote. cbn zeta.
  set (grant := (rs_current_term s <=? rv_term rv) && _).
  assert (grant = true -> rs_voted_for s = None \/ rs_voted_for s = Some (rv_candidate_id rv)) as Hg.
  { unfold grant. intros H. apply andb_prop in H as [_ H]. apply andb_prop in H as [_ H].
    apply orb_prop in H as [H|H]; apply bool_decide_eq_true in H; auto. }
  clearbody grant.
  destruct grant; cbn [andb].
  - set (s' := if negb _ then _ else s).
    assert (rs_me s' = rs_me s /\ rs_current_term s' = rs_current_term s /\
      rs_voted_for s' = Some (rv_candidate_id rv) /\ rs_role s' = rs_role s /\
      rs_votes_received s' = rs_votes_received s) as (E1 & E2 & E3 & E4 & E5).
    { unfold s'. case_match eqn:E; [done|]. apply negb_false_iff, bool_decide_eq_true in E. done. }
    clearbody s'. cbn [fst snd]. split; rewrite ?E1, ?E2, ?E3, ?E4, ?E5.
    + done.
    + lia.
    + intros c _ Hc. destruct (Hg eq_refl); congruence.
    + intros c r H _. apply elem_of_cons in H as [H|H]; [by simplify_eq|].
      by apply list_elem_of_singleton in H.
    + intros m H. apply elem_of_cons in H as [H|H]; [done|]. by apply list_elem_of_singleton in H.
    + intros H. left. split_and!; [done..|set_solver].
    + intros H. by left.
  - cbn [fst snd]. split; try done.
    + intros c r H. apply list_elem_of_singleton in H. simplify_eq. done.
    + intros m H. by apply list_elem_of_singleton in H.
    + intros H. left. split_and!; [done..|set_solver].
    + intros H. by left.
Qed.

Lemma request_vote_resp_elect s progress rvr :
  is_member s (rvr_voter_id rvr) = true ->
  let r := handle_request_vote_resp s rvr in
  elect_step s (EvMessage (RequestVoteResp rvr) progress) (fst r) (snd r).
Proof.
  intros Hm. unfold handle_request_vote_resp. destruct (_ || _) eqn:E; [by apply elect_step_same|].
  apply orb_false_iff in E as [E1 E2]. apply negb_false_iff, bool_decide_eq_true in E1. apply negb_false_iff in E2.
  destruct (rvr_vote_granted rvr) eqn:Eg; [|by apply elect_step_same]. cbn zeta.
  assert (gained s (EvMessage (RequestVoteResp rvr) progress) = {[ rvr_voter_id rvr ]}) as Hgain.
  { cbn. by rewrite Eg, E2, Hm. }
  case_if.
  - destruct (elect_become_leader (set_votes s ({[rvr_voter_id rvr]} ∪ rs_votes_received s))) as (A1 & A2 & A3 & A4).
    cbn [fst snd]. set (s' := become_leader _) in *. pose proof (heartbeat_quiet s') as Hq. clearbody s'.
    rewrite forallb_forall in Hq.
    assert (forall a, a ∈ on_heartbeat_tick s' -> quiet a = true) as Hq' by (intros a Ha; apply Hq; by apply list_elem_of_In).
    cbn in A1, A2, A3. split; rewrite ?A1, ?A2, ?A3, ?A4; try done.
    + intros c r H. by apply Hq' in H.
    + intros m H. by apply Hq' in H.
    + intros _. right. left. split_and!; [done..|]. rewrite Hgain. rewrite (union_comm_L _ {[_]}).
      unfold quorum in *. cbn in *. done.
  - cbn [fst snd]. split; cbn; try done.
    + intros c r H. by apply elem_of_nil in H.
    + intros m H. by apply elem_of_nil in H.
    + intros _. left. split_and!; [done..|]. cbn in Hgain. rewrite Hgain. set_solver.
    + congruence.
Qed.

Lemma handle_message_elect s m progress :
  is_member s (msg_sender m) = true -> msg_term m <= rs_current_term s ->
  let r := handle_message s m progress in elect_step s (EvMessage m progress) (fst r) (snd r).
Proof.
  intros Hm Ht. destruct m as [rv|rvr|ae|aer|is_|isr]; cbn [handle_message msg_term msg_sender] in *.
  - by apply request_vote_elect.
  - by apply request_vote_resp_elect.
  - unfold handle_append_entries. case_if; [|by apply elect_step_same]. cbn zeta.
    rewrite (proj2 (Z.ltb_ge _ _)) by lia.
    destruct (ae_consistent _ _); [destruct (ae_append _ _) as [s3|] eqn:Ea|]; cbn [fst snd];
      [|apply elect_step_follower; [done..|by left]|apply elect_step_follower; [done..|by left]].
    apply elect_ae_append in Ea as [= E1 E2 E3 E4 E5].
    pose proof (elect_ae_commit s3 ae) as [= F1 F2 F3 F4 F5].
    apply elect_step_follower; [congruence|congruence|done|left; split; congruence].
  - unfold handle_append_entries_resp. repeat case_match; cbn zeta; cbn [fst snd];
      (apply elect_step_same; [rewrite ?elect_recompute; done|cbn; rewrite ?replicate_quiet; done]).
  - unfold handle_install_snapshot. case_if; [by apply elect_step_same|]. cbn zeta.
    cbn [rs_current_term set_hint set_role]. rewrite (proj2 (Z.ltb_ge _ _)) by lia. cbn [fst snd].
    destruct (is_done is_); [|apply elect_step_follower; [done..|by left]].
    match goal with |- context [install_done ?x _] => pose proof (elect_install_done x is_) as [= E1 E2 E3 E4 E5] end.
    apply elect_step_follower; [done|done|done|left; split; done].
  - unfold handle_install_snapshot_resp. repeat case_match; cbn zeta; cbn [fst snd];
      (apply elect_step_same; [rewrite ?elect_recompute; done|cbn; rewrite ?replicate_quiet; done]).
Qed.

(** ** Events *)

Lemma elect_step_down s ev t s2 acts :
  rs_current_term s < t -> elect_step (step_down_to s t) ev s2 acts -> elect_step s ev s2 acts.
Proof.
  intros Ht [A1 A2 A3 A4 A5 A6 A7].
  assert (rs_me (step_down_to s t) = rs_me s /\ rs_current_term (step_down_to s t) = t /\
    rs_role (step_down_to s t) = Follower /\ rs_peers (step_down_to s t) = rs_peers s) as (E1 & E2 & E3 & E4).
  { unfold step_down_to. cbn zeta. rewrite (proj2 (Z.ltb_lt _ _)) by done. done. }
  rewrite E1 in *. rewrite E2, E3, E4 in *. split; try done.
  - lia.
  - intros c Hc. lia.
  - intros H. destruct (A6 H) as [[? _]|]; [done|by right].
  - intros H. destruct (A7 H) as [[? _]|[[? _]|]]; [done|done|by right; right].
Qed.

Lemma on_message_elect s m progress :
  let r := on_message_with_progress s m progress in elect_step s (EvMessage m progress) (fst r) (snd r).
Proof.
  unfold on_message_with_progress. destruct (is_member s (msg_sender m)) eqn:Em; [|by apply elect_step_same].
  cbn [negb]. case_if; [by apply elect_step_same|]. cbn zeta.
  set (s1 := if rs_current_term s <? msg_term m then _ else s).
  assert (is_member s1 (msg_sender m) = true /\ msg_term m <= rs_current_term s1) as [Hm1 Ht1].
  { unfold s1. destruct (rs_current_term s <? msg_term m) eqn:E; boolp; [|done].
    unfold step_down_to, is_member in *. cbn zeta. rewrite (proj2 (Z.ltb_lt _ _)) by done. cbn. split; [done|lia]. }
  pose proof (handle_message_elect s1 m progress Hm1 Ht1) as Hh. cbn zeta in Hh.
  assert (elect_step s (EvMessage m progress) (fst (handle_message s1 m progress))
    (snd (handle_message s1 m progress))) as Hs.
  { revert Hh. unfold s1. destruct (rs_current_term s <? msg_term m) eqn:E; boolp; [|done]. by apply elect_step_down. }
  clear Hh. clearbody s1. destruct (handle_message s1 m progress) as [s2 acts]. cbn [fst snd] in Hs.
  pose proof (elect_drain_loop (Z.to_nat (rs_commit_index s2 - rs_last_applied s2)) s2) as He.
  pose proof (drain_quiet (Z.to_nat (rs_commit_index s2 - rs_last_applied s2)) s2) as Hq.
  unfold drain_apply_actions. destruct (drain_loop _ s2) as [s3 ap]. cbn [fst snd] in *.
  eapply elect_step_extend; [exact Hs|exact He|].
  rewrite forallb_forall in Hq. intros a Ha. apply elem_of_app in Ha as [Ha|Ha].
  - case_match; [apply elem_of_cons in Ha as [->|Ha]; [by right|by left]|by left].
  - right. apply Hq. by apply list_elem_of_In.
Qed.

Lemma timeout_elect s :
  0 <= rs_current_term s < U64_MAX ->
  let r := on_election_timeout s in elect_step s EvElectionTimeout (fst r) (snd r).
Proof.
  intros Ht. unfold on_election_timeout. case_match eqn:El; [by apply elect_step_same|].
  apply bool_decide_eq_false in El. unfold start_election. cbn zeta.
  match goal with |- context [rs_peers ?x] => set (s1 := x) end.
  assert (elect_of s1 = (rs_me s, rs_current_term s + 1, Some (rs_me s), Candidate, {[ rs_me s ]})) as He.
  { unfold s1, elect_of. cbn. do 4 f_equal. unfold sat_add_u64. lia. }
  assert (rs_peers s1 = rs_peers s) as Hp by done. clearbody s1. injection He as E1 E2 E3 E4 E5.
  destruct (rs_peers s1) as [|q ps] eqn:Eps.
  - destruct (elect_become_leader s1) as (A1 & A2 & A3 & A4). set (s2 := become_leader s1) in *.
    pose proof (heartbeat_quiet s2) as Hq1. clearbody s2.
    pose proof (elect_drain_loop (Z.to_nat (rs_commit_index s2 - rs_last_applied s2)) s2) as He.
    pose proof (drain_quiet (Z.to_nat (rs_commit_index s2 - rs_last_applied s2)) s2) as Hq.
    unfold drain_apply_actions. destruct (drain_loop _ s2) as [s3 ap]. cbn [fst snd] in *.
    injection He as F1 F2 F3 F4 F5.
    assert (forall a, a ∈ on_heartbeat_tick s2 ++ ap -> quiet a = true) as Hq'.
    { rewrite forallb_forall in Hq, Hq1. intros a Ha.
      apply elem_of_app in Ha as [Ha|Ha]; [apply Hq1|apply Hq]; by apply list_elem_of_In. }
    split; rewrite ?F1, ?F2, ?F3, ?F4, ?A1, ?A2, ?A3, ?A4, ?E1, ?E2, ?E3; try done; try lia.
    + intros c r H. by apply Hq' in H.
    + intros m H. by apply Hq' in H.
    + intros _. by right; right.
  - cbn [fst snd]. split; rewrite ?E1, ?E2, ?E3, ?E4, ?E5; try done; try lia.
    + intros c r H. apply elem_of_cons in H as [H|H]; [done|]. by apply list_elem_of_singleton in H.
    + intros m H. apply elem_of_cons in H as [H|H]; [done|]. apply list_elem_of_singleton in H. simplify_eq. eauto.
    + intros _. by right.
Qed.

Lemma propose_elect s payload :
  let r := node_event s (EvPropose payload) in elect_step s (EvPropose payload) (fst r) (snd r).
Proof.
  cbn [node_event]. unfold try_propose. destruct (negb _); [by apply elect_step_same|].
  assert (elect_of (fst (append_local s payload)) = elect_of s) as E1 by done.
  destruct (append_local s payload) as [s1 i]. cbn [fst] in E1.
  set (s2 := recompute_commit_index s1). assert (elect_of s2 = elect_of s) as E2.
  { unfold s2. by rewrite elect_recompute. }
  clearbody s2.
  pose proof (elect_drain_loop (Z.to_nat (rs_commit_index s2 - rs_last_applied s2)) s2) as He.
  pose proof (drain_quiet (Z.to_nat (rs_commit_index s2 - rs_last_applied s2)) s2) as Hq.
  unfold drain_apply_actions. destruct (drain_loop _ s2) as [s3 ap]. cbn [fst snd] in *.
  apply elect_step_same; [congruence|]. by rewrite forallb_app, Hq, heartbeat_quiet.
Qed.

(** The term counter is not at its maximum when an election starts. *)
Definition event_term_ok (s : raft_state) (ev : raft_event) : Prop :=
  match ev with EvElectionTimeout => 0 <= rs_current_term s < U64_MAX | _ => True end.

Lemma node_event_elect s ev :
  event_term_ok s ev -> let r := node_event s ev in elect_step s ev (fst r) (snd r).
Proof.
  intros Hok. destruct ev as [m progress|payload|data through| |].
  - apply on_message_elect.
  - apply propose_elect.
  - cbn [node_event]. unfold take_snapshot. cbn zeta. destruct (_ || _); [by apply elect_step_same|].
    destruct (term_at _ _); by apply elect_step_same.
  - by apply timeout_elect.
  - cbn [node_event]. apply elect_step_same; [done|apply heartbeat_quiet].
Qed.

(** ** The recorded hard state *)

(** The recorded operations lead from the stored term and vote to the current
    ones. *)
Definition pend_hard (p : persisted_raft) (s : raft_state) : Prop :=
  hards_are (rs_current_term s) (rs_voted_for s) (rs_pending s) /\
  (has_hard (rs_pending s) \/ pr_current_term p = rs_current_term s /\ pr_voted_for p = rs_voted_for s).

Definition pend_of (s : raft_state) : list persist_op * Z * option Z :=
  (rs_pending s, rs_current_term s, rs_voted_for s).

Lemma pend_core s s' : core s' = core s -> pend_of s' = pend_of s.
Proof. by intros [= _ H1 H2 H3]; unfold pend_of; rewrite H1, H2, H3. Qed.

Lemma pend_hard_same p s s' : pend_of s' = pend_of s -> pend_hard p s -> pend_hard p s'.
Proof. unfold pend_hard. by intros [= -> -> ->]. Qed.

Lemma pend_hard_set p s t v : pend_hard p s -> pend_hard p (persist_hard_state (set_hard s t v)).
Proof.
  intros _. split; cbn.
  - intros t2 v2 H. rewrite elem_of_app, list_elem_of_filter in H.
    destruct H as [[H _]|H]; [done|]. apply list_elem_of_singleton in H. by simplify_eq.
  - left. exists t, v. apply elem_of_app. right. by left.
Qed.

Lemma pend_hard_push p s op : is_hard_state op = false -> pend_hard p s -> pend_hard p (push_pending s op).
Proof.
  intros Hop [H1 H2]. split; cbn.
  - intros t v H. apply elem_of_app in H as [H|H]; [by apply H1|]. apply list_elem_of_singleton in H. by subst.
  - destruct H2 as [(t & v & H)|]; [left|by right]. exists t, v. apply elem_of_app. by left.
Qed.

Section Pending.
Context (p : persisted_raft).

Lemma step_down_pend s t : pend_hard p s -> pend_hard p (step_down_to s t).
Proof.
  intros Hp. unfold step_down_to. cbn zeta. destruct (_ || _) eqn:E.
  - eapply pend_hard_same; [|apply (pend_hard_set p s (if rs_current_term s <? t then t else rs_current_term s) None Hp)].
    done.
  - apply orb_false_iff in E as [E1 E2]. apply bool_decide_eq_false in E2. rewrite E1.
    eapply pend_hard_same; [|exact Hp]. unfold pend_of. cbn. destruct (rs_voted_for s); [|done]. by destruct E2.
Qed.

Lemma become_leader_pend s : pend_hard p s -> pend_hard p (become_leader s).
Proof.
  intros Hp. unfold become_leader. cbn zeta.
  eapply pend_hard_same; [apply pend_core, core_recompute|].
  destruct (rs_noop_on_elect _); [|by eapply pend_hard_same].
  eapply pend_hard_same; [|apply (pend_hard_push p s (Append [mkEntry (rs_current_term s) (last_index (rs_log s) + 1) []]))];
    done.
Qed.

Lemma ae_append_pend s ae s' : pend_hard p s -> ae_append s ae = Some s' -> pend_hard p s'.
Proof.
  intros Hp Ha. unfold ae_append in Ha. destruct (ae_entries ae); [by simplify_eq|].
  destruct (append_at _ _ _ _) as [[l1 [c|]]|]; [| |done].
  - injection Ha as <-. apply pend_hard_push; [done|]. apply pend_hard_push; [done|].
    by eapply pend_hard_same; [|exact Hp].
  - injection Ha as <-. by eapply pend_hard_same; [|exact Hp].
Qed.

Lemma install_done_pend s m : pend_hard p s -> pend_hard p (install_done s m).
Proof.
  intros Hp. unfold install_done. cbn zeta.
  set (s1 := if rl_base_index (rs_log s) <? is_last_index m then _ else s). assert (pend_hard p s1) as H1.
  { unfold s1. case_if; [|done]. destruct (log_install_snapshot _ _ _) as [l kept].
    apply pend_hard_push; [by destruct kept|]. by eapply pend_hard_same; [|exact Hp]. }
  clearbody s1. repeat case_match; by eapply pend_hard_same; [|exact H1].
Qed.

Lemma handle_message_pend s m progress : pend_hard p s -> pend_hard p (fst (handle_message s m progress)).
Proof.
  intros Hp. destruct m as [rv|rvr|ae|aer|is_|isr]; cbn [handle_message].
  - unfold handle_request_vote. cbn [fst]. cbn zeta. case_match; [by apply pend_hard_set|done].
  - unfold handle_request_vote_resp. repeat case_match; try done. cbn [fst]. cbn zeta. by apply become_leader_pend.
  - unfold handle_append_entries. case_if; [|done]. cbn zeta.
    set (s1 := if _ <? _ then _ else s).
    assert (pend_hard p s1) as Hp1 by (unfold s1; case_if; [by apply pend_hard_set|done]). clearbody s1.
    assert (pend_hard p (set_hint (set_role s1 Follower) (Some (ae_leader_id ae)))) as Hp2 by done.
    destruct (ae_consistent _ _); [|done]. destruct (ae_append _ _) as [s3|] eqn:Ea; [|done]. cbn [fst].
    eapply pend_hard_same; [apply pend_core, core_ae_commit|]. by eapply ae_append_pend.
  - unfold handle_append_entries_resp. repeat case_match; try done; cbn [fst]; cbn zeta;
      (eapply pend_hard_same; [apply pend_core, core_recompute|]); by eapply pend_hard_same; [|exact Hp].
  - unfold handle_install_snapshot. case_if; [done|]. cbn zeta. cbn [fst].
    set (s2 := set_hint (set_role s Follower) (Some (is_leader_id is_))).
    set (s3 := if rs_current_term s2 <? is_term is_ then _ else s2).
    assert (pend_hard p s3) as Hp3 by (unfold s3; case_if; [by apply pend_hard_set|done]). clearbody s3.
    destruct (is_done is_); [by apply install_done_pend|done].
  - unfold handle_install_snapshot_resp. repeat case_match; try done; cbn [fst]; cbn zeta;
      (eapply pend_hard_same; [apply pend_core, core_recompute|]); by eapply pend_hard_same; [|exact Hp].
Qed.

Lemma drain_pend s : pend_hard p s -> pend_hard p (fst (drain_apply_actions s)).
Proof. apply pend_hard_same, pend_core, core_drain. Qed.

Lemma node_event_pend s ev : pend_hard p s -> pend_hard p (fst (node_event s ev)).
Proof.
  intros Hp. destruct ev as [m progress|payload|data through| |]; cbn [node_event]; [..|done].
  - unfold on_message_with_progress. repeat (case_if; [done|]). cbn zeta.
    set (s1 := if rs_current_term s <? msg_term m then _ else s).
    assert (pend_hard p s1) as Hp1 by (unfold s1; case_if; [by apply step_down_pend|done]). clearbody s1.
    pose proof (handle_message_pend s1 m progress Hp1) as Hp2. destruct (handle_message s1 m progress) as [s2 acts].
    pose proof (drain_pend s2 Hp2) as Hp3. by destruct (drain_apply_actions s2).
  - unfold try_propose. destruct (negb _); [done|].
    assert (pend_hard p (fst (append_local s payload))) as Hp1.
    { eapply pend_hard_same; [|apply (pend_hard_push p s (Append [mkEntry (rs_current_term s) (last_index (rs_log s) + 1) payload]))];
        done. }
    destruct (append_local s payload) as [s1 i]. cbn [fst] in Hp1.
    assert (pend_hard p (recompute_commit_index s1)) as Hp2 by (eapply pend_hard_same; [apply pend_core, core_recompute|done]).
    pose proof (drain_pend _ Hp2) as Hp3. by destruct (drain_apply_actions _).
  - unfold take_snapshot. cbn zeta. destruct (_ || _); [done|]. destruct (term_at _ _); [|done].
    cbn [mbind option_bind fst]. apply pend_hard_push; [done|]. by eapply pend_hard_same; [|exact Hp].
  - unfold on_election_timeout. case_match; [done|]. unfold start_election. cbn zeta.
    match goal with |- context [rs_peers ?x] => set (s1 := x) end.
    assert (pend_hard p s1) as Hp1.
    { eapply pend_hard_same; [|apply (pend_hard_set p s (sat_add_u64 (rs_current_term s) 1) (Some (rs_me s)) Hp)]. done. }
    clearbody s1. destruct (rs_peers s1); [|done]. pose proof (drain_pend _ (become_leader_pend _ Hp1)) as Hp2.
    by destruct (drain_apply_actions _).
Qed.

(** Persisting a prefix of the recorded operations leaves the old or the new term
    and vote; persisting all of them leaves the new ones. *)
Lemma pend_hard_prefix s applied rest :
  pend_hard p s -> rs_pending s = applied ++ rest ->
  let q := mem_persist p applied in
  (pr_current_term q = rs_current_term s /\ pr_voted_for q = rs_voted_for s) \/
  (pr_current_term q = pr_current_term p /\ pr_voted_for q = pr_voted_for p /\ rest <> []).
Proof.
  intros [H1 H2] Hap q. pose proof (hard_mem_persist p applied) as Hh. fold q in Hh.
  assert (hards_are (rs_current_term s) (rs_voted_for s) applied) as Ha.
  { intros t v H. apply H1. rewrite Hap. apply elem_of_app. by left. }
  destruct (decide (Exists (fun op => is_hard_state op = true) applied)) as [Hex|Hex].
  - left. rewrite (hards_fold _ _ _ _ Ha) in Hh; [by simplify_eq|].
    left. apply Exists_exists in Hex as (op & Hin & Hop). destruct op as [t v| | |]; try done. by exists t, v.
  - assert (fold_left op_hard applied (pr_current_term p, pr_voted_for p) = (pr_current_term p, pr_voted_for p)) as Hf.
    { clear -Hex. induction applied as [|op ops IH]; [done|]. cbn. rewrite Exists_cons in Hex.
      destruct op; cbn in *; [exfalso; auto|..]; apply IH; tauto. }
    rewrite Hf in Hh. injection Hh as E1 E2. destruct rest as [|op rest].
    + left. rewrite app_nil_r in Hap. rewrite E1, E2. destruct H2 as [(t & v & H)|]; [|done].
      exfalso. apply Hex, Exists_exists. exists (HardState t v). by rewrite <- Hap.
    + right. by rewrite E1, E2.
Qed.

(** What a crash during [persist] leaves: the first operations, the last of them
    possibly an append cut short. *)
Inductive torn_prefix : list persist_op -> list persist_op -> Prop :=
| torn_none ops : torn_prefix [] ops
| torn_op op applied ops : torn_prefix applied ops -> torn_prefix (op :: applied) (op :: ops)
| torn_append es n ops : torn_prefix [Append (take n es)] (Append es :: ops).

Lemma torn_prefix_spec applied ops :
  torn_prefix applied ops ->
  exists done_ rest, ops = done_ ++ rest /\
    (applied = done_ \/ exists es n rest', rest = Append es :: rest' /\ applied = done_ ++ [Append (take n es)]).
Proof.
  induction 1 as [ops|op applied ops _ IH|es n ops].
  - exists [], ops. auto.
  - destruct IH as (done_ & rest & -> & [->|(es & n & rest' & -> & ->)]).
    + exists (op :: done_), rest. auto.
    + exists (op :: done_), (Append es :: rest'). split; [done|]. right. by exists es, n, rest'.
  - exists [], (Append es :: ops). split; [done|]. right. by exists es, n, ops.
Qed.

Lemma pend_hard_torn s applied :
  pend_hard p s -> torn_prefix applied (rs_pending s) ->
  let q := mem_persist p applied in
  (pr_current_term q = rs_current_term s /\ pr_voted_for q = rs_voted_for s) \/
  (pr_current_term q = pr_current_term p /\ pr_voted_for q = pr_voted_for p).
Proof.
  intros Hp (done_ & rest & E & Ha)%torn_prefix_spec. cbv zeta.
  assert (pr_current_term (mem_persist p applied) = pr_current_term (mem_persist p done_) /\
    pr_voted_for (mem_persist p applied) = pr_voted_for (mem_persist p done_)) as [-> ->].
  { destruct Ha as [->|(es & n & rest' & _ & ->)]; [done|]. unfold mem_persist. by rewrite fold_left_app. }
  destruct (pend_hard_prefix s done_ rest Hp E) as [?|(? & ? & _)]; auto.
Qed.
End Pending.
