(* ===== verification/RaftNet.v ===== *)
(** * Raft elections over a network

    A cluster of nodes, each running the node loop of raft/node.rs over its store:
    an event runs a handler, the recorded operations are persisted, then the
    messages go out.  Messages can be lost, duplicated, delayed and reordered, and
    a node can crash at any time, also half-way through persisting an operation, and restart
    from what its store holds.  A vote request that the driver ignores because it
    heard from a leader recently is a lost message.  Election safety: at most one leader per term, over
    the whole run. *)

From S2P Require Export RaftElection.

#[local] Open Scope Z_scope.

Record node : Type := mkNode { nd_state : raft_state; nd_store : persisted_raft }.

(** [nw_msgs] are all messages ever sent, with their destination; [nw_elected]
    records every election won. *)
Record network : Type := mkNet {
  nw_nodes : gmap Z node; nw_msgs : list (Z * message); nw_elected : list (Z * Z) }.

(** What an action puts on the network.  The contents of a snapshot message come
    from the store and the application, if they can be read; its term and sender
    are the node's. *)
Definition outgoing (s : raft_state) (snap : Z -> option install_snapshot) (a : action) : list (Z * message) :=
  match a with
  | SendTo p m => [(p, m)]
  | Broadcast m => (fun p => (p, m)) <$> rs_peers s
  | SendSnapshot p =>
    match snap p with
    | Some m =>
      [(p, InstallSnapshot (mkIS (rs_current_term s) (rs_me s) (is_last_index m) (is_last_term m)
             (is_offset m) (is_done m) (is_data m)))]
    | None => []
    end
  | ResetElectionTimer | Apply _ => []
  end.

Definition won (i : Z) (s s' : raft_state) : list (Z * Z) :=
  if bool_decide (rs_role s' = Leader) &&
     negb (bool_decide (rs_role s = Leader) && (rs_current_term s' =? rs_current_term s))
  then [(rs_current_term s', i)] else [].

(** A message event needs a message that was sent to the node. *)
Definition can_happen (n : network) (i : Z) (ev : raft_event) : Prop :=
  match ev with EvMessage m _ => (i, m) ∈ nw_msgs n | _ => True end.

(** The steps of a cluster with fixed membership. *)
Inductive net_step : network -> network -> Prop :=
| net_event n i nd ev s' ops acts snap :
    nw_nodes n !! i = Some nd -> can_happen n i ev -> event_term_ok (nd_state nd) ev ->
    node_round (nd_state nd) ev = (s', ops, acts) ->
    rs_peers s' = rs_peers (nd_state nd) ->
    net_step n (mkNet (<[i := mkNode s' (mem_persist (nd_store nd) ops)]> (nw_nodes n))
      (nw_msgs n ++ (acts ≫= outgoing s' snap)) (nw_elected n ++ won i (nd_state nd) s'))
| net_crash n i nd ev applied snapshot s' :
    nw_nodes n !! i = Some nd -> can_happen n i ev -> event_term_ok (nd_state nd) ev ->
    torn_prefix applied (rs_pending (fst (node_event (nd_state nd) ev))) ->
    restore (raft_new i (rs_peers (nd_state nd)) (rs_noop_on_elect (nd_state nd)))
      (mem_persist (nd_store nd) applied) snapshot = Some s' ->
    net_step n (mkNet (<[i := mkNode s' (mem_persist (nd_store nd) applied)]> (nw_nodes n))
      (nw_msgs n) (nw_elected n))
(** A snapshot chunk the state machine could not apply: the driver answers for
    the node, whose state does not change. *)
| net_chunk_failed n i nd m progress :
    nw_nodes n !! i = Some nd -> (i, InstallSnapshot m) ∈ nw_msgs n ->
    rs_current_term (nd_state nd) <= is_term m ->
    net_step n (mkNet (nw_nodes n)
      (nw_msgs n ++ [(is_leader_id m, InstallSnapshotResp
         (mkISR (rs_current_term (nd_state nd)) false (rs_me (nd_state nd)) progress 0))]) (nw_elected n)).

Definition fresh_node (i : Z) (peers : list Z) (noop : bool) : node :=
  mkNode (raft_new i peers noop) (mkPersisted 0 None []).

Definition net_init (members : list Z) (n : network) : Prop :=
  nw_msgs n = [] /\ nw_elected n = [] /\
  forall i nd, nw_nodes n !! i = Some nd ->
    exists peers noop, nd = fresh_node i peers noop /\ i :: peers ≡ₚ members.

(** ** The invariant *)

(** [V j t = Some c]: node [j] voted for [c] in term [t]. *)
Definition votes : Type := Z -> Z -> option Z.

Record node_inv (members : list Z) (V : votes) (n : network) (i : Z) (nd : node) : Prop := {
  ni_me : rs_me (nd_state nd) = i;
  ni_peers : i :: rs_peers (nd_state nd) ≡ₚ members;
  ni_hard : pr_current_term (nd_store nd) = rs_current_term (nd_state nd) /\
            pr_voted_for (nd_store nd) = rs_voted_for (nd_state nd);
  ni_pend : Forall (fun op => is_hard_state op = false) (rs_pending (nd_state nd));
  ni_past : forall t c, V i t = Some c -> t <= rs_current_term (nd_state nd) /\
    (t = rs_current_term (nd_state nd) -> rs_voted_for (nd_state nd) = Some c);
  ni_vote : forall c, rs_voted_for (nd_state nd) = Some c -> V i (rs_current_term (nd_state nd)) = Some c;
  ni_cand : rs_role (nd_state nd) = Candidate ->
    forall j, j ∈ rs_votes_received (nd_state nd) -> j ∈ members /\ V j (rs_current_term (nd_state nd)) = Some i;
  ni_lead : rs_role (nd_state nd) = Leader -> (rs_current_term (nd_state nd), i) ∈ nw_elected n }.

Record net_inv (members : list Z) (V : votes) (n : network) : Prop := {
  nv_nodes : forall i nd, nw_nodes n !! i = Some nd -> node_inv members V n i nd;
  nv_msgs : forall c r, (c, RequestVoteResp r) ∈ nw_msgs n -> rvr_vote_granted r = true ->
    V (rvr_voter_id r) (rvr_term r) = Some c;
  nv_elected : forall t i, (t, i) ∈ nw_elected n ->
    exists Q : gset Z, (forall j, j ∈ Q -> j ∈ members /\ V j t = Some i) /\ len members < 2 * Z.of_nat (size Q) }.

(** The votes after node [i] reached term [t] with vote [v]. *)
Definition record_vote (V : votes) (i t : Z) (v : option Z) : votes := fun j u =>
  if bool_decide (j = i) && bool_decide (u = t) then match v with Some c => Some c | None => V j u end else V j u.

Lemma record_vote_other V i t v j u : (j <> i \/ u <> t) -> record_vote V i t v j u = V j u.
Proof. intros H. unfold record_vote. repeat case_bool_decide; try done. tauto. Qed.

Lemma record_vote_here V i t c : record_vote V i t (Some c) i t = Some c.
Proof. unfold record_vote. by rewrite !bool_decide_true. Qed.

(** Recording keeps older votes when terms grow and votes are kept. *)
Lemma record_vote_mono V i s t v :
  (forall u c, V i u = Some c -> u <= rs_current_term s /\ (u = rs_current_term s -> rs_voted_for s = Some c)) ->
  rs_current_term s <= t -> (forall c, t = rs_current_term s -> rs_voted_for s = Some c -> v = Some c) ->
  forall j u c, V j u = Some c -> record_vote V i t v j u = Some c.
Proof.
  intros Hp Ht Hv j u c Hc. unfold record_vote. case_bool_decide; [|done]. case_bool_decide; [|done]. subst.
  destruct (Hp _ _ Hc) as [Hle He]. assert (t = rs_current_term s) as E by lia.
  by rewrite (Hv c E (He E)).
Qed.

Lemma record_vote_inv V i t v j u c :
  record_vote V i t v j u = Some c -> V j u = Some c \/ (j = i /\ u = t /\ v = Some c).
Proof. unfold record_vote. repeat case_bool_decide; cbn; [destruct v|..]; intros; simplify_eq; auto. Qed.

(** The votes after a step of node [i] that left it in the term and with the vote
    of [s]: nothing is forgotten, and only that vote is new. *)
Definition vote_step (V V' : votes) (i : Z) (s : raft_state) : Prop :=
  (forall j u c, V j u = Some c -> V' j u = Some c) /\
  (forall j u c, V' j u = Some c ->
     V j u = Some c \/ (j = i /\ u = rs_current_term s /\ rs_voted_for s = Some c)).

(** What an invariant node's neighbours keep when votes and elections grow. *)
Lemma node_inv_mono members V V' n n' i nd :
  node_inv members V n i nd -> (forall j u c, V j u = Some c -> V' j u = Some c) ->
  (forall u, V' i u = V i u) -> nw_elected n ⊆ nw_elected n' -> node_inv members V' n' i nd.
Proof.
  intros [A1 A2 A3 A4 A5 A6 A7 A8] Hm Hi He. split; try done.
  - intros t c. rewrite Hi. apply A5.
  - intros c Hc. rewrite Hi. by apply A6.
  - intros Hr j Hj. destruct (A7 Hr j Hj). auto.
  - intros Hr. by apply He, A8.
Qed.

Lemma elected_mono members V V' n :
  (forall j u c, V j u = Some c -> V' j u = Some c) -> net_inv members V n ->
  forall t i, (t, i) ∈ nw_elected n ->
    exists Q : gset Z, (forall j, j ∈ Q -> j ∈ members /\ V' j t = Some i) /\ len members < 2 * Z.of_nat (size Q).
Proof.
  intros Hm Hn t i Hti. destruct (nv_elected _ _ _ Hn t i Hti) as (Q & HQ & Hs). exists Q. split; [|done].
  intros j Hj. destruct (HQ j Hj). auto.
Qed.

Lemma node_inv_pend members V n i nd : node_inv members V n i nd -> pend_hard (nd_store nd) (nd_state nd).
Proof.
  intros Hn. split; [|right; apply (ni_hard _ _ _ _ _ Hn)].
  intros t v H. pose proof (ni_pend _ _ _ _ _ Hn) as Hp. rewrite Forall_forall in Hp. by apply Hp in H.
Qed.

Lemma quorum_majority s i members :
  i :: rs_peers s ≡ₚ members -> forall k, quorum s <= k -> len members < 2 * k.
Proof.
  intros Hp k Hk. apply Permutation_length in Hp. unfold quorum, len in *. cbn in Hp.
  pose proof (Z.div_mod (Z.of_nat (length (rs_peers s)) + 1) 2).
  pose proof (Z.mod_pos_bound (Z.of_nat (length (rs_peers s)) + 1) 2). lia.
Qed.

(** ** Preservation *)

Section Preservation.
Context (members : list Z).

(** The votes a candidate counts in an event are votes cast for it. *)
Lemma counted_votes V n i nd ev j :
  net_inv members V n -> nw_nodes n !! i = Some nd -> can_happen n i ev -> rs_role (nd_state nd) = Candidate ->
  j ∈ rs_votes_received (nd_state nd) ∪ gained (nd_state nd) ev ->
  j ∈ members /\ V j (rs_current_term (nd_state nd)) = Some i.
Proof.
  intros Hn Hi Hc Hr Hj. pose proof (nv_nodes _ _ _ Hn i nd Hi) as Hnd.
  apply elem_of_union in Hj as [Hj|Hj]; [by apply (ni_cand _ _ _ _ _ Hnd)|].
  unfold gained in Hj. destruct ev as [[| r | | | |] progress| | | |]; try set_solver. cbn in Hc.
  destruct (_ && _) eqn:E; [|set_solver]. apply andb_prop in E as [E Em]. apply andb_prop in E as [Eg Et].
  apply elem_of_singleton in Hj as ->. boolp. apply bool_decide_eq_true in Em. split.
  - rewrite <- (ni_peers _ _ _ _ _ Hnd). by right.
  - rewrite <- Et. by apply (nv_msgs _ _ _ Hn).
Qed.

(** A node that wins has a majority of votes for it. *)
Lemma won_quorum V n i nd ev s' acts t l :
  net_inv members V n -> nw_nodes n !! i = Some nd -> can_happen n i ev ->
  elect_step (nd_state nd) ev s' acts -> (t, l) ∈ won i (nd_state nd) s' ->
  exists Q : gset Z, (forall j, j ∈ Q -> j ∈ members /\
      record_vote V i (rs_current_term s') (rs_voted_for s') j t = Some l) /\
    len members < 2 * Z.of_nat (size Q).
Proof.
  intros Hn Hi Hc He Hw. unfold won in Hw. pose proof (nv_nodes _ _ _ Hn i nd Hi) as Hnd.
  destruct (_ && _) eqn:E; [|by apply elem_of_nil in Hw]. apply list_elem_of_singleton in Hw. simplify_eq.
  apply andb_prop in E as [E1 E2]. apply bool_decide_eq_true in E1. apply negb_true_iff in E2.
  pose proof (ni_me _ _ _ _ _ Hnd) as Hme.
  assert (forall j u c, V j u = Some c ->
    record_vote V i (rs_current_term s') (rs_voted_for s') j u = Some c) as Hmono.
  { apply (record_vote_mono V i (nd_state nd)); [apply (ni_past _ _ _ _ _ Hnd)|apply He|apply He]. }
  destruct (es_lead _ _ _ _ He E1) as [[Hl Ht]|[(Hr & Ht & Hq)|[Hp Hv]]].
  - rewrite bool_decide_true in E2 by done. cbn in E2. boolp. done.
  - exists (rs_votes_received (nd_state nd) ∪ gained (nd_state nd) ev). split.
    + intros j Hj. destruct (counted_votes V n i nd ev j Hn Hi Hc Hr Hj) as [Hm Hvj]. split; [done|].
      apply Hmono. by rewrite Ht.
    + eapply quorum_majority; [apply (ni_peers _ _ _ _ _ Hnd)|done].
  - exists {[ i ]}. split.
    + intros j ->%elem_of_singleton. split; [rewrite <- (ni_peers _ _ _ _ _ Hnd); by left|].
      rewrite Hv, Hme. apply record_vote_here.
    + rewrite size_singleton. rewrite <- (ni_peers _ _ _ _ _ Hnd), Hp. vm_compute. done.
Qed.

(** The node an event leaves is an invariant node. *)
Lemma event_node_inv V n n' i nd ev s' acts :
  net_inv members V n -> nw_nodes n !! i = Some nd -> can_happen n i ev ->
  elect_step (nd_state nd) ev s' acts -> rs_peers s' = rs_peers (nd_state nd) -> pend_hard (nd_store nd) s' ->
  nw_elected n' = nw_elected n ++ won i (nd_state nd) s' ->
  node_inv members (record_vote V i (rs_current_term s') (rs_voted_for s')) n' i
    (mkNode (set_pending s' []) (mem_persist (nd_store nd) (rs_pending s'))).
Proof.
  intros Hn Hi Hc He Hps Hpd Hel. pose proof (nv_nodes _ _ _ Hn i nd Hi) as Hnd.
  pose proof (ni_me _ _ _ _ _ Hnd) as Hme.
  assert (forall j u c, V j u = Some c ->
    record_vote V i (rs_current_term s') (rs_voted_for s') j u = Some c) as Hmono.
  { apply (record_vote_mono V i (nd_state nd)); [apply (ni_past _ _ _ _ _ Hnd)|apply He|apply He]. }
  split; cbn.
  - rewrite (es_me _ _ _ _ He). done.
  - rewrite Hps. apply (ni_peers _ _ _ _ _ Hnd).
  - destruct (pend_hard_prefix (nd_store nd) s' (rs_pending s') [] Hpd) as [|(_ & _ & ?)]; [by rewrite app_nil_r|done..].
  - constructor.
  - intros t c Hv. apply record_vote_inv in Hv as [Hv|(_ & -> & Hv)]; [|done].
    destruct (ni_past _ _ _ _ _ Hnd t c Hv) as [Ht Hve]. pose proof (es_term _ _ _ _ He) as Hge. split; [lia|].
    intros ->. apply (es_vote _ _ _ _ He); [lia|]. apply Hve. lia.
  - intros c ->. apply record_vote_here.
  - intros Hr j Hj. destruct (es_cand _ _ _ _ He Hr) as [(Hr0 & Ht & Hsub)|[Hvs Hv]].
    + destruct (counted_votes V n i nd ev j Hn Hi Hc Hr0) as [Hm Hvj]; [set_solver|]. split; [done|].
      apply Hmono. by rewrite Ht.
    + rewrite Hvs in Hj. apply elem_of_singleton in Hj as ->. rewrite Hme.
      split; [rewrite <- (ni_peers _ _ _ _ _ Hnd); by left|]. rewrite Hv, Hme. apply record_vote_here.
  - intros Hr. rewrite Hel. apply elem_of_app. unfold won. rewrite (bool_decide_true (rs_role s' = Leader)) by done.
    cbn [andb]. destruct (bool_decide (rs_role (nd_state nd) = Leader) && (rs_current_term s' =? rs_current_term (nd_state nd))) eqn:E.
    + left. apply andb_prop in E as [E1 E2]. apply bool_decide_eq_true in E1. boolp.
      rewrite E2. by apply (ni_lead _ _ _ _ _ Hnd).
    + right. by left.
Qed.

Lemma won_none i s : won i s s = [].
Proof. unfold won. rewrite Z.eqb_refl, andb_true_r. by destruct (bool_decide _). Qed.

Lemma net_event_inv V n i nd ev s' ops acts snap :
  net_inv members V n -> nw_nodes n !! i = Some nd -> can_happen n i ev -> event_term_ok (nd_state nd) ev ->
  node_round (nd_state nd) ev = (s', ops, acts) -> rs_peers s' = rs_peers (nd_state nd) ->
  exists V', vote_step V V' i s' /\ net_inv members V'
    (mkNet (<[i := mkNode s' (mem_persist (nd_store nd) ops)]> (nw_nodes n))
      (nw_msgs n ++ (acts ≫= outgoing s' snap)) (nw_elected n ++ won i (nd_state nd) s')).
Proof.
  intros Hn Hi Hc Hok Hr Hps. unfold node_round in Hr.
  destruct (snapshot_refused (nd_state nd) ev) eqn:Eref.
  { injection Hr as <- <- <-. exists V. split; [split; auto|]. rewrite won_none. cbn [mbind list_bind]. rewrite !app_nil_r.
    rewrite insert_id by (rewrite Hi; by destruct nd). by destruct n. } pose proof (nv_nodes _ _ _ Hn i nd Hi) as Hnd.
  pose proof (node_event_elect (nd_state nd) ev Hok) as He. cbn zeta in He.
  pose proof (node_event_pend (nd_store nd) (nd_state nd) ev (node_inv_pend _ _ _ _ _ Hnd)) as Hpd.
  destruct (node_event (nd_state nd) ev) as [s1 acts1]. cbn [fst snd take_persist_ops] in *.
  injection Hr as <- <- <-. exists (record_vote V i (rs_current_term s1) (rs_voted_for s1)). cbn [set_pending rs_peers rs_current_term rs_voted_for] in *.
  assert (forall j u c, V j u = Some c ->
    record_vote V i (rs_current_term s1) (rs_voted_for s1) j u = Some c) as Hmono.
  { apply (record_vote_mono V i (nd_state nd)); [apply (ni_past _ _ _ _ _ Hnd)|apply He|apply He]. }
  split; [split; [done|intros j u c; apply record_vote_inv]|].
  split; cbn [nw_nodes nw_msgs nw_elected].
  - intros k ndk Hk. destruct (decide (k = i)) as [->|Hne].
    + rewrite lookup_insert_eq in Hk. injection Hk as <-. by eapply event_node_inv.
    + rewrite lookup_insert_ne in Hk by done. eapply node_inv_mono; [by apply (nv_nodes _ _ _ Hn)|done| |cbn; set_solver].
      intros u. apply record_vote_other. by left.
  - intros c r Hm Hg. apply elem_of_app in Hm as [Hm|Hm]; [by apply Hmono, (nv_msgs _ _ _ Hn)|].
    apply list_elem_of_bind in Hm as (a & Ha & Hin). destruct a as [p m|m| |e|p]; cbn in Ha.
    + apply list_elem_of_singleton in Ha. injection Ha as <- <-.
      destruct (es_resp _ _ _ _ He _ _ Hin Hg) as (Ht & Hid & Hv).
      rewrite Ht, Hid, Hv, (ni_me _ _ _ _ _ Hnd). apply record_vote_here.
    + apply list_elem_of_fmap in Ha as (p & Ep & _). injection Ep as _ <-.
      destruct (es_bcast _ _ _ _ He _ Hin) as [rv ?]. done.
    + by apply elem_of_nil in Ha.
    + by apply elem_of_nil in Ha.
    + destruct (snap p); [by apply list_elem_of_singleton in Ha|by apply elem_of_nil in Ha].
  - intros t l Hl. apply elem_of_app in Hl as [Hl|Hl].
    + by apply (elected_mono members V _ n).
    + by eapply won_quorum.
Qed.

(** The hard state of a node that comes up from the store. *)
Definition restarted (i : Z) (peers : list Z) (p : persisted_raft) (s : raft_state) : Prop :=
  rs_me s = i /\ rs_peers s = peers /\ rs_role s = Follower /\ rs_current_term s = pr_current_term p /\
  rs_voted_for s = pr_voted_for p /\ Forall (fun op => is_hard_state op = false) (rs_pending s).

(** A restored node is a follower with the stored term and vote. *)
Lemma restore_fields i peers noop p snapshot s :
  restore (raft_new i peers noop) p snapshot = Some s -> restarted i peers p s.
Proof.
  unfold restore, restarted. cbn zeta. intros H.
  repeat case_match; simplify_eq; cbn; split_and!; try done; by repeat constructor.
Qed.

Lemma net_crash_inv V n i nd ev applied s' :
  net_inv members V n -> nw_nodes n !! i = Some nd -> event_term_ok (nd_state nd) ev ->
  torn_prefix applied (rs_pending (fst (node_event (nd_state nd) ev))) ->
  restarted i (rs_peers (nd_state nd)) (mem_persist (nd_store nd) applied) s' ->
  exists V', vote_step V V' i s' /\ net_inv members V'
    (mkNet (<[i := mkNode s' (mem_persist (nd_store nd) applied)]> (nw_nodes n)) (nw_msgs n) (nw_elected n)).
Proof.
  intros Hn Hi Hok Hap Hr. pose proof (nv_nodes _ _ _ Hn i nd Hi) as Hnd.
  pose proof (node_event_elect (nd_state nd) ev Hok) as He. cbn zeta in He.
  pose proof (node_event_pend (nd_store nd) (nd_state nd) ev (node_inv_pend _ _ _ _ _ Hnd)) as Hpd.
  set (s1 := fst (node_event (nd_state nd) ev)) in *. set (acts := snd (node_event (nd_state nd) ev)) in *. clearbody s1 acts.
  destruct Hr as (Hme & Hps & Hrole & Ht & Hv & Hpend).
  assert (rs_current_term (nd_state nd) <= rs_current_term s' /\
    (forall c, rs_current_term s' = rs_current_term (nd_state nd) -> rs_voted_for (nd_state nd) = Some c ->
       rs_voted_for s' = Some c)) as [Hge Hkeep].
  { destruct (ni_hard _ _ _ _ _ Hnd) as [Hh1 Hh2].
    destruct (pend_hard_torn (nd_store nd) s1 applied Hpd Hap) as [[E1 E2]|[E1 E2]].
    - rewrite Ht, Hv, E1, E2. split; [apply He|]. intros c. apply He.
    - rewrite Ht, Hv, E1, E2, Hh1, Hh2. split; [lia|done]. }
  assert (forall j u c, V j u = Some c ->
    record_vote V i (rs_current_term s') (rs_voted_for s') j u = Some c) as Hmono.
  { by apply (record_vote_mono V i (nd_state nd)); [apply (ni_past _ _ _ _ _ Hnd)|..]. }
  exists (record_vote V i (rs_current_term s') (rs_voted_for s')).
  split; [split; [done|intros j u c; apply record_vote_inv]|]. split; cbn [nw_nodes nw_msgs nw_elected].
  - intros k ndk Hk. destruct (decide (k = i)) as [->|Hne].
    + rewrite lookup_insert_eq in Hk. injection Hk as <-. split; cbn; try done.
      * rewrite Hps. apply (ni_peers _ _ _ _ _ Hnd).
      * intros t c Hvt. apply record_vote_inv in Hvt as [Hvt|(_ & -> & Hvt)]; [|done].
        destruct (ni_past _ _ _ _ _ Hnd t c Hvt) as [Htle Hve]. split; [lia|].
        intros ->. apply Hkeep; [lia|]. apply Hve. lia.
      * intros c ->. apply record_vote_here.
      * rewrite Hrole. done.
      * rewrite Hrole. done.
    + rewrite lookup_insert_ne in Hk by done. eapply node_inv_mono; [by apply (nv_nodes _ _ _ Hn)|done| |done].
      intros u. apply record_vote_other. by left.
  - intros c r Hm Hg. by apply Hmono, (nv_msgs _ _ _ Hn).
  - by apply (elected_mono members V _ n).
Qed.

Lemma net_chunk_failed_inv V n p r :
  net_inv members V n -> net_inv members V (mkNet (nw_nodes n) (nw_msgs n ++ [(p, InstallSnapshotResp r)]) (nw_elected n)).
Proof.
  intros Hn. split; cbn [nw_nodes nw_msgs nw_elected]; [|..|apply Hn].
  - intros i nd Hi. by eapply node_inv_mono; [apply (nv_nodes _ _ _ Hn)|..].
  - intros c rv Hm. apply elem_of_app in Hm as [Hm|Hm]; [by apply (nv_msgs _ _ _ Hn)|].
    by apply list_elem_of_singleton in Hm.
Qed.

Lemma net_inv_init n : net_init members n -> net_inv members (fun _ _ => None) n.
Proof.
  intros (Hm & He & Hn). split.
  - intros i nd Hi. destruct (Hn i nd Hi) as (peers & noop & -> & Hp). split; cbn; try done.
  - rewrite Hm. intros c r H. by apply elem_of_nil in H.
  - rewrite He. intros t i H. by apply elem_of_nil in H.
Qed.

Lemma net_inv_reachable n0 n : net_init members n0 -> rtc net_step n0 n -> exists V, net_inv members V n.
Proof.
  intros H0 Hr. apply net_inv_init in H0. assert (exists V, net_inv members V n0) as H by eauto. clear H0.
  induction Hr as [n|n n1 n2 Hs Hr IH]; [done|]. apply IH. destruct H as [V HV]. destruct Hs.
  - edestruct net_event_inv as (V' & _ & HV'); eauto.
  - edestruct net_crash_inv as (V' & _ & HV'); eauto using restore_fields.
  - exists V. by apply net_chunk_failed_inv.
Qed.

(** Two majorities of the members share a member. *)
Lemma majorities_meet (Q1 Q2 : gset Z) :
  NoDup members -> (forall j, j ∈ Q1 -> j ∈ members) -> (forall j, j ∈ Q2 -> j ∈ members) ->
  len members < 2 * Z.of_nat (size Q1) -> len members < 2 * Z.of_nat (size Q2) ->
  exists j, j ∈ Q1 /\ j ∈ Q2.
Proof.
  intros Hnd H1 H2 Hs1 Hs2. destruct (decide (Q1 ∩ Q2 = ∅)) as [Hd|Hne].
  - exfalso. assert (size (Q1 ∪ Q2) = size Q1 + size Q2)%nat as Hu by (apply size_union; set_solver).
    assert (Q1 ∪ Q2 ⊆ list_to_set (C:=gset Z) members) as Hsub.
    { intros j Hj. apply elem_of_list_to_set. apply elem_of_union in Hj as [Hj|Hj]; auto. }
    apply subseteq_size in Hsub as Hle.
    rewrite size_list_to_set in Hle by done. unfold len in *. lia.
  - apply set_choose_L in Hne as [j Hj]. exists j. set_solver.
Qed.
End Preservation.

(** ** Properties *)

(** C3: election safety.  In any run of a cluster with fixed membership, whatever
    messages are lost, duplicated or reordered and whatever nodes crash and
    restart, at most one node ever wins the election of a term; in particular no
    two nodes lead in the same term. *)
Theorem election_safety members n0 n :
  NoDup members -> net_init members n0 -> rtc net_step n0 n ->
  (forall t i j, (t, i) ∈ nw_elected n -> (t, j) ∈ nw_elected n -> i = j) /\
  (forall i j ndi ndj, nw_nodes n !! i = Some ndi -> nw_nodes n !! j = Some ndj ->
     rs_role (nd_state ndi) = Leader -> rs_role (nd_state ndj) = Leader ->
     rs_current_term (nd_state ndi) = rs_current_term (nd_state ndj) -> i = j).
Proof.
  intros Hnd H0 Hr. destruct (net_inv_reachable members n0 n H0 Hr) as [V HV].
  assert (forall t i j, (t, i) ∈ nw_elected n -> (t, j) ∈ nw_elected n -> i = j) as Hone.
  { intros t i j Hi Hj. destruct (nv_elected _ _ _ HV t i Hi) as (Q1 & HQ1 & Hs1).
    destruct (nv_elected _ _ _ HV t j Hj) as (Q2 & HQ2 & Hs2).
    destruct (majorities_meet members Q1 Q2 Hnd) as (k & Hk1 & Hk2); [intros; by apply HQ1|intros; by apply HQ2|done|done|].
    destruct (HQ1 k Hk1), (HQ2 k Hk2). congruence. }
  split; [exact Hone|]. intros i j ndi ndj Hi Hj Hli Hlj Ht.
  apply (Hone (rs_current_term (nd_state ndi))).
  - by apply (ni_lead _ _ _ _ _ (nv_nodes _ _ _ HV i ndi Hi)).
  - rewrite Ht. by apply (ni_lead _ _ _ _ _ (nv_nodes _ _ _ HV j ndj Hj)).
Qed.

(** ** Witness: three nodes, node 1 is elected with the vote of node 2 *)

Definition sample_net : network :=
  mkNet (list_to_map [(1, fresh_node 1 [2; 3] true); (2, fresh_node 2 [1; 3] true); (3, fresh_node 3 [1; 2] true)]) [] [].

Definition no_snap (p : Z) : option install_snapshot := None.

(** Run an event of node [i]. *)
Definition run_event (n : network) (i : Z) (ev : raft_event) : network :=
  match nw_nodes n !! i with
  | None => n
  | Some nd =>
    match node_round (nd_state nd) ev with
    | (s', ops, acts) =>
      mkNet (<[i := mkNode s' (mem_persist (nd_store nd) ops)]> (nw_nodes n))
        (nw_msgs n ++ (acts ≫= outgoing s' no_snap)) (nw_elected n ++ won i (nd_state nd) s')
    end
  end.

Lemma run_event_step n i ev nd :
  nw_nodes n !! i = Some nd -> can_happen n i ev -> event_term_ok (nd_state nd) ev ->
  rs_peers (fst (fst (node_round (nd_state nd) ev))) = rs_peers (nd_state nd) -> net_step n (run_event n i ev).
Proof.
  intros Hi Hc Hok Hp. unfold run_event. rewrite Hi. destruct (node_round _ _) as [[s' ops] acts] eqn:E.
  by eapply net_event.
Qed.

Definition sample_run1 : network := run_event sample_net 1 EvElectionTimeout.
Definition sample_run2 : network := run_event sample_run1 2 (EvMessage (RequestVote (mkRV 1 1 0 0)) 0).
Definition sample_run : network := run_event sample_run2 1 (EvMessage (RequestVoteResp (mkRVR 1 true 2)) 0).

Lemma sample_net_init : net_init [1; 2; 3] sample_net.
Proof.
  split; [done|]. split; [done|]. intros i nd Hi. unfold sample_net in Hi. cbn [nw_nodes] in Hi.
  apply elem_of_list_to_map_2 in Hi. rewrite !elem_of_cons, elem_of_nil in Hi.
  destruct Hi as [E|[E|[E|[]]]]; injection E as -> ->; eexists _, true; (split; [reflexivity|]).
  - reflexivity.
  - apply Permutation_swap.
  - etransitivity; [apply Permutation_swap|]. constructor. apply Permutation_swap.
Qed.

Lemma sample_run_reachable : rtc net_step sample_net sample_run.
Proof.
  apply (rtc_l _ _ sample_run1); [|apply (rtc_l _ _ sample_run2); [|apply rtc_once]].
  - eapply run_event_step; [reflexivity|done|vm_compute; split; congruence|vm_compute; reflexivity].
  - eapply run_event_step; [vm_compute; reflexivity| |done|vm_compute; reflexivity].
    cbn [can_happen]. vm_compute (nw_msgs _). rewrite !elem_of_cons. auto.
  - eapply run_event_step; [vm_compute; reflexivity| |done|vm_compute; reflexivity].
    cbn [can_happen]. vm_compute (nw_msgs _). rewrite !elem_of_cons. auto.
Qed.

Lemma election_safety_witness :
  nw_elected sample_run = [(1, 1)] /\ forall j, (1, j) ∈ nw_elected sample_run -> j = 1.
Proof.
  assert (nw_elected sample_run = [(1, 1)]) as E by (vm_compute; reflexivity). split; [exact E|]. intros j Hj.
  destruct (election_safety [1; 2; 3] sample_net sample_run) as [Hone _].
  - apply (bool_decide_unpack _). vm_compute. exact I.
  - apply sample_net_init.
  - apply sample_run_reachable.
  - apply (Hone 1 j 1); [exact Hj|]. rewrite E. left.
Defined.
