(* ===== verification/RaftDriver.v ===== *)
(** * The two ends of a snapshot in the node loop (raft/node.rs)

    The interface [SnapshotTransfer] between the Raft node and its state machine,
    [Driver::send_snapshot] and the install path of [Driver::on_message]. *)

From S2P Require Export RaftState.

#[local] Open Scope Z_scope.

(** ** The interface *)

(** [trait SnapshotTransfer].  [E] is what the blocking calls of one
    [apply_chunk] meet (the clock and the outcomes of its system calls). *)
Class SnapshotTransfer (S E : Type) : Type := {
  st_read_chunk : S -> Z -> Z -> Z -> option (list byte * bool);
  st_apply_chunk : S -> E -> list byte -> bool -> bool * S;
  st_progress : S -> Z;
  st_snapshot_end : list byte -> Z
}.

Definition SNAPSHOT_CHUNK_BYTES : Z := 1024 * 1024.

(** ** The node *)

Section Driver.
Context {S E : Type} `{SnapshotTransfer S E}.

(** The parts of [Driver] a snapshot touches; [d_snapshot] is the snapshot in the
    store. *)
Record driver : Type := mkDriver {
  d_state : raft_state;
  d_transfer : option S;
  d_snapshot : option persisted_snapshot
}.

(** [Driver::send_snapshot]; the load and the read may fail, and then nothing is
    sent. *)
Definition send_snapshot (d : driver) (peer : Z) : driver * option install_snapshot :=
  let s := d_state d in
  match d_snapshot d with
  | None =>
    (mkDriver (set_next s peer (rl_base_index (rs_log s) + 1)) (d_transfer d) (d_snapshot d), None)
  | Some snap =>
    let msg offset fin data :=
      Some (mkIS (rs_current_term s) (rs_me s) (ps_last_index snap) (ps_last_term snap) offset fin data) in
    match d_transfer d, rs_snapshot_cursor s !! peer with
    | None, _ => (d, msg 0 true (ps_data snap))
    | Some _, None => (d, msg PROBE_OFFSET false [])
    | Some t, Some from =>
      match st_read_chunk t from (st_snapshot_end (ps_data snap)) SNAPSHOT_CHUNK_BYTES with
      | Some (data, fin) => (d, msg from fin data)
      | None => (d, None)
      end
    end
  end.

(** What the state machine makes of a chunk: whether it could be applied, the state
    and the position after it. *)
Definition take_chunk (d : driver) (m : install_snapshot) (env : E) : bool * option S * Z :=
  if rs_current_term (d_state d) <=? is_term m then
    match d_transfer d with
    | Some t =>
      let (ok, t) := if is_probe m then (true, t) else st_apply_chunk t env (is_data m) (is_done m) in
      (ok, Some t, st_progress t)
    | None => (true, None, 0)
    end
  else (true, d_transfer d, 0).

(** The install path of [Driver::on_message]: a chunk is applied to the state
    machine before Raft hears of it; a failure is answered without touching the
    Raft state; a finished installation is stored. *)
Definition install_snapshot_msg (d : driver) (m : install_snapshot) (env : E) : driver * list action :=
  let s := d_state d in
  let '(ok, t, progress) := take_chunk d m env in
  if negb ok then
    (mkDriver s t (d_snapshot d),
     [SendTo (is_leader_id m) (InstallSnapshotResp (mkISR (rs_current_term s) false (rs_me s) progress 0))])
  else
    let pending := mkSnapshot (is_last_index m) (is_last_term m)
      (match t with Some t => to_be 8 (st_progress t) | None => is_data m end) in
    let (s', actions) := on_message_with_progress s (InstallSnapshot m) progress in
    let installed := is_done m && (rl_base_index (rs_log s) <? rl_base_index (rs_log s')) in
    (mkDriver s' t (if installed then Some pending else d_snapshot d), actions).
End Driver.
Arguments driver S : clear implicits.
