(* ===== verification/RaftLogs.v ===== *)
(** * Whole Raft logs

    A node keeps the end of its log; the rest has gone into a snapshot.  Reasoning
    about a cluster is about whole logs: lists of entries from index 1 on, compared
    by their prefixes.  [full_log F l]: [l] is what a node keeps of [F]. *)

From S2P Require Export RaftSafety.

#[local] Open Scope Z_scope.

Definition pfx (k : Z) (F : list log_entry) : list log_entry := take (Z.to_nat k) F.

(** The term at an index, 0 before the first entry. *)
Definition term_in (F : list log_entry) (k : Z) : option Z :=
  if k =? 0 then Some 0 else if k <? 0 then None else e_term <$> F !! Z.to_nat (k - 1).

Definition tail_term (F : list log_entry) : Z := match last F with Some e => e_term e | None => 0 end.

(** The same entries up to [k]. *)
Definition agree (F G : list log_entry) (k : Z) : Prop := 0 <= k <= len F /\ k <= len G /\ pfx k F = pfx k G.

Definition sorted_terms (F : list log_entry) : Prop :=
  forall k k' g g', 0 < k <= k' -> term_in F k = Some g -> term_in F k' = Some g' -> g <= g'.

(** ** Prefixes *)

Lemma len_pfx k F : 0 <= k <= len F -> len (pfx k F) = k.
Proof. unfold pfx, len. rewrite length_take. lia. Qed.

Lemma pfx_all F k : len F <= k -> pfx k F = F.
Proof. unfold pfx, len. intros. apply take_ge. lia. Qed.

Lemma pfx_pfx a b F : a <= b -> pfx a (pfx b F) = pfx a F.
Proof. unfold pfx. intros. rewrite take_take. f_equal. lia. Qed.

Lemma pfx_app_l k F G : k <= len F -> pfx k (F ++ G) = pfx k F.
Proof. unfold pfx, len. intros. apply take_app_le. lia. Qed.

Lemma term_in_pos F k g :
  term_in F k = Some g -> 0 < k -> exists e, F !! Z.to_nat (k - 1) = Some e /\ e_term e = g.
Proof.
  unfold term_in. intros H Hk. rewrite (proj2 (Z.eqb_neq k 0)), (proj2 (Z.ltb_ge k 0)) in H by lia.
  apply fmap_Some in H as (e & He & ->). eauto.
Qed.

Lemma term_in_at F k : 0 < k -> term_in F k = e_term <$> F !! Z.to_nat (k - 1).
Proof. intros. unfold term_in. by rewrite (proj2 (Z.eqb_neq k 0)), (proj2 (Z.ltb_ge k 0)) by lia. Qed.

Lemma term_in_bound F k g : term_in F k = Some g -> 0 <= k <= len F.
Proof.
  unfold term_in. destruct (Z.eqb_spec k 0); [subst; len_lia|]. destruct (Z.ltb_spec k 0); [done|].
  intros (e & He & _)%fmap_Some. apply lookup_lt_Some in He. unfold len. lia.
Qed.

Lemma term_in_is_Some F k : 0 <= k <= len F -> is_Some (term_in F k).
Proof.
  intros H. unfold term_in. destruct (Z.eqb_spec k 0); [eauto|]. rewrite (proj2 (Z.ltb_ge k 0)) by lia.
  apply fmap_is_Some, lookup_lt_is_Some. unfold len in H. lia.
Qed.

Lemma term_in_pfx F p k : k <= p -> term_in (pfx p F) k = term_in F k.
Proof.
  intros H. unfold term_in, pfx. destruct (Z.eqb_spec k 0); [done|]. destruct (Z.ltb_spec k 0); [done|].
  by rewrite lookup_take_lt by lia.
Qed.

Lemma term_in_app_l F G k : k <= len F -> term_in (F ++ G) k = term_in F k.
Proof.
  intros H. unfold term_in. destruct (Z.eqb_spec k 0); [done|]. destruct (Z.ltb_spec k 0); [done|].
  rewrite lookup_app_l; [done|]. unfold len in H. lia.
Qed.

Lemma tail_term_in F : term_in F (len F) = Some (tail_term F).
Proof.
  unfold tail_term, term_in, len. destruct (decide (F = [])) as [->|Hn]; [done|].
  destruct F as [|e F'] using rev_ind; [done|]. rewrite last_snoc, length_app. cbn [length].
  rewrite (proj2 (Z.eqb_neq _ 0)), (proj2 (Z.ltb_ge _ 0)) by lia.
  replace (Z.to_nat _) with (length F' + 0)%nat by lia. by rewrite lookup_app_r, Nat.add_comm, Nat.add_sub by lia.
Qed.

(** ** Agreement *)

Lemma agree_refl F k : 0 <= k <= len F -> agree F F k.
Proof. intros. split_and!; [lia|lia|lia|done]. Qed.

Lemma agree_sym F G k : agree F G k -> agree G F k.
Proof. intros ((? & ?) & ? & ?). split_and!; [lia|lia|lia|done]. Qed.

Lemma agree_trans F G H k : agree F G k -> agree G H k -> agree F H k.
Proof. intros (? & ? & E1) (? & ? & E2). split_and!; [lia|lia|lia|congruence]. Qed.

Lemma agree_le F G k k' : agree F G k -> 0 <= k' <= k -> agree F G k'.
Proof.
  intros (? & ? & E) Hk. split_and!; [lia|lia|lia|].
  rewrite <- (pfx_pfx k' k F), <- (pfx_pfx k' k G) by lia. by rewrite E.
Qed.

Lemma agree_app_r F G H k : agree F G k -> agree F (G ++ H) k.
Proof. intros (? & ? & E). split_and!; [lia|lia|len_lia|]. by rewrite pfx_app_l. Qed.

Lemma agree_app_l F G H k : agree F G k -> agree (F ++ H) G k.
Proof. intros. by apply agree_sym, agree_app_r, agree_sym. Qed.

Lemma agree_prefix_l F F' G k : F `prefix_of` F' -> agree F G k -> agree F' G k.
Proof. intros [X ->]. apply agree_app_l. Qed.

Lemma agree_prefix_r F G G' k : G `prefix_of` G' -> agree F G k -> agree F G' k.
Proof. intros [X ->]. apply agree_app_r. Qed.

Lemma agree_pfx F p : 0 <= p <= len F -> agree (pfx p F) F p.
Proof. intros. split_and!; rewrite ?len_pfx; [lia..|]. by rewrite pfx_pfx by lia. Qed.

Lemma agree_pfx_le F p k : 0 <= k <= p -> p <= len F -> agree (pfx p F) F k.
Proof. intros. apply (agree_le _ _ p); [|lia]. apply agree_pfx. lia. Qed.

Lemma agree_term F G k j : agree F G k -> j <= k -> term_in F j = term_in G j.
Proof. intros (? & ? & E) Hj. rewrite <- (term_in_pfx F k), <- (term_in_pfx G k) by lia. by rewrite E. Qed.

Lemma agree_zero F G : agree F G 0.
Proof. split_and!; try done; len_lia. Qed.

Lemma agree_whole F G : agree F G (len F) -> F = pfx (len F) G.
Proof. intros (_ & _ & E). by rewrite pfx_all in E. Qed.

Lemma agree_lookup F G k (j : nat) : agree F G k -> Z.of_nat j < k -> F !! j = G !! j.
Proof.
  intros (? & ? & E) Hj. unfold pfx in E.
  rewrite <- (lookup_take_lt F (Z.to_nat k)), <- (lookup_take_lt G (Z.to_nat k)) by lia. by rewrite E.
Qed.

Lemma agree_dec F G k : 0 <= k <= len F -> k <= len G -> agree F G k \/ pfx k F <> pfx k G.
Proof. intros. destruct (decide (pfx k F = pfx k G)); [left|by right]. split_and!; done || lia. Qed.

(** Agreement one entry further. *)
Lemma pfx_succ F k e : 0 <= k -> F !! Z.to_nat k = Some e -> pfx (k + 1) F = pfx k F ++ [e].
Proof. intros. unfold pfx. replace (Z.to_nat (k + 1)) with (S (Z.to_nat k)) by lia. by apply take_S_r. Qed.

(** ** Sorted terms *)

Lemma sorted_pfx F p : sorted_terms F -> sorted_terms (pfx p F).
Proof.
  intros H k k' g g' Hk E1 E2. apply term_in_bound in E2 as Hb. pose proof (term_in_bound _ _ _ E1) as Hb'.
  assert (len (pfx p F) <= Z.max p 0) as Hl by (unfold pfx, len; rewrite length_take; lia).
  rewrite term_in_pfx in E1, E2 by lia. by apply (H k k').
Qed.

Lemma sorted_tail F k g : sorted_terms F -> 0 < k -> term_in F k = Some g -> g <= tail_term F.
Proof.
  intros H Hk E. pose proof (term_in_bound _ _ _ E). apply (H k (len F) g (tail_term F)); [lia|done|].
  apply tail_term_in.
Qed.

Lemma sorted_app F X u :
  sorted_terms F -> (forall k g, 0 < k -> term_in F k = Some g -> g <= u) ->
  (forall e, e ∈ X -> e_term e = u) -> sorted_terms (F ++ X).
Proof.
  intros Hs Hu Hx.
  assert (forall k g, 0 < k -> term_in (F ++ X) k = Some g -> g <= u /\ (len F < k -> g = u)) as Hle.
  { intros k g Hk E. destruct (decide (k <= len F)) as [Hin|Hout].
    - rewrite term_in_app_l in E by done. split; [by eapply Hu|lia].
    - apply term_in_pos in E as (e & He & <-); [|done]. rewrite lookup_app_r in He by (unfold len in *; lia).
      apply list_elem_of_lookup_2, Hx in He as ->. done. }
  intros k k' g g' Hk E1 E2. destruct (Hle k g) as [H1 H2]; [lia|done|]. destruct (Hle k' g') as [H3 H4]; [lia|done|].
  destruct (decide (k' <= len F)) as [Hin|Hout]; [|rewrite (H4 ltac:(lia)); done].
  rewrite term_in_app_l in E1, E2 by lia. by apply (Hs k k').
Qed.

(** ** What a node keeps *)

Record full_log (F : list log_entry) (l : raft_log) : Prop := {
  fl_contig : contiguous 0 F;
  fl_base : 0 <= rl_base_index l <= len F;
  fl_entries : rl_entries l = drop (Z.to_nat (rl_base_index l)) F;
  fl_term : term_in F (rl_base_index l) = Some (rl_base_term l) }.

Section FullLog.
Context (F : list log_entry) (l : raft_log) (H : full_log F l).

Lemma full_wf : log_wf l.
Proof.
  destruct H as [H1 H2 H3 H4]. split; [lia|]. rewrite H3. eapply contiguous_drop; [exact H1|]. unfold len in *. lia.
Qed.

Lemma full_last : last_index l = len F.
Proof.
  rewrite last_index_eq by apply full_wf. rewrite (fl_entries _ _ H). pose proof (fl_base _ _ H).
  unfold len in *. rewrite length_drop. lia.
Qed.

Lemma full_last_term : last_term l = tail_term F.
Proof.
  unfold last_term. rewrite (fl_entries _ _ H). pose proof (fl_base _ _ H) as Hb. pose proof (tail_term_in F) as Ht.
  destruct (decide (rl_base_index l = len F)) as [E|E].
  - rewrite drop_ge by (unfold len in E; lia). cbn. pose proof (fl_term _ _ H) as H4. rewrite E in H4. congruence.
  - destruct F as [|e F' _] using rev_ind; [unfold len in *; cbn in *; lia|].
    rewrite drop_app_le by (unfold len in *; rewrite length_app in *; cbn in *; lia). unfold tail_term. by rewrite !last_snoc.
Qed.

Lemma full_get k : rl_base_index l < k -> log_get l k = F !! Z.to_nat (k - 1).
Proof.
  intros Hk. rewrite log_get_eq by apply full_wf. rewrite (proj2 (Z.ltb_lt _ _)) by done.
  rewrite (fl_entries _ _ H), lookup_drop. f_equal. pose proof (fl_base _ _ H). lia.
Qed.

Lemma full_term_at k : rl_base_index l <= k -> term_at l k = term_in F k.
Proof.
  intros Hk. pose proof (fl_base _ _ H) as Hb. unfold term_at, term_in. destruct (Z.eqb_spec k 0) as [->|Hn]; [done|].
  destruct (Z.eqb_spec k (rl_base_index l)) as [->|Hn2].
  - pose proof (fl_term _ _ H) as Ht. unfold term_in in Ht. by rewrite (proj2 (Z.eqb_neq _ 0)) in Ht by done.
  - rewrite (proj2 (Z.ltb_ge _ _)), (proj2 (Z.ltb_ge _ _)), full_get by lia. by destruct (F !! _).
Qed.

Lemma full_term_at_below k : 0 < k < rl_base_index l -> term_at l k = None.
Proof.
  intros Hk. unfold term_at. rewrite (proj2 (Z.eqb_neq _ _)), (proj2 (Z.eqb_neq _ _)), (proj2 (Z.ltb_lt _ _)) by lia. done.
Qed.
End FullLog.

(** A new entry. *)
Lemma full_snoc F l e :
  full_log F l -> e_index e = len F + 1 -> full_log (F ++ [e]) (set_entries l (rl_entries l ++ [e])).
Proof.
  intros [H1 H2 H3 H4] He. split; cbn.
  - rewrite contiguous_app. split; [done|]. cbn. split; [lia|done].
  - len_lia.
  - rewrite H3. rewrite drop_app_le by (unfold len in *; lia). done.
  - by rewrite term_in_app_l by lia.
Qed.

(** A later base. *)
Lemma full_compact F l b bt :
  full_log F l -> rl_base_index l < b <= len F -> term_in F b = Some bt -> last_index l < U64_MAX ->
  full_log F (compact_through l b bt).
Proof.
  intros H Hb Ht Hu. pose proof (fl_base _ _ H). rewrite compact_through_eq; [|by eapply full_wf|done|lia].
  split; cbn; [apply H|lia| |done]. rewrite (fl_entries _ _ H), drop_drop. f_equal. lia.
Qed.

Lemma full_empty : full_log [] empty_log.
Proof. by split. Qed.
