(* ===== verification/RaftGhost.v ===== *)
(** * History of a Raft cluster

    What the proofs of a cluster's safety remember of a run: who won which term, the
    log of every leader (which only grows), the log a candidate had when it asked
    for votes, the acknowledgements of every node.  From them follow leader
    completeness ([completeness]) and what may happen to the log a node has stored
    ([kept] and the lemmas about it). *)

From S2P Require Export RaftLogs RaftNet.

#[local] Open Scope Z_scope.

(** [gh_lead t]: the log of the leader of term [t]; [gh_won t]: the winner;
    [gh_cand c t]: the log with which [c] became a candidate in [t]; [(j, t, m)] in
    [gh_acks]: node [j] acknowledged the log of term [t] up to [m]; [(j, t)] in
    [gh_seen]: node [j] has stored a term of at least [t]. *)
Record ghost : Type := mkGhost {
  gh_lead : Z -> list log_entry;
  gh_won : Z -> option Z;
  gh_cand : Z -> Z -> option (list log_entry);
  gh_acks : list (Z * Z * Z);
  gh_seen : list (Z * Z) }.

Definition ack (G : ghost) (j t k : Z) : Prop := exists m, (j, t, m) ∈ gh_acks G /\ k <= m.

(** The logs of the leaders of [w] and [t] differ at or below [k]. *)
Definition conflict (G : ghost) (w t k : Z) : Prop :=
  exists k', k' <= k /\ 0 <= k' <= len (gh_lead G w) /\ k' <= len (gh_lead G t) /\
    pfx k' (gh_lead G w) <> pfx k' (gh_lead G t).

(** Log matching, for one log: every prefix of [F] is a prefix of the log of the
    leader that made its last entry. *)
Definition clean (G : ghost) (F : list log_entry) : Prop :=
  forall k g, 0 < k -> term_in F k = Some g -> agree F (gh_lead G g) k.

(** A log with [t] at [k] loses against [K] in the comparison of a vote. *)
Definition up_to_date (K : list log_entry) (t k : Z) : Prop :=
  t < tail_term K \/ (t = tail_term K /\ k <= len K).

(** What a vote of [j] in term [u] for a candidate with log [K] says about what [j]
    acknowledged in earlier terms. *)
Definition vote_facts (G : ghost) (j u : Z) (K : list log_entry) : Prop :=
  forall t k, t < u -> 0 < k -> ack G j t k -> term_in (gh_lead G t) k = Some t ->
    up_to_date K t k \/ exists w, t < w < u /\ conflict G w t k.

Section Ghost.
Context (members : list Z).

Definition majority (Q : gset Z) : Prop :=
  (forall j, j ∈ Q -> j ∈ members) /\ len members < 2 * Z.of_nat (size Q).

(** Committed in term [t]: the entry at [k] is of that term and a majority
    acknowledged it. *)
Definition committed (G : ghost) (t k : Z) : Prop :=
  0 < k /\ term_in (gh_lead G t) k = Some t /\ exists Q, majority Q /\ forall j, j ∈ Q -> ack G j t k.

(** The first [k] entries of [F] are committed, in a term up to [t]. *)
Definition committed_upto (G : ghost) (t : Z) (F : list log_entry) (k : Z) : Prop :=
  k = 0 \/ exists T m, committed G T m /\ T <= t /\ k <= m /\ agree F (gh_lead G T) k.

(** An election: the winner's log at its candidacy, and its voters. *)
Record election (V : votes) (G : ghost) (u c : Z) (K : list log_entry) : Prop := {
  el_pos : 0 < u;
  el_cand : gh_cand G c u = Some K;
  el_clean : clean G K;
  el_sorted : sorted_terms K;
  el_below : forall k g, 0 < k -> term_in K k = Some g -> g < u;
  el_lead : exists X, gh_lead G u = K ++ X /\ forall e, e ∈ X -> e_term e = u;
  el_quorum : exists Q, majority Q /\ forall j, j ∈ Q -> V j u = Some c /\ vote_facts G j u K }.

Record ghost_inv (V : votes) (G : ghost) : Prop := {
  gi_won : forall u c, gh_won G u = Some c -> exists K, election V G u c K;
  gi_none : forall u, gh_won G u = None -> gh_lead G u = [];
  gi_contig : forall u, contiguous 0 (gh_lead G u);
  gi_acks : forall j t m, (j, t, m) ∈ gh_acks G -> m <= len (gh_lead G t);
  gi_vote : forall j u c K, V j u = Some c -> gh_cand G c u = Some K -> gh_won G u = None -> vote_facts G j u K;
  gi_cand : forall j u c, V j u = Some c -> j <> c -> is_Some (gh_cand G c u) }.

(** ** The logs of leaders *)

Section Facts.
Context (V : votes) (G : ghost) (HG : ghost_inv V G).
#[local] Abbreviation L := (gh_lead G).

Lemma lead_won g : L g <> [] -> exists c K, gh_won G g = Some c /\ election V G g c K.
Proof.
  intros Hn. destruct (gh_won G g) as [c|] eqn:E; [|by rewrite (gi_none _ _ HG) in Hn].
  destruct (gi_won _ _ HG g c E) as [K HK]. eauto.
Qed.

Lemma lead_won_at g k : 0 < k <= len (L g) -> exists c K, gh_won G g = Some c /\ election V G g c K.
Proof. intros Hk. apply lead_won. intros E. rewrite E in Hk. unfold len in Hk. cbn in Hk. lia. Qed.

(** The entries of a leader's log: from its candidacy, of earlier terms, or its own. *)
Lemma lead_term u c K k g :
  election V G u c K -> 0 < k -> term_in (L u) k = Some g ->
  (k <= len K /\ term_in K k = Some g /\ g < u) \/ (len K < k /\ g = u).
Proof.
  intros HK Hk E. destruct (el_lead _ _ _ _ _ HK) as (X & EL & HX). rewrite EL in E.
  destruct (decide (k <= len K)) as [Hin|Hout].
  - left. rewrite term_in_app_l in E by done. split_and!; [done|done|]. by eapply (el_below _ _ _ _ _ HK).
  - right. split; [lia|]. apply term_in_pos in E as (e & He & <-); [|done].
    rewrite lookup_app_r in He by (unfold len in *; lia). by apply list_elem_of_lookup_2, HX in He.
Qed.

Lemma lead_cand u c K : election V G u c K -> agree K (L u) (len K).
Proof.
  intros HK. destruct (el_lead _ _ _ _ _ HK) as (X & -> & _). apply agree_app_r, agree_refl. len_lia.
Qed.

Lemma lead_clean u : clean G (L u).
Proof.
  intros k g Hk E. destruct (lead_won_at u k) as (c & K & _ & HK); [apply term_in_bound in E; lia|].
  destruct (lead_term u c K k g HK Hk E) as [(Hin & E' & _)|[Hout ->]].
  - apply (agree_trans _ K); [|by apply (el_clean _ _ _ _ _ HK)].
    apply agree_sym, (agree_le _ _ (len K)); [by eapply lead_cand|lia].
  - apply agree_refl. apply term_in_bound in E. lia.
Qed.

Lemma lead_term_le u k g : 0 < k -> term_in (L u) k = Some g -> g <= u.
Proof.
  intros Hk E. destruct (lead_won_at u k) as (c & K & _ & HK); [apply term_in_bound in E; lia|].
  destruct (lead_term u c K k g HK Hk E); lia.
Qed.

Lemma lead_sorted u : sorted_terms (L u).
Proof.
  destruct (decide (L u = [])) as [E|Hn].
  { rewrite E. intros k k' g g' Hk E1. apply term_in_bound in E1. unfold len in E1. cbn in E1. lia. }
  destruct (lead_won u Hn) as (c & K & _ & HK). destruct (el_lead _ _ _ _ _ HK) as (X & -> & HX).
  apply (sorted_app _ _ u); [apply HK| |done]. intros k g Hk E. pose proof (el_below _ _ _ _ _ HK k g Hk E). lia.
Qed.

(** A clean log is the beginning of its last entry's leader's log. *)
Lemma clean_whole F : clean G F -> F <> [] -> agree F (L (tail_term F)) (len F).
Proof.
  intros Hc Hn. apply Hc; [|apply tail_term_in]. destruct F; [done|]. unfold len. cbn. lia.
Qed.

Lemma clean_sorted F : clean G F -> sorted_terms F.
Proof.
  intros Hc. destruct (decide (F = [])) as [->|Hn].
  { intros k k' g g' Hk E1. apply term_in_bound in E1. unfold len in E1. cbn in E1. lia. }
  rewrite (agree_whole _ _ (clean_whole F Hc Hn)). apply sorted_pfx, lead_sorted.
Qed.

Lemma clean_term_pos F k g : clean G F -> 0 < k -> term_in F k = Some g -> 0 < g.
Proof.
  intros Hc Hk E. destruct (Hc k g Hk E) as (_ & Hl & _). destruct (lead_won_at g k) as (c & K & _ & HK); [lia|]. apply HK.
Qed.

Lemma clean_pfx F p : clean G F -> 0 <= p <= len F -> clean G (pfx p F).
Proof.
  intros Hc Hp k g Hk E. apply term_in_bound in E as Hb. rewrite len_pfx in Hb by done.
  rewrite term_in_pfx in E by lia. apply (agree_trans _ F); [apply agree_pfx_le; lia|by apply Hc].
Qed.

(** Two clean logs with the same term at an index agree up to it. *)
Lemma clean_match F F' k g :
  clean G F -> clean G F' -> 0 < k -> term_in F k = Some g -> term_in F' k = Some g -> agree F F' k.
Proof. intros H1 H2 Hk E1 E2. apply (agree_trans _ (L g)); [by apply H1|by apply agree_sym, H2]. Qed.

(** ** Leader completeness *)

Context (Hmem : NoDup members).

Lemma majorities_share Q1 Q2 : majority Q1 -> majority Q2 -> exists j, j ∈ Q1 /\ j ∈ Q2.
Proof. intros [H1 S1] [H2 S2]. by eapply majorities_meet. Qed.

Lemma conflict_not_agree w t k : conflict G w t k -> agree (L w) (L t) k -> False.
Proof. intros (k' & Hk & H1 & H2 & Hne) Ha. apply Hne. by apply (agree_le _ _ k k') in Ha as (_ & _ & ->); [|lia]. Qed.

(** Among the voters of a later candidate is one that acknowledged, and its vote
    says that the candidate's log is at least as recent. *)
Lemma quorum_facts t k u K Q :
  committed G t k -> t < u -> majority Q -> (forall j, j ∈ Q -> vote_facts G j u K) ->
  up_to_date K t k \/ exists w, t < w < u /\ conflict G w t k.
Proof.
  intros (Hk & Ht & Qc & HQc & Hack) Hu HQ Hf. destruct (majorities_share Qc Q HQc HQ) as (j & Hj1 & Hj2).
  apply (Hf j Hj2 t k Hu Hk (Hack j Hj1) Ht).
Qed.

Lemma completeness_cand n t k u c K :
  (Z.to_nat (u - t) <= n)%nat -> committed G t k -> t < u -> election V G u c K -> agree K (L t) k.
Proof.
  revert u c K. induction n as [|n IH]; intros u c K Hn Hc Hu HK; [lia|].
  assert (forall w, t < w < u -> forall c' K', election V G w c' K' -> agree K' (L t) k) as IH'
    by (intros w Hw c' K' HK'; apply (IH w c' K'); [lia|done|lia|done]). clear IH.
  destruct (el_quorum _ _ _ _ _ HK) as (Q & HQ & Hv).
  destruct Hc as (Hk & Htk & Hc).
  destruct (quorum_facts t k u K Q) as [Hup|(w & Hw & Hcf)]; [by split_and!|done|done|intros j Hj; by apply Hv| |].
  - destruct (decide (K = [])) as [->|Hne].
    { exfalso. assert (0 < t) as Hpos.
      { apply term_in_bound in Htk as Hb. destruct (lead_won_at t k) as (? & ? & _ & HKt); [lia|]. apply HKt. }
      destruct Hup as [Hup|[Hup _]]; cbn in Hup; lia. }
    pose proof (clean_whole K (el_clean _ _ _ _ _ HK) Hne) as Hwhole. set (g := tail_term K) in *.
    assert (0 < len K) as HlK by (destruct K; [done|]; unfold len; cbn; lia).
    assert (g < u) as Hgu by (apply (el_below _ _ _ _ _ HK (len K)); [done|apply tail_term_in]).
    destruct Hup as [Hg|[Hg Hkl]]; fold g in Hg.
    + destruct (lead_won_at g (len K)) as (cg & Kg & _ & HKg); [destruct Hwhole; lia|].
      assert (term_in (L g) (len K) = Some g) as Etail.
      { rewrite <- (agree_term _ _ _ (len K) Hwhole) by lia. apply tail_term_in. }
      destruct (lead_term g cg Kg (len K) g HKg HlK Etail) as [(_ & _ & ?)|[Hlong _]]; [lia|].
      pose proof (IH' g ltac:(lia) cg Kg HKg) as Hag.
      apply (agree_trans _ (L g)); [apply (agree_le _ _ (len K)); [done|]|].
      * destruct Hag as (? & ? & _). lia.
      * apply (agree_trans _ Kg); [|done]. apply agree_sym, (agree_le _ _ (len Kg)); [by eapply lead_cand|].
        destruct Hag as (? & ? & _). lia.
    + rewrite Hg. apply (agree_le _ _ (len K)); [done|lia].
  - exfalso. assert (0 < len (L w)) as Hlw.
    { destruct Hcf as (k' & _ & Hb & _ & Hne). destruct (decide (k' = 0)) as [->|]; [|lia]. done. }
    destruct (lead_won_at w 1) as (cw & Kw & _ & HKw); [lia|]. pose proof (IH' w Hw cw Kw HKw) as Hag.
    apply (conflict_not_agree w t k Hcf). apply (agree_trans _ Kw); [|done].
    apply agree_sym, (agree_le _ _ (len Kw)); [by eapply lead_cand|]. destruct Hag as (? & ? & _). lia.
Qed.

(** The log of every later leader begins with what is committed. *)
Lemma completeness t k u : committed G t k -> t <= u -> is_Some (gh_won G u) -> agree (L u) (L t) k.
Proof.
  intros Hc Hu [c Hw]. destruct (decide (t = u)) as [->|Hne].
  { apply agree_refl. destruct Hc as (Hk & Ht & _). apply term_in_bound in Ht. lia. }
  destruct (gi_won _ _ HG u c Hw) as [K HK].
  pose proof (completeness_cand (Z.to_nat (u - t)) t k u c K (le_n _) Hc ltac:(lia) HK) as Hag.
  apply (agree_trans _ K); [|done]. apply agree_sym, (agree_le _ _ (len K)); [by eapply lead_cand|].
  destruct Hag as (? & ? & _). lia.
Qed.

Lemma lead_is_won u k : 0 < k <= len (L u) -> is_Some (gh_won G u).
Proof. intros Hk. destruct (lead_won_at u k Hk) as (c & K & -> & _). eauto. Qed.

Lemma committed_won t k : committed G t k -> is_Some (gh_won G t).
Proof. intros (Hk & Ht & _). apply term_in_bound in Ht. apply (lead_is_won t k). lia. Qed.

(** Committed prefixes agree. *)
Lemma committed_agree t k t' k' : committed G t k -> committed G t' k' -> agree (L t) (L t') (Z.min k k').
Proof.
  intros H H'. pose proof H as (Hk & _). pose proof H' as (Hk' & _). destruct (decide (t <= t')) as [Hle|Hgt].
  - apply agree_sym, (agree_le _ _ k); [|lia]. apply completeness; [done..|]. by eapply committed_won.
  - apply (agree_le _ _ k'); [|lia]. apply completeness; [done|lia|]. by eapply committed_won.
Qed.

Lemma committed_le t k k' : committed G t k -> 0 < k' <= k -> term_in (L t) k' = Some t -> committed G t k'.
Proof.
  intros (_ & _ & Q & HQ & Ha) Hk Ht. split_and!; [lia|done|]. exists Q. split; [done|].
  intros j Hj. destruct (Ha j Hj) as (m & Hm & Hle). exists m. split; [done|lia].
Qed.

Lemma committed_upto_le t F k k' : committed_upto G t F k -> 0 <= k' <= k -> committed_upto G t F k'.
Proof.
  intros [->|(T & m & Hc & HT & Hm & Ha)] Hk; [left; lia|]. right. exists T, m. split_and!; [done|done|lia|].
  by apply (agree_le _ _ k).
Qed.

Lemma committed_upto_term t t' F k : committed_upto G t F k -> t <= t' -> committed_upto G t' F k.
Proof. intros [->|(T & m & Hc & HT & H)] Hk; [by left|]. right. exists T, m. split_and!; [done|lia|apply H..]. Qed.

Lemma committed_upto_agree t F F' k : committed_upto G t F k -> agree F F' k -> committed_upto G t F' k.
Proof.
  intros [->|(T & m & Hc & HT & Hm & H)] Ha; [by left|]. right. exists T, m. split_and!; [done..|].
  by eapply agree_trans; [apply agree_sym|].
Qed.

(** A committed prefix is in the leader's log of every later term. *)
Lemma committed_upto_lead t F k u :
  committed_upto G t F k -> t <= u -> is_Some (gh_won G u) -> agree F (L u) k.
Proof.
  intros [->|(T & m & Hc & HT & Hm & Ha)] Hu Hn; [apply agree_zero|].
  pose proof (completeness T m u Hc ltac:(lia) Hn) as Hco. apply (agree_trans _ (L T)); [done|].
  apply agree_sym. apply (agree_le _ _ m); [done|]. destruct Ha. lia.
Qed.
End Facts.

(** ** What a node has stored *)

(** A log whose end does not follow its beginning: a snapshot up to [b] was stored
    over a log with other entries there, of which the later ones are still present. *)
Definition stale_tail (G : ghost) (t : Z) (F : list log_entry) (b : Z) : Prop :=
  0 < b < len F /\ exists T m, committed G T m /\ T <= t /\ b <= m /\ agree F (gh_lead G T) b /\
    forall k g, b < k -> term_in F k = Some g ->
      g <= t /\ term_in (gh_lead G g) k = Some g /\ pfx b (gh_lead G g) <> pfx b (gh_lead G T).

(** Node [i], whose stored term is [t], with whole log [F] of which [b] entries are
    in its snapshot. *)
Record kept (G : ghost) (i t : Z) (F : list log_entry) (b : Z) : Prop := {
  kp_shape : clean G F \/ stale_tail G t F b;
  kp_terms : forall k g, 0 < k -> term_in F k = Some g -> g <= t;
  kp_acks : forall u k, 0 < k -> ack G i u k -> term_in (gh_lead G u) k = Some u ->
    (agree F (gh_lead G u) k /\ u <= tail_term F) \/ exists w, u < w <= t /\ conflict G w u k;
  kp_past : (forall u m, (i, u, m) ∈ gh_acks G -> u <= t) /\ (forall u, gh_won G u = Some i -> u <= t) /\
    (forall u K, gh_cand G i u = Some K -> u <= t) /\ (forall u, (i, u) ∈ gh_seen G -> u <= t);
  kp_base : 0 <= b <= len F;
  kp_snap : committed_upto G t F b }.

Lemma stale_term G t t' F b : stale_tail G t F b -> t <= t' -> stale_tail G t' F b.
Proof.
  intros (Hb & T & m & H1 & H2 & H3 & H4 & H5) Ht. split; [done|]. exists T, m. split_and!; [done|lia|done|done|].
  intros k g Hk E. destruct (H5 k g Hk E) as (? & ? & ?). split_and!; [lia|done..].
Qed.

Lemma kept_term G i t t' F b : kept G i t F b -> t <= t' -> kept G i t' F b.
Proof.
  intros [H1 H2 H3 (H4 & H5 & H6 & H7) H8 H9] Ht. split; try done.
  - destruct H1; [by left|right]. by eapply stale_term.
  - intros k g Hk E. pose proof (H2 k g Hk E). lia.
  - intros u k Hk Ha E. destruct (H3 u k Hk Ha E) as [?|(w & Hw & Hc)]; [by left|right]. exists w. split; [lia|done].
  - split_and!; [intros u m H; apply H4 in H|intros u H; apply H5 in H|intros u K H; apply H6 in H|
      intros u H; apply H7 in H]; lia.
  - by eapply committed_upto_term.
Qed.

Section Kept.
Context (V : votes) (G : ghost) (HG : ghost_inv V G) (Hmem : NoDup members).
#[local] Abbreviation L := (gh_lead G).

(** Nothing above the base of a log with a stale tail matches a current leader's log. *)
Lemma stale_no_match t F b k g :
  stale_tail G t F b -> is_Some (gh_won G t) -> b < k -> term_in F k = Some g -> term_in (L t) k = Some g -> False.
Proof.
  intros (Hb & T & m & Hc & HT & Hm & Ha & Hall) Hn Hk E1 E2. destruct (Hall k g Hk E1) as (_ & E3 & Hne). apply Hne.
  pose proof (lead_clean V G HG t k g ltac:(lia) E2) as H1.
  pose proof (completeness V G HG Hmem T m t Hc HT Hn) as H2.
  apply (agree_le _ _ k b) in H1 as (_ & _ & <-); [|lia]. by apply (agree_le _ _ m b) in H2 as (_ & _ & ->); [|lia].
Qed.

Context (i t : Z) (F : list log_entry) (b : Z) (HK : kept G i t F b) (Hn : is_Some (gh_won G t)).

Lemma kept_base : agree F (L t) b.
Proof. eapply (committed_upto_lead V); [done|done|apply HK|lia|done]. Qed.

(** The log check of [AppendEntries]: the same term at an index above the base. *)
Lemma kept_match k g : b < k -> term_in F k = Some g -> term_in (L t) k = Some g -> agree F (L t) k.
Proof.
  intros Hk E1 E2. pose proof (kp_base _ _ _ _ _ HK). destruct (kp_shape _ _ _ _ _ HK) as [Hc|Hs].
  - eapply (clean_match G); [done|by eapply lead_clean|lia|done|done].
  - exfalso. by eapply stale_no_match.
Qed.

Lemma kept_agree_clean k : agree F (L t) k -> b < k -> clean G F.
Proof.
  intros Ha Hk. destruct (kp_shape _ _ _ _ _ HK) as [?|Hs]; [done|exfalso]. pose proof Ha as ((? & ?) & ? & _).
  destruct (term_in_is_Some F k) as [g E]; [lia|]. eapply stale_no_match; [done..|].
  by rewrite <- (agree_term _ _ _ k Ha) by lia.
Qed.

(** Own acknowledgements of a log that begins like the leader's. *)
Lemma lead_pfx_tail p k u : 0 < k <= p -> p <= len (L t) -> term_in (L t) k = Some u -> u <= tail_term (pfx p (L t)).
Proof.
  intros Hk Hp E. apply (sorted_tail _ k); [|lia|by rewrite term_in_pfx by lia].
  apply sorted_pfx. by eapply lead_sorted.
Qed.

(** An acknowledged entry that is not in the current leader's log. *)
Lemma kept_conflict u k c :
  ack G i u k -> agree F (L u) k -> 0 < c <= k -> c <= len (L t) -> pfx c F <> pfx c (L t) ->
  exists w, u < w <= t /\ conflict G w u k.
Proof.
  intros (m & Hm & _) Hag Hc HcL Hne. pose proof (proj1 (kp_past _ _ _ _ _ HK) u m Hm) as Hut.
  pose proof Hag as (_ & HkL & _). apply (agree_le _ _ k c) in Hag as (_ & _ & Ec); [|lia].
  exists t. split; [|exists c; rewrite <- Ec; split_and!; try done; lia].
  destruct (decide (u = t)) as [->|]; [by rewrite Ec in Hne|lia].
Qed.

(** The log is replaced by a prefix of the leader's, what is cut off being known to
    differ from it. *)
Lemma kept_replace p b' :
  b <= b' <= p -> p <= len (L t) -> committed_upto G t (L t) b' ->
  (p < len F -> exists c, 0 < c <= p + 1 /\ c <= len F /\ c <= len (L t) /\ pfx c F <> pfx c (L t)) ->
  kept G i t (pfx p (L t)) b'.
Proof.
  intros Hb Hp Hcu Hcut. pose proof (kp_base _ _ _ _ _ HK) as Hb0. split.
  - left. apply clean_pfx; [by eapply lead_clean|lia].
  - intros k g Hk E. apply term_in_bound in E as Hkb. rewrite len_pfx in Hkb by lia.
    rewrite term_in_pfx in E by lia. by eapply lead_term_le.
  - intros u k Hk Ha E.
    destruct (kp_acks _ _ _ _ _ HK u k Hk Ha E) as [[Hag Ht]|?]; [|by right].
    pose proof Hag as ((_ & HkF) & HkL & _).
    pose proof (fun c => kept_conflict u k c Ha Hag) as Hconf.
    destruct (decide (k <= p)) as [Hkp|Hkp].
    + destruct (agree_dec F (L t) k) as [Hagt|Hne]; [lia|lia| |right; apply (Hconf k); lia || done].
      left. split.
      * apply (agree_trans _ (L t)); [apply agree_pfx_le; lia|]. by apply (agree_trans _ F); [apply agree_sym|].
      * apply (lead_pfx_tail p k); [lia|done|]. rewrite <- (agree_term _ _ _ k Hagt) by lia.
        by rewrite (agree_term _ _ _ k Hag) by lia.
    + right. destruct Hcut as (c & Hc1 & Hc2 & Hc3 & Hne); [lia|]. apply (Hconf c); done || lia.
  - apply HK.
  - rewrite len_pfx by lia. lia.
  - eapply committed_upto_agree; [done|]. apply agree_sym, agree_pfx_le; lia.
Qed.

(** The base moves up to a snapshot the log agrees with. *)
Lemma kept_compact b' : b <= b' -> agree F (L t) b' -> committed_upto G t (L t) b' -> kept G i t F b'.
Proof.
  intros Hb Ha Hcu. split; try apply HK.
  - destruct (decide (b' = b)) as [->|Hne]; [apply HK|left]. apply (kept_agree_clean b'); [done|lia].
  - destruct Ha. lia.
  - eapply committed_upto_agree; [done|by apply agree_sym].
Qed.

(** A snapshot is stored over a log that disagrees with it, and the log stays: the
    crash between storing a received snapshot and cutting the log. *)
Lemma kept_stale li :
  b < li <= len (L t) -> committed_upto G t (L t) li -> term_in F li <> term_in (L t) li ->
  kept G i t (pfx li (L t) ++ drop (Z.to_nat li) F) li.
Proof.
  intros Hli Hcu Hdiff. pose proof (kp_base _ _ _ _ _ HK) as Hb0.
  destruct (decide (len F <= li)) as [Hshort|Hlong].
  { rewrite drop_ge, app_nil_r by (unfold len in *; lia). apply kept_replace; [lia|lia|done|lia]. }
  set (F' := pfx li (L t) ++ drop (Z.to_nat li) F).
  assert (len (pfx li (L t)) = li) as Hlen by (apply len_pfx; lia).
  assert (len F' = len F) as HlF by (unfold F'; unfold len in *; rewrite length_app, length_drop; lia).
  assert (agree F' (L t) li) as HaF.
  { apply agree_app_l, agree_pfx. lia. }
  assert (forall k, li < k -> term_in F' k = term_in F k) as Habove.
  { intros k Hk. rewrite !term_in_at by lia. unfold F'. rewrite lookup_app_r by (unfold len in Hlen; lia).
    rewrite lookup_drop. do 2 f_equal. unfold len in Hlen. lia. }
  assert (tail_term F' = tail_term F) as Htail.
  { pose proof (tail_term_in F') as E. rewrite HlF, Habove, tail_term_in in E by lia. congruence. }
  assert (pfx li F <> pfx li (L t)) as Hpne.
  { intros E. apply Hdiff. by rewrite <- (term_in_pfx F li li), <- (term_in_pfx (L t) li li), E by lia. }
  destruct Hcu as [?|(T & m & Hc & HT & Hm & HaT)]; [lia|]. split.
  - right. split; [lia|]. exists T, m. split_and!; [done..|by apply (agree_trans _ (L t))|].
    intros k g Hk E. rewrite Habove in E by done.
    assert (pfx li (L T) = pfx li (L t)) as -> by (by destruct HaT as (_ & _ & ->)).
    destruct (kp_shape _ _ _ _ _ HK) as [Hcl|(Hb & T0 & m0 & Hc0 & HT0 & Hm0 & Ha0 & Hall)].
    + pose proof (Hcl k g ltac:(lia) E) as Hag. split_and!; [by eapply (kp_terms _ _ _ _ _ HK k); [lia|]| |].
      * by rewrite <- (agree_term _ _ _ k Hag) by lia.
      * intros Eg. apply Hpne. rewrite <- Eg. by apply (agree_le _ _ k li) in Hag as (_ & _ & ->); [|lia].
    + destruct (Hall k g ltac:(lia) E) as (Hg & Eg & Hne). split_and!; [done..|]. intros Epf. apply Hne.
      pose proof (completeness V G HG Hmem T0 m0 t Hc0 HT0 Hn) as Hco.
      apply (agree_le _ _ m0 b) in Hco as (_ & _ & <-); [|lia].
      rewrite <- (pfx_pfx b li (L g)), <- (pfx_pfx b li (L t)) by lia. by rewrite Epf.
  - intros k g Hk E. destruct (decide (k <= li)) as [Hkl|Hkl].
    + rewrite (agree_term _ _ _ k HaF) in E by done. by eapply lead_term_le.
    + rewrite Habove in E by lia. by eapply (kp_terms _ _ _ _ _ HK).
  - intros u k Hk Ha E. destruct (kp_acks _ _ _ _ _ HK u k Hk Ha E) as [[Hag Ht]|?]; [|by right].
    pose proof Hag as ((_ & HkF) & HkL & _).
    pose proof (fun c => kept_conflict u k c Ha Hag) as Hconf.
    destruct (decide (k <= li)) as [Hkl|Hkl]; [|right; apply (Hconf li); done || lia].
    destruct (agree_dec F (L t) k) as [Hagt|Hne]; [lia|lia| |right; apply (Hconf k); lia || done].
    left. rewrite Htail. split; [|done]. apply (agree_trans _ (L t)); [by apply (agree_le _ _ li); [|lia]|].
    by apply (agree_trans _ F); [apply agree_sym|].
  - apply HK.
  - lia.
  - right. exists T, m. split_and!; [done..|]. by apply (agree_trans _ (L t)).
Qed.
End Kept.
End Ghost.
