(* ===== verification/RaftGrow.v ===== *)
(** * How the history of a cluster grows

    One step of a node adds to the history of [RaftGhost]: an acknowledgement, a
    candidacy, a won election, an entry of a leader.  Everything known stays known
    ([older]), the other nodes are not concerned ([kept_grow]), and the invariant
    of the history is kept. *)

From S2P Require Export RaftGhost.

#[local] Open Scope Z_scope.

Record older (G G' : ghost) : Prop := {
  od_lead : forall u, gh_lead G u `prefix_of` gh_lead G' u;
  od_won : forall u c, gh_won G u = Some c -> gh_won G' u = Some c;
  od_cand : forall c u K, gh_cand G c u = Some K -> gh_cand G' c u = Some K;
  od_acks : forall x, x ∈ gh_acks G -> x ∈ gh_acks G';
  od_seen : forall x, x ∈ gh_seen G -> x ∈ gh_seen G' }.

(** What is new is about node [i] in term [t]. *)
Record grow (i t : Z) (G G' : ghost) : Prop := {
  gr_older : older G G';
  gr_lead : forall u, gh_lead G' u = gh_lead G u \/ gh_won G' u = Some i;
  gr_acks : forall j u m, (j, u, m) ∈ gh_acks G' -> (j, u, m) ∈ gh_acks G \/ (j = i /\ u = t);
  gr_won : forall u c, gh_won G' u = Some c -> gh_won G u = Some c \/ (c = i /\ u = t);
  gr_cand : forall c u K, gh_cand G' c u = Some K -> gh_cand G c u = Some K \/ (c = i /\ u = t);
  gr_seen : forall j u, (j, u) ∈ gh_seen G' -> (j, u) ∈ gh_seen G \/ (j = i /\ u <= t) }.

#[global] Instance older_preorder : PreOrder older.
Proof.
  split; [by split|]. intros G1 G2 G3 [A1 A2 A3 A4 A5] [B1 B2 B3 B4 B5]. split; auto.
  intros u. by transitivity (gh_lead G2 u).
Qed.

Lemma grow_refl i t G : grow i t G G.
Proof. split; [reflexivity|auto..]. Qed.

Lemma grow_trans i t G1 G2 G3 : grow i t G1 G2 -> grow i t G2 G3 -> grow i t G1 G3.
Proof.
  intros [A1 A0 A2 A3 A4 A5] [B1 B0 B2 B3 B4 B5]. split; [by transitivity G2|..].
  - intros u. destruct (B0 u) as [->|?]; [|by right]. destruct (A0 u) as [->|?]; [by left|right]. by apply B1.
  - intros j u m H. apply B2 in H as [H|?]; [by apply A2|by right].
  - intros u c H. apply B3 in H as [H|?]; [by apply A3|by right].
  - intros c u K H. apply B4 in H as [H|?]; [by apply A4|by right].
  - intros j u H. apply B5 in H as [H|?]; [by apply A5|by right].
Qed.

Section Older.
Context (G G' : ghost) (HO : older G G').

Lemma lead_len u : len (gh_lead G u) <= len (gh_lead G' u).
Proof. destruct (od_lead _ _ HO u) as [X ->]. len_lia. Qed.

Lemma lead_pfx u k : k <= len (gh_lead G u) -> pfx k (gh_lead G' u) = pfx k (gh_lead G u).
Proof. intros Hk. destruct (od_lead _ _ HO u) as [X ->]. by apply pfx_app_l. Qed.

Lemma lead_term_old u k : k <= len (gh_lead G u) -> term_in (gh_lead G' u) k = term_in (gh_lead G u) k.
Proof. intros Hk. destruct (od_lead _ _ HO u) as [X ->]. by apply term_in_app_l. Qed.

Lemma lead_term_mono u k g : term_in (gh_lead G u) k = Some g -> term_in (gh_lead G' u) k = Some g.
Proof. intros E. rewrite lead_term_old; [done|]. apply term_in_bound in E. lia. Qed.

Lemma lead_nonempty u : gh_lead G u <> [] -> gh_lead G' u <> [].
Proof. intros H E. destruct (od_lead _ _ HO u) as [X EX]. rewrite E in EX. by destruct (gh_lead G u). Qed.

Lemma agree_lead_mono F u k : agree F (gh_lead G u) k -> agree F (gh_lead G' u) k.
Proof. apply agree_prefix_r, HO. Qed.

Lemma ack_mono j t k : ack G j t k -> ack G' j t k.
Proof. intros (m & Hm & Hk). exists m. split; [by apply HO|done]. Qed.

Lemma conflict_mono w t k : conflict G w t k -> conflict G' w t k.
Proof.
  intros (k' & Hk & H1 & H2 & Hne). pose proof (lead_len w). pose proof (lead_len t).
  exists k'. rewrite !lead_pfx by lia. split_and!; done || lia.
Qed.

Lemma clean_mono F : clean G F -> clean G' F.
Proof. intros Hc k g Hk E. by apply agree_lead_mono, Hc. Qed.

Lemma committed_mono members t k : committed members G t k -> committed members G' t k.
Proof.
  intros (Hk & Ht & Q & HQ & Ha). split_and!; [done|by apply lead_term_mono|]. exists Q. split; [done|].
  intros j Hj. by apply ack_mono, Ha.
Qed.

Lemma committed_upto_mono members t F k : committed_upto members G t F k -> committed_upto members G' t F k.
Proof.
  intros [->|(T & m & Hc & HT & Hm & Ha)]; [by left|right]. exists T, m.
  split_and!; [by apply committed_mono|done|done|by apply agree_lead_mono].
Qed.

Lemma stale_mono members t F b : stale_tail members G t F b -> stale_tail members G' t F b.
Proof.
  intros (Hb & T & m & Hc & HT & Hm & Ha & Hall). split; [done|]. exists T, m.
  split_and!; [by apply committed_mono|done|done|by apply agree_lead_mono|].
  intros k g Hk E. destruct (Hall k g Hk E) as (Hg & Et & Hne). split_and!; [done|by apply lead_term_mono|].
  apply term_in_bound in Et. destruct Ha as (_ & Hl & _). by rewrite !lead_pfx by lia.
Qed.
End Older.

(** Entries of term [t] up to [m] are acknowledged by [j], or committed anyway. *)
Definition acked (members : list Z) (G : ghost) (j t m : Z) : Prop :=
  m <= len (gh_lead G t) /\
  forall k, 0 < k <= m -> term_in (gh_lead G t) k = Some t -> ack G j t k \/ committed members G t k.

Lemma acked_mono members G G' j t m : older G G' -> acked members G j t m -> acked members G' j t m.
Proof.
  intros HO [Hm Ha]. split; [pose proof (lead_len _ _ HO t); lia|]. intros k Hk E.
  rewrite (lead_term_old G G') in E by (done || lia).
  destruct (Ha k Hk E); [left; by eapply ack_mono|right; by eapply committed_mono].
Qed.

Lemma acked_le members G j t m m' : acked members G j t m -> m' <= m -> acked members G j t m'.
Proof. intros [Hm Ha] Hle. split; [lia|]. intros k Hk. apply Ha. lia. Qed.

Lemma acked_zero members G j t m : m <= 0 -> acked members G j t m.
Proof. intros Hm. split; [len_lia|lia]. Qed.

(** ** Other nodes *)

Section Grow.
Context (members : list Z) (V : votes) (G G' : ghost) (HG : ghost_inv members V G) (i t : Z) (HG' : grow i t G G').

(** Acknowledgements that are not by [i] in [t] were there before. *)
Lemma ack_old j u k : ack G' j u k -> j <> i \/ u <> t -> ack G j u k.
Proof.
  intros (m & Hm & Hk) Hne. destruct (gr_acks _ _ _ _ HG' j u m Hm) as [?|[-> ->]]; [by exists m|tauto].
Qed.

Lemma ack_term_old j u k : ack G j u k -> term_in (gh_lead G' u) k = Some u -> term_in (gh_lead G u) k = Some u.
Proof.
  intros (m & Hm & Hk) E. pose proof (gi_acks _ _ _ HG j u m Hm).
  rewrite (lead_term_old G G') in E; [done|apply HG'|lia].
Qed.

Lemma kept_grow j u F b : j <> i -> kept members G j u F b -> kept members G' j u F b.
Proof.
  intros Hj [H1 H2 H3 (H4 & H5 & H6 & H7) H8 H9]. pose proof (gr_older _ _ _ _ HG') as HO. split; try done.
  - destruct H1; [left; by eapply clean_mono|right; by eapply stale_mono].
  - intros v k Hk Ha E. apply ack_old in Ha; [|by left]. apply (ack_term_old _ _ _ Ha) in E.
    destruct (H3 v k Hk Ha E) as [[Hag Ht]|(w & Hw & Hc)].
    + left. split; [by eapply agree_lead_mono|done].
    + right. exists w. split; [done|by eapply conflict_mono].
  - split_and!.
    + intros v m Hm. destruct (gr_acks _ _ _ _ HG' j v m Hm) as [?|[? _]]; [by eapply H4|done].
    + intros v Hw. destruct (gr_won _ _ _ _ HG' v j Hw) as [?|[? _]]; [by eapply H5|done].
    + intros v K Hc. destruct (gr_cand _ _ _ _ HG' j v K Hc) as [?|[? _]]; [by eapply H6|done].
    + intros v Hs. destruct (gr_seen _ _ _ _ HG' j v Hs) as [?|[? _]]; [by eapply H7|done].
  - by eapply committed_upto_mono.
Qed.

Lemma vote_facts_grow j u K : (j = i -> u <= t) -> vote_facts G j u K -> vote_facts G' j u K.
Proof.
  intros Hj Hf s k Hs Hk Ha E. apply ack_old in Ha; [|destruct (decide (j = i)); [right; subst; lia|by left]].
  apply (ack_term_old _ _ _ Ha) in E. destruct (Hf s k Hs Hk Ha E) as [?|(w & Hw & Hc)]; [by left|right].
  exists w. split; [done|]. eapply conflict_mono; [apply HG'|done].
Qed.

(** The invariant of the history: what has to be shown of the new facts. *)
Lemma ghost_inv_grow V' :
  (forall j u c, V j u = Some c -> V' j u = Some c) -> (forall u c, V' i u = Some c -> u <= t) ->
  (forall u c, gh_won G' u = Some c -> gh_won G u = None -> exists K, election members V' G' u c K) ->
  (forall u, is_Some (gh_won G u) -> exists X, gh_lead G' u = gh_lead G u ++ X /\ forall e, e ∈ X -> e_term e = u) ->
  (forall u, gh_won G' u = None -> gh_lead G' u = []) ->
  (forall u, contiguous 0 (gh_lead G' u)) ->
  (forall m, (i, t, m) ∈ gh_acks G' -> m <= len (gh_lead G' t)) ->
  (forall j u c K, V' j u = Some c -> gh_cand G' c u = Some K -> gh_won G' u = None ->
     vote_facts G' j u K \/ (V j u = Some c /\ gh_cand G c u = Some K)) ->
  (forall j u c, V' j u = Some c -> j <> c -> V j u = Some c \/ is_Some (gh_cand G' c u)) ->
  ghost_inv members V' G'.
Proof.
  intros HV Hpast Hnew Hlead Hnone Hcon Hacks Hvote Hcand. pose proof (gr_older _ _ _ _ HG') as HO. split; try done.
  - intros u c Hw. destruct (gh_won G u) as [c0|] eqn:E; [|by apply Hnew].
    assert (c0 = c) as -> by (apply (od_won _ _ HO) in E; congruence).
    destruct (gi_won _ _ _ HG u c E) as [K [E1 E2 E3 E4 E5 E6 (Q & HQ & Hv)]]. exists K. split; try done.
    + by apply HO.
    + by eapply clean_mono.
    + destruct E6 as (X & EL & HX). destruct (Hlead u ltac:(eauto)) as (Y & -> & HY). exists (X ++ Y).
      rewrite EL, app_assoc. split; [done|]. intros e [He|He]%elem_of_app; auto.
    + exists Q. split; [done|]. intros j Hj. destruct (Hv j Hj) as [Hjv Hf]. split; [by apply HV|].
      apply vote_facts_grow; [|done]. intros ->. by eapply Hpast, HV.
  - intros j u m Hm. destruct (gr_acks _ _ _ _ HG' j u m Hm) as [Ho|[-> ->]]; [|by apply Hacks].
    pose proof (gi_acks _ _ _ HG j u m Ho). pose proof (lead_len _ _ HO u). lia.
  - intros j u c K H1 H2 H3. destruct (Hvote j u c K H1 H2 H3) as [?|[H4 H5]]; [done|].
    apply vote_facts_grow; [intros ->; by eapply Hpast|]. eapply (gi_vote _ _ _ HG); [done|done|].
    destruct (gh_won G u) eqn:E; [|done]. apply (od_won _ _ HO) in E. congruence.
  - intros j u c H1 H2. destruct (Hcand j u c H1 H2) as [H3|?]; [|done].
    destruct (gi_cand _ _ _ HG j u c H3 H2) as [K HK]. exists K. by apply HO.
Qed.
End Grow.

(** ** The node itself *)

Section Own.
Context (members : list Z) (Hmem : NoDup members).

(** The node's own view of a step that adds acknowledgements in its term. *)
Lemma kept_grow_own V G G' i t F b :
  ghost_inv members V G -> grow i t G G' -> kept members G i t F b ->
  (forall k, 0 < k -> ack G' i t k -> term_in (gh_lead G' t) k = Some t -> agree F (gh_lead G' t) k /\ t <= tail_term F) ->
  kept members G' i t F b.
Proof.
  intros HG HG' [H1 H2 H3 (H4 & H5 & H6 & H7) H8 H9] Hnew. pose proof (gr_older _ _ _ _ HG') as HO. split; try done.
  - destruct H1; [left; by eapply clean_mono|right; by eapply stale_mono].
  - intros v k Hk Ha E. destruct (decide (v = t)) as [->|Hne]; [left; by apply Hnew|].
    apply (ack_old G G' i t HG') in Ha; [|by right]. apply (ack_term_old members V G G' HG i t HG' _ _ _ Ha) in E.
    destruct (H3 v k Hk Ha E) as [[Hag Ht]|(w & Hw & Hc)].
    + left. split; [by eapply agree_lead_mono|done].
    + right. exists w. split; [done|by eapply conflict_mono].
  - split_and!.
    + intros v m Hm. destruct (gr_acks _ _ _ _ HG' i v m Hm) as [?|[_ ->]]; [by eapply H4|lia].
    + intros v Hw. destruct (gr_won _ _ _ _ HG' v i Hw) as [?|[_ ->]]; [by eapply H5|lia].
    + intros v K Hc. destruct (gr_cand _ _ _ _ HG' i v K Hc) as [?|[_ ->]]; [by eapply H6|lia].
    + intros v Hs. destruct (gr_seen _ _ _ _ HG' i v Hs) as [?|[_ ?]]; [by eapply H7|lia].
  - by eapply committed_upto_mono.
Qed.

(** *** Acknowledging *)

Definition add_ack (G : ghost) (i t m : Z) : ghost :=
  mkGhost (gh_lead G) (gh_won G) (gh_cand G) ((i, t, m) :: gh_acks G) (gh_seen G).

Lemma add_ack_grow G i t m : grow i t G (add_ack G i t m).
Proof.
  split; cbn; [|auto|intros ? ? ? [[= -> -> ->]|?]%elem_of_cons; auto|auto..]. split; cbn; try done. intros x Hx. by right.
Qed.

Lemma add_ack_inv V G i t m :
  ghost_inv members V G -> (forall u c, V i u = Some c -> u <= t) -> m <= len (gh_lead G t) ->
  ghost_inv members V (add_ack G i t m).
Proof.
  intros HG Hp Hm. pose proof HG as [H1 H2 H3 H4 H5 H6].
  apply (ghost_inv_grow members V G _ HG i t (add_ack_grow G i t m)); cbn; auto.
  - intros u c E1 E2. congruence.
  - intros u _. exists []. rewrite app_nil_r. split; [done|]. intros e He. by apply elem_of_nil in He.
  - intros m' [[= ->]|Hin]%elem_of_cons; [done|]. by eapply H4.
Qed.

Lemma add_ack_kept V G i t m F b :
  ghost_inv members V G -> kept members G i t F b -> clean G F -> agree F (gh_lead G t) m ->
  kept members (add_ack G i t m) i t F b.
Proof.
  intros HG HK Hc Ha. eapply kept_grow_own; [done|apply add_ack_grow|done|]. cbn. intros k Hk (m' & Hm' & Hle) E.
  apply elem_of_cons in Hm' as [[= ->]|Hin].
  - split; [by apply (agree_le _ _ m); [|lia]|]. apply (sorted_tail _ k); [by eapply clean_sorted|done|].
    by rewrite (agree_term _ _ _ k Ha) by lia.
  - destruct (kp_acks _ _ _ _ _ _ HK t k Hk ltac:(by exists m') E) as [?|(w & Hw & _)]; [done|lia].
Qed.

(** An acknowledged prefix, whether or not the node's log has a stale tail behind it. *)
Lemma acknowledge V G i t m F b :
  ghost_inv members V G -> kept members G i t F b -> is_Some (gh_won G t) -> agree F (gh_lead G t) m ->
  (forall u c, V i u = Some c -> u <= t) ->
  exists G', grow i t G G' /\ ghost_inv members V G' /\ kept members G' i t F b /\ acked members G' i t m /\
    gh_lead G' = gh_lead G /\ gh_won G' = gh_won G /\ gh_cand G' = gh_cand G.
Proof.
  intros HG HK Hn Ha Hp. pose proof Ha as ((Hm0 & HmF) & HmL & _). destruct (kp_shape _ _ _ _ _ _ HK) as [Hc|Hs].
  - exists (add_ack G i t m). split_and!; [apply add_ack_grow|by apply add_ack_inv|by eapply add_ack_kept|split; [cbn; lia|]|done|done|done]. cbn.
    intros k Hk E. left. exists m. split; [left|lia].
  - exists G. split_and!; [apply grow_refl|done|done|split; [lia|]|done|done|done]. intros k Hk E. right.
    pose proof Hs as (Hb & T & m0 & Hcm & HT & Hm & HaT & _).
    assert (k <= b) as Hkb.
    { destruct (decide (k <= b)) as [?|Hgt]; [done|exfalso]. destruct (term_in_is_Some F k) as [g Eg]; [lia|].
      eapply (stale_no_match members V G HG Hmem t F b k g); [done|done|lia|done|].
      by rewrite <- (agree_term _ _ _ k Ha) by lia. }
    assert (term_in (gh_lead G T) k = Some t) as ET.
    { rewrite <- (agree_term _ _ _ k HaT), (agree_term _ _ _ k Ha) by lia. done. }
    assert (T = t) as ->.
    { pose proof (lead_term_le members V G HG T k t ltac:(lia) ET). lia. }
    eapply (committed_le members G t m0); [done|lia|done].
Qed.

(** *** Terms a node is known to have reached *)

Definition add_seen (G : ghost) (i t : Z) : ghost :=
  mkGhost (gh_lead G) (gh_won G) (gh_cand G) (gh_acks G) ((i, t) :: gh_seen G).

Lemma add_seen_grow G i t : grow i t G (add_seen G i t).
Proof.
  split; cbn; auto; [|intros ? ? [[= -> ->]|?]%elem_of_cons; [right; split; [done|lia]|by left]].
  split; cbn; try done. intros x Hx. by right.
Qed.

Lemma add_seen_inv V G i t : ghost_inv members V G -> ghost_inv members V (add_seen G i t).
Proof.
  intros [H1 H2 H3 H4 H5 H6]. split; try done. intros u c Hw. destruct (H1 u c Hw) as [K HK]. exists K.
  by destruct HK.
Qed.

Lemma add_seen_kept V G i t F b :
  ghost_inv members V G -> kept members G i t F b -> kept members (add_seen G i t) i t F b.
Proof.
  intros HG HK. eapply kept_grow_own; [done|apply add_seen_grow|done|]. cbn. intros k Hk Ha E.
  destruct (kp_acks _ _ _ _ _ _ HK t k Hk Ha E) as [?|(w & Hw & _)]; [done|lia].
Qed.

(** *** Voting *)

(** The comparison of [handle_request_vote]. *)
Definition at_most (F K : list log_entry) : Prop :=
  tail_term F < tail_term K \/ (tail_term F = tail_term K /\ len F <= len K).

Lemma conflict_unwon V G w t k : ghost_inv members V G -> gh_won G w = None -> conflict G w t k -> False.
Proof.
  intros HG Hw (k' & _ & Hk & _ & Hne). rewrite (gi_none _ _ _ HG w Hw) in *. unfold len in Hk. cbn in Hk.
  replace k' with 0 in Hne by lia. done.
Qed.

Lemma kept_vote_facts V G i u F b K :
  ghost_inv members V G -> kept members G i u F b -> gh_won G u = None -> at_most F K -> vote_facts G i u K.
Proof.
  intros HG HK Hw Hle t k Ht Hk Ha E. destruct (kp_acks _ _ _ _ _ _ HK t k Hk Ha E) as [[Hag Htt]|(w & Hwt & Hc)].
  - left. destruct Hag as ((_ & HkF) & _). unfold up_to_date. destruct Hle as [?|[? ?]]; lia.
  - right. exists w. split; [|done]. destruct (decide (w = u)) as [->|]; [|lia]. exfalso. by eapply conflict_unwon.
Qed.

(** A vote for [c] in term [u] is new. *)
Lemma add_vote_inv V V' G i u c F b :
  ghost_inv members V G -> kept members G i u F b ->
  (forall j v c', V j v = Some c' -> V' j v = Some c') ->
  (forall j v c', V' j v = Some c' -> V j v = Some c' \/ (j = i /\ v = u /\ c' = c)) ->
  (forall v c', V i v = Some c' -> v <= u) ->
  (forall K, gh_cand G c u = Some K -> gh_won G u = None -> at_most F K) ->
  (i <> c -> is_Some (gh_cand G c u)) -> ghost_inv members V' G.
Proof.
  intros HG HK Hm Hn Hp Hup Hcand. pose proof HG as [H1 H2 H3 H4 H5 H6].
  apply (ghost_inv_grow members V G G HG i u (grow_refl i u G)); auto.
  - intros v c' [Hv|(_ & -> & _)]%Hn; [by eapply Hp|lia].
  - intros v c' E1 E2. congruence.
  - intros v _. exists []. rewrite app_nil_r. split; [done|]. intros e He. by apply elem_of_nil in He.
  - intros m. apply H4.
  - intros j v c' K [Hv|(-> & -> & ->)]%Hn HcK Hw; [by right|]. left. by eapply kept_vote_facts; eauto.
  - intros j v c' [Hv|(-> & -> & ->)]%Hn Hne; [by left|right]. by apply Hcand.
Qed.

(** *** Standing for election *)

Definition add_cand (G : ghost) (i u : Z) (F : list log_entry) : ghost :=
  mkGhost (gh_lead G) (gh_won G)
    (fun c v => if bool_decide (c = i) && bool_decide (v = u) then Some F else gh_cand G c v) (gh_acks G) (gh_seen G).

Lemma add_cand_same G i u F : gh_cand (add_cand G i u F) i u = Some F.
Proof. cbn. by rewrite !bool_decide_true. Qed.

Lemma add_cand_cases G i u F c v K :
  gh_cand (add_cand G i u F) c v = Some K -> gh_cand G c v = Some K \/ (c = i /\ v = u /\ K = F).
Proof. cbn. repeat case_bool_decide; cbn; intros; simplify_eq; auto. Qed.

Lemma add_cand_grow G i u F : gh_cand G i u = None -> grow i u G (add_cand G i u F).
Proof.
  intros Hn. split; [|auto|auto|auto| |auto].
  - split; cbn; try done. intros c v K HK. repeat case_bool_decide; cbn; try done. congruence.
  - intros c v K H. apply add_cand_cases in H as [?|(? & ? & _)]; auto.
Qed.

Lemma stand V V' G i t u F b :
  ghost_inv members V G -> kept members G i t F b -> t < u ->
  (forall j v c', V j v = Some c' -> V' j v = Some c') ->
  (forall j v c', V' j v = Some c' -> V j v = Some c' \/ (j = i /\ v = u /\ c' = i)) ->
  (forall v c', V i v = Some c' -> v <= t) ->
  let G' := add_cand G i u F in
  grow i u G G' /\ ghost_inv members V' G' /\ kept members G' i u F b.
Proof.
  intros HG HK Htu Hm Hn Hp G'. pose proof HG as [H1 H2 H3 H4 H5 H6].
  pose proof (kp_past _ _ _ _ _ _ HK) as (_ & Hpw & Hpc & _).
  assert (gh_cand G i u = None) as Hnone.
  { destruct (gh_cand G i u) as [K|] eqn:E; [|done]. apply Hpc in E. lia. }
  pose proof (add_cand_grow G i u F Hnone) as Hg.
  assert (kept members G i u F b) as HKu by (eapply kept_term; [done|lia]).
  split_and!; [done| |].
  - apply (ghost_inv_grow members V G G' HG i u Hg); auto.
    + intros v c' [Hv|(_ & -> & _)]%Hn; [apply Hp in Hv; lia|lia].
    + intros v c' E1 E2. cbn in *. congruence.
    + intros v _. exists []. rewrite app_nil_r. split; [done|]. intros e He. by apply elem_of_nil in He.
    + intros m. apply H4.
    + intros j v c' K HV HcK Hw. apply add_cand_cases in HcK as [HcK|(-> & -> & ->)].
      * apply Hn in HV as [?|(-> & -> & ->)]; [by right|congruence].
      * left. assert (j = i) as ->.
        { destruct (decide (j = i)) as [?|Hne]; [done|]. apply Hn in HV as [HV|(? & _)]; [|done].
          apply H6 in HV; [|done]. rewrite Hnone in HV. by destruct HV. }
        eapply (vote_facts_grow members V G G' HG i u Hg); [lia|].
        eapply kept_vote_facts; [done|done|done|]. right. split; [done|lia].
    + intros j v c' [Hv|(-> & -> & ->)]%Hn Hne; [by left|done].
  - eapply kept_grow_own; [done|done|done|]. cbn. intros k Hk Ha E.
    destruct (kp_acks _ _ _ _ _ _ HKu u k Hk Ha E) as [?|(w & Hw & _)]; [done|lia].
Qed.

(** *** Leading *)

(** The log of the leader of [t] becomes [F], all of it in the leader's own log. *)
Definition set_lead (G : ghost) (i t : Z) (F : list log_entry) : ghost :=
  mkGhost (fun u => if bool_decide (u = t) then F else gh_lead G u)
    (fun u => if bool_decide (u = t) then Some i else gh_won G u) (gh_cand G) ((i, t, len F) :: gh_acks G) (gh_seen G).

Lemma set_lead_here G i t F : gh_lead (set_lead G i t F) t = F.
Proof. cbn. by rewrite bool_decide_true. Qed.

Lemma set_lead_other G i t F u : u <> t -> gh_lead (set_lead G i t F) u = gh_lead G u.
Proof. intros. cbn. by rewrite bool_decide_false. Qed.

Lemma set_lead_grow G i t F :
  gh_lead G t `prefix_of` F -> (gh_won G t = None \/ gh_won G t = Some i) -> grow i t G (set_lead G i t F).
Proof.
  intros Hp Hw. split; cbn; auto.
  - split; cbn; try done.
    + intros u. case_bool_decide; [by subst|done].
    + intros u c E. case_bool_decide; [subst|done]. destruct Hw; congruence.
    + intros x Hx. by right.
  - intros u. case_bool_decide; [by right|by left].
  - intros j u m [[= -> -> ->]|?]%elem_of_cons; auto.
  - intros u c. case_bool_decide; [intros [= ->]; subst; auto|auto].
Qed.

(** The log the leader has after its own appends. *)
Lemma lead_kept V G i t F b X :
  ghost_inv members V G -> kept members G i t F b -> clean G F -> grow i t G (set_lead G i t (F ++ X)) ->
  (forall e, e ∈ X -> e_term e = t) -> kept members (set_lead G i t (F ++ X)) i t (F ++ X) b.
Proof.
  intros HG HK Hc Hg HX. pose proof (gr_older _ _ _ _ Hg) as HO. set (G' := set_lead G i t (F ++ X)) in *.
  assert (forall k g, 0 < k -> term_in (F ++ X) k = Some g ->
    (k <= len F /\ term_in F k = Some g) \/ (len F < k /\ g = t)) as Hcase.
  { intros k g Hk E. destruct (decide (k <= len F)) as [Hin|Hout].
    - left. by rewrite term_in_app_l in E.
    - right. split; [lia|]. apply term_in_pos in E as (e & He & <-); [|done].
      rewrite lookup_app_r in He by (unfold len in *; lia). by apply list_elem_of_lookup_2, HX in He. }
  assert (clean G' (F ++ X)) as Hc'.
  { intros k g Hk E. destruct (Hcase k g Hk E) as [[Hin E']|[Hout ->]].
    - apply agree_app_l. eapply agree_lead_mono; [done|]. by apply Hc.
    - unfold G'. rewrite set_lead_here. apply agree_refl. apply term_in_bound in E. lia. }
  assert (sorted_terms (F ++ X)) as Hs.
  { apply (sorted_app _ _ t); [by eapply clean_sorted| |done]. intros k g. apply HK. }
  pose proof HK as [H1 H2 H3 (H4 & H5 & H6 & H7) H8 H9]. split; [by left|..].
  - intros k g Hk E. destruct (Hcase k g Hk E) as [[_ E']|[_ ->]]; [by eapply H2|lia].
  - intros u k Hk Ha E. destruct (decide (u = t)) as [->|Hne].
    + unfold G' in E. rewrite set_lead_here in E. left. unfold G'. rewrite set_lead_here. split.
      * apply agree_refl. apply term_in_bound in E. lia.
      * by apply (sorted_tail _ k).
    + apply (ack_old G G' i t Hg) in Ha; [|by right]. apply (ack_term_old members V G G' HG i t Hg _ _ _ Ha) in E.
      destruct (H3 u k Hk Ha E) as [[Hag Ht]|(w & Hw & Hcf)].
      * left. split; [apply agree_app_l; by eapply agree_lead_mono|]. apply (sorted_tail _ k); [done|done|].
        pose proof Hag as ((_ & ?) & _). rewrite term_in_app_l by lia. by rewrite (agree_term _ _ _ k Hag) by lia.
      * right. exists w. split; [done|by eapply conflict_mono].
  - split_and!.
    + intros v m Hm. destruct (gr_acks _ _ _ _ Hg i v m Hm) as [?|[_ ->]]; [by eapply H4|lia].
    + intros v Hw. destruct (gr_won _ _ _ _ Hg v i Hw) as [?|[_ ->]]; [by eapply H5|lia].
    + intros v K Hcd. destruct (gr_cand _ _ _ _ Hg i v K Hcd) as [?|[_ ->]]; [by eapply H6|lia].
    + intros v Hsn. destruct (gr_seen _ _ _ _ Hg i v Hsn) as [?|[_ ?]]; [by eapply H7|lia].
  - len_lia.
  - eapply committed_upto_mono; [done|]. eapply committed_upto_agree; [done|]. apply agree_app_r, agree_refl. lia.
Qed.

(** A leader appends entries of its term. *)
Lemma lead_append V G i t b X :
  ghost_inv members V G -> kept members G i t (gh_lead G t) b -> gh_won G t = Some i ->
  (forall u c, V i u = Some c -> u <= t) -> (forall e, e ∈ X -> e_term e = t) ->
  contiguous (len (gh_lead G t)) X ->
  let G' := set_lead G i t (gh_lead G t ++ X) in
  grow i t G G' /\ ghost_inv members V G' /\ kept members G' i t (gh_lead G t ++ X) b.
Proof.
  intros HG HK Hw Hp HX Hcon G'. pose proof HG as [H1 H2 H3 H4 H5 H6].
  assert (grow i t G G') as Hg by (apply set_lead_grow; [by eexists|by right]). split_and!; [done| |].
  - apply (ghost_inv_grow members V G G' HG i t Hg); auto.
    + intros u c. cbn. case_bool_decide; intros E1 E2; [subst|]; congruence.
    + intros u _. cbn. case_bool_decide as E; [subst; by exists X|]. exists []. rewrite app_nil_r. split; [done|].
      intros e He. by apply elem_of_nil in He.
    + intros u. cbn. case_bool_decide; [done|apply H2].
    + intros u. cbn. case_bool_decide; [|apply H3]. subst. rewrite contiguous_app. split; [apply H3|done].
    + intros m. unfold G'. rewrite set_lead_here. cbn. intros [[= ->]|Hm]%elem_of_cons; [lia|].
      apply H4 in Hm. len_lia.
  - eapply lead_kept; [done|done|by eapply lead_clean|done|done].
Qed.

(** A candidate with a majority of the votes does not have a stale tail. *)
Lemma winner_clean V G i u F b Q :
  ghost_inv members V G -> kept members G i u F b -> gh_won G u = None -> gh_cand G i u = Some F ->
  majority members Q -> (forall j, j ∈ Q -> V j u = Some i) -> clean G F.
Proof.
  intros HG HK Hw Hcd HQ HV. destruct (kp_shape _ _ _ _ _ _ HK) as [?|Hs]; [done|exfalso].
  destruct Hs as (Hb & T & m & Hc & HT & Hm & Ha & Hall).
  assert (T <> u) as HTu.
  { intros ->. apply (committed_won members V G HG) in Hc as [c ?]. congruence. }
  assert (forall w, T < w -> conflict G w T m -> False) as Hnoc.
  { intros w Hw' Hcf. apply (conflict_not_agree G w T m Hcf). eapply completeness; [done|done|done|lia|].
    destruct Hcf as (k' & _ & Hk & _ & Hne). apply (lead_is_won members V G HG w k').
    destruct (decide (k' = 0)) as [->|]; [done|lia]. }
  assert (term_in F (len F) = Some (tail_term F)) as Et by apply tail_term_in.
  destruct (Hall (len F) (tail_term F) ltac:(lia) Et) as (Hgu & Eg & Hne).
  assert (tail_term F <> T) as HgT by congruence.
  destruct (quorum_facts members G Hmem T m u F Q Hc ltac:(lia) HQ) as [[Hup|[Hup _]]|(w & Hwr & Hcf)].
  - intros j Hj. by eapply (gi_vote _ _ _ HG); [apply HV|..].
  - apply Hne. assert (is_Some (gh_won G (tail_term F))) as Hn.
    { apply (lead_is_won members V G HG _ (len F)). apply term_in_bound in Eg. lia. }
    pose proof (completeness members V G HG Hmem T m (tail_term F) Hc ltac:(lia) Hn) as Hco.
    by apply (agree_le _ _ m b) in Hco as (_ & _ & ->); [|lia].
  - done.
  - by apply (Hnoc w); [lia|].
Qed.

(** A candidate wins, and adds its own entries [X]. *)
Lemma win V G i u F b Q X :
  ghost_inv members V G -> kept members G i u F b -> 0 < u -> gh_won G u = None -> gh_cand G i u = Some F ->
  contiguous 0 F -> majority members Q -> (forall j, j ∈ Q -> V j u = Some i) ->
  (forall v c, V i v = Some c -> v <= u) -> (forall e, e ∈ X -> e_term e = u) -> contiguous (len F) X ->
  let G' := set_lead G i u (F ++ X) in
  grow i u G G' /\ ghost_inv members V G' /\ kept members G' i u (F ++ X) b.
Proof.
  intros HG HK Hu Hw Hcd HF HQ HV Hp HX Hcon G'. pose proof HG as [H1 H2 H3 H4 H5 H6].
  pose proof (winner_clean V G i u F b Q HG HK Hw Hcd HQ HV) as Hc.
  assert (grow i u G G') as Hg.
  { apply set_lead_grow; [|by left]. rewrite H2 by done. by eexists. }
  split_and!; [done| |by eapply lead_kept].
  apply (ghost_inv_grow members V G G' HG i u Hg); auto.
  - intros v c. cbn. case_bool_decide as E; [|congruence]. subst v. intros [= <-] _. exists F. split; try done.
    + eapply clean_mono; [apply Hg|done].
    + by eapply clean_sorted.
    + intros k g Hk E. pose proof (kp_terms _ _ _ _ _ _ HK k g Hk E). destruct (decide (g = u)) as [->|]; [|lia].
      destruct (Hc k u Hk E) as (_ & Hl & _). rewrite H2 in Hl by done. unfold len in Hl. cbn in Hl. lia.
    + exists X. split; [apply set_lead_here|done].
    + exists Q. split; [done|]. intros j Hj. split; [by apply HV|].
      eapply (vote_facts_grow members V G G' HG i u Hg); [lia|]. by eapply H5; [apply HV|..].
  - intros v [c Hv]. cbn. case_bool_decide as E; [subst; congruence|]. exists []. rewrite app_nil_r. split; [done|].
    intros e He. by apply elem_of_nil in He.
  - intros v. cbn. case_bool_decide; [done|apply H2].
  - intros v. cbn. case_bool_decide; [|apply H3]. rewrite contiguous_app. split; done.
  - intros m. unfold G'. rewrite set_lead_here. cbn. intros [[= ->]|Hm]%elem_of_cons; [lia|].
    apply H4 in Hm. rewrite H2 in Hm by done. unfold len in *. cbn in *. lia.
Qed.
End Own.
