(* ===== verification/RaftCore.v ===== *)
(** * The history behind one node

    [node_core G i s F]: the state of node [i] in a cluster with history [G], its
    whole log being [F].  [msg_ok]: what a message says about the history.  The
    handlers of raft/state.rs keep the former and send only the latter. *)

From S2P Require Export RaftGrow.

#[local] Open Scope Z_scope.

Section Core.
Context (members : list Z) (Hmem : NoDup members).
#[local] Abbreviation committed := (committed members).
#[local] Abbreviation committed_upto := (committed_upto members).
#[local] Abbreviation kept := (kept members).
#[local] Abbreviation ghost_inv := (ghost_inv members).
#[local] Abbreviation acked := (acked members).

Record leads (G : ghost) (i : Z) (s : raft_state) (F : list log_entry) : Prop := {
  ld_won : gh_won G (rs_current_term s) = Some i;
  ld_log : F = gh_lead G (rs_current_term s);
  ld_own : ack G i (rs_current_term s) (len F);
  ld_match : forall p, 0 <= get_or (rs_match_index s) p 0 /\
    acked G p (rs_current_term s) (get_or (rs_match_index s) p 0);
  ld_next : forall p, 1 <= get_or (rs_next_index s) p 1 <= len F + 1;
  ld_cursor : forall p x, rs_snapshot_cursor s !! p = Some x -> (p, rs_current_term s) ∈ gh_seen G }.

Record node_core (G : ghost) (i : Z) (s : raft_state) (F : list log_entry) : Prop := {
  nc_me : rs_me s = i;
  nc_term : 0 <= rs_current_term s;
  nc_log : full_log F (rs_log s);
  nc_wf : raft_wf s;
  nc_kept : kept G i (rs_current_term s) F (rl_base_index (rs_log s));
  nc_commit : committed_upto G (rs_current_term s) F (rs_commit_index s);
  nc_stale : clean G F \/ rs_commit_index s = rl_base_index (rs_log s);
  nc_lead : rs_role s = Leader -> leads G i s F;
  nc_cand : rs_role s = Candidate ->
    0 < rs_current_term s /\ gh_cand G i (rs_current_term s) = Some F /\ gh_won G (rs_current_term s) <> Some i }.

(** The entries of a leader's message, as a part of its log. *)
Definition lead_slice (G : ghost) (t prev : Z) (es : list log_entry) : Prop :=
  0 <= prev /\ prev + len es <= len (gh_lead G t) /\
  es = drop (Z.to_nat prev) (pfx (prev + len es) (gh_lead G t)).

Definition msg_ok (G : ghost) (p : Z) (m : message) : Prop :=
  match m with
  | RequestVote rv =>
    exists K, gh_cand G (rv_candidate_id rv) (rv_term rv) = Some K /\
      rv_last_log_term rv = tail_term K /\ rv_last_log_index rv = len K
  | RequestVoteResp _ => True
  | AppendEntries ae =>
    is_Some (gh_won G (ae_term ae)) /\ lead_slice G (ae_term ae) (ae_prev_log_index ae) (ae_entries ae) /\
    term_in (gh_lead G (ae_term ae)) (ae_prev_log_index ae) = Some (ae_prev_log_term ae) /\
    0 <= ae_leader_commit ae /\
    committed_upto G (ae_term ae) (gh_lead G (ae_term ae)) (ae_leader_commit ae)
  | AppendEntriesResp r =>
    0 <= aer_match_index r /\
    (aer_success r = true -> acked G (aer_responder_id r) (aer_term r) (aer_match_index r))
  | InstallSnapshot m =>
    is_Some (gh_won G (is_term m)) /\ 0 < is_last_index m /\
    term_in (gh_lead G (is_term m)) (is_last_index m) = Some (is_last_term m) /\
    committed_upto G (is_term m) (gh_lead G (is_term m)) (is_last_index m) /\
    (is_done m = true -> (p, is_term m) ∈ gh_seen G)
  | InstallSnapshotResp r =>
    isr_success r = true -> (isr_responder_id r, isr_term r) ∈ gh_seen G /\
      (0 < isr_installed_index r -> acked G (isr_responder_id r) (isr_term r) (isr_installed_index r))
  end.

(** What the driver is asked to do. *)
Record acts_ok (G : ghost) (s : raft_state) (acts : list action) : Prop := {
  ao_send : forall p m, SendTo p m ∈ acts -> msg_ok G p m;
  ao_bcast : forall m p, Broadcast m ∈ acts -> msg_ok G p m;
  ao_snap : forall p, SendSnapshot p ∈ acts -> rs_role s = Leader }.

(** ** Growth *)

Lemma msg_ok_mono G G' p m : older G G' -> msg_ok G p m -> msg_ok G' p m.
Proof.
  intros HO. destruct m as [rv|r|ae|r|m|r]; cbn; [| done | | | |].
  - intros (K & HK & ? & ?). exists K. split_and!; [by apply HO|done..].
  - intros ([c Hw] & (H1 & H2 & H3) & H4 & H5 & H6). apply (od_won _ _ HO) in Hw. split_and!; [by exists c| | |done|].
    + pose proof (lead_len _ _ HO (ae_term ae)). split_and!; [done|lia|].
      by rewrite (lead_pfx G G') by (done || lia).
    + by eapply lead_term_mono.
    + eapply committed_upto_mono; [done|]. eapply committed_upto_agree; [done|].
      destruct H6 as [->|(T & m & _ & _ & _ & (Hl & _))]; [apply agree_zero|].
      apply (agree_lead_mono G G' HO), agree_refl. lia.
  - intros [H1 H2]. split; [done|]. intros Hs. by eapply acked_mono, H2.
  - intros ([c Hw] & H1 & H2 & H3 & H4). apply (od_won _ _ HO) in Hw. split_and!; [by exists c|done| | |].
    + by eapply lead_term_mono.
    + eapply committed_upto_mono; [done|]. eapply committed_upto_agree; [done|].
      apply (agree_lead_mono G G' HO), agree_refl. apply term_in_bound in H2. lia.
    + intros Hd. by apply HO, H4.
  - intros Hr Hs. destruct (Hr Hs) as [H1 H2]. split; [by apply HO|]. intros Hi. by eapply acked_mono, H2.
Qed.

Lemma acts_ok_mono G G' s acts : older G G' -> acts_ok G s acts -> acts_ok G' s acts.
Proof. intros HO [H1 H2 H3]. split; [|..|done]; intros; eapply msg_ok_mono; eauto. Qed.

Lemma acts_ok_state G s s' acts :
  rs_role s' = rs_role s -> acts_ok G s acts -> acts_ok G s' acts.
Proof. intros Er [H1 H2 H3]. split; [done|done|]. by rewrite Er. Qed.

Lemma acts_ok_app G s a b : acts_ok G s a -> acts_ok G s b -> acts_ok G s (a ++ b).
Proof.
  intros [A1 A2 A3] [B1 B2 B3]. split.
  - intros p m [?|?]%elem_of_app; auto.
  - intros m p [?|?]%elem_of_app; auto.
  - intros p [?|?]%elem_of_app; eauto.
Qed.

Lemma acts_ok_nil G s : acts_ok G s [].
Proof. split; intros; by apply elem_of_nil in H || by apply elem_of_nil in H0. Qed.

Lemma acts_ok_cons G s a acts : acts_ok G s [a] -> acts_ok G s acts -> acts_ok G s (a :: acts).
Proof. apply (acts_ok_app G s [a]). Qed.

Lemma acts_ok_send G s p m : msg_ok G p m -> acts_ok G s [SendTo p m].
Proof. intros H. split; intros *; rewrite list_elem_of_singleton; intros [= -> ->] || intros [=]; done. Qed.

Lemma acts_ok_silent G s a : is_reset a = true \/ (exists e, a = Apply e) -> acts_ok G s [a].
Proof.
  intros Ha. split; intros *; rewrite list_elem_of_singleton; intros <-; cbn in Ha; destruct Ha as [|[? ?]]; done.
Qed.

(** ** States with the same log *)

Lemma leads_grow V G G' i s s' F :
  ghost_inv V G -> older G G' -> leads G i s F -> rs_current_term s' = rs_current_term s ->
  gh_lead G' (rs_current_term s) = gh_lead G (rs_current_term s) ->
  (forall p, get_or (rs_match_index s') p 0 = get_or (rs_match_index s) p 0 \/ get_or (rs_match_index s') p 0 = 0) ->
  (forall p, get_or (rs_next_index s') p 1 = get_or (rs_next_index s) p 1 \/ get_or (rs_next_index s') p 1 = 1) ->
  (forall p x, rs_snapshot_cursor s' !! p = Some x -> rs_snapshot_cursor s !! p = Some x) -> leads G' i s' F.
Proof.
  intros HG HO [H1 H2 H0 H3 H4 H5] Et El Hm Hn Hc. split.
  - rewrite Et. by apply HO.
  - by rewrite Et, El.
  - rewrite Et. by eapply ack_mono.
  - intros p. rewrite Et. destruct (Hm p) as [->| ->].
    + destruct (H3 p). split; [done|by eapply acked_mono].
    + split; [lia|by apply acked_zero].
  - intros p. destruct (Hn p) as [->| ->]; [apply H4|len_lia].
  - intros p x Hx. rewrite Et. by eapply HO, H5, Hc.
Qed.

(** A follower with the same log and commit index, in the same or a later term. *)
Lemma core_follower G i s s' F :
  node_core G i s F -> rs_role s' = Follower -> rs_me s' = rs_me s -> indices_of s' = indices_of s ->
  rs_current_term s <= rs_current_term s' -> node_core G i s' F.
Proof.
  intros [H1 H0 H2 H3 H4 H5 H6 H7 H8] Hr Hme Hix Ht. injection Hix as E1 E2 E3. split; rewrite ?E1, ?E2, ?Hr; try done.
  - by rewrite Hme.
  - lia.
  - unfold raft_wf in *. by rewrite E1, E2, E3.
  - by eapply kept_term.
  - by eapply committed_upto_term.
Qed.

Lemma core_step_down G i s t F :
  node_core G i s F -> rs_current_term s < t -> node_core G i (step_down_to s t) F.
Proof.
  intros Hc Ht. eapply core_follower; [done|done| |apply indices_step_down|];
    unfold step_down_to; rewrite (proj2 (Z.ltb_lt _ _)) by done; cbn; [done|lia].
Qed.

(** The same role, term, log and commit index. *)
Lemma core_same V G i s s' F :
  ghost_inv V G -> node_core G i s F -> rs_role s' = rs_role s -> rs_me s' = rs_me s ->
  rs_current_term s' = rs_current_term s -> rs_log s' = rs_log s -> rs_commit_index s' = rs_commit_index s ->
  rl_base_index (rs_log s) <= rs_last_applied s' <= rs_commit_index s ->
  (forall p, get_or (rs_match_index s') p 0 = get_or (rs_match_index s) p 0 \/ get_or (rs_match_index s') p 0 = 0) ->
  (forall p, get_or (rs_next_index s') p 1 = get_or (rs_next_index s) p 1 \/ get_or (rs_next_index s') p 1 = 1) ->
  (forall p x, rs_snapshot_cursor s' !! p = Some x -> rs_snapshot_cursor s !! p = Some x) -> node_core G i s' F.
Proof.
  intros HG [H1 H0 H2 (H3 & H3' & H3'') H4 H5 H6 H7 H8] Er Em Et El Ec Ha Hm Hn Hcu. split; rewrite ?Er, ?Et, ?El, ?Ec; try done.
  - by rewrite Em.
  - unfold raft_wf. rewrite El, Ec. split_and!; [apply H3..|lia|lia|lia].
  - intros Hl. eapply leads_grow; [done|reflexivity|by apply H7|done|done|done..].
Qed.
End Core.
