(* ===== verification/RaftHandlers.v ===== *)
(** * What the handlers of raft/state.rs do to the history *)

From S2P Require Export RaftCore.

#[local] Open Scope Z_scope.

(** ** The leader's maps across a configuration change *)

Record weaker (s s' : raft_state) : Prop := {
  wk_match : forall p, get_or (rs_match_index s') p 0 = get_or (rs_match_index s) p 0 \/ get_or (rs_match_index s') p 0 = 0;
  wk_next : forall p, get_or (rs_next_index s') p 1 = get_or (rs_next_index s) p 1 \/ get_or (rs_next_index s') p 1 = 1;
  wk_cursor : forall p x, rs_snapshot_cursor s' !! p = Some x -> rs_snapshot_cursor s !! p = Some x }.

#[global] Instance weaker_preorder : PreOrder weaker.
Proof.
  split.
  - split; auto.
  - intros s1 s2 s3 [A1 A2 A3] [B1 B2 B3]. split; [| |auto]; intros p.
    + destruct (B1 p) as [->| ->]; auto.
    + destruct (B2 p) as [->| ->]; auto.
Qed.

Lemma get_or_insert m k v d p : get_or (<[k := v]> m) p d = if bool_decide (p = k) then v else get_or m p d.
Proof.
  unfold get_or. case_bool_decide; [subst; by rewrite lookup_insert_eq|by rewrite lookup_insert_ne].
Qed.

Lemma get_or_delete m k d p : get_or (delete k m) p d = if bool_decide (p = k) then d else get_or m p d.
Proof.
  unfold get_or. case_bool_decide; [subst; by rewrite lookup_delete_eq|by rewrite lookup_delete_ne].
Qed.

Lemma remove_peer_weaker s id : weaker s (remove_peer s id).
Proof.
  split; cbn; intros p; rewrite ?get_or_delete; [by case_bool_decide; auto..|].
  intros x. rewrite lookup_delete_Some. tauto.
Qed.

Lemma add_peer_weaker s id : weaker s (add_peer s id).
Proof.
  unfold add_peer. destruct (negb _ && negb _); [|reflexivity]. split; cbn; intros p; rewrite ?get_or_insert; try done; case_bool_decide; auto.
Qed.

Lemma apply_config_weaker s add remove : weaker s (apply_config_change s add remove).
Proof.
  unfold apply_config_change. transitivity (fold_left add_peer add (fold_left remove_peer remove s)); [|by split; auto].
  transitivity (fold_left remove_peer remove s).
  - revert s. induction remove as [|x xs IH]; intros s; cbn; [reflexivity|].
    transitivity (remove_peer s x); [apply remove_peer_weaker|apply IH].
  - generalize (fold_left remove_peer remove s). clear s. induction add as [|x xs IH]; intros s; cbn; [reflexivity|].
    transitivity (add_peer s x); [apply add_peer_weaker|apply IH].
Qed.

Lemma drain_weaker fuel s : weaker s (fst (drain_loop fuel s)).
Proof.
  revert s. induction fuel as [|n IH]; intros s; cbn; [reflexivity|]. case_if; [|reflexivity].
  set (s1 := set_applied s (rs_last_applied s + 1)). assert (weaker s s1) as H1 by (split; auto).
  destruct (log_get _ _) as [e|]; [|by transitivity s1]. case_if; [by transitivity s1|].
  destruct (decode_config_change _) as [[add remove]|].
  - transitivity s1; [done|]. etransitivity; [apply apply_config_weaker|apply IH].
  - specialize (IH s1). destruct (drain_loop n s1). by transitivity s1.
Qed.

Section Handlers.
Context (members : list Z) (Hmem : NoDup members).
#[local] Abbreviation committed := (committed members).
#[local] Abbreviation committed_upto := (committed_upto members).
#[local] Abbreviation kept := (kept members).
#[local] Abbreviation ghost_inv := (ghost_inv members).
#[local] Abbreviation acked := (acked members).
#[local] Abbreviation leads := (leads members).
#[local] Abbreviation node_core := (node_core members).
#[local] Abbreviation msg_ok := (msg_ok members).
#[local] Abbreviation acts_ok := (acts_ok members).

Lemma drain_acts n s a : a ∈ snd (drain_loop n s) -> exists e, a = Apply e.
Proof.
  revert s. induction n as [|n IH]; intros s; cbn; [by intros ?%elem_of_nil|]. case_if; [|by intros ?%elem_of_nil].
  destruct (log_get _ _) as [e|]; [|apply IH]. case_if; [apply IH|].
  destruct (decode_config_change _) as [[add remove]|]; [apply IH|].
  specialize (IH (set_applied s (rs_last_applied s + 1))). destruct (drain_loop n _). cbn.
  intros [->|?]%elem_of_cons; [by eexists|by apply IH].
Qed.

Lemma drain_core V G i s F :
  ghost_inv V G -> node_core G i s F ->
  node_core G i (fst (drain_apply_actions s)) F /\ acts_ok G (fst (drain_apply_actions s)) (snd (drain_apply_actions s)).
Proof.
  intros HG Hc. pose proof (nc_wf _ _ _ _ _ Hc) as Hw. unfold drain_apply_actions.
  destruct (drain_loop_spec _ s Hw eq_refl) as (E1 & E2 & E3 & _).
  pose proof (elect_drain_loop (Z.to_nat (rs_commit_index s - rs_last_applied s)) s) as [= A1 A2 _ A3 _].
  pose proof (drain_weaker (Z.to_nat (rs_commit_index s - rs_last_applied s)) s) as [W1 W2 W3].
  pose proof (drain_acts (Z.to_nat (rs_commit_index s - rs_last_applied s)) s) as Hacts.
  destruct (drain_loop _ s) as [s' acts]. cbn [fst snd] in *. split.
  - eapply core_same; [done|done|done|done|done|done|done| |done..]. rewrite E3. destruct Hw as (_ & ? & ?). lia.
  - split; intros *; intros Hin; by apply Hacts in Hin as [? ?].
Qed.

(** ** Replication *)

Lemma take_bounded_prefix es a b n c : exists k, take_bounded es a b n c = take k es.
Proof.
  revert n c. induction es as [|e es IH]; intros n c; cbn; [by exists 0%nat|]. case_if; [by exists 0%nat|].
  destruct (IH (n + 1) (c + len (e_payload e))) as [k ->]. by exists (S k).
Qed.

Lemma slice_bounded_full F l next a b :
  full_log F l -> rl_base_index l < next <= len F + 1 ->
  exists m, 0 <= m /\ next - 1 + m <= len F /\
    slice_bounded l next a b = drop (Z.to_nat (next - 1)) (pfx (next - 1 + m) F) /\
    len (slice_bounded l next a b) = m.
Proof.
  intros H Hn. pose proof (fl_base _ _ H) as Hb. pose proof (full_wf _ _ H) as Hwf.
  assert (exists k, slice_bounded l next a b = take k (drop (Z.to_nat (next - 1)) F)) as [k Hk].
  { unfold slice_bounded. rewrite (full_last _ _ H). pose proof (fl_entries _ _ H) as He. destruct Hwf as [_ Hc].
    destruct (rl_entries l) as [|first es]; [by exists 0%nat|]. destruct Hc as [-> _].
    rewrite (proj2 (Z.eqb_neq next 0)) by lia. rewrite Z.max_l by lia. case_if; [by exists 0%nat|].
    destruct (take_bounded_prefix (drop (Z.to_nat (next - (rl_base_index l + 1))) (first :: es)) a b 0 0) as [k ->].
    exists k. rewrite He, drop_drop. do 2 f_equal. lia. }
  rewrite Hk. set (m := Nat.min k (length F - Z.to_nat (next - 1))). exists (Z.of_nat m).
  assert (take k (drop (Z.to_nat (next - 1)) F) = take m (drop (Z.to_nat (next - 1)) F)) as ->.
  { unfold m. destruct (Nat.min_spec k (length F - Z.to_nat (next - 1))) as [[? ->]|[? ->]]; [done|].
    rewrite !take_ge; [done|rewrite length_drop; lia..]. }
  split_and!.
  - lia.
  - unfold len in *. lia.
  - unfold pfx. rewrite skipn_firstn_comm. f_equal. lia.
  - unfold len. rewrite length_take, length_drop. lia.
Qed.

Lemma build_append_ok V G i s F p :
  ghost_inv V G -> node_core G i s F -> rs_role s = Leader ->
  rl_base_index (rs_log s) < get_or (rs_next_index s) p 1 -> msg_ok G p (build_append_for s p).
Proof.
  intros HG Hc Hr Hnext. destruct (nc_lead _ _ _ _ _ Hc Hr) as [L1 L2 _ L3 L4 L5].
  pose proof (nc_log _ _ _ _ _ Hc) as Hl. pose proof (fl_base _ _ Hl) as Hb. specialize (L4 p).
  unfold build_append_for. set (next := get_or (rs_next_index s) p 1) in *.
  assert (sat_sub_u64 next 1 = next - 1) as -> by (unfold sat_sub_u64; lia). cbn.
  destruct (slice_bounded_full F (rs_log s) next MAX_APPEND_ENTRIES MAX_APPEND_BYTES Hl ltac:(lia)) as (m & Hm & Hml & Es & El).
  set (es := slice_bounded _ _ _ _) in *. rewrite <- L2. split_and!.
  - by rewrite L1.
  - unfold lead_slice. rewrite <- L2, El. split_and!; [lia|lia|done].
  - rewrite (full_term_at _ _ Hl) by lia. destruct (term_in_is_Some F (next - 1)) as [g ->]; [lia|done].
  - destruct (nc_wf _ _ _ _ _ Hc) as (_ & ? & ?). lia.
  - apply Hc.
Qed.

Lemma replicate_ok V G i s F p :
  ghost_inv V G -> node_core G i s F -> rs_role s = Leader -> acts_ok G s [replicate_to s p].
Proof.
  intros HG Hc Hr. unfold replicate_to. destruct (_ <=? _) eqn:E.
  - split; intros *; rewrite list_elem_of_singleton; intros [=]. done.
  - boolp. apply acts_ok_send. by eapply build_append_ok.
Qed.

Lemma heartbeat_ok V G i s F : ghost_inv V G -> node_core G i s F -> acts_ok G s (on_heartbeat_tick s).
Proof.
  intros HG Hc. unfold on_heartbeat_tick. case_bool_decide as Hr; [|apply acts_ok_nil].
  induction (rs_peers s) as [|p ps IH]; cbn; [apply acts_ok_nil|].
  apply acts_ok_cons; [by eapply replicate_ok|done].
Qed.

(** ** Committing *)

Lemma all_or {A} (P : A -> Prop) (R : Prop) (l : list A) :
  (forall x, x ∈ l -> P x \/ R) -> (forall x, x ∈ l -> P x) \/ R.
Proof.
  induction l as [|x l IH]; intros H; [left; by intros ? ?%elem_of_nil|].
  destruct (H x) as [Hx|?]; [by left| |by right]. destruct IH as [IH|?]; [|left|by right].
  - intros y Hy. apply H. by right.
  - intros y [->|Hy]%elem_of_cons; auto.
Qed.

(** The members that hold [c], by the count of [majority_index]. *)
Lemma replicated_majority s i c :
  i :: rs_peers s ≡ₚ members -> quorum s <= replicated_on s c ->
  exists Q : gset Z, majority members Q /\
    forall j, j ∈ Q -> (j = i /\ c <= last_index (rs_log s)) \/ c <= get_or (rs_match_index s) j 0.
Proof.
  intros Hp Hq. set (ps := filter (fun p => c <= get_or (rs_match_index s) p 0) (rs_peers s)).
  set (me := if decide (c <= last_index (rs_log s)) then [i] else []).
  assert (replicated_on s c = len (me ++ ps)) as Hr.
  { unfold replicated_on, member_indices. rewrite filter_app. unfold len. rewrite !length_app, Nat.add_comm. do 2 f_equal.
    - unfold me. rewrite filter_cons. by case_decide.
    - unfold ps. clear. induction (rs_peers s) as [|p l IH]; [done|]. rewrite fmap_cons, !filter_cons.
      case_decide; cbn; by rewrite IH. }
  assert (NoDup (i :: rs_peers s)) as Hnd by (by rewrite Hp).
  apply NoDup_cons in Hnd as [Hi Hnd].
  assert (NoDup (me ++ ps)) as Hnd'.
  { apply NoDup_app. split_and!; [unfold me; case_decide; [apply NoDup_singleton|constructor]| |by apply NoDup_filter].
    intros x Hx Hin. apply list_elem_of_filter in Hin as [_ Hin]. unfold me in Hx. case_decide; [|by apply elem_of_nil in Hx].
    apply list_elem_of_singleton in Hx as ->. done. }
  exists (list_to_set (me ++ ps)). split; [split|].
  - intros j. rewrite elem_of_list_to_set. rewrite <- Hp. intros [Hj|Hj]%elem_of_app.
    + unfold me in Hj. case_decide; [apply list_elem_of_singleton in Hj as ->; by left|by apply elem_of_nil in Hj].
    + apply list_elem_of_filter in Hj as [_ Hj]. by right.
  - rewrite size_list_to_set by done. eapply quorum_majority; [done|]. unfold len in Hr. lia.
  - intros j. rewrite elem_of_list_to_set. intros [Hj|Hj]%elem_of_app.
    + left. unfold me in Hj. case_decide; [|by apply elem_of_nil in Hj]. by apply list_elem_of_singleton in Hj as ->.
    + right. by apply list_elem_of_filter in Hj as [? _].
Qed.

Lemma recompute_core V G i s F :
  ghost_inv V G -> node_core G i s F -> rs_role s = Leader -> i :: rs_peers s ≡ₚ members ->
  node_core G i (recompute_commit_index s) F.
Proof.
  intros HG Hc Hr Hp. pose proof (recompute_good s (nc_wf _ _ _ _ _ Hc)) as [Hwf' _].
  destruct (majority_index_spec s) as [Hq _]. unfold recompute_commit_index in *. destruct (_ <? _) eqn:Elt; [|done].
  case_bool_decide as Et; [|done]. boolp. set (c := majority_index s) in *.
  pose proof Hc as [H1 H0 H2 (H3 & H3' & H3'') H4 H5 H6 H7 H8]. pose proof (H7 Hr) as Hl. destruct Hl as [L1 L2 L0 L3 L4 L5].
  pose proof (fl_base _ _ H2) as Hb. rewrite (full_term_at _ _ H2) in Et by lia.
  pose proof (term_in_bound _ _ _ Et) as Hcb.
  assert (clean G F) as Hcl by (rewrite L2; by eapply lead_clean).
  assert (committed G (rs_current_term s) c) as Hcm.
  { split_and!; [lia|by rewrite <- L2|]. destruct (replicated_majority s i c Hp Hq) as (Q & HQ & Hhold).
    destruct (all_or (fun j => ack G j (rs_current_term s) c) (committed G (rs_current_term s) c) (elements Q)) as [Hall|Hcm].
    - intros j Hj. apply elem_of_elements, Hhold in Hj as [[-> _]|Hm].
      + left. destruct L0 as (m & Hm & Hle). exists m. split; [done|lia].
      + destruct (L3 j) as [_ [_ Ha]]. apply Ha; [lia|]. by rewrite <- L2.
    - exists Q. split; [done|]. intros j Hj. by apply Hall, elem_of_elements.
    - destruct Hcm as (_ & _ & Hx). exact Hx. }
  split; cbn; try done.
  - right. exists (rs_current_term s), c. split_and!; [done|lia|lia|]. rewrite <- L2. apply agree_refl. lia.
  - by left.
Qed.

Lemma recompute_same s :
  rs_role (recompute_commit_index s) = rs_role s /\ rs_log (recompute_commit_index s) = rs_log s.
Proof. unfold recompute_commit_index. by repeat case_match. Qed.

(** ** Winning *)

Lemma get_or_const l v d p : get_or (list_to_map ((fun p => (p, v)) <$> l)) p d = v \/ get_or (list_to_map ((fun p => (p, v)) <$> l)) p d = d.
Proof.
  unfold get_or. destruct (list_to_map _ !! p) eqn:E; [left|by right]. cbn.
  apply elem_of_list_to_map_2, list_elem_of_fmap in E as (q & [= -> ->] & _). done.
Qed.

(** The entries a new leader starts with. *)
Definition first_entries (s : raft_state) : list log_entry :=
  if rs_noop_on_elect s then [mkEntry (rs_current_term s) (last_index (rs_log s) + 1) []] else [].

Lemma become_leader_core V G i s F Q :
  ghost_inv V G -> node_core G i s F -> i :: rs_peers s ≡ₚ members ->
  0 < rs_current_term s -> gh_won G (rs_current_term s) = None -> gh_cand G i (rs_current_term s) = Some F ->
  majority members Q -> (forall j, j ∈ Q -> V j (rs_current_term s) = Some i) ->
  (forall v c, V i v = Some c -> v <= rs_current_term s) ->
  let G' := set_lead G i (rs_current_term s) (F ++ first_entries s) in
  grow i (rs_current_term s) G G' /\ ghost_inv V G' /\ node_core G' i (become_leader s) (F ++ first_entries s).
Proof.
  intros HG Hc Hp Hu Hw Hcd HQ HV Hpast G'. pose proof Hc as [H1 H0 H2 (H3 & H3' & H3'') H4 H5 H6 H7 H8].
  set (X := first_entries s) in *. pose proof (full_last _ _ H2) as Hlast.
  assert (forall e, e ∈ X -> e_term e = rs_current_term s) as HX.
  { intros e. unfold X, first_entries. destruct (rs_noop_on_elect s); [|by intros ?%elem_of_nil].
    by intros ->%list_elem_of_singleton. }
  assert (contiguous (len F) X) as HXc.
  { unfold X, first_entries. rewrite Hlast. by destruct (rs_noop_on_elect s). }
  destruct (win members Hmem V G i (rs_current_term s) F (rl_base_index (rs_log s)) Q X HG H4 Hu Hw Hcd
    (fl_contig _ _ H2) HQ HV Hpast HX HXc) as (Hg & HG' & HK'). fold G' in Hg, HG', HK'.
  split_and!; [done|done|]. unfold become_leader.
  set (s0 := if rs_noop_on_elect _ then _ else _).
  assert (full_log (F ++ X) (rs_log s0) /\ rl_base_index (rs_log s0) = rl_base_index (rs_log s) /\ rs_me s0 = i /\
    rs_current_term s0 = rs_current_term s /\ rs_commit_index s0 = rs_commit_index s /\
    rs_last_applied s0 = rs_last_applied s /\ rs_peers s0 = rs_peers s /\ rs_role s0 = Leader)
    as (Hfl & Eb & Em & Et & Eci & Ela & Eps & Er).
  { unfold s0, X, first_entries. cbn. destruct (rs_noop_on_elect s); cbn; split_and!; try done.
    - apply full_snoc; [done|]. cbn. by rewrite Hlast.
    - by rewrite app_nil_r. }
  assert (gh_lead G' (rs_current_term s) = F ++ X) as EL by apply set_lead_here.
  eapply recompute_core; [exact HG'| |done|cbn; by rewrite Eps].
  split; cbn; rewrite ?Et, ?Eci, ?Eb; try done.
  - unfold raft_wf. cbn. rewrite (full_last _ _ Hfl), Eb, Eci, Ela. split; [by eapply full_wf|]. split; [done|].
    rewrite Hlast in H3''. len_lia.
  - eapply committed_upto_mono; [apply Hg|]. eapply committed_upto_agree; [done|]. apply agree_app_r, agree_refl.
    pose proof (fl_base _ _ H2). lia.
  - left. rewrite <- EL. by eapply lead_clean.
  - intros _. rewrite (full_last _ _ Hfl). split; cbn; rewrite ?Et.
    + by rewrite bool_decide_true.
    + done.
    + exists (len (F ++ X)). split; [|done]. cbn. left.
    + intros p. assert (get_or (list_to_map ((fun p => (p, 0)) <$> rs_peers s0)) p 0 = 0) as ->
        by (destruct (get_or_const (rs_peers s0) 0 0 p); done).
      split; [done|by apply acked_zero].
    + intros p. destruct (get_or_const (rs_peers s0) (len (F ++ X) + 1) 1 p) as [->| ->]; len_lia.
    + intros p x Hx. by rewrite lookup_empty in Hx.
  - by rewrite Er.
Qed.
End Handlers.
