(* ===== verification/RaftFollow.v ===== *)
(** * Followers: entries and snapshots from a leader *)

From S2P Require Export RaftHandlers.

#[local] Open Scope Z_scope.

Section Follow.
Context (members : list Z) (Hmem : NoDup members).
#[local] Abbreviation committed := (committed members).
#[local] Abbreviation committed_upto := (committed_upto members).
#[local] Abbreviation kept := (kept members).
#[local] Abbreviation ghost_inv := (ghost_inv members).
#[local] Abbreviation acked := (acked members).
#[local] Abbreviation node_core := (node_core members).
#[local] Abbreviation msg_ok := (msg_ok members).
#[local] Abbreviation acts_ok := (acts_ok members).

(** ** The log check and the append *)

Section Append.
Context (V : votes) (G : ghost) (HG : ghost_inv V G).
Context (i t : Z) (F : list log_entry) (l : raft_log) (Hl : full_log F l) (HK : kept G i t F (rl_base_index l)).
Context (ae : append_entries) (Ht : ae_term ae = t) (Hm : msg_ok G i (AppendEntries ae)).
Context (Hcon : ae_consistent l ae = true).
#[local] Abbreviation P := (gh_lead G t).
#[local] Abbreviation prev := (ae_prev_log_index ae).
#[local] Abbreviation es := (ae_entries ae).
#[local] Abbreviation upto := (ae_prev_log_index ae + len (ae_entries ae)).

Lemma ae_won : is_Some (gh_won G t).
Proof. rewrite <- Ht. apply Hm. Qed.

Lemma ae_slice : 0 <= prev /\ upto <= len P /\ es = drop (Z.to_nat prev) (pfx upto P).
Proof. rewrite <- Ht. apply Hm. Qed.

Lemma ae_prev_agree : agree F P prev.
Proof.
  pose proof ae_slice as (Hp & Hu & _). pose proof (fl_base _ _ Hl) as Hb.
  pose proof (kept_base members V G HG Hmem i t F _ HK ae_won) as Hbase.
  unfold ae_consistent in Hcon. destruct (Z.eqb_spec prev 0) as [->|Hn]; [apply agree_zero|].
  destruct (Z.ltb_spec prev (rl_base_index l)) as [Hlt|Hge]; [by apply (agree_le _ _ (rl_base_index l)); [|lia]|].
  rewrite (full_term_at _ _ Hl) in Hcon by done. destruct (term_in F prev) as [g|] eqn:E; [|done].
  apply Z.eqb_eq in Hcon. destruct (decide (prev = rl_base_index l)) as [->|Hne]; [done|].
  eapply (kept_match members V G HG Hmem); [done|apply ae_won|lia|done|].
  destruct Hm as (_ & _ & Et & _). rewrite Ht in Et. by rewrite Et, Hcon.
Qed.

(** The term of a sent entry is the leader's. *)
Lemma ae_entry_term (j : nat) e : es !! j = Some e -> term_in P (prev + 1 + Z.of_nat j) = Some (e_term e).
Proof.
  intros He. pose proof ae_slice as (Hp & Hu & Es). rewrite Es, lookup_drop in He.
  unfold pfx in He. apply lookup_take_Some in He as [He _]. rewrite term_in_at by lia.
  replace (Z.to_nat (prev + 1 + Z.of_nat j - 1)) with (Z.to_nat prev + j)%nat by lia. by rewrite He.
Qed.

Lemma ae_append_at commit l' fc :
  es <> [] -> append_at l (prev + 1) es commit = Some (l', fc) ->
  match fc with
  | None => l' = l /\ agree F P upto
  | Some c =>
    full_log (pfx upto P) l' /\ rl_base_index l' = rl_base_index l /\ rl_base_index l < c <= len F + 1 /\
    prev < c <= upto /\ agree F P (c - 1) /\ (c <= len F -> commit < c /\ pfx c F <> pfx c P) /\
    drop (Z.to_nat (c - 1 - rl_base_index l)) (rl_entries l') = drop (Z.to_nat (c - 1)) (pfx upto P)
  end.
Proof.
  intros Hne Ha. pose proof ae_slice as (Hp & Hu & Es). pose proof ae_prev_agree as Hag.
  pose proof Hag as ((_ & HpF) & _ & _). pose proof (fl_base _ _ Hl) as Hb.
  pose proof (kept_base members V G HG Hmem i t F _ HK ae_won) as Hbase.
  pose proof (append_at_Some l (prev + 1) es commit l' fc (full_wf _ _ Hl)
    ltac:(rewrite (full_last _ _ Hl); lia) Ha) as (Hwf' & Eb & Ebt & Hfc).
  assert (forall (j : nat) e, es !! j = Some e -> rl_base_index l < prev + 1 + Z.of_nat j ->
    term_at l (prev + 1 + Z.of_nat j) = Some (e_term e) -> agree F P (prev + 1 + Z.of_nat j)) as Hmatch.
  { intros j e He Hj Et. rewrite (full_term_at _ _ Hl) in Et by lia.
    eapply (kept_match members V G HG Hmem); [done|apply ae_won|done|done|by apply ae_entry_term]. }
  assert (0 < len es) as Hlen by (destruct es; [done|]; unfold len; cbn; lia).
  destruct fc as [c|].
  - destruct Hfc as (Hc1 & Hc2 & Ee & Hc3 & Hc4 & Hc5). rewrite (full_last _ _ Hl) in *.
    assert (prev < c <= upto) as Hcr by (unfold len in *; lia).
    assert (agree F P (c - 1)) as Hagc.
    { destruct (decide (c - 1 <= rl_base_index l)); [by apply (agree_le _ _ (rl_base_index l)); [|lia]|].
      destruct (decide (c - 1 = prev)) as [->|Hnp]; [done|].
      destruct (lookup_lt_is_Some_2 es (Z.to_nat (c - 1 - (prev + 1)))) as [e He]; [unfold len in *; lia|].
      replace (c - 1) with (prev + 1 + Z.of_nat (Z.to_nat (c - 1 - (prev + 1)))) by lia.
      apply (Hmatch _ e He); [lia|]. apply Hc4; [done|lia]. }
    assert (drop (Z.to_nat (c - (prev + 1))) es = drop (Z.to_nat (c - 1)) (pfx upto P)) as Edrop.
    { rewrite Es at 1. rewrite drop_drop. f_equal. lia. }
    assert (contiguous (c - 1) (drop (Z.to_nat (c - 1)) (pfx upto P))) as Hcg.
    { eapply contiguous_drop; [apply contiguous_take, (gi_contig _ _ _ HG)|]. unfold pfx. rewrite length_take. unfold len in *. lia. }
    rewrite Edrop in Ee. rewrite assign_indices_id in Ee by done.
    assert (pfx (c - 1) F ++ drop (Z.to_nat (c - 1)) (pfx upto P) = pfx upto P) as Ejoin.
    { destruct Hagc as (_ & _ & ->). rewrite <- (pfx_pfx (c - 1) upto P) by lia. apply take_drop. }
    assert (rl_entries l' = drop (Z.to_nat (rl_base_index l)) (pfx upto P)) as Ee'.
    { rewrite Ee, (fl_entries _ _ Hl). rewrite <- Ejoin at 2. rewrite drop_app_le.
      - f_equal. unfold pfx. rewrite skipn_firstn_comm. f_equal. lia.
      - unfold pfx. rewrite length_take. unfold len in *. lia. }
    split_and!; try done; try lia.
    + split; [apply contiguous_take, (gi_contig _ _ _ HG)|rewrite len_pfx, Eb by lia; lia|by rewrite Eb|].
      rewrite Eb, Ebt, term_in_pfx by lia. rewrite <- (agree_term _ _ _ (rl_base_index l) Hbase) by lia. apply Hl.
    + intros HcF. destruct (Hc5 HcF) as [Hcm Hdiff]. split; [done|].
      destruct (lookup_lt_is_Some_2 es (Z.to_nat (c - (prev + 1)))) as [e He]; [unfold len in *; lia|].
      intros Epf. apply (Hdiff e He). rewrite (full_term_at _ _ Hl) by lia.
      pose proof (ae_entry_term _ e He) as Et. replace (prev + 1 + Z.of_nat _) with c in Et by lia.
      by rewrite <- (term_in_pfx F c c), Epf, term_in_pfx by lia.
    + rewrite Ee', drop_drop. f_equal. lia.
  - destruct Hfc as [-> Hall]. split; [done|].
    destruct (decide (upto <= rl_base_index l)); [by apply (agree_le _ _ (rl_base_index l)); [|lia]|].
    destruct (lookup_lt_is_Some_2 es (length es - 1)) as [e He]; [unfold len in *; lia|].
    replace upto with (prev + 1 + Z.of_nat (length es - 1)) by (unfold len in *; lia).
    apply (Hmatch _ e He); [unfold len in *; lia|]. apply Hall; [done|unfold len in *; lia].
Qed.

(** Any part of the append leaves an acceptable log. *)
Lemma ae_partial c p :
  rl_base_index l < c <= len F + 1 -> c <= upto -> agree F P (c - 1) -> (c <= len F -> pfx c F <> pfx c P) ->
  c - 1 <= p <= upto -> kept G i t (pfx p P) (rl_base_index l).
Proof.
  intros Hc1 Hc2 Hag Hdiff Hp. pose proof ae_slice as (_ & Hu & _). pose proof (fl_base _ _ Hl) as Hb.
  eapply (kept_replace members V G HG); [done|lia|lia| |].
  - eapply committed_upto_agree; [apply HK|]. apply (agree_le _ _ (c - 1)); [done|lia].
  - intros HpF. exists c. split_and!; [lia|lia|lia|lia|]. apply Hdiff. lia.
Qed.
End Append.

(** The state [ae_append] leaves. *)
Lemma ae_append_core V G i s F ae s' :
  ghost_inv V G -> node_core G i s F -> rs_role s = Follower -> ae_term ae = rs_current_term s ->
  msg_ok G i (AppendEntries ae) -> last_index (rs_log s) + 1 + len (ae_entries ae) < U64_MAX ->
  ae_consistent (rs_log s) ae = true -> ae_append s ae = Some s' ->
  exists F', node_core G i s' F' /\ rs_role s' = Follower /\ rs_current_term s' = rs_current_term s /\
    agree F' (gh_lead G (rs_current_term s)) (ae_prev_log_index ae + len (ae_entries ae)).
Proof.
  intros HG Hc Hr Ht Hm Hfit Hcon Ha. pose proof Hc as [H1 H0 H2 H3 H4 H5 H6 H7 H8].
  pose proof (ae_slice G i (rs_current_term s) ae Ht Hm) as (Hp & Hu & Es).
  pose proof (ae_prev_agree V G HG i _ F _ H2 H4 ae Ht Hm Hcon) as Hag.
  pose proof (ae_append_good s ae s' H3 Hp Hfit Hcon Ha) as [[Hwf' Hst] _].
  unfold ae_append in Ha. destruct (ae_entries ae) as [|e0 es0] eqn:Ees.
  { injection Ha as <-. exists F. split_and!; [done..|]. by replace (_ + len []) with (ae_prev_log_index ae) by len_lia. }
  assert (ae_entries ae <> []) as Hne by (by rewrite Ees). rewrite <- Ees in *.
  assert (sat_add_u64 (ae_prev_log_index ae) 1 = ae_prev_log_index ae + 1) as Esat.
  { destruct Hag as (? & _). rewrite (full_last _ _ H2) in Hfit. unfold sat_add_u64. len_lia. }
  rewrite Esat in Ha.
  destruct (append_at (rs_log s) (ae_prev_log_index ae + 1) (ae_entries ae) (rs_commit_index s)) as [[l' fc]|] eqn:Eap; [|done].
  pose proof (ae_append_at V G HG i _ F _ H2 H4 ae Ht Hm Hcon _ l' fc Hne Eap) as Hout. destruct fc as [c|]; injection Ha as <-.
  - destruct Hout as (Hfl & Eb & Hc1 & Hc2 & Hagc & Hdiff & _).
    exists (pfx (ae_prev_log_index ae + len (ae_entries ae)) (gh_lead G (rs_current_term s))).
    destruct H3 as (_ & [H3a H3b] & H3c). rewrite (full_last _ _ H2) in H3c.
    assert (rs_commit_index s <= c - 1) as Hcc by (destruct (decide (c <= len F)) as [h|]; [destruct (Hdiff h)|]; lia).
    pose proof (fl_base _ _ H2) as Hb.
    split_and!; [|done|done|apply agree_pfx; lia]. split; cbn; try done; rewrite ?Hr; try done.
    + rewrite Eb. eapply (ae_partial V G HG i _ F _ H2 H4 ae Ht Hm c); try done; try lia. intros h. by apply Hdiff.
    + eapply committed_upto_agree; [done|]. apply (agree_trans _ (gh_lead G (rs_current_term s))).
      * apply (agree_le _ _ (c - 1)); [done|lia].
      * apply agree_sym, agree_pfx_le; lia.
    + left. apply clean_pfx; [by eapply lead_clean|lia].
  - destruct Hout as [-> Hagu]. exists F. split_and!; [|done|done|done].
    eapply (core_follower members G i s); done.
Qed.

Lemma ae_commit_core V G i s F ae :
  ghost_inv V G -> node_core G i s F -> rs_role s = Follower -> ae_term ae = rs_current_term s ->
  msg_ok G i (AppendEntries ae) ->
  agree F (gh_lead G (rs_current_term s)) (ae_prev_log_index ae + len (ae_entries ae)) ->
  ae_prev_log_index ae + len (ae_entries ae) < U64_MAX ->
  node_core G i (ae_commit s ae) F.
Proof.
  intros HG Hc Hr Ht Hm Hag Hfit. unfold ae_commit.
  assert (sat_add_u64 (ae_prev_log_index ae) (len (ae_entries ae)) = ae_prev_log_index ae + len (ae_entries ae)) as ->
    by (unfold sat_add_u64; lia).
  destruct (_ <? _) eqn:E; [|done]. boolp. pose proof Hc as [H1 H0 H2 (H3 & H3' & H3'') H4 H5 H6 H7 H8].
  destruct Hm as (Hw & _ & _ & Hlc & Hcu). rewrite Ht in Hw, Hcu.
  set (n := ae_prev_log_index ae + len (ae_entries ae)) in *. pose proof Hag as ((Hn0 & HnF) & _ & _).
  rewrite (full_last _ _ H2) in H3''. pose proof (fl_base _ _ H2) as Hb.
  split; cbn; try done; rewrite ?Hr; try done.
  - unfold raft_wf. cbn. rewrite (full_last _ _ H2). split; [done|]. lia.
  - destruct (Z.max_spec (Z.min (ae_leader_commit ae) n) (rs_commit_index s)) as [[_ ->]|[_ ->]]; [done|].
    eapply committed_upto_agree; [eapply committed_upto_le; [exact Hcu|lia]|]. apply agree_sym, (agree_le _ _ n); [done|lia].
  - destruct H6 as [?|E6]; [by left|]. destruct (decide (n <= rl_base_index (rs_log s))) as [Hle|Hgt].
    + right. lia.
    + left. eapply (kept_agree_clean members V G HG Hmem); [done|done|done|lia].
Qed.

Lemma append_entries_core V G i s F ae :
  ghost_inv V G -> node_core G i s F -> ae_term ae <= rs_current_term s -> msg_ok G i (AppendEntries ae) ->
  last_index (rs_log s) + 1 + len (ae_entries ae) < U64_MAX ->
  (forall u c, V i u = Some c -> u <= rs_current_term s) ->
  let r := handle_append_entries s ae in
  rs_current_term (fst r) = rs_current_term s /\
  exists G' F', grow i (rs_current_term s) G G' /\ ghost_inv V G' /\ node_core G' i (fst r) F' /\
    acts_ok G' (fst r) (snd r).
Proof.
  intros HG Hc Ht Hm Hfit Hpast. cbv zeta. unfold handle_append_entries. destruct (_ <=? _) eqn:E1; boolp.
  2:{ cbn [fst snd]. split; [done|]. exists G, F. split_and!; [apply grow_refl|done|done|]. apply acts_ok_send. cbn.
      split; [lia|done]. }
  assert (ae_term ae = rs_current_term s) as Ete by lia. rewrite (proj2 (Z.ltb_ge _ _)) by lia.
  set (s1 := set_hint (set_role s Follower) (Some (ae_leader_id ae))).
  assert (node_core G i s1 F) as Hc1 by (eapply core_follower; try done; cbn; lia).
  pose proof (nc_log _ _ _ _ _ Hc1) as Hl1.
  assert (0 <= ae_prev_log_index ae) as Hp by (destruct Hm as (_ & (? & _) & _); done).
  destruct (if ae_consistent (rs_log s1) ae then ae_append s1 ae else None) as [s2|] eqn:Eap.
  - destruct (ae_consistent (rs_log s1) ae) eqn:Econ; [|done].
    destruct (ae_append_core V G i s1 F ae s2 HG Hc1 eq_refl Ete Hm Hfit Econ Eap) as (F' & Hc2 & Hr2 & Et2 & Hag).
    pose proof (ae_consistent_start (rs_log s1) ae (full_wf _ _ Hl1) Hp Econ) as Hps.
    assert (ae_prev_log_index ae + len (ae_entries ae) < U64_MAX) as Hfit2 by (cbn in *; lia).
    pose proof (ae_commit_core V G i s2 F' ae HG Hc2 Hr2 ltac:(rewrite Et2; done) Hm ltac:(by rewrite Et2) Hfit2) as Hc3.
    assert (rs_current_term (ae_commit s2 ae) = rs_current_term s) as Et3.
    { transitivity (rs_current_term s2); [unfold ae_commit; by case_if|exact Et2]. }
    assert (is_Some (gh_won G (rs_current_term s))) as Hw by (rewrite <- Ete; apply Hm).
    destruct (acknowledge members Hmem V G i (rs_current_term s) (ae_prev_log_index ae + len (ae_entries ae)) F'
      (rl_base_index (rs_log (ae_commit s2 ae))) HG) as (G' & Hg & HG' & HK' & Hack & EL & Ew & Ecd); [..|done|done|].
    { rewrite <- Et3. apply Hc3. }
    { done. }
    cbn [fst snd]. split; [done|]. exists G', F'. split_and!; [done|done| |].
    + pose proof Hc3 as [B1 B0 B2 B3 B4 B5 B6 B7 B8]. split; try done.
      * by rewrite Et3.
      * eapply committed_upto_mono; [apply Hg|done].
      * destruct B6; [left; eapply clean_mono; [apply Hg|done]|by right].
      * intros Hlead. exfalso. unfold ae_commit in Hlead. case_if_in Hlead; cbn in Hlead; congruence.
      * intros Hcand. exfalso. unfold ae_commit in Hcand. case_if_in Hcand; cbn in Hcand; congruence.
    + apply acts_ok_cons; [|apply acts_ok_silent; by left]. apply acts_ok_send. cbn.
      rewrite (nc_me _ _ _ _ _ Hc3), Et3. unfold sat_add_u64. rewrite Z.min_l by lia. split; [len_lia|done].
  - cbn [fst snd]. split; [done|]. exists G, F. split_and!; [apply grow_refl|done|done|].
    apply acts_ok_cons; [|apply acts_ok_silent; by left]. apply acts_ok_send. cbn. split; [|done].
    pose proof (full_last _ _ Hl1) as El. cbn in El. rewrite El. len_lia.
Qed.

(** ** Snapshots *)

Section Install.
Context (V : votes) (G : ghost) (HG : ghost_inv V G).
Context (i t : Z) (F : list log_entry) (l : raft_log) (Hl : full_log F l) (HK : kept G i t F (rl_base_index l)).
Context (m : install_snapshot) (Ht : is_term m = t) (Hm : msg_ok G i (InstallSnapshot m)).
#[local] Abbreviation P := (gh_lead G t).
#[local] Abbreviation li := (is_last_index m).

Lemma install_facts :
  is_Some (gh_won G t) /\ 0 < li <= len P /\ term_in P li = Some (is_last_term m) /\ committed_upto G t P li.
Proof.
  destruct Hm as (H1 & H2 & H3 & H4 & _). rewrite Ht in *. split_and!; try done. apply term_in_bound in H3. lia.
Qed.

(** The snapshot is in the log: only the base moves. *)
Lemma install_keeps :
  rl_base_index l < li -> term_at l li = Some (is_last_term m) ->
  agree F P li /\ kept G i t F li.
Proof.
  intros Hb Et. pose proof install_facts as (Hw & Hli & EP & Hcu). rewrite (full_term_at _ _ Hl) in Et by lia.
  assert (agree F P li) as Hag by (by eapply (kept_match members V G HG Hmem); [exact HK|exact Hw|lia|exact Et|exact EP]).
  split; [done|]. eapply (kept_compact members V G HG Hmem); [done|done|lia|done|done].
Qed.

(** It is not: the log is cut. *)
Lemma install_cuts :
  rl_base_index l < li -> term_at l li <> Some (is_last_term m) -> kept G i t (pfx li P) li.
Proof.
  intros Hb Et. pose proof install_facts as (Hw & Hli & EP & Hcu). rewrite (full_term_at _ _ Hl) in Et by lia.
  eapply (kept_replace members V G HG); [done|lia|lia|done|]. intros HF. exists li. split_and!; [lia|lia|lia|lia|].
  intros E. apply Et. by rewrite <- (term_in_pfx F li li), E, term_in_pfx by lia.
Qed.

(** Everything committed is in the snapshot or before it. *)
Lemma install_covers c :
  committed_upto G t F c -> term_at l li <> Some (is_last_term m) -> rl_base_index l < li -> c < li.
Proof.
  intros Hc Et Hb. pose proof install_facts as (Hw & Hli & EP & Hcu). rewrite (full_term_at _ _ Hl) in Et by lia.
  destruct (decide (c < li)) as [?|Hge]; [done|exfalso]. apply Et. rewrite <- EP.
  eapply agree_term; [eapply (committed_upto_lead members V G HG Hmem); [exact Hc|lia|done]|lia].
Qed.
End Install.

(** The commit and applied indices move up to the base of a new log. *)
Lemma raised_core G i s F :
  rs_role s = Follower -> rs_me s = i -> 0 <= rs_current_term s -> full_log F (rs_log s) ->
  kept G i (rs_current_term s) F (rl_base_index (rs_log s)) ->
  committed_upto G (rs_current_term s) F (Z.max (rs_commit_index s) (rl_base_index (rs_log s))) ->
  rs_last_applied s <= rs_commit_index s <= len F ->
  clean G F \/ rs_commit_index s <= rl_base_index (rs_log s) ->
  let li := rl_base_index (rs_log s) in
  let s1 := if rs_commit_index s <? li then set_commit s li else s in
  node_core G i (if rs_last_applied s1 <? li then set_applied s1 li else s1) F.
Proof.
  intros Hr Hme Ht Hl HK Hcu Ha Hcl. cbv zeta. set (li := rl_base_index (rs_log s)) in *.
  pose proof (fl_base _ _ Hl) as Hb. pose proof (full_wf _ _ Hl) as Hwf. fold li in Hb.
  assert (forall s', rs_role s' = Follower -> rs_me s' = i -> rs_current_term s' = rs_current_term s ->
    rs_log s' = rs_log s -> rs_commit_index s' = Z.max (rs_commit_index s) li ->
    rs_last_applied s' = Z.max (rs_last_applied s) li -> node_core G i s' F) as Hgen.
  { intros s' E1 E2 E3 E4 E5 E6. split; rewrite ?E1, ?E3, ?E4, ?E5; try done.
    - unfold raft_wf. rewrite E4, E5, E6, (full_last _ _ Hl). fold li. split; [done|]. lia.
    - destruct Hcl; [by left|right]. fold li. lia. }
  destruct (Z.ltb_spec (rs_commit_index s) li); cbn;
    (destruct (Z.ltb_spec (rs_last_applied s) li); cbn; apply Hgen; cbn; try done; lia).
Qed.

Lemma install_done_core V G i s F m :
  ghost_inv V G -> node_core G i s F -> rs_role s = Follower -> is_term m = rs_current_term s ->
  msg_ok G i (InstallSnapshot m) -> last_index (rs_log s) < U64_MAX ->
  exists F', node_core G i (install_done s m) F' /\
    agree F' (gh_lead G (rs_current_term s)) (Z.max (is_last_index m) (rl_base_index (rs_log (install_done s m)))).
Proof.
  intros HG Hc Hr Ht Hm Hfit. pose proof Hc as [H1 H0 H2 (H3 & [H3a H3b] & H3c) H4 H5 H6 H7 H8].
  pose proof (install_facts G i (rs_current_term s) m Ht Hm) as (Hw & Hli & EP & Hcu).
  pose proof (full_last _ _ H2) as El. rewrite El in Hfit, H3c. pose proof (fl_base _ _ H2) as Hb.
  unfold install_done. destruct (rl_base_index (rs_log s) <? is_last_index m) eqn:Eb; boolp.
  - unfold log_install_snapshot. case_bool_decide as Et.
    + rewrite (proj2 (Z.leb_le _ _)) by lia. cbn [andb].
      destruct (install_keeps V G HG i _ F _ H2 H4 m Ht Hm Eb Et) as [Hag HK].
      pose proof (full_compact F (rs_log s) (is_last_index m) (is_last_term m) H2) as Hfl.
      rewrite El, (full_term_at _ _ H2) in * by lia. specialize (Hfl ltac:(destruct Hag; lia) Et Hfit).
      assert (rl_base_index (compact_through (rs_log s) (is_last_index m) (is_last_term m)) = is_last_index m) as Ebase.
      { rewrite compact_through_eq; [done|by eapply full_wf|lia|done]. }
      set (s1 := push_pending _ _).
      assert (rl_base_index (rs_log s1) = is_last_index m) as Eb1 by exact Ebase. rewrite <- Eb1.
      exists F. pose proof Hag as ((_ & HF) & _). split.
      * apply raised_core; try done; rewrite ?Eb1; try done; cbn; try lia.
        -- destruct (Z.max_spec (rs_commit_index s) (is_last_index m)) as [[_ ->]|[_ ->]]; [|done].
           eapply committed_upto_agree; [done|by apply agree_sym].
        -- left. by apply (kept_agree_clean members V G HG Hmem i _ F _ H4 Hw (is_last_index m)).
      * repeat case_if; cbn -[s1]; rewrite Eb1, Z.max_id; done.
    + cbn [andb]. pose proof (install_covers V G HG i _ F _ H2 m Ht Hm _ H5 Et Eb) as Hcov.
      pose proof (install_cuts V G HG i _ F _ H2 H4 m Ht Hm Eb Et) as HK.
      set (P := gh_lead G (rs_current_term s)) in *.
      assert (full_log (pfx (is_last_index m) P) (mkLog [] (is_last_index m) (is_last_term m))) as Hfl.
      { split; cbn.
        - apply contiguous_take, (gi_contig _ _ _ HG).
        - rewrite len_pfx by lia. lia.
        - rewrite drop_ge; [done|]. unfold pfx. rewrite length_take. lia.
        - by rewrite term_in_pfx by lia. }
      set (s1 := push_pending _ _). change (is_last_index m) with (rl_base_index (rs_log s1)).
      exists (pfx (is_last_index m) P). split.
      * apply raised_core; try done; cbn; [|rewrite len_pfx by lia; lia|right; lia].
        rewrite Z.max_r by lia. eapply committed_upto_agree; [done|]. apply agree_sym, agree_pfx. lia.
      * repeat case_if; cbn; rewrite Z.max_id; apply agree_pfx; lia.
  - exists F. cbn. rewrite (proj2 (Z.ltb_ge (rs_commit_index s) _)), (proj2 (Z.ltb_ge (rs_last_applied s) _)) by lia.
    split; [done|]. rewrite Z.max_r by lia. by eapply (kept_base members V G HG Hmem).
Qed.

Lemma install_snapshot_core V G i s F m progress :
  ghost_inv V G -> node_core G i s F -> is_term m <= rs_current_term s -> msg_ok G i (InstallSnapshot m) ->
  last_index (rs_log s) < U64_MAX -> (forall u c, V i u = Some c -> u <= rs_current_term s) ->
  let r := handle_install_snapshot s m progress in
  rs_current_term (fst r) = rs_current_term s /\
  exists G' F', grow i (rs_current_term s) G G' /\ ghost_inv V G' /\ node_core G' i (fst r) F' /\
    acts_ok G' (fst r) (snd r).
Proof.
  intros HG Hc Ht Hm Hfit Hpast. cbv zeta. unfold handle_install_snapshot. destruct (_ <? _) eqn:E1; boolp.
  { cbn [fst snd]. split; [done|]. exists G, F. split_and!; [apply grow_refl|done|done|]. by apply acts_ok_send. }
  assert (is_term m = rs_current_term s) as Ete by lia. cbn [set_hint set_role rs_current_term].
  rewrite (proj2 (Z.ltb_ge (rs_current_term s) (is_term m))) by lia.
  set (s1 := set_hint (set_role s Follower) (Some (is_leader_id m))).
  assert (node_core G i s1 F) as Hc1 by (eapply core_follower; try done; cbn; lia).
  assert (is_Some (gh_won G (rs_current_term s))) as Hw by (rewrite <- Ete; apply Hm).
  set (s2 := if is_done m then install_done s1 m else s1).
  assert (rs_role s2 = Follower /\ rs_current_term s2 = rs_current_term s) as [Er2 Et2].
  { unfold s2. destruct (is_done m); [|done]. pose proof (elect_install_done s1 m) as [= _ -> _ -> _]. done. }
  assert (exists F', node_core G i s2 F' /\ agree F' (gh_lead G (rs_current_term s))
    (if is_done m then Z.max (is_last_index m) (rl_base_index (rs_log s2)) else 0)) as (F' & Hc2 & Hag).
  { unfold s2. destruct (is_done m); [|exists F; split; [done|apply agree_zero]].
    by apply (install_done_core V G i s1 F m HG Hc1). }
  set (idx := if is_done m then _ else 0) in *.
  destruct (acknowledge members Hmem V G i (rs_current_term s) idx F' (rl_base_index (rs_log s2)) HG)
    as (G1 & Hg & HG1 & HK1 & Hack & EL & Ew & Ecd); [by rewrite <- Et2; apply Hc2|done|done|done|].
  cbn [fst snd]. split; [done|]. exists (add_seen G1 i (rs_current_term s)), F'.
  pose proof (add_seen_grow G1 i (rs_current_term s)) as Hg2.
  assert (older G (add_seen G1 i (rs_current_term s))) as HO by (etransitivity; [apply Hg|apply Hg2]).
  split_and!.
  - by eapply grow_trans.
  - by apply add_seen_inv.
  - pose proof Hc2 as [B1 B0 B2 B3 B4 B5 B6 B7 B8]. split; try done; rewrite ?Et2, ?Er2; try done.
    + by eapply add_seen_kept.
    + rewrite Et2 in B5. by eapply committed_upto_mono.
    + destruct B6; [left; by eapply clean_mono|by right].
  - apply acts_ok_cons; [|apply acts_ok_silent; by left]. apply acts_ok_send. cbn [msg_ok isr_success isr_responder_id isr_term isr_installed_index].
    intros _. rewrite (nc_me _ _ _ _ _ Hc2), Et2. split; [left|]. intros _. eapply acked_mono; [apply Hg2|done].
Qed.
End Follow.
