(* ===== verification/RaftEvents.v ===== *)
(** * The events of a node and the history

    Leaders, candidates and voters, and every event of the node loop as a whole. *)

From S2P Require Export RaftFollow.

#[local] Open Scope Z_scope.

Lemma take_snapshot_hard s data through s' snap :
  take_snapshot s data through = Some (s', snap) ->
  rs_current_term s' = rs_current_term s /\ rs_voted_for s' = rs_voted_for s /\
  rs_pending s' = rs_pending s ++ [CompactThrough (ps_last_index snap)].
Proof.
  intros E. unfold take_snapshot in E. cbv zeta in E. destruct (_ || _); [done|]. destruct (term_at _ _); [|done].
  cbn in E. by injection E as <- <-.
Qed.

(** The votes before and after: only the vote in [s] may be new. *)
Lemma vote_step_same V V' i s0 s :
  vote_step V V' i s -> (forall c, rs_voted_for s0 = Some c -> V i (rs_current_term s0) = Some c) ->
  (rs_voted_for s = None \/ (rs_voted_for s = rs_voted_for s0 /\ rs_current_term s = rs_current_term s0)) ->
  forall j u c, V' j u = Some c <-> V j u = Some c.
Proof.
  intros [Hm Hn] Hv Hs j u c. split; [|apply Hm]. intros [?|(-> & -> & Ev)]%Hn; [done|].
  destruct Hs as [Hs|[E1 E2]]; [congruence|]. rewrite E2. apply Hv. congruence.
Qed.

Section Events.
Context (members : list Z) (Hmem : NoDup members).
#[local] Abbreviation committed := (committed members).
#[local] Abbreviation committed_upto := (committed_upto members).
#[local] Abbreviation kept := (kept members).
#[local] Abbreviation ghost_inv := (ghost_inv members).
#[local] Abbreviation acked := (acked members).
#[local] Abbreviation leads := (leads members).
#[local] Abbreviation node_core := (node_core members).
#[local] Abbreviation msg_ok := (msg_ok members).
#[local] Abbreviation acts_ok := (acts_ok members).

Lemma ghost_inv_same V V' G :
  ghost_inv V G -> (forall j u c, V' j u = Some c <-> V j u = Some c) -> ghost_inv V' G.
Proof.
  intros [H1 H2 H3 H4 H5 H6] HV. split; try done.
  - intros u c Hw. destruct (H1 u c Hw) as [K [E1 E2 E3 E4 E5 E6 (Q & HQ & Hq)]]. exists K. split; try done.
    exists Q. split; [done|]. intros j Hj. rewrite HV. by apply Hq.
  - intros j u c K Hv. rewrite HV in Hv. by apply H5.
  - intros j u c Hv. rewrite HV in Hv. by apply H6.
Qed.

(** What an event leaves behind. *)
Definition outcome_ok (V : votes) (G : ghost) (i : Z) (s : raft_state) (acts : list action) : Prop :=
  exists G' F', grow i (rs_current_term s) G G' /\ ghost_inv V G' /\ node_core G' i s F' /\ acts_ok G' s acts.

(** ** The leader *)

Lemma core_progress V G i s F m n c :
  ghost_inv V G -> node_core G i s F -> rs_role s = Leader ->
  (forall p, 0 <= get_or m p 0 /\ acked G p (rs_current_term s) (get_or m p 0)) ->
  (forall p, 1 <= get_or n p 1 <= len F + 1) ->
  (forall p x, c !! p = Some x -> (p, rs_current_term s) ∈ gh_seen G) ->
  node_core G i (set_progress s m n c) F.
Proof.
  intros HG [H1 H0 H2 H3 H4 H5 H6 H7 H8] Hr Hm Hn Hc. split; cbn; try done.
  intros _. destruct (H7 Hr) as [L1 L2 L0 L3 L4 L5]. by split.
Qed.

Lemma core_set_next V G i s F p x :
  ghost_inv V G -> node_core G i s F -> rs_role s = Leader -> 1 <= x <= len F + 1 -> node_core G i (set_next s p x) F.
Proof.
  intros HG Hc Hr Hx. destruct (nc_lead _ _ _ _ _ Hc Hr) as [L1 L2 L0 L3 L4 L5]. eapply core_progress; [done..| |done].
  intros q. rewrite get_or_insert. case_bool_decide; [lia|apply L4].
Qed.

Lemma replicate_after V G i s F (b : bool) p :
  ghost_inv V G -> node_core G i s F -> rs_role s = Leader -> acts_ok G s (if b then [replicate_to s p] else []).
Proof. intros HG Hc Hr. destruct b; [by eapply replicate_ok|apply acts_ok_nil]. Qed.

Lemma append_resp_core V G i s F r :
  ghost_inv V G -> node_core G i s F -> i :: rs_peers s ≡ₚ members -> msg_ok G i (AppendEntriesResp r) ->
  node_core G i (fst (handle_append_entries_resp s r)) F /\
  acts_ok G (fst (handle_append_entries_resp s r)) (snd (handle_append_entries_resp s r)).
Proof.
  intros HG Hc Hp [Hm0 Hm]. unfold handle_append_entries_resp. destruct (negb _ || negb _) eqn:E0.
  { split; [done|apply acts_ok_nil]. }
  apply orb_false_iff in E0 as [E1 E2]. boolp. apply bool_decide_eq_true in E1.
  pose proof (nc_lead _ _ _ _ _ Hc E1) as [L1 L2 L0 L3 L4 L5]. pose proof (nc_log _ _ _ _ _ Hc) as Hl.
  rewrite (full_last _ _ Hl). set (q := aer_responder_id r) in *. destruct (L3 q) as [Hq0 Hq].
  destruct (aer_success r).
  - set (mi := Z.min (aer_match_index r) (len F)). set (cur := get_or (rs_match_index s) q 0) in *.
    assert (acked G q (rs_current_term s) mi) as Hmi.
    { rewrite <- E2. eapply acked_le; [by apply Hm|lia]. }
    assert (cur <= len F) as Hcur by (destruct Hq as [? _]; rewrite L2; lia).
    set (s1 := if cur <? mi then set_match s q mi else s).
    assert (node_core G i s1 F /\ rs_role s1 = Leader) as [Hc1 Hr1].
    { unfold s1. destruct (cur <? mi); [|done]. split; [|done]. eapply core_progress; [done..| |done|done].
      intros p. rewrite get_or_insert. case_bool_decide; [subst; split; [lia|done]|apply L3]. }
    assert (node_core G i (set_next s1 q (sat_add_u64 (Z.max mi cur) 1)) F) as Hc2.
    { eapply core_set_next; [done..|]. unfold sat_add_u64. assert (0 < U64_MAX) by (vm_compute; done). lia. }
    assert (i :: rs_peers s1 ≡ₚ members) as Hp1 by (unfold s1; by destruct (cur <? mi)).
    pose proof (recompute_core members Hmem V G i _ F HG Hc2 Hr1 Hp1) as Hc3.
    cbn [fst snd]. split; [done|]. eapply replicate_after; [done|done|].
    destruct (recompute_same (set_next s1 q (sat_add_u64 (Z.max mi cur) 1))) as [-> _]. done.
  - cbn [fst snd]. set (nx := Z.max _ 1).
    assert (1 <= nx <= len F + 1) as Hnx.
    { unfold nx. specialize (L4 q). unfold sat_sub_u64. len_lia. }
    assert (node_core G i (set_next s q nx) F) as Hc1 by (by eapply core_set_next).
    split; [done|]. by eapply replicate_ok.
Qed.

Lemma snapshot_resp_core V G i s F r :
  ghost_inv V G -> node_core G i s F -> i :: rs_peers s ≡ₚ members -> msg_ok G i (InstallSnapshotResp r) ->
  node_core G i (fst (handle_install_snapshot_resp s r)) F /\
  acts_ok G (fst (handle_install_snapshot_resp s r)) (snd (handle_install_snapshot_resp s r)).
Proof.
  intros HG Hc Hp Hm. unfold handle_install_snapshot_resp. destruct (negb _ || negb _) eqn:E0.
  { split; [done|apply acts_ok_nil]. }
  apply orb_false_iff in E0 as [E1 E2]. boolp. apply bool_decide_eq_true in E1.
  pose proof (nc_lead _ _ _ _ _ Hc E1) as [L1 L2 L0 L3 L4 L5]. pose proof (nc_log _ _ _ _ _ Hc) as Hl.
  rewrite (full_last _ _ Hl). set (q := isr_responder_id r) in *. destruct (L3 q) as [Hq0 Hq].
  destruct (isr_success r) eqn:Es; [|split; [done|apply acts_ok_nil]]. cbn [negb].
  destruct (Hm Es) as [Hseen Hinst]. rewrite E2 in *. destruct (0 <? isr_installed_index r) eqn:E3; boolp.
  - set (cur := get_or (rs_match_index s) q 0) in *.
    assert (cur <= len F) as Hcur by (destruct Hq as [? _]; rewrite L2; lia).
    set (mi := Z.max cur (Z.min (isr_installed_index r) (len F))).
    assert (acked G q (rs_current_term s) mi) as Hmi.
    { unfold mi. destruct (Z.max_spec cur (Z.min (isr_installed_index r) (len F))) as [[_ ->]|[_ ->]]; [|done].
      eapply acked_le; [by apply Hinst|lia]. }
    set (s1 := set_progress _ _ _ _).
    assert (node_core G i s1 F) as Hc1.
    { apply (core_progress V G i (set_next (set_match s q mi) q (mi + 1))); [done| |done|..]; cbn.
      - eapply core_set_next; [done| |done|lia]. eapply core_progress; [done..| |done|done].
        intros p. rewrite get_or_insert. case_bool_decide; [subst; split; [lia|done]|apply L3].
      - intros p. rewrite get_or_insert. case_bool_decide; [subst; split; [lia|done]|apply L3].
      - intros p. rewrite get_or_insert. case_bool_decide; [lia|apply L4].
      - intros p x [_ Hx]%lookup_delete_Some. by eapply L5. }
    pose proof (recompute_core members Hmem V G i s1 F HG Hc1 E1 Hp) as Hc2. cbn [fst snd]. split; [done|].
    eapply replicate_after; [done|done|]. destruct (recompute_same s1) as [-> _]. done.
  - cbn [fst snd]. split.
    + eapply core_progress; [done..|]. intros p x Hx. apply lookup_insert_Some in Hx as [[<- _]|[_ Hx]]; [done|by eapply L5].
    + split; intros *; rewrite list_elem_of_singleton; intros [=]. done.
Qed.

Lemma append_local_core V G i s F payload :
  ghost_inv V G -> node_core G i s F -> rs_role s = Leader -> (forall u c, V i u = Some c -> u <= rs_current_term s) ->
  let e := mkEntry (rs_current_term s) (last_index (rs_log s) + 1) payload in
  let G' := set_lead G i (rs_current_term s) (F ++ [e]) in
  grow i (rs_current_term s) G G' /\ ghost_inv V G' /\ node_core G' i (fst (append_local s payload)) (F ++ [e]).
Proof.
  intros HG Hc Hr Hpast e G'. pose proof Hc as [H1 H0 H2 (H3 & H3' & H3'') H4 H5 H6 H7 H8].
  destruct (H7 Hr) as [L1 L2 L0 L3 L4 L5]. pose proof (full_last _ _ H2) as El.
  destruct (lead_append members V G i (rs_current_term s) (rl_base_index (rs_log s)) [e] HG) as (Hg & HG' & HK'); try done.
  { by rewrite <- L2. }
  { intros x ->%list_elem_of_singleton. done. }
  { rewrite <- L2. cbn. rewrite El. done. }
  rewrite <- L2 in *. fold G' in Hg, HG', HK'. split_and!; [done|done|].
  assert (full_log (F ++ [e]) (set_entries (rs_log s) (rl_entries (rs_log s) ++ [e]))) as Hfl.
  { apply full_snoc; [done|]. cbn. by rewrite El. }
  pose proof (gr_older _ _ _ _ Hg) as HO. pose proof (fl_base _ _ H2) as Hb. rewrite El in H3''.
  split; cbn; try done; rewrite ?Hr; try done.
  - pose proof (full_last _ _ Hfl) as El'. pose proof (full_wf _ _ Hfl) as Hwf'. unfold raft_wf. cbn. fold e.
    rewrite El'. split; [done|]. len_lia.
  - eapply committed_upto_mono; [done|]. eapply committed_upto_agree; [done|]. apply agree_app_r, agree_refl. lia.
  - left. assert (gh_lead G' (rs_current_term s) = F ++ [e]) as <- by apply set_lead_here. by eapply lead_clean.
  - intros _. split; cbn.
    + by rewrite bool_decide_true.
    + by rewrite bool_decide_true.
    + exists (len (F ++ [e])). split; [left|done].
    + intros p. destruct (L3 p). split; [done|by eapply acked_mono].
    + intros p. specialize (L4 p). len_lia.
    + intros p x Hx. by eapply L5.
Qed.

(** ** Voters and candidates *)

Lemma request_vote_core V V' G i s F rv :
  ghost_inv V G -> node_core G i s F -> rv_term rv <= rs_current_term s -> msg_ok G i (RequestVote rv) ->
  (forall u c, V i u = Some c -> u <= rs_current_term s) ->
  (forall c, rs_voted_for s = Some c -> V i (rs_current_term s) = Some c) ->
  vote_step V V' i (fst (handle_request_vote s rv)) ->
  ghost_inv V' G /\ node_core G i (fst (handle_request_vote s rv)) F /\
  acts_ok G (fst (handle_request_vote s rv)) (snd (handle_request_vote s rv)).
Proof.
  intros HG Hc Ht (K & HK & Elt & Eli) Hpast Hvoted Hvs. unfold handle_request_vote in *.
  pose proof (nc_log _ _ _ _ _ Hc) as Hl. rewrite (full_last _ _ Hl), (full_last_term _ _ Hl) in *.
  set (up := (_ <? _) || _) in *. set (grant := _ && (up && _)) in *.
  assert (forall s', acts_ok G s' (SendTo (rv_candidate_id rv) (RequestVoteResp (mkRVR (rs_current_term s') grant (rs_me s')))
    :: if grant then [ResetElectionTimer] else [])) as Hacts.
  { intros s'. apply acts_ok_cons; [by apply acts_ok_send|]. destruct grant; [apply acts_ok_silent; by left|apply acts_ok_nil]. }
  destruct (grant && negb _) eqn:Eg; cbn [fst snd] in *.
  - apply andb_prop in Eg as [Eg _]. apply andb_prop in Eg as [Eg1 Eg2]. apply andb_prop in Eg2 as [Eup _]. boolp.
    assert (rv_term rv = rs_current_term s) as Eterm by lia. rewrite Eterm in HK.
    destruct Hvs as [Hm Hn]. cbn in Hn. split_and!; [|by eapply core_same; try done; [apply Hc|auto|auto]|apply Hacts].
    eapply (add_vote_inv members V V' G i (rs_current_term s) (rv_candidate_id rv) F); [done|apply Hc|done| |done| |by rewrite HK].
    + intros j v c' Hv. apply Hn in Hv as [?|(-> & -> & [= <-])]; auto.
    + intros K' HK' _. rewrite HK in HK'. injection HK' as <-. unfold at_most. rewrite <- Elt, <- Eli.
      unfold up in Eup. apply orb_prop in Eup as [?|?]; boolp; lia.
  - split_and!; [|done|apply Hacts]. eapply ghost_inv_same; [done|]. eapply vote_step_same; [done|done|]. by right.
Qed.

(** The winner of a term is unique. *)
Lemma not_won V G i t Q :
  ghost_inv V G -> majority members Q -> (forall j, j ∈ Q -> V j t = Some i) -> gh_won G t <> Some i -> gh_won G t = None.
Proof.
  intros HG HQ HV Hn. destruct (gh_won G t) as [c|] eqn:E; [|done]. exfalso. apply Hn.
  destruct (gi_won _ _ _ HG t c E) as [K HK]. destruct (el_quorum _ _ _ _ _ _ HK) as (Q' & HQ' & HV').
  destruct (majorities_share members Hmem Q Q' HQ HQ') as (j & Hj & Hj'). destruct (HV' j Hj') as [E' _].
  rewrite (HV j Hj) in E'. by injection E' as ->.
Qed.

Lemma role_become_leader s : rs_role (become_leader s) = Leader /\ rs_current_term (become_leader s) = rs_current_term s.
Proof. pose proof (elect_become_leader s) as (_ & E1 & _ & E2). done. Qed.

Lemma vote_resp_core V G i s F r :
  ghost_inv V G -> node_core G i s F -> i :: rs_peers s ≡ₚ members ->
  (forall u c, V i u = Some c -> u <= rs_current_term s) ->
  (rs_role s <> Leader -> rs_role (fst (handle_request_vote_resp s r)) = Leader ->
   exists Q, majority members Q /\ forall j, j ∈ Q -> V j (rs_current_term s) = Some i) ->
  rs_current_term (fst (handle_request_vote_resp s r)) = rs_current_term s /\
  outcome_ok V G i (fst (handle_request_vote_resp s r)) (snd (handle_request_vote_resp s r)).
Proof.
  intros HG Hc Hp Hpast Hwin. unfold handle_request_vote_resp in *.
  assert (forall s', rs_current_term s' = rs_current_term s -> node_core G i s' F ->
    rs_current_term s' = rs_current_term s /\ outcome_ok V G i s' []) as Hsame.
  { intros s' Et Hc'. split; [done|]. exists G, F. split_and!; [apply grow_refl|done|done|apply acts_ok_nil]. }
  destruct (negb _ || negb _) eqn:E0; [by apply Hsame|].
  apply orb_false_iff in E0 as [E1 E2]. boolp. apply bool_decide_eq_true in E1.
  destruct (rvr_vote_granted r); [|by apply Hsame].
  set (s1 := set_votes s _) in *.
  assert (node_core G i s1 F) as Hc1 by (eapply core_same; try done; [apply Hc|auto|auto]).
  destruct (quorum s1 <=? _); [|by apply Hsame]. cbn [fst snd] in *.
  destruct Hwin as (Q & HQ & HV); [congruence|apply role_become_leader|].
  destruct (nc_cand _ _ _ _ _ Hc E1) as (Hpos & Hcd & Hnw).
  pose proof (not_won V G i _ Q HG HQ HV Hnw) as Hnone.
  destruct (become_leader_core members Hmem V G i s1 F Q HG Hc1 Hp Hpos Hnone Hcd HQ HV Hpast) as (Hg & HG' & Hc').
  destruct (role_become_leader s1) as [Hr' Et']. split; [done|].
  eexists _, _. rewrite Et'. split_and!; [exact Hg|exact HG'|exact Hc'|]. by eapply heartbeat_ok.
Qed.

(** ** Whole events *)

(** Applying what is committed at the end of an event. *)
Lemma outcome_drain V G i s acts :
  outcome_ok V G i s acts ->
  outcome_ok V G i (fst (drain_apply_actions s)) (acts ++ snd (drain_apply_actions s)).
Proof.
  intros (G' & F' & Hg & HG' & Hc & Ha). destruct (drain_core members V G' i s F' HG' Hc) as [Hc' Ha'].
  pose proof (elect_drain_loop (Z.to_nat (rs_commit_index s - rs_last_applied s)) s) as [= _ Et _ Er _].
  unfold drain_apply_actions in *. exists G', F'. rewrite Et. split_and!; [done|done|done|].
  apply acts_ok_app; [by eapply acts_ok_state|done].
Qed.

Lemma outcome_more V G i s acts acts' :
  outcome_ok V G i s acts -> (forall G' F, ghost_inv V G' -> node_core G' i s F -> acts_ok G' s acts') ->
  outcome_ok V G i s (acts ++ acts').
Proof.
  intros (G' & F' & Hg & HG' & Hc & Ha) Hmore. exists G', F'. split_and!; [done..|]. apply acts_ok_app; [done|by eapply Hmore].
Qed.

Lemma timeout_core V V' G i s F :
  ghost_inv V G -> node_core G i s F -> i :: rs_peers s ≡ₚ members ->
  (forall u c, V i u = Some c -> u <= rs_current_term s) ->
  (forall c, rs_voted_for s = Some c -> V i (rs_current_term s) = Some c) ->
  rs_current_term s < U64_MAX ->
  let r := on_election_timeout s in
  vote_step V V' i (fst r) ->
  (rs_role (fst r) = Leader -> ~ (rs_role s = Leader /\ rs_current_term (fst r) = rs_current_term s) ->
   exists Q, majority members Q /\ forall j, j ∈ Q -> V' j (rs_current_term (fst r)) = Some i) ->
  outcome_ok V' G i (fst r) (snd r).
Proof.
  intros HG Hc Hp Hpast Hvoted Hu. cbv zeta. unfold on_election_timeout. case_bool_decide as Hr.
  { intros Hvs _. cbn [fst snd] in *. exists G, F. split_and!; [apply grow_refl| |done|apply acts_ok_nil].
    eapply ghost_inv_same; [done|]. eapply vote_step_same; [done|done|by right]. }
  unfold start_election. cbv zeta. set (s1 := set_hint (set_votes _ _) None).
  assert (sat_add_u64 (rs_current_term s) 1 = rs_current_term s + 1) as Eu.
  { unfold sat_add_u64. pose proof (nc_term _ _ _ _ _ Hc). lia. }
  assert (rs_current_term s1 = rs_current_term s + 1) as Et1 by exact Eu.
  pose proof (nc_me _ _ _ _ _ Hc) as Hme. pose proof (nc_log _ _ _ _ _ Hc) as Hl.
  intros Hvs Hwin.
  assert (forall s' c, (rs_current_term s', rs_voted_for s') = (rs_current_term s1, rs_voted_for s1) ->
    rs_voted_for s' = Some c -> c = i) as Hself.
  { intros s' c [= _ E] E'. rewrite E in E'. cbn in E'. congruence. }
  assert (forall s', (rs_current_term s', rs_voted_for s') = (rs_current_term s1, rs_voted_for s1) -> vote_step V V' i s' ->
    grow i (rs_current_term s1) G (add_cand G i (rs_current_term s1) F) /\
    ghost_inv V' (add_cand G i (rs_current_term s1) F) /\
    node_core (add_cand G i (rs_current_term s1) F) i s1 F) as Hstand.
  { intros s' Es [Hm Hn]. pose proof Hc as [H1 H0 H2 H3 H4 H5 H6 H7 H8].
    destruct (stand members V V' G i (rs_current_term s) (rs_current_term s1) F (rl_base_index (rs_log s)) HG H4) as (Hg & HG' & HK').
    - lia.
    - done.
    - intros j v c Hv. apply Hn in Hv as [?|(-> & -> & E)]; [by left|right]. pose proof (Hself s' c Es E). by injection Es as -> _.
    - done.
    - split_and!; [done|done|]. pose proof (gr_older _ _ _ _ Hg) as HO. split; try done.
      + lia.
      + eapply committed_upto_mono; [done|]. eapply committed_upto_term; [done|lia].
      + intros _. split_and!; [lia|apply add_cand_same|]. cbn. intros Hw.
        pose proof (proj1 (proj2 (kp_past _ _ _ _ _ _ H4)) _ Hw). lia. }
  destruct (rs_peers s1) as [|q qs] eqn:Eps.
  - set (s2 := become_leader s1) in *. pose proof (elect_become_leader s1) as (_ & E1 & E2 & E3). fold s2 in E1, E2, E3.
    pose proof (core_drain s2) as Ecd. pose proof (elect_drain_loop (Z.to_nat (rs_commit_index s2 - rs_last_applied s2)) s2) as Eed.
    destruct (drain_apply_actions s2) as [s3 applied] eqn:Ed. cbn [fst snd] in *.
    unfold drain_apply_actions in Ed. rewrite Ed in Eed. cbn [fst] in Eed. injection Eed as _ F2 F3 F4 _.
    destruct (Hstand s3) as (Hg1 & HG1 & Hc1); [by rewrite F2, F3, E1, E2|done|].
    destruct Hwin as (Q & HQ & HV); [by rewrite F4|intros [? ?]; done|].
    rewrite F2, E1 in HV. destruct (nc_cand _ _ _ _ _ Hc1 eq_refl) as (Hpos & Hcd & Hnw).
    pose proof (not_won V' _ i _ Q HG1 HQ HV Hnw) as Hnone.
    destruct (become_leader_core members Hmem V' _ i s1 F Q HG1 Hc1 Hp Hpos Hnone Hcd HQ HV) as (Hg2 & HG2 & Hc2).
    { intros v c Hv. apply (proj2 Hvs) in Hv as [Hv|(_ & -> & _)]; [apply Hpast in Hv; lia|]. rewrite F2, E1. lia. }
    assert (outcome_ok V' G i s2 (on_heartbeat_tick s2)) as Hout.
    { eexists _, _. rewrite E1. split_and!; [by eapply grow_trans|exact HG2|exact Hc2|by eapply heartbeat_ok]. }
    apply outcome_drain in Hout. unfold drain_apply_actions in Hout. rewrite Ed in Hout. exact Hout.
  - cbn [fst snd] in *. destruct (Hstand s1 eq_refl Hvs) as (Hg1 & HG1 & Hc1).
    eexists _, F. split_and!; [exact Hg1|exact HG1|exact Hc1|]. apply acts_ok_cons; [apply acts_ok_silent; by left|].
    split; intros *; rewrite list_elem_of_singleton; intros [=]; subst. cbn.
    exists F. rewrite !bool_decide_true by done. split_and!; [done|by apply full_last_term|by apply full_last].
Qed.

Lemma propose_core V V' G i s F payload :
  ghost_inv V G -> node_core G i s F -> i :: rs_peers s ≡ₚ members ->
  (forall u c, V i u = Some c -> u <= rs_current_term s) ->
  (forall c, rs_voted_for s = Some c -> V i (rs_current_term s) = Some c) ->
  let r := node_event s (EvPropose payload) in
  vote_step V V' i (fst r) -> outcome_ok V' G i (fst r) (snd r).
Proof.
  intros HG Hc Hp Hpast Hvoted. cbn [node_event]. unfold try_propose. case_bool_decide as Hr; cbn [negb].
  2:{ cbn [fst snd]. intros Hvs. exists G, F. split_and!; [apply grow_refl| |done|apply acts_ok_nil].
      eapply ghost_inv_same; [done|]. eapply vote_step_same; [done|done|by right]. }
  destruct (append_local_core V G i s F payload HG Hc Hr Hpast) as (Hg & HG1 & Hc1).
  destruct (append_local s payload) as [s1 idx] eqn:Eal. cbn [fst] in Hc1.
  assert (rs_role s1 = Leader /\ rs_current_term s1 = rs_current_term s /\ rs_voted_for s1 = rs_voted_for s /\ rs_peers s1 = rs_peers s)
    as (Er1 & Et1 & Ev1 & Ep1) by (injection Eal as <- _; done).
  pose proof (recompute_core members Hmem V _ i s1 _ HG1 Hc1 Er1 ltac:(by rewrite Ep1)) as Hc2.
  pose proof (elect_recompute s1) as [= _ Et2 Ev2 _ _]. set (s2 := recompute_commit_index s1) in *.
  pose proof (elect_drain_loop (Z.to_nat (rs_commit_index s2 - rs_last_applied s2)) s2) as [= _ Et3 Ev3 _ _].
  intros Hvs.
  assert (outcome_ok V G i s2 []) as Hout.
  { eexists _, _. rewrite Et2, Et1. split_and!; [exact Hg|exact HG1|exact Hc2|apply acts_ok_nil]. }
  apply outcome_drain in Hout. unfold drain_apply_actions in *. destruct (drain_loop _ s2) as [s3 acts]. cbn [fst snd] in *.
  assert (forall j u c, V' j u = Some c <-> V j u = Some c) as HV.
  { eapply vote_step_same; [done|done|]. right. by rewrite Ev3, Ev2, Ev1, Et3, Et2, Et1. }
  eapply (outcome_more V G i s3 acts (on_heartbeat_tick s3)) in Hout; [|intros; by eapply heartbeat_ok].
  destruct Hout as (G' & F' & H1 & H2 & H3 & H4). exists G', F'. split_and!; [done| |done|done]. by eapply ghost_inv_same.
Qed.

Lemma kept_raise G i t F b b' :
  kept G i t F b -> clean G F -> 0 <= b' <= len F -> committed_upto G t F b' -> kept G i t F b'.
Proof. intros [H1 H2 H3 H4 H5 H6] Hc Hb Hcu. split; try done. by left. Qed.

Lemma take_snapshot_core V V' G i s F data through s' snap :
  ghost_inv V G -> node_core G i s F -> last_index (rs_log s) < U64_MAX ->
  (forall c, rs_voted_for s = Some c -> V i (rs_current_term s) = Some c) ->
  take_snapshot s data through = Some (s', snap) -> vote_step V V' i s' ->
  outcome_ok V' G i s' [] /\ node_core G i s' F /\ ps_last_index snap = rl_base_index (rs_log s') /\
  ps_last_term snap = rl_base_term (rs_log s').
Proof.
  intros HG Hc Hfit Hvoted Hs Hvs. pose proof (take_snapshot_good s data through s' snap (nc_wf _ _ _ _ _ Hc) Hfit Hs) as [Hwf' _].
  unfold take_snapshot in Hs. cbv zeta in Hs. set (c := Z.min _ _) in *. destruct (_ || _) eqn:E; [done|].
  apply orb_false_iff in E as [E1 E2]. boolp.
  pose proof Hc as [H1 H0 H2 (H3 & [H3a H3b] & H3c) H4 H5 H6 H7 H8].
  assert (c <= rs_commit_index s) as Hcc by lia. pose proof (fl_base _ _ H2) as Hb. rewrite (full_last _ _ H2) in H3c.
  rewrite (full_term_at _ _ H2) in Hs by lia. destruct (term_in F c) as [g|] eqn:Eg; [|done].
  cbn [mbind option_bind] in Hs. injection Hs as <- <-.
  assert (clean G F) as Hcl by (destruct H6 as [?|E6]; [done|lia]).
  pose proof (full_compact F (rs_log s) c g H2 ltac:(lia) Eg Hfit) as Hfl.
  assert (rl_base_index (compact_through (rs_log s) c g) = c /\ rl_base_term (compact_through (rs_log s) c g) = g) as [Ebase Ebt].
  { rewrite compact_through_eq; [done|by eapply full_wf|done|lia]. }
  assert (node_core G i (push_pending (set_log s (compact_through (rs_log s) c g)) (CompactThrough c)) F) as Hc'.
  { split; cbn; rewrite ?Ebase; try done.
    - eapply kept_raise; [done|done|lia|]. eapply committed_upto_le; [done|lia].
    - by left.
    - intros Hr. destruct (H7 Hr) as [L1 L2 L0 L3 L4 L5]. by split. }
  split_and!; [|done|by cbn; rewrite Ebase|by cbn; rewrite Ebt].
  exists G, F. split_and!; [apply grow_refl| |done|apply acts_ok_nil].
  eapply ghost_inv_same; [done|]. eapply vote_step_same; [done|done|by right].
Qed.

Lemma vote_request m : (exists rv, m = RequestVote rv) \/ ~ (exists rv, m = RequestVote rv).
Proof. destruct m; [left; by eexists|right; by intros [? ?]..]. Qed.

Lemma recompute_hard s :
  rs_current_term (recompute_commit_index s) = rs_current_term s /\
  rs_voted_for (recompute_commit_index s) = rs_voted_for s.
Proof. unfold recompute_commit_index. by repeat case_match. Qed.

(** Apart from vote requests, a handler leaves term and vote of an up-to-date node. *)
Lemma handle_voted s m progress :
  msg_term m <= rs_current_term s -> (forall rv, m <> RequestVote rv) ->
  rs_current_term (fst (handle_message s m progress)) = rs_current_term s /\
  rs_voted_for (fst (handle_message s m progress)) = rs_voted_for s.
Proof.
  intros Ht Hm. destruct m as [rv|r|ae|r|m|r]; cbn in Ht |- *; [by specialize (Hm rv)|..].
  - unfold handle_request_vote_resp. repeat case_match; try done. cbn [fst].
    match goal with |- context [become_leader ?x] => pose proof (elect_become_leader x) as (_ & -> & -> & _) end. done.
  - unfold handle_append_entries. destruct (_ <=? _) eqn:E; [|done]. boolp. rewrite (proj2 (Z.ltb_ge _ _)) by lia.
    cbn [set_hint set_role rs_log]. destruct (ae_consistent _ _); [|done].
    destruct (ae_append _ _) as [s2|] eqn:Ea; [|done]. cbn [fst].
    pose proof (elect_ae_commit s2 ae) as [= _ -> -> _ _]. by apply elect_ae_append in Ea as [= _ -> -> _ _].
  - unfold handle_append_entries_resp. destruct (_ || _); [done|]. destruct (aer_success r); [|done]. cbn [fst].
    match goal with |- context [recompute_commit_index ?x] => destruct (recompute_hard x) as [-> ->] end.
    by case_match.
  - unfold handle_install_snapshot. destruct (_ <? _) eqn:E; [done|]. boolp. cbn [set_hint set_role rs_current_term].
    rewrite (proj2 (Z.ltb_ge _ _)) by lia. cbn [fst]. destruct (is_done m); [|done].
    match goal with |- context [install_done ?x m] => pose proof (elect_install_done x m) as [= _ -> -> _ _] end. done.
  - unfold handle_install_snapshot_resp. destruct (_ || _); [done|]. destruct (isr_success r); [|done]. cbn [negb].
    destruct (0 <? _); [|done]. cbn [fst].
    match goal with |- context [recompute_commit_index ?x] => destruct (recompute_hard x) as [-> ->] end. done.
Qed.

Lemma handle_message_core V V' G i s F m progress :
  ghost_inv V G -> node_core G i s F -> i :: rs_peers s ≡ₚ members -> msg_term m <= rs_current_term s ->
  msg_ok G i m -> event_fits s (EvMessage m progress) ->
  (forall u c, V i u = Some c -> u <= rs_current_term s) ->
  (forall c, rs_voted_for s = Some c -> V i (rs_current_term s) = Some c) ->
  let r := handle_message s m progress in
  vote_step V V' i (fst r) ->
  (rs_role s <> Leader -> rs_role (fst r) = Leader ->
   exists Q, majority members Q /\ forall j, j ∈ Q -> V' j (rs_current_term s) = Some i) ->
  outcome_ok V' G i (fst r) (snd r).
Proof.
  intros HG Hc Hp Ht Hm [Hfit Hmw] Hpast Hvoted. cbv zeta.
  destruct (vote_request m) as [[rv ->]|Hnrv].
  { intros Hvs _. cbn [handle_message] in *.
    destruct (request_vote_core V V' G i s F rv HG Hc Ht Hm Hpast Hvoted Hvs) as (H1 & H2 & H3).
    exists G, F. by split_and!; [apply grow_refl|..]. }
  intros Hvs Hwin. destruct (handle_voted s m progress Ht) as [Et Ev]; [intros rv ->; apply Hnrv; by eexists|].
  assert (forall j u c, V' j u = Some c <-> V j u = Some c) as HV by (eapply vote_step_same; [done|done|by right]).
  assert (ghost_inv V' G) as HG' by (by eapply ghost_inv_same).
  assert (forall u c, V' i u = Some c -> u <= rs_current_term s) as Hpast' by (intros u c Hv; rewrite HV in Hv; by eapply Hpast).
  clear HG Hpast Hvoted Hvs Ev. unfold outcome_ok. rewrite Et. cbn [event_len] in Hfit.
  destruct m as [rv|r|ae|r|m|r]; cbn [handle_message] in *; [exfalso; apply Hnrv; by eexists|..].
  - destruct (vote_resp_core V' G i s F r HG' Hc Hp Hpast' Hwin) as [E (G' & F' & H)]. rewrite E in H. by exists G', F'.
  - by apply (append_entries_core members Hmem V' G i s F ae).
  - destruct (append_resp_core V' G i s F r HG' Hc Hp Hm). exists G, F. by split_and!; [apply grow_refl|..].
  - apply (install_snapshot_core members Hmem V' G i s F m progress); try done. lia.
  - destruct (snapshot_resp_core V' G i s F r HG' Hc Hp Hm). exists G, F. by split_and!; [apply grow_refl|..].
Qed.

Lemma step_down_voted s t : rs_current_term s < t -> rs_current_term (step_down_to s t) = t /\ rs_voted_for (step_down_to s t) = None.
Proof. intros H. unfold step_down_to. rewrite (proj2 (Z.ltb_lt _ _)) by done. done. Qed.

Lemma message_core V V' G i s F m progress :
  ghost_inv V G -> node_core G i s F -> i :: rs_peers s ≡ₚ members ->
  msg_ok G i m -> event_fits s (EvMessage m progress) ->
  (forall u c, V i u = Some c -> u <= rs_current_term s) ->
  (forall c, rs_voted_for s = Some c -> V i (rs_current_term s) = Some c) ->
  let r := on_message_with_progress s m progress in
  vote_step V V' i (fst r) ->
  (rs_role (fst r) = Leader -> ~ (rs_role s = Leader /\ rs_current_term (fst r) = rs_current_term s) ->
   exists Q, majority members Q /\ forall j, j ∈ Q -> V' j (rs_current_term (fst r)) = Some i) ->
  outcome_ok V' G i (fst r) (snd r).
Proof.
  intros HG Hc Hp Hm Hfit Hpast Hvoted. cbv zeta.
  assert (vote_step V V' i s -> outcome_ok V' G i s []) as Hnothing.
  { intros Hvs. exists G, F. split_and!; [apply grow_refl| |done|apply acts_ok_nil].
    eapply ghost_inv_same; [done|]. eapply vote_step_same; [done|done|by right]. }
  unfold on_message_with_progress. destruct (negb _); [intros Hvs _; by apply Hnothing|].
  destruct (_ || _); [intros Hvs _; by apply Hnothing|]. cbv zeta. clear Hnothing.
  set (s1 := if rs_current_term s <? msg_term m then _ else s).
  assert (node_core G i s1 F /\ msg_term m <= rs_current_term s1 /\ rs_current_term s <= rs_current_term s1 /\
    i :: rs_peers s1 ≡ₚ members /\ event_fits s1 (EvMessage m progress) /\
    (forall c, rs_voted_for s1 = Some c -> V i (rs_current_term s1) = Some c) /\
    (rs_role s = Leader -> rs_current_term s1 = rs_current_term s -> rs_role s1 = Leader))
    as (Hc1 & Hmt & Hge & Hp1 & Hfit1 & Hvoted1 & Hlead).
  { unfold s1. destruct (Z.ltb_spec (rs_current_term s) (msg_term m)) as [Hlt|Hle]; [|by split_and!].
    destruct (step_down_voted s (msg_term m) Hlt) as [Et Ev]. rewrite Et, Ev. split_and!; try done; try lia.
    - by apply core_step_down.
    - unfold step_down_to. cbn. by destruct (_ || _).
    - unfold event_fits in *. assert (rs_log (step_down_to s (msg_term m)) = rs_log s) as ->; [|done].
      unfold step_down_to. cbn. by destruct (_ || _). }
  clearbody s1. destruct (handle_message s1 m progress) as [s2 acts] eqn:Eh.
  assert (rs_current_term s2 = rs_current_term s1) as Et2.
  { destruct (vote_request m) as [[rv ->]|Hn].
    - cbn in Eh. unfold handle_request_vote in Eh. injection Eh as <- _. by destruct (_ && negb _).
    - pose proof (handle_voted s1 m progress Hmt) as Hx. rewrite Eh in Hx. apply Hx. intros rv ->. apply Hn. by eexists. }
  set (acts1 := if _ && _ then _ else acts).
  pose proof (elect_drain_loop (Z.to_nat (rs_commit_index s2 - rs_last_applied s2)) s2) as [= _ Et3 Ev3 Er3 _].
  intros Hvs Hwin.
  assert (outcome_ok V' G i s2 acts1) as Hout.
  { pose proof (handle_message_core V V' G i s1 F m progress HG Hc1 Hp1 Hmt Hm Hfit1) as Hh. rewrite Eh in Hh.
    destruct Hh as (G' & F' & H1 & H2 & H3 & H4); try done.
    - intros u c Hv. apply Hpast in Hv. lia.
    - unfold drain_apply_actions in Hvs. destruct (drain_loop _ s2) as [s3 ap]. cbn [fst] in *.
      unfold vote_step in *. by rewrite Et3, Ev3 in Hvs.
    - intros Hnl Hl. unfold drain_apply_actions in Hwin. destruct (drain_loop _ s2) as [s3 ap]. cbn [fst] in *.
      rewrite Er3, Et3, Et2 in Hwin. apply Hwin; [done|]. intros [Hls Hts].
      apply Hnl. by apply Hlead.
    - exists G', F'. split_and!; try done. unfold acts1. destruct (_ && _); [|done].
      apply acts_ok_cons; [apply acts_ok_silent; by left|done]. }
  apply outcome_drain in Hout. unfold drain_apply_actions in *. by destruct (drain_loop _ s2).
Qed.

(** Any event, with the message it delivers. *)
Lemma event_core V V' G i s F ev :
  ghost_inv V G -> node_core G i s F -> i :: rs_peers s ≡ₚ members ->
  match ev with EvMessage m _ => msg_ok G i m | _ => True end -> event_fits s ev -> event_term_ok s ev ->
  (forall u c, V i u = Some c -> u <= rs_current_term s) ->
  (forall c, rs_voted_for s = Some c -> V i (rs_current_term s) = Some c) ->
  let r := node_event s ev in
  vote_step V V' i (fst r) ->
  (rs_role (fst r) = Leader -> ~ (rs_role s = Leader /\ rs_current_term (fst r) = rs_current_term s) ->
   exists Q, majority members Q /\ forall j, j ∈ Q -> V' j (rs_current_term (fst r)) = Some i) ->
  outcome_ok V' G i (fst r) (snd r).
Proof.
  intros HG Hc Hp Hm Hfit Hok Hpast Hvoted. cbv zeta.
  assert (vote_step V V' i s -> ghost_inv V' G) as Hstill.
  { intros Hvs. eapply ghost_inv_same; [done|]. eapply vote_step_same; [done|done|by right]. }
  destruct ev as [m progress|payload|data through| |].
  - by apply message_core with (V := V) (F := F).
  - intros Hvs _. by apply propose_core with (V := V) (F := F).
  - cbn [node_event]. destruct (take_snapshot s data through) as [[s' snap]|] eqn:E.
    + intros Hvs _. cbn [fst snd] in *. destruct Hfit as [Hfit _]. cbn in Hfit.
      apply (take_snapshot_core V V' G i s F data through s' snap); try done. lia.
    + intros Hvs _. cbn [fst snd] in *. exists G, F. split_and!; [apply grow_refl|by apply Hstill|done|apply acts_ok_nil].
  - intros Hvs Hwin. destruct Hok as [_ Hu]. by apply timeout_core with (V := V) (F := F).
  - intros Hvs _. cbn [node_event fst snd] in *. exists G, F.
    split_and!; [apply grow_refl|by apply Hstill|done|]. by eapply heartbeat_ok, Hc; apply Hstill.
Qed.

(** What an event does to the vote. *)
Lemma event_vote s ev :
  event_term_ok s ev ->
  let s' := fst (node_event s ev) in
  (rs_log s' = rs_log s /\ exists rv progress, ev = EvMessage (RequestVote rv) progress) \/
  (rs_current_term s' = rs_current_term s + 1 /\ rs_voted_for s' = Some (rs_me s) /\ ev = EvElectionTimeout) \/
  rs_voted_for s' = None \/ (rs_voted_for s' = rs_voted_for s /\ rs_current_term s' = rs_current_term s).
Proof.
  intros Hok. cbv zeta. destruct ev as [m progress|payload|data through| |]; cbn [node_event].
  - unfold on_message_with_progress. destruct (negb _); [auto|]. destruct (_ || _); [auto|]. cbv zeta.
    set (s1 := if rs_current_term s <? msg_term m then _ else s).
    assert (rs_log s1 = rs_log s /\ msg_term m <= rs_current_term s1 /\
      (rs_voted_for s1 = None \/ (rs_voted_for s1 = rs_voted_for s /\ rs_current_term s1 = rs_current_term s))) as (E1 & E2 & E3).
    { unfold s1. destruct (Z.ltb_spec (rs_current_term s) (msg_term m)) as [Hlt|Hle]; [|auto].
      destruct (step_down_voted s (msg_term m) Hlt) as [Et Ev]. rewrite Et, Ev. split_and!; [|lia|by left].
      unfold step_down_to. cbn. by destruct (_ || _). }
    clearbody s1. destruct (handle_message s1 m progress) as [s2 acts] eqn:Eh.
    pose proof (core_drain s2) as [= D1 _ D3 D4]. destruct (drain_apply_actions s2) as [s3 ap]. cbn [fst] in *.
    rewrite D1, D3, D4. destruct (vote_request m) as [[rv ->]|Hn].
    + left. split; [|by eexists _, _]. cbn in Eh. unfold handle_request_vote in Eh. injection Eh as <- _.
      by destruct (_ && negb _).
    + pose proof (handle_voted s1 m progress E2) as Hx. rewrite Eh in Hx. destruct Hx as [Et Ev]; [intros rv ->; apply Hn; by eexists|].
      cbn [fst] in Et, Ev. rewrite Et, Ev. auto.
  - right; right; right. unfold try_propose. destruct (negb _); [done|]. destruct (append_local s payload) as [s1 idx] eqn:Ea.
    injection Ea as <- <-. set (s1 := set_log _ _). pose proof (core_recompute s1) as [= _ _ R3 R4].
    pose proof (core_drain (recompute_commit_index s1)) as [= _ _ D3 D4]. destruct (drain_apply_actions _) as [s3 ap].
    cbn [fst] in *. by rewrite D3, D4, R3, R4.
  - right; right; right. destruct (take_snapshot s data through) as [[s' snap]|] eqn:E; [|done].
    cbn [fst]. by apply take_snapshot_hard in E as (-> & -> & _).
  - unfold on_election_timeout. case_bool_decide; [auto|]. right; left. unfold start_election. cbv zeta.
    set (s1 := set_hint (set_votes _ _) None).
    assert (rs_current_term s1 = rs_current_term s + 1 /\ rs_voted_for s1 = Some (rs_me s)) as [E1 E2].
    { cbn. destruct Hok as [? ?]. unfold sat_add_u64. split; [lia|done]. }
    destruct (rs_peers s1); [|done]. pose proof (elect_become_leader s1) as (_ & B1 & B2 & _).
    pose proof (core_drain (become_leader s1)) as [= _ _ D3 D4]. destruct (drain_apply_actions _) as [s3 ap]. cbn [fst] in *.
    by rewrite D3, D4, B1, B2.
  - auto.
Qed.
End Events.
