(* ===== verification/RaftCrash.v ===== *)
(** * What a crash leaves of a node

    The operations an event records ([event_ops]), the log file after any part of
    them has been written, and the log a restart makes of the two files. *)

From S2P Require Export RaftEvents.

#[local] Open Scope Z_scope.

(** ** The operations of an event *)

(** The log operations of an event, with what it did to the log. *)
Inductive log_ops (s : raft_state) (ev : raft_event) (s' : raft_state) : list persist_op -> Prop :=
| lo_none : rs_log s' = rs_log s -> log_ops s ev s' []
| lo_append e :
    rs_role s' = Leader -> e_term e = rs_current_term s' -> e_index e = last_index (rs_log s) + 1 ->
    rs_log s' = set_entries (rs_log s) (rl_entries (rs_log s) ++ [e]) -> log_ops s ev s' [Append [e]]
| lo_replace ae progress l' c :
    ev = EvMessage (AppendEntries ae) progress -> ae_term ae = rs_current_term s' ->
    ae_consistent (rs_log s) ae = true -> ae_entries ae <> [] ->
    append_at (rs_log s) (sat_add_u64 (ae_prev_log_index ae) 1) (ae_entries ae) (rs_commit_index s) = Some (l', Some c) ->
    rs_log s' = l' -> log_ops s ev s' [TruncateFrom c; Append (log_slice l' c U64_MAX)]
| lo_keep m progress :
    ev = EvMessage (InstallSnapshot m) progress -> is_term m = rs_current_term s' -> is_done m = true ->
    rl_base_index (rs_log s) < is_last_index m -> term_at (rs_log s) (is_last_index m) = Some (is_last_term m) ->
    rs_log s' = compact_through (rs_log s) (is_last_index m) (is_last_term m) ->
    log_ops s ev s' [CompactThrough (is_last_index m)]
| lo_clear m progress :
    ev = EvMessage (InstallSnapshot m) progress -> is_term m = rs_current_term s' -> is_done m = true ->
    rl_base_index (rs_log s) < is_last_index m -> term_at (rs_log s) (is_last_index m) <> Some (is_last_term m) ->
    rs_log s' = mkLog [] (is_last_index m) (is_last_term m) -> log_ops s ev s' [TruncateFrom 0]
| lo_snapshot data through snap :
    ev = EvSnapshot data through -> take_snapshot s data through = Some (s', snap) ->
    log_ops s ev s' [CompactThrough (ps_last_index snap)].

Definition no_hard (ops : list persist_op) : Prop := Forall (fun op => is_hard_state op = false) ops.

(** The operations an event adds to [ops]: a new term or vote first. *)
Definition adds (s : raft_state) (ev : raft_event) (s' : raft_state) (ops : list persist_op) : Prop :=
  exists hops lops, rs_pending s' = ops ++ hops ++ lops /\ log_ops s ev s' lops /\
    ((hops = [] /\ rs_current_term s' = rs_current_term s /\ rs_voted_for s' = rs_voted_for s) \/
     hops = [HardState (rs_current_term s') (rs_voted_for s')]).

Lemma no_hard_filter ops : no_hard ops -> filter (fun op => is_hard_state op = false) ops = ops.
Proof. induction 1 as [|op ops Hop _ IH]; [done|]. rewrite filter_cons_True by done. by rewrite IH. Qed.

(** Only the four fields of [core] and the role matter. *)
Lemma log_ops_core s ev s1 s2 lops :
  (forall data through, ev <> EvSnapshot data through) -> core s2 = core s1 -> rs_role s2 = rs_role s1 ->
  log_ops s ev s1 lops -> log_ops s ev s2 lops.
Proof.
  intros Hns [= E1 E2 E3 E4] Er. destruct 1; try (exfalso; by eapply Hns); econstructor; try done; congruence.
Qed.

Lemma adds_core s ev s1 s2 ops :
  (forall data through, ev <> EvSnapshot data through) -> core s2 = core s1 -> rs_role s2 = rs_role s1 ->
  adds s ev s1 ops -> adds s ev s2 ops.
Proof.
  intros Hns Ec Er (hops & lops & E & Hl & Hh). pose proof (log_ops_core s ev s1 s2 lops Hns Ec Er Hl) as Hl2.
  injection Ec as E1 E2 E3 E4. exists hops, lops. by rewrite E2, E3, E4.
Qed.

Lemma adds_drain s ev s1 ops :
  (forall data through, ev <> EvSnapshot data through) -> adds s ev s1 ops -> adds s ev (fst (drain_apply_actions s1)) ops.
Proof.
  intros Hns. apply adds_core; [done|apply core_drain|].
  pose proof (elect_drain_loop (Z.to_nat (rs_commit_index s1 - rs_last_applied s1)) s1) as [= _ _ _ E _]. exact E.
Qed.

(** What the handlers add, after a step down. *)
Lemma become_leader_adds s : 
  exists lops, rs_pending (become_leader s) = rs_pending s ++ lops /\
    (lops = [] /\ rs_log (become_leader s) = rs_log s \/
     exists e, lops = [Append [e]] /\ e_term e = rs_current_term s /\ e_index e = last_index (rs_log s) + 1 /\
       rs_log (become_leader s) = set_entries (rs_log s) (rl_entries (rs_log s) ++ [e])).
Proof.
  unfold become_leader. cbv zeta. set (s0 := if rs_noop_on_elect _ then _ else _).
  match goal with |- context [recompute_commit_index ?x] => pose proof (core_recompute x) as Ec end.
  injection Ec as E1 E2 _ _. rewrite E1, E2. clear E1 E2. cbn [set_votes set_progress rs_pending rs_log].
  subst s0. cbn. destruct (rs_noop_on_elect s).
  - eexists. split; [cbn; reflexivity|]. right. eexists. split_and!; try reflexivity.
  - exists []. rewrite app_nil_r. split; [done|]. by left.
Qed.

(** Either the log operations are added, or the vote. *)
Definition handled (s : raft_state) (ev : raft_event) (s' : raft_state) : Prop :=
  exists lops, log_ops s ev s' lops /\ rs_current_term s' = rs_current_term s /\
    ((rs_pending s' = rs_pending s ++ lops /\ rs_voted_for s' = rs_voted_for s) \/
     (lops = [] /\ rs_pending s' = filter (fun op => is_hard_state op = false) (rs_pending s) ++
        [HardState (rs_current_term s') (rs_voted_for s')])).

Lemma append_at_loop_nil l idx new c l' : append_at_loop l idx new c = Some (l', []) -> l' = l.
Proof.
  revert idx. induction new as [|e new IH]; intros idx; cbn; [congruence|]. case_if; [apply IH|].
  destruct (term_at l idx); [|done]. case_if; [apply IH|]. by case_if.
Qed.

Lemma handle_adds s m progress :
  msg_term m <= rs_current_term s -> handled s (EvMessage m progress) (fst (handle_message s m progress)).
Proof.
  intros Ht. destruct (vote_request m) as [[rv ->]|Hnrv].
  { cbn [handle_message]. unfold handle_request_vote. cbn [fst]. destruct (_ && negb _).
    - exists []. split_and!; [by apply lo_none|done|by right].
    - exists []. split_and!; [by apply lo_none|done|left; by rewrite app_nil_r]. }
  destruct (handle_voted s m progress Ht) as [Et Ev]; [intros rv ->; apply Hnrv; by eexists|].
  assert (forall s' lops, s' = fst (handle_message s m progress) -> log_ops s (EvMessage m progress) s' lops ->
    rs_pending s' = rs_pending s ++ lops -> handled s (EvMessage m progress) s') as Hgo.
  { intros s' lops -> H1 H2. exists lops. split_and!; [done|done|by left]. }
  assert (forall s', s' = fst (handle_message s m progress) -> core s' = core s ->
    handled s (EvMessage m progress) s') as Hquiet.
  { intros s' Es [= E1 E2 _ _]. apply (Hgo s' []); [done|by apply lo_none|by rewrite app_nil_r]. }
  clear Et Ev.
  destruct m as [rv|r|ae|r|m|r]; cbn [handle_message] in *; [exfalso; apply Hnrv; by eexists|..].
  - unfold handle_request_vote_resp in *. destruct (negb _ || negb _); [by apply Hquiet|].
    destruct (rvr_vote_granted r); [|by apply Hquiet]. set (s1 := set_votes s _) in *.
    destruct (quorum s1 <=? _); [|by apply Hquiet]. cbn [fst] in *.
    destruct (become_leader_adds s1) as (lops & Ep & [[-> El]|(e & -> & H1 & H2 & H3)]).
    + apply (Hgo _ [] eq_refl); [by apply lo_none|exact Ep].
    + apply (Hgo _ [Append [e]] eq_refl); [|exact Ep]. destruct (role_become_leader s1) as [E1 E2].
      by apply lo_append; rewrite ?E2.
  - unfold handle_append_entries in *. destruct (_ <=? _) eqn:E; [|by apply Hquiet]. boolp. cbn in Ht.
    assert ((rs_current_term s <? ae_term ae) = false) as Elt by (apply Z.ltb_ge; lia). rewrite Elt in *.
    cbn [set_hint set_role rs_log rs_current_term] in *.
    destruct (ae_consistent (rs_log s) ae) eqn:Econ; [|by apply Hquiet].
    destruct (ae_append _ ae) as [s2|] eqn:Ea; [|by apply Hquiet]. cbn [fst] in *.
    pose proof (core_ae_commit s2 ae) as [= C1 C2 C3 C4]. unfold ae_append in Ea. cbn [set_hint set_role rs_log rs_commit_index] in Ea.
    destruct (ae_entries ae) as [|e0 es0] eqn:Ees.
    { injection Ea as <-. apply (Hgo _ [] eq_refl); [by apply lo_none|by rewrite app_nil_r]. }
    rewrite <- Ees in Ea. assert (ae_entries ae <> []) as Hne by (by rewrite Ees).
    destruct (append_at _ _ _ _) as [[l' [c|]]|] eqn:Eap; [..|done]; injection Ea as <-.
    + eapply (Hgo _ _ eq_refl); [eapply (lo_replace _ _ _ ae progress l' c); [done|rewrite C3; cbn; lia|done|done|done|exact C1]|]. rewrite C2. cbn. by rewrite <- app_assoc.
    + apply (Hgo _ [] eq_refl); [|by rewrite C2, app_nil_r]. apply lo_none. rewrite C1. cbn.
      unfold append_at in Eap. destruct (append_at_loop _ _ _ _) as [[l1 [|? ?]]|] eqn:El; cbn in Eap; simplify_eq.
      by apply append_at_loop_nil in El.
  - unfold handle_append_entries_resp in *. destruct (_ || _); [by apply Hquiet|].
    destruct (aer_success r); [|by apply Hquiet]. cbn [fst] in *. apply Hquiet; [reflexivity|].
    etransitivity; [apply core_recompute|]. by case_match.
  - unfold handle_install_snapshot in *. destruct (_ <? _) eqn:E; [by apply Hquiet|]. boolp.
    cbn [set_hint set_role rs_current_term] in *. cbn in Ht.
    assert ((rs_current_term s <? is_term m) = false) as Elt by (apply Z.ltb_ge; lia). rewrite Elt in *. cbn [fst] in *.
    destruct (is_done m) eqn:Ed; [|by apply Hquiet]. set (s1 := set_hint _ _) in *. unfold install_done in *.
    set (s2 := if rl_base_index (rs_log s1) <? is_last_index m then _ else s1) in *.
    assert (core (if rs_last_applied (if rs_commit_index s2 <? is_last_index m then set_commit s2 (is_last_index m) else s2) <?
      is_last_index m then set_applied (if rs_commit_index s2 <? is_last_index m then set_commit s2 (is_last_index m) else s2)
        (is_last_index m) else if rs_commit_index s2 <? is_last_index m then set_commit s2 (is_last_index m) else s2) = core s2)
      as [= C1 C2 C3 C4] by (by repeat case_match).
    destruct (rl_base_index (rs_log s) <? is_last_index m) eqn:Eb.
    + assert (s2 = let (l, kept) := log_install_snapshot (rs_log s) (is_last_index m) (is_last_term m) in
        push_pending (set_log s1 l) (if kept then CompactThrough (is_last_index m) else TruncateFrom 0)) as Es2.
      { unfold s2. change (rs_log s1) with (rs_log s). by rewrite Eb. }
      unfold log_install_snapshot in Es2. boolp. case_bool_decide as Etm.
      * rewrite (proj2 (Z.leb_le _ _)) in Es2 by lia. cbn [andb] in Es2. eapply (Hgo _ _ eq_refl).
        -- eapply (lo_keep _ _ _ m progress); [done|rewrite C3, Es2; cbn; lia|done|done|done|rewrite C1, Es2; done].
        -- rewrite C2, Es2. done.
      * cbn [andb] in Es2. eapply (Hgo _ _ eq_refl).
        -- eapply (lo_clear _ _ _ m progress); [done|rewrite C3, Es2; cbn; lia|done|done|done|rewrite C1, Es2; done].
        -- rewrite C2, Es2. done.
    + assert (s2 = s1) as Es2 by (unfold s2; change (rs_log s1) with (rs_log s); by rewrite Eb). apply (Hgo _ [] eq_refl).
      * apply lo_none. rewrite C1, Es2. done.
      * rewrite C2, Es2, app_nil_r. done.
  - unfold handle_install_snapshot_resp in *. destruct (_ || _); [by apply Hquiet|].
    destruct (isr_success r); [|by apply Hquiet]. cbn [negb] in *. destruct (0 <? _); [|by apply Hquiet].
    cbn [fst] in *. apply Hquiet; [reflexivity|]. etransitivity; [apply core_recompute|done].
Qed.

Lemma log_ops_from s s1 ev s2 lops :
  (forall data through, ev <> EvSnapshot data through) -> rs_log s1 = rs_log s -> rs_commit_index s1 = rs_commit_index s ->
  log_ops s1 ev s2 lops -> log_ops s ev s2 lops.
Proof.
  intros Hns El Ec. destruct 1; try (exfalso; by eapply Hns); rewrite ?El, ?Ec in *.
  - by apply lo_none.
  - by apply lo_append.
  - by eapply lo_replace.
  - by eapply lo_keep.
  - by eapply lo_clear.
Qed.

Lemma no_hard_app_filter ops t v :
  no_hard ops -> filter (fun op => is_hard_state op = false) (ops ++ [HardState t v]) = ops.
Proof. intros H. rewrite filter_app, no_hard_filter by done. rewrite filter_cons_False by done. by rewrite app_nil_r. Qed.

Lemma adds_nothing s ev : adds s ev s (rs_pending s).
Proof. exists [], []. rewrite app_nil_r. split_and!; [done|by apply lo_none|by left]. Qed.

Lemma message_adds s m progress :
  no_hard (rs_pending s) ->
  adds s (EvMessage m progress) (fst (on_message_with_progress s m progress)) (rs_pending s).
Proof.
  intros Hnh. unfold on_message_with_progress. destruct (negb _); [apply adds_nothing|].
  destruct (_ || _); [apply adds_nothing|]. cbv zeta. set (s1 := if rs_current_term s <? msg_term m then _ else s).
  assert (rs_log s1 = rs_log s /\ rs_commit_index s1 = rs_commit_index s /\ msg_term m <= rs_current_term s1 /\
    ((rs_pending s1 = rs_pending s /\ rs_current_term s1 = rs_current_term s /\ rs_voted_for s1 = rs_voted_for s) \/
     rs_pending s1 = rs_pending s ++ [HardState (rs_current_term s1) (rs_voted_for s1)])) as (E1 & E2 & E3 & E4).
  { unfold s1. destruct (Z.ltb_spec (rs_current_term s) (msg_term m)) as [Hlt|Hle]; [|split_and!; [done|done|done|by left]].
    destruct (step_down_voted s (msg_term m) Hlt) as [Et Ev]. rewrite Et, Ev. unfold step_down_to.
    rewrite (proj2 (Z.ltb_lt _ _)) by done. cbn. split_and!; [done|done|lia|]. right. by rewrite no_hard_filter. }
  clearbody s1. destruct (handle_adds s1 m progress E3) as (lops & Hl & Et & Hp).
  destruct (handle_message s1 m progress) as [s2 acts]. cbn [fst] in *.
  assert (adds s (EvMessage m progress) s2 (rs_pending s)) as Ha.
  { assert (log_ops s (EvMessage m progress) s2 lops) as Hl' by (by eapply log_ops_from).
    destruct Hp as [[Ep Ev]|[-> Ep]].
    - destruct E4 as [(E5 & E6 & E7)|E5].
      + exists [], lops. rewrite Ep, E5. split_and!; [done|done|]. left. split_and!; [done|lia|congruence].
      + exists [HardState (rs_current_term s2) (rs_voted_for s2)], lops. rewrite Ep, E5, <- app_assoc, Et, Ev.
        split_and!; [done|done|by right].
    - exists [HardState (rs_current_term s2) (rs_voted_for s2)], []. rewrite Ep. split_and!; [|done|by right].
      rewrite app_nil_r. f_equal. destruct E4 as [(-> & _)| ->]; [by apply no_hard_filter|by apply no_hard_app_filter]. }
  apply adds_drain in Ha; [|done]. by destruct (drain_apply_actions s2).
Qed.

(** The operations of any event. *)
Lemma event_adds s ev : no_hard (rs_pending s) -> adds s ev (fst (node_event s ev)) (rs_pending s).
Proof.
  intros Hnh. destruct ev as [m progress|payload|data through| |]; cbn [node_event].
  - by apply message_adds.
  - unfold try_propose. case_bool_decide as Hr; cbn [negb]; [|apply adds_nothing].
    destruct (append_local s payload) as [s1 idx] eqn:Ea. injection Ea as <- <-.
    set (s1 := set_log _ _).
    assert (adds s (EvPropose payload) (recompute_commit_index s1) (rs_pending s)) as Ha.
    { apply (adds_core _ _ s1); [done|apply core_recompute|apply recompute_same|].
      eexists [], [Append [_]]. split_and!; [reflexivity| |by left]. by apply lo_append. }
    apply adds_drain in Ha; [|done]. by destruct (drain_apply_actions _).
  - destruct (take_snapshot s data through) as [[s' snap]|] eqn:E; [|apply adds_nothing]. cbn [fst].
    pose proof (take_snapshot_hard _ _ _ _ _ E) as (E1 & E2 & E3).
    exists [], [CompactThrough (ps_last_index snap)]. split_and!; [done|by eapply lo_snapshot|by left].
  - unfold on_election_timeout. case_bool_decide; [apply adds_nothing|]. unfold start_election. cbv zeta.
    set (s1 := set_hint (set_votes _ _) None).
    assert (rs_pending s1 = rs_pending s ++ [HardState (rs_current_term s1) (rs_voted_for s1)]) as Ep.
    { cbn. by rewrite no_hard_filter. }
    destruct (rs_peers s1).
    + destruct (become_leader_adds s1) as (lops & Epl & Hl). set (s2 := become_leader s1) in *.
      assert (adds s EvElectionTimeout s2 (rs_pending s)) as Ha.
      { pose proof (elect_become_leader s1) as (_ & E1 & E2 & E3). fold s2 in E1, E2, E3.
        exists [HardState (rs_current_term s2) (rs_voted_for s2)], lops. rewrite Epl, Ep, <- app_assoc, E1, E2.
        split_and!; [done| |by right]. destruct Hl as [[-> El]|(e & -> & H1 & H2 & H3)].
        - by apply lo_none.
        - apply lo_append; [done|by rewrite H1, E1|done|done]. }
      apply adds_drain in Ha; [|done]. by destruct (drain_apply_actions s2).
    + cbn [fst]. exists [HardState (rs_current_term s1) (rs_voted_for s1)], []. rewrite Ep, app_nil_r.
      split_and!; [done|by apply lo_none|by right].
  - apply adds_nothing.
Qed.

(** ** The log file *)

(** The file holds the entries of [F] above [b], perhaps with older ones before. *)
Definition store_ok (F : list log_entry) (b : Z) (es : list log_entry) : Prop :=
  exists b0, 0 <= b0 <= b /\ contiguous b0 es /\ drop (Z.to_nat (b - b0)) es = drop (Z.to_nat b) F.

Lemma store_exact F b : contiguous 0 F -> 0 <= b <= len F -> store_ok F b (drop (Z.to_nat b) F).
Proof.
  intros Hc Hb. exists b. split_and!; [lia|lia| |].
  - eapply contiguous_drop; [done|]. unfold len in Hb. lia.
  - by rewrite Z.sub_diag.
Qed.

Lemma store_rebase F b F' b' es :
  store_ok F b es -> b <= b' -> drop (Z.to_nat b') F' = drop (Z.to_nat b') F -> store_ok F' b' es.
Proof.
  intros (b0 & H1 & H2 & H3) Hb E. exists b0. split_and!; [lia|lia|done|]. rewrite E.
  replace (Z.to_nat (b' - b0)) with (Z.to_nat (b - b0) + Z.to_nat (b' - b))%nat by lia.
  rewrite <- drop_drop, H3, drop_drop. f_equal. lia.
Qed.

Lemma store_compact F b es c :
  store_ok F b es -> c <= b -> store_ok F b (filter (fun e => e_index e > c) es).
Proof.
  intros (b0 & H1 & H2 & H3) Hc. rewrite (contiguous_filter_gt b0) by done.
  destruct (decide (c <= b0)) as [Hle|Hgt].
  { replace (Z.to_nat (c - b0)) with 0%nat by lia. by exists b0. }
  exists c. split_and!; [lia|lia| |].
  - destruct (decide (length es <= Z.to_nat (c - b0))%nat) as [Hl|Hl]; [by rewrite drop_ge|].
    eapply contiguous_drop; [done|]. lia.
  - rewrite drop_drop, <- H3. f_equal. lia.
Qed.

Lemma store_compacted F b es :
  store_ok F b es -> filter (fun e => e_index e > b) es = drop (Z.to_nat b) F.
Proof. intros (b0 & H1 & H2 & H3). by rewrite (contiguous_filter_gt b0). Qed.

(** A node and its log file between two events: what is left to do is at most the
    compaction a restart found missing. *)
Definition stored (F : list log_entry) (s : raft_state) (p : persisted_raft) : Prop :=
  (rs_pending s = [] /\ pr_log p = drop (Z.to_nat (rl_base_index (rs_log s))) F) \/
  (rs_pending s = [CompactThrough (rl_base_index (rs_log s))] /\ store_ok F (rl_base_index (rs_log s)) (pr_log p)).

Lemma stored_no_hard F s p : stored F s p -> no_hard (rs_pending s).
Proof. intros [[-> _]|[-> _]]; by repeat constructor. Qed.

Lemma stored_ok F s p : full_log F (rs_log s) -> stored F s p -> store_ok F (rl_base_index (rs_log s)) (pr_log p).
Proof. intros Hl [[_ ->]|[_ ?]]; [|done]. apply store_exact; apply Hl. Qed.

Lemma stored_durable F s p :
  full_log F (rs_log s) -> stored F s p ->
  pr_current_term p = rs_current_term s -> pr_voted_for p = rs_voted_for s -> raft_inv p s.
Proof.
  intros Hl Hst E1 E2. split; [by eapply full_wf|]. destruct Hst as [[Ep El]|[Ep Hok]]; split; rewrite ?Ep; try done.
  - cbn. by rewrite (fl_entries _ _ Hl).
  - by intros t v ?%elem_of_nil.
  - by right.
  - cbn. rewrite (fl_entries _ _ Hl). by apply store_compacted.
  - intros t v Hin. by apply list_elem_of_singleton in Hin.
  - by right.
Qed.

Lemma torn_app a x y : torn_prefix a (x ++ y) -> torn_prefix a x \/ exists a', a = x ++ a' /\ torn_prefix a' y.
Proof.
  revert a. induction x as [|op x IH]; intros a H; [right; by exists a|]. cbn in H. inversion H as [|? a1 ? H1|es n ?]; subst.
  - left. constructor.
  - destruct (IH a1 H1) as [?|(a' & -> & ?)]; [left; by constructor|right]. by exists a'.
  - left. constructor.
Qed.

Lemma torn_single a op : torn_prefix a [op] -> (forall es, op <> Append es) -> a = [] \/ a = [op].
Proof.
  inversion 1 as [|? a1 ? H1|]; subst; intros Hn; [by left| |exfalso; by eapply Hn]. inversion H1; subst. by right.
Qed.

Lemma mem_persist_app p a b : mem_persist p (a ++ b) = mem_persist (mem_persist p a) b.
Proof. apply fold_left_app. Qed.

(** ** Restarting *)

(** The base a snapshot file gives, and what it has to be. *)
Definition snap_base (snap : option persisted_snapshot) : Z :=
  match snap with Some sn => ps_last_index sn | None => 0 end.

Definition snap_ok (F : list log_entry) (snap : option persisted_snapshot) : Prop :=
  match snap with
  | Some sn => 0 < ps_last_index sn /\ term_in F (ps_last_index sn) = Some (ps_last_term sn)
  | None => True
  end.

(** What a snapshot leaves of the log file. *)
Lemma restored_entries F p li lt :
  store_ok F li (pr_log p) -> 0 < li < U64_MAX ->
  rl_entries (compact_through (into_log p) li lt) = drop (Z.to_nat li) F.
Proof.
  intros (b0 & H1 & H2 & H3) Hb. rewrite <- H3. unfold compact_through.
  rewrite (proj2 (Z.leb_gt _ _)) by (cbn; lia). cbn.
  destruct (pr_log p) as [|e es]; cbn; [by rewrite !drop_nil|]. destruct H2 as [He _]. rewrite He.
  unfold sat_add_u64, sat_sub_u64. rewrite (Z.min_l (li + 1)) by lia. rewrite (Z.max_l _ 0) by lia.
  replace (li + 1 - (b0 + 1)) with (li - b0) by lia.
  destruct (Z.min_spec (li - b0) (len (e :: es))) as [[_ ->]|[Hle ->]]; [done|].
  rewrite !drop_ge; [done|unfold len in *; lia..].
Qed.

Lemma restore_total i peers noop p snap F :
  contiguous 0 F -> store_ok F (snap_base snap) (pr_log p) -> snap_ok F snap -> snap_base snap < U64_MAX ->
  is_Some (restore (raft_new i peers noop) p snap).
Proof.
  intros Hc Hok Hsn Hb. unfold restore. cbv zeta.
  set (s0 := set_log (set_hard (raft_new i peers noop) _ _) (into_log p)).
  set (s1 := match snap with Some _ => _ | None => s0 end).
  assert (contiguous (rl_base_index (rs_log s1)) (rl_entries (rs_log s1))) as Hcon.
  { subst s1. destruct snap as [sn|]; cbn [snap_base snap_ok] in *.
    - destruct Hsn as [Hpos Hterm]. pose proof (term_in_bound _ _ _ Hterm) as Hlen.
      assert (forall s, rs_log s = into_log p ->
        contiguous (ps_last_index sn) (rl_entries (compact_through (rs_log s) (ps_last_index sn) (ps_last_term sn)))) as Hgo.
      { intros s ->. rewrite (restored_entries F) by (done || lia). eapply contiguous_drop; [done|]. unfold len in Hlen. lia. }
      assert (rs_log (match head (rl_entries (rs_log s0)) with
        | Some e => if e_index e <=? ps_last_index sn then push_pending s0 (CompactThrough (ps_last_index sn)) else s0
        | None => s0 end) = into_log p) as Hl by (by repeat case_match).
      specialize (Hgo _ Hl). revert Hgo. generalize (match head (rl_entries (rs_log s0)) with
        | Some e => if e_index e <=? ps_last_index sn then push_pending s0 (CompactThrough (ps_last_index sn)) else s0
        | None => s0 end). intros s Hgo. by repeat case_match.
    - destruct Hok as (b0 & H1 & H2 & _). cbn. by replace b0 with 0 in H2 by lia. }
  clearbody s1. destruct (rl_entries (rs_log s1)) as [|e es]; cbn; [by eexists|].
  destruct Hcon as [He _]. rewrite He, Z.eqb_refl. by eexists.
Qed.

Lemma restore_spec i peers noop p snap F s' :
  contiguous 0 F -> store_ok F (snap_base snap) (pr_log p) -> snap_ok F snap -> snap_base snap < U64_MAX ->
  restore (raft_new i peers noop) p snap = Some s' ->
  full_log F (rs_log s') /\ rl_base_index (rs_log s') = snap_base snap /\
  rs_commit_index s' = snap_base snap /\ rs_last_applied s' = snap_base snap /\ stored F s' p.
Proof.
  intros Hc Hok Hsn Hb Hr. unfold restore in Hr. cbv zeta in Hr. destruct snap as [sn|]; cbn [snap_base snap_ok] in *.
  2:{ destruct Hok as (b0 & H1 & H2 & H3). replace b0 with 0 in * by lia. rewrite !drop_0 in H3. cbn in Hr.
      assert (s' = set_log (set_hard (raft_new i peers noop) (pr_current_term p) (pr_voted_for p)) (into_log p)) as ->.
      { destruct (head (pr_log p)) as [e|]; [|by injection Hr as <-]. cbn in Hr. by case_if_in Hr; simplify_eq. }
      unfold into_log, stored. cbn. rewrite H3, drop_0. split_and!; try done; [split; cbn; try done; len_lia|by left]. }
  destruct Hsn as [Hpos Hterm]. set (li := ps_last_index sn) in *. pose proof (term_in_bound _ _ _ Hterm) as Hlen.
  pose proof Hok as (b0 & H1 & H2 & H3). cbn in Hr.
  set (l1 := compact_through (into_log p) li (ps_last_term sn)) in *.
  assert (rl_entries l1 = drop (Z.to_nat li) F) as El.
  { apply restored_entries; [done|lia]. }
  assert (rs_log s' = mkLog (rl_entries l1) li (ps_last_term sn) -> rs_commit_index s' = li -> rs_last_applied s' = li ->
    (rs_pending s' = [] /\ pr_log p = drop (Z.to_nat li) F \/ rs_pending s' = [CompactThrough li]) ->
    full_log F (rs_log s') /\ rl_base_index (rs_log s') = li /\ rs_commit_index s' = li /\ rs_last_applied s' = li /\
    stored F s' p) as Hgen.
  { intros E1 E2 E3 E4. rewrite E1, E2, E3. split_and!; try done.
    unfold stored. rewrite E1. cbn. destruct E4 as [[-> E4]| ->]; [by left|right]. by split. }
  assert ((0 <? li) = true) as Elt by (apply Z.ltb_lt; lia).
  assert (rs_log s' = mkLog (rl_entries l1) li (ps_last_term sn) /\ rs_commit_index s' = li /\ rs_last_applied s' = li /\
    (rs_pending s' = [CompactThrough li] \/
     (rs_pending s' = [] /\ forall e, head (pr_log p) = Some e -> li < e_index e))) as (E1 & E2 & E3 & E4).
  { destruct (head (pr_log p)) as [e|] eqn:Eh; [destruct (e_index e <=? li) eqn:Ele|];
      cbn in Hr; rewrite ?Elt in Hr; cbn in Hr; rewrite ?Elt in Hr; cbn in Hr; fold l1 in Hr;
      (destruct (head (rl_entries l1)); [case_if_in Hr|]); simplify_eq; split_and!; try reflexivity;
      try (left; reflexivity); (right; split; [reflexivity|]); intros e' [= <-]; boolp; lia. }
  apply Hgen; try done. destruct E4 as [?|[? E4]]; [by right|left]. split; [done|].
  destruct (pr_log p) as [|e es]; [by rewrite <- H3, drop_nil|]. specialize (E4 e eq_refl). destruct H2 as [? _].
  assert (b0 = li) as -> by lia. rewrite Z.sub_diag in H3. by rewrite <- H3.
Qed.

(** ** Part of the operations *)

(** The log file after part of the operations of an event: everything, nothing that
    matters, or part of a follower's append. *)
Inductive torn_log (F : list log_entry) (s : raft_state) (ev : raft_event) (s' : raft_state) (p q : persisted_raft) : Prop :=
| torn_nothing :
    store_ok F (rl_base_index (rs_log s)) (pr_log q) ->
    (pr_current_term q = pr_current_term p /\ pr_voted_for q = pr_voted_for p \/
     pr_current_term q = rs_current_term s' /\ pr_voted_for q = rs_voted_for s' /\
     exists op lops, log_ops s ev s' (op :: lops)) ->
    torn_log F s ev s' p q
| torn_replace ae progress l' c (n : nat) :
    ev = EvMessage (AppendEntries ae) progress -> ae_term ae = rs_current_term s' ->
    ae_consistent (rs_log s) ae = true -> ae_entries ae <> [] ->
    append_at (rs_log s) (sat_add_u64 (ae_prev_log_index ae) 1) (ae_entries ae) (rs_commit_index s) = Some (l', Some c) ->
    rs_log s' = l' -> (exists op lops, log_ops s ev s' (op :: lops)) ->
    pr_current_term q = rs_current_term s' -> pr_voted_for q = rs_voted_for s' ->
    pr_log q = take (Z.to_nat (c - rl_base_index (rs_log s) - 1)) (rl_entries (rs_log s)) ++ take n (log_slice l' c U64_MAX) ->
    torn_log F s ev s' p q.

Lemma torn_spec F s ev s' p applied :
  full_log F (rs_log s) -> stored F s p -> pr_current_term p = rs_current_term s -> pr_voted_for p = rs_voted_for s ->
  adds s ev s' (rs_pending s) -> torn_prefix applied (rs_pending s') ->
  applied = rs_pending s' \/ torn_log F s ev s' p (mem_persist p applied).
Proof.
  intros Hl Hst Ept Epv (hops & lops & Ep & Hlo & Hh) Ht. rewrite Ep in Ht. pose proof (stored_ok F s p Hl Hst) as Hok.
  set (b := rl_base_index (rs_log s)) in *.
  apply torn_app in Ht as [Ht|(a1 & -> & Ht)].
  { right. apply torn_nothing.
    - destruct Hst as [[E _]|[E Hs]]; rewrite E in Ht.
      + inversion Ht; subst. done.
      + apply torn_single in Ht as [->| ->]; [done| |done]. cbn. apply store_compact; [done|]. fold b. lia.
    - left. destruct Hst as [[E _]|[E _]]; rewrite E in Ht.
      + by inversion Ht; subst.
      + by apply torn_single in Ht as [->| ->]. }
  set (p1 := mem_persist p (rs_pending s)).
  assert (pr_log p1 = drop (Z.to_nat b) F /\ pr_current_term p1 = pr_current_term p /\ pr_voted_for p1 = pr_voted_for p)
    as (El1 & Et1 & Ev1).
  { unfold p1. destruct Hst as [[-> E]|[-> Hs]]; [done|]. cbn. split_and!; [by apply store_compacted|done|done]. }
  assert (forall q, pr_log q = drop (Z.to_nat b) F -> store_ok F b (pr_log q)) as Hexact.
  { intros q ->. apply store_exact; apply Hl. }
  rewrite mem_persist_app. fold p1. apply torn_app in Ht as [Ht|(a2 & -> & Ht)].
  { destruct Hh as [(-> & E1 & E2)| ->].
    - inversion Ht; subst. right. apply torn_nothing; [by apply Hexact|by left].
    - apply torn_single in Ht as [->| ->]; [|..|done].
      + right. apply torn_nothing; [by apply Hexact|by left].
      + destruct lops as [|op lops]; [left; rewrite Ep; by rewrite app_nil_r|]. right. apply torn_nothing; cbn; [by apply Hexact|].
        right. split_and!; [done|done|by eexists _, _]. }
  set (p2 := mem_persist p1 hops).
  assert (pr_log p2 = drop (Z.to_nat b) F /\ pr_current_term p2 = rs_current_term s' /\ pr_voted_for p2 = rs_voted_for s')
    as (El2 & Et2 & Ev2).
  { unfold p2. destruct Hh as [(-> & E1 & E2)| ->]; cbn; [|done]. by rewrite El1, Et1, Ev1, E1, E2. }
  assert (forall q op lops', lops = op :: lops' -> pr_log q = drop (Z.to_nat b) F ->
    pr_current_term q = rs_current_term s' -> pr_voted_for q = rs_voted_for s' -> torn_log F s ev s' p q) as Hnone.
  { intros q op lops' -> Q1 Q2 Q3. apply torn_nothing; [by apply Hexact|]. right. split_and!; [done|done|by eexists _, _]. }
  rewrite mem_persist_app. fold p2. rewrite Ep. clear Ep Hh.
  assert (forall op, lops = [op] -> (forall es, op <> Append es) ->
    rs_pending s ++ hops ++ a2 = rs_pending s ++ hops ++ lops \/ torn_log F s ev s' p (mem_persist p2 a2)) as Hsingle.
  { intros op -> Hop. apply torn_single in Ht as [->| ->]; [right|by left|done]. cbn. by eapply Hnone. }
  pose proof Hlo as Hlo'. destruct Hlo as [|e Hr He1 He2 El|ae progress l' c H1 H2 H3 H4 H5 H6|m progress|m progress|data through snap];
    [| | |by eapply Hsingle..].
  - inversion Ht; subst. by left.
  - inversion Ht as [|? a' ? Ht'|? n ?]; subst.
    + right. by eapply Hnone.
    + inversion Ht'; subst. by left.
    + destruct n as [|n]; [|left; by rewrite take_ge by (cbn; lia)]. right.
      eapply Hnone; [reflexivity|cbn; by rewrite app_nil_r|done|done].
  - inversion Ht as [|? a' ? Ht'|]; subst; [right; by eapply Hnone|].
    assert (filter (fun e => e_index e < c) (pr_log p2) =
      take (Z.to_nat (c - b - 1)) (rl_entries (rs_log s))) as Etr.
    { rewrite El2, (fl_entries _ _ Hl). apply contiguous_filter_lt. eapply contiguous_drop; [apply Hl|].
      pose proof (fl_base _ _ Hl) as Hb. fold b in Hb. unfold len in Hb. lia. }
    inversion Ht' as [|? a'' ? Ht''|? n ?]; subst.
    + right. eapply (torn_replace _ _ _ _ _ _ ae progress _ c 0); try done; [by eexists _, _|]. cbn. by rewrite Etr, app_nil_r.
    + inversion Ht''; subst. by left.
    + right. eapply (torn_replace _ _ _ _ _ _ ae progress _ c n); try done; [by eexists _, _|]. cbn. by rewrite Etr.
Qed.
