(* ===== verification/RaftRestart.v ===== *)
(** * Crashes and the history

    Whatever part of an event reached the two files of a node, the node that comes
    up from them fits the history of the cluster. *)

From S2P Require Export RaftCrash.

#[local] Open Scope Z_scope.

Section Restart.
Context (members : list Z) (Hmem : NoDup members).
#[local] Abbreviation committed_upto := (committed_upto members).
#[local] Abbreviation kept := (kept members).
#[local] Abbreviation ghost_inv := (ghost_inv members).
#[local] Abbreviation node_core := (node_core members).
#[local] Abbreviation msg_ok := (msg_ok members).

(** A node between two events, with its files. *)
Record node_rest (G : ghost) (i : Z) (s : raft_state) (p : persisted_raft) (snap : option persisted_snapshot)
  (F : list log_entry) : Prop := {
  nr_core : node_core G i s F;
  nr_stored : stored F s p;
  nr_hard : pr_current_term p = rs_current_term s /\ pr_voted_for p = rs_voted_for s;
  nr_base : rl_base_index (rs_log s) = snap_base snap;
  nr_snap : snap_ok F snap }.

(** A restarted node. *)
Lemma restart_rest G i peers noop q snap F s' :
  kept G i (pr_current_term q) F (snap_base snap) -> 0 <= pr_current_term q -> contiguous 0 F ->
  store_ok F (snap_base snap) (pr_log q) -> snap_ok F snap -> snap_base snap < U64_MAX ->
  restore (raft_new i peers noop) q snap = Some s' -> node_rest G i s' q snap F.
Proof.
  intros HK Ht Hc Hst Hsn Hb Hr. pose proof (restore_fields _ _ _ _ _ _ Hr) as (Hme & Hps & Hrole & Et & Ev & _).
  destruct (restore_spec i peers noop q snap F s' Hc Hst Hsn Hb Hr) as (Hl & Eb & Ec & Ea & Hstored).
  split; try done. split; rewrite ?Et, ?Eb, ?Ec; try done.
  - unfold raft_wf. rewrite Eb, Ec, Ea, (full_last _ _ Hl). pose proof (fl_base _ _ Hl). rewrite Eb in *.
    split; [by eapply full_wf|]. lia.
  - apply HK.
  - by right.
  - by rewrite Hrole.
  - by rewrite Hrole.
Qed.

(** The snapshot file after an event: a new one exactly when the base moved. *)
Definition snap_after (s s' : raft_state) (snap snap' : option persisted_snapshot) : Prop :=
  (rl_base_index (rs_log s') = rl_base_index (rs_log s) /\ snap' = snap) \/
  (rl_base_index (rs_log s) < rl_base_index (rs_log s') /\ exists sn, snap' = Some sn /\
     ps_last_index sn = rl_base_index (rs_log s') /\ ps_last_term sn = rl_base_term (rs_log s')).

Section Event.
Context (V V' : votes) (G : ghost) (i : Z) (s : raft_state) (p : persisted_raft) (snap snap' : option persisted_snapshot).
Context (F : list log_entry) (ev : raft_event).
#[local] Abbreviation s1 := (fst (node_event s ev)).
Context (HG : ghost_inv V G) (Hn : node_rest G i s p snap F) (Hp : i :: rs_peers s ≡ₚ members).
Context (Hm : match ev with EvMessage m _ => msg_ok G i m | _ => True end).
Context (Hfit : event_fits s ev) (Hok : event_term_ok s ev).
Context (Hli : match ev with EvMessage (InstallSnapshot m) _ => is_last_index m < U64_MAX | _ => True end).
Context (Hpast : forall u c, V i u = Some c -> u <= rs_current_term s).
Context (Hvoted : forall c, rs_voted_for s = Some c -> V i (rs_current_term s) = Some c).
Context (Hsnap : snap_after s s1 snap snap').

#[local] Lemma rest_core : node_core G i s F. Proof. apply Hn. Qed.
#[local] Lemma rest_log : full_log F (rs_log s). Proof. apply rest_core. Qed.
#[local] Lemma rest_kept : kept G i (rs_current_term s) F (rl_base_index (rs_log s)). Proof. apply rest_core. Qed.

Lemma rest_adds : adds s ev s1 (rs_pending s).
Proof. apply event_adds. eapply stored_no_hard, Hn. Qed.

(** A last chunk is from the node's own term: the leader has heard from it. *)
Lemma install_term m progress :
  ev = EvMessage (InstallSnapshot m) progress -> is_term m = rs_current_term s1 -> is_done m = true ->
  is_term m = rs_current_term s /\ rs_current_term s1 = rs_current_term s.
Proof.
  intros E Et Hd. assert (rs_current_term s <= rs_current_term s1) as Hge by (apply (es_term s ev _ _ (node_event_elect s ev Hok))).
  rewrite E in Hm. destruct Hm as (_ & _ & _ & _ & Hseen).
  pose proof (proj2 (proj2 (proj2 (kp_past _ _ _ _ _ _ rest_kept))) _ (Hseen Hd)). lia.
Qed.

(** A follower's append leaves the base. *)
Lemma replace_base ae progress l' c :
  ev = EvMessage (AppendEntries ae) progress -> ae_consistent (rs_log s) ae = true ->
  append_at (rs_log s) (sat_add_u64 (ae_prev_log_index ae) 1) (ae_entries ae) (rs_commit_index s) = Some (l', Some c) ->
  rl_base_index l' = rl_base_index (rs_log s) /\ rl_base_term l' = rl_base_term (rs_log s) /\
  sat_add_u64 (ae_prev_log_index ae) 1 = ae_prev_log_index ae + 1 /\ 0 <= ae_prev_log_index ae <= last_index (rs_log s).
Proof.
  intros E Hcon Hap. pose proof (full_wf _ _ rest_log) as Hwf. pose proof Hm as Hm'. rewrite E in Hm'.
  destruct Hm' as (_ & (Hprev & _) & _). pose proof (ae_consistent_start _ ae Hwf Hprev Hcon) as Hps.
  pose proof Hfit as [Hf _]. rewrite E in Hf. cbn [event_len] in Hf.
  assert (sat_add_u64 (ae_prev_log_index ae) 1 = ae_prev_log_index ae + 1) as Esat by (unfold sat_add_u64; len_lia).
  rewrite Esat in Hap. apply append_at_Some in Hap as (_ & E1 & E2 & _); [done|done|lia].
Qed.

(** The term of the base moves with it. *)
Lemma base_term_kept : rl_base_index (rs_log s1) = rl_base_index (rs_log s) -> rl_base_term (rs_log s1) = rl_base_term (rs_log s).
Proof.
  intros Eb. pose proof rest_log as Hl. destruct rest_adds as (hops & lops & _ & Hlo & _).
  destruct Hlo as [El|e _ _ _ El|ae progress l' c E H2 H3 H4 H5 El|m progress E Et Hd Hb _ El|m progress E Et Hd Hb _ El|data through sn E Hs].
  - by rewrite El.
  - by rewrite El.
  - rewrite El. by destruct (replace_base ae progress l' c E H3 H5) as (_ & ? & _).
  - rewrite El, compact_through_eq in Eb; [cbn in Eb; lia|by eapply full_wf|destruct Hfit as [Hf _]; rewrite E in Hf; cbn in Hf; lia|lia].
  - rewrite El in Eb. cbn in Eb. lia.
  - rewrite E in Hfit. destruct Hfit as [Hf _]. cbn in Hf.
    unfold take_snapshot in Hs. cbv zeta in Hs. set (c := Z.min _ _) in *. destruct (_ || _) eqn:Eo; [done|].
    apply orb_false_iff in Eo as [_ Eo]. boolp. destruct (term_at (rs_log s) c) as [g|]; [|done]. cbn in Hs. injection Hs as Es _.
    rewrite <- Es in Eb. cbn in Eb. rewrite compact_through_eq in Eb; [cbn in Eb; lia|by eapply full_wf|lia|lia].
Qed.

(** A vote that was stored although the event was not finished. *)
Lemma crash_votes q :
  (forall s', rs_current_term s' = pr_current_term q -> rs_voted_for s' = pr_voted_for q -> vote_step V V' i s') ->
  pr_current_term q = pr_current_term p /\ pr_voted_for q = pr_voted_for p \/
  pr_current_term q = rs_current_term s1 /\ pr_voted_for q = rs_voted_for s1 /\
    (exists op lops, log_ops s ev s1 (op :: lops)) ->
  ghost_inv V' G.
Proof.
  intros Hvs Hq. destruct (nr_hard _ _ _ _ _ _ Hn) as [Ep1 Ep2]. destruct Hq as [[E1 E2]|(E1 & E2 & op & lops & Hlo)].
  - eapply ghost_inv_same; [done|]. eapply (vote_step_same V V' i s s); [|done|by right]. apply Hvs; congruence.
  - pose proof (Hvs s1 (eq_sym E1) (eq_sym E2)) as Hvs1.
    destruct (event_vote s ev Hok) as [[El (rv & progress & E)]|[(Et & Ev & E)|Hsame]].
    + exfalso. assert (forall l e, rl_entries l <> rl_entries (set_entries l (rl_entries l ++ [e]))) as Hne.
      { intros l e He. cbn in He. apply (f_equal length) in He. rewrite length_app in He. cbn in He. lia. }
      inversion Hlo; subst; try done.
      match goal with H : rs_log _ = set_entries _ (_ ++ [?e]) |- _ => apply (Hne (rs_log s) e); by rewrite <- H, El end.
    + pose proof (nc_me _ _ _ _ _ rest_core) as Hme. destruct Hvs1 as [Hmono Hnew].
      eapply (add_vote_inv members V V' G i (rs_current_term s + 1) i F); [done|eapply kept_term; [apply rest_kept|lia]|done| | | |done].
      * intros j v c Hv. apply Hnew in Hv as [?|(-> & -> & Hc)]; [by left|right]. rewrite Et, Ev in *. split_and!; [done|done|congruence].
      * intros v c Hv. apply Hpast in Hv. lia.
      * intros K HK. pose proof (proj1 (proj2 (proj2 (kp_past _ _ _ _ _ _ rest_kept))) _ _ HK). lia.
    + eapply ghost_inv_same; [done|]. eapply vote_step_same; [done|done|done].
Qed.

(** What a restart has to find. *)
Definition files_ok (V' : votes) (G : ghost) (q : persisted_raft) : Prop :=
  exists G' F', grow i (pr_current_term q) G G' /\ ghost_inv V' G' /\
    kept G' i (pr_current_term q) F' (snap_base snap') /\ contiguous 0 F' /\
    store_ok F' (snap_base snap') (pr_log q) /\ snap_ok F' snap'.

(** The snapshot file goes with the log. *)
Lemma snap_fits G1 F1 : node_core G1 i s1 F1 -> rl_base_index (rs_log s1) = snap_base snap' /\ snap_ok F1 snap'.
Proof.
  intros Hc1. pose proof (nc_log _ _ _ _ _ Hc1) as Hl1. destruct Hsnap as [[Eb ->]|(Hlt & sn & -> & E1 & E2)].
  - rewrite Eb. split; [apply Hn|]. pose proof (nr_snap _ _ _ _ _ _ Hn) as Hsn. pose proof (nr_base _ _ _ _ _ _ Hn) as Eb0.
    pose proof (fl_term _ _ Hl1) as Ht1. rewrite Eb, (base_term_kept Eb), Eb0 in Ht1.
    pose proof (fl_term _ _ rest_log) as Ht. rewrite Eb0 in Ht. destruct snap as [sn|]; [|done].
    destruct Hsn as [Hpos Hterm]. split; [done|]. cbn in *. congruence.
  - cbn. rewrite E1, E2. split; [done|]. pose proof (fl_base _ _ rest_log). split; [lia|apply Hl1].
Qed.

(** The store after the event. *)
Lemma rest_persisted : mem_persist p (rs_pending s1) = snapshot_persistent s1.
Proof.
  destruct (nr_hard _ _ _ _ _ _ Hn) as [Ep1 Ep2].
  pose proof (stored_durable F s p rest_log (nr_stored _ _ _ _ _ _ Hn) Ep1 Ep2) as Hinv.
  destruct (node_event_inv p s ev Hinv Hfit) as [_ Hd]. exact (durable_persisted p s1 Hd).
Qed.

(** All operations were written. *)
Lemma crash_full :
  (forall s', rs_current_term s' = rs_current_term s1 -> rs_voted_for s' = rs_voted_for s1 -> vote_step V V' i s') ->
  (rs_role s1 = Leader -> ~ (rs_role s = Leader /\ rs_current_term s1 = rs_current_term s) ->
   exists Q, majority members Q /\ forall j, j ∈ Q -> V' j (rs_current_term s1) = Some i) ->
  files_ok V' G (mem_persist p (rs_pending s1)).
Proof.
  intros Hvs Hwin. pose proof (Hvs s1 eq_refl eq_refl) as Hvs1.
  destruct (event_core members Hmem V V' G i s F ev HG rest_core Hp Hm Hfit Hok Hpast Hvoted Hvs1 Hwin) as (G1 & F1 & Hg & HG1 & Hc1 & _).
  rewrite rest_persisted. pose proof (nc_log _ _ _ _ _ Hc1) as Hl1. destruct (snap_fits G1 F1 Hc1) as [Eb Hs].
  exists G1, F1. cbn [snapshot_persistent from_runtime pr_current_term pr_log]. split_and!; [done|done| |apply Hl1| |done].
  - rewrite <- Eb. apply Hc1.
  - rewrite <- Eb, (fl_entries _ _ Hl1). apply store_exact; apply Hl1.
Qed.

(** Nothing of the log operations was. *)
Lemma crash_nothing q :
  store_ok F (rl_base_index (rs_log s)) (pr_log q) -> ghost_inv V' G ->
  pr_current_term q = rs_current_term s \/ pr_current_term q = rs_current_term s1 -> files_ok V' G q.
Proof.
  intros Hst HG' Hq. pose proof rest_kept as HK. pose proof rest_log as Hl. pose proof (nr_base _ _ _ _ _ _ Hn) as Eb0.
  assert (rs_current_term s <= rs_current_term s1) as Hge by (apply (es_term s ev _ _ (node_event_elect s ev Hok))).
  assert (kept G i (pr_current_term q) F (rl_base_index (rs_log s))) as HKq by (eapply kept_term; [done|lia]).
  destruct Hsnap as [[_ Es]|(Hlt & sn & Es & E1 & E2)].
  { unfold files_ok. rewrite Es, <- Eb0. exists G, F. split_and!; [apply grow_refl|done|done|apply Hl|done|apply Hn]. }
  unfold files_ok. rewrite Es. cbn [snap_base snap_ok]. rewrite E1, E2.
  destruct rest_adds as (hops & lops & _ & Hlo & _).
  destruct Hlo as [El|e _ _ _ El|ae progress l' c E H2 H3 H4 H5 El|m progress E Et Hd Hb Hterm El|m progress E Et Hd Hb Hterm El|data through sn' E Hs].
  - rewrite El in Hlt. lia.
  - rewrite El in Hlt. cbn in Hlt. lia.
  - destruct (replace_base ae progress l' c E H3 H5) as (Ebl & _). rewrite El, Ebl in Hlt. lia.
  - destruct (install_term m progress E Et Hd) as [Etm Et1]. rewrite E in Hm.
    destruct (install_keeps members Hmem V' G HG' i _ F _ Hl HK m Etm Hm Hb Hterm) as [Hag HK'].
    assert (pr_current_term q = rs_current_term s) as -> by lia.
    rewrite El, compact_through_eq by (try (by eapply full_wf); destruct Hfit as [Hf _]; rewrite E in Hf; cbn in Hf; lia). cbn.
    rewrite (full_term_at _ _ Hl) in Hterm by lia.
    exists G, F. split_and!; [apply grow_refl|done|done|apply Hl| |pose proof (fl_base _ _ Hl); lia|done].
    eapply store_rebase; [done|lia|done].
  - destruct (install_term m progress E Et Hd) as [Etm Et1]. rewrite E in Hm.
    pose proof (install_facts members G i _ m Etm Hm) as (Hw & Hlen & EP & Hcu).
    assert (pr_current_term q = rs_current_term s) as -> by lia. rewrite El. cbn.
    rewrite (full_term_at _ _ Hl) in Hterm by lia. pose proof (fl_base _ _ Hl) as Hb0.
    set (P := gh_lead G (rs_current_term s)) in *.
    assert (len (pfx (is_last_index m) P) = is_last_index m) as Hlp by (apply len_pfx; lia).
    exists G, (pfx (is_last_index m) P ++ drop (Z.to_nat (is_last_index m)) F). split_and!.
    + apply grow_refl.
    + done.
    + eapply (kept_stale members V' G HG' Hmem); [done|done|fold P; lia|done|]. fold P. by rewrite EP.
    + rewrite contiguous_app, Hlp. split; [apply contiguous_take, (gi_contig _ _ _ HG)|].
      destruct (decide (len F <= is_last_index m)) as [Hle|Hgt]; [by rewrite drop_ge by (unfold len in *; lia)|].
      eapply contiguous_drop; [apply Hl|]. unfold len in *. lia.
    + eapply store_rebase; [done|lia|]. rewrite drop_app_ge by (unfold len in Hlp; lia).
      unfold len in Hlp. by replace (Z.to_nat (is_last_index m) - length (pfx (is_last_index m) P))%nat with 0%nat by lia.
    + lia.
    + rewrite term_in_app_l by lia. by rewrite term_in_pfx by lia.
  - rewrite E in Hfit. destruct Hfit as [Hf _]. cbn in Hf.
    destruct (take_snapshot_core members V V G i s F data through s1 sn' HG rest_core ltac:(lia) Hvoted Hs)
      as (_ & Hc1 & _ & _); [split; auto|].
    pose proof (nc_log _ _ _ _ _ Hc1) as Hl1. exists G, F.
    split_and!; [apply grow_refl|done| |apply Hl| |pose proof (fl_base _ _ Hl); lia|apply Hl1].
    + eapply kept_term; [apply Hc1|]. destruct (take_snapshot_hard _ _ _ _ _ Hs) as (? & _). lia.
    + eapply store_rebase; [done|lia|done].
Qed.

(** Part of a follower's append was. *)
Lemma crash_replace q ae progress l' c (n : nat) :
  ev = EvMessage (AppendEntries ae) progress -> ae_term ae = rs_current_term s1 ->
  ae_consistent (rs_log s) ae = true -> ae_entries ae <> [] ->
  append_at (rs_log s) (sat_add_u64 (ae_prev_log_index ae) 1) (ae_entries ae) (rs_commit_index s) = Some (l', Some c) ->
  rs_log s1 = l' -> pr_current_term q = rs_current_term s1 -> ghost_inv V' G ->
  pr_log q = take (Z.to_nat (c - rl_base_index (rs_log s) - 1)) (rl_entries (rs_log s)) ++ take n (log_slice l' c U64_MAX) ->
  files_ok V' G q.
Proof.
  intros E Et Hcon Hne Hap El Etq HG' Elq. pose proof rest_kept as HK. pose proof rest_log as Hl.
  assert (rs_current_term s <= rs_current_term s1) as Hge by (apply (es_term s ev _ _ (node_event_elect s ev Hok))).
  apply (kept_term _ _ _ _ (rs_current_term s1)) in HK; [|done].
  destruct (replace_base ae progress l' c E Hcon Hap) as (_ & _ & Esat & Hps). rewrite Esat in Hap.
  rewrite E in Hm, Hfit. destruct Hfit as [Hf _]. cbn [event_len] in Hf.
  destruct (ae_append_at members Hmem V' G HG' i _ F _ Hl HK ae Et Hm Hcon _ l' (Some c) Hne Hap)
    as (Hfl & Eb & Hc1 & Hc2 & Hagc & Hdiff & Edrop).
  set (P := gh_lead G (rs_current_term s1)) in *. set (b := rl_base_index (rs_log s)) in *.
  set (upto := ae_prev_log_index ae + len (ae_entries ae)) in *.
  pose proof (ae_slice members G i _ ae Et Hm) as (_ & Hu & _). fold upto P in Hu. pose proof (fl_base _ _ Hl) as Hb. fold b in Hb.
  assert (last_index l' < U64_MAX) as Hlast by (rewrite (full_last _ _ Hfl), len_pfx by lia; lia).
  rewrite log_slice_suffix in Elq; [|by eapply full_wf|rewrite Eb; lia|done].
  rewrite Eb in Elq. replace (c - b - 1) with (c - 1 - b) in Elq by lia. rewrite Edrop in Elq.
  set (x := Z.min (c - 1 + Z.of_nat n) upto).
  assert (pr_log q = drop (Z.to_nat b) (pfx x P)) as Eq.
  { rewrite Elq, (fl_entries _ _ Hl). fold b.
    assert (take (Z.to_nat (c - 1 - b)) (drop (Z.to_nat b) F) = drop (Z.to_nat b) (pfx (c - 1) P)) as ->.
    { destruct Hagc as (_ & _ & <-). unfold pfx. rewrite skipn_firstn_comm. f_equal. lia. }
    assert (take n (drop (Z.to_nat (c - 1)) (pfx upto P)) = drop (Z.to_nat (c - 1)) (pfx x P)) as ->.
    { unfold pfx. rewrite !skipn_firstn_comm, take_take. f_equal. unfold x. lia. }
    rewrite <- (pfx_pfx (c - 1) x P) by (unfold x; lia). rewrite <- (take_drop (Z.to_nat (c - 1)) (pfx x P)) at 3.
    rewrite drop_app_le; [done|]. unfold pfx. rewrite !length_take. unfold len in *. unfold x. lia. }
  assert (snap_base snap' = b /\ snap_ok F snap') as [Eb' Hs].
  { destruct Hsnap as [[_ ->]|(Hlt & _)]; [|rewrite El, Eb in Hlt; lia]. split; [symmetry; apply Hn|apply Hn]. }
  exists G, (pfx x P). rewrite Etq, Eb'. split_and!.
  - apply grow_refl.
  - done.
  - eapply (ae_partial members V' G HG' i _ F _ Hl HK ae Et Hm c); try done; try (unfold x; lia). intros h. by apply Hdiff.
  - apply contiguous_take, (gi_contig _ _ _ HG).
  - rewrite Eq. apply store_exact; [apply contiguous_take, (gi_contig _ _ _ HG)|]. rewrite len_pfx; unfold x; lia.
  - destruct snap' as [sn|]; [|done]. destruct Hs as [Hpos Hterm]. split; [done|]. cbn in Eb'.
    rewrite term_in_pfx by (unfold x; lia). by rewrite <- (agree_term _ _ _ _ Hagc) by lia.
Qed.

Lemma snap_bound : snap_base snap' < U64_MAX.
Proof.
  pose proof rest_log as Hl. pose proof (fl_base _ _ Hl) as Hb. pose proof (full_last _ _ Hl) as Elast.
  pose proof Hfit as [Hf _]. assert (0 <= event_len ev) as Hev by (destruct ev as [[]| | | |]; cbn; len_lia).
  assert (rl_base_index (rs_log s1) < U64_MAX) as Hb1.
  { destruct rest_adds as (hops & lops & _ & Hlo & _).
    destruct Hlo as [El|e _ _ _ El|ae progress l' c E H2 H3 H4 H5 El|m progress E Et Hd Hbm _ El|m progress E Et Hd Hbm _ El|data through sn E Hs].
    - rewrite El. lia.
    - rewrite El. cbn. lia.
    - rewrite El. destruct (replace_base ae progress l' c E H3 H5) as (-> & _). lia.
    - rewrite El, compact_through_eq; [|by eapply full_wf|lia|done]. cbn. by rewrite E in Hli.
    - rewrite El. cbn. by rewrite E in Hli.
    - destruct (take_snapshot_core members V V G i s F data through s1 sn HG rest_core ltac:(lia) Hvoted Hs)
        as (_ & Hc1 & _ & _); [split; auto|]. pose proof (fl_base _ _ (nc_log _ _ _ _ _ Hc1)). lia. }
  destruct Hsnap as [[_ ->]|(_ & sn & -> & E1 & _)]; [rewrite <- (nr_base _ _ _ _ _ _ Hn); lia|]. cbn. lia.
Qed.

(** A crash with the operations [applied]. *)
Lemma crash_files applied :
  torn_prefix applied (rs_pending s1) ->
  (forall s', rs_current_term s' = pr_current_term (mem_persist p applied) ->
     rs_voted_for s' = pr_voted_for (mem_persist p applied) -> vote_step V V' i s') ->
  (pr_current_term (mem_persist p applied) = rs_current_term s1 -> pr_voted_for (mem_persist p applied) = rs_voted_for s1 ->
   rs_role s1 = Leader -> ~ (rs_role s = Leader /\ rs_current_term s1 = rs_current_term s) ->
   exists Q, majority members Q /\ forall j, j ∈ Q -> V' j (rs_current_term s1) = Some i) ->
  files_ok V' G (mem_persist p applied) /\ 0 <= pr_current_term (mem_persist p applied).
Proof.
  intros Ht Hvq Hwin. set (q := mem_persist p applied) in *.
  destruct (nr_hard _ _ _ _ _ _ Hn) as [Ep1 Ep2]. pose proof (nc_term _ _ _ _ _ rest_core) as Hnn.
  assert (rs_current_term s <= rs_current_term s1) as Hge by (apply (es_term s ev _ _ (node_event_elect s ev Hok))).
  destruct (torn_spec F s ev s1 p applied rest_log (nr_stored _ _ _ _ _ _ Hn) Ep1 Ep2 rest_adds Ht) as [Efull|Htorn].
  - assert (q = snapshot_persistent s1) as Eq by (unfold q; by rewrite Efull, rest_persisted).
    rewrite Eq in Hvq, Hwin |- *. cbn in Hvq, Hwin |- *. rewrite <- rest_persisted. split; [|lia].
    apply crash_full; [done|by apply Hwin].
  - fold q in Htorn. destruct Htorn as [Hst Hq|ae progress l' c n E H1 H2 H3 H4 H5 H6 H7 H8 H9].
    + split; [|destruct Hq as [[-> _]|[-> _]]; lia]. apply crash_nothing; [done|by apply (crash_votes q)|].
      destruct Hq as [[-> _]|[-> _]]; rewrite ?Ep1; auto.
    + split; [|rewrite H7; lia]. eapply (crash_replace q ae progress l' c n); try done.
      apply (crash_votes q); [done|]. by right.
Qed.

End Event.

(** The restart succeeds, and the node fits the history. *)
Lemma files_restart V G i q snap peers noop :
  files_ok i snap V G q -> 0 <= pr_current_term q -> snap_base snap < U64_MAX ->
  exists s', restore (raft_new i peers noop) q snap = Some s' /\
    exists G' F', grow i (pr_current_term q) G G' /\ ghost_inv V G' /\ node_rest G' i s' q snap F'.
Proof.
  intros (G' & F' & Hg & HG' & HK' & Hc' & Hst' & Hsn') Hpos Hb.
  destruct (restore_total i peers noop q snap F' Hc' Hst' Hsn' Hb) as [s' Hr].
  exists s'. split; [done|]. exists G', F'. split_and!; [done|done|]. by eapply restart_rest.
Qed.
End Restart.
