(* ===== verification/RaftCluster.v ===== *)
(** * A cluster of Raft nodes (raft/node.rs over raft/state.rs)

    The nodes of [RaftNet] with their whole drivers: the snapshot in the store, the
    state machine behind it, and the two ends of a snapshot ([RaftDriver]).  A round
    of the node loop runs a handler, stores a snapshot that was taken or received,
    persists the recorded operations and carries out the actions; a crash can happen
    before, between and inside any of the writes, and a restarted node comes up from
    its two files.  The state machine is the parameter [S] and may change at any
    time: how entries are applied is not a matter of this file.  Nodes are
    configured with a chunked transfer, as raft_partition.rs configures them. *)

From S2P Require Export RaftNet RaftDriver.

#[local] Open Scope Z_scope.

Section Cluster.
Context {S E : Type} `{SnapshotTransfer S E}.

Record cnode : Type := mkCNode { cn_driver : driver S; cn_store : persisted_raft }.

(** [cl_msgs] are all messages ever sent, with their destination. *)
Record cluster : Type := mkCluster { cl_nodes : gmap Z cnode; cl_msgs : list (Z * message) }.

Inductive loop_event : Type :=
| LMessage (m : message) (env : E)
| LPropose (payload : list byte)
| LSnapshot (data : list byte) (through : option Z)
| LElectionTimeout
| LHeartbeat.

(** The event the Raft state sees; the position reported to it is the state
    machine's after a chunk. *)
Definition raft_event_of (d : driver S) (ev : loop_event) : raft_event :=
  match ev with
  | LMessage (InstallSnapshot m) env => EvMessage (InstallSnapshot m) (snd (take_chunk d m env))
  | LMessage m _ => EvMessage m 0
  | LPropose payload => EvPropose payload
  | LSnapshot data through => EvSnapshot data through
  | LElectionTimeout => EvElectionTimeout
  | LHeartbeat => EvHeartbeat
  end.

(** The part of a round before [apply_and_persist]; a snapshot in the result is the
    one in the store when it is reached. *)
Definition loop_handle (d : driver S) (ev : loop_event) : driver S * list action :=
  match ev with
  | LMessage (InstallSnapshot m) env => install_snapshot_msg d m env
  | LSnapshot data through =>
    match take_snapshot (d_state d) data through with
    | Some (s, snap) => (mkDriver s (d_transfer d) (Some snap), [])
    | None => (d, [])
    end
  | _ =>
    let (s, acts) := node_event (d_state d) (raft_event_of d ev) in
    (mkDriver s (d_transfer d) (d_snapshot d), acts)
  end.

(** A chunk that could not be applied is answered, and a refused snapshot request
    reported, without a write. *)
Definition writes (d : driver S) (ev : loop_event) : bool :=
  match ev with
  | LMessage (InstallSnapshot m) env => fst (fst (take_chunk d m env))
  | LSnapshot data through => bool_decide (is_Some (take_snapshot (d_state d) data through))
  | _ => true
  end.

(** The actions of a round, in order; [send_snapshot] may change the state. *)
Fixpoint carry_out (d : driver S) (acts : list action) : driver S * list (Z * message) :=
  match acts with
  | [] => (d, [])
  | a :: acts =>
    let (d, out) :=
      match a with
      | SendTo p m => (d, [(p, m)])
      | Broadcast m => (d, (fun p => (p, m)) <$> rs_peers (d_state d))
      | ResetElectionTimer | Apply _ => (d, [])
      | SendSnapshot p =>
        let (d, m) := send_snapshot d p in
        (d, match m with Some m => [(p, InstallSnapshot m)] | None => [] end)
      end in
    let (d, out') := carry_out d acts in (d, out ++ out')
  end.

Definition set_state (d : driver S) (s : raft_state) : driver S := mkDriver s (d_transfer d) (d_snapshot d).

(** A round of the node loop. *)
Definition loop_round (nd : cnode) (ev : loop_event) : cnode * list (Z * message) :=
  let (d, acts) := loop_handle (cn_driver nd) ev in
  if writes (cn_driver nd) ev then
    let (s, ops) := take_persist_ops (d_state d) in
    let (d, out) := carry_out (set_state d s) acts in
    (mkCNode d (mem_persist (cn_store nd) ops), out)
  else let (d, out) := carry_out d acts in (mkCNode d (cn_store nd), out).

(** The two files after a crash during a round. *)
Inductive crashed (nd : cnode) (ev : loop_event) : option persisted_snapshot -> persisted_raft -> Prop :=
| crashed_early : crashed nd ev (d_snapshot (cn_driver nd)) (cn_store nd)
| crashed_late applied :
    writes (cn_driver nd) ev = true ->
    torn_prefix applied (rs_pending (d_state (fst (loop_handle (cn_driver nd) ev)))) ->
    crashed nd ev (d_snapshot (fst (loop_handle (cn_driver nd) ev))) (mem_persist (cn_store nd) applied).

(** A message event needs a message that was sent to the node. *)
Definition arrives (c : cluster) (i : Z) (ev : loop_event) : Prop :=
  match ev with LMessage m _ => (i, m) ∈ cl_msgs c | _ => True end.

(** What bounds an event: terms and indices do not reach 2^64, and messages are
    those the wire format can carry. *)
Definition within_bounds (d : driver S) (ev : loop_event) : Prop :=
  event_term_ok (d_state d) (raft_event_of d ev) /\ event_fits (d_state d) (raft_event_of d ev) /\
  match ev with LMessage (InstallSnapshot m) _ => is_last_index m < U64_MAX | _ => True end.

(** The steps of a cluster with fixed membership. *)
Inductive cluster_step : cluster -> cluster -> Prop :=
| step_round c i nd ev nd' out :
    cl_nodes c !! i = Some nd -> arrives c i ev -> within_bounds (cn_driver nd) ev ->
    loop_round nd ev = (nd', out) ->
    rs_peers (d_state (cn_driver nd')) = rs_peers (d_state (cn_driver nd)) ->
    cluster_step c (mkCluster (<[i := nd']> (cl_nodes c)) (cl_msgs c ++ out))
| step_crash c i nd ev snap p s' t' :
    cl_nodes c !! i = Some nd -> arrives c i ev -> within_bounds (cn_driver nd) ev ->
    crashed nd ev snap p ->
    restore (raft_new i (rs_peers (d_state (cn_driver nd))) (rs_noop_on_elect (d_state (cn_driver nd)))) p snap = Some s' ->
    cluster_step c (mkCluster (<[i := mkCNode (mkDriver s' (Some t') snap) p]> (cl_nodes c)) (cl_msgs c))
| step_machine c i nd t' :
    cl_nodes c !! i = Some nd ->
    cluster_step c (mkCluster
      (<[i := mkCNode (mkDriver (d_state (cn_driver nd)) (Some t') (d_snapshot (cn_driver nd))) (cn_store nd)]>
        (cl_nodes c)) (cl_msgs c)).

Definition fresh_cnode (i : Z) (peers : list Z) (noop : bool) (t : S) : cnode :=
  mkCNode (mkDriver (raft_new i peers noop) (Some t) None) (mkPersisted 0 None []).

Definition cluster_init (members : list Z) (c : cluster) : Prop :=
  cl_msgs c = [] /\
  forall i nd, cl_nodes c !! i = Some nd ->
    exists peers noop t, nd = fresh_cnode i peers noop t /\ i :: peers ≡ₚ members.

(** The network of [RaftNet] behind a cluster. *)
Definition forget (c : cluster) (elected : list (Z * Z)) : network :=
  mkNet ((fun nd => mkNode (d_state (cn_driver nd)) (cn_store nd)) <$> cl_nodes c) (cl_msgs c) elected.
End Cluster.
Arguments cnode S : clear implicits.
Arguments cluster S : clear implicits.
Arguments loop_event E : clear implicits.
