(* ===== verification/RaftRound.v ===== *)
(** * A round of the node loop and the history

    What [loop_round] and a restart do to the node that runs them ([round_rest],
    [crash_restart]), and that the other nodes are not concerned. *)

From S2P Require Export RaftRestart RaftCluster.

#[local] Open Scope Z_scope.

Section Round.
Context {S E : Type} `{SnapshotTransfer S E}.
Context (members : list Z) (Hmem : NoDup members).
#[local] Abbreviation ghost_inv := (ghost_inv members).
#[local] Abbreviation node_core := (node_core members).
#[local] Abbreviation node_rest := (node_rest members).
#[local] Abbreviation msg_ok := (msg_ok members).
#[local] Abbreviation acts_ok := (acts_ok members).

(** ** Other nodes *)

Lemma core_grow V G G' i t j s F :
  ghost_inv V G -> grow i t G G' -> j <> i -> node_core G j s F -> node_core G' j s F.
Proof.
  intros HG Hg Hj [H1 H0 H2 H3 H4 H5 H6 H7 H8]. pose proof (gr_older _ _ _ _ Hg) as HO. split; try done.
  - by eapply kept_grow.
  - by eapply committed_upto_mono.
  - destruct H6; [left; by eapply clean_mono|by right].
  - intros Hr. pose proof (H7 Hr) as Hl. eapply leads_grow; [done|done|done|done| |auto..].
    destruct (gr_lead _ _ _ _ Hg (rs_current_term s)) as [?|Hw]; [done|].
    pose proof (od_won _ _ HO _ _ (ld_won _ _ _ _ _ Hl)). congruence.
  - intros Hr. destruct (H8 Hr) as (Hpos & Hc & Hw). split_and!; [done|by apply HO|].
    intros [?|[? _]]%(gr_won _ _ _ _ Hg); done.
Qed.

Lemma rest_grow V G G' i t j s p snap F :
  ghost_inv V G -> grow i t G G' -> j <> i -> node_rest G j s p snap F -> node_rest G' j s p snap F.
Proof. intros HG Hg Hj [H1 H2 H3 H4 H5]. split; try done. by eapply core_grow. Qed.

(** ** The handler *)

(** What a round that writes does before it writes. *)
Lemma handle_event d ev :
  writes d ev = true -> is_Some (d_transfer d) ->
  let r := loop_handle d ev in
  d_state (fst r) = fst (node_event (d_state d) (raft_event_of d ev)) /\
  snd r = snd (node_event (d_state d) (raft_event_of d ev)) /\ is_Some (d_transfer (fst r)).
Proof.
  intros Hw Ht. cbv zeta. destruct ev as [m env|payload|data through| |]; cbn [loop_handle].
  - assert (forall m, let r := let (s, acts) := node_event (d_state d) (EvMessage m 0) in
       (mkDriver s (d_transfer d) (d_snapshot d), acts) in
      d_state (fst r) = fst (node_event (d_state d) (EvMessage m 0)) /\
      snd r = snd (node_event (d_state d) (EvMessage m 0)) /\ is_Some (d_transfer (fst r))) as Hplain.
    { intros m0. by destruct (node_event _ _). }
    destruct m as [rv|r|ae|r|m|r]; [apply Hplain..| |apply Hplain]. clear Hplain.
    unfold install_snapshot_msg. cbn in Hw. cbn [raft_event_of].
    destruct (take_chunk d m env) as [[ok t] progress] eqn:Ec. cbn in Hw |- *. subst ok. cbn [negb].
    destruct (on_message_with_progress _ _ _) as [s' acts]. cbn. split_and!; [done|done|].
    unfold take_chunk in Ec. destruct Ht as [t0 Ht]. rewrite Ht in Ec. destruct (_ <=? _); [|by simplify_eq].
    destruct (if is_probe m then _ else _) as [ok t1]. by simplify_eq.
  - by destruct (node_event _ _).
  - cbn [raft_event_of node_event]. cbn in Hw. apply bool_decide_eq_true in Hw as [[s snap] Es]. by rewrite Es.
  - by destruct (node_event _ _).
  - by destruct (node_event _ _).
Qed.

(** A round that does not write leaves the node as it is. *)
Lemma handle_nothing d ev :
  writes d ev = false -> is_Some (d_transfer d) ->
  let r := loop_handle d ev in
  d_state (fst r) = d_state d /\ d_snapshot (fst r) = d_snapshot d /\ is_Some (d_transfer (fst r)) /\
  (snd r = [] \/ exists m progress, snd r = [SendTo (is_leader_id m)
    (InstallSnapshotResp (mkISR (rs_current_term (d_state d)) false (rs_me (d_state d)) progress 0))]).
Proof.
  intros Hw Ht. cbv zeta. destruct ev as [m env|payload|data through| |]; try done; cbn [loop_handle].
  - destruct m as [rv|r|ae|r|m|r]; try done. cbn in Hw. unfold install_snapshot_msg.
    destruct (take_chunk d m env) as [[ok t] progress] eqn:Ec. cbn in Hw |- *. subst ok. cbn. split_and!; [done|done| |eauto].
    unfold take_chunk in Ec. destruct Ht as [t0 Ht]. rewrite Ht in Ec. destruct (_ <=? _); [|by simplify_eq].
    destruct (if is_probe m then _ else _) as [ok t1]. by simplify_eq.
  - cbn in Hw. apply bool_decide_eq_false in Hw. destruct (take_snapshot _ _ _); [by destruct Hw; eexists|]. cbn. auto.
Qed.

(** The snapshot file follows the base of the log. *)
Lemma handle_snap V G i d p F ev :
  ghost_inv V G -> node_rest G i (d_state d) p (d_snapshot d) F -> within_bounds d ev -> writes d ev = true ->
  match ev with LMessage m _ => msg_ok G i m | _ => True end ->
  (forall c, rs_voted_for (d_state d) = Some c -> V i (rs_current_term (d_state d)) = Some c) ->
  snap_after (d_state d) (fst (node_event (d_state d) (raft_event_of d ev))) (d_snapshot d)
    (d_snapshot (fst (loop_handle d ev))).
Proof.
  intros HG Hn (Hok & Hfit & Hli) Hw Hm Hvoted. pose proof (nc_log _ _ _ _ _ (nr_core _ _ _ _ _ _ _ Hn)) as Hl.
  assert (match raft_event_of d ev with EvMessage m _ => msg_ok G i m | _ => True end) as Hm'
    by (destruct ev as [[]| | | |]; done).
  pose proof (rest_adds members G i (d_state d) p (d_snapshot d) F (raft_event_of d ev) Hn) as Hadds.
  pose proof (fun ae progress => replace_base members G i (d_state d) p (d_snapshot d) F (raft_event_of d ev) Hn Hm' Hfit ae progress) as Hrep.
  destruct ev as [m env|payload|data through| |].
  - assert (forall m0 progress, raft_event_of d (LMessage m env) = EvMessage m0 progress -> m0 = m) as Hsame.
    { intros m0 progress Em. destruct m; cbn in Em; congruence. }
    destruct Hadds as (hops & lops & _ & Hlo & _). set (s1 := fst (node_event _ _)) in *.
    assert ((forall m0, m = InstallSnapshot m0 -> snap_after (d_state d) s1 (d_snapshot d) (d_snapshot (fst (loop_handle d (LMessage m env)))))
      -> snap_after (d_state d) s1 (d_snapshot d) (d_snapshot (fst (loop_handle d (LMessage m env))))) as Hsplit.
    { intros Hi. destruct (match m with InstallSnapshot _ => true | _ => false end) eqn:Em; [destruct m; by eauto|].
      left. split.
      - destruct Hlo as [El|e _ _ _ El|ae progress l' c E1 E2 E3 E4 E5 El|m0 progress E1|m0 progress E1|data through sn E1].
        + by rewrite El.
        + by rewrite El.
        + rewrite El. eapply Hrep; done.
        + apply Hsame in E1 as <-. done.
        + apply Hsame in E1 as <-. done.
        + by destruct m.
      - destruct m; try done; cbn [loop_handle]; by destruct (node_event _ _). }
    apply Hsplit. clear Hsplit. intros m0 ->. cbn [raft_event_of] in *.
    subst s1. cbn [loop_handle]. unfold install_snapshot_msg. cbn in Hw.
    destruct (take_chunk d m0 env) as [[ok t] progress] eqn:Ec. cbn in Hw |- *. subst ok. cbn [negb].
    cbn [node_event snd] in *. destruct (on_message_with_progress _ _ _) as [s1 acts]. cbn [fst snd d_snapshot] in *.
    assert (rl_base_index (rs_log s1) = rl_base_index (rs_log (d_state d)) \/
      (is_done m0 = true /\ rl_base_index (rs_log (d_state d)) < rl_base_index (rs_log s1) /\
       is_last_index m0 = rl_base_index (rs_log s1) /\ is_last_term m0 = rl_base_term (rs_log s1))) as [Eb|(Hd & Hlt & E1 & E2)].
    { destruct Hlo as [El|e _ _ _ El|ae pr l' c E1 E2 E3 E4 E5 El|m1 pr E1 _ Hd Hb _ El|m1 pr E1 _ Hd Hb _ El|data through sn E1].
      - left. by rewrite El.
      - left. by rewrite El.
      - done.
      - injection E1 as <- _. right. rewrite El. rewrite compact_through_eq; [by cbn|by eapply full_wf| |done].
        destruct Hfit as [Hf _]. cbn in Hf. lia.
      - injection E1 as <- _. right. rewrite El. by cbn.
      - done. }
    + left. split; [done|]. rewrite Eb, Z.ltb_irrefl, andb_false_r. done.
    + right. split; [done|]. rewrite Hd, (proj2 (Z.ltb_lt _ _)) by done. eexists. by split_and!.
  - left. destruct Hadds as (hops & lops & _ & Hlo & _). cbn [raft_event_of loop_handle] in *. split.
    + destruct Hlo as [El|e _ _ _ El| | | |]; try done; by rewrite El.
    + by destruct (node_event _ _).
  - cbn in Hw. apply bool_decide_eq_true in Hw as [[s1 sn] Es]. cbn [raft_event_of node_event loop_handle] in *. rewrite Es in *.
    cbn [fst d_snapshot]. destruct Hfit as [Hf _]. cbn in Hf.
    destruct (take_snapshot_core members V V G i (d_state d) F data through s1 sn HG (nr_core _ _ _ _ _ _ _ Hn) ltac:(lia) Hvoted Es)
      as (_ & _ & E1 & E2); [split; auto|].
    right. split; [|by eexists].
    unfold take_snapshot in Es. cbv zeta in Es. set (c := Z.min _ _) in *. destruct (_ || _) eqn:Eo; [done|].
    apply orb_false_iff in Eo as [_ Eo]. boolp. destruct (term_at _ c) as [g|]; [|done]. cbn in Es. injection Es as _ Esn.
    rewrite <- Esn in E1. cbn in E1. lia.
  - left. destruct Hadds as (hops & lops & _ & Hlo & _). cbn [raft_event_of loop_handle] in *. split.
    + destruct Hlo as [El|e _ _ _ El| | | |]; try done; by rewrite El.
    + by destruct (node_event _ _).
  - left. done.
Qed.

(** ** The actions *)

(** Only what is to be sent next has changed. *)
Definition next_only (s s' : raft_state) : Prop :=
  exists n, s' = set_progress s (rs_match_index s) n (rs_snapshot_cursor s).

Lemma next_refl s : next_only s s.
Proof. exists (rs_next_index s). by destruct s. Qed.

(** The messages of an action. *)
Definition emits (d : driver S) : action -> list (Z * message) :=
  outgoing (d_state d) (fun p => snd (send_snapshot d p)).

Lemma emits_next d s' a : next_only (d_state d) s' -> emits (set_state d s') a = emits d a.
Proof.
  intros [n ->]. destruct a as [p m|m| |e|p]; try done. unfold emits, outgoing. cbn.
  unfold send_snapshot. cbn. destruct (d_snapshot d); [|done]. destruct (d_transfer d); [|done].
  destruct (rs_snapshot_cursor _ !! p); [|done]. by destruct (st_read_chunk _ _ _ _) as [[]|].
Qed.

Lemma send_next d p : exists s', fst (send_snapshot d p) = set_state d s' /\ next_only (d_state d) s' /\
  (s' = d_state d \/ s' = set_next (d_state d) p (rl_base_index (rs_log (d_state d)) + 1)).
Proof.
  unfold send_snapshot. destruct (d_snapshot d) as [sn|] eqn:Es; [|eexists; split_and!; [unfold set_state; by rewrite Es|by eexists|by right]].
  exists (d_state d). assert (set_state d (d_state d) = d) as -> by (by destruct d).
  split_and!; [|apply next_refl|by left]. destruct (d_transfer d); [|done].
  destruct (rs_snapshot_cursor _ !! p); [|done]. by destruct (st_read_chunk _ _ _ _) as [[]|].
Qed.

Lemma carry_out_spec d acts d' out :
  carry_out d acts = (d', out) ->
  out = acts ≫= emits d /\ exists s', d' = set_state d s' /\ next_only (d_state d) s' /\
    forall G i F, node_core G i (d_state d) F -> acts_ok G (d_state d) acts -> (exists V, ghost_inv V G) -> node_core G i s' F.
Proof.
  revert d d' out. induction acts as [|a acts IH]; intros d d' out; cbn [carry_out].
  { intros [= <- <-]. split; [done|]. exists (d_state d). split_and!; [by destruct d|apply next_refl|done]. }
  assert (forall d1 out1 s1, d1 = set_state d s1 -> next_only (d_state d) s1 -> out1 = emits d a ->
    (forall G i F, node_core G i (d_state d) F -> acts_ok G (d_state d) [a] -> (exists V, ghost_inv V G) -> node_core G i s1 F) ->
    (let (d2, out2) := carry_out d1 acts in (d2, out1 ++ out2)) = (d', out) ->
    out = (a :: acts) ≫= emits d /\ exists s', d' = set_state d s' /\ next_only (d_state d) s' /\
      forall G i F, node_core G i (d_state d) F -> acts_ok G (d_state d) (a :: acts) -> (exists V, ghost_inv V G) ->
        node_core G i s' F) as Hgo.
  { intros d1 out1 s1 -> Hnx -> Hc Heq. destruct (carry_out (set_state d s1) acts) as [d2 out2] eqn:Ec. injection Heq as <- <-.
    apply IH in Ec as (-> & s2 & -> & Hnx2 & Hc2). split.
    - rewrite bind_cons. f_equal. apply list_bind_ext; [|done]. intros b. by apply emits_next.
    - exists s2. split_and!; [done| |].
      + destruct Hnx as [n ->], Hnx2 as [n2 ->]. by exists n2.
      + intros G i F H1 H2 H3. destruct H2 as [A1 A2 A3]. apply Hc2; [|destruct Hnx as [n ->]|done].
        * apply Hc; [done| |done]. split; [intros p m Hin; apply A1|intros m p Hin; apply A2|intros p Hin; apply (A3 p)];
            apply list_elem_of_singleton in Hin; rewrite Hin; left.
        * split; [intros p m Hin; apply A1; by right|intros m p Hin; apply A2; by right|]. intros p Hin. apply (A3 p). by right. }
  destruct a as [p m|m| |e|p]; try (apply (Hgo d _ (d_state d)); [by destruct d|apply next_refl|done|done]).
  destruct (send_next d p) as (s1 & E1 & Hnx & Hs1). destruct (send_snapshot d p) as [d1 m] eqn:Es. cbn in E1.
  apply (Hgo d1 _ s1); [done|done| |].
  - unfold emits, outgoing. rewrite Es. cbn. destruct m as [m|]; [|done].
    assert (is_term m = rs_current_term (d_state d) /\ is_leader_id m = rs_me (d_state d)) as [<- <-]; [|by destruct m].
    unfold send_snapshot in Es. destruct (d_snapshot d); [|done]. destruct (d_transfer d); [|by simplify_eq].
    destruct (rs_snapshot_cursor _ !! p); [|by simplify_eq]. destruct (st_read_chunk _ _ _ _) as [[]|]; by simplify_eq.
  - intros G i F Hc [_ _ A3] [V HG]. destruct Hs1 as [->| ->]; [done|].
    eapply core_set_next; [done|done|apply (A3 p); left|]. pose proof (fl_base _ _ (nc_log _ _ _ _ _ Hc)). lia.
Qed.

(** Every message fits the history. *)
Lemma emits_ok G i d p F acts q m :
  node_rest G i (d_state d) p (d_snapshot d) F -> acts_ok G (d_state d) acts -> is_Some (d_transfer d) ->
  (q, m) ∈ acts ≫= emits d -> msg_ok G q m.
Proof.
  intros Hn [A1 A2 A3] Ht Hin. apply list_elem_of_bind in Hin as (a & Hin & Ha). destruct a as [p0 m0|m0| |e|p0]; cbn in Hin.
  - apply list_elem_of_singleton in Hin as [= -> ->]. by apply A1.
  - apply list_elem_of_fmap in Hin as (p0 & [= -> ->] & _). by apply A2.
  - by apply elem_of_nil in Hin.
  - by apply elem_of_nil in Hin.
  - pose proof (A3 p0 Ha) as Hr. pose proof (nr_core _ _ _ _ _ _ _ Hn) as Hc. pose proof (nc_lead _ _ _ _ _ Hc Hr) as Hld.
    pose proof (nr_base _ _ _ _ _ _ _ Hn) as Hb. pose proof (nr_snap _ _ _ _ _ _ _ Hn) as Hs.
    destruct (snd (send_snapshot d p0)) as [m0|] eqn:Es; cbn in Hin; [|by apply elem_of_nil in Hin].
    apply list_elem_of_singleton in Hin as [= -> ->]. unfold send_snapshot in Es.
    destruct (d_snapshot d) as [sn|]; [|done]. destruct Ht as [t Ht]. rewrite Ht in Es. cbn in Hb. destruct Hs as [Hpos Hterm].
    assert (is_last_index m0 = ps_last_index sn /\ is_last_term m0 = ps_last_term sn /\
      (is_done m0 = true -> is_Some (rs_snapshot_cursor (d_state d) !! p0))) as (-> & -> & Hd).
    { destruct (rs_snapshot_cursor _ !! p0) as [x|]; [destruct (st_read_chunk _ _ _ _) as [[]|]|]; simplify_eq/=; split_and!; done || by eauto. }
    cbn. rewrite <- (ld_log _ _ _ _ _ Hld). split_and!; [eexists; apply Hld|done|done| |].
    + rewrite <- Hb. eapply committed_upto_le; [apply Hc|]. destruct (nc_wf _ _ _ _ _ Hc) as (_ & ? & _).
      pose proof (fl_base _ _ (nc_log _ _ _ _ _ Hc)). lia.
    + intros [x Hx]%Hd. by eapply Hld.
Qed.
End Round.
