(* ===== verification/RaftAgreement.v ===== *)
(** * Agreement in a Raft cluster

    The invariant of [RaftCluster]'s clusters: elections ([RaftNet]), the history
    ([RaftGhost]), every node with its files ([RaftRestart]) and every message ever
    sent.  State machine safety, leader completeness, and restarts that always
    succeed. *)

From S2P Require Export RaftRound.

#[local] Open Scope Z_scope.

Section Agreement.
Context {S E : Type} `{SnapshotTransfer S E}.
Context (members : list Z) (Hmem : NoDup members).
#[local] Abbreviation ghost_inv := (ghost_inv members).
#[local] Abbreviation node_core := (node_core members).
#[local] Abbreviation node_rest := (node_rest members).
#[local] Abbreviation msg_ok := (msg_ok members).
#[local] Abbreviation acts_ok := (acts_ok members).

Definition cnode_ok (G : ghost) (i : Z) (nd : cnode S) (F : list log_entry) : Prop :=
  node_rest G i (d_state (cn_driver nd)) (cn_store nd) (d_snapshot (cn_driver nd)) F.

Record cluster_inv (V : votes) (G : ghost) (el : list (Z * Z)) (c : cluster S) : Prop := {
  ci_net : net_inv members V (forget c el);
  ci_ghost : ghost_inv V G;
  ci_nodes : forall i nd, cl_nodes c !! i = Some nd -> is_Some (d_transfer (cn_driver nd)) /\ exists F, cnode_ok G i nd F;
  ci_msgs : forall p m, (p, m) ∈ cl_msgs c -> msg_ok G p m }.

(** ** Moving one node *)

Definition to_node (nd : cnode S) : node := mkNode (d_state (cn_driver nd)) (cn_store nd).

Lemma forget_lookup c el i nd : cl_nodes c !! i = Some nd -> nw_nodes (forget c el) !! i = Some (to_node nd).
Proof. intros Hi. cbn. by rewrite lookup_fmap, Hi. Qed.

Lemma forget_insert c el i nd msgs :
  forget (mkCluster (<[i := nd]> (cl_nodes c)) msgs) el = mkNet (<[i := to_node nd]> (nw_nodes (forget c el))) msgs el.
Proof. unfold forget. cbn. by rewrite fmap_insert. Qed.

Lemma move_inv V V' G G' el el' c i t nd' out F :
  cluster_inv V G el c -> ghost_inv V' G' -> grow i t G G' ->
  net_inv members V' (mkNet (<[i := to_node nd']> (nw_nodes (forget c el))) (cl_msgs c ++ out) el') ->
  is_Some (d_transfer (cn_driver nd')) -> cnode_ok G' i nd' F ->
  (forall p m, (p, m) ∈ out -> msg_ok G' p m) ->
  cluster_inv V' G' el' (mkCluster (<[i := nd']> (cl_nodes c)) (cl_msgs c ++ out)).
Proof.
  intros [H1 H2 H3 H4] HG' Hg Hnet Ht Hn Hout. pose proof (gr_older _ _ _ _ Hg) as HO. split; [|done|..].
  - by rewrite forget_insert.
  - cbn. intros j nd Hj. destruct (decide (j = i)) as [->|Hne].
    + rewrite lookup_insert_eq in Hj. simplify_eq. eauto.
    + rewrite lookup_insert_ne in Hj by done. destruct (H3 j nd Hj) as [Htj [Fj Hnj]]. split; [done|].
      exists Fj. unfold cnode_ok in *. by apply (rest_grow members V G G' i t j).
  - cbn. intros p m [Hm|Hm]%elem_of_app; [|by apply Hout]. by eapply msg_ok_mono, H4.
Qed.

(** The network only sees term, vote, role, votes and peers of a node. *)
Lemma net_inv_replace V N msgs el i s s' p :
  net_inv members V (mkNet (<[i := mkNode s p]> N) msgs el) -> elect_of s' = elect_of s ->
  rs_peers s' = rs_peers s -> rs_pending s' = rs_pending s -> net_inv members V (mkNet (<[i := mkNode s' p]> N) msgs el).
Proof.
  intros [H1 H2 H3] He Hps Hpe. injection He as E1 E2 E3 E4 E5. split; [|done|done]. cbn in *. intros j nd Hj. destruct (decide (j = i)) as [->|Hne].
  - rewrite lookup_insert_eq in Hj. simplify_eq. specialize (H1 i (mkNode s p)). rewrite lookup_insert_eq in H1.
    destruct (H1 eq_refl) as [A1 A2 A3 A4 A5 A6 A7 A8]. cbn in *. split; cbn; rewrite ?E1, ?E2, ?E3, ?E4, ?E5, ?Hps, ?Hpe; done.
  - rewrite lookup_insert_ne in Hj by done. destruct (H1 j nd) as [A1 A2 A3 A4 A5 A6 A7 A8]; [by rewrite lookup_insert_ne|]. by split.
Qed.

(** ** A round *)

Section Step.
Context (V : votes) (G : ghost) (el : list (Z * Z)) (c : cluster S) (Hinv : cluster_inv V G el c).
Context (i : Z) (nd : cnode S) (ev : loop_event E) (Hi : cl_nodes c !! i = Some nd).
Context (Harr : arrives c i ev) (Hwb : within_bounds (cn_driver nd) ev).
#[local] Abbreviation d := (cn_driver nd).
#[local] Abbreviation s := (d_state d).
#[local] Abbreviation rev := (raft_event_of d ev).
#[local] Abbreviation s1 := (fst (node_event s rev)).
#[local] Abbreviation snap1 := (d_snapshot (fst (loop_handle d ev))).

Lemma step_node_inv : node_inv members V (forget c el) i (to_node nd).
Proof. eapply nv_nodes; [apply Hinv|]. by apply forget_lookup. Qed.

Lemma step_peers : i :: rs_peers s ≡ₚ members. Proof. apply (ni_peers _ _ _ _ _ step_node_inv). Qed.

Lemma step_past u x : V i u = Some x -> u <= rs_current_term s.
Proof. intros Hu. apply (ni_past _ _ _ _ _ step_node_inv u x Hu). Qed.

Lemma step_voted x : rs_voted_for s = Some x -> V i (rs_current_term s) = Some x.
Proof. apply (ni_vote _ _ _ _ _ step_node_inv). Qed.

Lemma step_happens : can_happen (forget c el) i rev.
Proof. destruct ev as [[]| | | |]; done. Qed.

Lemma step_msg : match ev with LMessage m _ => msg_ok G i m | _ => True end.
Proof. destruct ev; try done. by apply (ci_msgs _ _ _ _ Hinv). Qed.

Lemma step_raft_msg : match rev with EvMessage m _ => msg_ok G i m | _ => True end.
Proof. pose proof step_msg. by destruct ev as [[]| | | |]. Qed.

Lemma step_last_index : match rev with EvMessage (InstallSnapshot m) _ => is_last_index m < U64_MAX | _ => True end.
Proof. destruct Hwb as (_ & _ & Hli). by destruct ev as [[]| | | |]. Qed.

(** A node that has just won has the votes of a majority. *)
Lemma newly_won t s' : rs_role s' = Leader -> ~ (rs_role s = Leader /\ rs_current_term s' = rs_current_term s) ->
  t = rs_current_term s' -> (t, i) ∈ won i s s'.
Proof.
  intros Hr Hne ->. unfold won. rewrite (bool_decide_true (rs_role s' = Leader)) by done.
  case_bool_decide as Hs; [|by left]. destruct (Z.eqb_spec (rs_current_term s') (rs_current_term s)); [by destruct Hne|by left].
Qed.

Lemma round_writes nd' out :
  writes d ev = true -> loop_round nd ev = (nd', out) -> rs_peers (d_state (cn_driver nd')) = rs_peers s ->
  exists G' V' el', older G G' /\
    cluster_inv V' G' el' (mkCluster (<[i := nd']> (cl_nodes c)) (cl_msgs c ++ out)).
Proof.
  intros Hw Hround Hps. pose proof step_node_inv as Hni. pose proof Hinv as [Hnet HG Hnodes _].
  destruct (Hnodes i nd Hi) as [Htr [F Hn]]. destruct Hwb as (Hok & Hfit & Hli).
  pose proof (handle_event d ev Hw Htr) as (Es1 & Eacts & Htr1).
  pose proof (handle_snap members V G i d (cn_store nd) F ev HG Hn Hwb Hw step_msg step_voted) as Hsnap.
  unfold loop_round in Hround. rewrite Hw in Hround. destruct (loop_handle d ev) as [d1 acts]. cbn [fst snd] in *.
  cbn [take_persist_ops] in Hround. set (d2 := set_state d1 (set_pending (d_state d1) [])) in *.
  destruct (carry_out d2 acts) as [d3 out1] eqn:Ec. injection Hround as <- <-. cbn [cn_driver] in *.
  destruct (carry_out_spec members d2 acts d3 out1 Ec) as (Eout & s3 & -> & Hnext & Hcarry).
  assert (rs_peers s1 = rs_peers s) as Hps1.
  { rewrite <- Hps, <- Es1. destruct Hnext as [n ->]. done. }
  assert (rs_pending (d_state d1) = rs_pending s1) as Ep1 by (by rewrite Es1).
  pose proof (fun V' => event_core members Hmem V V' G i s F rev HG (nr_core _ _ _ _ _ _ _ Hn) step_peers step_raft_msg Hfit Hok
    step_past step_voted) as Hcore. cbv zeta in Hcore.
  pose proof (rest_persisted members G i s (cn_store nd) (d_snapshot d) F rev Hn Hfit) as Hstore.
  pose proof (snap_fits members G i s (cn_store nd) (d_snapshot d) (d_snapshot d1) F rev Hn step_raft_msg Hfit Hsnap) as Hfits.
  destruct (node_event s rev) as [s1' acts'] eqn:Eev. cbn [fst snd] in *. subst acts' s1'.
  destruct (net_event_inv members V (forget c el) i (to_node nd) rev (set_pending (d_state d1) []) (rs_pending (d_state d1)) acts
    (fun p => snd (send_snapshot d2 p)) Hnet (forget_lookup c el i nd Hi) step_happens Hok) as (V' & Hvs & Hnet').
  { unfold node_round. cbn [to_node nd_state]. destruct (snapshot_refused s rev) eqn:Eref.
    - exfalso. destruct ev as [[]| |data through| |]; try done. cbn in Eref, Hw. apply bool_decide_eq_true in Hw as [? Hw].
      by rewrite Hw in Eref.
    - by rewrite Eev. }
  { done. }
  destruct (Hcore V') as (G' & F' & Hg & HG' & Hc' & Hacts); [done| |].
  { intros Hr Hne. destruct (nv_elected _ _ _ Hnet' (rs_current_term (d_state d1)) i) as (Q & HQ & Hs).
    - cbn. apply elem_of_app. right. apply newly_won; [done|done|done].
    - exists Q. split; [split; [intros j Hj; by apply HQ|done]|]. intros j Hj. by apply HQ. }
  destruct (Hfits G' F' Hc') as [Hb Hso].
  assert (cnode_ok G' i (mkCNode d2 (mem_persist (cn_store nd) (rs_pending (d_state d1)))) F') as Hn2.
  { split; cbn.
    - eapply core_same; [done|exact Hc'|done..| |auto|auto|auto]. apply (nc_wf _ _ _ _ _ Hc').
    - left. split; [done|]. rewrite Hstore. cbn. apply (nc_log _ _ _ _ _ Hc').
    - by rewrite Hstore.
    - done.
    - done. }
  exists G', V', (el ++ won i s (set_pending (d_state d1) [])). split; [apply Hg|].
  eapply (move_inv V V' G G' el _ c i _ _ out1 F'); [done|done|done| |done| |].
  - eapply (net_inv_replace V' _ _ _ i (set_pending (d_state d1) [])); [by rewrite Eout| |..]; by destruct Hnext as [n ->].
  - destruct Hn2 as [N1 N2 N3 N4 N5]. cbn in *. split; cbn.
    + apply Hcarry; [done| |by exists V']. by apply (acts_ok_state members G' (d_state d1)).
    + destruct Hnext as [n ->]. done.
    + destruct Hnext as [n ->]. done.
    + destruct Hnext as [n ->]. done.
    + done.
  - intros p m Hin. rewrite Eout in Hin. eapply (emits_ok members G' i d2); [exact Hn2| |done|done]. by apply (acts_ok_state members G' (d_state d1)).
Qed.

Lemma round_nothing nd' out :
  writes d ev = false -> loop_round nd ev = (nd', out) ->
  cluster_inv V G el (mkCluster (<[i := nd']> (cl_nodes c)) (cl_msgs c ++ out)).
Proof.
  intros Hw Hround. pose proof Hinv as [Hnet HG Hnodes _]. destruct (Hnodes i nd Hi) as [Htr [F Hn]].
  destruct (handle_nothing d ev Hw Htr) as (Es & Esn & Htr1 & Hacts).
  unfold loop_round in Hround. rewrite Hw in Hround. destruct (loop_handle d ev) as [d1 acts]. cbn [fst snd] in *.
  assert (carry_out d1 acts = (d1, acts ≫= emits d1) /\
    (acts ≫= emits d1 = [] \/ exists p r, acts ≫= emits d1 = [(p, InstallSnapshotResp r)] /\ isr_success r = false)) as [Ec Hout].
  { destruct Hacts as [->|(m & progress & ->)]; [split; [done|by left]|]. split; [done|right]. by eexists _, _. }
  rewrite Ec in Hround. injection Hround as <- <-.
  assert (to_node (mkCNode d1 (cn_store nd)) = to_node nd) as Enode by (unfold to_node; cbn; by rewrite Es).
  eapply (move_inv V V G G el el c i (rs_current_term s) _ _ F); [done|done|apply grow_refl| |done| |].
  - rewrite Enode, insert_id by (by apply forget_lookup).
    destruct Hout as [->|(p & r & -> & _)]; [rewrite app_nil_r; by destruct c|].
    by apply (net_chunk_failed_inv members V (forget c el) p r).
  - unfold cnode_ok. cbn. by rewrite Es, Esn.
  - intros p m Hin. destruct Hout as [E0|(q & r & E0 & Hr)]; rewrite E0 in Hin; [by apply elem_of_nil in Hin|].
    apply list_elem_of_singleton in Hin as [= -> ->]. cbn. congruence.
Qed.

(** ** A crash *)

(** The files are those of a node that fits the history. *)
Lemma crash_leaves snap p s' :
  crashed nd ev snap p -> restarted i (rs_peers s) p s' ->
  exists V', net_inv members V' (mkNet (<[i := mkNode s' p]> (nw_nodes (forget c el))) (cl_msgs c) el) /\
    files_ok members i snap V' G p /\ 0 <= pr_current_term p /\ snap_base snap < U64_MAX.
Proof.
  intros Hcr Hre. pose proof Hinv as [Hnet HG Hnodes _]. destruct (Hnodes i nd Hi) as [Htr [F Hn]].
  pose proof Hwb as (Hok & Hfit & Hli). pose proof (nr_core _ _ _ _ _ _ _ Hn) as Hc. pose proof (nc_log _ _ _ _ _ Hc) as Hl.
  pose proof (nr_base _ _ _ _ _ _ _ Hn) as Eb. destruct (nr_hard _ _ _ _ _ _ _ Hn) as [Ep1 Ep2].
  destruct Hcr as [|applied Hw Htorn].
  - destruct (net_crash_inv members V (forget c el) i (to_node nd) rev [] s' Hnet (forget_lookup c el i nd Hi) Hok)
      as (V' & Hvs & Hnet'); [constructor|exact Hre|].
    exists V'. split; [exact Hnet'|]. destruct Hre as (_ & _ & _ & Et & Ev & _).
    split_and!; [|rewrite Ep1; apply Hc|].
    + exists G, F. rewrite <- Eb, Ep1. split_and!; [apply grow_refl| |apply Hc|apply Hl|by apply stored_ok; [|apply Hn]|apply Hn].
      eapply ghost_inv_same; [done|]. eapply (vote_step_same V V' i s); [done|apply step_voted|]. right. by rewrite Et, Ev.
    + rewrite <- Eb. pose proof (fl_base _ _ Hl). destruct Hfit as [Hf _]. rewrite (full_last _ _ Hl) in Hf.
      assert (0 <= event_len rev) by (destruct ev as [[]| | | |]; cbn; len_lia). lia.
  - destruct (handle_event d ev Hw Htr) as (Es1 & _ & _). rewrite Es1 in Htorn.
    pose proof (handle_snap members V G i d (cn_store nd) F ev HG Hn Hwb Hw step_msg step_voted) as Hsnap.
    destruct (net_crash_inv members V (forget c el) i (to_node nd) rev applied s' Hnet (forget_lookup c el i nd Hi) Hok Htorn)
      as (V' & Hvs & Hnet'); [exact Hre|].
    exists V'. split; [exact Hnet'|]. destruct Hre as (_ & _ & _ & Et & Ev & _).
    assert (forall a b, a /\ b -> snap_base snap1 < U64_MAX -> a /\ b /\ snap_base snap1 < U64_MAX) as Hand by tauto. apply Hand.
    + eapply (crash_files members Hmem V V' G i s); try done;
        [apply step_peers|apply step_raft_msg|apply step_last_index|apply step_past|apply step_voted| |].
      * intros s0 E1 E2. unfold vote_step in *. cbn in Hvs, E1, E2. by rewrite E1, E2, <- Et, <- Ev.
      * intros E1 E2 Hr Hne. pose proof (node_event_elect s rev Hok) as He. cbv zeta in He.
        destruct (won_quorum members V (forget c el) i (to_node nd) rev _ _ (rs_current_term s1) i Hnet
          (forget_lookup c el i nd Hi) step_happens He) as (Q & HQ & Hs); [by apply newly_won|].
        exists Q. split; [split; [intros j Hj; by apply HQ|done]|]. intros j Hj. destruct (HQ j Hj) as [_ Hv].
        apply record_vote_inv in Hv as [Hv|(-> & _ & Hv)]; [by apply Hvs|].
        rewrite <- E1, <- Et. apply (ni_vote _ _ _ _ _ (nv_nodes _ _ _ Hnet' i _ ltac:(cbn; apply lookup_insert_eq))). cbn. congruence.
    + by eapply (snap_bound members V G i s); try done;
        [apply step_raft_msg|apply step_last_index|apply step_voted].
Qed.

Lemma crash_restores snap p :
  crashed nd ev snap p ->
  exists s', restore (raft_new i (rs_peers s) (rs_noop_on_elect s)) p snap = Some s' /\
    forall t', exists G' V', older G G' /\
      cluster_inv V' G' el (mkCluster (<[i := mkCNode (mkDriver s' (Some t') snap) p]> (cl_nodes c)) (cl_msgs c)).
Proof.
  intros Hcr. set (peers := rs_peers s). set (noop := rs_noop_on_elect s).
  destruct (crash_leaves snap p (set_hard (raft_new i peers noop) (pr_current_term p) (pr_voted_for p)) Hcr)
    as (V0 & _ & Hf & Hpos & Hb); [by repeat split; constructor|].
  destruct (files_restart members V0 G i p snap peers noop Hf Hpos Hb) as (s' & Hr & _). exists s'. split; [done|]. intros t'.
  destruct (crash_leaves snap p s' Hcr (restore_fields _ _ _ _ _ _ Hr)) as (V' & Hnet & Hf' & _ & _).
  destruct (files_restart members V' G i p snap peers noop Hf' Hpos Hb) as (s'' & Hr' & G' & F' & Hg & HG' & Hn).
  rewrite Hr in Hr'. injection Hr' as <-. exists G', V'. split; [apply Hg|].
  rewrite <- (app_nil_r (cl_msgs c)). eapply move_inv; [done|done|done| |done|exact Hn|].
  - by rewrite app_nil_r.
  - by intros q m ?%elem_of_nil.
Qed.
End Step.

(** ** Runs *)

Lemma cluster_step_inv V G el c c' :
  cluster_inv V G el c -> cluster_step c c' -> exists V' G' el', older G G' /\ cluster_inv V' G' el' c'.
Proof.
  intros Hinv Hs. destruct Hs as [c i nd ev nd' out Hi Harr Hwb Hround Hps|c i nd ev snap p s' t' Hi Harr Hwb Hcr Hre|c i nd t' Hi].
  - destruct (writes (cn_driver nd) ev) eqn:Hw.
    + destruct (round_writes V G el c Hinv i nd ev Hi Harr Hwb nd' out Hw Hround Hps) as (G' & V' & el' & ?). by exists V', G', el'.
    + exists V, G, el. split; [done|]. by eapply round_nothing.
  - destruct (crash_restores V G el c Hinv i nd ev Hi Harr Hwb snap p Hcr) as (s0 & Hr & Hgo).
    rewrite Hr in Hre. injection Hre as ->. destruct (Hgo t') as (G' & V' & ?). by exists V', G', el.
  - exists V, G, el. split; [done|]. destruct (ci_nodes _ _ _ _ Hinv i nd Hi) as [_ [F Hn]].
    rewrite <- (app_nil_r (cl_msgs c)).
    eapply move_inv; [done|apply Hinv|apply (grow_refl i 0)| |done|exact Hn|by intros q m ?%elem_of_nil].
    rewrite app_nil_r. unfold to_node at 1. cbn [cn_driver d_state cn_store]. rewrite insert_id by (by apply forget_lookup). apply Hinv.
Qed.

Definition no_history : ghost := mkGhost (fun _ => []) (fun _ => None) (fun _ _ => None) [] [].

Lemma fresh_core i peers noop : node_core no_history i (raft_new i peers noop) [].
Proof.
  split; cbn; try done.
  - split; cbn; try done.
    + left. intros k g Hk Hx. apply term_in_bound in Hx. unfold len in Hx. cbn in Hx. lia.
    + intros k g Hk Hx. apply term_in_bound in Hx. unfold len in Hx. cbn in Hx. lia.
    + intros u k Hk (m & Hm & _). by apply elem_of_nil in Hm.
    + split_and!; try done; by intros * ?%elem_of_nil.
    + by left.
  - by left.
  - by right.
Qed.

Lemma cluster_init_inv c : cluster_init members c -> cluster_inv (fun _ _ => None) no_history [] c.
Proof.
  intros [Hm Hn]. split.
  - apply net_inv_init. split_and!; [done|done|]. cbn. intros i nd. rewrite lookup_fmap.
    intros (nd0 & Hi & ->)%fmap_Some. destruct (Hn i nd0 Hi) as (peers & noop & t & -> & Hp). by exists peers, noop.
  - split; cbn; try done. intros j t m ?%elem_of_nil. done.
  - intros i nd Hi. destruct (Hn i nd Hi) as (peers & noop & t & -> & Hp). split; [done|]. exists [].
    split; cbn; try done; [apply fresh_core|by left].
  - rewrite Hm. by intros p m ?%elem_of_nil.
Qed.

Lemma run_inv V G el c c' :
  cluster_inv V G el c -> rtc cluster_step c c' -> exists V' G' el', older G G' /\ cluster_inv V' G' el' c'.
Proof.
  intros Hinv Hr. revert V G el Hinv. induction Hr as [c|c c1 c2 Hs Hr IH]; intros V G el Hinv; [by exists V, G, el|].
  destruct (cluster_step_inv V G el c c1 Hinv Hs) as (V1 & G1 & el1 & HO1 & Hinv1).
  destruct (IH V1 G1 el1 Hinv1) as (V2 & G2 & el2 & HO2 & Hinv2). exists V2, G2, el2. split; [by transitivity G1|done].
Qed.

(** Two moments of a run. *)
Lemma two_moments c0 c1 c2 :
  cluster_init members c0 -> rtc cluster_step c0 c1 -> rtc cluster_step c1 c2 ->
  exists V G1 G2 el el1, cluster_inv V G2 el c2 /\ older G1 G2 /\ exists V1, cluster_inv V1 G1 el1 c1.
Proof.
  intros H0 H1 H2. apply cluster_init_inv in H0. destruct (run_inv _ _ _ _ _ H0 H1) as (V1 & G1 & el1 & _ & Hinv1).
  destruct (run_inv _ _ _ _ _ Hinv1 H2) as (V2 & G2 & el2 & HO & Hinv2). exists V2, G1, G2, el2, el1. split_and!; [done|done|by exists V1].
Qed.

Lemma committed_logs_agree V G F F' t t' k k' :
  ghost_inv V G -> committed_upto members G t F k -> committed_upto members G t' F' k' -> 0 <= k -> 0 <= k' ->
  agree F F' (Z.min k k').
Proof.
  intros HG [->|(T & m & Hc & HT & Hm & Ha)] H2 Hk Hk'; [rewrite Z.min_l by done; apply agree_zero|].
  destruct H2 as [->|(T' & m' & Hc' & HT' & Hm' & Ha')]; [rewrite Z.min_r by done; apply agree_zero|].
  apply (agree_trans _ (gh_lead G T)); [apply (agree_le _ _ k); [done|lia]|].
  apply (agree_trans _ (gh_lead G T')); [|apply agree_sym, (agree_le _ _ k'); [done|lia]].
  apply (agree_le _ _ (Z.min m m')); [by eapply committed_agree|lia].
Qed.

(** What two logs that agree up to [k] give for it. *)
Definition same_at (l l' : raft_log) (k : Z) : Prop :=
  (rl_base_index l <= k -> rl_base_index l' <= k -> exists t, term_at l k = Some t /\ term_at l' k = Some t) /\
  (rl_base_index l < k -> rl_base_index l' < k -> exists e, log_get l k = Some e /\ log_get l' k = Some e).

Lemma agree_same_at F F' l l' m k : full_log F l -> full_log F' l' -> agree F F' m -> k <= m -> same_at l l' k.
Proof.
  intros Hl Hl' Ha Hk. pose proof Ha as ((_ & ?) & ? & _). pose proof (fl_base _ _ Hl). split; intros Hb Hb'.
  - rewrite (full_term_at _ _ Hl), (full_term_at _ _ Hl') by done. rewrite <- (agree_term _ _ _ k Ha) by done.
    destruct (term_in_is_Some F k) as [t Et]; [lia|]. by exists t.
  - rewrite (full_get _ _ Hl), (full_get _ _ Hl') by done. rewrite <- (agree_lookup _ _ _ (Z.to_nat (k - 1)) Ha) by lia.
    destruct (lookup_lt_is_Some_2 F (Z.to_nat (k - 1))) as [e Ee]; [unfold len in *; lia|]. by exists e.
Qed.

Lemma core_commit G i s F : node_core G i s F -> 0 <= rs_commit_index s.
Proof. intros Hc. destruct (nc_wf _ _ _ _ _ Hc) as (_ & ? & _). pose proof (fl_base _ _ (nc_log _ _ _ _ _ Hc)). lia. Qed.

Lemma held_agree V G1 G2 i j si sj Fi Fj k :
  ghost_inv V G2 -> older G1 G2 -> node_core G1 i si Fi -> node_core G2 j sj Fj ->
  k <= rs_commit_index si -> k <= rs_commit_index sj -> same_at (rs_log si) (rs_log sj) k.
Proof.
  intros HG HO Hi Hj Hki Hkj.
  assert (agree Fi Fj (Z.min (rs_commit_index si) (rs_commit_index sj))) as Ha.
  { eapply committed_logs_agree; [done|eapply committed_upto_mono; [done|apply Hi]|apply Hj|by eapply core_commit..]. }
  eapply agree_same_at; [apply Hi|apply Hj|exact Ha|lia].
Qed.

(** The log of a later leader. *)
Lemma leader_holds V G1 G2 i j si sj Fi Fj :
  ghost_inv V G2 -> older G1 G2 -> node_core G1 i si Fi -> node_core G2 j sj Fj ->
  rs_role sj = Leader -> rs_current_term si <= rs_current_term sj ->
  rs_commit_index si <= last_index (rs_log sj) /\
  forall k, k <= rs_commit_index si -> same_at (rs_log si) (rs_log sj) k.
Proof.
  intros HG HO Hi Hj Hr Ht. pose proof (nc_lead _ _ _ _ _ Hj Hr) as Hld.
  assert (agree Fi Fj (rs_commit_index si)) as Ha.
  { rewrite (ld_log _ _ _ _ _ Hld). eapply (committed_upto_lead members V); [done|done| |exact Ht|eexists; apply Hld].
    eapply committed_upto_mono; [done|apply Hi]. }
  split; [rewrite (full_last _ _ (nc_log _ _ _ _ _ Hj)); by destruct Ha as (_ & ? & _)|].
  intros k Hk. eapply agree_same_at; [apply Hi|apply Hj|exact Ha|lia].
Qed.
End Agreement.

(** ** Properties *)

(** C1: state machine safety.  In any run of a cluster with fixed membership,
    whatever messages are lost, duplicated, delayed or reordered and whenever nodes
    crash, also between and inside their writes, and restart: what a node holds as
    committed at some moment and what any node holds as committed at that or any
    later moment is the same, entry by entry and as terms of the snapshots' ends. *)
Theorem state_machine_safety {S E} `{SnapshotTransfer S E} members (c0 c1 c2 : cluster S) i j ndi ndj k :
  NoDup members -> cluster_init members c0 -> rtc cluster_step c0 c1 -> rtc cluster_step c1 c2 ->
  cl_nodes c1 !! i = Some ndi -> cl_nodes c2 !! j = Some ndj ->
  let si := d_state (cn_driver ndi) in let sj := d_state (cn_driver ndj) in
  k <= rs_commit_index si -> k <= rs_commit_index sj ->
  (rl_base_index (rs_log si) <= k -> rl_base_index (rs_log sj) <= k ->
   exists t, term_at (rs_log si) k = Some t /\ term_at (rs_log sj) k = Some t) /\
  (rl_base_index (rs_log si) < k -> rl_base_index (rs_log sj) < k ->
   exists e, log_get (rs_log si) k = Some e /\ log_get (rs_log sj) k = Some e).
Proof.
  intros Hmem H0 H1 H2 Hi Hj si sj Hki Hkj.
  destruct (two_moments members Hmem c0 c1 c2 H0 H1 H2) as (V & G1 & G2 & el & el1 & Hinv2 & HO & V1 & Hinv1).
  destruct (ci_nodes _ _ _ _ _ Hinv1 i ndi Hi) as [_ [Fi [Hni _ _ _ _]]].
  destruct (ci_nodes _ _ _ _ _ Hinv2 j ndj Hj) as [_ [Fj [Hnj _ _ _ _]]]. fold si in Hni. fold sj in Hnj.
  apply (held_agree members Hmem V G1 G2 i j si sj Fi Fj); try done; apply Hinv2.
Qed.

(** C2: leader completeness.  What a node holds as committed is in the log of every
    node that leads at that or any later moment in the same or a later term: its
    log reaches that far, and has the same entries and terms. *)
Theorem leader_completeness {S E} `{SnapshotTransfer S E} members (c0 c1 c2 : cluster S) i j ndi ndj :
  NoDup members -> cluster_init members c0 -> rtc cluster_step c0 c1 -> rtc cluster_step c1 c2 ->
  cl_nodes c1 !! i = Some ndi -> cl_nodes c2 !! j = Some ndj ->
  let si := d_state (cn_driver ndi) in let sj := d_state (cn_driver ndj) in
  rs_role sj = Leader -> rs_current_term si <= rs_current_term sj ->
  rs_commit_index si <= last_index (rs_log sj) /\
  forall k, k <= rs_commit_index si -> same_at (rs_log si) (rs_log sj) k.
Proof.
  intros Hmem H0 H1 H2 Hi Hj si sj Hr Ht.
  destruct (two_moments members Hmem c0 c1 c2 H0 H1 H2) as (V & G1 & G2 & el & el1 & Hinv2 & HO & V1 & Hinv1).
  destruct (ci_nodes _ _ _ _ _ Hinv1 i ndi Hi) as [_ [Fi [Hni _ _ _ _]]].
  destruct (ci_nodes _ _ _ _ _ Hinv2 j ndj Hj) as [_ [Fj [Hnj _ _ _ _]]].
  by eapply (leader_holds members Hmem); [apply Hinv2|done..].
Qed.

(** C10: restarts succeed.  Wherever in a round a node crashes, the two files it
    leaves are accepted by [restore] (no entry is missing between the snapshot and
    the log), and the node comes up with everything of the snapshot committed and
    applied. *)
Theorem restart_succeeds {S E} `{SnapshotTransfer S E} members (c0 c : cluster S) i nd ev snap p :
  NoDup members -> cluster_init members c0 -> rtc cluster_step c0 c ->
  cl_nodes c !! i = Some nd -> arrives c i ev -> within_bounds (cn_driver nd) ev -> crashed nd ev snap p ->
  exists s', restore (raft_new i (rs_peers (d_state (cn_driver nd))) (rs_noop_on_elect (d_state (cn_driver nd)))) p snap = Some s' /\
    raft_wf s' /\ rl_base_index (rs_log s') = snap_base snap /\ snap_base snap <= rs_commit_index s'.
Proof.
  intros Hmem H0 Hrun Hi Harr Hwb Hcr. apply cluster_init_inv in H0.
  destruct (run_inv _ Hmem _ _ _ _ _ H0 Hrun) as (V & G & el & _ & Hinv).
  destruct (crash_restores members Hmem V G el c Hinv i nd ev Hi Harr Hwb snap p Hcr) as (s' & Hr & Hgo).
  exists s'. split; [done|]. destruct (ci_nodes _ _ _ _ _ Hinv i nd Hi) as [[t' _] _].
  destruct (Hgo t') as (G' & V' & _ & Hinv'). destruct (ci_nodes _ _ _ _ _ Hinv' i _ ltac:(cbn; apply lookup_insert_eq)) as [_ [F Hn]].
  pose proof (nc_wf _ _ _ _ _ (nr_core _ _ _ _ _ _ _ Hn)) as Hwf. pose proof (nr_base _ _ _ _ _ _ _ Hn) as Eb. cbn in Hwf, Eb.
  split_and!; [done|done|]. rewrite <- Eb. destruct Hwf as (_ & [? ?] & _). lia.
Qed.

(** C23: the state of a node is well formed.  In every reachable cluster the log of a
    node is contiguous above its base, base, applied, committed and last index are
    in this order, the snapshot file ends where the log begins, and the store holds
    exactly term and vote of the node, and its log unless the compaction a
    restart found missing is still to be written. *)
Theorem reachable_nodes_wf {S E} `{SnapshotTransfer S E} members (c0 c : cluster S) i nd :
  NoDup members -> cluster_init members c0 -> rtc cluster_step c0 c -> cl_nodes c !! i = Some nd ->
  let s := d_state (cn_driver nd) in
  rs_me s = i /\ i :: rs_peers s ≡ₚ members /\ raft_wf s /\
  rl_base_index (rs_log s) = snap_base (d_snapshot (cn_driver nd)) /\
  pr_current_term (cn_store nd) = rs_current_term s /\ pr_voted_for (cn_store nd) = rs_voted_for s /\
  mem_persist (cn_store nd) (rs_pending s) = snapshot_persistent s /\
  (rs_pending s = [] \/ rs_pending s = [CompactThrough (rl_base_index (rs_log s))]).
Proof.
  intros Hmem H0 Hrun Hi s. apply cluster_init_inv in H0.
  destruct (run_inv _ Hmem _ _ _ _ _ H0 Hrun) as (V & G & el & _ & Hinv).
  destruct (ci_nodes _ _ _ _ _ Hinv i nd Hi) as [_ [F [Hc Hst [Ht Hv] Hb _]]]. fold s in Hc, Hst, Ht, Hv, Hb.
  pose proof (step_peers members V G el c Hinv i nd Hi) as Hp.
  destruct (stored_durable F s (cn_store nd) (nc_log _ _ _ _ _ Hc) Hst Ht Hv) as [_ Hd].
  split_and!; [apply Hc|done|apply Hc|done|done|done|by apply durable_persisted|].
  destruct Hst as [[? _]|[? _]]; auto.
Qed.

(** ** Witness: three nodes commit an entry *)

#[local] Instance unit_transfer : SnapshotTransfer unit unit := {
  st_read_chunk _ _ _ _ := Some ([], true); st_apply_chunk t _ _ _ := (true, t); st_progress _ := 0; st_snapshot_end _ := 0 }.

Definition sample_cluster : cluster unit :=
  mkCluster (list_to_map [(1, fresh_cnode 1 [2; 3] true tt); (2, fresh_cnode 2 [1; 3] true tt); (3, fresh_cnode 3 [1; 2] true tt)]) [].

Definition run_round (c : cluster unit) (i : Z) (ev : loop_event unit) : cluster unit :=
  match cl_nodes c !! i with
  | None => c
  | Some nd => let (nd', out) := loop_round nd ev in mkCluster (<[i := nd']> (cl_nodes c)) (cl_msgs c ++ out)
  end.

(** Deliver the [n]th message ever sent. *)
Definition deliver (c : cluster unit) (n : nat) : cluster unit :=
  match cl_msgs c !! n with Some (i, m) => run_round c i (LMessage m tt) | None => c end.

#[local] Instance is_u_dec w z : Decision (is_u w z) := ltac:(unfold is_u; apply _).
#[local] Instance entry_wf_dec e : Decision (entry_wf e) := ltac:(unfold entry_wf; apply _).
#[local] Instance message_wf_dec m : Decision (message_wf m) := ltac:(destruct m; cbn; apply _).
#[local] Instance event_term_ok_dec s ev : Decision (event_term_ok s ev) := ltac:(destruct ev; cbn; apply _).
#[local] Instance event_fits_dec s ev : Decision (event_fits s ev) := ltac:(unfold event_fits; destruct ev; apply _).
#[local] Instance within_bounds_dec d (ev : loop_event unit) : Decision (within_bounds d ev) :=
  ltac:(unfold within_bounds; destruct ev as [[]| | | |]; apply _).

Definition node_of (c : cluster unit) (i : Z) : cnode unit := default (fresh_cnode i [] true tt) (cl_nodes c !! i).
Definition state_of (c : cluster unit) (i : Z) : raft_state := d_state (cn_driver (node_of c i)).

Lemma run_round_step c i ev nd :
  cl_nodes c !! i = Some nd -> arrives c i ev -> within_bounds (cn_driver nd) ev ->
  rs_peers (state_of (run_round c i ev) i) = rs_peers (d_state (cn_driver nd)) -> cluster_step c (run_round c i ev).
Proof.
  intros Hi Ha Hw Hp. unfold run_round in *. rewrite Hi in *. destruct (loop_round nd ev) as [nd' out] eqn:Er.
  eapply step_round; try done. unfold state_of, node_of in Hp. cbn in Hp. by rewrite lookup_insert_eq in Hp.
Qed.

(** A schedule: messages to deliver and local events, each checked to be a step. *)
Inductive move : Type := Deliver (n : nat) | Local (i : Z) (ev : loop_event unit).

Definition move_event (c : cluster unit) (mv : move) : option (Z * loop_event unit) :=
  match mv with
  | Deliver n => (fun im => (fst im, LMessage (snd im) tt)) <$> cl_msgs c !! n
  | Local i (LMessage _ _) => None
  | Local i ev => Some (i, ev)
  end.

Fixpoint schedule (c : cluster unit) (mvs : list move) : option (cluster unit) :=
  match mvs with
  | [] => Some c
  | mv :: mvs =>
    iev ← move_event c mv; nd ← cl_nodes c !! fst iev;
    if bool_decide (within_bounds (cn_driver nd) (snd iev)) &&
       bool_decide (rs_peers (state_of (run_round c (fst iev) (snd iev)) (fst iev)) = rs_peers (d_state (cn_driver nd)))
    then schedule (run_round c (fst iev) (snd iev)) mvs else None
  end.

Lemma schedule_run mvs c c' : schedule c mvs = Some c' -> rtc cluster_step c c'.
Proof.
  revert c. induction mvs as [|mv mvs IH]; intros c; cbn [schedule]; [by intros [= <-]|].
  destruct (move_event c mv) as [[i ev]|] eqn:Em; [|done]. cbn [mbind option_bind fst snd].
  destruct (cl_nodes c !! i) as [nd|] eqn:Hi; [|done]. cbn. destruct (_ && _) eqn:Eb; [|done].
  apply andb_prop in Eb as [E1 E2]. apply bool_decide_eq_true in E1, E2. intros Hs. eapply rtc_l; [|by apply IH].
  eapply run_round_step; try done. unfold move_event in Em. destruct mv as [n|i0 ev0].
  - apply fmap_Some in Em as ([p m] & Hn & [= -> ->]). cbn. by eapply list_elem_of_lookup_2.
  - by destruct ev0; simplify_eq.
Qed.

Definition run_of (mvs : list move) : cluster unit := default sample_cluster (schedule sample_cluster mvs).

(** Node 1 is elected, its first entry is refused once, sent again and committed. *)
Definition first_commit : list move := [Local 1 LElectionTimeout; Deliver 0; Deliver 2; Deliver 3; Deliver 5; Deliver 6; Deliver 7].
(** Node 2 hears of it. *)
Definition both_commit : list move := first_commit ++ [Local 1 LHeartbeat; Deliver 8].
(** Node 2 is elected in term 2. *)
Definition next_leader : list move := first_commit ++ [Local 2 LElectionTimeout; Deliver 9; Deliver 10].

Lemma sample_cluster_init : cluster_init [1; 2; 3] sample_cluster.
Proof.
  split; [done|]. intros i nd Hi. unfold sample_cluster in Hi. cbn [cl_nodes] in Hi.
  apply elem_of_list_to_map_2 in Hi. rewrite !elem_of_cons, elem_of_nil in Hi.
  destruct Hi as [Hx|[Hx|[Hx|[]]]]; injection Hx as -> ->; eexists _, true, tt; (split; [reflexivity|]).
  - reflexivity.
  - apply Permutation_swap.
  - etransitivity; [apply Permutation_swap|]. constructor. apply Permutation_swap.
Qed.

Lemma schedule_app c a b c1 : schedule c a = Some c1 -> schedule c (a ++ b) = schedule c1 b.
Proof.
  revert c. induction a as [|mv a IH]; intros c; cbn [schedule app]; [by intros [= ->]|].
  destruct (move_event c mv) as [[i ev]|]; [|done]. cbn [mbind option_bind fst snd].
  destruct (cl_nodes c !! i) as [nd|]; [|done]. cbn. by destruct (_ && _); [apply IH|].
Qed.

Lemma run_of_run mvs : is_Some (schedule sample_cluster mvs) -> rtc cluster_step sample_cluster (run_of mvs).
Proof. intros [c Hc]. apply (schedule_run mvs). unfold run_of. by rewrite Hc. Qed.

Lemma run_of_later a b :
  is_Some (schedule sample_cluster (a ++ b)) -> is_Some (schedule sample_cluster a) ->
  rtc cluster_step (run_of a) (run_of (a ++ b)).
Proof.
  intros [c Hc] [c1 H1]. apply (schedule_run b). unfold run_of. rewrite (schedule_app _ _ _ _ H1), H1.
  rewrite (schedule_app _ _ _ _ H1) in Hc. cbn. by rewrite Hc.
Qed.

Ltac sample_runs := apply (bool_decide_unpack _); vm_compute; exact I.

Lemma state_machine_safety_witness :
  rs_commit_index (state_of (run_of first_commit) 1) = 1 /\ rs_commit_index (state_of (run_of both_commit) 2) = 1 /\
  exists e, log_get (rs_log (state_of (run_of first_commit) 1)) 1 = Some e /\
    log_get (rs_log (state_of (run_of both_commit) 2)) 1 = Some e.
Proof.
  assert (rs_commit_index (state_of (run_of first_commit) 1) = 1) as H1 by (vm_compute; reflexivity).
  assert (rs_commit_index (state_of (run_of both_commit) 2) = 1) as H2 by (vm_compute; reflexivity).
  split; [exact H1|]. split; [exact H2|].
  refine (proj2 (state_machine_safety [1; 2; 3] sample_cluster (run_of first_commit) (run_of both_commit) 1 2
    (node_of (run_of first_commit) 1) (node_of (run_of both_commit) 2) 1 _ _ _ _ _ _ _ _) _ _).
  - sample_runs.
  - apply sample_cluster_init.
  - apply run_of_run. sample_runs.
  - apply run_of_later; sample_runs.
  - vm_compute; reflexivity.
  - vm_compute; reflexivity.
  - vm_compute; discriminate.
  - vm_compute; discriminate.
  - vm_compute; reflexivity.
  - vm_compute; reflexivity.
Defined.

Lemma leader_completeness_witness :
  rs_role (state_of (run_of next_leader) 2) = Leader /\ rs_current_term (state_of (run_of next_leader) 2) = 2 /\
  rs_commit_index (state_of (run_of first_commit) 1) <= last_index (rs_log (state_of (run_of next_leader) 2)).
Proof.
  assert (rs_role (state_of (run_of next_leader) 2) = Leader) as H1 by (vm_compute; reflexivity).
  assert (rs_current_term (state_of (run_of next_leader) 2) = 2) as H2 by (vm_compute; reflexivity).
  split; [exact H1|]. split; [exact H2|].
  refine (proj1 (leader_completeness [1; 2; 3] sample_cluster (run_of first_commit) (run_of next_leader) 1 2
    (node_of (run_of first_commit) 1) (node_of (run_of next_leader) 2) _ _ _ _ _ _ _ _)).
  - sample_runs.
  - apply sample_cluster_init.
  - apply run_of_run. sample_runs.
  - apply run_of_later; sample_runs.
  - vm_compute; reflexivity.
  - vm_compute; reflexivity.
  - exact H1.
  - vm_compute; discriminate.
Defined.

(** Node 2 crashes while it stores its first entry. *)
Definition before_append : list move := [Local 1 LElectionTimeout; Deliver 0; Deliver 2; Deliver 3; Deliver 5].
Definition first_append : loop_event unit := LMessage (AppendEntries (mkAE 1 1 0 0 [mkEntry 1 1 []] 0)) tt.

Lemma restart_succeeds_witness :
  exists s', restore (raft_new 2 [1; 3] true) (mem_persist (cn_store (node_of (run_of before_append) 2)) [TruncateFrom 1]) None = Some s' /\
    raft_wf s' /\ rl_base_index (rs_log s') = 0 /\ 0 <= rs_commit_index s'.
Proof.
  refine (restart_succeeds [1; 2; 3] sample_cluster (run_of before_append) 2 (node_of (run_of before_append) 2) first_append
    None _ _ _ _ _ _ _ _).
  - sample_runs.
  - apply sample_cluster_init.
  - apply run_of_run. sample_runs.
  - vm_compute; reflexivity.
  - apply (list_elem_of_lookup_2 _ 6%nat). vm_compute; reflexivity.
  - sample_runs.
  - apply (crashed_late (node_of (run_of before_append) 2) first_append [TruncateFrom 1]).
    + vm_compute; reflexivity.
    + change (torn_prefix [TruncateFrom 1] [TruncateFrom 1; Append [mkEntry 1 1 []]]). repeat constructor.
Defined.

(** A log that does not follow its snapshot.  A follower holds three entries of term
    1; the last chunk of a snapshot up to index 2, whose last entry is of term 2,
    arrives.  The log is cleared, the snapshot is stored, and the node crashes
    before the log file is cut: the restarted node has the third entry of term 1
    after the snapshot. *)
Definition behind : raft_state :=
  set_hard (set_log (raft_new 2 [1; 3] true) (mkLog [mkEntry 1 1 []; mkEntry 1 2 []; mkEntry 1 3 []] 0 0)) 2 None.
Definition last_chunk : install_snapshot := mkIS 2 1 2 2 0 true [].

Example installed_log_is_empty :
  rs_log (fst (on_message_with_progress behind (InstallSnapshot last_chunk) 0)) = mkLog [] 2 2 /\
  rs_pending (fst (on_message_with_progress behind (InstallSnapshot last_chunk) 0)) = [TruncateFrom 0].
Proof. split; vm_compute; reflexivity. Qed.

Example restart_keeps_stale_entry :
  rs_log <$> restore (raft_new 2 [1; 3] true) (snapshot_persistent behind) (Some (mkSnapshot 2 2 [])) =
  Some (mkLog [mkEntry 1 3 []] 2 2).
Proof. vm_compute. reflexivity. Qed.

Lemma reachable_nodes_wf_witness :
  raft_wf (state_of (run_of next_leader) 2) /\ rs_pending (state_of (run_of next_leader) 2) = [].
Proof.
  split; [|vm_compute; reflexivity].
  refine (proj1 (proj2 (proj2 (reachable_nodes_wf [1; 2; 3] sample_cluster (run_of next_leader) 2
    (node_of (run_of next_leader) 2) _ _ _ _)))).
  - sample_runs.
  - apply sample_cluster_init.
  - apply run_of_run. sample_runs.
  - vm_compute; reflexivity.
Defined.
