(* ===== verification/RaftCommand.v ===== *)
(** * The entries of a replicated partition (crates/es-broker/src/raft_partition.rs)

    The bytes a produce request becomes in the Raft log ([encode_batch],
    [decode_command], [batch_span]), the bytes of a snapshot chunk, and the proofs
    that reading gives back what was written. *)

From S2P Require Export PartitionSpec.

#[local] Open Scope Z_scope.

(** ** Data *)

Definition ENTRY_V1 : Z := 0x01.

(** The fields of one record of a batch entry: timestamp, key, value. *)
Definition cmd_record : Type := Z * option (list byte) * list byte.

Inductive command : Type :=
| Batch (proposal base_offset : Z) (records : list cmd_record)
| Legacy (key : option (list byte)) (value : list byte).

Inductive command_error : Type := EntryTruncated | TrailingBatch | TrailingAppend.

(** ** Writing *)

(** The optional key of a record: [i32] length, [-1] for none. *)
Definition put_key (key : option (list byte)) : list byte :=
  match key with
  | Some k => to_be 4 (wrap_i 32 (len k)) ++ k
  | None => to_be 4 (-1)
  end.

Definition put_value (value : list byte) : list byte :=
  to_be 4 (wrap_u 32 (len value)) ++ value.

Definition put_cmd_record (r : cmd_record) : list byte :=
  let '(ts, key, value) := r in to_be 8 ts ++ put_key key ++ put_value value.

Definition encode_batch (proposal base_offset ts : Z) (records : list append_record) : list byte :=
  to_be 1 ENTRY_V1 ++ to_be 8 proposal ++ to_be 8 base_offset ++
  to_be 4 (wrap_u 32 (len records)) ++
  concat ((fun r => put_cmd_record (default ts (ar_timestamp_ms r), ar_key r, ar_value r)) <$> records).

(** ** Reading *)

(** [Some((base, count))] of a batch entry: bytes 9..17 and 17..21. *)
Definition batch_span (bytes : list byte) : option (Z * Z) :=
  if (len bytes <? 21) || negb (from_be (take 1 bytes) =? ENTRY_V1) then None
  else Some (from_be (take 8 (drop 9 bytes)), from_be (take 4 (drop 17 bytes))).

(** [Cur::opt_bytes] and [Cur::bytes]. *)
Definition rd_opt_bytes : reader (option (list byte)) :=
  n ← rd_uint 4;
  let n := wrap_i 32 n in
  if n <? 0 then rd_ret None else b ← rd_bytes n; rd_ret (Some b).

Definition rd_lbytes : reader (list byte) := n ← rd_uint 4; rd_bytes n.

Definition rd_cmd_record : reader cmd_record :=
  ts ← rd_uint 8; key ← rd_opt_bytes; value ← rd_lbytes; rd_ret (wrap_i 64 ts, key, value).

(** [Cur::u64], [Cur::u64], [Cur::u32] and the record loop. *)
Definition rd_batch : reader (Z * Z * list cmd_record) :=
  proposal ← rd_uint 8; base ← rd_uint 8; n ← rd_uint 4;
  rs ← rd_repeat (Z.to_nat n) rd_cmd_record; rd_ret (proposal, base, rs).

Definition rd_legacy : reader (option (list byte) * list byte) :=
  key ← rd_opt_bytes; value ← rd_lbytes; rd_ret (key, value).

Definition decode_command (bytes : list byte) : outcome command_error command :=
  if match bytes with b :: _ => Z_of_byte b =? ENTRY_V1 | [] => false end then
    match rd_batch (drop 1 bytes) with
    | Some (proposal, base, rs, rest) =>
      if len rest =? 0 then Ok (Batch proposal base rs) else Err TrailingBatch
    | None => Err EntryTruncated
    end
  else
    match rd_legacy bytes with
    | Some (key, value, rest) =>
      if len rest =? 0 then Ok (Legacy key value) else Err TrailingAppend
    | None => Err EntryTruncated
    end.

(** ** Snapshot chunks *)

(** One record of a chunk, after the eight bytes of [end]. *)
Definition put_chunk_record (r : record) : list byte :=
  to_be 8 (r_offset r) ++ put_cmd_record (r_timestamp_ms r, r_key r, r_value r).

Definition rd_chunk_record : reader record :=
  offset ← rd_uint 8; r ← rd_cmd_record;
  rd_ret (mkRecord offset r.1.1 r.1.2 r.2).

(** [while c.p < data.len()]; a record takes at least 24 bytes, so the length of
    the data bounds the iterations. *)
Fixpoint rd_chunk_loop (fuel : nat) (l : list byte) : option (list record) :=
  match l, fuel with
  | [], _ => Some []
  | _, O => None
  | _, S fuel =>
    match rd_chunk_record l with
    | Some (r, l') => (fun rs => r :: rs) <$> rd_chunk_loop fuel l'
    | None => None
    end
  end.

(** [snapshot_end]: [data.get(0..8)], 0 when there are fewer bytes. *)
Definition snapshot_end (data : list byte) : Z :=
  if len data <? 8 then 0 else from_be (take 8 data).

(** ** What can be written *)

Definition cmd_record_ok (r : cmd_record) : Prop :=
  is_i 64 r.1.1 /\ len (default [] r.1.2) < 2 ^ 31 /\ is_u 32 (len r.2).

(** The fields of a batch entry that names each record's timestamp. *)
Definition cmd_fields (ts : Z) (r : append_record) : cmd_record :=
  (default ts (ar_timestamp_ms r), ar_key r, ar_value r).

(** ** Reading back *)

Lemma rd_opt_bytes_app key k :
  len (default [] key) < 2 ^ 31 -> rd_opt_bytes (put_key key ++ k) = Some (key, k).
Proof.
  intros Hk. unfold rd_opt_bytes, put_key. destruct key as [b|]; simpl in Hk.
  - assert (is_i 32 (len b)) as Hi by (unfold is_i; len_facts; lia).
    assert (is_u 32 (len b)) as Hu by (unfold is_u; len_facts; lia).
    rewrite wrap_i_small by (lia || done). rd_step.
    rewrite wrap_i_small by (lia || done). if_false. by rd_step.
  - by erewrite rd_mbind by apply rd_int_app.
Qed.

Lemma rd_lbytes_app v k : is_u 32 (len v) -> rd_lbytes (put_value v ++ k) = Some (v, k).
Proof.
  intros Hv. unfold rd_lbytes, put_value. rewrite wrap_u_small by done. rd_step. apply rd_bytes_app.
Qed.

#[local] Hint Resolve rd_opt_bytes_app rd_lbytes_app : rd.

Lemma rd_cmd_record_app r k :
  cmd_record_ok r -> rd_cmd_record (put_cmd_record r ++ k) = Some (r, k).
Proof.
  destruct r as [[ts key] value]. intros (Ht & Hk & Hv). cbn [fst snd] in Ht, Hk, Hv.
  unfold rd_cmd_record, put_cmd_record. rewrite <- !app_assoc.
  erewrite rd_mbind by apply rd_int_app. do 2 rd_step.
  rewrite (wrap_i_mod 64), wrap_i_small by (lia || done). done.
Qed.

#[local] Hint Resolve rd_cmd_record_app : rd.

Lemma rd_chunk_record_app r k :
  is_u 64 (r_offset r) -> cmd_record_ok (r_timestamp_ms r, r_key r, r_value r) ->
  rd_chunk_record (put_chunk_record r ++ k) = Some (r, k).
Proof.
  intros Ho Hr. unfold rd_chunk_record, put_chunk_record. do 2 rd_step. by destruct r.
Qed.

(** What a partition stores fits into a chunk. *)
Lemma record_ok_chunk r :
  record_ok r -> is_u 64 (r_offset r) /\ cmd_record_ok (r_timestamp_ms r, r_key r, r_value r).
Proof.
  intros Hr. pose proof Hr as (Ho & Ht & _). split; [done|].
  destruct (record_ok_lens r Hr) as (_ & Hv & _ & Hk). done.
Qed.

Lemma rd_chunk_loop_app rs fuel :
  Forall record_ok rs -> (length rs <= fuel)%nat ->
  rd_chunk_loop fuel (concat (put_chunk_record <$> rs)) = Some rs.
Proof.
  intros Hok. revert fuel. induction Hok as [|r rs Hr Hok IH]; intros fuel Hf.
  - by destruct fuel.
  - destruct fuel as [|fuel]; [cbn in Hf; lia|]. destruct (record_ok_chunk r Hr) as [Ho Hc].
    pose proof (rd_chunk_record_app r (concat (put_chunk_record <$> rs)) Ho Hc) as E.
    cbn [fmap list_fmap concat rd_chunk_loop].
    destruct (put_chunk_record r ++ concat (put_chunk_record <$> rs)) as [|b l] eqn:El.
    { apply app_nil in El as [El _]. apply (f_equal len) in El. revert El.
      unfold put_chunk_record. len_lia. }
    rewrite E, IH by (cbn in Hf; lia). done.
Qed.

Lemma put_chunk_record_len r : 8 <= len (put_chunk_record r).
Proof. unfold put_chunk_record. len_lia. Qed.

Lemma chunk_fuel rs : (length rs <= length (concat (put_chunk_record <$> rs)))%nat.
Proof.
  induction rs as [|r rs IH]; [done|]. cbn. rewrite length_app.
  pose proof (put_chunk_record_len r). unfold len in *. lia.
Qed.

(** ** The batch entry *)

Lemma rd_batch_app proposal base rs :
  is_u 64 proposal -> is_u 64 base -> is_u 32 (len rs) -> Forall cmd_record_ok rs ->
  rd_batch (to_be 8 proposal ++ to_be 8 base ++ to_be 4 (len rs) ++ concat (put_cmd_record <$> rs)) =
  Some (proposal, base, rs, []).
Proof.
  intros Hp Hb Hn Hok. unfold rd_batch. do 3 rd_step.
  erewrite rd_mbind; [reflexivity|].
  rewrite <- length_len, <- (app_nil_r (concat _)). apply rd_repeat_app.
  intros x k Hx. apply rd_cmd_record_app. rewrite Forall_forall in Hok. auto.
Qed.

(** A batch entry decodes to the proposal, the base offset and the records it was
    written from, and its span is read without decoding the records. *)
Theorem batch_command_roundtrip proposal base ts records :
  is_u 64 proposal -> is_u 64 base -> is_u 32 (len records) ->
  Forall (fun r => cmd_record_ok (cmd_fields ts r)) records ->
  decode_command (encode_batch proposal base ts records) =
    Ok (Batch proposal base (cmd_fields ts <$> records)) /\
  batch_span (encode_batch proposal base ts records) = Some (base, len records).
Proof.
  intros Hp Hb Hn Hok. unfold encode_batch. rewrite wrap_u_small by done.
  change (fun r => put_cmd_record _) with (fun r => put_cmd_record (cmd_fields ts r)).
  assert (concat ((fun r => put_cmd_record (cmd_fields ts r)) <$> records) =
    concat (put_cmd_record <$> (cmd_fields ts <$> records))) as -> by (by rewrite <- list_fmap_compose).
  split.
  - change (to_be 1 ENTRY_V1) with [x01]. unfold decode_command. cbn [app drop].
    change (Z_of_byte x01 =? ENTRY_V1) with true. cbv iota.
    rewrite <- (len_fmap (cmd_fields ts)). rewrite drop_0, rd_batch_app; try done.
    + by rewrite len_fmap.
    + by apply Forall_fmap.
  - unfold batch_span. rewrite (proj2 (Z.ltb_ge _ _)) by len_lia.
    rewrite (take_app_len (to_be 1 ENTRY_V1)) by (by rewrite to_be_length).
    change (from_be (to_be 1 ENTRY_V1) =? ENTRY_V1) with true. cbn [orb negb].
    set (body := concat _). 
    replace (drop 9 _) with (to_be 8 base ++ to_be 4 (len records) ++ body).
    2: { rewrite (app_assoc (to_be 1 _)), drop_app_len; [done|]. by rewrite length_app, !to_be_length. }
    replace (drop 17 _) with (to_be 4 (len records) ++ body).
    2: { rewrite (app_assoc (to_be 1 _)), (app_assoc (_ ++ _)), drop_app_len; [done|].
         by rewrite !length_app, !to_be_length. }
    rewrite !take_app_len by (by rewrite to_be_length). by rewrite from_be8, from_be4.
Qed.

(** ** The span of any entry *)

Lemma rd_mbind_inv {A B} (m : reader A) (k : A -> reader B) l b l' :
  (a ← m; k a) l = Some (b, l') -> exists a l1, m l = Some (a, l1) /\ k a l1 = Some (b, l').
Proof. unfold mbind, reader_bind, rd_bind. destruct (m l) as [[a l1]|]; [eauto|done]. Qed.

Lemma rd_repeat_length {A} (m : reader A) n l xs l' :
  rd_repeat n m l = Some (xs, l') -> length xs = n.
Proof.
  revert l xs l'. induction n as [|n IH]; intros l xs l' E; cbn in E; unfold rd_ret in E; simplify_eq; [done|].
  apply (rd_mbind_inv m) in E as (a & l1 & _ & E).
  apply (rd_mbind_inv (rd_repeat n m)) in E as (r & l2 & E & Er). unfold rd_ret in Er. simplify_eq.
  cbn. f_equal. eauto.
Qed.

Lemma rd_batch_inv l proposal base rs rest :
  rd_batch l = Some (proposal, base, rs, rest) ->
  exists body, l = to_be 8 proposal ++ to_be 8 base ++ to_be 4 (len rs) ++ body /\
    is_u 64 base /\ is_u 32 (len rs).
Proof.
  unfold rd_batch. intros E. apply rd_mbind_inv in E as (p & l1 & E1 & E).
  apply rd_mbind_inv in E as (b & l2 & E2 & E). apply rd_mbind_inv in E as (n & l3 & E3 & E).
  apply rd_mbind_inv in E as (rs' & l4 & E4 & E). unfold rd_ret in E. simplify_eq.
  apply rd_uint_inv in E1 as [-> _]. apply rd_uint_inv in E2 as [-> Hb].
  apply rd_uint_inv in E3 as [-> Hn]. apply rd_repeat_length in E4.
  assert (len rs = n) as -> by (unfold len; lia). by exists l3.
Qed.

(** [batch_span] reads from an entry exactly what decoding it gives: the base and
    the record count of a batch, nothing of a legacy entry. *)
Lemma batch_span_decode bytes cmd :
  decode_command bytes = Ok cmd ->
  batch_span bytes = match cmd with Batch _ base rs => Some (base, len rs) | Legacy _ _ => None end.
Proof.
  unfold decode_command, batch_span. intros E. destruct bytes as [|b l].
  { destruct (rd_legacy []) as [[[? ?] ?]|]; [case_if_in E|]; by simplify_eq. }
  replace (from_be (take 1 (b :: l))) with (Z_of_byte b) by (cbn; unfold from_be; cbn; done).
  case_if_in E.
  - cbn [drop] in E. rewrite drop_0 in E. destruct (rd_batch l) as [[[[p base] rs] rest]|] eqn:Eb; [|done].
    case_if_in E; simplify_eq. apply rd_batch_inv in Eb as (body & -> & Hb & Hn).
    rewrite (proj2 (Z.ltb_ge _ _)) by len_lia. cbn [orb negb].
    change (drop 9 (b :: ?l)) with (drop 8 l). change (drop 17 (b :: ?l)) with (drop 16 l).
    rewrite (drop_app_len (to_be 8 p)) by (by rewrite to_be_length).
    rewrite (app_assoc (to_be 8 p)), (drop_app_len (_ ++ _)) by (by rewrite length_app, !to_be_length).
    rewrite !take_app_len by (by rewrite to_be_length). by rewrite from_be8, from_be4.
  - rewrite orb_true_r. destruct (rd_legacy _) as [[[? ?] ?]|]; [case_if_in E|]; by simplify_eq.
Qed.
