(* ===== verification/RaftPartition.v ===== *)
(** * Replicated partitions (crates/es-broker/src/raft_partition.rs)

    A partition driven by a Raft node: the proposer ([append_batch], which assigns
    offsets, proposes one entry and waits for it by proposal id), the apply loop,
    and the steps in which they interleave with the node.

    A oneshot channel is its proposal id: [rp_answers] lists what was sent on
    which.  The task of one [append_batch] call is a [caller]; its awaits are the
    boundaries between steps. *)

From S2P Require Export RaftSafety RaftCommand.
From S2P Require Import Partition.

#[local] Open Scope Z_scope.

Section RaftPartition.
Context `{Crc32}.

(** ** State *)

Inductive answer : Type :=
| Applied (offsets : list Z)
| Replaced (index : Z)
| LoopStopped
| PartitionShutdown.

(** Where one [append_batch] call is: its waiter registered, the base offset
    read under [propose_lock], the proposal accepted or refused, or over. *)
Inductive caller : Type :=
| Registered (records : list append_record)
| Based (records : list append_record) (base : Z)
| Accepted_at (index : Z)
| Waiting (index : Z)
| Refused (hint : option Z)
| TimedOut.

Record raft_partition : Type := mkRP {
  rp_partition : partition;
  rp_raft : raft_state;
  rp_committed : list log_entry;      (** the channel from the node to the apply loop *)
  rp_waiters : gmap Z (option Z);
  rp_callers : gmap Z caller;
  rp_proposal_nonce : Z;
  rp_proposal_counter : Z;
  rp_applying : bool;                 (** the apply loop runs *)
  rp_applies_since_snapshot : Z;
  rp_answers : list (Z * answer)
}.

Definition set_partition rp x := mkRP x (rp_raft rp) (rp_committed rp) (rp_waiters rp)
  (rp_callers rp) (rp_proposal_nonce rp) (rp_proposal_counter rp) (rp_applying rp) (rp_applies_since_snapshot rp) (rp_answers rp).
Definition set_raft rp x q := mkRP (rp_partition rp) x q (rp_waiters rp)
  (rp_callers rp) (rp_proposal_nonce rp) (rp_proposal_counter rp) (rp_applying rp) (rp_applies_since_snapshot rp) (rp_answers rp).
Definition set_waiters rp x := mkRP (rp_partition rp) (rp_raft rp) (rp_committed rp) x
  (rp_callers rp) (rp_proposal_nonce rp) (rp_proposal_counter rp) (rp_applying rp) (rp_applies_since_snapshot rp) (rp_answers rp).
Definition set_caller rp pid c := mkRP (rp_partition rp) (rp_raft rp) (rp_committed rp) (rp_waiters rp)
  (<[pid := c]> (rp_callers rp)) (rp_proposal_nonce rp) (rp_proposal_counter rp) (rp_applying rp)
  (rp_applies_since_snapshot rp) (rp_answers rp).
Definition send_answers rp xs := mkRP (rp_partition rp) (rp_raft rp) (rp_committed rp) (rp_waiters rp)
  (rp_callers rp) (rp_proposal_nonce rp) (rp_proposal_counter rp) (rp_applying rp) (rp_applies_since_snapshot rp) (rp_answers rp ++ xs).
Definition set_applying rp b := mkRP (rp_partition rp) (rp_raft rp) (rp_committed rp) (rp_waiters rp)
  (rp_callers rp) (rp_proposal_nonce rp) (rp_proposal_counter rp) b (rp_applies_since_snapshot rp) (rp_answers rp).

Definition set_applies rp n := mkRP (rp_partition rp) (rp_raft rp) (rp_committed rp) (rp_waiters rp)
  (rp_callers rp) (rp_proposal_nonce rp) (rp_proposal_counter rp) (rp_applying rp) n (rp_answers rp).

(** ** The proposer *)

(** The last entry of the log that carries records: [base + count] of a batch,
    the index of a legacy entry. *)
Definition entry_end (e : log_entry) : option Z :=
  if (len (e_payload e) =? 0) || is_config_entry (e_payload e) then None
  else Some (match batch_span (e_payload e) with
             | Some (base, count) => wrap_u 64 (base + count)
             | None => e_index e
             end).

(** The [for e in state.log.entries.iter().rev()] loop. *)
Fixpoint first_end (rev_entries : list log_entry) : option Z :=
  match rev_entries with
  | [] => None
  | e :: es => match entry_end e with Some n => Some n | None => first_end es end
  end.

Definition next_assignable_offset (s : raft_state) (p : partition) : Z :=
  Z.max (default 0 (first_end (reverse (rl_entries (rs_log s))))) (p_next_offset p).

(** [append_batch] up to the registration of the waiter. *)
Definition register (rp : raft_partition) (records : list append_record) : Z * raft_partition :=
  let pid := wrap_u 64 (rp_proposal_nonce rp + rp_proposal_counter rp) in
  (pid, mkRP (rp_partition rp) (rp_raft rp) (rp_committed rp) (<[pid := None]> (rp_waiters rp))
     (<[pid := Registered records]> (rp_callers rp)) (rp_proposal_nonce rp)
     (wrap_u 64 (rp_proposal_counter rp + 1)) (rp_applying rp) (rp_applies_since_snapshot rp) (rp_answers rp)).

(** [self.raft.propose(payload)], as the node loop handles it. *)
Definition propose_entry (rp : raft_partition) (payload : list byte) : propose_outcome * raft_partition :=
  let '(s, out, acts) := try_propose (rp_raft rp) payload in
  (out, set_raft rp s (rp_committed rp ++ applies acts)).

(** The reply of [propose]: remember the index, or give up. *)
Definition on_reply (rp : raft_partition) (pid : Z) (out : propose_outcome) : raft_partition :=
  match out with
  | Accepted index => set_caller rp pid (Accepted_at index)
  | NotLeader hint =>
    set_caller (set_waiters rp (delete pid (rp_waiters rp))) pid (Refused hint)
  end.

(** [if let Some(w) = waiters.get_mut(&proposal) { w.index = Some(index) }]. *)
Definition note_index (rp : raft_partition) (pid index : Z) : raft_partition :=
  set_caller
    (match rp_waiters rp !! pid with
     | Some _ => set_waiters rp (<[pid := Some index]> (rp_waiters rp))
     | None => rp
     end) pid (Waiting index).

(** [COMMIT_TIMEOUT] elapsed. *)
Definition on_timeout (rp : raft_partition) (pid : Z) : raft_partition :=
  set_caller (set_waiters rp (delete pid (rp_waiters rp))) pid TimedOut.

(** Every waiter left is told [a]. *)
Definition drain_waiters (rp : raft_partition) (a : answer) : raft_partition :=
  send_answers (set_waiters rp ∅) ((fun w => (w.1, a)) <$> map_to_list (rp_waiters rp)).

Definition shutdown (rp : raft_partition) : raft_partition :=
  drain_waiters (set_applying rp false) PartitionShutdown.

(** ** The apply loop *)

(** The records an entry stands for: those of a batch at consecutive offsets from
    its base, the one of a legacy entry at its index minus one. *)
Definition batch_append (base_offset : Z) (records : list cmd_record) : list append_record :=
  imap (fun i (r : cmd_record) =>
          mkAppend r.1.2 r.2 (Some r.1.1) (Some (wrap_u 64 (base_offset + Z.of_nat i)))) records.

Definition entry_append (e : log_entry) : outcome command_error (option Z * list append_record) :=
  cmd ← decode_command (e_payload e);
  match cmd with
  | Batch proposal base_offset records => Ok (Some proposal, batch_append base_offset records)
  | Legacy key value => Ok (None, [mkAppend key value None (Some (sat_sub_u64 (e_index e) 1))])
  end.

(** A waiter whose index has been passed lost it to another leader's entry. *)
Definition superseded (index : Z) (w : Z * option Z) : bool :=
  match w.2 with Some i => i <=? index | None => false end.

(** Answering the waiters once an entry has been applied. *)
Definition answer_waiters (rp : raft_partition) (proposal : option Z) (offsets : list Z) (index : Z)
    : raft_partition :=
  let rp :=
    match proposal with
    | Some pid =>
      match rp_waiters rp !! pid with
      | Some _ => send_answers (set_waiters rp (delete pid (rp_waiters rp))) [(pid, Applied offsets)]
      | None => rp
      end
    | None => rp
    end in
  let lost := filter (fun w => superseded index w = true) (map_to_list (rp_waiters rp)) in
  send_answers
    (set_waiters rp (filter (fun w => superseded index w = false) (rp_waiters rp)))
    ((fun w => (w.1, Replaced (default 0 w.2))) <$> lost).

Inductive apply_error : Type := BadEntry (e : command_error) | ApplyAppend (e : append_error).

Definition apply (rp : raft_partition) (entry : log_entry) (now : Z) (ft : faults)
    : outcome apply_error unit * raft_partition :=
  match entry_append entry with
  | Ok (proposal, records) =>
    match append_batch (rp_partition rp) records Deferred now ft with
    | (Ok offsets, p) => (Ok tt, answer_waiters (set_partition rp p) proposal offsets (e_index entry))
    | (Err e, p) => (Err (ApplyAppend e), set_partition rp p)
    | (Panic, p) => (Panic, set_partition rp p)
    end
  | Err e => (Err (BadEntry e), rp)
  | Panic => (Panic, rp)
  end.

(** [ApplyLoop::snapshot]: sync, then ask the node to compact through [through]. *)
Definition snapshot (rp : raft_partition) (through : Z) (sync_ok : bool) : raft_partition :=
  match sync_all (rp_partition rp) sync_ok with
  | (Ok _, p) =>
    let rp := set_partition rp p in
    let (s, acts) := node_event (rp_raft rp) (EvSnapshot (to_be 8 (p_next_offset p)) (Some through)) in
    set_raft rp s (rp_committed rp ++ applies acts)
  | (_, p) => set_partition rp p
  end.

(** One iteration of [ApplyLoop::run]: take an entry from the channel and apply
    it; an error stops the loop and answers everyone who still waits; every
    [snapshot_after] applies a snapshot is taken. *)
Definition run_one (snapshot_after : Z) (rp : raft_partition) (now : Z) (ft : faults) (sync_ok : bool)
    : raft_partition :=
  match rp_applying rp, rp_committed rp with
  | true, entry :: rest =>
    match apply (set_raft rp (rp_raft rp) rest) entry now ft with
    | (Ok _, rp) =>
      let n := rp_applies_since_snapshot rp + 1 in
      if (0 <? snapshot_after) && (snapshot_after <=? n)
      then snapshot (set_applies rp 0) (e_index entry) sync_ok
      else set_applies rp n
    | (_, rp) => drain_waiters (set_applying rp false) LoopStopped
    end
  | _, _ => rp
  end.
End RaftPartition.
