(* ===== verification/RaftPartitionSpec.v ===== *)
(** * What a replicated partition promises

    Applying committed entries to a partition: every replica ends with the same
    records at the same offsets, from wherever it resumes; who is answered when an
    entry is applied; and which offsets a leader hands out. *)

From S2P Require Export RaftPartition.

#[local] Open Scope Z_scope.

(** ** The records of an entry *)

Definition batch_records (base : Z) (rs : list cmd_record) : list record :=
  imap (fun i (r : cmd_record) => mkRecord (base + Z.of_nat i) r.1.1 r.1.2 r.2) rs.

Definition entry_records (e : log_entry) : list record :=
  match decode_command (e_payload e) with
  | Ok (Batch _ base rs) => batch_records base rs
  | _ => []
  end.

(** A batch entry as a leader writes it: its offsets fit and its records can be
    stored. *)
Definition batch_entry (e : log_entry) : Prop :=
  match decode_command (e_payload e) with
  | Ok (Batch _ base rs) =>
    0 <= base /\ base + len rs <= 2 ^ 64 /\ Forall record_ok (batch_records base rs)
  | _ => False
  end.

(** A record stored under its own offset and timestamp. *)
Definition explicit (r : record) : append_record :=
  mkAppend (r_key r) (r_value r) (Some (r_timestamp_ms r)) (Some (r_offset r)).

Section Replica.
Context `{Crc32}.

(** A partition in good order whose records are [L]. *)
Definition holds (p : partition) (L : list record) : Prop :=
  exists init s rs, part_wf p init s rs /\ log_of init rs = L.

Definition serves (p : partition) (L : list record) : Prop :=
  exists init s rs, part_wf p init s rs /\ s_base_offset s <= p_next_offset p /\ log_of init rs = L.

Lemma serves_holds p L : serves p L -> holds p L.
Proof. intros (init & s & rs & ? & _ & ?). by exists init, s, rs. Qed.

(** ** Appending records at given offsets *)

(** Records that come with sorted offsets: those at or above the next offset are
    new, the others are already there. *)
Lemma assign_sorted now next rs :
  offsets_sorted rs ->
  let news := filter (fun r => next <= r_offset r) rs in
  assign now next (explicit <$> rs) = (r_offset <$> rs, news, next_after next news).
Proof.
  intros Hs. cbv zeta. revert next. induction Hs as [|r rs Hs IH Hr]; intros next; [done|].
  cbn [fmap list_fmap assign]. unfold assign_one at 1. cbn [explicit ar_offset].
  rewrite filter_cons. case_if.
  - rewrite IH, decide_False by lia. done.
  - rewrite IH, decide_True by lia.
    rewrite (filter_all (fun x => next <= r_offset x) rs) by (eapply Forall_impl; [exact Hr|]; cbn; lia).
    rewrite (filter_all (fun x => r_offset r + 1 <= r_offset x) rs)
      by (eapply Forall_impl; [exact Hr|]; cbn; lia).
    destruct r as [o ts key value]. cbn. f_equal.
    symmetry. apply (next_after_app next [mkRecord o ts key value] rs).
Qed.

Lemma append_explicit p L rs dur now ft :
  serves p L -> offsets_sorted rs -> Forall record_ok rs ->
  let news := filter (fun r => p_next_offset p <= r_offset r) rs in
  match append_batch p (explicit <$> rs) dur now ft with
  | (Ok offs, p') =>
    offs = r_offset <$> rs /\ serves p' (L ++ news) /\ p_next_offset p' = next_after (p_next_offset p) news /\
    p_poisoned p' = false
  | (Err _, p') =>
    exists k, holds p' (L ++ take k news) /\ p_next_offset p' = next_after (p_next_offset p) (take k news)
  | (Panic, _) => False
  end.
Proof.
  intros (init & s & rs0 & Hw & Hb & <-) Hs Hok. cbv zeta.
  pose proof (append_batch_result p init s rs0 (explicit <$> rs) dur now ft Hw Hb) as Hr.
  rewrite (assign_sorted now _ rs Hs) in Hr. cbv beta iota in Hr. cbn [fst snd] in Hr.
  specialize (Hr ltac:(apply Forall_filter_l; exact Hok)).
  destruct (append_batch _ _ _ _ _) as [[offs|e|] p'].
  - destruct Hr as (-> & _ & Hp & Hn & init' & s' & rs' & Hw' & Hb' & Hl).
    split_and!; [done|by exists init', s', rs'|done|done].
  - destruct Hr as (k & init' & s' & rs' & Hw' & Hl & Hn & _). exists k. split; [|done].
    by exists init', s', rs'.
  - done.
Qed.

(** ** Applying entries *)

Lemma batch_records_offsets base rs : r_offset <$> batch_records base rs = (fun i => base + Z.of_nat i) <$> seq 0 (length rs).
Proof.
  apply list_eq. intros i. unfold batch_records. rewrite !list_lookup_fmap, list_lookup_imap.
  destruct (rs !! i) as [[[ts k] v]|] eqn:E; cbn.
  - apply lookup_lt_Some in E. rewrite lookup_seq_lt by done. done.
  - apply lookup_ge_None in E. rewrite lookup_seq_ge by done. done.
Qed.

Lemma batch_records_sorted base rs : offsets_sorted (batch_records base rs).
Proof.
  unfold batch_records. revert base. induction rs as [|[[ts k] v] rs IH]; intros base; [constructor|].
  rewrite imap_cons. cbn. constructor.
  - specialize (IH (base + 1)). erewrite imap_ext; [exact IH|]. intros i [[ts' k'] v'] _. cbn. f_equal. lia.
  - apply Forall_forall. intros x Hx. apply list_elem_of_lookup in Hx as [i Hi].
    rewrite list_lookup_imap in Hi. destruct (rs !! i) as [[[ts' k'] v']|]; [|done]. cbn in Hi.
    simplify_eq. cbn. lia.
Qed.

Lemma batch_append_explicit base rs :
  0 <= base -> base + len rs <= 2 ^ 64 -> batch_append base rs = explicit <$> batch_records base rs.
Proof.
  intros Hb Hl. apply list_eq. intros i. unfold batch_append, batch_records.
  rewrite list_lookup_fmap, !list_lookup_imap. destruct (rs !! i) as [[[ts k] v]|] eqn:E; [|done].
  apply lookup_lt_Some in E. cbn. unfold explicit. cbn. rewrite wrap_u_small; [done|].
  unfold is_u, len in *. lia.
Qed.

(** Applying a stretch of the committed channel, each entry with the clock and the
    system-call outcomes it meets; the loop stops at the first error. *)
Fixpoint apply_all (rp : raft_partition) (es : list (log_entry * Z * faults))
    : outcome apply_error unit * raft_partition :=
  match es with
  | [] => (Ok tt, rp)
  | (e, now, ft) :: es =>
    match apply rp e now ft with
    | (Ok _, rp) => apply_all rp es
    | out => out
    end
  end.

Definition committed_records (es : list (log_entry * Z * faults)) : list record :=
  concat ((fun x => entry_records x.1.1) <$> es).

(** What one applied entry does to the partition. *)
Lemma apply_spec rp e now ft L :
  serves (rp_partition rp) L -> batch_entry e ->
  let p := rp_partition rp in
  let news := filter (fun r => p_next_offset p <= r_offset r) (entry_records e) in
  match apply rp e now ft with
  | (Ok _, rp') =>
    serves (rp_partition rp') (L ++ news) /\ p_next_offset (rp_partition rp') = next_after (p_next_offset p) news
  | (Err _, rp') =>
    exists k, holds (rp_partition rp') (L ++ take k news) /\
      p_next_offset (rp_partition rp') = next_after (p_next_offset p) (take k news)
  | (Panic, _) => False
  end.
Proof.
  intros Hs He. cbv zeta. unfold batch_entry in He. unfold apply, entry_append, entry_records.
  destruct (decode_command (e_payload e)) as [[pid base rs|key value]|err|]; try done. cbn [mbind outcome_bind].
  destruct He as (Hb & Hl & Hok). rewrite (batch_append_explicit base rs Hb Hl).
  pose proof (append_explicit (rp_partition rp) L (batch_records base rs) Deferred now ft Hs
    (batch_records_sorted base rs) Hok) as Ha. cbv zeta in Ha.
  destruct (append_batch _ _ _ _ _) as [[offs|err|] p'].
  - destruct Ha as (_ & Hs' & Hn' & _).
    assert (rp_partition (answer_waiters (set_partition rp p') (Some pid) offs (e_index e)) = p') as E.
    { unfold answer_waiters. cbn. by destruct (rp_waiters rp !! pid). }
    cbv beta iota zeta. rewrite E. done.
  - cbn. destruct Ha as [k Ha]. by exists k.
  - done.
Qed.

(** The records at or above the end of a prefix are the rest. *)
Lemma filter_rest n k rs :
  offsets_sorted rs -> Forall (fun r => n <= r_offset r) rs ->
  filter (fun r => next_after n (take k rs) <= r_offset r) rs = drop k rs.
Proof.
  intros Hs Hn. rewrite <- (take_drop k rs) in Hs, Hn. apply offsets_sorted_app in Hs as (Hs1 & _ & Hlt).
  apply Forall_app in Hn as [_ Hn2].
  trans (filter (fun r => next_after n (take k rs) <= r_offset r) (take k rs ++ drop k rs)); [by rewrite take_drop|].
  rewrite filter_app, filter_none, filter_all; [done|..].
  - apply Forall_forall. intros x Hx. unfold next_after. destruct (last (take k rs)) as [r|] eqn:El.
    + apply last_Some_elem_of in El. specialize (Hlt r x El Hx). lia.
    + rewrite Forall_forall in Hn2. auto.
  - eapply Forall_impl; [exact (next_after_above n _ Hs1)|]. cbn. lia.
Qed.

Lemma filter_first n k a rest :
  offsets_sorted (a ++ rest) -> Forall (fun r => n <= r_offset r) (a ++ rest) ->
  filter (fun r => next_after n (take k (a ++ rest)) <= r_offset r) a = drop k a.
Proof.
  intros Hs Hn. pose proof Hs as Hs'. apply offsets_sorted_app in Hs' as (Hs1 & _ & _).
  pose proof Hn as Hn'. apply Forall_app in Hn' as [Hn1 _].
  destruct (decide (k <= length a)%nat) as [Hk|Hk].
  - rewrite take_app_le by done. by apply filter_rest.
  - rewrite (drop_ge a) by lia. apply filter_none.
    assert (offsets_sorted (take k (a ++ rest))) as Ht.
    { rewrite <- (take_drop k (a ++ rest)) in Hs. by apply offsets_sorted_app in Hs as (? & _). }
    pose proof (next_after_above n _ Ht) as Hab. rewrite take_app_ge in Hab |- * by lia.
    apply Forall_app in Hab as [Hab _]. eapply Forall_impl; [exact Hab|]. cbn. lia.
Qed.

Lemma next_after_split n k a rest :
  next_after n (take k (a ++ rest)) = next_after (next_after n (take k a)) (take (k - length a) rest).
Proof. by rewrite take_app, next_after_app. Qed.

Lemma next_after_le n rs : Forall (fun r => n <= r_offset r) rs -> n <= next_after n rs.
Proof.
  intros Hn. unfold next_after. destruct (last rs) as [r|] eqn:E; [|lia].
  apply last_Some_elem_of in E. rewrite Forall_forall in Hn. specialize (Hn r E). cbn in Hn. lia.
Qed.

(** One entry of a committed sequence, from a partition that holds the first [k]
    of its records: the entry's own missing records are added. *)
Lemma apply_one_replay rp e now ft L n k rest :
  batch_entry e -> offsets_sorted (entry_records e ++ rest) ->
  Forall (fun r => n <= r_offset r) (entry_records e ++ rest) ->
  serves (rp_partition rp) (L ++ take k (entry_records e ++ rest)) ->
  p_next_offset (rp_partition rp) = next_after n (take k (entry_records e ++ rest)) ->
  let a := entry_records e in
  match apply rp e now ft with
  | (Ok _, rp') =>
    serves (rp_partition rp') ((L ++ a) ++ take (k - length a) rest) /\
    p_next_offset (rp_partition rp') = next_after (next_after n a) (take (k - length a) rest)
  | (Err _, rp') =>
    exists k', (k <= k')%nat /\ holds (rp_partition rp') (L ++ take k' (a ++ rest)) /\
      p_next_offset (rp_partition rp') = next_after n (take k' (a ++ rest))
  | (Panic, _) => False
  end.
Proof.
  intros He Hs Hn Hsv Hnx. cbv zeta. pose proof (apply_spec rp e now ft _ Hsv He) as Ha. cbv zeta in Ha.
  rewrite Hnx in Ha. rewrite (filter_first n k _ rest Hs Hn) in Ha. set (a := entry_records e) in *.
  assert (take (k - length a) rest = [] \/ drop k a = []) as Hor.
  { destruct (decide (k <= length a)%nat); [left|right; apply drop_ge; lia].
    by replace (k - length a)%nat with 0%nat by lia. }
  assert (take k a ++ take (k - length a) rest ++ drop k a = a ++ take (k - length a) rest) as Ejoin.
  { destruct Hor as [->| E]; [rewrite app_nil_r; apply take_drop|].
    rewrite E, app_nil_r. f_equal. rewrite <- (take_drop k a) at 2. by rewrite E, app_nil_r. }
  destruct (apply rp e now ft) as [[[]|err|] rp'].
  - destruct Ha as [Hs' Hn']. rewrite take_app in Hs', Hn'. rewrite <- (app_assoc L), <- (app_assoc (take k a)) in Hs'.
    rewrite Ejoin in Hs'. rewrite <- (app_assoc L). split; [done|].
    rewrite Hn', <- !next_after_app, <- app_assoc, Ejoin. done.
  - destruct Ha as (j & Hh & Hn').
    assert (exists k', (k <= k')%nat /\ take k (a ++ rest) ++ take j (drop k a) = take k' (a ++ rest)) as (k' & Hk' & Ek').
    { destruct (decide (k <= length a)%nat) as [Hk|Hk].
      - exists (k + j `min` (length a - k))%nat. split; [lia|].
        rewrite !take_app_le, <- take_take_drop by lia. f_equal.
        destruct (decide (j <= length a - k)%nat).
        + by rewrite Nat.min_l by done.
        + rewrite Nat.min_r by lia. rewrite !take_ge; [done|rewrite length_drop; lia..].
      - rewrite (drop_ge a), take_nil, app_nil_r by lia. by exists k. }
    exists k'. split; [done|]. rewrite <- Ek', next_after_app, app_assoc. done.
  - done.
Qed.

Lemma apply_all_spec es rp L n k :
  let all := committed_records es in
  Forall (fun x => batch_entry x.1.1) es -> offsets_sorted all -> Forall (fun r => n <= r_offset r) all ->
  serves (rp_partition rp) (L ++ take k all) ->
  p_next_offset (rp_partition rp) = next_after n (take k all) ->
  match apply_all rp es with
  | (Ok _, rp') =>
    serves (rp_partition rp') (L ++ all) /\ p_next_offset (rp_partition rp') = next_after n all
  | (Err _, rp') =>
    exists k', (k `min` length all <= k')%nat /\ holds (rp_partition rp') (L ++ take k' all) /\
      p_next_offset (rp_partition rp') = next_after n (take k' all)
  | (Panic, _) => False
  end.
Proof.
  cbv zeta. revert rp L n k. induction es as [|[[e now] ft] es IH]; intros rp L n k He Hs Hn Hsv Hnx.
  { cbn in *. rewrite take_nil in *. done. }
  apply Forall_cons in He as [He Hes]. cbn [apply_all].
  change (committed_records ((e, now, ft) :: es)) with (entry_records e ++ committed_records es) in *.
  set (a := entry_records e) in *. set (rest := committed_records es) in *.
  pose proof (apply_one_replay rp e now ft L n k rest He Hs Hn Hsv Hnx) as Ha. cbv zeta in Ha. fold a in Ha.
  pose proof Hs as Hs'. apply offsets_sorted_app in Hs' as (Hsa & Hsr & Hlt).
  destruct (apply rp e now ft) as [[[]|err|] rp1]; [|..|done].
  - destruct Ha as [Hsv1 Hnx1].
    specialize (IH rp1 (L ++ a) (next_after n a) (k - length a)%nat Hes Hsr).
    specialize (IH ltac:(
      apply Forall_forall; intros x Hx; unfold next_after; destruct (last a) as [r|] eqn:El;
      [apply last_Some_elem_of in El; specialize (Hlt r x El Hx); cbn; lia
      |rewrite Forall_forall in Hn; apply Hn, elem_of_app; by right]) Hsv1 Hnx1).
    destruct (apply_all rp1 es) as [[[]|err|] rp2]; [|..|done].
    + rewrite next_after_app, app_assoc. done.
    + destruct IH as (k' & Hk' & Hh & Hn'). exists (length a + k')%nat.
      rewrite take_app_add, next_after_app, app_assoc, length_app. split; [lia|done].
  - destruct Ha as (k' & Hk' & Ha). exists k'. split; [lia|done].
Qed.

(** ** Waiters *)

(** The waiters an applied index has passed, and what they are told. *)
Definition lost_answers (index : Z) (ws : gmap Z (option Z)) : list (Z * answer) :=
  (fun w => (w.1, Replaced (default 0 w.2))) <$>
    filter (fun w => superseded index w = true) (map_to_list ws).

Lemma lost_answers_spec index ws pid a :
  (pid, a) ∈ lost_answers index ws <->
  exists i, ws !! pid = Some (Some i) /\ i <= index /\ a = Replaced i.
Proof.
  unfold lost_answers. rewrite list_elem_of_fmap. split.
  - intros ([pid' w] & [= -> ->] & Hw). apply list_elem_of_filter in Hw as [Hsup Hw].
    apply elem_of_map_to_list in Hw. destruct w as [i|]; [|done]. cbn in Hsup. boolp. eauto.
  - intros (i & Hw & Hi & ->). exists (pid, Some i). split; [done|]. apply list_elem_of_filter.
    split; [by apply Z.leb_le|]. by apply elem_of_map_to_list.
Qed.

Lemma lost_answers_nodup index ws : NoDup (lost_answers index ws).*1.
Proof.
  unfold lost_answers. rewrite <- list_fmap_compose. change (_ ∘ _) with (@fst Z (option Z)).
  apply NoDup_fmap_fst.
  - intros pid x y Hx Hy. apply list_elem_of_filter in Hx as [_ Hx], Hy as [_ Hy].
    apply elem_of_map_to_list in Hx, Hy. congruence.
  - apply NoDup_filter, NoDup_map_to_list.
Qed.

Lemma kept_waiters index (ws : gmap Z (option Z)) pid :
  filter (fun w => superseded index w = false) ws !! pid =
  (w ← ws !! pid; if superseded index (pid, w) then None else Some w).
Proof.
  rewrite map_lookup_filter. destruct (ws !! pid) as [w|]; cbn; [|done].
  destruct (superseded index (pid, w)); cbn; by case_guard.
Qed.

(** An entry without a waiter here only passes indices; one with a waiter answers
    it first. *)
Lemma answer_waiters_other rp proposal offs index :
  (forall pid, proposal = Some pid -> rp_waiters rp !! pid = None) ->
  answer_waiters rp proposal offs index =
  send_answers (set_waiters rp (filter (fun w => superseded index w = false) (rp_waiters rp)))
    (lost_answers index (rp_waiters rp)).
Proof. intros Hn. unfold answer_waiters. destruct proposal as [pid|]; [|done]. by rewrite Hn. Qed.

Lemma answer_waiters_own rp pid w offs index :
  rp_waiters rp !! pid = Some w ->
  answer_waiters rp (Some pid) offs index =
  send_answers (set_waiters rp (filter (fun w => superseded index w = false) (delete pid (rp_waiters rp))))
    ((pid, Applied offs) :: lost_answers index (delete pid (rp_waiters rp))).
Proof.
  intros Hw. unfold answer_waiters. rewrite Hw. unfold send_answers, set_waiters. cbn.
  by rewrite <- app_assoc.
Qed.

(** When an entry is applied, the waiter of its own proposal and no other is given
    its offsets, every other waiter whose index has been passed is told so, and
    the rest keep waiting. *)
Lemma answer_waiters_spec rp proposal offs index :
  let rp' := answer_waiters rp proposal offs index in
  exists sent, rp_answers rp' = rp_answers rp ++ sent /\ NoDup sent.*1 /\
  (forall pid a, (pid, a) ∈ sent <->
     (proposal = Some pid /\ is_Some (rp_waiters rp !! pid) /\ a = Applied offs) \/
     (proposal <> Some pid /\ exists i, rp_waiters rp !! pid = Some (Some i) /\ i <= index /\ a = Replaced i)) /\
  (forall pid, rp_waiters rp' !! pid =
     (w ← rp_waiters rp !! pid;
      if bool_decide (proposal = Some pid) || superseded index (pid, w) then None else Some w)).
Proof.
  cbv zeta.
  assert ((forall pid, proposal = Some pid -> rp_waiters rp !! pid = None) \/
    exists pid w, proposal = Some pid /\ rp_waiters rp !! pid = Some w) as [Hn|(q & w & -> & Hw)].
  { destruct proposal as [pid|]; [|by left]. destruct (rp_waiters rp !! pid) eqn:E; [right; eauto|].
    left. by intros ? [= <-]. }
  - rewrite answer_waiters_other by done. eexists. split_and!; [reflexivity|apply lost_answers_nodup|..].
    + intros pid a. rewrite lost_answers_spec. split.
      * intros (i & Hi & ?). right. split; [|by exists i]. intros E. rewrite Hn in Hi; done.
      * intros [(E & [? Hs] & _)|[_ ?]]; [|done]. rewrite Hn in Hs; done.
    + intros pid. cbn. rewrite kept_waiters. destruct (rp_waiters rp !! pid) eqn:E; [|done]. cbn.
      rewrite bool_decide_false; [done|]. intros E'. rewrite Hn in E; done.
  - rewrite (answer_waiters_own rp q w) by done. eexists. split_and!; [reflexivity|..].
    + cbn. constructor; [|apply lost_answers_nodup]. intros Hin.
      apply list_elem_of_fmap in Hin as ([q' a] & E & Hin). cbn in E. subst q'.
      apply lost_answers_spec in Hin as (i & Hi & _). by rewrite lookup_delete_eq in Hi.
    + intros pid a. rewrite elem_of_cons, lost_answers_spec. setoid_rewrite lookup_delete_Some. split.
      * intros [[= -> ->]|(i & [Hne Hi] & ?)]; [left; eauto|]. right. split; [congruence|eauto].
      * intros [([= ->] & _ & ->)|(Hne & i & Hi & ?)]; [by left|right].
        exists i. split; [|done]. split; [congruence|done].
    + intros pid. cbn. rewrite kept_waiters. destruct (decide (q = pid)) as [->|Hne].
      * rewrite lookup_delete_eq, Hw. cbn. by rewrite bool_decide_true.
      * rewrite lookup_delete_ne, bool_decide_false by congruence. done.
Qed.
End Replica.

(** ** Properties *)

Section ReplicaClaims.
Context `{Crc32}.

(** C6: replicas converge.  Take a committed sequence of batch entries and a
    replica that already stores the first [k] of their records, whatever [k] is (a
    restart replays entries that were applied before, a crash can cut a batch in
    the middle), with any segment size, flush policy and clock.  Applying the
    sequence leaves exactly all of its records, at the offsets and with the
    timestamps of the entries, so two replicas end with the same log; when a write
    fails the loop stops with a prefix of that log, no shorter than before. *)
Theorem replicas_converge es rp L n k :
  let all := committed_records es in
  Forall (fun x => batch_entry x.1.1) es -> offsets_sorted all -> Forall (fun r => n <= r_offset r) all ->
  serves (rp_partition rp) (L ++ take k all) ->
  p_next_offset (rp_partition rp) = next_after n (take k all) ->
  match apply_all rp es with
  | (Ok _, rp') =>
    serves (rp_partition rp') (L ++ all) /\ p_next_offset (rp_partition rp') = next_after n all
  | (Err _, rp') =>
    exists k', (k `min` length all <= k')%nat /\ holds (rp_partition rp') (L ++ take k' all) /\
      p_next_offset (rp_partition rp') = next_after n (take k' all)
  | (Panic, _) => False
  end.
Proof. apply apply_all_spec. Qed.
End ReplicaClaims.

(** ** Examples *)

Section ReplicaWitness.
#[local] Existing Instance crc32_ieee_class.

Definition value_batch (pid base : Z) (vs : list (list byte)) : list byte :=
  encode_batch pid base 9 (append_record_new None <$> vs).

Definition sample_entries : list (log_entry * Z * faults) :=
  [(mkEntry 1 2 (value_batch 70 0 [[x61]; [x62]]), 100, no_faults);
   (mkEntry 1 3 (value_batch 71 2 [[x63]]), 101, no_faults)].

(** A replica that stores the first record of the first entry only. *)
Definition behind_partition : partition :=
  (append_batch (fresh_partition 60) [mkAppend None [x61] (Some 9) (Some 0)] Policy 0 no_faults).2.

Definition behind_replica : raft_partition :=
  mkRP behind_partition (raft_new 1 [] true) [] ∅ ∅ 0 0 true 0 [].

Lemma behind_partition_serves :
  serves behind_partition [mkRecord 0 9 None [x61]] /\ p_next_offset behind_partition = 1.
Proof.
  split; [|vm_compute; reflexivity].
  pose proof (append_explicit (fresh_partition 60) [] [mkRecord 0 9 None [x61]] Policy 0 no_faults) as Ha.
  cbv zeta in Ha. specialize (Ha ltac:(exists [], (segment_open_empty 0), []; split_and!;
    [apply fresh_partition_wf|apply Z.le_refl|reflexivity])).
  specialize (Ha ltac:(repeat constructor) ltac:(repeat constructor; vm_compute; congruence)).
  unfold behind_partition.
  assert ((append_batch (fresh_partition 60) (explicit <$> [mkRecord 0 9 None [x61]]) Policy 0 no_faults).1 = Ok [0])
    as E by (vm_compute; reflexivity).
  change [mkAppend None [x61] (Some 9) (Some 0)] with (explicit <$> [mkRecord 0 9 None [x61]]).
  destruct (append_batch _ _ _ _ _) as [[offs|e|] p]; [|discriminate E|discriminate E].
  by destruct Ha as (_ & Ha & _).
Qed.

Lemma replicas_converge_witness :
  (apply_all behind_replica sample_entries).1 = Ok tt /\
  match apply_all behind_replica sample_entries with
  | (Ok _, rp') =>
    serves (rp_partition rp')
      [mkRecord 0 9 None [x61]; mkRecord 1 9 None [x62]; mkRecord 2 9 None [x63]] /\
    p_next_offset (rp_partition rp') = 3
  | _ => True
  end.
Proof.
  split; [vm_compute; reflexivity|].
  pose proof (replicas_converge sample_entries behind_replica [] 0 1) as Hc. cbv zeta in Hc.
  replace (committed_records sample_entries)
    with [mkRecord 0 9 None [x61]; mkRecord 1 9 None [x62]; mkRecord 2 9 None [x63]] in Hc
    by (vm_compute; reflexivity).
  destruct behind_partition_serves as [Hs Hn].
  assert (match apply_all behind_replica sample_entries with (Ok _, _) => true | _ => false end = true) as E
    by (vm_compute; reflexivity).
  destruct (apply_all behind_replica sample_entries) as [[[]|e|] rp']; [|discriminate E|discriminate E].
  apply Hc.
  - repeat constructor; vm_compute; repeat constructor; congruence.
  - repeat constructor.
  - repeat constructor; vm_compute; congruence.
  - exact Hs.
  - exact Hn.
Defined.
End ReplicaWitness.
