(* ===== verification/RaftProposals.v ===== *)
(** * Proposals of a replicated partition

    Which offsets a leader gives to a batch, the interleaving of [append_batch]
    calls with the node and the apply loop as a step relation, and what an answer
    to a proposer means. *)

From S2P Require Export RaftPartitionSpec.

#[local] Open Scope Z_scope.

(** ** Offsets in the log *)

(** The offsets an entry of the log will occupy, first and one past the last. *)
Definition entry_span (e : log_entry) : option (Z * Z) :=
  if (len (e_payload e) =? 0) || is_config_entry (e_payload e) then None
  else Some (match batch_span (e_payload e) with
             | Some (base, count) => (base, base + count)
             | None => (e_index e - 1, e_index e)
             end).

Definition log_spans (es : list log_entry) : list (Z * Z) := omap entry_span es.

(** Entries later in the log stand for later offsets. *)
Definition spans_sorted (es : list log_entry) : Prop :=
  StronglySorted (fun a b => a.2 <= b.1) (log_spans es) /\
  Forall (fun a => 0 <= a.1 <= a.2 /\ a.2 < 2 ^ 64) (log_spans es).

Lemma entry_end_span e sp :
  entry_span e = Some sp -> 0 <= sp.1 <= sp.2 -> sp.2 < 2 ^ 64 -> entry_end e = Some sp.2.
Proof.
  unfold entry_span, entry_end. case_if; [done|]. destruct (batch_span _) as [[base count]|];
    intros [= <-] Hle Hlt; cbn in *; [|done].
  rewrite wrap_u_small; [done|]. unfold is_u. lia.
Qed.

Lemma entry_end_none e : entry_span e = None -> entry_end e = None.
Proof. unfold entry_span, entry_end. by case_if. Qed.

(** Walking the log from its end finds the end of the last span. *)
Lemma first_end_spec es :
  spans_sorted es -> first_end (reverse es) = snd <$> last (log_spans es).
Proof.
  unfold spans_sorted, log_spans. induction es as [|e es IH] using rev_ind; [done|].
  rewrite reverse_snoc, omap_app. intros [Hs Hb]. apply Forall_app in Hb as [Hb1 Hb2].
  apply StronglySorted_app in Hs as (_ & Hs & _). cbn [first_end]. cbn [omap list_omap] in Hb2 |- *.
  destruct (entry_span e) as [sp|] eqn:E.
  - rewrite last_snoc. apply Forall_cons in Hb2 as [[? ?] _]. by rewrite (entry_end_span e sp).
  - rewrite entry_end_none, app_nil_r by done. by apply IH.
Qed.

Lemma spans_below es n :
  spans_sorted es -> default 0 (snd <$> last (log_spans es)) <= n ->
  Forall (fun a => a.2 <= n) (log_spans es).
Proof.
  intros [Hs Hb] Hn. destruct (log_spans es) as [|sp l _] using rev_ind; [done|].
  rewrite last_snoc in Hn. cbn in Hn. apply StronglySorted_snoc in Hs as [_ Hl].
  apply Forall_app in Hb as [_ Hb]. apply Forall_cons in Hb as [Hb _].
  apply Forall_app. split; [|by constructor]. eapply Forall_impl; [exact Hl|]. cbn. lia.
Qed.

Lemma encode_batch_data pid base now recs :
  (len (encode_batch pid base now recs) =? 0) = false /\
  is_config_entry (encode_batch pid base now recs) = false.
Proof.
  unfold encode_batch. change (to_be 1 ENTRY_V1) with [x01]. split; [bool_lia|].
  unfold is_config_entry. rewrite bool_decide_false, andb_false_r; [done|]. cbn. done.
Qed.

(** ** The steps of a replicated partition *)

(** What a step records: an entry handed to the state machine, a proposal made. *)
Inductive rp_label : Type :=
| LApplied (e : log_entry)
| LProposed (pid base now : Z) (records : list append_record).

Section Steps.
Context `{Crc32}.
Variable snapshot_after : Z.

(** The call that holds [propose_lock]. *)
Definition is_based (c : caller) : bool := match c with Based _ _ => true | _ => false end.

(** The entry the apply loop takes next. *)
Definition next_applied (rp : raft_partition) : list rp_label :=
  match rp_applying rp, rp_committed rp with true, e :: _ => [LApplied e] | _, _ => [] end.

Inductive rp_step : raft_partition -> list rp_label -> raft_partition -> Prop :=
| StepRegister rp recs :
    recs <> [] -> rp_proposal_counter rp + 1 < 2 ^ 64 ->
    rp_step rp [] (register rp recs).2
| StepBase rp pid recs :
    rp_callers rp !! pid = Some (Registered recs) ->
    (forall q c, rp_callers rp !! q = Some c -> is_based c = false) ->
    rp_step rp [] (set_caller rp pid (Based recs (next_assignable_offset (rp_raft rp) (rp_partition rp))))
| StepPropose rp pid recs base now out rp1 :
    rp_callers rp !! pid = Some (Based recs base) ->
    propose_entry rp (encode_batch pid base now recs) = (out, rp1) ->
    rp_step rp [LProposed pid base now recs] (on_reply rp1 pid out)
| StepNote rp pid index :
    rp_callers rp !! pid = Some (Accepted_at index) -> rp_step rp [] (note_index rp pid index)
| StepTimeout rp pid index :
    rp_callers rp !! pid = Some (Waiting index) -> rp_step rp [] (on_timeout rp pid)
| StepNode rp ev :
    rp_step rp [] (set_raft rp (node_event (rp_raft rp) ev).1
                     (rp_committed rp ++ applies (node_event (rp_raft rp) ev).2))
| StepApply rp now ft sync_ok :
    rp_step rp (next_applied rp) (run_one snapshot_after rp now ft sync_ok)
| StepShutdown rp : rp_step rp [] (shutdown rp).

Inductive rp_run (rp0 : raft_partition) : list rp_label -> raft_partition -> Prop :=
| RunStart : rp_run rp0 [] rp0
| RunStep tr rp l rp' : rp_run rp0 tr rp -> rp_step rp l rp' -> rp_run rp0 (tr ++ l) rp'.

(** A partition just opened: nobody waits. *)
Definition opened (rp : raft_partition) : Prop :=
  rp_waiters rp = ∅ /\ rp_callers rp = ∅ /\ rp_answers rp = [] /\
  rp_proposal_counter rp = 0 /\ is_u 64 (rp_proposal_nonce rp).

(** ** Answers *)

(** The offsets [offs] are those of an applied entry of proposal [pid]. *)
Definition justified (tr : list rp_label) (pid : Z) (offs : list Z) : Prop :=
  exists e base rs, LApplied e ∈ tr /\ decode_command (e_payload e) = Ok (Batch pid base rs) /\
    explicit_offsets (batch_append base rs) = Some offs.

Definition known (rp : raft_partition) (pid : Z) : Prop :=
  exists c, 0 <= c < rp_proposal_counter rp /\ pid = wrap_u 64 (rp_proposal_nonce rp + c).

(** Nobody is answered twice, who waits has not been answered, and offsets are
    only ever given for an applied entry of the same proposal. *)
Record answers_inv (tr : list rp_label) (rp : raft_partition) : Prop := {
  ai_range : is_u 64 (rp_proposal_nonce rp) /\ 0 <= rp_proposal_counter rp < 2 ^ 64;
  ai_nodup : NoDup (rp_answers rp).*1;
  ai_answered : forall pid, pid ∈ (rp_answers rp).*1 -> known rp pid;
  ai_waiting : forall pid, is_Some (rp_waiters rp !! pid) -> known rp pid /\ pid ∉ (rp_answers rp).*1;
  ai_applied : forall pid offs, (pid, Applied offs) ∈ rp_answers rp -> justified tr pid offs
}.

(** A step that answers waiters and registers none. *)
Record answering (tr : list rp_label) (rp rp' : raft_partition) : Prop := {
  an_ids : rp_proposal_nonce rp' = rp_proposal_nonce rp /\ rp_proposal_counter rp' = rp_proposal_counter rp;
  an_kept : forall pid, is_Some (rp_waiters rp' !! pid) -> is_Some (rp_waiters rp !! pid);
  an_sent : exists sent, rp_answers rp' = rp_answers rp ++ sent /\ NoDup sent.*1 /\
    forall pid a, (pid, a) ∈ sent -> is_Some (rp_waiters rp !! pid) /\ rp_waiters rp' !! pid = None /\
      forall offs, a = Applied offs -> justified tr pid offs
}.

Lemma answering_quiet tr rp rp' :
  rp_proposal_nonce rp' = rp_proposal_nonce rp -> rp_proposal_counter rp' = rp_proposal_counter rp ->
  rp_answers rp' = rp_answers rp ->
  (forall pid, is_Some (rp_waiters rp' !! pid) -> is_Some (rp_waiters rp !! pid)) -> answering tr rp rp'.
Proof.
  intros. constructor; [done|done|]. exists []. rewrite app_nil_r. split_and!; [done|constructor|]. set_solver.
Qed.

Lemma justified_mono tr tr' pid offs : tr ⊆ tr' -> justified tr pid offs -> justified tr' pid offs.
Proof. intros Hs (e & base & rs & He & ?). exists e, base, rs. split; [by apply Hs|done]. Qed.

Lemma answers_inv_step tr l rp rp' :
  answers_inv tr rp -> answering (tr ++ l) rp rp' -> answers_inv (tr ++ l) rp'.
Proof.
  intros [Hr Hn Ha Hw Hj] [[E1 E2] Hk (sent & Es & Hns & Hs)].
  assert (forall pid, known rp' pid <-> known rp pid) as Hkn by (intros; unfold known; by rewrite E1, E2).
  assert (forall pid, pid ∈ sent.*1 -> exists a, (pid, a) ∈ sent) as Hin.
  { intros pid Hp. apply list_elem_of_fmap in Hp as ([q a] & -> & Hp). by exists a. }
  constructor.
  - by rewrite E1, E2.
  - rewrite Es, fmap_app. apply NoDup_app. split_and!; [done| |done]. intros pid H1 H2.
    destruct (Hin pid H2) as [a Hx]. destruct (Hs pid a Hx) as (Hx1 & _). by destruct (Hw pid Hx1).
  - intros pid. rewrite Hkn, Es, fmap_app, elem_of_app. intros [H1|H1]; [auto|].
    destruct (Hin pid H1) as [a Hx]. apply Hw. by destruct (Hs pid a Hx).
  - intros pid H1. rewrite Hkn. destruct (Hw pid (Hk pid H1)) as [H2 H3]. split; [done|].
    rewrite Es, fmap_app, elem_of_app. intros [?|H4]; [done|]. destruct (Hin pid H4) as [a Hx].
    destruct (Hs pid a Hx) as (_ & E & _). rewrite E in H1. by destruct H1.
  - intros pid offs. rewrite Es, elem_of_app. intros [H1|H1].
    + eapply justified_mono; [|by apply Hj]. intros x Hx. apply elem_of_app. by left.
    + destruct (Hs pid _ H1) as (_ & _ & Hx). by apply Hx.
Qed.

(** A proposal id is new until the counter wraps. *)
Lemma register_fresh rp : is_u 64 (rp_proposal_nonce rp) -> rp_proposal_counter rp < 2 ^ 64 ->
  ~ known rp (wrap_u 64 (rp_proposal_nonce rp + rp_proposal_counter rp)).
Proof.
  unfold known, wrap_u, is_u. intros Hn Hc (c & Hc' & E). set (n := rp_proposal_nonce rp) in *.
  set (k := rp_proposal_counter rp) in *.
  assert ((k - c) mod 2 ^ 64 = 0) as Hz.
  { replace (k - c) with ((n + k) - (n + c)) by lia. rewrite Zminus_mod, E, Z.sub_diag. done. }
  rewrite Z.mod_small in Hz by lia. lia.
Qed.

Lemma answers_inv_register tr rp recs :
  rp_proposal_counter rp + 1 < 2 ^ 64 -> answers_inv tr rp -> answers_inv tr (register rp recs).2.
Proof.
  intros Hc [[Hn Hr] Hnd Ha Hw Hj]. pose proof (register_fresh rp Hn ltac:(lia)) as Hf.
  unfold register. set (pid := wrap_u 64 _) in *. cbn [snd].
  rewrite (wrap_u_small 64 (_ + 1)) by (unfold is_u; lia).
  assert (forall q, known rp q -> exists c, 0 <= c < rp_proposal_counter rp + 1 /\
    q = wrap_u 64 (rp_proposal_nonce rp + c)) as Hk.
  { intros q (c & ? & ->). exists c. split; [lia|done]. }
  constructor; cbn; [split; [done|lia]|done|by intros; apply Hk, Ha| |done].
  intros q. unfold known. cbn. destruct (decide (pid = q)) as [<-|Hne].
  - intros _. split; [exists (rp_proposal_counter rp); split; [lia|done]|]. intros Hin. by apply Hf, Ha.
  - rewrite lookup_insert_ne by done. intros Hs. destruct (Hw q Hs). split; [by apply Hk|done].
Qed.

(** ** The apply loop answers *)

(** A successful append reports the explicit offsets, in any state. *)
Lemma append_loop_offsets recs os now ft p b next offsets fresh offs wrote p' :
  explicit_offsets recs = Some os ->
  append_loop recs now ft p b next offsets fresh = (Ok (offs, wrote), p') -> offs = offsets ++ os.
Proof.
  unfold explicit_offsets. revert os ft p b next offsets fresh.
  induction recs as [|r recs IH]; intros os ft p b next offsets fresh.
  { intros [= <-]. cbn. destruct (commit_batch p b _) as [[]?]; intros; simplify_eq. by rewrite app_nil_r. }
  intros He. cbn in He. destruct (ar_offset r) as [o|] eqn:Eo; [cbn in He|done].
  destruct (mapM ar_offset recs) as [os'|] eqn:Em; [cbn in He; injection He as <-|done].
  rewrite append_loop_cons. unfold assign_one. rewrite Eo. cbv zeta.
  assert (forall offs0 offs, offs0 = (offsets ++ [o]) ++ os' -> offs = offs0 -> offs = offsets ++ o :: os') as Hj.
  { intros ? ? -> ->. by rewrite <- app_assoc. }
  case_if; [intros E; eapply Hj; [reflexivity|]; by eapply IH in E|].
  case_if; [|intros E; eapply Hj; [reflexivity|]; by eapply IH in E].
  destruct (commit_batch p b _) as [[b1|e|] p1]; [|done|done].
  destruct (roll p1 o _) as [[[]|e|] p2]; [|done|done]. intros E. eapply Hj; [reflexivity|]. by eapply IH in E.
Qed.

Lemma append_batch_offsets p recs os dur now ft offs p' :
  explicit_offsets recs = Some os -> append_batch p recs dur now ft = (Ok offs, p') -> offs = os.
Proof.
  intros He. unfold append_batch, append_locked. case_if; [done|].
  destruct (append_loop _ _ _ _ _ _ _ _) as [[[offs1 wrote]|e|] p1] eqn:E; [|done|done].
  apply (append_loop_offsets _ os) in E as ->; [|done]. cbn [app].
  destruct dur, wrote; try (by intros [= <- _]). case_if; [|by intros [= <- _]].
  destruct (sync_upto _ _ _ _) as [[]?]; intros; by simplify_eq.
Qed.

Lemma batch_append_offsets base rs : is_Some (explicit_offsets (batch_append base rs)).
Proof.
  unfold explicit_offsets. apply mapM_is_Some, Forall_forall. intros r Hr.
  unfold batch_append in Hr. apply list_elem_of_lookup in Hr as [i Hi]. rewrite list_lookup_imap in Hi.
  destruct (rs !! i); [|done]. cbn in Hi. simplify_eq. by eexists.
Qed.

Lemma apply_answering tr e now ft rp rp' :
  apply rp e now ft = (Ok tt, rp') -> answering (tr ++ [LApplied e]) rp rp'.
Proof.
  unfold apply, entry_append. intros Ha.
  destruct (decode_command (e_payload e)) as [cmd|err|] eqn:Ed; cbn [mbind outcome_bind] in Ha; [|done|done].
  set (er := match cmd with Batch pid base rs => (Some pid, batch_append base rs) | Legacy key value =>
    (None, [mkAppend key value None (Some (sat_sub_u64 (e_index e) 1))]) end).
  assert (match append_batch (rp_partition rp) er.2 Deferred now ft with
    | (Ok offsets, p) => (Ok tt, answer_waiters (set_partition rp p) er.1 offsets (e_index e))
    | (Err e, p) => (Err (ApplyAppend e), set_partition rp p)
    | (Panic, p) => (Panic, set_partition rp p) end = (Ok tt, rp')) as Ha'.
  { subst er. by destruct cmd. }
  clear Ha. destruct (append_batch _ _ _ _ _) as [[offs|err|] p'] eqn:Eb; [|done|done].
  injection Ha' as <-. pose proof (answer_waiters_spec (set_partition rp p') er.1 offs (e_index e)) as Hs.
  cbv zeta in Hs. set (rp' := answer_waiters _ _ _ _) in *.
  destruct Hs as (sent & Es & Hn & Hsent & Hk). cbn [rp_answers rp_waiters set_partition] in *.
  constructor.
  - subst rp'. unfold answer_waiters. cbn. destruct er.1 as [q|]; [|done].
    by destruct (rp_waiters rp !! q).
  - intros pid [w Hw]. rewrite Hk in Hw. destruct (rp_waiters rp !! pid); [by eexists|done].
  - exists sent. split_and!; [done|done|]. intros pid a Hin. apply Hsent in Hin as [(Ep & Hw & ->)|(Hne & i & Hw & Hi & ->)].
    + split; [done|]. rewrite Hk. destruct (rp_waiters rp !! pid); [|done]. cbn. rewrite bool_decide_true by done.
      split; [done|]. intros ? [= <-]. subst er. destruct cmd as [pid' base rs|]; cbn in Ep; [|done].
      injection Ep as ->. exists e, base, rs. split_and!; [set_solver|done|].
      destruct (batch_append_offsets base rs) as [os Hos]. rewrite Hos. f_equal. symmetry.
      by eapply append_batch_offsets.
    + rewrite Hw. split; [by eexists|]. rewrite Hk, Hw. cbn.
      rewrite (proj2 (Z.leb_le _ _)), orb_true_r by done. done.
Qed.

Lemma drain_answering tr rp a : (forall offs, a <> Applied offs) -> answering tr rp (drain_waiters rp a).
Proof.
  intros Ha. constructor; [done|cbn; intros pid; rewrite lookup_empty; by intros []|].
  eexists. split_and!; [reflexivity|..].
  - rewrite <- list_fmap_compose. change (_ ∘ _) with (@fst Z (option Z)). apply NoDup_fst_map_to_list.
  - intros pid b Hin. apply list_elem_of_fmap in Hin as ([q w] & [= -> ->] & Hin).
    apply elem_of_map_to_list in Hin. cbn. split_and!; [by eexists|by rewrite lookup_empty|].
    intros offs E. by destruct (Ha offs).
Qed.

(** The parts of the state that decide who is answered. *)
Lemma answering_ext tr rp rp1 rp' :
  rp_proposal_nonce rp1 = rp_proposal_nonce rp -> rp_proposal_counter rp1 = rp_proposal_counter rp ->
  rp_waiters rp1 = rp_waiters rp -> rp_answers rp1 = rp_answers rp ->
  answering tr rp1 rp' -> answering tr rp rp'.
Proof. intros E1 E2 E3 E4 [H1 H2 H3]. rewrite E1, E2, E3, E4 in *. by constructor. Qed.

Lemma snapshot_frame rp through ok :
  let rp' := snapshot rp through ok in
  rp_proposal_nonce rp' = rp_proposal_nonce rp /\ rp_proposal_counter rp' = rp_proposal_counter rp /\
  rp_waiters rp' = rp_waiters rp /\ rp_answers rp' = rp_answers rp /\ rp_callers rp' = rp_callers rp.
Proof. cbv zeta. unfold snapshot. destruct (sync_all _ _) as [[] p]; [|done..]. by destruct (node_event _ _). Qed.

Lemma run_one_answering tr rp now ft ok :
  answering (tr ++ next_applied rp) rp (run_one snapshot_after rp now ft ok).
Proof.
  unfold run_one, next_applied. destruct (rp_applying rp); [|by apply answering_quiet].
  destruct (rp_committed rp) as [|e rest]; [by apply answering_quiet|].
  set (rp0 := set_raft rp (rp_raft rp) rest).
  destruct (apply rp0 e now ft) as [[[]|err|] rp1] eqn:Ea.
  - apply (apply_answering tr) in Ea.
    assert (forall rp2, rp_proposal_nonce rp2 = rp_proposal_nonce rp1 ->
      rp_proposal_counter rp2 = rp_proposal_counter rp1 -> rp_waiters rp2 = rp_waiters rp1 ->
      rp_answers rp2 = rp_answers rp1 -> answering (tr ++ [LApplied e]) rp rp2) as Hx.
    { intros rp2 E1 E2 E3 E4. destruct Ea as [[H1 H2] H3 H4].
      constructor; rewrite ?E1, ?E2, ?E3, ?E4; [done|done|]. done. }
    cbv zeta. case_if; [|by apply Hx]. destruct (snapshot_frame (set_applies rp1 0) (e_index e) ok) as (? & ? & ? & ? & _).
    by apply Hx.
  - apply (answering_ext _ _ (set_applying rp1 false)); [..|by apply drain_answering];
      unfold apply in Ea; destruct (entry_append e) as [[pr rs]|e0|]; try (by simplify_eq);
      by destruct (append_batch _ _ _ _ _) as [[] p]; simplify_eq.
  - apply (answering_ext _ _ (set_applying rp1 false)); [..|by apply drain_answering];
      unfold apply in Ea; destruct (entry_append e) as [[pr rs]|e0|]; try (by simplify_eq);
      by destruct (append_batch _ _ _ _ _) as [[] p]; simplify_eq.
Qed.

(** ** Proposals *)

(** The call has handed its entry to the node. *)
Definition handed (c : caller) : bool := match c with Registered _ | Based _ _ => false | _ => true end.

(** Every call proposes at most once. *)
Record proposals_inv (tr : list rp_label) (rp : raft_partition) : Prop := {
  pi_known : forall pid, is_Some (rp_callers rp !! pid) -> known rp pid;
  pi_handed : forall pid base now recs, LProposed pid base now recs ∈ tr ->
    exists c, rp_callers rp !! pid = Some c /\ handed c = true;
  pi_once : forall pid b1 n1 r1 b2 n2 r2, LProposed pid b1 n1 r1 ∈ tr -> LProposed pid b2 n2 r2 ∈ tr ->
    b1 = b2 /\ n1 = n2 /\ r1 = r2
}.

(** A step that proposes nothing and keeps what was handed over. *)
Lemma proposals_inv_keep tr l rp rp' :
  proposals_inv tr rp -> (forall pid base now recs, LProposed pid base now recs ∉ l) ->
  rp_proposal_nonce rp' = rp_proposal_nonce rp -> rp_proposal_counter rp <= rp_proposal_counter rp' ->
  (forall pid, is_Some (rp_callers rp' !! pid) -> is_Some (rp_callers rp !! pid) \/ known rp' pid) ->
  (forall pid c, rp_callers rp !! pid = Some c -> handed c = true ->
     exists c', rp_callers rp' !! pid = Some c' /\ handed c' = true) ->
  proposals_inv (tr ++ l) rp'.
Proof.
  intros [Hk Hh Ho] Hl E1 E2 Hkn Hc.
  assert (forall pid base now recs, LProposed pid base now recs ∈ tr ++ l -> LProposed pid base now recs ∈ tr) as Hin.
  { intros pid base now recs Hx. apply elem_of_app in Hx as [?|Hx]; [done|]. by destruct (Hl pid base now recs). }
  constructor.
  - intros pid Hs. destruct (Hkn pid Hs) as [H1|H1]; [|done]. destruct (Hk pid H1) as (c & ? & ->).
    exists c. rewrite E1. split; [lia|done].
  - intros pid base now recs Hx. apply Hin in Hx. destruct (Hh _ _ _ _ Hx) as (c & ? & ?). by eapply Hc.
  - intros pid b1 n1 r1 b2 n2 r2 H1 H2. apply Hin in H1, H2. by eapply Ho.
Qed.

(** ... and one that only changes where one call is. *)
Lemma proposals_inv_caller tr rp rp' pid c c' :
  proposals_inv tr rp -> rp_callers rp !! pid = Some c -> rp_callers rp' = <[pid := c']> (rp_callers rp) ->
  (handed c = true -> handed c' = true) ->
  rp_proposal_nonce rp' = rp_proposal_nonce rp -> rp_proposal_counter rp' = rp_proposal_counter rp ->
  proposals_inv (tr ++ []) rp'.
Proof.
  intros Hi Hp Hc Hh E1 E2. apply (proposals_inv_keep tr [] rp); [done|set_solver|done|lia|..]; rewrite Hc.
  - intros q Hq. left. destruct (decide (pid = q)) as [<-|]; [by eexists|]. by rewrite lookup_insert_ne in Hq.
  - intros q cq Hq Hhq. destruct (decide (pid = q)) as [<-|]; [|rewrite lookup_insert_ne by done; eauto].
    rewrite lookup_insert_eq. exists c'. split; [done|]. apply Hh. congruence.
Qed.

Lemma run_one_frame rp now ft ok :
  let rp' := run_one snapshot_after rp now ft ok in
  rp_callers rp' = rp_callers rp /\ rp_proposal_nonce rp' = rp_proposal_nonce rp /\
  rp_proposal_counter rp' = rp_proposal_counter rp.
Proof.
  cbv zeta. pose proof (an_ids _ _ _ (run_one_answering [] rp now ft ok)) as [E1 E2]. split_and!; [|done|done].
  clear E1 E2. unfold run_one. destruct (rp_applying rp); [|done]. destruct (rp_committed rp) as [|e rest]; [done|].
  assert (forall out rp1, apply (set_raft rp (rp_raft rp) rest) e now ft = (out, rp1) ->
    rp_callers rp1 = rp_callers rp) as Ha.
  { intros out rp1. unfold apply. destruct (entry_append e) as [[pr rs]|e0|]; [|by intros [= _ <-]..].
    destruct (append_batch _ _ _ _ _) as [[offs|e0|] p]; intros [= _ <-]; [|done|done].
    unfold answer_waiters. cbn. destruct pr as [q|]; [|done]. by destruct (rp_waiters rp !! q). }
  destruct (apply _ e now ft) as [[[]|err|] rp1] eqn:Ea; cbv beta iota zeta; specialize (Ha _ _ eq_refl); [|done|done].
  case_if; [|done].
  destruct (snapshot_frame (set_applies rp1 0) (e_index e) ok) as (_ & _ & _ & _ & E). by rewrite E.
Qed.

Lemma propose_entry_frame rp payload out rp1 :
  propose_entry rp payload = (out, rp1) ->
  rp_callers rp1 = rp_callers rp /\ rp_waiters rp1 = rp_waiters rp /\ rp_answers rp1 = rp_answers rp /\
  rp_proposal_nonce rp1 = rp_proposal_nonce rp /\ rp_proposal_counter rp1 = rp_proposal_counter rp.
Proof.
  unfold propose_entry. destruct (try_propose _ _) as [[s' out'] acts]. by intros [= _ <-].
Qed.

Definition rp_inv (tr : list rp_label) (rp : raft_partition) : Prop :=
  answers_inv tr rp /\ proposals_inv tr rp.

Lemma delete_some {A} (m : gmap Z A) k j : is_Some (delete k m !! j) -> is_Some (m !! j).
Proof. intros [x Hx]. apply lookup_delete_Some in Hx as [_ Hx]. by eexists. Qed.

Lemma step_propose_inv tr rp pid recs base now out rp1 :
  rp_inv tr rp -> rp_callers rp !! pid = Some (Based recs base) ->
  propose_entry rp (encode_batch pid base now recs) = (out, rp1) ->
  rp_inv (tr ++ [LProposed pid base now recs]) (on_reply rp1 pid out).
Proof.
  intros [Ha [Hk Hh Ho]] Hc Hp. apply propose_entry_frame in Hp as (E1 & E2 & E3 & E4 & E5).
  assert (rp_callers (on_reply rp1 pid out) !! pid = Some (match out with Accepted i => Accepted_at i
    | NotLeader h => Refused h end) /\ forall q, q <> pid ->
    rp_callers (on_reply rp1 pid out) !! q = rp_callers rp !! q) as [Epid Eq].
  { destruct out; cbn; rewrite E1, lookup_insert_eq; (split; [done|]); intros q Hne;
      by rewrite lookup_insert_ne by done. }
  split.
  - apply (answers_inv_step _ _ rp); [done|]. apply answering_quiet; destruct out; cbn; rewrite ?E2; try done.
    intros q. apply delete_some.
  - assert (rp_proposal_nonce (on_reply rp1 pid out) = rp_proposal_nonce rp /\
      rp_proposal_counter (on_reply rp1 pid out) = rp_proposal_counter rp) as [En Ec] by (by destruct out).
    assert (forall b n r, LProposed pid b n r ∉ tr) as Hnew.
    { intros b n r Hin. destruct (Hh _ _ _ _ Hin) as (c & Hc' & Hx). rewrite Hc in Hc'. by injection Hc' as <-. }
    constructor.
    + intros q Hq. unfold known. rewrite En, Ec. apply Hk. destruct (decide (q = pid)) as [->|Hne]; [by eexists|].
      by rewrite Eq in Hq.
    + intros q b n r Hin. destruct (decide (q = pid)) as [->|Hne]; [rewrite Epid; eexists; split; [done|by destruct out]|].
      rewrite Eq by done. apply elem_of_app in Hin as [Hin|Hin]; [by eapply Hh|].
      apply list_elem_of_singleton in Hin. congruence.
    + intros q b1 n1 r1 b2 n2 r2 H1 H2. rewrite elem_of_app, list_elem_of_singleton in H1, H2.
      destruct H1 as [H1|[= -> -> -> ->]], H2 as [H2|H2]; [by eapply Ho| |by apply Hnew in H2|by simplify_eq].
      injection H2 as -> -> -> ->. by apply Hnew in H1.
Qed.

Lemma step_register_inv tr rp recs :
  rp_inv tr rp -> rp_proposal_counter rp + 1 < 2 ^ 64 -> rp_inv (tr ++ []) (register rp recs).2.
Proof.
  intros [Ha Hp] Hc. split; [rewrite app_nil_r; by apply answers_inv_register|].
  destruct Ha as [[Hn Hr] _ _ _ _]. pose proof (register_fresh rp Hn ltac:(lia)) as Hf.
  unfold register in *. set (pid := wrap_u 64 _) in *. cbn [snd].
  rewrite (wrap_u_small 64 (_ + 1)) by (unfold is_u; lia).
  apply (proposals_inv_keep tr [] rp); cbn; [done|set_solver|done|lia|..].
  - intros q Hq. destruct (decide (pid = q)) as [<-|]; [right|left; by rewrite lookup_insert_ne in Hq].
    exists (rp_proposal_counter rp). cbn. split; [lia|done].
  - intros q c Hq Hh. exists c. split; [|done]. rewrite lookup_insert_ne; [done|]. intros <-.
    apply Hf, (pi_known _ _ Hp). by eexists.
Qed.

Lemma step_note_inv tr rp pid index :
  rp_inv tr rp -> rp_callers rp !! pid = Some (Accepted_at index) -> rp_inv (tr ++ []) (note_index rp pid index).
Proof.
  intros [Ha Hp] Hc. set (rp' := note_index rp pid index).
  assert (rp_callers rp' = <[pid := Waiting index]> (rp_callers rp) /\ rp_answers rp' = rp_answers rp /\
    rp_proposal_nonce rp' = rp_proposal_nonce rp /\ rp_proposal_counter rp' = rp_proposal_counter rp /\
    forall q, is_Some (rp_waiters rp' !! q) -> is_Some (rp_waiters rp !! q)) as (E1 & E2 & E3 & E4 & Hw).
  { subst rp'. unfold note_index. destruct (rp_waiters rp !! pid) eqn:E; cbn; split_and!; try done.
    intros q. destruct (decide (pid = q)) as [<-|]; [by eexists|]. by rewrite lookup_insert_ne by done. }
  split; [|by eapply (proposals_inv_caller tr rp)]. apply (answers_inv_step _ _ rp); [done|].
  by apply answering_quiet.
Qed.

Lemma rp_step_inv tr rp l rp' : rp_inv tr rp -> rp_step rp l rp' -> rp_inv (tr ++ l) rp'.
Proof.
  intros Hi Hst. pose proof Hi as [Ha Hp].
  destruct Hst as [rp recs Hne Hc|rp pid recs Hc Hl|rp pid recs base now out rp1 Hc Hpr|
    rp pid index Hc|rp pid index Hc|rp ev|rp now ft ok|rp].
  - by apply step_register_inv.
  - split; [apply (answers_inv_step _ _ rp); [done|by apply answering_quiet]|].
    by eapply (proposals_inv_caller tr rp).
  - by eapply step_propose_inv.
  - by apply step_note_inv.
  - split; [|by eapply (proposals_inv_caller tr rp)]. apply (answers_inv_step _ _ rp); [done|].
    apply answering_quiet; try done. intros q. apply delete_some.
  - split; [apply (answers_inv_step _ _ rp); [done|by apply answering_quiet]|].
    apply (proposals_inv_keep tr [] rp); cbn; eauto; [set_solver|lia].
  - destruct (run_one_frame rp now ft ok) as (E1 & E2 & E3).
    split; [apply (answers_inv_step _ _ rp); [done|apply run_one_answering]|].
    apply (proposals_inv_keep tr _ rp); rewrite ?E1, ?E2, ?E3; eauto; [|lia].
    intros. unfold next_applied. destruct (rp_applying rp); [|set_solver]. destruct (rp_committed rp); set_solver.
  - split; [apply (answers_inv_step _ _ rp); [done|]|].
    + apply (answering_ext _ _ (set_applying rp false)); [done..|]. by apply drain_answering.
    + apply (proposals_inv_keep tr [] rp); cbn; eauto; [set_solver|lia].
Qed.

Lemma rp_run_inv rp0 tr rp : opened rp0 -> rp_run rp0 tr rp -> rp_inv tr rp.
Proof.
  intros (Hw & Hc & Ha & Hn & Hr). induction 1 as [|tr rp l rp' _ IH Hst]; [|by eapply rp_step_inv].
  split; constructor; rewrite ?Hw, ?Hc, ?Ha; cbn; try set_solver.
  - rewrite Hn. split; [done|lia].
  - constructor.
  - intros pid. rewrite lookup_empty. by intros [].
  - intros pid. rewrite lookup_empty. by intros [].
Qed.
End Steps.

(** ** Properties *)

Section ProposalClaims.
Context `{Crc32}.

(** A proposal that fits the entry format. *)
Definition proposal_fits (pid base now : Z) (recs : list append_record) : Prop :=
  is_u 64 pid /\ is_u 64 base /\ base + len recs <= 2 ^ 64 /\ is_u 32 (len recs) /\
  Forall (fun r => cmd_record_ok (cmd_fields now r)) recs.

Lemma batch_append_offsets_eq base rs os :
  0 <= base -> base + len rs <= 2 ^ 64 -> explicit_offsets (batch_append base rs) = Some os ->
  os = (fun i => base + Z.of_nat i) <$> seq 0 (length rs).
Proof.
  intros Hb Hl He. rewrite (batch_append_explicit base rs Hb Hl) in He. rewrite <- batch_records_offsets.
  unfold explicit_offsets in He. revert os He. induction (batch_records base rs) as [|r l IH]; intros os He.
  { by injection He as <-. }
  cbn in He. destruct (mapM ar_offset (explicit <$> l)) eqn:E; [|done]. cbn in He. injection He as <-.
  cbn. f_equal. by apply IH.
Qed.


(** A leader never hands out an offset twice.  When a batch is proposed with
    the base offset [next_assignable_offset] gives in the same state, the entry is
    accepted, its offsets start at or above the end of the partition and of every
    entry of the log, committed or not, and the entries of the new log still stand
    for increasing, disjoint ranges of offsets. *)
Theorem proposed_offsets_disjoint s p pid now recs :
  rs_role s = Leader -> spans_sorted (rl_entries (rs_log s)) ->
  let base := next_assignable_offset s p in
  proposal_fits pid base now recs -> base + len recs < 2 ^ 64 ->
  exists s' index acts,
    try_propose s (encode_batch pid base now recs) = (s', Accepted index, acts) /\
    index = last_index (rs_log s) + 1 /\
    log_spans (rl_entries (rs_log s')) = log_spans (rl_entries (rs_log s)) ++ [(base, base + len recs)] /\
    spans_sorted (rl_entries (rs_log s')) /\ p_next_offset p <= base /\
    Forall (fun a => a.2 <= base) (log_spans (rl_entries (rs_log s))).
Proof.
  intros Hl Hs base Hfit Hlt. unfold try_propose. rewrite bool_decide_true by done. cbn [negb].
  set (pay := encode_batch pid base now recs).
  destruct (append_local s pay) as [s1 idx] eqn:Eal. unfold append_local in Eal. injection Eal as Es1 Eidx.
  destruct (drain_apply_actions (recompute_commit_index s1)) as [s' acts] eqn:Ed.
  exists s', idx, acts.
  assert (rs_log s' = rs_log s1) as Elog.
  { pose proof (core_drain (recompute_commit_index s1)) as E. rewrite Ed, core_recompute in E.
    by injection E. }
  assert (rl_entries (rs_log s') = rl_entries (rs_log s) ++ [mkEntry (rs_current_term s) idx pay]) as Ees.
  { rewrite Elog, <- Es1, <- Eidx. done. }
  assert (entry_span (mkEntry (rs_current_term s) idx pay) = Some (base, base + len recs)) as Esp.
  { unfold entry_span. cbn [e_payload]. destruct (encode_batch_data pid base now recs) as [E1 E2]. fold pay in E1, E2.
    rewrite E1, E2. cbn [orb]. destruct Hfit as (H1 & H2 & H3 & H4 & H5).
    destruct (batch_command_roundtrip pid base now recs H1 H2 H4 H5) as [_ Hsp]. fold pay in Hsp. by rewrite Hsp. }
  assert (log_spans (rl_entries (rs_log s')) =
    log_spans (rl_entries (rs_log s)) ++ [(base, base + len recs)]) as Esps.
  { rewrite Ees. unfold log_spans. rewrite omap_app. cbn. by rewrite Esp. }
  assert (Forall (fun a => a.2 <= base) (log_spans (rl_entries (rs_log s)))) as Hbelow.
  { apply spans_below; [done|]. rewrite <- first_end_spec by done. unfold base, next_assignable_offset. lia. }
  assert (0 <= base) as Hb by (destruct Hfit as (_ & [] & _); done).
  split_and!; [done|by rewrite <- Eidx|done| |unfold base, next_assignable_offset; lia|done].
  destruct Hs as [Hs1 Hs2]. split; rewrite Esps.
  - by apply StronglySorted_snoc.
  - apply Forall_app. split; [done|]. constructor; [cbn; len_lia|done].
Qed.

(** An entry whose base offset is stale is acknowledged without being stored.
    When the base was read before other entries reached the partition (the base is
    read and the entry proposed under two separate locks of the node, so a change
    of leader and back fits in between), applying the committed entry changes
    nothing, and its proposer is told that the records are at offsets that hold
    other records. *)
Theorem stale_base_is_acknowledged rp e now ft pid base rs w :
  decode_command (e_payload e) = Ok (Batch pid base rs) -> 0 <= base ->
  base + len rs <= p_next_offset (rp_partition rp) -> p_next_offset (rp_partition rp) <= 2 ^ 64 ->
  p_poisoned (rp_partition rp) = false -> rp_waiters rp !! pid = Some w ->
  exists rp', apply rp e now ft = (Ok tt, rp') /\ rp_partition rp' = rp_partition rp /\
    (pid, Applied ((fun i => base + Z.of_nat i) <$> seq 0 (length rs))) ∈ rp_answers rp'.
Proof.
  intros Hd Hb Hle Hmax Hp Hw. unfold apply, entry_append. rewrite Hd. cbn [mbind outcome_bind].
  destruct (batch_append_offsets base rs) as [os Hos].
  pose proof (batch_append_offsets_eq base rs os Hb ltac:(lia) Hos) as Eos.
  assert (Forall (fun o => o < p_next_offset (rp_partition rp)) os) as Hlt.
  { rewrite Eos. apply Forall_fmap, Forall_forall. intros i Hi. apply elem_of_seq in Hi. cbn.
    unfold len in Hle. lia. }
  unfold append_batch, append_locked. rewrite Hp, (append_loop_applied _ os) by done. cbn [app].
  set (rp1 := set_partition rp _). rewrite (answer_waiters_own rp1 pid w) by done.
  eexists. split; [reflexivity|]. split; [done|]. cbn. rewrite <- Eos. set_solver.
Qed.
End ProposalClaims.

(** ** A lost race

    Two nodes, 1 and 2.  A produce request reaches node 1 while node 2 leads; node
    1 reads the base offset, receives an entry of node 2, wins an election and only
    then takes the proposal. *)

Section StaleRun.
#[local] Existing Instance crc32_ieee_class.

Definition race_recs : list append_record := [append_record_new None [x41]].
Definition other_entry : log_entry := mkEntry 1 1 (value_batch 900 0 [[x42]]).

Definition race0 : raft_partition :=
  mkRP (fresh_partition 4096) (raft_new 1 [2] true) [] ∅ ∅ 7 0 true 0 [].
Definition race1 := (register race0 race_recs).2.
Definition race2 :=
  set_caller race1 7 (Based race_recs (next_assignable_offset (rp_raft race1) (rp_partition race1))).
Definition race_node (rp : raft_partition) (ev : raft_event) : raft_partition :=
  set_raft rp (node_event (rp_raft rp) ev).1 (rp_committed rp ++ applies (node_event (rp_raft rp) ev).2).
Definition race3 := race_node race2 (EvMessage (AppendEntries (mkAE 1 2 0 0 [other_entry] 1)) 0).
Definition race4 := run_one 0 race3 50 no_faults true.
Definition race5 := race_node race4 EvElectionTimeout.
Definition race6 := race_node race5 (EvMessage (RequestVoteResp (mkRVR 2 true 2)) 0).
Definition race7 := on_reply (propose_entry race6 (encode_batch 7 0 60 race_recs)).2 7
  (propose_entry race6 (encode_batch 7 0 60 race_recs)).1.
Definition race8 := note_index race7 7 3.
Definition race9 := race_node race8 (EvMessage (AppendEntriesResp (mkAER 2 true 2 3)) 0).
Definition race10 := run_one 0 race9 70 no_faults true.

Definition race_trace : list rp_label :=
  [LApplied other_entry; LProposed 7 0 60 race_recs; LApplied (mkEntry 2 3 (encode_batch 7 0 60 race_recs))].

Lemma race_node_step rp ev : rp_step 0 rp [] (race_node rp ev).
Proof. apply StepNode. Qed.

Lemma race_apply_step rp l now : next_applied rp = l -> rp_step 0 rp l (run_one 0 rp now no_faults true).
Proof. intros <-. apply StepApply. Qed.

Lemma race_propose_step rp pid recs base now :
  rp_callers rp !! pid = Some (Based recs base) ->
  rp_step 0 rp [LProposed pid base now recs]
    (on_reply (propose_entry rp (encode_batch pid base now recs)).2 pid
       (propose_entry rp (encode_batch pid base now recs)).1).
Proof.
  intros Hc. apply (StepPropose 0 rp pid recs base now); [done|]. by destruct (propose_entry _ _).
Qed.

(** The steps up to the proposal: registered, based, an entry of the other leader
    applied, the election won. *)
Lemma race_prefix : rp_run 0 race0 [LApplied other_entry] race6.
Proof.
  change [LApplied other_entry] with ((((([] ++ []) ++ []) ++ []) ++ [LApplied other_entry]) ++ [] ++ []).
  rewrite (app_assoc _ [] []).
  apply (RunStep _ _ _ race5); [|apply race_node_step].
  apply (RunStep _ _ _ race4); [|apply race_node_step].
  apply (RunStep _ _ _ race3); [|apply race_apply_step; vm_compute; reflexivity].
  apply (RunStep _ _ _ race2); [|apply race_node_step].
  apply (RunStep _ _ _ race1); [apply (RunStep _ _ _ race0); [apply RunStart|]|].
  - apply StepRegister; [done|vm_compute; reflexivity].
  - apply StepBase; [vm_compute; reflexivity|]. intros q c Hq. unfold race1, register in Hq. cbn in Hq.
    apply lookup_insert_Some in Hq as [[_ <-]|[_ Hq]]; [done|]. by rewrite lookup_empty in Hq.
Qed.

Lemma race_run : opened race0 /\ rp_run 0 race0 race_trace race10.
Proof.
  split. { split_and!; try reflexivity. vm_compute; split; congruence. }
  change race_trace with (((([LApplied other_entry] ++ [LProposed 7 0 60 race_recs]) ++ []) ++ [])
    ++ [LApplied (mkEntry 2 3 (encode_batch 7 0 60 race_recs))]).
  apply (RunStep _ _ _ race9); [|apply race_apply_step; vm_compute; reflexivity].
  apply (RunStep _ _ _ race8); [|apply race_node_step].
  apply (RunStep _ _ _ race7); [|apply StepNote; vm_compute; reflexivity].
  apply (RunStep _ _ _ race6); [apply race_prefix|].
  apply race_propose_step. vm_compute; reflexivity.
Qed.

(** The producer is told that its record is at offset 0, where the log holds the
    other one; its own record is nowhere. *)
Example race_loses_record :
  rp_answers race10 = [(7, Applied [0])] /\
  (read_records_raw (rp_partition race10) 0 10 1000).1.1 = [mkRecord 0 9 None [x42]] /\
  p_next_offset (rp_partition race10) = 1.
Proof. split_and!; vm_compute; reflexivity. Qed.

(** ** Witnesses *)


Lemma proposed_offsets_disjoint_witness :
  exists s' index acts,
    try_propose (rp_raft race6) (encode_batch 8 1 5 race_recs) = (s', Accepted index, acts) /\ index = 3 /\
    spans_sorted (rl_entries (rs_log s')).
Proof.
  destruct (proposed_offsets_disjoint (rp_raft race6) (rp_partition race6) 8 5 race_recs)
    as (s' & index & acts & E & Hi & _ & Hs & _).
  - vm_compute; reflexivity.
  - assert (log_spans (rl_entries (rs_log (rp_raft race6))) = [(0, 1)]) as E by (vm_compute; reflexivity).
    split; rewrite E; [repeat constructor|]. constructor; [cbn; lia|constructor].
  - repeat constructor; vm_compute; congruence.
  - vm_compute; reflexivity.
  - exists s', index, acts. split; [|split; [|exact Hs]].
    + rewrite <- E. f_equal.
    + rewrite Hi. vm_compute. reflexivity.
Defined.

Lemma stale_base_is_acknowledged_witness :
  exists rp', apply race9 (mkEntry 2 3 (encode_batch 7 0 60 race_recs)) 70 no_faults = (Ok tt, rp') /\
    rp_partition rp' = rp_partition race9 /\ (7, Applied [0]) ∈ rp_answers rp'.
Proof.
  apply (stale_base_is_acknowledged race9 _ 70 no_faults 7 0 [(60, None, [x41])] (Some 3)).
  - vm_compute; reflexivity.
  - lia.
  - vm_compute; congruence.
  - vm_compute; congruence.
  - vm_compute; reflexivity.
  - vm_compute; reflexivity.
Defined.
End StaleRun.
