(* ===== verification/RaftTransfer.v ===== *)
(** * Catching up a lagging follower (raft/node.rs, raft_partition.rs)

    The rounds of a snapshot transfer between two drivers ([RaftDriver]), and the
    proof that it ends, against the laws of the interface [SnapshotTransfer]. *)

From S2P Require Export RaftPartitionSpec RaftDriver.
From S2P Require Import Partition.

#[local] Open Scope Z_scope.

(** What the node relies on: a relation between a leader, a follower and the end
    of the snapshot under which a chunk read at the follower's position can be
    read and applied, and brings the follower forward; the last one to the end. *)
Class TransferLaws {S E : Type} `{SnapshotTransfer S E} (rel : S -> S -> Z -> Prop) (calm : E -> Prop) : Prop := {
  tl_chunk : forall l f e env, rel l f e -> calm env ->
    exists data fin f', st_read_chunk l (st_progress f) e SNAPSHOT_CHUNK_BYTES = Some (data, fin) /\
      st_apply_chunk f env data fin = (true, f') /\ rel l f' e /\
      (if fin then e <= st_progress f' else st_progress f < st_progress f' < e);
  tl_not_probe : forall l f e data fin, rel l f e ->
    st_read_chunk l (st_progress f) e SNAPSHOT_CHUNK_BYTES = Some (data, fin) -> 0 < len data;
  tl_range : forall l f e, rel l f e -> 0 <= st_progress f /\ 0 <= e < 2 ^ 64
}.

(** ** One exchange *)

Section Exchange.
Context {S E : Type} `{SnapshotTransfer S E}.

(** The answer the follower sends, and whether the leader goes on. *)
Definition reply_of (acts : list action) : option install_snapshot_resp :=
  match omap (fun a => match a with SendTo _ (InstallSnapshotResp r) => Some r | _ => None end) acts with
  | r :: _ => Some r
  | [] => None
  end.

Definition goes_on (acts : list action) : bool :=
  existsb (fun a => match a with SendSnapshot _ => true | _ => false end) acts.

(** The leader sends, the follower installs and answers, the leader takes the
    answer.  [true]: it wants to send more. *)
Definition round (l f : driver S) (env : E) : option (driver S * driver S * bool) :=
  match send_snapshot l (rs_me (d_state f)) with
  | (l, Some m) =>
    let (f, acts) := install_snapshot_msg f m env in
    match reply_of acts with
    | Some r =>
      let (s, acts) := on_message (d_state l) (InstallSnapshotResp r) in
      Some (mkDriver s (d_transfer l) (d_snapshot l), f, goes_on acts)
    | None => None
    end
  | (_, None) => None
  end.

(** The rounds of a transfer, as many as the leader wants. *)
Fixpoint exchange (fuel : nat) (l f : driver S) (envs : nat -> E) : option (driver S * driver S) :=
  match fuel with
  | O => None
  | Datatypes.S fuel =>
    match round l f (envs O) with
    | Some (l, f, true) => exchange fuel l f (fun n => envs (Datatypes.S n))
    | Some (l, f, false) => Some (l, f)
    | None => None
    end
  end.
End Exchange.

(** ** The exchange ends *)

Section ExchangeEnds.
Context {S E : Type} `{SnapshotTransfer S E} (rel : S -> S -> Z -> Prop) (calm : E -> Prop).
Context `{!TransferLaws rel calm}.

(** Nothing committed is left to apply. *)
Definition drained (s : raft_state) : Prop := rs_commit_index s = rs_last_applied s.

Lemma drain_drained s : drained s -> drain_apply_actions s = (s, []).
Proof. unfold drained, drain_apply_actions. intros ->. by rewrite Z.sub_diag. Qed.

Lemma drain_no_snapshot s : goes_on (snd (drain_apply_actions s)) = false.
Proof.
  unfold drain_apply_actions. generalize (Z.to_nat (rs_commit_index s - rs_last_applied s)). intros n. revert s.
  induction n as [|n IH]; intros s; cbn; [done|]. case_if; [|done].
  destruct (log_get _ _) as [e|]; [|done]. case_if; [done|].
  destruct (decode_config_change _) as [[add remove]|]; [done|].
  specialize (IH (set_applied s (rs_last_applied s + 1))). by destruct (drain_loop _ _).
Qed.

(** A message of a member in the current term reaches its handler. *)
Lemma on_message_same_term s m progress :
  is_member s (msg_sender m) = true -> msg_term m = rs_current_term s -> 0 <= rs_current_term s < U64_MAX ->
  on_message_with_progress s m progress =
    let (s1, acts) := handle_message s m progress in
    let (s2, applied) := drain_apply_actions s1 in (s2, acts ++ applied).
Proof.
  intros Hm Ht Hu. unfold on_message_with_progress. rewrite Hm, Ht. cbn [negb].
  assert ((sat_add_u64 (rs_current_term s) MAX_TERM_JUMP <? rs_current_term s) = false) as ->.
  { apply Z.ltb_ge. unfold sat_add_u64. assert (0 <= MAX_TERM_JUMP) by (vm_compute; congruence). lia. }
  assert ((rs_current_term s =? U64_MAX) = false) as -> by (apply Z.eqb_neq; lia).
  rewrite Z.ltb_irrefl. cbn [orb andb]. destruct (handle_message s m progress) as [s1 acts].
  by destruct (drain_apply_actions s1).
Qed.

(** A leader and a lagging follower in the middle of a transfer. *)
Record transferring (snap : persisted_snapshot) (l f : driver S) (tl tf : S) : Prop := {
  tr_leader : rs_role (d_state l) = Leader;
  tr_term : rs_current_term (d_state f) = rs_current_term (d_state l) /\
    0 <= rs_current_term (d_state l) < U64_MAX;
  tr_members : is_member (d_state l) (rs_me (d_state f)) = true /\
    is_member (d_state f) (rs_me (d_state l)) = true;
  tr_drained : drained (d_state l) /\ drained (d_state f);
  tr_transfer : d_transfer l = Some tl /\ d_transfer f = Some tf;
  tr_snap : d_snapshot l = Some snap /\ 0 < ps_last_index snap /\
    rl_base_index (rs_log (d_state l)) <= ps_last_index snap <= last_index (rs_log (d_state l));
  tr_cursor : rs_snapshot_cursor (d_state l) !! rs_me (d_state f) = None \/
    rs_snapshot_cursor (d_state l) !! rs_me (d_state f) = Some (st_progress tf);
  tr_rel : rel tl tf (st_snapshot_end (ps_data snap))
}.

(** The end of a transfer. *)
Definition installed (snap : persisted_snapshot) (f : driver S) (tl tf : S) : Prop :=
  d_transfer f = Some tf /\ rel tl tf (st_snapshot_end (ps_data snap)) /\
  st_snapshot_end (ps_data snap) <= st_progress tf /\
  ps_last_index snap <= rl_base_index (rs_log (d_state f)).

(** The follower's side of a chunk that is not the last one. *)
Lemma install_partial snap l f tl tf m env tf' :
  transferring snap l f tl tf ->
  is_term m = rs_current_term (d_state l) -> is_leader_id m = rs_me (d_state l) -> is_done m = false ->
  (if is_probe m then tf' = tf else st_apply_chunk tf env (is_data m) false = (true, tf')) ->
  exists s', install_snapshot_msg f m env =
    (mkDriver s' (Some tf') (d_snapshot f),
     [SendTo (rs_me (d_state l))
        (InstallSnapshotResp (mkISR (rs_current_term (d_state l)) true (rs_me (d_state f)) (st_progress tf') 0));
      ResetElectionTimer]) /\
    rs_me s' = rs_me (d_state f) /\ rs_current_term s' = rs_current_term (d_state f) /\
    rs_peers s' = rs_peers (d_state f) /\ drained s'.
Proof.
  intros [_ [Ht Hu] [_ Hm] [_ Hd] [_ Ef] _ _ _] E1 E2 E3 Hc. unfold install_snapshot_msg, take_chunk.
  rewrite E1, Ht, Z.leb_refl, Ef.
  assert ((if is_probe m then (true, tf) else st_apply_chunk tf env (is_data m) (is_done m)) = (true, tf')) as ->.
  { destruct (is_probe m); [by subst|]. by rewrite E3. }
  cbn [negb]. rewrite on_message_same_term; [|by cbn; rewrite E2|cbn; congruence|lia].
  cbn [handle_message]. unfold handle_install_snapshot. rewrite E1, E3, <- Ht, Z.ltb_irrefl. cbn [set_role set_hint rs_current_term].
  rewrite Z.ltb_irrefl. rewrite drain_drained by done. cbn [andb]. rewrite E2.
  eexists. split; [reflexivity|]. done.
Qed.

(** The leader's side of an answer to such a chunk. *)
Lemma answer_partial s peer progress :
  rs_role s = Leader -> is_member s peer = true -> 0 <= rs_current_term s < U64_MAX -> drained s ->
  on_message s (InstallSnapshotResp (mkISR (rs_current_term s) true peer progress 0)) =
    (set_cursor s peer progress, [SendSnapshot peer]).
Proof.
  intros Hl Hm Hu Hd. unfold on_message. rewrite on_message_same_term by done. cbn [handle_message].
  unfold handle_install_snapshot_resp. rewrite bool_decide_true by done. cbn. rewrite Z.eqb_refl. cbn.
  by rewrite drain_drained.
Qed.

Lemma install_done_base s m :
  is_last_index m <= rl_base_index (rs_log (install_done s m)) /\
  rs_current_term (install_done s m) = rs_current_term s /\ rs_me (install_done s m) = rs_me s.
Proof.
  unfold install_done. set (s1 := if rl_base_index (rs_log s) <? is_last_index m then _ else _).
  assert (is_last_index m <= rl_base_index (rs_log s1) /\ rs_current_term s1 = rs_current_term s /\ rs_me s1 = rs_me s)
    as (H1 & H2 & H3).
  { subst s1. case_if; [|split; [lia|done]]. unfold log_install_snapshot.
    set (keep := _ && _) in *. destruct keep eqn:Ek; cbn; [|split; [lia|done]]. split; [|done].
    unfold compact_through. case_if; [|cbn; lia]. cbn in *. lia. }
  cbv zeta. set (s2 := if rs_commit_index s1 <? _ then _ else _).
  assert (rs_log s2 = rs_log s1 /\ rs_current_term s2 = rs_current_term s1 /\ rs_me s2 = rs_me s1) as (E1 & E2 & E3)
    by (subst s2; by case_if).
  case_if; cbn; rewrite ?E1, ?E2, ?E3; done.
Qed.

(** The follower's side of the last chunk. *)
Lemma install_last snap l f tl tf m env tf' :
  transferring snap l f tl tf ->
  is_term m = rs_current_term (d_state l) -> is_leader_id m = rs_me (d_state l) -> is_done m = true ->
  is_last_index m = ps_last_index snap -> st_apply_chunk tf env (is_data m) true = (true, tf') ->
  exists f' idx rest, install_snapshot_msg f m env =
    (f', SendTo (rs_me (d_state l))
       (InstallSnapshotResp (mkISR (rs_current_term (d_state l)) true (rs_me (d_state f)) (st_progress tf') idx))
       :: rest) /\
    ps_last_index snap <= idx /\ d_transfer f' = Some tf' /\ ps_last_index snap <= rl_base_index (rs_log (d_state f')).
Proof.
  intros [_ [Ht Hu] [_ Hm] _ [_ Ef] _ _ _] E1 E2 E3 E4 Hc. unfold install_snapshot_msg, take_chunk.
  assert (is_probe m = false) as -> by (unfold is_probe; by rewrite E3, andb_false_r).
  rewrite E1, Ht, Z.leb_refl, Ef, E3, Hc. cbn [negb].
  rewrite on_message_same_term; [|by cbn; rewrite E2|cbn; congruence|lia].
  cbn [handle_message]. unfold handle_install_snapshot. rewrite E1, E3, <- Ht, Z.ltb_irrefl.
  cbn [set_role set_hint rs_current_term]. rewrite Z.ltb_irrefl.
  set (s1 := install_done _ m). destruct (install_done_base (set_hint (set_role (d_state f) Follower) (Some (is_leader_id m))) m)
    as (H1 & H2 & H3). fold s1 in H1, H2, H3. rewrite E4 in *.
  destruct (drain_apply_actions s1) as [s2 applied] eqn:Ed.
  assert (rs_log s2 = rs_log s1) as Elog.
  { pose proof (core_drain s1) as Ec. rewrite Ed in Ec. by injection Ec. }
  rewrite H2, H3, E2. cbn [set_role set_hint rs_current_term rs_me app].
  eexists _, _, _. split; [reflexivity|]. cbn [d_transfer d_state]. rewrite Elog. split_and!; [lia|done|done].
Qed.

(** The leader's side of the last answer: it does not send the snapshot again. *)
Lemma answer_last s peer progress idx base :
  rs_role s = Leader -> is_member s peer = true -> 0 <= rs_current_term s < U64_MAX ->
  0 < base <= idx -> rl_base_index (rs_log s) <= base <= last_index (rs_log s) ->
  goes_on (snd (on_message s (InstallSnapshotResp (mkISR (rs_current_term s) true peer progress idx)))) = false.
Proof.
  intros Hl Hm Hu Hi Hb. unfold on_message. rewrite on_message_same_term by done. cbn [handle_message].
  unfold handle_install_snapshot_resp. rewrite bool_decide_true by done. cbn [isr_term isr_responder_id isr_success
    isr_installed_index isr_next_offset negb orb]. rewrite Z.eqb_refl. cbn [negb orb].
  rewrite (proj2 (Z.ltb_lt _ _)) by lia. cbv zeta.
  set (mi := Z.max _ _). set (s1 := set_progress _ _ _ _).
  assert (rs_log (recompute_commit_index s1) = rs_log s /\ rs_next_index (recompute_commit_index s1) = rs_next_index s1)
    as [El En].
  { pose proof (core_recompute s1) as Ec. split; [by injection Ec|]. unfold recompute_commit_index. by repeat case_if. }
  set (s2 := recompute_commit_index s1) in *.
  assert (forall acts, goes_on acts = false ->
    goes_on (snd (let (s3, applied) := drain_apply_actions s2 in (s3, acts ++ applied))) = false) as Hx.
  { intros acts Ha. pose proof (drain_no_snapshot s2) as Hd. destruct (drain_apply_actions s2) as [s3 applied].
    cbn in *. unfold goes_on in *. by rewrite existsb_app, Ha, Hd. }
  apply Hx. case_if; [|done]. unfold replicate_to.
  assert (get_or (rs_next_index s2) peer 1 = mi + 1) as ->.
  { unfold get_or. rewrite En. subst s1. cbn. by rewrite lookup_insert_eq. }
  rewrite El. subst mi. if_false. done.
Qed.

(** The state after a partial round. *)
Lemma transferring_next snap l f tl tf tf' s' sn :
  transferring snap l f tl tf -> rel tl tf' (st_snapshot_end (ps_data snap)) ->
  rs_me s' = rs_me (d_state f) -> rs_current_term s' = rs_current_term (d_state f) ->
  rs_peers s' = rs_peers (d_state f) -> drained s' ->
  let l' := mkDriver (set_cursor (d_state l) (rs_me (d_state f)) (st_progress tf')) (d_transfer l) (d_snapshot l) in
  transferring snap l' (mkDriver s' (Some tf') sn) tl tf' /\
  rs_snapshot_cursor (d_state l') !! rs_me s' = Some (st_progress tf').
Proof.
  intros [H1 H2 [H3 H4] [H5 H6] [H7 H8] H9 _ _] Hr E1 E2 E3 Hd. cbv zeta.
  assert (rs_snapshot_cursor (set_cursor (d_state l) (rs_me (d_state f)) (st_progress tf')) !! rs_me s' =
    Some (st_progress tf')) as Ec by (cbn; rewrite E1; apply lookup_insert_eq).
  split; [|done]. constructor; cbn [d_state d_transfer d_snapshot]; try done.
  - cbn. by rewrite E2.
  - rewrite E1. split; [exact H3|]. revert H4. unfold is_member. cbn. by rewrite E3.
  - by right.
Qed.

(** The number of rounds that are enough. *)
Definition rounds_left (snap : persisted_snapshot) (l f : driver S) (tf : S) : nat :=
  (Z.to_nat (st_snapshot_end (ps_data snap) - st_progress tf) + 1 +
   match rs_snapshot_cursor (d_state l) !! rs_me (d_state f) with None => 1 | Some _ => 0 end)%nat.

Lemma round_spec snap l f tl tf env :
  transferring snap l f tl tf -> calm env ->
  exists l' f' b tf', round l f env = Some (l', f', b) /\
    (if b then transferring snap l' f' tl tf' /\ (rounds_left snap l' f' tf' < rounds_left snap l f tf)%nat
     else installed snap f' tl tf').
Proof.
  intros Ht Hcalm. pose proof Ht as [H1 [H2 H2'] [H3 H4] [H5 H6] [H7 H8] (H9 & H10 & H11) Hcur Hrel].
  set (e := st_snapshot_end (ps_data snap)) in *. unfold round, send_snapshot. rewrite H9, H7.
  destruct Hcur as [Hcur|Hcur]; rewrite Hcur.
  - set (m := mkIS _ _ _ _ _ _ _).
    destruct (install_partial snap l f tl tf m env tf Ht eq_refl eq_refl eq_refl ltac:(reflexivity))
      as (s' & -> & E1 & E2 & E3 & Hd). cbn [reply_of omap list_omap].
    rewrite answer_partial by done. cbn [goes_on existsb].
    destruct (transferring_next snap l f tl tf tf s' (d_snapshot f) Ht Hrel E1 E2 E3 Hd) as [Htr Hc].
    eexists _, _, true, tf. split; [reflexivity|]. split; [done|].
    unfold rounds_left. cbn [d_state] in Hc |- *. rewrite Hc, Hcur. lia.
  - destruct (tl_chunk tl tf e env Hrel Hcalm) as (data & fin & tf' & Er & Ea & Hrel' & Hp).
    fold e. rewrite Er. set (m := mkIS _ _ _ _ _ _ _). pose proof (tl_not_probe _ _ _ _ _ Hrel Er) as Hlen.
    destruct fin.
    + destruct (install_last snap l f tl tf m env tf' Ht eq_refl eq_refl eq_refl eq_refl Ea)
        as (f' & idx & rest & -> & Hidx & Etf & Hb). cbn [reply_of omap list_omap].
      destruct (on_message _ _) as [s3 acts] eqn:Eom. eexists _, f', _, tf'. split; [reflexivity|].
      pose proof (answer_last (d_state l) (rs_me (d_state f)) (st_progress tf') idx (ps_last_index snap)
        H1 H3 H2' (conj H10 Hidx) H11) as Hg. rewrite Eom in Hg. cbn [snd] in Hg. rewrite Hg. done.
    + assert (is_probe m = false) as Hnp.
      { unfold is_probe. subst m. cbn [is_data]. rewrite (proj2 (Z.eqb_neq (len data) 0)) by lia. by rewrite andb_false_r. }
      destruct (install_partial snap l f tl tf m env tf' Ht eq_refl eq_refl eq_refl ltac:(by rewrite Hnp))
        as (s' & -> & E1 & E2 & E3 & Hd). cbn [reply_of omap list_omap].
      rewrite answer_partial by done. cbn [goes_on existsb].
      destruct (transferring_next snap l f tl tf tf' s' (d_snapshot f) Ht Hrel' E1 E2 E3 Hd) as [Htr Hc].
      eexists _, _, true, tf'. split; [reflexivity|]. split; [done|].
      unfold rounds_left. cbn [d_state] in Hc |- *. rewrite Hc, Hcur. cbv iota in Hp. fold e. lia.
Qed.

Lemma exchange_spec fuel snap l f tl tf envs :
  transferring snap l f tl tf -> (forall n, calm (envs n)) -> (rounds_left snap l f tf <= fuel)%nat ->
  exists l' f' tf', exchange fuel l f envs = Some (l', f') /\ installed snap f' tl tf'.
Proof.
  revert l f tf envs. induction fuel as [|fuel IH]; intros l f tf envs Ht Hc Hf.
  { unfold rounds_left in Hf. lia. }
  destruct (round_spec snap l f tl tf (envs 0%nat) Ht (Hc 0%nat)) as (l' & f' & b & tf' & Er & Hb).
  cbn [exchange]. rewrite Er. destruct b; [|by eauto]. destruct Hb as [Ht' Hr].
  apply (IH l' f' tf'); [done|intros; apply Hc|lia].
Qed.
End ExchangeEnds.
