(* ===== verification/PartitionTransfer.v ===== *)
(** * Partitions as the state behind a snapshot (raft_partition.rs)

    [PartitionTransfer]: the chunks of records a leader reads from its partition
    and a follower appends to its own, and the proof that they satisfy the
    interface the Raft node relies on, so that a lagging follower is caught up. *)

From S2P Require Export RaftTransfer.
From S2P Require Import Partition.

#[local] Open Scope Z_scope.

Section PartitionTransfer.
Context `{Crc32}.

(** ** Reading a chunk *)

(** [usize::MAX]: no limit on the number of records. *)
Definition NO_LIMIT : Z := U64_MAX.

(** The [while cursor < end && out.len() < max_bytes] loop.  Every iteration that
    does not stop moves the cursor forward, so [end - from] bounds their number. *)
Fixpoint read_chunk_loop (fuel : nat) (p : partition) (cursor e max_bytes : Z) (out : list byte)
    : list byte * Z :=
  match fuel with
  | O => (out, cursor)
  | S fuel =>
    if (cursor <? e) && (len out <? max_bytes) then
      let '(records, next, _) :=
        read_records_raw p cursor NO_LIMIT (max_bytes - Z.min (len out) max_bytes) in
      let out := out ++ concat (put_chunk_record <$> filter (fun r => r_offset r < e) records) in
      if next <=? cursor then (out, cursor) else read_chunk_loop fuel p next e max_bytes out
    else (out, cursor)
  end.

Definition read_chunk (p : partition) (from e max_bytes : Z) : list byte * bool :=
  let (out, cursor) := read_chunk_loop (S (Z.to_nat (e - from))) p from e max_bytes (to_be 8 e) in
  (out, e <=? cursor).

(** ** Applying a chunk *)

Inductive chunk_error : Type := ChunkTruncated | ChunkAppend (e : append_error) | ChunkSync (e : append_error).

(** What the calls of one [apply_chunk] meet: the clock, the outcomes of the writes
    and of the final sync. *)
Record chunk_env : Type := mkChunkEnv { ce_now : Z; ce_faults : faults; ce_sync : bool }.

Definition apply_chunk (p : partition) (env : chunk_env) (data : list byte) (fin : bool)
    : outcome chunk_error unit * partition :=
  match rd_uint 8 data with
  | None => (Err ChunkTruncated, p)
  | Some (e, rest) =>
    match rd_chunk_loop (length rest) rest with
    | None => (Err ChunkTruncated, p)
    | Some recs =>
      match append_batch p (explicit <$> recs) Deferred (ce_now env) (ce_faults env) with
      | (Ok _, p) =>
        if fin then
          let (res, p) := sync_all (advance_to p e) (ce_sync env) in (map_err ChunkSync res, p)
        else (Ok tt, p)
      | (Err err, p) => (Err (ChunkAppend err), p)
      | (Panic, p) => (Panic, p)
      end
    end
  end.

#[export] Instance partition_transfer : SnapshotTransfer partition chunk_env := {
  st_read_chunk p from e max_bytes := Some (read_chunk p from e max_bytes);
  st_apply_chunk p env data fin :=
    let (res, p) := apply_chunk p env data fin in (match res with Ok _ => true | _ => false end, p);
  st_progress p := p_next_offset p;
  st_snapshot_end := snapshot_end
}.

(** ** What a chunk holds *)

Lemma read_window_min mb : 0 <= mb -> 16384 <= read_window mb.
Proof. intros. unfold read_window, clamp. lia. Qed.

Lemma visible_below t h e L : visible t (Z.min h e) L = filter (fun r => r_offset r < e) (visible t h L).
Proof. unfold visible. rewrite list_filter_filter. apply list_filter_iff. intros r. lia. Qed.

(** The loop, from a cursor [c] below the end: what is added are the visible
    records from [c] to where the cursor stops, and unless it reached the end it
    stopped just past the last of them. *)
Lemma read_chunk_loop_spec fuel p L c e mb out :
  serves p L -> Forall (fun r => record_size r <= 16384) L -> 0 <= c <= e -> e <= p_next_offset p ->
  (Z.to_nat (e - c) < fuel)%nat ->
  exists c' rs, read_chunk_loop fuel p c e mb out = (out ++ concat (put_chunk_record <$> rs), c') /\
    c <= c' /\ rs = visible c (Z.min c' e) L /\
    (c' < e -> c' = next_after c rs /\ (len out < mb -> rs <> [])).
Proof.
  intros Hs Hsz. revert c out. induction fuel as [|fuel IH]; intros c out Hc He Hf; [lia|].
  cbn [read_chunk_loop]. destruct (_ && _) eqn:Eg.
  2: { exists c, []. rewrite app_nil_r. split_and!; [done|lia| |].
       - symmetry. apply visible_nil, Forall_forall. intros. lia.
       - intros Hlt. split; [done|]. intros Hl. apply andb_false_iff in Eg as [Eg|Eg]; boolp; lia. }
  boolp. destruct Hs as (init & s & rs0 & Hw & Hb & HL).
  pose proof (read_records_spec p init s rs0 c NO_LIMIT (mb - Z.min (len out) mb) Hw Hb ltac:(lia) ltac:(done)) as Hr.
  specialize (Hr ltac:(rewrite HL; eapply Forall_impl; [exact Hsz|]; cbn; intros;
    etransitivity; [eassumption|apply read_window_min; len_lia])).
  destruct (read_records_raw p c _ _) as [[rs next] hwm]. destruct Hr as (-> & Hn & Hv & _ & _ & Hnx).
  rewrite (visible_start _ _ _ _ _ _ Hw), HL in Hv.
  assert (serves p L) as Hs by (by exists init, s, rs0).
  assert (offsets_sorted L) as Hsort.
  { rewrite <- HL. by destruct (log_sorted init s rs0 (p_dir p)) as [? _]; [apply Hw..|]. }
  rewrite (proj2 (Z.leb_gt next c)) by lia.
  rewrite <- Hv, <- visible_below. set (seen := visible c (Z.min next e) L).
  destruct (decide (e <= next)) as [Hge|Hlt].
  - exists next, seen. split_and!; [|lia|done|lia].
    destruct fuel as [|fuel]; [done|]. cbn [read_chunk_loop].
    by rewrite (proj2 (Z.ltb_ge next e)) by lia.
  - destruct (IH next (out ++ concat (put_chunk_record <$> seen)) ltac:(lia) He ltac:(lia))
      as (c' & rs' & -> & Hc' & Ers & Hend).
    assert (seen = rs) as Eseen by (subst seen; by rewrite Z.min_l by lia).
    assert (rs <> [] /\ next = next_after c rs) as [Hne Hnext].
    { unfold next_after. destruct (last rs) as [r|] eqn:El; [|lia]. split; [by intros ->|done]. }
    exists c', (seen ++ rs'). rewrite fmap_app, concat_app, app_assoc. split_and!; [done|lia| |].
    + subst seen rs'. rewrite Z.min_l by lia. apply visible_concat; [done|lia].
    + intros Hlt'. destruct (Hend Hlt') as [Ec' _]. rewrite Eseen, next_after_app, <- Hnext. split; [done|].
      intros _ E. by apply app_nil in E as [-> _].
Qed.

(** ** An append that meets no fault *)

Lemma append_loop_calm recs now ft p b next offsets fresh :
  ft_writes ft = [] -> ft_rolls ft = [] ->
  exists offs wrote p', append_loop recs now ft p b next offsets fresh = (Ok (offs, wrote), p').
Proof.
  intros Hw Hr.
  assert (pop_write ft = (NoFault, ft) /\ pop_roll ft = (None, ft)) as [Epw Epr].
  { unfold pop_write, pop_roll. by rewrite Hw, Hr. }
  assert (forall p b, exists b' p', commit_batch p b NoFault = (Ok b', p')) as Hc.
  { intros q c. unfold commit_batch. case_if; [by eauto|]. cbn. by eexists _, _. }
  revert p b next offsets fresh. induction recs as [|r recs IH]; intros p b next offsets fresh.
  { cbn. rewrite Epw. cbn. destruct (Hc p b) as (b' & p' & ->). by eauto. }
  rewrite append_loop_cons, Epw. cbn [fst snd]. rewrite Epr. cbn [fst snd]. cbv zeta.
  destruct (assign_one next r) as [o|o]; [apply IH|]. case_if; [|apply IH].
  destruct (Hc p b) as (b' & p' & ->). cbn. apply IH.
Qed.

Lemma append_batch_calm p recs now ft :
  p_poisoned p = false -> ft_writes ft = [] -> ft_rolls ft = [] ->
  exists offs p', append_batch p recs Deferred now ft = (Ok offs, p').
Proof.
  intros Hp Hw Hr. unfold append_batch, append_locked. rewrite Hp.
  destruct (append_loop_calm recs now ft p batch_default (p_next_offset p) [] false Hw Hr)
    as (offs & wrote & p' & ->). by eauto.
Qed.

(** ** The interface is met *)

(** No fault is met while a chunk is applied. *)
Definition calm_env (env : chunk_env) : Prop :=
  ft_writes (ce_faults env) = [] /\ ft_rolls (ce_faults env) = [] /\ ce_sync env = true.

(** The leader's records are [Ll]; the follower started with [Lf] and the next
    offset [n0], and holds on top of them the leader's records from [n0] on. *)
Record partition_rel (Ll Lf : list record) (n0 : Z) (l f : partition) (e : Z) : Prop := {
  pr_leader : serves l Ll;
  pr_small : Forall (fun r => record_size r <= 16384) Ll;
  pr_end : 0 <= e < 2 ^ 64 /\ e <= p_next_offset l;
  pr_start : 0 <= n0 <= p_next_offset f;
  pr_follower : serves f (Lf ++ visible n0 (p_next_offset f) Ll);
  pr_live : p_poisoned f = false
}.

Lemma serves_ok p L : serves p L -> Forall record_ok L /\ offsets_sorted L.
Proof.
  intros (init & s & rs & Hw & _ & <-). split.
  - assert (log_of init rs = concat (init ++ [(s, rs)]).*2) as ->
      by (unfold log_of; rewrite fmap_app, concat_app; cbn; by rewrite app_nil_r).
    pose proof (pw_holds _ _ _ _ Hw) as Hh. induction Hh as [|g gs (fs & _ & Hx & _) _ IH]; [constructor|].
    cbn. apply Forall_app. split; [apply Hx|done].
  - by destruct (log_sorted init s rs (p_dir p)) as [? _]; [apply Hw..|].
Qed.

Lemma offsets_sorted_visible t h L : offsets_sorted L -> offsets_sorted (visible t h L).
Proof. apply StronglySorted_filter. Qed.

Lemma serves_advance p L e : serves p L -> serves (advance_to p e) L.
Proof.
  intros (init & s & rs & Hw & Hb & HL). destruct (advance_to_spec p init s rs e Hw) as [Hw' Hn].
  exists init, s, rs. split_and!; [done|rewrite Hn; lia|done].
Qed.

Lemma sync_all_serves p L :
  serves p L -> exists p', sync_all p true = (Ok tt, p') /\ serves p' L /\
    p_next_offset p' = p_next_offset p /\ p_poisoned p' = p_poisoned p.
Proof.
  intros (init & s & rs & Hw & Hb & HL). unfold sync_all.
  pose proof (sync_upto_wf p init s rs (Z.max (wm_seq (p_latest p)) 1) (wm_handle (p_latest p)) true Hw) as Hs.
  cbv zeta in Hs. destruct (sync_upto _ _ _ _) as [o p'] eqn:Es. cbn [fst snd] in Hs.
  destruct Hs as (Hw' & Hn' & [[-> Hp']| ->]).
  - exists p'. split_and!; [done| |done|done]. exists init, s, rs. split_and!; [done|lia|done].
  - unfold sync_upto in Es. case_if_in Es; [done|]. by destruct (if wm_handle _ =? _ then _ else _).
Qed.

(** Applying the chunk that holds the records [rs]. *)
Lemma apply_chunk_spec p L rs e fin env :
  serves p L -> p_poisoned p = false -> calm_env env -> is_u 64 e ->
  offsets_sorted rs -> Forall record_ok rs -> Forall (fun r => p_next_offset p <= r_offset r) rs ->
  exists p', apply_chunk p env (to_be 8 e ++ concat (put_chunk_record <$> rs)) fin = (Ok tt, p') /\
    serves p' (L ++ rs) /\ p_poisoned p' = false /\
    p_next_offset p' = (let n := next_after (p_next_offset p) rs in if fin then Z.max n e else n).
Proof.
  intros Hs Hp (Hw & Hr & Hsy) He Hsort Hok Hab. unfold apply_chunk. rewrite rd_uint8_app by done.
  rewrite rd_chunk_loop_app by (done || apply chunk_fuel).
  pose proof (append_explicit p L rs Deferred (ce_now env) (ce_faults env) Hs Hsort Hok) as Ha. cbv zeta in Ha.
  rewrite filter_all in Ha by done.
  destruct (append_batch_calm p (explicit <$> rs) (ce_now env) (ce_faults env) Hp Hw Hr) as (offs & p1 & E1).
  rewrite E1 in Ha |- *. destruct Ha as (_ & Hs1 & Hn1 & Hp1).
  destruct fin; [|by exists p1].
  destruct (sync_all_serves (advance_to p1 e) (L ++ rs) (serves_advance _ _ e Hs1)) as (p2 & E2 & Hs2 & Hn2 & Hp2).
  rewrite Hsy, E2. exists p2. cbn [map_err]. split_and!; [done|done|by rewrite Hp2|].
  by rewrite Hn2, <- Hn1.
Qed.

(** What a chunk read at the follower's position holds. *)
Lemma read_chunk_spec l L from e mb :
  serves l L -> Forall (fun r => record_size r <= 16384) L -> 0 <= from -> e <= p_next_offset l -> 8 < mb ->
  exists rs fin, read_chunk l from e mb = (to_be 8 e ++ concat (put_chunk_record <$> rs), fin) /\
    (if fin then rs = visible from e L
     else rs <> [] /\ next_after from rs < e /\ rs = visible from (next_after from rs) L).
Proof.
  intros Hs Hsz Hf He Hmb. unfold read_chunk. destruct (decide (from <= e)) as [Hle|Hgt].
  - destruct (read_chunk_loop_spec (S (Z.to_nat (e - from))) l L from e mb (to_be 8 e) Hs Hsz ltac:(lia) He ltac:(lia))
      as (c & rs & -> & Hc & Ers & Hend).
    exists rs, (e <=? c). split; [done|]. case_if; [by rewrite Z.min_r in Ers by lia|].
    destruct (Hend ltac:(lia)) as [Ec Hne]. rewrite Z.min_l, Ec in Ers by lia.
    split_and!; [apply Hne; len_lia|lia|done].
  - exists [], true. replace (Z.to_nat (e - from)) with 0%nat by lia. cbn [read_chunk_loop].
    rewrite (proj2 (Z.ltb_ge from e)) by lia. cbn [andb]. rewrite app_nil_r, (proj2 (Z.leb_le e from)) by lia.
    split; [done|]. symmetry. apply visible_nil, Forall_forall. intros. lia.
Qed.

Lemma next_after_visible n h L : n <= next_after n (visible n h L) <= Z.max n h.
Proof.
  unfold next_after. destruct (last (visible n h L)) as [r|] eqn:El; [|lia].
  apply last_Some_elem_of, list_elem_of_filter in El as [? _]. lia.
Qed.

#[export] Instance partition_transfer_laws Ll Lf n0 : TransferLaws (partition_rel Ll Lf n0) calm_env.
Proof.
  constructor.
  - intros l f e env [Hl Hsz [He He'] Hn Hf Hp] Hcalm. cbn [st_read_chunk st_progress st_apply_chunk partition_transfer].
    set (nf := p_next_offset f) in *. destruct (serves_ok l Ll Hl) as [Hok Hsort].
    destruct (read_chunk_spec l Ll nf e SNAPSHOT_CHUNK_BYTES Hl Hsz ltac:(lia) He' ltac:(done)) as (rs & fin & Er & Hrs).
    assert (exists h, rs = visible nf h Ll /\ h <= Z.max nf e /\
      next_after nf rs = (if fin then next_after nf rs else h) /\ (if fin then h = e else nf < h < e)) as (h & Eh & Hh & Hn1 & Hfin).
    { destruct fin; [exists e; split_and!; [done|lia|done|done]|]. destruct Hrs as (Hne & Hlt & Hv).
      exists (next_after nf rs). split_and!; [done|lia|done| |done].
      unfold next_after. destruct (last rs) as [r|] eqn:E; [|by apply last_None in E].
      apply last_Some_elem_of in E. rewrite Hv in E. apply list_elem_of_filter in E as [? _]. lia. }
    destruct (apply_chunk_spec f (Lf ++ visible n0 nf Ll) rs e fin env Hf Hp Hcalm He) as (f' & Ea & Hs' & Hp' & Hn').
    { rewrite Eh. by apply offsets_sorted_visible. }
    { rewrite Eh. by apply Forall_filter_l. }
    { rewrite Eh. apply Forall_forall. intros r Hr. by apply list_elem_of_filter in Hr as [[? _] _]. }
    cbv zeta in Hn'. fold nf in Hn'. pose proof (next_after_visible nf h Ll) as Hb. rewrite <- Eh in Hb.
    exists (to_be 8 e ++ concat (put_chunk_record <$> rs)), fin, f'. split; [by rewrite Er|].
    split; [by rewrite Ea|]. split; [|destruct fin; lia].
    assert (p_next_offset f' = Z.max nf h) as Enf by (destruct fin; subst; lia).
    constructor; try done; [lia|]. rewrite Enf, <- app_assoc in *. rewrite Eh in Hs'.
    destruct (decide (nf <= h)) as [Hle|Hgt].
    + rewrite Z.max_r by lia. by rewrite visible_concat in Hs' by (done || lia).
    + rewrite Z.max_l by lia. replace (visible nf h Ll) with (@nil record) in Hs'; [by rewrite app_nil_r in Hs'|].
      symmetry. apply visible_nil, Forall_forall. intros. lia.
  - intros l f e data fin _ Er. cbn in Er. injection Er as Er. unfold read_chunk in Er.
    assert (forall fuel c out, len out <= len (fst (read_chunk_loop fuel l c e SNAPSHOT_CHUNK_BYTES out))) as Hmono.
    { induction fuel as [|fuel IH]; intros c out; cbn [read_chunk_loop]; [cbn; lia|]. case_if; [|cbn; lia].
      destruct (read_records_raw _ _ _ _) as [[recs next] hwm]. case_if; [cbn; len_lia|].
      etransitivity; [|apply IH]. len_lia. }
    specialize (Hmono (S (Z.to_nat (e - p_next_offset f))) (p_next_offset f) (to_be 8 e)).
    destruct (read_chunk_loop _ _ _ _ _ _) as [out c]. injection Er as <- _. cbn [fst] in Hmono.
    rewrite to_be_len in Hmono. lia.
  - intros l f e [? ? [? ?] ? ? ?]. cbn. lia.
Qed.

(** C15: a lagging follower is caught up.  Let a leader hold a snapshot and a
    partition whose records (each of at most 16 KiB on disk) are [Ll], and let a
    follower in the same term hold the records [Lf] with next offset [n0].  The
    exchange of probe, chunks and answers ends after at most as many rounds as
    there are offsets missing, plus two; the follower then holds exactly the
    leader's records from [n0] to the snapshot's end on top of its own, its
    watermark has reached that end, and its Raft log starts at or after the
    snapshot. *)
Theorem snapshot_transfer_catches_up snap (l f : driver partition) tl tf Ll Lf envs :
  transferring (partition_rel Ll Lf (p_next_offset tf)) snap l f tl tf ->
  (forall n, calm_env (envs n)) ->
  let e := snapshot_end (ps_data snap) in
  exists l' f' tf',
    exchange (Z.to_nat (e - p_next_offset tf) + 2) l f envs = Some (l', f') /\
    d_transfer f' = Some tf' /\
    serves tf' (Lf ++ visible (p_next_offset tf) (p_next_offset tf') Ll) /\ e <= p_next_offset tf' /\
    ps_last_index snap <= rl_base_index (rs_log (d_state f')).
Proof.
  intros Ht Hc. cbv zeta.
  destruct (exchange_spec _ calm_env (Z.to_nat (snapshot_end (ps_data snap) - p_next_offset tf) + 2) snap l f tl tf envs Ht Hc)
    as (l' & f' & tf' & E & H1 & H2 & H3 & H4).
  { unfold rounds_left. cbn. destruct (_ !! _); lia. }
  exists l', f', tf'. split_and!; try done. apply H2.
Qed.
End PartitionTransfer.

(** ** Examples and witnesses *)

Section TransferWitness.
#[local] Existing Instance crc32_ieee_class.

Definition tw_leader_state : raft_state :=
  fst (on_message (fst (on_election_timeout (raft_new 1 [2] true))) (RequestVoteResp (mkRVR 1 true 2))).
Definition tw_follower_state : raft_state :=
  fst (on_message (raft_new 2 [1] true) (AppendEntries (mkAE 1 1 0 0 [] 0))).
Definition tw_snapshot : persisted_snapshot := mkSnapshot 1 1 (to_be 8 5).
Definition tw_leader : driver partition := mkDriver tw_leader_state (Some sample_partition) (Some tw_snapshot).
Definition tw_follower : driver partition := mkDriver tw_follower_state (Some (fresh_partition 100)) None.
Definition tw_envs (n : nat) : chunk_env := mkChunkEnv (Z.of_nat n) no_faults true.

Lemma tw_transferring :
  transferring (partition_rel (assign 0 0 sample_batch).1.2 [] 0) tw_snapshot tw_leader tw_follower
    sample_partition (fresh_partition 100).
Proof.
  assert (snapshot_end (to_be 8 5) = 5) as Ee by (vm_compute; reflexivity).
  constructor; cbn [tw_leader tw_follower d_state d_transfer d_snapshot].
  - vm_compute; reflexivity.
  - split; vm_compute; [reflexivity|split; congruence].
  - split; vm_compute; reflexivity.
  - split; vm_compute; reflexivity.
  - done.
  - split; [done|]. split; [done|]. vm_compute. split; congruence.
  - left. vm_compute; reflexivity.
  - constructor.
    + destruct sample_partition_wf as (init & s & rs & Hw & Hb & Hl). by exists init, s, rs.
    + repeat constructor; vm_compute; congruence.
    + cbn [ps_data tw_snapshot st_snapshot_end partition_transfer]. rewrite Ee. split; [lia|]. vm_compute. congruence.
    + cbn. lia.
    + exists [], (segment_open_empty 0), []. split_and!; [apply fresh_partition_wf|apply Z.le_refl|].
      vm_compute; reflexivity.
    + reflexivity.
Qed.

Lemma snapshot_transfer_catches_up_witness :
  exists l' f' tf', exchange 7 tw_leader tw_follower tw_envs = Some (l', f') /\ d_transfer f' = Some tf' /\
    serves tf' (visible 0 (p_next_offset tf') (assign 0 0 sample_batch).1.2) /\ 5 <= p_next_offset tf'.
Proof.
  destruct (snapshot_transfer_catches_up tw_snapshot tw_leader tw_follower sample_partition (fresh_partition 100)
    (assign 0 0 sample_batch).1.2 [] tw_envs tw_transferring) as (l' & f' & tf' & E & Ef & Hs & He & _).
  - intros n. split_and!; reflexivity.
  - exists l', f', tf'. split; [exact E|]. split; [exact Ef|]. split; [exact Hs|exact He].
Defined.

(** ** Where the size limit matters

    A chunk is filled by reads with what is left of its budget, and a read with a
    small budget buffers 16 KiB at a time: a larger record does not fit, the read
    returns nothing, and the cursor moves past every record that follows. *)

Definition large_record (o : Z) : record := mkRecord o 1 None (replicate (Z.to_nat 17000) x7a).
Definition large_partition : partition :=
  (append_batch (fresh_partition 1000000) (explicit <$> [large_record 0; large_record 1]) Policy 0 no_faults).2.

(** Two records of 17 kB; a chunk of 20 kB claims to be the last one and holds the
    first record only, and the follower that applies it reports the end of the
    snapshot as reached. *)
Example large_record_lost_in_transfer :
  let '(data, fin) := read_chunk large_partition 0 2 20000 in
  let '(res, f) := apply_chunk (fresh_partition 1000000) (tw_envs 0) data fin in
  p_next_offset large_partition = 2 /\ fin = true /\ res = Ok tt /\ p_next_offset f = 2 /\
  (read_records_raw f 0 10 1000000).1.1 = [large_record 0] /\
  (read_records_raw large_partition 0 10 1000000).1.1 = [large_record 0; large_record 1].
Proof. vm_compute. split_and!; reflexivity. Qed.

(** ** Chunks from outside the group

    The chunk is applied before the Raft state checks the sender. *)

Definition foreign_chunk : install_snapshot :=
  mkIS 5 9 1 1 0 false (to_be 8 1 ++ put_chunk_record (mkRecord 0 1 None [x66])).

(** Node 9 is not a member of the group; Raft ignores its message, but the
    partition has stored its record. *)
Example foreign_chunk_is_stored :
  let '(f, acts) := install_snapshot_msg tw_follower foreign_chunk (tw_envs 0) in
  is_member tw_follower_state 9 = false /\ d_state f = tw_follower_state /\ acts = [] /\
  match d_transfer f with
  | Some p => (read_records_raw p 0 10 1000).1.1 = [mkRecord 0 1 None [x66]]
  | None => False
  end.
Proof. vm_compute. split_and!; reflexivity. Qed.
End TransferWitness.
