(* ===== verification/Producers.v ===== *)
(** * Idempotent producers (crates/es-broker/src/producers.rs and the decision
    loop of crates/es-broker/src/dataplane.rs)

    Per-producer sequence windows, the registry with its ownership rules, its
    journal and its snapshot file.  The JSON files are modelled by the values they
    hold; a journal also by its unreadable lines. *)

From S2P Require Export RustStd.

#[local] Open Scope Z_scope.

Inductive dedupe_outcome : Type :=
| Accept
| Duplicate (prev_offset : Z)
| SequenceTooLow (last_seen : Z)
| Gap (expected got : Z).

Definition WINDOW : nat := 128.
Definition MAX_PRODUCERS : nat := Z.to_nat 100000.
Definition MAX_PRODUCERS_PER_KEY : Z := 10000.

Record partition_window : Type := mkWindow {
  pw_last_seen : Z; pw_last_offset : Z; pw_recent : list (Z * Z) }.

Definition default_window : partition_window := mkWindow 0 0 [].

Record producer_state : Type := mkProducer {
  pd_owner : string; pd_last_used : Z; pd_partitions : gmap (string * Z) partition_window }.

(** ** Sequence checks *)

Definition window_check (w : partition_window) (sequence : Z) : dedupe_outcome :=
  if sequence =? sat_add_i64 (pw_last_seen w) 1 then Accept
  else if pw_last_seen w <? sequence then Gap (sat_add_i64 (pw_last_seen w) 1) sequence
  else
    match list_find (fun p => fst p = sequence) (pw_recent w) with
    | Some (_, (_, off)) => Duplicate off
    | None =>
      if sequence =? pw_last_seen w then Duplicate (pw_last_offset w) else SequenceTooLow (pw_last_seen w)
    end.

(** [ProducerState::check]. *)
Definition check (st : producer_state) (topic : string) (part sequence : Z) : dedupe_outcome :=
  match pd_partitions st !! (topic, part) with
  | None => Accept
  | Some w => window_check w sequence
  end.

(** The loop [while recent.len() > WINDOW { recent.pop_front() }]. *)
Definition keep_last {A} (n : nat) (l : list A) : list A := drop (length l - n) l.

Definition window_record (w : partition_window) (sequence offset : Z) : partition_window :=
  let newer := match pw_recent w with [] => true | _ => pw_last_seen w <? sequence end in
  mkWindow (if newer then sequence else pw_last_seen w) (if newer then offset else pw_last_offset w)
    (keep_last WINDOW (pw_recent w ++ [(sequence, offset)])).

(** [ProducerState::record], at time [now]. *)
Definition record_seq (st : producer_state) (topic : string) (part sequence offset now : Z) : producer_state :=
  let w := default default_window (pd_partitions st !! (topic, part)) in
  mkProducer (pd_owner st) now (<[(topic, part) := window_record w sequence offset]> (pd_partitions st)).

Definition touch (st : producer_state) (now : Z) : producer_state :=
  mkProducer (pd_owner st) now (pd_partitions st).

(** ** The decision of a produce request

    [dataplane::produce] decides every record before it writes any: [None] is a
    refused request, otherwise each record is new ([None]) or a retry with the
    offset it was first written at. *)

Fixpoint decide_request (st : producer_state) (topic : string) (tentative : gmap Z Z) (reqs : list (Z * Z))
  : option (list (option Z)) :=
  match reqs with
  | [] => Some []
  | (p, seq) :: reqs' =>
    let outcome :=
      match tentative !! p with
      | Some prev => if seq =? prev + 1 then Some Accept else None
      | None => Some (check st topic p seq)
      end in
    match outcome with
    | Some Accept => cons None <$> decide_request st topic (<[p := seq]> tentative) reqs'
    | Some (Duplicate off) => cons (Some off) <$> decide_request st topic tentative reqs'
    | _ => None
    end
  end.

(** The written records partition by partition, in partition order. *)
Definition grouped (ws : list (Z * Z * Z)) : list (Z * Z * Z) :=
  sort_dedup ((fun w => fst (fst w)) <$> ws) ≫= fun p => filter (fun w => fst (fst w) = p) ws.

(** Recording the offsets of written records. *)
Definition record_written (st : producer_state) (topic : string) (now : Z) (ws : list (Z * Z * Z)) : producer_state :=
  fold_left (fun st w => match w with (p, seq, off) => record_seq st topic p seq off now end) (grouped ws) st.

(** ** The registry *)

Record journal_entry : Type := mkJournal {
  je_p : string; je_o : string; je_t : string; je_n : Z; je_s : Z; je_f : Z }.

(** A journal file: its lines ([None] for one that does not parse) and whether the
    last one lacks its newline. *)
Record journal_file : Type := mkJFile { jf_lines : list (option journal_entry); jf_torn : bool }.

Record registry : Type := mkRegistry {
  rg_state : gmap string producer_state;
  rg_per_owner : gmap string Z;
  rg_journal : option journal_file;      (* producers.journal *)
  rg_rotated : option journal_file;      (* producers.journal.old *)
  rg_snapshot : gmap string producer_state;   (* producers.json *)
  rg_dirty : bool }.

Definition bump (m : gmap string Z) (owner : string) (d : Z) : gmap string Z :=
  <[owner := Z.max 0 (default 0 (m !! owner) + d)]> m.

(** Appending lines after a torn one completes that line, which does not parse. *)
Definition jfile_append (f : journal_file) (es : list journal_entry) : journal_file :=
  match es with
  | [] => f
  | e :: es' =>
    if jf_torn f then mkJFile (take (length (jf_lines f) - 1) (jf_lines f) ++ None :: (Some <$> es')) false
    else mkJFile (jf_lines f ++ (Some <$> es)) false
  end.

(** One journal line applied by [replay]. *)
Definition replay_entry (now : Z) (r : gmap string producer_state * gmap string Z) (e : journal_entry)
  : gmap string producer_state * gmap string Z :=
  let (state, owners) := r in
  let (st, owners) :=
    match state !! je_p e with
    | Some st => (st, owners)
    | None => (mkProducer (je_o e) now ∅, bump owners (je_o e) 1)
    end in
  (<[je_p e := record_seq st (je_t e) (je_n e) (je_s e) (je_f e) now]> state, owners).

(** The lines [replay] reads: up to the first one that does not parse. *)
Fixpoint readable (ls : list (option journal_entry)) : list journal_entry :=
  match ls with Some e :: ls' => e :: readable ls' | _ => [] end.

Definition journal_entries (f : option journal_file) : list journal_entry :=
  match f with Some f => readable (jf_lines f) | None => [] end.

(** [ProducerRegistry::open] on the files of a registry: the snapshot, then the
    rotated journal, then the live one. *)
Definition registry_open (snapshot : gmap string producer_state) (rotated live : option journal_file) (now : Z)
  : registry :=
  let loaded := (fun st => if pd_last_used st =? 0 then touch st now else st) <$> snapshot in
  let owners := map_fold (fun _ st m => bump m (pd_owner st) 1) ∅ loaded in
  let es := journal_entries rotated ++ journal_entries live in
  let (state, owners) := fold_left (replay_entry now) es (loaded, owners) in
  mkRegistry state owners live rotated snapshot (match es with [] => false | _ => true end).

(** [ProducerRegistry::journal]. *)
Definition journal (r : registry) (producer_id owner : string) (entries : list (string * Z * Z * Z)) : registry :=
  match entries with
  | [] => r
  | _ =>
    let es := (fun x => match x with (t, n, s, f) => mkJournal producer_id owner t n s f end) <$> entries in
    mkRegistry (rg_state r) (rg_per_owner r)
      (Some (jfile_append (default (mkJFile [] false) (rg_journal r)) es)) (rg_rotated r) (rg_snapshot r) true
  end.

(** [flush] in two parts: the rotation, then the snapshot that makes the rotated
    journal redundant.  A crash can fall between them. *)
Definition flush_rotate (r : registry) : registry :=
  mkRegistry (rg_state r) (rg_per_owner r) None
    (match rg_journal r with Some j => Some j | None => rg_rotated r end) (rg_snapshot r) false.

Definition flush_snapshot (r : registry) : registry :=
  mkRegistry (rg_state r) (rg_per_owner r) (rg_journal r) None (rg_state r) (rg_dirty r).

Definition flush (r : registry) : registry := flush_snapshot (flush_rotate r).

(** A crash: the files are what is left. *)
Definition crash_open (r : registry) (now : Z) : registry :=
  registry_open (rg_snapshot r) (rg_rotated r) (rg_journal r) now.

Definition revoke (r : registry) (producer_id : string) : option registry :=
  match rg_state r !! producer_id with
  | None => None
  | Some st =>
    let owners :=
      match rg_per_owner r !! pd_owner st with Some _ => bump (rg_per_owner r) (pd_owner st) (-1) | None => rg_per_owner r end in
    Some (flush (mkRegistry (delete producer_id (rg_state r)) owners (rg_journal r) (rg_rotated r) (rg_snapshot r) true))
  end.

(** One producer of the [expire] sweep. *)
Definition expire_one (cutoff : Z) (r : registry) (id : string) : registry :=
  match rg_state r !! id with
  | None => r
  | Some st =>
    if pd_last_used st <? cutoff then
      let owners :=
        match rg_per_owner r !! pd_owner st with Some _ => bump (rg_per_owner r) (pd_owner st) (-1) | None => rg_per_owner r end in
      mkRegistry (delete id (rg_state r)) owners (rg_journal r) (rg_rotated r) (rg_snapshot r) true
    else r
  end.

Definition expire (r : registry) (now max_idle : Z) : registry :=
  fold_left (expire_one (sat_sub_i64 now (wrap_i 64 max_idle))) (fst <$> map_to_list (rg_state r)) r.

(** ** Admission *)

Inductive admit_error : Type := Invalid | Forbidden | Limit.

(** The slot of a producer: the existing one, or a new one claimed for [owner]. *)
Definition claim_slot (r : registry) (producer_id owner : string) (now : Z) : outcome admit_error (registry * producer_state) :=
  match rg_state r !! producer_id with
  | Some st => Ok (r, st)
  | None =>
    if (MAX_PRODUCERS <=? size (rg_state r))%nat then Err Limit
    else if MAX_PRODUCERS_PER_KEY <=? default 0 (rg_per_owner r !! owner) then Err Limit
    else
      let st := mkProducer owner now ∅ in
      Ok (mkRegistry (<[producer_id := st]> (rg_state r)) (bump (rg_per_owner r) owner 1)
            (rg_journal r) (rg_rotated r) (rg_snapshot r) (rg_dirty r), st)
  end.

(** [ProducerRegistry::admit]: the registry and the locked state. *)
Definition admit_producer (r : registry) (producer_id owner : string) (now : Z) : outcome admit_error (registry * producer_state) :=
  if negb (valid_name producer_id) then Err Invalid
  else
    '(r, st) ← claim_slot r producer_id owner now;
    let unowned := bool_decide (pd_owner st = ""%string) in
    let st := if unowned then mkProducer owner (pd_last_used st) (pd_partitions st) else st in
    let owners := if unowned then bump (rg_per_owner r) owner 1 else rg_per_owner r in
    if bool_decide (pd_owner st = owner) then
      let st := touch st now in
      Ok (mkRegistry (<[producer_id := st]> (rg_state r)) owners (rg_journal r) (rg_rotated r)
            (rg_snapshot r) (rg_dirty r), st)
    else Err Forbidden.

(** ** Windows *)

(** Remembered sequences do not exceed the last one seen. *)
Definition window_ok (w : partition_window) : Prop := Forall (fun p => fst p <= pw_last_seen w) (pw_recent w).

Definition producer_windows_ok (st : producer_state) : Prop := map_Forall (fun _ w => window_ok w) (pd_partitions st).

(** The next sequence [s0] is new to the window. *)
Definition fresh_for (w : partition_window) (s0 : Z) : Prop := pw_recent w = [] \/ pw_last_seen w < s0.

Fixpoint consec (s : Z) (l : list (Z * Z)) : Prop :=
  match l with [] => True | (s', _) :: l' => s' = s /\ consec (s + 1) l' end.

Definition record_all (w : partition_window) (ws : list (Z * Z)) : partition_window :=
  fold_left (fun w p => window_record w (fst p) (snd p)) ws w.

Lemma keep_last_short {A} n (l : list A) : (length l <= n)%nat -> keep_last n l = l.
Proof. intros H. unfold keep_last. by replace (length l - n)%nat with 0%nat by lia. Qed.

Lemma keep_last_app {A} n (l k : list A) : keep_last n (keep_last n l ++ k) = keep_last n (l ++ k).
Proof.
  destruct (decide (length l <= n)%nat) as [Hl|Hl]; [by rewrite (keep_last_short n l)|].
  assert (exists a b, l = a ++ b /\ length b = n) as (a & b & -> & Hb).
  { exists (take (length l - n) l), (drop (length l - n) l). rewrite take_drop, length_drop. split; [done|lia]. }
  assert (keep_last n (a ++ b) = b) as -> by (unfold keep_last; rewrite length_app; apply drop_app_len; lia).
  unfold keep_last. rewrite <- app_assoc, (drop_app_ge a) by (rewrite !length_app; lia).
  f_equal. rewrite !length_app. lia.
Qed.

(** What is kept ends with the newest elements. *)
Lemma keep_last_suffix {A} n (l k : list A) :
  (length k <= n)%nat -> exists l', keep_last n (l ++ k) = l' ++ k /\ forall x, x ∈ l' -> x ∈ l.
Proof.
  intros Hk. unfold keep_last. rewrite length_app.
  exists (drop (length l + length k - n) l). split.
  - apply drop_app_le. lia.
  - intros x Hx. rewrite <- (take_drop (length l + length k - n) l). apply elem_of_app. by right.
Qed.

Lemma window_record_ok w s o : window_ok w -> window_ok (window_record w s o).
Proof.
  intros Hw. unfold window_ok, window_record in *. cbn [pw_recent pw_last_seen]. unfold keep_last. apply Forall_drop.
  apply Forall_app. rewrite Forall_singleton. destruct (pw_recent w) as [|p r] eqn:E; cbn [fst].
  - split; [done|lia].
  - destruct (pw_last_seen w <? s) eqn:El; boolp; split; try lia; [|done].
    rewrite Forall_forall in Hw |- *. intros x Hx. specialize (Hw x Hx). cbn in Hw. lia.
Qed.

(** Recording new consecutive sequences: the window ends with them. *)
Lemma record_all_spec w ws s0 :
  window_ok w -> fresh_for w s0 -> consec s0 ws -> ws <> [] ->
  pw_last_seen (record_all w ws) = s0 + len ws - 1 /\
  pw_recent (record_all w ws) = keep_last WINDOW (pw_recent w ++ ws).
Proof.
  revert w s0. induction ws as [|[s o] ws IH]; intros w s0 Hw Hf Hc Hne; [done|].
  destruct Hc as [-> Hc]. unfold record_all. cbn [fold_left fst snd].
  change (fold_left _ ws ?x) with (record_all x ws). set (w' := window_record w s0 o).
  assert (pw_last_seen w' = s0 /\ pw_recent w' = keep_last WINDOW (pw_recent w ++ [(s0, o)])) as [Hl Hr].
  { split; [|done]. unfold w', window_record. cbn. destruct Hf as [->|Hf]; [done|].
    destruct (pw_recent w); [done|]. by rewrite (proj2 (Z.ltb_lt _ _)). }
  destruct ws as [|p ws].
  - cbn [record_all fold_left]. rewrite Hl, Hr. split; [unfold len; cbn; lia|done].
  - destruct (IH w' (s0 + 1)) as [H1 H2]; [by apply window_record_ok|right; lia|done|done|].
    split; [rewrite H1; unfold len; cbn; lia|]. rewrite H2, Hr, keep_last_app. by rewrite <- app_assoc.
Qed.

Lemma consec_lookup s0 ws i s o : consec s0 ws -> ws !! i = Some (s, o) -> s = s0 + Z.of_nat i.
Proof.
  revert s0 i. induction ws as [|[s' o'] ws IH]; intros s0 [|i]; cbn; [done..| |].
  - intros [-> _] [= -> ->]. lia.
  - intros [_ Hc] Hi. rewrite (IH _ _ Hc Hi). lia.
Qed.

(** A sequence just recorded is recognised, with its offset. *)
Lemma record_all_check w ws s0 i s o :
  window_ok w -> fresh_for w s0 -> consec s0 ws -> (length ws <= WINDOW)%nat -> s0 + len ws <= I64_MAX ->
  ws !! i = Some (s, o) -> window_check (record_all w ws) s = Duplicate o.
Proof.
  intros Hw Hf Hc Hn Hmax Hi. pose proof (consec_lookup _ _ _ _ _ Hc Hi) as Hs.
  pose proof (lookup_lt_Some _ _ _ Hi) as Hlt.
  destruct (record_all_spec w ws s0) as [Hl Hr]; [done..|by intros ->|]. unfold len in *.
  unfold window_check. rewrite Hl. unfold sat_add_i64.
  rewrite (proj2 (Z.eqb_neq _ _)) by (unfold I64_MIN, I64_MAX in *; lia). rewrite (proj2 (Z.ltb_ge _ _)) by lia.
  destruct (keep_last_suffix WINDOW (pw_recent w) ws Hn) as (l' & Hk & Hl'). rewrite Hr, Hk.
  assert (list_find (fun p : Z * Z => fst p = s) (l' ++ ws) = Some (length l' + i, (s, o))%nat) as ->; [|done].
  apply list_find_Some. split_and!.
  - rewrite lookup_app_r by lia. by replace (length l' + i - length l')%nat with i by lia.
  - done.
  - intros j [s' o'] Hj Hlj Heq. cbn in Heq. subst s'.
    destruct (decide (j < length l')%nat) as [Hjl|Hjl].
    + rewrite lookup_app_l in Hj by done. apply list_elem_of_lookup_2, Hl' in Hj.
      unfold window_ok in Hw. rewrite Forall_forall in Hw. specialize (Hw _ Hj). cbn in Hw.
      destruct Hf as [Hf|Hf]; [rewrite Hf in Hj; by apply elem_of_nil in Hj|lia].
    + rewrite lookup_app_r in Hj by lia. pose proof (consec_lookup _ _ _ _ _ Hc Hj). lia.
Qed.

(** ** Requests *)

(** The written records, and those of one partition. *)
Definition written (reqs : list (Z * Z)) (offs : list Z) : list (Z * Z * Z) :=
  zip_with (fun r o => (fst r, snd r, o)) reqs offs.

Definition of_partition (p : Z) (ws : list (Z * Z * Z)) : list (Z * Z) :=
  omap (fun w => match w with (q, s, o) => if q =? p then Some (s, o) else None end) ws.

Lemma of_partition_cons p q s o ws :
  of_partition p ((q, s, o) :: ws) = if q =? p then (s, o) :: of_partition p ws else of_partition p ws.
Proof. unfold of_partition. cbn. by destruct (q =? p). Qed.

Lemma of_partition_app p ws ws' : of_partition p (ws ++ ws') = of_partition p ws ++ of_partition p ws'.
Proof. apply omap_app. Qed.

Lemma of_partition_filter p q ws :
  of_partition p (filter (fun w => fst (fst w) = q) ws) = if q =? p then of_partition p ws else [].
Proof.
  induction ws as [|[[r s] o] ws IH]; [by destruct (q =? p)|].
  destruct (decide (r = q)) as [->|Hne].
  - rewrite filter_cons_True by done. rewrite !of_partition_cons, IH. by destruct (q =? p).
  - rewrite filter_cons_False by done. rewrite IH, of_partition_cons.
    destruct (Z.eqb_spec q p) as [->|]; [|done]. by rewrite (proj2 (Z.eqb_neq _ _)).
Qed.

Lemma of_partition_none p ws : p ∉ ((fun w => fst (fst w)) <$> ws) -> of_partition p ws = [].
Proof.
  induction ws as [|[[r s] o] ws IH]; cbn [fmap list_fmap fst]; intros H; [done|].
  apply not_elem_of_cons in H as [H1 H2]. rewrite of_partition_cons, (proj2 (Z.eqb_neq _ _)) by congruence. by apply IH.
Qed.

(** Grouping keeps the order within a partition. *)
Lemma of_partition_grouped p ws : of_partition p (grouped ws) = of_partition p ws.
Proof.
  unfold grouped. set (ps := sort_dedup _).
  assert (of_partition p (ps ≫= fun q => filter (fun w => fst (fst w) = q) ws) =
    if bool_decide (p ∈ ps) then of_partition p ws else []) as ->.
  { pose proof (sort_dedup_nodup ((fun w => fst (fst w)) <$> ws)) as Hnd. fold ps in Hnd. clearbody ps.
    induction ps as [|q ps IH]; [done|]. apply NoDup_cons in Hnd as [Hq Hnd]. cbn [mbind list_bind].
    rewrite of_partition_app, of_partition_filter, IH by done.
    destruct (Z.eqb_spec q p) as [->|Hne].
    - rewrite (bool_decide_false (p ∈ ps)), bool_decide_true by (done || by left). apply app_nil_r.
    - cbn [app]. rewrite (bool_decide_ext (p ∈ q :: ps) (p ∈ ps)); [done|]. rewrite elem_of_cons. naive_solver. }
  case_bool_decide as Hp; [done|]. symmetry. apply of_partition_none. intros H. apply Hp. by apply sort_dedup_elem.
Qed.

Lemma record_fold_lookup st topic now ws p :
  pd_partitions (fold_left (fun st w => match w with (p, seq, off) => record_seq st topic p seq off now end) ws st)
    !! (topic, p) =
    match of_partition p ws with
    | [] => pd_partitions st !! (topic, p)
    | sub => Some (record_all (default default_window (pd_partitions st !! (topic, p))) sub)
    end.
Proof.
  revert st. induction ws as [|[[q s] o] ws IH]; intros st; [done|]. cbn [fold_left].
  rewrite IH, of_partition_cons. cbn [record_seq pd_partitions]. destruct (Z.eqb_spec q p) as [->|Hne].
  - rewrite lookup_insert_eq. by destruct (of_partition p ws).
  - by rewrite lookup_insert_ne by congruence.
Qed.

Lemma record_written_lookup st topic now ws p :
  pd_partitions (record_written st topic now ws) !! (topic, p) =
    match of_partition p ws with
    | [] => pd_partitions st !! (topic, p)
    | sub => Some (record_all (default default_window (pd_partitions st !! (topic, p))) sub)
    end.
Proof. unfold record_written. by rewrite record_fold_lookup, of_partition_grouped. Qed.

(** When a request is accepted, the sequences of each partition are consecutive
    and continue what came before. *)
Lemma decide_consec st topic tent reqs offs p :
  decide_request st topic tent reqs = Some (replicate (length reqs) None) -> length offs = length reqs ->
  match of_partition p (written reqs offs) with
  | [] => True
  | ((s0, _) :: _) as sub => consec s0 sub /\
      match tent !! p with Some prev => s0 = prev + 1 | None => check st topic p s0 = Accept end
  end.
Proof.
  revert tent offs. induction reqs as [|[q s] reqs IH]; intros tent offs Hd Hl; [done|].
  destruct offs as [|o offs]; [done|]. cbn [length replicate] in *. injection Hl as Hl.
  cbn [decide_request] in Hd. unfold written. cbn [zip_with fst snd].
  fold (written reqs offs). rewrite of_partition_cons.
  set (out := match tent !! q with Some prev => _ | None => _ end) in Hd.
  assert (out = Some Accept /\ decide_request st topic (<[q := s]> tent) reqs = Some (replicate (length reqs) None))
    as [Ho Hr].
  { destruct out as [[| | |]|]; try done.
    - destruct (decide_request _ _ (<[q:=s]> tent) reqs) as [l|]; [|done]. cbn in Hd. by simplify_eq.
    - by destruct (decide_request _ _ tent reqs). }
  specialize (IH _ _ Hr Hl). destruct (Z.eqb_spec q p) as [->|Hne].
  - rewrite lookup_insert_eq in IH. split.
    + split; [done|]. destruct (of_partition p (written reqs offs)) as [|[s1 o1] sub]; [done|].
      destruct IH as [Hc Hs]. by rewrite <- Hs.
    + unfold out in Ho. destruct (tent !! p) as [prev|]; [|congruence].
      destruct (Z.eqb_spec s (prev + 1)); [done|congruence].
  - by rewrite lookup_insert_ne in IH by done.
Qed.

(** A request all of whose records are retries is answered from the window. *)
Lemma decide_duplicates st topic reqs offs :
  length offs = length reqs ->
  (forall i p s o, reqs !! i = Some (p, s) -> offs !! i = Some o -> check st topic p s = Duplicate o) ->
  decide_request st topic ∅ reqs = Some (Some <$> offs).
Proof.
  revert offs. induction reqs as [|[p s] reqs IH]; intros offs Hl Hd; destruct offs as [|o offs]; try done.
  cbn [decide_request]. rewrite lookup_empty, (Hd 0%nat p s o) by done.
  rewrite (IH offs); [done|by injection Hl|]. intros i. apply (Hd (S i)).
Qed.

Lemma of_partition_elem reqs offs i p s o :
  reqs !! i = Some (p, s) -> offs !! i = Some o -> (s, o) ∈ of_partition p (written reqs offs).
Proof.
  intros Hr Ho. apply list_elem_of_omap. exists (p, s, o). split; [|by rewrite Z.eqb_refl].
  apply list_elem_of_lookup. exists i. unfold written. by rewrite lookup_zip_with, Hr, Ho.
Qed.

Lemma of_partition_bound reqs offs p s o :
  (s, o) ∈ of_partition p (written reqs offs) -> (p, s) ∈ reqs.
Proof.
  intros H. apply list_elem_of_omap in H as ([[q s'] o'] & Hin & Hq). case_match eqn:E; [|done]. boolp. simplify_eq.
  apply list_elem_of_lookup in Hin as [i Hi]. unfold written in Hi. rewrite lookup_zip_with in Hi.
  destruct (reqs !! i) as [[q s2]|] eqn:Er; [|done]. destruct (offs !! i); [|done]. cbn in Hi. simplify_eq.
  by apply list_elem_of_lookup_2 in Er.
Qed.

(** After the offsets of a request that was all new were recorded, in any order of
    its partitions, the same request is recognised. *)
Lemma recorded_is_duplicate st st' topic reqs offs :
  producer_windows_ok st -> length offs = length reqs ->
  decide_request st topic ∅ reqs = Some (replicate (length reqs) None) ->
  (forall p s, (p, s) ∈ reqs -> 0 <= s < I64_MAX) ->
  (forall p, length (of_partition p (written reqs offs)) <= WINDOW)%nat ->
  (forall p, pd_partitions st' !! (topic, p) =
    match of_partition p (written reqs offs) with
    | [] => pd_partitions st !! (topic, p)
    | sub => Some (record_all (default default_window (pd_partitions st !! (topic, p))) sub)
    end) ->
  decide_request st' topic ∅ reqs = Some (Some <$> offs).
Proof.
  intros Hok Hlen Hd Hmax Hwin Hst'. apply decide_duplicates; [done|]. intros i p s o Hr Ho.
  pose proof (of_partition_elem _ _ _ _ _ _ Hr Ho) as Hin.
  pose proof (decide_consec st topic ∅ reqs offs p Hd Hlen) as Hc.
  assert (forall s' o', (s', o') ∈ of_partition p (written reqs offs) -> 0 <= s' < I64_MAX) as Hb.
  { intros s' o' H. apply of_partition_bound in H. by eapply Hmax. }
  specialize (Hwin p). unfold check. rewrite Hst'.
  destruct (of_partition p (written reqs offs)) as [|[s0 o0] sub] eqn:Esub; [by apply elem_of_nil in Hin|].
  rewrite lookup_empty in Hc. destruct Hc as [Hc Hacc]. set (ws := (s0, o0) :: sub) in *.
  set (w := default default_window (pd_partitions st !! (topic, p))).
  assert (window_ok w /\ fresh_for w s0) as [Hw Hf].
  { unfold w, check in *. destruct (pd_partitions st !! (topic, p)) as [w0|] eqn:E; cbn.
    - split; [by apply Hok in E|]. right. unfold window_check, sat_add_i64 in Hacc.
      specialize (Hb s0 o0 ltac:(left)). case_if_in Hacc; [unfold I64_MAX, I64_MIN in *; lia|].
      case_if_in Hacc; [done|]. repeat case_match; done.
    - split; [constructor|by left]. }
  apply list_elem_of_lookup in Hin as [j Hj]. eapply record_all_check; [done..| |exact Hj].
  assert (is_Some (ws !! (length ws - 1)%nat)) as [[s1 o1] Hlast] by (apply lookup_lt_is_Some_2; cbn; lia).
  pose proof (consec_lookup _ _ _ _ _ Hc Hlast) as Hs1. apply list_elem_of_lookup_2, Hb in Hlast.
  assert (1 <= length ws)%nat by (cbn; lia). unfold len. lia.
Qed.

(** ** Properties *)

(** A retried request is recognised record by record.  When a request was
    accepted as new (every record of it), and its offsets were recorded, sending
    the same request again writes nothing: every record is answered with the
    offset it was first written at.  This holds for any mix of partitions, as long
    as the request has at most [WINDOW] records per partition and its sequences
    stay below the largest [i64]. *)
Theorem retry_is_duplicate st topic now reqs offs :
  producer_windows_ok st -> length offs = length reqs ->
  decide_request st topic ∅ reqs = Some (replicate (length reqs) None) ->
  (forall p s, (p, s) ∈ reqs -> 0 <= s < I64_MAX) ->
  (forall p, length (of_partition p (written reqs offs)) <= WINDOW)%nat ->
  decide_request (record_written st topic now (written reqs offs)) topic ∅ reqs = Some (Some <$> offs).
Proof.
  intros. eapply (recorded_is_duplicate st); [done..|]. intros p. apply record_written_lookup.
Qed.

Definition sample_producer : producer_state := mkProducer "k" 0 ∅.

Lemma retry_is_duplicate_witness :
  decide_request (record_written sample_producer "t" 5 (written [(0, 7); (1, 3); (0, 8)] [100; 40; 101]))
    "t" ∅ [(0, 7); (1, 3); (0, 8)] = Some [Some 100; Some 40; Some 101].
Proof.
  apply (retry_is_duplicate sample_producer "t" 5 [(0, 7); (1, 3); (0, 8)] [100; 40; 101]).
  - intros k w Hw. vm_compute in Hw. discriminate.
  - reflexivity.
  - vm_compute. reflexivity.
  - intros p s H. rewrite !elem_of_cons, elem_of_nil in H. unfold I64_MAX.
    destruct H as [H|[H|[H|[]]]]; injection H as -> ->; lia.
  - intros p. unfold written, WINDOW. cbn [zip_with fst snd]. rewrite !of_partition_cons.
    destruct (0 =? p), (1 =? p); cbn; lia.
Defined.

(** ** Limits of the bookkeeping *)

(** A batch larger than the window is not recognised on retry: the oldest records
    are below what is remembered and the request is refused. *)
Example retry_beyond_window_refused :
  let reqs := (fun i => (0, Z.of_nat i)) <$> seq 0 129 in
  let offs := (fun i => Z.of_nat i) <$> seq 0 129 in
  decide_request (record_written sample_producer "t" 5 (written reqs offs)) "t" ∅ reqs = None.
Proof. vm_compute. reflexivity. Qed.

(** The largest sequence is accepted again and again. *)
Example largest_sequence_accepted_twice :
  let st := record_seq sample_producer "t" 0 I64_MAX 9 5 in check st "t" 0 I64_MAX = Accept.
Proof. vm_compute. reflexivity. Qed.

(** Two crashes, each between the rotation and the snapshot of a flush, lose the
    entries of the first journal: the second rotation replaces the only file that
    held them.  A record journaled before the first crash is accepted again. *)
Theorem double_crash_loses_journal r j es now now' p o :
  rg_journal r = Some j -> es <> [] ->
  let r1 := crash_open (flush_rotate r) now in
  let r2 := flush_rotate (journal r1 p o es) in
  let r3 := crash_open r2 now' in
  rg_snapshot r3 = rg_snapshot r /\
  journal_entries (rg_rotated r3) ++ journal_entries (rg_journal r3) =
    (fun x => match x with (t, n, s, f) => mkJournal p o t n s f end) <$> es.
Proof.
  intros Hj Hes. cbn zeta. unfold crash_open, registry_open, flush_rotate. rewrite Hj. cbn.
  destruct (fold_left _ _ _) as [st ow]. destruct es as [|[[[t n] s] f] es]; [done|]. cbn.
  destruct (fold_left _ _ _) as [st' ow']. cbn. split; [done|]. rewrite app_nil_r. f_equal.
  clear. induction es as [|[[[t' n'] s'] f'] es IH]; cbn; [done|]. by rewrite IH.
Qed.

(** Entries appended after a torn line are not replayed. *)
Theorem torn_line_hides_later_entries ls es :
  Forall (fun l => l <> None) ls -> es <> [] ->
  readable (jf_lines (jfile_append (mkJFile (ls ++ [None]) true) es)) = omap id ls.
Proof.
  intros Hls Hes. destruct es as [|e es]; [done|]. cbn [jfile_append jf_torn jf_lines].
  rewrite take_app_len by (rewrite length_app; cbn; lia).
  induction Hls as [|l ls Hl _ IH]; cbn; [done|]. destruct l as [e'|]; [|done]. cbn. f_equal. apply IH.
Qed.
