(* ===== verification/Coord.v ===== *)
(** * Consumer-group coordinator (crates/es-broker/src/coord.rs)

    Membership, heartbeats and the sticky partition assignment.  The [BTreeMap]s
    keyed by member id are association lists in key order, because the code
    iterates them in that order. *)

From S2P Require Export RustStd.

#[local] Open Scope Z_scope.

Definition MAX_TOPICS_PER_MEMBER : Z := 100.
Definition MAX_GROUPS : Z := 100000.
Definition MAX_MEMBERS_PER_GROUP : Z := 1000.

(** A (topic, partition) pair and its order. *)
Definition tp : Type := (string * Z)%type.

Definition tp_leb (a b : tp) : bool :=
  match String.compare (fst a) (fst b) with Lt => true | Eq => snd a <=? snd b | Gt => false end.
Definition tp_le (a b : tp) : Prop := tp_leb a b = true.
#[global] Instance tp_le_dec : RelDecision tp_le.
Proof. intros a b. unfold tp_le. apply _. Defined.

Record member : Type := mkMember {
  m_id : string; m_topics : list string; m_last_heartbeat : Z; m_owner : string }.

Record group_state : Type := mkGroup {
  gs_generation : Z;
  gs_members : list (string * member);
  gs_assignment : list (string * list tp) }.

Definition default_group : group_state := mkGroup 0 [] [].

(** ** Association lists in key order *)

Section Assoc.
Context {A : Type}.
Implicit Types l : list (string * A).

Fixpoint aget l (k : string) : option A :=
  match l with [] => None | (k', a) :: l' => if bool_decide (k' = k) then Some a else aget l' k end.

(** [BTreeMap::insert] of a new or an existing key. *)
Fixpoint ainsert l (k : string) (a : A) : list (string * A) :=
  match l with
  | [] => [(k, a)]
  | (k', a') :: l' =>
    match String.compare k k' with
    | Lt => (k, a) :: l
    | Eq => (k, a) :: l'
    | Gt => (k', a') :: ainsert l' k a
    end
  end.

Definition aremove l (k : string) : list (string * A) := filter (fun p => fst p <> k) l.

(** [get_mut(k)] applied to [f]. *)
Definition aupdate (f : A -> A) (k : string) l : list (string * A) :=
  (fun p => if bool_decide (fst p = k) then (fst p, f (snd p)) else p) <$> l.
End Assoc.

(** ** Assignment *)

(** [broker.topic(t)], by the partition ids of the topic. *)
Definition topics : Type := string -> option (list Z).

Definition all_partitions (broker : topics) (members : list (string * member)) : list tp :=
  merge_sort tp_le (remove_dups
    (members ≫= fun p => m_topics (snd p) ≫= fun t => (fun i => (t, i)) <$> default [] (broker t))).

(** [total.div_ceil(m_count)]. *)
Definition target_max (total m_count : Z) : Z := (total + m_count - 1) / m_count.

(** The bucket a previous owner keeps. *)
Fixpoint sticky_bucket (all : list tp) (ts : list string) (max : Z) (bucket parts : list tp) : list tp :=
  match parts with
  | [] => bucket
  | x :: parts' =>
    if bool_decide (x ∈ all) && bool_decide (fst x ∈ ts) && (len bucket <? max)
    then sticky_bucket all ts max (bucket ++ [x]) parts'
    else sticky_bucket all ts max bucket parts'
  end.

(** Pass 1 for one previous owner; every owner occurs once, so its bucket starts
    empty. *)
Definition sticky_step (all : list tp) (members : list (string * member)) (max : Z)
    (current : list (string * list tp)) (prev : string * list tp) : list (string * list tp) :=
  match aget members (fst prev) with
  | None => current
  | Some m => aupdate (fun bucket => sticky_bucket all (m_topics m) max bucket (snd prev)) (fst prev) current
  end.

(** The least-loaded subscribed member below the cap; the first one on a tie. *)
Fixpoint best_member (members : list (string * member)) (current : list (string * list tp)) (x : tp) (max : Z)
    (best : option (string * Z)) : option (string * Z) :=
  match members with
  | [] => best
  | (mid, m) :: members' =>
    let load := len (default [] (aget current mid)) in
    let better := match best with None => true | Some (_, best_load) => load <? best_load end in
    if bool_decide (fst x ∈ m_topics m) && ((load <? max) && better)
    then best_member members' current x max (Some (mid, load))
    else best_member members' current x max best
  end.

Definition orphan_step (members : list (string * member)) (max : Z) (current : list (string * list tp)) (x : tp)
  : list (string * list tp) :=
  match best_member members current x max None with
  | Some (mid, _) => aupdate (fun bucket => bucket ++ [x]) mid current
  | None => current
  end.

Definition owned (c : list (string * list tp)) : list tp := c ≫= snd.

Definition recompute_assignment (broker : topics) (g : group_state) : group_state :=
  match gs_members g with
  | [] => mkGroup (gs_generation g + 1) [] []
  | members =>
    let all := all_partitions broker members in
    let max := target_max (len all) (len members) in
    let current := (fun p => (fst p, [])) <$> members in
    let current := fold_left (sticky_step all members max) (gs_assignment g) current in
    let orphans := filter (fun x => x ∉ owned current) all in
    let current := fold_left (orphan_step members max) orphans current in
    mkGroup (gs_generation g + 1) members ((fun p => (fst p, merge_sort tp_le (snd p))) <$> current)
  end.

(** ** Group operations *)

(** The caller: its key id and whether it is a global admin. *)
Record caller : Type := mkCaller { cl_key_id : string; cl_admin : bool }.

Inductive coord_error : Type := BadRequest | CoordForbidden | CoordLimit | TopicNotFound.

Definition may_act (key : caller) (m : member) : bool :=
  bool_decide (m_owner m = cl_key_id key) || cl_admin key.

Definition validate_group_name (name : string) : bool :=
  valid_name name && negb (bool_decide (name = "."%string)) && negb (bool_decide (name = ".."%string)).

(** The part of [join] under the group's lock: the member limit, the ownership
    check, the insertion and the rebalance. *)
Definition join_locked (broker : topics) (g : group_state) (key : caller) (mid : string) (ts : list string) (now : Z)
  : outcome coord_error group_state :=
  match aget (gs_members g) mid with
  | None =>
    if MAX_MEMBERS_PER_GROUP <=? len (gs_members g) then Err CoordLimit
    else
      Ok (recompute_assignment broker
            (mkGroup (gs_generation g) (ainsert (gs_members g) mid (mkMember mid ts now (cl_key_id key)))
               (gs_assignment g)))
  | Some m =>
    if negb (may_act key m) then Err CoordForbidden
    else
      let g' := mkGroup (gs_generation g)
                  (aupdate (fun m => mkMember (m_id m) ts now (m_owner m)) mid (gs_members g)) (gs_assignment g) in
      Ok (if bool_decide (m_topics m = ts) then g' else recompute_assignment broker g')
  end.

(** [GroupCoordinator::join].  [generated] is the id the coordinator would pick,
    [authorized] the answer of the group registry. *)
Definition join (broker : topics) (c : gmap string group_state) (group : string) (key : caller)
    (member_id : option string) (generated : string) (ts : list string) (authorized : bool) (now : Z)
  : outcome coord_error (gmap string group_state * string) :=
  let mid := match member_id with
             | Some s => if bool_decide (s = ""%string) then generated else s
             | None => generated
             end in
  if negb (validate_group_name group) then Err BadRequest
  else if negb (valid_name mid) then Err BadRequest
  else if bool_decide (ts = []) then Err BadRequest
  else
    let ts := merge_sort string_le (remove_dups ts) in
    if MAX_TOPICS_PER_MEMBER <? len ts then Err BadRequest
    else if negb (forallb (fun t => bool_decide (is_Some (broker t))) ts) then Err TopicNotFound
    else if negb authorized then Err CoordForbidden
    else if bool_decide (c !! group = None) && (MAX_GROUPS <=? Z.of_nat (size c)) then Err CoordLimit
    else
      match join_locked broker (default default_group (c !! group)) key mid ts now with
      | Ok g => Ok (<[group := g]> c, mid)
      | Err e => Err e
      | Panic => Panic
      end.

Inductive heartbeat_reply : Type :=
| HbOk (generation : Z)
| RebalanceRequired (current_generation : Z)
| UnknownMember (current_generation : Z).

Definition heartbeat (c : gmap string group_state) (group : string) (key : caller) (mid : string) (generation now : Z)
  : outcome coord_error (gmap string group_state * heartbeat_reply) :=
  match c !! group with
  | None => Ok (c, UnknownMember 0)
  | Some g =>
    match aget (gs_members g) mid with
    | None => Ok (c, UnknownMember (gs_generation g))
    | Some m =>
      if negb (may_act key m) then Err CoordForbidden
      else
        let g' := mkGroup (gs_generation g)
                    (aupdate (fun m => mkMember (m_id m) (m_topics m) now (m_owner m)) mid (gs_members g))
                    (gs_assignment g) in
        Ok (<[group := g']> c,
            if generation =? gs_generation g then HbOk (gs_generation g) else RebalanceRequired (gs_generation g))
    end
  end.

Definition leave (broker : topics) (c : gmap string group_state) (group : string) (key : caller) (mid : string)
  : outcome coord_error (gmap string group_state) :=
  match c !! group with
  | None => Ok c
  | Some g =>
    match aget (gs_members g) mid with
    | None => Ok c
    | Some m =>
      if negb (may_act key m) then Err CoordForbidden
      else Ok (<[group := recompute_assignment broker
                  (mkGroup (gs_generation g) (aremove (gs_members g) mid) (gs_assignment g))]> c)
    end
  end.

(** The sweep of one group by [expire_stale]. *)
Definition expire_group (broker : topics) (now timeout : Z) (g : group_state) : group_state :=
  let stale := filter (fun p => timeout < now - m_last_heartbeat (snd p)) (gs_members g) in
  match stale with
  | [] => g
  | _ =>
    recompute_assignment broker
      (mkGroup (gs_generation g) (fold_left (fun ms p => aremove ms (fst p)) stale (gs_members g)) (gs_assignment g))
  end.

Definition expire_stale (broker : topics) (now timeout : Z) (c : gmap string group_state) : gmap string group_state :=
  expire_group broker now timeout <$> c.

(** ** Lemmas: association lists *)

Section AssocFacts.
Context {A : Type}.
Implicit Types l : list (string * A).

Lemma aget_elem l k a : aget l k = Some a -> (k, a) ∈ l.
Proof.
  induction l as [|[k' a'] l IH]; cbn; [done|]. case_bool_decide; [|by right; apply IH].
  intros [= ->]. subst. left.
Qed.

Lemma elem_aget l k a : NoDup (fst <$> l) -> (k, a) ∈ l -> aget l k = Some a.
Proof.
  induction l as [|[k' a'] l IH]; cbn; intros Hnd Hin; [by apply elem_of_nil in Hin|].
  apply NoDup_cons in Hnd as [Hk Hnd]. apply elem_of_cons in Hin as [E|Hin].
  - injection E as -> ->. by rewrite bool_decide_true.
  - rewrite bool_decide_false; [by apply IH|]. intros ->. apply Hk. apply list_elem_of_fmap. by exists (k, a).
Qed.

Lemma aget_key l k : k ∈ fst <$> l -> is_Some (aget l k).
Proof.
  induction l as [|[k' a'] l IH]; cbn; intros H; [by apply elem_of_nil in H|]. case_bool_decide; [done|].
  apply elem_of_cons in H as [H|H]; [by subst|by apply IH].
Qed.

Lemma aupdate_keys f k l : fst <$> aupdate (A:=A) f k l = fst <$> l.
Proof. unfold aupdate. induction l as [|[k' a'] l IH]; cbn; [done|]. rewrite IH. by case_bool_decide. Qed.

Lemma aupdate_elem f k l k' a' :
  (k', a') ∈ aupdate (A:=A) f k l -> (k' <> k /\ (k', a') ∈ l) \/ (k' = k /\ exists a, (k, a) ∈ l /\ a' = f a).
Proof.
  intros H. apply list_elem_of_fmap in H as ([k0 a0] & E & Hin). cbn in E. case_bool_decide; simplify_eq; eauto.
Qed.
End AssocFacts.

(** ** Lemmas: buckets *)

Lemma owned_app c d : owned (c ++ d) = owned c ++ owned d.
Proof. apply bind_app. Qed.

Lemma owned_elem c x : x ∈ owned c <-> exists k b, (k, b) ∈ c /\ x ∈ b.
Proof.
  unfold owned. rewrite list_elem_of_bind. split.
  - intros ([k b] & Hx & Hin). eauto.
  - intros (k & b & Hin & Hx). by exists (k, b).
Qed.

(** Extending one bucket extends what is owned. *)
Lemma owned_aupdate f k c b ext :
  NoDup (fst <$> c) -> aget c k = Some b -> f b = b ++ ext -> owned (aupdate f k c) ≡ₚ owned c ++ ext.
Proof.
  intros Hnd Hk Hf. induction c as [|[k' b'] c IH]; [done|]. cbn in Hnd, Hk.
  apply NoDup_cons in Hnd as [Hni Hnd]. unfold owned, aupdate in *. cbn [fmap list_fmap mbind list_bind fst snd].
  case_bool_decide as E.
  - subst. injection Hk as <-. cbn [snd]. rewrite Hf.
    assert (aupdate f k c = c) as Hid.
    { clear -Hni. unfold aupdate. induction c as [|[k1 b1] c IH]; [done|]. cbn in *.
      apply not_elem_of_cons in Hni as [H1 H2]. rewrite bool_decide_false by done. by rewrite IH. }
    unfold aupdate in Hid. rewrite Hid. rewrite <- !app_assoc. apply Permutation_app_head. apply Permutation_app_comm.
  - cbn [snd]. rewrite IH by done. by rewrite app_assoc.
Qed.

Lemma sticky_bucket_spec all ts max b parts :
  exists ext, sticky_bucket all ts max b parts = b ++ ext /\ ext `sublist_of` parts /\
    (forall x, x ∈ ext -> x ∈ all /\ fst x ∈ ts) /\ (len b <= max -> len (b ++ ext) <= max).
Proof.
  revert b. induction parts as [|x parts IH]; intros b; cbn [sticky_bucket].
  { exists []. rewrite app_nil_r. split_and!; [done|done| |done]. intros x H. by apply elem_of_nil in H. }
  destruct (_ && _) eqn:E.
  - apply andb_prop in E as [E E3]. apply andb_prop in E as [E1 E2]. boolp.
    apply bool_decide_eq_true in E1, E2. destruct (IH (b ++ [x])) as (ext & -> & Hs & Hx & Hl).
    exists (x :: ext). rewrite <- app_assoc. cbn [app] in *. split_and!; [done|by constructor| |].
    + intros y [->|Hy]%elem_of_cons; [done|by apply Hx].
    + intros _. rewrite <- (app_assoc b [x] ext) in Hl. apply Hl. len_lia.
  - destruct (IH b) as (ext & -> & Hs & Hx & Hl). exists ext. split_and!; [done|by constructor|done|done].
Qed.

(** ** The invariant of the two passes *)

Section Passes.
Context (members : list (string * member)) (all : list tp) (max : Z).
Context (Hkeys : NoDup (fst <$> members)).

Record cur_ok (c : list (string * list tp)) : Prop := {
  co_keys : fst <$> c = fst <$> members;
  co_load : forall k b, (k, b) ∈ c -> len b <= max;
  co_subs : forall k b x, (k, b) ∈ c -> x ∈ b ->
    x ∈ all /\ exists m, aget members k = Some m /\ fst x ∈ m_topics m }.

Lemma cur_ok_nodup c : cur_ok c -> NoDup (fst <$> c).
Proof using Hkeys. intros Hc. by rewrite (co_keys _ Hc). Qed.

(** Extending a bucket with subscribed partitions, within the cap. *)
Lemma cur_ok_update c f k m ext :
  cur_ok c -> aget members k = Some m ->
  (forall b, aget c k = Some b -> f b = b ++ ext /\ (len b <= max -> len (b ++ ext) <= max)) ->
  (forall x, x ∈ ext -> x ∈ all /\ fst x ∈ m_topics m) ->
  cur_ok (aupdate f k c) /\ owned (aupdate f k c) ≡ₚ owned c ++ ext.
Proof using Hkeys.
  intros Hc Hm Hf Hx. pose proof (cur_ok_nodup c Hc) as Hnd.
  assert (is_Some (aget c k)) as [b Hb].
  { apply aget_key. rewrite (co_keys _ Hc). apply aget_elem in Hm. apply list_elem_of_fmap. by exists (k, m). }
  destruct (Hf b Hb) as [Hfb Hl]. split; [|by eapply owned_aupdate]. split.
  - rewrite aupdate_keys. apply Hc.
  - intros k' b' H. apply aupdate_elem in H as [[_ H]|(-> & b0 & H & ->)]; [by eapply co_load|].
    apply elem_aget in H as H'; [|done]. rewrite Hb in H'. injection H' as <-. rewrite Hfb. apply Hl.
    by eapply co_load.
  - intros k' b' x H Hxb. apply aupdate_elem in H as [[_ H]|(-> & b0 & H & ->)]; [by eapply co_subs|].
    apply elem_aget in H as H'; [|done]. rewrite Hb in H'. injection H' as <-. rewrite Hfb in Hxb.
    apply elem_of_app in Hxb as [Hxb|Hxb]; [by eapply co_subs|]. destruct (Hx x Hxb). eauto.
Qed.

Lemma cur_ok_start : 0 <= max -> cur_ok ((fun p => (fst p, [])) <$> members).
Proof.
  intros Hmax. split.
  - rewrite <- list_fmap_compose. by apply list_fmap_ext.
  - intros k b H. apply list_elem_of_fmap in H as (p & E & _). simplify_eq. done.
  - intros k b x H Hx. apply list_elem_of_fmap in H as (p & E & _). simplify_eq. by apply elem_of_nil in Hx.
Qed.

Lemma sticky_pass prev c :
  cur_ok c -> NoDup (owned c ++ owned prev) ->
  cur_ok (fold_left (sticky_step all members max) prev c) /\
  NoDup (owned (fold_left (sticky_step all members max) prev c)).
Proof using Hkeys.
  revert c. induction prev as [|[o parts] prev IH]; intros c Hc Hnd; cbn [fold_left].
  { rewrite app_nil_r in Hnd. done. }
  change (owned ((o, parts) :: prev)) with (parts ++ owned prev) in Hnd.
  assert (NoDup (owned c ++ owned prev)) as Hnd0.
  { eapply sublist_NoDup; [exact Hnd|]. apply sublist_app; [done|]. apply sublist_inserts_l. done. }
  unfold sticky_step at 2 4. cbn [fst snd]. destruct (aget members o) as [m|] eqn:Em; [|by apply IH].
  assert (exists ext, (forall b, aget c o = Some b ->
      sticky_bucket all (m_topics m) max b parts = b ++ ext /\ (len b <= max -> len (b ++ ext) <= max)) /\
    ext `sublist_of` parts /\ (forall x, x ∈ ext -> x ∈ all /\ fst x ∈ m_topics m)) as (ext & Hf & Hs & Hx).
  { destruct (aget c o) as [b|] eqn:Eb.
    - destruct (sticky_bucket_spec all (m_topics m) max b parts) as (ext & H1 & H2 & H3 & H4).
      exists ext. split_and!; [|done|done]. intros ? [= <-]. done.
    - exists []. split_and!; [done|apply sublist_nil_l|]. intros x H. by apply elem_of_nil in H. }
  destruct (cur_ok_update c _ o m ext Hc Em Hf Hx) as [Hc' Ho]. apply IH; [done|]. rewrite Ho.
  eapply sublist_NoDup; [exact Hnd|]. rewrite <- app_assoc. apply sublist_app; [done|]. by apply sublist_app.
Qed.

Lemma best_member_spec ms c x best r :
  best_member ms c x max best = r ->
  match r with
  | Some (mid, load) => best = Some (mid, load) \/
      exists m, (mid, m) ∈ ms /\ fst x ∈ m_topics m /\ load = len (default [] (aget c mid)) /\ load < max
  | None => best = None /\ forall mid m, (mid, m) ∈ ms -> fst x ∈ m_topics m -> max <= len (default [] (aget c mid))
  end.
Proof.
  revert best. induction ms as [|[mid m] ms IH]; intros best; cbn [best_member].
  { intros <-. destruct best as [[mid load]|]; [by left|]. split; [done|]. intros ? ? H. by apply elem_of_nil in H. }
  set (load := len (default [] (aget c mid))). destruct (_ && _) eqn:E; intros Hr; specialize (IH _ Hr).
  - apply andb_prop in E as [E1 E2]. apply andb_prop in E2 as [E2 E3]. apply bool_decide_eq_true in E1. boolp.
    destruct r as [[mid' load']|]; [|by destruct IH]. right. destruct IH as [E|(m' & H & ?)].
    + simplify_eq. exists m. split_and!; [left|done..].
    + exists m'. split; [by right|done].
  - destruct r as [[mid' load']|].
    + destruct IH as [->|(m' & H & ?)]; [by left|]. right. exists m'. split; [by right|done].
    + destruct IH as [-> IH]. split; [done|]. intros mid' m' [E'|H]%elem_of_cons Hx; [|by eapply IH].
      simplify_eq. rewrite bool_decide_true in E by done. cbn in E. rewrite andb_true_r in E. boolp. done.
Qed.

Lemma orphan_step_ok c x :
  cur_ok c -> x ∈ all ->
  cur_ok (orphan_step members max c x) /\
  (owned (orphan_step members max c x) ≡ₚ owned c ++ [x] \/
   orphan_step members max c x = c /\
   forall mid m, (mid, m) ∈ members -> fst x ∈ m_topics m -> max <= len (default [] (aget c mid))).
Proof using Hkeys.
  intros Hc Hx. unfold orphan_step. destruct (best_member _ _ _ _ _) as [[mid load]|] eqn:E.
  - apply best_member_spec in E as [E|(m & Hin & Ht & Hl & Hlt)]; [done|].
    apply elem_aget in Hin as Hm; [|done].
    destruct (cur_ok_update c (fun b => b ++ [x]) mid m [x] Hc Hm) as [H1 H2].
    + intros b Hb. split; [done|]. intros _. rewrite Hb in Hl. cbn in Hl. rewrite len_app. unfold len in *. cbn. lia.
    + intros y Hy. apply list_elem_of_singleton in Hy as ->. done.
    + split; [done|by left].
  - apply best_member_spec in E as [_ E]. split; [done|by right].
Qed.

Lemma orphan_pass orphans c :
  cur_ok c -> NoDup (owned c ++ orphans) -> (forall x, x ∈ orphans -> x ∈ all) ->
  cur_ok (fold_left (orphan_step members max) orphans c) /\
  NoDup (owned (fold_left (orphan_step members max) orphans c)).
Proof using Hkeys.
  revert c. induction orphans as [|x orphans IH]; intros c Hc Hnd Hall; cbn [fold_left].
  { rewrite app_nil_r in Hnd. done. }
  destruct (orphan_step_ok c x Hc) as [Hc' Ho]; [apply Hall; left|].
  apply IH; [done| |intros; apply Hall; by right]. destruct Ho as [Ho|[-> _]].
  - rewrite Ho, <- app_assoc. done.
  - eapply sublist_NoDup; [exact Hnd|]. apply sublist_app; [done|]. by apply sublist_cons.
Qed.
End Passes.

(** ** Completeness of the second pass *)

Lemma owned_len_ge c max : 0 <= max -> (forall k b, (k, b) ∈ c -> max <= len b) -> max * len c <= len (owned c).
Proof.
  intros H0. induction c as [|[k b] c IH]; intros H; [unfold owned, len; cbn; lia|].
  change (owned ((k, b) :: c)) with (b ++ owned c). rewrite len_app, len_cons.
  specialize (IH ltac:(intros; eapply H; by right)). specialize (H k b ltac:(left)). nia.
Qed.

Lemma target_max_bounds total n : 0 <= total -> 0 < n -> 0 <= target_max total n /\ total <= target_max total n * n.
Proof.
  intros Ht Hn. unfold target_max. pose proof (Z.div_mod (total + n - 1) n ltac:(lia)).
  pose proof (Z.mod_pos_bound (total + n - 1) n Hn). split; [apply Z.div_pos; lia|nia].
Qed.

(** When every member subscribes to every partition, no orphan is left over. *)
Lemma orphan_pass_complete members all max orphans c :
  NoDup (fst <$> members) -> 0 <= max -> len all <= max * len members ->
  (forall x mid m, x ∈ all -> (mid, m) ∈ members -> fst x ∈ m_topics m) ->
  cur_ok members all max c -> NoDup (owned c ++ orphans) ->
  (forall x, x ∈ orphans -> x ∈ all) -> (forall x, x ∈ all -> x ∈ owned c \/ x ∈ orphans) ->
  forall x, x ∈ all -> x ∈ owned (fold_left (orphan_step members max) orphans c).
Proof.
  intros Hkeys Hmax Hroom Huni. revert c.
  induction orphans as [|y orphans IH]; intros c Hc Hnd Hsub Hcov x Hx; cbn [fold_left].
  { destruct (Hcov x Hx) as [|H]; [done|by apply elem_of_nil in H]. }
  assert (y ∈ all) as Hy by (apply Hsub; left).
  destruct (orphan_step_ok members all max Hkeys c y Hc Hy) as [Hc' [Ho|[_ Hfull]]].
  - apply IH; [done| |intros; apply Hsub; by right| |done].
    + rewrite Ho, <- app_assoc. done.
    + intros z Hz. rewrite Ho, elem_of_app, list_elem_of_singleton.
      destruct (Hcov z Hz) as [H|[H|H]%elem_of_cons]; auto.
  - exfalso. pose proof (cur_ok_nodup members all max Hkeys c Hc) as Hndc.
    assert (max * len c <= len (owned c)) as Hge.
    { apply owned_len_ge; [done|]. intros k b Hkb.
      assert (k ∈ fst <$> members) as Hk by (rewrite <- (co_keys _ _ _ _ Hc); apply list_elem_of_fmap; by exists (k, b)).
      apply list_elem_of_fmap in Hk as ([k' m] & E & Hin). cbn in E. subst k'.
      specialize (Hfull k m Hin (Huni y k m Hy Hin)). by rewrite (elem_aget _ _ _ Hndc Hkb) in Hfull. }
    assert (len c = len members) as Hlc.
    { unfold len. rewrite <- (length_fmap fst c), (co_keys _ _ _ _ Hc). by rewrite length_fmap. }
    assert (owned c ++ [y] ⊆+ all) as Hle.
    { apply NoDup_submseteq.
      - eapply sublist_NoDup; [exact Hnd|]. apply sublist_app; [done|]. apply sublist_skip, sublist_nil_l.
      - intros z Hz. apply elem_of_app in Hz as [Hz|Hz]; [|by apply list_elem_of_singleton in Hz as ->].
        apply owned_elem in Hz as (k & b & Hkb & Hzb). by eapply (co_subs _ _ _ _ Hc). }
    apply submseteq_length in Hle. rewrite length_app in Hle. cbn in Hle. rewrite Hlc in Hge. unfold len in *. lia.
Qed.

(** ** Properties *)

Definition group_ok (g : group_state) : Prop :=
  NoDup (fst <$> gs_members g) /\ NoDup (owned (gs_assignment g)).

Lemma all_partitions_elem broker members x :
  x ∈ all_partitions broker members <->
  exists k m ps, (k, m) ∈ members /\ fst x ∈ m_topics m /\ broker (fst x) = Some ps /\ snd x ∈ ps.
Proof.
  unfold all_partitions. rewrite merge_sort_Permutation, elem_of_remove_dups, list_elem_of_bind. split.
  - intros ([k m] & Hx & Hin). cbn in Hx. apply list_elem_of_bind in Hx as (t & Hx & Ht).
    apply list_elem_of_fmap in Hx as (i & -> & Hi). destruct (broker t) as [ps|] eqn:E; cbn in Hi.
    + exists k, m, ps. done.
    + by apply elem_of_nil in Hi.
  - destruct x as [t i]. cbn. intros (k & m & ps & Hin & Ht & E & Hi). exists (k, m). split; [|done].
    apply list_elem_of_bind. exists t. split; [|done]. rewrite E. apply list_elem_of_fmap. by exists i.
Qed.

Lemma all_partitions_nodup broker members : NoDup (all_partitions broker members).
Proof. unfold all_partitions. rewrite merge_sort_Permutation. apply NoDup_remove_dups. Qed.

Lemma owned_sorted c : owned ((fun p => (fst p, merge_sort tp_le (snd p))) <$> c) ≡ₚ owned c.
Proof.
  induction c as [|[k b] c IH]; [done|]. cbn [fmap list_fmap fst snd].
  change (owned ((k, ?b') :: ?r)) with (b' ++ owned r). rewrite IH. by rewrite merge_sort_Permutation.
Qed.

(** C40: a rebalance gives a valid and balanced assignment.  It starts a new
    generation and changes no membership; every member gets a bucket; no bucket
    exceeds the fair share [ceil(partitions / members)]; a member only gets existing
    partitions of topics it subscribes to; no partition is given to two members;
    and when all members subscribe to the same topics every partition is given to
    someone. *)
Theorem rebalance_valid broker g :
  group_ok g -> gs_members g <> [] ->
  let g' := recompute_assignment broker g in
  let all := all_partitions broker (gs_members g) in
  gs_generation g' = gs_generation g + 1 /\ gs_members g' = gs_members g /\ group_ok g' /\
  fst <$> gs_assignment g' = fst <$> gs_members g /\
  (forall k b, (k, b) ∈ gs_assignment g' -> len b <= target_max (len all) (len (gs_members g)) /\
     forall x, x ∈ b -> exists m ps, aget (gs_members g) k = Some m /\ fst x ∈ m_topics m /\
       broker (fst x) = Some ps /\ snd x ∈ ps) /\
  ((forall k1 m1 k2 m2 t, (k1, m1) ∈ gs_members g -> (k2, m2) ∈ gs_members g -> t ∈ m_topics m1 -> t ∈ m_topics m2) ->
   forall x, x ∈ all -> exists k b, (k, b) ∈ gs_assignment g' /\ x ∈ b).
Proof.
  intros [Hkeys Hown] Hne. unfold recompute_assignment. destruct (gs_members g) as [|p0 ms] eqn:Em; [done|].
  rewrite <- Em in *. clear Hne. set (all := all_partitions broker (gs_members g)).
  set (max := target_max (len all) (len (gs_members g))). cbn zeta.
  destruct (target_max_bounds (len all) (len (gs_members g))) as [Hmax0 Hroom];
    [apply len_nonneg|rewrite Em, len_cons; pose proof (len_nonneg ms); lia|]. fold max in Hmax0, Hroom.
  set (c0 := (fun p : string * member => (fst p, @nil tp)) <$> gs_members g).
  assert (owned c0 = []) as Ho0 by (unfold c0, owned; clear; induction (gs_members g); cbn; [done|done]).
  destruct (sticky_pass (gs_members g) all max Hkeys (gs_assignment g) c0) as [Hc1 Hn1];
    [by apply cur_ok_start|by rewrite Ho0|].
  set (c1 := fold_left (sticky_step all (gs_members g) max) (gs_assignment g) c0) in *. clearbody c1.
  set (orphans := filter (fun x => x ∉ owned c1) all).
  assert (NoDup (owned c1 ++ orphans)) as Hn1o.
  { apply NoDup_app. split_and!; [done| |].
    - intros x Hx Hf. apply list_elem_of_filter in Hf as [Hf _]. done.
    - apply NoDup_filter, all_partitions_nodup. }
  assert (forall x, x ∈ orphans -> x ∈ all) as Hoa by (intros x Hx; by apply list_elem_of_filter in Hx as [_ Hx]).
  destruct (orphan_pass (gs_members g) all max Hkeys orphans c1 Hc1 Hn1o Hoa) as [Hc2 Hn2].
  pose proof (orphan_pass_complete (gs_members g) all max orphans c1 Hkeys Hmax0 Hroom) as Hcomp.
  set (c2 := fold_left (orphan_step (gs_members g) max) orphans c1) in *. clearbody c2.
  cbn [gs_generation gs_members gs_assignment]. split_and!.
  - done.
  - done.
  - split; [done|]. cbn [gs_assignment]. by rewrite owned_sorted.
  - rewrite <- list_fmap_compose. rewrite <- (co_keys _ _ _ _ Hc2). by apply list_fmap_ext.
  - intros k b Hkb. apply list_elem_of_fmap in Hkb as ([k' b'] & E & Hin). cbn in E. injection E as -> ->.
    split; [rewrite merge_sort_Permutation; by eapply (co_load _ _ _ _ Hc2)|].
    intros x Hx. rewrite merge_sort_Permutation in Hx.
    destruct (co_subs _ _ _ _ Hc2 _ _ _ Hin Hx) as (Hxa & m & Hm & Ht).
    apply all_partitions_elem in Hxa as (_ & _ & ps & _ & _ & Hps & Hi). by exists m, ps.
  - intros Huni x Hx. assert (x ∈ owned c2) as Ho.
    { apply Hcomp; try done.
      - intros y mid m Hy Hin. apply all_partitions_elem in Hy as (k & m' & ps & Hin' & Ht & _).
        exact (Huni k m' mid m (fst y) Hin' Hin Ht).
      - intros y Hy. destruct (decide (y ∈ owned c1)); [by left|]. right. by apply list_elem_of_filter. }
    apply owned_elem in Ho as (k & b & Hkb & Hxb). exists k, (merge_sort tp_le b).
    split; [apply list_elem_of_fmap; by exists (k, b)|]. by rewrite merge_sort_Permutation.
Qed.

Definition sample_broker : topics := fun t => if bool_decide (t = "t"%string) then Some [0; 1; 2] else None.
Definition sample_group : group_state :=
  mkGroup 4 [("a", mkMember "a" ["t"] 0 "k"); ("b", mkMember "b" ["t"] 0 "k")] [("a", [("t", 0); ("t", 1); ("t", 2)])].

Lemma rebalance_valid_witness :
  group_ok (recompute_assignment sample_broker sample_group) /\
  gs_assignment (recompute_assignment sample_broker sample_group) = [("a", [("t", 0); ("t", 1)]); ("b", [("t", 2)])].
Proof.
  split; [|vm_compute; reflexivity].
  destruct (rebalance_valid sample_broker sample_group) as (_ & _ & H & _).
  - split; apply (bool_decide_unpack _); vm_compute; exact I.
  - discriminate.
  - exact H.
Defined.

(** With uneven subscriptions the cap can leave a partition unassigned although
    its only subscriber could take it: three partitions of "u" with one subscriber,
    one partition of "t" with another, a cap of two. *)
Example uneven_subscription_leaves_a_partition :
  let broker := fun t => if bool_decide (t = "t"%string) then Some [0] else if bool_decide (t = "u"%string) then Some [0; 1; 2] else None in
  let g := mkGroup 0 [("a", mkMember "a" ["t"] 0 "k"); ("b", mkMember "b" ["u"] 0 "k")] [] in
  gs_assignment (recompute_assignment broker g) = [("a", [("t", 0)]); ("b", [("u", 0); ("u", 1)])].
Proof. vm_compute. reflexivity. Qed.
