(* ===== verification/Wire.v ===== *)
(** * The binary wire protocol (es-protocol/src/wire.rs, binary/codec.rs)

    Writing and reading the messages of the binary protocol, the frames that carry
    them and the handshake.  Everything is proved through one relation, [reads m w
    a]: the reader [m] reads [a] from the bytes [w] and leaves what follows them,
    and on a truncated [w] reports the end of the input; a [Codec] is a type with a
    writer and a reader so related. *)

From S2P Require Export Record RustStd.

#[local] Open Scope Z_scope.

(** ** Readers with errors *)

(** The [io::ErrorKind]s a decoder returns. *)
Inductive wire_error : Type := UnexpectedEof | InvalidData.

(** [WireReader]: the unread bytes; [ensure] fails when too few are left. *)
Definition wreader (A : Type) : Type := list byte -> outcome wire_error (A * list byte).

Definition wr_ret {A} (a : A) : wreader A := fun l => Ok (a, l).
Definition wr_fail {A} (e : wire_error) : wreader A := fun _ => Err e.
Definition wr_bind {A B} (m : wreader A) (k : A -> wreader B) : wreader B := fun l =>
  match m l with Ok (a, l') => k a l' | Err e => Err e | Panic => Panic end.
#[global] Instance wreader_ret : MRet wreader := @wr_ret.
#[global] Instance wreader_bind : MBind wreader := fun A B k m => wr_bind m k.

(** [for _ in 0..n { out.push(item?) }]. *)
Fixpoint wr_repeat {A} (n : nat) (m : wreader A) : wreader (list A) :=
  match n with
  | O => wr_ret []
  | S n => a ← m; r ← wr_repeat n m; wr_ret (a :: r)
  end.

(** ** [WireReader] *)

Definition get_bytes (n : Z) : wreader (list byte) := fun l => ok_or UnexpectedEof (rd_bytes n l).
Definition get_uint (n : nat) : wreader Z := fun l => ok_or UnexpectedEof (rd_uint n l).
Definition get_u8 : wreader Z := get_uint 1.
Definition get_u16 : wreader Z := get_uint 2.
Definition get_u32 : wreader Z := get_uint 4.
Definition get_u64 : wreader Z := get_uint 8.
Definition get_i32 : wreader Z := v ← get_u32; wr_ret (wrap_i 32 v).
Definition get_i64 : wreader Z := v ← get_u64; wr_ret (wrap_i 64 v).

(** [String::from_utf8]. *)
Definition from_utf8 (raw : list byte) : wreader string :=
  if utf8_valid raw then wr_ret (of_bytes raw) else wr_fail InvalidData.

Definition get_str : wreader string := n ← get_u16; raw ← get_bytes n; from_utf8 raw.

Definition get_opt_bytes_i32 : wreader (option (list byte)) :=
  n ← get_i32; if n <? 0 then wr_ret None else b ← get_bytes n; wr_ret (Some b).

Definition get_value : wreader (list byte) := n ← get_u32; get_bytes n.

Definition get_opt_string_i32 : wreader (option string) :=
  n ← get_i32; if n <? 0 then wr_ret None else raw ← get_bytes n; s ← from_utf8 raw; wr_ret (Some s).

Definition get_opt_u32_neg : wreader (option Z) :=
  v ← get_i32; if v <? 0 then wr_ret None else wr_ret (Some v).

Definition get_opt_i64_min : wreader (option Z) :=
  v ← get_i64; if v =? I64_MIN then wr_ret None else wr_ret (Some v).

(** The capacity reserved for [count] items. *)
Definition cap_hint (remaining count min_item_bytes : Z) : Z :=
  Z.min count (remaining / Z.max min_item_bytes 1).

(** ** [WireBuf] *)

Definition put_str (s : string) : list byte :=
  to_be 2 (wrap_u 16 (len (as_bytes s))) ++ as_bytes s.
Definition put_opt_bytes_i32 (v : option (list byte)) : list byte :=
  match v with Some b => to_be 4 (wrap_i 32 (len b)) ++ b | None => to_be 4 (-1) end.
Definition put_wire_value (v : list byte) : list byte := to_be 4 (wrap_u 32 (len v)) ++ v.
Definition put_opt_string_i32 (v : option string) : list byte := put_opt_bytes_i32 (as_bytes <$> v).
Definition put_opt_u32_neg (v : option Z) : list byte :=
  to_be 4 (match v with Some n => wrap_i 32 n | None => -1 end).
Definition put_opt_i64_min (v : option Z) : list byte :=
  to_be 8 (match v with Some n => n | None => I64_MIN end).

(** ** Messages *)

Record produce_record : Type := mkWPR {
  wp_key : option (list byte); wp_value : list byte; wp_partition : option Z; wp_sequence : option Z }.
Record produce_request : Type := mkWPReq {
  wq_topic : string; wq_producer_id : option string; wq_records : list produce_record }.
Record produce_result : Type := mkWPRes { wr_partition : Z; wr_offset : Z; wr_duplicate : bool }.
Record consume_request : Type := mkWCReq {
  wc_topic : string; wc_partition : Z; wc_offset : Z; wc_max_records : Z; wc_max_bytes : Z }.
Record wire_record : Type := mkWRec {
  we_partition : Z; we_offset : Z; we_timestamp_ms : Z; we_key : option (list byte); we_value : list byte }.
Record consume_response : Type := mkWCRes {
  ws_records : list wire_record; ws_next_offset : Z; ws_high_watermark : Z }.

Definition put_produce_record (r : produce_record) : list byte :=
  put_opt_bytes_i32 (wp_key r) ++ put_wire_value (wp_value r) ++
  put_opt_u32_neg (wp_partition r) ++ put_opt_i64_min (wp_sequence r).
Definition get_produce_record : wreader produce_record :=
  key ← get_opt_bytes_i32; value ← get_value; partition ← get_opt_u32_neg; sequence ← get_opt_i64_min;
  wr_ret (mkWPR key value partition sequence).

Definition encode_produce_request (q : produce_request) : list byte :=
  put_str (wq_topic q) ++ put_opt_string_i32 (wq_producer_id q) ++
  to_be 4 (wrap_u 32 (len (wq_records q))) ++ concat (put_produce_record <$> wq_records q).
Definition rd_produce_request : wreader produce_request :=
  topic ← get_str; producer_id ← get_opt_string_i32; n ← get_u32;
  records ← wr_repeat (Z.to_nat n) get_produce_record;
  wr_ret (mkWPReq topic producer_id records).

Definition put_produce_result (r : produce_result) : list byte :=
  to_be 4 (wr_partition r) ++ to_be 8 (wr_offset r) ++ to_be 1 (if wr_duplicate r then 1 else 0).
Definition get_produce_result : wreader produce_result :=
  partition ← get_u32; offset ← get_u64; duplicate ← get_u8;
  wr_ret (mkWPRes partition offset (negb (duplicate =? 0))).
Definition encode_produce_response (rs : list produce_result) : list byte :=
  to_be 4 (wrap_u 32 (len rs)) ++ concat (put_produce_result <$> rs).
Definition rd_produce_response : wreader (list produce_result) :=
  n ← get_u32; rs ← wr_repeat (Z.to_nat n) get_produce_result; wr_ret rs.

Definition encode_consume_request (q : consume_request) : list byte :=
  put_str (wc_topic q) ++ to_be 4 (wc_partition q) ++ to_be 8 (wc_offset q) ++
  to_be 4 (wc_max_records q) ++ to_be 4 (wc_max_bytes q).
Definition rd_consume_request : wreader consume_request :=
  topic ← get_str; partition ← get_u32; offset ← get_u64; max_records ← get_u32; max_bytes ← get_u32;
  wr_ret (mkWCReq topic partition offset max_records max_bytes).

Definition put_wire_record (r : wire_record) : list byte :=
  to_be 4 (we_partition r) ++ to_be 8 (we_offset r) ++ to_be 8 (we_timestamp_ms r) ++
  put_opt_bytes_i32 (we_key r) ++ put_wire_value (we_value r).
Definition get_wire_record : wreader wire_record :=
  partition ← get_u32; offset ← get_u64; timestamp_ms ← get_i64; key ← get_opt_bytes_i32; value ← get_value;
  wr_ret (mkWRec partition offset timestamp_ms key value).
Definition encode_consume_response (r : consume_response) : list byte :=
  to_be 8 (ws_next_offset r) ++ to_be 8 (ws_high_watermark r) ++
  to_be 4 (wrap_u 32 (len (ws_records r))) ++ concat (put_wire_record <$> ws_records r).
Definition rd_consume_response : wreader consume_response :=
  next_offset ← get_u64; high_watermark ← get_u64; n ← get_u32;
  records ← wr_repeat (Z.to_nat n) get_wire_record;
  wr_ret (mkWCRes records next_offset high_watermark).

(** A decoder reads the message and ignores what follows it. *)
Definition decode {A} (m : wreader A) (bytes : list byte) : outcome wire_error A := fst <$> m bytes.
Definition decode_produce_request := decode rd_produce_request.
Definition decode_produce_response := decode rd_produce_response.
Definition decode_consume_request := decode rd_consume_request.
Definition decode_consume_response := decode rd_consume_response.

(** ** The relation and its rules *)

Definition reads {A} (m : wreader A) (w : list byte) (a : A) : Prop :=
  (forall k, m (w ++ k) = Ok (a, k)) /\
  (forall n, (n < length w)%nat -> m (take n w) = Err UnexpectedEof).

Create HintDb wire.

Lemma reads_ret {A} (a : A) : reads (wr_ret a) [] a.
Proof. split; [done|]. cbn. lia. Qed.

Lemma reads_bind {A B} (m : wreader A) (k : A -> wreader B) w w' a b :
  reads m w a -> reads (k a) w' b -> reads (x ← m; k x) (w ++ w') b.
Proof.
  intros [H1 H2] [H3 H4]. split.
  - intros l. rewrite <- app_assoc. unfold mbind, wreader_bind, wr_bind. by rewrite H1.
  - intros n Hn. unfold mbind, wreader_bind, wr_bind. destruct (decide (n < length w)%nat) as [Hlt|Hge].
    + rewrite take_app_le by lia. by rewrite H2.
    + rewrite take_app_ge by lia. rewrite H1. apply H4. rewrite length_app in Hn. lia.
Qed.

(** The last field of a message. *)
Lemma reads_last {A B} (m : wreader A) (f : A -> wreader B) w a b :
  reads m w a -> (forall l, f a l = Ok (b, l)) -> reads (x ← m; f x) w b.
Proof.
  intros Hm Hf. rewrite <- (app_nil_r w). eapply reads_bind; [exact Hm|]. split; [by intros|cbn; lia].
Qed.

Lemma reads_repeat {A} (m : wreader A) (enc : A -> list byte) xs :
  Forall (fun x => reads m (enc x) x) xs -> reads (wr_repeat (length xs) m) (concat (enc <$> xs)) xs.
Proof.
  induction 1 as [|x xs Hx Hxs IH]; [apply reads_ret|]. cbn [length wr_repeat fmap list_fmap concat].
  eapply reads_bind; [exact Hx|]. eapply reads_last; [exact IH|]. done.
Qed.

(** ** Primitive fields *)

Lemma reads_bytes w : reads (get_bytes (len w)) w w.
Proof.
  split; intros; unfold get_bytes; [by rewrite rd_bytes_app|]. unfold rd_bytes.
  rewrite (proj2 (Z.leb_gt _ _)); [done|]. unfold len. rewrite length_take. lia.
Qed.

Lemma reads_uint n z : 0 <= z < 256 ^ Z.of_nat n -> reads (get_uint n) (to_be n z) z.
Proof.
  intros Hz. split; intros; unfold get_uint; [by rewrite rd_uint_app|]. unfold rd_uint, rd_bytes.
  rewrite to_be_length in *. rewrite (proj2 (Z.leb_gt _ _)); [done|]. unfold len.
  rewrite length_take, to_be_length. lia.
Qed.

Lemma reads_u8 z : is_u 8 z -> reads get_u8 (to_be 1 z) z.
Proof. apply (reads_uint 1). Qed.
Lemma reads_u16 z : is_u 16 z -> reads get_u16 (to_be 2 z) z.
Proof. apply (reads_uint 2). Qed.
Lemma reads_u32 z : is_u 32 z -> reads get_u32 (to_be 4 z) z.
Proof. apply (reads_uint 4). Qed.
Lemma reads_u64 z : is_u 64 z -> reads get_u64 (to_be 8 z) z.
Proof. apply (reads_uint 8). Qed.

(** A signed field goes through its two's complement. *)
Lemma to_be_mod n z : to_be n (z mod 256 ^ Z.of_nat n) = to_be n z.
Proof. rewrite <- from_to_be. apply to_from_be. by rewrite to_be_length. Qed.

Lemma reads_i32 z : is_i 32 z -> reads get_i32 (to_be 4 z) z.
Proof.
  intros Hz. rewrite <- (to_be_mod 4 z). eapply reads_last; [apply reads_u32, Z.mod_pos_bound; lia|].
  intros l. unfold wr_ret. change (256 ^ Z.of_nat 4) with (2 ^ 32). by rewrite wrap_i_mod, wrap_i_small by (lia || done).
Qed.
Lemma reads_i64 z : is_i 64 z -> reads get_i64 (to_be 8 z) z.
Proof.
  intros Hz. rewrite <- (to_be_mod 8 z). eapply reads_last; [apply reads_u64, Z.mod_pos_bound; lia|].
  intros l. unfold wr_ret. change (256 ^ Z.of_nat 8) with (2 ^ 64). by rewrite wrap_i_mod, wrap_i_small by (lia || done).
Qed.

#[export] Hint Resolve reads_u8 reads_u16 reads_u32 reads_u64 reads_i32 reads_i64 reads_bytes reads_ret : wire.

(** ** Compound fields *)

Definition string_ok (s : string) : Prop := utf8_valid (as_bytes s) = true.

Lemma reads_utf8 s l : string_ok s -> from_utf8 (as_bytes s) l = Ok (s, l).
Proof. unfold from_utf8, string_ok. intros ->. by rewrite of_as_bytes. Qed.

Lemma reads_str s : string_ok s -> is_u 16 (len (as_bytes s)) -> reads get_str (put_str s) s.
Proof.
  intros Hs Hl. unfold get_str, put_str. rewrite wrap_u_small by done.
  eapply reads_bind; [eauto with wire|]. eapply reads_last; [eauto with wire|]. intros. by apply reads_utf8.
Qed.

(** The length of an optional field. *)
Lemma reads_opt_len (b : list byte) : len b < 2 ^ 31 -> reads get_i32 (to_be 4 (wrap_i 32 (len b))) (len b).
Proof.
  intros Hb. assert (is_i 32 (len b)) by (unfold is_i; len_facts; lia).
  rewrite wrap_i_small by (lia || done). by apply reads_i32.
Qed.

Lemma minus_one_i32 : reads get_i32 (to_be 4 (-1)) (-1).
Proof. apply reads_i32. unfold is_i. lia. Qed.

Lemma reads_opt_bytes v : len (default [] v) < 2 ^ 31 -> reads get_opt_bytes_i32 (put_opt_bytes_i32 v) v.
Proof.
  intros Hv. unfold get_opt_bytes_i32, put_opt_bytes_i32. destruct v as [b|]; simpl in Hv.
  - eapply reads_bind; [by apply reads_opt_len|]. rewrite (proj2 (Z.ltb_ge _ _)) by apply len_nonneg.
    eapply reads_last; [apply reads_bytes|done].
  - eapply reads_last; [apply minus_one_i32|done].
Qed.

Lemma reads_value v : is_u 32 (len v) -> reads get_value (put_wire_value v) v.
Proof.
  intros Hv. unfold get_value, put_wire_value. rewrite wrap_u_small by done.
  eapply reads_bind; eauto with wire.
Qed.

Definition opt_string_ok (v : option string) : Prop :=
  match v with Some s => string_ok s /\ len (as_bytes s) < 2 ^ 31 | None => True end.

Lemma reads_opt_string v : opt_string_ok v -> reads get_opt_string_i32 (put_opt_string_i32 v) v.
Proof.
  intros Hv. unfold get_opt_string_i32, put_opt_string_i32, put_opt_bytes_i32. destruct v as [s|]; cbn.
  - destruct Hv as [Hs Hl]. eapply reads_bind; [by apply reads_opt_len|].
    rewrite (proj2 (Z.ltb_ge _ _)) by apply len_nonneg.
    eapply reads_last; [apply reads_bytes|]. intros l. unfold mbind, wreader_bind, wr_bind. by rewrite reads_utf8.
  - eapply reads_last; [apply minus_one_i32|done].
Qed.

(** A partition number below 2^31: larger ones have the sign bit of "none". *)
Lemma reads_opt_u32 v : 0 <= default 0 v < 2 ^ 31 -> reads get_opt_u32_neg (put_opt_u32_neg v) v.
Proof.
  intros Hv. unfold get_opt_u32_neg, put_opt_u32_neg. destruct v as [n|]; simpl in Hv.
  - assert (is_i 32 n) by (unfold is_i; lia). rewrite wrap_i_small by (lia || done).
    eapply reads_last; [eauto with wire|]. intros l. by rewrite (proj2 (Z.ltb_ge _ _)) by lia.
  - eapply reads_last; [apply minus_one_i32|done].
Qed.

(** Every sequence but [i64::MIN], which stands for "none". *)
Lemma reads_opt_i64 v :
  (forall n, v = Some n -> is_i 64 n /\ n <> I64_MIN) -> reads get_opt_i64_min (put_opt_i64_min v) v.
Proof.
  intros Hv. unfold get_opt_i64_min, put_opt_i64_min. destruct v as [n|].
  - destruct (Hv n eq_refl) as [Hi Hn]. eapply reads_last; [eauto with wire|]. intros l.
    by rewrite (proj2 (Z.eqb_neq _ _)) by done.
  - eapply reads_last; [apply reads_i64; unfold is_i, I64_MIN; lia|done].
Qed.

#[export] Hint Resolve reads_str reads_opt_bytes reads_value reads_opt_string reads_opt_u32 reads_opt_i64 : wire.

(** Read a message field by field. *)
Ltac reads_fields :=
  repeat first
    [ eapply reads_last; [solve [eauto with wire]|done]
    | eapply reads_bind; [solve [eauto with wire]|] ].

(** A counted sequence of items at the end of a message. *)
Lemma reads_counted {A B} (m : wreader A) (enc : A -> list byte) xs (f : list A -> wreader B) b :
  is_u 32 (len xs) -> Forall (fun x => reads m (enc x) x) xs -> (forall l, f xs l = Ok (b, l)) ->
  reads (n ← get_u32; rs ← wr_repeat (Z.to_nat n) m; f rs)
    (to_be 4 (wrap_u 32 (len xs)) ++ concat (enc <$> xs)) b.
Proof.
  intros Hl Hx Hf. rewrite wrap_u_small by done. eapply reads_bind; [eauto with wire|].
  rewrite <- length_len. eapply reads_last; [by apply reads_repeat|done].
Qed.

(** ** Codecs *)

(** A type with a wire format: its writer, its reader, the values the format can
    carry, and the law that relates them. *)
Class Codec (A : Type) : Type := {
  c_put : A -> list byte;
  c_get : wreader A;
  c_fits : A -> Prop;
  c_reads : forall a, c_fits a -> reads c_get (c_put a) a
}.

(** What the law gives: the round trip, whatever follows, and an error on every
    truncation. *)
Lemma codec_roundtrip `{Codec A} a k : c_fits a -> decode c_get (c_put a ++ k) = Ok a.
Proof. intros Hf. unfold decode. by rewrite (proj1 (c_reads a Hf)). Qed.

Lemma codec_truncated `{Codec A} a n :
  c_fits a -> (n < length (c_put a))%nat -> decode c_get (take n (c_put a)) = Err UnexpectedEof.
Proof. intros Hf Hn. unfold decode. by rewrite (proj2 (c_reads a Hf) n Hn). Qed.

(** Two values with the same bytes are the same. *)
Lemma codec_inj `{Codec A} a b : c_fits a -> c_fits b -> c_put a = c_put b -> a = b.
Proof.
  intros Ha Hb E. pose proof (proj1 (c_reads a Ha) []) as H1. rewrite E in H1.
  rewrite (proj1 (c_reads b Hb) []) in H1. by injection H1.
Qed.

Definition produce_record_ok (r : produce_record) : Prop :=
  len (default [] (wp_key r)) < 2 ^ 31 /\ is_u 32 (len (wp_value r)) /\
  0 <= default 0 (wp_partition r) < 2 ^ 31 /\
  (forall n, wp_sequence r = Some n -> is_i 64 n /\ n <> I64_MIN).

Definition produce_request_ok (q : produce_request) : Prop :=
  string_ok (wq_topic q) /\ is_u 16 (len (as_bytes (wq_topic q))) /\ opt_string_ok (wq_producer_id q) /\
  is_u 32 (len (wq_records q)) /\ Forall produce_record_ok (wq_records q).

Definition produce_result_ok (r : produce_result) : Prop := is_u 32 (wr_partition r) /\ is_u 64 (wr_offset r).

Definition consume_request_ok (q : consume_request) : Prop :=
  string_ok (wc_topic q) /\ is_u 16 (len (as_bytes (wc_topic q))) /\ is_u 32 (wc_partition q) /\
  is_u 64 (wc_offset q) /\ is_u 32 (wc_max_records q) /\ is_u 32 (wc_max_bytes q).

Definition wire_record_ok (r : wire_record) : Prop :=
  is_u 32 (we_partition r) /\ is_u 64 (we_offset r) /\ is_i 64 (we_timestamp_ms r) /\
  len (default [] (we_key r)) < 2 ^ 31 /\ is_u 32 (len (we_value r)).

Definition consume_response_ok (r : consume_response) : Prop :=
  is_u 64 (ws_next_offset r) /\ is_u 64 (ws_high_watermark r) /\ is_u 32 (len (ws_records r)) /\
  Forall wire_record_ok (ws_records r).

#[export] Instance produce_record_codec : Codec produce_record.
Proof.
  refine {| c_put := put_produce_record; c_get := get_produce_record; c_fits := produce_record_ok |}.
  intros [key value partition sequence] (H1 & H2 & H3 & H4). unfold put_produce_record. cbn in *. reads_fields.
Defined.

#[export] Instance produce_result_codec : Codec produce_result.
Proof.
  refine {| c_put := put_produce_result; c_get := get_produce_result; c_fits := produce_result_ok |}.
  intros [partition offset duplicate] [H1 H2]. unfold put_produce_result. cbn in *.
  do 2 (eapply reads_bind; [solve [eauto with wire]|]).
  eapply reads_last; [apply reads_u8; by destruct duplicate|]. by destruct duplicate.
Defined.

#[export] Instance wire_record_codec : Codec wire_record.
Proof.
  refine {| c_put := put_wire_record; c_get := get_wire_record; c_fits := wire_record_ok |}.
  intros [partition offset ts key value] (H1 & H2 & H3 & H4 & H5). unfold put_wire_record. cbn in *. reads_fields.
Defined.

#[export] Instance consume_request_codec : Codec consume_request.
Proof.
  refine {| c_put := encode_consume_request; c_get := rd_consume_request; c_fits := consume_request_ok |}.
  intros [topic partition offset mr mb] (H1 & H2 & H3 & H4 & H5 & H6). unfold encode_consume_request. cbn in *.
  reads_fields.
Defined.

#[export] Instance produce_request_codec : Codec produce_request.
Proof.
  refine {| c_put := encode_produce_request; c_get := rd_produce_request; c_fits := produce_request_ok |}.
  intros [topic producer_id records] (H1 & H2 & H3 & H4 & H5). unfold encode_produce_request. cbn in *.
  do 2 (eapply reads_bind; [solve [eauto with wire]|]).
  apply reads_counted; [done| |done]. eapply Forall_impl; [exact H5|]. apply (c_reads (Codec := produce_record_codec)).
Defined.

#[export] Instance produce_response_codec : Codec (list produce_result).
Proof.
  refine {| c_put := encode_produce_response; c_get := rd_produce_response;
            c_fits rs := is_u 32 (len rs) /\ Forall produce_result_ok rs |}.
  intros rs [H1 H2]. apply reads_counted; [done| |done]. eapply Forall_impl; [exact H2|]. apply (c_reads (Codec := produce_result_codec)).
Defined.

#[export] Instance consume_response_codec : Codec consume_response.
Proof.
  refine {| c_put := encode_consume_response; c_get := rd_consume_response; c_fits := consume_response_ok |}.
  intros [records next hwm] (H1 & H2 & H3 & H4). unfold encode_consume_response. cbn in *.
  do 2 (eapply reads_bind; [solve [eauto with wire]|]).
  apply reads_counted; [done| |done]. eapply Forall_impl; [exact H4|]. apply (c_reads (Codec := wire_record_codec)).
Defined.

(** ** Opcodes and handshake status *)

Inductive opcode : Type := OpProduce | OpConsume | OpPing | OpProduceOk | OpConsumeOk | OpPingOk | OpError.

(** [opcode as u8]. *)
Definition opcode_u8 (o : opcode) : Z :=
  match o with
  | OpProduce => 0x01 | OpConsume => 0x02 | OpPing => 0x03
  | OpProduceOk => 0x81 | OpConsumeOk => 0x82 | OpPingOk => 0x83 | OpError => 0xFF
  end.

Definition opcode_from_u8 (b : Z) : option opcode :=
  if b =? 0x01 then Some OpProduce else if b =? 0x02 then Some OpConsume else if b =? 0x03 then Some OpPing
  else if b =? 0x81 then Some OpProduceOk else if b =? 0x82 then Some OpConsumeOk
  else if b =? 0x83 then Some OpPingOk else if b =? 0xFF then Some OpError else None.

#[export] Instance opcode_eq_dec : EqDecision opcode.
Proof. solve_decision. Defined.

Inductive handshake_status : Type :=
| StOk | StBadMagic | StAuthFailed | StAuthRequired | StFeatureUnsupported | StInternal.

Definition status_u8 (s : handshake_status) : Z :=
  match s with
  | StOk => 0 | StBadMagic => 1 | StAuthFailed => 2 | StAuthRequired => 3 | StFeatureUnsupported => 4
  | StInternal => 5
  end.

Definition status_from_u8 (b : Z) : option handshake_status :=
  if b =? 0 then Some StOk else if b =? 1 then Some StBadMagic else if b =? 2 then Some StAuthFailed
  else if b =? 3 then Some StAuthRequired else if b =? 4 then Some StFeatureUnsupported
  else if b =? 5 then Some StInternal else None.

#[export] Instance status_eq_dec : EqDecision handshake_status.
Proof. solve_decision. Defined.

Lemma opcode_from_to o : opcode_from_u8 (opcode_u8 o) = Some o.
Proof. by destruct o. Qed.

Lemma opcode_from_inv b o : opcode_from_u8 b = Some o -> b = opcode_u8 o.
Proof. unfold opcode_from_u8. intros E. repeat (case_if_in E; [by simplify_eq|]). done. Qed.

Lemma status_from_to s : status_from_u8 (status_u8 s) = Some s.
Proof. by destruct s. Qed.

(** Requests and responses differ in the high bit. *)
Lemma opcode_response_bit o :
  Z.testbit (opcode_u8 o) 7 = match o with OpProduce | OpConsume | OpPing => false | _ => true end.
Proof. by destruct o. Qed.

(** ** Frames *)

Definition MAX_FRAME_BYTES : Z := 64 * 1024 * 1024.

(** [None]: the frame exceeds the protocol limit. *)
Definition encode_frame (request_id : Z) (op : opcode) (payload : list byte) : option (list byte) :=
  let total := 4 + 1 + len payload in
  if (total <? 2 ^ 32) && (total <=? MAX_FRAME_BYTES) then
    Some (to_be 4 total ++ to_be 4 request_id ++ to_be 1 (opcode_u8 op) ++ payload)
  else None.

Inductive frame_error : Type := FrameIo (e : wire_error) | FrameBounds (total : Z) | UnknownOpcode (b : Z).

(** Lift a read from the stream. *)
Definition stream_read {A E} (f : wire_error -> E) (m : wreader A) (l : list byte) : outcome E (A * list byte) :=
  map_err f (m l).

(** [read_frame], with the limit of the side that reads ([max] is
    [MAX_FRAME_BYTES] for a client, the request limit for the server). *)
Definition read_frame (max : Z) (l : list byte) : outcome frame_error (Z * opcode * list byte * list byte) :=
  '(total, l) ← stream_read FrameIo get_u32 l;
  if negb ((5 <=? total) && (total <=? max)) then Err (FrameBounds total) else
  '(request_id, l) ← stream_read FrameIo get_u32 l;
  '(op, l) ← stream_read FrameIo get_u8 l;
  match opcode_from_u8 op with
  | None => Err (UnknownOpcode op)
  | Some op =>
    '(payload, l) ← stream_read FrameIo (get_bytes (total - 5)) l;
    Ok (request_id, op, payload, l)
  end.

(** A stream of frames read one after the other. *)
Fixpoint read_frames (fuel : nat) (max : Z) (l : list byte) : list (Z * opcode * list byte) :=
  match fuel with
  | O => []
  | S fuel =>
    match read_frame max l with
    | Ok (id, op, payload, rest) => (id, op, payload) :: read_frames fuel max rest
    | _ => []
    end
  end.

Lemma stream_reads {A E} (f : wire_error -> E) (m : wreader A) w a k :
  reads m w a -> stream_read f m (w ++ k) = Ok (a, k).
Proof. intros [Hr _]. unfold stream_read. by rewrite Hr. Qed.

Lemma read_frame_encode max id op payload frame k :
  is_u 32 id -> encode_frame id op payload = Some frame -> 5 + len payload <= max ->
  read_frame max (frame ++ k) = Ok (id, op, payload, k).
Proof.
  intros Hid Hf Hm. unfold encode_frame in Hf. case_if_in Hf; [|done]. apply (inj Some) in Hf as <-.
  unfold read_frame. rewrite <- !app_assoc.
  rewrite (stream_reads FrameIo get_u32 (to_be 4 (4 + 1 + len payload)) (4 + 1 + len payload))
    by (apply reads_u32; unfold is_u; len_facts; lia). cbn [mbind outcome_bind].
  rewrite (proj2 (Z.leb_le 5 _)), (proj2 (Z.leb_le _ max)) by len_lia. cbn [negb andb].
  rewrite (stream_reads FrameIo get_u32 (to_be 4 id) id) by (by apply reads_u32). cbn [mbind outcome_bind].
  rewrite (stream_reads FrameIo get_u8 (to_be 1 (opcode_u8 op)) (opcode_u8 op))
    by (apply reads_u8; by destruct op). cbn [mbind outcome_bind]. rewrite opcode_from_to.
  replace (4 + 1 + len payload - 5) with (len payload) by lia.
  rewrite (stream_reads FrameIo (get_bytes (len payload)) payload payload) by apply reads_bytes. done.
Qed.

Lemma read_frames_encode max fs bytes :
  Forall2 (fun '(id, op, payload) frame =>
    is_u 32 id /\ encode_frame id op payload = Some frame /\ 5 + len payload <= max) fs bytes ->
  read_frames (S (length fs)) max (concat bytes) = fs.
Proof.
  intros Hf. remember (S (length fs)) as n eqn:En. assert (length fs < n)%nat as Hn by lia. clear En.
  revert n Hn. induction Hf as [|[[id op] payload] frame fs bytes (H1 & H2 & H3) Hf IH]; intros n Hn.
  - destruct n; [cbn in Hn; lia|]. done.
  - destruct n; [cbn in Hn; lia|]. cbn [concat read_frames]. rewrite (read_frame_encode max id op payload) by done.
    rewrite IH by (cbn in Hn; lia). done.
Qed.

(** ** The topic a payload addresses *)

(** [flate2]: what inflating yields before it ends or fails, and whether it ended
    cleanly; deflating at two levels.  Inflating undoes deflating. *)
Class Gzip : Type := {
  gz_inflate : list byte -> list byte * bool;
  gz_deflate : bool -> list byte -> list byte;
  gz_law : forall fast l, gz_inflate (gz_deflate fast l) = (l, true)
}.

Section Gz.
Context `{Gzip}.

Definition SMALL_PAYLOAD : Z := 512.
Definition compress (input : list byte) : list byte := gz_deflate (SMALL_PAYLOAD <=? len input) input.

(** Reading at most [cap + 1] bytes of the inflated stream: an error behind them
    is not met. *)
Definition decompress (input : list byte) (cap : Z) : outcome wire_error (list byte) :=
  let (out, clean) := gz_inflate input in
  if cap <? len out then Err InvalidData else if clean then Ok out else Err UnexpectedEof.

Definition peek_topic (payload : list byte) (gzip : bool) : outcome wire_error string :=
  decode get_str (if gzip then (gz_inflate payload).1 else payload).

Lemma decompress_compress l cap : len l <= cap -> decompress (compress l) cap = Ok l.
Proof.
  intros Hl. unfold decompress, compress. rewrite gz_law. by rewrite (proj2 (Z.ltb_ge _ _)) by lia.
Qed.

(** The first field of a message is what reading only that field gives. *)
Lemma decode_first {A B} (m : wreader A) (k : A -> wreader B) bytes b :
  decode (x ← m; k x) bytes = Ok b -> exists a rest l, decode m bytes = Ok a /\ k a rest = Ok (b, l).
Proof.
  unfold decode, mbind, wreader_bind, wr_bind. destruct (m bytes) as [[a l]|e|] eqn:E; [|done|done].
  intros Hk. exists a, l. destruct (k a l) as [[b' l']|e|] eqn:Ek; try done. cbn in Hk. injection Hk as <-.
  by exists l'.
Qed.

(** Bind inversion for readers. *)
Lemma wr_bind_ok {A B} (m : wreader A) (k : A -> wreader B) l b l' :
  (x ← m; k x) l = Ok (b, l') -> exists a l1, m l = Ok (a, l1) /\ k a l1 = Ok (b, l').
Proof. unfold mbind, wreader_bind, wr_bind. destruct (m l) as [[a l1]|e|]; [eauto|done|done]. Qed.

Lemma produce_topic_first bytes q : decode_produce_request bytes = Ok q -> decode get_str bytes = Ok (wq_topic q).
Proof.
  intros Hd. apply decode_first in Hd as (topic & rest & l & Ht & Hk). rewrite Ht. f_equal.
  apply wr_bind_ok in Hk as (pid & l1 & _ & Hk). apply wr_bind_ok in Hk as (n & l2 & _ & Hk).
  apply wr_bind_ok in Hk as (rs & l3 & _ & Hk). by injection Hk as <-.
Qed.

Lemma consume_topic_first bytes q : decode_consume_request bytes = Ok q -> decode get_str bytes = Ok (wc_topic q).
Proof.
  intros Hd. apply decode_first in Hd as (topic & rest & l & Ht & Hk). rewrite Ht. f_equal.
  apply wr_bind_ok in Hk as (? & ? & _ & Hk). apply wr_bind_ok in Hk as (? & ? & _ & Hk).
  apply wr_bind_ok in Hk as (? & ? & _ & Hk). apply wr_bind_ok in Hk as (? & ? & _ & Hk). by injection Hk as <-.
Qed.
End Gz.

(** ** The handshake *)

Definition WIRE_MAGIC : list byte := [x45; x53; x30; x31].
Definition FEATURE_GZIP : Z := 1.
Definition MAX_HANDSHAKE_MSG : Z := 4096.
Definition MAX_TOKEN : Z := 1024.

(** What a client sends ([handshake] in codec.rs). *)
Definition client_hello (token : string) (want_gzip : bool) : list byte :=
  WIRE_MAGIC ++ to_be 4 (if want_gzip then FEATURE_GZIP else 0) ++
  to_be 4 (wrap_u 32 (len (as_bytes token))) ++ as_bytes token.

(** [read_handshake]: magic, features, token, whether the token is too long. *)
Definition read_handshake : wreader (list byte * Z * list byte * bool) :=
  magic ← get_bytes 4; features ← get_u32; token_len ← get_u32;
  if MAX_TOKEN <? token_len then wr_ret (magic, features, [], true)
  else token ← get_bytes token_len; wr_ret (magic, features, token, false).

Definition write_handshake (status : handshake_status) (features : Z) (msg : string) : list byte :=
  WIRE_MAGIC ++ to_be 1 (status_u8 status) ++ to_be 4 features ++
  to_be 4 (wrap_u 32 (len (as_bytes msg))) ++ as_bytes msg.

Inductive handshake_error : Type :=
| HsIo (e : wire_error) | BadServerMagic | UnknownStatus (b : Z) | MessageTooLong (n : Z)
| HandshakeFailed (s : handshake_status).

(** The client's side of the reply: whether gzip was negotiated. *)
Definition client_reply (want_gzip : bool) (l : list byte) : outcome handshake_error (bool * list byte) :=
  '(magic, l) ← stream_read HsIo (get_bytes 4) l;
  '(st, l) ← stream_read HsIo get_u8 l;
  '(features, l) ← stream_read HsIo get_u32 l;
  '(msg_len, l) ← stream_read HsIo get_u32 l;
  if negb (bool_decide (magic = WIRE_MAGIC)) then Err BadServerMagic else
  match status_from_u8 st with
  | None => Err (UnknownStatus st)
  | Some st =>
    if MAX_HANDSHAKE_MSG <? msg_len then Err (MessageTooLong msg_len) else
    '(_, l) ← stream_read HsIo (get_bytes msg_len) l;
    if negb (bool_decide (st = StOk)) then Err (HandshakeFailed st)
    else Ok (want_gzip && negb (Z.land features FEATURE_GZIP =? 0), l)
  end.

Lemma read_handshake_hello token want k :
  len (as_bytes token) <= MAX_TOKEN ->
  read_handshake (client_hello token want ++ k) =
    Ok (WIRE_MAGIC, if want then FEATURE_GZIP else 0, as_bytes token, false, k).
Proof.
  intros Ht. unfold MAX_TOKEN in Ht.
  assert (is_u 32 (len (as_bytes token))) as Hl by (unfold is_u; len_facts; lia).
  enough (reads read_handshake (client_hello token want)
    (WIRE_MAGIC, if want then FEATURE_GZIP else 0, as_bytes token, false)) as [Hr _] by apply Hr.
  unfold read_handshake, client_hello. rewrite wrap_u_small by done.
  eapply reads_bind; [apply (reads_bytes WIRE_MAGIC)|].
  eapply reads_bind; [apply reads_u32; by destruct want|].
  eapply reads_bind; [by apply reads_u32|].
  unfold MAX_TOKEN. rewrite (proj2 (Z.ltb_ge _ _)) by done. eapply reads_last; [apply reads_bytes|done].
Qed.

(** Reading the reply of a server. *)
Lemma client_reply_write want status features msg k :
  is_u 32 features -> len (as_bytes msg) <= MAX_HANDSHAKE_MSG ->
  client_reply want (write_handshake status features msg ++ k) =
    if bool_decide (status = StOk) then Ok (want && negb (Z.land features FEATURE_GZIP =? 0), k)
    else Err (HandshakeFailed status).
Proof.
  intros Hf Hm. unfold MAX_HANDSHAKE_MSG in Hm.
  assert (is_u 32 (len (as_bytes msg))) as Hl by (unfold is_u; len_facts; lia).
  unfold client_reply, write_handshake. rewrite wrap_u_small, <- !app_assoc by done.
  rewrite (stream_reads HsIo (get_bytes 4) WIRE_MAGIC WIRE_MAGIC) by apply (reads_bytes WIRE_MAGIC).
  cbn [mbind outcome_bind].
  rewrite (stream_reads HsIo get_u8 _ (status_u8 status)) by (apply reads_u8; by destruct status).
  cbn [mbind outcome_bind]. rewrite (stream_reads HsIo get_u32 _ features) by (by apply reads_u32).
  cbn [mbind outcome_bind]. rewrite (stream_reads HsIo get_u32 _ (len (as_bytes msg))) by (by apply reads_u32).
  cbn [mbind outcome_bind]. rewrite bool_decide_true by done. cbn [negb]. rewrite status_from_to.
  unfold MAX_HANDSHAKE_MSG. rewrite (proj2 (Z.ltb_ge _ _)) by done.
  rewrite (stream_reads HsIo (get_bytes _) (as_bytes msg) (as_bytes msg)) by apply reads_bytes.
  cbn [mbind outcome_bind]. by destruct (bool_decide (status = StOk)).
Qed.

(** ** Storage records on the wire *)

(** [encode_consume_from_records] of the server. *)
Definition encode_consume_from_records (partition next_offset high_watermark : Z) (records : list record)
    : list byte :=
  to_be 8 next_offset ++ to_be 8 high_watermark ++ to_be 4 (wrap_u 32 (len records)) ++
  concat ((fun r => to_be 4 partition ++ to_be 8 (r_offset r) ++ to_be 8 (r_timestamp_ms r) ++
            put_opt_bytes_i32 (r_key r) ++ put_wire_value (r_value r)) <$> records).

Definition wire_of_record (partition : Z) (r : record) : wire_record :=
  mkWRec partition (r_offset r) (r_timestamp_ms r) (r_key r) (r_value r).

Lemma encode_consume_direct partition next hwm records :
  encode_consume_from_records partition next hwm records =
  encode_consume_response (mkWCRes (wire_of_record partition <$> records) next hwm).
Proof.
  unfold encode_consume_from_records, encode_consume_response. cbn [ws_next_offset ws_high_watermark ws_records].
  rewrite len_fmap. by rewrite <- list_fmap_compose.
Qed.

Lemma wire_of_record_ok partition r :
  record_ok r -> is_u 32 partition -> wire_record_ok (wire_of_record partition r).
Proof.
  intros Hr Hp. destruct (record_ok_lens r Hr) as (_ & Hv & _ & Hk). pose proof Hr as (Ho & Ht & _). done.
Qed.

(** ** Properties *)

Section WireClaims.

(** C39: every message of the protocol survives the wire.  A request or response
    that fits its format is read back as it was written, whatever follows it in
    the buffer, and any truncation of it is reported as the end of the input,
    never misread. *)
Theorem wire_messages_roundtrip q rs cq cr k :
  produce_request_ok q -> is_u 32 (len rs) -> Forall produce_result_ok rs ->
  consume_request_ok cq -> consume_response_ok cr ->
  decode_produce_request (encode_produce_request q ++ k) = Ok q /\
  decode_produce_response (encode_produce_response rs ++ k) = Ok rs /\
  decode_consume_request (encode_consume_request cq ++ k) = Ok cq /\
  decode_consume_response (encode_consume_response cr ++ k) = Ok cr /\
  forall n,
    ((n < length (encode_produce_request q))%nat ->
       decode_produce_request (take n (encode_produce_request q)) = Err UnexpectedEof) /\
    ((n < length (encode_produce_response rs))%nat ->
       decode_produce_response (take n (encode_produce_response rs)) = Err UnexpectedEof) /\
    ((n < length (encode_consume_request cq))%nat ->
       decode_consume_request (take n (encode_consume_request cq)) = Err UnexpectedEof) /\
    ((n < length (encode_consume_response cr))%nat ->
       decode_consume_response (take n (encode_consume_response cr)) = Err UnexpectedEof).
Proof.
  intros Hq Hl Hr Hc Hs.
  split_and!; [exact (codec_roundtrip q k Hq)|exact (codec_roundtrip rs k (conj Hl Hr))
    |exact (codec_roundtrip cq k Hc)|exact (codec_roundtrip cr k Hs)|].
  intros n. split_and!; intros Hn;
    [exact (codec_truncated q n Hq Hn)|exact (codec_truncated rs n (conj Hl Hr) Hn)
    |exact (codec_truncated cq n Hc Hn)|exact (codec_truncated cr n Hs Hn)].
Qed.

(** The topic a request is authorized for is the topic it is executed on.  The
    server reads the topic from the head of the payload (inflating only that much
    when the connection uses gzip) and checks access before the rest is decoded;
    whatever bytes a client sends, if the whole request then decodes, it names
    that same topic. *)
Theorem peeked_topic_is_the_topic `{Gzip} (payload : list byte) (gzip : bool) cap body :
  (if gzip then decompress payload cap else Ok payload) = Ok body ->
  (forall q, decode_produce_request body = Ok q -> peek_topic payload gzip = Ok (wq_topic q)) /\
  (forall q, decode_consume_request body = Ok q -> peek_topic payload gzip = Ok (wc_topic q)).
Proof.
  intros Hb. unfold peek_topic.
  assert ((if gzip then (gz_inflate payload).1 else payload) = body) as ->.
  { destruct gzip; [|by injection Hb]. unfold decompress in Hb. destruct (gz_inflate payload) as [out clean].
    case_if_in Hb; [done|]. destruct clean; [|done]. by injection Hb. }
  split; intros q Hq; [by apply produce_topic_first|by apply consume_topic_first].
Qed.

(** What a client writes into a connection the server reads frame by frame.
    Frames that respect the limits come out of the stream with their request ids,
    opcodes and payloads, in order, however many are sent back to back. *)
Theorem frames_roundtrip max fs bytes :
  Forall2 (fun '(id, op, payload) frame =>
    is_u 32 id /\ encode_frame id op payload = Some frame /\ 5 + len payload <= max) fs bytes ->
  read_frames (S (length fs)) max (concat bytes) = fs.
Proof. apply read_frames_encode. Qed.
End WireClaims.

(** ** Limits of the format *)

(** A partition number at or above 2^31 is read as "none". *)
Example large_partition_reads_as_none :
  get_opt_u32_neg (put_opt_u32_neg (Some (2 ^ 31))) = Ok (None, []).
Proof. vm_compute. reflexivity. Qed.

(** The smallest sequence is read as "none". *)
Example min_sequence_reads_as_none :
  get_opt_i64_min (put_opt_i64_min (Some I64_MIN)) = Ok (None, []).
Proof. vm_compute. reflexivity. Qed.

(** ** Witnesses *)

Definition sample_produce : produce_request :=
  mkWPReq "orders" (Some "pid-1"%string)
    [mkWPR (Some [x6b]) [x00; xff] (Some 2) (Some 42); mkWPR None [] None None].
Definition sample_results : list produce_result := [mkWPRes 2 100 false; mkWPRes 0 7 true].
Definition sample_consume : consume_request := mkWCReq "orders" 1 100 500 65536.
Definition sample_response : consume_response := mkWCRes [mkWRec 1 100 (-5) None [x01]] 101 200.

Lemma sample_produce_ok : produce_request_ok sample_produce.
Proof.
  split_and!; [reflexivity|vm_compute; split; congruence|split; [reflexivity|vm_compute; congruence]
    |vm_compute; split; congruence|].
  constructor; [|constructor; [|constructor]].
  - split; [reflexivity|]. split; [vm_compute; split; congruence|]. split; [cbn; lia|].
    intros n E. injection E as <-. split; [unfold is_i; lia|discriminate].
  - split; [reflexivity|]. split; [vm_compute; split; congruence|]. split; [cbn; lia|discriminate].
Qed.

Lemma wire_messages_roundtrip_witness :
  decode_produce_request (encode_produce_request sample_produce ++ [x00]) = Ok sample_produce /\
  decode_consume_request (take 5 (encode_consume_request sample_consume)) = Err UnexpectedEof.
Proof.
  destruct (wire_messages_roundtrip sample_produce sample_results sample_consume sample_response [x00])
    as (H1 & _ & _ & _ & H2).
  - apply sample_produce_ok.
  - vm_compute; split; congruence.
  - repeat constructor; vm_compute; congruence.
  - split_and!; [reflexivity|vm_compute; split; congruence..].
  - split_and!; [vm_compute; split; congruence..|]. repeat constructor; vm_compute; congruence.
  - split; [exact H1|]. apply H2. vm_compute. lia.
Defined.

(** Stored blocks: deflating changes nothing. *)
Definition gzip_stored : Gzip :=
  {| gz_inflate l := (l, true); gz_deflate _ l := l; gz_law _ _ := eq_refl |}.

Lemma peeked_topic_is_the_topic_witness :
  @peek_topic gzip_stored (encode_produce_request sample_produce) true = Ok "orders"%string.
Proof.
  destruct (@peeked_topic_is_the_topic gzip_stored (encode_produce_request sample_produce) true 1000
    (encode_produce_request sample_produce)) as [Hp _].
  - vm_compute. reflexivity.
  - apply (Hp sample_produce). vm_compute. reflexivity.
Defined.

Lemma frames_roundtrip_witness :
  read_frames 3 1000 (concat [to_be 4 7 ++ to_be 4 1 ++ [x01; xaa; xbb]; to_be 4 5 ++ to_be 4 2 ++ [x03]]) =
    [(1, OpProduce, [xaa; xbb]); (2, OpPing, [])].
Proof.
  apply (frames_roundtrip 1000 [(1, OpProduce, [xaa; xbb]); (2, OpPing, [])]).
  repeat constructor; vm_compute; congruence.
Defined.
