(* ===== verification/Auth.v ===== *)
(** * API keys and access control (crates/es-broker/src/auth.rs)

    Access rules and the topics they cover, the key store with its file, and the
    byte-rate limiters.

    SHA-256, base64 and the random secret are parameters; the JSON of the key file
    is the list of its entries.  [DashMap] iteration order is the order of
    [map_to_list], and the theorem about reloading holds for any order.  The
    limiters compute with [f64]; here a bucket counts byte-nanoseconds exactly. *)

From Stdlib Require Import Ascii.
From S2P Require Export Topic RustStd.

#[local] Open Scope Z_scope.

(** ** Access rules *)

Inductive auth_mode : Type := AuthDisabled | AuthRequired.
Inductive acl_action : Type := ActRead | ActWrite | ActAdmin.
#[export] Instance acl_action_eq_dec : EqDecision acl_action.
Proof. solve_decision. Defined.

Definition action_as_str (a : acl_action) : string :=
  match a with ActRead => "read" | ActWrite => "write" | ActAdmin => "admin" end.

Definition action_from_str (s : string) : outcome string acl_action :=
  if String.eqb s "read" then Ok ActRead else if String.eqb s "write" then Ok ActWrite
  else if String.eqb s "admin" then Ok ActAdmin else Err "unknown acl action"%string.

Record acl_rule : Type := mkRule { ru_action : acl_action; ru_topic_prefix : string }.

(** [NAME_SEPARATORS]. *)
Definition is_separator (c : Ascii.ascii) : bool :=
  Ascii.eqb c "."%char || Ascii.eqb c "-"%char || Ascii.eqb c "_"%char.

Definition chars (s : string) : list Ascii.ascii := String.list_ascii_of_string s.

Definition starts_with_separator (l : list Ascii.ascii) : bool :=
  match l with c :: _ => is_separator c | [] => false end.

Definition prefix_matches (prefix topic : string) : bool :=
  if String.eqb prefix "*" then true
  else if String.eqb prefix "" || negb (String.prefix prefix topic) then false
  else if (String.length topic =? String.length prefix)%nat ||
          match last (chars prefix) with Some c => is_separator c | None => false end then true
  else starts_with_separator (drop (String.length prefix) (chars topic)).

Definition rule_matches (r : acl_rule) (action : acl_action) (topic : string) : bool :=
  match ru_action r, action with
  | ActAdmin, _ => true
  | ActRead, ActRead | ActWrite, ActWrite => true
  | ActWrite, ActRead => true
  | _, _ => false
  end && prefix_matches (ru_topic_prefix r) topic.

Definition validate_prefix (prefix : string) : outcome string unit :=
  if String.eqb prefix "*" then Ok tt
  else if String.eqb prefix "" || (200 <? Z.of_nat (String.length prefix)) then
    Err "topic_prefix must be '*' or 1..=200 characters (an empty prefix is not allowed)"%string
  else if negb (forallb topic_char (chars prefix)) then
    Err "topic_prefix may only contain ASCII alphanumerics, '_', '-', '.' (or be '*')"%string
  else Ok tt.

Record api_key : Type := mkKey {
  k_key_id : string; k_name : string; k_acls : list acl_rule;
  k_produce_bytes_per_sec : option Z; k_consume_bytes_per_sec : option Z;
  k_created_at_ms : Z; k_disabled : bool }.

Definition can (k : api_key) (action : acl_action) (topic : string) : bool :=
  negb (k_disabled k) && existsb (fun r => rule_matches r action topic) (k_acls k).

Definition is_admin (k : api_key) : bool :=
  negb (k_disabled k) &&
  existsb (fun r => bool_decide (ru_action r = ActAdmin) && String.eqb (ru_topic_prefix r) "*") (k_acls k).

Definition ANONYMOUS_ADMIN : api_key :=
  mkKey "anonymous" "anonymous (auth disabled)" [mkRule ActAdmin "*"] None None 0 false.

(** ** Hexadecimal *)

Definition nibble_char (n : Z) : Ascii.ascii :=
  Ascii.ascii_of_N (Z.to_N (if n <? 10 then 48 + n else 87 + n)).

Definition hex_encode (bytes : list byte) : string :=
  String.string_of_list_ascii
    (bytes ≫= fun b => [nibble_char (Z_of_byte b / 16); nibble_char (Z_of_byte b mod 16)]).

Definition nyb (c : Ascii.ascii) : option Z :=
  let b := Z.of_N (Ascii.N_of_ascii c) in
  if (48 <=? b) && (b <=? 57) then Some (b - 48)
  else if (97 <=? b) && (b <=? 102) then Some (b - 97 + 10)
  else if (65 <=? b) && (b <=? 70) then Some (b - 65 + 10)
  else None.

Fixpoint nybbles (l : list Ascii.ascii) : option (list byte) :=
  match l with
  | [] => Some []
  | hi :: lo :: l =>
    match nyb hi, nyb lo, nybbles l with
    | Some h, Some lo, Some bs => Some (byte_of_Z (Z.lor (Z.shiftl h 4) lo) :: bs)
    | _, _, _ => None
    end
  | [_] => None
  end.

(** [hex::decode_into] an array of [n] bytes. *)
Definition hex_decode_into (hex : string) (n : nat) : option (list byte) :=
  if (String.length hex =? n * 2)%nat then nybbles (chars hex) else None.

(** ** Rate limits *)

(** Nanoseconds in a second: a bucket's unit is a byte-nanosecond, so that
    [tokens] tokens are [tokens * SEC]. *)
Definition SEC : Z := 1000000000.

Record bucket : Type := mkBucket { bk_rate : Z; bk_tokens : Z; bk_last : Z }.

Definition bucket_new (rate now : Z) : bucket := mkBucket rate (rate * SEC) now.

Definition refill (b : bucket) (now : Z) : bucket :=
  mkBucket (bk_rate b) (Z.min (bk_tokens b + (now - bk_last b) * bk_rate b) (bk_rate b * SEC)) now.

(** [Err]: when to retry; [None] is the flat second of a request that can never
    fit, otherwise the missing byte-nanoseconds. *)
Definition try_take (b : bucket) (n now : Z) : outcome (option Z) unit * bucket :=
  let b := refill b now in
  if bk_rate b <? n then (Err None, b)
  else if n * SEC <=? bk_tokens b then (Ok tt, mkBucket (bk_rate b) (bk_tokens b - n * SEC) (bk_last b))
  else (Err (Some (n * SEC - bk_tokens b)), b).

Definition check_credit (b : bucket) (now : Z) : outcome Z unit * bucket :=
  let b := refill b now in
  if 0 <? bk_tokens b then (Ok tt, b) else (Err (- bk_tokens b + SEC), b).

Definition charge (b : bucket) (n now : Z) : bucket :=
  let b := refill b now in
  mkBucket (bk_rate b) (Z.max (bk_tokens b - n * SEC) (-10 * bk_rate b * SEC)) (bk_last b).

Record key_limiters : Type := mkLimiters { li_produce : option bucket; li_consume : option bucket }.

Definition make_limiters (k : api_key) (now : Z) : key_limiters :=
  let lim o := n ← o; if 0 <? n then Some (bucket_new n now) else None in
  mkLimiters (lim (k_produce_bytes_per_sec k)) (lim (k_consume_bytes_per_sec k)).

(** ** The key store *)

Record persisted_key : Type := mkPKey {
  pk_key_id : string; pk_name : string; pk_secret_sha256_hex : string; pk_acls : list (string * string);
  pk_produce : option Z; pk_consume : option Z; pk_created_at_ms : Z; pk_disabled : bool }.

Record key_store : Type := mkStore {
  ks_file : option (list persisted_key);
  ks_keys : gmap string api_key;
  ks_by_hash : gmap (list byte) string;
  ks_limiters : gmap string key_limiters;
  ks_revocations : Z }.

(** SHA-256 and URL-safe base64. *)
Class Hashing : Type := {
  sha256 : list byte -> list byte;
  sha256_len : forall l, length (sha256 l) = 32%nat;
  base64url : list byte -> string
}.

Record create_request : Type := mkCreate {
  cr_name : string; cr_acls : list acl_rule; cr_produce : option Z; cr_consume : option Z }.

Section Store.
Context `{Hashing}.

(** The entry of one key; the hash is found by a reverse lookup, and is empty when
    there is none. *)
Definition to_persisted (by_hash : gmap (list byte) string) (k : api_key) : persisted_key :=
  let hex := match list_find (fun x => x.2 = k_key_id k) (map_to_list by_hash) with
             | Some (_, (h, _)) => hex_encode h
             | None => ""%string
             end in
  mkPKey (k_key_id k) (k_name k) hex
    ((fun r => (action_as_str (ru_action r), ru_topic_prefix r)) <$> k_acls k)
    (k_produce_bytes_per_sec k) (k_consume_bytes_per_sec k) (k_created_at_ms k) (k_disabled k).

Definition key_snapshot (s : key_store) : list persisted_key :=
  to_persisted (ks_by_hash s) <$> (map_to_list (ks_keys s)).*2.

(** [persist]: the file is replaced, or an error leaves it as it was. *)
Definition persist (s : key_store) (ok : bool) : outcome string unit * key_store :=
  if ok then
    (Ok tt, mkStore (Some (key_snapshot s)) (ks_keys s) (ks_by_hash s) (ks_limiters s) (ks_revocations s))
  else (Err "write"%string, s).

Fixpoint validate_prefixes (rs : list acl_rule) : outcome string unit :=
  match rs with
  | [] => Ok tt
  | r :: rs => _ ← validate_prefix (ru_topic_prefix r); validate_prefixes rs
  end.

Definition new_key_id (hash : list byte) : string := "key_" +:+ hex_encode (take 6 hash).

(** [create_key] with the 32 random bytes of the secret; returns the key and the
    secret. *)
Definition create_key (s : key_store) (req : create_request) (secret_bytes : list byte)
    (now now_ms : Z) (write_ok : bool) : outcome string (api_key * string) * key_store :=
  if (String.length (cr_name req) =? 0)%nat || (200 <? Z.of_nat (String.length (cr_name req)))
  then (Err "name must be 1..=200 characters"%string, s)
  else if 100 <? len (cr_acls req) then (Err "a key may carry at most 100 ACL rules"%string, s)
  else match validate_prefixes (cr_acls req) with
  | Ok _ =>
    let secret := "esk_" +:+ base64url secret_bytes in
    let hash := sha256 (as_bytes secret) in
    let key_id := new_key_id hash in
    let k := mkKey key_id (cr_name req) (cr_acls req) (cr_produce req) (cr_consume req) now_ms false in
    let s := mkStore (ks_file s) (<[key_id := k]> (ks_keys s)) (<[hash := key_id]> (ks_by_hash s))
               (<[key_id := make_limiters k now]> (ks_limiters s)) (ks_revocations s) in
    match persist s write_ok with
    | (Ok _, s) => (Ok (k, secret), s)
    | (Err e, s) => (Err e, s)
    | (Panic, s) => (Panic, s)
    end
  | Err e => (Err e, s)
  | Panic => (Panic, s)
  end.

Definition disable (k : api_key) : api_key :=
  mkKey (k_key_id k) (k_name k) (k_acls k) (k_produce_bytes_per_sec k) (k_consume_bytes_per_sec k)
    (k_created_at_ms k) true.

Definition revoke_key (s : key_store) (key_id : string) (write_ok : bool) : outcome string unit * key_store :=
  match ks_keys s !! key_id with
  | None => (Err "key not found"%string, s)
  | Some k =>
    persist (mkStore (ks_file s) (<[key_id := disable k]> (ks_keys s)) (ks_by_hash s) (ks_limiters s)
               (wrap_u 64 (ks_revocations s + 1))) write_ok
  end.

Definition get_enabled (s : key_store) (key_id : string) : option api_key :=
  k ← ks_keys s !! key_id; if k_disabled k then None else Some k.

Definition authenticate (s : key_store) (secret : string) : option api_key :=
  key_id ← ks_by_hash s !! sha256 (as_bytes secret);
  k ← ks_keys s !! key_id;
  if k_disabled k then None else Some k.

(** The limiter calls; a key without a limiter is not limited. *)
Definition check_produce (s : key_store) (key_id : string) (n now : Z) : outcome (option Z) unit * key_store :=
  match ks_limiters s !! key_id with
  | Some l =>
    match li_produce l with
    | Some b =>
      let (r, b) := try_take b n now in
      (r, mkStore (ks_file s) (ks_keys s) (ks_by_hash s)
            (<[key_id := mkLimiters (Some b) (li_consume l)]> (ks_limiters s)) (ks_revocations s))
    | None => (Ok tt, s)
    end
  | None => (Ok tt, s)
  end.

Definition check_consume (s : key_store) (key_id : string) (now : Z) : outcome Z unit * key_store :=
  match ks_limiters s !! key_id with
  | Some l =>
    match li_consume l with
    | Some b =>
      let (r, b) := check_credit b now in
      (r, mkStore (ks_file s) (ks_keys s) (ks_by_hash s)
            (<[key_id := mkLimiters (li_produce l) (Some b)]> (ks_limiters s)) (ks_revocations s))
    | None => (Ok tt, s)
    end
  | None => (Ok tt, s)
  end.

Definition charge_consume (s : key_store) (key_id : string) (n now : Z) : key_store :=
  match ks_limiters s !! key_id with
  | Some l =>
    match li_consume l with
    | Some b =>
      mkStore (ks_file s) (ks_keys s) (ks_by_hash s)
        (<[key_id := mkLimiters (li_produce l) (Some (charge b n now))]> (ks_limiters s)) (ks_revocations s)
    | None => s
    end
  | None => s
  end.

(** ** Opening *)

Fixpoint load_acls (l : list (string * string)) : outcome string (list acl_rule) :=
  match l with
  | [] => Ok []
  | (action, prefix) :: l =>
    a ← action_from_str action;
    rs ← load_acls l;
    Ok (mkRule a (if String.eqb prefix "" then "*"%string else prefix) :: rs)
  end.

Definition load_key (s : key_store) (now : Z) (pk : persisted_key) : outcome string key_store :=
  match hex_decode_into (pk_secret_sha256_hex pk) 32 with
  | None => Err "bad secret_sha256_hex"%string
  | Some hash =>
    acls ← load_acls (pk_acls pk);
    let k := mkKey (pk_key_id pk) (pk_name pk) acls (pk_produce pk) (pk_consume pk) (pk_created_at_ms pk)
               (pk_disabled pk) in
    Ok (mkStore (ks_file s) (<[pk_key_id pk := k]> (ks_keys s)) (<[hash := pk_key_id pk]> (ks_by_hash s))
          (<[pk_key_id pk := make_limiters k now]> (ks_limiters s)) (ks_revocations s))
  end.

Fixpoint load_keys (s : key_store) (now : Z) (pks : list persisted_key) : outcome string key_store :=
  match pks with
  | [] => Ok s
  | pk :: pks => s ← load_key s now pk; load_keys s now pks
  end.

Definition bootstrap_request : create_request := mkCreate "bootstrap-admin" [mkRule ActAdmin "*"] None None.

(** [KeyStore::open] on the contents of the file ([None]: no file); with
    [auth_required] and no keys, a bootstrap admin key is created.  Returns the
    secret of that key. *)
Definition keystore_open (file : option (list persisted_key)) (auth_required : bool)
    (secret_bytes : list byte) (now now_ms : Z) (write_ok : bool)
    : outcome string (key_store * option string) :=
  s ← load_keys (mkStore file ∅ ∅ ∅ 0) now (default [] file);
  if auth_required && bool_decide (ks_keys s = ∅) then
    match create_key s bootstrap_request secret_bytes now now_ms write_ok with
    | (Ok (_, secret), s) => Ok (s, Some secret)
    | (Err e, _) => Err e
    | (Panic, _) => Panic
    end
  else Ok (s, None).
End Store.

(** ** Which topics a prefix covers *)

Lemma chars_app a b : chars (a +:+ b) = chars a ++ chars b.
Proof.
  induction a as [|c a IH]; [done|]. change (c :: chars (a +:+ b) = c :: chars a ++ chars b). by rewrite IH.
Qed.

Lemma chars_length s : length (chars s) = String.length s.
Proof. unfold chars. induction s as [|c s IH]; [done|]. cbn. by f_equal. Qed.

Lemma prefix_app p t : String.prefix p t = true <-> exists r, t = p +:+ r.
Proof.
  revert p. induction t as [|d t IH]; intros [|c p]; cbn.
  - split; [by exists ""%string|done].
  - split; [done|by intros [r Hr]].
  - split; [by exists (String.String d t)|done].
  - destruct (Ascii.ascii_dec c d) as [->|Hne].
    + rewrite IH. split; intros [r Hr]; exists r; [by subst t|].
      change (String.String d t = String.String d (p +:+ r)) in Hr. congruence.
    + split; [done|]. intros [r Hr]. change (String.String d t = String.String c (p +:+ r)) in Hr. congruence.
Qed.

(** "At or below": the name itself, or the name followed by a separator. *)
Definition covers (prefix topic : string) : Prop :=
  prefix = "*"%string \/
  (prefix <> ""%string /\ exists rest, topic = prefix +:+ rest /\
     (rest = ""%string \/ starts_with_separator (chars rest) = true \/
      exists c, last (chars prefix) = Some c /\ is_separator c = true)).

Lemma prefix_matches_covers prefix topic : prefix_matches prefix topic = true <-> covers prefix topic.
Proof.
  unfold prefix_matches, covers. destruct (String.eqb prefix "*") eqn:E1.
  { apply String.eqb_eq in E1. split; [by left|done]. }
  apply String.eqb_neq in E1. destruct (String.eqb prefix "") eqn:E2; cbn [orb].
  { apply String.eqb_eq in E2. split; [done|]. by intros [?|[? _]]. }
  apply String.eqb_neq in E2. destruct (String.prefix prefix topic) eqn:Ep; cbn [negb].
  2: { split; [done|]. intros [?|(_ & r & -> & _)]; [done|]. exfalso.
       assert (String.prefix prefix (prefix +:+ r) = true) by (apply prefix_app; by exists r). congruence. }
  apply prefix_app in Ep as [r ->].
  assert ((String.length (prefix +:+ r) =? String.length prefix)%nat = true <-> r = ""%string) as Hlen.
  { rewrite Nat.eqb_eq, <- !chars_length, chars_app, length_app. split; [|intros ->; cbn; lia].
    intros Hl. destruct r; [done|]. cbn in Hl. lia. }
  assert (drop (String.length prefix) (chars (prefix +:+ r)) = chars r) as ->.
  { rewrite chars_app. apply drop_app_len. by rewrite chars_length. }
  assert (forall r', prefix +:+ r = prefix +:+ r' -> r' = r) as Hinj.
  { intros r' Hr. apply (f_equal chars) in Hr. rewrite !chars_app in Hr. apply app_inv_head in Hr.
    apply (f_equal String.string_of_list_ascii) in Hr. unfold chars in Hr.
    by rewrite !String.string_of_list_ascii_of_string in Hr. }
  set (ends := match last (chars prefix) with Some c => is_separator c | None => false end).
  assert (ends = true <-> exists c, last (chars prefix) = Some c /\ is_separator c = true) as Hends.
  { subst ends. destruct (last (chars prefix)) as [c|]; split; try done; [by exists c|by intros (? & [= ->] & ?)|by intros (? & ? & ?)]. }
  case_if.
  - split; [|done]. intros _. right. split; [done|]. exists r. split; [done|].
    apply orb_prop in Heqb as [Hb|Hb]; [left; by apply Hlen|right; right; by apply Hends].
  - apply orb_false_iff in Heqb as [H1 H2]. split.
    + intros Hs. right. split; [done|]. exists r. split; [done|]. right. by left.
    + intros [?|(_ & r' & Hr & Hc)]; [done|]. apply Hinj in Hr as ->.
      destruct Hc as [Hc|[Hc|Hc]]; [apply Hlen in Hc; congruence|done|apply Hends in Hc; congruence].
Qed.

(** ** Hexadecimal round trip *)

Lemma nyb_nibble n : 0 <= n < 16 -> nyb (nibble_char n) = Some n.
Proof.
  assert (Forall (fun n => nyb (nibble_char n) = Some n) (seqZ 0 16)) as Hall by (vm_compute; repeat constructor).
  intros Hn. rewrite Forall_forall in Hall. apply Hall, elem_of_seqZ. lia.
Qed.

Lemma nybbles_encode bs :
  nybbles (bs ≫= fun b => [nibble_char (Z_of_byte b / 16); nibble_char (Z_of_byte b mod 16)]) = Some bs.
Proof.
  induction bs as [|b bs IH]; [done|]. pose proof (Z_of_byte_range b) as Hb.
  cbn [mbind list_bind app nybbles]. change (list_bind _ _ _ bs) with
    (bs ≫= fun b => [nibble_char (Z_of_byte b / 16); nibble_char (Z_of_byte b mod 16)]).
  rewrite !nyb_nibble by (try apply Z.mod_pos_bound; try split; try apply Z.div_lt_upper_bound; lia || apply Z.div_pos; lia).
  rewrite IH. f_equal. f_equal.
  replace (Z.lor (Z.shiftl (Z_of_byte b / 16) 4) (Z_of_byte b mod 16)) with (Z_of_byte b); [apply byte_of_Z_of_byte|].
  rewrite <- (byte_of_Z_of_byte b). by destruct b.
Qed.

Lemma hex_roundtrip bs : hex_decode_into (hex_encode bs) (length bs) = Some bs.
Proof.
  unfold hex_decode_into, hex_encode. set (l := bs ≫= _).
  assert (chars (String.string_of_list_ascii l) = l) as El by apply String.list_ascii_of_string_of_list_ascii.
  assert (String.length (String.string_of_list_ascii l) = (length bs * 2)%nat) as ->.
  { rewrite <- chars_length, El. subst l. clear. induction bs as [|b bs IH]; [done|]. cbn. cbn in IH. lia. }
  rewrite Nat.eqb_refl, El. apply nybbles_encode.
Qed.

(** ** The store *)

Section StoreFacts.
Context `{Hashing}.

(** Every key has exactly one secret hash, and every hash belongs to a key. *)
Record store_wf (s : key_store) : Prop := {
  sw_ids : forall id k, ks_keys s !! id = Some k -> k_key_id k = id;
  sw_hash : forall id, is_Some (ks_keys s !! id) -> exists h, ks_by_hash s !! h = Some id;
  sw_unique : forall h h' id, ks_by_hash s !! h = Some id -> ks_by_hash s !! h' = Some id -> h = h';
  sw_owned : forall h id, ks_by_hash s !! h = Some id -> length h = 32%nat /\ is_Some (ks_keys s !! id);
  sw_prefix : forall id k r, ks_keys s !! id = Some k -> r ∈ k_acls k -> ru_topic_prefix r <> ""%string;
  sw_epoch : 0 <= ks_revocations s < 2 ^ 64
}.

Lemma store_wf_empty file : store_wf (mkStore file ∅ ∅ ∅ 0).
Proof.
  constructor; cbn; try lia; intros *; rewrite lookup_empty; try done.
Qed.

(** Writing the file changes nothing in memory. *)
Lemma persist_wf s ok : store_wf s -> store_wf (persist s ok).2.
Proof. intros []. unfold persist. destruct ok; by constructor. Qed.

Lemma validate_prefixes_ok rs : validate_prefixes rs = Ok tt -> Forall (fun r => ru_topic_prefix r <> ""%string) rs.
Proof.
  induction rs as [|r rs IH]; [constructor|]. cbn. intros Hv. apply bind_ok_inv in Hv as (u & Hp & Hv).
  constructor; [|by apply IH]. intros E. rewrite E in Hp. vm_compute in Hp. discriminate.
Qed.

(** The id of a new key is new: the first six bytes of its hash have not been
    used. *)
Definition fresh_secret (s : key_store) (secret : string) : Prop :=
  let h := sha256 (as_bytes secret) in ks_keys s !! new_key_id h = None /\ ks_by_hash s !! h = None.

Lemma store_wf_insert s s' h id k :
  store_wf s -> ks_keys s' = <[id := k]> (ks_keys s) -> ks_by_hash s' = <[h := id]> (ks_by_hash s) ->
  ks_revocations s' = ks_revocations s -> ks_keys s !! id = None -> ks_by_hash s !! h = None ->
  length h = 32%nat -> k_key_id k = id -> Forall (fun r => ru_topic_prefix r <> ""%string) (k_acls k) -> store_wf s'.
Proof.
  intros Hw E1 E2 E3 Hf1 Hf2 Hlen Ek Hv.
  assert (forall h', ks_by_hash s !! h' <> Some id) as Hnone.
  { intros h' Hh. destruct (sw_owned s Hw h' id Hh) as [_ Hs]. rewrite Hf1 in Hs. by destruct Hs. }
  constructor; rewrite ?E1, ?E2, ?E3; [..|apply Hw].
  - intros i k' Hk. apply lookup_insert_Some in Hk as [[<- <-]|[_ Hk]]; [done|by apply Hw].
  - intros i Hi. destruct (decide (id = i)) as [<-|Hne]; [exists h; apply lookup_insert_eq|].
    rewrite lookup_insert_ne in Hi by done. destruct (sw_hash s Hw i Hi) as [h' Hh]. exists h'.
    rewrite lookup_insert_ne; [done|]. intros ->. congruence.
  - intros h1 h2 i H1 H2. apply lookup_insert_Some in H1 as [[<- <-]|[Hn1 H1]].
    + apply lookup_insert_Some in H2 as [[<- _]|[_ H2]]; [done|by destruct (Hnone h2)].
    + apply lookup_insert_Some in H2 as [[<- <-]|[_ H2]]; [by destruct (Hnone h1)|by eapply Hw].
  - intros h' i Hh. apply lookup_insert_Some in Hh as [[<- <-]|[_ Hh]].
    + split; [done|]. rewrite lookup_insert_eq. by eexists.
    + destruct (sw_owned s Hw h' i Hh) as [Hl Hs]. split; [done|]. destruct (decide (id = i)) as [<-|Hne];
        [rewrite lookup_insert_eq; by eexists|by rewrite lookup_insert_ne].
  - intros i k' r Hk. apply lookup_insert_Some in Hk as [[_ <-]|[_ Hk]]; [|by eapply Hw].
    intros Hr. rewrite Forall_forall in Hv. auto.
Qed.

(** What creating a key does: nothing when the request is refused, otherwise the
    key is in memory, whether or not the file could be written. *)
Lemma create_key_state s req sb now ms ok :
  let secret := "esk_" +:+ base64url sb in
  let h := sha256 (as_bytes secret) in
  let k := mkKey (new_key_id h) (cr_name req) (cr_acls req) (cr_produce req) (cr_consume req) ms false in
  let '(res, s') := create_key s req sb now ms ok in
  (s' = s /\ exists e, res = Err e) \/
  (res = (if ok then Ok (k, secret) else Err "write"%string) /\
   ks_keys s' = <[new_key_id h := k]> (ks_keys s) /\ ks_by_hash s' = <[h := new_key_id h]> (ks_by_hash s) /\
   ks_file s' = (if ok then Some (key_snapshot s') else ks_file s) /\ ks_revocations s' = ks_revocations s /\
   Forall (fun r => ru_topic_prefix r <> ""%string) (cr_acls req)).
Proof.
  cbv zeta. unfold create_key. case_if; [left; eauto|]. case_if; [left; eauto|].
  destruct (validate_prefixes (cr_acls req)) as [[]|e|] eqn:Ev; [|left; eauto|].
  - apply validate_prefixes_ok in Ev. unfold persist. destruct ok; by right.
  - exfalso. clear -Ev. revert Ev. induction (cr_acls req) as [|r rs IH]; [done|]. cbn. unfold validate_prefix.
    repeat (case_if; try done).
Qed.

Lemma create_key_wf s req sb now ms ok :
  store_wf s -> fresh_secret s ("esk_" +:+ base64url sb) -> store_wf (create_key s req sb now ms ok).2.
Proof.
  intros Hw [Hf1 Hf2]. pose proof (create_key_state s req sb now ms ok) as Hc. cbv zeta in Hc.
  destruct (create_key s req sb now ms ok) as [res s']. cbn [snd].
  destruct Hc as [[-> _]|(_ & E1 & E2 & _ & E3 & Hv)]; [done|].
  eapply (store_wf_insert s s'); try done. apply sha256_len.
Qed.

Lemma revoke_key_spec s id ok :
  match ks_keys s !! id with
  | None => revoke_key s id ok = (Err "key not found"%string, s)
  | Some k =>
    let s' := (revoke_key s id ok).2 in
    ks_keys s' = <[id := disable k]> (ks_keys s) /\ ks_by_hash s' = ks_by_hash s /\
    ks_revocations s' = wrap_u 64 (ks_revocations s + 1) /\
    ((revoke_key s id ok).1 = Ok tt <-> ok = true)
  end.
Proof. unfold revoke_key, persist. destruct (ks_keys s !! id); [|done]. by destruct ok. Qed.

Lemma revoke_key_wf s id ok : store_wf s -> store_wf (revoke_key s id ok).2.
Proof.
  intros Hw. pose proof (revoke_key_spec s id ok) as Hs. destruct (ks_keys s !! id) as [k|] eqn:Ek; [|by rewrite Hs].
  cbv zeta in Hs. destruct Hs as (E1 & E2 & E3 & _). constructor; rewrite ?E1, ?E2, ?E3.
  - intros i k' Hk. apply lookup_insert_Some in Hk as [[<- <-]|[_ Hk]]; cbn; by apply Hw.
  - intros i Hi. apply Hw. destruct (decide (id = i)) as [<-|]; [by eexists|]. by rewrite lookup_insert_ne in Hi.
  - apply Hw.
  - intros h i Hh. destruct (sw_owned s Hw h i Hh) as [Hl Hs]. split; [done|].
    destruct (decide (id = i)) as [<-|]; [rewrite lookup_insert_eq; by eexists|by rewrite lookup_insert_ne].
  - intros i k' r Hk. apply lookup_insert_Some in Hk as [[_ <-]|[_ Hk]]; cbn; intros Hr; by eapply Hw.
  - apply wrap_u_range. lia.
Qed.

(** ** Reloading *)

(** Loading entries one after the other inserts them one after the other. *)
Lemma load_acls_persisted rs :
  Forall (fun r => ru_topic_prefix r <> ""%string) rs ->
  load_acls ((fun r => (action_as_str (ru_action r), ru_topic_prefix r)) <$> rs) = Ok rs.
Proof.
  induction 1 as [|[a p] rs Hp Hrs IH]; [done|]. cbn [fmap list_fmap load_acls ru_action ru_topic_prefix].
  assert (action_from_str (action_as_str a) = Ok a) as -> by (by destruct a). cbn [mbind outcome_bind].
  rewrite IH. cbn [mbind outcome_bind]. cbn in Hp. by rewrite (proj2 (String.eqb_neq _ _)).
Qed.

(** The hash [persist] finds for a key. *)
Definition hash_of (by_hash : gmap (list byte) string) (k : api_key) : list byte :=
  match list_find (fun x => x.2 = k_key_id k) (map_to_list by_hash) with
  | Some (_, (h, _)) => h
  | None => []
  end.

Lemma hash_of_spec s k :
  store_wf s -> ks_keys s !! k_key_id k = Some k ->
  ks_by_hash s !! hash_of (ks_by_hash s) k = Some (k_key_id k) /\
  pk_secret_sha256_hex (to_persisted (ks_by_hash s) k) = hex_encode (hash_of (ks_by_hash s) k).
Proof.
  intros Hw Hk. unfold hash_of, to_persisted. destruct (list_find _ _) as [[i [h id]]|] eqn:E.
  - apply list_find_Some in E as (E & Eid & _). cbn in Eid. subst id.
    apply list_elem_of_lookup_2, elem_of_map_to_list in E. done.
  - exfalso. destruct (sw_hash s Hw (k_key_id k)) as [h Hh]; [by eexists|].
    apply list_find_None in E. rewrite Forall_forall in E. apply (E (h, k_key_id k)); [|done].
    by apply elem_of_map_to_list.
Qed.

Definition load_step (bh : gmap (list byte) string) (acc : gmap string api_key * gmap (list byte) string) (k : api_key) :=
  (<[k_key_id k := k]> acc.1, <[hash_of bh k := k_key_id k]> acc.2).

Lemma load_keys_persisted s now ks s0 :
  store_wf s -> Forall (fun k => ks_keys s !! k_key_id k = Some k) ks ->
  exists s1, load_keys s0 now (to_persisted (ks_by_hash s) <$> ks) = Ok s1 /\
    (ks_keys s1, ks_by_hash s1) = fold_left (load_step (ks_by_hash s)) ks (ks_keys s0, ks_by_hash s0) /\
    ks_revocations s1 = ks_revocations s0 /\ ks_file s1 = ks_file s0.
Proof.
  intros Hw Hks. revert s0. induction Hks as [|k ks Hk Hks IH]; intros s0; [by exists s0|].
  cbn [fmap list_fmap load_keys fold_left]. unfold load_key at 1.
  destruct (hash_of_spec s k Hw Hk) as [Hh Ehex]. rewrite Ehex.
  assert (length (hash_of (ks_by_hash s) k) = 32%nat) as El by (by destruct (sw_owned s Hw _ _ Hh)).
  pose proof (hex_roundtrip (hash_of (ks_by_hash s) k)) as Hx. rewrite El in Hx. rewrite Hx. cbn [to_persisted pk_acls pk_key_id pk_name pk_produce pk_consume
    pk_created_at_ms pk_disabled].
  rewrite load_acls_persisted. 2: { apply Forall_forall. intros r Hr. by eapply Hw. }
  cbn [mbind outcome_bind]. destruct k as [id name acls pr co cr di]. cbn [k_key_id k_name k_acls
    k_produce_bytes_per_sec k_consume_bytes_per_sec k_created_at_ms k_disabled].
  match goal with |- context [load_keys ?st now _] => destruct (IH st) as (s1 & -> & E1 & E2 & E3) end.
  exists s1. split_and!; [done| |by rewrite E2|by rewrite E3]. rewrite E1. done.
Qed.

Lemma fold_load bh ks acc :
  NoDup (k_key_id <$> ks) -> NoDup (hash_of bh <$> ks) ->
  fold_left (load_step bh) ks acc =
  (list_to_map ((fun k => (k_key_id k, k)) <$> ks) ∪ acc.1,
   list_to_map ((fun k => (hash_of bh k, k_key_id k)) <$> ks) ∪ acc.2).
Proof.
  revert acc. induction ks as [|k ks IH]; intros [m1 m2].
  { intros _ _. cbn. by rewrite !(left_id_L ∅ (∪)). }
  cbn [fmap list_fmap fold_left list_to_map foldr]. rewrite !NoDup_cons. intros [Hi1 Hn1] [Hi2 Hn2].
  rewrite IH by done. unfold load_step. cbn [fst snd].
  rewrite <- !insert_union_l, !insert_union_r; [done|..].
  - apply not_elem_of_list_to_map_1. by rewrite <- list_fmap_compose.
  - apply not_elem_of_list_to_map_1. by rewrite <- list_fmap_compose.
Qed.

Lemma keys_pairs s ks :
  store_wf s -> ks ≡ₚ (map_to_list (ks_keys s)).*2 ->
  (fun k => (k_key_id k, k)) <$> ks ≡ₚ map_to_list (ks_keys s).
Proof.
  intros Hw ->. rewrite <- list_fmap_compose.
  assert (((fun k => (k_key_id k, k)) ∘ snd) <$> map_to_list (ks_keys s) = map_to_list (ks_keys s)) as ->; [|done].
  rewrite <- (list_fmap_id (map_to_list (ks_keys s))) at 2. apply list_fmap_ext. intros i [id k] Hi. cbn.
  apply list_elem_of_lookup_2, elem_of_map_to_list in Hi. by rewrite (sw_ids s Hw id k Hi).
Qed.

Lemma hash_pairs s ks :
  store_wf s -> ks ≡ₚ (map_to_list (ks_keys s)).*2 ->
  NoDup (hash_of (ks_by_hash s) <$> ks) /\
  (fun k => (hash_of (ks_by_hash s) k, k_key_id k)) <$> ks ≡ₚ map_to_list (ks_by_hash s).
Proof.
  intros Hw Hp. pose proof (keys_pairs s ks Hw Hp) as Hpairs.
  assert (forall k, k ∈ ks -> ks_keys s !! k_key_id k = Some k) as Hin.
  { intros k Hk. apply elem_of_map_to_list. rewrite <- Hpairs. apply list_elem_of_fmap. by exists k. }
  assert (NoDup ks) as Hnd.
  { apply (NoDup_fmap_1 (fun k => (k_key_id k, k))). rewrite Hpairs. apply NoDup_map_to_list. }
  assert (NoDup (hash_of (ks_by_hash s) <$> ks)) as Hh.
  { apply NoDup_fmap_2_strong; [|done]. intros k1 k2 H1 H2 E.
    destruct (hash_of_spec s k1 Hw (Hin k1 H1)) as [E1 _], (hash_of_spec s k2 Hw (Hin k2 H2)) as [E2 _].
    rewrite E in E1. rewrite E1 in E2. injection E2 as E2. pose proof (Hin k1 H1). pose proof (Hin k2 H2). congruence. }
  split; [done|]. apply NoDup_Permutation.
  - apply (NoDup_fmap_1 fst). rewrite <- list_fmap_compose. done.
  - apply NoDup_map_to_list.
  - intros [h id]. rewrite elem_of_map_to_list, list_elem_of_fmap. split.
    + intros (k & [= -> ->] & Hk). by apply hash_of_spec, Hin.
    + intros Hb. destruct (sw_owned s Hw h id Hb) as [_ [k Hk]]. pose proof (sw_ids s Hw id k Hk) as Eid.
      exists k. assert (k ∈ ks) as Hks.
      { rewrite Hp. apply list_elem_of_fmap. exists (id, k). split; [done|]. by apply elem_of_map_to_list. }
      split; [|done]. destruct (hash_of_spec s k Hw (Hin k Hks)) as [Hh' _]. rewrite Eid in Hh' |- *.
      by rewrite (sw_unique s Hw h _ id Hb Hh').
Qed.

(** Reading the key file back gives the same keys and the same secrets, whatever
    order the entries were written in. *)
Lemma reload_spec s now pks :
  store_wf s -> pks ≡ₚ key_snapshot s ->
  exists s1, load_keys (mkStore (Some pks) ∅ ∅ ∅ 0) now pks = Ok s1 /\
    ks_keys s1 = ks_keys s /\ ks_by_hash s1 = ks_by_hash s /\ ks_revocations s1 = 0 /\ ks_file s1 = Some pks.
Proof.
  intros Hw Hp. unfold key_snapshot in Hp.
  apply Permutation_map_inv in Hp as (ks & -> & Hks). symmetry in Hks.
  pose proof (keys_pairs s ks Hw Hks) as Hpairs. destruct (hash_pairs s ks Hw Hks) as [Hnh Hhp].
  destruct (load_keys_persisted s now ks (mkStore (Some (to_persisted (ks_by_hash s) <$> ks)) ∅ ∅ ∅ 0) Hw)
    as (s1 & E & Ef & Er & Efile).
  { apply Forall_forall. intros k Hk. apply elem_of_map_to_list. rewrite <- Hpairs. apply list_elem_of_fmap. by exists k. }
  assert (NoDup (k_key_id <$> ks)) as Hnk.
  { replace (k_key_id <$> ks) with ((fun k => (k_key_id k, k)) <$> ks).*1 by (by rewrite <- list_fmap_compose).
    rewrite Hpairs. apply NoDup_fst_map_to_list. }
  exists s1. rewrite fold_load in Ef by done. cbn [fst snd ks_keys ks_by_hash] in Ef.
  injection Ef as E1 E2. rewrite (right_id_L ∅ (∪)) in E1. rewrite (right_id_L ∅ (∪)) in E2.
  split; [exact E|]. split_and!; [| |done|done].
  - rewrite E1. rewrite <- (list_to_map_to_list (ks_keys s)). apply list_to_map_proper; [|done].
    by rewrite <- list_fmap_compose.
  - rewrite E2. trans (list_to_map (map_to_list (ks_by_hash s)) : gmap (list byte) string);
      [|apply list_to_map_to_list]. apply list_to_map_proper; [|done].
    by rewrite <- list_fmap_compose.
Qed.
End StoreFacts.

(** ** Revocation *)

Section Revocation.
Context `{Hashing}.

(** What happens to a store over time: keys are created (with secrets whose id is
    new; the write of the file may fail), revoked, and the broker restarts from its
    file. *)
Inductive store_step : key_store -> key_store -> Prop :=
| SCreate s req sb now ms ok :
    fresh_secret s ("esk_" +:+ base64url sb) -> store_step s (create_key s req sb now ms ok).2
| SRevoke s id ok : store_step s (revoke_key s id ok).2
| SLimit s id n now : store_step s (check_produce s id n now).2
| SRestart s now pks s1 :
    ks_file s = Some pks -> load_keys (mkStore (Some pks) ∅ ∅ ∅ 0) now pks = Ok s1 -> store_step s s1.

(** The key of hash [h] exists and is disabled. *)
Definition dead (h : list byte) (s : key_store) : Prop :=
  exists id k, ks_by_hash s !! h = Some id /\ ks_keys s !! id = Some k /\ k_disabled k = true.

(** ... in memory and in what a restart would read. *)
Definition dead_for_good (h : list byte) (s : key_store) : Prop :=
  store_wf s /\ dead h s /\ exists s0, store_wf s0 /\ dead h s0 /\
    exists pks, ks_file s = Some pks /\ pks ≡ₚ key_snapshot s0.

Lemma dead_authenticate h s secret : h = sha256 (as_bytes secret) -> dead h s -> authenticate s secret = None.
Proof.
  intros -> (id & k & Hh & Hk & Hd). unfold authenticate. rewrite Hh. cbn. rewrite Hk. cbn. by rewrite Hd.
Qed.

Lemma dead_step_create h s req sb now ms ok :
  dead_for_good h s -> fresh_secret s ("esk_" +:+ base64url sb) -> dead_for_good h (create_key s req sb now ms ok).2.
Proof.
  intros (Hw & (id & k & Hh & Hk & Hd) & Hf) Hfresh. pose proof (create_key_wf s req sb now ms ok Hw Hfresh) as Hw'.
  pose proof (create_key_state s req sb now ms ok) as Hc. cbv zeta in Hc.
  destruct (create_key s req sb now ms ok) as [res s']. cbn [snd] in *. destruct Hfresh as [Hf1 Hf2].
  destruct Hc as [[-> _]|(_ & E1 & E2 & E3 & _ & _)]; [split_and!; [done|by exists id, k|done]|].
  assert (dead h s') as Hdead.
  { exists id, k. rewrite E1, E2. split_and!; [| |done]; rewrite lookup_insert_ne; try done; congruence. }
  split_and!; [done|done|]. rewrite E3. destruct ok; [|done]. exists s'. split_and!; [done|done|]. by eexists.
Qed.

Lemma dead_step h s s' : dead_for_good h s -> store_step s s' -> dead_for_good h s'.
Proof.
  intros Hg Hst. destruct Hst as [s req sb now ms ok Hf|s id ok|s id n now|s now pks s1 Hfile Hl].
  - by apply dead_step_create.
  - destruct Hg as (Hw & (id' & k & Hh & Hk & Hd) & Hfl). pose proof (revoke_key_wf s id ok Hw) as Hw'.
    pose proof (revoke_key_spec s id ok) as Hs. destruct (ks_keys s !! id) as [k0|] eqn:E0.
    2: { rewrite Hs. split_and!; [done|by exists id', k|done]. }
    cbv zeta in Hs. set (s' := (revoke_key s id ok).2) in *. destruct Hs as (E1 & E2 & _).
    assert (dead h s') as Hdead.
    { destruct (decide (id = id')) as [<-|Hne].
      - exists id, (disable k0). by rewrite E1, E2, lookup_insert_eq.
      - exists id', k. by rewrite E1, E2, lookup_insert_ne. }
    split_and!; [done|done|]. subst s'. unfold revoke_key, persist in *. rewrite E0 in *.
    destruct ok; cbn; [|done]. eexists. split_and!; [exact Hw'|exact Hdead|]. by eexists.
  - assert (exists l, (check_produce s id n now).2 = mkStore (ks_file s) (ks_keys s) (ks_by_hash s) l (ks_revocations s)) as [l ->].
    { unfold check_produce. destruct (ks_limiters s !! id) as [l|]; [|by exists (ks_limiters s); destruct s].
      destruct (li_produce l) as [b|]; [|by exists (ks_limiters s); destruct s]. destruct (try_take b n now). by eexists. }
    destruct Hg as ([] & Hd & Hf). split_and!; [by constructor|exact Hd|exact Hf].
  - destruct Hg as (_ & _ & s0 & Hw0 & Hd0 & pks' & Hfile' & Hp). rewrite Hfile in Hfile'. injection Hfile' as <-.
    destruct (reload_spec s0 now pks Hw0 Hp) as (s2 & E & E1 & E2 & E3 & E4). rewrite Hl in E. injection E as <-.
    assert (store_wf s1) as Hw1.
    { destruct Hw0. constructor; rewrite ?E1, ?E2, ?E3; try done. }
    assert (dead h s1) as Hd1 by (unfold dead; by rewrite E1, E2).
    split_and!; [done|done|]. exists s0. split_and!; [done|done|]. by exists pks.
Qed.

(** ** Rate limits *)

(** The requests a bucket grants, one after the other: bytes and time. *)
Fixpoint granted (b : bucket) (calls : list (Z * Z)) : Z * bucket :=
  match calls with
  | [] => (0, b)
  | (n, now) :: calls =>
    match try_take b n now with
    | (Ok _, b) => let (t, b) := granted b calls in (n + t, b)
    | (_, b) => granted b calls
    end
  end.

(** Times do not run backwards. *)
Fixpoint ordered (t : Z) (calls : list (Z * Z)) : Prop :=
  match calls with
  | [] => True
  | (n, now) :: calls => 0 <= n /\ t <= now /\ ordered now calls
  end.

Definition bucket_ok (b : bucket) : Prop := 0 < bk_rate b /\ 0 <= bk_tokens b <= bk_rate b * SEC.

Lemma granted_bound calls b :
  bucket_ok b -> ordered (bk_last b) calls ->
  let '(t, b') := granted b calls in
  bucket_ok b' /\ bk_rate b' = bk_rate b /\ bk_last b <= bk_last b' /\
  t * SEC + bk_tokens b' <= bk_tokens b + (bk_last b' - bk_last b) * bk_rate b.
Proof.
  revert b. induction calls as [|[n now] calls IH]; intros b [Hr Ht].
  { intros _. cbn. split; [done|]. split; [done|]. nia. }
  intros (Hn & Hnow & Ho). cbn [granted]. unfold try_take.
  set (b1 := refill b now).
  assert (bucket_ok b1 /\ bk_rate b1 = bk_rate b /\ bk_last b1 = now /\
    bk_tokens b1 <= bk_tokens b + (now - bk_last b) * bk_rate b) as (Hb1 & E1 & E2 & Hle).
  { subst b1. unfold refill, bucket_ok. cbn. unfold SEC in *. split_and!; try done; nia. }
  assert (forall b2, bucket_ok b2 -> bk_rate b2 = bk_rate b -> bk_last b2 = now ->
    let '(t, b') := granted b2 calls in bucket_ok b' /\ bk_rate b' = bk_rate b /\ bk_last b <= bk_last b' /\
      t * SEC + bk_tokens b' <= bk_tokens b2 + (bk_last b' - now) * bk_rate b) as Hrest.
  { intros b2 Hb2 F1 F2. specialize (IH b2 Hb2). rewrite F2 in IH. specialize (IH Ho).
    destruct (granted b2 calls) as [t b']. destruct IH as (? & ? & ? & ?). rewrite F1 in *.
    split_and!; [done|done|lia|lia]. }
  pose proof (Hrest b1 Hb1 E1 E2) as Hskip.
  assert (let '(t, b') := granted b1 calls in bucket_ok b' /\ bk_rate b' = bk_rate b /\ bk_last b <= bk_last b' /\
    t * SEC + bk_tokens b' <= bk_tokens b + (bk_last b' - bk_last b) * bk_rate b) as Hno.
  { destruct (granted b1 calls) as [t b']. destruct Hskip as (? & ? & ? & ?). split_and!; [done|done|lia|lia]. }
  case_if; [exact Hno|]. case_if; [|exact Hno].
  set (b2 := mkBucket _ _ _). specialize (Hrest b2).
  assert (bucket_ok b2) as Hb2 by (subst b2; destruct Hb1; split; cbn; unfold SEC in *; lia).
  specialize (Hrest Hb2 E1 E2). destruct (granted b2 calls) as [t b']. subst b2. cbn in Hrest.
  destruct Hrest as (? & ? & ? & ?). split_and!; [done|done|lia|lia].
Qed.
End Revocation.

(** ** Properties *)

Section AuthClaims.
Context `{Hashing}.

(** What a granted action implies. *)
Definition grants (granted wanted : acl_action) : Prop :=
  granted = ActAdmin \/ granted = wanted \/ (granted = ActWrite /\ wanted = ActRead).

(** Access is exactly what the rules say.  A key may act on a topic iff it is
    enabled and one of its rules grants the action (admin grants everything, write
    grants read) on a prefix that covers the topic: the whole name space for [*],
    otherwise the name itself and the names below it at a separator, never a name
    that merely begins with the same letters. *)
Theorem access_is_by_rule k action topic :
  can k action topic = true <->
  k_disabled k = false /\ exists r, r ∈ k_acls k /\ grants (ru_action r) action /\ covers (ru_topic_prefix r) topic.
Proof.
  unfold can. rewrite andb_true_iff, negb_true_iff, List.existsb_exists.
  split; intros [Hd (r & Hr & Hm)]; (split; [done|]); exists r.
  - unfold rule_matches in Hm. apply andb_prop in Hm as [Ha Hp]. split_and!; [by apply list_elem_of_In| |].
    + unfold grants. destruct (ru_action r), action; try done; auto.
    + by apply prefix_matches_covers.
  - destruct Hm as [Hg Hc]. split; [by apply list_elem_of_In|]. unfold rule_matches.
    apply prefix_matches_covers in Hc. rewrite Hc, andb_true_r.
    unfold grants in Hg. destruct (ru_action r), action; naive_solver.
Qed.

(** A revoked key never works again.  Once a revocation has succeeded, the
    secret of the key does not authenticate in any later state of the store: not
    after other keys are created or revoked (whether or not those writes of the
    key file succeed), and not after restarts, which read the keys back from the
    file. *)
Theorem revoked_key_is_dead s id secret s' s'' :
  store_wf s -> ks_by_hash s !! sha256 (as_bytes secret) = Some id ->
  revoke_key s id true = (Ok tt, s') -> rtc store_step s' s'' ->
  authenticate s'' secret = None.
Proof.
  intros Hw Hh Hr Hst. apply (dead_authenticate (sha256 (as_bytes secret))); [done|].
  set (h := sha256 (as_bytes secret)) in *.
  assert (dead_for_good h s') as Hg.
  { pose proof (revoke_key_wf s id true Hw) as Hw'. rewrite Hr in Hw'. cbn in Hw'.
    destruct (sw_owned s Hw h id Hh) as [_ [k Hk]]. unfold revoke_key, persist in Hr. rewrite Hk in Hr.
    injection Hr as <-. set (s1 := mkStore _ _ _ _ _) in *.
    assert (dead h s1) as Hd by (exists id, (disable k); split_and!; [done|apply lookup_insert_eq|done]).
    split_and!; [done|done|]. exists s1. split_and!; [done|done|]. by eexists. }
  clear -Hg Hst. induction Hst as [s|s s1 s2 Hs _ IH]; [by destruct Hg as (_ & ? & _)|].
  apply IH. by eapply dead_step.
Qed.

(** The key file is a faithful copy.  What is written for a store, in whatever
    order its map is iterated, is read back at the next start to the same keys,
    rules, limits and disabled flags, reachable by the same secrets. *)
Theorem key_file_roundtrip s now pks :
  store_wf s -> pks ≡ₚ key_snapshot s ->
  exists s1, load_keys (mkStore (Some pks) ∅ ∅ ∅ 0) now pks = Ok s1 /\
    ks_keys s1 = ks_keys s /\ forall secret, authenticate s1 secret = authenticate s secret.
Proof.
  intros Hw Hp. destruct (reload_spec s now pks Hw Hp) as (s1 & E & E1 & E2 & _).
  exists s1. split_and!; [done|done|]. intros secret. unfold authenticate. by rewrite E1, E2.
Qed.

End AuthClaims.

(** ** Witnesses *)

Section AuthWitness.

(** A stand-in that keeps 32 bytes, and one for base64. *)
Definition toy_hashing : Hashing.
Proof.
  refine {| sha256 l := take 32 (drop 4 l ++ replicate 32 x00); base64url := of_bytes |}.
  intros l. rewrite length_take, length_app, length_replicate. lia.
Defined.
#[local] Existing Instance toy_hashing.

Definition tenant_request : create_request := mkCreate "tenant" [mkRule ActWrite "orders"] (Some 100) None.
Definition tenant_bytes : list byte := [x61; x62; x63].
Definition tenant_secret : string := "esk_abc".
Definition tenant_store : key_store := (create_key (mkStore None ∅ ∅ ∅ 0) tenant_request tenant_bytes 0 0 true).2.
Definition tenant_id : string := new_key_id (sha256 (as_bytes tenant_secret)).
Definition tenant_key : api_key := mkKey tenant_id "tenant" [mkRule ActWrite "orders"] (Some 100) None 0 false.

Lemma tenant_store_wf : store_wf tenant_store.
Proof. apply create_key_wf; [apply store_wf_empty|]. split; vm_compute; reflexivity. Qed.

Example tenant_access :
  authenticate tenant_store tenant_secret = Some tenant_key /\
  can tenant_key ActRead "orders.eu" = true /\ can tenant_key ActWrite "ordersarchive" = false /\
  can tenant_key ActAdmin "orders" = false.
Proof. split_and!; vm_compute; reflexivity. Qed.

Lemma revoked_key_is_dead_witness :
  authenticate (create_key (revoke_key tenant_store tenant_id true).2 tenant_request [x7a] 5 5 false).2 tenant_secret = None.
Proof.
  apply (revoked_key_is_dead tenant_store tenant_id tenant_secret (revoke_key tenant_store tenant_id true).2).
  - exact tenant_store_wf.
  - vm_compute; reflexivity.
  - vm_compute; reflexivity.
  - eapply rtc_l; [|apply rtc_refl]. apply SCreate. split; vm_compute; reflexivity.
Defined.

Lemma key_file_roundtrip_witness :
  exists s1, load_keys (mkStore (Some (key_snapshot tenant_store)) ∅ ∅ ∅ 0) 9 (key_snapshot tenant_store) = Ok s1 /\
    authenticate s1 tenant_secret = Some tenant_key.
Proof.
  destruct (key_file_roundtrip tenant_store 9 (key_snapshot tenant_store) tenant_store_wf (Permutation_refl _))
    as (s1 & E & _ & Ha).
  exists s1. split; [exact E|]. rewrite (Ha tenant_secret). vm_compute. reflexivity.
Defined.

End AuthWitness.
