(* ===== verification/Handle.v ===== *)
(** * Partition handles (crates/es-broker/src/partition_handle.rs)

    What the data plane uses of a partition, as a class: appending a batch, reading
    records, the first offset.  [HandleLaws] is the contract, a log to which whole
    batches are appended; the plain partition satisfies it, with [Partition]'s
    theorems.  A Raft partition answers an append through its cluster and has its
    own theorems in [RaftProposals] and [RaftPartitionSpec]. *)

From S2P Require Export PartitionSpec.

#[local] Open Scope Z_scope.

(** An append that fails, or whose blocking task panics. *)
Inductive handle_error : Type := AppendFailed (e : append_error) | TaskFailed.

(** [E] is what the surroundings decide during one append: the clock and the
    outcomes of system calls. *)
Class PartitionHandle (H E : Type) := {
  h_append : H -> list append_record -> E -> outcome handle_error (list Z) * H;
  h_read_raw : H -> Z -> Z -> Z -> list record * Z * Z;
  h_start_offset : H -> Z }.

(** ** The contract *)

(** The records a batch adds to a log that ends at [n]. *)
Definition new_records (now n : Z) (recs : list append_record) : list record :=
  imap (fun i r => mkRecord (n + Z.of_nat i) now (ar_key r) (ar_value r)) recs.

(** Records whose offset and time the partition chooses. *)
Definition unassigned (r : append_record) : Prop := ar_offset r = None /\ ar_timestamp_ms r = None.

Class HandleLaws {H E : Type} `{PartitionHandle H E} (holds : H -> list record -> Z -> Prop)
    (clock : E -> Z) : Prop := {
  hl_append : forall h log n recs env,
    holds h log n -> recs <> [] -> Forall unassigned recs ->
    Forall record_ok (new_records (clock env) n recs) ->
    match h_append h recs env with
    | (Ok offs, h') => offs = seqZ n (len recs) /\ holds h' (log ++ new_records (clock env) n recs) (n + len recs)
    | (Err _, h') => exists k, (k <= length recs)%nat /\
        holds h' (log ++ take k (new_records (clock env) n recs)) (n + Z.of_nat k)
    | (Panic, _) => False
    end;
  hl_read : forall h log n target mr mb,
    holds h log n -> 0 <= target < n -> 0 < mr ->
    Forall (fun r => record_size r <= read_window mb) log ->
    let '(out, next, hwm) := h_read_raw h target mr mb in
    hwm = n /\ target < next <= hwm /\ visible (Z.max target (h_start_offset h)) next log = out /\
    len out <= mr /\ (1 < len out -> recs_size out <= mb);
  hl_read_end : forall h log n target mr mb,
    holds h log n -> n <= target -> h_read_raw h target mr mb = ([], target, n);
  hl_bounds : forall h log n, holds h log n ->
    0 <= n /\ offsets_sorted log /\ Forall (fun r => h_start_offset h <= r_offset r < n) log }.

(** ** Plain partitions *)

(** The environment of an append: the clock and the faults. *)
Definition plain_env : Type := Z * faults.

Section Plain.
Context `{Crc32}.

Definition plain_append (p : partition) (recs : list append_record) (env : plain_env)
    : outcome handle_error (list Z) * partition :=
  match recs with
  | [] => (Ok [], p)
  | _ =>
    match append_batch p recs Policy env.1 env.2 with
    | (Ok offs, p) => (Ok offs, p)
    | (Err e, p) => (Err (AppendFailed e), p)
    | (Panic, p) => (Err TaskFailed, p)
    end
  end.

#[global] Instance plain_handle : PartitionHandle partition plain_env := {|
  h_append := plain_append;
  h_read_raw := read_records_raw;
  h_start_offset := p_start_offset |}.

Definition plain_holds (p : partition) (log : list record) (n : Z) : Prop :=
  exists init s rs, part_wf p init s rs /\ s_base_offset s <= p_next_offset p /\
    log_of init rs = log /\ p_next_offset p = n.

Lemma new_records_cons now n r recs :
  new_records now n (r :: recs) = mkRecord n now (ar_key r) (ar_value r) :: new_records now (n + 1) recs.
Proof.
  unfold new_records. cbn [imap]. rewrite Z.add_0_r. f_equal. apply imap_ext. intros i x _. cbn. f_equal. lia.
Qed.

Lemma new_records_length now n recs : length (new_records now n recs) = length recs.
Proof. apply length_imap. Qed.

(** The abstract log gives such a batch the next offsets. *)
Lemma assign_unassigned now n recs :
  Forall unassigned recs -> assign now n recs = (seqZ n (len recs), new_records now n recs, n + len recs).
Proof.
  intros Hu. revert n. induction Hu as [|r recs [Ho Ht] _ IH]; intros n.
  - cbn. rewrite seqZ_nil by done. by rewrite Z.add_0_r.
  - cbn [assign]. unfold assign_one. rewrite Ho, IH, Ht, new_records_cons. cbn [default]. rewrite len_cons.
    pose proof (len_nonneg recs). rewrite (seqZ_cons n (1 + len recs)) by lia.
    replace (Z.succ n) with (n + 1) by lia. replace (Z.pred (1 + len recs)) with (len recs) by lia.
    f_equal. lia.
Qed.

Lemma next_after_new now n recs k :
  (k <= length recs)%nat -> next_after n (take k (new_records now n recs)) = n + Z.of_nat k.
Proof.
  revert n k. induction recs as [|r recs IH]; intros n k Hk.
  - destruct k; cbn in *; [unfold next_after; cbn; lia|lia].
  - rewrite new_records_cons. destruct k as [|k]; [cbn; unfold next_after; cbn; lia|]. cbn [take].
    specialize (IH (n + 1) k). cbn [length] in Hk. change (?x :: ?l) with ([x] ++ l).
    rewrite next_after_app. unfold next_after at 2. cbn [last r_offset]. rewrite IH by lia. lia.
Qed.

Lemma log_ge_start p init s rs r :
  part_wf p init s rs -> r ∈ log_of init rs -> p_start_offset p <= r_offset r.
Proof.
  intros Hw Hr. pose proof (visible_start p init s rs (r_offset r) (r_offset r + 1) Hw) as Hv.
  assert (r ∈ visible (r_offset r) (r_offset r + 1) (log_of init rs)) as Hin.
  { unfold visible. apply list_elem_of_filter. split; [lia|done]. }
  rewrite <- Hv in Hin. unfold visible in Hin. apply list_elem_of_filter in Hin as [Hin _]. lia.
Qed.

#[global] Instance plain_laws : HandleLaws plain_holds fst.
Proof.
  split.
  - intros p log n recs [now ft] (init & s & rs & Hw & Hb & <- & <-) Hne Hu Hok. cbn [fst] in *.
    pose proof (append_batch_result p init s rs recs Policy now ft Hw Hb) as Hr.
    rewrite (assign_unassigned now _ recs Hu) in Hr. specialize (Hr Hok).
    cbn [h_append plain_handle]. unfold plain_append. destruct recs as [|r recs]; [done|]. cbn [fst snd].
    destruct (append_batch _ _ _ _ _) as [[offs|e|] p'] eqn:E; [| |done].
    + destruct Hr as (-> & _ & _ & Hn & init' & s' & rs' & Hw' & Hb' & Hl). split; [done|].
      exists init', s', rs'. split_and!; [done|done|done|exact Hn].
    + destruct Hr as (k & init' & s' & rs' & Hw' & Hl & Hn & Hb' & _).
      exists (Nat.min k (length (r :: recs))). split; [lia|]. exists init', s', rs'.
      assert (take (Nat.min k (length (r :: recs))) (new_records now (p_next_offset p) (r :: recs)) =
              take k (new_records now (p_next_offset p) (r :: recs))) as Et.
      { destruct (Nat.min_spec k (length (r :: recs))) as [[? ->]|[? ->]]; [done|].
        rewrite !take_ge; [done|rewrite new_records_length; lia..]. }
      rewrite Et. split_and!; [done| |done|].
      * apply Hb'. eapply Forall_impl; [exact Hu|]. by intros x [? _].
      * rewrite Hn, <- Et. apply next_after_new. lia.
  - intros p log n t mr mb (init & s & rs & Hw & Hb & <- & <-) Ht Hmr Hwin.
    pose proof (read_records_spec p init s rs t mr mb Hw Hb Ht Hmr Hwin) as Hr. cbn [h_read_raw h_start_offset plain_handle].
    destruct (read_records_raw p t mr mb) as [[out next] hwm]. destruct Hr as (? & ? & ? & ? & ? & _). split_and!; (done || lia).
  - intros p log n t mr mb (init & s & rs & Hw & Hb & <- & <-) Ht. cbn [h_read_raw plain_handle].
    unfold read_records_raw. by rewrite (proj2 (Z.leb_le _ _)).
  - intros p log n (init & s & rs & Hw & Hb & <- & <-). split_and!.
    + apply Hw.
    + eapply (log_sorted init s rs); apply Hw.
    + apply Forall_forall. intros r Hr. split; [by eapply log_ge_start|].
      pose proof (log_below _ _ _ _ Hw Hb) as Hlt. rewrite Forall_forall in Hlt. by apply Hlt.
Qed.
End Plain.

#[local] Existing Instance crc32_ieee_class.

Lemma fresh_partition_holds n : plain_holds (fresh_partition n) [] 0.
Proof. eexists _, _, _. split_and!; [apply fresh_partition_wf|apply Z.le_refl|done|done]. Qed.
