(* ===== verification/Dataplane.v ===== *)
(** * Produce and consume (crates/es-broker/src/dataplane.rs)

    The two requests both protocols share, composed from access rules ([Auth]),
    rate limits ([Auth]), routing ([Topic]), producer sequences ([Producers]) and
    the partitions ([Handle]).  A request runs in a state monad over the broker that
    keeps the state on every exit.  Concurrent requests are serialised by the
    producer's lock and the partitions' locks; here a request is one step, with the
    appends to its partitions independent of each other. *)

From S2P Require Export Topic Producers Auth Handle.

#[local] Open Scope Z_scope.

Definition MAX_RECORDS_PER_REQUEST : Z := 100000.

Record incoming_record : Type := mkIncoming {
  ir_key : option (list byte); ir_value : list byte; ir_partition : option Z; ir_sequence : option Z }.

Record produced : Type := mkProduced { pr_partition : Z; pr_offset : Z; pr_duplicate : bool }.

(** What a [BadRequest] message says. *)
Inductive bad_request : Type :=
| TooManyRecords (n : Z)
| RecordTooLarge (i n : Z)
| MissingSequence (i : Z)
| NegativeSequence (i s : Z)
| UnknownPartition
| NotConsecutive (p got after : Z)
| BelowLastSeen (p s last_seen : Z)
| SequenceGap (p expected got : Z)
| ProducerRefused (e : admit_error).

(** [DataError]; a rate limit without a time to wait is a request that can never
    pass. *)
Inductive data_error : Type :=
| DForbidden
| DNotFound
| DBadRequest (why : bad_request)
| DRateLimited (retry_after : option Z)
| DInternal.

Definition data_bytes (key : option (list byte)) (value : list byte) : Z :=
  match key with Some k => len k | None => 0 end + len value.

(** ** The broker, as the data plane sees it *)

Section Dataplane.
Context {H E : Type} `{PartitionHandle H E}.

Record topic : Type := mkTopic {
  t_partitions : list H;
  t_rr_counter : Z;
  t_records_produced : Z; t_bytes_produced : Z;
  t_records_consumed : Z; t_bytes_consumed : Z }.

Record broker : Type := mkBroker {
  b_topics : gmap string topic;
  b_keys : key_store;
  b_producers : registry;
  b_max_record_bytes : Z; b_max_fetch_records : Z; b_max_fetch_bytes : Z }.

Definition set_topic (b : broker) (name : string) (t : topic) : broker :=
  mkBroker (<[name := t]> (b_topics b)) (b_keys b) (b_producers b)
    (b_max_record_bytes b) (b_max_fetch_records b) (b_max_fetch_bytes b).
Definition set_keys (b : broker) (ks : key_store) : broker :=
  mkBroker (b_topics b) ks (b_producers b) (b_max_record_bytes b) (b_max_fetch_records b) (b_max_fetch_bytes b).
Definition set_producers (b : broker) (r : registry) : broker :=
  mkBroker (b_topics b) (b_keys b) r (b_max_record_bytes b) (b_max_fetch_records b) (b_max_fetch_bytes b).
Definition set_rr (t : topic) (rr : Z) : topic :=
  mkTopic (t_partitions t) rr (t_records_produced t) (t_bytes_produced t) (t_records_consumed t) (t_bytes_consumed t).
Definition set_parts (t : topic) (hs : list H) : topic :=
  mkTopic hs (t_rr_counter t) (t_records_produced t) (t_bytes_produced t) (t_records_consumed t) (t_bytes_consumed t).
Definition count_produced (t : topic) (n bytes : Z) : topic :=
  mkTopic (t_partitions t) (t_rr_counter t) (wrap_u 64 (t_records_produced t + n)) (wrap_u 64 (t_bytes_produced t + bytes))
    (t_records_consumed t) (t_bytes_consumed t).
Definition count_consumed (t : topic) (n bytes : Z) : topic :=
  mkTopic (t_partitions t) (t_rr_counter t) (t_records_produced t) (t_bytes_produced t)
    (wrap_u 64 (t_records_consumed t + n)) (wrap_u 64 (t_bytes_consumed t + bytes)).

(** ** The request monad *)

Definition dp (A : Type) : Type := broker -> outcome data_error A * broker.

#[export] Instance dp_ret : MRet dp := fun A a b => (Ok a, b).
#[export] Instance dp_bind : MBind dp := fun A B f m b =>
  match m b with
  | (Ok a, b) => f a b
  | (Err e, b) => (Err e, b)
  | (Panic, b) => (Panic, b)
  end.

Definition throw {A} (e : data_error) : dp A := fun b => (Err e, b).
Definition lift {X A} (f : X -> data_error) (o : outcome X A) : dp A := fun b => (map_err f o, b).
Definition panic {A} : dp A := fun b => (Panic, b).
Definition gets {A} (f : broker -> A) : dp A := fun b => (Ok (f b), b).
Definition modify (f : broker -> broker) : dp () := fun b => (Ok (), f b).
Definition guard_dp (c : bool) (e : data_error) : dp () := if c then mret () else throw e.

(** The topic of a request. *)
Definition the_topic (name : string) : dp topic := fun b => (ok_or DNotFound (b_topics b !! name), b).
Definition modify_topic (name : string) (f : topic -> topic) : dp () :=
  modify (fun b => match b_topics b !! name with Some t => set_topic b name (f t) | None => b end).

(** ** Produce *)

(** The size of a request, each record within the limit. *)
Fixpoint request_size (max_record i : Z) (rs : list incoming_record) : outcome bad_request Z :=
  match rs with
  | [] => Ok 0
  | r :: rs =>
    let n := data_bytes (ir_key r) (ir_value r) in
    if max_record <? n then Err (RecordTooLarge i n)
    else t ← request_size max_record (i + 1) rs; Ok (n + t)
  end.

Fixpoint check_sequences (i : Z) (rs : list incoming_record) : outcome bad_request () :=
  match rs with
  | [] => Ok ()
  | r :: rs =>
    match ir_sequence r with
    | None => Err (MissingSequence i)
    | Some s => if s <? 0 then Err (NegativeSequence i s) else check_sequences (i + 1) rs
    end
  end.

(** [topic.route] for every record: the partitions and the round-robin counter. *)
Fixpoint route_all (n rr : Z) (rs : list incoming_record) : outcome string (list Z) * Z :=
  match rs with
  | [] => (Ok [], rr)
  | r :: rs =>
    match route n rr (ir_key r) (ir_partition r) with
    | (Ok p, rr) => let (o, rr) := route_all n rr rs in (cons p <$> o, rr)
    | (Err e, rr) => (Err e, rr)
    | (Panic, rr) => (Panic, rr)
    end
  end.

(** Every record decided before any is written: the offset of a duplicate, or
    [None] for a record to write. *)
Fixpoint decide_records (st : producer_state) (topic : string) (tentative : gmap Z Z) (reqs : list (Z * Z))
    : outcome bad_request (list (option Z)) :=
  match reqs with
  | [] => Ok []
  | (p, seq) :: reqs =>
    match tentative !! p with
    | Some prev =>
      if seq =? prev + 1 then cons None <$> decide_records st topic (<[p := seq]> tentative) reqs
      else Err (NotConsecutive p seq prev)
    | None =>
      match check st topic p seq with
      | Accept => cons None <$> decide_records st topic (<[p := seq]> tentative) reqs
      | Duplicate off => cons (Some off) <$> decide_records st topic tentative reqs
      | SequenceTooLow last_seen => Err (BelowLastSeen p seq last_seen)
      | Gap expected got => Err (SequenceGap p expected got)
      end
    end
  end.

Definition admit_refusal (e : admit_error) : data_error :=
  match e with
  | Producers.Forbidden => DForbidden
  | Producers.Invalid => DBadRequest (ProducerRefused Producers.Invalid)
  | Producers.Limit => DBadRequest (ProducerRefused Producers.Limit)
  end.

(** The producer's lock, and the decision under it. *)
Definition admit_and_decide (pid owner topic : string) (now : Z) (routed : list Z) (rs : list incoming_record)
    : dp (list (option Z)) :=
  r ← gets b_producers;
  '(r, st) ← lift admit_refusal (admit_producer r pid owner now);
  modify (fun b => set_producers b r) ;;
  lift DBadRequest (decide_records st topic ∅ (zip routed ((fun r => default 0 (ir_sequence r)) <$> rs))).

(** What is to be written, by partition and in request order within each: the
    index of every record and what is appended. *)
Fixpoint to_write (i : nat) (decided : list (option Z)) (routed : list Z) (rs : list incoming_record)
    : list (Z * (nat * append_record)) :=
  match decided, routed, rs with
  | None :: decided, p :: routed, r :: rs =>
    (p, (i, append_record_new (ir_key r) (ir_value r))) :: to_write (S i) decided routed rs
  | Some _ :: decided, _ :: routed, _ :: rs => to_write (S i) decided routed rs
  | _, _, _ => []
  end.

Definition per_partition (ws : list (Z * (nat * append_record))) : list (Z * list (nat * append_record)) :=
  (fun p => (p, snd <$> filter (fun w => fst w = p) ws)) <$> sort_dedup (fst <$> ws).

(** What the surroundings decide: the clocks of the limiter and of the producers,
    each append, how many appends had started when the first one failed, and
    whether the journal could be written. *)
Record produce_env : Type := mkEnv {
  pe_instant : Z; pe_now : Z; pe_append : Z -> E; pe_started : nat; pe_journal_ok : bool }.

Definition write_one (env : produce_env) (hs : list H) (g : Z * list (nat * append_record))
    : outcome handle_error (list Z) * list H :=
  match hs !! Z.to_nat g.1 with
  | Some h => let (o, h) := h_append h (snd <$> g.2) (pe_append env g.1) in (o, <[Z.to_nat g.1 := h]> hs)
  | None => (Panic, hs)
  end.

Fixpoint write_all (env : produce_env) (hs : list H) (gs : list (Z * list (nat * append_record)))
    : list (outcome handle_error (list Z)) * list H :=
  match gs with
  | [] => ([], hs)
  | g :: gs =>
    let (o, hs) := write_one env hs g in
    let (os, hs) := write_all env hs gs in (o :: os, hs)
  end.

Fixpoint all_ok (os : list (outcome handle_error (list Z))) : outcome handle_error (list (list Z)) :=
  match os with [] => Ok [] | o :: os => offs ← o; rest ← all_ok os; Ok (offs :: rest) end.

(** [try_join_all]: a failure drops the appends that have not started; those that
    have run to their end. *)
Definition join_writes (env : produce_env) (hs : list H) (gs : list (Z * list (nat * append_record)))
    : outcome handle_error (list (list Z)) * list H :=
  let (os, hs1) := write_all env hs (take (pe_started env) gs) in
  match all_ok os with
  | Ok _ => let (os, hs2) := write_all env hs gs in (all_ok os, hs2)
  | e => (e, hs1)
  end.

(** The written records: partition, index, offset. *)
Definition written_records (gs : list (Z * list (nat * append_record))) (offs : list (list Z)) : list (Z * nat * Z) :=
  mjoin (zip_with (fun g os => zip_with (fun w off => (g.1, w.1, off)) g.2 os) gs offs).

Definition fill_results (results : list (option produced)) (ws : list (Z * nat * Z)) : list (option produced) :=
  fold_left (fun res w => match w with (p, i, off) => <[i := Some (mkProduced p off false)]> res end) ws results.

(** The sequence of a written record, when there is a producer. *)
Definition sequenced (seqs : list (option Z)) (ws : list (Z * nat * Z)) : list (Z * Z * Z) :=
  omap (fun w => match w with (p, i, off) =>
    match seqs !! i with Some (Some seq) => Some (p, seq, off) | _ => None end end) ws.

(** [g.record] for every written record, then the journal. *)
Definition remember (pid owner topic : string) (env : produce_env) (ws : list (Z * Z * Z)) : dp () :=
  modify (fun b =>
    let r := b_producers b in
    match rg_state r !! pid with
    | Some st =>
      let st := fold_left (fun st w => match w with (p, seq, off) => record_seq st topic p seq off (pe_now env) end) ws st in
      set_producers b (mkRegistry (<[pid := st]> (rg_state r)) (rg_per_owner r) (rg_journal r) (rg_rotated r)
                         (rg_snapshot r) (rg_dirty r))
    | None => b
    end) ;;
  guard_dp (pe_journal_ok env || bool_decide (ws = [])) DInternal ;;
  modify (fun b => set_producers b
    (journal (b_producers b) pid owner ((fun w => match w with (p, seq, off) => (topic, p, seq, off) end) <$> ws))).

Definition duplicates (decided : list (option Z)) (routed : list Z) : list (option produced) :=
  zip_with (fun d p => match d with Some off => Some (mkProduced p off true) | None => None end) decided routed.

Definition sum_bytes (ws : list (Z * (nat * append_record))) : Z :=
  foldr (fun w t => data_bytes (ar_key w.2.2) (ar_value w.2.2) + t) 0 ws.

(** The checks before anything is routed or written. *)
Definition validate (k : api_key) (name : string) (rs : list incoming_record) (with_producer : bool)
    (env : produce_env) : dp () :=
  guard_dp (len rs <=? MAX_RECORDS_PER_REQUEST) (DBadRequest (TooManyRecords (len rs))) ;;
  max ← gets b_max_record_bytes;
  bytes ← lift DBadRequest (request_size max 0 rs);
  ks ← gets b_keys;
  let (o, ks) := check_produce ks (k_key_id k) bytes (pe_instant env) in
  modify (fun b => set_keys b ks) ;;
  lift DRateLimited o ;;
  if with_producer then lift DBadRequest (check_sequences 0 rs) else mret ().

(** The part that writes: groups, appends, sequences and counters. *)
Definition write_request (k : api_key) (name : string) (rs : list incoming_record) (producer_id : option string)
    (env : produce_env) (routed : list Z) (decided : list (option Z)) : dp (list produced) :=
  let ws := to_write 0 decided routed rs in
  let gs := per_partition ws in
  t ← the_topic name;
  let (o, hs) := join_writes env (t_partitions t) gs in
  modify_topic name (fun t => set_parts t hs) ;;
  offs ← lift (fun _ => DInternal) o;
  let written := written_records gs offs in
  (match producer_id with
   | Some pid => remember pid (k_key_id k) name env (sequenced (ir_sequence <$> rs) written)
   | None => mret ()
   end : dp ()) ;;
  modify_topic name (fun t => count_produced t (len written) (sum_bytes ws)) ;;
  match mapM id (fill_results (duplicates decided routed) written) with
  | Some out => mret out
  | None => panic
  end.

Definition produce (k : api_key) (name : string) (rs : list incoming_record) (producer_id : option string)
    (env : produce_env) : dp (list produced) :=
  guard_dp (can k ActWrite name) DForbidden ;;
  t ← the_topic name;
  if bool_decide (rs = []) then mret [] else
  validate k name rs (bool_decide (is_Some producer_id)) env ;;
  let (o, rr) := route_all (len (t_partitions t)) (t_rr_counter t) rs in
  modify_topic name (fun t => set_rr t rr) ;;
  routed ← lift (fun _ => DBadRequest UnknownPartition) o;
  decided ← match producer_id with
            | Some pid => admit_and_decide pid (k_key_id k) name (pe_now env) routed rs
            | None => mret (replicate (length rs) None)
            end;
  write_request k name rs producer_id env routed decided.

(** ** Consume *)

Record fetched : Type := mkFetched { f_records : list record; f_next_offset : Z; f_high_watermark : Z }.

(** [usize::clamp], which panics when the bounds are crossed. *)
Definition clamp_usize (x lo hi : Z) : outcome data_error Z :=
  if hi <? lo then Panic else Ok (Z.max lo (Z.min x hi)).

Definition consume (k : api_key) (name : string) (part offset max_records max_bytes instant instant' : Z)
    : dp fetched :=
  guard_dp (can k ActRead name) DForbidden ;;
  t ← the_topic name;
  h ← lift id (ok_or (DBadRequest UnknownPartition) (t_partitions t !! Z.to_nat part));
  ks ← gets b_keys;
  let (o, ks) := check_consume ks (k_key_id k) instant in
  modify (fun b => set_keys b ks) ;;
  lift (fun w => DRateLimited (Some w)) o ;;
  limit ← gets b_max_fetch_records;
  mr ← lift id (clamp_usize max_records 1 limit);
  limit ← gets b_max_fetch_bytes;
  mb ← lift id (clamp_usize max_bytes 1 limit);
  let '(out, next, hwm) := h_read_raw h offset mr mb in
  let bytes := foldr (fun r t => data_bytes (r_key r) (r_value r) + t) 0 out in
  modify (fun b => set_keys b (charge_consume (b_keys b) (k_key_id k) bytes instant')) ;;
  modify_topic name (fun t => count_consumed t (len out) bytes) ;;
  mret (mkFetched out next hwm).

End Dataplane.
