(* ===== verification/DataplaneSpec.v ===== *)
(** * What produce and consume promise

    Against the contract of [Handle]: an accepted request is the append of its new
    records to the logs of their partitions, a refused one leaves no trace, a retry
    is recognised, and what was produced can be consumed. *)

From S2P Require Export Dataplane.

#[local] Open Scope Z_scope.

(** ** The reference: one pass over the request *)

(** Every new record gets the next offset of its partition. *)
Fixpoint expected (next : Z -> Z) (decided : list (option Z)) (routed : list Z) : list produced :=
  match decided, routed with
  | None :: ds, p :: ps =>
    mkProduced p (next p) false :: expected (fun q => if q =? p then next p + 1 else next q) ds ps
  | Some off :: ds, p :: ps => mkProduced p off true :: expected next ds ps
  | _, _ => []
  end.

(** The new records of partition [p], with their answers, in request order. *)
Definition mine (p : Z) (rs : list incoming_record) (out : list produced) : list (incoming_record * produced) :=
  filter (fun x => pr_partition x.2 = p /\ pr_duplicate x.2 = false) (zip rs out).

(** The writes of one partition. *)
Definition writes_of (p : Z) (ws : list (Z * (nat * append_record))) : list (nat * append_record) :=
  snd <$> filter (fun w => fst w = p) ws.

Lemma writes_of_cons p q w ws :
  writes_of p ((q, w) :: ws) = if q =? p then w :: writes_of p ws else writes_of p ws.
Proof. unfold writes_of. rewrite filter_cons. cbn. destruct (Z.eqb_spec q p), (decide _); done. Qed.

Lemma expected_length next ds ps : length ds = length ps -> length (expected next ds ps) = length ds.
Proof.
  revert next ps. induction ds as [|[o|] ds IH]; intros next [|p ps] Hl; cbn in *; try done; f_equal; apply IH; lia.
Qed.

(** The [j]-th write of a partition is answered with its [j]-th next offset. *)
Lemma expected_write next k ds ps rs p j i a :
  writes_of p (to_write k ds ps rs) !! j = Some (i, a) ->
  (k <= i)%nat /\ expected next ds ps !! (i - k)%nat = Some (mkProduced p (next p + Z.of_nat j) false).
Proof.
  revert next k ps rs j. induction ds as [|[o|] ds IH]; intros next k [|q ps] [|r rs] j; cbn [to_write]; try done.
  - intros Hj. destruct (IH next (S k) ps rs j Hj) as [Hk He]. split; [lia|].
    replace (i - k)%nat with (S (i - S k)) by lia. done.
  - rewrite writes_of_cons. destruct (Z.eqb_spec q p) as [->|Hne].
    + destruct j as [|j]; cbn [lookup].
      * intros [= <- <-]. split; [lia|]. rewrite Nat.sub_diag. cbn. by rewrite Z.add_0_r.
      * intros Hj. destruct (IH (fun q => if q =? p then next p + 1 else next q) (S k) ps rs j Hj) as [Hk He].
        split; [lia|]. replace (i - k)%nat with (S (i - S k)) by lia. cbn [expected].
        change ((?x :: ?l) !! S ?n) with (l !! n). rewrite He, Z.eqb_refl. do 2 f_equal. lia.
    + intros Hj. destruct (IH (fun q0 => if q0 =? q then next q + 1 else next q0) (S k) ps rs j Hj) as [Hk He].
      split; [lia|]. replace (i - k)%nat with (S (i - S k)) by lia. cbn [expected].
      change ((?x :: ?l) !! S ?n) with (l !! n). rewrite He. rewrite (proj2 (Z.eqb_neq _ _)) by congruence. done.
Qed.

(** Every undecided record is among the writes of its partition. *)
Lemma undecided_written k ds ps rs i p r :
  ds !! i = Some None -> ps !! i = Some p -> rs !! i = Some r ->
  (k + i, append_record_new (ir_key r) (ir_value r))%nat ∈ writes_of p (to_write k ds ps rs).
Proof.
  revert k ps rs i. induction ds as [|[o|] ds IH]; intros k [|q ps] [|r' rs] i; try done; destruct i as [|i]; cbn [lookup]; try done; cbn [to_write].
  - intros Hd Hp Hr. rewrite <- Nat.add_succ_comm. by apply IH.
  - intros _ [= <-] [= <-]. rewrite writes_of_cons, Z.eqb_refl, Nat.add_0_r. left.
  - intros Hd Hp Hr. rewrite writes_of_cons, <- Nat.add_succ_comm.
    specialize (IH (S k) ps rs i Hd Hp Hr). destruct (q =? p); [by right|done].
Qed.

(** Filling the answers in, whatever the order of the writes. *)
Lemma fill_results_target (target : list produced) ws res :
  length res = length target ->
  (forall p i off, (p, i, off) ∈ ws -> target !! i = Some (mkProduced p off false)) ->
  (forall i x, res !! i = Some (Some x) -> target !! i = Some x) ->
  (forall i, res !! i = Some None -> exists p off, (p, i, off) ∈ ws) ->
  fill_results res ws = Some <$> target.
Proof.
  unfold fill_results. revert res. induction ws as [|[[p i] off] ws IH]; intros res Hl Hw Hr Hn; cbn [fold_left].
  - apply list_eq. intros i. rewrite list_lookup_fmap. destruct (res !! i) as [[x|]|] eqn:Ei.
    + by rewrite (Hr _ _ Ei).
    + destruct (Hn _ Ei) as (? & ? & H). by apply elem_of_nil in H.
    + apply lookup_ge_None in Ei. by rewrite lookup_ge_None_2 by lia.
  - apply IH.
    + by rewrite length_insert.
    + intros p' i' off' H. apply Hw. by right.
    + intros j x. destruct (decide (i = j)) as [->|Hne].
      * destruct (decide (j < length res)%nat) as [Hj|Hj].
        -- rewrite list_lookup_insert_eq by done. intros [= <-]. apply Hw. left.
        -- rewrite list_insert_ge by lia. apply Hr.
      * rewrite list_lookup_insert_ne by done. apply Hr.
    + intros j. destruct (decide (i = j)) as [->|Hne].
      * destruct (decide (j < length res)%nat) as [Hj|Hj]; [by rewrite list_lookup_insert_eq|].
        rewrite list_insert_ge by lia. intros Hj'. apply lookup_lt_Some in Hj'. lia.
      * rewrite list_lookup_insert_ne by done. intros Hj. destruct (Hn _ Hj) as (p' & off' & H).
        apply elem_of_cons in H as [[= -> -> ->]|H]; [done|eauto].
Qed.

Lemma mapM_id_some {A} (l : list A) : mapM id (Some <$> l) = Some l.
Proof. induction l as [|x l IH]; [done|]. cbn in *. by rewrite IH. Qed.

(** What the answers say about one partition: consecutive offsets from its end. *)
Lemma mine_expected next k ds ps rs p :
  length ds = length ps -> length ps = length rs ->
  (pr_offset ∘ snd <$> mine p rs (expected next ds ps)) = seqZ (next p) (len (writes_of p (to_write k ds ps rs))) /\
  ((fun x => append_record_new (ir_key x.1) (ir_value x.1)) <$> mine p rs (expected next ds ps)) =
    snd <$> writes_of p (to_write k ds ps rs).
Proof.
  revert next k ps rs. induction ds as [|d ds IH]; intros next k [|q ps] [|r rs] H1 H2; cbn in H1, H2; try lia.
  { done. }
  unfold mine. destruct d as [o|]; cbn [expected to_write zip zip_with].
  - rewrite filter_cons_False by (intros [_ ?]; done). apply IH; lia.
  - set (next' := fun q0 => if q0 =? q then next q + 1 else next q0).
    specialize (IH next' (S k) ps rs ltac:(lia) ltac:(lia)) as [IH1 IH2].
    rewrite writes_of_cons, filter_cons. cbn [snd pr_partition pr_duplicate].
    fold (mine p rs (expected next' ds ps)). assert (next' p = if q =? p then next q + 1 else next p) as Hn by (unfold next'; by rewrite Z.eqb_sym).
    rewrite Hn in IH1.
    destruct (Z.eqb_spec q p) as [->|Hne].
    + rewrite decide_True by done. cbn [fmap list_fmap compose snd fst pr_offset]. unfold compose in *.
      rewrite IH1, IH2. split; [|done]. rewrite len_cons.
      pose proof (len_nonneg (writes_of p (to_write (S k) ds ps rs))).
      rewrite (seqZ_cons (next p) (1 + _)) by lia. f_equal. f_equal; lia.
    + by rewrite decide_False by (intros [? _]; done).
Qed.

(** ** Grouping *)

Lemma per_partition_fst ws : (per_partition ws).*1 = sort_dedup ws.*1.
Proof. unfold per_partition. rewrite <- list_fmap_compose. apply list_fmap_id. Qed.

Lemma per_partition_elem ws p g :
  (p, g) ∈ per_partition ws <-> p ∈ ws.*1 /\ g = writes_of p ws.
Proof.
  unfold per_partition. rewrite list_elem_of_fmap. split.
  - intros (q & [= -> ->] & Hq). by rewrite sort_dedup_elem in Hq.
  - intros [Hp ->]. exists p. split; [done|]. by apply sort_dedup_elem.
Qed.

Lemma writes_of_nil p ws : p ∉ ws.*1 <-> writes_of p ws = [].
Proof.
  induction ws as [|[q w] ws IH]; [by split; [|intros _ ?%elem_of_nil]|].
  rewrite writes_of_cons, fmap_cons, not_elem_of_cons, IH. cbn.
  destruct (Z.eqb_spec q p) as [->|Hne]; split; intros HH; [by destruct HH|done|by destruct HH|done].
Qed.

Lemma to_write_fst k ds ps rs p : p ∈ (to_write k ds ps rs).*1 -> p ∈ ps.
Proof.
  revert k ps rs. induction ds as [|[o|] ds IH]; intros k [|q ps] [|r rs]; cbn [to_write fmap list_fmap]; try (by intros ?%elem_of_nil).
  - intros Hp. right. by eapply IH.
  - rewrite elem_of_cons. intros [->|Hp]; [left|right; by eapply IH].
Qed.

Lemma to_write_unassigned k ds ps rs p : Forall unassigned (writes_of p (to_write k ds ps rs)).*2.
Proof.
  revert k ps rs. induction ds as [|[o|] ds IH]; intros k [|q ps] [|r rs]; cbn [to_write]; try constructor; [apply IH|].
  rewrite writes_of_cons. destruct (q =? p); [|apply IH]. constructor; [done|apply IH].
Qed.

(** ** Appending to the partitions *)

Section Writes.
Context {H E : Type} `{PartitionHandle H E} {holds : H -> list record -> Z -> Prop} {clock : E -> Z}
  `{!HandleLaws holds clock}.

(** The logs of a topic's partitions. *)
Definition logs_hold (hs : list H) (logs : list (list record * Z)) : Prop :=
  Forall2 (fun h l => holds h l.1 l.2) hs logs.

(** A group of writes that fits: its partition exists, and the records it adds can
    be stored. *)
Definition group_fits (e : produce_env) (logs : list (list record * Z)) (g : Z * list (nat * append_record)) : Prop :=
  0 <= g.1 /\ g.2 <> [] /\ Forall unassigned g.2.*2 /\
  exists l, logs !! Z.to_nat g.1 = Some l /\ Forall record_ok (new_records (clock (pe_append e g.1)) l.2 g.2.*2).

(** What an append did to the log of its partition. *)
Definition appended (e : produce_env) (g : Z * list (nat * append_record)) (l l' : list record * Z)
    (o : outcome handle_error (list Z)) : Prop :=
  let news := new_records (clock (pe_append e g.1)) l.2 g.2.*2 in
  match o with
  | Ok offs => offs = seqZ l.2 (len g.2) /\ l' = (l.1 ++ news, l.2 + len g.2)
  | Err _ => exists k, (k <= length g.2)%nat /\ l' = (l.1 ++ take k news, l.2 + Z.of_nat k)
  | Panic => False
  end.

Lemma write_one_spec e hs logs g :
  logs_hold hs logs -> group_fits e logs g ->
  let (o, hs') := write_one e hs g in
  exists l l', logs !! Z.to_nat g.1 = Some l /\ logs_hold hs' (<[Z.to_nat g.1 := l']> logs) /\ appended e g l l' o.
Proof.
  intros Hh (Hp & Hne & Hu & l & Hl & Hok). unfold write_one.
  destruct (Forall2_lookup_r _ _ _ _ _ Hh Hl) as (h & Hhp & Hhl). rewrite Hhp.
  pose proof (hl_append h l.1 l.2 g.2.*2 (pe_append e g.1) Hhl) as Ha.
  destruct (h_append h g.2.*2 (pe_append e g.1)) as [[offs|x|] h'].
  - destruct Ha as [-> Ha]; [by intros ?%fmap_nil_inv|done|done|].
    exists l, (l.1 ++ new_records (clock (pe_append e g.1)) l.2 g.2.*2, l.2 + len g.2).
    split; [done|]. unfold len in *. rewrite length_fmap in *. split; [|done].
    by apply Forall2_insert.
  - destruct Ha as (k & Hk & Ha); [by intros ?%fmap_nil_inv|done|done|]. rewrite length_fmap in Hk.
    eexists l, (_, _). split; [done|]. split; [|exists k; split; [done|reflexivity]].
    by apply Forall2_insert.
  - exfalso. apply Ha; [by intros ?%fmap_nil_inv|done|done].
Qed.

Lemma write_all_spec e hs logs gs :
  logs_hold hs logs -> NoDup gs.*1 -> Forall (group_fits e logs) gs ->
  let (os, hs') := write_all e hs gs in
  exists logs', logs_hold hs' logs' /\ length os = length gs /\ length logs' = length logs /\
    (forall p, (forall g, g ∈ gs -> Z.to_nat g.1 <> p) -> logs' !! p = logs !! p) /\
    (forall j g, gs !! j = Some g -> exists l l' o,
       logs !! Z.to_nat g.1 = Some l /\ logs' !! Z.to_nat g.1 = Some l' /\ os !! j = Some o /\ appended e g l l' o).
Proof.
  revert hs logs. induction gs as [|g gs IH]; intros hs logs Hh Hnd Hf; cbn [write_all].
  - exists logs. split_and!; [done..|]. intros j g. by rewrite lookup_nil.
  - apply NoDup_cons in Hnd as [Hg Hnd]. apply Forall_cons in Hf as [Hfg Hf].
    pose proof (write_one_spec e hs logs g Hh Hfg) as Hw. destruct (write_one e hs g) as [o hs1].
    destruct Hw as (l & l1 & Hl & Hh1 & Ha).
    assert (forall g', g' ∈ gs -> Z.to_nat g'.1 <> Z.to_nat g.1) as Hdiff.
    { intros g' Hg' Heq. rewrite Forall_forall in Hf. destruct (Hf g' Hg') as (Hp' & _). destruct Hfg as (Hp & _).
      apply Hg. replace g.1 with g'.1 by lia. by apply list_elem_of_fmap_2. }
    specialize (IH hs1 (<[Z.to_nat g.1 := l1]> logs) Hh1 Hnd).
    destruct (write_all e hs1 gs) as [os hs2]. destruct IH as (logs' & Hh' & Hlen & Hll & Hother & Hmine).
    { rewrite Forall_forall in Hf |- *. intros g' Hg'. destruct (Hf g' Hg') as (Hp' & Hne' & Hu' & l' & Hl' & Hok').
      split_and!; [done..|]. exists l'. by rewrite list_lookup_insert_ne by (apply not_eq_sym, Hdiff, Hg'). }
    exists logs'. rewrite length_insert in Hll. split_and!; [done|by cbn; f_equal|done| |].
    + intros p Hp. rewrite Hother; [|intros g' Hg'; apply Hp; by right].
      apply list_lookup_insert_ne. apply Hp. left.
    + intros [|j] g' Hj; cbn [lookup list_lookup] in Hj.
      * injection Hj as <-. exists l, l1, o. rewrite Hother by done.
        rewrite list_lookup_insert_eq by (by eapply lookup_lt_Some). done.
      * destruct (Hmine j g' Hj) as (l' & l2 & o' & Hl' & Hl2 & Ho' & Ha'). exists l', l2, o'.
        rewrite list_lookup_insert_ne in Hl' by (apply not_eq_sym, Hdiff; by eapply list_elem_of_lookup_2). done.
Qed.

Lemma all_ok_inv os :
  match all_ok os with
  | Ok offs => os = Ok <$> offs
  | Err _ => True
  | Panic => Panic ∈ os
  end.
Proof.
  induction os as [|o os IH]; [done|]. cbn [all_ok]. destruct o as [x|x|]; cbn [mbind outcome_bind]; [|done|left].
  destruct (all_ok os) as [offs|y|]; cbn [mbind outcome_bind]; [by rewrite IH|done|by right].
Qed.

(** Where the log of a partition ends. *)
Definition end_of (logs : list (list record * Z)) (p : Z) : Z :=
  match logs !! Z.to_nat p with Some l => l.2 | None => 0 end.

(** The records the writes of partition [p] add to its log. *)
Definition news_of (e : produce_env) (ws : list (Z * (nat * append_record))) (p : nat) (l : list record * Z) : list record :=
  new_records (clock (pe_append e (Z.of_nat p))) l.2 (writes_of (Z.of_nat p) ws).*2.

(** Every log has grown by some of its own writes. *)
Definition grown (e : produce_env) (ws : list (Z * (nat * append_record))) (logs logs' : list (list record * Z)) : Prop :=
  length logs' = length logs /\
  forall p l, logs !! p = Some l -> exists k, (k <= length (writes_of (Z.of_nat p) ws))%nat /\
    logs' !! p = Some (l.1 ++ take k (news_of e ws p l), l.2 + Z.of_nat k).

Lemma write_some_spec e hs logs ws gs :
  logs_hold hs logs -> gs `sublist_of` per_partition ws -> Forall (group_fits e logs) (per_partition ws) ->
  let (os, hs') := write_all e hs gs in
  (Panic ∉ os) /\ exists logs', logs_hold hs' logs' /\ grown e ws logs logs'.
Proof.
  intros Hh Hsub Hf.
  assert (NoDup gs.*1) as Hnd.
  { eapply (sublist_NoDup _ (per_partition ws).*1); [|by apply fmap_sublist].
    rewrite per_partition_fst. apply sort_dedup_nodup. }
  assert (forall g, g ∈ gs -> g ∈ per_partition ws) as Hin.
  { intros g Hg. eapply elem_of_submseteq; [|by apply sublist_submseteq]. done. }
  assert (Forall (group_fits e logs) gs) as Hfg.
  { rewrite Forall_forall in Hf |- *. eauto. }
  pose proof (write_all_spec e hs logs gs Hh Hnd Hfg) as Hw. destruct (write_all e hs gs) as [os hs'].
  destruct Hw as (logs' & Hh' & Hlen & Hll & Hother & Hmine). split.
  { intros HP. apply list_elem_of_lookup in HP as [j Hj].
    destruct (lookup_lt_is_Some_2 gs j) as [g Hg]; [rewrite <- Hlen; by eapply lookup_lt_Some|].
    destruct (Hmine j g Hg) as (l & l' & o & _ & _ & Ho & Ha). rewrite Hj in Ho. by injection Ho as <-. }
  exists logs'. split; [done|]. split; [done|]. intros p l Hl.
  destruct (decide (Exists (fun g => g.1 = Z.of_nat p) gs)) as [Hg|Hg].
  - apply Exists_exists in Hg as ([q g] & Hg & Hq). cbn in Hq. subst q. apply list_elem_of_lookup in Hg as [j Hj].
    destruct (Hmine j _ Hj) as (l0 & l' & o & Hl0 & Hl' & _ & Ha). cbn in Hl0, Hl'. rewrite Nat2Z.id in Hl0, Hl'.
    rewrite Hl in Hl0. injection Hl0 as <-.
    assert (g = writes_of (Z.of_nat p) ws) as ->.
    { apply list_elem_of_lookup_2, Hin, per_partition_elem in Hj. apply Hj. }
    unfold appended in Ha. cbn [fst snd] in Ha. destruct o as [offs|x|]; [| |done].
    + destruct Ha as [_ ->]. exists (length (writes_of (Z.of_nat p) ws)). split; [done|]. rewrite Hl'. do 3 f_equal.
      unfold news_of. rewrite take_ge; [done|]. by rewrite new_records_length, length_fmap.
    + destruct Ha as (k & Hk & ->). exists k. split; [done|]. exact Hl'.
  - exists 0%nat. split; [lia|]. rewrite Hother, Hl.
    + rewrite take_0, app_nil_r, Z.add_0_r. by destruct l.
    + intros [q g] Hg' Heq. cbn in Heq. apply Hg, Exists_exists. exists (q, g). split; [done|]. cbn.
      rewrite Forall_forall in Hfg. destruct (Hfg _ Hg') as (Hp & _). cbn in Hp. lia.
Qed.

Lemma join_writes_spec e hs logs ws :
  logs_hold hs logs -> Forall (group_fits e logs) (per_partition ws) ->
  let (o, hs') := join_writes e hs (per_partition ws) in
  exists logs', logs_hold hs' logs' /\ grown e ws logs logs' /\
  match o with
  | Ok offs =>
    offs = (fun g => seqZ (end_of logs g.1) (len g.2)) <$> per_partition ws /\
    forall p l, logs !! p = Some l ->
      logs' !! p = Some (l.1 ++ news_of e ws p l, l.2 + len (writes_of (Z.of_nat p) ws))
  | Err _ => True
  | Panic => False
  end.
Proof.
  intros Hh Hf. unfold join_writes.
  pose proof (write_some_spec e hs logs ws (take (pe_started e) (per_partition ws)) Hh) as H1.
  pose proof (write_some_spec e hs logs ws (per_partition ws) Hh (reflexivity _) Hf) as H2.
  assert (NoDup (per_partition ws).*1) as Hnd by (rewrite per_partition_fst; apply sort_dedup_nodup).
  pose proof (write_all_spec e hs logs (per_partition ws) Hh Hnd Hf) as H3.
  destruct (write_all e hs (take _ _)) as [os1 hs1]. destruct H1 as (HP1 & logs1 & Hh1 & Hg1); [|done|].
  { apply sublist_take. }
  pose proof (all_ok_inv os1) as Ho1. destruct (all_ok os1) as [offs1|x|]; [|by exists logs1|done].
  destruct (write_all e hs (per_partition ws)) as [os hs2]. destruct H2 as (HP2 & logs2 & Hh2 & Hg2).
  pose proof (all_ok_inv os) as Ho. destruct (all_ok os) as [offs|x|]; [|by exists logs2|done].
  subst os. clear logs2 Hh2 Hg2. destruct H3 as (logs' & Hh' & Hlen & Hll & Hother & Hmine). rewrite length_fmap in Hlen.
  exists logs'. assert (forall p l, logs !! p = Some l ->
      logs' !! p = Some (l.1 ++ news_of e ws p l, l.2 + len (writes_of (Z.of_nat p) ws))) as Hlogs.
  { intros p l Hl. destruct (decide (Z.of_nat p ∈ ws.*1)) as [Hp|Hp].
    - assert ((Z.of_nat p, writes_of (Z.of_nat p) ws) ∈ per_partition ws) as Hg by by apply per_partition_elem.
      apply list_elem_of_lookup in Hg as [j Hj]. destruct (Hmine j _ Hj) as (l0 & l' & o & Hl0 & Hl' & Ho & Ha).
      cbn [fst snd] in *. rewrite Nat2Z.id in *. rewrite Hl in Hl0. injection Hl0 as <-.
      rewrite list_lookup_fmap in Ho. destruct (offs !! j) as [offj|]; [|done]. injection Ho as <-.
      destruct Ha as [_ ->]. exact Hl'.
    - unfold news_of. rewrite (proj1 (writes_of_nil _ _) Hp). cbn [fmap list_fmap new_records imap]. rewrite app_nil_r.
      change (len []) with 0. rewrite Z.add_0_r, Hother, Hl; [by destruct l|].
      intros [q g] Hg Heq. apply per_partition_elem in Hg as [Hg Hg'].
      assert ((q, g) ∈ per_partition ws) as Hin by by apply per_partition_elem.
      rewrite Forall_forall in Hf. destruct (Hf _ Hin) as (Hp0 & _). cbn in *. apply Hp. by replace (Z.of_nat p) with q by lia. }
  split; [done|]. split; [split; [done|]|split; [|done]].
  - intros p l Hl. exists (length (writes_of (Z.of_nat p) ws)). split; [done|]. rewrite (Hlogs p l Hl).
    rewrite take_ge; [done|]. unfold news_of. by rewrite new_records_length, length_fmap.
  - apply list_eq_same_length with (length offs); [by rewrite length_fmap|done|]. intros j x y _ Hx Hy.
    rewrite list_lookup_fmap in Hy. destruct (per_partition ws !! j) as [g|] eqn:Hj; [|done]. injection Hy as <-.
    destruct (Hmine j g Hj) as (l & l' & o & Hl & _ & Ho & Ha). rewrite list_lookup_fmap, Hx in Ho. injection Ho as <-.
    destruct Ha as [-> _]. unfold end_of. by rewrite Hl.
Qed.
(** The written records are the ones of the reference. *)
Lemma written_elem logs ws p i off :
  (p, i, off) ∈ written_records (per_partition ws)
    ((fun g => seqZ (end_of logs g.1) (len g.2)) <$> per_partition ws) <->
  exists j a, writes_of p ws !! j = Some (i, a) /\ off = end_of logs p + Z.of_nat j.
Proof.
  unfold written_records. rewrite zip_with_fmap_r, zip_with_diag, list_elem_of_join. split.
  - intros (l & Hl & Hx). apply list_elem_of_fmap in Hx as ([q g] & -> & Hg).
    apply per_partition_elem in Hg as [_ ->]. cbn [fst snd] in Hl.
    apply list_elem_of_lookup in Hl as [j Hj]. rewrite lookup_zip_with in Hj.
    destruct (writes_of q ws !! j) as [[i' a]|] eqn:Ea; [|done]. cbn in Hj.
    rewrite lookup_seqZ_lt in Hj by (apply lookup_lt_Some in Ea; unfold len; lia). injection Hj as <- <- <-.
    exists j, a. split; [done|]. lia.
  - intros (j & a & Hj & ->). assert (p ∈ ws.*1) as Hp.
    { destruct (decide (p ∈ ws.*1)) as [|Hn]; [done|]. apply writes_of_nil in Hn. by rewrite Hn in Hj. }
    eexists. split; [|apply list_elem_of_fmap; exists (p, writes_of p ws); split; [reflexivity|by apply per_partition_elem]].
    cbn [fst snd]. apply list_elem_of_lookup. exists j. rewrite lookup_zip_with, Hj. cbn.
    by rewrite lookup_seqZ_lt by (apply lookup_lt_Some in Hj; unfold len; lia).
Qed.

Lemma expected_dup next ds ps i off p :
  ds !! i = Some (Some off) -> ps !! i = Some p -> expected next ds ps !! i = Some (mkProduced p off true).
Proof.
  revert next ps i. induction ds as [|[o|] ds IH]; intros next [|q ps] [|i]; cbn [lookup list_lookup]; try done.
  - by intros [= ->] [= ->].
  - intros H1 H2. cbn [expected]. change ((?x :: ?l) !! S ?n) with (l !! n). by apply IH.
  - intros H1 H2. cbn [expected]. change ((?x :: ?l) !! S ?n) with (l !! n). by apply IH.
Qed.

Lemma results_filled logs ds ps rs :
  length ds = length rs -> length ps = length rs ->
  let ws := to_write 0 ds ps rs in
  fill_results (duplicates ds ps) (written_records (per_partition ws)
    ((fun g => seqZ (end_of logs g.1) (len g.2)) <$> per_partition ws)) = Some <$> expected (end_of logs) ds ps.
Proof.
  intros Hd Hp ws. apply fill_results_target.
  - unfold duplicates. rewrite length_zip_with, expected_length by lia. lia.
  - intros p i off Hw. apply written_elem in Hw as (j & a & Hj & ->).
    destruct (expected_write (end_of logs) 0 ds ps rs p j i a Hj) as [_ He]. by rewrite Nat.sub_0_r in He.
  - intros i x. unfold duplicates. rewrite lookup_zip_with. destruct (ds !! i) as [d|] eqn:Ed; [|done].
    destruct (ps !! i) as [p|] eqn:Ep; [|done]. cbn. destruct d as [off|]; [|done]. intros [= <-].
    by apply expected_dup.
  - intros i. unfold duplicates. rewrite lookup_zip_with. destruct (ds !! i) as [d|] eqn:Ed; [|done].
    destruct (ps !! i) as [p|] eqn:Ep; [|done]. cbn. destruct d as [off|]; [done|]. intros _.
    destruct (lookup_lt_is_Some_2 rs i) as [r Hr]. { rewrite <- Hd. by eapply lookup_lt_Some. }
    pose proof (undecided_written 0 ds ps rs i p r Ed Ep Hr) as Hin. apply list_elem_of_lookup in Hin as [j Hj].
    exists p, (end_of logs p + Z.of_nat j). apply written_elem. eauto.
Qed.
End Writes.

(** ** Requests that fit *)

(** [Config::validate_limits]: the largest [max_record_bytes]. *)
Definition MAX_RECORD_CAP : Z := 32 * 1024 * 1024.

Lemma request_size_ok m i rs n : request_size m i rs = Ok n -> Forall (fun r => data_bytes (ir_key r) (ir_value r) <= m) rs.
Proof.
  revert i n. induction rs as [|r rs IH]; intros i n; cbn; [by constructor|]. case_if; [done|].
  intros Hb. apply bind_ok_inv in Hb as (t & Ht & _). constructor; [lia|]. by eapply IH.
Qed.

Lemma request_size_no_panic m i rs : request_size m i rs <> Panic.
Proof.
  revert i. induction rs as [|r rs IH]; intros i; cbn; [done|]. case_if; [done|].
  destruct (request_size m (i + 1) rs) eqn:Er; [done|done|]. by specialize (IH (i + 1)).
Qed.

Lemma check_sequences_no_panic i rs : check_sequences i rs <> Panic.
Proof. revert i. induction rs as [|r rs IH]; intros i; cbn; [done|]. repeat (case_match; try done). Qed.

Definition hint_ok (r : incoming_record) : Prop := forall h, ir_partition r = Some h -> 0 <= h.

Lemma route_range n rr key hint :
  0 < n -> 0 <= rr < 2 ^ 64 -> (forall h, hint = Some h -> 0 <= h) ->
  match route n rr key hint with
  | (Ok p, rr') => (0 <= p < n /\ forall h, hint = Some h -> p = h) /\ 0 <= rr' < 2 ^ 64
  | (Err _, rr') => 0 <= rr' < 2 ^ 64
  | (Panic, _) => False
  end.
Proof.
  intros Hn Hrr Hh. unfold route. destruct hint as [h|].
  { specialize (Hh h eq_refl). case_if; [lia|]. split; [split; [lia|by intros ? [= ->]]|lia]. }
  destruct key as [k|]; (split; [split; [apply Z.mod_pos_bound; lia|intros; discriminate]|]); [lia|unfold wrap_u; apply Z.mod_pos_bound; lia].
Qed.

Lemma route_all_range n rr rs :
  0 < n -> 0 <= rr < 2 ^ 64 -> Forall hint_ok rs ->
  match route_all n rr rs with
  | (Ok ps, _) => Forall2 (fun r p => 0 <= p < n /\ forall h, ir_partition r = Some h -> p = h) rs ps
  | (Err _, _) => True
  | (Panic, _) => False
  end.
Proof.
  intros Hn Hrr Hh. revert rr Hrr. induction Hh as [|r rs Hr _ IH]; intros rr Hrr; [constructor|]. cbn [route_all].
  pose proof (route_range n rr (ir_key r) (ir_partition r) Hn Hrr Hr) as Hp.
  destruct (route n rr (ir_key r) (ir_partition r)) as [[p|e|] rr']; [|done|done]. destruct Hp as [Hp Hrr'].
  specialize (IH rr' Hrr'). destruct (route_all n rr' rs) as [[ps|e|] rr'']; cbn; [|done|done].
  by constructor.
Qed.

Lemma to_write_elem k ds ps rs p i a :
  (i, a) ∈ writes_of p (to_write k ds ps rs) ->
  exists r, r ∈ rs /\ a = append_record_new (ir_key r) (ir_value r).
Proof.
  revert k ps rs. induction ds as [|[o|] ds IH]; intros k [|q ps] [|r rs]; cbn [to_write]; try (by intros ?%elem_of_nil).
  - intros Hi. destruct (IH _ _ _ Hi) as (r' & Hr & ->). exists r'. split; [by right|done].
  - rewrite writes_of_cons. destruct (q =? p).
    + intros [[= -> ->]|Hi]%elem_of_cons; [exists r; split; [left|done]|].
      destruct (IH _ _ _ Hi) as (r' & Hr & ->). exists r'. split; [by right|done].
    + intros Hi. destruct (IH _ _ _ Hi) as (r' & Hr & ->). exists r'. split; [by right|done].
Qed.

Lemma to_write_length k ds ps rs p : (length (writes_of p (to_write k ds ps rs)) <= length rs)%nat.
Proof.
  revert k ps rs. induction ds as [|[o|] ds IH]; intros k [|q ps] [|r rs]; cbn [to_write length]; try (cbn; lia).
  - specialize (IH (S k) ps rs). lia.
  - rewrite writes_of_cons. specialize (IH (S k) ps rs). destruct (q =? p); cbn [length]; lia.
Qed.

(** A record within the broker's limit can be stored. *)
Lemma record_fits r o now :
  is_u 64 o -> is_i 64 now -> data_bytes (ir_key r) (ir_value r) <= MAX_RECORD_CAP ->
  record_ok (mkRecord o now (ir_key r) (ir_value r)).
Proof.
  intros Ho Hn Hd. split; [exact Ho|]. split; [exact Hn|].
  rewrite record_size_eq. cbn [r_key r_value]. unfold data_bytes, MAX_RECORD_CAP in Hd.
  unfold RECORD_LEN_FIELD, MAX_RECORD_BODY_BYTES. destruct (ir_key r); cbn in *; [|change (len []) with 0]; lia.
Qed.

(** ** Requests *)

Section Requests.
Context {H E : Type} `{PartitionHandle H E} {holds : H -> list record -> Z -> Prop} {clock : E -> Z}
  `{!HandleLaws holds clock}.

Lemma groups_fit (e : produce_env) hs logs ds ps rs :
  logs_hold (holds := holds) hs logs -> Forall (fun p => 0 <= p < len hs) ps ->
  Forall (fun r => data_bytes (ir_key r) (ir_value r) <= MAX_RECORD_CAP) rs ->
  Forall (fun l => l.2 + len rs <= 2 ^ 64) logs -> (forall p, is_i 64 (clock (pe_append e p))) ->
  Forall (group_fits (clock := clock) e logs) (per_partition (to_write 0 ds ps rs)).
Proof.
  intros Hh Hps Hrs Hl Hc. apply Forall_forall. intros [p g] Hg. apply per_partition_elem in Hg as [Hp ->].
  pose proof (to_write_fst _ _ _ _ _ Hp) as Hin. rewrite Forall_forall in Hps. specialize (Hps p Hin).
  unfold group_fits. cbn [fst snd]. split_and!; [lia| |apply to_write_unassigned|].
  { intros Hn. by apply writes_of_nil in Hn. }
  destruct (lookup_lt_is_Some_2 logs (Z.to_nat p)) as [l Hlp].
  { rewrite <- (Forall2_length _ _ _ Hh). unfold len in Hps. lia. }
  exists l. split; [done|].
  assert (0 <= l.2) as Hl0.
  { destruct (Forall2_lookup_r _ _ _ _ _ Hh Hlp) as (h & _ & Hhl). by apply hl_bounds in Hhl as [? _]. }
  rewrite Forall_forall in Hl. specialize (Hl l (list_elem_of_lookup_2 _ _ _ Hlp)).
  apply Forall_lookup. intros j x Hj. unfold new_records in Hj. rewrite list_lookup_imap, list_lookup_fmap in Hj.
  destruct (writes_of p (to_write 0 ds ps rs) !! j) as [[i a]|] eqn:Ej; [|done]. cbn in Hj. injection Hj as <-.
  pose proof (lookup_lt_Some _ _ _ Ej) as Hlt. pose proof (to_write_length 0 ds ps rs p) as Hlen. unfold len in *.
  apply list_elem_of_lookup_2, to_write_elem in Ej as (r & Hr & ->). rewrite Forall_forall in Hrs.
  apply (record_fits r); [split; lia|apply Hc|by apply Hrs].
Qed.

Lemma dp_bind_eq {A B} (m : dp A) (f : A -> dp (H := H) B) b :
  (m ≫= f) b = match m b with
               | (Ok a, b) => f a b
               | (Err e, b) => (Err e, b)
               | (Panic, b) => (Panic, b)
               end.
Proof. done. Qed.

Lemma remember_frame pid owner topic (e : produce_env (E := E)) ws (b : broker (H := H)) :
  match remember pid owner topic e ws b with
  | (Ok _, b') => b_topics b' = b_topics b
  | (Err x, b') => x = DInternal /\ b_topics b' = b_topics b
  | (Panic, _) => False
  end.
Proof.
  unfold remember. rewrite !dp_bind_eq. cbn [modify fst snd].
  rewrite dp_bind_eq. unfold guard_dp. destruct (_ || _); cbn; [|split; [done|]]; destruct (rg_state _ !! pid); done.
Qed.

(** The part of [produce] that writes. *)
Lemma write_request_spec k name rs pid e ps ds (b : broker (H := H)) t logs :
  b_topics b !! name = Some t -> logs_hold (holds := holds) (t_partitions t) logs ->
  length ds = length rs -> length ps = length rs ->
  Forall (fun p => 0 <= p < len (t_partitions t)) ps ->
  Forall (fun r => data_bytes (ir_key r) (ir_value r) <= MAX_RECORD_CAP) rs ->
  Forall (fun l => l.2 + len rs <= 2 ^ 64) logs -> (forall p, is_i 64 (clock (pe_append e p))) ->
  let (o, b') := write_request k name rs pid e ps ds b in
  exists t' logs', b_topics b' = <[name := t']> (b_topics b) /\ logs_hold (holds := holds) (t_partitions t') logs' /\
    grown (clock := clock) e (to_write 0 ds ps rs) logs logs' /\
    match o with
    | Ok out => out = expected (end_of logs) ds ps /\
        forall p l, logs !! p = Some l -> logs' !! p =
          Some (l.1 ++ news_of (clock := clock) e (to_write 0 ds ps rs) p l, l.2 + len (writes_of (Z.of_nat p) (to_write 0 ds ps rs)))
    | Err x => x = DInternal
    | Panic => False
    end.
Proof.
  intros Ht Hh Hds Hps Hr Hrs Hl Hc. pose proof (groups_fit e _ _ ds ps rs Hh Hr Hrs Hl Hc) as Hfit.
  set (ws := to_write 0 ds ps rs) in *. unfold write_request. fold ws. rewrite dp_bind_eq.
  unfold the_topic. rewrite Ht. cbn [ok_or fst snd].
  pose proof (join_writes_spec e (t_partitions t) logs ws Hh Hfit) as Hj.
  destruct (join_writes e (t_partitions t) (per_partition ws)) as [o hs].
  destruct Hj as (logs' & Hh' & Hg & Ho). rewrite dp_bind_eq. unfold modify_topic at 1. cbn [modify]. rewrite Ht.
  set (b1 := set_topic b name (set_parts t hs)). rewrite dp_bind_eq. unfold lift. cbn [fst snd].
  destruct o as [offs|x|]; cbn [map_err]; [|exists (set_parts t hs), logs'; done|done].
  destruct Ho as [-> Hlogs]. set (written := written_records _ _). rewrite dp_bind_eq.
  set (m := match pid with Some pid => _ | None => _ end : dp unit).
  assert (match m b1 with (Ok _, b2) => b_topics b2 = b_topics b1
          | (Err x, b2) => x = DInternal /\ b_topics b2 = b_topics b1 | (Panic, _) => False end) as Hm.
  { unfold m. destruct pid; [apply remember_frame|done]. }
  destruct (m b1) as [[u|x|] b2]; [|destruct Hm as [-> Hm]|done].
  - rewrite dp_bind_eq. unfold modify_topic. cbn [modify fst snd]. rewrite Hm. cbn [b1 set_topic b_topics].
    rewrite lookup_insert_eq. unfold written, ws. rewrite results_filled by done. rewrite mapM_id_some. cbn [mret dp_ret].
    eexists _, logs'. split; [cbn [set_topic b_topics]; rewrite Hm; cbn; by rewrite insert_insert_eq|].
    split; [exact Hh'|]. split; [exact Hg|]. split; [done|exact Hlogs].
  - eexists _, logs'. split; [rewrite Hm; reflexivity|]. split; [exact Hh'|]. split; [exact Hg|done].
Qed.

Lemma decide_length st topic tent reqs ds : decide_records st topic tent reqs = Ok ds -> length ds = length reqs.
Proof.
  revert tent ds. induction reqs as [|[p s] reqs IH]; intros tent ds; cbn [decide_records]; [by intros [= <-]|].
  assert (forall tent' d, cons d <$> decide_records st topic tent' reqs = Ok ds -> length ds = S (length reqs)) as Hc.
  { intros tent' d. destruct (decide_records st topic tent' reqs) eqn:E'; cbn; [|done|done]. intros [= <-]. cbn.
    f_equal. by eapply IH. }
  repeat case_match; try done; apply Hc.
Qed.

Lemma decide_no_panic st topic tent reqs : decide_records st topic tent reqs <> Panic.
Proof.
  revert tent. induction reqs as [|[p s] reqs IH]; intros tent; cbn [decide_records]; [done|].
  assert (forall tent' (d : option Z), cons d <$> decide_records st topic tent' reqs <> Panic) as Hc.
  { intros tent' d. specialize (IH tent'). by destruct (decide_records st topic tent' reqs). }
  repeat case_match; try done; apply Hc.
Qed.

Lemma admit_no_panic r pid owner now : admit_producer r pid owner now <> Panic.
Proof.
  unfold admit_producer, claim_slot, mbind, outcome_bind. destruct (negb _); [done|].
  destruct (rg_state r !! pid) as [st|]; [by case_bool_decide|].
  destruct (_ <=? _)%nat; [done|]. destruct (_ <=? _); [done|]. by case_bool_decide.
Qed.

(** ** A broker that serves a topic *)

(** The topic [name] is [t], its partitions hold [logs], and the limits are those
    the configuration allows. *)
Record serving (b : broker (H := H)) (name : string) (t : topic (H := H)) (logs : list (list record * Z)) : Prop := {
  sv_topic : b_topics b !! name = Some t;
  sv_logs : logs_hold (holds := holds) (t_partitions t) logs;
  sv_parts : 0 < len (t_partitions t);
  sv_rr : 0 <= t_rr_counter t < 2 ^ 64;
  sv_limit : b_max_record_bytes b <= MAX_RECORD_CAP }.

(** A request whose hints are [u32]s, with room for its offsets and clocks that
    are [i64]s. *)
Record fits (rs : list incoming_record) (e : produce_env (E := E)) (logs : list (list record * Z)) : Prop := {
  ft_hints : Forall hint_ok rs;
  ft_room : Forall (fun l => l.2 + len rs <= 2 ^ 64) logs;
  ft_clock : forall p, is_i 64 (clock (pe_append e p)) }.

(** The records as stored. *)
Definition stored (now : Z) (m : list (incoming_record * produced)) : list record :=
  (fun x => mkRecord (pr_offset x.2) now (ir_key x.1) (ir_value x.1)) <$> m.

Lemma stored_new_records now n m :
  (pr_offset ∘ snd <$> m) = seqZ n (len m) ->
  new_records now n ((fun x => append_record_new (ir_key x.1) (ir_value x.1)) <$> m) = stored now m.
Proof.
  intros Ho. apply list_eq. intros i. unfold new_records, stored. rewrite list_lookup_imap, !list_lookup_fmap.
  destruct (m !! i) as [x|] eqn:Hi; [|done]. cbn. do 2 f_equal.
  assert ((pr_offset ∘ snd <$> m) !! i = seqZ n (len m) !! i) as Hx by by rewrite Ho.
  rewrite list_lookup_fmap, Hi, lookup_seqZ_lt in Hx by (apply lookup_lt_Some in Hi; unfold len; lia). cbn in Hx.
  injection Hx as ->. lia.
Qed.

(** ** What a refused request leaves unchanged *)

(** The sequences known of a producer. *)
Definition windows (b : broker (H := H)) (pid : string) : gmap (string * Z) partition_window :=
  match rg_state (b_producers b) !! pid with Some st => pd_partitions st | None => ∅ end.

(** The partitions, the sequences and the journal. *)
Definition untouched (b b' : broker (H := H)) : Prop :=
  (forall name, t_partitions <$> (b_topics b' !! name) = t_partitions <$> (b_topics b !! name)) /\
  (forall pid, windows b' pid = windows b pid) /\
  rg_journal (b_producers b') = rg_journal (b_producers b).

#[global] Instance untouched_preorder : PreOrder untouched.
Proof.
  split; [done|]. intros x y z (A1 & A2 & A3) (B1 & B2 & B3). split_and!; intros; by etrans; eauto.
Qed.

(** An action that only reads, checks, or moves counters. *)
Definition harmless {A} (m : dp (H := H) A) : Prop := forall b, untouched b (m b).2.

Lemma harmless_bind {A B} (m : dp A) (f : A -> dp B) :
  harmless m -> (forall a, harmless (f a)) -> harmless (m ≫= f).
Proof.
  intros Hm Hf b. rewrite dp_bind_eq. specialize (Hm b). destruct (m b) as [[a|x|] b1]; cbn in *; [|done..].
  etrans; [exact Hm|]. apply Hf.
Qed.

Lemma harmless_pure {A} (m : dp (H := H) A) : (forall b, (m b).2 = b) -> harmless m.
Proof. intros Hm b. by rewrite Hm. Qed.

Lemma harmless_modify f : (forall b, untouched b (f b)) -> harmless (modify f).
Proof. done. Qed.

Lemma untouched_keys b ks : untouched b (set_keys b ks).
Proof. done. Qed.

Lemma untouched_topic b name t t' :
  b_topics b !! name = Some t -> t_partitions t' = t_partitions t -> untouched b (set_topic b name t').
Proof.
  intros Ht Hp. split_and!; [|done..]. intros n. cbn. destruct (decide (n = name)) as [->|Hne].
  - by rewrite lookup_insert_eq, Ht; cbn; rewrite Hp.
  - by rewrite lookup_insert_ne.
Qed.

Lemma guard_pure c e b : (guard_dp (H := H) c e b).2 = b.
Proof. by destruct c. Qed.

(** Admission keeps the sequences of every producer, and the journal. *)
Lemma admit_frame r pid owner now r' st :
  admit_producer r pid owner now = Ok (r', st) ->
  rg_state r' !! pid = Some st /\ rg_journal r' = rg_journal r /\
  pd_partitions st = match rg_state r !! pid with Some st0 => pd_partitions st0 | None => ∅ end /\
  (forall q, q <> pid -> rg_state r' !! q = rg_state r !! q).
Proof.
  unfold admit_producer, claim_slot, mbind, outcome_bind. destruct (negb _); [done|].
  destruct (rg_state r !! pid) as [st0|].
  - repeat case_bool_decide; intros [= <- <-]; cbn; (split_and!; [by rewrite lookup_insert_eq|done|done|]);
      intros q Hq; by rewrite lookup_insert_ne.
  - destruct (_ <=? _)%nat; [done|]. destruct (_ <=? _); [done|].
    repeat case_bool_decide; intros [= <- <-]; cbn; (split_and!; [by rewrite lookup_insert_eq|done|done|]);
      intros q Hq; by rewrite !lookup_insert_ne.
Qed.

Lemma untouched_admit (b : broker (H := H)) pid owner now r' st :
  admit_producer (b_producers b) pid owner now = Ok (r', st) -> untouched b (set_producers b r').
Proof.
  intros Ha. apply admit_frame in Ha as (Hs & Hj & Hp & Hq). split_and!; [done| |exact Hj].
  intros q. unfold windows. cbn. destruct (decide (q = pid)) as [->|Hne]; [by rewrite Hs|by rewrite Hq].
Qed.

Lemma check_produce_no_panic s id n now : (check_produce s id n now).1 <> Panic.
Proof.
  unfold check_produce, try_take. destruct (ks_limiters s !! id) as [l|]; [|done]. destruct (li_produce l); [|done].
  destruct (_ <? _); [done|]. by destruct (_ <=? _).
Qed.

(** The checks: what they establish, and what they change. *)
Lemma validate_spec k name rs wp (e : produce_env (E := E)) (b : broker (H := H)) :
  match validate k name rs wp e b with
  | (Ok _, b') => (exists ks, b' = set_keys b ks) /\ len rs <= MAX_RECORDS_PER_REQUEST /\
      Forall (fun r => data_bytes (ir_key r) (ir_value r) <= b_max_record_bytes b) rs /\
      (wp = true -> check_sequences 0 rs = Ok ())
  | (Err x, b') => x <> DInternal /\ untouched b b'
  | (Panic, _) => False
  end.
Proof.
  unfold validate. rewrite dp_bind_eq. unfold guard_dp. case_if; cbn [mret dp_ret throw]; [|by split].
  rewrite dp_bind_eq. cbn [gets]. rewrite dp_bind_eq. unfold lift at 1.
  pose proof (request_size_ok (b_max_record_bytes b) 0 rs) as Hs.
  pose proof (request_size_no_panic (b_max_record_bytes b) 0 rs) as Hp.
  destruct (request_size (b_max_record_bytes b) 0 rs) as [n|x|]; cbn [map_err]; [|by split|done].
  rewrite dp_bind_eq. cbn [gets]. pose proof (check_produce_no_panic (b_keys b) (k_key_id k) n (pe_instant e)) as Hnp.
  destruct (check_produce _ _ _ _) as [o ks]. cbn [fst] in Hnp. rewrite dp_bind_eq. cbn [modify]. rewrite dp_bind_eq. unfold lift at 1.
  destruct o as [u|x|]; cbn [map_err]; [|by split|done].
  destruct wp; [|cbn; split_and!; [by eexists|lia|by eapply Hs|done]]. unfold lift.
  pose proof (check_sequences_no_panic 0 rs) as Hcp.
  destruct (check_sequences 0 rs) as [[]|x|]; cbn [map_err]; [split_and!; [by eexists|lia|by eapply Hs|done]|by split|done].
Qed.

(** How a request that reached the writes was decided. *)
Definition decided_by (k : api_key) (name : string) (rs : list incoming_record) (pid : option string)
    (now : Z) (ps : list Z) (b b1 : broker (H := H)) (ds : list (option Z)) : Prop :=
  match pid with
  | None => ds = replicate (length rs) None
  | Some pid => exists st, admit_producer (b_producers b) pid (k_key_id k) now = Ok (b_producers b1, st) /\
      check_sequences 0 rs = Ok () /\
      decide_records st name ∅ (zip ps ((fun r => default 0 (ir_sequence r)) <$> rs)) = Ok ds
  end.

Lemma produce_cases k name rs pid (e : produce_env (E := E)) (b : broker (H := H)) :
  (forall t, b_topics b !! name = Some t -> 0 < len (t_partitions t) /\ 0 <= t_rr_counter t < 2 ^ 64) ->
  Forall hint_ok rs ->
  (exists x b', produce k name rs pid e b = (Err x, b') /\ x <> DInternal /\ untouched b b') \/
  (rs = [] /\ produce k name rs pid e b = (Ok [], b)) \/
  (exists t ps rr b1 ds, can k ActWrite name = true /\ b_topics b !! name = Some t /\ rs <> [] /\
     len rs <= MAX_RECORDS_PER_REQUEST /\
     Forall (fun r => data_bytes (ir_key r) (ir_value r) <= b_max_record_bytes b) rs /\
     route_all (len (t_partitions t)) (t_rr_counter t) rs = (Ok ps, rr) /\
     b_topics b1 = <[name := set_rr t rr]> (b_topics b) /\ b_max_record_bytes b1 = b_max_record_bytes b /\ untouched b b1 /\
     decided_by k name rs pid (pe_now e) ps b b1 ds /\
     produce k name rs pid e b = write_request k name rs pid e ps ds b1).
Proof.
  intros Htop Hh. remember (produce k name rs pid e b) as r eqn:Hr. revert Hr.
  unfold produce. rewrite dp_bind_eq. unfold guard_dp. destruct (can k ActWrite name); cbn [mret dp_ret throw].
  2: { intros ->. left. by eexists _, _. }
  rewrite dp_bind_eq. unfold the_topic. destruct (b_topics b !! name) as [t|] eqn:Ht; cbn [ok_or].
  2: { intros ->. left. by eexists _, _. }
  case_bool_decide as Hrs; [intros ->; right; left; done|]. rewrite dp_bind_eq.
  pose proof (validate_spec k name rs (bool_decide (is_Some pid)) e b) as Hv.
  destruct (validate k name rs _ e b) as [[u|x|] b0]; [|intros ->; left; by eexists _, _|done].
  destruct Hv as ([ks ->] & Hlen & Hsz & Hseq).
  destruct (Htop t eq_refl) as [Hn Hrr]. pose proof (route_all_range _ _ rs Hn Hrr Hh) as Hra.
  destruct (route_all _ _ rs) as [o rr] eqn:Eroute. rewrite dp_bind_eq. unfold modify_topic. cbn [modify set_keys b_topics]. rewrite Ht.
  set (b1 := set_topic (set_keys b ks) name (set_rr t rr)).
  assert (untouched b b1) as Hu1.
  { etrans; [apply (untouched_keys b ks)|]. by eapply untouched_topic. }
  rewrite dp_bind_eq. unfold lift at 1. destruct o as [ps|x|]; cbn [map_err]; [|intros ->; left; eexists _, _; split; [done|by split]|done].
  rewrite dp_bind_eq. destruct pid as [pid|].
  - unfold admit_and_decide. rewrite dp_bind_eq. cbn [gets]. rewrite dp_bind_eq. unfold lift at 1.
    pose proof (admit_no_panic (b_producers b1) pid (k_key_id k) (pe_now e)) as Hnp.
    destruct (admit_producer (b_producers b1) pid (k_key_id k) (pe_now e)) as [[r' st]|x|] eqn:Ea; cbn [map_err]; [| |done].
    2: { intros ->. left. eexists _, _. split; [done|]. split; [by destruct x|exact Hu1]. }
    rewrite dp_bind_eq. cbn [modify]. unfold lift.
    pose proof (decide_no_panic st name ∅ (zip ps ((fun r => default 0 (ir_sequence r)) <$> rs))) as Hdp.
    assert (untouched b (set_producers b1 r')) as Hu2.
    { etrans; [exact Hu1|]. by eapply untouched_admit. }
    destruct (decide_records _ _ _ _) as [ds|x|] eqn:Ed; cbn [map_err]; [| |done].
    2: { intros ->. left. by eexists _, _. }
    intros ->. right; right. exists t, ps, rr, (set_producers b1 r'), ds. do 9 (split; [assumption || reflexivity|]). split; [|reflexivity].
    exists st. split; [exact Ea|]. split; [by apply Hseq, bool_decide_eq_true|done].
  - intros ->. right; right. exists t, ps, rr, b1, (replicate (length rs) None). do 9 (split; [assumption || reflexivity|]). by split.
Qed.

Lemma decided_length k name rs pid now ps b b1 ds :
  length ps = length rs -> decided_by k name rs pid now ps b b1 ds -> length ds = length rs.
Proof.
  intros Hl. destruct pid as [pid|]; cbn.
  - intros (st & _ & _ & Hd). apply decide_length in Hd. rewrite Hd, length_zip_with, length_fmap. lia.
  - intros ->. apply length_replicate.
Qed.

Lemma expected_partition next ds ps : length ds = length ps -> pr_partition <$> expected next ds ps = ps.
Proof.
  revert next ps. induction ds as [|[o|] ds IH]; intros next [|p ps] Hl; cbn in *; try done; f_equal; apply IH; lia.
Qed.

Lemma to_write_sublist k ds ps rs p :
  ((fun w => (ar_key w.2, ar_value w.2)) <$> writes_of p (to_write k ds ps rs)) `sublist_of`
  ((fun r => (ir_key r, ir_value r)) <$> rs).
Proof.
  revert k ps rs. induction ds as [|[o|] ds IH]; intros k [|q ps] [|r rs]; cbn [to_write]; try apply sublist_nil_l.
  - cbn. by apply sublist_cons.
  - rewrite writes_of_cons. destruct (q =? p); cbn; [by apply sublist_skip|by apply sublist_cons].
Qed.

Lemma new_records_data now n recs :
  ((fun r => (r_key r, r_value r)) <$> new_records now n recs) = (fun r => (ar_key r, ar_value r)) <$> recs.
Proof. unfold new_records. rewrite fmap_imap. revert n. induction recs as [|r recs IH]; intros n; [done|]. cbn. f_equal. apply (IH n). Qed.

(** The records of a request that reached the log of a partition before a failure. *)
Definition part_of_request (rs : list incoming_record) (l l' : list record * Z) : Prop :=
  exists news, l' = (l.1 ++ news, l.2 + len news) /\ (r_offset <$> news) = seqZ l.2 (len news) /\
    ((fun r => (r_key r, r_value r)) <$> news) `sublist_of` ((fun r => (ir_key r, ir_value r)) <$> rs).

Lemma grown_part e ds ps rs logs logs' p l :
  grown (clock := clock) e (to_write 0 ds ps rs) logs logs' -> logs !! p = Some l ->
  exists l', logs' !! p = Some l' /\ part_of_request rs l l'.
Proof.
  intros [_ Hg] Hl. destruct (Hg p l Hl) as (k & Hk & Hl'). eexists. split; [exact Hl'|].
  assert (length (news_of (clock := clock) e (to_write 0 ds ps rs) p l) = length (writes_of (Z.of_nat p) (to_write 0 ds ps rs))) as Hn.
  { unfold news_of. by rewrite new_records_length, length_fmap. }
  eexists. split; [unfold len; rewrite length_take, Hn, Nat.min_l by done; reflexivity|]. split.
  - unfold len. rewrite length_take, Hn, Nat.min_l by done. apply list_eq. intros i.
    rewrite list_lookup_fmap. destruct (decide (i < k)%nat) as [Hi|Hi].
    + rewrite lookup_take_lt by done. unfold news_of, new_records.
      rewrite list_lookup_imap, list_lookup_fmap, lookup_seqZ_lt by lia.
      destruct (lookup_lt_is_Some_2 (writes_of (Z.of_nat p) (to_write 0 ds ps rs)) i) as [w Hw]; [lia|]. by rewrite Hw.
    + rewrite lookup_take_ge, lookup_seqZ_ge by lia. done.
  - etrans; [|apply (to_write_sublist 0 ds ps rs (Z.of_nat p))]. rewrite fmap_take. unfold news_of.
    rewrite new_records_data, <- list_fmap_compose. apply sublist_take.
Qed.

(** A request, in all its outcomes. *)
Lemma produce_spec k name rs pid e b t logs :
  serving b name t logs -> fits rs e logs ->
  match produce k name rs pid e b with
  | (Ok out, b') =>
      Forall2 (fun r o => 0 <= pr_partition o < len logs /\ forall h, ir_partition r = Some h -> pr_partition o = h) rs out /\
      exists t' logs', b_topics b' = <[name := t']> (b_topics b) /\ logs_hold (holds := holds) (t_partitions t') logs' /\
        length logs' = length logs /\
        forall p l, logs !! p = Some l ->
          let new := mine (Z.of_nat p) rs out in
          (pr_offset ∘ snd <$> new) = seqZ l.2 (len new) /\
          logs' !! p = Some (l.1 ++ stored (clock (pe_append e (Z.of_nat p))) new, l.2 + len new)
  | (Err DInternal, b') =>
      exists t' logs', b_topics b' = <[name := t']> (b_topics b) /\ logs_hold (holds := holds) (t_partitions t') logs' /\
        length logs' = length logs /\
        forall p l, logs !! p = Some l -> exists l', logs' !! p = Some l' /\ part_of_request rs l l'
  | (Err _, b') => untouched b b'
  | (Panic, _) => False
  end.
Proof.
  intros [Ht Hlogs Hn Hrr Hlim] [Hh Hroom Hclk].
  destruct (produce_cases k name rs pid e b) as [(x & b' & -> & Hx & Hu)|[[-> ->]|(t0 & ps & rr & b1 & ds & _ & Ht0 & Hrs & _ & Hsz & Hroute & Htop & _ & Hu & Hdec & ->)]].
  - intros t0 Ht0. rewrite Ht in Ht0. by injection Ht0 as <-.
  - done.
  - by destruct x.
  - split; [by constructor|]. exists t, logs. split_and!; [by rewrite insert_id|done|done|].
    intros p l Hl. cbn. split; [done|]. rewrite app_nil_r. change (len []) with 0. rewrite Z.add_0_r, Hl. by destruct l.
  - rewrite Ht in Ht0. injection Ht0 as <-. pose proof (route_all_range _ _ rs Hn Hrr Hh) as Hra. rewrite Hroute in Hra.
    assert (length ps = length rs) as Hlp by (symmetry; by eapply Forall2_length).
    pose proof (decided_length _ _ _ _ _ _ _ _ _ Hlp Hdec) as Hld.
    assert (len (t_partitions t) = len logs) as Hpl by (unfold len; by rewrite (Forall2_length _ _ _ Hlogs)).
    pose proof (write_request_spec k name rs pid e ps ds b1 (set_rr t rr) logs) as Hw.
    destruct (write_request k name rs pid e ps ds b1) as [o b'].
    destruct Hw as (t' & logs' & Hb' & Hl' & Hg & Ho); [by rewrite Htop, lookup_insert_eq|done|done|done| | |done|done|].
    { apply (Forall2_Forall_r _ _ _ _ Hra). apply Forall_forall. by intros r _ p [? _]. }
    { eapply Forall_impl; [exact Hsz|]. cbn. intros r Hr. lia. }
    assert (b_topics b' = <[name := t']> (b_topics b)) as Hb2 by (by rewrite Hb', Htop, insert_insert_eq).
    destruct o as [out|x|]; [| |done].
    + destruct Ho as [-> Ho]. split.
      { assert (pr_partition <$> expected (end_of logs) ds ps = ps) as Hep by (apply expected_partition; lia).
        rewrite <- Hep, Hpl in Hra. by rewrite Forall2_fmap_r in Hra. }
      exists t', logs'. split_and!; [done|done|by destruct Hg|]. intros p l Hl. cbn zeta.
      destruct (mine_expected (end_of logs) 0 ds ps rs (Z.of_nat p)) as [Hm1 Hm2]; [lia|done|].
      assert (end_of logs (Z.of_nat p) = l.2) as Hend by (unfold end_of; rewrite Nat2Z.id; by rewrite Hl).
      set (new := mine (Z.of_nat p) rs _) in *.
      assert (len (writes_of (Z.of_nat p) (to_write 0 ds ps rs)) = len new) as Hnew.
      { unfold len. f_equal. apply (f_equal length) in Hm2. by rewrite !length_fmap in Hm2. }
      rewrite Hend, Hnew in Hm1. split; [done|]. rewrite (Ho p l Hl), Hnew. unfold news_of. rewrite <- Hm2.
      by rewrite stored_new_records.
    + subst x. exists t', logs'. split_and!; [done|done|by destruct Hg|]. intros p l Hl. by eapply grown_part.
Qed.
End Requests.
