(* ===== verification/Registry.v ===== *)
(** * Topics on disk (broker.rs, topic.rs, http/topics.rs, http/error.rs)

    Creating, configuring and deleting topics of a broker without Raft, the sweep
    and the opening at start-up, and the handlers around them.  The directory
    [topics] maps names to directories; a topic's directory holds the directories of
    its partitions ([Recover]) and topic.json, whose text is written and parsed by
    serde_json (the class [MetaText]).  What is done to the directory is a list of
    operations: a crash stops them anywhere.  A directory that was not synced since
    its last change may come back with any content. *)

From S2P Require Export Dataplane Recover.

#[local] Open Scope Z_scope.

(** ** The directory *)

Record topic_meta : Type := mkMeta { tm_partitions : Z; tm_config : persisted_config }.

Class MetaText : Type := {
  meta_json : topic_meta -> list byte;
  parse_meta : list byte -> option topic_meta;
  parse_meta_json : forall m, parse_meta (meta_json m) = Some m }.

Definition empty_disk : disk := mkDisk ∅ ∅ ∅ ∅ None.

Record topic_dir : Type := mkTopicDir {
  td_parts : gmap Z disk; td_meta : option (list byte); td_synced : bool }.

Abbreviation topics_dir := (gmap string topic_dir).

Inductive dir_op : Type :=
| MakePart (dir : string) (id : Z)
| WriteMeta (dir : string) (bytes : list byte)
| SyncDir (dir : string)
| RenameDir (src dst : string)
| SyncRoot
| RemoveDir (dir : string).

Definition new_dir : topic_dir := mkTopicDir ∅ None false.

(** A rename fails when the destination exists: a topic's directory is not empty. *)
Definition dir_apply (root : topics_dir) (op : dir_op) : topics_dir :=
  match op with
  | MakePart d id =>
    let td := default new_dir (root !! d) in
    <[d := mkTopicDir (<[id := default empty_disk (td_parts td !! id)]> (td_parts td)) (td_meta td) false]> root
  | WriteMeta d bytes =>
    let td := default new_dir (root !! d) in <[d := mkTopicDir (td_parts td) (Some bytes) (td_synced td)]> root
  | SyncDir d => alter (fun td => mkTopicDir (td_parts td) (td_meta td) true) d root
  | RenameDir src dst =>
    match root !! src, root !! dst with
    | Some td, None => <[dst := td]> (delete src root)
    | _, _ => root
    end
  | SyncRoot => root
  | RemoveDir d => delete d root
  end.

Definition dir_run (root : topics_dir) (ops : list dir_op) : topics_dir := fold_left dir_apply ops root.

(** The directories after a crash that happened after [done] of the operations. *)
Definition removing (ops : list dir_op) (done : nat) (name : string) : Prop := ops !! done = Some (RemoveDir name).

Definition dir_crash (root : topics_dir) (ops : list dir_op) (root' : topics_dir) : Prop :=
  exists done : nat, let now := dir_run root (take done ops) in
    forall name, match now !! name with
    | None => root' !! name = None
    | Some td => root' !! name = Some td \/ removing ops done name \/ td_synced td = false
    end.

(** ** Topics *)

Section Registry.
Context `{!Crc32, !MetaText}.

(** The parts of [Config] a topic needs. *)
Record reg_config : Type := mkRegConfig { rc_defaults : broker_defaults; rc_flush_every_records : Z }.

(** [Topic]; what the data plane uses of it is its record [topic]. *)
Record open_topic : Type := mkOpenTopic {
  ot_topic : @topic partition; ot_config : topic_config; ot_persisted : persisted_config }.

Definition open_parts (parts : gmap Z disk) (n : Z) (segment_bytes flush : Z) : list partition :=
  (fun id => partition_open (default empty_disk (parts !! Z.of_nat id)) segment_bytes flush) <$> seq 0 (Z.to_nat n).

Definition make_topic (parts : gmap Z disk) (n : Z) (resolved : topic_config) (persisted : persisted_config)
    (c : reg_config) : open_topic :=
  mkOpenTopic (mkTopic (open_parts parts n (tc_segment_bytes resolved) (rc_flush_every_records c)) 0 0 0 0 0)
    resolved persisted.

(** [Topic::open] *)
Definition topic_open (td : topic_dir) (c : reg_config) : outcome string open_topic :=
  bytes ← ok_or "read topic meta"%string (td_meta td);
  meta ← ok_or "parse topic meta"%string (parse_meta bytes);
  resolved ← resolve (tm_config meta) (rc_defaults c);
  Ok (make_topic (td_parts td) (tm_partitions meta) resolved (tm_config meta) c).

Definition CREATING_PREFIX : string := "~creating-".
Definition DELETING_PREFIX : string := "~deleting-".

(** The staging directory, with its random suffix. *)
Definition staging_name (name suffix : string) : string := CREATING_PREFIX +:+ name +:+ "-" +:+ suffix.
Definition doomed_name (name suffix : string) : string := DELETING_PREFIX +:+ name +:+ "-" +:+ suffix.

(** What [Topic::create] does to the directory. *)
Definition create_ops (name suffix : string) (partitions : Z) (meta : topic_meta) : list dir_op :=
  let staging := staging_name name suffix in
  ((fun id => MakePart staging (Z.of_nat id)) <$> seq 0 (Z.to_nat partitions)) ++
  [WriteMeta staging (meta_json meta); SyncDir staging; RenameDir staging name; SyncRoot].

(** What can go wrong: the operation at which building the directory fails, the
    clean-up of the staging directory, and opening the partitions. *)
Record create_env : Type := mkCreateEnv {
  ce_suffix : string; ce_build_fails : option nat; ce_cleanup_works : bool; ce_open_fails : bool; ce_error : string }.

Definition exists_error (name : string) : string := "topic '" +:+ name +:+ "' already exists".
Definition not_found_error (name : string) : string := "topic '" +:+ name +:+ "' not found".

Definition topic_create (root : topics_dir) (name : string) (partitions : Z) (c : reg_config)
    (patch : option topic_patch) (env : create_env) : topics_dir * outcome string open_topic :=
  match create_checks name partitions patch with
  | Err e => (root, Err e)
  | Panic => (root, Panic)
  | Ok _ =>
    if bool_decide (is_Some (root !! name)) then (root, Err (exists_error name)) else
    let persisted := match patch with Some p => from_patch p | None => mkPersisted None None None None None end in
    match resolve persisted (rc_defaults c) with
    | Err e => (root, Err e)
    | Panic => (root, Panic)
    | Ok resolved =>
      let ops := create_ops name (ce_suffix env) partitions (mkMeta partitions persisted) in
      match ce_build_fails env with
      | Some k =>
        let root := dir_run root (take k ops) in
        (if ce_cleanup_works env then dir_run root [RemoveDir (staging_name name (ce_suffix env))] else root,
         Err (ce_error env))
      | None =>
        let root := dir_run root ops in
        if ce_open_fails env then (root, Err (ce_error env))
        else (root, Ok (make_topic (td_parts (default new_dir (root !! name))) partitions resolved persisted c))
      end
    end
  end.

(** ** The broker's registry *)

Record registry_state : Type := mkRegistry { rg_topics : gmap string open_topic; rg_root : topics_dir }.

(** [Broker::create_topic] *)
Definition create_topic (r : registry_state) (name : string) (partitions : Z) (c : reg_config)
    (patch : option topic_patch) (env : create_env) : registry_state * outcome string open_topic :=
  if bool_decide (is_Some (rg_topics r !! name)) then (r, Err (exists_error name)) else
  match topic_create (rg_root r) name partitions c patch env with
  | (root, Ok t) => (mkRegistry (<[name := t]> (rg_topics r)) root, Ok t)
  | (root, e) => (mkRegistry (rg_topics r) root, e)
  end.

(** [Partition::set_segment_bytes] *)
Definition set_segment_bytes (p : partition) (bytes : Z) : partition :=
  mkPartition (p_dir p) bytes (p_next_offset p) (p_start_offset p) (p_segments p) (p_appender p)
    (p_flush_every_records p) (p_unsynced p) (p_write_seq p) (p_latest p) (p_synced p) (p_poisoned p) (p_durable p).

Definition reconfigured (t : open_topic) (persisted : persisted_config) (resolved : topic_config) : open_topic :=
  let tp := ot_topic t in
  mkOpenTopic (mkTopic ((fun p => set_segment_bytes p (tc_segment_bytes resolved)) <$> t_partitions tp) (t_rr_counter tp)
    (t_records_produced tp) (t_bytes_produced tp) (t_records_consumed tp) (t_bytes_consumed tp)) resolved persisted.

(** [Broker::update_topic_config] and [Topic::update_config]; topic.json is replaced
    as a whole ([Fsutil]), or writing it fails. *)
Definition update_topic_config (r : registry_state) (name : string) (patch : topic_patch) (c : reg_config)
    (write_error : option string) : registry_state * outcome string topic_config :=
  match rg_topics r !! name with
  | None => (r, Err (not_found_error name))
  | Some t =>
    match update_config (ot_persisted t) patch (rc_defaults c) with
    | Err e => (r, Err e)
    | Panic => (r, Panic)
    | Ok (persisted, resolved) =>
      match write_error with
      | Some e => (r, Err e)
      | None =>
        let meta := mkMeta (len (t_partitions (ot_topic t))) persisted in
        (mkRegistry (<[name := reconfigured t persisted resolved]> (rg_topics r))
           (dir_run (rg_root r) [WriteMeta name (meta_json meta)]), Ok resolved)
      end
    end
  end.

Definition delete_ops (name suffix : string) : list dir_op :=
  [RenameDir name (doomed_name name suffix); SyncRoot; RemoveDir (doomed_name name suffix)].

(** [Broker::delete_topic]: a rename that fails is logged, a removal that fails is
    left to the next start. *)
Record delete_env : Type := mkDeleteEnv { de_suffix : string; de_rename_works : bool; de_removal_works : bool }.

Definition delete_topic (r : registry_state) (name : string) (env : delete_env) : registry_state * outcome string open_topic :=
  match rg_topics r !! name with
  | None => (r, Err (not_found_error name))
  | Some t =>
    let ops := if de_rename_works env then
        if de_removal_works env then delete_ops name (de_suffix env) else take 2 (delete_ops name (de_suffix env))
      else [] in
    (mkRegistry (delete name (rg_topics r)) (dir_run (rg_root r) ops), Ok t)
  end.

(** ** Start-up *)

Definition is_leftover (name : string) : bool := String.prefix CREATING_PREFIX name || String.prefix DELETING_PREFIX name.

(** [sweep_leftover_dirs]; a directory that could not be removed is skipped by its
    name. *)
Definition sweep_leftover_dirs (root : topics_dir) : topics_dir := filter (fun kv => is_leftover kv.1 = false) root.

(** What [Broker::open] makes of a directory: [None] when it is skipped. *)
Definition open_entry (c : reg_config) (name : string) (td : topic_dir) : option (outcome string open_topic) :=
  match validate_topic_name name with
  | Ok _ => match td_meta td with None => None | Some _ => Some (topic_open td c) end
  | _ => None
  end.

Definition outcome_ok {A} (o : outcome string A) : option A := match o with Ok a => Some a | _ => None end.

(** The topics of [Broker::open]: one that cannot be opened stops the start. *)
Definition registry_open (root : topics_dir) (c : reg_config) : outcome string registry_state :=
  let root := sweep_leftover_dirs root in
  let opened := map_imap (open_entry c) root in
  if bool_decide (map_Forall (fun _ o => is_Some (outcome_ok o)) opened)
  then Ok (mkRegistry (omap outcome_ok opened) root) else Err "open topic"%string.

(** [Broker::list_topics] *)
Definition list_topics (r : registry_state) : list string := merge_sort string_le (elements (dom (rg_topics r))).

(** ** The handlers *)

(** [AppError]: the status, and the message unless it is hidden behind an id. *)
Record app_error : Type := mkAppError { ae_status : Z; ae_message : option string }.

Fixpoint str_contains (sub s : string) : bool :=
  String.prefix sub s || match s with EmptyString => false | String _ s => str_contains sub s end.

Definition CLIENT_ERROR_PHRASES : list string :=
  ["out of range"; "must "; "may only"; "length must"; "must have"; "is reserved"; "limit reached"; "not valid";
   "unknown cleanup_policy"; "incompatible"; "at most"; "already owns"; "not leader"]%string.

(** The status of an [anyhow] error, by what its message reads. *)
Definition app_error_of (message : string) : app_error :=
  if str_contains "already exists" message then mkAppError 409 (Some message)
  else if str_contains "not found" message then mkAppError 404 (Some message)
  else if existsb (fun p => str_contains p message) CLIENT_ERROR_PHRASES then mkAppError 400 (Some message)
  else mkAppError 500 None.

Definition forbidden (message : string) : app_error := mkAppError 403 (Some message).

Definition of_outcome {A B} (f : A -> B) (o : outcome string A) : outcome app_error B :=
  match o with Ok a => Ok (f a) | Err e => Err (app_error_of e) | Panic => Panic end.

(** [http::topics::create]: the number of partitions. *)
Definition http_create_topic (r : registry_state) (key : api_key) (name : string) (partitions : Z) (c : reg_config)
    (patch : option topic_patch) (env : create_env) : registry_state * outcome app_error Z :=
  if is_admin key then
    let (r, o) := create_topic r name partitions c patch env in
    (r, of_outcome (fun t => len (t_partitions (ot_topic t))) o)
  else (r, Err (forbidden "create topic requires admin grant")).

(** [http::topics::list] *)
Definition http_list_topics (r : registry_state) (key : api_key) : list string :=
  filter (fun name => can key ActRead name = true) (list_topics r).

Definition read_refused (key : api_key) (name : string) : app_error :=
  forbidden ("key '" +:+ k_key_id key +:+ "' does not have read access to topic '" +:+ name +:+ "'").

(** [http::topics::describe] and [get_config] *)
Definition http_topic (r : registry_state) (key : api_key) (name : string) : outcome app_error open_topic :=
  if can key ActRead name then ok_or (mkAppError 404 (Some (not_found_error name))) (rg_topics r !! name)
  else Err (read_refused key name).

Definition partition_info (id : nat) (p : partition) : Z * Z * Z * Z * Z :=
  (Z.of_nat id, p_start_offset p, p_next_offset p, len (p_segments p), total_size_bytes p).

Definition http_describe (r : registry_state) (key : api_key) (name : string)
    : outcome app_error (list (Z * Z * Z * Z * Z) * topic_config) :=
  t ← http_topic r key name; Ok (imap partition_info (t_partitions (ot_topic t)), ot_config t).

Definition http_get_config (r : registry_state) (key : api_key) (name : string) : outcome app_error topic_config :=
  t ← http_topic r key name; Ok (ot_config t).

(** [http::topics::update_config] *)
Definition http_update_config (r : registry_state) (key : api_key) (name : string) (patch : topic_patch)
    (c : reg_config) (write_error : option string) : registry_state * outcome app_error topic_config :=
  if is_admin key then
    let (r, o) := update_topic_config r name patch c write_error in (r, of_outcome (fun x => x) o)
  else (r, Err (forbidden "update config requires admin grant")).

(** [http::topics::delete_topic] *)
Definition http_delete_topic (r : registry_state) (key : api_key) (name : string) (env : delete_env)
    : registry_state * outcome app_error Z :=
  if is_admin key then
    let (r, o) := delete_topic r name env in (r, of_outcome (fun t => len (t_partitions (ot_topic t))) o)
  else (r, Err (forbidden "delete topic requires admin grant")).
End Registry.
