(* ===== verification/RegistrySpec.v ===== *)
(** * What the registry of topics promises

    The files of a broker stand for a map from topic names to their number of
    partitions and their configuration.  Every operation changes that map as it
    says, and a start after a crash anywhere finds the map from before or after. *)

From S2P Require Export Registry.

#[local] Open Scope Z_scope.

(** The abstract registry. *)
Abbreviation topic_map := (gmap string (Z * persisted_config)).

Section Spec.
Context `{!Crc32, !MetaText} (c : reg_config).

Definition topic_facts (t : open_topic) : Z * persisted_config := (len (t_partitions (ot_topic t)), ot_persisted t).

Definition reg_spec (r : registry_state) : topic_map := topic_facts <$> rg_topics r.

(** What the directory holds under a name. *)
Definition entry_ok (name : string) (otd : option topic_dir) (fact : option (Z * persisted_config)) : Prop :=
  match fact with
  | Some (n, p) =>
    is_leftover name = false /\ validate_topic_name name = Ok tt /\ 0 <= n /\
    exists td cfg, otd = Some td /\ td_synced td = true /\ td_meta td = Some (meta_json (mkMeta n p)) /\
      resolve p (rc_defaults c) = Ok cfg
  | None =>
    is_leftover name = true \/ validate_topic_name name <> Ok tt \/ otd = None \/
    exists td, otd = Some td /\ td_meta td = None /\ td_synced td = true
  end.

Definition root_holds (root : topics_dir) (m : topic_map) : Prop := forall name, entry_ok name (root !! name) (m !! name).

Record reg_ok (r : registry_state) : Prop := {
  ro_root : root_holds (rg_root r) (reg_spec r);
  ro_config : forall name t, rg_topics r !! name = Some t -> resolve (ot_persisted t) (rc_defaults c) = Ok (ot_config t) }.

(** ** Opening *)

Lemma topic_open_meta td n p cfg :
  td_meta td = Some (meta_json (mkMeta n p)) -> resolve p (rc_defaults c) = Ok cfg ->
  topic_open td c = Ok (make_topic (td_parts td) n cfg p c).
Proof. intros Hm Hr. unfold topic_open. rewrite Hm. cbn. rewrite parse_meta_json. cbn. by rewrite Hr. Qed.

Lemma open_parts_len parts n sb fl : 0 <= n -> len (open_parts parts n sb fl) = n.
Proof. intros Hn. unfold open_parts, len. rewrite length_fmap, length_seq. lia. Qed.

(** What becomes of one name. *)
Lemma open_entry_ok root m name :
  root_holds root m ->
  match m !! name with
  | Some (n, p) => exists t, map_imap (open_entry c) (sweep_leftover_dirs root) !! name = Some (Ok t) /\
      topic_facts t = (n, p) /\ resolve p (rc_defaults c) = Ok (ot_config t)
  | None => map_imap (open_entry c) (sweep_leftover_dirs root) !! name = None
  end.
Proof.
  intros Hh. specialize (Hh name). unfold entry_ok in Hh. rewrite map_lookup_imap.
  destruct (m !! name) as [[n p]|].
  - destruct Hh as (Hl & Hv & Hn & td & cfg & Htd & _ & Hm & Hr).
    assert (sweep_leftover_dirs root !! name = Some td) as -> by (by apply map_lookup_filter_Some). cbn. unfold open_entry.
    rewrite Hv, Hm, (topic_open_meta td n p cfg) by done. eexists. split_and!; [reflexivity| |done].
    unfold topic_facts. cbn. by rewrite open_parts_len.
  - destruct (sweep_leftover_dirs root !! name) as [td|] eqn:Ef; [|done]. cbn.
    apply map_lookup_filter_Some in Ef as [Htd Hl]. cbn in Hl. unfold open_entry.
    destruct Hh as [?|[Hv|[Hn|(td' & Htd' & Hm & _)]]]; [congruence| |congruence|].
    + by destruct (validate_topic_name name) as [[]| |].
    + assert (td' = td) as -> by congruence. rewrite Hm. by destruct (validate_topic_name name).
Qed.

Lemma sweep_holds root m : root_holds root m -> root_holds (sweep_leftover_dirs root) m.
Proof.
  intros Hh name. specialize (Hh name). unfold entry_ok in *. destruct (m !! name) as [[n p]|].
  - destruct Hh as (Hl & Hv & Hn & td & cfg & Htd & Hx). split_and!; [done..|]. exists td, cfg.
    split; [by apply map_lookup_filter_Some|done].
  - destruct (sweep_leftover_dirs root !! name) as [td|] eqn:Ef; [|by right; right; left].
    apply map_lookup_filter_Some in Ef as [Htd _]. rewrite Htd in Hh. by destruct Hh as [?|[?|[?|?]]]; auto.
Qed.

(** A directory that holds [m] starts as [m]. *)
Lemma registry_open_holds root m :
  root_holds root m ->
  exists r, registry_open root c = Ok r /\ reg_spec r = m /\ reg_ok r.
Proof.
  intros Hh. unfold registry_open. set (opened := map_imap _ _).
  assert (forall name, opened !! name = match m !! name with
    | Some (n, p) => opened !! name | None => None end) as Hnone.
  { intros name. pose proof (open_entry_ok root m name Hh) as Ho. by destruct (m !! name) as [[n p]|]. }
  rewrite bool_decide_true.
  2:{ intros name o Ho. pose proof (open_entry_ok root m name Hh) as He. fold opened in He.
      destruct (m !! name) as [[n p]|]; [|congruence]. destruct He as (t & Ht & _). rewrite Ht in Ho. injection Ho as <-. by eexists. }
  eexists. split; [reflexivity|].
  assert (reg_spec (mkRegistry (omap outcome_ok opened) (sweep_leftover_dirs root)) = m) as Espec.
  { apply map_eq. intros name. unfold reg_spec. cbn. rewrite lookup_fmap, lookup_omap.
    pose proof (open_entry_ok root m name Hh) as He. fold opened in He. destruct (m !! name) as [[n p]|]; [|by rewrite He].
    destruct He as (t & -> & Hf & _). cbn. by rewrite Hf. }
  split; [done|]. split; [rewrite Espec; by apply sweep_holds|]. cbn. intros name t Ht. rewrite lookup_omap in Ht.
  pose proof (open_entry_ok root m name Hh) as He. fold opened in He. destruct (m !! name) as [[n p]|]; [|by rewrite He in Ht].
  destruct He as (t' & Et & Hf & Hr). rewrite Et in Ht. cbn in Ht. injection Ht as <-. injection Hf as _ <-. exact Hr.
Qed.

(** ** The operations on the directory *)

Definition touches (op : dir_op) (name : string) : Prop :=
  match op with
  | MakePart d _ | WriteMeta d _ | SyncDir d | RemoveDir d => d = name
  | RenameDir src dst => src = name \/ dst = name
  | SyncRoot => False
  end.

Lemma apply_other root op name : ~ touches op name -> dir_apply root op !! name = root !! name.
Proof.
  destruct op as [d id|d bytes|d|src dst| |d]; cbn; intros Ht.
  - by rewrite lookup_insert_ne.
  - by rewrite lookup_insert_ne.
  - by rewrite lookup_alter_ne.
  - destruct (root !! src), (root !! dst); try done. rewrite lookup_insert_ne, lookup_delete_ne; [done|tauto|tauto].
  - done.
  - by rewrite lookup_delete_ne.
Qed.

Lemma run_other ops root name : Forall (fun op => ~ touches op name) ops -> dir_run root ops !! name = root !! name.
Proof.
  intros Hf. revert root. induction Hf as [|op ops Hop _ IH]; intros root; [done|].
  unfold dir_run in *. cbn. rewrite IH. by apply apply_other.
Qed.

Lemma run_app root a b : dir_run root (a ++ b) = dir_run (dir_run root a) b.
Proof. apply fold_left_app. Qed.

(** ** Names *)

Lemma leftover_staging name suffix : is_leftover (staging_name name suffix) = true.
Proof. unfold is_leftover. apply orb_true_iff. left. apply Auth.prefix_app. by eexists. Qed.

Lemma leftover_doomed name suffix : is_leftover (doomed_name name suffix) = true.
Proof. unfold is_leftover. apply orb_true_iff. right. apply Auth.prefix_app. by eexists. Qed.

Lemma valid_not_leftover name : validate_topic_name name = Ok tt -> is_leftover name = false.
Proof.
  intros Hv. destruct (is_leftover name) eqn:El; [|done]. exfalso.
  assert (exists ch rest, name = String ch rest /\ topic_char ch = false) as (ch & rest & -> & Hch).
  { unfold is_leftover in El. apply orb_true_iff in El as [El|El]; apply Auth.prefix_app in El as [r ->];
      eexists _, _; (split; [reflexivity|done]). }
  unfold validate_topic_name in Hv. destruct (_ || _) in Hv; [done|]. cbn in Hv. by rewrite Hch in Hv.
Qed.

Lemma valid_not_staging name n s : validate_topic_name name = Ok tt -> name <> staging_name n s.
Proof. intros Hv ->. apply valid_not_leftover in Hv. by rewrite leftover_staging in Hv. Qed.

Lemma valid_not_doomed name n s : validate_topic_name name = Ok tt -> name <> doomed_name n s.
Proof. intros Hv ->. apply valid_not_leftover in Hv. by rewrite leftover_doomed in Hv. Qed.

(** ** Changing what is held *)

Lemma holds_leftover root root' m :
  root_holds root m -> (forall name, is_leftover name = false -> root' !! name = root !! name) -> root_holds root' m.
Proof.
  intros Hh Hs name. specialize (Hh name). destruct (is_leftover name) eqn:El.
  - destruct (m !! name) as [[n p]|] eqn:Em; rewrite ?Em; [|by left]. destruct Hh as [? _]. congruence.
  - by rewrite Hs.
Qed.

Lemma holds_insert root root' m name n p td cfg :
  root_holds root m -> validate_topic_name name = Ok tt -> 0 <= n -> resolve p (rc_defaults c) = Ok cfg ->
  root' !! name = Some td -> td_synced td = true -> td_meta td = Some (meta_json (mkMeta n p)) ->
  (forall other, other <> name -> is_leftover other = false -> root' !! other = root !! other) ->
  root_holds root' (<[name := (n, p)]> m).
Proof.
  intros Hh Hv Hn Hr Htd Hs Hm Ho other. specialize (Hh other). destruct (decide (other = name)) as [->|Hne].
  - rewrite lookup_insert_eq. cbn. split_and!; [by apply valid_not_leftover|done|done|]. by exists td, cfg.
  - rewrite lookup_insert_ne by done. destruct (is_leftover other) eqn:El.
    + destruct (m !! other) as [[n' p']|]; [|by left]. destruct Hh as [? _]. congruence.
    + by rewrite Ho.
Qed.

Lemma holds_delete root root' m name :
  root_holds root m -> root' !! name = None ->
  (forall other, other <> name -> is_leftover other = false -> root' !! other = root !! other) ->
  root_holds root' (delete name m).
Proof.
  intros Hh Hn Ho other. specialize (Hh other). destruct (decide (other = name)) as [->|Hne].
  - rewrite lookup_delete_eq. by right; right; left.
  - rewrite lookup_delete_ne by done. destruct (is_leftover other) eqn:El.
    + destruct (m !! other) as [[n' p']|]; [|by left]. destruct Hh as [? _]. congruence.
    + by rewrite Ho.
Qed.

(** A crash between states that hold the one or the other. *)
Lemma crash_holds root ops root' m m' :
  (forall k, root_holds (dir_run root (take k ops)) m \/ root_holds (dir_run root (take k ops)) m') ->
  (forall k name, ops !! k = Some (RemoveDir name) -> is_leftover name = true) ->
  dir_crash root ops root' -> root_holds root' m \/ root_holds root' m'.
Proof.
  intros Hk Hrm [k Hcr]. cbv zeta in Hcr.
  assert (forall m0, root_holds (dir_run root (take k ops)) m0 -> root_holds root' m0) as Hgo.
  { intros m0 Hh name. specialize (Hh name). specialize (Hcr name). unfold entry_ok in *.
    destruct (m0 !! name) as [[n p]|].
    - destruct Hh as (Hl & Hv & Hn & td & cfg & Htd & Hs & Hx). rewrite Htd in Hcr. split_and!; [done..|]. exists td, cfg.
      destruct Hcr as [->|[Hr|?]]; [done| |congruence]. apply Hrm in Hr. congruence.
    - destruct Hh as [?|[?|[Hn|(td & Htd & Hm & Hs)]]]; [by left|by right; left| |].
      + rewrite Hn in Hcr. by right; right; left.
      + rewrite Htd in Hcr. destruct Hcr as [->|[Hr|?]]; [|left; by eapply Hrm|congruence]. right; right; right. by exists td. }
  destruct (Hk k); [left|right]; by apply Hgo.
Qed.

(** ** Creating *)

Section Create.
Context (root : topics_dir) (name suffix : string) (n : Z) (meta : topic_meta).
#[local] Abbreviation staging := (staging_name name suffix).
#[local] Abbreviation ops := (create_ops name suffix n meta).
#[local] Abbreviation parts := ((fun id => MakePart staging (Z.of_nat id)) <$> seq 0 (Z.to_nat n)).
Context (Hv : validate_topic_name name = Ok tt) (Hn : root !! name = None) (Hs : root !! staging = None).

Lemma parts_other other : other <> staging -> Forall (fun op => ~ touches op other) parts.
Proof. intros Hne. apply Forall_fmap, Forall_true. cbn. congruence. Qed.

(** The partitions of the staging directory are empty. *)
Lemma parts_empty ids r :
  (forall td id, r !! staging = Some td -> default empty_disk (td_parts td !! id) = empty_disk) ->
  forall td id, dir_run r ((fun id => MakePart staging (Z.of_nat id)) <$> ids) !! staging = Some td ->
    default empty_disk (td_parts td !! id) = empty_disk.
Proof.
  revert r. induction ids as [|i ids IH]; intros r Hr; [done|]. cbn [fmap list_fmap]. unfold dir_run. cbn [fold_left].
  apply IH. cbn. intros td id. rewrite lookup_insert_eq. intros [= <-]. cbn.
  assert (forall id, default empty_disk (td_parts (default new_dir (r !! staging)) !! id) = empty_disk) as He.
  { intros id'. destruct (r !! staging) as [td|] eqn:Etd; [by apply Hr|by cbn; rewrite lookup_empty]. }
  destruct (decide (id = Z.of_nat i)) as [->|]; [by rewrite lookup_insert_eq; cbn|by rewrite lookup_insert_ne].
Qed.

(** Until the rename only the staging directory changes, then the topic is there. *)
Lemma create_final :
  exists td, dir_run root ops !! name = Some td /\ td_synced td = true /\ td_meta td = Some (meta_json meta) /\
    (forall id, default empty_disk (td_parts td !! id) = empty_disk) /\
    forall other, other <> name -> other <> staging -> dir_run root ops !! other = root !! other.
Proof.
  pose proof (valid_not_staging name name suffix Hv) as Hns. unfold create_ops. rewrite run_app.
  set (r1 := dir_run root parts).
  assert (forall other, other <> staging -> r1 !! other = root !! other) as Ho1 by (intros; by apply run_other, parts_other).
  assert (forall id, default empty_disk (td_parts (default new_dir (r1 !! staging)) !! id) = empty_disk) as Hemp.
  { intros id. destruct (r1 !! staging) as [td|] eqn:Etd; [|by cbn; rewrite lookup_empty]. cbn.
    apply (parts_empty (seq 0 (Z.to_nat n)) root); [|done]. intros td' id'. by rewrite Hs. }
  unfold dir_run. cbn [fold_left]. set (r2 := dir_apply r1 _). set (r3 := dir_apply r2 _).
  assert (r3 !! staging = Some (mkTopicDir (td_parts (default new_dir (r1 !! staging))) (Some (meta_json meta)) true)) as E3.
  { unfold r3, r2. cbn. by rewrite lookup_alter_eq, lookup_insert_eq. }
  assert (forall other, other <> staging -> r3 !! other = root !! other) as Ho3.
  { intros other Hne. unfold r3, r2. rewrite !apply_other by (cbn; congruence). by apply Ho1. }
  cbn [dir_apply]. rewrite E3, (Ho3 name), Hn by done. eexists. rewrite lookup_insert_eq. split_and!; [done..|].
  intros other H1 H2. rewrite lookup_insert_ne, lookup_delete_ne by done. by apply Ho3.
Qed.

Lemma create_before k other :
  (k <= length parts + 2)%nat -> other <> staging -> dir_run root (take k ops) !! other = root !! other.
Proof.
  intros Hk Hne. unfold create_ops. cbv zeta. rewrite take_app, run_app.
  assert (Forall (fun op => ~ touches op other) (take k parts)) as Hp by (by apply Forall_take, parts_other).
  destruct (k - length parts)%nat as [|[|[|]]] eqn:Ek; [| | |lia]; cbn [take];
    rewrite run_other by (repeat constructor; cbn; congruence); by apply run_other.
Qed.

Lemma create_after k : (length parts + 3 <= k)%nat -> dir_run root (take k ops) = dir_run root ops.
Proof.
  intros Hk. unfold create_ops. cbv zeta. rewrite take_app, (take_ge parts) by lia. rewrite !run_app.
  destruct (k - length parts)%nat as [|[|[|[|k']]]] eqn:Ek; [lia..| |]; cbn [take]; rewrite ?take_nil; reflexivity.
Qed.
End Create.

(** ** The registry *)

Definition persisted_of (patch : option topic_patch) : persisted_config :=
  match patch with Some p => from_patch p | None => mkPersisted None None None None None end.

Inductive topic_op : Type :=
| OpCreate (name : string) (n : Z) (patch : option topic_patch) (suffix : string)
| OpUpdate (name : string) (patch : topic_patch)
| OpDelete (name suffix : string).

(** What an operation does to the abstract registry. *)
Definition op_effect (m : topic_map) (op : topic_op) : topic_map :=
  match op with
  | OpCreate name n patch _ => <[name := (n, persisted_of patch)]> m
  | OpUpdate name patch => alter (fun np => (np.1, merge_patch np.2 patch)) name m
  | OpDelete name _ => delete name m
  end.

(** ... and, once it is accepted, to the directory. *)
Definition op_dir (r : registry_state) (op : topic_op) : list dir_op :=
  match op with
  | OpCreate name n patch suffix => create_ops name suffix n (mkMeta n (persisted_of patch))
  | OpUpdate name patch =>
    match rg_topics r !! name with
    | Some t => [WriteMeta name (meta_json (mkMeta (len (t_partitions (ot_topic t))) (merge_patch (ot_persisted t) patch)))]
    | None => []
    end
  | OpDelete name suffix => delete_ops name suffix
  end.

(** The random suffixes are new. *)
Definition op_fresh (r : registry_state) (op : topic_op) : Prop :=
  match op with
  | OpCreate name _ _ suffix => rg_root r !! staging_name name suffix = None
  | OpUpdate _ _ => True
  | OpDelete name suffix => rg_root r !! doomed_name name suffix = None
  end.

(** The operation without failures of the file system. *)
Definition op_run (r : registry_state) (op : topic_op) : registry_state * outcome string unit :=
  match op with
  | OpCreate name n patch suffix =>
    let (r, o) := create_topic r name n c patch (mkCreateEnv suffix None true false "") in (r, _ ← o; Ok tt)
  | OpUpdate name patch => let (r, o) := update_topic_config r name patch c None in (r, _ ← o; Ok tt)
  | OpDelete name suffix => let (r, o) := delete_topic r name (mkDeleteEnv suffix true true) in (r, _ ← o; Ok tt)
  end.

(** When an operation gets as far as the directory. *)
Definition op_accepted (r : registry_state) (op : topic_op) : Prop :=
  match op with
  | OpCreate name n patch _ =>
    create_checks name n patch = Ok tt /\ 0 <= n /\ rg_topics r !! name = None /\ rg_root r !! name = None
  | OpUpdate name patch =>
    exists t res, rg_topics r !! name = Some t /\ update_config (ot_persisted t) patch (rc_defaults c) = Ok res
  | OpDelete name _ => is_Some (rg_topics r !! name)
  end.

Lemma create_valid name n patch : create_checks name n patch = Ok tt -> validate_topic_name name = Ok tt.
Proof.
  unfold create_checks. destruct (n =? 0); [done|]. destruct (MAX_PARTITIONS <? n); [done|].
  by destruct (validate_topic_name name) as [[]| |].
Qed.

(** A new topic's configuration can be resolved. *)
Lemma persisted_resolves patch : exists cfg, resolve (persisted_of patch) (rc_defaults c) = Ok cfg.
Proof. destruct patch as [[p1 p2 [[]|] p4 p5]|]; by eexists. Qed.

Lemma update_config_eq old patch res :
  update_config old patch (rc_defaults c) = Ok res -> res.1 = merge_patch old patch /\ resolve res.1 (rc_defaults c) = Ok res.2.
Proof.
  unfold update_config. cbv zeta. destruct (resolve (merge_patch old patch) (rc_defaults c)) as [cfg| |] eqn:Er;
    (destruct (validate_patch patch) as [[]| |]; [|done..]); [|done..]. cbn. by intros [= <-].
Qed.

Section Ops.
Context (r : registry_state) (Hr : reg_ok r).

(** The directory of a registered topic. *)
Lemma registered_dir name t :
  rg_topics r !! name = Some t ->
  validate_topic_name name = Ok tt /\ is_leftover name = false /\ exists td, rg_root r !! name = Some td /\ td_synced td = true /\
    td_meta td = Some (meta_json (mkMeta (len (t_partitions (ot_topic t))) (ot_persisted t))).
Proof.
  intros Ht. pose proof (ro_root _ Hr name) as He. unfold reg_spec in He. rewrite lookup_fmap, Ht in He. cbn in He.
  destruct He as (Hl & Hv & _ & td & cfg & Htd & Hs & Hm & _). split_and!; [done|done|]. by exists td.
Qed.

(** The number of operations after which the new map is there. *)
Definition commit_point (op : topic_op) : nat :=
  match op with OpCreate _ n _ _ => Z.to_nat n + 3 | OpUpdate _ _ | OpDelete _ _ => 1 end.

Lemma op_before op k : (k < commit_point op)%nat -> root_holds (dir_run (rg_root r) (take k (op_dir r op))) (reg_spec r).
Proof.
  pose proof (ro_root _ Hr) as Hh. destruct op as [name n patch suffix|name patch|name suffix]; cbn [commit_point op_dir]; intros Hk.
  - eapply holds_leftover; [done|]. intros other Hl. apply create_before.
    + rewrite length_fmap, length_seq. lia.
    + intros ->. by rewrite leftover_staging in Hl.
  - by replace k with 0%nat by lia.
  - by replace k with 0%nat by lia.
Qed.

Lemma op_after op k :
  op_fresh r op -> op_accepted r op -> (commit_point op <= k)%nat ->
  root_holds (dir_run (rg_root r) (take k (op_dir r op))) (op_effect (reg_spec r) op).
Proof.
  pose proof (ro_root _ Hr) as Hh. intros Hf Ha. destruct op as [name n patch suffix|name patch|name suffix];
    cbn [commit_point op_dir op_effect]; intros Hk.
  - destruct Ha as (Hck & Hn & Ht & Hd). cbn in Hf. pose proof (create_valid _ _ _ Hck) as Hv.
    rewrite create_after by (rewrite length_fmap, length_seq; lia).
    destruct (create_final (rg_root r) name suffix n (mkMeta n (persisted_of patch)) Hv Hd Hf) as (td & H1 & H2 & H3 & _ & H4).
    destruct (persisted_resolves patch) as [cfg Hcfg].
    eapply holds_insert; [done|done|done|done|exact H1|done|done|]. intros other Hne Hl. apply H4; [done|].
    intros ->. by rewrite leftover_staging in Hl.
  - destruct Ha as (t & res & Ht & Hu). rewrite Ht. destruct k as [|k]; [lia|]. cbn [take]. rewrite take_nil.
    destruct (registered_dir name t Ht) as (Hv & Hl & td & Htd & Hs & Hm). apply update_config_eq in Hu as [E1 E2].
    assert (alter (fun np => (np.1, merge_patch np.2 patch)) name (reg_spec r) =
      <[name := (len (t_partitions (ot_topic t)), merge_patch (ot_persisted t) patch)]> (reg_spec r)) as ->.
    { apply map_eq. intros other. destruct (decide (other = name)) as [->|Hne].
      - unfold reg_spec. by rewrite lookup_alter_eq, lookup_insert_eq, lookup_fmap, Ht.
      - by rewrite lookup_alter_ne, lookup_insert_ne. }
    unfold dir_run. cbn [fold_left dir_apply]. rewrite Htd. cbn [default]. rewrite E1 in E2.
    eapply holds_insert; [done|done|len_lia|done|apply lookup_insert_eq|exact Hs|done|].
    intros other Hne _. by rewrite lookup_insert_ne.
  - destruct Ha as [t Ht]. cbn in Hf. destruct (registered_dir name t Ht) as (Hv & Hl & td & Htd & _).
    pose proof (valid_not_doomed name name suffix Hv) as Hnd. destruct k as [|k]; [lia|].
    assert (forall other, other <> doomed_name name suffix -> dir_run (rg_root r) (take (S k) (delete_ops name suffix)) !! other =
      delete name (rg_root r) !! other) as Hgo.
    { intros other Hne. unfold delete_ops. cbn [take]. unfold dir_run. cbn [fold_left dir_apply]. rewrite Htd, Hf.
      destruct k as [|[|k]]; cbn; rewrite ?take_nil; cbn; rewrite ?lookup_delete_ne, lookup_insert_ne by done; done. }
    eapply holds_delete; [done|rewrite Hgo by done; apply lookup_delete_eq|]. intros other Hne Ho.
    rewrite Hgo, lookup_delete_ne; [done|done|]. intros ->. by rewrite leftover_doomed in Ho.
Qed.

Lemma op_removes op k name : op_dir r op !! k = Some (RemoveDir name) -> is_leftover name = true.
Proof.
  intros Hk. apply list_elem_of_lookup_2 in Hk. destruct op as [nm n patch suffix|nm patch|nm suffix]; cbn [op_dir] in Hk.
  - unfold create_ops in Hk. apply elem_of_app in Hk as [Hk|Hk].
    + by apply list_elem_of_fmap in Hk as (? & ? & _).
    + rewrite !elem_of_cons, elem_of_nil in Hk. destruct Hk as [Hk|[Hk|[Hk|[Hk|[]]]]]; discriminate Hk.
  - destruct (rg_topics r !! nm); [apply list_elem_of_singleton in Hk|apply elem_of_nil in Hk]; done.
  - unfold delete_ops in Hk. rewrite !elem_of_cons, elem_of_nil in Hk.
    destruct Hk as [?|[?|[[= ->]|[]]]]; [done|done|apply leftover_doomed].
Qed.

(** An accepted operation runs to its end. *)
Lemma run_create name n patch suffix :
  op_fresh r (OpCreate name n patch suffix) -> op_accepted r (OpCreate name n patch suffix) ->
  exists cfg, resolve (persisted_of patch) (rc_defaults c) = Ok cfg /\
  op_run r (OpCreate name n patch suffix) =
  (mkRegistry (<[name := mkOpenTopic (mkTopic (replicate (Z.to_nat n)
      (partition_open empty_disk (tc_segment_bytes cfg) (rc_flush_every_records c))) 0 0 0 0 0) cfg (persisted_of patch)]> (rg_topics r))
     (dir_run (rg_root r) (op_dir r (OpCreate name n patch suffix))), Ok tt).
Proof.
  intros Hf (Hck & Hn & Ht & Hd). destruct (persisted_resolves patch) as [cfg Hcfg]. exists cfg. split; [done|].
  cbn [op_run]. unfold create_topic, topic_create. rewrite Ht, Hck, Hd.
  rewrite !bool_decide_false by (intros [? ?]; done). change (match patch with Some p => from_patch p | None => _ end) with (persisted_of patch).
  rewrite Hcfg. cbn [ce_suffix ce_build_fails ce_open_fails op_dir]. cbv zeta.
  destruct (create_final (rg_root r) name suffix n (mkMeta n (persisted_of patch)) (create_valid _ _ _ Hck) Hd Hf)
    as (td & H1 & _ & _ & He & _). rewrite H1. cbn [default mbind outcome_bind]. do 4 f_equal. unfold make_topic. do 2 f_equal. unfold open_parts.
  rewrite (const_fmap _ _ (partition_open empty_disk (tc_segment_bytes cfg) (rc_flush_every_records c))); [by rewrite length_seq|].
  intros i x _. cbn. by rewrite He.
Qed.

Lemma run_update name patch t res :
  rg_topics r !! name = Some t -> update_config (ot_persisted t) patch (rc_defaults c) = Ok res ->
  op_run r (OpUpdate name patch) =
  (mkRegistry (<[name := reconfigured t res.1 res.2]> (rg_topics r)) (dir_run (rg_root r) (op_dir r (OpUpdate name patch))), Ok tt).
Proof.
  intros Ht Hu. destruct res as [persisted resolved]. pose proof (update_config_eq _ _ _ Hu) as [E1 _]. cbn in E1. subst persisted.
  cbn [op_run op_dir]. unfold update_topic_config. by rewrite Ht, Hu.
Qed.

Lemma run_delete name suffix t :
  rg_topics r !! name = Some t ->
  op_run r (OpDelete name suffix) =
  (mkRegistry (delete name (rg_topics r)) (dir_run (rg_root r) (op_dir r (OpDelete name suffix))), Ok tt).
Proof. intros Ht. cbn [op_run op_dir]. unfold delete_topic. by rewrite Ht. Qed.

(** The topics after an accepted operation. *)
Lemma run_accepted op :
  op_fresh r op -> op_accepted r op ->
  exists topics, op_run r op = (mkRegistry topics (dir_run (rg_root r) (op_dir r op)), Ok tt) /\
    topic_facts <$> topics = op_effect (reg_spec r) op /\
    forall name t, topics !! name = Some t -> resolve (ot_persisted t) (rc_defaults c) = Ok (ot_config t).
Proof.
  intros Hf Ha. pose proof (ro_config _ Hr) as Hcfg. destruct op as [name n patch suffix|name patch|name suffix].
  - destruct (run_create name n patch suffix Hf Ha) as (cfg & Hres & Hrun). rewrite Hrun. eexists. split; [reflexivity|].
    split.
    + rewrite fmap_insert. cbn [op_effect]. unfold topic_facts at 1. cbn. do 2 f_equal. unfold len. rewrite length_replicate.
      destruct Ha as (_ & Hn & _). f_equal. lia.
    + intros other t [[<- <-]|[_ Ht]]%lookup_insert_Some; [done|by eapply Hcfg].
  - destruct Ha as (t & res & Ht & Hu). rewrite (run_update name patch t res Ht Hu). eexists. split; [reflexivity|].
    apply update_config_eq in Hu as [E1 E2]. split.
    + apply map_eq. intros other. rewrite fmap_insert. cbn [op_effect]. unfold reg_spec.
      destruct (decide (other = name)) as [->|Hne].
      * rewrite lookup_insert_eq, lookup_alter_eq, lookup_fmap, Ht. unfold topic_facts. cbn. rewrite E1. unfold len.
        by rewrite length_fmap.
      * by rewrite lookup_insert_ne, lookup_alter_ne.
    + intros other t' [[<- <-]|[_ Ht']]%lookup_insert_Some; [done|by eapply Hcfg].
  - destruct Ha as [t Ht]. rewrite (run_delete name suffix t Ht). eexists. split; [reflexivity|]. split.
    + cbn [op_effect]. by rewrite fmap_delete.
    + intros other t' [_ Ht']%lookup_delete_Some. by eapply Hcfg.
Qed.

Lemma op_complete op :
  op_fresh r op -> op_accepted r op -> root_holds (dir_run (rg_root r) (op_dir r op)) (op_effect (reg_spec r) op).
Proof.
  intros Hf Ha. pose proof (op_after op (commit_point op + length (op_dir r op)) Hf Ha ltac:(lia)) as Hh.
  by rewrite take_ge in Hh by lia.
Qed.

(** A refused operation. *)
Lemma run_refused op :
  match op with OpCreate _ n _ _ => 0 <= n | _ => True end ->
  op_accepted r op \/ (~ op_accepted r op /\ exists o, op_run r op = (r, o) /\ o <> Ok tt).
Proof.
  destruct op as [name n patch suffix|name patch|name suffix]; intros Hn; cbn [op_accepted op_run].
  - unfold create_topic, topic_create. case_bool_decide as Ht.
    { right. split; [intros (_ & _ & ? & _); by destruct Ht; congruence|]. by eexists. }
    destruct (create_checks name n patch) as [[]|e|] eqn:Eck.
    + case_bool_decide as Hd.
      * right. split; [intros (_ & _ & _ & ?); by destruct Hd; congruence|]. eexists. split; [by destruct r|done].
      * left. apply eq_None_not_Some in Ht, Hd. done.
    + right. split; [by intros (? & _)|]. eexists. split; [by destruct r|done].
    + right. split; [by intros (? & _)|]. eexists. split; [by destruct r|done].
  - unfold update_topic_config. destruct (rg_topics r !! name) as [t|] eqn:Ht.
    + destruct (update_config (ot_persisted t) patch (rc_defaults c)) as [res|e|] eqn:Eu; [left; by eexists _, _|..];
        right; (split; [intros (t' & res & [= <-] & ?); congruence|by eexists]).
    + right. split; [by intros (t' & res & ? & _)|by eexists].
  - unfold delete_topic. destruct (rg_topics r !! name) as [t|] eqn:Ht; [left; by eexists|].
    right. split; [by intros [? ?]|by eexists].
Qed.
End Ops.
End Spec.

(** ** Properties *)



Lemma contains_app s a t : str_contains s t = true -> str_contains s (a +:+ t) = true.
Proof. intros Hc. induction a as [|ch a IH]; [done|]. apply orb_true_iff. right. exact IH. Qed.

Lemma exists_status name : ae_status (app_error_of (exists_error name)) = 409.
Proof.
  unfold app_error_of, exists_error. assert (str_contains "already exists" ("topic '" +:+ name +:+ "' already exists") = true) as ->; [|done].
  by do 2 apply contains_app.
Qed.

(** Every refusal of the checks reads like one. *)
Lemma refusal_status name n patch e : create_checks name n patch = Err e -> ae_status (app_error_of e) = 400.
Proof.
  unfold create_checks. destruct (n =? 0); [intros [= <-]; reflexivity|].
  destruct (MAX_PARTITIONS <? n); [intros [= <-]; reflexivity|]. unfold validate_topic_name.
  destruct (_ || _); [intros [= <-]; reflexivity|]. destruct (negb _); [intros [= <-]; reflexivity|].
  destruct (String.eqb name "." || String.eqb name "..") eqn:En.
  - intros [= <-]. apply orb_true_iff in En as [->%String.eqb_eq| ->%String.eqb_eq]; reflexivity.
  - destruct patch as [p|]; [|done]. cbn. unfold validate_patch. destruct (tp_segment_bytes p); [|done].
    destruct (negb _); [intros [= <-]; reflexivity|done].
Qed.

Lemma checks_no_panic name n patch : create_checks name n patch <> Panic.
Proof.
  unfold create_checks, validate_topic_name, validate_patch. repeat case_match; cbn; try done; repeat case_match; done.
Qed.

(** The statuses of the handlers.  An administrator's request to create a topic is
    answered 409 when the topic exists, 400 when it is not acceptable, and with the
    number of partitions when it is created; a key without the administrator's grant
    gets 403; a failure of the file system is answered 500 and its message hidden,
    unless the message reads like a refusal. *)
Theorem create_statuses `{!Crc32, !MetaText} c r key name n patch env :
  let (r', o) := http_create_topic r key name n c patch env in
  match o with
  | Ok k => is_admin key = true /\ create_checks name n patch = Ok tt /\ is_Some (rg_topics r' !! name) /\ (0 <= n -> k = n)
  | Err e =>
    (is_admin key = false /\ ae_status e = 403 /\ r' = r) \/
    (is_admin key = true /\ rg_topics r' = rg_topics r /\
      ((ae_status e = 409 /\ (is_Some (rg_topics r !! name) \/ is_Some (rg_root r !! name)) /\ r' = r) \/
       (ae_status e = 400 /\ create_checks name n patch <> Ok tt /\ r' = r) \/
       e = app_error_of (ce_error env)))
  | Panic => False
  end.
Proof.
  unfold http_create_topic. destruct (is_admin key); [|by left]. unfold create_topic. case_bool_decide as Ht.
  { cbn. right. split_and!; [done..|]. left. by split_and!; [apply exists_status|left|]. }
  unfold topic_create. destruct (create_checks name n patch) as [[]|e|] eqn:Eck.
  - case_bool_decide as Hd.
    { cbn. right. split_and!; [done..|]. left. split_and!; [apply exists_status|by right|by destruct r]. }
    destruct (persisted_resolves c patch) as [cfg Hcfg]. change (match patch with Some p => from_patch p | None => _ end) with (persisted_of patch).
    rewrite Hcfg. destruct (ce_build_fails env) as [k|]; [cbn; right; by split_and!; [|..|right; right]|].
    destruct (ce_open_fails env); [cbn; right; by split_and!; [|..|right; right]|]. cbn. split_and!; [done..| |].
    + rewrite lookup_insert_eq. by eexists.
    + intros Hn. by apply open_parts_len.
  - cbn. right. split_and!; [done..|]. right; left. split_and!; [by eapply refusal_status|done|by destruct r].
  - by apply checks_no_panic in Eck.
Qed.

(** ** Witnesses and limits *)

#[local] Existing Instance crc32_ieee_class.

(** A format for topic.json: the fields as one number. *)
Definition config_fields (p : persisted_config) : option Z * option Z * option string * option Z * option Z :=
  (pc_retention_ms p, pc_retention_bytes p, pc_cleanup_policy p, pc_segment_bytes p, pc_tombstone_retention_ms p).

Definition number_meta : MetaText.
Proof.
  refine {| meta_json m := pos_bytes (encode (tm_partitions m, config_fields (tm_config m)));
            parse_meta l := (fun x => match x with (n, (a, b, p, s, t)) => mkMeta n (mkPersisted a b p s t) end) <$>
              decode (A := Z * (option Z * option Z * option string * option Z * option Z)) (bytes_pos l) |}.
  intros [n [a b p s t]]. by rewrite bytes_pos_bytes, decode_encode.
Defined.
#[local] Existing Instance number_meta.

Definition demo_config : reg_config := mkRegConfig (mkDefaults None None Topic.Delete 4096 60) 1.
Definition no_topics : registry_state := mkRegistry ∅ ∅.
Definition make_events : topic_op := OpCreate "events" 2 None "0000002a".

Lemma no_topics_ok : reg_ok demo_config no_topics.
Proof. split; [|intros name t Ht; cbn in Ht; by rewrite lookup_empty in Ht]. intros name. cbn. by right; right; left. Qed.

Lemma make_events_accepted : op_accepted demo_config no_topics make_events.
Proof. split_and!; [reflexivity|lia|reflexivity|reflexivity]. Qed.



(** A deletion whose rename fails is reported as done, and the topic is back after the
    next start. *)
Definition with_events : registry_state := fst (op_run demo_config no_topics make_events).

Example failed_delete_comes_back :
  let (r, o) := delete_topic with_events "events" (mkDeleteEnv "0000002b" false true) in
  (exists t, o = Ok t) /\ rg_topics r !! "events" = None /\
  exists r', registry_open (rg_root r) demo_config = Ok r' /\ is_Some (rg_topics r' !! "events").
Proof. vm_compute. split_and!; [by eexists|done|]. eexists. split; [reflexivity|]. by eexists. Qed.

(** A creation that fails when the partitions are opened leaves the topic's directory:
    trying again is refused, and the next start has the topic. *)
Example failed_create_leaves_topic :
  let env := mkCreateEnv "0000002a" None true true "open failed" in
  let (r, o) := create_topic no_topics "events" 2 demo_config None env in
  o = Err "open failed"%string /\
  snd (create_topic r "events" 2 demo_config None (mkCreateEnv "0000002b" None true false "")) = Err (exists_error "events") /\
  exists r', registry_open (rg_root r) demo_config = Ok r' /\ is_Some (rg_topics r' !! "events").
Proof. vm_compute. split_and!; [done|done|]. eexists. split; [reflexivity|]. by eexists. Qed.
