(* ===== verification/Delivery.v ===== *)
(** * Retried requests and what consumers receive

    Over [DataplaneSpec]: a producer that sends a request again has it answered
    from what was recorded the first time, and a record that was acknowledged is
    what a consumer reads at its offset. *)

From S2P Require Export DataplaneSpec.

#[local] Open Scope Z_scope.

(** ** Sequences of the written records *)

(** The two forms of the decision agree. *)
Lemma decide_agrees st topic tent reqs ds :
  decide_records st topic tent reqs = Ok ds <-> decide_request st topic tent reqs = Some ds.
Proof.
  revert tent ds. induction reqs as [|[p s] reqs IH]; intros tent ds; cbn [decide_records decide_request].
  { split; by intros [= <-]. }
  assert (forall tent' d, cons d <$> decide_records st topic tent' reqs = Ok ds <->
                          cons d <$> decide_request st topic tent' reqs = Some ds) as Hc.
  { intros tent' d. specialize (IH tent').
    destruct (decide_records st topic tent' reqs) as [l|x|], (decide_request st topic tent' reqs) as [l'|]; cbn;
      try (split; by intros [= ?]).
    - assert (Some l' = Some l) as [= ->] by by apply IH. split; by intros [= <-].
    - exfalso. assert (None = Some l) by (by apply IH). done.
    - exfalso. assert (Err x = Ok l') by (by apply IH). done.
    - exfalso. assert (Panic = Ok l') by (by apply IH). done. }
  destruct (tent !! p) as [prev|]; [destruct (s =? prev + 1); [apply Hc|done]|].
  destruct (check st topic p s); [apply Hc|apply Hc|done|done].
Qed.

(** The sequence of the record at an index. *)
Definition seq_at (rs : list incoming_record) (i : nat) : Z := default 0 (rs !! i ≫= ir_sequence).

Lemma sequenced_block rs p (l : list (nat * append_record)) offs :
  Forall (fun r => is_Some (ir_sequence r)) rs -> Forall (fun w => w.1 < length rs)%nat l ->
  sequenced (ir_sequence <$> rs) (zip_with (fun w off => (p, w.1, off)) l offs) =
    zip_with (fun w off => (p, seq_at rs w.1, off)) l offs.
Proof.
  intros Hs Hl. revert offs. induction Hl as [|[i a] l Hi _ IH]; intros [|o offs]; [done..|].
  cbn [zip_with]. unfold sequenced. cbn [omap list_omap]. cbn in Hi. rewrite list_lookup_fmap.
  destruct (lookup_lt_is_Some_2 rs i Hi) as [r Hr]. cbn [fst]. rewrite Hr. cbn [fmap option_fmap option_map].
  rewrite Forall_forall in Hs. destruct (Hs r (list_elem_of_lookup_2 _ _ _ Hr)) as [s Es]. rewrite Es.
  unfold seq_at. cbn [fst]. rewrite Hr. cbn. rewrite Es. cbn. f_equal. apply IH.
Qed.

Lemma sequenced_app seqs ws ws' : sequenced seqs (ws ++ ws') = sequenced seqs ws ++ sequenced seqs ws'.
Proof. apply omap_app. Qed.

Lemma of_partition_block p q sq (l : list (nat * append_record)) offs :
  of_partition p (zip_with (fun w off => (q, sq w.1, off)) l offs) =
    if q =? p then zip_with (fun w off => (sq w.1, off)) l offs else [].
Proof.
  revert offs. induction l as [|w l IH]; intros [|o offs]; cbn [zip_with]; try (by destruct (q =? p)).
  rewrite of_partition_cons, IH. by destruct (q =? p).
Qed.

(** Written partition by partition, each partition's records in request order. *)
Lemma of_partition_sequenced rs ws (ends : Z -> Z) p :
  Forall (fun r => is_Some (ir_sequence r)) rs ->
  (forall q, Forall (fun w => w.1 < length rs)%nat (writes_of q ws)) ->
  of_partition p (sequenced (ir_sequence <$> rs) (written_records (per_partition ws)
    ((fun g => seqZ (ends g.1) (len g.2)) <$> per_partition ws))) =
  zip_with (fun w off => (seq_at rs w.1, off)) (writes_of p ws) (seqZ (ends p) (len (writes_of p ws))).
Proof.
  intros Hs Hw. unfold written_records. rewrite zip_with_fmap_r, zip_with_diag. unfold per_partition.
  pose proof (sort_dedup_nodup ws.*1) as Hnd.
  assert (p ∈ sort_dedup ws.*1 <-> p ∈ ws.*1) as Hp by apply sort_dedup_elem.
  transitivity (if bool_decide (p ∈ sort_dedup ws.*1) then
    zip_with (fun w off => (seq_at rs w.1, off)) (writes_of p ws) (seqZ (ends p) (len (writes_of p ws))) else []).
  - clear Hp. induction (sort_dedup ws.*1) as [|q qs IH]; [done|]. apply NoDup_cons in Hnd as [Hq Hnd].
    rewrite !fmap_cons. change (mjoin (?x :: ?l)) with (x ++ mjoin l). cbn [fst snd]. fold (writes_of q ws).
    rewrite sequenced_app, sequenced_block by (done || apply Hw). rewrite of_partition_app, of_partition_block.
    rewrite IH by done. destruct (Z.eqb_spec q p) as [->|Hne].
    + rewrite (bool_decide_false (p ∈ qs)), bool_decide_true by (done || by left). apply app_nil_r.
    + cbn [app]. rewrite (bool_decide_ext (p ∈ q :: qs) (p ∈ qs)); [done|]. rewrite elem_of_cons. split; [intros [->|?]; done|by right].
  - case_bool_decide as Hin; [done|]. rewrite Hp in Hin. apply writes_of_nil in Hin. by rewrite Hin.
Qed.

Lemma to_write_index k ds ps rs p : Forall (fun w => k <= w.1 < k + length rs)%nat (writes_of p (to_write k ds ps rs)).
Proof.
  revert k ps rs. induction ds as [|[o|] ds IH]; intros k [|q ps] [|r rs]; cbn [to_write]; try constructor.
  - eapply Forall_impl; [apply IH|]. cbn. lia.
  - rewrite writes_of_cons. destruct (q =? p); [constructor; [cbn; lia|]|];
      (eapply Forall_impl; [apply IH|]; cbn; lia).
Qed.

(** The same, seen from the request and its answers. *)
Lemma of_partition_expected next k ps rs all p :
  length ps = length rs -> (forall i r, rs !! i = Some r -> all !! (k + i)%nat = Some r) ->
  of_partition p (written (zip ps ((fun r => default 0 (ir_sequence r)) <$> rs))
    (pr_offset <$> expected next (replicate (length rs) None) ps)) =
  zip_with (fun w off => (seq_at all w.1, off)) (writes_of p (to_write k (replicate (length rs) None) ps rs))
    (seqZ (next p) (len (writes_of p (to_write k (replicate (length rs) None) ps rs)))).
Proof.
  revert next k ps. induction rs as [|r rs IH]; intros next k [|q ps] Hl Hall; cbn in Hl; try done.
  cbn [length replicate expected to_write fmap list_fmap]. unfold written. cbn [zip zip_with fst snd pr_offset].
  set (next' := fun q0 => if q0 =? q then next q + 1 else next q0).
  change (zip_with (fun (r : Z * Z) o => (fst r, snd r, o)) ?a ?b) with (written a b).
  rewrite of_partition_cons, writes_of_cons.
  assert (next' p = if q =? p then next q + 1 else next p) as Hn by (unfold next'; by rewrite Z.eqb_sym).
  specialize (IH next' (S k) ps ltac:(lia)). rewrite IH, Hn.
  2: { intros i r' Hi. rewrite Nat.add_succ_comm. by apply (Hall (S i)). }
  destruct (Z.eqb_spec q p) as [->|Hne]; [|done]. rewrite len_cons.
  set (w := writes_of p _). pose proof (len_nonneg w). rewrite (seqZ_cons (next p) (1 + len w)) by lia.
  cbn [zip_with fst]. f_equal; [|f_equal; f_equal; lia]. f_equal. unfold seq_at.
  specialize (Hall 0%nat r eq_refl). rewrite Nat.add_0_r in Hall. by rewrite Hall.
Qed.

(** ** The request again *)

Section Retry.
Context {H E : Type} `{PartitionHandle H E} {holds : H -> list record -> Z -> Prop} {clock : E -> Z}
  `{!HandleLaws holds clock}.

(** Every sequence window of the registry is sound. *)
Definition windows_ok (b : broker (H := H)) : Prop := forall pid, map_Forall (fun _ w => window_ok w) (windows b pid).

(** The record does not depend on the round-robin counter. *)
Definition pinned (r : incoming_record) : Prop := is_Some (ir_key r) \/ is_Some (ir_partition r).

Lemma route_pinned n rr rr2 r : pinned r ->
  route n rr2 (ir_key r) (ir_partition r) = ((route n rr (ir_key r) (ir_partition r)).1, rr2).
Proof. unfold route. intros [[k Hk]|[h Hp]]; [rewrite Hk; by destruct (ir_partition r)|by rewrite Hp]. Qed.

Lemma route_all_pinned n rr rr2 rs : Forall pinned rs ->
  route_all n rr2 rs = ((route_all n rr rs).1, rr2).
Proof.
  intros Hp. revert rr. induction Hp as [|r rs Hr _ IH]; intros rr; [done|]. cbn [route_all].
  rewrite (route_pinned n rr rr2 r Hr). destruct (route n rr (ir_key r) (ir_partition r)) as [[p|x|] rr']; cbn [fst]; [|done|done].
  rewrite (IH rr'). by destruct (route_all n rr' rs).
Qed.

Lemma request_size_pass m i rs :
  Forall (fun r => data_bytes (ir_key r) (ir_value r) <= m) rs -> exists n, request_size m i rs = Ok n.
Proof.
  intros Hf. revert i. induction Hf as [|r rs Hr _ IH]; intros i; [by eexists|]. cbn. rewrite (proj2 (Z.ltb_ge _ _)) by done.
  destruct (IH (i + 1)) as [n ->]. by eexists.
Qed.

(** Only the rate limit can refuse a request that passed the checks before. *)
Lemma validate_again k name rs wp (e : produce_env (E := E)) (b : broker (H := H)) :
  len rs <= MAX_RECORDS_PER_REQUEST ->
  Forall (fun r => data_bytes (ir_key r) (ir_value r) <= b_max_record_bytes b) rs ->
  (wp = true -> check_sequences 0 rs = Ok ()) ->
  exists ks, validate k name rs wp e b = (Ok (), set_keys b ks) \/
    exists w, validate k name rs wp e b = (Err (DRateLimited w), set_keys b ks).
Proof.
  intros Hl Hs Hq. remember (validate k name rs wp e b) as r eqn:Hr. revert Hr. unfold validate. rewrite dp_bind_eq. unfold guard_dp. rewrite (proj2 (Z.leb_le _ _) Hl). cbn [mret dp_ret].
  rewrite dp_bind_eq. cbn [gets]. rewrite dp_bind_eq. unfold lift at 1. destruct (request_size_pass _ 0 _ Hs) as [n ->].
  cbn [map_err]. rewrite dp_bind_eq. cbn [gets]. pose proof (check_produce_no_panic (b_keys b) (k_key_id k) n (pe_instant e)) as Hnp.
  destruct (check_produce _ _ _ _) as [o ks]. cbn [fst] in Hnp. rewrite dp_bind_eq. cbn [modify]. rewrite dp_bind_eq.
  unfold lift. destruct o as [[]|x|]; cbn [map_err]; [|intros ->; exists ks; right; by exists x|done].
  destruct wp; [rewrite (Hq eq_refl)|]; intros ->; exists ks; by left.
Qed.

(** A request whose records are all duplicates changes nothing. *)
Lemma write_duplicates k name rs pid (e : produce_env (E := E)) ps offs (b : broker (H := H)) t :
  b_topics b !! name = Some t -> length offs = length rs -> length ps = length rs ->
  rg_state (b_producers b) !! pid <> None ->
  exists b', write_request k name rs (Some pid) e ps (Some <$> offs) b =
    (Ok (zip_with (fun p off => mkProduced p off true) ps offs), b') /\ untouched b b'.
Proof.
  intros Ht Hlo Hlp Hpid.
  assert (to_write 0 (Some <$> offs) ps rs = []) as Hw.
  { clear. generalize 0%nat. revert ps rs. induction offs as [|o offs IH]; intros [|p ps] [|r rs] n; try done. apply IH. }
  assert (mapM id (fill_results (duplicates (Some <$> offs) ps) []) = Some (zip_with (fun p off => mkProduced p off true) ps offs)) as Hm.
  { cbn. rewrite <- mapM_id_some. f_equal. unfold duplicates. clear. revert ps. induction offs as [|o offs IH]; intros [|p ps]; try done.
    cbn. f_equal. apply IH. }
  unfold write_request. rewrite Hw. change (per_partition []) with (@nil (Z * list (nat * append_record))). rewrite dp_bind_eq.
  unfold the_topic. rewrite Ht. cbn [ok_or]. unfold join_writes. rewrite take_nil. cbn [write_all all_ok].
  rewrite dp_bind_eq. unfold modify_topic at 1. cbn [modify]. rewrite Ht. rewrite dp_bind_eq. cbn [lift map_err].
  change (written_records [] []) with (@nil (Z * nat * Z)). cbn [sequenced omap list_omap]. rewrite dp_bind_eq.
  unfold remember. rewrite dp_bind_eq. cbn [modify set_topic b_producers].
  destruct (rg_state (b_producers b) !! pid) as [st|] eqn:Est; [|done]. rewrite dp_bind_eq.
  rewrite bool_decide_true by done. rewrite orb_true_r. cbn [guard_dp mret dp_ret modify fmap list_fmap journal fold_left].
  rewrite dp_bind_eq. unfold modify_topic. cbn [modify set_producers set_topic b_topics b_producers]. rewrite lookup_insert_eq.
  rewrite Hm. cbn [mret dp_ret]. eexists. split; [reflexivity|]. split_and!.
  - intros n. cbn. rewrite insert_insert_eq. destruct (decide (n = name)) as [->|Hne].
    + by rewrite lookup_insert_eq, Ht.
    + by rewrite lookup_insert_ne.
  - intros q. unfold windows. cbn. destruct (decide (q = pid)) as [->|Hne].
    + by rewrite lookup_insert_eq, Est.
    + by rewrite lookup_insert_ne.
  - done.
Qed.

Lemma record_fold_owner st topic now ws :
  pd_owner (fold_left (fun st w => match w with (p, seq, off) => record_seq st topic p seq off now end) ws st) = pd_owner st.
Proof. revert st. induction ws as [|[[p s] o] ws IH]; intros st; [done|]. cbn [fold_left]. by rewrite IH. Qed.

(** What a written request leaves in the registry. *)
Lemma write_request_registry k name rs pid (e : produce_env (E := E)) ps ds (b : broker (H := H)) t logs st out b' :
  b_topics b !! name = Some t -> logs_hold (holds := holds) (t_partitions t) logs ->
  Forall (group_fits (clock := clock) e logs) (per_partition (to_write 0 ds ps rs)) ->
  rg_state (b_producers b) !! pid = Some st ->
  write_request k name rs (Some pid) e ps ds b = (Ok out, b') ->
  b_max_record_bytes b' = b_max_record_bytes b /\
  exists st', rg_state (b_producers b') = <[pid := st']> (rg_state (b_producers b)) /\
    st' = fold_left (fun st w => match w with (p, seq, off) => record_seq st name p seq off (pe_now e) end)
            (sequenced (ir_sequence <$> rs) (written_records (per_partition (to_write 0 ds ps rs))
              ((fun g => seqZ (end_of logs g.1) (len g.2)) <$> per_partition (to_write 0 ds ps rs)))) st.
Proof.
  intros Ht Hh Hfit Hst. set (ws := to_write 0 ds ps rs) in *. unfold write_request. fold ws. rewrite dp_bind_eq.
  unfold the_topic. rewrite Ht. cbn [ok_or].
  pose proof (join_writes_spec e (t_partitions t) logs ws Hh Hfit) as Hj.
  destruct (join_writes e (t_partitions t) (per_partition ws)) as [o hs]. destruct Hj as (logs' & _ & _ & Ho).
  rewrite dp_bind_eq. unfold modify_topic at 1. cbn [modify]. rewrite Ht. rewrite dp_bind_eq. unfold lift.
  destruct o as [offs|x|]; cbn [map_err]; [|done|done]. destruct Ho as [-> _].
  set (sq := sequenced _ _). rewrite dp_bind_eq. unfold remember. rewrite dp_bind_eq. cbn [modify set_topic b_producers].
  rewrite Hst. rewrite dp_bind_eq. unfold guard_dp. destruct (pe_journal_ok e || _); cbn [mret dp_ret throw]; [|done].
  cbn [modify set_producers b_producers]. rewrite dp_bind_eq. unfold modify_topic. cbn [modify set_producers set_topic b_topics].
  rewrite lookup_insert_eq. destruct (mapM id _) as [l|]; cbn [mret dp_ret panic]; [|done]. intros [= <- <-]. split; [done|].
  eexists. split; [|reflexivity]. cbn. by destruct (_ <$> sq).
Qed.

Lemma admit_owner r pid owner now r' st :
  admit_producer r pid owner now = Ok (r', st) -> valid_name pid = true /\ pd_owner st = owner.
Proof.
  unfold admit_producer, claim_slot, mbind, outcome_bind. destruct (valid_name pid); cbn [negb]; [|done].
  destruct (rg_state r !! pid) as [st0|].
  - repeat case_bool_decide; intros [= <- <-]; done.
  - destruct (_ <=? _)%nat; [done|]. destruct (_ <=? _); [done|]. repeat case_bool_decide; intros [= <- <-]; done.
Qed.

Lemma admit_again r pid owner now st :
  valid_name pid = true -> rg_state r !! pid = Some st -> pd_owner st = owner ->
  exists r' st', admit_producer r pid owner now = Ok (r', st') /\ pd_partitions st' = pd_partitions st.
Proof.
  intros Hv Hst Ho. unfold admit_producer, claim_slot, mbind, outcome_bind. rewrite Hv, Hst. cbn [negb].
  repeat case_bool_decide; cbn in *; try congruence; by eexists _, _.
Qed.

Lemma expected_all_new next ds ps :
  length ds = length ps -> Forall (fun o => pr_duplicate o = false) (expected next ds ps) ->
  ds = replicate (length ds) None.
Proof.
  revert next ps. induction ds as [|[o|] ds IH]; intros next [|p ps] Hl HF; try done; cbn in *.
  - apply Forall_cons in HF as [HF _]. done.
  - apply Forall_cons in HF as [_ HF]. f_equal. eapply IH; [by injection Hl|done].
Qed.

Lemma check_sequences_ok i rs :
  check_sequences i rs = Ok () -> Forall (fun r => exists s, ir_sequence r = Some s /\ 0 <= s) rs.
Proof.
  revert i. induction rs as [|r rs IH]; intros i; cbn; [constructor|].
  destruct (ir_sequence r) as [s|] eqn:Es; [|done]. case_if; [done|]. intros Hc. constructor; [exists s; split; [done|lia]|by eapply IH].
Qed.

(** The run of a request that passes every check. *)
Lemma produce_run k name rs pid (e : produce_env (E := E)) (b : broker (H := H)) t ks ps rr r' st ds :
  can k ActWrite name = true -> b_topics b !! name = Some t -> rs <> [] ->
  validate k name rs true e b = (Ok (), set_keys b ks) ->
  route_all (len (t_partitions t)) (t_rr_counter t) rs = (Ok ps, rr) ->
  admit_producer (b_producers b) pid (k_key_id k) (pe_now e) = Ok (r', st) ->
  decide_records st name ∅ (zip ps ((fun r => default 0 (ir_sequence r)) <$> rs)) = Ok ds ->
  produce k name rs (Some pid) e b =
    write_request k name rs (Some pid) e ps ds (set_producers (set_topic (set_keys b ks) name (set_rr t rr)) r').
Proof.
  intros Hc Ht Hrs Hv Hr Ha Hd. unfold produce. rewrite dp_bind_eq, Hc. cbn [guard_dp mret dp_ret]. rewrite dp_bind_eq.
  unfold the_topic. rewrite Ht. cbn [ok_or]. rewrite bool_decide_false by done. rewrite dp_bind_eq.
  rewrite (bool_decide_true (is_Some (Some pid))) by by eexists. rewrite Hv, Hr, dp_bind_eq. unfold modify_topic.
  cbn [modify set_keys b_topics]. rewrite Ht, dp_bind_eq. unfold lift at 1. cbn [map_err]. rewrite dp_bind_eq. unfold admit_and_decide.
  rewrite dp_bind_eq. cbn [gets]. rewrite dp_bind_eq. unfold lift at 1. cbn [set_topic set_keys b_producers]. rewrite Ha. cbn [map_err].
  rewrite dp_bind_eq. cbn [modify]. unfold lift. by rewrite Hd.
Qed.

Lemma produce_nil k name pid (e e' : produce_env (E := E)) (b : broker (H := H)) :
  produce k name [] pid e' b = produce k name [] pid e b.
Proof. done. Qed.

(** The answers of a request that was all new are what its retry is decided to. *)
Lemma recorded_again st st' name now rs ps ends :
  producer_windows_ok st -> length ps = length rs -> check_sequences 0 rs = Ok () ->
  Forall (fun r => forall s, ir_sequence r = Some s -> s < I64_MAX) rs ->
  let ds := replicate (length rs) None in
  let ws := to_write 0 ds ps rs in
  let reqs := zip ps ((fun r => default 0 (ir_sequence r)) <$> rs) in
  decide_records st name ∅ reqs = Ok ds ->
  (forall p, length (mine p rs (expected ends ds ps)) <= WINDOW)%nat ->
  pd_partitions st' = pd_partitions (fold_left (fun st w => match w with (p, seq, off) => record_seq st name p seq off now end)
    (sequenced (ir_sequence <$> rs) (written_records (per_partition ws) ((fun g => seqZ (ends g.1) (len g.2)) <$> per_partition ws))) st) ->
  decide_records st' name ∅ reqs = Ok (Some <$> (pr_offset <$> expected ends ds ps)).
Proof.
  intros Hok Hlp Hseq Hmax ds ws reqs Hdec Hsmall Hst'. apply check_sequences_ok in Hseq.
  assert (length reqs = length rs) as Hlr by (unfold reqs; rewrite length_zip_with, length_fmap; lia).
  assert (length ds = length rs) as Hld by apply length_replicate.
  assert (forall p, of_partition p (written reqs (pr_offset <$> expected ends ds ps)) =
    zip_with (fun w off => (seq_at rs w.1, off)) (writes_of p ws) (seqZ (ends p) (len (writes_of p ws)))) as Hof.
  { intros p. by apply of_partition_expected. }
  apply decide_agrees. apply (recorded_is_duplicate st).
  - done.
  - rewrite length_fmap, expected_length by lia. lia.
  - rewrite Hlr. by apply decide_agrees.
  - intros p s Hin. unfold reqs in Hin. apply elem_of_zip_r, list_elem_of_fmap in Hin as (r & -> & Hr).
    rewrite Forall_forall in Hseq, Hmax. destruct (Hseq r Hr) as (s & Es & Hs). rewrite Es. cbn. split; [done|]. by apply (Hmax r Hr).
  - intros p. rewrite Hof, length_zip_with, length_seqZ. unfold len. rewrite Nat2Z.id, Nat.min_id.
    specialize (Hsmall p). destruct (mine_expected ends 0 ds ps rs p) as [_ Hm]; [lia|done|].
    apply (f_equal length) in Hm. rewrite !length_fmap in Hm. fold ws in Hm. lia.
  - intros p. rewrite Hst', record_fold_lookup, Hof, of_partition_sequenced; [done| |].
    + eapply Forall_impl; [exact Hseq|]. intros r (s & -> & _). by eexists.
    + intros q. eapply Forall_impl; [apply to_write_index|]. cbn. lia.
Qed.

Lemma produce_limited k name rs pid (e : produce_env (E := E)) (b : broker (H := H)) t w b' :
  can k ActWrite name = true -> b_topics b !! name = Some t -> rs <> [] ->
  validate k name rs true e b = (Err (DRateLimited w), b') ->
  produce k name rs (Some pid) e b = (Err (DRateLimited w), b').
Proof.
  intros Hc Ht Hrs Hv. unfold produce. rewrite dp_bind_eq, Hc. cbn [guard_dp mret dp_ret]. rewrite dp_bind_eq.
  unfold the_topic. rewrite Ht. cbn [ok_or]. rewrite bool_decide_false by done. rewrite dp_bind_eq.
  rewrite (bool_decide_true (is_Some (Some pid))) by by eexists. by rewrite Hv.
Qed.

(** What is known after a request was accepted: how it was routed and decided, and
    what the registry holds. *)
Record accepted (k : api_key) (name : string) (rs : list incoming_record) (pid : string) (b : broker (H := H))
    (t : topic (H := H)) (logs : list (list record * Z)) (out : list produced) (b1 : broker (H := H))
    (ps : list Z) (ds : list (option Z)) (st st' : producer_state) (t1 : topic (H := H)) (now : Z) : Prop := {
  ac_can : can k ActWrite name = true;
  ac_len : len rs <= MAX_RECORDS_PER_REQUEST;
  ac_size : Forall (fun r => data_bytes (ir_key r) (ir_value r) <= b_max_record_bytes b1) rs;
  ac_seqs : check_sequences 0 rs = Ok ();
  ac_routed : length ps = length rs;
  ac_route : (route_all (len (t_partitions t)) (t_rr_counter t) rs).1 = Ok ps;
  ac_decided : length ds = length rs;
  ac_decide : decide_records st name ∅ (zip ps ((fun r => default 0 (ir_sequence r)) <$> rs)) = Ok ds;
  ac_answers : out = expected (end_of logs) ds ps;
  ac_topic : b_topics b1 !! name = Some t1;
  ac_parts : len (t_partitions t1) = len (t_partitions t);
  ac_name : valid_name pid = true;
  ac_before : pd_partitions st = windows b pid;
  ac_reg : rg_state (b_producers b1) !! pid = Some st';
  ac_owner : pd_owner st' = k_key_id k;
  ac_after : st' = fold_left (fun st w => match w with (p, seq, off) => record_seq st name p seq off now end)
    (sequenced (ir_sequence <$> rs) (written_records (per_partition (to_write 0 ds ps rs))
      ((fun g => seqZ (end_of logs g.1) (len g.2)) <$> per_partition (to_write 0 ds ps rs)))) st }.

Lemma accepted_request k name rs pid e b t logs out b1 :
  serving (holds := holds) b name t logs -> fits (clock := clock) rs e logs -> rs <> [] ->
  produce k name rs (Some pid) e b = (Ok out, b1) ->
  exists ps ds st st' t1, accepted k name rs pid b t logs out b1 ps ds st st' t1 (pe_now e).
Proof.
  intros [Ht Hlogs Hn Hrr Hlim] [Hh Hroom Hclk] Hne Hfirst.
  destruct (produce_cases k name rs (Some pid) e b) as
    [(x & b' & Hp & _)|[[-> _]|(t0 & ps & rr & bb & ds & Hcan & Ht0 & Hrs & Hlen & Hsz & Hroute & Htop & Hmb0 & Hu & Hdec & Hp)]];
    [intros t0 Ht0; rewrite Ht in Ht0; by injection Ht0 as <-|done|congruence|done|].
  rewrite Ht in Ht0. injection Ht0 as <-. rewrite Hp in Hfirst. clear Hp.
  pose proof (route_all_range _ _ rs Hn Hrr Hh) as Hra. rewrite Hroute in Hra.
  assert (length ps = length rs) as Hlp by (symmetry; by eapply Forall2_length).
  pose proof (decided_length _ _ _ _ _ _ _ _ _ Hlp Hdec) as Hld.
  assert (Forall (fun p => 0 <= p < len (t_partitions (set_rr t rr))) ps) as Hps.
  { apply (Forall2_Forall_r _ _ _ _ Hra). apply Forall_forall. by intros r _ p [? _]. }
  assert (Forall (fun r => data_bytes (ir_key r) (ir_value r) <= MAX_RECORD_CAP) rs) as Hcap.
  { eapply Forall_impl; [exact Hsz|]. cbn. intros r Hr. lia. }
  assert (b_topics bb !! name = Some (set_rr t rr)) as Htb by (by rewrite Htop, lookup_insert_eq).
  pose proof (groups_fit e (t_partitions (set_rr t rr)) logs ds ps rs Hlogs Hps Hcap Hroom Hclk) as Hfit.
  pose proof (write_request_spec k name rs (Some pid) e ps ds bb (set_rr t rr) logs Htb Hlogs Hld Hlp Hps Hcap Hroom Hclk) as Hw.
  destruct Hdec as (st & Hadm & Hseq & Hdec). destruct (admit_frame _ _ _ _ _ _ Hadm) as (Hst & _ & Hpart & _).
  destruct (admit_owner _ _ _ _ _ _ Hadm) as [Hname Hown].
  destruct (write_request_registry k name rs pid e ps ds bb (set_rr t rr) logs st out b1 Htb Hlogs Hfit Hst Hfirst) as (Hmb & st' & Hreg & Hst').
  rewrite Hfirst in Hw. destruct Hw as (t1 & logs1 & Htop1 & Hlogs1 & [Hl1 _] & -> & _).
  exists ps, ds, st, st', t1. constructor; try done.
  - by rewrite Hmb, Hmb0.
  - by rewrite Hroute.
  - by rewrite Htop1, lookup_insert_eq.
  - unfold len. rewrite (Forall2_length _ _ _ Hlogs1), (Forall2_length _ _ _ Hlogs). by rewrite Hl1.
  - by rewrite Hreg, lookup_insert_eq.
  - by rewrite Hst', record_fold_owner.
Qed.

Lemma answers_again (out : list produced) :
  zip_with (fun p off => mkProduced p off true) (pr_partition <$> out) (pr_offset <$> out) =
  (fun o => mkProduced (pr_partition o) (pr_offset o) true) <$> out.
Proof. induction out as [|o out IH]; [done|]. cbn. f_equal. apply IH. Qed.

Lemma retry_answer k name rs pid e e' b t logs out b1 :
  serving (holds := holds) b name t logs -> fits (clock := clock) rs e logs -> windows_ok b ->
  Forall pinned rs -> Forall (fun r => forall s, ir_sequence r = Some s -> s < I64_MAX) rs ->
  produce k name rs (Some pid) e b = (Ok out, b1) -> Forall (fun o => pr_duplicate o = false) out ->
  (forall p, length (mine p rs out) <= WINDOW)%nat ->
  match produce k name rs (Some pid) e' b1 with
  | (Ok out', b2) => out' = (fun o => mkProduced (pr_partition o) (pr_offset o) true) <$> out /\ untouched b1 b2
  | (Err x, b2) => (exists w, x = DRateLimited w) /\ untouched b1 b2
  | (Panic, _) => False
  end.
Proof.
  intros Hs Hf Hwin Hpin Hmax Hfirst Hnew Hsmall. destruct (decide (rs = [])) as [->|Hrs].
  { rewrite (produce_nil _ _ _ e e'). destruct (produce_cases k name [] (Some pid) e b) as
      [(x & b' & Hp & _)|[[_ Hp]|(t0 & ps & rr & bb & ds & _ & _ & ? & _)]]; [|done|congruence| |done].
    - intros t0 Ht0. destruct Hs as [Ht ? ? ? ?]. rewrite Ht in Ht0. by injection Ht0 as <-.
    - rewrite Hp in Hfirst. injection Hfirst as <- <-. by rewrite Hp. }
  destruct (accepted_request _ _ _ _ _ _ _ _ _ _ Hs Hf Hrs Hfirst) as (ps & ds & st & st' & t1 & A). destruct A.
  assert (ds = replicate (length rs) None) as Hds.
  { rewrite <- ac_decided0. apply (expected_all_new (end_of logs) ds ps); [lia|by rewrite <- ac_answers0]. }
  destruct (admit_again (b_producers b1) pid (k_key_id k) (pe_now e') st') as (r2 & st2 & Hadm2 & Hp2); [done..|].
  assert (decide_records st2 name ∅ (zip ps ((fun r => default 0 (ir_sequence r)) <$> rs)) =
    Ok (Some <$> (pr_offset <$> out))) as Hdec2.
  { rewrite ac_answers0 in *. rewrite Hds in *. apply (recorded_again st st2 name (pe_now e)); [|done..|].
    - unfold producer_windows_ok. rewrite ac_before0. exact (Hwin pid).
    - by rewrite Hp2, ac_after0. }
  assert (route_all (len (t_partitions t1)) (t_rr_counter t1) rs = (Ok ps, t_rr_counter t1)) as Hroute2.
  { by rewrite ac_parts0, (route_all_pinned _ (t_rr_counter t)), ac_route0. }
  destruct (validate_again k name rs true e' b1) as (ks & [Hv|[w Hv]]); [done..| |].
  - rewrite (produce_run k name rs pid e' b1 t1 ks ps (t_rr_counter t1) r2 st2 _ ac_can0 ac_topic0 Hrs Hv Hroute2 Hadm2 Hdec2).
    assert (untouched b1 (set_producers (set_topic (set_keys b1 ks) name (set_rr t1 (t_rr_counter t1))) r2)) as Hu.
    { etrans; [apply (untouched_keys b1 ks)|]. etrans; [by eapply (untouched_topic _ name t1 (set_rr t1 (t_rr_counter t1)))|].
      by eapply (untouched_admit (set_topic (set_keys b1 ks) name (set_rr t1 (t_rr_counter t1)))). }
    destruct (write_duplicates k name rs pid e' ps (pr_offset <$> out)
      (set_producers (set_topic (set_keys b1 ks) name (set_rr t1 (t_rr_counter t1))) r2) (set_rr t1 (t_rr_counter t1)))
      as (b2 & -> & Hu2); [by cbn; rewrite lookup_insert_eq| |done|by cbn; destruct (admit_frame _ _ _ _ _ _ Hadm2) as (-> & _)|].
    { rewrite ac_answers0, length_fmap, expected_length; lia. }
    split; [|by etrans]. rewrite <- answers_again, ac_answers0, expected_partition by lia. done.
  - rewrite (produce_limited k name rs pid e' b1 t1 w _ ac_can0 ac_topic0 Hrs Hv). split; [by eexists|]. apply untouched_keys.
Qed.

(** ** The windows stay sound *)

Definition keeps_windows {A} (m : dp (H := H) A) : Prop := forall b, windows_ok b -> windows_ok (m b).2.

Lemma keeps_bind {A B} (m : dp A) (f : A -> dp B) :
  keeps_windows m -> (forall a, keeps_windows (f a)) -> keeps_windows (m ≫= f).
Proof.
  intros Hm Hf b Hb. rewrite dp_bind_eq. specialize (Hm b Hb). destruct (m b) as [[a|x|] b1]; cbn in *; [by apply Hf|done..].
Qed.

Lemma keeps_harmless {A} (m : dp (H := H) A) : (forall b, untouched b (m b).2) -> keeps_windows m.
Proof. intros Hm b Hb pid. destruct (Hm b) as (_ & Hw & _). rewrite Hw. apply Hb. Qed.

Lemma keeps_same {A} (m : dp (H := H) A) : (forall b, b_producers (m b).2 = b_producers b) -> keeps_windows m.
Proof. intros Hm b Hb pid. unfold windows. rewrite Hm. apply Hb. Qed.

Lemma record_seq_ok st topic p s o now : producer_windows_ok st -> producer_windows_ok (record_seq st topic p s o now).
Proof.
  intros Hst. unfold producer_windows_ok, record_seq. cbn. apply map_Forall_insert_2; [|done]. apply window_record_ok.
  destruct (pd_partitions st !! (topic, p)) as [w|] eqn:Ew; [by apply Hst in Ew|constructor].
Qed.

Lemma keeps_remember pid owner topic (e : produce_env (E := E)) ws : keeps_windows (remember pid owner topic e ws).
Proof.
  unfold remember. apply keeps_bind; [|intros _; apply keeps_bind; [|intros _]].
  - intros b Hb q. cbn. destruct (rg_state (b_producers b) !! pid) as [st|] eqn:Est; [|apply Hb].
    unfold windows. cbn. destruct (decide (q = pid)) as [->|Hne].
    + rewrite lookup_insert_eq. specialize (Hb pid). unfold windows in Hb. rewrite Est in Hb. revert Hb.
      change (producer_windows_ok st -> producer_windows_ok
        (fold_left (fun st w => match w with (p, seq, off) => record_seq st topic p seq off (pe_now e) end) ws st)).
      clear. revert st. induction ws as [|[[p s] o] ws IH]; intros st Hst; [done|]. cbn [fold_left]. by apply IH, record_seq_ok.
    + rewrite lookup_insert_ne by done. apply Hb.
  - apply keeps_same. intros b. by destruct (_ || _).
  - intros b Hb q. cbn. unfold windows. cbn. specialize (Hb q). unfold windows in Hb. by destruct (_ <$> ws).
Qed.

Lemma modify_topic_producers name f (b : broker (H := H)) : b_producers (modify_topic name f b).2 = b_producers b.
Proof. cbn. by destruct (b_topics b !! name). Qed.

Lemma keeps_write k name rs pid (e : produce_env (E := E)) ps ds : keeps_windows (write_request (H := H) k name rs pid e ps ds).
Proof.
  unfold write_request. apply keeps_bind; [by apply keeps_same|intros t]. destruct (join_writes _ _ _) as [o hs].
  apply keeps_bind; [apply keeps_same; apply modify_topic_producers|intros _].
  apply keeps_bind; [by apply keeps_same|intros offs].
  apply keeps_bind; [destruct pid; [apply keeps_remember|by apply keeps_same]|intros _].
  apply keeps_bind; [apply keeps_same; apply modify_topic_producers|intros _].
  destruct (mapM _ _); by apply keeps_same.
Qed.

Lemma produce_windows k name rs pid (e : produce_env (E := E)) (b : broker (H := H)) :
  (forall t, b_topics b !! name = Some t -> 0 < len (t_partitions t) /\ 0 <= t_rr_counter t < 2 ^ 64) ->
  Forall hint_ok rs -> windows_ok b -> windows_ok (produce k name rs pid e b).2.
Proof.
  intros Ht Hh Hb. destruct (produce_cases k name rs pid e b Ht Hh) as
    [(x & b' & -> & _ & Hu)|[[_ ->]|(t0 & ps & rr & bb & ds & _ & _ & _ & _ & _ & _ & _ & _ & Hu & _ & ->)]].
  - destruct Hu as (_ & Hw & _). intros q. cbn. rewrite Hw. apply Hb.
  - done.
  - apply keeps_write. destruct Hu as (_ & Hw & _). intros q. rewrite Hw. apply Hb.
Qed.

(** ** Consuming *)

Lemma visible_head x next log :
  offsets_sorted log -> x ∈ log -> r_offset x < next ->
  exists rest, visible (r_offset x) next log = x :: rest.
Proof.
  intros Hs. induction Hs as [|y log Hs IH Hy]; intros Hx Hn; [by apply elem_of_nil in Hx|].
  unfold visible. rewrite filter_cons. rewrite Forall_forall in Hy. apply elem_of_cons in Hx as [->|Hx].
  - rewrite decide_True by lia. by eexists.
  - specialize (Hy x Hx). cbn in Hy. rewrite decide_False by lia. by apply IH.
Qed.

Lemma mine_elem p rs out i r o :
  rs !! i = Some r -> out !! i = Some o -> pr_partition o = p -> pr_duplicate o = false -> (r, o) ∈ mine p rs out.
Proof.
  intros Hr Ho Hp Hd. apply list_elem_of_filter. split; [by split|].
  apply list_elem_of_lookup. exists i. by rewrite lookup_zip_with, Hr, Ho.
Qed.

Lemma stored_fits now p rs out w :
  Forall (fun x => 32 + data_bytes (ir_key x) (ir_value x) <= w) rs ->
  Forall (fun x => record_size x <= w) (stored now (mine p rs out)).
Proof.
  intros Hw. apply Forall_fmap, Forall_forall. intros [r o] Hx. apply list_elem_of_filter in Hx as [_ Hx].
  apply elem_of_zip_l in Hx. rewrite Forall_forall in Hw. specialize (Hw r Hx).
  cbn. rewrite record_size_eq. cbn. unfold data_bytes in Hw. destruct (ir_key r); cbn; [|change (len []) with 0]; lia.
Qed.

(** Consuming at an offset below the end of a partition that holds [log]. *)
Lemma consume_at k name part off mr mb now now' (b : broker (H := H)) t h log n :
  can k ActRead name = true -> b_topics b !! name = Some t -> t_partitions t !! Z.to_nat part = Some h -> holds h log n ->
  1 <= b_max_fetch_records b -> 1 <= b_max_fetch_bytes b -> 0 <= off < n ->
  Forall (fun r => record_size r <= read_window (Z.max 1 (Z.min mb (b_max_fetch_bytes b)))) log ->
  match consume k name part off mr mb now now' b with
  | (Ok f, b') => untouched b b' /\ f_high_watermark f = n /\ off < f_next_offset f <= n /\
      f_records f = visible (Z.max off (h_start_offset h)) (f_next_offset f) log /\
      len (f_records f) <= Z.max 1 (Z.min mr (b_max_fetch_records b))
  | (Err x, b') => (exists w, x = DRateLimited (Some w)) /\ untouched b b'
  | (Panic, _) => False
  end.
Proof.
  intros Hc Ht Hp Hh Hr Hb Ho Hw. unfold consume. rewrite dp_bind_eq, Hc. cbn [guard_dp mret dp_ret]. rewrite dp_bind_eq.
  unfold the_topic. rewrite Ht. cbn [ok_or]. rewrite dp_bind_eq. unfold lift at 1. rewrite Hp. cbn [ok_or map_err].
  rewrite dp_bind_eq. cbn [gets].
  assert ((check_consume (b_keys b) (k_key_id k) now).1 <> Panic) as Hnp.
  { unfold check_consume, check_credit. destruct (ks_limiters _ !! _) as [l|]; [|done]. destruct (li_consume l); [|done]. cbn.
    by destruct (_ <? _). }
  destruct (check_consume _ _ _) as [o ks]. cbn [fst] in Hnp. rewrite dp_bind_eq. cbn [modify]. rewrite dp_bind_eq. unfold lift at 1.
  destruct o as [u|x|]; cbn [map_err]; [|split; [by eexists|apply untouched_keys]|done].
  rewrite dp_bind_eq. cbn [gets set_keys b_max_fetch_records]. rewrite dp_bind_eq. unfold lift at 1, clamp_usize at 1.
  rewrite (proj2 (Z.ltb_ge _ _)) by done. cbn [map_err]. rewrite dp_bind_eq. cbn [gets set_keys b_max_fetch_bytes].
  rewrite dp_bind_eq. unfold lift at 1, clamp_usize at 1. rewrite (proj2 (Z.ltb_ge _ _)) by done. cbn [map_err].
  pose proof (hl_read h log n off (Z.max 1 (Z.min mr (b_max_fetch_records b))) _ Hh Ho ltac:(lia) Hw) as Hread.
  destruct (h_read_raw h off _ _) as [[out next] hwm]. destruct Hread as (-> & Hnext & Hv & Hlen & _).
  rewrite dp_bind_eq. cbn [modify]. rewrite dp_bind_eq. unfold modify_topic. cbn [modify set_keys b_topics]. rewrite Ht.
  cbn [mret dp_ret f_high_watermark f_next_offset f_records]. split; [|by split_and!; [lia..| |]; done || lia].
  etrans; [apply (untouched_keys b ks)|]. etrans; [apply untouched_keys|]. by eapply untouched_topic.
Qed.
End Retry.

(** ** Properties *)

Section Claims.
Context {H E : Type} `{PartitionHandle H E} {holds : H -> list record -> Z -> Prop} {clock : E -> Z}
  `{!HandleLaws holds clock}.

(** C7: a produce request is an append to the logs of its partitions, or it leaves
    no trace.  When it is accepted, every record is answered with an existing
    partition (the one it asked for), and the log of each partition has grown by
    exactly the records answered as new for it, in request order, at consecutive
    offsets that are the ones in the answers.  When it is refused (access, unknown
    topic, limits, rate, sequences, producer id) no partition, no sequence and no
    journal entry has changed.  Only an internal error may leave records behind, and
    then each log has grown by some of the request's records, in order.  The code
    does not panic. *)
Theorem produce_refines_logs k name rs pid e b t logs :
  serving (holds := holds) b name t logs -> fits (clock := clock) rs e logs ->
  match produce k name rs pid e b with
  | (Ok out, b') =>
      Forall2 (fun r o => 0 <= pr_partition o < len logs /\ forall h, ir_partition r = Some h -> pr_partition o = h) rs out /\
      exists t' logs', b_topics b' = <[name := t']> (b_topics b) /\ logs_hold (holds := holds) (t_partitions t') logs' /\
        length logs' = length logs /\
        forall p l, logs !! p = Some l ->
          let new := mine (Z.of_nat p) rs out in
          (pr_offset ∘ snd <$> new) = seqZ l.2 (len new) /\
          logs' !! p = Some (l.1 ++ stored (clock (pe_append e (Z.of_nat p))) new, l.2 + len new)
  | (Err DInternal, b') =>
      exists t' logs', b_topics b' = <[name := t']> (b_topics b) /\ logs_hold (holds := holds) (t_partitions t') logs' /\
        length logs' = length logs /\
        forall p l, logs !! p = Some l -> exists l', logs' !! p = Some l' /\ part_of_request rs l l'
  | (Err _, b') => untouched b b'
  | (Panic, _) => False
  end.
Proof. apply produce_spec. Qed.


(** C13: what was produced can be consumed.  A consumer with read access that asks
    for the partition and offset of an acknowledged record gets that record first,
    with its key and value, and a next offset past it; only its own rate limit can
    refuse it.  The limits are those the configuration allows, and the records of
    the partition fit into the read window. *)
Theorem produced_record_is_consumed k k2 name rs pid e b t logs out b1 i r o mr mb now now' :
  serving (holds := holds) b name t logs -> fits (clock := clock) rs e logs ->
  produce k name rs pid e b = (Ok out, b1) ->
  rs !! i = Some r -> out !! i = Some o -> pr_duplicate o = false ->
  can k2 ActRead name = true -> 1 <= b_max_fetch_records b1 -> 1 <= b_max_fetch_bytes b1 ->
  let window := read_window (Z.max 1 (Z.min mb (b_max_fetch_bytes b1))) in
  Forall (fun l => Forall (fun x => record_size x <= window) l.1) logs ->
  Forall (fun x => 32 + data_bytes (ir_key x) (ir_value x) <= window) rs ->
  match consume k2 name (pr_partition o) (pr_offset o) mr mb now now' b1 with
  | (Ok f, b2) => exists ts rest, f_records f = mkRecord (pr_offset o) ts (ir_key r) (ir_value r) :: rest /\
      pr_offset o < f_next_offset f <= f_high_watermark f
  | (Err x, _) => exists w, x = DRateLimited (Some w)
  | (Panic, _) => False
  end.
Proof.
  intros Hs Hf Hp Hr Ho Hd Hc Hm1 Hm2 window Hw1 Hw2. pose proof (produce_spec k name rs pid e b t logs Hs Hf) as Hspec.
  rewrite Hp in Hspec. destruct Hspec as (Hin & t' & logs' & Htop & Hl' & _ & Hnew).
  destruct (Forall2_lookup_lr _ _ _ _ _ _ Hin Hr Ho) as [Hpo _].
  set (p := Z.to_nat (pr_partition o)). assert (pr_partition o = Z.of_nat p) as Hpp by lia.
  destruct (lookup_lt_is_Some_2 logs p) as [l Hl]. { unfold len in Hpo. lia. }
  destruct (Hnew p l Hl) as [Hoff Hlp]. set (new := mine (Z.of_nat p) rs out) in *.
  destruct (Forall2_lookup_r _ _ _ _ _ Hl' Hlp) as (h & Hh & Hhold). cbn [fst snd] in Hhold.
  set (x := mkRecord (pr_offset o) (clock (pe_append e (Z.of_nat p))) (ir_key r) (ir_value r)).
  assert (x ∈ l.1 ++ stored (clock (pe_append e (Z.of_nat p))) new) as Hx.
  { apply elem_of_app. right. apply list_elem_of_fmap. exists (r, o). split; [done|]. by eapply mine_elem. }
  destruct (hl_bounds _ _ _ Hhold) as (_ & Hsort & Hb). rewrite Forall_forall in Hb. pose proof (Hb x Hx) as Hbx. cbn in Hbx.
  pose proof (consume_at k2 name (pr_partition o) (pr_offset o) mr mb now now' b1 t' h _ _ Hc
    ltac:(by rewrite Htop, lookup_insert_eq) Hh Hhold Hm1 Hm2) as Hcons.
  assert (0 <= pr_offset o) as Ho0.
  { assert (0 <= l.2) as Hl0.
    { destruct (Forall2_lookup_r _ _ _ _ _ (sv_logs _ _ _ _ Hs) Hl) as (h0 & _ & Hh0). by apply hl_bounds in Hh0 as [? _]. }
    assert (pr_offset o ∈ (pr_offset ∘ snd <$> new)) as Hmem.
    { apply list_elem_of_fmap. exists (r, o). split; [done|]. by eapply mine_elem. }
    rewrite Hoff in Hmem. apply elem_of_seqZ in Hmem. lia. }
  specialize (Hcons ltac:(lia)).
  assert (Forall (fun x => record_size x <= window) (l.1 ++ stored (clock (pe_append e (Z.of_nat p))) new)) as Hwin.
  { apply Forall_app. split; [|by apply stored_fits]. rewrite Forall_forall in Hw1. apply Hw1. by eapply list_elem_of_lookup_2. }
  specialize (Hcons Hwin). destruct (consume k2 name _ _ _ _ _ _ b1) as [[f|y|] b2].
  - destruct Hcons as (_ & Hhw & Hnx & Hrec & _).
    rewrite Z.max_l in Hrec by lia. destruct (visible_head x (f_next_offset f) _ Hsort Hx) as [rest Hrest]; [cbn; lia|].
    cbn [r_offset x] in Hrest. exists (clock (pe_append e (Z.of_nat p))), rest. split; [by rewrite Hrec, Hrest|lia].
  - destruct Hcons as [[w Hw] _]. by exists w.
  - done.
Qed.
End Claims.

(** ** Witnesses *)

Section ClaimWitnesses.
#[local] Existing Instance crc32_ieee_class.

Definition demo_key : api_key := mkKey "k1" "k1" [mkRule ActWrite "t"] None None 0 false.
Definition demo_topic : topic := mkTopic [fresh_partition 1000; fresh_partition 1000] 0 0 0 0 0.
Definition demo_broker : broker :=
  mkBroker {[ "t"%string := demo_topic ]} (mkStore None ∅ ∅ ∅ 0) (mkRegistry ∅ ∅ None None ∅ false) 1024 100 1024.
Definition demo_records : list incoming_record :=
  [mkIncoming (Some [x01]) [x0a] None (Some 7); mkIncoming None [x0b] (Some 1) (Some 3);
   mkIncoming None [x0c] (Some 1) (Some 4)].
Definition demo_env : produce_env := mkEnv 0 5 (fun _ => (100, no_faults)) 9 true.
Definition demo_out : list produced := [mkProduced 0 0 false; mkProduced 1 0 false; mkProduced 1 1 false].

Lemma demo_serving : serving (holds := plain_holds) demo_broker "t" demo_topic [([], 0); ([], 0)].
Proof.
  split.
  - reflexivity.
  - constructor; [apply fresh_partition_holds|]. constructor; [apply fresh_partition_holds|constructor].
  - reflexivity.
  - cbn. lia.
  - cbn. unfold MAX_RECORD_CAP. lia.
Qed.

Lemma demo_fits : fits (clock := fst) demo_records demo_env [([], 0); ([], 0)].
Proof.
  split.
  - constructor; [|constructor; [|constructor; [|constructor]]]; intros h; cbn; intros [= <-]; lia.
  - constructor; [|constructor; [|constructor]]; unfold len; cbn; lia.
  - intros p. cbn. split; lia.
Qed.

Lemma demo_windows : windows_ok demo_broker.
Proof. intros pid. unfold windows. cbn. rewrite lookup_empty. apply map_Forall_empty. Qed.

Lemma demo_produced : exists b1, produce demo_key "t" demo_records (Some "p"%string) demo_env demo_broker = (Ok demo_out, b1).
Proof. eexists. vm_compute. reflexivity. Qed.

Lemma produce_refines_logs_witness :
  serving (holds := plain_holds) demo_broker "t" demo_topic [([], 0); ([], 0)] /\
  match produce demo_key "t" demo_records (Some "p"%string) demo_env demo_broker with
  | (Ok out, b') => exists t', b_topics b' = <["t"%string := t']> (b_topics demo_broker)
  | _ => False
  end.
Proof.
  split; [exact demo_serving|].
  pose proof (produce_refines_logs demo_key "t" demo_records (Some "p"%string) demo_env _ _ _ demo_serving demo_fits) as Hp.
  destruct demo_produced as [b1 Eq]. rewrite Eq in Hp |- *. destruct Hp as (_ & t' & _ & Ht & _). by exists t'.
Defined.


Lemma produced_record_is_consumed_witness :
  exists b1 f b2, produce demo_key "t" demo_records (Some "p"%string) demo_env demo_broker = (Ok demo_out, b1) /\
    consume demo_key "t" 1 1 10 10 0 0 b1 = (Ok f, b2) /\
    exists ts rest, f_records f = mkRecord 1 ts None [x0c] :: rest.
Proof.
  destruct (produce demo_key "t" demo_records (Some "p"%string) demo_env demo_broker) as [o b1] eqn:Eq.
  assert (o = Ok demo_out) as ->. { apply (f_equal fst) in Eq. vm_compute in Eq. by symmetry. }
  assert (b_max_fetch_records b1 = 100 /\ b_max_fetch_bytes b1 = 1024) as [M1 M2].
  { apply (f_equal snd) in Eq. cbn [snd] in Eq. rewrite <- Eq. split; vm_compute; reflexivity. }
  pose proof (produced_record_is_consumed demo_key demo_key "t" demo_records (Some "p"%string) demo_env _ _ _ demo_out b1
    2 (mkIncoming None [x0c] (Some 1) (Some 4)) (mkProduced 1 1 false) 10 10 0 0
    demo_serving demo_fits Eq eq_refl eq_refl eq_refl eq_refl) as Hc.
  cbv zeta in Hc. rewrite M1, M2 in Hc. cbn [pr_partition pr_offset ir_key ir_value] in Hc.
  assert (exists f, (consume demo_key "t" 1 1 10 10 0 0 b1).1 = Ok f) as [f E2].
  { apply (f_equal snd) in Eq. cbn [snd] in Eq. rewrite <- Eq. eexists. vm_compute. reflexivity. }
  destruct (consume demo_key "t" 1 1 10 10 0 0 b1) as [o2 b2] eqn:E3. cbn [fst] in E2. subst o2.
  exists b1, f, b2. split; [reflexivity|]. split; [exact E3|]. destruct Hc as (ts & rest & Hf & _); [lia|lia| | |by exists ts, rest].
  - repeat constructor.
  - constructor; [|constructor; [|constructor; [|constructor]]]; vm_compute; congruence.
Defined.

(** ** Limits of deduplication *)

(** Keyless records without a partition are routed round-robin, also when they are
    sent again: the retry goes to the next partition and is written a second time. *)
Example round_robin_retry_written_twice :
  let rs := [mkIncoming None [x0a] None (Some 1)] in
  let b1 := (produce demo_key "t" rs (Some "p"%string) demo_env demo_broker).2 in
  (produce demo_key "t" rs (Some "p"%string) demo_env demo_broker).1 = Ok [mkProduced 0 0 false] /\
  (produce demo_key "t" rs (Some "p"%string) demo_env b1).1 = Ok [mkProduced 1 0 false].
Proof. vm_compute. done. Qed.

(** One partition of a request fails: the records of the others are written, but no
    sequence is recorded, and the retry writes them again. *)
Example failed_partition_written_twice :
  let env := mkEnv 0 5 (fun p => (100, if p =? 1 then mkFaults [LogFault 0 true true] [] true else no_faults)) 9 true in
  let b1 := (produce demo_key "t" demo_records (Some "p"%string) env demo_broker).2 in
  (produce demo_key "t" demo_records (Some "p"%string) env demo_broker).1 = Err DInternal /\
  (produce demo_key "t" demo_records (Some "p"%string) demo_env b1).1 =
    Ok [mkProduced 0 1 false; mkProduced 1 0 false; mkProduced 1 1 false].
Proof. vm_compute. done. Qed.
End ClaimWitnesses.
