(* ===== verification/Server.v ===== *)
(** * The binary protocol server and its client (crates/es-broker/src/binary:
    server.rs, client.rs)

    Limits, the handshake, the request loop with its re-check of revoked keys, one
    request from frame to response, the order of pipelined produces, and the
    blocking client.  Timeouts, TLS and the sockets are not modelled; what error
    messages say is a parameter. *)

From S2P Require Export Wire Dataplane.

#[local] Open Scope Z_scope.

(** ** Limits *)

Definition MAX_CONNECTIONS_CAP : Z := 4096.
Definition INFLIGHT_BUDGET_KIB : Z := 1024 * 1024.

(** [n.clamp(lo, hi)] for [lo <= hi]. *)
Definition clamp_between (n lo hi : Z) : Z := Z.max lo (Z.min n hi).

Definition kib (bytes : Z) : Z := clamp_between ((bytes + 1023) / 1024) 1 INFLIGHT_BUDGET_KIB.

(** The soft limit on descriptors, when the system tells it. *)
Definition connection_budget (soft : option Z) : Z :=
  match soft with Some n => clamp_between (n / 2) 16 MAX_CONNECTIONS_CAP | None => MAX_CONNECTIONS_CAP end.

Definition max_request_bytes (max_record_bytes : Z) : Z := Z.max (max_record_bytes + Z.shiftl 1 20) (Z.shiftl 16 20).

(** ** Connection slots *)

(** Free permits and the connections per address. *)
Record slots : Type := mkSlots { sl_free : Z; sl_per_ip : gmap string Z }.

Definition accept (max_per_ip : Z) (s : slots) (ip : string) : bool * slots :=
  if sl_free s <=? 0 then (false, s)
  else
    let c := default 0 (sl_per_ip s !! ip) in
    if Z.max 1 max_per_ip <=? c then (false, mkSlots (sl_free s) (<[ip := c]> (sl_per_ip s)))
    else (true, mkSlots (sl_free s - 1) (<[ip := c + 1]> (sl_per_ip s))).

(** The end of a connection: its permit and its [IpSlot] are dropped. *)
Definition hang_up (s : slots) (ip : string) : slots :=
  mkSlots (sl_free s + 1)
    match sl_per_ip s !! ip with
    | Some c =>
      let c := sat_sub_u64 c 1 in
      if c =? 0 then delete ip (sl_per_ip s) else <[ip := c]> (sl_per_ip s)
    | None => sl_per_ip s
    end.

(** ** Errors the client is told about *)

Inductive server_error : Type :=
| KeyRevoked
| Undecodable (e : wire_error)
| NoAccess (key_id : string) (write : bool) (topic : string)
| UnexpectedOpcode (op : opcode)
| DataRefused (e : data_error)
| FrameTooLarge.

Section Server.
Context {Gz : Gzip} {Hg : Hashing} {H E : Type} `{PartitionHandle H E}.

(** The text of an error. *)
Context (text : server_error -> string).

(** ** The handshake *)

(** An open connection: the key it runs as, the revocation epoch it has seen, and
    whether payloads are compressed. *)
Record conn : Type := mkConn { cn_key : api_key; cn_epoch : Z; cn_gzip : bool }.

Definition from_utf8_or_default (bytes : list byte) : string :=
  if utf8_valid bytes then of_bytes bytes else ""%string.

(** Up to the authentication: the bytes of a refusal, or the key to run as. *)
Definition identify (mode : auth_mode) (ks : key_store) (magic token_bytes : list byte) (too_long : bool)
    : list byte + api_key :=
  if negb (bool_decide (magic = WIRE_MAGIC)) then inl (write_handshake StBadMagic 0 "bad magic")
  else if too_long then inl (write_handshake StAuthFailed 0 "auth token too long")
  else
    let token := from_utf8_or_default token_bytes in
    match mode with
    | AuthDisabled => inr ANONYMOUS_ADMIN
    | AuthRequired =>
      if bool_decide (token = ""%string) then inl (write_handshake StAuthRequired 0 "auth token required")
      else match authenticate ks token with
           | Some k => inr k
           | None => inl (write_handshake StAuthFailed 0 "invalid token")
           end
    end.

(** After it, with the key store as it is by then: the reply and the connection. *)
Definition negotiate (ks : key_store) (k : api_key) (client_features : Z) : list byte * conn :=
  let epoch := ks_revocations ks in
  let negotiated := Z.land client_features FEATURE_GZIP in
  (write_handshake StOk negotiated "", mkConn k epoch (negb (Z.land negotiated FEATURE_GZIP =? 0))).

(** ** Responses *)

Definition error_frame (request_id : Z) (msg : string) (gzip : bool) : list byte :=
  let body := if gzip then compress (as_bytes msg) else as_bytes msg in
  default [] (encode_frame request_id OpError body).

Definition respond (request_id : Z) (op : opcode) (body : list byte) (gzip : bool) : list byte :=
  let body := if gzip then compress body else body in
  match encode_frame request_id op body with
  | Some f => f
  | None => error_frame request_id (text FrameTooLarge) gzip
  end.

(** ** One request *)

(** What the surroundings decide during a request. *)
Record request_env : Type := mkReqEnv { re_produce : produce_env (E := E); re_instant : Z; re_instant' : Z }.

Definition of_wire (r : produce_record) : incoming_record :=
  mkIncoming (wp_key r) (wp_value r) (wp_partition r) (wp_sequence r).
Definition to_wire (p : produced) : produce_result := mkWPRes (pr_partition p) (pr_offset p) (pr_duplicate p).

(** [process]: the opcode and body of the response, before compression.  [None] is
    a task that panicked, whose response is never sent. *)
Definition process (k : api_key) (op : opcode) (payload : list byte) (gzip : bool) (max_request : Z)
    (env : request_env) (b : broker (H := H)) : option (opcode * list byte) * broker :=
  let err e := Some (OpError, as_bytes (text e)) in
  match (if gzip then decompress payload max_request else Ok payload) with
  | Ok payload =>
    match op with
    | OpProduce =>
      match decode_produce_request payload with
      | Ok req =>
        match produce k (wq_topic req) (of_wire <$> wq_records req) (wq_producer_id req) (re_produce env) b with
        | (Ok out, b) => (Some (OpProduceOk, encode_produce_response (to_wire <$> out)), b)
        | (Err e, b) => (err (DataRefused e), b)
        | (Panic, b) => (None, b)
        end
      | Err e => (err (Undecodable e), b)
      | Panic => (None, b)
      end
    | OpConsume =>
      match decode_consume_request payload with
      | Ok req =>
        match consume k (wc_topic req) (wc_partition req) (wc_offset req) (wc_max_records req) (wc_max_bytes req)
                (re_instant env) (re_instant' env) b with
        | (Ok f, b) =>
          (Some (OpConsumeOk, encode_consume_from_records (wc_partition req) (f_next_offset f) (f_high_watermark f)
                   (f_records f)), b)
        | (Err e, b) => (err (DataRefused e), b)
        | (Panic, b) => (None, b)
        end
      | Err e => (err (Undecodable e), b)
      | Panic => (None, b)
      end
    | _ => (err (UnexpectedOpcode op), b)
    end
  | Err e => (err (Undecodable e), b)
  | Panic => (None, b)
  end.

(** The server's side of reading a frame: the length and its bounds, then the
    whole body, then the opcode. *)
Definition read_request (max : Z) (l : list byte) : outcome frame_error (Z * opcode * list byte * list byte) :=
  '(total, l) ← stream_read FrameIo get_u32 l;
  if negb ((5 <=? total) && (total <=? max)) then Err (FrameBounds total) else
  '(request_id, l) ← stream_read FrameIo get_u32 l;
  '(op, l) ← stream_read FrameIo get_u8 l;
  '(payload, l) ← stream_read FrameIo (get_bytes (total - 5)) l;
  match opcode_from_u8 op with
  | None => Err (UnknownOpcode op)
  | Some op => Ok (request_id, op, payload, l)
  end.

(** The key of an open connection, looked up again when the epoch has moved. *)
Definition recheck (mode : auth_mode) (ks : key_store) (c : conn) : option conn :=
  match mode with
  | AuthDisabled => Some c
  | AuthRequired =>
    let now := ks_revocations ks in
    if now =? cn_epoch c then Some c
    else match get_enabled ks (k_key_id (cn_key c)) with
         | Some k => Some (mkConn k now (cn_gzip c))
         | None => None
         end
  end.

(** What the loop does with a frame: answer at once, or start a task for the topic
    named at the head of the payload. *)
Inductive verdict : Type := Answer (frame : list byte) | Start (topic : string).

Definition triage (c : conn) (request_id : Z) (op : opcode) (payload : list byte) : verdict :=
  match op with
  | OpPing => Answer (respond request_id OpPingOk [] (cn_gzip c))
  | OpProduce | OpConsume =>
    match peek_topic payload (cn_gzip c) with
    | Ok topic =>
      let action := match op with OpProduce => ActWrite | _ => ActRead end in
      if can (cn_key c) action topic then Start topic
      else Answer (error_frame request_id
             (text (NoAccess (k_key_id (cn_key c)) (bool_decide (op = OpProduce)) topic)) (cn_gzip c))
    | Err e => Answer (error_frame request_id (text (Undecodable e)) (cn_gzip c))
    | Panic => Answer []
    end
  | other => Answer (error_frame request_id (text (UnexpectedOpcode other)) (cn_gzip c))
  end.

(** A frame handled to its end, with no other request in flight: the connection
    (closed when [None]), the response, the broker. *)
Definition handle_frame (mode : auth_mode) (c : conn) (request_id : Z) (op : opcode) (payload : list byte)
    (env : request_env) (b : broker (H := H)) : option conn * list byte * broker :=
  match recheck mode (b_keys b) c with
  | None => (None, error_frame request_id (text KeyRevoked) (cn_gzip c), b)
  | Some c =>
    match triage c request_id op payload with
    | Answer f => (Some c, f, b)
    | Start _ =>
      let max_request := max_request_bytes (b_max_record_bytes b) in
      match process (cn_key c) op payload (cn_gzip c) max_request env b with
      | (Some (op, body), b) => (Some c, respond request_id op body (cn_gzip c), b)
      | (None, b) => (Some c, [], b)
      end
    end
  end.

(** ** The blocking client *)

Record client : Type := mkClient { cl_next_request_id : Z; cl_gzip : bool }.

Inductive client_error : Type :=
| CFrame (e : frame_error) | CDecode (e : wire_error) | CWrongId (got want : Z)
| CServer (body : list byte) | CUnexpected (op : opcode) | CTooLarge.

Definition next_id (c : client) : Z * client :=
  (cl_next_request_id c, mkClient (wrap_u 32 (cl_next_request_id c + 1)) (cl_gzip c)).

Definition write_frame (c : client) (id : Z) (op : opcode) (payload : list byte) : outcome client_error (list byte) :=
  ok_or CTooLarge (encode_frame id op (if cl_gzip c then compress payload else payload)).

Definition client_read_frame (c : client) (l : list byte) : outcome client_error (Z * opcode * list byte) :=
  '(id, op, payload, _) ← map_err CFrame (read_frame MAX_FRAME_BYTES l);
  body ← map_err CDecode (if cl_gzip c then decompress payload MAX_FRAME_BYTES else Ok payload);
  Ok (id, op, body).

(** The response to a request, from the bytes that came back. *)
Definition take_response (c : client) (id : Z) (l : list byte) : outcome client_error (opcode * list byte) :=
  '(resp_id, op, body) ← client_read_frame c l;
  if negb (resp_id =? id) then Err (CWrongId resp_id id) else Ok (op, body).

Definition produce_answer (c : client) (id : Z) (l : list byte) : outcome client_error (list produce_result) :=
  '(op, body) ← take_response c id l;
  match op with
  | OpProduceOk => map_err CDecode (decode_produce_response body)
  | OpError => Err (CServer body)
  | other => Err (CUnexpected other)
  end.

Definition consume_answer (c : client) (id : Z) (l : list byte) : outcome client_error consume_response :=
  '(op, body) ← take_response c id l;
  match op with
  | OpConsumeOk => map_err CDecode (decode_consume_response body)
  | OpError => Err (CServer body)
  | other => Err (CUnexpected other)
  end.

(** A request sent over a connection the server holds as [sc]. *)
Definition round_trip (mode : auth_mode) (sc : conn) (c : client) (op : opcode) (payload : list byte)
    (env : request_env) (b : broker (H := H)) : outcome client_error (list byte * Z * option conn) * client * broker :=
  let (id, c) := next_id c in
  match write_frame c id op payload with
  | Ok frame =>
    match read_request (max_request_bytes (b_max_record_bytes b)) frame with
    | Ok (id', op', payload', _) =>
      let '(sc, resp, b) := handle_frame mode sc id' op' payload' env b in (Ok (resp, id, sc), c, b)
    | Err e => (Err (CFrame e), c, b)
    | Panic => (Panic, c, b)
    end
  | Err e => (Err e, c, b)
  | Panic => (Panic, c, b)
  end.

(** ** Pipelined requests

    Requests of a connection run as tasks.  A produce waits for the end of the
    previous produce to its topic ([chains]); everything else runs at any time. *)

Record task : Type := mkTask { tk_topic : string; tk_produce : bool; tk_prev : option nat }.

Record pipeline : Type := mkPipeline {
  pl_tasks : list task; pl_chains : gmap string nat; pl_done : list nat }.

Definition pipeline_new : pipeline := mkPipeline [] ∅ [].

(** The loop starts a task. *)
Definition spawn_task (p : pipeline) (produce : bool) (topic : string) : pipeline :=
  let i := length (pl_tasks p) in
  let prev := if produce then pl_chains p !! topic else None in
  mkPipeline (pl_tasks p ++ [mkTask topic produce prev])
    (if produce then <[topic := i]> (pl_chains p) else pl_chains p) (pl_done p).

(** Whether a task that has not run may run now. *)
Definition runnable (p : pipeline) (i : nat) : bool :=
  match pl_tasks p !! i with
  | Some t => bool_decide (i ∉ pl_done p) && match tk_prev t with Some j => bool_decide (j ∈ pl_done p) | None => true end
  | None => false
  end.

Definition run_task (p : pipeline) (i : nat) : pipeline :=
  mkPipeline (pl_tasks p) (pl_chains p) (pl_done p ++ [i]).

Inductive pipeline_step : pipeline -> pipeline -> Prop :=
| PSpawn p produce topic : pipeline_step p (spawn_task p produce topic)
| PRun p i : runnable p i = true -> pipeline_step p (run_task p i).

(** ** A connection among changes of the key store *)

Inductive phase : Type := Greeting | Identified (k : api_key) (features : Z) | Open (c : conn) | Closed.

(** Changes while the server runs; the counter of revocations does not wrap. *)
Inductive live_step : key_store -> key_store -> Prop :=
| LCreate s req sb now ms ok :
    fresh_secret s ("esk_" +:+ base64url sb) -> live_step s (create_key s req sb now ms ok).2
| LRevoke s id ok : ks_revocations s + 1 < 2 ^ 64 -> live_step s (revoke_key s id ok).2
| LProduce s id n now : live_step s (check_produce s id n now).2
| LConsume s id now : live_step s (check_consume s id now).2
| LCharge s id n now : live_step s (charge_consume s id n now).

Inductive conn_step (mode : auth_mode) : key_store * phase -> key_store * phase -> Prop :=
| CIdentify ks magic features token too_long k :
    identify mode ks magic token too_long = inr k -> conn_step mode (ks, Greeting) (ks, Identified k features)
| CRefuse ks magic token too_long reply :
    identify mode ks magic token too_long = inl reply -> conn_step mode (ks, Greeting) (ks, Closed)
| COpen ks k features : conn_step mode (ks, Identified k features) (ks, Open (negotiate ks k features).2)
| CFrameServed ks c c' : recheck mode ks c = Some c' -> conn_step mode (ks, Open c) (ks, Open c')
| CFrameRefused ks c : recheck mode ks c = None -> conn_step mode (ks, Open c) (ks, Closed)
| CStore ks ks' ph : live_step ks ks' -> conn_step mode (ks, ph) (ks', ph).

End Server.
