(* ===== verification/ServerSpec.v ===== *)
(** * What the binary server promises

    The two ends agree after the handshake, a request over the wire is the request,
    produces to a topic run in the order they arrived, and a revoked key is cut off
    connections that are already open. *)

From S2P Require Export Server Delivery.

#[local] Open Scope Z_scope.

(** ** Slots *)

(** A connection that ends gives its slot back. *)
Lemma hang_up_accept max s ip s' :
  map_Forall (fun _ c => 0 < c < 2 ^ 64 - 1) (sl_per_ip s) -> accept max s ip = (true, s') -> hang_up s' ip = s.
Proof.
  intros Hpos. unfold accept. destruct s as [free per]. cbn [sl_free sl_per_ip] in *. case_if; [done|]. case_if; [done|].
  intros [= <-]. unfold hang_up. cbn [sl_free sl_per_ip]. rewrite lookup_insert_eq. f_equal; [lia|].
  destruct (per !! ip) as [c|] eqn:Ec; cbn [default].
  - apply Hpos in Ec as Hc. cbn in Hc. assert (sat_sub_u64 (c + 1) 1 = c) as Hs by (unfold sat_sub_u64; lia).
    cbn [from_option id]. rewrite Hs, (proj2 (Z.eqb_neq _ _)) by lia. rewrite insert_insert_eq. by apply insert_id.
  - change (sat_sub_u64 (0 + 1) 1) with 0. cbn. by rewrite delete_insert_id.
Qed.

(** ** Pipelined produces *)

(** Task [i] is a produce to [topic]. *)
Definition produces (p : pipeline) (topic : string) (i : nat) : Prop :=
  exists t, pl_tasks p !! i = Some t /\ tk_produce t = true /\ tk_topic t = topic.

(** [prev] is the last produce to [topic] before task [i]. *)
Definition last_before (p : pipeline) (topic : string) (i : nat) (prev : option nat) : Prop :=
  match prev with
  | Some j => (j < i)%nat /\ produces p topic j /\ forall m, (j < m < i)%nat -> ~ produces p topic m
  | None => forall m, (m < i)%nat -> ~ produces p topic m
  end.

Record pipeline_inv (p : pipeline) : Prop := {
  pi_chains : forall topic, last_before p topic (length (pl_tasks p)) (pl_chains p !! topic);
  pi_prev : forall i t, pl_tasks p !! i = Some t -> tk_produce t = true -> last_before p (tk_topic t) i (tk_prev t);
  pi_free : forall i t, pl_tasks p !! i = Some t -> tk_produce t = false -> tk_prev t = None;
  pi_nodup : NoDup (pl_done p);
  pi_ran : Forall (fun i => i < length (pl_tasks p))%nat (pl_done p);
  pi_order : forall a i t b, pl_done p = a ++ i :: b -> pl_tasks p !! i = Some t ->
    forall j, tk_prev t = Some j -> j ∈ a }.

Lemma produces_spawn p pr topic t i :
  (i < length (pl_tasks p))%nat -> produces (spawn_task p pr topic) t i <-> produces p t i.
Proof. intros Hi. unfold produces, spawn_task. cbn. by rewrite lookup_app_l. Qed.

Lemma last_before_spawn p pr topic t i prev :
  (i <= length (pl_tasks p))%nat -> last_before p t i prev -> last_before (spawn_task p pr topic) t i prev.
Proof.
  intros Hi. destruct prev as [j|]; cbn.
  - intros (Hj & Hp & Hm). split_and!; [done|by apply produces_spawn; [lia|]|].
    intros m Hmi. rewrite produces_spawn by lia. by apply Hm.
  - intros Hm m Hmi. rewrite produces_spawn by lia. by apply Hm.
Qed.

Lemma inv_spawn p pr topic : pipeline_inv p -> pipeline_inv (spawn_task p pr topic).
Proof.
  intros [Hc Hp Hf Hn Hr Ho]. set (n := length (pl_tasks p)).
  assert (length (pl_tasks (spawn_task p pr topic)) = S n) as Hlen by (cbn; rewrite length_app; cbn; lia).
  assert (forall t, ~ produces (spawn_task p pr topic) t n \/ t = topic /\ pr = true) as Hnew.
  { intros t. destruct (decide (t = topic /\ pr = true)) as [?|Hne]; [by right|left]. intros (x & Hx & Hxp & Hxt).
    cbn in Hx. rewrite lookup_app_r, Nat.sub_diag in Hx by done. injection Hx as <-. cbn in *. by apply Hne. }
  constructor.
  - intros t. rewrite Hlen. cbn [pl_chains spawn_task].
    assert (~ produces (spawn_task p pr topic) t n -> last_before (spawn_task p pr topic) t (S n) (pl_chains p !! t)) as Hkeep.
    { intros Hnt. pose proof (last_before_spawn p pr topic t n _ (le_n _) (Hc t)) as Hl.
      destruct (pl_chains p !! t) as [j|]; cbn in *.
      - destruct Hl as (Hj & Hpj & Hm). split_and!; [lia|done|]. intros m Hmi. destruct (decide (m = n)) as [->|]; [done|]. apply Hm. lia.
      - intros m Hmi. destruct (decide (m = n)) as [->|]; [done|]. apply Hl. lia. }
    destruct pr.
    + destruct (decide (t = topic)) as [->|Hne].
      * rewrite lookup_insert_eq. cbn. split_and!; [lia| |intros m ?; lia].
        exists (mkTask topic true (pl_chains p !! topic)). split; [|done]. cbn. by rewrite lookup_app_r, Nat.sub_diag.
      * rewrite lookup_insert_ne by done. apply Hkeep. destruct (Hnew t) as [?|[? _]]; done.
    + apply Hkeep. destruct (Hnew t) as [?|[_ ?]]; done.
  - intros i t Hi Ht. cbn in Hi. destruct (decide (i < n)%nat) as [Hlt|Hge].
    + rewrite lookup_app_l in Hi by done. apply last_before_spawn; [unfold n in Hlt; lia|]. by apply Hp.
    + apply lookup_lt_Some in Hi as Hl. rewrite length_app in Hl. cbn in Hl. fold n in Hl. assert (i = n) as -> by lia.
      rewrite lookup_app_r, Nat.sub_diag in Hi by done. injection Hi as <-. cbn in *. subst pr. by apply last_before_spawn.
  - intros i t Hi Ht. cbn in Hi. apply lookup_app_Some in Hi as [Hi|[_ Hi]]; [by eapply Hf|].
    apply list_lookup_singleton_Some in Hi as [_ <-]. cbn in *. by subst pr.
  - done.
  - eapply Forall_impl; [exact Hr|]. cbn. intros i. rewrite length_app. cbn. lia.
  - intros a i t b Hd Ht j Hj. cbn in Hd, Ht.
    assert (i < n)%nat as Hlt. { rewrite Forall_forall in Hr. apply Hr. rewrite Hd. apply elem_of_app. right. left. }
    rewrite lookup_app_l in Ht by done. by eapply Ho.
Qed.

Lemma inv_run p i : pipeline_inv p -> runnable p i = true -> pipeline_inv (run_task p i).
Proof.
  intros [Hc Hp Hf Hn Hr Ho] Hi. unfold runnable in Hi. destruct (pl_tasks p !! i) as [t|] eqn:Et; [|done].
  apply andb_prop in Hi as [Hi1 Hi2]. apply bool_decide_eq_true in Hi1.
  constructor; cbn; [exact Hc|exact Hp|exact Hf|..].
  - apply NoDup_app. split_and!; [done| |apply NoDup_singleton]. intros x Hx Hx'. apply list_elem_of_singleton in Hx' as ->. done.
  - apply Forall_app. split; [done|]. constructor; [|done]. by eapply lookup_lt_Some.
  - intros a x tx b Hd Hx j Hj.
    destruct b as [|y b _] using rev_ind.
    + apply app_inj_tail in Hd as [<- <-]. rewrite Et in Hx. injection Hx as <-. rewrite Hj in Hi2. by apply bool_decide_eq_true in Hi2.
    + rewrite app_comm_cons, app_assoc in Hd. apply app_inj_tail in Hd as [Hd _]. by eapply Ho.
Qed.

Lemma pipeline_inv_reach p : rtc pipeline_step pipeline_new p -> pipeline_inv p.
Proof.
  intros Hr. assert (pipeline_inv pipeline_new) as H0.
  { constructor; cbn [pipeline_new pl_tasks pl_chains pl_done].
    - intros topic. rewrite lookup_empty. intros m Hm. cbn in Hm. lia.
    - intros i t Hi. by rewrite lookup_nil in Hi.
    - intros i t Hi. by rewrite lookup_nil in Hi.
    - constructor.
    - constructor.
    - intros a i t b Hd. by destruct a. }
  revert H0. induction Hr as [|x y z Hs _ IH]; [done|]. intros Hx. apply IH. destruct Hs; [by apply inv_spawn|by apply inv_run].
Qed.

#[local] Instance produces_dec p topic i : Decision (produces p topic i).
Proof.
  unfold produces. destruct (pl_tasks p !! i) as [t|]; [|right; by intros (? & ? & _)].
  destruct (decide (tk_produce t = true /\ tk_topic t = topic)) as [[H1 H2]|Hn]; [left; by exists t|right].
  intros (x & [= <-] & H1 & H2). by apply Hn.
Defined.

(** A produce that ran found every earlier produce to its topic done. *)
Lemma earlier_done p topic a i b j :
  pipeline_inv p -> pl_done p = a ++ i :: b -> produces p topic i -> produces p topic j -> (j < i)%nat -> j ∈ a.
Proof.
  intros Hinv. revert a b. induction (lt_wf i) as [i _ IH]. intros a b Hd (t & Ht & Hp & <-) Hj Hlt.
  pose proof (pi_prev p Hinv i t Ht Hp) as Hl. destruct (tk_prev t) as [k|] eqn:Ek; cbn in Hl.
  - destruct Hl as (Hki & Hpk & Hno). pose proof (pi_order p Hinv a i t b Hd Ht k Ek) as Hka.
    destruct (decide (j = k)) as [->|Hne]; [done|].
    assert (j < k)%nat as Hjk. { destruct (decide (k < j)%nat); [exfalso; by apply (Hno j)|lia]. }
    apply list_elem_of_split in Hka as (a1 & a2 & ->). apply elem_of_app. left.
    apply (IH k Hki a1 (a2 ++ i :: b)); [|done..]. by rewrite Hd, <- app_assoc.
  - exfalso. by apply (Hl j Hlt).
Qed.

Lemma not_stuck p i : pipeline_inv p -> (i < length (pl_tasks p))%nat -> i ∉ pl_done p -> exists j, runnable p j = true.
Proof.
  intros Hinv. induction (lt_wf i) as [i _ IH]. intros Hi Hnd.
  destruct (lookup_lt_is_Some_2 _ _ Hi) as [t Ht].
  destruct (tk_prev t) as [j|] eqn:Ej.
  - assert (tk_produce t = true) as Hp.
    { destruct (tk_produce t) eqn:Et; [done|]. by rewrite (pi_free p Hinv i t Ht Et) in Ej. }
    pose proof (pi_prev p Hinv i t Ht Hp) as Hl. rewrite Ej in Hl. destruct Hl as (Hji & _).
    destruct (decide (j ∈ pl_done p)) as [Hd|Hd]; [|apply (IH j); [lia|lia|done]].
    exists i. unfold runnable. rewrite Ht, Ej. by rewrite !bool_decide_true.
  - exists i. unfold runnable. rewrite Ht, Ej. by rewrite bool_decide_true.
Qed.

(** ** Revocation *)

Section Revocation.
Context {Hg : Hashing}.

Lemma check_produce_keys s id n now :
  let s' := (check_produce s id n now).2 in ks_keys s' = ks_keys s /\ ks_revocations s' = ks_revocations s.
Proof.
  cbv zeta. unfold check_produce. destruct (ks_limiters s !! id) as [l|]; [|done].
  destruct (li_produce l) as [bk|]; [|done]. by destruct (try_take _ _ _).
Qed.

Lemma check_consume_keys s id now :
  let s' := (check_consume s id now).2 in ks_keys s' = ks_keys s /\ ks_revocations s' = ks_revocations s.
Proof.
  cbv zeta. unfold check_consume. destruct (ks_limiters s !! id) as [l|]; [|done].
  destruct (li_consume l) as [bk|]; [|done]. by destruct (check_credit _ _).
Qed.

Lemma charge_consume_keys s id n now :
  ks_keys (charge_consume s id n now) = ks_keys s /\ ks_revocations (charge_consume s id n now) = ks_revocations s.
Proof. unfold charge_consume. destruct (ks_limiters s !! id) as [l|]; [|done]. by destruct (li_consume l). Qed.

(** What a change of the store does to a key: it stays, and once disabled stays
    disabled; the epoch does not go back, and moves when a key is disabled. *)
Lemma live_step_key s s' id k :
  live_step s s' -> 0 <= ks_revocations s -> ks_keys s !! id = Some k ->
  0 <= ks_revocations s <= ks_revocations s' /\
  exists k', ks_keys s' !! id = Some k' /\ k_key_id k' = k_key_id k /\ (k_disabled k = true -> k_disabled k' = true) /\
    (k_disabled k' = true -> k_disabled k = false -> ks_revocations s < ks_revocations s').
Proof.
  assert (forall s', ks_keys s' = ks_keys s /\ ks_revocations s' = ks_revocations s -> 0 <= ks_revocations s ->
    ks_keys s !! id = Some k -> 0 <= ks_revocations s <= ks_revocations s' /\
    exists k', ks_keys s' !! id = Some k' /\ k_key_id k' = k_key_id k /\ (k_disabled k = true -> k_disabled k' = true) /\
    (k_disabled k' = true -> k_disabled k = false -> ks_revocations s < ks_revocations s')) as Hsame.
  { intros s1 [E1 E2] H0 Hk. rewrite E1, E2. split; [lia|]. exists k. split_and!; [done|done|done|congruence]. }
  intros Hl H0 Hk. destruct Hl as [s req sb now ms ok [Hf _]|s i ok Hw|s i n now|s i now|s i n now].
  - pose proof (create_key_state s req sb now ms ok) as Hc. cbv zeta in Hc.
    destruct (create_key s req sb now ms ok) as [res s1]. cbn [snd].
    destruct Hc as [[-> _]|(_ & E1 & _ & _ & E2 & _)]; [by apply Hsame|]. rewrite E1, E2.
    split; [lia|]. exists k. rewrite lookup_insert_ne by congruence. split_and!; [done|done|done|congruence].
  - pose proof (revoke_key_spec s i ok) as Hr. destruct (ks_keys s !! i) as [k0|] eqn:Ei; [|rewrite Hr; by apply Hsame].
    cbv zeta in Hr. destruct Hr as (E1 & _ & E2 & _). rewrite E1, E2. unfold wrap_u. rewrite Z.mod_small by lia. split; [lia|].
    destruct (decide (i = id)) as [->|Hne].
    + rewrite lookup_insert_eq. assert (k0 = k) as -> by congruence. exists (disable k). split_and!; [done|done|done|lia].
    + rewrite lookup_insert_ne by done. exists k. split_and!; [done|done|done|lia].
  - apply Hsame; [apply check_produce_keys|done|done].
  - apply Hsame; [apply check_consume_keys|done|done].
  - apply Hsame; [apply charge_consume_keys|done|done].
Qed.

Lemma live_step_mono s s' : live_step s s' -> 0 <= ks_revocations s -> 0 <= ks_revocations s'.
Proof.
  intros Hl H0. destruct Hl as [s req sb now ms ok _|s i ok Hw|s i n now|s i now|s i n now].
  - pose proof (create_key_state s req sb now ms ok) as Hc. cbv zeta in Hc. destruct (create_key s req sb now ms ok) as [res s1].
    cbn. destruct Hc as [[-> _]|(_ & _ & _ & _ & -> & _)]; done.
  - pose proof (revoke_key_spec s i ok) as Hr. destruct (ks_keys s !! i); [|by rewrite Hr].
    cbv zeta in Hr. destruct Hr as (_ & _ & -> & _). unfold wrap_u. apply Z.mod_pos_bound. lia.
  - by rewrite (proj2 (check_produce_keys s i n now)).
  - by rewrite (proj2 (check_consume_keys s i now)).
  - by rewrite (proj2 (charge_consume_keys s i n now)).
Qed.

(** The key a connection runs as is in the store, and the epoch it has seen is not
    ahead. *)
Definition phase_ok (st : key_store * phase) : Prop :=
  0 <= ks_revocations st.1 /\ (forall id k, ks_keys st.1 !! id = Some k -> k_key_id k = id) /\
  match st.2 with
  | Identified k _ => exists k', ks_keys st.1 !! k_key_id k = Some k'
  | Open c => (exists k', ks_keys st.1 !! k_key_id (cn_key c) = Some k') /\ cn_epoch c <= ks_revocations st.1
  | _ => True
  end.

Lemma live_step_ids s s' :
  live_step s s' -> (forall id k, ks_keys s !! id = Some k -> k_key_id k = id) ->
  forall id k, ks_keys s' !! id = Some k -> k_key_id k = id.
Proof.
  intros Hl Hid. destruct Hl as [s req sb now ms ok _|s i ok Hw|s i n now|s i now|s i n now].
  - pose proof (create_key_state s req sb now ms ok) as Hc. cbv zeta in Hc. destruct (create_key s req sb now ms ok) as [res s1].
    cbn. destruct Hc as [[-> _]|(_ & -> & _)]; [done|]. intros id k. rewrite lookup_insert_Some. intros [[<- <-]|[_ ?]]; [done|by apply Hid].
  - pose proof (revoke_key_spec s i ok) as Hr. destruct (ks_keys s !! i) as [k0|] eqn:Ei; [|by rewrite Hr].
    cbv zeta in Hr. destruct Hr as (-> & _). intros id k. rewrite lookup_insert_Some. intros [[<- <-]|[_ ?]]; [|by apply Hid].
    cbn. by apply Hid.
  - by rewrite (proj1 (check_produce_keys s i n now)).
  - by rewrite (proj1 (check_consume_keys s i now)).
  - by rewrite (proj1 (charge_consume_keys s i n now)).
Qed.

Lemma phase_ok_step st st' : conn_step AuthRequired st st' -> phase_ok st -> phase_ok st'.
Proof.
  intros Hs (H0 & Hid & Hph). destruct Hs as [ks magic f tok tl k Hi|ks magic tok tl reply Hi|ks k f|ks c c' Hr|ks c Hr|ks ks' ph Hl]; cbn [fst snd] in *.
  - split_and!; [done|done|]. cbn. unfold identify in Hi. destruct (negb _); [done|]. destruct tl; [done|]. case_bool_decide; [done|].
    unfold authenticate in Hi. destruct (ks_by_hash ks !! _) as [id|]; cbn in Hi; [|done].
    destruct (ks_keys ks !! id) as [k0|] eqn:Ek; cbn in Hi; [|done]. destruct (k_disabled k0); [done|]. injection Hi as <-.
    exists k0. by rewrite (Hid id k0 Ek).
  - by split_and!.
  - split_and!; [done|done|]. cbn. split; [exact Hph|lia].
  - split_and!; [done|done|]. cbn. destruct Hph as [Hk He]. unfold recheck in Hr. case_if_in Hr; [injection Hr as <-; done|].
    destruct (get_enabled ks _) as [k|] eqn:Eg; [|done]. injection Hr as <-. cbn. split; [|lia].
    unfold get_enabled in Eg. destruct (ks_keys ks !! k_key_id (cn_key c)) as [k0|] eqn:Ek; cbn in Eg; [|done].
    destruct (k_disabled k0); [done|]. injection Eg as <-. rewrite (Hid _ _ Ek). eauto.
  - by split_and!.
  - split; [by eapply live_step_mono|]. split; [by eapply live_step_ids|]. cbn [snd].
    destruct ph as [|k f|c|]; try done.
    + destruct Hph as [k' Hk]. destruct (live_step_key _ _ _ _ Hl H0 Hk) as (_ & k2 & Hk2 & _). eauto.
    + destruct Hph as [[k' Hk] He]. destruct (live_step_key _ _ _ _ Hl H0 Hk) as (Hm & k2 & Hk2 & _). split; [eauto|cbn; lia].
Qed.

(** An open connection whose key was disabled after the epoch it has seen. *)
Definition cut_off (c : conn) (st : key_store * phase) : Prop :=
  0 <= ks_revocations st.1 /\ cn_epoch c < ks_revocations st.1 /\
  (exists k, ks_keys st.1 !! k_key_id (cn_key c) = Some k /\ k_disabled k = true) /\
  (st.2 = Closed \/ st.2 = Open c).

Lemma cut_off_recheck c ks ph : cut_off c (ks, ph) -> recheck AuthRequired ks c = None.
Proof.
  intros (_ & He & (k & Hk & Hd) & _). cbn in *. unfold recheck. rewrite (proj2 (Z.eqb_neq _ _)) by lia.
  unfold get_enabled. rewrite Hk. cbn. by rewrite Hd.
Qed.

Lemma cut_off_step c st st' : conn_step AuthRequired st st' -> cut_off c st -> cut_off c st'.
Proof.
  intros Hs Hc. pose proof Hc as (H0 & He & (k & Hk & Hd) & Hph).
  destruct Hs as [ks magic f tok tl k' Hi|ks magic tok tl reply Hi|ks k' f|ks c1 c' Hr|ks c1 Hr|ks ks' ph Hl]; cbn [fst snd] in *;
    try (by destruct Hph).
  - destruct Hph as [?|[= ->]]; [done|]. by rewrite (cut_off_recheck c ks (Open c) Hc) in Hr.
  - split_and!; [done|done|by exists k|by left].
  - destruct (live_step_key _ _ _ _ Hl H0 Hk) as (Hm & k2 & Hk2 & _ & Hd2 & _). split_and!; cbn; [lia|lia| |done].
    exists k2. split; [done|by apply Hd2].
Qed.
End Revocation.

(** ** Requests over the wire *)

Section Requests.
Context {Gz : Gzip} {Hg : Hashing} {H E : Type} `{PartitionHandle H E} (text : server_error -> string).

(** A payload that can be sent: as a frame, and inflated again by the other side. *)
Definition sendable (gzip : bool) (max : Z) (payload : list byte) : Prop :=
  let body := if gzip then compress payload else payload in
  5 + len body <= MAX_FRAME_BYTES /\ 5 + len body <= max /\ len payload <= max.

Lemma frame_encodes id op body : 5 + len body <= MAX_FRAME_BYTES ->
  encode_frame id op body = Some (to_be 4 (4 + 1 + len body) ++ to_be 4 id ++ to_be 1 (opcode_u8 op) ++ body).
Proof.
  intros Hl. unfold encode_frame, MAX_FRAME_BYTES in *. pose proof (len_nonneg body).
  by rewrite (proj2 (Z.ltb_lt _ _)), (proj2 (Z.leb_le _ _)) by lia.
Qed.

(** The server and the client read the same frames. *)
Lemma read_request_frame max id op body frame :
  is_u 32 id -> encode_frame id op body = Some frame -> 5 + len body <= max ->
  read_request max frame = Ok (id, op, body, []).
Proof.
  intros Hid Hf Hm. pose proof (read_frame_encode max id op body frame [] Hid Hf Hm) as Hr. rewrite app_nil_r in Hr.
  unfold read_frame, read_request in *. destruct (stream_read FrameIo get_u32 frame) as [[total l]|e|]; cbn in *; [|done..].
  destruct (negb _); [done|]. destruct (stream_read FrameIo get_u32 l) as [[rid l1]|e|]; cbn in *; [|done..].
  destruct (stream_read FrameIo get_u8 l1) as [[o l2]|e|]; cbn in *; [|done..].
  destruct (opcode_from_u8 o); [|done]. by destruct (stream_read FrameIo (get_bytes (total - 5)) l2) as [[pl l3]|e|].
Qed.

Lemma inflate_back (gzip : bool) payload cap :
  len payload <= cap -> (if gzip then decompress (if gzip then compress payload else payload) cap
                  else Ok (if gzip then compress payload else payload)) = Ok payload.
Proof. intros Hl. destruct gzip; [by apply decompress_compress|done]. Qed.

Lemma peek_back (gzip : bool) payload :
  peek_topic (if gzip then compress payload else payload) gzip = Wire.decode get_str payload.
Proof. unfold peek_topic, compress. destruct gzip; [by rewrite gz_law|done]. Qed.

(** A response the server sends is read back by the client. *)
Lemma response_back c id op body :
  is_u 32 id -> sendable (cl_gzip c) MAX_FRAME_BYTES body ->
  take_response c id (respond text id op body (cl_gzip c)) = Ok (op, body).
Proof.
  intros Hid (Hb & _ & Hp). unfold respond. rewrite (frame_encodes id op _ Hb).
  unfold take_response, client_read_frame.
  pose proof (read_frame_encode MAX_FRAME_BYTES id op (if cl_gzip c then compress body else body) _ [] Hid (frame_encodes id op _ Hb) Hb) as Hr.
  rewrite app_nil_r in Hr. rewrite Hr. cbn [map_err mbind outcome_bind].
  pose proof (inflate_back (cl_gzip c) body MAX_FRAME_BYTES Hp) as Hi.
  assert ((if cl_gzip c then decompress (if cl_gzip c then compress body else body) MAX_FRAME_BYTES
           else Ok (if cl_gzip c then compress body else body)) = Ok body) as -> by exact Hi.
  cbn [map_err mbind outcome_bind]. by rewrite Z.eqb_refl.
Qed.

(** A produce or consume request as the server runs it: handed to [process] with
    the payload the client encoded. *)
Lemma round_trip_run mode sc sc' c op payload env (b : broker (H := H)) topic :
  op = OpProduce \/ op = OpConsume -> is_u 32 (cl_next_request_id c) -> cl_gzip c = cn_gzip sc ->
  recheck mode (b_keys b) sc = Some sc' -> cn_gzip sc' = cn_gzip sc ->
  sendable (cl_gzip c) (max_request_bytes (b_max_record_bytes b)) payload -> Wire.decode get_str payload = Ok topic ->
  let c' := (next_id c).2 in let id := cl_next_request_id c in
  round_trip text mode sc c op payload env b =
    if can (cn_key sc') (match op with OpProduce => ActWrite | _ => ActRead end) topic then
      match process text (cn_key sc') op (if cl_gzip c then compress payload else payload) (cl_gzip c)
              (max_request_bytes (b_max_record_bytes b)) env b with
      | (Some (op, body), b) => (Ok (respond text id op body (cl_gzip c), id, Some sc'), c', b)
      | (None, b) => (Ok ([], id, Some sc'), c', b)
      end
    else (Ok (error_frame id (text (NoAccess (k_key_id (cn_key sc')) (bool_decide (op = OpProduce)) topic)) (cl_gzip c),
              id, Some sc'), c', b).
Proof.
  intros Hop Hid Hgz Hre Hgz' (Hs1 & Hs2 & _) Ht c' id. unfold round_trip, next_id, write_frame. cbn [cl_gzip].
  rewrite (frame_encodes _ op _ Hs1). cbn [ok_or].
  rewrite (read_request_frame _ _ op _ _ Hid (frame_encodes _ op _ Hs1) Hs2). unfold handle_frame. rewrite Hre.
  unfold triage. rewrite Hgz', <- Hgz, peek_back, Ht. fold id.
  destruct Hop as [-> | ->]; (destruct (can (cn_key sc') _ topic); [|reflexivity]);
    destruct (process text _ _ _ _ _ _ _) as [[[o bd]|] b']; reflexivity.
Qed.

Lemma request_back `{Codec A} (a : A) : c_fits a -> Wire.decode c_get (c_put a) = Ok a.
Proof. intros Ha. pose proof (codec_roundtrip a [] Ha) as Hr. by rewrite app_nil_r in Hr. Qed.

Lemma produce_topic_head q : produce_request_ok q -> Wire.decode get_str (encode_produce_request q) = Ok (wq_topic q).
Proof. intros Hq. apply produce_topic_first. exact (request_back q Hq). Qed.

Lemma consume_topic_head q : consume_request_ok q -> Wire.decode get_str (encode_consume_request q) = Ok (wc_topic q).
Proof. intros Hq. apply consume_topic_first. exact (request_back q Hq). Qed.

Lemma process_produce k q (gzip : bool) max env (b : broker (H := H)) :
  produce_request_ok q -> len (encode_produce_request q) <= max ->
  process text k OpProduce (if gzip then compress (encode_produce_request q) else encode_produce_request q) gzip max env b =
    match produce k (wq_topic q) (of_wire <$> wq_records q) (wq_producer_id q) (re_produce env) b with
    | (Ok out, b) => (Some (OpProduceOk, encode_produce_response (to_wire <$> out)), b)
    | (Err e, b) => (Some (OpError, as_bytes (text (DataRefused e))), b)
    | (Panic, b) => (None, b)
    end.
Proof.
  intros Hq Hl. unfold process. rewrite (inflate_back gzip _ _ Hl).
  assert (decode_produce_request (encode_produce_request q) = Ok q) as -> by exact (request_back q Hq). done.
Qed.

Lemma process_consume k q (gzip : bool) max env (b : broker (H := H)) :
  consume_request_ok q -> len (encode_consume_request q) <= max ->
  process text k OpConsume (if gzip then compress (encode_consume_request q) else encode_consume_request q) gzip max env b =
    match consume k (wc_topic q) (wc_partition q) (wc_offset q) (wc_max_records q) (wc_max_bytes q) (re_instant env) (re_instant' env) b with
    | (Ok f, b) => (Some (OpConsumeOk, encode_consume_response (mkWCRes (wire_of_record (wc_partition q) <$> f_records f)
                      (f_next_offset f) (f_high_watermark f))), b)
    | (Err e, b) => (Some (OpError, as_bytes (text (DataRefused e))), b)
    | (Panic, b) => (None, b)
    end.
Proof.
  intros Hq Hl. unfold process. rewrite (inflate_back gzip _ _ Hl).
  assert (decode_consume_request (encode_consume_request q) = Ok q) as -> by exact (request_back q Hq).
  destruct (consume _ _ _ _ _ _ _ _ b) as [[f|e|] b']; [|done|done]. by rewrite encode_consume_direct.
Qed.
End Requests.

(** ** Properties *)

Section Claims.
Context {Gz : Gzip} {Hg : Hashing} {H E : Type} `{PartitionHandle H E}.

(** After the handshake both ends agree.  The server reads the token and
    features the client sent.  Without authentication it runs as the anonymous
    administrator; with it, exactly as the key whose secret the token is, and
    otherwise the client learns that the handshake failed.  When it succeeds, the
    client asked for compression if and only if both ends use it, and the
    connection has seen the revocations there were when it was opened. *)
Theorem handshake_agrees mode ks ks' token want :
  len (as_bytes token) <= MAX_TOKEN -> utf8_valid (as_bytes token) = true ->
  exists features, read_handshake (client_hello token want) = Ok (WIRE_MAGIC, features, as_bytes token, false, []) /\
  match identify mode ks WIRE_MAGIC (as_bytes token) false with
  | inl reply => mode = AuthRequired /\ (token = ""%string \/ authenticate ks token = None) /\
      exists st, client_reply want reply = Err (HandshakeFailed st)
  | inr k =>
    (mode = AuthDisabled /\ k = ANONYMOUS_ADMIN \/ mode = AuthRequired /\ authenticate ks token = Some k) /\
    let (reply, c) := negotiate ks' k features in
    client_reply want reply = Ok (want, []) /\ cn_gzip c = want /\ cn_key c = k /\ cn_epoch c = ks_revocations ks'
  end.
Proof.
  intros Hl Hu. exists (if want then FEATURE_GZIP else 0). pose proof (read_handshake_hello token want [] Hl) as Hr.
  rewrite app_nil_r in Hr. split; [done|]. unfold identify. rewrite bool_decide_true by done. cbn [negb].
  unfold from_utf8_or_default. rewrite Hu, of_as_bytes.
  assert (forall k, let (reply, c) := negotiate ks' k (if want then FEATURE_GZIP else 0) in
    client_reply want reply = Ok (want, []) /\ cn_gzip c = want /\ cn_key c = k /\ cn_epoch c = ks_revocations ks') as Hn.
  { intros k. unfold negotiate. split; [|by destruct want].
    pose proof (client_reply_write want StOk (Z.land (if want then FEATURE_GZIP else 0) FEATURE_GZIP) "" []) as Hc.
    rewrite app_nil_r in Hc. rewrite Hc; [by destruct want|destruct want; vm_compute; split; congruence|vm_compute; congruence]. }
  assert (forall st msg, st <> StOk -> len (as_bytes msg) <= MAX_HANDSHAKE_MSG ->
    client_reply want (write_handshake st 0 msg) = Err (HandshakeFailed st)) as Hf.
  { intros st msg Hst Hm. pose proof (client_reply_write want st 0 msg []) as Hc. rewrite app_nil_r in Hc.
    rewrite Hc; [by rewrite bool_decide_false|split; lia|done]. }
  destruct mode; [split; [by left|apply Hn]|]. case_bool_decide as Ht.
  - split_and!; [done|by left|]. eexists. apply Hf; [done|vm_compute; congruence].
  - destruct (authenticate ks token) as [k|] eqn:Ea; [split; [by right|apply Hn]|].
    split_and!; [done|by right|]. eexists. apply Hf; [done|vm_compute; congruence].
Qed.

(** Producing through the client is producing on the broker.  On a connection
    whose key may write the topic, the client's call has the effect of the data
    plane's [produce] with the records as given and the key of the connection, and
    returns its answers; a refusal comes back as the server's error.  Compressed or
    not, messages have to fit into a frame. *)
Theorem remote_produce_is_local text mode sc sc' c q env (b : broker (H := H)) :
  is_u 32 (cl_next_request_id c) -> cl_gzip c = cn_gzip sc ->
  recheck mode (b_keys b) sc = Some sc' -> can (cn_key sc') ActWrite (wq_topic q) = true ->
  produce_request_ok q -> sendable (cl_gzip c) (max_request_bytes (b_max_record_bytes b)) (encode_produce_request q) ->
  let call := round_trip text mode sc c OpProduce (encode_produce_request q) env b in
  match produce (cn_key sc') (wq_topic q) (of_wire <$> wq_records q) (wq_producer_id q) (re_produce env) b with
  | (Ok out, b') =>
    let body := encode_produce_response (to_wire <$> out) in
    is_u 32 (len out) -> Forall produce_result_ok (to_wire <$> out) -> sendable (cl_gzip c) MAX_FRAME_BYTES body ->
    exists resp id c', call = (Ok (resp, id, Some sc'), c', b') /\ produce_answer c' id resp = Ok (to_wire <$> out)
  | (Err e, b') =>
    let body := as_bytes (text (DataRefused e)) in
    sendable (cl_gzip c) MAX_FRAME_BYTES body ->
    exists resp id c', call = (Ok (resp, id, Some sc'), c', b') /\ produce_answer c' id resp = Err (CServer body)
  | (Panic, b') => exists id c', call = (Ok ([], id, Some sc'), c', b')
  end.
Proof.
  intros Hid Hgz Hre Hcan Hq Hs call.
  assert (cn_gzip sc' = cn_gzip sc) as Hgz'.
  { unfold recheck in Hre. destruct mode; [by injection Hre as <-|]. case_if_in Hre; [by injection Hre as <-|].
    destruct (get_enabled _ _); [by injection Hre as <-|done]. }
  assert (call = match produce (cn_key sc') (wq_topic q) (of_wire <$> wq_records q) (wq_producer_id q) (re_produce env) b with
    | (Ok out, b') => (Ok (respond text (cl_next_request_id c) OpProduceOk (encode_produce_response (to_wire <$> out)) (cl_gzip c),
                           cl_next_request_id c, Some sc'), (next_id c).2, b')
    | (Err e, b') => (Ok (respond text (cl_next_request_id c) OpError (as_bytes (text (DataRefused e))) (cl_gzip c),
                          cl_next_request_id c, Some sc'), (next_id c).2, b')
    | (Panic, b') => (Ok ([], cl_next_request_id c, Some sc'), (next_id c).2, b')
    end) as Hcall.
  { unfold call. rewrite (round_trip_run text mode sc sc' c OpProduce _ env b (wq_topic q)); [|by left|done|done|done|done|done|by apply produce_topic_head].
    rewrite Hcan, process_produce by (done || apply Hs). by destruct (produce _ _ _ _ _ b) as [[out|e|] b']. }
  destruct (produce _ _ _ _ _ b) as [[out|e|] b'].
  - intros body H1 H2 H3. eexists _, _, _. split; [exact Hcall|]. unfold produce_answer.
    rewrite (response_back text (next_id c).2) by done. cbn [mbind outcome_bind].
    assert (decode_produce_response (encode_produce_response (to_wire <$> out)) = Ok (to_wire <$> out)) as ->; [|done].
    refine (request_back (to_wire <$> out) (conj _ H2)). by rewrite len_fmap.
  - intros body H1. eexists _, _, _. split; [exact Hcall|]. unfold produce_answer. by rewrite (response_back text (next_id c).2) by done.
  - eexists _, _. exact Hcall.
Qed.


End Claims.

(** ** Witnesses *)

Section ServerWitnesses.
#[local] Existing Instance crc32_ieee_class.
#[local] Existing Instance gzip_stored.
#[local] Existing Instance toy_hashing.

Lemma handshake_agrees_witness :
  exists c, (negotiate tenant_store tenant_key FEATURE_GZIP).2 = c /\ cn_gzip c = true /\
    read_handshake (client_hello tenant_secret true) =
      Ok (WIRE_MAGIC, FEATURE_GZIP, as_bytes tenant_secret, false, []) /\
    client_reply true (negotiate tenant_store tenant_key FEATURE_GZIP).1 = Ok (true, []).
Proof.
  destruct (handshake_agrees AuthRequired tenant_store tenant_store tenant_secret true) as (f & Hr & Hm);
    [vm_compute; congruence|vm_compute; reflexivity|].
  assert (f = FEATURE_GZIP) as -> by (vm_compute in Hr; injection Hr as <-; reflexivity).
  assert (identify AuthRequired tenant_store WIRE_MAGIC (as_bytes tenant_secret) false = inr tenant_key) as Hi
    by (vm_compute; reflexivity).
  rewrite Hi in Hm. destruct Hm as [_ Hm]. destruct (negotiate tenant_store tenant_key FEATURE_GZIP) as [reply c].
  destruct Hm as (H1 & H2 & _). exists c. by split_and!.
Defined.

(** Revoking a key during the handshake: the key is read before the epoch, so the
    connection opens with the new epoch and the old key, and is never cut off. *)
Example revoked_during_handshake_is_served :
  let ks1 := (revoke_key tenant_store tenant_id true).2 in
  identify AuthRequired tenant_store WIRE_MAGIC (as_bytes tenant_secret) false = inr tenant_key /\
  get_enabled ks1 tenant_id = None /\
  let c := (negotiate ks1 tenant_key 0).2 in
  recheck AuthRequired ks1 c = Some c /\ can (cn_key c) ActRead "orders.eu" = true.
Proof.
  intros ks1. split; [vm_compute; reflexivity|]. split; [vm_compute; reflexivity|]. intros c.
  split; vm_compute; reflexivity.
Qed.


Definition demo_pipeline : pipeline :=
  run_task (spawn_task (run_task (spawn_task (spawn_task pipeline_new true "a") true "b") 1) true "a") 0.

Definition demo_request : produce_request :=
  mkWPReq "t" (Some "p"%string) [mkWPR (Some [x01]) [x0a] None (Some 7); mkWPR None [x0b] (Some 1) (Some 3);
                        mkWPR None [x0c] (Some 1) (Some 4)].
Definition demo_text (e : server_error) : string := "error"%string.

Lemma demo_request_ok : produce_request_ok demo_request.
Proof.
  split_and!; [reflexivity|vm_compute; split; congruence|split; [reflexivity|vm_compute; congruence]
    |vm_compute; split; congruence|].
  constructor; [|constructor; [|constructor; [|constructor]]];
    (split; [reflexivity|]; split; [vm_compute; split; congruence|]; split; [cbn; lia|];
     intros n E; injection E as <-; split; [unfold is_i; lia|discriminate]).
Qed.

Lemma remote_produce_is_local_witness :
  exists resp id c' b', round_trip demo_text AuthDisabled (mkConn demo_key 0 true) (mkClient 1 true) OpProduce
      (encode_produce_request demo_request) (mkReqEnv demo_env 0 0) demo_broker =
      (Ok (resp, id, Some (mkConn demo_key 0 true)), c', b') /\
    produce_answer c' id resp = Ok [mkWPRes 0 0 false; mkWPRes 1 0 false; mkWPRes 1 1 false].
Proof.
  pose proof (remote_produce_is_local demo_text AuthDisabled (mkConn demo_key 0 true) (mkConn demo_key 0 true)
    (mkClient 1 true) demo_request (mkReqEnv demo_env 0 0) demo_broker) as Hr.
  destruct demo_produced as [b1 Eq].
  change (of_wire <$> wq_records demo_request) with demo_records in Hr. cbn [wq_topic wq_producer_id demo_request cn_key re_produce] in Hr.
  rewrite Eq in Hr. destruct Hr as (resp & id & c' & Hc & Ha).
  - vm_compute. split; congruence.
  - reflexivity.
  - reflexivity.
  - reflexivity.
  - exact demo_request_ok.
  - split_and!; vm_compute; congruence.
  - vm_compute. split; congruence.
  - repeat constructor; vm_compute; congruence.
  - split_and!; vm_compute; congruence.
  - exists resp, id, c', b1. split; [exact Hc|exact Ha].
Defined.
End ServerWitnesses.
