(* ===== verification/Pipelined.v ===== *)
(** * The pipelined client (binary/pipelined.rs)

    Many callers share a connection: each registers its request id, writes its frame
    under a lock and waits for its own channel; a reader hands every response to the
    caller whose id it carries, and tells all callers when it stops.  Callers,
    reader and server run in any order.  What the server does with a request is the
    parameter [answers]. *)

From S2P Require Export ServerSpec.

#[local] Open Scope Z_scope.

(** What a caller finds in its channel. *)
Inductive mail : Type := MFrame (op : opcode) (body : list byte) | MFailed (why : string) | MDropped.

(** What [round_trip] returns. *)
Inductive call_result : Type :=
| RAnswer (op : opcode) (body : list byte)
| RServerError (message : list byte)
| RConnection (why : string)
| RClosed
| RRefused.

Inductive call_phase : Type := Preparing | Waiting | Returned (r : call_result).

Record call : Type := mkCall {
  ca_id : Z; ca_op : opcode; ca_payload : list byte; ca_mail : option mail; ca_phase : call_phase }.

(** [Inner]: [pi_pending] maps a request id to the number of the call that waits for
    it; [pi_sent] are the frames on their way to the server, [pi_inbox] the bytes on
    their way back. *)
Record pinner : Type := mkInner {
  pi_next_id : Z; pi_gzip : bool; pi_pending : gmap Z nat; pi_calls : list call; pi_reader : bool;
  pi_sent : list (list byte); pi_inbox : list byte }.

Definition set_mail (m : mail) (c : call) : call :=
  mkCall (ca_id c) (ca_op c) (ca_payload c) (match ca_mail c with Some first => Some first | None => Some m end) (ca_phase c).
Definition set_phase (p : call_phase) (c : call) : call :=
  mkCall (ca_id c) (ca_op c) (ca_payload c) (ca_mail c) p.

Section Client.
Context `{!Gzip}.

Definition connected (gzip : bool) : pinner := mkInner 1 gzip ∅ [] true [] [].

Definition with_calls (i : pinner) (pending : gmap Z nat) (calls : list call) : pinner :=
  mkInner (pi_next_id i) (pi_gzip i) pending calls (pi_reader i) (pi_sent i) (pi_inbox i).

(** The first part of [round_trip]: a new id and a channel.  An entry that is replaced
    loses its sender. *)
Definition begin_call (i : pinner) (op : opcode) (payload : list byte) : pinner :=
  let id := pi_next_id i in
  let calls := match pi_pending i !! id with Some k => alter (set_mail MDropped) k (pi_calls i) | None => pi_calls i end in
  mkInner (wrap_u 32 (id + 1)) (pi_gzip i) (<[id := length (pi_calls i)]> (pi_pending i))
    (calls ++ [mkCall id op payload None Preparing]) (pi_reader i) (pi_sent i) (pi_inbox i).

(** The frame is encoded and written; if either fails the entry is removed. *)
Definition send_call (i : pinner) (k : nat) (write_works : bool) : pinner :=
  match pi_calls i !! k with
  | Some c =>
    match encode_frame (ca_id c) (ca_op c) (if pi_gzip i then compress (ca_payload c) else ca_payload c) with
    | Some frame =>
      if write_works then
        mkInner (pi_next_id i) (pi_gzip i) (pi_pending i) (alter (set_phase Waiting) k (pi_calls i)) (pi_reader i)
          (pi_sent i ++ [frame]) (pi_inbox i)
      else with_calls i (delete (ca_id c) (pi_pending i)) (alter (set_phase (Returned RRefused)) k (pi_calls i))
    | None => with_calls i (delete (ca_id c) (pi_pending i)) (alter (set_phase (Returned RRefused)) k (pi_calls i))
    end
  | None => i
  end.

Definition result_of (m : mail) : call_result :=
  match m with
  | MFrame OpError body => RServerError body
  | MFrame op body => RAnswer op body
  | MFailed why => RConnection why
  | MDropped => RClosed
  end.

(** The end of [round_trip]. *)
Definition take_mail (i : pinner) (k : nat) : pinner :=
  match pi_calls i !! k with
  | Some c =>
    match ca_phase c, ca_mail c with
    | Waiting, Some m => with_calls i (pi_pending i) (alter (set_phase (Returned (result_of m))) k (pi_calls i))
    | _, _ => i
    end
  | None => i
  end.

(** [fail_all] *)
Definition fail_all (i : pinner) (why : string) : pinner :=
  with_calls i ∅ (imap (fun k c => if bool_decide (pi_pending i !! ca_id c = Some k) then set_mail (MFailed why) c else c) (pi_calls i)).

Definition stop_reader (i : pinner) (why : string) : pinner :=
  let i := fail_all i why in
  mkInner (pi_next_id i) (pi_gzip i) (pi_pending i) (pi_calls i) false (pi_sent i) (pi_inbox i).

Definition deliver_frame (i : pinner) (id : Z) (op : opcode) (body : list byte) (rest : list byte) : pinner :=
  let calls := match pi_pending i !! id with Some k => alter (set_mail (MFrame op body)) k (pi_calls i) | None => pi_calls i end in
  mkInner (pi_next_id i) (pi_gzip i) (delete id (pi_pending i)) calls (pi_reader i) (pi_sent i) rest.

(** One turn of [reader_loop]. *)
Definition reader_turn (i : pinner) : pinner :=
  match read_frame MAX_FRAME_BYTES (pi_inbox i) with
  | Ok (id, op, payload, rest) =>
    match (if pi_gzip i then decompress payload MAX_FRAME_BYTES else Ok payload) with
    | Ok body => deliver_frame i id op body rest
    | _ => stop_reader i "connection closed"
    end
  | _ => stop_reader i "connection closed"
  end.

(** [shutdown]: the reader is cancelled and joined, then everyone left is told. *)
Definition cancel_reader (i : pinner) : pinner := if pi_reader i then stop_reader i "connection closed" else i.
Definition shutdown_client (i : pinner) : pinner := fail_all (cancel_reader i) "client shutdown".

(** ** Runs *)

Context (answers : opcode -> list byte -> opcode -> list byte -> Prop).

Inductive client_step : pinner -> pinner -> Prop :=
| SBegin i op payload : client_step i (begin_call i op payload)
| SSend i k c ok : pi_calls i !! k = Some c -> ca_phase c = Preparing -> client_step i (send_call i k ok)
| STake i k : client_step i (take_mail i k)
| SRead i : pi_reader i = true -> client_step i (reader_turn i)
| SCancel i : client_step i (cancel_reader i)
| SShutdown i : client_step i (fail_all i "client shutdown")
| SServe i frame id op body payload op' body' resp :
    frame ∈ pi_sent i -> read_frame MAX_FRAME_BYTES frame = Ok (id, op, body, []) ->
    (if pi_gzip i then decompress body MAX_FRAME_BYTES else Ok body) = Ok payload -> answers op payload op' body' ->
    encode_frame id op' (if pi_gzip i then compress body' else body') = Some resp ->
    client_step i (mkInner (pi_next_id i) (pi_gzip i) (pi_pending i) (pi_calls i) (pi_reader i) (pi_sent i) (pi_inbox i ++ resp)).

(** ** The invariant *)

(** What does not change of a call. *)
Definition request_of (c : call) : Z * opcode * list byte := (ca_id c, ca_op c, ca_payload c).
Definition requests (i : pinner) : list (Z * opcode * list byte) := request_of <$> pi_calls i.

Definition packed (i : pinner) (body : list byte) : list byte := if pi_gzip i then compress body else body.

(** A call has only been told what the server made of its own request. *)
Record call_ok (c : call) : Prop := {
  ck_mail : forall op body, ca_mail c = Some (MFrame op body) -> answers (ca_op c) (ca_payload c) op body;
  ck_answer : forall op body, ca_phase c = Returned (RAnswer op body) -> answers (ca_op c) (ca_payload c) op body;
  ck_error : forall body, ca_phase c = Returned (RServerError body) -> answers (ca_op c) (ca_payload c) OpError body }.

(** A response on its way: the answer to some call. *)
Definition response_ok (i : pinner) (resp : list byte) : Prop :=
  exists k id op payload op' body', requests i !! k = Some (id, op, payload) /\ answers op payload op' body' /\
    encode_frame id op' (packed i body') = Some resp.

Record pinv (i : pinner) : Prop := {
  pv_next : pi_next_id i = wrap_u 32 (1 + len (requests i));
  pv_ids : forall k id op payload, requests i !! k = Some (id, op, payload) -> id = wrap_u 32 (1 + Z.of_nat k);
  pv_pending : forall id k, pi_pending i !! id = Some k -> exists op payload, requests i !! k = Some (id, op, payload);
  pv_sent : forall frame, frame ∈ pi_sent i -> exists k id op payload,
    requests i !! k = Some (id, op, payload) /\ encode_frame id op (packed i payload) = Some frame;
  pv_inbox : exists rs, pi_inbox i = concat rs /\ Forall (response_ok i) rs;
  pv_calls : Forall call_ok (pi_calls i) }.

Lemma requests_alter f (k : nat) (calls : list call) :
  (forall c, request_of (f c) = request_of c) -> request_of <$> alter f k calls = request_of <$> calls.
Proof.
  intros Hf. apply list_eq. intros j. rewrite !list_lookup_fmap, list_lookup_alter. case_decide; [|done]. subst.
  destruct (calls !! j) as [c|]; [|done]. cbn. by rewrite Hf.
Qed.

Lemma calls_alter f (k : nat) (calls : list call) : (forall c, calls !! k = Some c -> call_ok c -> call_ok (f c)) -> Forall call_ok calls -> Forall call_ok (alter f k calls).
Proof.
  intros Hf Hc. apply Forall_lookup. intros j c Hj. rewrite Forall_lookup in Hc. destruct (decide (j = k)) as [->|Hne].
  - rewrite list_lookup_alter_eq in Hj. apply fmap_Some in Hj as (c0 & H0 & ->). by apply Hf, (Hc k).
  - rewrite list_lookup_alter_ne in Hj by done. by apply (Hc j).
Qed.

(** Changes that leave the requests and what is on the wire. *)
Lemma pinv_calls i pending calls reader :
  pinv i -> request_of <$> calls = requests i -> Forall call_ok calls ->
  (forall id k, pending !! id = Some k -> pi_pending i !! id = Some k) ->
  pinv (mkInner (pi_next_id i) (pi_gzip i) pending calls reader (pi_sent i) (pi_inbox i)).
Proof.
  intros [H1 H2 H3 H4 H5 H6] Er Hc Hp. split; unfold requests, response_ok in *; cbn in *; rewrite ?Er; try done.
  intros id k Hk. by apply H3, Hp.
Qed.

Lemma call_ok_mail c m : call_ok c -> (forall op body, m = MFrame op body -> answers (ca_op c) (ca_payload c) op body) -> call_ok (set_mail m c).
Proof.
  intros [H1 H2 H3] Hm. split; cbn; try done. intros op body Hx. destruct (ca_mail c) eqn:Em.
  - apply H1. congruence.
  - injection Hx as ->. by apply Hm.
Qed.

Lemma call_ok_phase c p :
  call_ok c -> (forall op body, p = Returned (RAnswer op body) -> answers (ca_op c) (ca_payload c) op body) ->
  (forall body, p = Returned (RServerError body) -> answers (ca_op c) (ca_payload c) OpError body) -> call_ok (set_phase p c).
Proof. intros [H1 H2 H3] Ha He. by split. Qed.

(** Fewer than 2^32 calls have different ids. *)
Lemma ids_unique i k k' id op payload op' payload' :
  pinv i -> len (pi_calls i) <= 2 ^ 32 -> requests i !! k = Some (id, op, payload) ->
  requests i !! k' = Some (id, op', payload') -> k = k'.
Proof.
  intros Hi Hl Hk Hk'. pose proof (pv_ids _ Hi _ _ _ _ Hk) as E1. pose proof (pv_ids _ Hi _ _ _ _ Hk') as E2.
  apply lookup_lt_Some in Hk, Hk'. unfold requests in Hk, Hk'. rewrite length_fmap in Hk, Hk'. unfold len in Hl.
  rewrite E2 in E1. unfold wrap_u in E1.
  destruct (decide (1 + Z.of_nat k = 2 ^ 32)), (decide (1 + Z.of_nat k' = 2 ^ 32)); [lia|..];
    repeat match goal with H : 1 + Z.of_nat _ = _ |- _ => rewrite H in E1 end;
    rewrite ?Z_mod_same_full in E1; rewrite ?(Z.mod_small (1 + _)) in E1 by lia; lia.
Qed.

Lemma encoded_fits id op body frame : encode_frame id op body = Some frame -> 5 + len body <= MAX_FRAME_BYTES.
Proof. unfold encode_frame. destruct (_ && _) eqn:Ef; [|done]. intros _. apply andb_prop in Ef as [_ Ef]. boolp. lia. Qed.

Lemma wrap_id z : is_u 32 (wrap_u 32 z).
Proof. apply wrap_u_range. lia. Qed.

Lemma begin_inv i op payload : pinv i -> pinv (begin_call i op payload).
Proof.
  intros Hi. pose proof Hi as [H1 H2 H3 H4 H5 H6]. unfold begin_call. cbv zeta. set (id := pi_next_id i).
  set (calls := match pi_pending i !! id with Some k => _ | None => _ end).
  assert (request_of <$> calls = requests i) as Ec.
  { unfold calls. destruct (pi_pending i !! id); [|done]. by apply requests_alter. }
  assert (length calls = length (pi_calls i)) as El by (unfold calls; destruct (pi_pending i !! id); [apply length_alter|done]).
  set (i' := mkInner _ _ _ _ _ _ _).
  assert (requests i' = requests i ++ [(id, op, payload)]) as Er by (unfold requests, i'; cbn; by rewrite fmap_app, Ec).
  assert (forall k x, requests i !! k = Some x -> requests i' !! k = Some x) as Hold by (intros; rewrite Er; by apply lookup_app_l_Some).
  assert (length (requests i) = length (pi_calls i)) as Elr by apply length_fmap.
  split.
  - rewrite Er. unfold i'. cbn. unfold id. rewrite H1. unfold wrap_u. rewrite Zplus_mod_idemp_l. f_equal. unfold len.
    rewrite length_app. cbn. lia.
  - intros k x op' payload'. rewrite Er. intros [?|[Hk Hx]]%lookup_app_Some; [by eapply H2|].
    apply list_lookup_singleton_Some in Hx as [Hz Hq]. injection Hq as <- _ _.
    unfold id. rewrite H1. unfold len. do 2 f_equal. lia.
  - intros id' k Hk. change (pi_pending i') with (<[id := length (pi_calls i)]> (pi_pending i)) in Hk.
    apply lookup_insert_Some in Hk as [[<- <-]|[Hne Hk]].
    + exists op, payload. rewrite Er, lookup_app_r, Elr, Nat.sub_diag by lia. done.
    + destruct (H3 _ _ Hk) as (op' & payload' & Hx). exists op', payload'. by apply Hold.
  - intros frame Hf. destruct (H4 frame Hf) as (k & id' & op' & payload' & Hx & He). exists k, id', op', payload'. split; [by apply Hold|done].
  - destruct H5 as (rs & E1 & Hrs). exists rs. split; [done|]. eapply Forall_impl; [done|].
    intros resp (k & id' & op1 & p1 & op2 & b2 & Hx & Ha & He). exists k, id', op1, p1, op2, b2. split_and!; [by apply Hold|done|done].
  - unfold i'. cbn. apply Forall_app. split; [|repeat constructor; cbn; done].
    unfold calls. destruct (pi_pending i !! id); [|done]. apply calls_alter; [|done]. intros c _ Hc. by apply call_ok_mail.
Qed.

Lemma send_inv i k c ok : pinv i -> pi_calls i !! k = Some c -> pinv (send_call i k ok).
Proof.
  intros Hi Hk. pose proof Hi as [H1 H2 H3 H4 H5 H6]. unfold send_call. rewrite Hk.
  assert (forall p, (forall r, p = Returned r -> r = RRefused) ->
    request_of <$> alter (set_phase p) k (pi_calls i) = requests i /\ Forall call_ok (alter (set_phase p) k (pi_calls i))) as Hph.
  { intros p Hp. split; [by apply requests_alter|]. apply calls_alter; [|done]. intros c0 _ Hc.
    apply call_ok_phase; [done|..]; intros * ->; by specialize (Hp _ eq_refl). }
  assert (pinv (with_calls i (delete (ca_id c) (pi_pending i)) (alter (set_phase (Returned RRefused)) k (pi_calls i)))) as Hfail.
  { destruct (Hph (Returned RRefused)) as [E1 E2]; [by intros r [= <-]|]. apply pinv_calls; [done|done|done|].
    by intros id k' [_ ?]%lookup_delete_Some. }
  destruct (encode_frame _ _ _) as [frame|] eqn:Ef; [|done]. destruct ok; [|done].
  destruct (Hph Waiting) as [E1 E2]; [done|].
  pose proof (pinv_calls i (pi_pending i) _ (pi_reader i) Hi E1 E2 ltac:(done)) as Hi'. destruct Hi' as [P1 P2 P3 P4 P5 P6].
  split; try done. cbn. intros f [Hf|Hf]%elem_of_app; [by apply P4|]. apply list_elem_of_singleton in Hf as ->.
  exists k, (ca_id c), (ca_op c), (ca_payload c). split; [|exact Ef]. unfold requests. cbn. rewrite E1. unfold requests.
  by rewrite list_lookup_fmap, Hk.
Qed.

Lemma take_inv i k : pinv i -> pinv (take_mail i k).
Proof.
  intros Hi. unfold take_mail. destruct (pi_calls i !! k) as [c|] eqn:Hk; [|done].
  destruct (ca_phase c), (ca_mail c) as [m|] eqn:Em; try done.
  apply pinv_calls; [done|by apply requests_alter| |done]. apply calls_alter; [|apply Hi]. intros c' Hk' Hc.
  assert (c' = c) as -> by congruence. pose proof (ck_mail _ Hc) as Hm. rewrite Em in Hm.
  apply call_ok_phase; [done|..]; destruct m as [op body| |]; cbn; try done; intros; destruct op; simplify_eq; by apply Hm.
Qed.

Lemma fail_inv i why : pinv i -> pinv (fail_all i why).
Proof.
  intros Hi. apply pinv_calls; [done|..].
  - apply list_eq. intros j. unfold requests. rewrite !list_lookup_fmap, list_lookup_imap.
    destruct (pi_calls i !! j) as [c|]; [|done]. cbn. by case_bool_decide.
  - apply Forall_lookup. intros j c Hj. rewrite list_lookup_imap in Hj. apply fmap_Some in Hj as (c0 & H0 & ->).
    pose proof (pv_calls _ Hi) as Hc. rewrite Forall_lookup in Hc. specialize (Hc j c0 H0).
    case_bool_decide; [|done]. by apply call_ok_mail.
  - intros id k Hk. by rewrite lookup_empty in Hk.
Qed.

Lemma stop_inv i why : pinv i -> pinv (stop_reader i why).
Proof.
  intros Hi. apply (fail_inv i why) in Hi. pose proof Hi as [_ _ _ _ _ Hc].
  by apply (pinv_calls (fail_all i why) (pi_pending (fail_all i why)) (pi_calls (fail_all i why)) false).
Qed.

(** The next response and what the reader makes of it. *)
Lemma reader_inv i : pinv i -> len (pi_calls i) <= 2 ^ 32 -> pinv (reader_turn i).
Proof.
  intros Hi Hl. unfold reader_turn. pose proof (stop_inv i "connection closed" Hi) as Hstop.
  destruct (pv_inbox _ Hi) as (rs & Ei & Hrs). destruct rs as [|resp rs].
  { rewrite Ei. done. }
  inversion Hrs as [|? ? Hresp Hrs' E1]; subst. destruct Hresp as (k & id & op & payload & op' & body' & Hk & Ha & He).
  rewrite Ei. cbn [concat]. pose proof (pv_ids _ Hi _ _ _ _ Hk) as Hid.
  rewrite (read_frame_encode MAX_FRAME_BYTES id op' (packed i body')) ;
    [|rewrite Hid; apply wrap_id|done|by eapply encoded_fits].
  assert ((if pi_gzip i then decompress (packed i body') MAX_FRAME_BYTES else Ok (packed i body')) = Ok body' \/
    exists e, (if pi_gzip i then decompress (packed i body') MAX_FRAME_BYTES else Ok (packed i body')) = Err e) as Hd.
  { unfold packed. destruct (pi_gzip i); [|by left]. unfold decompress, compress. rewrite gz_law.
    destruct (MAX_FRAME_BYTES <? len body'); [right; by eexists|by left]. }
  destruct Hd as [->|[e ->]]; [|done]. unfold deliver_frame.
  set (calls := match pi_pending i !! id with Some k => _ | None => _ end).
  assert (request_of <$> calls = requests i /\ Forall call_ok calls) as [Ec Hc].
  { unfold calls. destruct (pi_pending i !! id) as [k'|] eqn:Ep; [|split; [done|apply Hi]].
    split; [by apply requests_alter|]. apply calls_alter; [|apply Hi]. intros c Hk' Hc.
    destruct (pv_pending _ Hi _ _ Ep) as (op2 & p2 & Hx). pose proof (ids_unique i k' k _ _ _ _ _ Hi Hl Hx Hk) as ->.
    apply call_ok_mail; [done|]. intros op3 b3 [= <- <-]. unfold requests in Hk. rewrite list_lookup_fmap, Hk' in Hk.
    cbn in Hk. injection Hk as _ <- <-. done. }
  pose proof (pinv_calls i (delete id (pi_pending i)) calls (pi_reader i) Hi Ec Hc
    ltac:(by intros ? ? [_ ?]%lookup_delete_Some)) as [P1 P2 P3 P4 P5 P6].
  split; try done. cbn. exists rs. split; [done|]. eapply Forall_impl; [done|].
  intros r. unfold response_ok, requests. cbn. by rewrite Ec.
Qed.

Lemma serve_inv i frame id op body payload op' body' resp :
  pinv i -> frame ∈ pi_sent i -> read_frame MAX_FRAME_BYTES frame = Ok (id, op, body, []) ->
  (if pi_gzip i then decompress body MAX_FRAME_BYTES else Ok body) = Ok payload -> answers op payload op' body' ->
  encode_frame id op' (packed i body') = Some resp ->
  pinv (mkInner (pi_next_id i) (pi_gzip i) (pi_pending i) (pi_calls i) (pi_reader i) (pi_sent i) (pi_inbox i ++ resp)).
Proof.
  intros Hi Hf Hr Hd Ha He. destruct (pv_sent _ Hi frame Hf) as (k & id' & op1 & p1 & Hk & Hfr).
  pose proof (pv_ids _ Hi _ _ _ _ Hk) as Hid.
  pose proof (read_frame_encode MAX_FRAME_BYTES id' op1 (packed i p1) frame []) as Hx. rewrite app_nil_r in Hx.
  rewrite Hx in Hr; [|rewrite Hid; apply wrap_id|done|by eapply encoded_fits].
  injection Hr as <- <- <-.
  assert (payload = p1) as ->.
  { unfold packed in Hd. destruct (pi_gzip i); [|congruence]. unfold decompress, compress in Hd. rewrite gz_law in Hd.
    destruct (_ <? _); [done|]. congruence. }
  destruct Hi as [H1 H2 H3 H4 H5 H6]. split; try done. cbn. destruct H5 as (rs & -> & Hrs). exists (rs ++ [resp]).
  rewrite concat_app. cbn. rewrite app_nil_r. split; [done|]. apply Forall_app. split; [done|]. constructor; [|done].
  by exists k, id', op1, p1, op', body'.
Qed.

Lemma cancel_inv i : pinv i -> pinv (cancel_reader i).
Proof. intros Hi. unfold cancel_reader. destruct (pi_reader i); [by apply stop_inv|done]. Qed.

Lemma client_step_inv i i' : pinv i -> len (pi_calls i) <= 2 ^ 32 -> client_step i i' -> pinv i'.
Proof.
  intros Hi Hl Hs. destruct Hs.
  - by apply begin_inv.
  - by eapply send_inv.
  - by apply take_inv.
  - by apply reader_inv.
  - by apply cancel_inv.
  - by apply fail_inv.
  - by eapply serve_inv.
Qed.

(** ** Nobody is forgotten *)

(** A call that has neither been told anything nor given up is still registered. *)
Definition registered (pending : gmap Z nat) (k : nat) (c : call) : Prop :=
  ca_mail c = None -> ca_phase c = Returned RRefused \/ pending !! ca_id c = Some k.
Definition all_registered (i : pinner) : Prop :=
  forall k c, pi_calls i !! k = Some c -> registered (pi_pending i) k c.

Lemma told_registered pending k m c : registered pending k (set_mail m c).
Proof. intros Hn. cbn in Hn. by destruct (ca_mail c). Qed.

(** Calls of different number have different ids. *)
Lemma other_id i k k' c c' :
  pinv i -> len (pi_calls i) <= 2 ^ 32 -> pi_calls i !! k = Some c -> pi_calls i !! k' = Some c' -> k <> k' -> ca_id c <> ca_id c'.
Proof.
  intros Hi Hl Hk Hk' Hne E1. apply Hne.
  apply (ids_unique i k k' (ca_id c) (ca_op c) (ca_payload c) (ca_op c') (ca_payload c')); [done|done|..];
    unfold requests; rewrite list_lookup_fmap; [by rewrite Hk|rewrite Hk'; cbn; unfold request_of; by rewrite E1].
Qed.

Lemma begin_registered i op payload : pinv i -> all_registered i -> all_registered (begin_call i op payload).
Proof.
  intros Hi Hr k c. unfold begin_call. cbn [pi_calls pi_pending]. set (id := pi_next_id i).
  intros [Hk|[Hlen Hk]]%lookup_app_Some.
  - assert (k <> length (pi_calls i)) as Hne.
    { intros ->. apply lookup_lt_Some in Hk. destruct (_ !! id); rewrite ?length_alter in Hk; lia. }
    destruct (pi_pending i !! id) as [j|] eqn:Ej.
    + destruct (decide (k = j)) as [->|Hkj].
      { rewrite list_lookup_alter_eq in Hk. apply fmap_Some in Hk as (c0 & _ & ->). apply told_registered. }
      rewrite list_lookup_alter_ne in Hk by done. intros Hm. destruct (Hr k c Hk Hm) as [?|Hp]; [by left|right].
      rewrite lookup_insert_ne; [done|congruence].
    + intros Hm. destruct (Hr k c Hk Hm) as [?|Hp]; [by left|right]. rewrite lookup_insert_ne; [done|congruence].
  - apply list_lookup_singleton_Some in Hk as [Hz <-]. intros _. right. cbn. rewrite lookup_insert_eq. f_equal.
    destruct (_ !! id); rewrite ?length_alter in *; lia.
Qed.

Lemma send_registered i k c ok :
  pinv i -> len (pi_calls i) <= 2 ^ 32 -> pi_calls i !! k = Some c -> ca_phase c = Preparing ->
  all_registered i -> all_registered (send_call i k ok).
Proof.
  intros Hi Hl Hk Hph Hr. unfold send_call. rewrite Hk.
  assert (all_registered (with_calls i (delete (ca_id c) (pi_pending i)) (alter (set_phase (Returned RRefused)) k (pi_calls i)))) as Hfail.
  { intros j c' Hj. cbn in *. destruct (decide (j = k)) as [->|Hne].
    - rewrite list_lookup_alter_eq, Hk in Hj. injection Hj as <-. by left.
    - rewrite list_lookup_alter_ne in Hj by done. intros Hm. destruct (Hr j c' Hj Hm) as [?|Hp]; [by left|right].
      rewrite lookup_delete_ne; [done|]. by apply (other_id i k j). }
  destruct (encode_frame _ _ _) as [frame|]; [|done]. destruct ok; [|done].
  intros j c' Hj. cbn in *. destruct (decide (j = k)) as [->|Hne].
  - rewrite list_lookup_alter_eq, Hk in Hj. injection Hj as <-. intros Hm. destruct (Hr k c Hk Hm) as [?|?]; [congruence|by right].
  - rewrite list_lookup_alter_ne in Hj by done. by apply Hr.
Qed.

Lemma take_registered i k : all_registered i -> all_registered (take_mail i k).
Proof.
  intros Hr. unfold take_mail. destruct (pi_calls i !! k) as [c|] eqn:Hk; [|done].
  destruct (ca_phase c), (ca_mail c) as [m|] eqn:Em; try done. intros j c' Hj. cbn in *.
  destruct (decide (j = k)) as [->|Hne].
  - rewrite list_lookup_alter_eq, Hk in Hj. injection Hj as <-. intros Hm. cbn in Hm. congruence.
  - rewrite list_lookup_alter_ne in Hj by done. by apply Hr.
Qed.

(** Once everyone is told, everyone who has not given up has mail. *)
Lemma fail_tells i why k c : all_registered i -> pi_calls (fail_all i why) !! k = Some c -> ca_mail c = None -> ca_phase c = Returned RRefused.
Proof.
  intros Hr Hk Hm. cbn in Hk. rewrite list_lookup_imap in Hk. apply fmap_Some in Hk as (c0 & H0 & ->).
  case_bool_decide as Hp; [by apply (told_registered ∅ k (MFailed why) c0) in Hm as [?|Hx]|].
  by destruct (Hr k c0 H0 Hm).
Qed.

Lemma fail_registered i why : all_registered i -> all_registered (fail_all i why).
Proof. intros Hr k c Hk Hm. left. by eapply fail_tells. Qed.

Lemma cancel_registered i : all_registered i -> all_registered (cancel_reader i).
Proof. intros Hr. unfold cancel_reader. destruct (pi_reader i); [|done]. exact (fail_registered i _ Hr). Qed.

Lemma deliver_registered i id op body rest : pinv i -> all_registered i -> all_registered (deliver_frame i id op body rest).
Proof.
  intros Hi Hr k c. unfold deliver_frame. cbn. destruct (pi_pending i !! id) as [j|] eqn:Ej.
  - destruct (decide (k = j)) as [->|Hkj].
    { rewrite list_lookup_alter_eq. intros (c0 & _ & ->)%fmap_Some. apply told_registered. }
    rewrite list_lookup_alter_ne by done. intros Hk Hm. destruct (Hr k c Hk Hm) as [?|Hp]; [by left|right].
    rewrite lookup_delete_ne; [done|congruence].
  - intros Hk Hm. rewrite delete_id by done. by apply Hr.
Qed.

Lemma reader_registered i : pinv i -> all_registered i -> all_registered (reader_turn i).
Proof.
  intros Hi Hr. pose proof (fail_registered i "connection closed" Hr) as Hstop. unfold reader_turn.
  destruct (read_frame _ _) as [[[[id op] payload] rest]| |]; try exact Hstop.
  destruct (if pi_gzip i then _ else _); try exact Hstop. by apply deliver_registered.
Qed.

Lemma client_step_registered i i' :
  pinv i -> len (pi_calls i) <= 2 ^ 32 -> client_step i i' -> all_registered i -> all_registered i'.
Proof.
  intros Hi Hl Hs Hr. destruct Hs.
  - by apply begin_registered.
  - by eapply send_registered.
  - by apply take_registered.
  - by apply reader_registered.
  - by apply cancel_registered.
  - by apply fail_registered.
  - exact Hr.
Qed.

(** ** Runs keep their requests *)

Lemma fail_requests i why : requests (fail_all i why) = requests i.
Proof.
  apply list_eq. intros j. unfold requests. cbn. rewrite !list_lookup_fmap, list_lookup_imap.
  destruct (pi_calls i !! j) as [c|]; [|done]. cbn. by case_bool_decide.
Qed.

Lemma step_requests i i' : client_step i i' -> requests i `prefix_of` requests i'.
Proof.
  intros Hs. destruct Hs as [i op payload|i k c ok Hk Hp|i k|i Hrd|i|i|].
  - exists [(pi_next_id i, op, payload)]. unfold requests, begin_call. cbn. rewrite fmap_app. f_equal.
    destruct (_ !! _); [by apply requests_alter|done].
  - exists []. rewrite app_nil_r. unfold send_call. rewrite Hk. destruct (encode_frame _ _ _); [destruct ok|]; by apply requests_alter.
  - exists []. rewrite app_nil_r. unfold take_mail. destruct (_ !! k) as [c|]; [|done].
    destruct (ca_phase c), (ca_mail c); try done. by apply requests_alter.
  - exists []. rewrite app_nil_r. unfold reader_turn. destruct (read_frame _ _) as [[[[id op] payload] rest]| |]; try exact (fail_requests i _).
    destruct (if pi_gzip i then _ else _); try exact (fail_requests i _). unfold requests, deliver_frame. cbn.
    destruct (_ !! id); [by apply requests_alter|done].
  - exists []. rewrite app_nil_r. unfold cancel_reader. destruct (pi_reader i); [exact (fail_requests i _)|done].
  - exists []. rewrite app_nil_r. apply fail_requests.
  - exists []. by rewrite app_nil_r.
Qed.

Lemma step_len i i' : client_step i i' -> len (pi_calls i) <= len (pi_calls i').
Proof.
  intros Hs%step_requests%prefix_length. unfold requests in Hs. rewrite !length_fmap in Hs. unfold len. lia.
Qed.

Lemma connected_inv gzip : pinv (connected gzip) /\ all_registered (connected gzip).
Proof.
  split; [|by intros k c Hk]. split; try done.
  - by intros frame Hf%not_elem_of_nil.
  - by exists [].
Qed.

Lemma client_run_inv gzip i : rtc client_step (connected gzip) i -> len (pi_calls i) <= 2 ^ 32 -> pinv i /\ all_registered i.
Proof.
  revert i. apply (rtc_ind_r (fun i => len (pi_calls i) <= 2 ^ 32 -> pinv i /\ all_registered i)).
  { intros _. apply connected_inv. }
  intros i j _ Hjk IH Hl. pose proof (step_len _ _ Hjk). destruct IH as [Hi Hg]; [lia|].
  split; [eapply client_step_inv|eapply client_step_registered]; eauto; lia.
Qed.

(** C33: over a shared connection with up to 2^32 calls, in any interleaving of the
    callers, the reader, the server and a shutdown, a call that returns an answer
    returns the server's answer to its own request, an error the server's error for
    it; and a call that has been told nothing either gave up before its request was
    written or is still registered, so that its response, the end of the reader or a
    shutdown will reach it. *)
Theorem answers_reach_their_callers gzip i k c :
  rtc client_step (connected gzip) i -> len (pi_calls i) <= 2 ^ 32 -> pi_calls i !! k = Some c ->
  (forall op body, ca_phase c = Returned (RAnswer op body) -> answers (ca_op c) (ca_payload c) op body) /\
  (forall body, ca_phase c = Returned (RServerError body) -> answers (ca_op c) (ca_payload c) OpError body) /\
  (ca_mail c = None -> ca_phase c = Returned RRefused \/ pi_pending i !! ca_id c = Some k).
Proof.
  intros Hr Hl Hk. destruct (client_run_inv _ _ Hr Hl) as [Hi Hg]. pose proof (pv_calls _ Hi) as Hc.
  rewrite Forall_lookup in Hc. destruct (Hc k c Hk) as [_ H2 H3]. split_and!; [done|done|by apply Hg].
Qed.

(** After a shutdown nobody who had begun a call is left without mail. *)
Theorem shutdown_tells_everyone gzip i k c :
  rtc client_step (connected gzip) i -> len (pi_calls i) <= 2 ^ 32 -> pi_calls (shutdown_client i) !! k = Some c ->
  ca_mail c = None -> ca_phase c = Returned RRefused.
Proof.
  intros Hr Hl. destruct (client_run_inv _ _ Hr Hl) as [Hi Hg]. apply fail_tells. by apply cancel_registered.
Qed.
End Client.

(** ** A connection used by two callers *)

Module Demo.
#[local] Existing Instance gzip_stored.

(** A server that answers a ping with what it was sent. *)
Definition echo (op : opcode) (payload : list byte) (op' : opcode) (body : list byte) : Prop := op' = OpPingOk /\ body = payload.

Definition served (i : pinner) (id : Z) (body : list byte) : pinner :=
  mkInner (pi_next_id i) (pi_gzip i) (pi_pending i) (pi_calls i) (pi_reader i) (pi_sent i)
    (pi_inbox i ++ default [] (encode_frame id OpPingOk body)).

(** Two calls are begun, the second is written and answered first. *)
Definition begun : pinner := begin_call (begin_call (connected true) OpPing [x01]) OpPing [x02].
Definition written : pinner := send_call (send_call begun 1 true) 0 true.
Definition answered : pinner := take_mail (reader_turn (served written 2 [x02])) 1.

Lemma answered_run : rtc (client_step echo) (connected true) answered.
Proof.
  assert (client_step echo written (served written 2 [x02])) as Hserve.
  { apply (SServe echo written (default [] (encode_frame 2 OpPing [x02])) 2 OpPing [x02] [x02] OpPingOk [x02]);
      [vm_compute; left|vm_compute; reflexivity|vm_compute; reflexivity|by split|vm_compute; reflexivity]. }
  apply (rtc_l _ _ (begin_call (connected true) OpPing [x01])); [apply SBegin|].
  apply (rtc_l _ _ begun); [apply SBegin|].
  apply (rtc_l _ _ (send_call begun 1 true)); [eapply SSend; vm_compute; reflexivity|].
  apply (rtc_l _ _ written); [eapply SSend; vm_compute; reflexivity|].
  apply (rtc_l _ _ _ _ Hserve).
  apply (rtc_l _ _ (reader_turn (served written 2 [x02]))); [apply SRead; vm_compute; reflexivity|].
  exact (rtc_once _ _ (STake echo _ 1)).
Qed.

Lemma answers_reach_their_callers_witness :
  fmap ca_phase (pi_calls answered) = [Waiting; Returned (RAnswer OpPingOk [x02])] /\
  echo OpPing [x02] OpPingOk [x02] /\ pi_pending answered !! 1 = Some 0%nat.
Proof.
  split; [vm_compute; reflexivity|]. split.
  - apply (answers_reach_their_callers echo true answered 1 (mkCall 2 OpPing [x02] (Some (MFrame OpPingOk [x02]))
      (Returned (RAnswer OpPingOk [x02])))); [apply answered_run|vm_compute; congruence|vm_compute; reflexivity|reflexivity].
  - destruct (answers_reach_their_callers echo true answered 0 (mkCall 1 OpPing [x01] None Waiting))
      as (_ & _ & [Hx|Hx]); [apply answered_run|vm_compute; congruence|vm_compute; reflexivity|reflexivity| |exact Hx].
    discriminate Hx.
Defined.

(** The reader has stopped; a call is begun and its frame is written. *)
Definition late : pinner := send_call (begin_call (cancel_reader (connected true)) OpPing [x01]) 0 true.

(** Nobody reads its answer: the call waits, its response changes nothing, and only
    [shutdown] would wake it. *)
Example late_call_waits :
  rtc (client_step echo) (connected true) late /\ pi_reader late = false /\
  fmap ca_phase (pi_calls (take_mail (served late 1 [x01]) 0)) = [Waiting] /\
  fmap ca_mail (pi_calls (shutdown_client late)) = [Some (MFailed "client shutdown")].
Proof.
  split; [|split_and!; vm_compute; reflexivity].
  apply (rtc_l _ _ _ _ (SCancel echo (connected true))). apply (rtc_l _ _ _ _ (SBegin echo _ OpPing [x01])).
  apply rtc_once. eapply SSend; vm_compute; reflexivity.
Qed.
End Demo.
