(* ===== verification/Fsutil.v ===== *)
(** * Atomic file replacement (crates/es-broker/src/fsutil.rs)

    A directory under crashes: what its entries and files look like to a running
    process, and what is left after a power loss at any point.  [write_atomic] as
    the system calls it makes. *)

From Stdlib Require Import Ascii String.
From S2P Require Export RustStd.

#[local] Open Scope Z_scope.

(** ** Temporary names *)

(** [name.matches('.').count()]. *)
Definition dots (name : string) : nat :=
  length (filter (fun c => c = "."%char) (String.list_ascii_of_string name)).

Definition ends_with (suffix name : string) : bool :=
  let l := String.list_ascii_of_string name in
  let s := String.list_ascii_of_string suffix in
  bool_decide (drop (length l - length s) l = s).

(** [format!(".{}.{}.tmp", pid, n)] after the file's name; [pid] and [n] as
    printed. *)
Definition unique_tmp (name pid n : string) : string := name +:+ "." +:+ pid +:+ "." +:+ n +:+ ".tmp".

Definition is_atomic_tmp_leftover (name : string) : bool := ends_with ".tmp" name && (3 <=? dots name)%nat.

(** ** A directory

    Files have an identity; a directory maps names to them.  [d_durable] is the
    directory as it would be found after a power loss, [d_now] as the running
    process sees it.  A file's content is durable once it was synced. *)
Record file : Type := mkFile { fl_bytes : list byte; fl_synced : bool }.

Record dir : Type := mkDir { d_files : gmap nat file; d_now : gmap string nat; d_durable : gmap string nat }.

Inductive fs_op : Type :=
| FCreate (name : string) (id : nat)
| FWrite (id : nat) (bytes : list byte)
| FSync (id : nat)
| FRename (from to : string)
| FSyncDir.

Definition fs_apply (d : dir) (op : fs_op) : dir :=
  match op with
  | FCreate name id => mkDir (<[id := mkFile [] false]> (d_files d)) (<[name := id]> (d_now d)) (d_durable d)
  | FWrite id bytes => mkDir (<[id := mkFile bytes false]> (d_files d)) (d_now d) (d_durable d)
  | FSync id => mkDir (alter (fun f => mkFile (fl_bytes f) true) id (d_files d)) (d_now d) (d_durable d)
  | FRename from to =>
    match d_now d !! from with
    | Some id => mkDir (d_files d) (<[to := id]> (delete from (d_now d))) (d_durable d)
    | None => d
    end
  | FSyncDir => mkDir (d_files d) (d_now d) (d_now d)
  end.

Definition fs_run (d : dir) (ops : list fs_op) : dir := fold_left fs_apply ops d.

(** The system calls of [write_atomic]; [id] is the new file. *)
Definition write_atomic (path tmp : string) (id : nat) (bytes : list byte) : list fs_op :=
  [FCreate tmp id; FWrite id bytes; FSync id; FRename tmp path; FSyncDir].

(** What a name can read as after a power loss: the entry is the durable one or the
    newer one (entries reach the disk at any time), and a file that was not synced
    can hold anything. *)
Definition survives_as (d : dir) (name : string) (content : option (list byte)) : Prop :=
  exists entry, (entry = d_durable d !! name \/ entry = d_now d !! name) /\
    match entry with
    | None => content = None
    | Some id =>
      match d_files d !! id with
      | Some f => if fl_synced f then content = Some (fl_bytes f) else is_Some content
      | None => content = None
      end
    end.

(** What the running process reads. *)
Definition read_name (d : dir) (name : string) : option (list byte) :=
  id ← d_now d !! name; f ← d_files d !! id; Some (fl_bytes f).

(** A name that holds [content] for good. *)
Definition settled (d : dir) (name : string) (content : option (list byte)) : Prop :=
  d_now d !! name = d_durable d !! name /\
  match d_durable d !! name with
  | None => content = None
  | Some id => exists b, d_files d !! id = Some (mkFile b true) /\ content = Some b
  end.

Lemma settled_survives d name c c' : settled d name c -> survives_as d name c' -> c' = c.
Proof.
  intros [Hn Hc] (entry & He & Hs). assert (entry = d_durable d !! name) as -> by (destruct He; congruence).
  destruct (d_durable d !! name) as [id|]; [|congruence]. destruct Hc as (b & Hf & ->). by rewrite Hf in Hs.
Qed.

(** Changes that do not concern a settled name. *)
Lemma settled_frame d d' name c id :
  settled d name c -> d_durable d !! name <> Some id ->
  d_now d' !! name = d_now d !! name -> d_durable d' !! name = d_durable d !! name ->
  (forall i, i <> id -> d_files d' !! i = d_files d !! i) -> settled d' name c.
Proof.
  intros [Hn Hc] Hne H1 H2 Hf. unfold settled. rewrite H1, H2. split; [done|].
  destruct (d_durable d !! name) as [i|]; [|done]. destruct Hc as (b & Hb & ->). exists b. by rewrite Hf by congruence.
Qed.

(** ** Names of temporary files *)

Lemma list_ascii_app a b :
  String.list_ascii_of_string (a +:+ b) = String.list_ascii_of_string a ++ String.list_ascii_of_string b.
Proof. induction a as [|c a IH]; [done|]. simpl. f_equal. apply IH. Qed.

Lemma dots_app a b : dots (a +:+ b) = (dots a + dots b)%nat.
Proof. unfold dots. by rewrite list_ascii_app, filter_app, length_app. Qed.

Lemma ends_with_app s a : ends_with s (a +:+ s) = true.
Proof.
  unfold ends_with. rewrite list_ascii_app. apply bool_decide_eq_true. apply drop_app_len. rewrite length_app. lia.
Qed.

Lemma ends_with_other s s' a :
  length (String.list_ascii_of_string s) = length (String.list_ascii_of_string s') -> s <> s' ->
  ends_with s (a +:+ s') = false.
Proof.
  intros Hl Hne. unfold ends_with. rewrite list_ascii_app. apply bool_decide_eq_false. rewrite length_app, Hl.
  intros He. rewrite drop_app_len in He by lia. apply Hne.
  rewrite <- (String.string_of_list_ascii_of_string s), <- (String.string_of_list_ascii_of_string s'). by rewrite He.
Qed.

Lemma string_app_assoc a b c : (a +:+ b) +:+ c = a +:+ (b +:+ c).
Proof.
  induction a as [|x a IH]; [done|]. change (String x ((a +:+ b) +:+ c) = String x (a +:+ (b +:+ c))). by rewrite IH.
Qed.

(** Every temporary name is recognised at startup. *)
Lemma tmp_is_leftover name pid n : is_atomic_tmp_leftover (unique_tmp name pid n) = true.
Proof.
  unfold is_atomic_tmp_leftover, unique_tmp. apply andb_true_intro. split.
  - rewrite <- !string_app_assoc. apply ends_with_app.
  - apply Nat.leb_le. rewrite !dots_app. change (dots ".") with 1%nat. change (dots ".tmp") with 1%nat. lia.
Qed.

(** ** Properties *)

(** C37: replacing a file is atomic, also under power loss.  Started on a directory
    where [path] durably holds its old content, with a fresh temporary name and
    file, a crash after any number of the system calls leaves [path] with its old or
    its new content, complete; once all were made it is the new content, for good.
    Every other name keeps its content throughout, and what else can be left behind
    is a name that startup recognises and deletes. *)
Theorem write_atomic_crash_safe d path pid n id old bytes k content :
  let tmp := unique_tmp path pid n in
  settled d path old -> tmp <> path -> d_now d !! tmp = None -> d_durable d !! tmp = None ->
  d_files d !! id = None -> (forall name, d_now d !! name <> Some id /\ d_durable d !! name <> Some id) ->
  let ops := write_atomic path tmp id bytes in
  (survives_as (fs_run d (take k ops)) path content -> content = old \/ content = Some bytes) /\
  settled (fs_run d ops) path (Some bytes) /\ read_name (fs_run d ops) path = Some bytes /\
  (forall name c, name <> path -> name <> tmp -> settled d name c -> settled (fs_run d (take k ops)) name c) /\
  is_atomic_tmp_leftover tmp = true.
Proof.
  intros tmp Hold Hne Hn Hd Hid Hfresh ops.
  assert (forall name, d_durable d !! name <> Some id) as Hno by (intros name; apply Hfresh).
  assert (forall j name c, name <> tmp -> settled d name c -> settled (fs_run d (take (Nat.min j 3) ops)) name c) as Hbefore.
  { intros j name c Hnt Hs. destruct (Nat.min j 3) as [|[|[|[|m]]]] eqn:Em; [done|..|lia];
      (eapply (settled_frame d _ name c id Hs); [done|cbn; by rewrite lookup_insert_ne|done|]; intros i Hi; cbn;
       rewrite ?lookup_alter_ne, ?lookup_insert_ne by done; done). }
  assert (forall j, (4 <= j)%nat -> let d' := fs_run d (take j ops) in
    d_files d' = d_files (fs_run d (take 3 ops)) /\ d_now d' = <[path := id]> (delete tmp (<[tmp := id]> (d_now d))) /\
    (d_durable d' = d_durable d /\ j = 4%nat \/ d_durable d' = d_now d' /\ (5 <= j)%nat)) as Hafter.
  { intros j Hj. destruct j as [|[|[|[|[|j]]]]]; try lia; cbn; rewrite lookup_insert_eq; cbn; rewrite ?take_nil; (split; [done|split; [done|]]); [by left|].
    right. split; [done|lia]. }
  assert (d_files (fs_run d (take 3 ops)) !! id = Some (mkFile bytes true)) as Hfile.
  { cbn. rewrite lookup_alter_eq, lookup_insert_eq. done. }
  assert (forall j, (5 <= j)%nat -> settled (fs_run d (take j ops)) path (Some bytes)) as Hdone.
  { intros j Hj. destruct (Hafter j ltac:(lia)) as (Hf & Hnow & [[_ ->]|[Hdur _]]); [lia|]. split; [by rewrite Hdur|].
    rewrite Hdur, Hnow, lookup_insert_eq, Hf. by exists bytes. }
  split_and!.
  - intros Hsv. destruct (decide (k <= 3)%nat) as [Hk|Hk].
    { left. specialize (Hbefore k path old (not_eq_sym Hne) Hold). rewrite Nat.min_l in Hbefore by done. by eapply settled_survives. }
    destruct (decide (k = 4%nat)) as [->|Hk5]; [|right; eapply settled_survives; [apply (Hdone k); lia|done]].
    destruct (Hafter 4%nat ltac:(lia)) as (Hf & Hnow & [[Hdur _]|[_ ?]]); [|lia].
    destruct Hsv as (entry & [-> | ->] & Hc).
    + left. specialize (Hbefore 3%nat path old (not_eq_sym Hne) Hold). cbn [Nat.min] in Hbefore.
      eapply settled_survives; [exact Hbefore|]. eexists. split; [left; reflexivity|]. rewrite Hdur, Hf in Hc. exact Hc.
    + right. rewrite Hnow, lookup_insert_eq, Hf, Hfile in Hc. exact Hc.
  - apply (Hdone 5%nat). lia.
  - unfold read_name. destruct (Hafter 5%nat ltac:(lia)) as (Hf & Hnow & _). change (take 5 ops) with ops in *.
    rewrite Hnow, lookup_insert_eq. cbn [mbind option_bind]. rewrite Hf, Hfile. done.
  - intros name c Hnp Hnt Hs. destruct (decide (k <= 3)%nat) as [Hk|Hk].
    { specialize (Hbefore k name c Hnt Hs). by rewrite Nat.min_l in Hbefore. }
    destruct (Hafter k ltac:(lia)) as (Hf & Hnow & Hdur).
    assert (d_now (fs_run d (take k ops)) !! name = d_now d !! name) as Hn'.
    { rewrite Hnow, lookup_insert_ne, lookup_delete_ne, lookup_insert_ne by done. done. }
    eapply (settled_frame d _ name c id Hs); [done|done| |].
    + destruct Hdur as [[-> _]|[-> _]]; [done|]. rewrite Hn'. apply Hs.
    + intros i Hi. rewrite Hf. cbn. by rewrite lookup_alter_ne, !lookup_insert_ne.
  - apply tmp_is_leftover.
Qed.

Definition demo_dir : dir := mkDir {[ 0%nat := mkFile [x01] true ]} {[ "f.json"%string := 0%nat ]} {[ "f.json"%string := 0%nat ]}.

Lemma write_atomic_crash_safe_witness :
  read_name (fs_run demo_dir (write_atomic "f.json" (unique_tmp "f.json" "12" "0") 1 [x02])) "f.json" = Some [x02] /\
  (survives_as (fs_run demo_dir (take 4 (write_atomic "f.json" (unique_tmp "f.json" "12" "0") 1 [x02]))) "f.json" (Some [x01]) ->
   Some [x01] = Some [x01] \/ Some [x01] = Some [x02]).
Proof.
  destruct (write_atomic_crash_safe demo_dir "f.json" "12" "0" 1 (Some [x01]) [x02] 4 (Some [x01])) as (H1 & _ & H2 & _).
  - split; [reflexivity|]. exists [x01]. split; reflexivity.
  - discriminate.
  - reflexivity.
  - reflexivity.
  - reflexivity.
  - intros name. cbn. split; intros [_ E]%lookup_singleton_Some; discriminate.
  - split; [exact H2|exact H1].
Defined.
