(* ===== verification/Groups.v ===== *)
(** * Consumer group offsets (crates/es-broker/src/groups.rs)

    Committed offsets per group, who a group belongs to, the set of groups to
    write, and the files they are written to.  A group file is the value its JSON
    holds, in the current or the older form, or bytes that do not parse.  The slot
    locks make each operation one step; [write_atomic] is [Fsutil]'s. *)

From Stdlib Require Import Ascii String.
From S2P Require Export Auth Fsutil.
From S2P Require Import Coord.

#[local] Open Scope Z_scope.

Definition Groups_MAX_GROUPS : nat := Z.to_nat 100000.
Definition MAX_ENTRIES_PER_GROUP : nat := Z.to_nat 100000.

Record group_entry : Type := mkGEntry { ge_owner : string; ge_offsets : gmap string (gmap Z Z) }.

Inductive group_content : Type :=
| GCurrent (owner : string) (offsets : gmap string (gmap Z Z))
| GLegacy (offsets : gmap string (gmap Z Z))
| GUnreadable.

Definition parse_group_file (c : group_content) : outcome string group_entry :=
  match c with
  | GCurrent owner offsets => Ok (mkGEntry owner offsets)
  | GLegacy offsets => Ok (mkGEntry "" offsets)
  | GUnreadable => Err "parse group offsets"
  end.

Inductive group_error : Type := GInvalid | GForbidden | GLimit.

(** [gp_dir]: the files by name. *)
Record group_store : Type := mkGroups {
  gp_dir : gmap string group_content; gp_entries : gmap string group_entry; gp_dirty : gset string }.

Definition group_path (group : string) : string := group +:+ ".json".

(** ** Opening *)

(** [Path::file_stem] and [Path::extension] of a file name: split at the last dot,
    unless that is its first character. *)
Fixpoint last_dot (l : list ascii) : option (list ascii * list ascii) :=
  match l with
  | [] => None
  | c :: l =>
    match last_dot l with
    | Some (a, b) => Some (c :: a, b)
    | None => if bool_decide (c = "."%char) then Some ([], l) else None
    end
  end.

Definition stem_ext (name : string) : option (string * string) :=
  match last_dot (String.list_ascii_of_string name) with
  | Some ([], _) | None => None
  | Some (a, b) => Some (String.string_of_list_ascii a, String.string_of_list_ascii b)
  end.

(** One entry of the directory: removed, skipped, or loaded. *)
Definition load_group (name : string) (c : group_content) (s : outcome string group_store) : outcome string group_store :=
  s ← s;
  if is_atomic_tmp_leftover name then Ok (mkGroups (delete name (gp_dir s)) (gp_entries s) (gp_dirty s))
  else match stem_ext name with
       | Some (group, ext) =>
         if bool_decide (ext = "json"%string) then
           e ← parse_group_file c; Ok (mkGroups (gp_dir s) (<[group := e]> (gp_entries s)) (gp_dirty s))
         else Ok s
       | None => Ok s
       end.

Definition groups_open (dir : gmap string group_content) : outcome string group_store :=
  map_fold load_group (Ok (mkGroups dir ∅ ∅)) dir.

(** ** Operations *)

Definition mark_dirty (s : group_store) (group : string) : group_store :=
  mkGroups (gp_dir s) (gp_entries s) ({[ group ]} ∪ gp_dirty s).

Definition set_entry (s : group_store) (group : string) (e : group_entry) : group_store :=
  mkGroups (gp_dir s) (<[group := e]> (gp_entries s)) (gp_dirty s).

Definition authorize_or_claim (s : group_store) (group : string) (key : api_key) : outcome group_error group_entry * group_store :=
  if negb (validate_group_name group) then (Err GInvalid, s)
  else
    let slot :=
      match gp_entries s !! group with
      | Some e => Some (e, s)
      | None =>
        if (Groups_MAX_GROUPS <=? size (gp_entries s))%nat then None
        else Some (mkGEntry "" ∅, set_entry s group (mkGEntry "" ∅))
      end in
    match slot with
    | None => (Err GLimit, s)
    | Some (e, s) =>
      if bool_decide (ge_owner e = ""%string) then
        let e := mkGEntry (k_key_id key) (ge_offsets e) in (Ok e, mark_dirty (set_entry s group e) group)
      else if negb (bool_decide (ge_owner e = k_key_id key)) && negb (is_admin key) then (Err GForbidden, s)
      else (Ok e, s)
    end.

Definition check_access (s : group_store) (group : string) (key : api_key) : outcome group_error () :=
  match gp_entries s !! group with
  | None => Ok ()
  | Some e =>
    if negb (bool_decide (ge_owner e = ""%string)) && negb (bool_decide (ge_owner e = k_key_id key)) && negb (is_admin key)
    then Err GForbidden else Ok ()
  end.

Definition set_offset (o : gmap string (gmap Z Z)) (topic : string) (partition offset : Z) : gmap string (gmap Z Z) :=
  <[topic := <[partition := offset]> (default ∅ (o !! topic))]> o.

Definition get_offset (o : gmap string (gmap Z Z)) (topic : string) (partition : Z) : option Z := o !! topic ≫= (.!! partition).

(** [g.offsets.values().map(|m| m.len()).sum()]. *)
Definition entry_count (o : gmap string (gmap Z Z)) : nat := map_fold (fun _ m n => (size m + n)%nat) 0%nat o.

Definition commit (s : group_store) (group : string) (key : api_key) (topic : string) (partition offset : Z)
    : outcome group_error () * group_store :=
  match authorize_or_claim s group key with
  | (Ok e, s) =>
    let present := bool_decide (is_Some (get_offset (ge_offsets e) topic partition)) in
    if negb present && (MAX_ENTRIES_PER_GROUP <=? entry_count (ge_offsets e))%nat then (Err GLimit, s)
    else
      (Ok (), mark_dirty (set_entry s group (mkGEntry (ge_owner e) (set_offset (ge_offsets e) topic partition offset))) group)
  | (Err x, s) => (Err x, s)
  | (Panic, s) => (Panic, s)
  end.

(** [reset]: the administrator's path. *)
Definition reset_offset (s : group_store) (group topic : string) (partition offset : Z) : group_store :=
  match gp_entries s !! group with
  | None => s
  | Some e => mark_dirty (set_entry s group (mkGEntry (ge_owner e) (set_offset (ge_offsets e) topic partition offset))) group
  end.

Definition fetch (s : group_store) (group topic : string) (partition : Z) : option Z :=
  e ← gp_entries s !! group; get_offset (ge_offsets e) topic partition.

Definition group_snapshot (s : group_store) (group : string) : gmap string (gmap Z Z) :=
  match gp_entries s !! group with Some e => ge_offsets e | None => ∅ end.

Definition group_owner (s : group_store) (group : string) : option string := ge_owner <$> gp_entries s !! group.

(** ** Flushing *)

Definition group_file (e : group_entry) : group_content := GCurrent (ge_owner e) (ge_offsets e).

(** The writes of a flush, in the order of the set of dirty groups. *)
Definition flush_writes (s : group_store) : list (string * group_content) :=
  omap (fun g => e ← gp_entries s !! g; Some (group_path g, group_file e)) (merge_sort string_le (elements (gp_dirty s))).

Definition write_files (dir : gmap string group_content) (ws : list (string * group_content)) : gmap string group_content :=
  fold_left (fun d w => <[w.1 := w.2]> d) ws dir.

(** [flush]; [fails] is the write that fails, if any.  A failed flush marks the
    groups dirty again. *)
Definition groups_flush (s : group_store) (fails : option nat) : bool * group_store :=
  let ws := flush_writes s in
  match fails with
  | Some n =>
    if (n <? length ws)%nat then (false, mkGroups (write_files (gp_dir s) (take n ws)) (gp_entries s) (gp_dirty s))
    else (true, mkGroups (write_files (gp_dir s) ws) (gp_entries s) ∅)
  | None => (true, mkGroups (write_files (gp_dir s) ws) (gp_entries s) ∅)
  end.

(** ** The HTTP endpoints (http/groups.rs) *)

Inductive http_error : Type := HForbidden | HNotFound | HBadRequest | HGroup (e : group_error).

(** [partitions]: the number of partitions of a topic. *)
Definition http_commit (partitions : string -> option Z) (s : group_store) (key : api_key) (group topic : string)
    (partition offset : Z) : outcome http_error () * group_store :=
  if negb (can key ActRead topic) then (Err HForbidden, s)
  else match partitions topic with
       | None => (Err HNotFound, s)
       | Some n =>
         if n <=? partition then (Err HBadRequest, s)
         else let (o, s) := commit s group key topic partition offset in (map_err HGroup o, s)
       end.

Definition http_offsets (s : group_store) (key : api_key) (group : string) : outcome http_error (gmap string (gmap Z Z)) :=
  match check_access s group key with
  | Ok _ => Ok (filter (fun x => can key ActRead x.1 = true) (group_snapshot s group))
  | Err e => Err (HGroup e)
  | Panic => Panic
  end.
