(* ===== verification/GroupsSpec.v ===== *)
(** * What the offset store promises

    A group's offsets and owner survive flushes and restarts, and only its owner
    or an administrator changes them. *)

From Stdlib Require Import Ascii String.
From S2P Require Export Groups.
From S2P Require Import Coord.

#[local] Open Scope Z_scope.

(** ** File names *)

Lemma last_dot_app l k : Forall (fun c => c <> "."%char) k -> last_dot (l ++ "."%char :: k) = Some (l, k).
Proof.
  intros Hk. induction l as [|c l IH]; cbn.
  - assert (last_dot k = None) as ->; [|done]. induction Hk as [|c k Hc _ IH]; [done|]. cbn. rewrite IH. by rewrite bool_decide_false.
  - by rewrite IH.
Qed.

Lemma last_dot_inv l a b : last_dot l = Some (a, b) -> l = a ++ "."%char :: b.
Proof.
  revert a b. induction l as [|c l IH]; intros a b; cbn; [done|]. destruct (last_dot l) as [[a' b']|].
  - intros [= <- <-]. by rewrite (IH a' b').
  - case_bool_decide; [|done]. intros [= <- <-]. by subst c.
Qed.

Lemma stem_ext_path g : g <> ""%string -> stem_ext (group_path g) = Some (g, "json"%string).
Proof.
  intros Hg. unfold stem_ext, group_path. rewrite list_ascii_app.
  change (String.list_ascii_of_string ".json") with ("."%char :: String.list_ascii_of_string "json").
  rewrite last_dot_app by (repeat constructor; discriminate).
  rewrite !String.string_of_list_ascii_of_string. destruct g; [done|]. cbn [String.list_ascii_of_string]. done.
Qed.

Lemma string_of_app a b :
  String.string_of_list_ascii (a ++ b) = String.string_of_list_ascii a +:+ String.string_of_list_ascii b.
Proof.
  induction a as [|x a IH]; [done|].
  change (String x (String.string_of_list_ascii (a ++ b)) = String x (String.string_of_list_ascii a +:+ String.string_of_list_ascii b)).
  by rewrite IH.
Qed.

Lemma stem_ext_inv name g : stem_ext name = Some (g, "json"%string) -> name = group_path g /\ g <> ""%string.
Proof.
  unfold stem_ext. destruct (last_dot _) as [[[|c a] b]|] eqn:E; [done| |done]. intros Heq.
  assert (String.string_of_list_ascii (c :: a) = g /\ String.string_of_list_ascii b = "json"%string) as [Hg Hb].
  { by injection Heq. }
  apply last_dot_inv in E. split; [|by rewrite <- Hg].
  rewrite <- (String.string_of_list_ascii_of_string name), E, string_of_app, Hg. unfold group_path. f_equal.
  change (String "." (String.string_of_list_ascii b) = ".json"%string). by rewrite Hb.
Qed.

Lemma path_not_leftover g : is_atomic_tmp_leftover (group_path g) = false.
Proof.
  unfold is_atomic_tmp_leftover, group_path. apply andb_false_intro1. unfold ends_with. rewrite list_ascii_app.
  apply bool_decide_eq_false. rewrite length_app.
  change (String.list_ascii_of_string ".json") with (["."%char] ++ String.list_ascii_of_string "json").
  rewrite app_assoc, drop_app_len by (rewrite !length_app; cbn; lia). discriminate.
Qed.

Lemma group_path_inj g g' : group_path g = group_path g' -> g = g'.
Proof.
  unfold group_path. intros E. apply (f_equal String.list_ascii_of_string) in E. rewrite !list_ascii_app in E.
  apply app_inv_tail in E. rewrite <- (String.string_of_list_ascii_of_string g), E. apply String.string_of_list_ascii_of_string.
Qed.

(** ** Opening a directory *)

(** The entry a file holds. *)
Definition file_entry (c : option group_content) : option group_entry :=
  c ← c; match parse_group_file c with Ok e => Some e | _ => None end.

Definition parses (dir : gmap string group_content) : Prop :=
  forall g c, dir !! group_path g = Some c -> is_Some (file_entry (Some c)).

(** Every group file becomes the group of its name; nothing else does. *)
Lemma open_spec dir :
  parses dir -> exists s, groups_open dir = Ok s /\ gp_dirty s = ∅ /\
    (forall g, gp_dir s !! group_path g = dir !! group_path g) /\
    (forall g, gp_entries s !! g = if bool_decide (g = ""%string) then None else file_entry (dir !! group_path g)).
Proof.
  unfold groups_open. intros Hparse.
  enough (forall d0, let r := map_fold load_group (Ok (mkGroups d0 ∅ ∅)) dir in
    exists s, r = Ok s /\ gp_dirty s = ∅ /\ (forall g, gp_dir s !! group_path g = d0 !! group_path g) /\
    (forall g, gp_entries s !! g = if bool_decide (g = ""%string) then None else file_entry (dir !! group_path g))) as He.
  { destruct (He dir) as (s & E & H1 & H2 & H3). exists s. by split_and!. }
  intros d0. revert Hparse.
  apply (map_fold_weak_ind (fun r m => parses m -> exists s, r = Ok s /\ gp_dirty s = ∅ /\
    (forall g, gp_dir s !! group_path g = d0 !! group_path g) /\
    (forall g, gp_entries s !! g = if bool_decide (g = ""%string) then None else file_entry (m !! group_path g)))).
  - intros _. eexists. split; [done|]. cbn. split_and!; [done|done|]. intros g. rewrite !lookup_empty. by case_bool_decide.
  - intros name c m r Hname IH Hparse.
    destruct IH as (s & -> & Hd & Hdir & Hs).
    { intros g c' Hg. apply (Hparse g c'). rewrite lookup_insert_ne; [done|]. intros ->. by rewrite Hname in Hg. }
    cbn [load_group mbind outcome_bind]. unfold load_group. cbn [mbind outcome_bind].
    assert (forall g, group_path g <> name -> <[name:=c]> m !! group_path g = m !! group_path g) as Hother.
    { intros g Hne. by rewrite lookup_insert_ne. }
    assert ((forall g, group_path g <> name \/ g = ""%string) -> forall g, gp_entries s !! g =
      if bool_decide (g = ""%string) then None else file_entry (<[name:=c]> m !! group_path g)) as Hkeep.
    { intros Hne g. rewrite Hs. case_bool_decide; [done|]. destruct (Hne g); [by rewrite Hother|done]. }
    destruct (is_atomic_tmp_leftover name) eqn:El.
    { assert (forall g, group_path g <> name) as Hne by (intros g <-; by rewrite path_not_leftover in El).
      eexists. split; [done|]. cbn. split_and!; [done| |apply Hkeep; intros; by left].
      intros g. rewrite lookup_delete_ne by (intros E; by apply (Hne g)). apply Hdir. }
    destruct (stem_ext name) as [[g0 ext]|] eqn:Est.
    2: { exists s. split_and!; [done|done|done|]. apply Hkeep. intros g. destruct (decide (g = ""%string)); [by right|left].
         intros <-. by rewrite stem_ext_path in Est. }
    case_bool_decide as Hext.
    2: { exists s. split_and!; [done|done|done|]. apply Hkeep. intros g. destruct (decide (g = ""%string)); [by right|left].
         intros <-. rewrite stem_ext_path in Est by done. by injection Est. }
    subst ext. apply stem_ext_inv in Est as [-> Hg0]. specialize (Hparse g0 c (lookup_insert_eq _ _ _)).
    destruct Hparse as [e He]. unfold file_entry in He. cbn in He. destruct (parse_group_file c) as [e'|x|] eqn:Ep; try done.
    injection He as ->. cbn. eexists. split; [done|]. cbn. split_and!; [done|done|]. intros g.
    destruct (decide (g = g0)) as [->|Hne].
    + rewrite lookup_insert_eq, bool_decide_false, lookup_insert_eq by done. unfold file_entry. cbn. by rewrite Ep.
    + rewrite lookup_insert_ne, Hs by done. case_bool_decide; [done|]. rewrite lookup_insert_ne; [done|].
      intros E. apply Hne. by apply group_path_inj.
Qed.

(** ** The invariant *)

(** Every group that is not dirty is on disk as it is in memory. *)
Record groups_ok (s : group_store) : Prop := {
  gk_names : gp_entries s !! ""%string = None;
  gk_clean : forall g, g <> ""%string -> g ∉ gp_dirty s -> file_entry (gp_dir s !! group_path g) = gp_entries s !! g;
  gk_dirty : forall g, g ∈ gp_dirty s -> is_Some (gp_entries s !! g);
  gk_parse : parses (gp_dir s) }.

Lemma valid_group_nonempty g : validate_group_name g = true -> g <> ""%string.
Proof. by intros Hv ->. Qed.

(** An update of an entry that marks it dirty. *)
Lemma groups_ok_update s g e : groups_ok s -> g <> ""%string -> groups_ok (mark_dirty (set_entry s g e) g).
Proof.
  intros [Hn Hc Hd Hp] Hg. constructor; cbn; [by rewrite lookup_insert_ne| | |done].
  - intros g' Hg' Hnd. apply not_elem_of_union in Hnd as [Hne%not_elem_of_singleton Hnd].
    rewrite lookup_insert_ne by done. by apply Hc.
  - intros g' Hin. destruct (decide (g' = g)) as [->|Hne]; [by rewrite lookup_insert_eq|].
    rewrite lookup_insert_ne by done. apply Hd. apply elem_of_union in Hin as [?%elem_of_singleton|?]; done.
Qed.

(** What claiming a group does: nothing, or its entry is written and dirty. *)
Lemma claim_spec s g key :
  match authorize_or_claim s g key with
  | (Ok e, s') => g <> ""%string /\ (ge_owner e <> ""%string -> ge_owner e = k_key_id key \/ is_admin key = true) /\
      gp_dir s' = gp_dir s /\ gp_entries s' !! g = Some e /\ ge_offsets e = group_snapshot s g /\
      (s' = s \/ exists s0, s' = mark_dirty (set_entry s0 g e) g /\ gp_dir s0 = gp_dir s /\ gp_dirty s0 = gp_dirty s /\
         (s0 = s \/ s0 = set_entry s g (mkGEntry "" ∅)) /\ group_owner s g ∈ [None; Some ""%string])
  | (Err x, s') => s' = s
  | (Panic, _) => False
  end.
Proof.
  unfold authorize_or_claim. destruct (validate_group_name g) eqn:Hv; cbn [negb]; [|done]. apply valid_group_nonempty in Hv.
  unfold group_snapshot, group_owner. destruct (gp_entries s !! g) as [e|] eqn:Ee.
  - case_bool_decide as Ho.
    + cbn. split_and!; [done|by left|done|by rewrite lookup_insert_eq|done|]. right. exists s. split_and!; [done|done|done|by left|].
      rewrite Ho. right. left.
    + destruct (negb (bool_decide (ge_owner e = k_key_id key)) && negb (is_admin key)) eqn:E2; [done|].
      split_and!; [done| |done|done|done|by left]. intros _.
      apply andb_false_iff in E2 as [E2|E2]; apply negb_false_iff in E2; [left; by apply bool_decide_eq_true in E2|by right].
  - destruct (_ <=? _)%nat; [done|]. rewrite bool_decide_true by done. cbn.
    split_and!; [done|by left|done|by rewrite lookup_insert_eq|done|]. right. exists (set_entry s g (mkGEntry "" ∅)).
    split_and!; [done|done|done|by right|left].
Qed.

Lemma set_entry_twice s g e e' : set_entry (set_entry s g e) g e' = set_entry s g e'.
Proof. unfold set_entry. cbn. by rewrite insert_insert_eq. Qed.

(** Claiming and committing keep the invariant, and touch no other group. *)
Lemma claim_ok s g key : groups_ok s ->
  groups_ok (authorize_or_claim s g key).2 /\ forall g', g' <> g -> gp_entries (authorize_or_claim s g key).2 !! g' = gp_entries s !! g'.
Proof.
  intros Hs. pose proof (claim_spec s g key) as Hc. destruct (authorize_or_claim s g key) as [[e|x|] s']; [|by subst s'|done].
  destruct Hc as (Hg & _ & _ & _ & _ & [->|(s0 & -> & _ & _ & Hs0 & _)]); [done|]. cbn.
  destruct Hs0 as [-> | ->]; [|rewrite set_entry_twice]; (split; [by apply groups_ok_update|]); intros g' Hne; cbn; by rewrite ?lookup_insert_ne.
Qed.

Lemma commit_ok s g key t p o : groups_ok s ->
  groups_ok (commit s g key t p o).2 /\ forall g', g' <> g -> gp_entries (commit s g key t p o).2 !! g' = gp_entries s !! g'.
Proof.
  intros Hs. pose proof (claim_ok s g key Hs) as [Hok Hother]. pose proof (claim_spec s g key) as Hc. unfold commit.
  destruct (authorize_or_claim s g key) as [[e|x|] s']; cbn [snd] in *; [|done|done].
  destruct (negb _ && _); cbn [snd]; [done|]. destruct Hc as (Hg & _). split; [by apply groups_ok_update|].
  intros g' Hne. cbn. rewrite lookup_insert_ne by done. by apply Hother.
Qed.

Lemma reset_ok s g t p o : groups_ok s ->
  groups_ok (reset_offset s g t p o) /\ forall g', g' <> g -> gp_entries (reset_offset s g t p o) !! g' = gp_entries s !! g'.
Proof.
  intros Hs. unfold reset_offset. destruct (gp_entries s !! g) as [e|] eqn:Ee; [|done].
  assert (g <> ""%string) as Hg by (intros ->; by rewrite (gk_names s Hs) in Ee).
  split; [by apply groups_ok_update|]. intros g' Hne. cbn. by rewrite lookup_insert_ne.
Qed.

(** ** Flushing *)

Lemma flush_writes_elem s x c :
  (x, c) ∈ flush_writes s <-> exists g e, g ∈ gp_dirty s /\ gp_entries s !! g = Some e /\ x = group_path g /\ c = group_file e.
Proof.
  unfold flush_writes. rewrite list_elem_of_omap. split.
  - intros (g & Hg & Heq). rewrite merge_sort_Permutation, elem_of_elements in Hg.
    destruct (gp_entries s !! g) as [e|] eqn:Ee; [|done]. cbn in Heq. injection Heq as <- <-. by exists g, e.
  - intros (g & e & Hg & He & -> & ->). exists g. rewrite merge_sort_Permutation, elem_of_elements. split; [done|]. by rewrite He.
Qed.

Lemma write_files_lookup dir ws x :
  (forall c c', (x, c) ∈ ws -> (x, c') ∈ ws -> c = c') ->
  (forall c, (x, c) ∈ ws -> write_files dir ws !! x = Some c) /\
  ((forall c, (x, c) ∉ ws) -> write_files dir ws !! x = dir !! x).
Proof.
  unfold write_files. revert dir. induction ws as [|[y d] ws IH] using rev_ind; intros dir Hf; [split; [by intros c ?%elem_of_nil|done]|].
  rewrite fold_left_app. cbn [fold_left fst snd].
  destruct (IH dir) as [IH1 IH2]. { intros c c' H1 H2. apply Hf; apply elem_of_app; by left. }
  destruct (decide (x = y)) as [->|Hne].
  - rewrite lookup_insert_eq. split.
    + intros c Hc. f_equal. apply Hf; [apply elem_of_app; right; left|done].
    + intros Hn. exfalso. apply (Hn d). apply elem_of_app. right. left.
  - rewrite lookup_insert_ne by done. split.
    + intros c Hc. apply IH1. apply elem_of_app in Hc as [?|[[= ? ?]|?%elem_of_nil]%elem_of_cons]; done.
    + intros Hn. apply IH2. intros c Hc. apply (Hn c). apply elem_of_app. by left.
Qed.

(** After any part of a flush, a group file is the one before or the one of its
    group; after all of it, that of every dirty group. *)
Lemma flush_files s n g :
  let d := write_files (gp_dir s) (take n (flush_writes s)) in
  (g ∉ gp_dirty s -> d !! group_path g = gp_dir s !! group_path g) /\
  (forall e, gp_entries s !! g = Some e -> g ∈ gp_dirty s ->
     (length (flush_writes s) <= n)%nat -> d !! group_path g = Some (group_file e)) /\
  (d !! group_path g = gp_dir s !! group_path g \/ exists e, gp_entries s !! g = Some e /\ d !! group_path g = Some (group_file e)).
Proof.
  cbv zeta. set (ws := take n (flush_writes s)).
  assert (forall x c, (x, c) ∈ ws -> exists g e, g ∈ gp_dirty s /\ gp_entries s !! g = Some e /\ x = group_path g /\ c = group_file e) as Hws.
  { intros x c Hx. apply flush_writes_elem. eapply elem_of_submseteq; [exact Hx|]. apply sublist_submseteq, sublist_take. }
  destruct (write_files_lookup (gp_dir s) ws (group_path g)) as [H1 H2].
  { intros c c' Hc Hc'. destruct (Hws _ _ Hc) as (g1 & e1 & _ & He1 & Hp1 & ->). destruct (Hws _ _ Hc') as (g2 & e2 & _ & He2 & Hp2 & ->).
    apply group_path_inj in Hp1 as <-. apply group_path_inj in Hp2 as <-. congruence. }
  split_and!.
  - intros Hnd. apply H2. intros c Hc. destruct (Hws _ _ Hc) as (g1 & e1 & Hd1 & _ & Hp1 & _). apply group_path_inj in Hp1 as <-. done.
  - intros e He Hd Hn. apply H1. unfold ws. rewrite take_ge by done. apply flush_writes_elem. by exists g, e.
  - destruct (decide (Exists (fun w => w.1 = group_path g) ws)) as [Hx|Hx].
    + right. apply Exists_exists in Hx as ([x c] & Hx & Heq). cbn in Heq. subst x. rewrite (H1 c Hx).
      destruct (Hws _ _ Hx) as (g1 & e1 & _ & He1 & Hp1 & ->). apply group_path_inj in Hp1 as <-. by exists e1.
    + left. apply H2. intros c Hc. apply Hx, Exists_exists. by exists (group_path g, c).
Qed.

Lemma file_entry_back e : file_entry (Some (group_file e)) = Some e.
Proof. by destruct e. Qed.

Lemma flush_ok s fails : groups_ok s ->
  groups_ok (groups_flush s fails).2 /\ gp_entries (groups_flush s fails).2 = gp_entries s /\
  ((groups_flush s fails).1 = true -> gp_dirty (groups_flush s fails).2 = ∅).
Proof.
  intros [Hn Hc Hd Hp].
  assert (forall n, parses (write_files (gp_dir s) (take n (flush_writes s)))) as Hparse.
  { intros n g c Hg. destruct (flush_files s n g) as (_ & _ & [E|(e & _ & E)]); rewrite Hg in E.
    - by eapply Hp.
    - injection E as ->. rewrite file_entry_back. done. }
  assert (forall n, (length (flush_writes s) <= n)%nat ->
    groups_ok (mkGroups (write_files (gp_dir s) (take n (flush_writes s))) (gp_entries s) ∅)) as Hall.
  { intros n Hn'. constructor; cbn; [done| |by intros g ?%not_elem_of_empty|apply Hparse]. intros g Hg _.
    destruct (flush_files s n g) as (F1 & F2 & _). destruct (decide (g ∈ gp_dirty s)) as [Hin|Hin].
    - destruct (Hd g Hin) as [e He]. rewrite (F2 e He Hin Hn'), He. apply file_entry_back.
    - rewrite (F1 Hin). by apply Hc. }
  unfold groups_flush. specialize (Hall (length (flush_writes s)) (le_n _)) as Hfull. rewrite firstn_all in Hfull.
  destruct fails as [n|]; [|done]. destruct (n <? length (flush_writes s))%nat; [|done]. cbn. split_and!; [|done|done].
  constructor; cbn; [done| |done|apply Hparse]. intros g Hg Hnd. destruct (flush_files s n g) as (F1 & _). rewrite (F1 Hnd). by apply Hc.
Qed.

(** Reopening the directory brings back every group that is not dirty. *)
Lemma reopen_ok s : groups_ok s -> exists s', groups_open (gp_dir s) = Ok s' /\ groups_ok s' /\
  forall g, g ∉ gp_dirty s -> gp_entries s' !! g = gp_entries s !! g.
Proof.
  intros [Hn Hc Hd Hp]. destruct (open_spec (gp_dir s) Hp) as (s' & E & Hd' & Hdir & He). exists s'. split; [done|].
  assert (forall g, g <> ""%string -> gp_entries s' !! g = file_entry (gp_dir s !! group_path g)) as Hg.
  { intros g Hg. by rewrite He, bool_decide_false. }
  split.
  - constructor; [by rewrite He, bool_decide_true|intros g Hne _; by rewrite Hdir, Hg|by rewrite Hd'; intros g ?%not_elem_of_empty|].
    intros g c. rewrite Hdir. apply Hp.
  - intros g Hnd. destruct (decide (g = ""%string)) as [->|Hne]; [by rewrite He, Hn, bool_decide_true|]. rewrite Hg by done. by apply Hc.
Qed.

Lemma get_set_offset o t p x : get_offset (set_offset o t p x) t p = Some x.
Proof. unfold get_offset, set_offset. rewrite lookup_insert_eq. cbn. by rewrite lookup_insert_eq. Qed.

Lemma get_set_offset_ne o t p x t' p' : (t', p') <> (t, p) -> get_offset (set_offset o t p x) t' p' = get_offset o t' p'.
Proof.
  intros Hne. unfold get_offset, set_offset. destruct (decide (t' = t)) as [->|Ht]; [|by rewrite lookup_insert_ne].
  rewrite lookup_insert_eq. cbn. rewrite lookup_insert_ne by congruence. destruct (o !! t); cbn; [done|by rewrite lookup_empty].
Qed.

(** ** Properties *)

(** Steps that are not the owner's: any operation on another group, operations on
    [g] by a key that is neither its owner nor an administrator, flushes that may
    fail half way, and a restart that finds [g] flushed. *)
Inductive foreign_step (g owner : string) : group_store -> group_store -> Prop :=
| FCommit s g2 key t p o : g2 <> g \/ (k_key_id key <> owner /\ is_admin key = false) ->
    foreign_step g owner s (commit s g2 key t p o).2
| FClaim s g2 key : g2 <> g \/ (k_key_id key <> owner /\ is_admin key = false) ->
    foreign_step g owner s (authorize_or_claim s g2 key).2
| FReset s g2 t p o : g2 <> g -> foreign_step g owner s (reset_offset s g2 t p o)
| FFlush s fails : foreign_step g owner s (groups_flush s fails).2
| FRestart s s' : g ∉ gp_dirty s -> groups_open (gp_dir s) = Ok s' -> foreign_step g owner s s'.

Lemma foreign_claim s g key e :
  gp_entries s !! g = Some e -> ge_owner e <> ""%string -> k_key_id key <> ge_owner e -> is_admin key = false ->
  exists x, authorize_or_claim s g key = (Err x, s).
Proof.
  intros He Ho Hk Ha. unfold authorize_or_claim. destruct (negb _); [by eexists|]. rewrite He, bool_decide_false by done.
  rewrite (bool_decide_false (ge_owner e = k_key_id key)) by congruence. rewrite Ha. by eexists.
Qed.

Lemma foreign_step_keeps g s s' e :
  groups_ok s -> gp_entries s !! g = Some e -> ge_owner e <> ""%string -> foreign_step g (ge_owner e) s s' ->
  groups_ok s' /\ gp_entries s' !! g = Some e.
Proof.
  intros Hs He Ho Hst. destruct Hst as [s g2 key t p o Hf|s g2 key Hf|s g2 t p o Hf|s fails|s s' Hnd Hopen].
  - destruct (commit_ok s g2 key t p o Hs) as [Hok Hother]. split; [done|].
    destruct (decide (g2 = g)) as [->|Hne]; [|by rewrite Hother].
    destruct Hf as [?|[Hk Ha]]; [done|]. destruct (foreign_claim s g key e He Ho Hk Ha) as [x Hx]. unfold commit. by rewrite Hx.
  - destruct (claim_ok s g2 key Hs) as [Hok Hother]. split; [done|].
    destruct (decide (g2 = g)) as [->|Hne]; [|by rewrite Hother].
    destruct Hf as [?|[Hk Ha]]; [done|]. destruct (foreign_claim s g key e He Ho Hk Ha) as [x Hx]. by rewrite Hx.
  - destruct (reset_ok s g2 t p o Hs) as [Hok Hother]. split; [done|]. by rewrite Hother.
  - destruct (flush_ok s fails Hs) as (Hok & Hen & _). split; [done|]. by rewrite Hen.
  - destruct (reopen_ok s Hs) as (s1 & E & Hok & Hen). rewrite Hopen in E. injection E as <-. split; [done|]. by rewrite Hen.
Qed.

(** A group belongs to its owner.  Whatever other keys do to the store, among
    flushes that may fail and restarts that find the group on disk, the owner and
    the committed offsets of an owned group stay as they are, and the store stays
    consistent with its files. *)
Theorem group_is_its_owners g s s' e :
  groups_ok s -> gp_entries s !! g = Some e -> ge_owner e <> ""%string ->
  rtc (foreign_step g (ge_owner e)) s s' ->
  gp_entries s' !! g = Some e /\ groups_ok s'.
Proof.
  intros Hs He Ho Hr. revert Hs He. induction Hr as [|s s1 s2 Hst _ IH]; [done|]. intros Hs He.
  destruct (foreign_step_keeps g s s1 e Hs He Ho Hst) as [Hok1 He1]. by apply IH.
Qed.

(** C36: committed offsets survive a restart.  A commit that is accepted is what
    [fetch] returns, and changes no other offset; after a flush that succeeds, the
    store reopened from its directory has exactly the same groups, owners and
    offsets. *)
Theorem committed_offset_survives s g key t p o s1 fails :
  groups_ok s -> commit s g key t p o = (Ok (), s1) ->
  fetch s1 g t p = Some o /\
  (forall g' t' p', (g', t', p') <> (g, t, p) -> fetch s1 g' t' p' = fetch s g' t' p') /\
  ((groups_flush s1 fails).1 = true ->
   exists s2, groups_open (gp_dir (groups_flush s1 fails).2) = Ok s2 /\ gp_entries s2 = gp_entries s1).
Proof.
  intros Hs Hc. destruct (commit_ok s g key t p o Hs) as [Hok Hother]. rewrite Hc in Hok, Hother. cbn [snd] in *.
  pose proof (claim_spec s g key) as Hcl. unfold commit in Hc. destruct (authorize_or_claim s g key) as [[e|x|] s0]; [|done|done].
  destruct (negb _ && _); [done|]. injection Hc as <-. destruct Hcl as (_ & _ & _ & _ & Hoff & _).
  split; [|split].
  - unfold fetch. cbn [gp_entries mark_dirty set_entry]. rewrite lookup_insert_eq. cbn [mbind option_bind ge_offsets]. apply get_set_offset.
  - intros g' t' p' Hne. unfold fetch. destruct (decide (g' = g)) as [->|Hg]; [|by rewrite Hother].
    cbn [gp_entries mark_dirty set_entry]. rewrite lookup_insert_eq. cbn [mbind option_bind ge_offsets].
    rewrite get_set_offset_ne, Hoff by congruence. unfold group_snapshot. destruct (gp_entries s !! g); [done|]. cbn.
    unfold get_offset. by rewrite lookup_empty.
  - intros Hf. set (s1 := mark_dirty _ _) in *. destruct (flush_ok s1 fails Hok) as (Hfok & Hen & Hd).
    destruct (reopen_ok _ Hfok) as (s2 & E & _ & Hen2). exists s2. split; [done|]. apply map_eq. intros g'.
    rewrite Hen2, Hen; [done|]. rewrite (Hd Hf). apply not_elem_of_empty.
Qed.

Definition demo_groups : group_store := mkGroups ∅ ∅ ∅.
Definition group_key (id : string) : api_key := mkKey id id [mkRule ActRead "*"] None None 0 false.
Definition claimed_groups : group_store := (commit demo_groups "g" (group_key "a") "t" 0 5).2.

Lemma empty_groups_ok : groups_ok demo_groups.
Proof.
  constructor; cbn; [by rewrite lookup_empty|intros g _ _; by rewrite !lookup_empty|by intros g ?%not_elem_of_empty|].
  intros g c. by rewrite lookup_empty.
Qed.

Lemma committed_offset_survives_witness :
  fetch claimed_groups "g" "t" 0 = Some 5 /\
  exists s2, groups_open (gp_dir (groups_flush claimed_groups None).2) = Ok s2 /\ gp_entries s2 = gp_entries claimed_groups.
Proof.
  destruct (committed_offset_survives demo_groups "g" (group_key "a") "t" 0 5 claimed_groups None) as (H1 & _ & H2);
    [exact empty_groups_ok|vm_compute; reflexivity|]. split; [exact H1|]. apply H2. reflexivity.
Defined.

Lemma group_is_its_owners_witness :
  gp_entries (commit claimed_groups "g" (group_key "b") "t" 0 0).2 !! "g"%string =
    Some (mkGEntry "a" {[ "t"%string := {[ 0 := 5 ]} ]}).
Proof.
  apply (group_is_its_owners "g" claimed_groups).
  - apply (commit_ok demo_groups "g" (group_key "a") "t" 0 5 empty_groups_ok).
  - vm_compute. reflexivity.
  - discriminate.
  - eapply rtc_l; [|apply rtc_refl]. apply FCommit. right. split; [discriminate|reflexivity].
Defined.
