(* ===== verification/Transport.v ===== *)
(** * The Raft transport (raft/transport.rs)

    The session between two nodes: keyed hashing, the three-message handshake, the
    frames with their counters, the queues of a hub and the routing of frames to
    the groups it hosts.  A socket is the list of bytes still to be read from it;
    what a side writes is a result.  SHA-256 is the parameter [sha256] of
    [Hashing], and the nonces are arguments. *)

From S2P Require Export RaftMessages RaftState Auth.

#[local] Open Scope Z_scope.

Definition RAFT_MAGIC : list byte := as_bytes "RAF2".
Definition NONCE_LEN : Z := 32.
Definition MAC_LEN : Z := 32.
Definition MAX_GROUP_LEN : Z := 512.
Definition MAX_RAFT_FRAME : Z := 64 * 1024 * 1024.
Definition PEER_QUEUE : Z := 4096.
Definition DEFAULT_GROUP : string := "default".

(** The kinds of [io::Error] the transport makes; [TIo] is the socket's. *)
Inductive transport_error : Type := TInvalid | TDenied | TIo.

(** [constant_time_eq]: [diff] is a [u8], and neither operation leaves its range. *)
Definition constant_time_eq (a b : list byte) : bool :=
  (length a =? length b)%nat &&
  (fold_left (fun diff xy => Z.lor diff (Z.lxor (Z_of_byte xy.1) (Z_of_byte xy.2))) (zip a b) 0 =? 0).

Section Session.
Context `{Hashing}.

(** ** Keyed hashing *)

Definition xor_block (pad : Z) (k : list byte) : list byte := (fun b => byte_of_Z (Z.lxor pad (Z_of_byte b))) <$> k.

Definition hmac_sha256 (key : list byte) (parts : list (list byte)) : list byte :=
  let k := if 64 <? len key then sha256 key else key in
  let k := k ++ replicate (64 - length k) x00 in
  sha256 (xor_block 0x5c k ++ sha256 (xor_block 0x36 k ++ concat parts)).

Definition derive (secret label nd nl : list byte) (dialer listener : Z) : list byte :=
  hmac_sha256 secret [as_bytes "es-raft-v2/"; label; nd; nl; to_be 4 dialer; to_be 4 listener].

(** ** Frames *)

Record sealer : Type := mkSealer { sl_key : list byte; sl_seq : Z }.

(** [FrameSealer::seal]. *)
Definition seal (s : sealer) (payload : list byte) : list byte * sealer :=
  let mac := hmac_sha256 (sl_key s) [to_be 8 (sl_seq s); payload] in
  (to_be 4 (len payload + MAC_LEN) ++ payload ++ mac, mkSealer (sl_key s) (wrap_u 64 (sl_seq s + 1))).

Record opener : Type := mkOpener { op_key : list byte; op_seq : Z }.

(** [FrameOpener::open]. *)
Definition open_frame (o : opener) (frame : list byte) : outcome transport_error (list byte * opener) :=
  if len frame <? MAC_LEN then Err TInvalid else
  let payload := take (length frame - 32) frame in
  let mac := drop (length frame - 32) frame in
  let expected := hmac_sha256 (op_key o) [to_be 8 (op_seq o); payload] in
  if negb (constant_time_eq mac expected) then Err TDenied
  else Ok (payload, mkOpener (op_key o) (wrap_u 64 (op_seq o + 1))).

Definition encode_payload (group : string) (m : message) : list byte :=
  to_be 2 (len (as_bytes group)) ++ as_bytes group ++ encode_message m.

Definition split_frame (payload : list byte) : outcome transport_error (string * list byte) :=
  match rd_uint 2 payload with
  | None => Err TInvalid
  | Some (glen, rest) =>
    if (glen =? 0) || (MAX_GROUP_LEN <? glen) || (len rest <? glen) then Err TInvalid
    else
      let raw := take (Z.to_nat glen) rest in
      if utf8_valid raw then Ok (of_bytes raw, drop (Z.to_nat glen) rest) else Err TInvalid
  end.

(** ** The handshake *)

Record hub_auth : Type := mkAuth { ha_me : Z; ha_secret : list byte; ha_peers : gset Z }.

Definition read_n {A} (m : reader A) (input : list byte) : outcome transport_error (A * list byte) := ok_or TIo (m input).

(** [dialer_handshake]: what is written, and the sealer of the connection. *)
Definition dialer_handshake (me expected_peer : Z) (secret nd input : list byte)
    : list byte * outcome transport_error (sealer * list byte) :=
  let hello := RAFT_MAGIC ++ to_be 4 me ++ nd in
  match
    '(magic, input) ← read_n (rd_bytes 4) input;
    '(listener, input) ← read_n (rd_uint 4) input;
    '(nl, input) ← read_n (rd_bytes NONCE_LEN) input;
    '(proof_l, input) ← read_n (rd_bytes MAC_LEN) input;
    if negb (bool_decide (magic = RAFT_MAGIC)) then Err TInvalid
    else if negb (listener =? expected_peer) then Err TInvalid
    else if negb (constant_time_eq proof_l (derive secret (as_bytes "listener") nd nl me listener)) then Err TDenied
    else Ok (nl, listener, input)
  with
  | Ok (nl, listener, input) =>
    (hello ++ derive secret (as_bytes "dialer") nd nl me listener,
     Ok (mkSealer (derive secret (as_bytes "session") nd nl me listener) 0, input))
  | Err e => (hello, Err e)
  | Panic => (hello, Panic)
  end.

(** [listener_handshake], with the nonce [nl] it draws. *)
Definition listener_handshake (auth : hub_auth) (nl input : list byte)
    : list byte * outcome transport_error (Z * opener * list byte) :=
  match
    '(magic, input) ← read_n (rd_bytes 4) input;
    '(dialer, input) ← read_n (rd_uint 4) input;
    '(nd, input) ← read_n (rd_bytes NONCE_LEN) input;
    if negb (bool_decide (magic = RAFT_MAGIC)) then Err TInvalid
    else if negb (bool_decide (dialer ∈ ha_peers auth)) then Err TDenied
    else Ok (dialer, nd, input)
  with
  | Ok (dialer, nd, input) =>
    let reply := RAFT_MAGIC ++ to_be 4 (ha_me auth) ++ nl ++
                 derive (ha_secret auth) (as_bytes "listener") nd nl dialer (ha_me auth) in
    (reply,
     '(proof_d, input) ← read_n (rd_bytes MAC_LEN) input;
     if negb (constant_time_eq proof_d (derive (ha_secret auth) (as_bytes "dialer") nd nl dialer (ha_me auth)))
     then Err TDenied
     else Ok (dialer, mkOpener (derive (ha_secret auth) (as_bytes "session") nd nl dialer (ha_me auth)) 0, input))
  | Err e => ([], Err e)
  | Panic => ([], Panic)
  end.

(** ** Inbound connections *)

(** A frame as far as the choice of its group: [None] claims another sender. *)
Definition accept_payload (peer : Z) (payload : list byte) : outcome transport_error (option (string * message)) :=
  '(group, body) ← split_frame payload;
  match decode_message body with
  | None => Err TInvalid
  | Some m => Ok (if negb (msg_sender m =? peer) then None else Some (group, m))
  end.

(** The loop of [handle_inbound]: the messages accepted, in order, and how it ended.
    A connection that ends between two frames, or inside a length, is closed
    without an error. *)
Fixpoint inbound_loop (fuel : nat) (peer : Z) (o : opener) (input : list byte)
    : list (string * message) * outcome transport_error unit :=
  match fuel with
  | O => ([], Ok tt)
  | S fuel =>
    match rd_uint 4 input with
    | None => ([], Ok tt)
    | Some (n, input) =>
      match
        (if MAX_RAFT_FRAME <? n then Err TInvalid else
         '(frame, input) ← read_n (rd_bytes n) input;
         '(payload, o) ← open_frame o frame;
         accepted ← accept_payload peer payload;
         Ok (accepted, o, input))
      with
      | Ok (Some x, o, input) => let (l, r) := inbound_loop fuel peer o input in (x :: l, r)
      | Ok (None, o, input) => inbound_loop fuel peer o input
      | Err e => ([], Err e)
      | Panic => ([], Panic)
      end
    end
  end.

(** [handle_inbound] up to the routing of the accepted messages; a frame takes at
    least four bytes, so the length of the input is enough fuel. *)
Definition handle_inbound (auth : hub_auth) (nl input : list byte)
    : list (string * message) * outcome transport_error unit :=
  match (listener_handshake auth nl input).2 with
  | Ok (peer, o, rest) => inbound_loop (length rest) peer o rest
  | Err e => ([], Err e)
  | Panic => ([], Panic)
  end.
End Session.

(** ** The hub

    A group is served by the node loop behind a channel; channels are numbered.
    [hb_open] are those whose receiver is alive, [hb_inbox] what they received. *)
Record hub : Type := mkHub {
  hb_groups : gmap string nat;
  hb_open : gset nat;
  hb_inbox : list (nat * message);
  hb_queues : gmap Z (list (list byte)) }.

Inductive hub_error : Type := Unauthenticated | OwnPeer | BadGroupName | GroupRegistered.

(** The checks of [RaftHub::bind], and what it is to be. *)
Definition hub_bind (me : Z) (loopback : bool) (peers : gset Z) (shared_secret : option string)
    : outcome hub_error (hub_auth * hub) :=
  let secret := match shared_secret with Some s => as_bytes s | None => [] end in
  if bool_decide (secret = []) && negb loopback then Err Unauthenticated
  else if bool_decide (me ∈ peers) then Err OwnPeer
  else Ok (mkAuth me secret peers, mkHub ∅ ∅ [] (gset_to_gmap [] peers)).

Definition set_groups (h : hub) (gs : gmap string nat) : hub := mkHub gs (hb_open h) (hb_inbox h) (hb_queues h).

(** [RaftHub::register], before its dispatcher task runs. *)
Definition hub_register (h : hub) (group : string) (chan : nat) : outcome hub_error hub :=
  let n := len (as_bytes group) in
  if (n =? 0) || (MAX_GROUP_LEN <? n) then Err BadGroupName
  else match hb_groups h !! group with
       | Some _ => Err GroupRegistered
       | None => Ok (set_groups h (<[group := chan]> (hb_groups h)))
       end.

Definition unregister (h : hub) (group : string) : hub := set_groups h (delete group (hb_groups h)).

(** The end of a dispatcher: [remove_if] of its own registration. *)
Definition dispatcher_exit (h : hub) (group : string) (chan : nat) : hub :=
  if bool_decide (hb_groups h !! group = Some chan) then unregister h group else h.

(** Routing an accepted message; a group whose node loop is gone is removed. *)
Definition route_message (h : hub) (gm : string * message) : hub :=
  match hb_groups h !! gm.1 with
  | None => h
  | Some chan =>
    if bool_decide (chan ∈ hb_open h)
    then mkHub (hb_groups h) (hb_open h) (hb_inbox h ++ [(chan, gm.2)]) (hb_queues h)
    else unregister h gm.1
  end.

(** [enqueue]: a full queue drops the frame, as does a peer that is not there. *)
Definition enqueue (q : gmap Z (list (list byte))) (peer : Z) (payload : list byte) : gmap Z (list (list byte)) :=
  match q !! peer with
  | Some l => if len l <? PEER_QUEUE then <[peer := l ++ [payload]]> q else q
  | None => q
  end.

Definition set_queues (h : hub) q : hub := mkHub (hb_groups h) (hb_open h) (hb_inbox h) q.

(** One turn of a group's dispatcher; only the two kinds of actions that are sent
    reach it. *)
Definition dispatch (h : hub) (group : string) (out : action) : hub :=
  match out with
  | SendTo peer m => set_queues h (enqueue (hb_queues h) peer (encode_payload group m))
  | Broadcast m =>
    let payload := encode_payload group m in
    set_queues h (fold_left (fun q p => enqueue q p payload) (elements (dom (hb_queues h))) (hb_queues h))
  | _ => h
  end.

(** The receiving end of a peer's queue: the next payload, and the frames thrown
    away when a connection broke. *)
Definition pop_queue (h : hub) (peer : Z) : option (list byte * hub) :=
  match hb_queues h !! peer with
  | Some (p :: ps) => Some (p, set_queues h (<[peer := ps]> (hb_queues h)))
  | _ => None
  end.

Definition drain_queue (h : hub) (peer : Z) : hub := set_queues h (alter (fun _ => []) peer (hb_queues h)).

(** [run_outbound] after its handshake: what it has written after [n] frames. *)
Fixpoint run_outbound `{Hashing} (n : nat) (h : hub) (peer : Z) (s : sealer) : list byte * hub :=
  match n with
  | O => ([], h)
  | S n =>
    match pop_queue h peer with
    | None => ([], h)
    | Some (payload, h) =>
      let (frame, s) := seal s payload in
      let (out, h) := run_outbound n h peer s in (frame ++ out, h)
    end
  end.

(** What tasks do to the routing table. *)
Inductive hub_step : hub -> hub -> Prop :=
| HRegister h group chan h' : chan ∉ (map_to_list (hb_groups h)).*2 -> hub_register h group chan = Ok h' ->
    hub_step h (mkHub (hb_groups h') (hb_open h' ∪ {[chan]}) (hb_inbox h') (hb_queues h'))
| HUnregister h group : hub_step h (unregister h group)
| HExit h group chan : hub_step h (dispatcher_exit h group chan)
| HClose h chan : hub_step h (mkHub (hb_groups h) (hb_open h ∖ {[chan]}) (hb_inbox h) (hb_queues h))
| HRoute h gm : hub_step h (route_message h gm)
| HDispatch h group out : hub_step h (dispatch h group out)
| HPop h peer p h' : pop_queue h peer = Some (p, h') -> hub_step h h'
| HDrain h peer : hub_step h (drain_queue h peer).
