(* ===== verification/TransportSpec.v ===== *)
(** * What a Raft session guarantees

    Two theorems on the transport: whatever bytes arrive on a connection, the
    messages that reach the groups are a prefix of what one authenticated peer sent
    on this very connection, as long as nobody else can make the codes; and what a
    peer's groups queue arrives. *)

From S2P Require Export Transport.

#[local] Open Scope Z_scope.

(** ** Comparing codes *)

Lemma fold_diff l d :
  0 <= d ->
  fold_left (fun diff (xy : byte * byte) => Z.lor diff (Z.lxor (Z_of_byte xy.1) (Z_of_byte xy.2))) l d = 0 <->
  d = 0 /\ Forall (fun xy => xy.1 = xy.2) l.
Proof.
  revert d. induction l as [|[x y] l IH]; intros d Hd; cbn.
  { split; [intros ->; by split|by intros [-> _]]. }
  assert (0 <= Z.lxor (Z_of_byte x) (Z_of_byte y)) as Hx.
  { apply Z.lxor_nonneg. pose proof (Z_of_byte_range x). pose proof (Z_of_byte_range y). split; lia. }
  rewrite IH by (apply Z.lor_nonneg; lia). rewrite Z.lor_eq_0_iff, Z.lxor_eq_0_iff, Forall_cons. cbn.
  split; [intros [[-> E] Hl]|intros [-> [-> Hl]]]; [by apply Z_of_byte_inj in E as ->|done].
Qed.

Lemma zip_equal (a b : list byte) : length a = length b -> Forall (fun xy => xy.1 = xy.2) (zip a b) <-> a = b.
Proof.
  revert b. induction a as [|x a IH]; intros [|y b] Hl; try done. cbn. rewrite Forall_cons, IH by (cbn in Hl; lia).
  cbn. naive_solver.
Qed.

Lemma constant_time_eq_spec a b : constant_time_eq a b = bool_decide (a = b).
Proof.
  unfold constant_time_eq. destruct (length a =? length b)%nat eqn:E; cbn [andb].
  - apply Nat.eqb_eq in E. destruct (fold_left _ _ _ =? 0) eqn:F.
    + apply Z.eqb_eq, (fold_diff _ 0) in F as [_ F]; [|done]. apply zip_equal in F; [|done]. by rewrite bool_decide_true.
    + apply Z.eqb_neq in F. rewrite bool_decide_false; [done|]. intros ->. apply F, fold_diff; [done|].
      split; [done|]. by apply zip_equal.
  - apply Nat.eqb_neq in E. rewrite bool_decide_false; [done|]. by intros ->.
Qed.

Section Spec.
Context `{Hashing}.

Lemma hmac_len key parts : length (hmac_sha256 key parts) = 32%nat.
Proof. apply sha256_len. Qed.

(** ** Frames *)

Lemma open_frame_inv key seq frame payload o :
  open_frame (mkOpener key seq) frame = Ok (payload, o) ->
  frame = payload ++ hmac_sha256 key [to_be 8 seq; payload] /\ o = mkOpener key (wrap_u 64 (seq + 1)).
Proof.
  unfold open_frame. cbn. intros E. case_if_in E; [done|]. rewrite constant_time_eq_spec in E.
  case_bool_decide as Hm; [|done]. cbn [negb] in E. simplify_eq. rewrite <- Hm. by rewrite take_drop.
Qed.

Lemma open_sealed key seq payload :
  open_frame (mkOpener key seq) (payload ++ hmac_sha256 key [to_be 8 seq; payload]) =
  Ok (payload, mkOpener key (wrap_u 64 (seq + 1))).
Proof.
  unfold open_frame. cbn [op_key op_seq]. set (mac := hmac_sha256 key _).
  assert (length mac = 32%nat) as Hl by apply hmac_len.
  rewrite (proj2 (Z.ltb_ge _ _)) by (unfold MAC_LEN, len; rewrite length_app; lia).
  replace (length (payload ++ mac) - 32)%nat with (length payload) by (rewrite length_app; lia).
  rewrite take_app_length, drop_app_length, constant_time_eq_spec. by rewrite bool_decide_true.
Qed.

(** What a payload that was opened becomes. *)
Definition accepted_by (peer : Z) (payload : list byte) : option (string * message) :=
  match accept_payload peer payload with Ok (Some x) => Some x | _ => None end.

Definition occurs (w l : list byte) : Prop := exists a b, l = a ++ w ++ b.

(** Every frame in [stream] whose code verifies under [key] is one that was sealed
    there, with its own counter. *)
Definition unforged (key stream : list byte) (sent : list (list byte)) : Prop :=
  forall n payload, 0 <= n < 2 ^ 64 -> occurs (payload ++ hmac_sha256 key [to_be 8 n; payload]) stream ->
    sent !! Z.to_nat n = Some payload.

Lemma occurs_later w pre l : occurs w l -> occurs w (pre ++ l).
Proof. intros (a & b & ->). exists (pre ++ a), b. by rewrite <- app_assoc. Qed.

Lemma unforged_later key pre stream sent : unforged key (pre ++ stream) sent -> unforged key stream sent.
Proof. intros Hu n payload Hn Ho. by apply Hu, occurs_later. Qed.

Lemma accept_sender peer payload x : accept_payload peer payload = Ok (Some x) -> msg_sender x.2 = peer.
Proof.
  unfold accept_payload. destruct (split_frame payload) as [[g body]|e|]; cbn; [|done..].
  destruct (decode_message body) as [m|]; [|done]. intros E. simplify_eq. case_if_in E; [done|].
  simplify_eq. cbn. by boolp.
Qed.

Lemma inbound_authentic fuel peer key seq input sent :
  unforged key input sent -> 0 <= seq -> seq + len input < 2 ^ 64 ->
  exists k, (inbound_loop fuel peer (mkOpener key seq) input).1 =
    omap (accepted_by peer) (take k (drop (Z.to_nat seq) sent)).
Proof.
  revert seq input. induction fuel as [|fuel IH]; intros seq input Hu Hs Hb; [by exists 0%nat|].
  cbn [inbound_loop]. destruct (rd_uint 4 input) as [[n rest]|] eqn:En; [|by exists 0%nat].
  apply rd_uint_inv in En as [-> Hn]. case_if; [by exists 0%nat|].
  unfold read_n. destruct (rd_bytes n rest) as [[frame rest']|] eqn:Ef; [|by exists 0%nat]. cbn [ok_or mbind outcome_bind].
  apply rd_bytes_inv in Ef as [-> Hf]; [|lia].
  destruct (open_frame _ frame) as [[payload o]|e|] eqn:Eo; [|by exists 0%nat..].
  apply open_frame_inv in Eo as [-> ->]. cbn [mbind outcome_bind].
  assert (sent !! Z.to_nat seq = Some payload) as Hp.
  { pose proof (len_nonneg (to_be 4 n ++ (payload ++ hmac_sha256 key [to_be 8 seq; payload]) ++ rest')).
    apply (Hu seq); [lia|]. by eexists (to_be 4 n), rest'. }
  rewrite (drop_S _ _ _ Hp).
  destruct (accept_payload peer payload) as [acc|e|] eqn:Ea; [|by exists 0%nat..]. cbn [mbind outcome_bind].
  rewrite app_assoc in Hu. apply unforged_later in Hu.
  rewrite !len_app in Hb. pose proof (to_be_len 4 n). pose proof (len_nonneg rest').
  pose proof (len_nonneg payload). pose proof (len_nonneg (hmac_sha256 key [to_be 8 seq; payload])).
  rewrite wrap_u_small by (unfold is_u; lia).
  destruct (IH (seq + 1) rest' Hu ltac:(lia) ltac:(lia)) as [k Hk].
  replace (Z.to_nat (seq + 1)) with (S (Z.to_nat seq)) in Hk by lia.
  exists (S k). cbn [take omap list_omap]. unfold accepted_by at 1. rewrite Ea.
  destruct acc as [x|]; [|exact Hk]. destruct (inbound_loop fuel peer _ rest') as [l r]. cbn in *. by rewrite Hk.
Qed.

(** ** The handshake *)

(** A connection a node opened: the nonces, the two ends and what it sealed. *)
Record session : Type := mkSession {
  ss_nd : list byte; ss_nl : list byte; ss_dialer : Z; ss_listener : Z; ss_sent : list (list byte) }.

Definition session_key (secret : list byte) (s : session) : list byte :=
  derive secret (as_bytes "session") (ss_nd s) (ss_nl s) (ss_dialer s) (ss_listener s).

Lemma listener_handshake_inv auth nl input out peer o rest :
  listener_handshake auth nl input = (out, Ok (peer, o, rest)) ->
  exists nd, len nd = NONCE_LEN /\ peer ∈ ha_peers auth /\
    input = (RAFT_MAGIC ++ to_be 4 peer ++ nd) ++
            derive (ha_secret auth) (as_bytes "dialer") nd nl peer (ha_me auth) ++ rest /\
    o = mkOpener (derive (ha_secret auth) (as_bytes "session") nd nl peer (ha_me auth)) 0.
Proof.
  unfold listener_handshake, read_n. intros E.
  destruct (rd_bytes 4 input) as [[magic i1]|] eqn:E1; [|done]. cbn [ok_or mbind outcome_bind] in E.
  destruct (rd_uint 4 i1) as [[dialer i2]|] eqn:E2; [|done]. cbn [ok_or mbind outcome_bind] in E.
  destruct (rd_bytes NONCE_LEN i2) as [[nd i3]|] eqn:E3; [|done]. cbn [ok_or mbind outcome_bind] in E.
  case_bool_decide as Hm; [|done]. cbn [negb] in E. case_bool_decide as Hd; [|done]. cbn [negb] in E.
  apply (f_equal snd) in E. cbn [snd] in E.
  destruct (rd_bytes MAC_LEN i3) as [[proof i4]|] eqn:E4; [|done]. cbn [ok_or mbind outcome_bind] in E.
  rewrite constant_time_eq_spec in E. case_bool_decide as Hp; [|done]. cbn [negb] in E. simplify_eq.
  apply rd_bytes_inv in E1 as [-> _]; [|done]. apply rd_uint_inv in E2 as [-> _].
  apply rd_bytes_inv in E3 as [-> Hn]; [|done]. apply rd_bytes_inv in E4 as [-> _]; [|done].
  exists nd. split_and!; [done..| |done]. by rewrite <- !app_assoc.
Qed.

(** The two sides of an undisturbed handshake. *)
Lemma handshake_completes auth me nd nl rest :
  is_u 32 me -> is_u 32 (ha_me auth) -> me ∈ ha_peers auth -> len nd = NONCE_LEN -> len nl = NONCE_LEN ->
  let secret := ha_secret auth in
  let reply := RAFT_MAGIC ++ to_be 4 (ha_me auth) ++ nl ++ derive secret (as_bytes "listener") nd nl me (ha_me auth) in
  let hello := (RAFT_MAGIC ++ to_be 4 me ++ nd) ++ derive secret (as_bytes "dialer") nd nl me (ha_me auth) in
  let key := derive secret (as_bytes "session") nd nl me (ha_me auth) in
  dialer_handshake me (ha_me auth) secret nd reply = (hello, Ok (mkSealer key 0, [])) /\
  listener_handshake auth nl (hello ++ rest) = (reply, Ok (me, mkOpener key 0, rest)).
Proof.
  intros Hme Hl Hp Hnd Hnl secret reply hello key.
  assert (forall label d l, len (derive secret label nd nl d l) = MAC_LEN) as Hmac.
  { intros. unfold len, derive. by rewrite hmac_len. }
  split.
  - unfold dialer_handshake, read_n. subst reply.
    rewrite (rd_bytes_n 4 RAFT_MAGIC) by done. cbn [ok_or mbind outcome_bind].
    rewrite rd_uint4_app by done. cbn [ok_or mbind outcome_bind].
    rewrite (rd_bytes_n NONCE_LEN nl) by done. cbn [ok_or mbind outcome_bind].
    rewrite <- (app_nil_r (derive secret (as_bytes "listener") _ _ _ _)) at 1.
    rewrite (rd_bytes_n MAC_LEN) by (symmetry; apply Hmac). cbn [ok_or mbind outcome_bind].
    rewrite constant_time_eq_spec, !bool_decide_true, Z.eqb_refl by done. done.
  - unfold listener_handshake, read_n. subst hello. rewrite <- !app_assoc.
    rewrite (rd_bytes_n 4 RAFT_MAGIC) by done. cbn [ok_or mbind outcome_bind].
    rewrite rd_uint4_app by done. cbn [ok_or mbind outcome_bind].
    rewrite (rd_bytes_n NONCE_LEN nd) by done. cbn [ok_or mbind outcome_bind].
    rewrite !bool_decide_true by done. cbn [negb].
    rewrite (rd_bytes_n MAC_LEN) by (symmetry; apply Hmac). cbn [ok_or mbind outcome_bind].
    rewrite constant_time_eq_spec, bool_decide_true by done. done.
Qed.

(** ** From queue to queue *)

Definition group_ok (group : string) : Prop :=
  1 <= len (as_bytes group) <= MAX_GROUP_LEN /\ utf8_valid (as_bytes group) = true.

Definition sendable (me : Z) (group : string) (m : message) : Prop :=
  message_wf m /\ msg_sender m = me /\ len (encode_payload group m) + MAC_LEN <= MAX_RAFT_FRAME.

Lemma accept_encoded me group m :
  group_ok group -> sendable me group m -> accept_payload me (encode_payload group m) = Ok (Some (group, m)).
Proof.
  intros [Hg Hu] (Hm & Hs & _). unfold accept_payload, encode_payload, split_frame. unfold MAX_GROUP_LEN in Hg.
  rewrite rd_uint2_app by (unfold is_u; lia).
  rewrite (proj2 (Z.eqb_neq _ 0)), (proj2 (Z.ltb_ge MAX_GROUP_LEN _)), (proj2 (Z.ltb_ge _ _))
    by (unfold MAX_GROUP_LEN; len_lia). cbn [orb].
  replace (Z.to_nat (len (as_bytes group))) with (length (as_bytes group)) by (unfold len; lia).
  rewrite take_app_length, drop_app_length, Hu, of_as_bytes. cbn [mbind outcome_bind].
  rewrite <- (app_nil_r (encode_message m)), (raft_message_roundtrip m []) by done.
  by rewrite Hs, Z.eqb_refl.
Qed.

(** The frames of [payloads] under [key], counted from [seq]. *)
Fixpoint sealed (key : list byte) (seq : Z) (payloads : list (list byte)) : list byte :=
  match payloads with
  | [] => []
  | p :: ps => to_be 4 (len p + MAC_LEN) ++ (p ++ hmac_sha256 key [to_be 8 seq; p]) ++ sealed key (seq + 1) ps
  end.

Lemma run_outbound_sealed n h peer key seq ps :
  hb_queues h !! peer = Some ps -> 0 <= seq -> seq + len ps < 2 ^ 64 ->
  (run_outbound n h peer (mkSealer key seq)).1 = sealed key seq (take n ps).
Proof.
  revert h seq ps. induction n as [|n IH]; intros h seq ps Hq Hs Hb; [done|].
  cbn [run_outbound]. unfold pop_queue. rewrite Hq. destruct ps as [|p ps]; [done|].
  rewrite len_cons in Hb. pose proof (len_nonneg ps).
  cbn [seal sl_key sl_seq]. rewrite wrap_u_small by (unfold is_u; lia).
  specialize (IH (set_queues h (<[peer:=ps]> (hb_queues h))) (seq + 1) ps).
  cbn [set_queues hb_queues] in IH. rewrite lookup_insert_eq in IH. specialize (IH eq_refl ltac:(lia) ltac:(lia)).
  destruct (run_outbound n _ peer _) as [out h']. cbn in IH |- *. rewrite IH, <- !app_assoc. done.
Qed.

Lemma inbound_sealed fuel me group key seq msgs :
  group_ok group -> Forall (sendable me group) msgs -> 0 <= seq -> seq + len msgs < 2 ^ 64 ->
  (length msgs <= fuel)%nat ->
  inbound_loop fuel me (mkOpener key seq) (sealed key seq (encode_payload group <$> msgs)) = (pair group <$> msgs, Ok tt).
Proof.
  intros Hg Hm. revert fuel seq. induction Hm as [|m msgs Hm Hms IH]; intros fuel seq Hs Hb Hf.
  { by destruct fuel. }
  destruct fuel as [|fuel]; [cbn in Hf; lia|]. cbn [fmap list_fmap sealed inbound_loop].
  destruct (Hm) as (_ & _ & Hl). rewrite len_cons in Hb. pose proof (len_nonneg msgs).
  pose proof (len_nonneg (encode_payload group m)). unfold MAC_LEN, MAX_RAFT_FRAME in *.
  rewrite rd_uint4_app by (unfold is_u; lia). rewrite (proj2 (Z.ltb_ge _ _)) by lia. unfold read_n.
  rewrite rd_bytes_n by (rewrite len_app; unfold len at 3; rewrite hmac_len; lia).
  cbn [ok_or mbind outcome_bind]. rewrite open_sealed. cbn [mbind outcome_bind].
  rewrite accept_encoded by done. cbn [mbind outcome_bind]. rewrite wrap_u_small by (unfold is_u; lia).
  rewrite IH; [done|lia|lia|cbn in Hf; lia].
Qed.

Lemma sealed_length key seq ps : (length ps <= length (sealed key seq ps))%nat.
Proof.
  revert seq. induction ps as [|p ps IH]; intros seq; cbn [sealed length]; [lia|].
  rewrite !length_app, to_be_length. specialize (IH (seq + 1)). lia.
Qed.

(** Queueing messages for a peer that has room for them. *)
Lemma dispatch_all h group peer msgs q :
  hb_queues h !! peer = Some q -> len q + len msgs <= PEER_QUEUE ->
  hb_queues (fold_left (fun h m => dispatch h group (SendTo peer m)) msgs h) !! peer =
    Some (q ++ (encode_payload group <$> msgs)).
Proof.
  revert h q. induction msgs as [|m msgs IH]; intros h q Hq Hl; [by rewrite app_nil_r|].
  cbn [fold_left fmap list_fmap]. rewrite len_cons in Hl. pose proof (len_nonneg msgs).
  erewrite (IH _ (q ++ [encode_payload group m])).
  - by rewrite <- app_assoc.
  - cbn [dispatch set_queues hb_queues]. unfold enqueue. rewrite Hq, (proj2 (Z.ltb_lt _ _)) by lia.
    apply lookup_insert_eq.
  - rewrite len_app. unfold len at 2. cbn. lia.
Qed.

Lemma route_all_open h group chan msgs :
  hb_groups h !! group = Some chan -> chan ∈ hb_open h ->
  hb_inbox (fold_left route_message (pair group <$> msgs) h) = hb_inbox h ++ (pair chan <$> msgs).
Proof.
  revert h. induction msgs as [|m msgs IH]; intros h Hg Ho; [by rewrite app_nil_r|].
  cbn [fmap list_fmap fold_left]. rewrite IH; unfold route_message; cbn; rewrite Hg, bool_decide_true by done; cbn;
    [by rewrite <- app_assoc|done..].
Qed.

(** A registration is only undone by its own dispatcher, its own closed channel or
    an explicit call, and a second one is refused. *)
Lemma registration_is_own h group chan :
  hb_groups h !! group = Some chan ->
  (forall c, hub_register h group c = Err GroupRegistered \/ hub_register h group c = Err BadGroupName) /\
  (forall g c, c <> chan -> hb_groups (dispatcher_exit h g c) !! group = Some chan) /\
  (chan ∈ hb_open h -> forall gm, hb_groups (route_message h gm) !! group = Some chan).
Proof.
  intros Hg. split_and!.
  - intros c. unfold hub_register. case_if; [by right|]. rewrite Hg. by left.
  - intros g c Hc. unfold dispatcher_exit. case_bool_decide as E; [|done]. cbn.
    rewrite lookup_delete_ne; [done|]. intros ->. congruence.
  - intros Ho [g m]. unfold route_message. cbn. destruct (hb_groups h !! g) as [c|] eqn:E; [|done].
    case_bool_decide as Hc; [done|]. cbn. rewrite lookup_delete_ne; [done|]. intros ->. congruence.
Qed.

(** No two groups share a channel, whatever the tasks of the hub do; so a message
    reaches the node loop of the group it names and no other. *)
Definition hub_ok (h : hub) : Prop :=
  forall g1 g2 c, hb_groups h !! g1 = Some c -> hb_groups h !! g2 = Some c -> g1 = g2.

Lemma hub_ok_delete h group : hub_ok h -> hub_ok (unregister h group).
Proof. intros Hh g1 g2 c E1 E2. cbn in *. apply lookup_delete_Some in E1 as [_ E1], E2 as [_ E2]. by eapply Hh. Qed.

Lemma hub_step_ok h h' : hub_step h h' -> hub_ok h -> hub_ok h'.
Proof.
  intros Hs Hh. destruct Hs as [h g c h' Hc Hr|h g|h g c|h c|h gm|h g out|h p x h' Hp|h p].
  - unfold hub_register in Hr. case_if_in Hr; [done|]. destruct (hb_groups h !! g) eqn:E; simplify_eq.
    assert (forall g' , hb_groups h !! g' <> Some c) as Hf.
    { intros g' Hg'. apply Hc, list_elem_of_fmap. exists (g', c). split; [done|]. by apply elem_of_map_to_list. }
    intros g1 g2 c' E1 E2. cbn in *. apply lookup_insert_Some in E1, E2.
    destruct E1 as [[<- <-]|[_ E1]], E2 as [[<- E2]|[_ E2]]; [done|by destruct (Hf g2)|subst; by destruct (Hf g1)|by eapply Hh].
  - by apply hub_ok_delete.
  - unfold dispatcher_exit. case_bool_decide; [by apply hub_ok_delete|done].
  - exact Hh.
  - unfold route_message. destruct (hb_groups h !! gm.1); [|done]. case_bool_decide; [exact Hh|by apply hub_ok_delete].
  - by destruct out.
  - unfold pop_queue in Hp. destruct (hb_queues h !! p) as [[|? ?]|]; simplify_eq. exact Hh.
  - exact Hh.
Qed.

(** C20: only the peer's own messages get through.  Take any bytes on an inbound
    connection.  Assume that a proof for the nonce this listener drew was made by a
    session of the node it names, and that a frame with a valid code of such a
    session was sealed there.  Then the messages accepted are those of one session,
    opened by a configured peer towards this node and this nonce: a prefix of what
    it sealed, in its order, each once, all sent in the peer's own name.  Nothing is
    injected, replayed, reordered or skipped. *)
Theorem raft_session_authentic auth nl stream (sessions : list session) :
  len stream < 2 ^ 64 ->
  (forall nd d rest, len nd = NONCE_LEN -> d ∈ ha_peers auth ->
     stream = (RAFT_MAGIC ++ to_be 4 d ++ nd) ++ derive (ha_secret auth) (as_bytes "dialer") nd nl d (ha_me auth) ++ rest ->
     exists s, s ∈ sessions /\ ss_nd s = nd /\ ss_nl s = nl /\ ss_dialer s = d /\ ss_listener s = ha_me auth) ->
  (forall s, s ∈ sessions -> ss_nl s = nl -> unforged (session_key (ha_secret auth) s) stream (ss_sent s)) ->
  let accepted := (handle_inbound auth nl stream).1 in
  accepted = [] \/
  exists s k, s ∈ sessions /\ ss_nl s = nl /\ ss_listener s = ha_me auth /\ ss_dialer s ∈ ha_peers auth /\
    accepted = omap (accepted_by (ss_dialer s)) (take k (ss_sent s)) /\
    Forall (fun x => msg_sender x.2 = ss_dialer s) accepted.
Proof.
  intros Hb Hproof Hseal accepted. subst accepted. unfold handle_inbound.
  destruct (listener_handshake auth nl stream) as [out [[[peer o] rest]|e|]] eqn:E; cbn [snd]; [|by left..].
  right. apply listener_handshake_inv in E as (nd & Hn & Hp & Hst & ->).
  destruct (Hproof nd peer rest Hn Hp Hst) as (s & Hs & Hnd & Hnl & Hd & Hl).
  specialize (Hseal s Hs Hnl). unfold session_key in Hseal. rewrite Hnd, Hnl, Hd, Hl, Hst, app_assoc in Hseal.
  apply unforged_later in Hseal. rewrite Hst, !len_app in Hb.
  pose proof (len_nonneg RAFT_MAGIC). pose proof (len_nonneg nd). pose proof (to_be_len 4 peer).
  pose proof (len_nonneg (derive (ha_secret auth) (as_bytes "dialer") nd nl peer (ha_me auth))).
  destruct (inbound_authentic (length rest) peer _ 0 rest (ss_sent s) Hseal ltac:(lia) ltac:(lia)) as [k Hk].
  exists s, k. rewrite Hd. split_and!; [done..|]. rewrite Hk. apply Forall_forall. intros x Hx.
  apply list_elem_of_omap in Hx as (payload & _ & Hx). unfold accepted_by in Hx.
  destruct (accept_payload peer payload) as [[y|]|e|] eqn:Ea; simplify_eq. by eapply accept_sender.
Qed.

(** C21: what a group sends arrives.  Two nodes with the same secret, each knowing the
    other, complete the handshake; messages a group queues for the peer (at most
    the length of the queue, in the node's own name, within the frame limit) come
    out on the other side in order, under the same group, however many of them the
    connection manages to write, and are put into the channel of that group. *)
Theorem raft_link_delivers auth me nd nl group h msgs n hl chan :
  is_u 32 me -> is_u 32 (ha_me auth) -> me ∈ ha_peers auth -> len nd = NONCE_LEN -> len nl = NONCE_LEN ->
  group_ok group -> Forall (sendable me group) msgs -> len msgs <= PEER_QUEUE ->
  hb_queues h !! ha_me auth = Some [] ->
  hb_groups hl !! group = Some chan -> chan ∈ hb_open hl ->
  let h' := fold_left (fun h m => dispatch h group (SendTo (ha_me auth) m)) msgs h in
  exists out_d out_l s,
    dialer_handshake me (ha_me auth) (ha_secret auth) nd out_l = (out_d, Ok (s, [])) /\
    let input := out_d ++ (run_outbound n h' (ha_me auth) s).1 in
    (listener_handshake auth nl input).1 = out_l /\
    handle_inbound auth nl input = (pair group <$> take n msgs, Ok tt) /\
    hb_inbox (fold_left route_message (handle_inbound auth nl input).1 hl) = hb_inbox hl ++ (pair chan <$> take n msgs).
Proof.
  intros Hme Hl Hp Hnd Hnl Hg Hm Hlen Hq Hgl Ho h'.
  pose proof (handshake_completes auth me nd nl) as Hh. cbv zeta in Hh.
  eexists _, _, _. split; [by apply (Hh [])|]. cbv zeta.
  set (key := derive (ha_secret auth) (as_bytes "session") nd nl me (ha_me auth)).
  assert ((run_outbound n h' (ha_me auth) (mkSealer key 0)).1 = sealed key 0 (encode_payload group <$> take n msgs)) as ->.
  { rewrite (run_outbound_sealed _ _ _ _ _ (encode_payload group <$> msgs)); [by rewrite fmap_take| |lia|].
    - by apply (dispatch_all h group (ha_me auth) msgs []).
    - rewrite len_fmap. unfold PEER_QUEUE in Hlen. lia. }
  assert (len (take n msgs) <= PEER_QUEUE) as Hn by (unfold len in *; rewrite length_take; lia).
  match goal with |- context [handle_inbound auth nl ?i] => assert (handle_inbound auth nl i = (pair group <$> take n msgs, Ok tt)) as Hin end.
  { unfold handle_inbound. destruct (Hh (sealed key 0 (encode_payload group <$> take n msgs)) Hme Hl Hp Hnd Hnl) as [_ ->].
    cbn [snd]. apply inbound_sealed; [done|by apply Forall_take|lia|unfold PEER_QUEUE in Hn; lia|].
    etransitivity; [|apply sealed_length]. by rewrite length_fmap. }
  rewrite Hin. split_and!; [|done|by apply route_all_open].
  by destruct (Hh (sealed key 0 (encode_payload group <$> take n msgs)) Hme Hl Hp Hnd Hnl) as [_ ->].
Qed.
End Spec.

(** ** Examples

    A hash for examples: what follows the first block, cut to its length.  A code
    then shows the counter and the first bytes of its payload. *)
Section TransportExamples.
Definition block_hashing : Hashing.
Proof.
  refine {| sha256 l := take 32 (drop 64 l ++ replicate 32 x00); base64url := of_bytes |}.
  intros l. rewrite length_take, length_app, length_replicate. lia.
Defined.
#[local] Existing Instance block_hashing.

Definition link_auth : hub_auth := mkAuth 2 (as_bytes "secret") {[ 1 ]}.
Definition link_nd : list byte := replicate 32 xd1.
Definition link_nl : list byte := replicate 32 xe2.
Definition link_message : message := RequestVote (mkRV 7 1 3 2).
Definition link_sent : list (list byte) := [encode_payload "t/0" link_message].
Definition link_session : session := mkSession link_nd link_nl 1 2 link_sent.
Definition link_key : list byte := session_key (as_bytes "secret") link_session.

(** The bytes of that session. *)
Definition link_hello : list byte :=
  (RAFT_MAGIC ++ to_be 4 1 ++ link_nd) ++ derive (as_bytes "secret") (as_bytes "dialer") link_nd link_nl 1 2.
Definition link_stream : list byte := link_hello ++ sealed link_key 0 link_sent.

(** The mac is the counter and the head of the payload, so the places where a frame
    can sit are finitely many. *)
Definition unforged_at (stream : list byte) (sent : list (list byte)) (i j : nat) : bool :=
  let payload := take j (drop i stream) in
  let mac := take 32 (drop (i + j) stream) in
  let n := from_be (take 8 mac) in
  if bool_decide (mac = take 32 ((to_be 8 n ++ payload) ++ replicate 32 x00))
  then (n <? 10) && bool_decide (sent !! Z.to_nat n = Some payload) else true.

Lemma unforged_check key stream sent :
  forallb (fun i => forallb (unforged_at stream sent i) (seq 0 (S (length stream - i)))) (seq 0 (S (length stream))) = true ->
  unforged key stream sent.
Proof.
  intros Hc n payload Hn (a & b & Hst). rewrite forallb_forall in Hc.
  specialize (Hc (length a)). rewrite in_seq, forallb_forall in Hc.
  assert (length stream = length a + length payload + 32 + length b)%nat as Hl.
  { rewrite Hst, !length_app, hmac_len. lia. }
  specialize (Hc ltac:(lia) (length payload)). rewrite in_seq in Hc. specialize (Hc ltac:(lia)).
  unfold unforged_at in Hc.
  assert (take (length payload) (drop (length a) stream) = payload) as Hp.
  { by rewrite Hst, drop_app_length, <- app_assoc, take_app_length. }
  assert (hmac_sha256 key [to_be 8 n; payload] = take 32 ((to_be 8 n ++ payload) ++ replicate 32 x00)) as Hm.
  { unfold hmac_sha256. cbn [sha256 block_hashing concat]. set (k := if 64 <? len key then _ else _).
    assert (length k <= 64)%nat as Hk.
    { subst k. case_if; [|unfold len in *; boolp; lia]. rewrite length_take. lia. }
    assert (forall pad, length (xor_block pad (k ++ replicate (64 - length k) x00)) = 64%nat) as Hx.
    { intros. unfold xor_block. rewrite length_fmap, length_app, length_replicate. lia. }
    rewrite !drop_app_length' by (symmetry; apply Hx). rewrite app_nil_r.
    rewrite take_app_le by (rewrite length_take, !length_app, length_replicate; lia).
    by rewrite take_take, Nat.min_id. }
  assert (take 32 (drop (length a + length payload) stream) = hmac_sha256 key [to_be 8 n; payload]) as Hmac.
  { rewrite Hst, <- app_assoc, app_assoc, drop_app_length' by (rewrite length_app; lia).
    rewrite take_app_length' by (symmetry; apply hmac_len). done. }
  rewrite Hp, Hmac, Hm in Hc.
  rewrite take_take, (Nat.min_l 8 32) in Hc by lia.
  rewrite <- app_assoc, (take_app_length' _ _ 8) in Hc by (symmetry; apply to_be_length).
  rewrite from_be8 in Hc by done. rewrite <- app_assoc, bool_decide_true in Hc by done.
  apply andb_true_iff in Hc as [_ Hc]. by apply bool_decide_eq_true in Hc.
Qed.

Lemma raft_session_authentic_witness :
  let accepted := (handle_inbound link_auth link_nl link_stream).1 in
  accepted = [] \/
  exists s k, s ∈ [link_session] /\ ss_nl s = link_nl /\ ss_listener s = 2 /\ ss_dialer s ∈ ha_peers link_auth /\
    accepted = omap (accepted_by (ss_dialer s)) (take k (ss_sent s)) /\
    Forall (fun x => msg_sender x.2 = ss_dialer s) accepted.
Proof.
  apply (raft_session_authentic link_auth link_nl link_stream [link_session]).
  - vm_compute. reflexivity.
  - intros nd d rest Hn Hd Hst. exists link_session. split; [left|].
    cbn [link_auth ha_peers] in Hd. apply elem_of_singleton in Hd as ->. unfold link_stream, link_hello in Hst.
    rewrite <- !app_assoc in Hst. apply app_inv_head, app_inv_head in Hst.
    apply app_inj_1 in Hst as [Hst _]; [by split_and!|]. unfold NONCE_LEN, len in Hn. change (length link_nd) with 32%nat. lia.
  - intros s Hs _. apply list_elem_of_singleton in Hs as ->. apply unforged_check. vm_compute. reflexivity.
Defined.

(** A frame that is sent twice is refused the second time. *)
Example replay_refused :
  handle_inbound link_auth link_nl (link_stream ++ sealed link_key 0 link_sent) = ([("t/0"%string, link_message)], Err TDenied).
Proof. vm_compute. reflexivity. Qed.

Definition link_hub : hub := mkHub ∅ ∅ [] {[ 2 := [] ]}.
Definition far_hub : hub := mkHub {[ "t/0"%string := 4%nat ]} {[ 4%nat ]} [] ∅.

Lemma raft_link_delivers_witness :
  exists out_d out_l s,
    dialer_handshake 1 2 (as_bytes "secret") link_nd out_l = (out_d, Ok (s, [])) /\
    let input := out_d ++ (run_outbound 5 (dispatch link_hub "t/0" (SendTo 2 link_message)) 2 s).1 in
    (listener_handshake link_auth link_nl input).1 = out_l /\
    handle_inbound link_auth link_nl input = ([("t/0"%string, link_message)], Ok tt) /\
    hb_inbox (fold_left route_message (handle_inbound link_auth link_nl input).1 far_hub) = [(4%nat, link_message)].
Proof.
  apply (raft_link_delivers link_auth 1 link_nd link_nl "t/0" link_hub [link_message] 5 far_hub 4).
  - by vm_compute.
  - by vm_compute.
  - cbn. by apply elem_of_singleton.
  - reflexivity.
  - reflexivity.
  - split; [|reflexivity]. vm_compute. split; congruence.
  - repeat constructor; vm_compute; (congruence || reflexivity).
  - vm_compute. congruence.
  - reflexivity.
  - reflexivity.
  - cbn. by apply elem_of_singleton.
Defined.
End TransportExamples.
