(* ===== verification/Schema.v ===== *)
(** * The schema registry (schema.rs, http/schemas.rs)

    Registering a schema, its compatibility check, the file and its reading, and the
    handlers.  Parsing JSON is third-party code ([serde_json], the class
    [JsonText]); a [Value] is a [json].  The file is written through
    [fsutil::write_atomic] and is therefore a value that is replaced as a whole.
    The registry is a concurrent hash map whose order of iteration is unspecified:
    it is the parameter [iter]. *)

From S2P Require Export Auth.

#[local] Open Scope Z_scope.

Inductive json : Type :=
| JNull
| JBool (b : bool)
| JNumber (text : string)
| JString (s : string)
| JArray (l : list json)
| JObject (fields : list (string * json)).

Class JsonText : Type := { json_from_str : string -> option json }.

Definition field (fields : list (string * json)) (name : string) : option json :=
  (fun x => x.2.2) <$> list_find (fun kv => kv.1 = name) fields.

(** [Value::get] with a string. *)
Definition json_get (v : json) (name : string) : option json :=
  match v with JObject fields => field fields name | _ => None end.

Definition json_str (v : json) : option string := match v with JString s => Some s | _ => None end.

Definition required_fields (schema : json) : list string :=
  match json_get schema "required" with
  | Some (JArray l) => omap json_str l
  | _ => []
  end.

Inductive schema_error : Type :=
| BadSubject | BadType | BadSize | RegistryFull | NotJson | PreviousMissing | AddsRequired (f : string)
| RemovesProperty (f : string) | WriteFailed.

Section Registry.
Context `{JsonText}.
Context (iter : forall {A : Type}, list A -> list A).

Definition check_compatibility (old_schema new_schema : string) : outcome schema_error unit :=
  old ← ok_or NotJson (json_from_str old_schema);
  new ← ok_or NotJson (json_from_str new_schema);
  match list_find (fun f => f ∉ required_fields old) (required_fields new) with
  | Some (_, f) => Err (AddsRequired f)
  | None =>
    match json_get old "properties", json_get new "properties" with
    | Some (JObject old_props), Some (JObject new_props) =>
      match list_find (fun kv => field new_props kv.1 = None) old_props with
      | Some (_, kv) => Err (RemovesProperty kv.1)
      | None => Ok tt
      end
    | _, _ => Ok tt
    end
  end.

Record schema_entry : Type := mkSchema {
  se_id : Z; se_subject : string; se_type : string; se_schema : string; se_created_at_ms : Z }.

Record persisted_schemas : Type := mkPersistedSchemas { px_next_id : Z; px_schemas : list schema_entry }.

Record schema_store : Type := mkSchemas {
  sx_schemas : gmap Z schema_entry;
  sx_subjects : gmap string Z;
  sx_next_id : Z;
  sx_file : option persisted_schemas }.

Definition MAX_SCHEMAS : Z := 100000.

(** [SchemaStore::open], once the file is parsed. *)
Definition schemas_open (file : option persisted_schemas) : schema_store :=
  let (next_id, entries) := match file with Some p => (px_next_id p, px_schemas p) | None => (1, []) end in
  mkSchemas
    (fold_left (fun m e => <[se_id e := e]> m) entries ∅)
    (fold_left (fun m e => <[se_subject e := se_id e]> m) entries ∅)
    next_id file.

Definition valid_type (t : string) : bool :=
  String.eqb t "json_schema" || String.eqb t "avro" || String.eqb t "protobuf".

(** [SchemaStore::flush]; [write_ok] is the outcome of the write. *)
Definition schemas_flush (s : schema_store) (write_ok : bool) : bool * schema_store :=
  if write_ok
  then (true, mkSchemas (sx_schemas s) (sx_subjects s) (sx_next_id s)
                (Some (mkPersistedSchemas (sx_next_id s) (iter _ (map_to_list (sx_schemas s)).*2))))
  else (false, s).

(** The previous version of a subject, as the check needs it. *)
Definition compatible_with_previous (s : schema_store) (subject schema_type schema : string) : outcome schema_error unit :=
  if String.eqb schema_type "json_schema" then
    match sx_subjects s !! subject with
    | Some prev_id =>
      prev ← ok_or PreviousMissing (sx_schemas s !! prev_id);
      check_compatibility (se_schema prev) schema
    | None => Ok tt
    end
  else Ok tt.

(** [SchemaStore::register], under its lock. *)
Definition register_schema (s : schema_store) (subject schema_type schema : string) (now : Z) (write_ok : bool)
    : outcome schema_error schema_entry * schema_store :=
  if negb (valid_name subject) then (Err BadSubject, s)
  else if negb (valid_type schema_type) then (Err BadType, s)
  else if String.eqb schema "" || (512 * 1024 <? Z.of_nat (String.length schema)) then (Err BadSize, s)
  else if MAX_SCHEMAS <=? Z.of_nat (size (sx_schemas s)) then (Err RegistryFull, s)
  else match json_from_str schema with
  | None => (Err NotJson, s)
  | Some _ =>
    match compatible_with_previous s subject schema_type schema with
    | Ok _ =>
      let id := sx_next_id s in
      let entry := mkSchema id subject schema_type schema now in
      let s1 := mkSchemas (<[id := entry]> (sx_schemas s)) (<[subject := id]> (sx_subjects s))
                  (wrap_u 32 (id + 1)) (sx_file s) in
      match schemas_flush s1 write_ok with
      | (true, s2) => (Ok entry, s2)
      | (false, s2) =>
        (Err WriteFailed,
         mkSchemas (delete id (sx_schemas s2))
           (match sx_subjects s !! subject with
            | Some p => <[subject := p]> (sx_subjects s2)
            | None => delete subject (sx_subjects s2)
            end) (sx_next_id s2) (sx_file s2))
      end
    | Err e => (Err e, s)
    | Panic => (Panic, s)
    end
  end.

Definition schema_get (s : schema_store) (id : Z) : option schema_entry := sx_schemas s !! id.

(** [list]: sorted by id. *)
Definition entry_le (a b : schema_entry) : Prop := se_id a <= se_id b.
#[global] Instance entry_le_dec : RelDecision entry_le := fun a b => Z_le_dec (se_id a) (se_id b).
Definition schema_list (s : schema_store) : list schema_entry := merge_sort entry_le (iter _ (map_to_list (sx_schemas s)).*2).

Definition latest_version (s : schema_store) (subject : string) : option schema_entry :=
  id ← sx_subjects s !! subject; schema_get s id.

(** ** The handlers of http/schemas.rs *)

Inductive schema_refusal : Type := AdminRequired | BadSchema (e : schema_error) | SchemaNotFound.

Definition http_register (k : api_key) (s : schema_store) (subject : string) (schema_type : option string)
    (schema : string) (now : Z) (write_ok : bool) : outcome schema_refusal Z * schema_store :=
  if negb (is_admin k) then (Err AdminRequired, s)
  else
    let (o, s) := register_schema s subject (default "json_schema"%string schema_type) schema now write_ok in
    (e ← map_err BadSchema o; Ok (se_id e), s).

Definition http_get (k : api_key) (s : schema_store) (id : Z) : outcome schema_refusal schema_entry :=
  match schema_get s id with
  | Some e => if can k ActRead (se_subject e) then Ok e else Err SchemaNotFound
  | None => Err SchemaNotFound
  end.

Definition http_list (k : api_key) (s : schema_store) : list schema_entry :=
  filter (fun e => can k ActRead (se_subject e) = true) (schema_list s).

Definition http_latest (k : api_key) (s : schema_store) (subject : string) : outcome schema_refusal schema_entry :=
  match latest_version s subject with
  | Some e => if can k ActRead subject then Ok e else Err SchemaNotFound
  | None => Err SchemaNotFound
  end.

(** ** What the registry keeps *)

Definition entries (s : schema_store) : list schema_entry := (map_to_list (sx_schemas s)).*2.

Record schemas_ok (s : schema_store) : Prop := {
  sx_ids : forall id e, sx_schemas s !! id = Some e -> se_id e = id /\ 0 <= id < sx_next_id s;
  sx_subject : forall subject id, sx_subjects s !! subject = Some id ->
    exists e, sx_schemas s !! id = Some e /\ se_subject e = subject;
  sx_known : forall id e, sx_schemas s !! id = Some e -> is_Some (sx_subjects s !! se_subject e);
  sx_next : 0 <= sx_next_id s;
  sx_saved : match sx_file s with
             | Some p => 0 <= px_next_id p <= sx_next_id s /\ px_schemas p ≡ₚ entries s /\
                         forall id e, sx_schemas s !! id = Some e -> id < px_next_id p
             | None => sx_schemas s = ∅
             end }.

(** Registrations, whatever becomes of them, and restarts. *)
Inductive schema_step : schema_store -> schema_store -> Prop :=
| SRegister s subject t schema now ok :
    sx_next_id s + 1 < 2 ^ 32 -> schema_step s (register_schema s subject t schema now ok).2
| SRestart s : schema_step s (schemas_open (sx_file s)).

Lemma entries_elem s e : (forall id e, sx_schemas s !! id = Some e -> se_id e = id) ->
  e ∈ entries s <-> sx_schemas s !! se_id e = Some e.
Proof.
  intros Hid. unfold entries. rewrite list_elem_of_fmap. split.
  - intros ([id e'] & -> & He). apply elem_of_map_to_list in He. cbn. by rewrite (Hid _ _ He).
  - intros He. exists (se_id e, e). split; [done|]. by apply elem_of_map_to_list.
Qed.

(** Loading entries with distinct ids. *)
Lemma load_schemas (l : list schema_entry) (m : gmap Z schema_entry) id e :
  NoDup (se_id <$> l) ->
  fold_left (fun m e => <[se_id e := e]> m) l m !! id = Some e <->
  (e ∈ l /\ se_id e = id) \/ (id ∉ (se_id <$> l) /\ m !! id = Some e).
Proof.
  revert m. induction l as [|x l IH]; intros m Hn; cbn.
  { rewrite elem_of_nil. set_solver. }
  apply NoDup_cons in Hn as [Hx Hn]. rewrite IH by done. rewrite elem_of_cons, not_elem_of_cons, lookup_insert_Some.
  split.
  - intros [[He Hi]|[Hi [[Hk <-]|[Hk Hm]]]]; [by auto|by auto|]. right. split; [|done]. split; [congruence|done].
  - intros [[[->|He] Hi]|[[Hk Hi] Hm]]; [|by auto|by right; auto].
    right. rewrite <- Hi. by auto.
Qed.

Lemma load_subjects (l : list schema_entry) (m : gmap string Z) subject id :
  fold_left (fun m e => <[se_subject e := se_id e]> m) l m !! subject = Some id ->
  (exists e, e ∈ l /\ se_subject e = subject /\ se_id e = id) \/ m !! subject = Some id.
Proof.
  revert m. induction l as [|x l IH]; intros m; cbn; [by right|]. intros E.
  destruct (IH _ E) as [(e & He & Hs)|E']; [left; exists e; split; [by right|done]|].
  apply lookup_insert_Some in E' as [[<- <-]|[_ E']]; [|by right]. left. exists x. split; [left|done].
Qed.

Lemma load_subjects_known (l : list schema_entry) (m : gmap string Z) subject :
  (exists e, e ∈ l /\ se_subject e = subject) \/ is_Some (m !! subject) ->
  is_Some (fold_left (fun m e => <[se_subject e := se_id e]> m) l m !! subject).
Proof.
  revert m. induction l as [|x l IH]; intros m; cbn.
  { intros [(e & He & _)|Hm]; [by apply elem_of_nil in He|done]. }
  intros Hs. apply IH. destruct Hs as [(e & He & Hs)|Hm].
  - apply elem_of_cons in He as [->|He]; [right; rewrite Hs, lookup_insert_eq; by eexists|left; by exists e].
  - right. destruct (decide (se_subject x = subject)) as [->|Hne]; [rewrite lookup_insert_eq; by eexists|].
    by rewrite lookup_insert_ne.
Qed.

Lemma entries_nodup s : (forall id e, sx_schemas s !! id = Some e -> se_id e = id) -> NoDup (se_id <$> entries s).
Proof.
  intros Hid. unfold entries.
  replace (se_id <$> (map_to_list (sx_schemas s)).*2) with (map_to_list (sx_schemas s)).*1; [apply NoDup_fst_map_to_list|].
  rewrite <- list_fmap_compose. apply list_fmap_ext. intros i [id e] He. cbn.
  symmetry. apply Hid. by eapply elem_of_map_to_list, list_elem_of_lookup_2.
Qed.

(** A restart finds the same schemas; which version of a subject is the latest
    depends on the order in the file. *)
Lemma open_keeps s : schemas_ok s -> schemas_ok (schemas_open (sx_file s)) /\ sx_schemas (schemas_open (sx_file s)) = sx_schemas s.
Proof.
  intros [Hid Hsub Hkn Hnx Hsv].
  assert (forall id e, sx_schemas s !! id = Some e -> se_id e = id) as Hid' by (intros ? ? E; by apply Hid).
  destruct (sx_file s) as [[nx es]|] eqn:Ef.
  2: { rewrite Hsv. split; [|done]. constructor; cbn; [intros ? ? E; by rewrite lookup_empty in E..|lia|done]. }
  destruct Hsv as (Hnext & Hes & Hlt). cbn in *.
  assert (NoDup (se_id <$> es)) as Hnd by (rewrite Hes; by apply entries_nodup).
  assert (fold_left (fun m e => <[se_id e := e]> m) es ∅ = sx_schemas s) as Heq.
  { apply map_eq. intros id. apply option_eq. intros e. rewrite load_schemas, lookup_empty by done.
    rewrite Hes, entries_elem by done. split; [intros [[He <-]|[_ ?]]; done|].
    intros He. left. by rewrite (Hid' _ _ He). }
  unfold schemas_open. cbn. rewrite Heq. split; [|done]. constructor; cbn.
  - intros id e He. split; [by apply Hid'|]. split; [apply Hid in He; lia|by eapply Hlt].
  - intros subject id E. apply load_subjects in E as [(e & He & Hs & Hi)|E]; [|done].
    rewrite Hes, entries_elem in He by done. rewrite Hi in He. by exists e.
  - intros id e He. apply load_subjects_known. left. exists e. split; [|done].
    rewrite Hes, entries_elem by done. by rewrite (Hid' _ _ He).
  - lia.
  - split_and!; [lia|lia|done|done].
Qed.

Hypothesis iter_perm : forall A (l : list A), iter A l ≡ₚ l.

(** What an accepted registration did. *)
Lemma register_accepted s subject t schema now ok e s1 :
  register_schema s subject t schema now ok = (Ok e, s1) ->
  compatible_with_previous s subject t schema = Ok tt /\
  e = mkSchema (sx_next_id s) subject t schema now /\
  s1 = mkSchemas (<[se_id e := e]> (sx_schemas s)) (<[subject := se_id e]> (sx_subjects s)) (wrap_u 32 (sx_next_id s + 1))
         (Some (mkPersistedSchemas (wrap_u 32 (sx_next_id s + 1)) (iter _ (map_to_list (<[se_id e := e]> (sx_schemas s))).*2))).
Proof.
  unfold register_schema. intros E. do 4 (case_if_in E; [done|]).
  destruct (json_from_str schema); [|done]. destruct (compatible_with_previous _ _ _ _) as [[]|?|] eqn:Ec; [|done..].
  unfold schemas_flush in E. destruct ok; [|done]. by simplify_eq/=.
Qed.

Lemma register_refused s subject t schema now ok o s1 :
  schemas_ok s -> register_schema s subject t schema now ok = (o, s1) -> (forall e, o <> Ok e) ->
  sx_schemas s1 = sx_schemas s /\ sx_subjects s1 = sx_subjects s /\ sx_file s1 = sx_file s /\
  (sx_next_id s1 = sx_next_id s \/ sx_next_id s1 = wrap_u 32 (sx_next_id s + 1)).
Proof.
  intros [Hid _ _ _ _]. unfold register_schema. intros E Ho.
  do 4 (case_if_in E; [simplify_eq; by auto|]).
  destruct (json_from_str schema); [|simplify_eq; by auto].
  destruct (compatible_with_previous _ _ _ _) as [[]|?|]; [|simplify_eq; by auto..].
  unfold schemas_flush in E. destruct ok; simplify_eq/=; [by destruct (Ho _ eq_refl)|].
  assert (sx_schemas s !! sx_next_id s = None) as Hn.
  { destruct (sx_schemas s !! sx_next_id s) eqn:E; [|done]. apply Hid in E. lia. }
  split_and!; [by rewrite delete_insert_id| |done|by right].
  destruct (sx_subjects s !! subject) as [p|] eqn:Es.
  - rewrite insert_insert_eq. by apply insert_id.
  - by rewrite delete_insert_id.
Qed.

Lemma step_keeps s s' :
  schemas_ok s -> schema_step s s' -> schemas_ok s' /\ forall id e, schema_get s id = Some e -> schema_get s' id = Some e.
Proof.
  intros Hok Hst. destruct Hst as [s subject t schema now ok Hn|s].
  2: { destruct (open_keeps s Hok) as [? Heq]. split; [done|]. unfold schema_get. by rewrite Heq. }
  destruct (register_schema s subject t schema now ok) as [o s1] eqn:E. cbn.
  destruct (Hok) as [Hid Hsub Hkn Hnx Hsv].
  assert (wrap_u 32 (sx_next_id s + 1) = sx_next_id s + 1) as Hw by (apply wrap_u_small; unfold is_u; lia).
  assert ((exists e, o = Ok e) \/ ~ exists e, o = Ok e) as [(e & ->)|Hno].
  { destruct o; [left; by eexists|right; by intros [? ?]..]. }
  - apply register_accepted in E as (_ & -> & ->). rewrite Hw. cbn.
    assert (sx_schemas s !! sx_next_id s = None) as Hfresh.
    { destruct (sx_schemas s !! sx_next_id s) eqn:E; [|done]. apply Hid in E. lia. }
    split; [constructor; cbn|].
    + intros id e [[<- <-]|[Hne He]]%lookup_insert_Some; cbn; [lia|]. apply Hid in He. lia.
    + intros sub id [[<- <-]|[Hne He]]%lookup_insert_Some; [eexists; by rewrite lookup_insert_eq|].
      destruct (Hsub _ _ He) as (e & He' & Hs). exists e. split; [|done].
      rewrite lookup_insert_ne; [done|]. intros <-. congruence.
    + intros id e [[<- <-]|[Hne He]]%lookup_insert_Some; cbn; [rewrite lookup_insert_eq; by eexists|].
      destruct (decide (subject = se_subject e)) as [->|Hd]; [rewrite lookup_insert_eq; by eexists|].
      rewrite lookup_insert_ne by done. by eapply Hkn.
    + lia.
    + split_and!; [lia|lia|apply iter_perm|].
      intros id e [[<- <-]|[Hne He]]%lookup_insert_Some; [lia|]. apply Hid in He. lia.
    + unfold schema_get. cbn. intros id e He. rewrite lookup_insert_ne; [done|]. intros <-. congruence.
  - apply (register_refused _ _ _ _ _ _ _ _ Hok) in E as (E1 & E2 & E3 & E4); [|by intros e ->; destruct Hno; exists e].
    split; [|unfold schema_get; by rewrite E1]. rewrite Hw in E4.
    constructor; unfold entries; rewrite ?E1, ?E2, ?E3; [|done|done|lia|].
    + intros id e He. apply Hid in He. lia.
    + destruct (sx_file s) as [p|]; [|done]. destruct Hsv as (? & ? & ?). split_and!; [lia|lia|done|done].
Qed.

(** A document that has every field the old version requires has every field the
    new one requires. *)
Lemma compatible_required old new vo vn :
  check_compatibility old new = Ok tt -> json_from_str old = Some vo -> json_from_str new = Some vn ->
  forall f, f ∈ required_fields vn -> f ∈ required_fields vo.
Proof.
  unfold check_compatibility. intros E Ho Hn f Hf. rewrite Ho, Hn in E. cbn in E.
  destruct (list_find _ (required_fields vn)) as [[]|] eqn:El; [done|].
  apply list_find_None in El. rewrite Forall_forall in El. destruct (decide (f ∈ required_fields vo)); [done|].
  by destruct (El f Hf).
Qed.

(** C38: a registered schema is kept as it is.  An accepted registration gets an id no
    schema had, is the latest version of its subject and, for a JSON schema, requires
    nothing its predecessor did not.  Whatever registrations follow, accepted,
    refused or failing to reach the disk, and however often the broker restarts, the
    id stands for this schema; schemas that were there before are untouched. *)
Theorem registered_schema_is_permanent s subject t schema now ok e s1 s' :
  schemas_ok s -> sx_next_id s + 1 < 2 ^ 32 ->
  register_schema s subject t schema now ok = (Ok e, s1) -> rtc schema_step s1 s' ->
  schema_get s (se_id e) = None /\ latest_version s1 subject = Some e /\ schema_get s' (se_id e) = Some e /\
  se_schema e = schema /\ se_subject e = subject /\
  (forall id x, schema_get s id = Some x -> schema_get s' id = Some x) /\
  (t = "json_schema"%string -> forall p vo vn, latest_version s subject = Some p ->
     json_from_str (se_schema p) = Some vo -> json_from_str schema = Some vn ->
     forall f, f ∈ required_fields vn -> f ∈ required_fields vo).
Proof.
  intros Hok Hn E Hr.
  assert (forall a b, schemas_ok a -> rtc schema_step a b ->
            schemas_ok b /\ forall id x, schema_get a id = Some x -> schema_get b id = Some x) as Hkeep.
  { intros a b Ha Hab. induction Hab as [a|a m b Hs Hab IH]; [done|].
    destruct (step_keeps a m Ha Hs) as [Hm Hg]. destruct (IH Hm) as [Hb Hg']. split; [done|]. auto. }
  pose proof (step_keeps s s1 Hok) as H1.
  assert (schema_step s s1) as Hst.
  { replace s1 with (register_schema s subject t schema now ok).2 by (by rewrite E). by constructor. }
  destruct (H1 Hst) as [Hok1 Hg1]. destruct (Hkeep s1 s' Hok1 Hr) as [_ Hg2].
  apply register_accepted in E as (Hc & -> & ->).
  split_and!; [| | |done|done| |].
  - unfold schema_get. cbn. destruct (sx_schemas s !! sx_next_id s) eqn:Es; [|done].
    apply (sx_ids _ Hok) in Es. lia.
  - unfold latest_version, schema_get. cbn. by rewrite lookup_insert_eq; cbn; rewrite lookup_insert_eq.
  - apply Hg2. unfold schema_get. cbn. by rewrite lookup_insert_eq.
  - intros id x Hx. by apply Hg2, Hg1.
  - intros -> p vo vn Hp Hvo Hvn. unfold compatible_with_previous in Hc. cbn in Hc.
    unfold latest_version, schema_get in Hp. destruct (sx_subjects s !! subject) as [pid|]; [|done].
    cbn in Hp. rewrite Hp in Hc. cbn in Hc. by eapply compatible_required.
Qed.
End Registry.

(** ** Examples *)

Section SchemaExamples.
(** A few documents are enough here. *)
Definition sample_json : JsonText := {| json_from_str s :=
  if String.eqb s "{}" then Some (JObject [])
  else if String.eqb s "int" then Some (JObject [("properties", JObject [("a", JObject [("type", JString "integer")])])])
  else if String.eqb s "any" then Some (JObject [("properties", JObject [("a", JObject [])])])
  else None |}%string.
#[local] Existing Instance sample_json.

Definition empty_schemas : schema_store := schemas_open None.
Definition in_order (A : Type) (l : list A) : list A := l.
Definition backwards (A : Type) (l : list A) : list A := reverse l.

Lemma empty_schemas_ok : schemas_ok empty_schemas.
Proof. constructor; cbn; [intros ? ? E; by rewrite lookup_empty in E..|lia|done]. Qed.

Lemma registered_schema_is_permanent_witness :
  let s1 := (register_schema in_order empty_schemas "t-value" "json_schema" "any" 5 true).2 in
  let s' := (register_schema in_order s1 "t-value" "json_schema" "{}" 6 false).2 in
  let e := mkSchema 1 "t-value" "json_schema" "any" 5 in
  schema_get s' 1 = Some e /\ latest_version s1 "t-value" = Some e.
Proof.
  intros s1 s' e.
  pose proof (registered_schema_is_permanent in_order (fun A l => Permutation_refl l) empty_schemas "t-value"
    "json_schema" "any" 5 true e s1 s' empty_schemas_ok) as Ht.
  destruct Ht as (_ & Hl & Hg & _); [by vm_compute|vm_compute; reflexivity| |done].
  apply rtc_once. apply (SRegister in_order s1). vm_compute. reflexivity.
Defined.

Definition two_versions (iter : forall A, list A -> list A) : schema_store :=
  let s := (register_schema iter empty_schemas "t-value" "json_schema" "{}" 5 true).2 in
  (register_schema iter s "t-value" "json_schema" "any" 6 true).2.

(** The file lists schemas in the order of a hash map, and a restart takes the last
    one of a subject for its latest version: the first version again, when the map
    happens to list the second one first. *)
Example latest_version_depends_on_hash_order :
  let s := two_versions in_order in
  se_id <$> latest_version s "t-value" = Some 2 /\
  se_id <$> latest_version (schemas_open (sx_file s)) "t-value" = Some 1.
Proof. vm_compute. split; reflexivity. Qed.

(** A property whose type is narrowed, and a version without any properties, are
    both accepted as compatible. *)
Example narrowing_accepted : check_compatibility "any" "int" = Ok tt /\ check_compatibility "any" "{}" = Ok tt.
Proof. vm_compute. split; reflexivity. Qed.
End SchemaExamples.
