(* ===== verification/Backup.v ===== *)
(** * Backup and restore (es-tools: dump.rs, restore.rs)

    [dump] copies the files of a data directory into an archive, [restore] unpacks
    an archive next to the data directory and swaps it in.  A directory tree is the
    map of its files and the set of its directories, named by their components; the
    order in which a directory is listed is that of these maps.  The container
    ([tar] and [flate2]) and the JSON of the manifest are third-party code: the
    classes [Container] and [ManifestText]. *)

From Stdlib Require Import Ascii String.
From S2P Require Export Record RustStd Groups.

#[local] Open Scope Z_scope.

(** ** Names *)

Definition ascii_of (n : Z) : Ascii.ascii := Ascii.ascii_of_N (Z.to_N n).
Definition code (c : Ascii.ascii) : Z := Z.of_N (Ascii.N_of_ascii c).
Definition string_of (l : list Ascii.ascii) : string := String.string_of_list_ascii l.
Definition ascii_list (s : string) : list Ascii.ascii := String.list_ascii_of_string s.

Definition is_digit (c : Ascii.ascii) : bool := (48 <=? code c) && (code c <=? 57).

(** [{:0w}] of a number of at most [w] digits. *)
Fixpoint decimal (w : nat) (n : Z) : list Ascii.ascii :=
  match w with
  | O => []
  | S w => decimal w (n / 10) ++ [ascii_of (48 + n mod 10)]
  end.

Definition digits_value (l : list Ascii.ascii) : Z := fold_left (fun v c => v * 10 + (code c - 48)) l 0.

(** [str::parse] for an unsigned integer of [w] bits: an optional plus sign, then
    digits, in range. *)
Definition parse_unsigned (w : Z) (s : string) : option Z :=
  let l := match ascii_list s with c :: l => if Ascii.eqb c "+"%char then l else c :: l | [] => [] end in
  if negb (bool_decide (l = [])) && forallb is_digit l && (digits_value l <? 2 ^ w) then Some (digits_value l) else None.

Definition segment_log_name (off : Z) : string := string_of (decimal 20 off ++ ascii_list ".log").
Definition segment_index_name (off : Z) : string := string_of (decimal 20 off ++ ascii_list ".index").

(** [strip_suffix] and [trim_end_matches], on the characters. *)
Definition strip_end (suffix l : list Ascii.ascii) : option (list Ascii.ascii) :=
  if bool_decide (drop (length l - length suffix) l = suffix) then Some (take (length l - length suffix) l) else None.

Fixpoint trim_end_matches (fuel : nat) (suffix l : list Ascii.ascii) : list Ascii.ascii :=
  match fuel with
  | O => l
  | S fuel => match strip_end suffix l with Some l => trim_end_matches fuel suffix l | None => l end
  end.

Fixpoint contains (sub l : list Ascii.ascii) : bool :=
  bool_decide (take (length sub) l = sub) || match l with [] => false | _ :: l => contains sub l end.

(** ** Trees *)

Record tree : Type := mkTree { tr_files : gmap (list string) (list byte); tr_dirs : gset (list string) }.

(** The names below [parent] among [paths]. *)
Definition below (parent : list string) (path : list string) : option string :=
  if bool_decide (take (length parent) path = parent)
  then match drop (length parent) path with [name] => Some name | _ => None end
  else None.

Definition files_in (t : tree) (parent : list string) : list string := omap (below parent) (elements (dom (tr_files t))).
Definition dirs_in (t : tree) (parent : list string) : list string := omap (below parent) (elements (tr_dirs t)).

(** ** [discover_files] *)

Record discovered : Type := mkDiscovered {
  di_topics : list string;
  di_log_files : list (list string * list string);   (* log and index *)
  di_metadata_files : list (list string) }.

Definition segment_offset (file_name : string) : option Z :=
  let l := ascii_list file_name in
  if ends_with ".log" file_name && negb (contains (ascii_list ".compact.tmp.") l)
  then parse_unsigned 64 (string_of (trim_end_matches (length l) (ascii_list ".log") l))
  else None.

Definition offset_le (a b : Z * string) : Prop := a.1 <= b.1.
#[global] Instance offset_le_dec : RelDecision offset_le := fun a b => Z_le_dec a.1 b.1.

Definition partition_logs (t : tree) (topic part : string) : list (list string * list string) :=
  let dir := ["topics"; topic; part]%string in
  let offsets := omap (fun f => o ← segment_offset f; Some (o, f)) (files_in t dir) in
  (fun x => (dir ++ [x.2], dir ++ [segment_index_name x.1])) <$> merge_sort offset_le offsets.

Definition topic_parts (t : tree) (topic : string) : list string :=
  filter (fun p => is_Some (parse_unsigned 32 p)) (dirs_in t ["topics"; topic]%string).

Definition existing (t : tree) (paths : list (list string)) : list (list string) :=
  filter (fun p => is_Some (tr_files t !! p)) paths.

Definition wanted (topic_filter : option (list string)) (name : string) : bool :=
  match topic_filter with Some f => bool_decide (name ∈ f) | None => true end.

Definition discover_files (t : tree) (topic_filter : option (list string)) (include_keys : bool) : discovered :=
  let topics := filter (fun n => wanted topic_filter n = true) (dirs_in t ["topics"%string]) in
  mkDiscovered topics
    (topics ≫= fun n => topic_parts t n ≫= partition_logs t n)
    ((topics ≫= fun n => existing t [["topics"; n; "topic.json"]%string]) ++
     (omap (fun g => match stem_ext g with
                     | Some (_, ext) => if String.eqb ext "json" then Some ["groups"; g]%string else None
                     | None => None
                     end) (files_in t ["groups"%string])) ++
     existing t ([["schemas.json"]; ["producers.json"]; ["producers.journal.old"]; ["producers.journal"]]%string ++
                 (if include_keys then [["api_keys.json"%string]] else []))).

(** ** [dump] *)

Inductive entry_kind : Type := KFile | KDir | KOther.
Record tar_entry : Type := mkEnt { en_path : string; en_kind : entry_kind; en_size : Z; en_data : list byte }.

(** A container gives back the entries it was given; reading can stop early. *)
Class Container : Type := {
  pack : list tar_entry -> list byte;
  unpack : list byte -> list (option tar_entry);
  unpack_pack : forall es, unpack (pack es) = Some <$> es }.

Record manifest : Type := mkManifest {
  mf_version : Z; mf_topics : list string; mf_includes_keys : bool; mf_file_count : Z; mf_total_bytes : Z }.

Class ManifestText : Type := {
  manifest_json : manifest -> list byte;
  parse_manifest : list byte -> option manifest;
  parse_manifest_json : forall m, parse_manifest (manifest_json m) = Some m }.

(** [Exactly]: the bytes read up to the length found when the file was opened,
    padded when the file has become shorter. *)
Definition exactly (n : nat) (data : list byte) : list byte := take n data ++ replicate (n - length data) x00.

Fixpoint join_path (path : list string) : string :=
  match path with
  | [] => ""
  | [name] => name
  | name :: path => (name ++ "/" ++ join_path path)%string
  end.

(** [add_file_to_tar]: [t] when the file is opened, [later] when it is read; a file
    that is gone is skipped. *)
Definition add_file_to_tar (t : tree) (later : list string -> list byte -> list byte) (path : list string) : option tar_entry :=
  data ← tr_files t !! path;
  Some (mkEnt (join_path path) KFile (len data) (exactly (length data) (later path data))).

(** The index of a log follows it, unless the log itself is gone. *)
Definition add_segment (t : tree) (later : list string -> list byte -> list byte) (le : list string * list string)
    : list tar_entry :=
  match add_file_to_tar t later le.1 with
  | Some e => e :: option_list (add_file_to_tar t later le.2)
  | None => []
  end.

Definition file_len (t : tree) (path : list string) : Z := match tr_files t !! path with Some d => len d | None => 0 end.

Definition sum_lens (t : tree) (paths : list (list string)) : Z := fold_right (fun p n => file_len t p + n) 0 paths.

Inductive dump_error : Type := NoDataDir | Corrupted (e : decode_error).

(** [verify_segment] and its copy of the record reader. *)
Section Verify.
Context `{Crc32}.

Definition tool_decode_body (body : list byte) (at_ : Z) : outcome decode_error record :=
  b ← slice body 0 8;
  let offset := from_be b in
  b ← slice body 8 16;
  let timestamp_ms := from_be_i 64 b in
  b ← slice body 16 20;
  let key_len := from_be_i 32 b in
  '(key, p) ←
    (if key_len <? 0 then
       if negb (key_len =? -1) then Err (Invalid at_ "key_len negative != -1") else Ok (None, 20)
     else if len body <? 20 + key_len then Err (Truncated at_)
     else k ← slice body 20 (20 + key_len); Ok (Some k, 20 + key_len));
  if len body <? p + VALUE_LEN_FIELD then Err (Truncated at_) else
  b ← slice body p (p + 4);
  let value_len := from_be b in
  let p := p + 4 in
  if negb (p + value_len + CRC_LEN =? len body)
  then Err (Invalid at_ "value_len does not match remaining body") else
  value ← slice body p (p + value_len);
  let p := p + value_len in
  b ← slice body p (p + 4);
  let stored_crc := from_be b in
  b ← slice body 0 p;
  if negb (stored_crc =? crc32 b) then Err (CrcMismatch at_ stored_crc (crc32 b))
  else Ok (mkRecord offset timestamp_ms key value).

Definition tool_read_record (file : list byte) (pos : Z) : outcome decode_error record * Z :=
  let rest := drop (Z.to_nat pos) file in
  if len rest <? RECORD_LEN_FIELD then (Err Eof, Z.max pos (len file)) else
  let body_len := from_be (take 4 rest) in
  if body_len <? HEADER_LEN + VALUE_LEN_FIELD + CRC_LEN
  then (Err (Invalid pos "body_len below minimum"), pos + RECORD_LEN_FIELD)
  else if MAX_RECORD_BODY_BYTES <? body_len
  then (Err (Invalid pos "body_len exceeds maximum"), pos + RECORD_LEN_FIELD)
  else
    let rest := drop 4 rest in
    if len rest <? body_len then (Err (Truncated pos), pos)
    else (tool_decode_body (take (Z.to_nat body_len) rest) pos, pos + RECORD_LEN_FIELD + body_len).

(** The loop: [Eof] (fewer than four bytes left) ends it without an error. *)
Fixpoint verify_loop (fuel : nat) (file : list byte) (pos : Z) : outcome decode_error unit :=
  match fuel with
  | O => Ok tt
  | S fuel =>
    if len file <=? pos then Ok tt
    else match tool_read_record file pos with
         | (Ok _, pos) => verify_loop fuel file pos
         | (Err Eof, _) => Ok tt
         | (Err e, _) => Err e
         | (Panic, _) => Panic
         end
  end.

Definition verify_segment (file : list byte) : outcome decode_error unit := verify_loop (S (length file)) file 0.

Fixpoint verify_all (t : tree) (logs : list (list string * list string)) : outcome decode_error unit :=
  match logs with
  | [] => Ok tt
  | le :: logs => match tr_files t !! le.1 with Some d => verify_segment d ;; verify_all t logs | None => verify_all t logs end
  end.

Definition dump_manifest (t : tree) (topic_filter : option (list string)) (include_keys : bool) : manifest :=
  let d := discover_files t topic_filter include_keys in
  mkManifest 1 (di_topics d) include_keys (len (di_log_files d) * 2 + len (di_metadata_files d) + 1)
    (sum_lens t ((di_log_files d ≫= fun le => [le.1; le.2]) ++ di_metadata_files d)).

Definition dump `{Container} `{ManifestText} (t : option tree) (later : list string -> list byte -> list byte)
    (topic_filter : option (list string)) (include_keys verify : bool) : outcome dump_error (list byte) :=
  match t with
  | None => Err NoDataDir
  | Some t =>
    let d := discover_files t topic_filter include_keys in
    (if verify then map_err Corrupted (verify_all t (di_log_files d)) else Ok tt) ;;
    let m := dump_manifest t topic_filter include_keys in
    Ok (pack (mkEnt "manifest.json" KFile (len (manifest_json m)) (manifest_json m) ::
              omap (add_file_to_tar t later) (di_metadata_files d) ++
              (di_log_files d ≫= add_segment t later)))
  end.
End Verify.

(** ** [restore] *)

(** [Path::components] of an archive path. *)
Inductive component : Type := Normal (name : string) | CurDir | ParentDir | RootDir.

Fixpoint split_slash (l : list Ascii.ascii) : list (list Ascii.ascii) :=
  match l with
  | [] => [[]]
  | c :: l =>
    match split_slash l with
    | part :: parts => if Ascii.eqb c "/"%char then [] :: part :: parts else (c :: part) :: parts
    | [] => [[c]]
    end
  end.

Definition component_of (first : bool) (part : list Ascii.ascii) : option component :=
  let s := string_of part in
  if String.eqb s "" then None
  else if String.eqb s "." then if first then Some CurDir else None
  else if String.eqb s ".." then Some ParentDir
  else Some (Normal s).

Definition components (path : string) : list component :=
  match split_slash (ascii_list path) with
  | [] => []
  | [] :: parts => (match parts with [] => [] | _ => [RootDir] end) ++ omap (component_of false) parts
  | part :: parts => option_list (component_of true part) ++ omap (component_of false) parts
  end.

Definition is_safe_relative_path (cs : list component) : bool :=
  forallb (fun c => match c with Normal _ | CurDir => true | _ => false end) cs &&
  existsb (fun c => match c with Normal _ => true | _ => false end) cs.

Definition normals (cs : list component) : list string :=
  omap (fun c => match c with Normal s => Some s | _ => None end) cs.

Definition plain_name (s : string) : bool := valid_name s && negb (String.eqb s ".") && negb (String.eqb s "..").

(** [rsplit_once('.')] on the name of a segment file. *)
Definition segment_file (f : string) : bool :=
  match last_dot (ascii_list f) with
  | Some (stem, ext) =>
    (bool_decide (string_of ext = "log"%string) || bool_decide (string_of ext = "index"%string)) &&
    (length stem =? 20)%nat && forallb is_digit stem
  | None => false
  end.

Definition is_u32 (s : string) : bool := match parse_unsigned 32 s with Some _ => true | None => false end.

Definition is_allowed (p : list string) (is_dir includes_keys : bool) : bool :=
  if is_dir then
    match p with
    | [d] => String.eqb d "topics" || String.eqb d "groups"
    | [d; t] => String.eqb d "topics" && plain_name t
    | [d; t; n] => String.eqb d "topics" && plain_name t && is_u32 n
    | _ => false
    end
  else
    match p with
    | [f] =>
      String.eqb f "schemas.json" || String.eqb f "producers.json" || String.eqb f "producers.journal" ||
      String.eqb f "producers.journal.old" || (String.eqb f "api_keys.json" && includes_keys)
    | [d; g] => String.eqb d "groups" && match strip_end (ascii_list ".json") (ascii_list g) with Some n => plain_name (string_of n) | None => false end
    | [d; t; f] => String.eqb d "topics" && String.eqb f "topic.json" && plain_name t
    | [d; t; n; f] => String.eqb d "topics" && plain_name t && is_u32 n && segment_file f
    | _ => false
    end.

Definition SIZE_SLACK_BYTES : Z := 64 * 1024 * 1024.

Inductive restore_error : Type :=
| NotEmpty | NoArchive | BadArchive | NotABackup | ManifestTooLarge | BadManifest | UnsupportedVersion
| TooMuchData | AlreadyThere | EntryTruncated.

(** [create_private_dir] with its parents. *)
Definition with_dirs (path : list string) (dirs : gset (list string)) : gset (list string) :=
  list_to_set ((fun n => take (S n) path) <$> seq 0 (length path)) ∪ dirs.

(** A regular file on its way into the staging tree. *)
Definition extract_file (m : manifest) (p : list string) (e : tar_entry) (st : tree * Z) : outcome restore_error (tree * Z) :=
  let (t, bytes) := st in
  let bytes := wrap_u 64 (bytes + en_size e) in
  if wrap_u 64 (mf_total_bytes m + SIZE_SLACK_BYTES) <? bytes then Err TooMuchData
  else match tr_files t !! p with
  | Some _ => Err AlreadyThere
  | None =>
    let data := take (Z.to_nat (en_size e)) (en_data e) in
    if negb (len data =? en_size e) then Err EntryTruncated
    else Ok (mkTree (<[p := data]> (tr_files t)) (with_dirs (take (length p - 1) p) (tr_dirs t)), bytes)
  end.

Definition is_dir (e : tar_entry) : bool := match en_kind e with KDir => true | _ => false end.

(** Entries that are neither files nor directories, lead outside, or are not part of
    a broker's layout are skipped. *)
Definition acceptable (m : manifest) (e : tar_entry) : bool :=
  let cs := components (en_path e) in
  match en_kind e with KOther => false | _ => true end &&
  is_safe_relative_path cs && is_allowed (normals cs) (is_dir e) (mf_includes_keys m).

(** One entry after the manifest. *)
Definition extract_entry (m : manifest) (e : tar_entry) (st : tree * Z) : outcome restore_error (tree * Z) :=
  let p := normals (components (en_path e)) in
  if negb (acceptable m e) then Ok st
  else if is_dir e then Ok (mkTree (tr_files st.1) (with_dirs p (tr_dirs st.1)), st.2)
  else extract_file m p e st.

Fixpoint extract_all (m : manifest) (es : list (option tar_entry)) (st : tree * Z) : outcome restore_error (tree * Z) :=
  match es with
  | [] => Ok st
  | None :: _ => Err BadArchive
  | Some e :: es => st ← extract_entry m e st; extract_all m es st
  end.

Definition extract `{ManifestText} (es : list (option tar_entry)) : outcome restore_error tree :=
  match es with
  | [] => Err NotABackup
  | None :: _ => Err BadArchive
  | Some e :: es =>
    if negb (String.eqb (en_path e) "manifest.json") then Err NotABackup
    else if 1024 * 1024 <? en_size e then Err ManifestTooLarge
    else m ← ok_or BadManifest (parse_manifest (en_data e));
         if 1 <? mf_version m then Err UnsupportedVersion
         else st ← extract_all m es (mkTree ∅ ∅, 0); Ok st.1
  end.

(** The directory [restore] works on: the data directory and what was set aside. *)
Record place : Type := mkPlace { pl_data : option tree; pl_aside : list tree }.

Definition has_content (p : place) : bool :=
  match pl_data p with
  | Some t => negb (bool_decide (tr_files t = ∅) && bool_decide (tr_dirs t = ∅))
  | None => false
  end.

(** [restore]; [archive] is [None] when the file cannot be opened.  The staging
    directory is gone or renamed at the end. *)
Definition restore `{Container} `{ManifestText} (p : place) (archive : option (list byte)) (force : bool)
    : outcome restore_error unit * place :=
  if has_content p && negb force then (Err NotEmpty, p)
  else match archive with
  | None => (Err NoArchive, p)
  | Some bytes =>
    match extract (unpack bytes) with
    | Err e => (Err e, p)
    | Panic => (Panic, p)
    | Ok t => (Ok tt, mkPlace (Some t) (if has_content p then pl_aside p ++ option_list (pl_data p) else pl_aside p))
    end
  end.
