(* ===== verification/BackupSpec.v ===== *)
(** * What a backup keeps and what a restore can do

    Unpacking is confined to the layout of a broker's data directory whatever the
    archive holds, a failed restore changes nothing, and restoring a dump gives back
    the files it covers. *)

From Stdlib Require Import Ascii String.
From S2P Require Export Backup.
From S2P Require Import GroupsSpec Compaction.

#[local] Open Scope Z_scope.

(** ** The copy of the record reader *)

Section Reader.
Context `{Crc32}.

(** The tool copies key and value out before it compares the checksum; both slices
    are in range whenever the broker's reader gets that far. *)
Lemma tool_decode_body_eq body at_ : HEADER_LEN <= len body -> tool_decode_body body at_ = decode_body body at_.
Proof.
  intros Hl. unfold HEADER_LEN in Hl. unfold tool_decode_body, decode_body, VALUE_LEN_FIELD, CRC_LEN.
  change (0 + 8 + 8 + 4) with 20. change (0 + 8 + 8) with 16. change (0 + 8) with 8.
  rewrite !slice_ok by len_lia. cbn [mbind outcome_bind].
  set (kl := from_be_i 32 _). set (o := from_be _). set (ts := from_be_i 64 _).
  case_if; [case_if; [done|]|]; cbn [mbind outcome_bind].
  - change (20 + 4) with 24. case_if; [done|]. boolp. rewrite !slice_ok by len_lia. cbn [mbind outcome_bind].
    set (vl := from_be _). case_if; [done|]. boolp. assert (0 <= vl) by apply from_be_range.
    rewrite !slice_ok by len_lia. cbn [mbind outcome_bind fst snd]. rewrite !slice_ok by len_lia. cbn [mbind outcome_bind].
    by case_if.
  - boolp. case_if; [done|]. boolp. rewrite (slice_ok _ 20 (20 + kl)) by len_lia. cbn [mbind outcome_bind].
    case_if; [done|]. boolp. rewrite (slice_ok _ (20 + kl)) by len_lia. cbn [mbind outcome_bind].
    set (vl := from_be _). case_if; [done|]. boolp. assert (0 <= vl) by apply from_be_range.
    rewrite !slice_ok by len_lia. cbn [mbind outcome_bind fst snd]. rewrite !slice_ok by len_lia. cbn [mbind outcome_bind].
    by case_if.
Qed.

Lemma tool_read_record_eq file pos : tool_read_record file pos = read_record file pos.
Proof.
  unfold tool_read_record, read_record, check_body_len. case_if; [done|]. case_if; [done|]. case_if; [done|].
  case_if; [done|]. boolp. rewrite tool_decode_body_eq; [done|].
  unfold HEADER_LEN, VALUE_LEN_FIELD, CRC_LEN in *. rewrite len_take. lia.
Qed.
End Reader.

(** ** Names *)

Definition name_ok (s : string) : Prop :=
  s <> ""%string /\ s <> "."%string /\ s <> ".."%string /\ Forall (fun c => c <> "/"%char) (ascii_list s).

Lemma ascii_string l : ascii_list (string_of l) = l.
Proof. apply String.list_ascii_of_string_of_list_ascii. Qed.

Lemma string_ascii s : string_of (ascii_list s) = s.
Proof. apply String.string_of_list_ascii_of_string. Qed.

Lemma string_eqb_spec a b : String.eqb a b = bool_decide (a = b).
Proof. destruct (String.eqb_spec a b); [by rewrite bool_decide_true|by rewrite bool_decide_false]. Qed.

Lemma plain_name_ok s : plain_name s = true -> name_ok s.
Proof.
  unfold plain_name, valid_name. rewrite !string_eqb_spec, !andb_true_iff, !negb_true_iff, !bool_decide_eq_false.
  intros [[[[Hl _] Hc] H1] H2]. split_and!; [by intros ->|done|done|].
  apply Forall_forall. intros c Hin ->. rewrite forallb_forall in Hc. by specialize (Hc _ (proj1 (list_elem_of_In _ _) Hin)).
Qed.

Lemma digit_not_special c : is_digit c = true -> c <> "/"%char /\ c <> "."%char.
Proof. intros Hc. split; intros ->; by vm_compute in Hc. Qed.

Lemma digits_no_slash l : forallb is_digit l = true -> Forall (fun c => c <> "/"%char) l.
Proof.
  intros Hd. apply Forall_forall. intros c Hc. rewrite forallb_forall in Hd.
  by apply digit_not_special, Hd, list_elem_of_In.
Qed.

Lemma is_u32_ok s : is_u32 s = true -> name_ok s.
Proof.
  unfold is_u32, parse_unsigned. intros Hp.
  set (l := match ascii_list s with c :: l => if Ascii.eqb c "+" then l else c :: l | [] => [] end) in Hp.
  destruct (negb (bool_decide (l = [])) && forallb is_digit l && _) eqn:E; [|done].
  apply andb_true_iff in E as [E _]. apply andb_true_iff in E as [E1 E2].
  apply negb_true_iff, bool_decide_eq_false in E1. subst l.
  split_and!; [by intros ->|by intros ->|by intros ->|].
  destruct (ascii_list s) as [|c l] eqn:Es; [done|]. destruct (Ascii.eqb_spec c "+") as [->|Hc].
  - constructor; [done|]. by apply digits_no_slash.
  - by apply digits_no_slash.
Qed.

Lemma segment_file_ok f : segment_file f = true -> name_ok f.
Proof.
  unfold segment_file. destruct (last_dot (ascii_list f)) as [[stem ext]|] eqn:E; [|done].
  rewrite !andb_true_iff, orb_true_iff, !bool_decide_eq_true. intros [[He Hl] Hd]. apply Nat.eqb_eq in Hl.
  apply last_dot_inv in E.
  assert (forall s, length (ascii_list s) <> length (ascii_list f) -> f <> s) as Hne by (by intros s Hs ->).
  split_and!; [apply Hne; rewrite E, length_app, Hl; cbn; lia..|].
  rewrite E. apply Forall_app. split; [by apply digits_no_slash|]. constructor; [done|].
  destruct He as [He|He]; rewrite <- (ascii_string ext), He; repeat constructor; discriminate.
Qed.

Lemma strip_suffix_inv suffix l n : strip_end suffix l = Some n -> l = n ++ suffix.
Proof. unfold strip_end. case_bool_decide as E; [|done]. intros [= <-]. rewrite <- E at 2. by rewrite take_drop. Qed.

Lemma allowed_names p inc : is_allowed p false inc = true -> Forall name_ok p.
Proof.
  assert (forall s, forallb name_char (ascii_list s) = true -> s <> ""%string -> s <> "."%string -> s <> ".."%string -> name_ok s) as Hn.
  { intros s Hc H1 H2 H3. split_and!; [done..|]. apply Forall_forall. intros c Hin ->. rewrite forallb_forall in Hc.
    by specialize (Hc _ (proj1 (list_elem_of_In _ _) Hin)). }
  unfold is_allowed. rewrite ?string_eqb_spec.
  destruct p as [|a [|b [|c [|d [|]]]]]; try done; rewrite ?string_eqb_spec, ?orb_true_iff, ?andb_true_iff, ?bool_decide_eq_true.
  - intros Ha. constructor; [|done]. destruct_or!; [..|destruct Ha as [Ha _]]; subst a; by apply Hn.
  - intros [-> Hb]. constructor; [by apply Hn|]. constructor; [|done].
    destruct (strip_end _ _) as [n|] eqn:E; [|done]. apply strip_suffix_inv in E. apply plain_name_ok in Hb as (? & _ & _ & Hs).
    rewrite ascii_string in Hs.
    assert (length (ascii_list b) >= 5)%nat by (rewrite E, length_app; cbn; lia).
    split_and!; [intros ->; cbn in *; lia..|]. rewrite E. apply Forall_app. split; [done|]. repeat constructor; discriminate.
  - intros [[-> ->] Hb]. constructor; [by apply Hn|]. constructor; [by apply plain_name_ok|]. constructor; [by apply Hn|done].
  - intros [[[-> Hb] Hc] Hd]. constructor; [by apply Hn|]. constructor; [by apply plain_name_ok|].
    constructor; [by apply is_u32_ok|]. constructor; [by apply segment_file_ok|done].
Qed.

(** ** Paths in the archive *)

Lemma split_slash_ne l : split_slash l <> [].
Proof. destruct l as [|c l]; cbn; [done|]. destruct (split_slash l); [done|]. by case_if. Qed.

Lemma split_slash_none l : Forall (fun c => c <> "/"%char) l -> split_slash l = [l].
Proof.
  induction 1 as [|c l Hc Hl IH]; [done|]. cbn. rewrite IH. destruct (Ascii.eqb_spec c "/"); [done|]. done.
Qed.

Lemma split_slash_app l k : Forall (fun c => c <> "/"%char) l -> split_slash (l ++ "/"%char :: k) = l :: split_slash k.
Proof.
  induction 1 as [|c l Hc Hl IH]; cbn.
  - destruct (split_slash k) eqn:E; [by apply split_slash_ne in E|]. done.
  - rewrite IH. by destruct (Ascii.eqb_spec c "/").
Qed.

Lemma split_join p : p <> [] -> Forall name_ok p -> split_slash (ascii_list (join_path p)) = ascii_list <$> p.
Proof.
  intros Hne Hp. induction Hp as [|s p (_ & _ & _ & Hs) Hp IH]; [done|]. destruct p as [|s' p].
  - cbn. by apply split_slash_none.
  - change (join_path (s :: s' :: p)) with (s +:+ ("/" +:+ join_path (s' :: p))).
    assert (ascii_list (s +:+ ("/" +:+ join_path (s' :: p))) = ascii_list s ++ "/"%char :: ascii_list (join_path (s' :: p))) as ->.
    { unfold ascii_list. by rewrite list_ascii_app. }
    rewrite split_slash_app by done. by rewrite IH.
Qed.

Lemma component_of_name b s : name_ok s -> component_of b (ascii_list s) = Some (Normal s).
Proof.
  intros (H1 & H2 & H3 & _). unfold component_of. rewrite string_ascii, !string_eqb_spec, !bool_decide_false by done. done.
Qed.

Lemma components_join p : p <> [] -> Forall name_ok p -> components (join_path p) = Normal <$> p.
Proof.
  intros Hne Hp. unfold components. rewrite split_join by done. destruct Hp as [|s p Hs Hp]; [done|].
  cbn [fmap list_fmap]. destruct (ascii_list s) as [|c l] eqn:E.
  { destruct Hs as (Hs & _). by destruct s. }
  rewrite <- E, component_of_name by done. cbn. f_equal. clear Hne.
  induction Hp as [|s' p Hs' Hp IH]; [done|]. cbn. rewrite component_of_name by done. by f_equal.
Qed.

Lemma normals_fmap p : normals (Normal <$> p) = p.
Proof. induction p as [|s p IH]; [done|]. cbn. by f_equal. Qed.

Lemma safe_normals p : p <> [] -> is_safe_relative_path (Normal <$> p) = true.
Proof.
  intros Hne. unfold is_safe_relative_path. apply andb_true_iff. split; [|by destruct p].
  apply forallb_forall. intros c Hc. apply list_elem_of_In, list_elem_of_fmap in Hc as (s & -> & _). done.
Qed.

(** ** Unpacking *)

Definition tree_size (t : tree) : Z := map_fold (fun _ d n => len d + n) 0 (tr_files t).

Lemma tree_size_insert p d files dirs dirs' :
  files !! p = None -> tree_size (mkTree (<[p := d]> files) dirs) = len d + tree_size (mkTree files dirs').
Proof.
  intros Hp. unfold tree_size. cbn [tr_files].
  rewrite (map_fold_insert_L (fun (_ : list string) (d : list byte) n => len d + n)); [done| |done].
  intros. lia.
Qed.

(** What every step of the unpacking keeps: allowed paths, and a size within what
    the manifest declares (sizes that are far from the width of the counter). *)
Definition unpacked_ok (m : manifest) (st : tree * Z) : Prop :=
  (forall p d, tr_files st.1 !! p = Some d -> is_allowed p false (mf_includes_keys m) = true) /\
  (0 <= mf_total_bytes m < 2 ^ 62 ->
   st.2 = tree_size st.1 /\ 0 <= st.2 <= mf_total_bytes m + SIZE_SLACK_BYTES).

Lemma extract_file_ok m p e st st' :
  0 <= en_size e < 2 ^ 62 -> is_allowed p false (mf_includes_keys m) = true ->
  unpacked_ok m st -> extract_file m p e st = Ok st' -> unpacked_ok m st'.
Proof.
  intros He Hal [Ha Hs]. destruct st as [t b]. cbn [fst snd] in *. unfold extract_file. intros E.
  case_if_in E; [done|]. destruct (tr_files t !! p) eqn:Ef; [done|]. case_if_in E; [done|]. simplify_eq. boolp.
  split; cbn [fst snd tr_files].
  - intros q d [[<- _]|[_ Hd]]%lookup_insert_Some; [done|by eapply Ha].
  - intros Ht. destruct (Hs Ht) as [-> Hb]. unfold SIZE_SLACK_BYTES in *.
    rewrite !wrap_u_small in * by (unfold is_u; lia).
    rewrite (tree_size_insert _ _ _ _ (tr_dirs t)) by done. destruct t. cbn in *. lia.
Qed.

Lemma extract_entry_ok m e st st' :
  0 <= en_size e < 2 ^ 62 -> unpacked_ok m st -> extract_entry m e st = Ok st' -> unpacked_ok m st'.
Proof.
  intros He Hst. unfold extract_entry. destruct (acceptable m e) eqn:Ea; cbn [negb]; [|by intros [= <-]].
  unfold acceptable in Ea. apply andb_true_iff in Ea as [_ Hal].
  destruct (is_dir e); [by intros [= <-]|]. by apply extract_file_ok.
Qed.

Lemma extract_all_ok m es st st' :
  Forall (fun o => forall e, o = Some e -> 0 <= en_size e < 2 ^ 62) es ->
  unpacked_ok m st -> extract_all m es st = Ok st' -> unpacked_ok m st'.
Proof.
  intros He. revert st. induction He as [|[e|] es He Hes IH]; intros st Hst E; cbn in E; [by simplify_eq| |done].
  destruct (extract_entry m e st) as [st1|?|] eqn:E1; [|done..]. eapply IH; [|done].
  eapply extract_entry_ok; [by apply He|done..].
Qed.

(** Unpacking entries that are what a dump writes. *)
Definition ent (x : list string * list byte) : tar_entry := mkEnt (join_path x.1) KFile (len x.2) x.2.

Definition sizes (l : list (list string * list byte)) : Z := fold_right (fun x n => len x.2 + n) 0 l.

Lemma sizes_nonneg l : 0 <= sizes l.
Proof. induction l as [|x l IH]; [done|]. change (0 <= len x.2 + sizes l). pose proof (len_nonneg x.2). lia. Qed.

Lemma extract_ents m l t b :
  Forall (fun x => is_allowed x.1 false (mf_includes_keys m) = true) l -> NoDup l.*1 ->
  Forall (fun x => tr_files t !! x.1 = None) l ->
  0 <= b -> b + sizes l <= mf_total_bytes m + SIZE_SLACK_BYTES < 2 ^ 64 ->
  exists dirs, extract_all m (Some <$> (ent <$> l)) (t, b) = Ok (mkTree (list_to_map l ∪ tr_files t) dirs, b + sizes l).
Proof.
  intros Hal. revert t b. induction Hal as [|[p d] l Hp Hl IH]; intros t b Hn Hf Hb Hs.
  { exists (tr_dirs t). cbn. rewrite Z.add_0_r, (left_id_L ∅ (∪)). by destruct t. }
  cbn [fmap list_fmap fst sizes fold_right snd] in *. apply NoDup_cons in Hn as [Hni Hn].
  apply Forall_cons in Hf as [Hpf Hf]. cbn in Hpf. pose proof (sizes_nonneg l) as Hnn. pose proof (len_nonneg d).
  fold (sizes l) in *.
  assert (p <> []) as Hne by (by intros ->). pose proof (allowed_names _ _ Hp) as Hok.
  cbn [extract_all ent].
  assert (extract_entry m (ent (p, d)) (t, b) =
          Ok (mkTree (<[p := d]> (tr_files t)) (with_dirs (take (length p - 1) p) (tr_dirs t)), b + len d)) as ->.
  { unfold extract_entry, acceptable, is_dir. cbn [ent en_path en_kind fst snd].
    rewrite components_join, normals_fmap, safe_normals, Hp by done. cbn [negb andb].
    unfold extract_file. cbn [en_size en_data ent fst snd].
    rewrite !wrap_u_small by (unfold is_u, SIZE_SLACK_BYTES in *; lia).
    rewrite (proj2 (Z.ltb_ge _ _)) by lia. rewrite Hpf.
    rewrite take_ge by (unfold len; lia). rewrite Z.eqb_refl. done. }
  cbn [mbind outcome_bind].
  destruct (IH (mkTree (<[p := d]> (tr_files t)) (with_dirs (take (length p - 1) p) (tr_dirs t))) (b + len d)) as [dirs Hd];
    [done| |lia|lia|].
  { eapply Forall_impl; [apply Forall_and; split; [exact Hf|]|].
    - apply Forall_forall. intros x Hx. exact (list_elem_of_fmap_2 fst l x Hx).
    - cbn. intros x [Hx Hin]. rewrite lookup_insert_ne; [done|]. intros ->. done. }
  exists dirs. rewrite Hd. cbn [list_to_map tr_files]. f_equal. f_equal; [|lia]. f_equal. cbn.
  rewrite <- insert_union_l. rewrite <- insert_union_r; [done|]. by apply not_elem_of_list_to_map_1.
Qed.

(** ** Segment names *)

Lemma code_digit d : 0 <= d < 10 -> code (ascii_of (48 + d)) = 48 + d.
Proof.
  intros Hd. unfold code, ascii_of. rewrite Ascii.N_ascii_embedding by lia. lia.
Qed.

Lemma decimal_length w n : length (decimal w n) = w.
Proof. revert n. induction w as [|w IH]; intros n; [done|]. cbn. rewrite length_app, IH. cbn. lia. Qed.

Lemma decimal_digits w n : forallb is_digit (decimal w n) = true.
Proof.
  revert n. induction w as [|w IH]; intros n; [done|]. cbn [decimal]. rewrite forallb_app, IH. cbn [forallb andb].
  unfold is_digit. rewrite code_digit by (apply Z.mod_pos_bound; lia).
  pose proof (Z.mod_pos_bound n 10 ltac:(lia)). rewrite andb_true_r. apply andb_true_iff. split; apply Z.leb_le; lia.
Qed.

Lemma decimal_value w n : 0 <= n < 10 ^ Z.of_nat w -> digits_value (decimal w n) = n.
Proof.
  revert n. induction w as [|w IH]; intros n Hn; [cbn in *; lia|]. cbn [decimal]. unfold digits_value.
  rewrite fold_left_app. cbn [fold_left]. fold (digits_value (decimal w (n / 10))). rewrite IH.
  - rewrite code_digit by (apply Z.mod_pos_bound; lia). pose proof (Z.div_mod n 10 ltac:(lia)). lia.
  - rewrite Nat2Z.inj_succ, Z.pow_succ_r in Hn by lia. split; [apply Z.div_pos; lia|]. apply Z.div_lt_upper_bound; lia.
Qed.

Lemma digits_not_contain sub l k :
  forallb is_digit l = true -> (length k < length sub)%nat -> head sub = Some "."%char -> contains sub (l ++ k) = false.
Proof.
  intros Hd Hk Hs. induction l as [|c l IH].
  - cbn [app]. clear Hd. assert (forall k, (length k < length sub)%nat -> contains sub k = false) as Hshort; [|by apply Hshort].
    clear k Hk. intros k Hk. induction k as [|c k IH].
    + cbn. rewrite bool_decide_false; [done|]. rewrite firstn_nil. by destruct sub.
    + cbn [contains]. rewrite IH by (cbn in Hk; lia). rewrite bool_decide_false; [done|].
      intros E. apply (f_equal length) in E. rewrite length_take in E. cbn in *. lia.
  - cbn in Hd. apply andb_true_iff in Hd as [Hc Hd]. cbn. rewrite IH, bool_decide_false; [done| |done].
    destruct sub as [|x sub]; [done|]. cbn in Hs |- *. simplify_eq. intros E. simplify_eq.
Qed.

Lemma strip_end_app suffix l : strip_end suffix (l ++ suffix) = Some l.
Proof.
  unfold strip_end. rewrite length_app, Nat.add_sub, drop_app_length, take_app_length. by rewrite bool_decide_true.
Qed.

Lemma strip_end_digits suffix l :
  forallb is_digit l = true -> head suffix = Some "."%char -> strip_end suffix l = None.
Proof.
  intros Hd Hs. unfold strip_end. rewrite bool_decide_false; [done|]. intros E.
  destruct suffix as [|x suffix]; [done|]. cbn in Hs. simplify_eq.
  assert ("."%char ∈ l) as Hin.
  { rewrite <- (take_drop (length l - length ("."%char :: suffix)) l), E. apply elem_of_app. right. left. }
  rewrite forallb_forall in Hd. apply list_elem_of_In, Hd in Hin. by vm_compute in Hin.
Qed.

Lemma u64_digits o : is_u 64 o -> 0 <= o < 10 ^ Z.of_nat 20.
Proof. unfold is_u. intros Ho. assert (2 ^ 64 < 10 ^ Z.of_nat 20) by (vm_compute; reflexivity). lia. Qed.

Lemma parse_decimal o : is_u 64 o -> parse_unsigned 64 (string_of (decimal 20 o)) = Some o.
Proof.
  intros Ho. unfold parse_unsigned. rewrite ascii_string.
  pose proof (decimal_length 20 o) as Hl. pose proof (decimal_digits 20 o) as Hd.
  destruct (decimal 20 o) as [|c l] eqn:E; [done|].
  assert (Ascii.eqb c "+" = false) as ->.
  { cbn in Hd. apply andb_true_iff in Hd as [Hd _]. destruct (Ascii.eqb_spec c "+") as [->|]; [by vm_compute in Hd|done]. }
  rewrite <- E, decimal_value by (by apply u64_digits). rewrite bool_decide_false, decimal_digits by (by rewrite E).
  cbn [negb andb]. unfold is_u in Ho. by rewrite (proj2 (Z.ltb_lt _ _)) by lia.
Qed.

Lemma segment_offset_name o : is_u 64 o -> segment_offset (segment_log_name o) = Some o.
Proof.
  intros Ho. unfold segment_offset, segment_log_name. rewrite ascii_string.
  rewrite digits_not_contain by (apply decimal_digits || (cbn; lia) || done).
  assert (ends_with ".log" (string_of (decimal 20 o ++ ascii_list ".log")) = true) as ->.
  { unfold ends_with. apply bool_decide_eq_true. fold (ascii_list ".log"). change String.list_ascii_of_string with ascii_list.
    rewrite ascii_string. apply drop_app_len. rewrite length_app. lia. }
  cbn [negb andb]. rewrite length_app, decimal_length. cbn [Nat.add trim_end_matches].
  rewrite strip_end_app, strip_end_digits by (apply decimal_digits || done). by apply parse_decimal.
Qed.

Lemma segment_file_name o ext :
  ext = "log"%string \/ ext = "index"%string -> segment_file (string_of (decimal 20 o ++ "."%char :: ascii_list ext)) = true.
Proof.
  intros He. unfold segment_file. rewrite ascii_string, last_dot_app.
  - rewrite string_ascii, decimal_length, decimal_digits. destruct He as [-> | ->]; done.
  - destruct He as [-> | ->]; repeat constructor; discriminate.
Qed.

Lemma segment_name_inj o o' : is_u 64 o -> is_u 64 o' -> segment_index_name o = segment_index_name o' -> o = o'.
Proof.
  intros Ho Ho' E. apply (f_equal ascii_list) in E. unfold segment_index_name in E. rewrite !ascii_string in E.
  apply app_inj_2 in E as [E _]; [|done]. apply (f_equal digits_value) in E. by rewrite !decimal_value in E by (by apply u64_digits).
Qed.

(** ** What a dump covers *)

Lemma below_spec parent path n : below parent path = Some n <-> path = parent ++ [n].
Proof.
  unfold below. split.
  - case_bool_decide as E; [|done]. destruct (drop (length parent) path) as [|x [|]] eqn:Ed; try done.
    intros [= ->]. by rewrite <- (take_drop (length parent) path), E, Ed.
  - intros ->. by rewrite take_app_length, drop_app_length, bool_decide_true.
Qed.

Lemma files_in_elem t parent n : n ∈ files_in t parent <-> is_Some (tr_files t !! (parent ++ [n])).
Proof.
  unfold files_in. rewrite list_elem_of_omap. split.
  - intros (path & Hp & Hb). apply below_spec in Hb as ->. by apply elem_of_elements, elem_of_dom in Hp.
  - intros Hs. exists (parent ++ [n]). split; [by apply elem_of_elements, elem_of_dom|by apply below_spec].
Qed.

Lemma dirs_in_elem t parent n : n ∈ dirs_in t parent <-> parent ++ [n] ∈ tr_dirs t.
Proof.
  unfold dirs_in. rewrite list_elem_of_omap. split.
  - intros (path & Hp & Hb). apply below_spec in Hb as ->. by apply elem_of_elements in Hp.
  - intros Hs. exists (parent ++ [n]). split; [by apply elem_of_elements|by apply below_spec].
Qed.

Lemma NoDup_omap_inj {A B} (f : A -> option B) l :
  (forall x y z, x ∈ l -> y ∈ l -> f x = Some z -> f y = Some z -> x = y) -> NoDup l -> NoDup (omap f l).
Proof.
  intros Hf Hn. induction Hn as [|x l Hx Hn IH]; [constructor|]. cbn.
  assert (NoDup (omap f l)) as Hl by (apply IH; intros; eapply Hf; [by right|by right|done..]).
  destruct (f x) as [z|] eqn:E; [|done]. apply NoDup_cons. split; [|done].
  rewrite list_elem_of_omap. intros (y & Hy & Ey). apply Hx.
  by rewrite (Hf x y z (list_elem_of_here _ _) (list_elem_of_further _ _ _ Hy) E Ey).
Qed.

Lemma below_nodup parent l : NoDup l -> NoDup (omap (below parent) l).
Proof. apply NoDup_omap_inj. intros x y z _ _ Hx Hy. apply below_spec in Hx as ->, Hy as ->. done. Qed.

Lemma files_in_nodup t parent : NoDup (files_in t parent).
Proof. apply below_nodup, NoDup_elements. Qed.

Lemma dirs_in_nodup t parent : NoDup (dirs_in t parent).
Proof. apply below_nodup, NoDup_elements. Qed.

(** The layout of a data directory: directories above every file, names as the
    broker makes them. *)
Record layout (t : tree) : Prop := {
  ly_dirs : forall path d k, tr_files t !! path = Some d -> (0 < k < length path)%nat -> take k path ∈ tr_dirs t;
  ly_topic : forall n, ["topics"; n]%string ∈ tr_dirs t -> plain_name n = true;
  ly_group : forall g n, is_Some (tr_files t !! ["groups"; g]%string) -> stem_ext g = Some (n, "json"%string) -> plain_name n = true;
  ly_segment : forall n p f o, is_Some (tr_files t !! ["topics"; n; p; f]%string) -> segment_offset f = Some o ->
    f = segment_log_name o /\ is_u 64 o }.

Definition state_files : list string := ["schemas.json"; "producers.json"; "producers.journal.old"; "producers.journal"]%string.

(** The paths a dump of [t] covers. *)
Inductive covered (t : tree) (topic_filter : option (list string)) (keys : bool) : list string -> Prop :=
| CoState f : f ∈ state_files -> covered t topic_filter keys [f]
| CoKeys : keys = true -> covered t topic_filter keys ["api_keys.json"%string]
| CoGroup n : n <> ""%string -> covered t topic_filter keys ["groups"%string; group_path n]
| CoTopic n : wanted topic_filter n = true -> covered t topic_filter keys ["topics"; n; "topic.json"]%string
| CoLog n p o : wanted topic_filter n = true -> is_u32 p = true -> is_u 64 o ->
    covered t topic_filter keys ["topics"%string; n; p; segment_log_name o]
| CoIndex n p o : wanted topic_filter n = true -> is_u32 p = true -> is_u 64 o ->
    is_Some (tr_files t !! ["topics"%string; n; p; segment_log_name o]) ->
    covered t topic_filter keys ["topics"%string; n; p; segment_index_name o].

Definition dump_paths (d : discovered) : list (list string) := di_metadata_files d ++ (di_log_files d ≫= fun le => [le.1; le.2]).

Lemma existing_elem t l p : p ∈ existing t l <-> p ∈ l /\ is_Some (tr_files t !! p).
Proof. unfold existing. rewrite list_elem_of_filter. naive_solver. Qed.

Lemma topic_parts_elem t n p : p ∈ topic_parts t n <-> is_u32 p = true /\ ["topics"; n; p]%string ∈ tr_dirs t.
Proof.
  unfold topic_parts, is_u32. rewrite list_elem_of_filter, dirs_in_elem. cbn [app].
  destruct (parse_unsigned 32 p); split; intros [H1 H2]; split; try done; by destruct H1.
Qed.

Lemma partition_logs_elem t n p le :
  layout t -> le ∈ partition_logs t n p <->
  exists o, is_u 64 o /\ is_Some (tr_files t !! ["topics"%string; n; p; segment_log_name o]) /\
    le = (["topics"%string; n; p; segment_log_name o], ["topics"%string; n; p; segment_index_name o]).
Proof.
  intros Hl. unfold partition_logs. rewrite list_elem_of_fmap. split.
  - intros ([o f] & -> & Hof). rewrite merge_sort_Permutation in Hof.
    apply list_elem_of_omap in Hof as (f' & Hf & E). apply files_in_elem in Hf. cbn [app] in Hf.
    destruct (segment_offset f') as [o'|] eqn:Eo; [|done]. cbn in E. simplify_eq.
    destruct (ly_segment t Hl _ _ _ _ Hf Eo) as [-> Ho]. by exists o.
  - intros (o & Ho & Hs & ->). exists (o, segment_log_name o). split; [done|]. rewrite merge_sort_Permutation.
    apply list_elem_of_omap. exists (segment_log_name o). split; [by apply files_in_elem|].
    by rewrite segment_offset_name.
Qed.

Lemma discover_logs t flt keys le :
  layout t -> le ∈ di_log_files (discover_files t flt keys) <->
  exists n p o, wanted flt n = true /\ is_u32 p = true /\ is_u 64 o /\
    is_Some (tr_files t !! ["topics"%string; n; p; segment_log_name o]) /\
    le = (["topics"%string; n; p; segment_log_name o], ["topics"%string; n; p; segment_index_name o]).
Proof.
  intros Hl. cbn [discover_files di_log_files]. rewrite list_elem_of_bind. split.
  - intros (n & Hp & Hn). apply list_elem_of_filter in Hn as [Hw Hn].
    apply list_elem_of_bind in Hp as (p & Hle & Hp). apply topic_parts_elem in Hp as [Hu _].
    apply partition_logs_elem in Hle as (o & Ho & Hs & ->); [|done]. by exists n, p, o.
  - intros (n & p & o & Hw & Hu & Ho & [d Hs] & ->). exists n. split.
    + apply list_elem_of_bind. exists p. split; [by apply partition_logs_elem; [|exists o; eauto]|].
      apply topic_parts_elem. split; [done|]. by apply (ly_dirs t Hl _ _ 3 Hs); cbn; lia.
    + apply list_elem_of_filter. split; [done|]. apply dirs_in_elem. apply (ly_dirs t Hl _ _ 2 Hs). cbn. lia.
Qed.

Lemma discover_metadata t flt keys path :
  layout t -> path ∈ di_metadata_files (discover_files t flt keys) <->
  is_Some (tr_files t !! path) /\
  ((exists n, wanted flt n = true /\ path = ["topics"; n; "topic.json"]%string) \/
   (exists n, n <> ""%string /\ path = ["groups"%string; group_path n]) \/
   (exists f, f ∈ state_files /\ path = [f]) \/ (keys = true /\ path = ["api_keys.json"%string])).
Proof.
  intros Hl. cbn [discover_files di_metadata_files]. rewrite !elem_of_app. split.
  - intros [Ht|[Hg|Hs]].
    + apply list_elem_of_bind in Ht as (n & He & Hn). apply existing_elem in He as [He Hs].
      apply list_elem_of_singleton in He as ->. apply list_elem_of_filter in Hn as [Hw _]. split; [done|]. left. by exists n.
    + apply list_elem_of_omap in Hg as (g & Hg & E). apply files_in_elem in Hg. cbn [app] in Hg.
      destruct (stem_ext g) as [[n ext]|] eqn:Es; [|done]. rewrite string_eqb_spec in E. case_bool_decide as Ee; [|done].
      simplify_eq. split; [done|]. right. left. apply stem_ext_inv in Es as [-> Hn]. by exists n.
    + apply existing_elem in Hs as [Hin Hs]. split; [done|]. right. right. unfold state_files.
      destruct keys; rewrite elem_of_app in Hin; destruct Hin as [Hin|Hin];
        rewrite ?elem_of_cons, ?elem_of_nil in Hin; destruct_or?; subst; try done;
        first [by right|left; eexists; split; [|reflexivity]; set_solver].
  - intros [Hs [(n & Hw & ->)|[(n & Hn & ->)|[(f & Hf & ->)|[-> ->]]]]].
    + left. apply list_elem_of_bind. exists n. split; [apply existing_elem; split; [left|done]|].
      apply list_elem_of_filter. split; [done|]. apply dirs_in_elem. destruct Hs as [d Hs].
      apply (ly_dirs t Hl _ _ 2 Hs). cbn. lia.
    + right. left. apply list_elem_of_omap. exists (group_path n). split; [by apply files_in_elem|].
      by rewrite stem_ext_path.
    + right. right. apply existing_elem. split; [|done]. apply elem_of_app. left. unfold state_files in Hf. set_solver.
    + right. right. apply existing_elem. split; [|done]. apply elem_of_app. right. left.
Qed.

Lemma dump_paths_covered t flt keys path :
  layout t -> is_Some (tr_files t !! path) -> path ∈ dump_paths (discover_files t flt keys) <-> covered t flt keys path.
Proof.
  intros Hl Hs. unfold dump_paths. rewrite elem_of_app, discover_metadata, list_elem_of_bind by done. split.
  - intros [[_ [(n & Hw & ->)|[(n & Hn & ->)|[(f & Hf & ->)|[-> ->]]]]]|(le & Hin & Hle)]; [by constructor..|].
    apply discover_logs in Hle as (n & p & o & Hw & Hu & Ho & Hlog & ->); [|done].
    rewrite !elem_of_cons, elem_of_nil in Hin. cbn in Hin. destruct Hin as [->|[->|[]]]; by constructor.
  - intros Hc. destruct Hc as [f Hf|Hk|n Hn|n Hw|n p o Hw Hu Ho|n p o Hw Hu Ho Hlog].
    + left. split; [done|]. right. right. left. eauto.
    + left. split; [done|]. by right; right; right.
    + left. split; [done|]. right. left. eauto.
    + left. split; [done|]. left. eauto.
    + right. eexists (_, _). split; [left|]. apply discover_logs; [done|]. exists n, p, o. eauto 10.
    + right. eexists (_, _). split; [right; left|]. apply discover_logs; [done|]. exists n, p, o. eauto 10.
Qed.

Lemma log_index_name o o' : segment_log_name o <> segment_index_name o'.
Proof.
  intros E. apply (f_equal (fun s => length (ascii_list s))) in E. unfold segment_log_name, segment_index_name in E.
  rewrite !ascii_string, !length_app, !decimal_length in E. cbn in E. lia.
Qed.

Lemma log_name_inj o o' : is_u 64 o -> is_u 64 o' -> segment_log_name o = segment_log_name o' -> o = o'.
Proof.
  intros Ho Ho' E. pose proof (segment_offset_name o Ho) as H1. rewrite E, segment_offset_name in H1 by done. by simplify_eq.
Qed.

Lemma topic_path_inj n p f n' p' f' :
  ["topics"%string; n; p; f] = ["topics"%string; n'; p'; f'] -> n = n' /\ p = p' /\ f = f'.
Proof. by intros [= -> -> ->]. Qed.

Lemma partition_logs_nodup t n p : NoDup (partition_logs t n p).
Proof.
  unfold partition_logs. apply NoDup_fmap_2_strong.
  - intros [o f] [o' f'] Hx Hy E. rewrite !merge_sort_Permutation in Hx, Hy.
    apply list_elem_of_omap in Hx as (g & _ & Eg), Hy as (g' & _ & Eg').
    destruct (segment_offset g) as [u|] eqn:E1; [|done]. destruct (segment_offset g') as [u'|] eqn:E2; [|done].
    cbn in *. simplify_eq. done.
  - rewrite merge_sort_Permutation. apply NoDup_omap_inj; [|apply files_in_nodup].
    intros x y z _ _ Hx Hy. destruct (segment_offset x), (segment_offset y); cbn in *; by simplify_eq.
Qed.

Lemma log_files_nodup t flt keys : layout t -> NoDup (di_log_files (discover_files t flt keys)).
Proof.
  intros Hl. cbn [discover_files di_log_files]. apply NoDup_bind.
  - intros n n' le _ _ H1 H2. apply list_elem_of_bind in H1 as (p & H1 & _), H2 as (p' & H2 & _).
    apply partition_logs_elem in H1 as (o & _ & _ & ->), H2 as (o' & _ & _ & E); [|done..]. by simplify_eq.
  - intros n _. apply NoDup_bind; [|intros; apply partition_logs_nodup|apply NoDup_filter, dirs_in_nodup].
    intros p p' le _ _ H1 H2. apply partition_logs_elem in H1 as (o & _ & _ & ->), H2 as (o' & _ & _ & E); [|done..].
    by simplify_eq.
  - apply NoDup_filter, dirs_in_nodup.
Qed.

Lemma metadata_nodup t flt keys : layout t -> NoDup (di_metadata_files (discover_files t flt keys)).
Proof.
  intros Hl. cbn [discover_files di_metadata_files]. apply NoDup_app. split_and!; [| |apply NoDup_app; split_and!].
  - apply NoDup_bind; [|intros; apply NoDup_filter, NoDup_singleton|apply NoDup_filter, dirs_in_nodup].
    intros n n' x _ _ H1 H2. apply existing_elem in H1 as [H1 _], H2 as [H2 _].
    apply list_elem_of_singleton in H1 as ->, H2. by simplify_eq.
  - intros x Hx. apply list_elem_of_bind in Hx as (n & Hx & _). apply existing_elem in Hx as [Hx _].
    apply list_elem_of_singleton in Hx as ->. rewrite elem_of_app. intros [Hg|Hs].
    + apply list_elem_of_omap in Hg as (g & _ & E). destruct (stem_ext g) as [[? ?]|]; [|done]. by case_if_in E; simplify_eq.
    + apply existing_elem in Hs as [Hs _]. destruct keys; rewrite elem_of_app in Hs; destruct Hs as [Hs|Hs];
        rewrite ?elem_of_cons, ?elem_of_nil in Hs; by destruct_or?.
  - apply NoDup_omap_inj; [|apply files_in_nodup]. intros x y z _ _ Hx Hy.
    destruct (stem_ext x) as [[? ?]|]; [|done]. destruct (stem_ext y) as [[? ?]|]; [|done].
    case_if_in Hx; [|done]. case_if_in Hy; [|done]. by simplify_eq.
  - intros x Hg Hs. apply list_elem_of_omap in Hg as (g & _ & E). destruct (stem_ext g) as [[? ?]|]; [|done].
    case_if_in E; [|done]. simplify_eq. apply existing_elem in Hs as [Hs _].
    destruct keys; rewrite elem_of_app in Hs; destruct Hs as [Hs|Hs]; rewrite ?elem_of_cons, ?elem_of_nil in Hs; by destruct_or?.
  - apply NoDup_filter. destruct keys; apply (bool_decide_unpack _); vm_compute; exact I.
Qed.

Lemma dump_paths_nodup t flt keys : layout t -> NoDup (dump_paths (discover_files t flt keys)).
Proof.
  intros Hl. unfold dump_paths. apply NoDup_app. split_and!; [by apply metadata_nodup| |].
  - intros x Hm. rewrite list_elem_of_bind. intros (le & Hin & Hle).
    apply discover_logs in Hle as (n & p & o & _ & _ & _ & _ & ->); [|done].
    apply discover_metadata in Hm as [_ Hm]; [|done]. rewrite !elem_of_cons, elem_of_nil in Hin. cbn in Hin.
    destruct Hin as [->|[->|[]]]; naive_solver.
  - apply NoDup_bind; [| |by apply log_files_nodup].
    + intros a b x Ha Hb Hx Hy.
      apply discover_logs in Ha as (n & p & o & _ & _ & Ho & _ & ->), Hb as (n' & p' & o' & _ & _ & Ho' & _ & ->); [|done..].
      rewrite !elem_of_cons, elem_of_nil in Hx, Hy. cbn in Hx, Hy.
      destruct Hx as [->|[->|[]]], Hy as [E|[E|[]]]; apply topic_path_inj in E as (-> & -> & E).
      * apply log_name_inj in E; [|done..]. by subst.
      * by apply log_index_name in E.
      * by destruct (log_index_name o' o).
      * apply segment_name_inj in E; [|done..]. by subst.
    + intros le Hle. apply discover_logs in Hle as (n & p & o & _ & _ & _ & _ & ->); [|done].
      apply NoDup_cons. split; [|apply NoDup_singleton]. rewrite list_elem_of_singleton. cbn. intros E. apply topic_path_inj in E as (_ & _ & E).
      by apply log_index_name in E.
Qed.

Lemma covered_allowed t flt keys path :
  layout t -> is_Some (tr_files t !! path) -> covered t flt keys path -> is_allowed path false keys = true.
Proof.
  intros Hl Hs Hc. destruct Hc as [f Hf|Hk|n Hn|n Hw|n p o Hw Hu Ho|n p o Hw Hu Ho Hlog].
  - unfold state_files in Hf. rewrite !elem_of_cons, elem_of_nil in Hf. by destruct Hf as [->|[->|[->|[->|[]]]]].
  - by rewrite Hk.
  - cbn [is_allowed]. unfold group_path.
    assert (ascii_list (n +:+ ".json") = ascii_list n ++ ascii_list ".json") as -> by apply list_ascii_app.
    rewrite strip_end_app, string_ascii. eapply (ly_group t Hl); [exact Hs|]. by apply stem_ext_path.
  - cbn. destruct Hs as [d Hs]. apply (ly_topic t Hl), (ly_dirs t Hl _ _ 2 Hs). cbn. lia.
  - cbn [is_allowed]. change (String.eqb "topics" "topics") with true. cbn [andb]. rewrite Hu. unfold segment_log_name. change (ascii_list ".log") with ("."%char :: ascii_list "log").
    rewrite segment_file_name, !andb_true_r by (by left). destruct Hs as [d Hs].
    apply (ly_topic t Hl), (ly_dirs t Hl _ _ 2 Hs). cbn. lia.
  - cbn [is_allowed]. change (String.eqb "topics" "topics") with true. cbn [andb]. rewrite Hu. unfold segment_index_name. change (ascii_list ".index") with ("."%char :: ascii_list "index").
    rewrite segment_file_name, !andb_true_r by (by right). destruct Hs as [d Hs].
    apply (ly_topic t Hl), (ly_dirs t Hl _ _ 2 Hs). cbn. lia.
Qed.

Section Backup.
Context `{Crc32} `{Container} `{ManifestText}.


Definition pick (t : tree) (p : list string) : option (list string * list byte) := d ← tr_files t !! p; Some (p, d).

(** Nothing changes while a stopped broker's files are read. *)
Definition quiet (_ : list string) (d : list byte) : list byte := d.

Lemma exactly_all (d : list byte) : exactly (length d) d = d.
Proof. unfold exactly. by rewrite firstn_all, Nat.sub_diag, app_nil_r. Qed.

Lemma add_quiet t p : add_file_to_tar t quiet p = ent <$> pick t p.
Proof. unfold add_file_to_tar, pick. destruct (tr_files t !! p); cbn; [|done]. unfold quiet. by rewrite exactly_all. Qed.

Lemma dump_entries t d :
  (forall le, le ∈ di_log_files d -> is_Some (tr_files t !! le.1)) ->
  omap (add_file_to_tar t quiet) (di_metadata_files d) ++ (di_log_files d ≫= add_segment t quiet) =
  ent <$> omap (pick t) (dump_paths d).
Proof.
  intros Hlog. unfold dump_paths. rewrite omap_app, fmap_app. f_equal.
  - induction (di_metadata_files d) as [|p l IH]; [done|]. cbn. rewrite add_quiet. destruct (pick t p); cbn; by rewrite IH.
  - induction (di_log_files d) as [|le l IH]; [done|]. cbn [mbind list_bind].
    rewrite IH by (intros; apply Hlog; by right). rewrite omap_app, fmap_app. f_equal. unfold add_segment.
    rewrite !add_quiet. unfold pick. cbn. destruct (Hlog le (list_elem_of_here _ _)) as [x Hx]. rewrite Hx. cbn.
    by destruct (tr_files t !! le.2).
Qed.

Lemma sizes_pick t l : sizes (omap (pick t) l) = sum_lens t l.
Proof.
  induction l as [|p l IH]; [done|]. cbn [omap list_omap]. change (sum_lens t (p :: l)) with (file_len t p + sum_lens t l).
  unfold pick at 1, file_len. destruct (tr_files t !! p) as [d|]; cbn [mbind option_bind]; [|exact IH].
  change (len d + sizes (omap (pick t) l) = len d + sum_lens t l). by rewrite IH.
Qed.

Lemma sum_lens_app t l k : sum_lens t (l ++ k) = sum_lens t l + sum_lens t k.
Proof.
  induction l as [|p l IH]; [done|]. change (file_len t p + sum_lens t (l ++ k) = file_len t p + sum_lens t l + sum_lens t k). lia.
Qed.

Lemma pick_fst t (l : list (list string)) : (omap (pick t) l).*1 = filter (fun p => is_Some (tr_files t !! p)) l.
Proof.
  induction l as [|p l IH]; [done|]. cbn [omap list_omap]. rewrite filter_cons. unfold pick at 1.
  destruct (tr_files t !! p) as [d|]; cbn [mbind option_bind]; [rewrite decide_True by by eexists|rewrite decide_False by (by intros [])]; cbn; by rewrite IH.
Qed.

Lemma pick_elem t (l : list (list string)) p d : (p, d) ∈ omap (pick t) l <-> p ∈ l /\ tr_files t !! p = Some d.
Proof.
  rewrite list_elem_of_omap. unfold pick. split.
  - intros (q & Hq & E). destruct (tr_files t !! q) eqn:Eq; cbn in E; [|done]. by simplify_eq.
  - intros [Hp Hd]. exists p. split; [done|]. by rewrite Hd.
Qed.

Lemma restore_dump t flt keys verify archive aside :
  dump (Some t) quiet flt keys verify = Ok archive ->
  restore (mkPlace None aside) (Some archive) false =
  let m := dump_manifest t flt keys in
  let d := discover_files t flt keys in
  if 1024 * 1024 <? len (manifest_json m) then (Err ManifestTooLarge, mkPlace None aside)
  else match extract_all m (Some <$> (omap (add_file_to_tar t quiet) (di_metadata_files d) ++ (di_log_files d ≫= add_segment t quiet)))
               (mkTree ∅ ∅, 0) with
       | Ok st => (Ok tt, mkPlace (Some st.1) aside)
       | Err e => (Err e, mkPlace None aside)
       | Panic => (Panic, mkPlace None aside)
       end.
Proof.
  cbn [dump]. intros E. cbv zeta.
  destruct (if verify then _ else _) as [[]|?|]; cbn [mbind outcome_bind] in E; [|done..].
  apply (f_equal (fun o => match o with Ok x => x | _ => [] end)) in E. cbn in E. subst archive.
  unfold restore. cbn [has_content pl_data andb]. rewrite unpack_pack. cbn [fmap list_fmap extract en_path en_size en_data].
  change (String.eqb "manifest.json" "manifest.json") with true. cbn [negb]. case_if; [done|].
  rewrite parse_manifest_json. cbn [ok_or mbind outcome_bind dump_manifest mf_version]. change (1 <? 1) with false.
  by destruct (extract_all _ _ _) as [[? ?]|?|].
Qed.

(** C34: a backup gives the data back.  For a data directory with the layout a broker
    writes, restoring its dump into a fresh place succeeds, and the restored
    directory holds exactly the files the dump covers (segments with their indexes,
    topic configurations, group offsets, schemas, producer sequences, and the keys
    when asked for) with their content.  The manifest has to stay below its limit. *)
Theorem backup_roundtrip t flt keys verify archive aside :
  layout t -> sum_lens t (dump_paths (discover_files t flt keys)) < 2 ^ 63 ->
  len (manifest_json (dump_manifest t flt keys)) <= 1024 * 1024 ->
  dump (Some t) quiet flt keys verify = Ok archive ->
  exists t', restore (mkPlace None aside) (Some archive) false = (Ok tt, mkPlace (Some t') aside) /\
    forall path d, tr_files t' !! path = Some d <-> covered t flt keys path /\ tr_files t !! path = Some d.
Proof.
  intros Hl Hsz Hm E. rewrite (restore_dump _ _ _ _ _ _ E). cbv zeta. rewrite (proj2 (Z.ltb_ge _ _)) by lia.
  set (d := discover_files t flt keys) in *.
  rewrite dump_entries by (intros le Hle; apply discover_logs in Hle as (? & ? & ? & _ & _ & _ & ? & ->); done).
  assert (NoDup (omap (pick t) (dump_paths d)).*1) as Hnd by (rewrite pick_fst; by apply NoDup_filter, dump_paths_nodup).
  assert (mf_total_bytes (dump_manifest t flt keys) = sum_lens t (dump_paths d)) as Htot.
  { unfold dump_manifest. cbn [mf_total_bytes]. fold d. unfold dump_paths. rewrite !sum_lens_app. lia. }
  destruct (extract_ents (dump_manifest t flt keys) (omap (pick t) (dump_paths d)) (mkTree ∅ ∅) 0) as [dirs Hd].
  - apply Forall_forall. intros [p x] Hx. apply pick_elem in Hx as [Hp Hx]. cbn.
    eapply covered_allowed; [done|by eexists|]. by apply (dump_paths_covered t flt keys p Hl); [eexists|].
  - done.
  - apply Forall_forall. intros [p x] _. apply lookup_empty.
  - lia.
  - rewrite sizes_pick, Htot. unfold SIZE_SLACK_BYTES. pose proof (sizes_nonneg (omap (pick t) (dump_paths d))).
    rewrite sizes_pick in *. lia.
  - rewrite Hd. cbn [fst]. eexists. split; [done|]. cbn [tr_files]. intros path x. rewrite (right_id_L ∅ (∪)).
    rewrite <- elem_of_list_to_map by done. rewrite pick_elem. split; intros [Hp Hx]; (split; [|done]);
      (apply (dump_paths_covered t flt keys path Hl); [by eexists|done]).
Qed.

(** With enough topics the manifest itself is too large, and the backup cannot be
    restored. *)
Lemma large_manifest_refused t flt keys verify archive aside :
  dump (Some t) quiet flt keys verify = Ok archive -> 1024 * 1024 < len (manifest_json (dump_manifest t flt keys)) ->
  restore (mkPlace None aside) (Some archive) false = (Err ManifestTooLarge, mkPlace None aside).
Proof. intros E Hm. rewrite (restore_dump _ _ _ _ _ _ E). cbv zeta. by rewrite (proj2 (Z.ltb_lt _ _)). Qed.
End Backup.

(** ** Examples *)

Section BackupExamples.
#[local] Existing Instance crc32_ieee_class.

(** A container and a manifest format for examples: everything is encoded into one
    number, and the number into bytes. *)
Definition kind_code (k : entry_kind) : Z := match k with KFile => 0 | KDir => 1 | KOther => 2 end.
Definition kind_of (z : Z) : entry_kind := if z =? 0 then KFile else if z =? 1 then KDir else KOther.
Definition entry_fields (e : tar_entry) : string * Z * Z * list byte := (en_path e, kind_code (en_kind e), en_size e, en_data e).
Definition fields_entry (x : string * Z * Z * list byte) : tar_entry := mkEnt x.1.1.1 (kind_of x.1.1.2) x.1.2 x.2.

Definition number_container : Container.
Proof.
  refine {| pack es := pos_bytes (encode (entry_fields <$> es));
            unpack l := match decode (bytes_pos l) with Some xs => Some <$> (fields_entry <$> xs) | None => [None] end |}.
  intros es. rewrite bytes_pos_bytes, decode_encode. f_equal. rewrite <- list_fmap_compose.
  induction es as [|[p k n d] es IH]; [done|]. cbn. rewrite IH. by destruct k.
Defined.

Definition manifest_fields (m : manifest) : Z * list string * bool * Z * Z :=
  (mf_version m, mf_topics m, mf_includes_keys m, mf_file_count m, mf_total_bytes m).
Definition fields_manifest (x : Z * list string * bool * Z * Z) : manifest :=
  mkManifest x.1.1.1.1 x.1.1.1.2 x.1.1.2 x.1.2 x.2.

Definition number_manifest : ManifestText.
Proof.
  refine {| manifest_json m := pos_bytes (encode (manifest_fields m));
            parse_manifest l := fields_manifest <$> decode (bytes_pos l) |}.
  intros m. rewrite bytes_pos_bytes, decode_encode. by destruct m.
Defined.
#[local] Existing Instances number_container number_manifest.

Definition small_tree : tree :=
  mkTree {[ ["topics"; "t"; "topic.json"] := [x7b]; ["topics"; "t"; "0"; segment_log_name 0] := [x01];
            ["groups"; "g.json"] := [x7d]; ["bootstrap.key"] := [x73] ]}%string
    {[ ["topics"]; ["topics"; "t"]; ["topics"; "t"; "0"]; ["groups"] ]}%string.

Lemma small_layout : layout small_tree.
Proof.
  constructor.
  - intros path d k E Hk. cbn [small_tree tr_files] in E.
    repeat (apply lookup_insert_Some in E as [[<- _]|[_ E]];
      [destruct k as [|[|[|[|k]]]]; cbn [length] in Hk; try lia; apply (bool_decide_unpack _); vm_compute; exact I|]).
    apply lookup_singleton_Some in E as [<- _]. cbn [length] in Hk. lia.
  - intros n Hn. cbn [small_tree tr_dirs] in Hn. rewrite !elem_of_union, !elem_of_singleton in Hn.
    destruct Hn as [[[Hn|Hn]|Hn]|Hn]; try discriminate. by simplify_eq.
  - intros g n [d E] Hs. cbn [small_tree tr_files] in E.
    repeat (apply lookup_insert_Some in E as [[Ep _]|[_ E]]; [try discriminate|]).
    + injection Ep as <-. vm_compute in Hs. by simplify_eq.
    + by apply lookup_singleton_Some in E as [Ep _].
  - intros n p f o [d E] Ho. cbn [small_tree tr_files] in E.
    repeat (apply lookup_insert_Some in E as [[Ep _]|[_ E]]; [try discriminate|]).
    + apply topic_path_inj in Ep as (_ & _ & <-). rewrite segment_offset_name in Ho by done. by simplify_eq.
    + by apply lookup_singleton_Some in E as [Ep _].
Qed.

Definition small_archive : list byte :=
  match dump (Some small_tree) quiet None false false with Ok archive => archive | _ => [] end.

Lemma backup_roundtrip_witness :
  exists t', restore (mkPlace None []) (Some small_archive) false = (Ok tt, mkPlace (Some t') []) /\
    tr_files t' !! ["topics"; "t"; "topic.json"]%string = Some [x7b] /\ tr_files t' !! ["bootstrap.key"%string] = None.
Proof.
  destruct (backup_roundtrip small_tree None false false small_archive [] small_layout) as (t' & Hr & Hf).
  - vm_compute. reflexivity.
  - vm_compute. discriminate.
  - reflexivity.
  - exists t'. split; [exact Hr|]. split.
    + apply Hf. split; [by constructor|]. vm_compute. reflexivity.
    + destruct (tr_files t' !! ["bootstrap.key"%string]) as [d|] eqn:Eb; [|done]. apply Hf in Eb as [Hc _].
      inversion Hc as [f Hin| | | | |]. unfold state_files in Hin. rewrite !elem_of_cons, elem_of_nil in Hin. by destruct_or?.
Defined.

(** Paths that lead outside, links and unknown files are skipped. *)
Example crafted_entries_skipped :
  let e path kind := mkEnt path kind 1 [x61] in
  let m := mkManifest 1 [] false 1 10 in
  extract_all m [Some (e "../../etc/passwd" KFile); Some (e "/schemas.json" KFile); Some (e "schemas.json" KOther);
                 Some (e "api_keys.json" KFile); Some (e "topics/t/0/run.sh" KFile); Some (e "./schemas.json" KFile)]%string
    (mkTree ∅ ∅, 0) = Ok (mkTree {[ ["schemas.json"%string] := [x61] ]} ∅, 1).
Proof. vm_compute. reflexivity. Qed.

(** ** The marker of a compaction is not part of a backup *)

Lemma marker_not_covered t flt keys n p : ~ covered t flt keys ["topics"; n; p; "compaction.marker"]%string.
Proof.
  intros Hc. inversion Hc as [| | | |? ? o _ _ _ E|? ? o _ _ _ _ E]; unfold segment_log_name, segment_index_name in *;
    match goal with E : string_of _ = _ |- _ => apply (f_equal (fun s => length (ascii_list s))) in E;
      rewrite ascii_string, length_app, decimal_length in E; cbn in E; lia end.
Qed.

Definition keyed (o : Z) (k v : byte) : record := mkRecord o 1 (Some [k]) [v].

(** A broker that crashed while it swapped in a compacted segment: output in place,
    the victim not yet removed. *)
Definition crashed_swap : disk :=
  disk_run (mkDisk {[ 0 := recs_bytes [keyed 0 x61 x01; keyed 1 x62 x02]; 2 := recs_bytes [keyed 2 x61 x03; keyed 3 x63 x04];
                      4 := recs_bytes [keyed 4 x62 x05] ]} ∅ ∅ ∅ None)
    (take 5 (compaction_ops 0 [2] (recs_bytes [keyed 1 x62 x02; keyed 3 x63 x04]) [])).

Definition without_marker (d : disk) : disk := mkDisk (d_logs d) (d_indexes d) ∅ ∅ None.

(** Started as it is, the broker finishes the compaction from the marker, and a read
    at offset 2 finds what was kept.  Started on a restored backup of the same
    directory, it serves the record the compaction had removed; and the next
    compaction of that directory copies what both files hold twice. *)
Example backup_of_crashed_compaction :
  let offsets p := r_offset <$> (read_records_raw p 2 100 100000).1.1 in
  let before := partition_open crashed_swap 1000 1 in
  let after := partition_open (without_marker crashed_swap) 1000 1 in
  offsets before = [3] /\ offsets after = [2; 3] /\
  r_offset <$> (read_records_raw (compact_partition after (mkTopicConfig None None Compact 40 10) 100) 0 100 100000).1.1
    = [1; 3; 2; 3].
Proof. vm_compute. split_and!; reflexivity. Qed.
End BackupExamples.
