(* ===== verification/Tiered.v ===== *)
(** * Tiered storage and the passes over a broker's partitions
      (tiered_storage.rs, retention.rs, compaction.rs, http/admin.rs, http/admin_tiered.rs)

    Retention copies a segment to a cold directory before it deletes the hot one.
    The cold directory maps a topic and a partition to the files there; what an
    offload does to it is a list of operations, each of which may fail.  For every
    name the model keeps whether it would survive a power loss: the bytes of a file,
    its entry in its directory, and the directory's own entry in its parents. *)

From S2P Require Import BackupSpec.
From S2P Require Export Registry Retention Compaction.

#[local] Open Scope Z_scope.

(** ** The cold directory *)

Record cold_file : Type := mkColdFile { cf_bytes : list byte; cf_synced : bool; cf_named : bool }.
Record cold_dir : Type := mkColdDir { cd_files : gmap string cold_file; cd_named : bool }.
Abbreviation cold_store := (gmap (string * Z) cold_dir).

Inductive cold_op : Type :=
| ColdMkdir
| ColdCreate (name : string)
| ColdWrite (name : string) (bytes : list byte)
| ColdSync (name : string)
| ColdSyncDir.

(** [create_private] truncates; an entry that was durable stays so. *)
Definition cold_file_op (op : cold_op) (files : gmap string cold_file) : gmap string cold_file :=
  match op with
  | ColdMkdir => files
  | ColdCreate n => <[n := mkColdFile [] false (match files !! n with Some f => cf_named f | None => false end)]> files
  | ColdWrite n bytes => alter (fun f => mkColdFile (cf_bytes f ++ bytes) false (cf_named f)) n files
  | ColdSync n => alter (fun f => mkColdFile (cf_bytes f) true (cf_named f)) n files
  | ColdSyncDir => (fun f => mkColdFile (cf_bytes f) (cf_synced f) true) <$> files
  end.

Definition cold_apply (at_ : string * Z) (store : cold_store) (op : cold_op) : cold_store :=
  match op, store !! at_ with
  | ColdMkdir, None => <[at_ := mkColdDir ∅ false]> store
  | _, Some d => <[at_ := mkColdDir (cold_file_op op (cd_files d)) (cd_named d)]> store
  | _, None => store
  end.

Definition cold_run (at_ : string * Z) (store : cold_store) (ops : list cold_op) : cold_store :=
  fold_left (cold_apply at_) ops store.

(** ** [LocalTieredStore] *)

Definition copy_durable (name : string) (bytes : list byte) : list cold_op :=
  [ColdCreate name; ColdWrite name bytes; ColdSync name].

Definition offload_ops (base : Z) (files : seg_files) : list cold_op :=
  [ColdMkdir] ++ copy_durable (segment_log_name base) (f_log files) ++
  copy_durable (segment_index_name base) (f_index files) ++ [ColdSyncDir].

(** A failure: the operation that fails and how much of a write it still did. *)
Definition failing (ops : list cold_op) (k n : nat) : list cold_op :=
  take k ops ++ match ops !! k with Some (ColdWrite name bytes) => [ColdWrite name (take n bytes)] | _ => [] end.

Definition cold_error : string := "offload".

(** [offload]: the number of bytes.  [files] are the hot files, [None] when they
    cannot be opened. *)
Definition offload (store : cold_store) (topic : string) (partition_id base : Z) (files : option seg_files)
    (fault : option (nat * nat)) : cold_store * outcome string Z :=
  match validate_topic_name topic with
  | Err e => (store, Err e)
  | Panic => (store, Panic)
  | Ok _ =>
    match files, fault with
    | None, _ => (cold_run (topic, partition_id) store [ColdMkdir], Err cold_error)
    | Some files, Some (k, n) => (cold_run (topic, partition_id) store (failing (offload_ops base files) k n), Err cold_error)
    | Some files, None => (cold_run (topic, partition_id) store (offload_ops base files), Ok (len (f_log files) + len (f_index files)))
    end
  end.

Definition cold_read (store : cold_store) (at_ : string * Z) (name : string) : option (list byte) :=
  d ← store !! at_; cf_bytes <$> cd_files d !! name.

(** [retrieve]: [dest] are the files of the destination, the flags whether the two
    copies work. *)
Definition retrieve (store : cold_store) (topic : string) (partition_id base : Z) (dest : gmap string (list byte))
    (log_works index_works : bool) : gmap string (list byte) * outcome string unit :=
  match cold_read store (topic, partition_id) (segment_log_name base) with
  | None => (dest, Err "not found"%string)
  | Some log =>
    if log_works then
      let dest := <[segment_log_name base := log]> dest in
      match cold_read store (topic, partition_id) (segment_index_name base) with
      | Some index => if index_works then (<[segment_index_name base := index]> dest, Ok tt) else (dest, Err "retrieve index"%string)
      | None => (dest, Ok tt)
      end
    else (dest, Err "retrieve log"%string)
  end.

(** The offset in a file name of the cold directory. *)
Definition cold_offset (name : string) : option Z :=
  if ends_with ".log" name
  then let l := ascii_list name in parse_unsigned 64 (string_of (trim_end_matches (length l) (ascii_list ".log") l))
  else None.

Definition list_remote (store : cold_store) (topic : string) (partition_id : Z) : list Z :=
  match store !! (topic, partition_id) with
  | None => []
  | Some d => merge_sort Z.le (omap (fun nf => cold_offset nf.1) (map_to_list (cd_files d)))
  end.

(** [delete_remote]: errors are ignored. *)
Definition delete_remote (store : cold_store) (topic : string) (partition_id base : Z) (log_works index_works : bool) : cold_store :=
  alter (fun d => mkColdDir
    ((if index_works then delete (segment_index_name base) else fun m => m)
      ((if log_works then delete (segment_log_name base) else fun m => m) (cd_files d))) (cd_named d)) (topic, partition_id) store.

(** ** The passes *)

Section Passes.
Context `{!Crc32}.

(** The loop of [offload_victims] over the segments of [p]. *)
Fixpoint offload_each (store : cold_store) (topic : string) (partition_id : Z) (p : partition)
    (faults : Z -> option (nat * nat)) (victims : list Z) : list Z * cold_store :=
  match victims with
  | [] => ([], store)
  | base :: rest =>
    match find (fun s => s_base_offset s =? base) (p_segments p) with
    | None => offload_each store topic partition_id p faults rest
    | Some _ =>
      let (store, r) := offload store topic partition_id base (p_dir p !! base) (faults base) in
      let (deletable, store) := offload_each store topic partition_id p faults rest in
      (match r with Ok _ => base :: deletable | _ => deletable end, store)
    end
  end.

(** [offload_victims]; [current] is the partition now found under the name. *)
Definition offload_victims (current : option partition) (topic : string) (partition_id : Z)
    (faults : Z -> option (nat * nat)) (store : option cold_store) (victims : list Z) : list Z * option cold_store :=
  match store with
  | None => (victims, None)
  | Some store =>
    match current with
    | None => ([], Some store)
    | Some p => let (deletable, store) := offload_each store topic partition_id p faults victims in (deletable, Some store)
    end
  end.

(** What happens while a partition is visited: the clock, the failures of the cold
    store and whether the grace period is cut short. *)
Record visit : Type := mkVisit { vi_now : Z; vi_faults : Z -> option (nat * nat); vi_cancelled : bool }.

(** One partition. *)
Definition reap (topic : string) (config : topic_config) (partition_id : Z) (p : partition) (store : option cold_store) (v : visit)
    : partition * option cold_store :=
  let '(_, p', store) :=
    retention_pass (offload_victims (Some p) topic partition_id (vi_faults v)) store p config (vi_now v) (vi_cancelled v) in
  (p', store).

(** The partitions of a topic from number [id] on; the pass is cancelled when the
    visits are used up. *)
Fixpoint reap_partitions (topic : string) (config : topic_config) (id : Z) (ps : list partition) (store : option cold_store)
    (visits : list visit) : list partition * option cold_store * list visit :=
  match ps, visits with
  | [], _ => ([], store, visits)
  | ps, [] => (ps, store, [])
  | p :: ps, v :: visits =>
    let (p, store) := reap topic config id p store v in
    let '(ps, store, visits) := reap_partitions topic config (id + 1) ps store visits in (p :: ps, store, visits)
  end.

Definition with_partitions (t : open_topic) (ps : list partition) : open_topic :=
  let tp := ot_topic t in
  mkOpenTopic (mkTopic ps (t_rr_counter tp) (t_records_produced tp) (t_bytes_produced tp) (t_records_consumed tp) (t_bytes_consumed tp))
    (ot_config t) (ot_persisted t).

(** [retention::run_pass] over the topics named, in the order the map lists them. *)
Fixpoint reap_topics (names : list string) (topics : gmap string open_topic) (store : option cold_store) (visits : list visit)
    : gmap string open_topic * option cold_store :=
  match names with
  | [] => (topics, store)
  | name :: names =>
    match topics !! name with
    | None => reap_topics names topics store visits
    | Some t =>
      let '(ps, store, visits) := reap_partitions name (ot_config t) 0 (t_partitions (ot_topic t)) store visits in
      reap_topics names (<[name := with_partitions t ps]> topics) store visits
    end
  end.

(** [compaction::run_pass]; a clock per partition visited. *)
Fixpoint compact_topics (names : list string) (topics : gmap string open_topic) (now : string -> Z -> option Z) : gmap string open_topic :=
  match names with
  | [] => topics
  | name :: names =>
    match topics !! name with
    | Some t =>
      if includes_compact (tc_cleanup_policy (ot_config t)) then
        let ps := imap (fun id p => match now name (Z.of_nat id) with Some at_ => compact_partition p (ot_config t) at_ | None => p end)
          (t_partitions (ot_topic t)) in
        compact_topics names (<[name := with_partitions t ps]> topics) now
      else compact_topics names topics now
    | None => compact_topics names topics now
    end
  end.

(** ** The handlers *)

Definition with_topics (r : registry_state) (topics : gmap string open_topic) : registry_state := mkRegistry topics (rg_root r).

(** [admin::run_retention] *)
Definition http_run_retention (r : registry_state) (store : option cold_store) (key : api_key) (names : list string)
    (visits : list visit) : registry_state * option cold_store * outcome app_error unit :=
  if is_admin key then
    let (topics, store) := reap_topics names (rg_topics r) store visits in (with_topics r topics, store, Ok tt)
  else (r, store, Err (forbidden "admin grant required")).

(** [admin::run_compaction] *)
Definition http_run_compaction (r : registry_state) (key : api_key) (names : list string) (now : string -> Z -> option Z)
    : registry_state * outcome app_error unit :=
  if is_admin key then (with_topics r (compact_topics names (rg_topics r) now), Ok tt)
  else (r, Err (forbidden "admin grant required")).

(** [admin_tiered::list_remote] *)
Definition http_list_remote (store : option cold_store) (key : api_key) (topic : string) (partition_id : Z)
    : outcome app_error (list Z) :=
  if is_admin key then
    match validate_topic_name topic with
    | Ok _ => Ok (match store with Some s => list_remote s topic partition_id | None => [] end)
    | Err e => Err (mkAppError 400 (Some e))
    | Panic => Panic
    end
  else Err (forbidden "admin access required").
End Passes.
