(* ===== verification/TieredSpec.v ===== *)
(** * What the cold store keeps

    An offload that succeeds leaves exact copies, changes nothing else of the cold
    directory and can be retrieved and listed; a retention pass over a whole broker
    deletes only what the cold store holds. *)

From S2P Require Import BackupSpec.
From S2P Require Export Tiered.

#[local] Open Scope Z_scope.

(** ** Files of the cold directory *)

Definition cold_entry (store : cold_store) (at_ : string * Z) (name : string) : option cold_file :=
  d ← store !! at_; cd_files d !! name.

(** Exact copies whose bytes and entries are on disk. *)
Definition cold_holds (store : cold_store) (at_ : string * Z) (base : Z) (files : seg_files) : Prop :=
  cold_entry store at_ (segment_log_name base) = Some (mkColdFile (f_log files) true true) /\
  cold_entry store at_ (segment_index_name base) = Some (mkColdFile (f_index files) true true).

(** Operations on the two files of one segment. *)
Definition about (base : Z) (op : cold_op) : Prop :=
  match op with
  | ColdCreate n | ColdWrite n _ | ColdSync n => n = segment_log_name base \/ n = segment_index_name base
  | ColdMkdir | ColdSyncDir => True
  end.

Lemma log_not_index o o' : segment_log_name o <> segment_index_name o'.
Proof.
  intros E. apply (f_equal ascii_list) in E. unfold segment_log_name, segment_index_name in E. rewrite !ascii_string in E.
  apply (f_equal length) in E. rewrite !length_app, !decimal_length in E. cbn in E. lia.
Qed.

Lemma other_names base base' n : is_u 64 base -> is_u 64 base' -> base <> base' ->
  n = segment_log_name base' \/ n = segment_index_name base' -> n <> segment_log_name base /\ n <> segment_index_name base.
Proof.
  intros Hb Hb' Hne [-> | ->]; split; intros E.
  - by apply Hne, log_name_inj.
  - by eapply log_not_index.
  - symmetry in E. by eapply log_not_index.
  - by apply Hne, segment_name_inj.
Qed.

Lemma cold_apply_other at_ at' store op n : at' <> at_ -> cold_entry (cold_apply at_ store op) at' n = cold_entry store at' n.
Proof.
  intros Hne. unfold cold_entry, cold_apply. destruct op, (store !! at_); try done; by rewrite lookup_insert_ne.
Qed.

(** An operation on other files leaves a durable copy. *)
Lemma cold_apply_keeps at_ store op base n bytes :
  about base op -> n <> segment_log_name base /\ n <> segment_index_name base ->
  cold_entry store at_ n = Some (mkColdFile bytes true true) -> cold_entry (cold_apply at_ store op) at_ n = Some (mkColdFile bytes true true).
Proof.
  intros Ha [Hn1 Hn2] He. unfold cold_entry, cold_apply in *. destruct (store !! at_) as [d|] eqn:Ed; [|done].
  cbn in He. destruct op; rewrite lookup_insert_eq; cbn [mbind option_bind cd_files cold_file_op]; cbn in Ha |- *; try done.
  - rewrite lookup_insert_ne; [done|]. intros ->. tauto.
  - rewrite lookup_alter_ne; [done|]. intros ->. tauto.
  - rewrite lookup_alter_ne; [done|]. intros ->. tauto.
  - by rewrite lookup_fmap, He.
Qed.

Lemma cold_run_keeps at_ store ops base at' base' files :
  is_u 64 base -> is_u 64 base' -> (at', base') <> (at_, base) -> Forall (about base) ops ->
  cold_holds store at' base' files -> cold_holds (cold_run at_ store ops) at' base' files.
Proof.
  intros Hb Hb' Hne Ha. unfold cold_run. revert store. induction Ha as [|op ops Hop Hops IH]; intros store [H1 H2]; [done|].
  cbn. apply IH. destruct (decide (at' = at_)) as [->|Hat].
  - assert (base' <> base) as Hbb by congruence.
    split; (eapply cold_apply_keeps; [done| |done]); apply (other_names base base'); auto.
  - split; by rewrite cold_apply_other.
Qed.

(** The operations of an offload, also one that fails. *)
Lemma offload_ops_about base files : Forall (about base) (offload_ops base files).
Proof. unfold offload_ops, copy_durable. cbn [app]. repeat (apply Forall_cons; split; [cbn; auto|]). constructor. Qed.

Lemma failing_about base ops k n : Forall (about base) ops -> Forall (about base) (failing ops k n).
Proof.
  intros Ha. unfold failing. apply Forall_app. split; [by apply Forall_take|].
  destruct (ops !! k) as [op|] eqn:E; [|constructor]. rewrite Forall_lookup in Ha. pose proof (Ha k op E).
  destruct op; cbn in *; try apply Forall_nil_2. by apply Forall_singleton.
Qed.

Lemma offload_keeps store topic id base files fault at' base' files' :
  is_u 64 base -> is_u 64 base' -> (at', base') <> ((topic, id), base) -> cold_holds store at' base' files' ->
  cold_holds (offload store topic id base files fault).1 at' base' files'.
Proof.
  intros Hb Hb' Hne Hh. unfold offload. destruct (validate_topic_name topic); [|done|done].
  assert (forall ops, Forall (about base) ops -> cold_holds (cold_run (topic, id) store ops) at' base' files') as Hrun
    by (intros; by apply (cold_run_keeps _ _ _ base)).
  destruct files as [files|], fault as [[k n]|]; apply Hrun; eauto using failing_about, offload_ops_about; by repeat constructor.
Qed.

(** Other directories are not touched at all. *)
Lemma offload_elsewhere store topic id base files fault at' :
  at' <> (topic, id) -> (offload store topic id base files fault).1 !! at' = store !! at'.
Proof.
  intros Hne. assert (forall ops st, cold_run (topic, id) st ops !! at' = st !! at') as Hrun.
  { induction ops as [|op ops IH]; intros st; [done|].
    change (cold_run (topic, id) st (op :: ops)) with (cold_run (topic, id) (cold_apply (topic, id) st op) ops).
    rewrite IH. unfold cold_apply. destruct op, (st !! (topic, id)); try done; by rewrite lookup_insert_ne. }
  unfold offload. destruct (validate_topic_name topic); [|done|done].
  destruct files as [files|], fault as [[k n]|]; apply Hrun.
Qed.

Lemma cold_run_dir at_ store ops d : store !! at_ = Some d ->
  cold_run at_ store ops !! at_ = Some (mkColdDir (fold_left (fun f op => cold_file_op op f) ops (cd_files d)) (cd_named d)).
Proof.
  revert store d. induction ops as [|op ops IH]; intros store d Hd; [by destruct d|].
  change (cold_run at_ store (op :: ops)) with (cold_run at_ (cold_apply at_ store op) ops).
  assert (cold_apply at_ store op = <[at_ := mkColdDir (cold_file_op op (cd_files d)) (cd_named d)]> store) as ->
    by (unfold cold_apply; rewrite Hd; by destruct op).
  by rewrite (IH _ _ (lookup_insert_eq _ _ _)).
Qed.

Lemma offload_files base files m :
  let m' := fold_left (fun f op => cold_file_op op f) (offload_ops base files) m in
  m' !! segment_log_name base = Some (mkColdFile (f_log files) true true) /\
  m' !! segment_index_name base = Some (mkColdFile (f_index files) true true).
Proof.
  cbv zeta. pose proof (log_not_index base base) as Hne. cbn [offload_ops copy_durable app fold_left cold_file_op].
  rewrite !lookup_fmap. set (l := segment_log_name base) in *. set (i := segment_index_name base) in *.
  rewrite (lookup_alter_ne _ _ i l), (lookup_alter_ne _ _ i l), (lookup_insert_ne _ i l) by done.
  rewrite !lookup_alter_eq, !lookup_insert_eq. done.
Qed.

Lemma offload_holds store topic id base files store' n :
  offload store topic id base files None = (store', Ok n) -> exists fs, files = Some fs /\ cold_holds store' (topic, id) base fs /\
    n = len (f_log fs) + len (f_index fs).
Proof.
  unfold offload. destruct (validate_topic_name topic); [|done|done]. destruct files as [fs|]; [|done].
  intros Ho. apply pair_eq in Ho as [<- Hn]. exists fs. split; [done|]. split; [|by injection Hn].
  assert (exists d, cold_apply (topic, id) store ColdMkdir !! (topic, id) = Some d) as [d Hd].
  { unfold cold_apply. destruct (store !! (topic, id)) eqn:E; [|rewrite lookup_insert_eq; by eexists].
    rewrite lookup_insert_eq. by eexists. }
  assert (cold_run (topic, id) store (offload_ops base fs) !! (topic, id) =
    Some (mkColdDir (fold_left (fun f op => cold_file_op op f) (offload_ops base fs) (cd_files d)) (cd_named d))) as Hr.
  { exact (cold_run_dir (topic, id) _ (drop 1 (offload_ops base fs)) d Hd). }
  unfold cold_holds, cold_entry. rewrite Hr. apply offload_files.
Qed.

Lemma offload_fault store topic id base files k n : exists e, (offload store topic id base files (Some (k, n))).2 = e /\ forall v, e <> Ok v.
Proof. unfold offload. destruct (validate_topic_name topic), files; eexists; split; done. Qed.

(** ** Visiting a partition *)

Section Visit.
Context `{!Crc32}.

Definition bases_ok (p : partition) : Prop := Forall (fun s => is_u 64 (s_base_offset s)) (p_segments p).

Lemma find_base p base s : find (fun s => s_base_offset s =? base) (p_segments p) = Some s -> bases_ok p -> is_u 64 base.
Proof.
  intros Hf Hb. apply find_some in Hf as [Hin Eb]. apply Z.eqb_eq in Eb as <-. unfold bases_ok in Hb.
  rewrite Forall_forall in Hb. by apply Hb, list_elem_of_In.
Qed.

Lemma offload_each_keeps store topic id p faults victims at' base files :
  bases_ok p -> is_u 64 base -> (at' <> (topic, id) \/ base ∉ victims) -> cold_holds store at' base files ->
  cold_holds (offload_each store topic id p faults victims).2 at' base files.
Proof.
  intros Hp Hb. revert store. induction victims as [|v rest IH]; intros store Hne Hh; [done|]. cbn.
  assert (at' <> (topic, id) \/ base ∉ rest) as Hrest by (destruct Hne as [?|Hx]; [by left|right; set_solver]).
  destruct (find _ _) as [sg|] eqn:Ef; [|by apply IH].
  pose proof (offload_keeps store topic id v (p_dir p !! v) (faults v) at' base files (find_base _ _ _ Ef Hp) Hb) as Hk.
  destruct (offload _ _ _ _ _ _) as [store1 r]. specialize (IH store1 Hrest). cbn in Hk.
  destruct (offload_each store1 topic id p faults rest) as [ds store2]. cbn in *. apply IH, Hk; [|done].
  destruct Hne as [?|Hx]; [congruence|]. intros [= _ ->]. apply Hx. left.
Qed.

(** What may be deleted is held by the cold store. *)
Lemma offload_each_holds store topic id p faults victims base :
  bases_ok p -> NoDup victims -> base ∈ (offload_each store topic id p faults victims).1 ->
  is_u 64 base /\ exists files, p_dir p !! base = Some files /\ cold_holds (offload_each store topic id p faults victims).2 (topic, id) base files.
Proof.
  intros Hp. revert store. induction victims as [|v rest IH]; intros store Hnd; cbn; [by intros ?%not_elem_of_nil|].
  apply NoDup_cons in Hnd as [Hni Hnd]. destruct (find _ _) as [sg|] eqn:Ef; [|by apply IH].
  pose proof (offload_holds store topic id v (p_dir p !! v)) as Hh.
  pose proof (offload_fault store topic id v (p_dir p !! v)) as Hf.
  destruct (faults v) as [[k n]|].
  - destruct (Hf k n) as (e & He & Hx). destruct (offload _ _ _ _ _ (Some (k, n))) as [store1 r]. cbn in He. subst e.
    specialize (IH store1 Hnd). destruct (offload_each store1 _ _ _ _ rest) as [ds store2]. cbn in *.
    destruct r; [by destruct (Hx a)|done|done].
  - destruct (offload _ _ _ _ _ None) as [store1 r]. specialize (IH store1 Hnd).
    pose proof (offload_each_keeps store1 topic id p faults rest (topic, id) v) as Hk.
    destruct (offload_each store1 _ _ _ _ rest) as [ds store2]. cbn in *.
    destruct r as [n|e|]; [|done|done]. intros [->|Hin]%elem_of_cons; [|by apply IH].
    destruct (Hh store1 n eq_refl) as (fs & Efs & Hc & _). pose proof (find_base _ _ _ Ef Hp) as Hv. split; [done|].
    exists fs. split; [done|]. apply Hk; [done|done|by right|done].
Qed.

(** Only the files of the segments given are unlinked. *)
Lemma drop_sealed_files p victims cancelled base files :
  p_dir p !! base = Some files -> p_dir (drop_sealed_segments p victims cancelled).2 !! base = Some files \/ base ∈ victims.
Proof.
  intros Hd. unfold drop_sealed_segments.
  assert (p_dir (unlink_plan p victims).2 = p_dir p /\ forall b, b ∈ (unlink_plan p victims).1 -> b ∈ victims) as [E1 E2].
  { unfold unlink_plan. assert (forall b : Z, b ∈ @nil Z -> b ∈ victims) as Hnil by (by intros b ?%not_elem_of_nil).
    destruct (len _ <=? 1); [by split|]. destruct (last _); [|by split].
    destruct (filter (fun b => b < _) victims) as [|v vs] eqn:Ev; [by split|]. rewrite <- Ev.
    split; [done|]. cbn. intros b Hb. apply list_elem_of_fmap in Hb as (g & -> & Hg). apply list_elem_of_filter in Hg as [Hg _].
    by apply list_elem_of_filter in Hg as [_ Hg]. }
  destruct (unlink_plan p victims) as [paths p1]. cbn in E1, E2. rewrite <- E1 in Hd.
  destruct paths as [|b bs]; [by left|]. destruct cancelled; [by left|]. destruct (decide (base ∈ b :: bs)) as [Hin|Hni]; [right; by apply E2|left].
  unfold unlink_files. cbn [snd with_files p_dir].
  clear E2. induction (b :: bs) as [|x xs IH]; [done|]. cbn. rewrite lookup_delete_ne by set_solver. apply IH. set_solver.
Qed.
(** What a visit leaves of a partition: its active segment, some of the sealed ones
    and its watermark. *)
Definition survived (p p' : partition) : Prop :=
  forall init s rs, part_wf p init s rs -> exists init', part_wf p' init' s rs /\ init' `sublist_of` init /\
    p_next_offset p' = p_next_offset p /\ p_start_offset p <= p_start_offset p'.

Lemma survived_refl p : survived p p.
Proof. intros init s rs Hw. by exists init. Qed.

Lemma reap_survived topic config id p store v : survived p (reap topic config id p store v).1.
Proof.
  unfold reap.
  pose proof (retention_pass_cases (offload_victims (Some p) topic id (vi_faults v)) store p config (vi_now v) (vi_cancelled v)) as Hc.
  destruct (offload_victims _ _ _ _ _ _) as [ds st]. destruct Hc as [->|[->| ->]]; [apply survived_refl..|].
  intros init s rs Hw. pose proof (drop_sealed_spec p init s rs ds (vi_cancelled v) Hw) as (Hw' & Hn & Hs).
  destruct (drop_sealed_segments p ds (vi_cancelled v)) as [n p']. eexists. split_and!; [exact Hw'|apply sublist_filter|done|done].
Qed.

(** The files of [p] are in [p'] or in the cold store. *)
Definition hot_or_cold (p p' : partition) (store : cold_store) (at_ : string * Z) : Prop :=
  forall base files, p_dir p !! base = Some files ->
    p_dir p' !! base = Some files \/ is_u 64 base /\ cold_holds store at_ base files.

(** The cold store loses nothing of the places [P]. *)
Definition cold_grows (P : string * Z -> Prop) (store store' : cold_store) : Prop :=
  forall at_ b f, P at_ -> is_u 64 b -> cold_holds store at_ b f -> cold_holds store' at_ b f.

Lemma hot_refl p store at_ : hot_or_cold p p store at_.
Proof. intros base files Hd. by left. Qed.

Lemma cold_refl P store : cold_grows P store store.
Proof. by intros at_ b f _ _. Qed.

Lemma hot_or_cold_grows p p' store store' at_ (P : string * Z -> Prop) :
  P at_ -> cold_grows P store store' -> hot_or_cold p p' store at_ -> hot_or_cold p p' store' at_.
Proof. intros HP Hg Hh base files Hd. destruct (Hh base files Hd) as [?|[Hb Hc]]; [by left|right]. split; [done|]. by apply Hg. Qed.

(** A visit with a cold store: a file that goes is held by the cold store, and the
    cold store keeps everything else. *)
Lemma reap_keeps topic config id p store v :
  bases_ok p -> exists store', (reap topic config id p (Some store) v).2 = Some store' /\
    hot_or_cold p (reap topic config id p (Some store) v).1 store' (topic, id) /\
    cold_grows (fun at_ => at_ <> (topic, id)) store store'.
Proof.
  intros Hp. unfold reap.
  set (vs := plan_victims (p_segments p) config (vi_now v)).
  pose proof (retention_pass_cases (offload_victims (Some p) topic id (vi_faults v)) (Some store) p config (vi_now v) (vi_cancelled v)) as Hc.
  fold vs in Hc. cbn [offload_victims] in Hc.
  pose proof (fun b => offload_each_holds store topic id p (vi_faults v) vs b Hp (plan_victims_nodup _ _ _)) as Hh.
  assert (cold_grows (fun at_ => at_ <> (topic, id)) store (offload_each store topic id p (vi_faults v) vs).2) as Hk
    by (intros at' b f Hne Hb; apply offload_each_keeps; auto).
  destruct (offload_each store topic id p (vi_faults v) vs) as [ds st]. cbn in Hh, Hk.
  destruct Hc as [->|[->| ->]].
  - exists store. split_and!; [done|apply hot_refl|apply cold_refl].
  - exists st. split_and!; [done|apply hot_refl|exact Hk].
  - pose proof (drop_sealed_files p ds (vi_cancelled v)) as Hdrop.
    destruct (drop_sealed_segments p ds (vi_cancelled v)) as [n p']. cbn in Hdrop |- *. exists st. split_and!; [done| |exact Hk].
    intros base files Hd. destruct (Hdrop base files Hd) as [?|Hin]; [by left|right].
    destruct (Hh base Hin) as (Hb & fs & Efs & Hc). split; [done|]. congruence.
Qed.

(** ** A whole pass *)

Lemma reap_partitions_keeps topic config id ps store visits :
  Forall bases_ok ps -> exists ps' store' visits', reap_partitions topic config id ps (Some store) visits = (ps', Some store', visits') /\
    (forall k p, ps !! k = Some p -> exists p', ps' !! k = Some p' /\ survived p p' /\ hot_or_cold p p' store' (topic, id + Z.of_nat k)) /\
    cold_grows (fun at_ => at_.1 <> topic \/ at_.2 < id) store store'.
Proof.
  revert id store visits. induction ps as [|p ps IH]; intros id store visits Hok; [exists [], store, visits; split_and!; [done|done|apply cold_refl]|].
  apply Forall_cons in Hok as [Hp Hok]. destruct visits as [|v visits].
  { exists (p :: ps), store, []. split_and!; [done| |apply cold_refl]. intros k q Hq. exists q. split_and!; [done|apply survived_refl|apply hot_refl]. }
  cbn. destruct (reap_keeps topic config id p store v Hp) as (st1 & E1 & Hh & Hg).
  pose proof (reap_survived topic config id p (Some store) v) as Hs.
  destruct (reap topic config id p (Some store) v) as [p1 st]. cbn in E1, Hh, Hs. subst st.
  destruct (IH (id + 1) st1 visits Hok) as (ps' & st2 & vs & -> & Hps & Hg2). exists (p1 :: ps'), st2, vs. split_and!; [done| |].
  - intros [|k] q Hq; cbn in Hq |- *.
    + injection Hq as <-. exists p1. split_and!; [done|done|]. rewrite Z.add_0_r. eapply hot_or_cold_grows; [|exact Hg2|done]. right. cbn. lia.
    + destruct (Hps k q Hq) as (q' & Hq' & Hs' & Hh'). exists q'. split_and!; [done|done|].
      by replace (id + Z.of_nat (S k)) with (id + 1 + Z.of_nat k) by lia.
  - intros at_ b f HP Hb Hc. apply Hg2; [destruct HP; [by left|right; lia]|done|]. apply Hg; [|done|done].
    intros ->. cbn in HP. destruct HP as [?|?]; [done|lia].
Qed.

Definition topic_bases_ok (t : open_topic) : Prop := Forall bases_ok (t_partitions (ot_topic t)).

(** What the pass leaves of a topic. *)
Definition reaped (name : string) (t t' : open_topic) (store : cold_store) : Prop :=
  ot_config t' = ot_config t /\ ot_persisted t' = ot_persisted t /\
  forall k p, t_partitions (ot_topic t) !! k = Some p ->
    exists p', t_partitions (ot_topic t') !! k = Some p' /\ survived p p' /\ hot_or_cold p p' store (name, Z.of_nat k).

Lemma reap_topics_keeps names topics store visits :
  NoDup names -> (forall name t, name ∈ names -> topics !! name = Some t -> topic_bases_ok t) ->
  exists topics' store', reap_topics names topics (Some store) visits = (topics', Some store') /\
    (forall name t, topics !! name = Some t -> exists t', topics' !! name = Some t' /\ reaped name t t' store' /\ (name ∉ names -> t' = t)) /\
    cold_grows (fun at_ => at_.1 ∉ names) store store'.
Proof.
  revert topics store visits. induction names as [|n names IH]; intros topics store visits Hnd Hok.
  { exists topics, store. split_and!; [done| |apply cold_refl]. intros name t Ht. exists t. split_and!; [done| |done].
    split_and!; [done|done|]. intros k p Hp. exists p. split_and!; [done|apply survived_refl|apply hot_refl]. }
  apply NoDup_cons in Hnd as [Hni Hnd]. cbn. destruct (topics !! n) as [t|] eqn:Et.
  - destruct (reap_partitions_keeps n (ot_config t) 0 (t_partitions (ot_topic t)) store visits (Hok n t ltac:(left) Et))
      as (ps' & st1 & vs & -> & Hps & Hg).
    destruct (IH (<[n := with_partitions t ps']> topics) st1 vs Hnd) as (topics' & st2 & Er & Ht & Hg2).
    { intros name t0 Hin Ht0. rewrite lookup_insert_ne in Ht0 by (intros ->; done). apply (Hok name); [by right|done]. }
    exists topics', st2. split_and!; [done| |].
    + intros name t0 Ht0. destruct (decide (name = n)) as [->|Hne].
      * destruct (Ht n (with_partitions t ps') (lookup_insert_eq _ _ _)) as (t' & Ht' & _ & Hx). rewrite (Hx Hni) in Ht'.
        assert (t0 = t) as -> by congruence. eexists. split_and!; [exact Ht'| |intros Hn; by destruct Hn; left].
        split_and!; [done|done|]. intros k p Hp. destruct (Hps k p Hp) as (p' & Hp' & Hs & Hh). exists p'. split_and!; [done|done|].
        by eapply hot_or_cold_grows; [|exact Hg2|exact Hh].
      * destruct (Ht name t0) as (t' & ? & ? & Hx); [by rewrite lookup_insert_ne by done|].
        exists t'. split_and!; [done|done|]. intros Hn. apply Hx. set_solver.
    + intros at_ b f HP Hb Hc. apply Hg2; [set_solver|done|]. apply Hg; [left; set_solver|done|done].
  - destruct (IH topics store visits Hnd (fun name t Hin => Hok name t (list_elem_of_further _ _ _ Hin))) as (topics' & st & Er & Ht & Hg). exists topics', st. split_and!; [done| |].
    + intros name t Ht0. destruct (Ht name t Ht0) as (t' & ? & ? & Hx). exists t'. split_and!; [done|done|set_solver].
    + intros at_ b f HP. apply Hg. set_solver.
Qed.

(** C32: with a cold store, a retention pass over any topics of a broker, with any
    failures of the cold store and whenever it is cancelled, loses nothing: every
    segment file of every partition is afterwards still in the partition, or the
    cold store holds exact copies of its log and its index, written and synced; every
    partition keeps its active segment, its watermark and its invariant; what the
    cold store held of topics outside the pass is still there. *)
Theorem retention_loses_nothing names topics store visits :
  NoDup names -> map_Forall (fun _ t => topic_bases_ok t) topics ->
  exists topics' store', reap_topics names topics (Some store) visits = (topics', Some store') /\
    (forall name t, topics !! name = Some t -> exists t', topics' !! name = Some t' /\ reaped name t t' store') /\
    cold_grows (fun at_ => at_.1 ∉ names) store store'.
Proof.
  intros Hnd Hok. destruct (reap_topics_keeps names topics store visits Hnd) as (topics' & store' & E1 & E2 & E3).
  { intros name t _ Ht. exact (Hok name t Ht). }
  exists topics', store'. split_and!; [done| |done]. intros name t Ht. destruct (E2 name t Ht) as (t' & ? & ? & _). by exists t'.
Qed.

End Visit.

(** ** Reading it back *)

Lemma cold_offset_name o : is_u 64 o -> cold_offset (segment_log_name o) = Some o.
Proof.
  intros Ho. unfold cold_offset, segment_log_name.
  assert (ends_with ".log" (string_of (decimal 20 o ++ ascii_list ".log")) = true) as ->.
  { unfold ends_with. apply bool_decide_eq_true. fold (ascii_list ".log"). change String.list_ascii_of_string with ascii_list.
    rewrite ascii_string. apply drop_app_len. rewrite length_app. lia. }
  rewrite ascii_string, length_app, decimal_length. cbn [Nat.add trim_end_matches].
  rewrite strip_end_app, strip_end_digits by (apply decimal_digits || done). by apply parse_decimal.
Qed.

(** What was offloaded is listed and retrieved, byte for byte. *)
Theorem offloaded_is_retrieved store topic id base files n store' dest :
  is_u 64 base -> offload store topic id base (Some files) None = (store', Ok n) ->
  retrieve store' topic id base dest true true =
    (<[segment_index_name base := f_index files]> (<[segment_log_name base := f_log files]> dest), Ok tt) /\
  base ∈ list_remote store' topic id.
Proof.
  intros Hb Ho. apply offload_holds in Ho as (fs & Efs & [H1 H2] & _). assert (fs = files) as -> by congruence.
  unfold cold_entry in H1, H2. split.
  - unfold retrieve, cold_read. destruct (store' !! (topic, id)) as [d|]; [|done]. cbn in *. by rewrite H1, H2.
  - unfold list_remote. destruct (store' !! (topic, id)) as [d|]; [|done]. cbn in H1. rewrite merge_sort_Permutation.
    apply list_elem_of_omap. exists (segment_log_name base, mkColdFile (f_log files) true true).
    split; [by apply elem_of_map_to_list|exact (cold_offset_name base Hb)].
Qed.

(** ** Power losses *)

(** What may be left of the cold directory. *)
Definition cold_crash (store store' : cold_store) : Prop :=
  forall at_, match store !! at_ with
  | None => store' !! at_ = None
  | Some d => store' !! at_ = None /\ cd_named d = false \/
    exists d', store' !! at_ = Some d' /\ forall n f, cd_files d !! n = Some f -> cf_synced f = true -> cf_named f = true -> cd_files d' !! n = Some f
  end.

(** Copies in a directory whose own entry is on disk survive. *)
Lemma cold_copies_survive store store' at_ base files :
  cold_holds store at_ base files -> (cd_named <$> store !! at_) = Some true -> cold_crash store store' -> cold_holds store' at_ base files.
Proof.
  intros [H1 H2] Hn Hc. specialize (Hc at_). unfold cold_holds, cold_entry in *. destruct (store !! at_) as [d|]; [|done].
  cbn in *. injection Hn as Hn. destruct Hc as [[_ Hx]|(d' & -> & Hf)]; [congruence|]. cbn. split; by apply Hf.
Qed.

(** ** One topic *)

Module TieredDemo.
#[local] Existing Instance crc32_ieee_class.

Definition orders : open_topic :=
  mkOpenTopic (mkTopic [sample_partition] 0 0 0 0 0) (sample_config (Some 93) None) (mkPersisted None None None None None).
Definition calm : visit := mkVisit 100 (fun _ => None) false.

Lemma orders_bases : topic_bases_ok orders.
Proof.
  assert (forallb (fun s => (0 <=? s_base_offset s) && (s_base_offset s <? 2 ^ 64)) (p_segments sample_partition) = true) as Hb
    by (vm_compute; reflexivity).
  apply Forall_singleton, Forall_forall. intros s Hs. rewrite forallb_forall in Hb. apply list_elem_of_In, Hb in Hs. unfold is_u. boolp. lia.
Qed.

(** The pass archives the two old segments and deletes them. *)
Lemma retention_loses_nothing_witness :
  exists topics' store', reap_topics ["orders"%string] {[ "orders"%string := orders ]} (Some ∅) [calm] = (topics', Some store') /\
    list_remote store' "orders" 0 = [0; 1] /\
    forall files, p_dir sample_partition !! 0 = Some files -> cold_holds store' ("orders"%string, 0) 0 files.
Proof.
  destruct (retention_loses_nothing ["orders"%string] {[ "orders"%string := orders ]} ∅ [calm]) as (topics' & store' & Er & Ht & _).
  - apply NoDup_singleton.
  - apply map_Forall_singleton, orders_bases.
  - exists topics', store'. split; [exact Er|].
    assert (list_remote (default ∅ (reap_topics ["orders"%string] {[ "orders"%string := orders ]} (Some ∅) [calm]).2) "orders" 0 = [0; 1])
      as Hl by (vm_compute; reflexivity).
    assert ((fun t => (fun p => p_dir p !! 0) <$> t_partitions (ot_topic t)) <$>
      (reap_topics ["orders"%string] {[ "orders"%string := orders ]} (Some ∅) [calm]).1 !! "orders"%string = Some [None])
      as Hp by (vm_compute; reflexivity).
    rewrite Er in Hl, Hp. cbn in Hl, Hp. split; [exact Hl|]. intros files Hf.
    destruct (Ht "orders"%string orders (lookup_singleton_eq _ _)) as (t' & Et & _ & _ & Hr). rewrite Et in Hp. cbn in Hp.
    destruct (Hr 0%nat sample_partition eq_refl) as (p' & Hp' & _ & Hh). destruct (Hh 0 files Hf) as [Hx|[_ Hx]]; [|exact Hx].
    exfalso. destruct (t_partitions (ot_topic t')) as [|q qs]; [discriminate Hp'|]. cbn in Hp'. injection Hp' as ->.
    cbn in Hp. rewrite Hx in Hp. discriminate Hp.
Defined.

Definition first_files : seg_files := mkFiles [x01] [x02].
Definition second_files : seg_files := mkFiles [x03] [x04].

(** The first offload of a partition makes its directory and does not sync the
    directories above: it succeeds, the hot copy may be deleted, and a power loss may
    leave nothing. *)
Example first_offload_may_vanish :
  exists store n, offload ∅ "orders" 0 7 (Some first_files) None = (store, Ok n) /\ n = 2 /\ cold_crash store ∅.
Proof.
  destruct (offload ∅ "orders" 0 7 (Some first_files) None) as [store r] eqn:E.
  assert (r = Ok 2) as -> by (apply (f_equal snd) in E; by vm_compute in E).
  exists store, 2. split_and!; [done|done|]. intros at_.
  assert (cd_named <$> store !! ("orders"%string, 0) = Some false) as Hd
    by (apply (f_equal fst) in E; cbn [fst] in E; rewrite <- E; vm_compute; reflexivity).
  destruct (store !! at_) as [d|] eqn:Ed; [|done]. left. split; [done|].
  destruct (decide (at_ = ("orders"%string, 0))) as [->|Hne]; [rewrite Ed in Hd; by injection Hd|].
  apply (f_equal fst) in E. pose proof (offload_elsewhere ∅ "orders" 0 7 (Some first_files) None at_ Hne) as Hx.
  rewrite E in Hx. cbn [fst] in Hx. rewrite Ed in Hx. discriminate Hx.
Qed.

(** Deleting a topic leaves its cold copies, and a topic of the same name starts at
    offset zero again: its first offload replaces what the first topic archived. *)
Example recreated_topic_overwrites :
  let archived := (offload ∅ "orders" 0 0 (Some first_files) None).1 in
  let again := (offload archived "orders" 0 0 (Some second_files) None).1 in
  (retrieve archived "orders" 0 0 ∅ true true).1 !! segment_log_name 0 = Some [x01] /\
  (retrieve again "orders" 0 0 ∅ true true).1 !! segment_log_name 0 = Some [x03].
Proof. split; vm_compute; reflexivity. Qed.
End TieredDemo.
