(* ===== verification/Http.v ===== *)
(** * The HTTP interface (http/)

    A whole broker without Raft behind its HTTP interface: who a request comes from
    ([http/auth_ext.rs], the host check of [http/mod.rs]), the handlers, and the
    dispatch to them.  A request is what its path, query and body were parsed into;
    a failed request is its status.  What the surroundings decide during a request
    (clocks, random bytes, failures of the file system) is the record [env]. *)

From S2P Require Export Schema Groups Tiered.
From S2P Require Import Backup Coord.
From S2P Require Export Registry.

#[local] Open Scope Z_scope.

(** ** The state *)

Record server : Type := mkServer {
  sv_auth : auth_mode;
  sv_config : reg_config;
  sv_max_record_bytes : Z; sv_max_fetch_records : Z; sv_max_fetch_bytes : Z;
  sv_registry : registry_state;
  sv_keys : key_store;
  sv_producers : registry;
  sv_groups : group_store;
  sv_coord : gmap string group_state;
  sv_schemas : schema_store;
  sv_cold : option cold_store }.

Definition put_registry (s : server) (r : registry_state) : server :=
  mkServer (sv_auth s) (sv_config s) (sv_max_record_bytes s) (sv_max_fetch_records s) (sv_max_fetch_bytes s)
    r (sv_keys s) (sv_producers s) (sv_groups s) (sv_coord s) (sv_schemas s) (sv_cold s).
Definition put_keys (s : server) (ks : key_store) : server :=
  mkServer (sv_auth s) (sv_config s) (sv_max_record_bytes s) (sv_max_fetch_records s) (sv_max_fetch_bytes s)
    (sv_registry s) ks (sv_producers s) (sv_groups s) (sv_coord s) (sv_schemas s) (sv_cold s).
Definition put_producers (s : server) (r : registry) : server :=
  mkServer (sv_auth s) (sv_config s) (sv_max_record_bytes s) (sv_max_fetch_records s) (sv_max_fetch_bytes s)
    (sv_registry s) (sv_keys s) r (sv_groups s) (sv_coord s) (sv_schemas s) (sv_cold s).
Definition put_groups (s : server) (g : group_store) (c : gmap string group_state) : server :=
  mkServer (sv_auth s) (sv_config s) (sv_max_record_bytes s) (sv_max_fetch_records s) (sv_max_fetch_bytes s)
    (sv_registry s) (sv_keys s) (sv_producers s) g c (sv_schemas s) (sv_cold s).
Definition put_schemas (s : server) (x : schema_store) : server :=
  mkServer (sv_auth s) (sv_config s) (sv_max_record_bytes s) (sv_max_fetch_records s) (sv_max_fetch_bytes s)
    (sv_registry s) (sv_keys s) (sv_producers s) (sv_groups s) (sv_coord s) x (sv_cold s).
Definition put_cold (s : server) (c : option cold_store) : server :=
  mkServer (sv_auth s) (sv_config s) (sv_max_record_bytes s) (sv_max_fetch_records s) (sv_max_fetch_bytes s)
    (sv_registry s) (sv_keys s) (sv_producers s) (sv_groups s) (sv_coord s) (sv_schemas s) c.

Definition set_topic_of (o : open_topic) (t : option (@topic partition)) : open_topic :=
  mkOpenTopic (default (ot_topic o) t) (ot_config o) (ot_persisted o).

(** The broker of the data plane, and the server after it worked. *)
Definition plane (s : server) : @broker partition :=
  mkBroker (ot_topic <$> rg_topics (sv_registry s)) (sv_keys s) (sv_producers s)
    (sv_max_record_bytes s) (sv_max_fetch_records s) (sv_max_fetch_bytes s).
Definition put_plane (s : server) (b : @broker partition) : server :=
  put_producers (put_keys (put_registry s (mkRegistry
    (map_imap (fun name o => Some (set_topic_of o (b_topics b !! name))) (rg_topics (sv_registry s)))
    (rg_root (sv_registry s)))) (b_keys b)) (b_producers b).

(** ** Who is asking *)

(** A header: absent, not ASCII, or its text. *)
Definition header : Type := option (option string).
Record credentials : Type := mkCredentials { hd_authorization : header; hd_es_key : header; hd_host : header }.

(** [extract_bearer] *)
Definition extract_bearer (c : credentials) : outcome Z string :=
  match hd_authorization c with
  | Some None => Err 401
  | Some (Some v) => if String.prefix "Bearer " v then Ok (String.substring 7 (String.length v - 7) v) else Err 401
  | None =>
    match hd_es_key c with
    | Some (Some v) => Ok v
    | Some None => Err 401
    | None => Err 401
    end
  end.

(** The parts of [Config] the host check uses: the bind address, unless it is
    unspecified, and the allowed names. *)
Record host_config : Type := mkHosts { ho_bind : option string; ho_allowed : list string }.

Definition lower (c : Ascii.ascii) : Ascii.ascii := if (65 <=? code c) && (code c <=? 90) then ascii_of (code c + 32) else c.
Definition to_ascii_lowercase (s : string) : string := string_of (lower <$> ascii_list s).

(** Up to the first, or to the last, character of this code. *)
Fixpoint up_to (n : Z) (l : list Ascii.ascii) : list Ascii.ascii :=
  match l with [] => [] | c :: l => if code c =? n then [] else c :: up_to n l end.
Fixpoint up_to_last (n : Z) (l : list Ascii.ascii) : option (list Ascii.ascii) :=
  match l with
  | [] => None
  | c :: l =>
    match up_to_last n l with
    | Some k => Some (c :: k)
    | None => if code c =? n then Some [] else None
    end
  end.

(** [host_allowed]; 91, 93 and 58 are the brackets and the colon. *)
Definition host_name (host : string) : string :=
  to_ascii_lowercase (string_of
    match ascii_list host with
    | c :: rest => if code c =? 91 then up_to 93 rest else default (c :: rest) (up_to_last 58 (c :: rest))
    | [] => []
    end).

Definition host_allowed (host : string) (c : host_config) : bool :=
  let name := host_name host in
  bool_decide (name ∈ ["localhost"; "127.0.0.1"; "::1"]%string) || String.prefix "127." name ||
  bool_decide (ho_bind c = Some name) || existsb (fun h => String.eqb (to_ascii_lowercase h) name) (ho_allowed c).

(** [guard_host]: whether the request passes. *)
Definition guard_host (mode : auth_mode) (c : host_config) (creds : credentials) : bool :=
  match mode, hd_host creds with
  | AuthDisabled, Some (Some h) => host_allowed h c
  | AuthDisabled, Some None => false
  | _, _ => true
  end.

(** ** Statuses *)

Definition group_status (e : group_error) : Z := match e with GForbidden => 403 | GInvalid | GLimit => 400 end.
Definition data_status (message : string) (e : data_error) : Z :=
  match e with
  | DForbidden => 403
  | DNotFound => 404
  | DBadRequest _ => 400
  | DRateLimited _ => 429
  | DInternal => ae_status (app_error_of message)
  end.

Definition groups_status (e : http_error) : Z :=
  match e with HForbidden => 403 | HNotFound => 404 | HBadRequest => 400 | HGroup e => group_status e end.
Definition coord_status (e : coord_error) : Z :=
  match e with CoordForbidden => 403 | TopicNotFound => 404 | BadRequest | CoordLimit => 400 end.
Definition schema_status (message : string) (e : schema_refusal) : Z :=
  match e with
  | AdminRequired => 403
  | SchemaNotFound | BadSchema PreviousMissing => 404
  | BadSchema WriteFailed => ae_status (app_error_of message)
  | BadSchema _ => 400
  end.

(** ** Requests and responses *)

Record http_record : Type := mkHttpRecord {
  hr_key : option string; hr_value : string; hr_partition : option Z; hr_sequence : option Z }.

Inductive request : Type :=
| ListTopics
| CreateTopic (name : string) (partitions : Z) (patch : option topic_patch)
| DescribeTopic (name : string)
| DeleteTopic (name : string)
| GetConfig (name : string)
| UpdateConfig (name : string) (patch : topic_patch)
| Produce (topic : string) (records : list http_record) (producer_id : option string)
| Consume (topic : string) (part offset max_records max_bytes : Z) (encoding : option string)
| GroupConsume (group topic : string) (part max_records max_bytes : Z) (encoding : option string)
| Commit (group topic : string) (part offset : Z)
| Offsets (group : string)
| Join (group : string) (member_id : option string) (topics : list string)
| Heartbeat (group member_id : string) (generation : Z)
| Leave (group member_id : string)
| Assignment (group member_id : string)
| RunRetention
| RunCompaction
| CreateKey (req : create_request)
| ListKeys
| RevokeKey (key_id : string)
| ListProducers
| RevokeProducer (producer_id : string)
| ResetOffsets (topic : string)
| RegisterSchema (subject : string) (schema_type : option string) (schema : string)
| GetSchema (id : Z)
| ListSchemas
| LatestVersion (subject : string)
| ListRemote (topic : string) (part : Z).

Inductive response : Type :=
| Done
| Names (l : list string)
| Count (n : Z)
| Described (parts : list (Z * Z * Z * Z * Z)) (c : topic_config)
| Configured (c : topic_config)
| Produced (l : list produced)
| Consumed (f : fetched) (base64 : bool)
| Committed (o : gmap string (gmap Z Z))
| Joined (member_id : string) (generation : Z) (assignment : list (string * Z))
| Beat (r : heartbeat_reply)
| Assigned (generation : Z) (assignment : list (string * Z))
| NewKey (k : api_key) (secret : string)
| Keys (l : list api_key)
| ProducerStates (l : list (string * list (string * Z * Z * Z)))
| ResetDone (groups_affected entries_reset : Z)
| SchemaId (id : Z)
| SchemaIs (e : schema_entry)
| Schemas (l : list schema_entry)
| Segments (l : list Z).

Record env : Type := mkHttpEnv {
  en_create : create_env; en_delete : delete_env; en_write_error : option string;
  en_produce : @produce_env plain_env; en_instant : Z; en_instant' : Z; en_now_ms : Z;
  en_member_id : string; en_secret : list byte; en_write_ok : bool; en_message : string;
  en_names : list string; en_visits : list visit; en_clock : string -> Z -> option Z }.

(** ** Handlers *)

Section Handlers.
Context `{!Crc32, !MetaText, !Hashing, !JsonText}.
Context (iter : forall {A : Type}, list A -> list A).

Abbreviation answer := (server * outcome Z response)%type.

Definition refuse (s : server) (status : Z) : answer := (s, Err status).

(** A result of a lower layer as a response. *)
Definition reply {X A} (status : X -> Z) (f : A -> response) (o : outcome X A) : outcome Z response :=
  match o with Ok a => Ok (f a) | Err e => Err (status e) | Panic => Panic end.

Definition admin_only (k : api_key) (s : server) (handler : answer) : answer :=
  if is_admin k then handler else refuse s 403.

(** [produce::produce] *)
Definition incoming (r : http_record) : incoming_record :=
  mkIncoming (as_bytes <$> hr_key r) (as_bytes (hr_value r)) (hr_partition r) (hr_sequence r).

Definition http_produce (s : server) (k : api_key) (topic : string) (rs : list http_record) (pid : option string) (e : env) : answer :=
  let (o, b) := produce k topic (incoming <$> rs) pid (en_produce e) (plane s) in
  (put_plane s b, reply (data_status (en_message e)) Produced o).

(** [consume::wants_base64] *)
Definition wants_base64 (encoding : option string) : outcome Z bool :=
  match encoding with
  | None => Ok false
  | Some x => if bool_decide (x ∈ ["utf8"; "utf-8"]%string) then Ok false else if String.eqb x "base64" then Ok true else Err 400
  end.

Definition consume_from (s : server) (k : api_key) (topic : string) (part offset max_records max_bytes : Z) (base64 : bool) (e : env) : answer :=
  let (o, b) := consume k topic part offset max_records max_bytes (en_instant e) (en_instant' e) (plane s) in
  (put_plane s b, reply (data_status (en_message e)) (fun f => Consumed f base64) o).

(** [consume::consume] *)
Definition http_consume (s : server) (k : api_key) (topic : string) (part offset max_records max_bytes : Z)
    (encoding : option string) (e : env) : answer :=
  match wants_base64 encoding with
  | Ok base64 => consume_from s k topic part offset max_records max_bytes base64 e
  | _ => refuse s 400
  end.

Definition topic_parts_of (s : server) (topic : string) : option (list partition) :=
  (fun o => t_partitions (ot_topic o)) <$> rg_topics (sv_registry s) !! topic.

(** [consume::group_consume] *)
Definition http_group_consume (s : server) (k : api_key) (group topic : string) (part max_records max_bytes : Z)
    (encoding : option string) (e : env) : answer :=
  match wants_base64 encoding with
  | Ok base64 =>
    if negb (can k ActRead topic) then refuse s 403 else
    match check_access (sv_groups s) group k with
    | Ok _ =>
      match topic_parts_of s topic with
      | None => refuse s 404
      | Some ps =>
        match ps !! Z.to_nat part with
        | None => refuse s 400
        | Some p =>
          let committed := default (p_start_offset p) (fetch (sv_groups s) group topic part) in
          consume_from s k topic part committed max_records max_bytes base64 e
        end
      end
    | Err x => refuse s (group_status x)
    | Panic => (s, Panic)
    end
  | _ => refuse s 400
  end.

(** [groups::commit] and [groups::offsets] *)
Definition http_commit_offset (s : server) (k : api_key) (group topic : string) (part offset : Z) : answer :=
  let (o, g) := http_commit (fun t => len <$> topic_parts_of s t) (sv_groups s) k group topic part offset in
  (put_groups s g (sv_coord s), reply groups_status (fun _ => Done) o).

(** ** coord.rs *)

Definition caller_of (k : api_key) : caller := mkCaller (k_key_id k) (is_admin k).
Definition broker_topics (s : server) : topics :=
  fun t => (fun ps => Z.of_nat <$> seq 0 (length ps)) <$> topic_parts_of s t.

(** [GroupCoordinator::group_topics] *)
Definition group_topics (c : gmap string group_state) (group : string) : list string :=
  match c !! group with
  | None => []
  | Some g => merge_sort string_le (remove_dups (gs_members g ≫= fun m => m_topics m.2))
  end.

Definition check_read_on_all (k : api_key) (ts : list string) : bool := forallb (can k ActRead) ts.

Definition check_group_access (s : server) (k : api_key) (group : string) : outcome Z () :=
  match check_access (sv_groups s) group k with
  | Ok _ => if check_read_on_all k (group_topics (sv_coord s) group) then Ok () else Err 403
  | Err e => Err (group_status e)
  | Panic => Panic
  end.

Definition assignment_of (g : group_state) (mid : string) : list (string * Z) := default [] (aget (gs_assignment g) mid).

(** [coord::join]: the group is claimed once the request itself is in order. *)
Definition http_join (s : server) (k : api_key) (group : string) (member_id : option string) (ts : list string) (e : env) : answer :=
  if negb (check_read_on_all k ts) then refuse s 403 else
  let (auth, claimed) := authorize_or_claim (sv_groups s) group k in
  let authorized := match auth with Ok _ => true | _ => false end in
  match Coord.join (broker_topics s) (sv_coord s) group (caller_of k) member_id (en_member_id e) ts authorized (en_instant e) with
  | Ok (c, mid) =>
    let g := default default_group (c !! group) in
    (put_groups s claimed c, Ok (Joined mid (gs_generation g) (assignment_of g mid)))
  | Err BadRequest => refuse s 400
  | Err TopicNotFound => refuse s 404
  | Err x => (put_groups s claimed (sv_coord s), Err (match auth with Err a => group_status a | _ => coord_status x end))
  | Panic => (s, Panic)
  end.

(** [coord::heartbeat], [coord::leave] and [coord::assignment] *)
Definition http_heartbeat (s : server) (k : api_key) (group mid : string) (generation : Z) (e : env) : answer :=
  match check_group_access s k group with
  | Ok _ =>
    match heartbeat (sv_coord s) group (caller_of k) mid generation (en_instant e) with
    | Ok (c, r) => (put_groups s (sv_groups s) c, Ok (Beat r))
    | Err x => refuse s (coord_status x)
    | Panic => (s, Panic)
    end
  | Err x => refuse s x
  | Panic => (s, Panic)
  end.

Definition http_leave (s : server) (k : api_key) (group mid : string) : answer :=
  match check_group_access s k group with
  | Ok _ =>
    match leave (broker_topics s) (sv_coord s) group (caller_of k) mid with
    | Ok c => (put_groups s (sv_groups s) c, Ok Done)
    | Err x => refuse s (coord_status x)
    | Panic => (s, Panic)
    end
  | Err x => refuse s x
  | Panic => (s, Panic)
  end.

(** [GroupCoordinator::assignment]; an unknown member is not found. *)
Definition coord_assignment (c : gmap string group_state) (group : string) (k : caller) (mid : string)
    : outcome coord_error (option (Z * list (string * Z))) :=
  match c !! group with
  | None => Ok None
  | Some g =>
    match aget (gs_members g) mid with
    | None => Ok None
    | Some m => if may_act k m then Ok (Some (gs_generation g, assignment_of g mid)) else Err CoordForbidden
    end
  end.

Definition http_assignment (s : server) (k : api_key) (group mid : string) : answer :=
  match check_group_access s k group with
  | Ok _ =>
    match coord_assignment (sv_coord s) group (caller_of k) mid with
    | Ok (Some (generation, l)) => (s, Ok (Assigned generation l))
    | Ok None => refuse s 404
    | Err x => refuse s (coord_status x)
    | Panic => (s, Panic)
    end
  | Err x => refuse s x
  | Panic => (s, Panic)
  end.

(** ** Administration *)

Definition created_le (a b : api_key) : Prop := k_created_at_ms a <= k_created_at_ms b.
#[local] Instance created_le_dec : RelDecision created_le.
Proof. intros a b. unfold created_le. apply _. Defined.

(** [KeyStore::list] *)
Definition list_keys (ks : key_store) : list api_key := merge_sort created_le (iter _ (map_to_list (ks_keys ks)).*2).

(** [ProducerRegistry::list] *)
Definition list_producers (r : registry) : list (string * list (string * Z * Z * Z)) :=
  omap (fun id => st ← rg_state r !! id; Some (id,
    (fun w => (w.1.1, w.1.2, pw_last_seen w.2, pw_last_offset w.2)) <$> map_to_list (pd_partitions st)))
    (merge_sort string_le (elements (dom (rg_state r)))).

(** [admin_producers::reset_offsets]: the partitions of one group. *)
Definition reset_parts (topic group : string) (ps : list partition) (acc : group_store * Z) (entry : Z * Z) : group_store * Z :=
  match ps !! Z.to_nat entry.1 with
  | Some p => (reset_offset acc.1 group topic entry.1 (p_start_offset p), wrap_u 32 (acc.2 + 1))
  | None => acc
  end.

Definition reset_group (topic : string) (ps : list partition) (acc : group_store * Z * Z) (group : string) : group_store * Z * Z :=
  let '(g, affected, entries) := acc in
  match group_snapshot g group !! topic with
  | None => acc
  | Some parts =>
    let (g', n) := fold_left (reset_parts topic group ps) (map_to_list parts) (g, 0) in
    (g', if n =? 0 then affected else wrap_u 32 (affected + 1), wrap_u 32 (entries + n))
  end.

Definition http_reset_offsets (s : server) (k : api_key) (topic : string) : answer :=
  admin_only k s match topic_parts_of s topic with
  | None => refuse s 404
  | Some ps =>
    let names := merge_sort string_le (elements (dom (gp_entries (sv_groups s)))) in
    let '(g, affected, entries) := fold_left (reset_group topic ps) names (sv_groups s, 0, 0) in
    (put_groups s g (sv_coord s), Ok (ResetDone affected entries))
  end.

(** [admin_keys::create], [admin_keys::list] and [admin_keys::revoke] *)
Definition http_create_key (s : server) (k : api_key) (req : create_request) (e : env) : answer :=
  admin_only k s (
    let (o, ks) := create_key (sv_keys s) req (en_secret e) (en_instant e) (en_now_ms e) (en_write_ok e) in
    (put_keys s ks, reply (fun m => ae_status (app_error_of m)) (fun x => NewKey x.1 x.2) o)).

Definition http_list_keys (s : server) (k : api_key) : answer := admin_only k s (s, Ok (Keys (list_keys (sv_keys s)))).

Definition http_revoke_key (s : server) (k : api_key) (id : string) (e : env) : answer :=
  admin_only k s (
    let (o, ks) := revoke_key (sv_keys s) id (en_write_ok e) in
    (put_keys s ks, reply (fun m => ae_status (app_error_of m)) (fun _ => Done) o)).

(** [admin_producers::list] and [admin_producers::revoke] *)
Definition http_list_producers (s : server) (k : api_key) : answer :=
  admin_only k s (s, Ok (ProducerStates (list_producers (sv_producers s)))).

Definition http_revoke_producer (s : server) (k : api_key) (id : string) : answer :=
  admin_only k s match revoke (sv_producers s) id with Some p => (put_producers s p, Ok Done) | None => refuse s 404 end.

(** ** Dispatch *)

Definition of_registry {A} (s : server) (f : A -> response) (x : registry_state * outcome app_error A) : answer :=
  (put_registry s x.1, reply ae_status f x.2).

(** The handler of a request from the key [k]. *)
Definition handle (s : server) (k : api_key) (q : request) (e : env) : answer :=
  let r := sv_registry s in
  match q with
  | ListTopics => (s, Ok (Names (http_list_topics r k)))
  | CreateTopic name n patch => of_registry s Count (http_create_topic r k name n (sv_config s) patch (en_create e))
  | DescribeTopic name => (s, reply ae_status (fun d => Described d.1 d.2) (http_describe r k name))
  | DeleteTopic name => of_registry s Count (http_delete_topic r k name (en_delete e))
  | GetConfig name => (s, reply ae_status Configured (http_get_config r k name))
  | UpdateConfig name patch => of_registry s Configured (http_update_config r k name patch (sv_config s) (en_write_error e))
  | Produce topic rs pid => http_produce s k topic rs pid e
  | Consume topic part offset mr mb enc => http_consume s k topic part offset mr mb enc e
  | GroupConsume group topic part mr mb enc => http_group_consume s k group topic part mr mb enc e
  | Commit group topic part offset => http_commit_offset s k group topic part offset
  | Offsets group => (s, reply groups_status Committed (http_offsets (sv_groups s) k group))
  | Join group mid ts => http_join s k group mid ts e
  | Heartbeat group mid generation => http_heartbeat s k group mid generation e
  | Leave group mid => http_leave s k group mid
  | Assignment group mid => http_assignment s k group mid
  | RunRetention =>
    let '(r, cold, o) := http_run_retention r (sv_cold s) k (en_names e) (en_visits e) in
    (put_cold (put_registry s r) cold, reply ae_status (fun _ => Done) o)
  | RunCompaction => of_registry s (fun _ => Done) (http_run_compaction r k (en_names e) (en_clock e))
  | CreateKey req => http_create_key s k req e
  | ListKeys => http_list_keys s k
  | RevokeKey id => http_revoke_key s k id e
  | ListProducers => http_list_producers s k
  | RevokeProducer id => http_revoke_producer s k id
  | ResetOffsets topic => http_reset_offsets s k topic
  | RegisterSchema subject ty schema =>
    let (o, x) := http_register (@iter) k (sv_schemas s) subject ty schema (en_now_ms e) (en_write_ok e) in
    (put_schemas s x, reply (schema_status (en_message e)) SchemaId o)
  | GetSchema id => (s, reply (schema_status (en_message e)) SchemaIs (http_get k (sv_schemas s) id))
  | ListSchemas => (s, Ok (Schemas (http_list (@iter) k (sv_schemas s))))
  | LatestVersion subject => (s, reply (schema_status (en_message e)) SchemaIs (http_latest k (sv_schemas s) subject))
  | ListRemote topic part => (s, reply ae_status Segments (http_list_remote (sv_cold s) k topic part))
  end.

(** [AuthedKey::from_request_parts] *)
Definition authed_key (s : server) (c : credentials) : outcome Z api_key :=
  match sv_auth s with
  | AuthDisabled => Ok ANONYMOUS_ADMIN
  | AuthRequired => token ← extract_bearer c; ok_or 401 (authenticate (sv_keys s) token)
  end.

(** [router]: the host check, the key, the handler. *)
Definition serve (hosts : host_config) (s : server) (c : credentials) (q : request) (e : env) : answer :=
  if guard_host (sv_auth s) hosts c then
    match authed_key s c with
    | Ok k => handle s k q e
    | Err x => refuse s x
    | Panic => (s, Panic)
    end
  else refuse s 403.
End Handlers.

(** Any name that begins with 127. passes the host check, also one that a stranger
    has registered. *)
Example host_guard_passes_foreign_name :
  guard_host AuthDisabled (mkHosts (Some "127.0.0.1"%string) []) (mkCredentials None None (Some (Some "127.attacker.example:9000"%string))) = true /\
  guard_host AuthDisabled (mkHosts (Some "127.0.0.1"%string) []) (mkCredentials None None (Some (Some "attacker.example:9000"%string))) = false.
Proof. split; vm_compute; reflexivity. Qed.
