(* ===== verification/HttpSpec.v ===== *)
(** * What a tenant can do

    Whatever requests a key without administration rights sends, it changes only what
    is its own: the records of topics it may write, groups that it owns or that have
    no owner, its own producers and rate limits. *)

From S2P Require Export Http GroupsSpec DataplaneSpec RegistrySpec.
From S2P Require Import Coord.

#[local] Open Scope Z_scope.

(** ** The data plane *)

(** The key store but for the rate limits of one key. *)
Definition keys_confined (kid : string) (a b : key_store) : Prop :=
  ks_file b = ks_file a /\ ks_keys b = ks_keys a /\ ks_by_hash b = ks_by_hash a /\ ks_revocations b = ks_revocations a /\
  forall id, id <> kid -> ks_limiters b !! id = ks_limiters a !! id.

(** The producers of other keys. *)
Definition producers_confined (kid : string) (a b : registry) : Prop :=
  forall pid st, rg_state a !! pid = Some st -> pd_owner st <> ""%string -> pd_owner st <> kid -> rg_state b !! pid = Some st.

Section Plane.
Context {H E : Type} `{PartitionHandle H E}.

(** One topic is touched, and its partitions only when [writes]. *)
Record plane_confined (kid name : string) (writes : bool) (a b : broker (H := H)) : Prop := {
  pc_limits : b_max_record_bytes b = b_max_record_bytes a /\ b_max_fetch_records b = b_max_fetch_records a /\
    b_max_fetch_bytes b = b_max_fetch_bytes a;
  pc_others : forall n, n <> name -> b_topics b !! n = b_topics a !! n;
  pc_topic : forall t, b_topics a !! name = Some t -> exists t', b_topics b !! name = Some t' /\
    (writes = false -> t_partitions t' = t_partitions t);
  pc_absent : b_topics a !! name = None -> b_topics b !! name = None;
  pc_keys : keys_confined kid (b_keys a) (b_keys b);
  pc_producers : producers_confined kid (b_producers a) (b_producers b) }.

Lemma keys_refl kid a : keys_confined kid a a.
Proof. by split_and!. Qed.

Lemma keys_trans kid a b c : keys_confined kid a b -> keys_confined kid b c -> keys_confined kid a c.
Proof.
  intros (E1 & E2 & E3 & E4 & E5) (F1 & F2 & F3 & F4 & F5). split_and!; [congruence..|]. intros id Hid. by rewrite F5, E5.
Qed.

Lemma plane_refl kid name w a : plane_confined kid name w a a.
Proof. split; [done|done|intros t Ht; by exists t|done|apply keys_refl|by intros pid st]. Qed.

Lemma plane_trans kid name w a b c : plane_confined kid name w a b -> plane_confined kid name w b c -> plane_confined kid name w a c.
Proof.
  intros [A1 A2 A3 A4 A5 A6] [B1 B2 B3 B4 B5 B6]. split.
  - destruct A1 as (? & ? & ?), B1 as (? & ? & ?). split_and!; congruence.
  - intros n Hn. by rewrite B2, A2.
  - intros t Ht. destruct (A3 t Ht) as (t1 & H1 & E1). destruct (B3 t1 H1) as (t2 & H2 & E2). exists t2. split; [done|].
    intros Hw. rewrite E2, E1; done.
  - intros Hn. by apply B4, A4.
  - by eapply keys_trans.
  - intros pid st Hp Ho Hk. apply B6; [by apply A6|done|done].
Qed.

(** Programs of the request monad that stay inside. *)
Definition stays {A} (kid name : string) (w : bool) (m : dp (H := H) A) : Prop := forall b, plane_confined kid name w b (m b).2.

Lemma stays_bind {A B} kid name w (m : dp A) (f : A -> dp B) :
  stays kid name w m -> (forall a, stays kid name w (f a)) -> stays kid name w (m ≫= f).
Proof.
  intros Hm Hf b. unfold mbind, dp_bind. specialize (Hm b). destruct (m b) as [[a|x|] b1]; cbn in *; try done.
  eapply plane_trans; [exact Hm|apply Hf].
Qed.

Lemma stays_pure {A} kid name w (m : dp A) : (forall b, (m b).2 = b) -> stays kid name w m.
Proof. intros Hm b. rewrite Hm. apply plane_refl. Qed.

Lemma stays_topic kid name (w : bool) f :
  (forall t, w = false -> t_partitions (f t) = t_partitions t) -> stays kid name w (modify_topic name f).
Proof.
  intros Hf b. unfold modify_topic, modify. cbn. destruct (b_topics b !! name) as [t|] eqn:Et; [|apply plane_refl].
  split; cbn; [done| | | |apply keys_refl|by intros pid st].
  - intros n Hn. by rewrite lookup_insert_ne.
  - intros t0 Ht. assert (t0 = t) as -> by congruence. rewrite lookup_insert_eq. eexists. split; [done|]. apply Hf.
  - intros Hn. congruence.
Qed.

Lemma stays_keys kid name w ks b : keys_confined kid (b_keys b) ks -> plane_confined kid name w b (set_keys b ks).
Proof. intros Hk. split; cbn; [done|done|intros t Ht; by exists t|done|done|by intros pid st]. Qed.

Lemma check_produce_confined ks kid n now : keys_confined kid ks (check_produce ks kid n now).2.
Proof.
  unfold check_produce. destruct (_ !! kid) as [l|]; [|apply keys_refl]. destruct (li_produce l) as [b|]; [|apply keys_refl].
  destruct (try_take b n now). split_and!; try done. intros id Hid. cbn. by rewrite lookup_insert_ne.
Qed.

Lemma check_consume_confined ks kid now : keys_confined kid ks (check_consume ks kid now).2.
Proof.
  unfold check_consume. destruct (_ !! kid) as [l|]; [|apply keys_refl]. destruct (li_consume l) as [b|]; [|apply keys_refl].
  destruct (check_credit b now). split_and!; try done. intros id Hid. cbn. by rewrite lookup_insert_ne.
Qed.

Lemma charge_consume_confined ks kid n now : keys_confined kid ks (charge_consume ks kid n now).
Proof.
  unfold charge_consume. destruct (_ !! kid) as [l|]; [|apply keys_refl]. destruct (li_consume l) as [b|]; [|apply keys_refl].
  split_and!; try done. intros id Hid. cbn. by rewrite lookup_insert_ne.
Qed.

Lemma stays_limited {A X} kid name w (g : key_store -> X * key_store) (rest : X -> dp A) :
  (forall ks, keys_confined kid ks (g ks).2) -> (forall o, stays kid name w (rest o)) ->
  stays kid name w (ks ← gets b_keys; let (o, ks) := g ks in modify (fun b => set_keys b ks) ;; rest o).
Proof.
  intros Hg Hr b. unfold mbind, dp_bind, gets, modify. cbn. specialize (Hg (b_keys b)). destruct (g (b_keys b)) as [o ks]. cbn in *.
  eapply plane_trans; [by apply stays_keys|apply Hr].
Qed.

Lemma consume_stays k name part off mr mb i i' : stays (k_key_id k) name false (consume k name part off mr mb i i').
Proof.
  unfold consume. apply stays_bind; [apply stays_pure; intros b; by destruct (can _ _ _)|intros _].
  apply stays_bind; [by apply stays_pure|intros t]. apply stays_bind; [by apply stays_pure|intros h].
  apply (stays_limited _ _ _ (fun ks => check_consume ks (k_key_id k) i)); [intros ks; apply check_consume_confined|intros o].
  do 5 (apply stays_bind; [by apply stays_pure|intros ?]).
  destruct (h_read_raw _ _ _ _) as [[out next] hwm]. apply stays_bind.
  { intros b. apply stays_keys, charge_consume_confined. }
  intros _. apply stays_bind; [by apply stays_topic|intros _]. by apply stays_pure.
Qed.

(** ** Producers *)

Definition owned_by (kid pid : string) (b : broker (H := H)) : Prop :=
  forall st, rg_state (b_producers b) !! pid = Some st -> pd_owner st = kid.

(** Programs that stay inside as long as the producer is the key's own. *)
Definition stays_owned {A} (kid name pid : string) (m : dp (H := H) A) : Prop :=
  forall b, owned_by kid pid b -> plane_confined kid name true b (m b).2 /\ owned_by kid pid (m b).2.

Lemma owned_bind {A B} kid name pid (m : dp A) (f : A -> dp B) :
  stays_owned kid name pid m -> (forall a, stays_owned kid name pid (f a)) -> stays_owned kid name pid (m ≫= f).
Proof.
  intros Hm Hf b Hb. unfold mbind, dp_bind. destruct (Hm b Hb) as [H1 H2]. destruct (m b) as [[a|x|] b1]; cbn in *; try done.
  destruct (Hf a b1 H2) as [H3 H4]. split; [by eapply plane_trans|done].
Qed.

Lemma owned_same {A} kid name pid (m : dp A) :
  stays kid name true m -> (forall b, b_producers (m b).2 = b_producers b) -> stays_owned kid name pid m.
Proof. intros Hm Hp b Hb. split; [apply Hm|]. unfold owned_by. by rewrite Hp. Qed.

Lemma modify_topic_same name f (b : broker (H := H)) : b_producers (modify_topic name f b).2 = b_producers b.
Proof. unfold modify_topic, modify. cbn. by destruct (b_topics b !! name). Qed.

Lemma record_owner topic now ws st :
  pd_owner (fold_left (fun st w => match w with (p, seq, off) => record_seq st topic p seq off now end) ws st) = pd_owner st.
Proof. revert st. induction ws as [|[[p seq] off] ws IH]; intros st; [done|]. cbn. by rewrite IH. Qed.

Lemma producers_put kid name pid b r :
  (forall q, q <> pid -> rg_state r !! q = rg_state (b_producers b) !! q) -> owned_by kid pid b ->
  (forall st, rg_state r !! pid = Some st -> pd_owner st = kid) ->
  plane_confined kid name true b (set_producers b r) /\ owned_by kid pid (set_producers b r).
Proof.
  intros Hq Ho Hn. split; [|done]. split; cbn; [done|done|intros t Ht; by exists t|done|apply keys_refl|].
  intros q st Hs H1 H2. destruct (decide (q = pid)) as [->|Hne]; [|by rewrite Hq]. by apply Ho in Hs.
Qed.

Lemma remember_owned kid name pid topic (e : produce_env (E := E)) ws : stays_owned kid name pid (remember pid kid topic e ws).
Proof.
  unfold remember. apply owned_bind; [|intros _; apply owned_bind; [|intros _]].
  - intros b Hb. unfold modify. cbn. destruct (rg_state (b_producers b) !! pid) as [st|] eqn:Es; [|split; [apply plane_refl|done]].
    apply producers_put; [|done|]; cbn.
    + intros q Hq. by rewrite lookup_insert_ne.
    + intros st'. rewrite lookup_insert_eq. intros [= <-]. rewrite record_owner. by apply Hb.
  - apply owned_same; [apply stays_pure|]; intros b; by destruct (_ || _).
  - intros b Hb. unfold modify. cbn. apply producers_put; [|done|]; unfold journal; destruct (_ <$> ws); done.
Qed.

Lemma write_owned k name rs pid (e : produce_env (E := E)) ps ds :
  match pid with
  | Some pid => stays_owned (k_key_id k) name pid (write_request k name rs (Some pid) e ps ds)
  | None => stays (k_key_id k) name true (write_request k name rs None e ps ds)
  end.
Proof.
  destruct pid as [pid|]; unfold write_request.
  - apply owned_bind; [apply owned_same; [by apply stays_pure|done]|intros t]. destruct (join_writes _ _ _) as [o hs].
    apply owned_bind; [apply owned_same; [by apply stays_topic|apply modify_topic_same]|intros _].
    apply owned_bind; [apply owned_same; [by apply stays_pure|done]|intros offs].
    apply owned_bind; [apply remember_owned|intros _].
    apply owned_bind; [apply owned_same; [by apply stays_topic|apply modify_topic_same]|intros _].
    destruct (mapM _ _); apply owned_same; try done; by apply stays_pure.
  - apply stays_bind; [by apply stays_pure|intros t]. destruct (join_writes _ _ _) as [o hs].
    apply stays_bind; [by apply stays_topic|intros _]. apply stays_bind; [by apply stays_pure|intros offs].
    apply stays_bind; [by apply stays_pure|intros _]. apply stays_bind; [by apply stays_topic|intros _].
    destruct (mapM _ _); by apply stays_pure.
Qed.

(** Admission gives the key its own producer, or refuses. *)
Lemma admit_owned r pid kid now r' st :
  admit_producer r pid kid now = Ok (r', st) ->
  (forall q, q <> pid -> rg_state r' !! q = rg_state r !! q) /\
  (forall st, rg_state r' !! pid = Some st -> pd_owner st = kid) /\
  forall st0, rg_state r !! pid = Some st0 -> pd_owner st0 = ""%string \/ pd_owner st0 = kid.
Proof.
  unfold admit_producer. destruct (negb _); [done|].
  destruct (claim_slot r pid kid now) as [[r1 st1]|x|] eqn:Ec; [|done|done]. cbn.
  assert ((forall q, q <> pid -> rg_state r1 !! q = rg_state r !! q) /\ forall st0, rg_state r !! pid = Some st0 -> st0 = st1) as [Hq Hst].
  { unfold claim_slot in Ec. destruct (rg_state r !! pid) as [st0|]; [injection Ec as <- <-; split; [done|by intros ? [= <-]]|].
    destruct (_ <=? size _)%nat; [done|]. destruct (_ <=? _); [done|]. injection Ec as <- <-. split; [|done].
    intros q Hne. cbn. by rewrite lookup_insert_ne. }
  clear Ec. set (st2 := if bool_decide (pd_owner st1 = ""%string) then _ else _).
  case_bool_decide as Ho; [|done]. intros [= <- <-]. cbn. split_and!.
  - intros q Hne. by rewrite lookup_insert_ne, Hq.
  - intros s1. rewrite lookup_insert_eq. intros [= <-]. exact Ho.
  - intros st0 Hs. apply Hst in Hs as ->. unfold st2 in Ho. case_bool_decide; [by left|by right].
Qed.

Lemma admit_write_stays k name rs pid (e : produce_env (E := E)) routed :
  stays (k_key_id k) name true
    (decided ← admit_and_decide pid (k_key_id k) name (pe_now e) routed rs; write_request k name rs (Some pid) e routed decided).
Proof.
  intros b. rewrite dp_bind_eq. unfold admit_and_decide. rewrite dp_bind_eq. cbn [gets]. rewrite dp_bind_eq. unfold lift at 1.
  destruct (admit_producer (b_producers b) pid (k_key_id k) (pe_now e)) as [[r st]|x|] eqn:Ea;
    cbn [map_err]; [|apply plane_refl|apply plane_refl]. rewrite dp_bind_eq. cbn [modify]. unfold lift.
  destruct (admit_owned _ _ _ _ _ _ Ea) as (Hq & Ho & Hold).
  assert (plane_confined (k_key_id k) name true b (set_producers b r)) as Hb.
  { split; cbn; [done|done|intros t Ht; by exists t|done|apply keys_refl|]. intros q st0 Hs H1 H2.
    destruct (decide (q = pid)) as [->|Hne]; [|by rewrite Hq]. by destruct (Hold st0 Hs). }
  destruct (decide_records _ _ _ _) as [ds|x|]; cbn [map_err]; [|exact Hb|exact Hb].
  eapply plane_trans; [exact Hb|]. apply (write_owned k name rs (Some pid) e routed ds). exact Ho.
Qed.

Lemma produce_stays k name rs pid (e : produce_env (E := E)) : stays (k_key_id k) name true (produce k name rs pid e).
Proof.
  unfold produce. apply stays_bind; [apply stays_pure; intros b; by destruct (can _ _ _)|intros _].
  apply stays_bind; [by apply stays_pure|intros t]. case_bool_decide; [by apply stays_pure|].
  apply stays_bind.
  { unfold validate. apply stays_bind; [apply stays_pure; intros b; by destruct (_ <=? _)|intros _].
    do 2 (apply stays_bind; [by apply stays_pure|intros ?]).
    apply (stays_limited _ _ _ (fun ks => check_produce ks (k_key_id k) _ _)); [intros ks; apply check_produce_confined|intros o].
    apply stays_bind; [by apply stays_pure|intros _]. destruct (bool_decide (is_Some pid)); by apply stays_pure. }
  intros _. destruct (route_all _ _ _) as [o rr]. apply stays_bind; [by apply stays_topic|intros _].
  apply stays_bind; [by apply stays_pure|intros routed]. destruct pid as [pid|].
  - apply admit_write_stays.
  - apply stays_bind; [by apply stays_pure|intros ds]. exact (write_owned k name rs None e routed ds).
Qed.

Lemma produce_refused k name rs pid (e : produce_env (E := E)) b : can k ActWrite name = false -> (produce k name rs pid e b).2 = b.
Proof. intros Hc. unfold produce. rewrite dp_bind_eq. unfold guard_dp. by rewrite Hc. Qed.

Lemma consume_refused k name part off mr mb i i' (b : broker (H := H)) :
  can k ActRead name = false -> (consume k name part off mr mb i i' b).2 = b.
Proof. intros Hc. unfold consume. rewrite dp_bind_eq. unfold guard_dp. by rewrite Hc. Qed.
End Plane.

(** ** The server *)

Definition topic_confined (k : api_key) (name : string) (o o' : open_topic) : Prop :=
  ot_config o' = ot_config o /\ ot_persisted o' = ot_persisted o /\
  (can k ActWrite name = false -> t_partitions (ot_topic o') = t_partitions (ot_topic o)) /\
  (can k ActWrite name = false -> can k ActRead name = false -> o' = o).

(** Everything that is not the key's is as it was. *)
Record confined (k : api_key) (s s' : server) : Prop := {
  cf_fixed : sv_auth s' = sv_auth s /\ sv_config s' = sv_config s /\ sv_schemas s' = sv_schemas s /\ sv_cold s' = sv_cold s /\
    rg_root (sv_registry s') = rg_root (sv_registry s);
  cf_topics : forall name, match rg_topics (sv_registry s) !! name with
    | Some o => exists o', rg_topics (sv_registry s') !! name = Some o' /\ topic_confined k name o o'
    | None => rg_topics (sv_registry s') !! name = None
    end;
  cf_keys : keys_confined (k_key_id k) (sv_keys s) (sv_keys s');
  cf_producers : producers_confined (k_key_id k) (sv_producers s) (sv_producers s');
  cf_groups : forall g e, gp_entries (sv_groups s) !! g = Some e -> ge_owner e <> ""%string -> ge_owner e <> k_key_id k ->
    gp_entries (sv_groups s') !! g = Some e /\ sv_coord s' !! g = sv_coord s !! g }.

Lemma topic_confined_refl k name o : topic_confined k name o o.
Proof. by split_and!. Qed.

Lemma confined_refl k s : confined k s s.
Proof.
  split; [done| |apply keys_refl|by intros pid st|done]. intros name. destruct (_ !! name) as [o|]; [|done].
  exists o. split; [done|apply topic_confined_refl].
Qed.

Lemma confined_trans k a b c : confined k a b -> confined k b c -> confined k a c.
Proof.
  intros [A1 A2 A3 A4 A5] [B1 B2 B3 B4 B5]. split.
  - destruct A1 as (? & ? & ? & ? & ?), B1 as (? & ? & ? & ? & ?). split_and!; congruence.
  - intros name. specialize (A2 name). specialize (B2 name). destruct (rg_topics (sv_registry a) !! name) as [o|].
    + destruct A2 as (o1 & E1 & T1). rewrite E1 in B2. destruct B2 as (o2 & E2 & T2). exists o2. split; [done|].
      destruct T1 as (? & ? & H1 & H2), T2 as (? & ? & H3 & H4). split_and!; try congruence.
      * intros Hw. rewrite H3, H1; done.
      * intros Hw Hr. rewrite H4, H2; done.
    + by rewrite A2 in B2.
  - by eapply keys_trans.
  - intros pid st Hp Ho Hk. apply B4; [by apply A4|done|done].
  - intros g e Hg Ho Hk. destruct (A5 g e Hg Ho Hk) as [E1 E2]. destruct (B5 g e E1 Ho Hk) as [E3 E4]. split; [done|congruence].
Qed.

(** What the data plane may do, seen from the server. *)
Lemma put_plane_confined k name w s b :
  plane_confined (k_key_id k) name w (plane s) b ->
  (w = true -> can k ActWrite name = true) -> (w = false -> can k ActRead name = true) -> confined k s (put_plane s b).
Proof.
  intros [P1 P2 P3 P4 P5 P6] Hw Hr. split; cbn; [done| |exact P5|exact P6|done].
  intros n. rewrite map_lookup_imap. destruct (rg_topics (sv_registry s) !! n) as [o|] eqn:En; [|done]. cbn.
  eexists. split; [done|]. unfold set_topic_of, topic_confined. cbn.
  assert (b_topics (plane s) !! n = Some (ot_topic o)) as Hp by (cbn; by rewrite lookup_fmap, En).
  destruct (decide (n = name)) as [->|Hne].
  - destruct (P3 _ Hp) as (t' & -> & Ht). cbn. split_and!; [done|done| |].
    + intros Hx. apply Ht. destruct w; [|done]. rewrite Hw in Hx by done. done.
    + intros Hx Hy. destruct w; [rewrite Hw in Hx by done|rewrite Hr in Hy by done]; done.
  - rewrite (P2 n Hne), Hp. cbn. destruct o. done.
Qed.

Lemma put_plane_id s : put_plane s (plane s) = s.
Proof.
  destruct s as [auth cfg m1 m2 m3 [topics root] keys prods groups coord schemas cold]. unfold put_plane, put_producers, put_keys, put_registry. cbn.
  do 2 f_equal. apply map_eq. intros n. rewrite map_lookup_imap, lookup_fmap. by destruct (topics !! n) as [[t c p]|].
Qed.

(** ** Groups *)

(** A group of somebody else. *)
Definition foreign (k : api_key) (e : group_entry) : Prop := ge_owner e <> ""%string /\ ge_owner e <> k_key_id k.

Definition groups_kept (k : api_key) (a b : group_store) : Prop :=
  forall g e, gp_entries a !! g = Some e -> foreign k e -> gp_entries b !! g = Some e.

Lemma kept_refl k a : groups_kept k a a.
Proof. by intros g e Hg _. Qed.
#[local] Hint Resolve kept_refl : core.

Lemma foreign_refused k s group e :
  is_admin k = false -> gp_entries s !! group = Some e -> foreign k e -> check_access s group k = Err GForbidden.
Proof.
  intros Ha He [H1 H2]. unfold check_access. rewrite He, Ha. by rewrite !bool_decide_false.
Qed.

Lemma authorize_kept k s group :
  is_admin k = false -> groups_kept k s (authorize_or_claim s group k).2 /\
  forall e, gp_entries s !! group = Some e -> foreign k e -> exists x, (authorize_or_claim s group k).1 = Err x.
Proof.
  intros Ha. unfold authorize_or_claim. destruct (negb (validate_group_name group)); [split; [auto|intros e _ _; by eexists]|].
  destruct (gp_entries s !! group) as [e|] eqn:Ee.
  - case_bool_decide as Ho; cbn.
    + split; [|intros e' [= <-] [Hf _]; done]. intros g e' Hg [Hf1 Hf2]. cbn. rewrite lookup_insert_ne; [done|]. intros <-. congruence.
    + rewrite Ha, andb_true_r. case_bool_decide as Hk; cbn.
      * split; [auto|]. intros e' [= <-] [_ Hf]. done.
      * split; [auto|]. intros e' _ _. by eexists.
  - destruct (_ <=? _)%nat; [by split; [auto|]|]. cbn. rewrite bool_decide_true by done. cbn. split; [|done].
    intros g e' Hg _. cbn. rewrite !lookup_insert_ne; [done|..]; intros <-; congruence.
Qed.

Lemma commit_kept k s group topic part off : is_admin k = false -> groups_kept k s (commit s group k topic part off).2.
Proof.
  intros Ha. destruct (authorize_kept k s group Ha) as [Hk Hf]. unfold commit. destruct (authorize_or_claim s group k) as [[e|x|] s1]; [|exact Hk|exact Hk].
  cbn in Hk, Hf. destruct (_ && _); [exact Hk|]. intros g e' Hg Hfo. cbn. rewrite lookup_insert_ne; [by apply Hk|].
  intros <-. destruct (Hf e' Hg Hfo) as [x Hx]. done.
Qed.

Lemma put_groups_confined k s g c :
  groups_kept k (sv_groups s) g ->
  (forall group e, gp_entries (sv_groups s) !! group = Some e -> foreign k e -> c !! group = sv_coord s !! group) ->
  confined k s (put_groups s g c).
Proof.
  intros Hg Hc. pose proof (confined_refl k s) as [R1 R2 R3 R4 R5]. split; cbn; [done|exact R2|exact R3|exact R4|].
  intros group e He H1 H2. split; [by apply Hg|]. by apply (Hc group e).
Qed.

(** The coordinator touches the group of the request only. *)
Lemma join_at bt c group key mid gen ts authorized now c' m :
  Coord.join bt c group key mid gen ts authorized now = Ok (c', m) -> authorized = true /\ forall h, h <> group -> c' !! h = c !! h.
Proof.
  unfold Coord.join. intros Hj. repeat (match type of Hj with (if ?x then _ else _) = _ => destruct x eqn:?; [done|] end).
  destruct (join_locked _ _ _ _ _ _) as [g|x|]; [|done|done]. injection Hj as <- _. split; [by destruct authorized|].
  intros h Hh. by rewrite lookup_insert_ne.
Qed.

Lemma heartbeat_at c group key mid gen now c' r :
  heartbeat c group key mid gen now = Ok (c', r) -> forall h, h <> group -> c' !! h = c !! h.
Proof.
  unfold heartbeat. intros Hj h Hh. destruct (c !! group) as [g|]; [|by simplify_eq]. destruct (aget _ _) as [m|]; [|by simplify_eq].
  destruct (negb _); [done|]. injection Hj as <- _. by rewrite lookup_insert_ne.
Qed.

Lemma leave_at bt c group key mid c' : leave bt c group key mid = Ok c' -> forall h, h <> group -> c' !! h = c !! h.
Proof.
  unfold leave. intros Hj h Hh. destruct (c !! group) as [g|]; [|by simplify_eq]. destruct (aget _ _) as [m|]; [|by simplify_eq].
  destruct (negb _); [done|]. injection Hj as <-. by rewrite lookup_insert_ne.
Qed.

Lemma group_access_own k s group e :
  is_admin k = false -> check_group_access s k group = Ok () -> gp_entries (sv_groups s) !! group = Some e -> foreign k e -> False.
Proof.
  intros Ha Hc He Hf. unfold check_group_access in Hc. by rewrite (foreign_refused k _ group e Ha He Hf) in Hc.
Qed.

(** ** Every request *)

Section Requests.
Context `{!Crc32, !MetaText, !Hashing, !JsonText}.
Context (iter : forall {A : Type}, list A -> list A).

Lemma consume_from_confined s k topic part off mr mb base64 e : confined k s (consume_from s k topic part off mr mb base64 e).1.
Proof.
  unfold consume_from. pose proof (consume_stays k topic part off mr mb (en_instant e) (en_instant' e) (plane s)) as Hs.
  pose proof (consume_refused k topic part off mr mb (en_instant e) (en_instant' e) (plane s)) as Hr.
  destruct (consume _ _ _ _ _ _ _ _ _) as [o b]. cbn in *. destruct (can k ActRead topic) eqn:Hc.
  - by apply (put_plane_confined k topic false).
  - rewrite (Hr eq_refl), put_plane_id. apply confined_refl.
Qed.

Lemma produce_confined s k topic rs pid e : confined k s (http_produce s k topic rs pid e).1.
Proof.
  unfold http_produce. pose proof (produce_stays k topic (incoming <$> rs) pid (en_produce e) (plane s)) as Hs.
  pose proof (produce_refused k topic (incoming <$> rs) pid (en_produce e) (plane s)) as Hr.
  destruct (produce _ _ _ _ _ _) as [o b]. cbn in *. destruct (can k ActWrite topic) eqn:Hc.
  - by apply (put_plane_confined k topic true).
  - rewrite (Hr eq_refl), put_plane_id. apply confined_refl.
Qed.

Lemma group_consume_confined s k group topic part mr mb enc e : confined k s (http_group_consume s k group topic part mr mb enc e).1.
Proof.
  unfold http_group_consume. destruct (wants_base64 enc); [|apply confined_refl..]. destruct (negb _); [apply confined_refl|].
  destruct (check_access _ _ _); [|apply confined_refl..]. destruct (topic_parts_of s topic) as [ps|]; [|apply confined_refl].
  destruct (ps !! _); [apply consume_from_confined|apply confined_refl].
Qed.

Lemma commit_confined s k group topic part off : is_admin k = false -> confined k s (http_commit_offset s k group topic part off).1.
Proof.
  intros Ha. unfold http_commit_offset, http_commit. pose proof (commit_kept k (sv_groups s) group topic part off Ha) as Hk.
  assert (confined k s (put_groups s (sv_groups s) (sv_coord s))) as Hid by (apply put_groups_confined; auto).
  destruct (negb _); [exact Hid|]. destruct (len <$> _); [|exact Hid]. destruct (_ <=? _); [exact Hid|].
  destruct (commit _ _ _ _ _ _) as [o g]. by apply put_groups_confined.
Qed.

Lemma join_confined s k group mid ts e : is_admin k = false -> confined k s (http_join s k group mid ts e).1.
Proof.
  intros Ha. unfold http_join. destruct (negb _); [apply confined_refl|].
  destruct (authorize_kept k (sv_groups s) group Ha) as [Hk Hf]. destruct (authorize_or_claim _ _ _) as [auth claimed]. cbn in Hk, Hf.
  assert (confined k s (put_groups s claimed (sv_coord s))) as Hc by (by apply put_groups_confined).
  destruct (Coord.join _ _ _ _ _ _ _ _ _) as [[c m]|x|] eqn:Ej; [|destruct x; exact Hc || apply confined_refl|apply confined_refl].
  apply join_at in Ej as [Eauth Hother]. apply put_groups_confined; [done|]. intros g0 e0 Hg0 Hfo. apply Hother. intros ->.
  destruct (Hf e0 Hg0 Hfo) as [x Hx]. by rewrite Hx in Eauth.
Qed.

Lemma heartbeat_confined s k group mid gen e : is_admin k = false -> confined k s (http_heartbeat s k group mid gen e).1.
Proof.
  intros Ha. unfold http_heartbeat. destruct (check_group_access s k group) as [[]|x|] eqn:Ec; [|apply confined_refl..].
  destruct (heartbeat _ _ _ _ _ _) as [[c r]|x|] eqn:Eh; [|apply confined_refl..]. apply put_groups_confined; [auto|].
  intros g0 e0 Hg0 Hfo. apply (heartbeat_at _ _ _ _ _ _ _ _ Eh). intros ->. by eapply group_access_own.
Qed.

Lemma leave_confined s k group mid : is_admin k = false -> confined k s (http_leave s k group mid).1.
Proof.
  intros Ha. unfold http_leave. destruct (check_group_access s k group) as [[]|x|] eqn:Ec; [|apply confined_refl..].
  destruct (leave _ _ _ _ _) as [c|x|] eqn:Eh; [|apply confined_refl..]. apply put_groups_confined; [auto|].
  intros g0 e0 Hg0 Hfo. apply (leave_at _ _ _ _ _ _ Eh). intros ->. by eapply group_access_own.
Qed.

Lemma put_registry_id s : put_registry s (sv_registry s) = s.
Proof. by destruct s. Qed.

Lemma handle_confined s k q e : is_admin k = false -> confined k s (handle (@iter) s k q e).1.
Proof.
  intros Ha. pose proof (confined_refl k s) as Hr.
  destruct q; cbn [handle];
    unfold of_registry, http_create_key, http_list_keys, http_revoke_key, http_list_producers, http_revoke_producer, http_reset_offsets, admin_only, http_create_topic, http_delete_topic, http_update_config, http_run_compaction, http_run_retention, http_register;
    rewrite ?Ha; cbn [fst snd negb]; rewrite ?put_registry_id; try exact Hr.
  - apply produce_confined.
  - unfold http_consume. destruct (wants_base64 _); [apply consume_from_confined|exact Hr..].
  - apply group_consume_confined.
  - by apply commit_confined.
  - by apply join_confined.
  - by apply heartbeat_confined.
  - by apply leave_confined.
  - unfold http_assignment. destruct (check_group_access _ _ _); [|exact Hr..]. destruct (coord_assignment _ _ _ _) as [[[g l]|]|x|]; exact Hr.
  - by destruct s.
  - by destruct s.
Qed.
End Requests.

(** ** Runs of a tenant *)

Section Tenant.
Context `{!Crc32, !MetaText, !Hashing, !JsonText}.
Context (iter : forall {A : Type}, list A -> list A) (hosts : host_config).

(** A request with any headers that authenticates as [k], or as nobody. *)
Definition tenant_step (k : api_key) (s s' : server) : Prop :=
  exists c q e, (forall k', authed_key s c = Ok k' -> k' = k) /\ (serve (@iter) hosts s c q e).1 = s'.

(** C16: a key without administration rights is confined to what is its own.  After
    any sequence of requests that authenticate as that key or as nobody, every topic
    has its configuration, a topic the key may not write has its records, one it may
    neither write nor read is exactly as it was, the key store is the same but for
    the rate limits of the key itself, the producers and the groups of other keys,
    with their offsets and their members, are as they were, and schemas and cold
    storage are untouched. *)
Theorem tenant_is_confined k s s' : is_admin k = false -> rtc (tenant_step k) s s' -> confined k s s'.
Proof.
  intros Ha Hr. induction Hr as [s|s s1 s2 (c & q & e & Hk & <-) _ IH]; [apply confined_refl|].
  eapply confined_trans; [|exact IH]. unfold serve. destruct (guard_host _ _ _); [|apply confined_refl].
  destruct (authed_key s c) as [k'|x|] eqn:Ek; [|apply confined_refl..]. rewrite (Hk k' eq_refl). by apply handle_confined.
Qed.
End Tenant.

(** ** A consumer group that reads and commits *)

Section GroupConsumer.
Context `{!Crc32, !MetaText, !Hashing, !JsonText}.
Context (iter : forall {A : Type}, list A -> list A).
Context (k : api_key) (group topic : string) (part mr mb : Z) (e : env).

Abbreviation handle := (handle (@iter)).

(** Consume, commit what the response says comes next, and again. *)
Fixpoint group_poll (fuel : nat) (s : server) : list record * server :=
  match fuel with
  | O => ([], s)
  | S fuel =>
    match handle s k (GroupConsume group topic part mr mb None) e with
    | (s, Ok (Consumed f _)) =>
      let (s, _) := handle s k (Commit group topic part (f_next_offset f)) e in
      let (rs, s) := group_poll fuel s in (f_records f ++ rs, s)
    | (s, _) => ([], s)
    end
  end.

Lemma consume_unlimited name off i i' (b : @broker Partition.partition) t p :
  can k ActRead name = true -> b_topics b !! name = Some t -> t_partitions t !! Z.to_nat part = Some p ->
  ks_limiters (b_keys b) !! k_key_id k ≫= li_consume = None -> 1 <= b_max_fetch_records b -> 1 <= b_max_fetch_bytes b ->
  let '(out, next, hwm) :=
    read_records_raw p off (Z.max 1 (Z.min mr (b_max_fetch_records b))) (Z.max 1 (Z.min mb (b_max_fetch_bytes b))) in
  exists t', consume k name part off mr mb i i' b = (Ok (mkFetched out next hwm), set_topic b name t') /\ t_partitions t' = t_partitions t.
Proof.
  intros Hc Ht Hp Hl Hm1 Hm2. set (mr' := Z.max 1 _). set (mb' := Z.max 1 _).
  destruct (read_records_raw p off mr' mb') as [[out next] hwm] eqn:Er.
  unfold consume. rewrite dp_bind_eq, Hc. cbn [guard_dp mret dp_ret]. rewrite dp_bind_eq. unfold the_topic. rewrite Ht.
  cbn [ok_or]. rewrite dp_bind_eq, Hp. unfold lift at 1. cbn [ok_or map_err]. rewrite dp_bind_eq. cbn [gets].
  assert (check_consume (b_keys b) (k_key_id k) i = (Ok tt, b_keys b)) as ->.
  { unfold check_consume. destruct (ks_limiters (b_keys b) !! _) as [l|]; [|done]. cbn in Hl. by rewrite Hl. }
  rewrite dp_bind_eq. cbn [modify]. rewrite dp_bind_eq. unfold lift at 1. cbn [map_err].
  assert (set_keys b (b_keys b) = b) as -> by (by destruct b).
  do 2 (rewrite dp_bind_eq; cbn [gets]; rewrite dp_bind_eq; unfold lift at 1, clamp_usize; rewrite (proj2 (Z.ltb_ge _ _)) by done; cbn [map_err]).
  cbn [id]. change (h_read_raw p off ?x ?y) with (read_records_raw p off x y). fold mr' mb'. rewrite Er.
  rewrite dp_bind_eq. cbn [modify].
  assert (forall n now, charge_consume (b_keys b) (k_key_id k) n now = b_keys b) as ->.
  { intros n now. unfold charge_consume. destruct (ks_limiters (b_keys b) !! _) as [l|]; [|done]. cbn in Hl. by rewrite Hl. }
  assert (set_keys b (b_keys b) = b) as -> by (by destruct b).
  rewrite dp_bind_eq. unfold modify_topic. cbn [modify]. rewrite Ht. eexists. split; [reflexivity|done].
Qed.

(** The topic is there, the key is not rate limited, and the group is the key's with
    a committed offset. *)
Record ready (s : server) (p : Partition.partition) (off : Z) : Prop := {
  rd_topic : exists o, rg_topics (sv_registry s) !! topic = Some o /\ t_partitions (ot_topic o) !! Z.to_nat part = Some p;
  rd_limits : 1 <= sv_max_fetch_records s /\ 1 <= sv_max_fetch_bytes s;
  rd_unlimited : ks_limiters (sv_keys s) !! k_key_id k ≫= li_consume = None;
  rd_group : exists g, gp_entries (sv_groups s) !! group = Some g /\ ge_owner g = k_key_id k /\
    get_offset (ge_offsets g) topic part = Some off }.

Definition fetch_limits (s : server) : Z * Z :=
  (Z.max 1 (Z.min mr (sv_max_fetch_records s)), Z.max 1 (Z.min mb (sv_max_fetch_bytes s))).

Hypothesis Hread : can k ActRead topic = true.
Hypothesis Hname : validate_group_name group = true.

Lemma group_consume_reads s p off out next hwm :
  ready s p off -> read_records_raw p off (fetch_limits s).1 (fetch_limits s).2 = (out, next, hwm) ->
  exists s1, handle s k (GroupConsume group topic part mr mb None) e = (s1, Ok (Consumed (mkFetched out next hwm) false)) /\
    ready s1 p off /\ fetch_limits s1 = fetch_limits s.
Proof.
  intros [(o & Ho & Hp) [Hl1 Hl2] Hu (g & Hg & Hown & Hoff)] Hr. cbn [Http.handle http_group_consume wants_base64].
  rewrite Hread. cbn [negb].
  assert (check_access (sv_groups s) group k = Ok ()) as ->.
  { unfold check_access. rewrite Hg, Hown, (bool_decide_true (k_key_id k = k_key_id k)) by done. by rewrite andb_false_r. }
  unfold topic_parts_of. rewrite Ho. cbn [fmap option_fmap option_map]. rewrite Hp.
  unfold fetch. rewrite Hg. cbn [mbind option_bind]. rewrite Hoff. cbn [default from_option]. unfold consume_from. change (id off) with off.
  pose proof (consume_unlimited topic off (en_instant e) (en_instant' e) (plane s) (ot_topic o) p Hread
    ltac:(cbn; by rewrite lookup_fmap, Ho) Hp Hu Hl1 Hl2) as Hc.
  change (b_max_fetch_records (plane s)) with (sv_max_fetch_records s) in Hc.
  change (b_max_fetch_bytes (plane s)) with (sv_max_fetch_bytes s) in Hc. unfold fetch_limits in Hr. cbn [fst snd] in Hr.
  rewrite Hr in Hc. destruct Hc as (t' & -> & Ht'). eexists. split; [reflexivity|]. split; [|done].
  split; cbn; [|done|done|by exists g].
  rewrite map_lookup_imap, Ho. cbn. rewrite lookup_insert_eq. cbn. eexists. split; [done|]. cbn. by rewrite Ht'.
Qed.

Lemma group_commit_moves s p off next :
  ready s p off -> ready (handle s k (Commit group topic part next) e).1 p next /\
    fetch_limits (handle s k (Commit group topic part next) e).1 = fetch_limits s.
Proof.
  intros [(o & Ho & Hp) Hl Hu (g & Hg & Hown & Hoff)]. cbn [Http.handle]. unfold http_commit_offset, http_commit. rewrite Hread.
  cbn [negb]. unfold topic_parts_of. rewrite Ho. cbn [fmap option_fmap option_map].
  apply lookup_lt_Some in Hp as Hlt. rewrite (proj2 (Z.leb_gt _ _)) by (unfold len; lia).
  unfold commit, authorize_or_claim. rewrite Hname, Hg, Hown. cbn [negb].
  assert (forall g' d, ge_offsets g' = ge_offsets g -> ge_owner g' = k_key_id k ->
    (forall q, q <> group -> gp_entries d !! q = gp_entries (sv_groups s) !! q) ->
    ready (put_groups s (mark_dirty (set_entry d group (mkGEntry (ge_owner g') (set_offset (ge_offsets g') topic part next))) group) (sv_coord s)) p next) as Hx.
  { intros g' d Eg' Ow' Hd. split; cbn; [by exists o|done|done|]. rewrite lookup_insert_eq. eexists. split; [done|]. cbn. split; [done|].
    unfold get_offset, set_offset. by rewrite lookup_insert_eq; cbn; rewrite lookup_insert_eq. }
  rewrite (bool_decide_true (k_key_id k = k_key_id k)) by done. cbn [negb andb].
  case_bool_decide; cbn [ge_offsets]; rewrite Hoff, bool_decide_true by (by eexists); cbn [negb andb fst]; (split; [|done]).
  - apply (Hx (mkGEntry (k_key_id k) (ge_offsets g))); [done|done|]. intros q Hq. cbn. by rewrite lookup_insert_ne.
  - by apply (Hx g).
Qed.

(** The loop is the polling of the partition, and commits how far it read. *)
Lemma group_poll_spec fuel s p init sg rs off :
  ready s p off -> part_wf p init sg rs -> s_base_offset sg <= p_next_offset p -> 0 <= off ->
  Forall (fun r => record_size r <= read_window (fetch_limits s).2) (log_of init rs) ->
  (Z.to_nat (p_next_offset p - off) <= fuel)%nat ->
  (group_poll fuel s).1 = poll fuel p off (fetch_limits s).1 (fetch_limits s).2 /\
  ready (group_poll fuel s).2 p (Z.max off (p_next_offset p)).
Proof.
  intros Hr Hw Hb Ho Hwin Hf. revert s off Hr Ho Hwin Hf. induction fuel as [|fuel IH]; intros s off Hr Ho Hwin Hf.
  { cbn. split; [done|]. rewrite Z.max_l by lia. done. }
  assert (0 < (fetch_limits s).1) as Hmr by (unfold fetch_limits; cbn; lia).
  destruct (read_records_raw p off (fetch_limits s).1 (fetch_limits s).2) as [[out next] hwm] eqn:Er.
  destruct (group_consume_reads s p off out next hwm Hr Er) as (s1 & E1 & Hr1 & El1).
  destruct (group_commit_moves s1 p off next Hr1) as [Hr2 El2].
  cbn [group_poll poll]. rewrite E1. cbn [f_next_offset f_records].
  destruct (handle s1 k (Commit group topic part next) e) as [s2 o2]. cbn [fst] in Hr2, El2. rewrite El1 in El2.
  assert (next = off /\ out = [] /\ p_next_offset p <= off \/ off < next <= p_next_offset p) as Hnext.
  { destruct (decide (p_next_offset p <= off)) as [Hle|Hgt].
    - left. assert (plain_holds p (log_of init rs) (p_next_offset p)) as Hh by (by exists init, sg, rs).
      pose proof (hl_read_end p _ _ off (fetch_limits s).1 (fetch_limits s).2 Hh Hle) as He.
      change (read_records_raw p off (fetch_limits s).1 (fetch_limits s).2 = ([], off, p_next_offset p)) in He.
      rewrite Er in He. by simplify_eq.
    - right. pose proof (read_records_spec p init sg rs off _ _ Hw Hb ltac:(lia) Hmr Hwin) as Hs. rewrite Er in Hs.
      destruct Hs as (-> & ? & _). lia. }
  destruct (IH s2 next Hr2) as [IH1 IH2]; [lia|by rewrite El2|lia|]. rewrite El2 in IH1.
  destruct (group_poll fuel s2) as [rest s3]. cbn [fst snd] in *. split.
  - destruct Hnext as [(-> & -> & Hle)|Hn].
    + rewrite (proj2 (Z.leb_le _ _)) by done. rewrite IH1. destruct fuel; cbn; [done|]. by rewrite (proj2 (Z.leb_le _ _)) by done.
    + rewrite (proj2 (Z.leb_gt _ _)), Er by lia. by rewrite IH1.
  - by replace (Z.max off (p_next_offset p)) with (Z.max next (p_next_offset p)) by lia.
Qed.

(** C17: a consumer group misses nothing.  A consumer that reads through its group and
    commits the next offset of every response receives every record from the
    committed offset on, each once and in order, within as many rounds as there are
    offsets, and leaves the group's offset at the end of the log. *)
Theorem group_consumer_gets_everything s p init sg rs off :
  ready s p off -> part_wf p init sg rs -> s_base_offset sg <= p_next_offset p -> 0 <= off ->
  Forall (fun r => record_size r <= read_window (fetch_limits s).2) (log_of init rs) ->
  let '(received, s') := group_poll (Z.to_nat (p_next_offset p - off)) s in
  received = filter (fun r => off <= r_offset r) (log_of init rs) /\
  fetch (sv_groups s') group topic part = Some (Z.max off (p_next_offset p)).
Proof.
  intros Hr Hw Hb Ho Hwin. pose proof (group_poll_spec _ s p init sg rs off Hr Hw Hb Ho Hwin (Nat.le_refl _)) as [Hp1 Hp2].
  destruct (group_poll _ s) as [received s']. cbn [fst snd] in *. split.
  - rewrite Hp1, (poll_spec _ p init sg rs) by (done || unfold fetch_limits; cbn; lia). by eapply visible_to_end.
  - destruct Hp2 as [_ _ _ (g & Hg & _ & Hoff)]. unfold fetch. by rewrite Hg.
Qed.
End GroupConsumer.

(** ** Reading *)

#[local] Instance string_le_trans : Transitive string_le.
Proof.
  intros a b c. unfold string_le, String.leb. revert b c.
  induction a as [|x a IH]; intros [|y b] [|z c]; cbn; try done. unfold Ascii.compare.
  destruct (N.compare_spec (Ascii.N_of_ascii x) (Ascii.N_of_ascii y)) as [Exy|Hxy|Hxy]; [| |done];
    (destruct (N.compare_spec (Ascii.N_of_ascii y) (Ascii.N_of_ascii z)) as [Eyz|Hyz|Hyz]; [| |by intros _]).
  { rewrite Exy, Eyz, N.compare_refl. apply IH. }
  all: intros _ _; by rewrite (proj2 (N.compare_lt_iff _ _)) by lia.
Qed.
#[local] Instance string_le_anti : AntiSymm (=) string_le.
Proof. intros a b. apply String.leb_antisym. Qed.
#[local] Instance string_le_total : Total string_le.
Proof. intros a b. apply String.leb_total. Qed.

(** Two servers that show the same to a key. *)
Record agree (k : api_key) (s1 s2 : server) : Prop := {
  ag_limits : sv_max_fetch_records s1 = sv_max_fetch_records s2 /\ sv_max_fetch_bytes s1 = sv_max_fetch_bytes s2;
  ag_topics : forall n, can k ActRead n = true -> rg_topics (sv_registry s1) !! n = rg_topics (sv_registry s2) !! n;
  ag_limiter : ks_limiters (sv_keys s1) !! k_key_id k = ks_limiters (sv_keys s2) !! k_key_id k;
  ag_access : forall g, check_access (sv_groups s1) g k = check_access (sv_groups s2) g k;
  ag_offsets : forall g t, check_access (sv_groups s1) g k = Ok () -> can k ActRead t = true ->
    group_snapshot (sv_groups s1) g !! t = group_snapshot (sv_groups s2) g !! t;
  ag_schemas : forall id x, can k ActRead (se_subject x) = true ->
    schema_get (sv_schemas s1) id = Some x <-> schema_get (sv_schemas s2) id = Some x;
  ag_latest : forall subject, can k ActRead subject = true ->
    latest_version (sv_schemas s1) subject = latest_version (sv_schemas s2) subject }.

(** The requests that read. *)
Definition reads (q : request) : bool :=
  match q with
  | ListTopics | DescribeTopic _ | GetConfig _ | Consume _ _ _ _ _ _ | GroupConsume _ _ _ _ _ _ | Offsets _ | GetSchema _ | LatestVersion _ => true
  | _ => false
  end.

Lemma fetch_snapshot g group topic part : fetch g group topic part = group_snapshot g group !! topic ≫= (.!! part).
Proof. unfold fetch, group_snapshot, get_offset. by destruct (gp_entries g !! group). Qed.

Section Readers.
Context `{!Crc32, !MetaText, !Hashing, !JsonText}.
Context (iter : forall {A : Type}, list A -> list A).

Lemma list_topics_agree k s1 s2 : agree k s1 s2 -> http_list_topics (sv_registry s1) k = http_list_topics (sv_registry s2) k.
Proof.
  intros Ha. unfold http_list_topics, list_topics. apply (StronglySorted_unique string_le).
  - apply StronglySorted_filter. apply (StronglySorted_merge_sort string_le).
  - apply StronglySorted_filter. apply (StronglySorted_merge_sort string_le).
  - apply NoDup_Permutation.
    + apply NoDup_filter. rewrite merge_sort_Permutation. apply NoDup_elements.
    + apply NoDup_filter. rewrite merge_sort_Permutation. apply NoDup_elements.
    + intros n. rewrite !list_elem_of_filter, !merge_sort_Permutation, !elem_of_elements, !elem_of_dom.
      split; intros [Hc Hn]; (split; [done|]); [by rewrite <- (ag_topics _ _ _ Ha)|by rewrite (ag_topics _ _ _ Ha)].
Qed.

(** The data plane: what a program of the request monad answers and leaves depends
    only on one topic, the limits and one rate limiter. *)
Definition related (name kid : string) (b1 b2 : @broker Partition.partition) : Prop :=
  b_max_fetch_records b1 = b_max_fetch_records b2 /\ b_max_fetch_bytes b1 = b_max_fetch_bytes b2 /\
  b_topics b1 !! name = b_topics b2 !! name /\ ks_limiters (b_keys b1) !! kid = ks_limiters (b_keys b2) !! kid.

Definition agrees {A} (name kid : string) (m : dp (H := Partition.partition) A) : Prop :=
  forall b1 b2, related name kid b1 b2 -> (m b1).1 = (m b2).1 /\ related name kid (m b1).2 (m b2).2.

Lemma agrees_bind {A B} name kid (m : dp A) (f : A -> dp B) : agrees name kid m -> (forall a, agrees name kid (f a)) -> agrees name kid (m ≫= f).
Proof.
  intros Hm Hf b1 b2 Hr. rewrite !dp_bind_eq. destruct (Hm b1 b2 Hr) as [E1 E2].
  destruct (m b1) as [o1 c1], (m b2) as [o2 c2]. cbn in E1, E2. subst o2. destruct o1 as [a|x|]; [by apply Hf|done|done].
Qed.

Lemma agrees_pure {A} name kid (o : outcome data_error A) : agrees name kid (fun b => (o, b)).
Proof. by intros b1 b2. Qed.

Lemma agrees_limited {A X} name kid (g : key_store -> X * key_store) (rest : X -> dp A) :
  (forall ks1 ks2, ks_limiters ks1 !! kid = ks_limiters ks2 !! kid ->
    (g ks1).1 = (g ks2).1 /\ ks_limiters (g ks1).2 !! kid = ks_limiters (g ks2).2 !! kid) ->
  (forall o, agrees name kid (rest o)) ->
  agrees name kid (ks ← gets b_keys; let (o, ks) := g ks in modify (fun b => set_keys b ks) ;; rest o).
Proof.
  intros Hg Hr b1 b2 (R1 & R2 & R3 & R4). rewrite !dp_bind_eq. cbn [gets]. destruct (Hg _ _ R4) as [E1 E2].
  destruct (g (b_keys b1)) as [o1 ks1], (g (b_keys b2)) as [o2 ks2]. cbn in E1, E2. subst o2. rewrite !dp_bind_eq. cbn [modify].
  apply Hr. by split_and!.
Qed.

Lemma check_consume_agree kid now ks1 ks2 :
  ks_limiters ks1 !! kid = ks_limiters ks2 !! kid ->
  (check_consume ks1 kid now).1 = (check_consume ks2 kid now).1 /\
  ks_limiters (check_consume ks1 kid now).2 !! kid = ks_limiters (check_consume ks2 kid now).2 !! kid.
Proof.
  intros E. unfold check_consume. rewrite E. destruct (ks_limiters ks2 !! kid) as [l|] eqn:El; [|cbn; by rewrite E, El].
  destruct (li_consume l); [|cbn; by rewrite E, El]. destruct (check_credit _ _). cbn. by rewrite !lookup_insert_eq.
Qed.

Lemma charge_consume_agree kid n now ks1 ks2 :
  ks_limiters ks1 !! kid = ks_limiters ks2 !! kid ->
  ks_limiters (charge_consume ks1 kid n now) !! kid = ks_limiters (charge_consume ks2 kid n now) !! kid.
Proof.
  intros E. unfold charge_consume. rewrite E. destruct (ks_limiters ks2 !! kid) as [l|] eqn:El; [|cbn; by rewrite E, El].
  destruct (li_consume l); [|cbn; by rewrite E, El]. cbn. by rewrite !lookup_insert_eq.
Qed.

Lemma agrees_field {A} name kid (f : @broker Partition.partition -> A) :
  (forall b1 b2, related name kid b1 b2 -> f b1 = f b2) -> agrees name kid (gets f).
Proof. intros Hf b1 b2 Hr. cbn. by rewrite (Hf b1 b2). Qed.

Lemma agrees_topic name kid f : agrees name kid (modify_topic name f).
Proof.
  intros b1 b2 (R1 & R2 & R3 & R4). unfold modify_topic. cbn [modify fst snd]. split; [done|]. rewrite R3.
  destruct (b_topics b2 !! name) as [t|] eqn:Et; split_and!; try done; cbn; [by rewrite !lookup_insert_eq|by rewrite R3, Et].
Qed.

Lemma consume_agrees k name part off mr mb i i' : agrees name (k_key_id k) (consume k name part off mr mb i i').
Proof.
  unfold consume. apply agrees_bind; [destruct (can k ActRead name); apply agrees_pure|intros _].
  apply agrees_bind; [intros b1 b2 Hr; split; [|done]; unfold the_topic; cbn; by destruct Hr as (_ & _ & -> & _)|intros t].
  apply agrees_bind; [apply agrees_pure|intros h].
  apply (agrees_limited _ _ (fun ks => check_consume ks (k_key_id k) i)); [intros ks1 ks2; apply check_consume_agree|intros o].
  apply agrees_bind; [apply agrees_pure|intros _]. apply agrees_bind; [apply agrees_field; by intros b1 b2 [? _]|intros l1].
  apply agrees_bind; [apply agrees_pure|intros m1]. apply agrees_bind; [apply agrees_field; by intros b1 b2 (_ & ? & _)|intros l2].
  apply agrees_bind; [apply agrees_pure|intros m2]. destruct (h_read_raw _ _ _ _) as [[out next] hwm]. apply agrees_bind.
  { intros b1 b2 (R1 & R2 & R3 & R4). cbn [modify fst snd]. split; [done|]. split_and!; try done. by apply charge_consume_agree. }
  intros _. apply agrees_bind; [apply agrees_topic|intros _]. apply agrees_pure.
Qed.

Lemma consume_from_agree k s1 s2 topic part off mr mb base64 e :
  agree k s1 s2 -> can k ActRead topic = true ->
  (consume_from s1 k topic part off mr mb base64 e).2 = (consume_from s2 k topic part off mr mb base64 e).2.
Proof.
  intros Ha Hc. unfold consume_from.
  destruct (consume_agrees k topic part off mr mb (en_instant e) (en_instant' e) (plane s1) (plane s2)) as [E1 _].
  { split_and!; [apply Ha|apply Ha| |apply Ha]. cbn. by rewrite !lookup_fmap, (ag_topics _ _ _ Ha) by done. }
  destruct (consume _ _ _ _ _ _ _ _ (plane s1)), (consume _ _ _ _ _ _ _ _ (plane s2)). cbn in *. by rewrite E1.
Qed.

Lemma consume_from_refused k s topic part off mr mb base64 e :
  can k ActRead topic = false -> (consume_from s k topic part off mr mb base64 e).2 = Err 403.
Proof. intros Hc. unfold consume_from, consume. rewrite dp_bind_eq, Hc. done. Qed.

End Readers.

(** ** A tenant of a small broker *)

Module HttpDemo.
#[local] Existing Instance crc32_ieee_class.
#[local] Existing Instance toy_hashing.
#[local] Existing Instance number_meta.
#[local] Existing Instance sample_json.

Definition a_topic (ps : list Partition.partition) : open_topic :=
  mkOpenTopic (mkTopic ps 0 0 0 0 0) (sample_config None None) (mkPersisted None None None None None).
Definition group_of (owner : string) : group_entry := mkGEntry owner {[ "orders"%string := {[ 0 := 0 ]} ]}.

(** The tenant may use orders and has a group; another key has a group and a topic
    of [ps]. *)
Definition demo_server (ps : list Partition.partition) : server :=
  mkServer AuthRequired demo_config 1000 10 1000
    (Registry.mkRegistry {[ "orders"%string := a_topic [sample_partition]; "private"%string := a_topic ps ]} ∅)
    tenant_store (Producers.mkRegistry ∅ ∅ None None ∅ false)
    (mkGroups ∅ {[ "mine"%string := group_of tenant_id; "theirs"%string := group_of "key_other" ]} ∅) ∅ empty_schemas None.

Definition with_token (token : string) : credentials := mkCredentials (Some (Some (("Bearer " +:+ token)%string))) None None.
Definition demo_env : env :=
  mkHttpEnv (mkCreateEnv "1" None true false "") (mkDeleteEnv "1" true true) None
    (mkEnv 0 0 (fun _ => (0, no_faults)) 0 true) 0 0 0 "m" [] true "" [] [] (fun _ _ => None).
Definition no_hosts : host_config := mkHosts None [].

(** The tenant moves the offset of its group, and is refused the other one. *)
Definition after_commit : server := (serve in_order no_hosts (demo_server []) (with_token tenant_secret) (Commit "mine" "orders" 0 3) demo_env).1.
Definition after_refusal : server := (serve in_order no_hosts after_commit (with_token tenant_secret) (Commit "theirs" "orders" 0 3) demo_env).1.

Lemma tenant_is_confined_witness :
  fetch (sv_groups after_refusal) "mine" "orders" 0 = Some 3 /\
  gp_entries (sv_groups after_refusal) !! "theirs"%string = Some (group_of "key_other") /\
  ks_keys (sv_keys after_refusal) = ks_keys tenant_store.
Proof.
  split; [vm_compute; reflexivity|].
  assert (confined tenant_key (demo_server []) after_refusal) as Hc.
  { apply (tenant_is_confined in_order no_hosts tenant_key); [vm_compute; reflexivity|].
    apply (rtc_l _ _ after_commit); [|apply rtc_once];
      exists (with_token tenant_secret); eexists _, demo_env; (split; [|reflexivity]); intros k' Hk; vm_compute in Hk |- *; congruence. }
  split.
  - apply (cf_groups _ _ _ Hc); [vm_compute; reflexivity|discriminate|vm_compute; congruence].
  - apply (cf_keys _ _ _ Hc).
Defined.

Lemma group_consumer_gets_everything_witness :
  (r_offset <$> (group_poll in_order tenant_key "mine" "orders" 0 2 500 demo_env 5 (demo_server [])).1) = [0; 1; 4] /\
  fetch (sv_groups (group_poll in_order tenant_key "mine" "orders" 0 2 500 demo_env 5 (demo_server [])).2) "mine" "orders" 0 = Some 5.
Proof.
  destruct sample_partition_wf as (init & sg & rs & Hw & Hb & Hl).
  pose proof (group_consumer_gets_everything in_order tenant_key "mine" "orders" 0 2 500 demo_env
    ltac:(vm_compute; reflexivity) ltac:(vm_compute; reflexivity) (demo_server []) sample_partition init sg rs 0) as Hg.
  assert (p_next_offset sample_partition = 5) as E by (vm_compute; reflexivity). rewrite E in Hg.
  change (Z.to_nat (5 - 0)) with 5%nat in Hg.
  destruct (group_poll in_order tenant_key "mine" "orders" 0 2 500 demo_env 5 (demo_server [])) as [received s'].
  destruct Hg as [H1 H2].
  - split.
    + exists (a_topic [sample_partition]). split; [vm_compute; reflexivity|reflexivity].
    + split; vm_compute; congruence.
    + vm_compute; reflexivity.
    + exists (group_of tenant_id). split; [vm_compute; reflexivity|]. split; reflexivity.
  - exact Hw.
  - rewrite <- E. exact Hb.
  - lia.
  - rewrite Hl. apply sample_window. unfold fetch_limits. cbn. lia.
  - cbn [fst snd]. split; [|exact H2]. rewrite H1, Hl. vm_compute. reflexivity.
Defined.

End HttpDemo.
