(* ===== verification/EsClient.v ===== *)
(** * The stand-alone blocking client (crates/es-client/src/lib.rs)

    A second implementation of the client half of the binary protocol, on a
    plain socket, kept apart from the broker's crate.  The socket is a byte
    stream in each direction; reading takes whole fields ([read_exact]) and, when
    the bytes run out, has consumed what there was.  The other side acts between
    the end of a request and the wait for its response.

    [session_is_local]: a caller that drops the connection when an error says so
    gets, call by call, what the broker's data plane answered to that request, and
    the broker ends where the same calls made locally leave it.
    [stale_connection_forges]: why dropping it matters. *)

From S2P Require Import Wire Auth Handle Dataplane DataplaneSpec Delivery Server ServerSpec.
From stdpp Require Import gmap strings.

#[local] Open Scope Z_scope.

(** ** The socket *)

(** [st_in]: received and not read; [st_out]: written and not yet read by the
    peer; [st_room]: how many more bytes can be written before the socket fails
    ([None]: any number); [st_open]: the peer has not closed its side. *)
Record stream : Type := mkStream {
  st_in : list byte; st_out : list byte; st_room : option Z; st_open : bool }.

Definition set_in (s : stream) (l : list byte) : stream := mkStream l (st_out s) (st_room s) (st_open s).

(** ** Errors *)

Inductive protocol_error : Type :=
| BadMagic | MessageLong (n : Z) | TokenLong | FrameLong (n : Z) | FrameSize (n : Z) | NoOpcode (b : Z)
| AnswersNoRequest (got sent : Z) | UnexpectedOp (op : opcode) | BadBody (e : wire_error).

Inductive error : Type :=
| Io (e : wire_error)
| Protocol (why : protocol_error)
| Handshake (status : option handshake_status) (message : string)
| ServerError (message : string).

Definition connection_usable (e : error) : bool := match e with ServerError _ => true | _ => false end.

(** ** Input and output *)

Definition io (A : Type) : Type := stream -> outcome error A * stream.

#[export] Instance io_ret : MRet io := fun A a s => (Ok a, s).
#[export] Instance io_bind : MBind io := fun A B f m s =>
  match m s with
  | (Ok a, s) => f a s
  | (Err e, s) => (Err e, s)
  | (Panic, s) => (Panic, s)
  end.

Definition io_fail {A} (e : error) : io A := fun s => (Err e, s).

Definition read_exact (n : Z) : io (list byte) := fun s =>
  match rd_bytes n (st_in s) with
  | Some (b, rest) => (Ok b, set_in s rest)
  | None => (Err (Io UnexpectedEof), set_in s [])
  end.

(** A failing write may have sent part of the bytes. *)
Definition es_write_all (bytes : list byte) : io () := fun s =>
  match st_room s with
  | None => (Ok (), mkStream (st_in s) (st_out s ++ bytes) None (st_open s))
  | Some room =>
    if len bytes <=? room
    then (Ok (), mkStream (st_in s) (st_out s ++ bytes) (Some (room - len bytes)) (st_open s))
    else (Err (Io InvalidData), mkStream (st_in s) (st_out s ++ take (Z.to_nat room) bytes) (Some 0) (st_open s))
  end.

Definition es_flush : io () := fun s =>
  if bool_decide (st_room s = Some 0) then (Err (Io InvalidData), s) else (Ok (), s).

(** [TcpStream::peek] on a socket set to non-blocking. *)
Inductive peeked : Type := PeekOk (n : Z) | PeekWouldBlock.
Definition peek (s : stream) : peeked :=
  match st_in s with
  | _ :: _ => PeekOk 1
  | [] => if st_open s then PeekWouldBlock else PeekOk 0
  end.

Section Client.
Context {Gz : Gzip}.

(** ** Frames *)

Definition es_encode_frame (request_id : Z) (op : opcode) (payload : list byte) : outcome error (list byte) :=
  let total := 4 + 1 + len payload in
  if (total <? 2 ^ 32) && (total <=? MAX_FRAME_BYTES)
  then Ok (to_be 4 total ++ to_be 4 request_id ++ to_be 1 (opcode_u8 op) ++ payload)
  else Err (Protocol (FrameLong (len payload))).

Definition es_read_frame : io (Z * opcode * list byte) :=
  l ← read_exact 4;
  let total := from_be l in
  if negb ((5 <=? total) && (total <=? MAX_FRAME_BYTES)) then io_fail (Protocol (FrameSize total)) else
  head ← read_exact 5;
  let request_id := from_be (take 4 head) in
  let b := from_be (drop 4 head) in
  match opcode_from_u8 b with
  | None => io_fail (Protocol (NoOpcode b))
  | Some op => payload ← read_exact (total - 5); mret (request_id, op, payload)
  end.

Definition ES_SMALL_PAYLOAD : Z := 512.
Definition es_compress (input : list byte) : list byte := gz_deflate (negb (len input <? ES_SMALL_PAYLOAD)) input.

(** Reading at most [cap + 1] bytes of the inflated stream. *)
Definition es_decompress (input : list byte) (cap : Z) : outcome error (list byte) :=
  let (out, clean) := gz_inflate input in
  if cap <? len out then Err (Io InvalidData) else if clean then Ok out else Err (Io UnexpectedEof).

(** ** The handshake *)

(** The other side: acts on the socket, with a state of its own. *)
Context {W : Type} (peer : W -> stream -> W * stream).

Definition handshake (token : string) (want_gzip : bool) (w : W) (s : stream) : outcome error bool * stream * W :=
  let requested := if want_gzip then FEATURE_GZIP else 0 in
  let bytes := as_bytes token in
  if 2 ^ 32 <=? len bytes then (Err (Protocol TokenLong), s, w) else
  match (es_write_all (WIRE_MAGIC ++ to_be 4 requested ++ to_be 4 (len bytes) ++ bytes) ≫= fun _ => es_flush) s with
  | (Err e, s) => (Err e, s, w)
  | (Panic, s) => (Panic, s, w)
  | (Ok _, s) =>
    let (w, s) := peer w s in
    let es_reply : io bool :=
      head ← read_exact (4 + 1 + 4 + 4);
      if negb (bool_decide (take 4 head = WIRE_MAGIC)) then io_fail (Protocol BadMagic) else
      let status := status_from_u8 (from_be (take 1 (drop 4 head))) in
      let features := from_be (take 4 (drop 5 head)) in
      let msg_len := from_be (take 4 (drop 9 head)) in
      if MAX_HANDSHAKE_MSG <? msg_len then io_fail (Protocol (MessageLong msg_len)) else
      msg ← read_exact msg_len;
      if negb (bool_decide (status = Some StOk)) then io_fail (Handshake status (from_utf8_lossy msg))
      else mret (want_gzip && negb (Z.land features FEATURE_GZIP =? 0)) in
    let (r, s) := es_reply s in (r, s, w)
  end.

(** ** The connection *)

Record es_client : Type := mkEs { ec_stream : stream; ec_next_request_id : Z; ec_gzip : bool }.

Definition with_stream (c : es_client) (s : stream) : es_client := mkEs s (ec_next_request_id c) (ec_gzip c).

Definition handshake_on (sock : stream) (token : string) (gzip : bool) (w : W) : outcome error es_client * W :=
  match handshake token gzip w sock with
  | (Ok gz, s, w) => (Ok (mkEs s 1 gz), w)
  | (Err e, _, w) => (Err e, w)
  | (Panic, _, w) => (Panic, w)
  end.

(** The addresses a name resolves to, each with what connecting to it gave. *)
Fixpoint connect_loop (socks : list (outcome wire_error stream)) (last : option wire_error) (token : string) (gzip : bool)
    (w : W) : outcome error es_client * W :=
  match socks with
  | [] => (Err (Io (default InvalidData last)), w)
  | Ok sock :: _ => handshake_on sock token gzip w
  | Err e :: socks => connect_loop socks (Some e) token gzip w
  | Panic :: _ => (Panic, w)
  end.
Definition connect (socks : list (outcome wire_error stream)) := connect_loop socks None.

(** A plain connection; [nonblocking] and [blocking]: whether the socket could be
    switched. *)
Definition is_closed (c : es_client) (nonblocking blocking : bool) : bool :=
  if negb nonblocking then true else
  let closed := match peek (ec_stream c) with PeekOk _ => true | PeekWouldBlock => false end in
  negb blocking || closed.

(** ** Requests *)

Definition check_answer (c : es_client) (id resp_id : Z) (op : opcode) (body : list byte) : outcome error (opcode * list byte) :=
  if negb (resp_id =? id) then Err (Protocol (AnswersNoRequest resp_id id)) else
  body ← (if ec_gzip c then es_decompress body MAX_FRAME_BYTES else Ok body); Ok (op, body).

Definition es_round_trip (c : es_client) (op : opcode) (payload : list byte) (w : W)
    : outcome error (opcode * list byte) * es_client * W :=
  let id := ec_next_request_id c in
  let c := mkEs (ec_stream c) (wrap_u 32 (id + 1)) (ec_gzip c) in
  let body := if ec_gzip c then es_compress payload else payload in
  match es_encode_frame id op body with
  | Err e => (Err e, c, w)
  | Panic => (Panic, c, w)
  | Ok frame =>
    match (es_write_all frame ≫= fun _ => es_flush) (ec_stream c) with
    | (Err e, s) => (Err e, with_stream c s, w)
    | (Panic, s) => (Panic, with_stream c s, w)
    | (Ok _, s) =>
      let (w, s) := peer w s in
      let (r, s) := es_read_frame s in
      ('(resp_id, op, body) ← r; check_answer c id resp_id op body, with_stream c s, w)
    end
  end.

Definition unexpected {A} (op : opcode) (body : list byte) : outcome error A :=
  match op with
  | OpError => Err (ServerError (from_utf8_lossy body))
  | other => Err (Protocol (UnexpectedOp other))
  end.

Definition ping (c : es_client) (w : W) : outcome error () * es_client * W :=
  let '(r, c, w) := es_round_trip c OpPing [] w in
  ('(op, body) ← r; match op with OpPingOk => Ok () | other => unexpected other body end, c, w).

Definition es_produce (c : es_client) (q : produce_request) (w : W) : outcome error (list produce_result) * es_client * W :=
  let '(r, c, w) := es_round_trip c OpProduce (encode_produce_request q) w in
  ('(op, body) ← r;
   match op with
   | OpProduceOk => map_err (fun e => Protocol (BadBody e)) (decode_produce_response body)
   | other => unexpected other body
   end, c, w).

Definition es_consume (c : es_client) (q : consume_request) (w : W) : outcome error consume_response * es_client * W :=
  let '(r, c, w) := es_round_trip c OpConsume (encode_consume_request q) w in
  ('(op, body) ← r;
   match op with
   | OpConsumeOk => map_err (fun e => Protocol (BadBody e)) (decode_consume_response body)
   | other => unexpected other body
   end, c, w).

(** ** A caller *)

Inductive es_request : Type := RPing | RProduce (q : produce_request) | RConsume (q : consume_request).
Inductive es_reply : Type := PPong | PProduced (rs : list produce_result) | PConsumed (r : consume_response).

Definition es_call (c : es_client) (rq : es_request) (w : W) : outcome error es_reply * es_client * W :=
  match rq with
  | RPing => let '(r, c, w) := ping c w in ((fun _ => PPong) <$> r, c, w)
  | RProduce q => let '(r, c, w) := es_produce c q w in (PProduced <$> r, c, w)
  | RConsume q => let '(r, c, w) := es_consume c q w in (PConsumed <$> r, c, w)
  end.

(** Calls one after the other, until one leaves the connection unusable. *)
Definition usable_after {A} (r : outcome error A) : bool :=
  match r with Ok _ => true | Err e => connection_usable e | Panic => false end.

Fixpoint client_session (c : es_client) (rqs : list es_request) (w : W) : list (outcome error es_reply) * es_client * W :=
  match rqs with
  | [] => ([], c, w)
  | rq :: rqs =>
    let '(r, c, w) := es_call c rq w in
    if usable_after r then let '(rs, c, w) := client_session c rqs w in (r :: rs, c, w) else ([r], c, w)
  end.
End Client.

(** ** The broker at the other end *)

Section Broker.
Context {Gz : Gzip} {Hg : Hashing} {H E : Type} `{PartitionHandle H E}.
Context (text : server_error -> string) (mode : auth_mode).

(** The broker's end of one connection: what it keeps of it ([None]: closed), the
    broker, and what the surroundings decide during the requests to come. *)
Record far_end : Type := mkFar { fe_conn : option conn; fe_broker : broker (H := H); fe_envs : list (request_env (E := E)) }.

(** It reads one frame, handles it and writes the response; a frame it cannot read
    ends the connection. *)
Definition broker_turn (w : far_end) (s : stream) : far_end * stream :=
  match fe_conn w, fe_envs w with
  | Some c, env :: envs =>
    match read_request (max_request_bytes (b_max_record_bytes (fe_broker w))) (st_out s) with
    | Ok (id, op, payload, rest) =>
      let '(c, resp, b) := handle_frame text mode c id op payload env (fe_broker w) in
      (mkFar c b envs, mkStream (st_in s ++ resp) rest (st_room s) (bool_decide (is_Some c)))
    | _ => (mkFar None (fe_broker w) envs, mkStream (st_in s) [] (st_room s) false)
    end
  | _, _ => (w, s)
  end.

(** ** The same calls without a wire *)

(** What the broker does for a call on connection [c]: the key is looked up again,
    the topic checked, the data plane asked. *)
Definition local_data (k : api_key) (rq : es_request) (env : request_env) (b : broker (H := H))
    : outcome error es_reply * broker (H := H) :=
  match rq with
  | RPing => (Ok PPong, b)
  | RProduce q =>
    if can k ActWrite (wq_topic q) then
      match Dataplane.produce k (wq_topic q) (of_wire <$> wq_records q) (wq_producer_id q) (re_produce env) b with
      | (Ok out, b) => (Ok (PProduced (to_wire <$> out)), b)
      | (Err e, b) => (Err (ServerError (text (DataRefused e))), b)
      | (Panic, b) => (Err (Io UnexpectedEof), b)
      end
    else (Err (ServerError (text (NoAccess (k_key_id k) true (wq_topic q)))), b)
  | RConsume q =>
    if can k ActRead (wc_topic q) then
      match Dataplane.consume k (wc_topic q) (wc_partition q) (wc_offset q) (wc_max_records q) (wc_max_bytes q)
              (re_instant env) (re_instant' env) b with
      | (Ok f, b) => (Ok (PConsumed (mkWCRes (wire_of_record (wc_partition q) <$> f_records f) (f_next_offset f)
                            (f_high_watermark f))), b)
      | (Err e, b) => (Err (ServerError (text (DataRefused e))), b)
      | (Panic, b) => (Err (Io UnexpectedEof), b)
      end
    else (Err (ServerError (text (NoAccess (k_key_id k) false (wc_topic q)))), b)
  end.

(** A connection the broker has closed answers nothing. *)
Definition local_call (rq : es_request) (w : far_end) : outcome error es_reply * far_end :=
  match fe_conn w, fe_envs w with
  | Some c, env :: envs =>
    match recheck mode (b_keys (fe_broker w)) c with
    | None => (Err (ServerError (text KeyRevoked)), mkFar None (fe_broker w) envs)
    | Some c => let (r, b) := local_data (cn_key c) rq env (fe_broker w) in (r, mkFar (Some c) b envs)
    end
  | _, _ => (Err (Io UnexpectedEof), w)
  end.

Fixpoint local_session (rqs : list es_request) (w : far_end) : list (outcome error es_reply) * far_end :=
  match rqs with
  | [] => ([], w)
  | rq :: rqs =>
    let (r, w) := local_call rq w in
    if usable_after r then let (rs, w) := local_session rqs w in (r :: rs, w) else ([r], w)
  end.

(** ** What fits into frames *)

Definition request_op (rq : es_request) : opcode :=
  match rq with RPing => OpPing | RProduce _ => OpProduce | RConsume _ => OpConsume end.
Definition request_bytes (rq : es_request) : list byte :=
  match rq with RPing => [] | RProduce q => encode_produce_request q | RConsume q => encode_consume_request q end.
Definition request_ok (rq : es_request) : Prop :=
  match rq with RPing => True | RProduce q => produce_request_ok q | RConsume q => consume_request_ok q end.

Definition answer_op (r : outcome error es_reply) : opcode :=
  match r with
  | Ok PPong => OpPingOk | Ok (PProduced _) => OpProduceOk | Ok (PConsumed _) => OpConsumeOk | _ => OpError
  end.
Definition answer_bytes (r : outcome error es_reply) : list byte :=
  match r with
  | Ok PPong => []
  | Ok (PProduced rs) => encode_produce_response rs
  | Ok (PConsumed c) => encode_consume_response c
  | Err (ServerError m) => as_bytes m
  | _ => []
  end.
Definition answer_ok (r : outcome error es_reply) : Prop :=
  match r with
  | Ok (PProduced rs) => is_u 32 (len rs) /\ Forall produce_result_ok rs
  | Ok (PConsumed c) => consume_response_ok c
  | _ => True
  end.

(** Along a session, every request fits into a frame the broker reads, and every
    answer into one the client reads. *)
Fixpoint fits_along (gzip : bool) (rqs : list es_request) (w : far_end) : Prop :=
  match rqs with
  | [] => True
  | rq :: rqs =>
    let (r, w') := local_call rq w in
    request_ok rq /\ sendable gzip (max_request_bytes (b_max_record_bytes (fe_broker w))) (request_bytes rq) /\
    answer_ok r /\ sendable gzip MAX_FRAME_BYTES (answer_bytes r) /\ (usable_after r = true -> fits_along gzip rqs w')
  end.
End Broker.

(** ** The two client implementations speak the same format *)

Section Format.
Context {Gz : Gzip}.

Lemma frame_same id op payload frame :
  es_encode_frame id op payload = Ok frame <-> Wire.encode_frame id op payload = Some frame.
Proof. unfold es_encode_frame, Wire.encode_frame. destruct (_ && _); split; congruence. Qed.

Lemma compress_same l : es_compress l = Wire.compress l.
Proof. unfold es_compress, Wire.compress, ES_SMALL_PAYLOAD, Wire.SMALL_PAYLOAD. by rewrite <- Z.leb_antisym. Qed.

Lemma decompress_same l cap : es_decompress l cap = map_err Io (Wire.decompress l cap).
Proof. unfold es_decompress, Wire.decompress. destruct (gz_inflate l) as [out clean]. by destruct (cap <? len out), clean. Qed.

Lemma read_exact_app n w k s : st_in s = w ++ k -> n = len w -> read_exact n s = (Ok w, set_in s k).
Proof. intros Hs ->. unfold read_exact. by rewrite Hs, rd_bytes_app. Qed.

Lemma read_exact_short n s : len (st_in s) < n -> read_exact n s = (Err (Io UnexpectedEof), set_in s []).
Proof. intros Hn. unfold read_exact, rd_bytes. by rewrite (proj2 (Z.leb_gt _ _)). Qed.

Lemma write_flush bytes s : st_room s = None ->
  (es_write_all bytes ≫= fun _ => es_flush) s = (Ok (), mkStream (st_in s) (st_out s ++ bytes) None (st_open s)).
Proof. intros Hr. unfold mbind, io_bind, es_write_all. by rewrite Hr. Qed.

(** A frame of the codec is read whole. *)
Lemma read_frame_back id op body frame k s :
  is_u 32 id -> Wire.encode_frame id op body = Some frame -> st_in s = frame ++ k ->
  es_read_frame s = (Ok (id, op, body), set_in s k).
Proof.
  intros Hid Hf Hs. unfold Wire.encode_frame in Hf. case_if_in Hf; [|done]. apply (inj Some) in Hf as <-.
  pose proof (len_nonneg body). unfold es_read_frame, mbind, io_bind.
  rewrite (read_exact_app 4 (to_be 4 (4 + 1 + len body)) (to_be 4 id ++ to_be 1 (opcode_u8 op) ++ body ++ k));
    [|by rewrite Hs, <- !app_assoc|by rewrite to_be_len].
  rewrite from_be4 by (unfold is_u, MAX_FRAME_BYTES in *; lia).
  rewrite (proj2 (Z.leb_le 5 _)), (proj2 (Z.leb_le _ MAX_FRAME_BYTES)) by lia. cbn [negb andb].
  rewrite (read_exact_app 5 (to_be 4 id ++ to_be 1 (opcode_u8 op)) (body ++ k));
    [|by rewrite <- app_assoc|by rewrite len_app, !to_be_len].
  rewrite take_app_length', drop_app_length' by (by rewrite to_be_length).
  rewrite from_be4, from_be_small by (done || by destruct op). rewrite opcode_from_to.
  rewrite (read_exact_app (4 + 1 + len body - 5) body k); [done|done|lia].
Qed.
End Format.

(** ** A call against the broker *)

Section Calls.
Context {Gz : Gzip} {Hg : Hashing} {H E : Type} `{PartitionHandle H E}.
Context (text : server_error -> string) (mode : auth_mode).

Definition es_packed (gzip : bool) (body : list byte) : list byte := if gzip then Wire.compress body else body.

(** The bytes the broker writes for an answer. *)
Definition answer_frame (id : Z) (gzip : bool) (r : outcome error es_reply) : list byte :=
  match r with
  | Err (Io _) => []
  | _ => default [] (Wire.encode_frame id (answer_op r) (es_packed gzip (answer_bytes r)))
  end.

Lemma respond_frame id op body gzip :
  sendable gzip MAX_FRAME_BYTES body ->
  respond text id op body gzip = default [] (Wire.encode_frame id op (es_packed gzip body)).
Proof.
  intros (Hb & _). unfold respond. change (if gzip then Wire.compress body else body) with (es_packed gzip body) in *.
  by rewrite (frame_encodes id op _ Hb).
Qed.

(** What the broker does with a well-formed request frame. *)
Lemma handle_local sc sc' id rq env envs (b : broker (H := H)) :
  recheck mode (b_keys b) sc = Some sc' -> cn_gzip sc' = cn_gzip sc -> request_ok rq ->
  len (request_bytes rq) <= max_request_bytes (b_max_record_bytes b) ->
  let (r, w') := local_call text mode rq (mkFar (Some sc) b (env :: envs)) in
  sendable (cn_gzip sc) MAX_FRAME_BYTES (answer_bytes r) ->
  handle_frame text mode sc id (request_op rq) (es_packed (cn_gzip sc) (request_bytes rq)) env b =
    (fe_conn w', answer_frame id (cn_gzip sc) r, fe_broker w').
Proof.
  intros Hre Hgz Hok Hlen. unfold local_call. cbn [fe_conn fe_envs fe_broker]. rewrite Hre.
  destruct (local_data text (cn_key sc') rq env b) as [r b'] eqn:El. cbn [fe_conn fe_broker]. intros Hs.
  unfold handle_frame. rewrite Hre. unfold triage. rewrite Hgz. destruct rq as [|q|q]; cbn [request_op request_bytes] in *.
  - injection El as <- <-. cbn [fe_conn]. unfold answer_frame. by rewrite (respond_frame id OpPingOk [] (cn_gzip sc)).
  - unfold es_packed at 1. rewrite peek_back, (produce_topic_head q Hok). cbn [local_data] in El.
    destruct (can (cn_key sc') ActWrite (wq_topic q)); [|by injection El as <- <-].
    unfold es_packed at 1. rewrite process_produce by done.
    destruct (Dataplane.produce _ _ _ _ _ b) as [[out|e|] b1]; injection El as <- <-; [..|done];
      unfold answer_frame; by rewrite (respond_frame id _ _ (cn_gzip sc) Hs).
  - unfold es_packed at 1. rewrite peek_back, (consume_topic_head q Hok). cbn [local_data] in El.
    destruct (can (cn_key sc') ActRead (wc_topic q)); [|by injection El as <- <-].
    unfold es_packed at 1. rewrite process_consume by done.
    destruct (Dataplane.consume _ _ _ _ _ _ _ _ b) as [[f|e|] b1]; injection El as <- <-; [..|done];
      unfold answer_frame; by rewrite (respond_frame id _ _ (cn_gzip sc) Hs).
Qed.

(** The client's verdict on an answer. *)
Definition read_answer (rq : es_request) (op : opcode) (body : list byte) : outcome error es_reply :=
  match rq, op with
  | RPing, OpPingOk => Ok PPong
  | RProduce _, OpProduceOk => PProduced <$> map_err (fun e => Protocol (BadBody e)) (decode_produce_response body)
  | RConsume _, OpConsumeOk => PConsumed <$> map_err (fun e => Protocol (BadBody e)) (decode_consume_response body)
  | _, other => unexpected other body
  end.

Lemma call_read {W} (peer : W -> stream -> W * stream) c rq w :
  es_call peer c rq w =
    let '(r, c, w) := es_round_trip peer c (request_op rq) (request_bytes rq) w in
    ('(op, body) ← r; read_answer rq op body, c, w).
Proof.
  destruct rq as [|q|q]; cbn [es_call request_op request_bytes]; unfold ping, es_produce, es_consume;
    destruct (es_round_trip peer c _ _ w) as [[[[op body]|e|] c'] w']; try done; by destruct op.
Qed.

(** An answer the broker can give to a request. *)
Definition answers (rq : es_request) (r : outcome error es_reply) : Prop :=
  match rq, r with
  | RPing, Ok PPong | RProduce _, Ok (PProduced _) | RConsume _, Ok (PConsumed _) => True
  | _, Err (ServerError m) => string_ok m
  | _, Err (Io UnexpectedEof) => True
  | _, _ => False
  end.

Lemma read_answer_back rq r :
  answers rq r -> usable_after r = true -> answer_ok r -> read_answer rq (answer_op r) (answer_bytes r) = r.
Proof.
  intros Ha Hg' Ho. destruct r as [p|[e|e|st m|m]|].
  - destruct rq as [|q|q], p as [|rs|cr]; try done; cbn [read_answer answer_op answer_bytes].
    + assert (decode_produce_response (encode_produce_response rs) = Ok rs) as -> by exact (request_back rs Ho). done.
    + assert (decode_consume_response (encode_consume_response cr) = Ok cr) as -> by exact (request_back cr Ho). done.
  - done.
  - done.
  - done.
  - assert (string_ok m) as Hm by (by destruct rq).
    assert (from_utf8_lossy (as_bytes m) = m) as Hl by (unfold from_utf8_lossy; by rewrite lossy_valid, of_as_bytes).
    destruct rq; cbn; by rewrite Hl.
  - done.
Qed.

Lemma local_answers (Ht : forall e, string_ok (text e)) rq w : answers rq (local_call text mode rq w).1.
Proof.
  unfold local_call. destruct (fe_conn w) as [sc|], (fe_envs w) as [|env envs]; try (by destruct rq).
  destruct (recheck _ _ _) as [sc'|]; [|destruct rq; apply Ht].
  destruct (local_data text (cn_key sc') rq env (fe_broker w)) as [r b'] eqn:El. cbn [fst].
  destruct rq as [|q|q]; cbn [local_data] in El.
  - by injection El as <- _.
  - case_if_in El; [|injection El as <- _; apply Ht].
    destruct (Dataplane.produce _ _ _ _ _ _) as [[out|e|] b1]; injection El as <- _; [done|apply Ht|done].
  - case_if_in El; [|injection El as <- _; apply Ht].
    destruct (Dataplane.consume _ _ _ _ _ _ _ _ _) as [[out|e|] b1]; injection El as <- _; [done|apply Ht|done].
Qed.

(** Nothing is under way: the client has read all it was sent, the broker too. *)
Record synced (c : es_client) (w : far_end (H := H) (E := E)) : Prop := {
  sy_in : st_in (ec_stream c) = [];
  sy_room : st_room (ec_stream c) = None;
  sy_id : is_u 32 (ec_next_request_id c);
  sy_conn : forall sc, fe_conn w = Some sc -> st_out (ec_stream c) = [] /\ cn_gzip sc = ec_gzip c
}.

Lemma recheck_gzip ks sc sc' : recheck mode ks sc = Some sc' -> cn_gzip sc' = cn_gzip sc.
Proof.
  unfold recheck. intros Hre. destruct mode; [by injection Hre as <-|].
  case_if_in Hre; [by injection Hre as <-|]. destruct (get_enabled _ _); [by injection Hre as <-|done].
Qed.

(** The broker's turn: the stream afterwards holds the answer of the local call. *)
Lemma turn_local c rq w frame s :
  synced c w -> request_ok rq ->
  sendable (ec_gzip c) (max_request_bytes (b_max_record_bytes (fe_broker w))) (request_bytes rq) ->
  Wire.encode_frame (ec_next_request_id c) (request_op rq) (es_packed (ec_gzip c) (request_bytes rq)) = Some frame ->
  st_in s = [] -> st_out s = st_out (ec_stream c) ++ frame -> st_room s = None ->
  let (r, w') := local_call text mode rq w in
  sendable (ec_gzip c) MAX_FRAME_BYTES (answer_bytes r) ->
  exists out op, broker_turn text mode w s = (w', mkStream (answer_frame (ec_next_request_id c) (ec_gzip c) r) out None op) /\
    (usable_after r = true -> forall sc, fe_conn w' = Some sc -> out = [] /\ cn_gzip sc = ec_gzip c).
Proof.
  intros Hsy Hok (Hs1 & Hs2 & Hs3) Hf Hin Hout Hroom.
  destruct w as [[sc|] b [|env envs]]; [|..|]; try (destruct s; cbn in *; subst; by eexists _, _).
  destruct (sy_conn _ _ Hsy sc eq_refl) as [Ho Hgz]. rewrite Ho in Hout. cbn [app fe_broker] in *.
  pose proof (read_request_frame _ _ _ _ _ (sy_id _ _ Hsy) Hf Hs2) as Hr.
  unfold local_call, broker_turn. cbn [fe_conn fe_envs fe_broker]. rewrite Hout, Hr, Hin, Hroom.
  destruct (recheck mode (b_keys b) sc) as [sc'|] eqn:Hre.
  - pose proof (recheck_gzip _ _ _ Hre) as Hgz'. rewrite <- Hgz in *.
    pose proof (handle_local sc sc' (ec_next_request_id c) rq env envs b Hre Hgz' Hok Hs3) as Hh.
    unfold local_call in Hh. cbn [fe_conn fe_envs fe_broker] in Hh. rewrite Hre in Hh.
    destruct (local_data text (cn_key sc') rq env b) as [r b']. intros Hs. rewrite (Hh Hs).
    cbn [fe_conn fe_broker app]. eexists _, _. split; [done|]. intros _ ? [= <-]. done.
  - intros Hs. unfold handle_frame. rewrite Hre. cbn [app]. eexists _, _. split; [|done]. by rewrite Hgz.
Qed.

(** One call is the local call, and leaves the connection in step. *)
Lemma call_local (Ht : forall e, string_ok (text e)) c rq w :
  synced c w ->
  let (r, w') := local_call text mode rq w in
  request_ok rq -> sendable (ec_gzip c) (max_request_bytes (b_max_record_bytes (fe_broker w))) (request_bytes rq) ->
  answer_ok r -> sendable (ec_gzip c) MAX_FRAME_BYTES (answer_bytes r) ->
  exists c', es_call (broker_turn text mode) c rq w = (r, c', w') /\ ec_gzip c' = ec_gzip c /\
    (usable_after r = true -> synced c' w').
Proof.
  intros Hsy. pose proof (local_answers Ht rq w) as Ha.
  pose proof (turn_local c rq w) as Hturn. destruct (local_call text mode rq w) as [r w'] eqn:El. cbn [fst] in Ha.
  intros Hok Hs Hao Has. rewrite call_read. unfold es_round_trip. cbn [ec_gzip ec_stream]. rewrite compress_same.
  change (if ec_gzip c then Wire.compress (request_bytes rq) else request_bytes rq) with (es_packed (ec_gzip c) (request_bytes rq)).
  pose proof (frame_encodes (ec_next_request_id c) (request_op rq) (es_packed (ec_gzip c) (request_bytes rq)) (proj1 Hs)) as Hf.
  set (frame := to_be 4 _ ++ _) in Hf. rewrite (proj2 (frame_same _ _ _ frame) Hf).
  rewrite (write_flush frame (ec_stream c) (sy_room _ _ Hsy)).
  edestruct (Hturn frame (mkStream (st_in (ec_stream c)) (st_out (ec_stream c) ++ frame) None (st_open (ec_stream c))))
    as (out & op & -> & Hout); [done|done|done|done|apply (sy_in _ _ Hsy)|done|done|done|].
  assert (r = Err (Io UnexpectedEof) \/ usable_after r = true) as [->|Hgo].
  { destruct rq, r as [[]|[[]| | |]|]; (by left) || (by right) || by destruct Ha. }
  - cbn [answer_frame]. unfold es_read_frame, mbind, io_bind. rewrite read_exact_short by reflexivity.
    eexists. split; [done|]. split; [done|]. done.
  - assert (answer_frame (ec_next_request_id c) (ec_gzip c) r =
      default [] (Wire.encode_frame (ec_next_request_id c) (answer_op r) (es_packed (ec_gzip c) (answer_bytes r)))) as ->
      by (by destruct r as [|[]|]).
    pose proof (frame_encodes (ec_next_request_id c) (answer_op r) (es_packed (ec_gzip c) (answer_bytes r)) (proj1 Has)) as Hfr.
    rewrite Hfr. cbn [default].
    erewrite (read_frame_back (ec_next_request_id c) (answer_op r) _ _ []); [|apply (sy_id _ _ Hsy)|exact Hfr|cbn; by rewrite app_nil_r].
    assert ((if ec_gzip c then es_decompress (es_packed (ec_gzip c) (answer_bytes r)) MAX_FRAME_BYTES
             else Ok (es_packed (ec_gzip c) (answer_bytes r))) = Ok (answer_bytes r)) as Hd.
    { unfold es_packed. destruct (ec_gzip c); [|done]. rewrite decompress_same, decompress_compress by apply Has. done. }
    eexists. split.
    { cbn [mbind outcome_bind]. unfold check_answer. rewrite Z.eqb_refl. cbn [negb ec_gzip]. rewrite Hd.
      cbn [mbind outcome_bind]. by rewrite read_answer_back. }
    split; [reflexivity|]. intros _. split; cbn; [done|done|apply wrap_u_range; lia|]. intros sc Hsc. by apply Hout.
Qed.

Lemma session_local (Ht : forall e, string_ok (text e)) rqs : forall c w,
  synced c w -> fits_along text mode (ec_gzip c) rqs w ->
  exists c', client_session (broker_turn text mode) c rqs w =
    ((local_session text mode rqs w).1, c', (local_session text mode rqs w).2).
Proof.
  induction rqs as [|rq rqs IH]; intros c w Hsy Hfit; [by eexists|]. cbn [client_session local_session fits_along] in *.
  pose proof (call_local Ht c rq w Hsy) as Hc. destruct (local_call text mode rq w) as [r w'].
  destruct Hfit as (H1 & H2 & H3 & H4 & Hfit). destruct (Hc H1 H2 H3 H4) as (c1 & -> & Hgz & Hsy').
  destruct (usable_after r); [|by eexists]. rewrite <- Hgz in Hfit.
  destruct (IH c1 w' (Hsy' eq_refl) (Hfit eq_refl)) as [c2 ->].
  destruct (local_session text mode rqs w') as [rs w2]. by eexists.
Qed.
End Calls.

(** ** Connecting *)

Section Connecting.
Context {Gz : Gzip} {Hg : Hashing} {H E : Type} `{PartitionHandle H E}.
Context (text : server_error -> string) (mode : auth_mode).

Definition fresh : stream := mkStream [] [] None true.

(** The broker's side of the handshake. *)
Definition greet (w : far_end (H := H) (E := E)) (s : stream) : far_end (H := H) (E := E) * stream :=
  let b := fe_broker w in
  match read_handshake (st_out s) with
  | Ok (magic, features, token, too_long, rest) =>
    match identify mode (b_keys b) magic token too_long with
    | inl refusal => (mkFar None b (fe_envs w), mkStream (st_in s ++ refusal) rest (st_room s) false)
    | inr k =>
      let (welcome, c) := negotiate (b_keys b) k features in
      (mkFar (Some c) b (fe_envs w), mkStream (st_in s ++ welcome) rest (st_room s) (st_open s))
    end
  | _ => (mkFar None b (fe_envs w), mkStream (st_in s) [] (st_room s) false)
  end.

(** The reply the server writes, as this client reads it. *)
Lemma handshake_reply (peer : far_end (H := H) (E := E) -> stream -> far_end (H := H) (E := E) * stream) token want w w' s s' st features msg k :
  len (as_bytes token) < 2 ^ 32 -> st_room s = None ->
  peer w (mkStream (st_in s) (st_out s ++ client_hello token want) None (st_open s)) = (w', s') ->
  st_in s' = write_handshake st features msg ++ k -> is_u 32 features -> len (as_bytes msg) <= MAX_HANDSHAKE_MSG ->
  handshake peer token want w s =
    (if bool_decide (st = StOk) then Ok (want && negb (Z.land features FEATURE_GZIP =? 0))
     else Err (Handshake (Some st) (from_utf8_lossy (as_bytes msg))), set_in s' k, w').
Proof.
  intros Ht Hr Hp Hs Hfe Hm. pose proof (len_nonneg (as_bytes token)). pose proof (len_nonneg (as_bytes msg)).
  unfold handshake. rewrite (proj2 (Z.leb_gt _ _)) by done.
  assert (WIRE_MAGIC ++ to_be 4 (if want then FEATURE_GZIP else 0) ++ to_be 4 (len (as_bytes token)) ++ as_bytes token =
    client_hello token want) as -> by (unfold client_hello; by rewrite wrap_u_small by (unfold is_u; lia)).
  rewrite (write_flush _ s Hr), Hp. unfold write_handshake in Hs. unfold MAX_HANDSHAKE_MSG in *.
  rewrite wrap_u_small in Hs by (unfold is_u; lia). unfold mbind, io_bind.
  set (head := WIRE_MAGIC ++ to_be 1 (status_u8 st) ++ to_be 4 features ++ to_be 4 (len (as_bytes msg))).
  rewrite (read_exact_app (4 + 1 + 4 + 4) head (as_bytes msg ++ k));
    [|unfold head; by rewrite Hs, <- !app_assoc|unfold head; by rewrite !len_app, !to_be_len].
  assert (take 4 head = WIRE_MAGIC) as -> by done. rewrite bool_decide_true by done. cbn [negb].
  assert (take 1 (drop 4 head) = to_be 1 (status_u8 st)) as -> by (by destruct st).
  rewrite from_be_small, status_from_to by (by destruct st).
  assert (drop 5 head = to_be 4 features ++ to_be 4 (len (as_bytes msg))) as Hd by (by destruct st).
  assert (drop 9 head = to_be 4 (len (as_bytes msg))) as ->.
  { change (drop 9 head) with (drop (4 + 5) head). rewrite Nat.add_comm, <- drop_drop, Hd.
    by rewrite drop_app_length' by (by rewrite to_be_length). }
  rewrite Hd, take_app_length', (take_ge (to_be 4 (len (as_bytes msg)))) by (rewrite to_be_length; done).
  rewrite !from_be4 by (done || unfold is_u; lia). rewrite (proj2 (Z.ltb_ge _ _)) by done.
  rewrite (read_exact_app _ (as_bytes msg) k) by done. by destruct st.
Qed.

(** The hello is read by the broker as it was meant. *)
Lemma greet_hello token want (b : broker (H := H)) envs :
  len (as_bytes token) <= MAX_TOKEN ->
  greet (mkFar None b envs) (mkStream [] (client_hello token want) None true) =
    match identify mode (b_keys b) WIRE_MAGIC (as_bytes token) false with
    | inl refusal => (mkFar None b envs, mkStream refusal [] None false)
    | inr k =>
      let (welcome, c) := negotiate (b_keys b) k (if want then FEATURE_GZIP else 0) in
      (mkFar (Some c) b envs, mkStream welcome [] None true)
    end.
Proof.
  intros Ht. unfold greet. cbn [st_out fe_broker fe_envs st_in st_room st_open].
  pose proof (read_handshake_hello token want [] Ht) as Hr. rewrite app_nil_r in Hr. by rewrite Hr.
Qed.

(** A connection that was accepted starts in step. *)
Lemma connect_synced token want (b : broker (H := H)) envs k :
  len (as_bytes token) <= MAX_TOKEN ->
  identify mode (b_keys b) WIRE_MAGIC (as_bytes token) false = inr k ->
  let w := mkFar (Some (mkConn k (ks_revocations (b_keys b)) want)) b envs in
  exists c, connect greet [Ok fresh] token want (mkFar None b envs) = (Ok c, w) /\ ec_gzip c = want /\ synced c w.
Proof.
  intros Ht Hi w. pose proof (greet_hello token want b envs Ht) as Hg'. rewrite Hi in Hg'.
  set (s' := mkStream (write_handshake StOk (Z.land (if want then FEATURE_GZIP else 0) FEATURE_GZIP) "") [] None true).
  assert (greet (mkFar None b envs) (mkStream (st_in fresh) (st_out fresh ++ client_hello token want) None (st_open fresh)) = (w, s')) as Hp.
  { cbn [fresh st_in st_out st_open app]. rewrite Hg'. unfold w, s', negotiate. by destruct want. }
  pose proof (handshake_reply greet token want (mkFar None b envs) w fresh s' StOk
    (Z.land (if want then FEATURE_GZIP else 0) FEATURE_GZIP) "" []) as Hh.
  unfold connect. cbn [connect_loop]. unfold handshake_on. unfold MAX_TOKEN in Ht.
  rewrite Hh; [|lia|done|exact Hp|by rewrite app_nil_r|destruct want; vm_compute; split; congruence|vm_compute; congruence].
  cbn [bool_decide decide_rel]. eexists. split; [done|]. split; [by destruct want|].
  split; cbn; [done|done|unfold is_u; lia|]. intros sc [= <-]. split; [done|]. cbn. by destruct want.
Qed.
End Connecting.

(** ** Properties *)

Section EsClientClaims.
Context {Gz : Gzip} {Hg : Hashing} {H E : Type} `{PartitionHandle H E}.

(** C18: a session through the stand-alone client is the same calls made on the
    broker.  A client with a token the broker accepts connects, with compression if
    it asked for it.  Then, for any calls, each returns what the data plane answered
    to that very request with the connection's key (its records, its offsets, or its
    error with the connection kept), and the broker ends in the state the calls leave
    it in; a key revoked on the way is reported and the calls behind it fail.  Every
    request and every answer has to fit into a frame. *)
Theorem session_is_local text mode token want (b : broker (H := H)) envs k rqs :
  (forall e, string_ok (text e)) -> len (as_bytes token) <= MAX_TOKEN ->
  identify mode (b_keys b) WIRE_MAGIC (as_bytes token) false = inr k ->
  let w := mkFar (Some (mkConn k (ks_revocations (b_keys b)) want)) b envs in
  fits_along text mode want rqs w ->
  exists c c', connect (greet mode) [Ok fresh] token want (mkFar None b envs) = (Ok c, w) /\ ec_gzip c = want /\
    client_session (broker_turn text mode) c rqs w = ((local_session text mode rqs w).1, c', (local_session text mode rqs w).2).
Proof.
  intros Ht Hl Hi w Hf. destruct (connect_synced mode token want b envs k Hl Hi) as (c & Hc & Hgz & Hs).
  rewrite <- Hgz in Hf. destruct (session_local text mode Ht rqs c _ Hs Hf) as [c' Hc']. by exists c, c'.
Qed.
End EsClientClaims.

Module EsDemo.
#[local] Existing Instance crc32_ieee_class.
#[local] Existing Instance gzip_stored.
#[local] Existing Instance toy_hashing.

Definition calls : list es_request :=
  [RProduce demo_request; RConsume (mkWCReq "t" 1 0 10 1000); RConsume (mkWCReq "none" 0 0 10 1000); RPing].
Definition req_env : request_env := mkReqEnv demo_env 0 0.
Definition at_open : far_end := mkFar (Some (mkConn ANONYMOUS_ADMIN 0 true)) demo_broker [req_env; req_env; req_env; req_env].

Definition replies : list (outcome error es_reply) :=
  [Ok (PProduced [mkWPRes 0 0 false; mkWPRes 1 0 false; mkWPRes 1 1 false]);
   Ok (PConsumed (mkWCRes [mkWRec 1 0 100 None [x0b]; mkWRec 1 1 100 None [x0c]] 2 2));
   Err (ServerError "error"); Ok PPong].

Lemma local_replies : (local_session demo_text AuthDisabled calls at_open).1 = replies.
Proof. vm_compute. reflexivity. Qed.

(** One more call of a session that fits. *)
Lemma fits_cons text mode gzip rq rqs (w : far_end (H := Partition.partition) (E := plain_env)) r :
  (local_call text mode rq w).1 = r -> request_ok rq ->
  sendable gzip (max_request_bytes (b_max_record_bytes (fe_broker w))) (request_bytes rq) ->
  answer_ok r -> sendable gzip MAX_FRAME_BYTES (answer_bytes r) -> fits_along text mode gzip rqs (local_call text mode rq w).2 ->
  fits_along text mode gzip (rq :: rqs) w.
Proof. intros <- ?? ?? ?. cbn [fits_along]. by destruct (local_call text mode rq w). Qed.

Lemma calls_fit : fits_along demo_text AuthDisabled true calls at_open.
Proof.
  unfold calls. eapply fits_cons; [vm_compute; reflexivity|exact demo_request_ok|split_and!; vm_compute; congruence| | |].
  { split; [vm_compute; split; congruence|]. repeat constructor; vm_compute; congruence. }
  { split_and!; vm_compute; congruence. }
  eapply fits_cons; [vm_compute; reflexivity|split_and!; by vm_compute|split_and!; vm_compute; congruence| | |].
  { split_and!; [by vm_compute..|]. repeat constructor; by vm_compute. }
  { split_and!; vm_compute; congruence. }
  eapply fits_cons; [vm_compute; reflexivity|split_and!; by vm_compute|split_and!; vm_compute; congruence|done| |].
  { split_and!; vm_compute; congruence. }
  eapply fits_cons; [vm_compute; reflexivity|done|split_and!; vm_compute; congruence|done| |done].
  split_and!; vm_compute; congruence.
Qed.

Lemma session_is_local_witness :
  exists c c' w', connect (greet AuthDisabled) [Ok fresh] "" true (mkFar None demo_broker [req_env; req_env; req_env; req_env]) = (Ok c, at_open) /\
    client_session (broker_turn demo_text AuthDisabled) c calls at_open = (replies, c', w').
Proof.
  destruct (session_is_local demo_text AuthDisabled "" true demo_broker [req_env; req_env; req_env; req_env] ANONYMOUS_ADMIN calls)
    as (c & c' & H1 & _ & H2).
  - done.
  - vm_compute. congruence.
  - reflexivity.
  - exact calls_fit.
  - change (mkFar (Some (mkConn ANONYMOUS_ADMIN (ks_revocations (b_keys demo_broker)) true)) demo_broker [req_env; req_env; req_env; req_env])
      with at_open in H1, H2.
    rewrite local_replies in H2. eauto.
Defined.

(** Why an unusable connection has to be dropped.  The answer to call 1 comes late
    and in two parts; its body, chosen by whoever produced the record, is read from
    the second part as the answer to call 2. *)
Definition forged : list byte := default [] (Wire.encode_frame 2 OpProduceOk (encode_produce_response [mkWPRes 0 41 false])).
Definition late_frame : list byte := default [] (Wire.encode_frame 1 OpConsumeOk forged).

(** The network hands over one part per call. *)
Definition in_parts (w : list (list byte)) (s : stream) : list (list byte) * stream :=
  match w with [] => (w, s) | part :: w => (w, set_in s (st_in s ++ part)) end.

Example stale_connection_forges :
  let c0 := mkEs fresh 1 false in
  let '(r1, c1, w1) := es_consume in_parts c0 (mkWCReq "t" 0 0 10 1000) [take 9 late_frame; drop 9 late_frame] in
  let '(r2, c2, w2) := es_produce in_parts c1 demo_request w1 in
  r1 = Err (Io UnexpectedEof) /\ connection_usable (Io UnexpectedEof) = false /\ r2 = Ok [mkWPRes 0 41 false].
Proof. vm_compute. by split_and!. Qed.
End EsDemo.
