(* ===== verification/RaftStatus.v ===== *)
(** * What a member reports about replication (http/raft_status.rs, [peers_heard_from] of raft/node.rs)

    [GET /raft]: for every replicated partition of the broker its role, term and
    commit index, which members hold everything committed, and whether that is a
    majority of the configured group.  [quorum_report]: a leader reports a quorum
    exactly when a majority in the sense of the agreement proofs, itself included, has
    been heard from lately and has acknowledged its commit index. *)

From S2P Require Import RaftAgreement Auth Config.
From stdpp Require Import gmap strings sorting.

#[local] Open Scope Z_scope.

(** ** Liveness *)

(** Three seconds, in milliseconds. *)
Definition PEER_LIVENESS_WINDOW : Z := 3 * 1000.

(** The node loop notes the sender of every message that arrives. *)
Definition note_contact (contact : gmap Z Z) (sender now : Z) : gmap Z Z := <[sender := now]> contact.

(** [duration_since] is zero for an instant that has not come yet. *)
Definition heard (contact : gmap Z Z) (now within peer : Z) : bool :=
  match contact !! peer with Some seen => Z.max 0 (now - seen) <=? within | None => false end.

Definition peers_heard_from (contact : gmap Z Z) (now within : Z) : list Z :=
  merge_sort Z.le (filter (fun p => heard contact now within p = true) (map_to_list contact).*1).

(** ** The report *)

Record partition_status : Type := mkStatus {
  ps_topic : string; ps_partition : Z; ps_role : role; ps_term : Z; ps_leader : option Z; ps_commit_index : Z;
  ps_last_log_index : Z; ps_caught_up : list Z; ps_has_quorum : option bool }.

Record raft_report : Type := mkReport {
  rr_node_id : option Z; rr_members : list Z; rr_partitions : list partition_status; rr_replicating : bool }.

(** A replicated partition: its number, its node's state, when its peers were heard. *)
Record group_view : Type := mkView { gv_id : Z; gv_state : raft_state; gv_contact : gmap Z Z }.

Definition caught_up (s : raft_state) (alive : list Z) : list Z :=
  let others := filter (fun p => rs_commit_index s <= get_or (rs_match_index s) p 0 /\ p ∈ alive)
                  (map_to_list (rs_match_index s)).*1 in
  sort_dedup (others ++ [rs_me s]).

Definition status_of (topic : string) (majority now : Z) (v : group_view) : partition_status :=
  let s := gv_state v in
  let alive := peers_heard_from (gv_contact v) now PEER_LIVENESS_WINDOW in
  let caught := caught_up s alive in
  let has_quorum := match rs_role s with Leader => Some (majority <=? len caught) | _ => None end in
  mkStatus topic (gv_id v) (rs_role s) (rs_current_term s) (rs_leader_hint s) (rs_commit_index s)
    (last_index (rs_log s)) caught has_quorum.

Definition is_replicating (p : partition_status) : bool :=
  match ps_has_quorum p with
  | Some quorum => quorum
  | None => bool_decide (is_Some (ps_leader p)) && match ps_role p with Follower => true | _ => false end
  end.

Definition group_members (c : config) : list Z :=
  merge_sort Z.le ((cf_raft_peer_addrs c).*1 ++ match cf_raft_node_id c with Some me => [me] | None => [] end).

(** The handler; [None] is the refusal of a caller without an admin grant. *)
Definition raft_status (k : api_key) (c : config) (topics : gmap string (list group_view)) (now : Z) : option raft_report :=
  if negb (is_admin k) then None else
  let members := group_members c in
  let majority := len members / 2 + 1 in
  let names := merge_sort string_le (map_to_list topics).*1 in
  let partitions := names ≫= fun name => status_of name majority now <$> default [] (topics !! name) in
  Some (mkReport (cf_raft_node_id c) members partitions (forallb is_replicating partitions)).

(** ** Properties *)

Lemma heard_elem contact now within p : p ∈ peers_heard_from contact now within <-> heard contact now within p = true.
Proof.
  unfold peers_heard_from. rewrite merge_sort_Permutation, list_elem_of_filter. split; [by intros [? _]|].
  intros Hp. split; [done|]. unfold heard in Hp. destruct (contact !! p) as [t|] eqn:Ep; [|done].
  apply list_elem_of_fmap. exists (p, t). split; [done|]. by apply elem_of_map_to_list.
Qed.

Lemma caught_elem s alive j :
  j ∈ caught_up s alive <->
  j = rs_me s \/ (j ∈ alive /\ exists m, rs_match_index s !! j = Some m /\ rs_commit_index s <= m).
Proof.
  unfold caught_up. rewrite sort_dedup_elem, elem_of_app, list_elem_of_singleton, list_elem_of_filter. split.
  - intros [[[Hm Ha] Hin]|Hj]; [right|by left]. split; [done|].
    apply list_elem_of_fmap in Hin as ([p m] & -> & Hin). apply elem_of_map_to_list in Hin. cbn in *. exists m.
    split; [done|]. unfold get_or in Hm. by rewrite Hin in Hm.
  - intros [Hj|(Ha & m & Hm & Hc)]; [by right|left]. unfold get_or. rewrite Hm. split; [done|].
    apply list_elem_of_fmap. exists (j, m). split; [done|]. by apply elem_of_map_to_list.
Qed.

(** A leader's quorum is a majority that was heard from and has acknowledged what is
    committed.  [members] is the configured group, and the leader tracks nobody else. *)
Theorem quorum_report members s contact now topic id :
  NoDup members -> rs_me s :: rs_peers s ≡ₚ members -> dom (rs_match_index s) ⊆ list_to_set (rs_peers s) ->
  rs_role s = Leader ->
  ps_has_quorum (status_of topic (len members / 2 + 1) now (mkView id s contact)) = Some true <->
  exists Q, majority members Q /\ rs_me s ∈ Q /\
    forall j, j ∈ Q -> j = rs_me s \/
      (heard contact now PEER_LIVENESS_WINDOW j = true /\ exists m, rs_match_index s !! j = Some m /\ rs_commit_index s <= m).
Proof.
  intros Hnd Hp Hdom Hr. cbn. rewrite Hr.
  set (caught := caught_up s (peers_heard_from contact now PEER_LIVENESS_WINDOW)).
  assert (forall j, j ∈ caught <-> j = rs_me s \/
    (heard contact now PEER_LIVENESS_WINDOW j = true /\ exists m, rs_match_index s !! j = Some m /\ rs_commit_index s <= m)) as Hc.
  { intros j. unfold caught. by rewrite caught_elem, heard_elem. }
  assert (NoDup caught) as Hcn by apply sort_dedup_nodup. pose proof (Z.div_mod (len members) 2 ltac:(lia)) as Hdm.
  pose proof (Z.mod_pos_bound (len members) 2 ltac:(lia)) as Hmod.
  trans (len members / 2 + 1 <= len caught); [split; [intros [= E]; lia|intros Hle; f_equal; lia]|]. split.
  - intros Hle. exists (list_to_set caught). split_and!; [split| |].
    + intros j. rewrite elem_of_list_to_set, Hc, <- Hp. intros [->|(_ & m & Hm & _)]; [by left|right].
      apply elem_of_dom_2 in Hm. apply Hdom in Hm. by apply elem_of_list_to_set in Hm.
    + rewrite size_list_to_set by done. unfold len in *. lia.
    + apply elem_of_list_to_set, Hc. by left.
    + intros j. rewrite elem_of_list_to_set. by apply Hc.
  - intros (Q & [_ Hsize] & _ & HQ). assert (Q ⊆ (list_to_set caught : gset Z)) as Hsub.
    { intros j Hj. apply elem_of_list_to_set, Hc. by apply HQ. }
    apply subseteq_size in Hsub. rewrite size_list_to_set in Hsub by done. unfold len in *. lia.
Qed.

(** ** Examples *)

(** The leader of the sample run has committed with node 2; node 3 is far behind. *)
Definition sample_leader : raft_state := state_of (run_of first_commit) 1.

(** Heard from node 2 lately it reports a quorum; once node 2 is silent it does not,
    although its acknowledgement is still on record. *)
Example silent_peer_does_not_count :
  let report contact := ps_has_quorum (status_of "orders" 2 10000 (mkView 0 sample_leader contact)) in
  rs_commit_index sample_leader = 1 /\ rs_match_index sample_leader !! 2 = Some 1 /\
  report (note_contact ∅ 2 8000) = Some true /\ report (note_contact ∅ 2 6000) = Some false.
Proof. vm_compute. by split_and!. Qed.

(** A follower that knows its leader is replicating, a candidate never is. *)
Example roles_report :
  let report r hint := is_replicating (mkStatus "orders" 0 r 7 hint 12 12 [1] None) in
  report Follower (Some 2) = true /\ report Follower None = false /\ report Candidate (Some 1) = false.
Proof. by vm_compute. Qed.
